(* ===== verification/_CoqProject ===== *)
-Q . S2P
Prelude.v
Cstd.v
PtxAsm.v
Philox.v
SigAlgebra.v
Expr.v
Arena.v
LlvmInt.v
ArenaSem.v
ArenaCmp.v
ArenaLits.v
ArenaContra.v
ArenaCond.v
ArenaCondSem.v
ArenaCondLits.v
ArenaCondClauses.v
ArenaCondSound.v
ArenaCondTotal.v
ArenaCondThm.v
ArenaValue.v
ArenaFold.v
ArenaBytes.v
ArenaIte.v
ArenaSlice.v
ArenaJoin.v
ArenaValueThm.v
TensorPoly.v
DevEval.v
DevEvalSem.v
DevEvalThm.v
DevEvalRun.v
DevBlocks.v
DevBlocksThm.v
TpLayout.v
TpLayoutThm.v
TpTile.v
Hnf.v
Recurrence.v
Coords.v
Coordinates.v
Stir.v
StirBuild.v
Schedule.v
ScheduleText.v
Fp64.v
Fp8.v
SoftDouble.v
SoftRound.v
SoftDoubleThm.v
SoftSqrt.v
SoftConv.v
SoftIeee.v
ScheduleCost.v
Legality.v
Engine.v
SelfTest.v
MslFlow.v
MslFlowSem.v
MslFlowSim.v
MslFlowBfs.v
MslFlowThm.v
MslExpr.v
MslExprThm.v
MslLayout.v
MslDataLayout.v
MslLayoutThm.v
MslBlocks.v
