(* ===== verification/Prelude.v ===== *)
(** * Verification of mvcc's analysis and scheduling core

    mvcc compiles CUDA kernels to Metal.  Between the LLVM IR of a kernel and the Metal text stands
    the part this library is about: a symbolic executor that names the addresses and the values of
    a kernel, a discovery of the logical coordinates the addresses are affine in, a tile IR free of
    the physical schedule, a schedule language, a legality checker, a cost model, and an engine that
    chooses a schedule; and an emitter that writes a kernel's control flow, scalar expressions and
    memory layout in Metal.  Beside it stand the proof that a warp's fragment loads are a tile of
    memory, which tensor recovery rests on, the layout of the tiles it writes, and self-contained routines
    whose results a program observes: the inline PTX parser, cuRAND's Philox generator, the FP8
    conversions and the [double] of device code.

    ** The files, and what they model (paths under src/)

    - Prelude: notation, machine words, lemmas on lists and finite sums used everywhere.
    - Cstd: the C and C++ library functions the sources call on strings (character classes,
      number printing and parsing, stream tokens, lines).
    - PtxAsm (cpp/mvcc-llvm/ptx_asm.h, ptx_asm.cpp): the lexer, operands, instructions, scopes and
      error messages of the inline PTX parser.
    - Philox (include/curand_kernel.h, cpp/mvcc-metal/curand_host.cpp): the device generator with
      its buffered words, skips and Box-Muller pair, and the host fill.
    - Fp8 (include/cuda_fp8.h): the conversions float -> E4M3/E5M2 -> float on bit patterns.
    - Fp64: IEEE binary64 arithmetic, order and text, as the cost model and the engine use it.
    - SoftDouble, SoftRound, SoftDoubleThm, SoftSqrt, SoftConv, SoftIeee (msl/mvcc_prelude.metal,
      namespace [mvcc_f64d]): binary64 with 64-bit integers, for a GPU that has none.  SoftRound is
      rounding of a rational, which both the code and the Standard Library's [SpecFloat] do.
    - Expr, Arena, ArenaSem, ArenaCmp, ArenaLits, ArenaContra (cpp/mvcc-llvm/symexec.h and the
      class Arena of symexec.cpp): the hash-consed store of expressions as the state of a monad,
      polynomials, comparisons, what a literal says of another, contradictory conjunctions.
      ArenaSem gives expressions a meaning and the store its invariant [wf]; [spec m s Q] says the
      operation [m] succeeds from [s], keeps [wf], only extends the store, and gives [Q].
    - ArenaCond, ArenaCondSem, ArenaCondLits, ArenaCondClauses, ArenaCondSound, ArenaCondTotal,
      ArenaCondThm (the path conditions of symexec.cpp): [notb], [andb], [orb], [implies],
      [disjoint], [given], [factor] with their tables, resolution of clauses and guard symbols.
      ArenaCond holds the definitions; the functions call each other, so each is a body over a record
      [Ops] of the calls and [ops n] ties them at depth [n]; [sound] and [ops_ok] are the interface.
    - ArenaValue, ArenaFold, ArenaBytes, ArenaIte, ArenaSlice, ArenaJoin, ArenaValueThm (the values of
      symexec.cpp): [unop], [binop], [cast], [ite], [load], [call], [concat], and a value as its
      bytes, [bytes], [toBytes], [fromBytes], with their tables, again bodies over a record [BOps].
      ArenaBytes says what bytes an expression holds ([ob]); ArenaSlice and ArenaJoin show the bodies.
    - LlvmInt: what LLVM's language reference says integer instructions compute, the specification
      against which the arena's folding, the evaluator of addresses and the emitter are shown.
    - TensorPoly, DevEval, DevEvalSem, DevEvalThm, DevEvalRun, DevBlocks, DevBlocksThm
      (cpp/mvcc-llvm/tensor_recovery.cpp): the polynomials with an overflow flag, the evaluator of an
      address for one thread, its meaning in an execution, and [proveDeviceBlocks].
    - TpLayout, TpLayoutThm, TpTile (the mvcc_tp functions of msl/mvcc_prelude.metal; lawRowIR and
      lawColIR of cpp/mvcc-llvm/emit.cpp): where a lane's elements lie in a cooperative tile, the fills
      of operand blocks, the accumulator conversions, and the origin of a tile found at run time.
    - Hnf, Coords, Coordinates (cpp/mvcc-llvm/coords.h, coords.cpp): the Hermite normal form, the
      affine fit of a site's samples, families and derived axes, and the end of [discover]: the
      stride matrix, the basis change and the strides along the logical coordinates.
    - SigAlgebra, Recurrence (cpp/mvcc-llvm/sig.h, sig.cpp): the algebras, the permissions they
      grant, and the classification of what a loop carries.
    - Stir, StirBuild (cpp/mvcc-llvm/stir.h, stir.cpp): the tile IR's data and programs built by hand;
      [build], from fitted sites to tensors, dimensions, index maps and the round trip.
    - Schedule, ScheduleText, ScheduleCost (cpp/mvcc-llvm/schedule.h, schedule.cpp): the schedule of
      a program and its edits; printing and parsing; the cost model and the candidate search.
    - Legality (cpp/mvcc-llvm/legality.h, legality.cpp): the checks L1 to L13 of a schedule and the
      obligations of a graph of kernels.
    - Engine, SelfTest (cpp/mvcc-llvm/engine.h, engine.cpp): plans, the database of winners, the
      choice, the explanation, the entry points; the self-test as a list of expectations.

    - MslFlow, MslFlowSem, MslFlowSim, MslFlowBfs, MslFlowThm (cpp/mvcc-llvm/msl_emitter.cpp,
      emitKernel's body): the structured walk over the dominator tree, the state machine used when
      that fails, phi copies and the search for joins, as functions from a control-flow graph to
      structured statements; MslFlowSem gives both a semantics.
    - MslExpr, MslExprThm (the right sides in msl_emitter.cpp): integer binary instructions,
      comparisons, selects and casts as Metal expressions, with C's conversions as their meaning.
    - MslLayout, MslDataLayout, MslLayoutThm, MslBlocks (layoutSharedMemory, layoutGlobals,
      serializeInit, the parameter block): where objects lie and what the buffers hold.

    They are joined as in the code: the arena's operations compute the samples and strides Coords and
    Coordinates fit and reduce; their SiteMap is StirBuild's input, whose Program (Stir) with the
    permissions of SigAlgebra is what Schedule, Legality, ScheduleCost and Engine work on.

    ** What is shown

    - Choosing a schedule: the checker accepts exactly the schedules its rules allow, and reports exactly
      the violated ones ([check_iff_legal], [check_report_exact], [checkGraph_iff_legal]; two rules its
      comments announce are enforced nowhere, [storage_unchecked]); what it accepts keeps the results of
      the loops, for values of any algebra ([legal_schedule_sound]); the engine only emits
      legal plans, chooses a cheapest one and honours the database ([choose_sound],
      [choose_cheapest], [choose_prefers_db]); the search keeps the source schedule
      ([candidates_correct]); the edits keep well-formedness; text round trips on
      what it prints ([schedule_roundtrip]); the self-test passes.
    - Symbolic arithmetic: interning gives the node asked for, and one pointer per node ([hash_consing],
      [polynomials_canonical]), and arithmetic, comparison, implication, decision and contradiction
      of literals mean what they compute ([arithmetic_sound], [cmp_sound], [litImplies_sound],
      [decideLit_sound], [contradictory_sound]).
    - Path conditions: the connectives, with every shortcut and table, keep the truth value in every
      model of the store they leave, and return on conditions without guard symbols; a yes of [implies] or [disjoint] is true in every model; factoring and rewriting under a
      context keep it where the context holds; on conditions without guard symbols the calls end within
      a depth bounded by the number of clauses ([connectives_sound], [answers_sound],
      [rewriting_sound], [conditions_end]).
    - Values and memory: an integer instruction has LLVM's value modulo the width ([binop_sound],
      [conversions_fold]); a part of a value has the value's bytes, joined bytes are in order, and a
      value written and read back is the value ([bytes_sound], [fromBytes_sound],
      [memory_round_trip]); a selection has the bytes of the chosen arm, whichever way its
      condition is turned ([ite_sound]).
    - Tensor fragments: what the evaluator says of an address holds in every execution
      ([evaluation_sound]); loads it accepts are fragments of tiles, and the operation works on one tile
      ([fragments_are_tiles], [op_is_one_tile]), whose words the code written for it reads
      ([operand_read]); the conversions move every element to its place, and the ring of copies reads
      the block that was copied ([conversions_exact], [ring_block]).
    - Emission: both forms of the control flow run as the graph does ([structured_preserves],
      [state_machine_preserves]), the walk ends ([emission_ends]), copies into phis are parallel;
      expressions compute what LLVM's instructions do ([binary_sound],
      [comparisons_and_casts_sound]); objects in the buffers are aligned, disjoint and inside, and hold their
      initializers ([globals_loaded], [shared_objects]); parameters lie where the record says when Metal
      aligns no field more strictly than the record ([parameter_block]).
    - From samples to coordinates: a fit reproduces every sample and fails only when no affine map does
      ([fit_exact], [fitExtended_correct], [splitFamilies_partition]); the Hermite form is one and
      changes the basis over the integers ([hnf_hermite], [basis_change]); the coordinates carry
      the same addresses ([coordinates_reproduce]); building the tile IR loses none of them
      ([build_round_trip]).
    - Recurrences: a value classified by its expression has the algebraic form its algebra promises, and
      the permissions follow from it ([classifyRecurrence_sound], [permissionsOf_sound]).
    - Numbers: the generator is a position in one sequence; the FP8 conversions give a nearest
      representable value, the fast one agrees with the general one, and decoding inverts encoding; the [double]
      of device code is IEEE binary64 ([double_ieee]).
    - Errors: the parser always stops with a result or a message; the comparison diverges on a described
      set of inputs ([cmp_diverges]).  What the proofs showed to be wrong in the sources has theorems too
      (for instance [aggregate_sum_undefined], [half_zero_is_max_identity], [graph_L11_misreported],
      [bad_number_throws], [float_immediate_truncated], [urem_by_minus_one], [wide_constant_bytes],
      [dropped_jump_accepted], [emitted_differs], [narrow_pointer_overwrites],
      [dynamic_alignment_ignored], [small_bound_no_scratch], [bool_extensions_confused],
      [storage_unchecked], [subtraction_from_classified_sum]).

    ** Conventions and bounds

    Pointers to expressions are their creation indices.  Undefined behaviour (an index out of range, a
    null dereference, a stuck cast) is [None]; a theorem with [spec] shows it does not happen.  LLVM's
    functions (predicates, names of values, users of an instruction) are parameters with the
    documented laws as hypotheses.  64-bit coefficients are integers where the sources compute
    addresses, since overflow of a signed integer is undefined there; words that wrap ([uint32_t] of
    the generator, depths of the parser, bit patterns) wrap.

    Fuel appears where the source loops without a structural measure: the PTX parser (one unit per
    character; every turn consumes one), [cmp] (3: it recurs at most twice unless it diverges, which
    [cmp_diverges] describes), [conjuncts] and [classifyOne] (the index of the expression: arguments
    are older than the node), [irFeedsPhi] (the source's own depth limit), the elimination of a column
    ([column_fuel]: the pivot shrinks), [gcd_loop] (two steps halve the smaller number; [gcd64_gcd]
    shows the result is the gcd), decimal printing (one unit per bit).  The path conditions are tied at any
    depth: soundness holds at every one, and [conditions_end] gives a depth, a product and a sum
    of numbers of clauses, at which they return.  [resolve] has as fuel the literals it can still remove.  The bytes
    are tied at a depth: the square of the index of the expression is enough ([fuel_bytes]), for calls
    go to older expressions.  The structured walk has two more than the number of blocks (no block is
    emitted twice), a search over blocks as many turns as there are blocks.  The evaluator of addresses
    has the source's own limit of 256 levels, the propagation of [taint] one turn per instruction.  The
    theorems are about the fuelled functions at the fuel the definitions fix, and say that they return.

    What is assumed, as hypotheses of theorems or laws of classes: the values of symbols and opaque
    expressions are in the range of their type where the source takes them to be (path conditions,
    extensions of symbolic values); constants fit their type; a floating comparison's inverse is its
    negation; an opaque integer instruction has LLVM's value ([int_law]); the sizes of types are
    LLVM's ([SizeLaws], [DataLayout]), and a type is in memory when its bits fill its bytes (so [i1]
    and odd widths are not read back as bytes); the module-scope buffer is below 4 GB; the walk met
    every jump it wrote ([complete], whose failure is [dropped_jump_accepted]); integer arithmetic on
    the addresses of tensor fragments does not wrap, as the source says, executions do what LLVM says
    ([lawful]), and the threads of a warp agree on the values the source takes to be uniform
    ([warp_uniform]).  Termination of the path
    conditions with guard symbols is not shown, and their meaning is in stores that are still well typed
    afterwards (the constant of a comparison built on the way may leave 64 bits, which is undefined in the
    source).

    ** Not modelled

    The executor itself (class Executor of symexec.cpp), the classification keys, substitution and
    printing of the arena, loop classification in sig.cpp, the text of declarations, calls and
    intrinsics in msl_emitter, and the passes that rewrite LLVM IR (emit, staging_elim, the rest of
    tensor_recovery, dot_recovery, wide_vectors, msl_guarded, nvptx_convergence, ir2msl) are walks over
    LLVM's data structures: their meaning is that of LLVM's IR and of Metal, which are not in this
    repository.  The runtime (crates/, mvcc_metal.mm) is Metal and file input and output, but for the
    patching of pointers that MslLayout needs; the reports ([dump] of stir.cpp, the lines of discover,
    polyStr) are text.  The floating-point part of cuRAND ([logf], [sinf]) and LLVM's floating-point
    folding are parameters.  Of the [double] of device code, the conversions of [float] and the
    roundings to an integral value are left out. *)
From Stdlib Require Export ZArith Lia Ascii String.
From stdpp Require Export base numbers list strings gmap sets.

(** ** Notations *)
Declare Scope mvcc_scope.
Delimit Scope mvcc_scope with mvcc.
Open Scope Z_scope.
Open Scope mvcc_scope.

(** ** Machine words: an unsigned w-bit integer is a [Z] in [0, 2^w) *)
Definition u8 (x : Z) : Z := x mod 2 ^ 8.
Definition u32 (x : Z) : Z := x mod 2 ^ 32.
Definition u64 (x : Z) : Z := x mod 2 ^ 64.

(** two's complement reading of the low [w] bits *)
Definition sext (w : Z) (x : Z) : Z :=
  let u := x mod 2 ^ w in if u <? 2 ^ (w - 1) then u else u - 2 ^ w.

Definition is_u32 (x : Z) : Prop := 0 <= x < 2 ^ 32.
Definition is_u64 (x : Z) : Prop := 0 <= x < 2 ^ 64.

Create HintDb mvcc_words.
Create Rewrite HintDb mvcc_words.

(** ** Tactics *)

(** evaluate closed powers of two so that [lia] sees literals *)
Ltac norm_pow :=
  repeat match goal with
  | H : context [2 ^ ?n] |- _ =>
      match n with Zpos _ => let v := eval vm_compute in (2 ^ n) in change (2 ^ n) with v in H end
  | |- context [2 ^ ?n] =>
      match n with Zpos _ => let v := eval vm_compute in (2 ^ n) in change (2 ^ n) with v end
  end.

(** [lia] after unfolding the word operations and adding the division equations *)
Ltac word_lia :=
  unfold is_u32, is_u64, u8, u32, u64 in *; norm_pow;
  Z.div_mod_to_equations; lia.

(** ** Lemmas on words *)
Lemma u32_bound x : is_u32 (u32 x).
Proof. word_lia. Qed.
Lemma u64_bound x : is_u64 (u64 x).
Proof. word_lia. Qed.
Lemma u32_small x : is_u32 x → u32 x = x.
Proof. intros H. by apply Z.mod_small. Qed.
Lemma u64_small x : is_u64 x → u64 x = x.
Proof. intros H. by apply Z.mod_small. Qed.
#[export] Hint Resolve u32_bound u64_bound : mvcc_words.
#[export] Hint Rewrite u32_small u64_small using (auto with mvcc_words; word_lia) : mvcc_words.

Lemma lxor_bound w a b :
  0 <= w → 0 <= a < 2 ^ w → 0 <= b < 2 ^ w → 0 <= Z.lxor a b < 2 ^ w.
Proof.
  intros Hw Ha Hb. split; [apply Z.lxor_nonneg; lia|].
  destruct (decide (Z.lxor a b = 0)) as [->|Hne]; [lia|].
  assert (0 <= Z.lxor a b) by (apply Z.lxor_nonneg; lia).
  apply Z.log2_lt_pow2; [lia|].
  assert (Hlog : ∀ c, 0 <= c < 2 ^ w → c = 0 ∨ Z.log2 c < w).
  { intros c Hc. destruct (decide (c = 0)); [by left|right].
    apply Z.log2_lt_pow2; lia. }
  pose proof (Z.log2_lxor a b ltac:(lia) ltac:(lia)).
  destruct (Hlog a Ha) as [->|?], (Hlog b Hb) as [->|?];
    rewrite ?Z.lxor_0_l, ?Z.lxor_0_r in *; simpl in *; try lia.
Qed.

(** disjoint bit fields: [a | (b << w)] is [a + b * 2^w] *)
Lemma lor_shiftl w a b : 0 <= w → 0 <= a < 2 ^ w → Z.lor a (Z.shiftl b w) = a + b * 2 ^ w.
Proof.
  intros Hw Ha. rewrite Z.shiftl_mul_pow2 by lia.
  rewrite <- Z.add_lor_land, Z.add_comm || idtac.
  assert (Z.land a (b * 2 ^ w) = 0) as Hl.
  { apply Z.bits_inj'. intros n Hn. rewrite Z.land_spec, Z.bits_0.
    destruct (decide (n < w)).
    - rewrite Z.mul_pow2_bits_low by lia. by rewrite andb_false_r.
    - rewrite <- (Z.mod_small a (2 ^ w)) by lia.
      rewrite Z.mod_pow2_bits_high by lia. done. }
  pose proof (Z.add_lor_land a (b * 2 ^ w)). lia.
Qed.

Lemma lxor_cancel_r a b : Z.lxor (Z.lxor a b) b = a.
Proof. by rewrite Z.lxor_assoc, Z.lxor_nilpotent, Z.lxor_0_r. Qed.

Lemma lt_add_carry (lo n : Z) :
  is_u64 lo → is_u64 n → (if u64 (lo + n) <? lo then 1 else 0) = (lo + n) / 2 ^ 64.
Proof. intros. destruct (Z.ltb_spec (u64 (lo + n)) lo); word_lia. Qed.

(** ** Sublists *)
Lemma elem_of_sublist {A} (x : A) l k : l `sublist_of` k → x ∈ l → x ∈ k.
Proof. induction 1; intros; set_solver. Qed.
Lemma Forall_sublist {A} (P : A → Prop) l k : l `sublist_of` k → Forall P k → Forall P l.
Proof. rewrite !Forall_forall. eauto using elem_of_sublist. Qed.
Lemma NoDup_sublist {A} (l k : list A) : l `sublist_of` k → NoDup k → NoDup l.
Proof.
  induction 1 as [|x l k Hl IH|x l k Hl IH]; intros Hk; [done| |].
  - apply NoDup_cons in Hk as []. constructor; [|auto]. eauto using elem_of_sublist.
  - apply NoDup_cons in Hk as []. auto.
Qed.

(** ** Finite sums *)
Fixpoint sum (r : nat) (f : nat → Z) : Z :=
  match r with O => 0 | S r => sum r f + f r end.
Lemma sum_ext r f g : (∀ k, (k < r)%nat → f k = g k) → sum r f = sum r g.
Proof. induction r as [|r IH]; intros H; cbn; [done|]. rewrite IH, H; auto. Qed.
Lemma sum_zero r f : (∀ k, (k < r)%nat → f k = 0) → sum r f = 0.
Proof. induction r as [|r IH]; intros H; cbn; [done|]. rewrite IH, H; auto. Qed.
Lemma sum_add r f g : sum r (λ k, f k + g k) = sum r f + sum r g.
Proof. induction r as [|r IH]; cbn; lia. Qed.
Lemma sum_scale r c f : sum r (λ k, c * f k) = c * sum r f.
Proof. induction r as [|r IH]; cbn; lia. Qed.
Lemma sum_scale_r r c f : sum r (λ k, f k * c) = sum r f * c.
Proof. induction r as [|r IH]; cbn; lia. Qed.
Lemma sum_swap r s f : sum r (λ i, sum s (λ j, f i j)) = sum s (λ j, sum r (λ i, f i j)).
Proof.
  induction r as [|r IH]; cbn; [by rewrite sum_zero|]. rewrite IH, <- sum_add. done.
Qed.
Lemma sum_single r i f : (i < r)%nat → (∀ k, (k < r)%nat → k ≠ i → f k = 0) → sum r f = f i.
Proof.
  induction r as [|r IH]; intros Hi Hf; [lia|]. cbn. destruct (decide (i = r)) as [->|Hne].
  - rewrite sum_zero; [lia|]. intros k Hk. apply Hf; lia.
  - rewrite IH, (Hf r) by (auto; lia). lia.
Qed.
Lemma sum_prefix n m f : (n <= m)%nat → (∀ k, (n <= k < m)%nat → f k = 0) → sum m f = sum n f.
Proof.
  induction m as [|m IH]; intros Hn Hz; [by replace n with O by lia|].
  destruct (decide (n = S m)) as [->|]; [done|]. cbn. rewrite IH by (try intros; try apply Hz; lia). rewrite (Hz m) by lia. lia.
Qed.
Lemma sum_first r f : sum (S r) f = f O + sum r (λ k, f (S k)).
Proof. induction r as [|r IH]; [cbn; lia|]. cbn in *. lia. Qed.
