(* ===== verification/Cstd.v ===== *)
(** The part of the C and C++ standard libraries the modelled sources use, on [string]:
    character classes (C locale), number printing and parsing, prefix and search functions,
    token extraction from a stream, line splitting. *)
From S2P Require Import Prelude.

(** ** Results: a value or an error *)
Inductive result (E A : Type) : Type :=
| Ok (a : A)
| Err (e : E).
Arguments Ok {E A} a.
Arguments Err {E A} e.

Definition rbind {E A B} (m : result E A) (f : A → result E B) : result E B :=
  match m with Ok a => f a | Err e => Err e end.
Notation "'let*' p ':=' m 'in' k" := (rbind m (λ p, k))
  (at level 10, p pattern, m at level 100, k at level 200) : mvcc_scope.

Definition ok_of {E A} (m : result E A) : option A :=
  match m with Ok a => Some a | Err _ => None end.

(** ** Characters *)
Definition code (c : ascii) : Z := Z.of_N (N_of_ascii c).
Definition in_range (lo hi : Z) (c : ascii) : bool := (lo <=? code c) && (code c <=? hi).
Definition isdigit (c : ascii) : bool := in_range 48 57 c.
Definition isalpha (c : ascii) : bool := in_range 65 90 c || in_range 97 122 c.
Definition isalnum (c : ascii) : bool := isalpha c || isdigit c.
Definition isspace (c : ascii) : bool := (code c =? 32) || in_range 9 13 c.
Definition is_char (d c : ascii) : bool := Ascii.eqb c d.
Definition chr (n : N) : ascii := ascii_of_N n.

(** ** Strings *)
#[global] Arguments String.append !_ _ / : simpl nomatch.
Infix "+++" := String.append (at level 60, right associativity) : mvcc_scope.

Definition is_empty (s : string) : bool := match s with EmptyString => true | _ => false end.
Definition head_char (s : string) : option ascii :=
  match s with EmptyString => None | String c _ => Some c end.
Definition tail (s : string) : string := match s with EmptyString => EmptyString | String _ r => r end.

(** the longest prefix whose characters satisfy [p], and the rest *)
Fixpoint span (p : ascii → bool) (s : string) : string * string :=
  match s with
  | EmptyString => (EmptyString, EmptyString)
  | String c r => if p c then let '(a, b) := span p r in (String c a, b) else (EmptyString, s)
  end.
Fixpoint all_chars (p : ascii → bool) (s : string) : bool :=
  match s with EmptyString => true | String c r => p c && all_chars p r end.
Fixpoint has_char (c : ascii) (s : string) : bool :=
  match s with EmptyString => false | String d r => Ascii.eqb d c || has_char c r end.
Definition drop_while (p : ascii → bool) (s : string) : string := snd (span p s).

(** the text before and after the first [c] *)
Fixpoint split_first (c : ascii) (s : string) : option (string * string) :=
  match s with
  | EmptyString => None
  | String d r => if Ascii.eqb d c then Some (EmptyString, r)
                  else match split_first c r with
                       | Some (a, b) => Some (String d a, b)
                       | None => None
                       end
  end.
(** the text before and after the last [c] *)
Fixpoint split_last (c : ascii) (s : string) : option (string * string) :=
  match s with
  | EmptyString => None
  | String d r => match split_last c r with
                  | Some (a, b) => Some (String d a, b)
                  | None => if Ascii.eqb d c then Some (EmptyString, r) else None
                  end
  end.

(** [s.rfind(p, 0) == 0] *)
Definition starts (s p : string) : bool := String.prefix p s.
(** [s.substr(n)] for [n <= s.size()] *)
Fixpoint drop_chars (n : nat) (s : string) : string :=
  match n, s with
  | O, _ => s
  | S n, String _ r => drop_chars n r
  | S _, EmptyString => EmptyString
  end.
(** [s.find(p) != npos] *)
Fixpoint contains (s p : string) : bool :=
  starts s p || match s with EmptyString => false | String _ r => contains r p end.

Fixpoint rev_string (s acc : string) : string :=
  match s with EmptyString => acc | String c r => rev_string r (String c acc) end.

(** tokens of [istringstream >> tok]; [cur] is the token being read *)
Fixpoint words_go (s cur : string) : list string :=
  match s with
  | EmptyString => if is_empty cur then [] else [cur]
  | String c r =>
      if isspace c
      then (if is_empty cur then words_go r EmptyString else cur :: words_go r EmptyString)
      else words_go r (cur +++ String c EmptyString)
  end.
Definition words (s : string) : list string := words_go s EmptyString.

(** pieces of [s] between occurrences of [c] (always at least one) *)
Fixpoint pieces (c : ascii) (s : string) : list string :=
  match s with
  | EmptyString => [EmptyString]
  | String d r =>
      if Ascii.eqb d c then EmptyString :: pieces c r
      else match pieces c r with
           | p :: ps => String d p :: ps
           | [] => [String d EmptyString]
           end
  end.
(** the lines [std::getline] yields: no empty last line *)
Definition getlines (s : string) : list string :=
  match reverse (pieces (chr 10) s) with
  | EmptyString :: ls => reverse ls
  | ls => reverse ls
  end.

(** ** Numbers *)
Definition digit_char (d : Z) : ascii := chr (Z.to_N (48 + d)).
Fixpoint to_dec (fuel : nat) (n : Z) (acc : string) : string :=
  match fuel with
  | O => acc
  | S fuel =>
      let acc := String (digit_char (n mod 10)) acc in
      if n / 10 =? 0 then acc else to_dec fuel (n / 10) acc
  end.
(** [std::to_string] of an unsigned integer; the fuel is its bit length plus one *)
Definition to_string (n : Z) : string := to_dec (S (Z.to_nat (Z.log2 n))) n EmptyString.
(** [std::to_string] of a signed integer *)
Definition to_string_s (n : Z) : string :=
  if n <? 0 then String "-" (to_string (- n)) else to_string n.

Definition digit_value (c : ascii) : Z :=
  if isdigit c then code c - 48
  else if in_range 97 122 c then code c - 87
  else if in_range 65 90 c then code c - 55
  else 99.
Definition is_digit_of (base : Z) (c : ascii) : bool := digit_value c <? base.
Fixpoint digits_value (base v : Z) (s : string) : Z :=
  match s with EmptyString => v | String c r => digits_value base (base * v + digit_value c) r end.

(** optional sign of a [strtol]-style number *)
Definition sign_of (s : string) : Z * string :=
  match s with
  | String c r => if is_char "-" c then (-1, r) else if is_char "+" c then (1, r) else (1, s)
  | EmptyString => (1, s)
  end.
Definition clamp (lo hi v : Z) : Z := Z.max lo (Z.min hi v).

(** [strtoll(s, nullptr, 0)]: sign, 0x / 0 prefixes, saturation at the bounds of [long long] *)
Definition strtoll0 (s : string) : Z :=
  let '(sg, r) := sign_of (drop_while isspace s) in
  let '(base, r) :=
    match r with
    | String z (String x r') =>
        if is_char "0" z && (is_char "x" x || is_char "X" x) &&
           match r' with String h _ => is_digit_of 16 h | EmptyString => false end
        then (16, r')
        else if is_char "0" z then (8, r) else (10, r)
    | String z EmptyString => if is_char "0" z then (8, r) else (10, r)
    | EmptyString => (10, r)
    end in
  clamp (- 2 ^ 63) (2 ^ 63 - 1) (sg * digits_value base 0 (fst (span (is_digit_of base) r))).

(** [atoi(s)]: the C libraries convert through [strtol] and truncate to [int] *)
Definition atoi (s : string) : Z :=
  let '(sg, r) := sign_of (drop_while isspace s) in
  sext 32 (clamp (- 2 ^ 63) (2 ^ 63 - 1) (sg * digits_value 10 0 (fst (span isdigit r)))).

(** [std::stoul(s)]: [None] is the exception it throws (no digits, or out of range) *)
Definition stoul (s : string) : option Z :=
  let '(sg, r) := sign_of (drop_while isspace s) in
  let ds := fst (span isdigit r) in
  let v := digits_value 10 0 ds in
  if is_empty ds then None
  else if 2 ^ 64 <=? v then None
  else Some (u64 (sg * v)).

(** ** Lemmas *)
Create HintDb cstd.
Create Rewrite HintDb cstd.

Lemma append_nil_r s : s +++ EmptyString = s.
Proof. induction s; simpl; congruence. Qed.
Lemma append_assoc a b c : (a +++ b) +++ c = a +++ b +++ c.
Proof. induction a; simpl; congruence. Qed.
Lemma append_length a b : String.length (a +++ b) = (String.length a + String.length b)%nat.
Proof. induction a; simpl; congruence. Qed.
Lemma all_chars_app p a b : all_chars p (a +++ b) = all_chars p a && all_chars p b.
Proof. induction a; simpl; [done|]. by rewrite IHa, andb_assoc. Qed.
#[export] Hint Rewrite append_nil_r append_assoc all_chars_app : cstd.

Lemma all_chars_impl (p q : ascii → bool) s :
  (∀ c, p c = true → q c = true) → all_chars p s = true → all_chars q s = true.
Proof.
  intros Hpq. induction s; simpl; [done|]. rewrite !andb_true_iff. intros []; auto.
Qed.

(** a run of [p]-characters followed by a stop is exactly what [span] takes *)
Lemma span_all p s : all_chars p s = true → span p s = (s, EmptyString).
Proof.
  induction s; simpl; [done|]. rewrite andb_true_iff. intros [-> H]. by rewrite IHs.
Qed.
Lemma span_app_stop p s c r :
  all_chars p s = true → p c = false → span p (s +++ String c r) = (s, String c r).
Proof.
  intros Hs Hc. induction s as [|d s IH]; simpl in *; [by rewrite Hc|].
  apply andb_true_iff in Hs as [-> Hs]. by rewrite IH.
Qed.
Lemma span_spec p s a b :
  span p s = (a, b) →
  s = a +++ b ∧ all_chars p a = true ∧ (∀ c r, b = String c r → p c = false).
Proof.
  revert a b. induction s as [|c s IH]; simpl; intros a b; [by intros [= <- <-]|].
  destruct (p c) eqn:Hc.
  - destruct (span p s) as [a' b'] eqn:E. intros [= <- <-].
    destruct (IH a' b' eq_refl) as (->&?&?). simpl. by rewrite Hc.
  - intros [= <- <-]. split_and!; [done..|]. by intros ? ? [= -> ->].
Qed.
Lemma span_length p s : (String.length (snd (span p s)) <= String.length s)%nat.
Proof.
  induction s as [|c s IH]; simpl; [lia|]. destruct (p c); simpl; [|lia].
  destruct (span p s); simpl in *. lia.
Qed.

(** *** Decimal numbers *)
Lemma digit_cases d : 0 <= d < 10 →
  d = 0 ∨ d = 1 ∨ d = 2 ∨ d = 3 ∨ d = 4 ∨ d = 5 ∨ d = 6 ∨ d = 7 ∨ d = 8 ∨ d = 9.
Proof. lia. Qed.
Ltac all_digits d H :=
  let E := fresh in pose proof (digit_cases d H) as E;
  repeat (destruct E as [->|E]; [reflexivity|]); subst; reflexivity.

Lemma digit_char_value d : 0 <= d < 10 → digit_value (digit_char d) = d.
Proof. intros H. all_digits d H. Qed.
Lemma digit_char_digit d : 0 <= d < 10 → isdigit (digit_char d) = true.
Proof. intros H. all_digits d H. Qed.

Lemma to_dec_value f n acc :
  0 <= n < 2 ^ Z.of_nat f → digits_value 10 0 (to_dec f n acc) = digits_value 10 n acc.
Proof.
  revert n acc. induction f as [|f IH]; intros n acc Hn; cbn [to_dec].
  { assert (n = 0) as -> by (change (2 ^ Z.of_nat 0) with 1 in Hn; lia). done. }
  rewrite Nat2Z.inj_succ, Z.pow_succ_r in Hn by lia.
  assert (Hm : 0 <= n mod 10 < 10) by (apply Z.mod_pos_bound; lia).
  destruct (Z.eqb_spec (n / 10) 0) as [H0|H0].
  - cbn [digits_value]. rewrite digit_char_value by done. f_equal. word_lia.
  - rewrite IH by word_lia. cbn [digits_value]. rewrite digit_char_value by done.
    f_equal. word_lia.
Qed.
Lemma to_dec_digits f n acc :
  all_chars isdigit acc = true → all_chars isdigit (to_dec f n acc) = true.
Proof.
  revert n acc. induction f as [|f IH]; intros n acc Ha; cbn [to_dec]; [done|].
  assert (Hm : 0 <= n mod 10 < 10) by (apply Z.mod_pos_bound; lia).
  case_match; [|apply IH]; cbn [all_chars]; by rewrite digit_char_digit.
Qed.
Lemma to_dec_nonempty f n acc : (f ≠ 0)%nat ∨ is_empty acc = false → is_empty (to_dec f n acc) = false.
Proof.
  revert n acc. induction f as [|f IH]; intros n acc Ha; cbn [to_dec]; [by destruct Ha|].
  case_match; [done|]. apply IH. by right.
Qed.

Lemma to_string_fuel n : 0 <= n → 0 <= n < 2 ^ Z.of_nat (S (Z.to_nat (Z.log2 n))).
Proof.
  intros Hn. rewrite Nat2Z.inj_succ, Z2Nat.id by apply Z.log2_nonneg.
  destruct (decide (n = 0)) as [->|]; [simpl; lia|]. pose proof (Z.log2_spec n). lia.
Qed.
Lemma to_string_value n : 0 <= n → digits_value 10 0 (to_string n) = n.
Proof. intros Hn. unfold to_string. by rewrite to_dec_value by (by apply to_string_fuel). Qed.
Lemma to_string_digits n : all_chars isdigit (to_string n) = true.
Proof. by apply to_dec_digits. Qed.
Lemma to_string_nonempty n : is_empty (to_string n) = false.
Proof. apply to_dec_nonempty. by left. Qed.
#[export] Hint Resolve to_string_digits to_string_nonempty : cstd.

Lemma to_string_head n : ∃ c r, to_string n = String c r ∧ isdigit c = true ∧ all_chars isdigit r = true.
Proof.
  pose proof (to_string_digits n) as Hd. pose proof (to_string_nonempty n) as He.
  destruct (to_string n) as [|c r]; [done|]. simpl in Hd. apply andb_true_iff in Hd as [].
  by exists c, r.
Qed.

(** *** Character classes *)
(** the class of a character is decided by computation over all 256 of them *)
Lemma ascii_forall (P : ascii → bool) :
  forallb P (ascii_of_nat <$> seq 0 256) = true → ∀ c, P c = true.
Proof.
  intros H c. rewrite forallb_forall in H. apply H.
  rewrite <- (ascii_nat_embedding c). apply in_map, in_seq.
  pose proof (nat_ascii_bounded c). lia.
Qed.
Ltac by_ascii c := revert c; apply ascii_forall; vm_compute; reflexivity.
Lemma implb_elim a b : implb a b = true → a = true → b = true.
Proof. by destruct a, b. Qed.

Lemma digit_not_space c : isdigit c = true → isspace c = false.
Proof. rewrite <- negb_true_iff. apply implb_elim. by_ascii c. Qed.
Lemma digit_not_sign c : isdigit c = true → is_char "-" c = false ∧ is_char "+" c = false.
Proof.
  intros H. rewrite <- !negb_true_iff, <- andb_true_iff. revert H. apply implb_elim. by_ascii c.
Qed.
Lemma digit_alnum c : isdigit c = true → isalnum c = true.
Proof. unfold isalnum. intros ->. apply orb_true_r. Qed.

(** printing and parsing an unsigned number agree *)
Lemma number_prefix n r :
  0 <= n → drop_while isspace (to_string n +++ r) = to_string n +++ r ∧
  sign_of (to_string n +++ r) = (1, to_string n +++ r).
Proof.
  intros Hn. destruct (to_string_head n) as (c&t&->&Hc&_). simpl.
  unfold drop_while. simpl. rewrite (digit_not_space c Hc).
  destruct (digit_not_sign c Hc) as [-> ->]. done.
Qed.
Lemma stoul_to_string n : is_u64 n → stoul (to_string n) = Some n.
Proof.
  intros Hn. unfold stoul. destruct (number_prefix n EmptyString) as [H1 H2]; [apply Hn|].
  rewrite append_nil_r in *. rewrite H1, H2, span_all by auto with cstd. cbn [fst].
  rewrite to_string_nonempty, to_string_value by apply Hn.
  destruct (Z.leb_spec (2 ^ 64) n); [unfold is_u64 in Hn; lia|].
  rewrite Z.mul_1_l, u64_small by done. done.
Qed.
Lemma atoi_to_string n : 0 <= n < 2 ^ 31 → atoi (to_string n) = n.
Proof.
  intros Hn. unfold atoi. destruct (number_prefix n EmptyString) as [H1 H2]; [lia|].
  rewrite append_nil_r in *. rewrite H1, H2, span_all by auto with cstd. cbn [fst].
  rewrite to_string_value, Z.mul_1_l by lia. unfold clamp, sext.
  rewrite Z.min_r, Z.max_r, Z.mod_small by lia.
  change (2 ^ (32 - 1)) with (2 ^ 31). by rewrite (proj2 (Z.ltb_lt _ _)) by lia.
Qed.

Lemma to_dec_head f n acc :
  0 < n < 2 ^ Z.of_nat f → ∃ c t, to_dec f n acc = String c t ∧ is_char "0" c = false ∧ isdigit c = true.
Proof.
  revert n acc. induction f as [|f IH]; intros n acc Hn; cbn [to_dec].
  { change (2 ^ Z.of_nat 0) with 1 in Hn. lia. }
  rewrite Nat2Z.inj_succ, Z.pow_succ_r in Hn by lia.
  destruct (Z.eqb_spec (n / 10) 0) as [H0|H0]; [|apply IH; word_lia].
  assert (Hd : n mod 10 = n ∧ 0 < n < 10) by word_lia. destruct Hd as [-> Hd].
  do 2 eexists. split; [done|]. split; [|apply digit_char_digit; lia].
  assert (E : n = 1 ∨ n = 2 ∨ n = 3 ∨ n = 4 ∨ n = 5 ∨ n = 6 ∨ n = 7 ∨ n = 8 ∨ n = 9) by lia.
  repeat (destruct E as [->|E]; [reflexivity|]). by subst.
Qed.

Lemma digit_of_10 c : isdigit c = true → is_digit_of 10 c = true.
Proof. apply implb_elim. by_ascii c. Qed.

Lemma strtoll0_pos sgn n :
  sgn = 1 ∨ sgn = -1 → 0 < n → - 2 ^ 63 <= sgn * n < 2 ^ 63 →
  ∀ s, sign_of (drop_while isspace s) = (sgn, to_string n) → strtoll0 s = sgn * n.
Proof.
  intros Hs Hn Hb s Hsign. unfold strtoll0. rewrite Hsign.
  destruct (to_dec_head _ n EmptyString (conj Hn (proj2 (to_string_fuel n ltac:(lia)))))
    as (c&t&Ec&H0&_). change (to_dec _ n EmptyString) with (to_string n) in Ec.
  pose proof (to_string_value n ltac:(lia)) as Hv. pose proof (to_string_digits n) as Hd.
  rewrite Ec in *. rewrite H0. simpl andb.
  assert (Hsp : fst (span (is_digit_of 10) (String c t)) = String c t).
  { rewrite span_all; [done|]. by apply (all_chars_impl isdigit); [apply digit_of_10|]. }
  destruct t as [|x t]; rewrite Hsp, Hv; unfold clamp; lia.
Qed.

Lemma strtoll0_to_string v : - 2 ^ 63 <= v < 2 ^ 63 → strtoll0 (to_string_s v) = v.
Proof.
  intros Hv. destruct (decide (v = 0)) as [->|H0]; [by vm_compute|]. unfold to_string_s.
  destruct (Z.ltb_spec v 0).
  - rewrite (strtoll0_pos (-1) (- v)); [lia|by right|lia|lia|done].
  - rewrite (strtoll0_pos 1 v); [lia|by left|lia|lia|].
    destruct (number_prefix v EmptyString) as [H1 H2]; [lia|]. rewrite append_nil_r in *.
    by rewrite H1, H2.
Qed.

(** *** The last occurrence of a character *)
Lemma split_last_none c r : has_char c r = false → split_last c r = None.
Proof.
  induction r as [|d r IH]; [done|]. cbn [has_char split_last]. intros [Hd Hr]%orb_false_iff.
  by rewrite IH, Hd.
Qed.
Lemma split_last_app c a r : has_char c r = false → split_last c (a +++ String c r) = Some (a, r).
Proof.
  intros Hr. induction a as [|d a IH]; cbn [String.append split_last].
  - by rewrite split_last_none, Ascii.eqb_refl.
  - by rewrite IH.
Qed.

(** *** Tokens separated by single spaces *)
Definition nonspace (c : ascii) : bool := negb (isspace c).
Definition token_ok (t : string) : Prop := is_empty t = false ∧ all_chars nonspace t = true.
Fixpoint join (ts : list string) : string :=
  match ts with
  | [] => EmptyString
  | [t] => t
  | t :: ts => t +++ String " " (join ts)
  end.
Lemma join_cons t u ts : join (t :: u :: ts) = t +++ String " " (join (u :: ts)).
Proof. done. Qed.

Lemma words_go_token t r cur :
  all_chars nonspace t = true → words_go (t +++ r) cur = words_go r (cur +++ t).
Proof.
  revert cur. induction t as [|c t IH]; intros cur Ht; cbn [String.append words_go].
  - by rewrite append_nil_r.
  - cbn [all_chars] in Ht. apply andb_true_iff in Ht as [Hc Ht]. unfold nonspace in Hc.
    apply negb_true_iff in Hc. rewrite Hc, IH by done. by rewrite append_assoc.
Qed.
Lemma words_join ts : Forall token_ok ts → words (join ts) = ts.
Proof.
  unfold words. induction 1 as [|t ts [He Ht] Hts IH]; [done|]. destruct ts as [|u ts].
  - cbn [join]. rewrite <- (append_nil_r t) at 1. rewrite words_go_token by done. cbn.
    by rewrite He.
  - rewrite join_cons, words_go_token by done. cbn [String.append words_go].
    change (isspace " ") with true. cbv iota. by rewrite He, IH.
Qed.

Lemma starts_app p s : starts (p +++ s) p = true.
Proof.
  unfold starts. induction p as [|c p IH]; cbn; [by destruct s|]. by destruct (ascii_dec c c).
Qed.
Lemma starts_head c d s p : c ≠ d → starts (String d s) (String c p) = false.
Proof. intros. unfold starts. cbn. by destruct (ascii_dec c d). Qed.
Lemma drop_chars_app p s : drop_chars (String.length p) (p +++ s) = s.
Proof. by induction p. Qed.
Lemma split_first_app c a r : has_char c a = false → split_first c (a +++ String c r) = Some (a, r).
Proof.
  induction a as [|d a IH]; cbn [String.append split_first has_char].
  - by rewrite Ascii.eqb_refl.
  - intros [-> Ha]%orb_false_iff. by rewrite IH.
Qed.
Lemma nonspace_no_char c t : isspace c = true → all_chars nonspace t = true → has_char c t = false.
Proof.
  intros Hc. induction t as [|d t IH]; [done|]. cbn. intros [Hd Ht]%andb_true_iff.
  rewrite IH by done. destruct (Ascii.eqb_spec d c) as [->|]; [|done].
  unfold nonspace in Hd. by rewrite Hc in Hd.
Qed.

(** *** Lines *)
Lemma pieces_line c a b : has_char c a = false → pieces c (a +++ String c b) = a :: pieces c b.
Proof.
  induction a as [|d a IH]; cbn [has_char String.append pieces].
  - by rewrite Ascii.eqb_refl.
  - intros [-> Ha]%orb_false_iff. by rewrite IH.
Qed.
Lemma digit_nonspace c : isdigit c = true → nonspace c = true.
Proof. intros H. unfold nonspace. by rewrite digit_not_space. Qed.
Lemma to_string_nonspace n : all_chars nonspace (to_string n) = true.
Proof. apply (all_chars_impl isdigit); [apply digit_nonspace|apply to_string_digits]. Qed.
Lemma to_string_token n : token_ok (to_string n).
Proof. split; [apply to_string_nonempty|apply to_string_nonspace]. Qed.
#[export] Hint Resolve to_string_nonspace to_string_token : cstd.
