(* ===== verification/PtxAsm.v ===== *)
(** The inline PTX parser: cpp/mvcc-llvm/ptx_asm.h and ptx_asm.cpp.  Data, lexer, operand and
    instruction parser, and the table of per-thread ALU mnemonics. *)
From S2P Require Import Prelude Cstd.
Open Scope string_scope.
Open Scope Z_scope.

(** ** Data *)
Inductive Kind := Reg | Imm | Mem | Vec | Named.
#[export] Instance Kind_eq_dec : EqDecision Kind.
Proof. solve_decision. Defined.

Record PtxOperand := mkOperand {
  kind : Kind;
  reg : Z;
  imm : Z;
  regs : list Z;
  negated : bool;
  name : string }.
Definition operand0 : PtxOperand := mkOperand Reg (-1) 0 [] false "".
#[export] Instance PtxOperand_eq_dec : EqDecision PtxOperand.
Proof. solve_decision. Defined.

Record PtxInstr := mkInstr {
  mnemonic : string;
  mods : list string;
  ops : list PtxOperand;
  pred : Z;
  predNeg : bool;
  predName : string }.
Definition instr0 : PtxInstr := mkInstr "" [] [] (-1) false "".

Definition full (i : PtxInstr) : string :=
  fold_left (λ s m, s +++ "." +++ m) (mods i) (mnemonic i).
Definition hasMod (i : PtxInstr) (m : string) : bool := existsb (λ x, String.eqb x m) (mods i).
Definition predicated (i : PtxInstr) : bool := (0 <=? pred i) || negb (is_empty (predName i)).

(** ** The lexer: the text from the current index on, and the index *)
Record Lexer := mkLexer { rest : string; idx : nat }.

Definition adv (L : Lexer) (n : nat) : Lexer := mkLexer (drop_chars n (rest L)) (idx L + n).
Definition ws (L : Lexer) : Lexer :=
  let '(a, b) := span isspace (rest L) in mkLexer b (idx L + String.length a).
Definition eof (L : Lexer) : bool * Lexer := let L := ws L in (is_empty (rest L), L).
(** the character 0 at the end of the text, as [peek] returns *)
Definition peek (L : Lexer) : ascii * Lexer :=
  let L := ws L in (default Ascii.zero (head_char (rest L)), L).
Definition accept (c : ascii) (L : Lexer) : bool * Lexer :=
  let '(d, L) := peek L in if Ascii.eqb d c then (true, adv L 1) else (false, L).
(** the characters satisfying [p] from the current index on ([L.i++] while [p (s[i])]) *)
Definition take (p : ascii → bool) (L : Lexer) : string * Lexer :=
  let '(a, b) := span p (rest L) in (a, mkLexer b (idx L + String.length a)).

Definition mnemonic_char (c : ascii) : bool :=
  isalnum c || is_char "_" c || is_char ":" c || is_char "." c.
Definition name_char (c : ascii) : bool := isalnum c || is_char "_" c.
Definition name_start (c : ascii) : bool := isalpha c || is_char "_" c.
Definition imm_char (c : ascii) : bool := isalnum c || is_char "." c.
Definition ident (L : Lexer) : string * Lexer := take mnemonic_char (ws L).

(** an optional '-' and the characters satisfying [p]: the text of a number *)
Definition take_signed (p : ascii → bool) (L : Lexer) : string * Lexer :=
  let '(m, L) := match head_char (rest L) with
                 | Some c => if is_char "-" c then ("-", adv L 1) else ("", L)
                 | None => ("", L)
                 end in
  let '(t, L) := take p L in (m +++ t, L).

(** ** Errors: the parser's message, or the model's fuel *)
Inductive perror := PErr (msg : string) | PFuel.
Abbreviation presult := (result perror).

(** ** Operands *)
Section operand.
Context (parseOperand : Lexer → presult (PtxOperand * Lexer)).

(** the loop of the '{' case; [acc] holds the registers read so far *)
Fixpoint parseVec (fuel : nat) (L : Lexer) (acc : list Z) : presult (list Z * Lexer) :=
  match fuel with
  | O => Err PFuel
  | S fuel =>
      let* (e, L) := parseOperand L in
      if negb (bool_decide (kind e = Reg)) then Err (PErr "vector operand must contain registers")
      else
        let acc := (acc ++ [reg e])%list in
        let '(comma, L) := accept "," L in
        if comma then parseVec fuel L acc else
        let '(close, L) := accept "}" L in
        if close then Ok (acc, L) else Err (PErr "expected , or } in vector operand")
  end.

(** the '[' case, after the bracket *)
Definition parseMem (L : Lexer) : presult (PtxOperand * Lexer) :=
  let* (base, L) := parseOperand L in
  let '(plus, L) := accept "+" L in
  let '(c, L) := if plus then (Ascii.zero, L) else peek L in
  let '(off, L) := if plus || is_char "-" c
                   then let '(t, L) := take_signed isalnum L in (strtoll0 t, L)
                   else (0, L) in
  let '(close, L) := accept "]" L in
  if close then Ok (mkOperand Mem (reg base) off [] false "", L) else Err (PErr "expected ]").
End operand.

Fixpoint parseOperand (fuel : nat) (L : Lexer) : presult (PtxOperand * Lexer) :=
  match fuel with
  | O => Err PFuel
  | S fuel =>
      let '(c, L) := peek L in
      if is_char "%" c || is_char "$" c then
        let L := adv L 1 in
        if match head_char (rest L) with Some d => name_start d | None => false end then
          let '(n, L) := take name_char L in Ok (mkOperand Named (-1) 0 [] false n, L)
        else
          let '(d, L) := take isdigit L in
          if is_empty d then Err (PErr "expected register number after %")
          else Ok (mkOperand Reg (atoi d) 0 [] false "", L)
      else if is_char "!" c then
        let* (op, L) := parseOperand fuel (adv L 1) in
        Ok (mkOperand (kind op) (reg op) (imm op) (regs op) true (name op), L)
      else if is_char "[" c then parseMem (parseOperand fuel) (adv L 1)
      else if is_char "{" c then
        let* (rs, L) := parseVec (parseOperand fuel) fuel (adv L 1) [] in
        Ok (mkOperand Vec (-1) 0 rs false "", L)
      else if isdigit c || is_char "-" c then
        let '(t, L) := take_signed imm_char L in
        Ok (mkOperand Imm (-1) (strtoll0 t) [] false "", L)
      else if name_start c then
        let '(n, L) := take name_char L in Ok (mkOperand Named (-1) 0 [] false n, L)
      else Err (PErr ("unexpected character '" +++ String c "' in operand"))
  end.

(** ** Instructions *)

(** the directive case: [while (!L.eof() && L.peek() != ';') L.i++] *)
Fixpoint skip_directive (fuel : nat) (L : Lexer) : Lexer :=
  match fuel with
  | O => L
  | S fuel =>
      let '(e, L) := eof L in
      if e then L else
      let '(c, L) := peek L in
      if is_char ";" c then L else skip_directive fuel (adv L 1)
  end.

(** splitting a word on dots: the first non-empty piece is the mnemonic, the others are the
    modifiers *)
Definition split_word (word : string) : string * list string :=
  match filter (λ p, is_empty p = false) (pieces "." word) with
  | [] => ("", [])
  | m :: ms => (m, ms)
  end.

(** the predicate after '@': (pred, predNeg, predName) *)
Definition parsePred (fuel : nat) (L : Lexer) : presult (Z * bool * string * Lexer) :=
  let '(neg, L) := accept "!" L in
  match parseOperand fuel L with
  | Err (PErr e) => Err (PErr ("bad predicate: " +++ e))
  | Err PFuel => Err PFuel
  | Ok (p, L) =>
      match kind p with
      | Reg => Ok (reg p, neg, "", L)
      | Named => Ok (-1, neg, name p, L)
      | _ => Err (PErr "bad predicate: ")
      end
  end.

(** operands separated by commas *)
Fixpoint parseOperands (text : string) (fuel : nat) (L : Lexer) (acc : list PtxOperand)
    : presult (list PtxOperand * Lexer) :=
  match fuel with
  | O => Err PFuel
  | S fuel' =>
      match parseOperand fuel L with
      | Err (PErr e) => Err (PErr (e +++ " in: " +++ text))
      | Err PFuel => Err PFuel
      | Ok (op, L) =>
          let acc := (acc ++ [op])%list in
          let '(comma, L) := accept "," L in
          if comma then parseOperands text fuel' L acc else Ok (acc, L)
      end
  end.

(** one instruction, from its optional predicate to its ';' *)
Definition parseInstr (text : string) (fuel : nat) (L : Lexer) : presult (PtxInstr * Lexer) :=
  let '(at_, L) := accept "@" L in
  let* (p, ng, pn, L) := (if at_ then parsePred fuel L else Ok (-1, false, "", L)) in
  let '(word, L) := ident L in
  if is_empty word then
    Err (PErr ("expected mnemonic at offset " +++ to_string (Z.of_nat (idx L)) +++ " in: " +++ text))
  else
    let '(m, ms) := split_word word in
    let '(e, L) := eof L in
    let '(c, L) := peek L in
    let* (os, L) := (if negb e && negb (is_char ";" c)
                     then parseOperands text fuel L [] else Ok ([], L)) in
    let '(e, L) := eof L in
    if e then Ok (mkInstr m ms os p ng pn, L) else
    let '(semi, L) := accept ";" L in
    if semi then Ok (mkInstr m ms os p ng pn, L) else
    let '(c, L) := peek L in
    if is_char "}" c then Ok (mkInstr m ms os p ng pn, L)
    else Err (PErr ("expected ; after instruction in: " +++ text)).

Fixpoint parseLoop (text : string) (fuel : nat) (L : Lexer) (out : list PtxInstr)
    : presult (list PtxInstr) :=
  match fuel with
  | O => Err PFuel
  | S fuel' =>
      let '(e, L) := eof L in
      if e then Ok out else
      let '(a1, L) := accept ";" L in
      if a1 then parseLoop text fuel' L out else
      let '(a2, L) := accept "{" L in
      if a2 then parseLoop text fuel' L out else
      let '(a3, L) := accept "}" L in
      if a3 then parseLoop text fuel' L out else
      let '(c, L) := peek L in
      if is_char "." c then parseLoop text fuel' (skip_directive (S (String.length (rest L))) L) out
      else
        let* (i, L) := parseInstr text fuel L in
        parseLoop text fuel' L (out ++ [i])
  end.

(** the whole parser; the fuel is the length of the text plus one, and every step consumes a
    character ([parsePtxAsm_total]) *)
Definition parsePtxAsm (text : string) : presult (list PtxInstr) :=
  let* out := parseLoop text (S (String.length text)) (mkLexer text 0) [] in
  match out with [] => Err (PErr "empty asm") | _ => Ok out end.

Definition per_thread_alu : list string :=
  ["add"; "sub"; "mul"; "mad"; "mul24"; "mad24"; "sad"; "div"; "rem"; "abs"; "neg"; "min"; "max";
   "fma"; "rcp"; "sqrt"; "rsqrt"; "sin"; "cos"; "lg2"; "ex2"; "tanh"; "copysign"; "testp"; "cvt";
   "mov"; "and"; "or"; "xor"; "not"; "cnot"; "lop3"; "shf"; "shl"; "shr"; "bfe"; "bfi"; "bfind";
   "brev"; "clz"; "popc"; "prmt"; "fns"; "set"; "setp"; "selp"; "slct"].
Definition ptxIsPerThreadAlu (m : string) : bool := existsb (String.eqb m) per_thread_alu.

(** ** Concrete inputs *)
Example parse_mma :
  parsePtxAsm "@!p mma.sync.aligned.m16n8k16.row.col {%0,%1}, [%2+0x10], 3;" =
  Ok [mkInstr "mma" ["sync"; "aligned"; "m16n8k16"; "row"; "col"]
        [mkOperand Vec (-1) 0 [0; 1] false ""; mkOperand Mem 2 16 [] false "";
         mkOperand Imm (-1) 3 [] false ""] (-1) true "p"].
Proof. vm_compute. reflexivity. Qed.
Example parse_scope :
  parsePtxAsm "{ .reg .pred p; setp.ne.b32 p, %1, 0; @p st.global.b32 [%0], %2; }" =
  Ok [mkInstr "setp" ["ne"; "b32"] [mkOperand Named (-1) 0 [] false "p"; mkOperand Reg 1 0 [] false "";
        mkOperand Imm (-1) 0 [] false ""] (-1) false "";
      mkInstr "st" ["global"; "b32"] [mkOperand Mem 0 0 [] false ""; mkOperand Reg 2 0 [] false ""]
        (-1) false "p"].
Proof. vm_compute. reflexivity. Qed.
Example parse_float_imm :
  parsePtxAsm "mov.f32 %0, 0f3F800000;" =
  Ok [mkInstr "mov" ["f32"] [mkOperand Reg 0 0 [] false ""; mkOperand Imm (-1) 0 [] false ""]
        (-1) false ""].
Proof. vm_compute. reflexivity. Qed.

(** ** Every step consumes text: the fuel is enough *)
Abbreviation len L := (String.length (rest L)).

Lemma drop_chars_length n s : (String.length (drop_chars n s) <= String.length s)%nat.
Proof. revert s. induction n; intros [|c s]; simpl; auto with arith. Qed.
Lemma adv_len L n : (len (adv L n) <= len L)%nat.
Proof. apply drop_chars_length. Qed.
Lemma adv1_len L c : head_char (rest L) = Some c → (len (adv L 1) < len L)%nat.
Proof. destruct L as [[|d r] i]; simpl; [done|lia]. Qed.

Lemma ws_len L : (len (ws L) <= len L)%nat.
Proof.
  unfold ws. pose proof (span_length isspace (rest L)). destruct (span _ _); simpl in *. lia.
Qed.
Lemma eof_spec L b L' : eof L = (b, L') → (len L' <= len L)%nat ∧ b = is_empty (rest L').
Proof. unfold eof. intros [= <- <-]. split; [apply ws_len|done]. Qed.
Lemma peek_spec L c L' :
  peek L = (c, L') →
  (len L' <= len L)%nat ∧ (c ≠ Ascii.zero → head_char (rest L') = Some c).
Proof.
  unfold peek. intros [= <- <-]. split; [apply ws_len|]. by destruct (head_char _).
Qed.
Lemma accept_spec c L b L' :
  c ≠ Ascii.zero → accept c L = (b, L') →
  if b then (len L' < len L)%nat else (len L' <= len L)%nat.
Proof.
  unfold accept. intros Hc. destruct (peek L) as [d L1] eqn:Hp.
  apply peek_spec in Hp as [Hl Hh]. destruct (Ascii.eqb_spec d c) as [->|]; intros [= <- <-]; [|done].
  pose proof (adv1_len L1 c (Hh Hc)). lia.
Qed.
Lemma take_len p L t L' : take p L = (t, L') → (len L' <= len L)%nat.
Proof.
  unfold take. pose proof (span_length p (rest L)). destruct (span _ _).
  intros [= <- <-]. simpl in *. lia.
Qed.
Lemma take_head p L c t L' :
  head_char (rest L) = Some c → p c = true → take p L = (t, L') → (len L' < len L)%nat.
Proof.
  unfold take. destruct (rest L) as [|d r] eqn:E; simpl; [done|]. intros [= ->] ->.
  pose proof (span_length p r). destruct (span p r). intros [= <- <-]. simpl in *. lia.
Qed.
Lemma take_nonempty p L t L' : take p L = (t, L') → is_empty t = false → (len L' < len L)%nat.
Proof.
  unfold take. destruct (span p (rest L)) as [a b] eqn:E. intros [= <- <-] Ha.
  apply span_spec in E as (->&_&_). destruct a as [|c a]; [done|]. simpl.
  pose proof (append_length a b). lia.
Qed.
Lemma take_signed_head p L c t L' :
  head_char (rest L) = Some c → p c = true ∨ is_char "-" c = true →
  take_signed p L = (t, L') → (len L' < len L)%nat.
Proof.
  unfold take_signed. intros Hh Hc. rewrite Hh. destruct (is_char "-" c) eqn:Em.
  - destruct (take p (adv L 1)) as [a L1] eqn:Ht. intros [= <- <-].
    apply take_len in Ht. pose proof (adv1_len L c Hh). lia.
  - destruct Hc as [Hc|]; [|done]. destruct (take p L) as [a L1] eqn:Ht. intros [= <- <-].
    by eapply take_head.
Qed.
Lemma take_signed_len p L t L' : take_signed p L = (t, L') → (len L' <= len L)%nat.
Proof.
  unfold take_signed. destruct (head_char (rest L)); [destruct (is_char _ _)|];
    (destruct (take p _) as [a' L1] eqn:Ht; intros [= <- <-]; apply take_len in Ht;
     pose proof (adv_len L 1); lia).
Qed.
Lemma ident_spec L t L' : ident L = (t, L') → is_empty t = false → (len L' < len L)%nat.
Proof.
  unfold ident. intros Ht He. pose proof (take_nonempty _ _ _ _ Ht He).
  pose proof (ws_len L). lia.
Qed.

(** a parser that consumes text, and one whose fuel suffices for texts shorter than [n] *)
Definition advances {A} (f : Lexer → presult (A * Lexer)) : Prop :=
  ∀ L a L', f L = Ok (a, L') → (len L' < len L)%nat.
Definition fueled {A} (n : nat) (f : Lexer → presult (A * Lexer)) : Prop :=
  ∀ L, (len L < n)%nat → f L ≠ Err PFuel.

(** collect what the lexer calls in the context say about lengths *)
Ltac lexlen :=
  repeat match goal with
  | H : accept ?c ?L = (?b, ?L') |- _ => apply (accept_spec c L b L' ltac:(done)) in H; cbn iota in H
  | H : peek ?L = (?c, ?L') |- _ => apply peek_spec in H as [? ?]
  | H : eof ?L = (?c, ?L') |- _ => apply eof_spec in H as [? ?]
  | H : take_signed ?p ?L = (?c, ?L') |- _ => apply take_signed_len in H
  end.
Ltac destr_lex :=
  repeat match goal with
  | |- context [accept ?c ?L] => let b := fresh "b" in let L' := fresh "L" in let E := fresh "E" in
      destruct (accept c L) as [b L'] eqn:E; destruct b
  | |- context [peek ?L] => let E := fresh "E" in destruct (peek L) as [? ?] eqn:E
  | |- context [eof ?L] => let E := fresh "E" in destruct (eof L) as [[] ?] eqn:E
  | |- context [take_signed ?p ?L] => let E := fresh "E" in destruct (take_signed p L) as [? ?] eqn:E
  end.

Lemma parseVec_advances f fuel acc :
  advances f → advances (λ L, parseVec f fuel L acc).
Proof.
  intros Hf. revert acc. induction fuel as [|fuel IH]; intros acc L r L'; [done|].
  cbn [parseVec]. destruct (f L) as [[e L1]|er] eqn:Ef; cbn [rbind]; [|done].
  apply Hf in Ef. case_match; [done|]. destr_lex; lexlen; [intros Hr%IH; lia| |done].
  intros [= <- <-]. lia.
Qed.
Lemma parseVec_fueled f n fuel L acc :
  advances f → fueled n f → (len L < n)%nat → (len L < fuel)%nat →
  parseVec f fuel L acc ≠ Err PFuel.
Proof.
  intros Hf Hn. revert L acc. induction fuel as [|fuel IH]; intros L acc Hl Hl'; [lia|].
  cbn [parseVec]. destruct (f L) as [[e L1]|er] eqn:Ef; cbn [rbind].
  2: { intros [= ->]. by eapply Hn in Ef. }
  apply Hf in Ef. case_match; [done|]. destr_lex; lexlen; [apply IH; lia|done..].
Qed.
Lemma parseMem_advances f : advances f → advances (parseMem f).
Proof.
  intros Hf L r L'. unfold parseMem. destruct (f L) as [[e L1]|er] eqn:Ef; cbn [rbind]; [|done].
  apply Hf in Ef. destr_lex; repeat case_match; simplify_eq; destr_lex; lexlen;
    intros Hr; simplify_eq; lia.
Qed.
Lemma parseMem_fueled f n : fueled n f → fueled n (parseMem f).
Proof.
  intros Hn L Hl. unfold parseMem. destruct (f L) as [[e L1]|er] eqn:Ef; cbn [rbind].
  2: { intros [= ->]. by eapply Hn in Ef. }
  destr_lex; repeat case_match; simplify_eq; destr_lex; done.
Qed.

Lemma isdigit_nonzero c : isdigit c = true → c ≠ Ascii.zero.
Proof. by intros H ->. Qed.
Lemma name_start_nonzero c : name_start c = true → c ≠ Ascii.zero.
Proof. by intros H ->. Qed.
Lemma is_char_nonzero d c : d ≠ Ascii.zero → is_char d c = true → c ≠ Ascii.zero.
Proof. unfold is_char. intros Hd ->%Ascii.eqb_eq. done. Qed.
Lemma digit_imm_char c : isdigit c = true → imm_char c = true.
Proof. unfold imm_char, isalnum. intros ->. by rewrite orb_true_r. Qed.
Lemma name_start_char c : name_start c = true → name_char c = true.
Proof. unfold name_start, name_char, isalnum. intros [->| ->]%orb_true_iff; [done|apply orb_true_r]. Qed.

(** the character [peek] saw is still there to be skipped *)
Lemma peek_adv L c L1 :
  peek L = (c, L1) → c ≠ Ascii.zero → (len (adv L1 1) < len L)%nat.
Proof.
  intros [Hl Hh]%peek_spec Hc. pose proof (adv1_len L1 c (Hh Hc)). lia.
Qed.
Ltac peeked :=
  match goal with
  | E : peek _ = (?c, ?L1), H : is_char _ ?c = true |- _ =>
      pose proof (peek_adv _ _ _ E ltac:(by eapply is_char_nonzero, H))
  end.

Lemma parseOperand_advances fuel : advances (parseOperand fuel).
Proof.
  induction fuel as [|fuel IH]; intros L r L'; [done|].
  cbn [parseOperand]. destruct (peek L) as [c L1] eqn:Ep.
  destruct (is_char "%" c || is_char "$" c) eqn:Epc.
  { assert (Ha : (len (adv L1 1) < len L)%nat)
      by (apply orb_true_iff in Epc as [E|E]; by peeked).
    destruct (match head_char _ with Some d => name_start d | None => false end);
      destruct (take _ _) as [t L2] eqn:Et; apply take_len in Et; [|case_match; [done|]];
      intros [= <- <-]; lia. }
  destruct (is_char "!" c) eqn:Eb.
  { peeked. destruct (parseOperand fuel (adv L1 1)) as [[o L2]|er] eqn:Eo; cbn [rbind]; [|done].
    intros [= <- <-]. apply IH in Eo. lia. }
  destruct (is_char "[" c) eqn:Es.
  { peeked. intros Hr%(parseMem_advances _ IH). lia. }
  destruct (is_char "{" c) eqn:Ec.
  { peeked. destruct (parseVec _ _ _ _) as [[rs L2]|er] eqn:Ev; cbn [rbind]; [|done].
    apply (parseVec_advances _ fuel [] IH) in Ev. intros [= <- <-]. lia. }
  destruct (peek_spec _ _ _ Ep) as [Hl Hh].
  destruct (isdigit c || is_char "-" c) eqn:Ed.
  { assert (Hc : c ≠ Ascii.zero).
    { apply orb_true_iff in Ed as [E|E]; [by apply isdigit_nonzero|by eapply is_char_nonzero, E]. }
    destruct (take_signed imm_char L1) as [t L2] eqn:Et.
    apply (take_signed_head _ _ c) in Et; [|by apply Hh|].
    2: { apply orb_true_iff in Ed as [E|E]; [left; by apply digit_imm_char|by right]. }
    intros [= <- <-]. lia. }
  destruct (name_start c) eqn:En; [|done].
  destruct (take name_char L1) as [t L2] eqn:Et.
  apply (take_head _ _ c) in Et; [|by apply Hh, name_start_nonzero|by apply name_start_char].
  intros [= <- <-]. lia.
Qed.

Lemma parseOperand_fueled fuel : fueled fuel (parseOperand fuel).
Proof.
  induction fuel as [|fuel IH]; intros L Hl; [lia|].
  cbn [parseOperand]. destruct (peek L) as [c L1] eqn:Ep.
  destruct (is_char "%" c || is_char "$" c) eqn:Epc.
  { destruct (match head_char _ with Some d => name_start d | None => false end);
      destruct (take _ _); [done|by case_match]. }
  destruct (is_char "!" c) eqn:Eb.
  { peeked. destruct (parseOperand fuel (adv L1 1)) as [[o L2]|er] eqn:Eo; cbn [rbind]; [done|].
    intros [= ->]. apply IH in Eo; [done|lia]. }
  destruct (is_char "[" c) eqn:Es.
  { peeked. apply (parseMem_fueled _ fuel IH). lia. }
  destruct (is_char "{" c) eqn:Ec.
  { peeked. destruct (parseVec _ _ _ _) as [[rs L2]|er] eqn:Ev; cbn [rbind]; [done|].
    intros [= ->]. apply (parseVec_fueled _ fuel) in Ev; [done|apply parseOperand_advances|
      apply IH|lia|lia]. }
  destruct (isdigit c || is_char "-" c); [by destruct (take_signed _ _)|].
  destruct (name_start c); [by destruct (take _ _)|done].
Qed.

Lemma parsePred_advances fuel : advances (parsePred fuel).
Proof.
  intros L r L'. unfold parsePred. destr_lex; lexlen;
    destruct (parseOperand _ _) as [[o L1]|[]] eqn:Eo; try done;
    apply parseOperand_advances in Eo; repeat case_match; intros; simplify_eq; lia.
Qed.
Lemma parsePred_fueled fuel : fueled fuel (parsePred fuel).
Proof.
  intros L Hl. unfold parsePred. destr_lex; lexlen;
    (destruct (parseOperand _ _) as [[o L1]|[]] eqn:Eo;
       [by case_match|done|apply parseOperand_fueled in Eo; [done|lia]]).
Qed.

Lemma parseOperands_advances text fuel acc : advances (λ L, parseOperands text fuel L acc).
Proof.
  revert acc. induction fuel as [|fuel IH]; intros acc L r L'; [done|].
  cbn [parseOperands]. destruct (parseOperand _ L) as [[e L1]|[]] eqn:Ef; try done.
  apply parseOperand_advances in Ef. destr_lex; lexlen; [intros Hr%IH; lia|].
  intros [= <- <-]. lia.
Qed.
Lemma parseOperands_fueled text fuel acc : fueled fuel (λ L, parseOperands text fuel L acc).
Proof.
  revert acc. induction fuel as [|fuel IH]; intros acc L Hl; [lia|].
  cbn [parseOperands]. destruct (parseOperand _ L) as [[e L1]|[]] eqn:Ef; [|done|].
  - apply parseOperand_advances in Ef. destr_lex; lexlen; [apply IH; lia|done].
  - apply parseOperand_fueled in Ef; [done|lia].
Qed.

Lemma ident_len L t L' : ident L = (t, L') → (len L' <= len L)%nat.
Proof. unfold ident. intros Ht%take_len. pose proof (ws_len L). lia. Qed.

(** what follows the mnemonic of an instruction *)
Lemma parseInstr_advances text fuel : advances (parseInstr text fuel).
Proof.
  intros L i L'. unfold parseInstr. destruct (accept "@" L) as [at_ L1] eqn:Ea.
  assert (Hl : (len L1 <= len L)%nat) by (apply accept_spec in Ea; [destruct at_; lia|done]).
  destruct (if at_ then _ else _) as [[[[p ng] pn] L2]|er] eqn:Ep; cbn [rbind]; [|done].
  assert (Hl2 : (len L2 <= len L1)%nat).
  { destruct at_; [apply parsePred_advances in Ep; lia|simplify_eq; lia]. }
  destruct (ident L2) as [word L3] eqn:Ei. destruct (is_empty word) eqn:Ew; [done|].
  apply ident_spec in Ei; [|done]. destruct (split_word word) as [m ms].
  destruct (eof L3) as [e L4] eqn:E4. destruct (peek L4) as [c L5] eqn:E5.
  apply eof_spec in E4 as [H4 _]. apply peek_spec in E5 as [H5 _].
  destruct (if negb e && _ then _ else _) as [[os L6]|er] eqn:Eo; cbn [rbind]; [|done].
  assert (Hl6 : (len L6 <= len L5)%nat).
  { case_match; [apply (parseOperands_advances text fuel []) in Eo; lia|simplify_eq; lia]. }
  destr_lex; lexlen; intros Hr; repeat case_match; simplify_eq; lia.
Qed.

Lemma parseInstr_fueled text fuel : fueled fuel (parseInstr text fuel).
Proof.
  intros L Hl. unfold parseInstr. destruct (accept "@" L) as [at_ L1] eqn:Ea.
  assert (Hl1 : (len L1 <= len L)%nat) by (apply accept_spec in Ea; [destruct at_; lia|done]).
  destruct (if at_ then _ else _) as [[[[p ng] pn] L2]|er] eqn:Ep; cbn [rbind].
  2: { destruct at_; [|done]. intros [= ->]. apply parsePred_fueled in Ep; [done|lia]. }
  assert (Hl2 : (len L2 <= len L1)%nat).
  { destruct at_; [apply parsePred_advances in Ep; lia|simplify_eq; lia]. }
  destruct (ident L2) as [word L3] eqn:Ei. destruct (is_empty word) eqn:Ew; [done|].
  apply ident_len in Ei. destruct (split_word word) as [m ms].
  destruct (eof L3) as [e L4] eqn:E4. destruct (peek L4) as [c L5] eqn:E5.
  apply eof_spec in E4 as [H4 _]. apply peek_spec in E5 as [H5 _].
  destruct (if negb e && _ then _ else _) as [[os L6]|er] eqn:Eo; cbn [rbind].
  2: { case_match; [|done]. intros [= ->].
       apply (parseOperands_fueled text fuel []) in Eo; [done|lia]. }
  destr_lex; repeat case_match; done.
Qed.

Lemma skip_directive_len fuel L : (len (skip_directive fuel L) <= len L)%nat.
Proof.
  revert L. induction fuel as [|fuel IH]; intros L; cbn [skip_directive]; [lia|].
  destr_lex; lexlen; [lia|]. case_match; [lia|]. specialize (IH (adv l0 1)).
  pose proof (adv_len l0 1). lia.
Qed.
(** a directive is skipped entirely: the '.' it starts with, at least *)
Lemma skip_directive_dot fuel L c L1 :
  peek L = (c, L1) → is_char "." c = true →
  (len (skip_directive (S fuel) L1) < len L)%nat.
Proof.
  intros Hp Hc. peeked. apply peek_spec in Hp as [Hl Hh].
  specialize (Hh ltac:(by eapply is_char_nonzero, Hc)). unfold is_char in Hc.
  apply Ascii.eqb_eq in Hc as ->. destruct L1 as [[|d r] i]; simpl in Hh; [done|].
  injection Hh as ->.
  enough (∃ j, skip_directive (S fuel) (mkLexer (String "." r) i) =
               skip_directive fuel (mkLexer r j)) as [j ->].
  { pose proof (skip_directive_len fuel (mkLexer r j)). simpl in *. lia. }
  eexists. cbn -[skip_directive]. reflexivity.
Qed.

Lemma parseLoop_total text fuel L out : (len L < fuel)%nat → parseLoop text fuel L out ≠ Err PFuel.
Proof.
  revert L out. induction fuel as [|fuel IH]; intros L out Hl; [lia|]. cbn [parseLoop].
  destruct (eof L) as [[] L0] eqn:Ee; [done|]. apply eof_spec in Ee as [He _].
  destruct (accept ";" L0) as [[] L1] eqn:E1; apply accept_spec in E1; [|done| |done];
    [apply IH; lia|].
  destruct (accept "{" L1) as [[] L2] eqn:E2; apply accept_spec in E2; [|done| |done];
    [apply IH; lia|].
  destruct (accept "}" L2) as [[] L3] eqn:E3; apply accept_spec in E3; [|done| |done];
    [apply IH; lia|].
  destruct (peek L3) as [c L4] eqn:E4. destruct (is_char "." c) eqn:Ec.
  { apply IH. pose proof (skip_directive_dot (len L4) _ _ _ E4 Ec). lia. }
  apply peek_spec in E4 as [H4 _].
  destruct (parseInstr text (S fuel) L4) as [[i L5]|er] eqn:Ei; cbn [rbind].
  - apply parseInstr_advances in Ei. apply IH. lia.
  - intros [= ->]. apply parseInstr_fueled in Ei; [done|lia].
Qed.

(** ** Properties *)

(** The parser terminates on every text: the fuel of the model is never exhausted, so it
    either returns instructions or the error message the source reports. *)
Theorem parsePtxAsm_total (text : string) : parsePtxAsm text ≠ Err PFuel.
Proof.
  unfold parsePtxAsm.
  destruct (parseLoop text _ _ []) as [out|er] eqn:E; cbn [rbind]; [by destruct out|].
  intros [= ->]. apply parseLoop_total in E; [done|simpl; lia].
Qed.

(** ** The canonical text of an instruction list *)
Definition print_reg (r : Z) : string := String "%" (to_string r).
Fixpoint print_regs (rs : list Z) : string :=
  match rs with
  | [] => "}"
  | [r] => print_reg r +++ "}"
  | r :: rs => print_reg r +++ String "," (print_regs rs)
  end.
Definition print_body (o : PtxOperand) : string :=
  match kind o with
  | Reg => print_reg (reg o)
  | Imm => to_string_s (imm o)
  | Mem => String "[" (print_reg (reg o) +++
             (if imm o =? 0 then "]" else String "+" (to_string_s (imm o) +++ "]")))
  | Vec => String "{" (print_regs (regs o))
  | Named => name o
  end.
Definition print_operand (o : PtxOperand) : string :=
  if negated o then String "!" (print_body o) else print_body o.
Fixpoint print_operands (os : list PtxOperand) : string :=
  match os with
  | [] => ";"
  | [o] => print_operand o +++ ";"
  | o :: os => print_operand o +++ String "," (String " " (print_operands os))
  end.
Fixpoint print_mods (ms : list string) : string :=
  match ms with [] => "" | m :: ms => String "." (m +++ print_mods ms) end.
Definition print_pred (i : PtxInstr) : string :=
  let neg := if predNeg i then "!" else "" in
  if 0 <=? pred i then "@" +++ neg +++ print_reg (pred i) +++ " "
  else if is_empty (predName i) then "" else "@" +++ neg +++ predName i +++ " ".
Definition print_instr (i : PtxInstr) : string :=
  print_pred i +++ mnemonic i +++ print_mods (mods i) +++
  match ops i with [] => ";" | os => String " " (print_operands os) end.
Fixpoint print_asm (prog : list PtxInstr) : string :=
  match prog with [] => "" | i :: prog => print_instr i +++ String " " (print_asm prog) end.

(** the instructions a text can denote: register numbers fit [int], immediates fit
    [long long], names are identifiers, unused fields have their defaults *)
Definition reg_ok (r : Z) : Prop := 0 <= r < 2 ^ 31.
Definition imm_ok (v : Z) : Prop := - 2 ^ 63 <= v < 2 ^ 63.
Definition name_ok (n : string) : Prop :=
  match n with String c r => name_start c = true ∧ all_chars name_char r = true | EmptyString => False end.
Definition operand_ok (o : PtxOperand) : Prop :=
  match kind o with
  | Reg => reg_ok (reg o) ∧ imm o = 0 ∧ regs o = [] ∧ name o = ""
  | Imm => reg o = -1 ∧ imm_ok (imm o) ∧ regs o = [] ∧ name o = ""
  | Mem => reg_ok (reg o) ∧ imm_ok (imm o) ∧ regs o = [] ∧ name o = ""
  | Vec => reg o = -1 ∧ imm o = 0 ∧ regs o ≠ [] ∧ Forall reg_ok (regs o) ∧ name o = ""
  | Named => reg o = -1 ∧ imm o = 0 ∧ regs o = [] ∧ name_ok (name o)
  end.
(** a mnemonic or modifier: no dot inside *)
Definition word_char (c : ascii) : bool := isalnum c || is_char "_" c || is_char ":" c.
Definition word_ok (m : string) : Prop := is_empty m = false ∧ all_chars word_char m = true.
Definition instr_ok (i : PtxInstr) : Prop :=
  word_ok (mnemonic i) ∧ Forall word_ok (mods i) ∧ Forall operand_ok (ops i) ∧
  (if decide (pred i = -1) then predName i = "" ∧ predNeg i = false ∨ name_ok (predName i)
   else reg_ok (pred i) ∧ predName i = "").

(** *** The lexer on a known text *)
Lemma ws_rest L : rest (ws L) = drop_while isspace (rest L).
Proof. unfold ws, drop_while. by destruct (span _ _). Qed.
Lemma drop_while_stop p c t : p c = false → drop_while p (String c t) = String c t.
Proof. intros H. unfold drop_while. simpl. by rewrite H. Qed.
Lemma drop_while_space t : drop_while isspace (String " " t) = drop_while isspace t.
Proof. unfold drop_while. simpl. by destruct (span isspace t). Qed.

Definition at_char (L : Lexer) (c : ascii) (t : string) : Prop :=
  drop_while isspace (rest L) = String c t.
Lemma at_char_intro L c t : rest L = String c t → isspace c = false → at_char L c t.
Proof. unfold at_char. intros ->. apply drop_while_stop. Qed.

Lemma peek_at L c t : at_char L c t → ∃ L', peek L = (c, L') ∧ rest L' = String c t.
Proof. intros H. exists (ws L). unfold peek. rewrite ws_rest, H. done. Qed.
Lemma eof_at L c t : at_char L c t → ∃ L', eof L = (false, L') ∧ rest L' = String c t.
Proof. intros H. exists (ws L). unfold eof. rewrite ws_rest, H. done. Qed.
Lemma accept_yes L c t : at_char L c t → ∃ L', accept c L = (true, L') ∧ rest L' = t.
Proof.
  intros (L1&Hp&Hr)%peek_at. unfold accept. rewrite Hp, Ascii.eqb_refl.
  exists (adv L1 1). split; [done|]. unfold adv. by rewrite Hr.
Qed.
Lemma accept_no L c d t :
  at_char L c t → Ascii.eqb c d = false → ∃ L', accept d L = (false, L') ∧ rest L' = String c t.
Proof. intros (L1&Hp&Hr)%peek_at Hd. unfold accept. rewrite Hp, Hd. eauto. Qed.
Lemma take_at p L s c t :
  rest L = s +++ String c t → all_chars p s = true → p c = false →
  ∃ L', take p L = (s, L') ∧ rest L' = String c t.
Proof. intros Hr Hs Hc. unfold take. rewrite Hr, span_app_stop by done. eauto. Qed.

(** a character that ends every operand *)
Definition stops (c : ascii) : bool :=
  negb (imm_char c) && negb (name_char c).

Lemma stops_not c : stops c = true → isdigit c = false ∧ imm_char c = false ∧ name_char c = false.
Proof.
  unfold stops, imm_char, name_char, isalnum. intros [H1 H2]%andb_true_iff.
  rewrite negb_true_iff in *. apply orb_false_iff in H1 as [H1 ?]. rewrite H1 in *.
  by apply orb_false_iff in H1 as [? ->].
Qed.

(** the branch of [parseOperand] a first character selects *)
Lemma branch_of_digit c : isdigit c = true →
  is_char "%" c || is_char "$" c = false ∧ is_char "!" c = false ∧ is_char "[" c = false ∧
  is_char "{" c = false ∧ isspace c = false.
Proof.
  intros H. rewrite <- !negb_true_iff, <- !andb_true_iff. revert H. apply implb_elim. by_ascii c.
Qed.
Lemma branch_of_name c : name_start c = true →
  is_char "%" c || is_char "$" c = false ∧ is_char "!" c = false ∧ is_char "[" c = false ∧
  is_char "{" c = false ∧ isdigit c || is_char "-" c = false ∧ isspace c = false.
Proof.
  intros H. rewrite <- !negb_true_iff, <- !andb_true_iff. revert H. apply implb_elim. by_ascii c.
Qed.
Lemma digit_not_name_start c : isdigit c = true → name_start c = false.
Proof. rewrite <- negb_true_iff. apply implb_elim. by_ascii c. Qed.

(** *** Operands parse back *)
#[local] Arguments accept : simpl never.
#[local] Arguments peek : simpl never.
#[local] Arguments take : simpl never.
#[local] Arguments take_signed : simpl never.
#[local] Arguments print_reg : simpl never.

Lemma parse_reg fuel L r c t :
  rest L = print_reg r +++ String c t → reg_ok r → stops c = true →
  ∃ L', parseOperand (S fuel) L = Ok (mkOperand Reg r 0 [] false "", L') ∧ rest L' = String c t.
Proof.
  intros Hr Hok Hc. destruct (stops_not c Hc) as (Hcd&_). cbn [parseOperand].
  destruct (peek_at L "%" (to_string r +++ String c t)) as (L1&->&HL1);
    [by apply at_char_intro|]. change (is_char "%" "%" || is_char "$" "%") with true. cbv iota.
  assert (Ha : rest (adv L1 1) = to_string r +++ String c t) by (unfold adv; by rewrite HL1).
  destruct (to_string_head r) as (d&ds&Ed&Hd&_).
  assert (Hh : head_char (rest (adv L1 1)) = Some d) by (by rewrite Ha, Ed).
  rewrite Hh, (digit_not_name_start d Hd).
  destruct (take_at isdigit _ _ c t Ha) as (L2&->&HL2); [auto with cstd|done|].
  rewrite to_string_nonempty, atoi_to_string by done. eauto.
Qed.

Lemma parse_regs f fuel L rs acc c t :
  rs ≠ [] → Forall reg_ok rs → rest L = print_regs rs +++ String c t → (length rs <= fuel)%nat →
  ∃ L', parseVec (parseOperand (S f)) fuel L acc = Ok ((acc ++ rs)%list, L') ∧ rest L' = String c t.
Proof.
  intros Hne Hok. revert fuel L acc Hne. induction Hok as [|r rs Hr Hrs IH]; [done|].
  intros fuel L acc _ HL Hfuel. destruct fuel as [|fuel]; [simpl in Hfuel; lia|]. cbn [parseVec].
  destruct rs as [|r2 rs].
  - cbn [print_regs] in HL. rewrite append_assoc in HL.
    destruct (parse_reg f L r "}" (String c t)) as (L1&->&H1); [done|done|done|].
    cbn [rbind kind reg]. rewrite (bool_decide_true (Reg = Reg)) by done. cbn [negb].
    destruct (accept_no L1 "}" "," (String c t)) as (L2&->&H2); [by apply at_char_intro|done|].
    destruct (accept_yes L2 "}" (String c t)) as (L3&->&H3); [by apply at_char_intro|]. eauto.
  - cbn [print_regs] in HL. rewrite append_assoc in HL.
    destruct (parse_reg f L r "," (print_regs (r2 :: rs) +++ String c t)) as (L1&->&H1); [done|done|done|].
    cbn [rbind kind reg]. rewrite (bool_decide_true (Reg = Reg)) by done. cbn [negb].
    destruct (accept_yes L1 "," (print_regs (r2 :: rs) +++ String c t)) as (L2&->&H2);
      [by apply at_char_intro|].
    destruct (IH fuel L2 (acc ++ [r])%list) as (L3&->&H3); [done|done|simpl in *; lia|].
    rewrite <- (assoc_L (++)%list). eauto.
Qed.

Lemma to_string_s_chars p v :
  p "-"%char = true → (∀ c, isdigit c = true → p c = true) → all_chars p (to_string_s v) = true.
Proof.
  intros Hm Hp. unfold to_string_s. case_match; [cbn [all_chars]; rewrite Hm; cbn [andb]|];
    apply (all_chars_impl isdigit); auto with cstd.
Qed.
(** a printed number is read back by the signed scan *)
Lemma take_signed_at p L v c t :
  (∀ d, isdigit d = true → p d = true) → p c = false →
  rest L = to_string_s v +++ String c t →
  ∃ L', take_signed p L = (to_string_s v, L') ∧ rest L' = String c t.
Proof.
  intros Hp Hc HL. unfold take_signed, to_string_s in *. destruct (v <? 0).
  - rewrite HL. cbn [String.append head_char]. change (is_char "-" "-") with true. cbv iota.
    destruct (take_at p (adv L 1) (to_string (- v)) c t) as (L1&->&H1);
      [unfold adv; by rewrite HL|apply (all_chars_impl isdigit); auto with cstd|done|]. eauto.
  - destruct (to_string_head v) as (d&ds&Ed&Hd&_).
    assert (Hh : head_char (rest L) = Some d) by (by rewrite HL, Ed).
    rewrite Hh. destruct (digit_not_sign d Hd) as [-> _].
    destruct (take_at p L (to_string v) c t) as (L1&->&H1);
      [done|apply (all_chars_impl isdigit); auto with cstd|done|]. eauto.
Qed.

Lemma parse_imm fuel L v c t :
  rest L = to_string_s v +++ String c t → imm_ok v → stops c = true →
  ∃ L', parseOperand (S fuel) L = Ok (mkOperand Imm (-1) v [] false "", L') ∧ rest L' = String c t.
Proof.
  intros HL Hok Hc. destruct (stops_not c Hc) as (_&Hci&_). cbn [parseOperand].
  assert (Hhd : ∃ d ds, to_string_s v +++ String c t = String d ds ∧
                 (isdigit d = true ∨ d = "-"%char)).
  { unfold to_string_s. case_match; [do 2 eexists; by eauto|].
    destruct (to_string_head v) as (d&ds&->&Hd&_). do 2 eexists. eauto. }
  destruct Hhd as (d&ds&Hd&Hcase). rewrite Hd in HL.
  assert (Hb : is_char "%" d || is_char "$" d = false ∧ is_char "!" d = false ∧
    is_char "[" d = false ∧ is_char "{" d = false ∧ isspace d = false ∧
    isdigit d || is_char "-" d = true).
  { destruct Hcase as [H| ->]; [|by vm_compute].
    destruct (branch_of_digit d H) as (?&?&?&?&?). by rewrite H. }
  destruct Hb as (E1&E2&E3&E4&E5&E6).
  destruct (peek_at L d ds) as (L1&->&H1); [by apply at_char_intro|].
  rewrite E1, E2, E3, E4, E6. rewrite <- Hd in H1.
  destruct (take_signed_at imm_char L1 v c t) as (L2&->&H2);
    [apply digit_imm_char|done|done|].
  rewrite strtoll0_to_string by done. eauto.
Qed.

Lemma parse_named fuel L n c t :
  rest L = n +++ String c t → name_ok n → stops c = true →
  ∃ L', parseOperand (S fuel) L = Ok (mkOperand Named (-1) 0 [] false n, L') ∧ rest L' = String c t.
Proof.
  intros HL Hok Hc. destruct (stops_not c Hc) as (_&_&Hcn). cbn [parseOperand].
  destruct n as [|d n]; [done|]. destruct Hok as [Hd Hn].
  destruct (branch_of_name d Hd) as (E1&E2&E3&E4&E5&E6).
  destruct (peek_at L d (n +++ String c t)) as (L1&->&H1); [by apply at_char_intro|].
  rewrite E1, E2, E3, E4, E5, Hd.
  destruct (take_at name_char L1 (String d n) c t) as (L2&->&H2); [done| |done|eauto].
  cbn [all_chars]. by rewrite (name_start_char d Hd).
Qed.

Lemma parse_mem f L r v c t :
  rest L = print_reg r +++ (if v =? 0 then "]" else String "+" (to_string_s v +++ "]")) +++ String c t →
  reg_ok r → imm_ok v →
  ∃ L', parseMem (parseOperand (S f)) L = Ok (mkOperand Mem r v [] false "", L') ∧ rest L' = String c t.
Proof.
  intros HL Hr Hv. unfold parseMem. destruct (Z.eqb_spec v 0) as [->|Hv0].
  - destruct (parse_reg f L r "]" (String c t)) as (L1&->&H1); [done..|]. cbn.
    destruct (accept_no L1 "]" "+" (String c t)) as (L2&->&H2); [by apply at_char_intro|done|].
    destruct (peek_at L2 "]" (String c t)) as (L3&->&H3); [by apply at_char_intro|]. cbn.
    destruct (accept_yes L3 "]" (String c t)) as (L4&->&H4); [by apply at_char_intro|]. eauto.
  - cbn in HL. rewrite append_assoc in HL.
    destruct (parse_reg f L r "+" (to_string_s v +++ String "]" (String c t)))
      as (L1&->&H1); [done..|]. cbn.
    destruct (accept_yes L1 "+" (to_string_s v +++ String "]" (String c t)))
      as (L2&->&H2); [by apply at_char_intro|]. cbn.
    destruct (take_signed_at isalnum L2 v "]" (String c t)) as (L3&->&H3);
      [apply digit_alnum|done|done|].
    destruct (accept_yes L3 "]" (String c t)) as (L4&->&H4); [by apply at_char_intro|].
    rewrite strtoll0_to_string by done. eauto.
Qed.

Lemma ws_ws L : ws (ws L) = ws L.
Proof.
  destruct L as [s i]. unfold ws. cbn [rest idx]. destruct (span isspace s) as [a b] eqn:E.
  apply span_spec in E as (_&_&Hb). cbn [rest idx].
  assert (Hs : span isspace b = ("", b)).
  { destruct b as [|c r]; [done|]. cbn [span]. by rewrite (Hb c r eq_refl). }
  rewrite Hs. simpl. f_equal. lia.
Qed.
Lemma parseOperand_ws fuel L : parseOperand fuel (ws L) = parseOperand fuel L.
Proof. destruct fuel; [done|]. cbn [parseOperand]. unfold peek. by rewrite ws_ws. Qed.
Lemma rest_ws L c t : at_char L c t → rest (ws L) = String c t.
Proof. by rewrite ws_rest. Qed.

Lemma print_regs_length rs : (length rs <= String.length (print_regs rs))%nat.
Proof.
  induction rs as [|r [|r2 rs] IH]; [simpl; lia| |].
  - unfold print_regs, print_reg. simpl. lia.
  - cbn [print_regs] in *. unfold print_reg at 1. rewrite append_length. simpl in *. lia.
Qed.

(** an operand's text without its negation *)
Lemma parse_body fuel L o c t :
  operand_ok o → stops c = true → (S (String.length (print_body o)) < fuel)%nat →
  rest L = print_body o +++ String c t →
  ∃ L', parseOperand fuel L =
        Ok (mkOperand (kind o) (reg o) (imm o) (regs o) false (name o), L') ∧ rest L' = String c t.
Proof.
  destruct fuel as [|[|fuel]]; [lia..|]. intros Hok Hc Hf HL.
  destruct o as [k r v rs ng n]. unfold operand_ok, print_body in *.
  destruct k; simpl in Hok, Hf, HL; cbn [kind reg imm regs name]; destruct_and? Hok; subst.
  - by apply parse_reg.
  - by apply parse_imm.
  - rewrite append_assoc in HL. cbn [parseOperand].
    edestruct (peek_at L "[") as (L1&->&HL1); [by apply at_char_intro|]. simpl is_char. cbv iota.
    apply parse_mem; [|done..]. unfold adv. by rewrite HL1.
  - remember (S fuel) as f1 eqn:Ef. cbn [parseOperand].
    edestruct (peek_at L "{") as (L1&->&HL1); [by apply at_char_intro|]. simpl is_char. cbv iota.
    subst f1.
    destruct (parse_regs fuel (S fuel) (adv L1 1) rs [] c t) as (L2&->&HL2); [done|done| | |eauto].
    + unfold adv. by rewrite HL1.
    + pose proof (print_regs_length rs). lia.
  - by apply parse_named.
Qed.

Lemma parse_operand_print fuel L o c t :
  operand_ok o → stops c = true → (S (String.length (print_operand o)) < fuel)%nat →
  rest L = print_operand o +++ String c t →
  ∃ L', parseOperand fuel L = Ok (o, L') ∧ rest L' = String c t.
Proof.
  unfold print_operand. intros Hok Hc Hf HL. destruct (negated o) eqn:Hn.
  - destruct fuel as [|fuel]; [lia|]. cbn [parseOperand].
    edestruct (peek_at L "!") as (L1&->&H1); [by apply at_char_intro|]. simpl is_char. cbv iota.
    destruct (parse_body fuel (adv L1 1) o c t) as (L2&->&H2); [done|done|simpl in Hf; lia| |].
    { unfold adv. by rewrite H1. }
    cbn. exists L2. split; [|done]. destruct o; simpl in *; by subst.
  - destruct (parse_body fuel L o c t) as (L2&->&H2); [done..|]. exists L2. split; [|done].
    destruct o; simpl in *; by subst.
Qed.

(** *** Heads of printed items *)
Definition operand_head (c : ascii) : bool :=
  negb (isspace c) && negb (is_char ";" c).
Lemma name_start_head c : name_start c = true → operand_head c = true.
Proof. apply implb_elim. by_ascii c. Qed.
Lemma digit_head c : isdigit c = true → operand_head c = true.
Proof. apply implb_elim. by_ascii c. Qed.
Lemma print_operand_head o :
  operand_ok o → ∃ c t, print_operand o = String c t ∧ operand_head c = true.
Proof.
  intros Hok. unfold print_operand. destruct (negated o); [do 2 eexists; by split|].
  unfold print_body, operand_ok in *. destruct (kind o); try (do 2 eexists; by split).
  - unfold to_string_s. case_match; [do 2 eexists; by split|].
    destruct (to_string_head (imm o)) as (c&r&->&Hd&_). do 2 eexists.
    split; [done|by apply digit_head].
  - destruct Hok as (_&_&_&Hn). destruct (name o) as [|c r]; [done|]. do 2 eexists.
    split; [done|]. apply name_start_head, Hn.
Qed.

Lemma parse_operands_print text fuel os L acc t :
  os ≠ [] → Forall operand_ok os → (String.length (rest L) < fuel)%nat →
  drop_while isspace (rest L) = print_operands os +++ t →
  ∃ L', parseOperands text fuel L acc = Ok ((acc ++ os)%list, L') ∧ rest L' = String ";" t.
Proof.
  intros Hne Hok. revert fuel L acc Hne.
  induction Hok as [|o os Ho Hos IH]; [done|]. intros fuel L acc _ Hf HL.
  destruct fuel as [|fuel]; [lia|]. cbn [parseOperands]. rewrite <- parseOperand_ws.
  pose proof (ws_len L) as Hw. rewrite <- ws_rest in HL. destruct os as [|o2 os].
  - cbn [print_operands] in HL. rewrite append_assoc in HL.
    destruct (parse_operand_print (S fuel) (ws L) o ";" t) as (L1&->&H1); [done|done| |done|].
    { rewrite HL, append_length in Hw. simpl in Hw. lia. }
    cbv zeta. destruct (accept_no L1 ";" "," t) as (L2&->&H2); [by apply at_char_intro|done|]. eauto.
  - remember (print_operands (o2 :: os)) as tl eqn:Etl.
    assert (HL' : rest (ws L) = print_operand o +++ String "," (String " " tl +++ t)).
    { rewrite HL, Etl.
      change (print_operands (o :: o2 :: os)) with
        (print_operand o +++ String "," (String " " (print_operands (o2 :: os)))).
      by rewrite append_assoc. }
    destruct (parse_operand_print (S fuel) (ws L) o "," (String " " tl +++ t)) as (L1&->&H1);
      [done|done| |done|].
    { rewrite HL', append_length in Hw. simpl in Hw. lia. }
    cbv zeta. destruct (accept_yes L1 "," (String " " tl +++ t)) as (L2&->&H2);
      [by apply at_char_intro|].
    destruct (IH fuel L2 (acc ++ [o])%list) as (L3&->&H3); [done| | |].
    + rewrite H2. rewrite HL', append_length in Hw. simpl in *. lia.
    + rewrite H2. cbn [String.append]. rewrite drop_while_space.
      destruct (print_operand_head o2) as (c&r&Ec&Hc); [by apply Forall_inv in Hos|].
      unfold operand_head in Hc. apply andb_true_iff in Hc as [Hc _].
      rewrite negb_true_iff in Hc. fold print_operands. rewrite <- ?Etl.
      assert (∃ r', tl = String c r') as [r' ->].
      { rewrite Etl. destruct os; cbn [print_operands]; rewrite Ec; cbn; eauto. }
      cbn [String.append]. by apply drop_while_stop.
    + rewrite <- (assoc_L (++)%list). eauto.
Qed.

(** *** Mnemonic and modifiers *)
Definition not_dot (c : ascii) : bool := negb (Ascii.eqb c ".").
Lemma pieces_word a b :
  all_chars not_dot a = true → pieces "." (a +++ String "." b) = a :: pieces "." b.
Proof.
  induction a as [|c a IH]; [done|]. cbn [all_chars]. intros [Hc Ha]%andb_true_iff.
  cbn [String.append pieces]. unfold not_dot in Hc. rewrite negb_true_iff in Hc.
  by rewrite Hc, IH.
Qed.
Lemma pieces_last a : all_chars not_dot a = true → pieces "." a = [a].
Proof.
  induction a as [|c a IH]; [done|]. cbn [all_chars]. intros [Hc Ha]%andb_true_iff.
  cbn [pieces]. unfold not_dot in Hc. rewrite negb_true_iff in Hc. by rewrite Hc, IH.
Qed.
Lemma word_not_dot c : word_char c = true → not_dot c = true.
Proof. apply implb_elim. by_ascii c. Qed.
Lemma word_mnemonic_char c : word_char c = true → mnemonic_char c = true.
Proof. apply implb_elim. by_ascii c. Qed.
#[local] Hint Resolve word_not_dot word_mnemonic_char : cstd.

Lemma split_word_print m ms :
  word_ok m → Forall word_ok ms → split_word (m +++ print_mods ms) = (m, ms).
Proof.
  intros Hm Hms.
  assert (Hp : pieces "." (m +++ print_mods ms) = m :: ms).
  { revert m Hm. induction Hms as [|m2 ms Hm2 Hms IH]; intros m [_ Hm].
    - cbn [print_mods]. rewrite append_nil_r. apply pieces_last.
      by apply (all_chars_impl word_char); auto with cstd.
    - cbn [print_mods]. rewrite pieces_word, IH; [done|done|].
      by apply (all_chars_impl word_char); auto with cstd. }
  unfold split_word. rewrite Hp.
  assert (Hall : ∀ l, Forall word_ok l → filter (λ p, is_empty p = false) l = l).
  { induction 1 as [|x l [Hx _] Hl IHl]; [done|]. by rewrite filter_cons_True, IHl. }
  rewrite Hall by (by constructor). done.
Qed.
Lemma print_mods_chars ms : Forall word_ok ms → all_chars mnemonic_char (print_mods ms) = true.
Proof.
  induction 1 as [|m ms [_ Hm] Hms IH]; [done|]. cbn [print_mods all_chars].
  rewrite all_chars_app, IH, (all_chars_impl word_char); auto with cstd.
Qed.

(** *** Predicates, instructions, programs *)
Lemma name_start_not_bang c : name_start c = true → Ascii.eqb c "!" = false.
Proof. rewrite <- negb_true_iff. apply implb_elim. by_ascii c. Qed.

Lemma parse_pred_operand fuel L o t :
  operand_ok o → negated o = false → kind o = Reg ∨ kind o = Named →
  ∀ neg : bool, (String.length (rest L) < fuel)%nat →
  rest L = (if neg then "!" else "") +++ print_operand o +++ String " " t →
  ∃ L', parsePred fuel L = Ok (reg o, neg, name o, L') ∧ rest L' = String " " t.
Proof.
  intros Hok Hn Hk neg Hf HL. unfold parsePred.
  assert (Ha : ∃ L1, accept "!" L = (neg, L1) ∧ rest L1 = print_operand o +++ String " " t).
  { destruct neg.
    - apply accept_yes. by apply at_char_intro.
    - cbn in HL. unfold print_operand in *. rewrite Hn in *. unfold print_body in *.
      unfold operand_ok in Hok.
      destruct Hk as [Hk|Hk]; rewrite Hk in *.
      + eapply accept_no; [apply at_char_intro; [exact HL|done]|done].
      + destruct Hok as (_&_&_&Hname). destruct (name o) as [|c r]; [done|].
        destruct Hname as [Hc _]. eapply accept_no; [apply at_char_intro; [exact HL|]|].
        * by destruct (branch_of_name c Hc) as (?&?&?&?&?&?).
        * by apply name_start_not_bang. }
  destruct Ha as (L1&->&H1).
  destruct (parse_operand_print fuel L1 o " " t) as (L2&->&H2); [done|done| |done|].
  { rewrite HL, !append_length in Hf. simpl in Hf. lia. }
  exists L2. split; [|done]. unfold operand_ok in Hok.
  destruct Hk as [Hk|Hk]; rewrite Hk in *.
  - by destruct Hok as (_&_&_&->).
  - by destruct Hok as (->&_).
Qed.

(** the end of an instruction: eof is false and the ';' is accepted *)
Lemma parse_semi {A} (L : Lexer) (k : Lexer → A) (r : A) t :
  rest L = String ";" t →
  ∃ L', rest L' = t ∧
    (let '(e, L) := eof L in
     if e then r else
     let '(semi, L) := accept ";" L in
     if semi then k L else r) = k L'.
Proof.
  intros HL. destruct (eof_at L ";" t) as (L1&->&H1); [by apply at_char_intro|]. cbn iota.
  destruct (accept_yes L1 ";" t) as (L2&->&H2); [by apply at_char_intro|]. eauto.
Qed.

Lemma word_char_head c : word_char c = true →
  isspace c = false ∧ Ascii.eqb c "@" = false ∧ Ascii.eqb c ";" = false ∧ Ascii.eqb c "{" = false ∧
  Ascii.eqb c "}" = false ∧ is_char "." c = false.
Proof.
  intros H. rewrite <- !negb_true_iff, <- !andb_true_iff. revert H. apply implb_elim. by_ascii c.
Qed.
Lemma word_ok_head m : word_ok m → ∃ c r, m = String c r ∧ word_char c = true.
Proof.
  intros [He Hw]. destruct m as [|c r]; [done|]. cbn [all_chars] in Hw.
  apply andb_true_iff in Hw as []. eauto.
Qed.

(** the '@' of a predicated instruction and what follows it *)
Definition pred_operand (i : PtxInstr) : PtxOperand :=
  if 0 <=? pred i then mkOperand Reg (pred i) 0 [] false ""
  else mkOperand Named (-1) 0 [] false (predName i).
Lemma print_pred_cases i :
  instr_ok i →
  (print_pred i = "" ∧ pred i = -1 ∧ predName i = "" ∧ predNeg i = false) ∨
  (print_pred i = String "@" ((if predNeg i then "!" else "") +++
                     print_operand (pred_operand i) +++ " ") ∧
   operand_ok (pred_operand i) ∧ negated (pred_operand i) = false ∧
   (kind (pred_operand i) = Reg ∨ kind (pred_operand i) = Named) ∧
   reg (pred_operand i) = pred i ∧ name (pred_operand i) = predName i).
Proof.
  intros (_&_&_&Hp). unfold print_pred, pred_operand.
  destruct (decide (pred i = -1)) as [Em|Em].
  - rewrite Em. simpl (0 <=? -1). cbv iota. destruct Hp as [[-> ->]|Hn]; [by left|].
    right. assert (He : is_empty (predName i) = false) by (by destruct (predName i)).
    rewrite He. split_and!; try done. by right.
  - destruct Hp as [Hr Hn]. assert (0 <= pred i) as Hz by (unfold reg_ok in Hr; lia).
    apply Z.leb_le in Hz. rewrite Hz. right. split_and!; try done. by left.
Qed.

Lemma parse_pred_print fuel L i t :
  instr_ok i → (String.length (rest L) < fuel)%nat → rest L = print_pred i +++ t →
  (∃ c r, t = String c r ∧ word_char c = true) →
  ∃ L', (let '(at_, L) := accept "@" L in
         if at_ then parsePred fuel L else Ok (-1, false, "", L)) =
        Ok (pred i, predNeg i, predName i, L') ∧ drop_while isspace (rest L') = t.
Proof.
  intros Hi Hf HL (c&r&->&Hc). destruct (word_char_head c Hc) as (Hs&Ha&_).
  destruct (print_pred_cases i Hi) as [(Ep&->&->&->)|(Ep&Hok&Hn&Hk&<-&<-)].
  - rewrite Ep in HL. destruct (accept_no L c "@" r) as (L1&->&H1); [by apply at_char_intro|done|].
    exists L1. split; [done|]. rewrite H1. by apply drop_while_stop.
  - rewrite Ep in HL. cbn [String.append] in HL. rewrite !append_assoc in HL.
    edestruct (accept_yes L "@") as (L1&->&H1); [by apply at_char_intro|].
    destruct (parse_pred_operand fuel L1 _ (String c r) Hok Hn Hk (predNeg i)) as (L2&->&H2); [|done|].
    { rewrite H1. rewrite HL in Hf. cbn [String.length] in Hf. lia. }
    exists L2. split; [done|]. rewrite H2, drop_while_space. by apply drop_while_stop.
Qed.

Lemma parse_instr_print text fuel L i t :
  instr_ok i → (String.length (rest L) < fuel)%nat → rest L = print_instr i +++ t →
  ∃ L', parseInstr text fuel L = Ok (i, L') ∧ rest L' = t.
Proof.
  intros Hi Hf HL. unfold parseInstr. unfold print_instr in HL. rewrite !append_assoc in HL.
  pose proof Hi as (Hm&Hms&Hos&_). destruct (word_ok_head _ Hm) as (c&r&Em&Hc).
  edestruct (parse_pred_print fuel L i) as (L1&E1&H1); [done|done|exact HL| |].
  { rewrite Em. cbn [String.append]. eauto. }
  destruct (accept "@" L) as [at_ L0] eqn:Ea. cbv beta iota in E1 |- *. rewrite E1. cbn [rbind].
  assert (Hl1 : (String.length (rest L1) <= String.length (rest L))%nat).
  { assert (String.length (rest L0) <= String.length (rest L))%nat.
    { apply accept_spec in Ea; [destruct at_; lia|done]. }
    destruct at_; [apply parsePred_advances in E1; lia|by simplify_eq]. }
  rewrite <- ws_rest in H1. set (body := match ops i with [] => _ | _ => _ end) in H1.
  assert (Hb : ∃ d u, body +++ t = String d u ∧ mnemonic_char d = false ∧ isspace d || is_char ";" d = true).
  { subst body. destruct (ops i); do 2 eexists; by split. }
  destruct Hb as (d&u&Eb&Hd&_). rewrite Eb, <- append_assoc in H1.
  edestruct (take_at mnemonic_char (ws L1)) as (L2&E2&H2); [exact H1| |exact Hd|].
  { rewrite all_chars_app, print_mods_chars, (all_chars_impl word_char); [done| |apply Hm|done].
    auto with cstd. }
  unfold ident. rewrite E2.
  assert (He : is_empty (mnemonic i +++ print_mods (mods i)) = false) by (by rewrite Em).
  rewrite He, split_word_print by done. rewrite <- Eb in H2.
  assert (Hl2 : (String.length (rest L2) <= String.length (rest L1))%nat).
  { apply take_len in E2. pose proof (ws_len L1). lia. }
  subst body. destruct (ops i) as [|o os] eqn:Eo.
  - cbn [String.append] in H2.
    destruct (eof_at L2 ";" t) as (L3&->&H3); [by apply at_char_intro|].
    destruct (peek_at L3 ";" t) as (L4&->&H4); [by apply at_char_intro|].
    change (negb false && negb (is_char ";" ";")) with false. cbv iota. cbn [rbind].
    destruct (eof_at L4 ";" t) as (L5&->&H5); [by apply at_char_intro|].
    destruct (accept_yes L5 ";" t) as (L6&->&H6); [by apply at_char_intro|].
    exists L6. split; [|done]. rewrite <- Eo. by destruct i.
  - remember (o :: os) as l eqn:El.
    assert (Hh : ∃ c' r', print_operands l = String c' r' ∧ operand_head c' = true).
    { subst l. destruct (print_operand_head o) as (c'&r'&Ec&Hc'); [by apply Forall_inv in Hos|].
      destruct os; cbn [print_operands]; rewrite Ec; cbn; eauto. }
    destruct Hh as (c'&r'&Ec&[Hsp Hsc]%andb_true_iff). rewrite negb_true_iff in Hsp, Hsc.
    assert (Hat : at_char L2 c' (r' +++ t)).
    { unfold at_char. rewrite H2, El, <- El. cbn [String.append].
      rewrite drop_while_space, Ec. by apply drop_while_stop. }
    destruct (eof_at L2 _ _ Hat) as (L3&E3&H3). rewrite E3.
    destruct (peek_at L3 c' (r' +++ t)) as (L4&E4&H4); [by apply at_char_intro|]. rewrite E4.
    rewrite Hsc. cbn [negb andb].
    apply eof_spec in E3 as [Hl3 _]. apply peek_spec in E4 as [Hl4 _].
    destruct (parse_operands_print text fuel l L4 [] t) as (L5&->&H5);
      [by subst|done|lia| |].
    { rewrite H4, drop_while_stop by done. by rewrite Ec. }
    cbn [rbind app].
    destruct (eof_at L5 ";" t) as (L6&->&H6); [by apply at_char_intro|].
    destruct (accept_yes L6 ";" t) as (L7&->&H7); [by apply at_char_intro|].
    exists L7. split; [|done]. rewrite <- Eo. by destruct i.
Qed.

Lemma print_instr_head i :
  instr_ok i → ∃ c r, print_instr i = String c r ∧ isspace c = false ∧ Ascii.eqb c ";" = false ∧
    Ascii.eqb c "{" = false ∧ Ascii.eqb c "}" = false ∧ is_char "." c = false.
Proof.
  intros Hi. unfold print_instr. destruct (print_pred_cases i Hi) as [(->&_)|(->&_)].
  - destruct Hi as (Hm&_). destruct (word_ok_head _ Hm) as (c&r&->&Hc). do 2 eexists.
    split; [done|]. by destruct (word_char_head c Hc) as (?&?&?&?&?&?).
  - do 2 eexists. by split.
Qed.

Lemma parse_loop_print text prog fuel L out :
  Forall instr_ok prog → (String.length (rest L) < fuel)%nat →
  drop_while isspace (rest L) = drop_while isspace (print_asm prog) →
  parseLoop text fuel L out = Ok (out ++ prog)%list.
Proof.
  intros Hok. revert fuel L out. induction Hok as [|i prog Hi Hp IH]; intros fuel L out Hf HL;
    (destruct fuel as [|fuel]; [lia|]); cbn [parseLoop].
  { unfold eof. rewrite ws_rest, HL. cbn. by rewrite app_nil_r. }
  destruct (print_instr_head i Hi) as (c&r&Ei&Hs&E1&E2&E3&E4).
  assert (Hat : at_char L c (r +++ String " " (print_asm prog))).
  { unfold at_char. rewrite HL. cbn [print_asm]. rewrite Ei. by apply drop_while_stop. }
  destruct (eof_at L _ _ Hat) as (L1&X1&H1). rewrite X1.
  destruct (accept_no L1 c ";" _ ltac:(by apply at_char_intro) E1) as (L2&X2&H2). rewrite X2.
  destruct (accept_no L2 c "{" _ ltac:(by apply at_char_intro) E2) as (L3&X3&H3). rewrite X3.
  destruct (accept_no L3 c "}" _ ltac:(by apply at_char_intro) E3) as (L4&X4&H4). rewrite X4.
  destruct (peek_at L4 c _ ltac:(by apply at_char_intro)) as (L5&X5&H5). rewrite X5, E4.
  assert (Hl : (String.length (rest L5) <= String.length (rest L))%nat).
  { apply eof_spec in X1 as [? _]. apply peek_spec in X5 as [? _].
    apply accept_spec in X2, X3, X4; [lia|done..]. }
  destruct (parse_instr_print text (S fuel) L5 i (String " " (print_asm prog)))
    as (L6&X6&H6); [done|lia|by rewrite H5, Ei|].
  rewrite X6. cbn [rbind]. rewrite IH.
  - by rewrite <- (assoc_L (++)%list).
  - apply parseInstr_advances in X6. lia.
  - by rewrite H6, drop_while_space.
Qed.

(** [C38] Parsing inverts printing: for every non-empty list of well-formed instructions the
    parser, run on their canonical text, returns exactly these instructions. *)
Theorem parse_print_asm (prog : list PtxInstr) :
  prog ≠ [] → Forall instr_ok prog → parsePtxAsm (print_asm prog) = Ok prog.
Proof.
  intros Hne Hok. unfold parsePtxAsm.
  rewrite (parse_loop_print _ prog (S (String.length (print_asm prog))) _ []); [|done|cbn; lia|done].
  cbn. by destruct prog.
Qed.

Definition sample_prog : list PtxInstr :=
  [mkInstr "mma" ["sync"; "aligned"; "m16n8k16"]
     [mkOperand Vec (-1) 0 [0; 1; 2; 3] false ""; mkOperand Mem 2 16 [] false "";
      mkOperand Mem 3 0 [] false ""; mkOperand Imm (-1) (-7) [] false "";
      mkOperand Named (-1) 0 [] true "p"] 12 true "";
   mkInstr "bar" ["sync"] [] (-1) false "p"].
Lemma parse_print_asm_witness : parsePtxAsm (print_asm sample_prog) = Ok sample_prog.
Proof.
  apply parse_print_asm; [done|].
  unfold sample_prog, instr_ok, word_ok, operand_ok, name_ok, reg_ok, imm_ok.
  repeat constructor; simpl; split_and?; try done; try lia; by repeat constructor.
Defined.

(** ** Immediates *)

(** A PTX float immediate is not rejected but read as the integer 0: an operand whose text
    is [0f] followed by any digits and letters parses as the immediate 0. *)
Theorem float_immediate_truncated fuel L u r :
  all_chars imm_char u = true → rest L = String "0" (String "f" u) +++ String ";" r →
  ∃ L', parseOperand (S fuel) L = Ok (mkOperand Imm (-1) 0 [] false "", L') ∧ rest L' = String ";" r.
Proof.
  intros Hu HL. cbn [parseOperand].
  destruct (peek_at L "0" (String "f" u +++ String ";" r)) as (L1&->&H1); [by apply at_char_intro|].
  simpl is_char. cbv iota. unfold take_signed. rewrite H1. cbn [head_char].
  change (is_char "-" "0") with false. cbv iota.
  destruct (take_at imm_char L1 (String "0" (String "f" u)) ";" r) as (L2&->&H2); [done| |done|].
  { cbn [all_chars]. by rewrite Hu. }
  exists L2. split; [|done]. reflexivity.
Qed.
Lemma float_immediate_truncated_witness :
  ∃ L', parseOperand 1 (mkLexer "0f3F800000;" 0) = Ok (mkOperand Imm (-1) 0 [] false "", L') ∧
        rest L' = ";".
Proof. by apply (float_immediate_truncated 0 (mkLexer "0f3F800000;" 0) "3F800000" ""). Defined.
