(* ===== verification/Philox.v ===== *)
(** cuRAND's Philox4_32_10 generator: include/curand_kernel.h (device API) and
    cpp/mvcc-metal/curand_host.cpp (the host fill).  The 128-bit block counter plus the word
    index of a state is one position in a sequence of 2^130 samples; every operation is shown
    to be arithmetic on that position. *)
From S2P Require Import Prelude.

(** ** Data *)
Record uint4 := mk_uint4 { cx : Z; cy : Z; cz : Z; cw : Z }.
Record uint2 := mk_uint2 { kx : Z; ky : Z }.

Section state.
Context {float : Type}.
Record curandState := mk_state {
  ctr : uint4;
  output : uint4;
  key : uint2;
  STATE : Z;
  boxmuller_flag : bool;
  boxmuller_extra : float }.
End state.
Arguments curandState : clear implicits.

Definition MVCC_PHILOX_M0 : Z := 0xD2511F53.
Definition MVCC_PHILOX_M1 : Z := 0xCD9E8D57.
Definition MVCC_PHILOX_W0 : Z := 0x9E3779B9.
Definition MVCC_PHILOX_W1 : Z := 0xBB67AE85.

(** one iteration of the loop of [mvcc_philox4x32_10]: the counter and the key it leaves *)
Definition philox_round (ck : uint4 * uint2) : uint4 * uint2 :=
  let '(c, k) := ck in
  let p0 := u64 (MVCC_PHILOX_M0 * cx c) in
  let p1 := u64 (MVCC_PHILOX_M1 * cz c) in
  (mk_uint4 (Z.lxor (Z.lxor (u32 (Z.shiftr p1 32)) (cy c)) (kx k))
            (u32 p1)
            (Z.lxor (Z.lxor (u32 (Z.shiftr p0 32)) (cw c)) (ky k))
            (u32 p0),
   mk_uint2 (u32 (kx k + MVCC_PHILOX_W0)) (u32 (ky k + MVCC_PHILOX_W1))).

Definition mvcc_philox4x32_10 (c : uint4) (k : uint2) : uint4 :=
  fst (Nat.iter 10 philox_round (c, k)).

Definition mvcc_philox_bump (c : uint4) : uint4 :=
  let x' := u32 (cx c + 1) in
  if negb (x' =? 0) then mk_uint4 x' (cy c) (cz c) (cw c) else
  let y' := u32 (cy c + 1) in
  if negb (y' =? 0) then mk_uint4 x' y' (cz c) (cw c) else
  let z' := u32 (cz c + 1) in
  if negb (z' =? 0) then mk_uint4 x' y' z' (cw c) else
  mk_uint4 x' y' z' (u32 (cw c + 1)).

Section ops.
Context {float : Type} (fzero : float).
Implicit Types s : curandState float.

(** the three results [*blo], [*bhi], [*word] *)
Definition mvcc_philox_load s : Z * Z * Z :=
  let wd := Z.land (STATE s) 3 in
  let lo := Z.lor (cx (ctr s)) (u64 (Z.shiftl (cy (ctr s)) 32)) in
  let hi := Z.lor (cz (ctr s)) (u64 (Z.shiftl (cw (ctr s)) 32)) in
  if negb (wd =? 0)
  then (u64 (lo - 1), u64 (hi - (if lo =? 0 then 1 else 0)), wd)
  else (lo, hi, wd).

Definition make_block (blo bhi : Z) : uint4 :=
  mk_uint4 (u32 blo) (u32 (Z.shiftr blo 32)) (u32 bhi) (u32 (Z.shiftr bhi 32)).

Definition mvcc_philox_store s (blo bhi word : Z) : curandState float :=
  if word =? 0
  then mk_state (make_block blo bhi) (output s) (key s) 0 false (boxmuller_extra s)
  else
    let block := make_block blo bhi in
    let out := mvcc_philox4x32_10 block (key s) in
    let nlo := u64 (blo + 1) in
    let bhi := if nlo =? 0 then u64 (bhi + 1) else bhi in
    mk_state (make_block nlo bhi) out (key s) word false (boxmuller_extra s).

Definition skipahead (n : Z) s : curandState float :=
  if n =? 0 then s else
  let '(blo, bhi, word) := mvcc_philox_load s in
  let blocks := Z.shiftr n 2 in
  let sum := u32 (word + u32 (Z.land n 3)) in
  let blocks := u64 (blocks + Z.shiftr sum 2) in
  let nlo := u64 (blo + blocks) in
  let bhi := u64 (bhi + (if nlo <? blo then 1 else 0)) in
  mvcc_philox_store s nlo bhi (Z.land sum 3).

Definition skipahead_sequence (n : Z) s : curandState float :=
  if n =? 0 then s else
  let '(blo, bhi, word) := mvcc_philox_load s in
  mvcc_philox_store s blo (u64 (bhi + n)) word.

(** the state pointer's previous contents are overwritten field by field *)
Definition curand_init (seed subsequence offset : Z) : curandState float :=
  let st := mk_state (mk_uint4 0 0 0 0) (mk_uint4 0 0 0 0)
              (mk_uint2 (u32 seed) (u32 (Z.shiftr seed 32))) 0 false fzero in
  skipahead offset (skipahead_sequence subsequence st).

Definition curand s : Z * curandState float :=
  let word := Z.land (STATE s) 3 in
  let s' := if word =? 0
            then mk_state (mvcc_philox_bump (ctr s)) (mvcc_philox4x32_10 (ctr s) (key s))
                   (key s) (STATE s) (boxmuller_flag s) (boxmuller_extra s)
            else s in
  let r := if word =? 0 then cx (output s') else if word =? 1 then cy (output s')
           else if word =? 2 then cz (output s') else cw (output s') in
  (r, mk_state (ctr s') (output s') (key s') (Z.land (u32 (word + 1)) 3)
        (boxmuller_flag s') (boxmuller_extra s')).

Definition curand4 s : uint4 * curandState float :=
  if Z.land (STATE s) 3 =? 0 then
    (mvcc_philox4x32_10 (ctr s) (key s),
     mk_state (mvcc_philox_bump (ctr s)) (output s) (key s) (STATE s)
       (boxmuller_flag s) (boxmuller_extra s))
  else
    let '(a, s1) := curand s in
    let '(b, s2) := curand s1 in
    let '(c, s3) := curand s2 in
    let '(d, s4) := curand s3 in
    (mk_uint4 a b c d, s4).

(** the loop of [mvcc_philox_fill]: [n] draws, in order *)
Fixpoint draw (n : nat) s : list Z * curandState float :=
  match n with
  | O => ([], s)
  | S n => let '(r, s1) := curand s in let '(rs, s2) := draw n s1 in (r :: rs, s2)
  end.

Definition mvcc_philox_fill (seed offset : Z) (n : nat) : list Z :=
  fst (draw n (curand_init seed 0 offset)).

(** *** normal deviates: the arithmetic on floats is the C library's *)
Section normal.
Context (uniform_bits : Z → float) (fmul fadd : float → float → float)
        (m2 two_pi : float) (sqrtf logf sinf cosf expf : float → float).

Definition curand_uniform s : float * curandState float :=
  let '(r, s') := curand s in (uniform_bits r, s').

Definition curand_normal s : float * curandState float :=
  if boxmuller_flag s then
    (boxmuller_extra s,
     mk_state (ctr s) (output s) (key s) (STATE s) false (boxmuller_extra s))
  else
    let '(u, s1) := curand_uniform s in
    let '(v, s2) := curand_uniform s1 in
    let radius := sqrtf (fmul m2 (logf u)) in
    let theta := fmul two_pi v in
    (fmul radius (cosf theta),
     mk_state (ctr s2) (output s2) (key s2) (STATE s2) true (fmul radius (sinf theta))).

Definition curand_log_normal s (mean stddev : float) : float * curandState float :=
  let '(r, s') := curand_normal s in (expf (fadd mean (fmul stddev r)), s').
End normal.
End ops.
Arguments make_block : simpl never.
Arguments mvcc_philox4x32_10 : simpl never.
Arguments curand {float} : simpl never.
Arguments skipahead {float} : simpl never.
Arguments skipahead_sequence {float} : simpl never.
Arguments mvcc_philox_bump : simpl never.
#[global] Opaque mvcc_philox4x32_10 mvcc_philox_bump.

(** ** The specification: positions in a sequence of 2^130 samples *)
Definition block_of (c : uint4) : Z := cx c + 2 ^ 32 * cy c + 2 ^ 64 * cz c + 2 ^ 96 * cw c.
Definition counter (b : Z) : uint4 :=
  mk_uint4 (b mod 2 ^ 32) (b / 2 ^ 32 mod 2 ^ 32) (b / 2 ^ 64 mod 2 ^ 32) (b / 2 ^ 96 mod 2 ^ 32).
Definition word_of (o : uint4) (i : Z) : Z :=
  if i =? 0 then cx o else if i =? 1 then cy o else if i =? 2 then cz o else cw o.

(** sample number [p] of the sequence a key selects *)
Definition sample (k : uint2) (p : Z) : Z :=
  word_of (mvcc_philox4x32_10 (counter (p / 4 mod 2 ^ 128)) k) (p mod 4).

Definition uint4_ok (c : uint4) : Prop := is_u32 (cx c) ∧ is_u32 (cy c) ∧ is_u32 (cz c) ∧ is_u32 (cw c).
Definition uint2_ok (k : uint2) : Prop := is_u32 (kx k) ∧ is_u32 (ky k).

Section spec.
Context {float : Type} (fzero : float).
Implicit Types s : curandState float.

(** the block the next word is taken from *)
Definition cur_block s : Z :=
  if STATE s =? 0 then block_of (ctr s) else (block_of (ctr s) - 1) mod 2 ^ 128.
Definition pos s : Z := 4 * cur_block s + STATE s.

Record wf s : Prop := {
  wf_ctr : uint4_ok (ctr s);
  wf_key : uint2_ok (key s);
  wf_state : 0 <= STATE s < 4;
  wf_output : STATE s ≠ 0 → output s = mvcc_philox4x32_10 (counter (cur_block s)) (key s) }.

(** two states that produce the same samples *)
Definition same_stream s1 s2 : Prop := wf s1 ∧ wf s2 ∧ key s1 = key s2 ∧ pos s1 = pos s2.
End spec.

(** ** Counters and blocks *)
Lemma uint4_ext a b : cx a = cx b → cy a = cy b → cz a = cz b → cw a = cw b → a = b.
Proof. destruct a, b; simpl. congruence. Qed.

Lemma block_of_bound c : uint4_ok c → 0 <= block_of c < 2 ^ 128.
Proof. intros (?&?&?&?). unfold block_of. word_lia. Qed.

Lemma counter_ok b : uint4_ok (counter b).
Proof. unfold uint4_ok, counter; simpl. repeat split; word_lia. Qed.

Lemma counter_block c : uint4_ok c → counter (block_of c) = c.
Proof. intros (?&?&?&?). apply uint4_ext; unfold counter, block_of; simpl; word_lia. Qed.

Lemma block_counter b : 0 <= b < 2 ^ 128 → block_of (counter b) = b.
Proof. intros. unfold counter, block_of; simpl. word_lia. Qed.

Lemma make_block_ok lo hi : uint4_ok (make_block lo hi).
Proof. unfold make_block, uint4_ok; simpl; auto with mvcc_words. Qed.

Lemma make_block_spec lo hi :
  is_u64 lo → is_u64 hi → make_block lo hi = counter (lo + 2 ^ 64 * hi).
Proof.
  intros. unfold make_block, counter.
  rewrite !Z.shiftr_div_pow2 by lia. apply uint4_ext; simpl; word_lia.
Qed.

#[local] Transparent mvcc_philox_bump.
Lemma bump_spec c :
  uint4_ok c → mvcc_philox_bump c = counter ((block_of c + 1) mod 2 ^ 128).
Proof.
  intros (?&?&?&?). unfold mvcc_philox_bump, counter, block_of.
  repeat case_match; rewrite ?negb_true_iff, ?negb_false_iff in *;
    rewrite ?Z.eqb_eq, ?Z.eqb_neq in *; apply uint4_ext; simpl; word_lia.
Qed.

(** addition on 128-bit numbers held as two 64-bit halves *)
Lemma add128 b k :
  u64 (b mod 2 ^ 64 + k) = (b + k) mod 2 ^ 128 mod 2 ^ 64 ∧
  u64 (b / 2 ^ 64 + (b mod 2 ^ 64 + k) / 2 ^ 64) = (b + k) mod 2 ^ 128 / 2 ^ 64.
Proof.
  unfold u64. change (2 ^ 128) with (2 ^ 64 * 2 ^ 64).
  rewrite Z.rem_mul_r by lia. generalize (2 ^ 64), (eq_refl : (0 <? 2 ^ 64) = true).
  intros W HW%Z.ltb_lt.
  assert (Hd : (b + k) / W = b / W + (b mod W + k) / W).
  { rewrite <- Z.div_add_l by lia. f_equal. pose proof (Z.div_mod b W). lia. }
  rewrite (Z.mul_comm W), Z.mod_add, Z.div_add by lia.
  rewrite (Z.div_small ((b + k) mod W) W), Z.mod_mod by (try apply Z.mod_pos_bound; lia).
  rewrite Z.add_mod_idemp_l by lia. by rewrite Hd.
Qed.

Lemma add128_hi b n :
  b mod 2 ^ 64 = (b + n * 2 ^ 64) mod 2 ^ 128 mod 2 ^ 64 ∧
  u64 (b / 2 ^ 64 + n) = (b + n * 2 ^ 64) mod 2 ^ 128 / 2 ^ 64.
Proof.
  destruct (add128 b (n * 2 ^ 64)) as [H1 H2]. rewrite <- H1, <- H2. unfold u64.
  rewrite Z.mod_add, Z.div_add, Z.mod_mod by lia. split; [done|].
  rewrite (Z.div_small (b mod _)) by (apply Z.mod_pos_bound; lia). done.
Qed.

(** ** Load, store and the position *)
Lemma land3 a : 0 <= a → Z.land a 3 = a mod 4.
Proof. intros. change 3 with (Z.ones 2). by rewrite Z.land_ones by lia. Qed.

Lemma split64 b : 0 <= b < 2 ^ 128 → is_u64 (b mod 2 ^ 64) ∧ is_u64 (b / 2 ^ 64).
Proof. intros. split; word_lia. Qed.

Lemma counter_word_halves c :
  uint4_ok c →
  Z.lor (cx c) (u64 (Z.shiftl (cy c) 32)) = block_of c mod 2 ^ 64 ∧
  Z.lor (cz c) (u64 (Z.shiftl (cw c) 32)) = block_of c / 2 ^ 64.
Proof.
  intros (?&?&?&?). unfold block_of.
  assert (Hs : ∀ a, is_u32 a → u64 (Z.shiftl a 32) = Z.shiftl a 32).
  { intros a Ha. rewrite Z.shiftl_mul_pow2 by lia. word_lia. }
  rewrite !Hs, !lor_shiftl by (assumption || lia). split; word_lia.
Qed.

(** reduce the projections of a constructed state, and nothing else *)
Ltac red_state :=
  cbn [ctr output key STATE boxmuller_flag boxmuller_extra fst snd negb].

Section refinement.
Context {float : Type} (fzero : float).
Implicit Types s : curandState float.

Lemma cur_block_bound s : wf s → 0 <= cur_block s < 2 ^ 128.
Proof.
  intros []. unfold cur_block. case_match; [by apply block_of_bound|].
  apply Z.mod_pos_bound. lia.
Qed.

Lemma pos_bound s : wf s → 0 <= pos s < 2 ^ 130.
Proof. intros Hs. pose proof (cur_block_bound s Hs). destruct Hs. unfold pos. word_lia. Qed.

Lemma load_spec s :
  wf s → mvcc_philox_load s = (cur_block s mod 2 ^ 64, cur_block s / 2 ^ 64, STATE s).
Proof.
  intros Hs. pose proof Hs as [Hc _ Hst _]. unfold mvcc_philox_load, cur_block.
  destruct (counter_word_halves _ Hc) as [-> ->].
  rewrite land3, Z.mod_small by lia.
  pose proof (block_of_bound _ Hc). destruct (Z.eqb_spec (STATE s) 0); simpl; [done|].
  destruct (Z.eqb_spec (block_of (ctr s) mod 2 ^ 64) 0); f_equal; f_equal; word_lia.
Qed.

(** a stored state stands at the position it was given, whatever the state before *)
Lemma store_spec s b wd :
  uint2_ok (key s) → 0 <= b < 2 ^ 128 → 0 <= wd < 4 →
  let s' := mvcc_philox_store s (b mod 2 ^ 64) (b / 2 ^ 64) wd in
  wf s' ∧ key s' = key s ∧ pos s' = 4 * b + wd ∧ boxmuller_flag s' = false.
Proof.
  intros Hk Hb Hw. destruct (split64 b Hb) as [Hlo Hhi]. unfold mvcc_philox_store.
  assert (Hmk : make_block (b mod 2 ^ 64) (b / 2 ^ 64) = counter b).
  { rewrite make_block_spec by done. f_equal. word_lia. }
  destruct (Z.eqb_spec wd 0) as [->|Hne]; simpl.
  - rewrite Hmk. split_and!; [|done| |done].
    + constructor; simpl; [apply counter_ok|done|lia|lia].
    + unfold pos, cur_block; simpl. rewrite block_counter by done. lia.
  - set (hi := if u64 (b mod 2 ^ 64 + 1) =? 0 then u64 (b / 2 ^ 64 + 1) else b / 2 ^ 64).
    assert (Hnext : make_block (u64 (b mod 2 ^ 64 + 1)) hi = counter ((b + 1) mod 2 ^ 128)).
    { rewrite make_block_spec; [f_equal| |]; subst hi;
        destruct (Z.eqb_spec (u64 (b mod 2 ^ 64 + 1)) 0); word_lia. }
    assert (Hcur : (block_of (counter ((b + 1) mod 2 ^ 128)) - 1) mod 2 ^ 128 = b).
    { rewrite block_counter by (apply Z.mod_pos_bound; lia). word_lia. }
    rewrite Hnext, Hmk. split_and!; [|done| |done].
    + constructor; simpl; [apply counter_ok|done|lia|].
      unfold cur_block; simpl. rewrite Hcur. by destruct (Z.eqb_spec wd 0).
    + unfold pos, cur_block; simpl. rewrite Hcur. by destruct (Z.eqb_spec wd 0).
Qed.

Lemma pos_split s : wf s → pos s / 4 = cur_block s ∧ pos s mod 4 = STATE s.
Proof. intros [? ? ? ?]. unfold pos. split; word_lia. Qed.

Lemma wf_ext s1 s2 :
  ctr s1 = ctr s2 → key s1 = key s2 → output s1 = output s2 → STATE s1 = STATE s2 →
  wf s1 → wf s2.
Proof.
  destruct s1, s2; simpl; intros; subst. destruct H3; constructor; simpl in *; auto.
Qed.
End refinement.

(** ** Operations are arithmetic on the position *)
Section operations.
Context {float : Type} (fzero : float).
Implicit Types s : curandState float.

Lemma skipahead_spec s n :
  wf s → is_u64 n →
  wf (skipahead n s) ∧ key (skipahead n s) = key s ∧
  pos (skipahead n s) = (pos s + n) mod 2 ^ 130.
Proof.
  intros Hs Hn. pose proof (pos_bound s Hs). pose proof (cur_block_bound s Hs) as Hb.
  unfold skipahead. destruct (Z.eqb_spec n 0) as [->|Hn0].
  { rewrite Z.add_0_r, Z.mod_small by lia. done. }
  rewrite load_spec by done.
  pose proof (wf_state s Hs) as Hst. pose proof (split64 _ Hb) as [Hlo Hhi].
  rewrite land3 by word_lia.
  set (sum := u32 (STATE s + u32 (n mod 4))).
  assert (Hsum : sum = STATE s + n mod 4) by (subst sum; word_lia).
  rewrite !Z.shiftr_div_pow2 by lia. rewrite land3 by word_lia.
  set (k := u64 (n / 2 ^ 2 + sum / 2 ^ 2)).
  assert (Hk : k = n / 4 + sum / 4) by (subst k; word_lia).
  assert (is_u64 k) by word_lia.
  rewrite lt_add_carry by done.
  set (b := (cur_block s + k) mod 2 ^ 128).
  assert (Hb' : u64 (cur_block s mod 2 ^ 64 + k) = b mod 2 ^ 64 ∧
                u64 (cur_block s / 2 ^ 64 + (cur_block s mod 2 ^ 64 + k) / 2 ^ 64) = b / 2 ^ 64)
    by apply add128.
  destruct Hb' as [-> ->].
  destruct (store_spec s b (sum mod 4)) as (?&?&Hp&?);
    [apply Hs | apply Z.mod_pos_bound; lia | apply Z.mod_pos_bound; lia |].
  split_and!; [done..|]. rewrite Hp. subst b. unfold pos. word_lia.
Qed.

Lemma skipahead_sequence_spec s n :
  wf s → is_u64 n →
  wf (skipahead_sequence n s) ∧ key (skipahead_sequence n s) = key s ∧
  pos (skipahead_sequence n s) = (pos s + n * 2 ^ 66) mod 2 ^ 130.
Proof.
  intros Hs Hn. pose proof (pos_bound s Hs). pose proof (cur_block_bound s Hs) as Hb.
  unfold skipahead_sequence. destruct (Z.eqb_spec n 0) as [->|Hn0].
  { rewrite Z.mul_0_l, Z.add_0_r, Z.mod_small by lia. done. }
  rewrite load_spec by done. pose proof (wf_state s Hs) as Hst.
  set (b := (cur_block s + n * 2 ^ 64) mod 2 ^ 128).
  assert (Hb' : cur_block s mod 2 ^ 64 = b mod 2 ^ 64 ∧
                u64 (cur_block s / 2 ^ 64 + n) = b / 2 ^ 64)
    by apply add128_hi.
  destruct Hb' as [-> ->].
  destruct (store_spec s b (STATE s)) as (?&?&Hp&?);
    [apply Hs | apply Z.mod_pos_bound; lia | done |].
  split_and!; [done..|]. rewrite Hp. subst b. unfold pos. word_lia.
Qed.

Lemma curand_spec s :
  wf s →
  let '(r, s') := curand s in
  r = sample (key s) (pos s) ∧ wf s' ∧ key s' = key s ∧ pos s' = (pos s + 1) mod 2 ^ 130.
Proof.
  intros Hs. destruct (pos_split s Hs) as [Hq Hr]. pose proof (cur_block_bound s Hs) as Hb.
  pose proof Hs as [Hc Hk Hst Hout]. pose proof (block_of_bound _ Hc) as Hbl.
  unfold curand, sample. rewrite Hq, Hr, (Z.mod_small (cur_block s)) by done.
  rewrite land3, (Z.mod_small (STATE s)) by lia. fold (word_of (output s) (STATE s)).
  rewrite land3, u32_small by word_lia.
  destruct (Z.eqb_spec (STATE s) 0) as [H0|H0]; red_state.
  - assert (Hcb : cur_block s = block_of (ctr s)) by (unfold cur_block; by rewrite H0).
    rewrite Hcb, counter_block, bump_spec, H0 by done. change ((0 + 1) mod 4) with 1.
    assert (Hcur : (block_of (counter ((block_of (ctr s) + 1) mod 2 ^ 128)) - 1) mod 2 ^ 128
                   = block_of (ctr s)) by (rewrite block_counter; word_lia).
    split_and!; [done| |done|].
    + constructor; red_state; [apply counter_ok|done|lia|]. intros _.
      unfold cur_block; red_state. change (1 =? 0) with false. cbv iota.
      by rewrite Hcur, counter_block.
    + unfold pos, cur_block; red_state. change (1 =? 0) with false. cbv iota.
      rewrite Hcur, H0. change (0 =? 0) with true. cbv iota. word_lia.
  - rewrite (Hout H0). split_and!;
      [unfold word_of; by rewrite (proj2 (Z.eqb_neq _ _) H0)| |done|].
    + constructor; red_state; [done..|word_lia|]. intros Hn.
      unfold cur_block; red_state.
      by rewrite (proj2 (Z.eqb_neq _ _) Hn), (proj2 (Z.eqb_neq _ _) H0).
    + unfold pos, cur_block in *; red_state. rewrite (proj2 (Z.eqb_neq _ _) H0) in *.
      destruct (Z.eqb_spec ((STATE s + 1) mod 4) 0); word_lia.
Qed.

Lemma curand_init_spec seed sub off :
  is_u64 seed → is_u64 sub → is_u64 off →
  let s := curand_init fzero seed sub off in
  wf s ∧ key s = mk_uint2 (seed mod 2 ^ 32) (seed / 2 ^ 32) ∧
  pos s = (sub * 2 ^ 66 + off) mod 2 ^ 130.
Proof.
  intros Hs Hsub Hoff. unfold curand_init.
  set (s0 := mk_state _ _ _ _ _ _).
  assert (Hw : wf s0 ∧ pos s0 = 0 ∧ key s0 = mk_uint2 (seed mod 2 ^ 32) (seed / 2 ^ 32)).
  { subst s0. split_and!; [|done|].
    - constructor; red_state; [unfold uint4_ok, is_u32; cbn; lia|split; cbn; auto with mvcc_words|lia|lia].
    - simpl. rewrite Z.shiftr_div_pow2 by lia. f_equal. word_lia. }
  destruct Hw as (Hw&Hp&Hk).
  destruct (skipahead_sequence_spec s0 sub Hw Hsub) as (Hw1&Hk1&Hp1).
  destruct (skipahead_spec _ off Hw1 Hoff) as (Hw2&Hk2&Hp2).
  split_and!; [done|congruence|]. rewrite Hp2, Hp1, Hp, Z.add_mod_idemp_l by lia.
  f_equal; lia.
Qed.

Lemma draw_spec n s :
  wf s →
  let '(rs, s') := draw n s in
  rs = (λ i, sample (key s) ((pos s + Z.of_nat i) mod 2 ^ 130)) <$> seq 0 n ∧
  wf s' ∧ key s' = key s ∧ pos s' = (pos s + Z.of_nat n) mod 2 ^ 130.
Proof.
  revert s. induction n as [|n IH]; intros s Hs; cbn [draw].
  { rewrite Z.add_0_r, Z.mod_small by (by apply pos_bound). done. }
  pose proof (curand_spec s Hs) as Hc. destruct (curand s) as [r s1].
  destruct Hc as (Hr&Hw1&Hk1&Hp1). specialize (IH s1 Hw1).
  destruct (draw n s1) as [rs s2]. destruct IH as (Hrs&Hw2&Hk2&Hp2).
  rewrite Hk1, Hp1 in *. cbv beta iota. split_and!; [|done..|].
  - cbn [seq]. rewrite fmap_cons. f_equal.
    { by rewrite Z.add_0_r, Z.mod_small by (by apply pos_bound). }
    rewrite Hrs, <- fmap_S_seq, <- list_fmap_compose. apply list_fmap_ext.
    intros i j _. unfold compose. rewrite Z.add_mod_idemp_l by lia. do 2 f_equal. lia.
  - rewrite Hp2, Z.add_mod_idemp_l by lia. f_equal. lia.
Qed.
End operations.

(** ** The bijection: a round can be undone, because the multipliers are odd *)
Definition M0_INV : Z := 0x991a7cdb.
Definition M1_INV : Z := 0x6d7cae67.

(** the inverse of a round under the key [k] the round was run with *)
Definition philox_unround (c : uint4) (k : uint2) : uint4 :=
  let x0 := u32 (cw c * M0_INV) in
  let z0 := u32 (cy c * M1_INV) in
  mk_uint4 x0 (Z.lxor (Z.lxor (cx c) (kx k)) (u32 (Z.shiftr (u64 (MVCC_PHILOX_M1 * z0)) 32)))
           z0 (Z.lxor (Z.lxor (cz c) (ky k)) (u32 (Z.shiftr (u64 (MVCC_PHILOX_M0 * x0)) 32))).

Definition next_key (k : uint2) : uint2 :=
  mk_uint2 (u32 (kx k + MVCC_PHILOX_W0)) (u32 (ky k + MVCC_PHILOX_W1)).

Fixpoint philox_unrounds (n : nat) (c : uint4) (k : uint2) : uint4 :=
  match n with
  | O => c
  | S n => philox_unround (philox_unrounds n c (next_key k)) k
  end.

Lemma u32_u64 a : u32 (u64 a) = u32 a.
Proof.
  unfold u32, u64. change (2 ^ 64) with (2 ^ 32 * 2 ^ 32).
  rewrite Z.rem_mul_r by lia. rewrite (Z.mul_comm (2 ^ 32)), Z.mod_add by lia.
  by rewrite Z.mod_mod by lia.
Qed.

Lemma mul_inv32 a m i : is_u32 a → u32 (m * i) = 1 → u32 (u32 (u64 (m * a)) * i) = a.
Proof.
  intros Ha Hi. rewrite u32_u64. unfold u32 in *.
  rewrite Z.mul_mod_idemp_l by lia. replace (m * a * i) with (m * i * a) by lia.
  rewrite <- Z.mul_mod_idemp_l, Hi, Z.mul_1_l by lia. by apply Z.mod_small.
Qed.

Lemma M0_inverse : u32 (MVCC_PHILOX_M0 * M0_INV) = 1.
Proof. reflexivity. Qed.
Lemma M1_inverse : u32 (MVCC_PHILOX_M1 * M1_INV) = 1.
Proof. reflexivity. Qed.

Lemma lxor_solve h a k : Z.lxor (Z.lxor (Z.lxor (Z.lxor h a) k) k) h = a.
Proof. by rewrite lxor_cancel_r, Z.lxor_comm, <- Z.lxor_assoc, Z.lxor_nilpotent, Z.lxor_0_l. Qed.

Lemma philox_unround_round c k :
  uint4_ok c → philox_unround (fst (philox_round (c, k))) k = c.
Proof.
  intros (Hx&Hy&Hz&Hw). unfold philox_unround, philox_round. cbn [fst cx cy cz cw].
  rewrite (mul_inv32 (cx c) _ _ Hx M0_inverse), (mul_inv32 (cz c) _ _ Hz M1_inverse).
  apply uint4_ext; cbn [cx cy cz cw]; auto using lxor_solve.
Qed.

Lemma philox_round_ok c k :
  uint4_ok c → uint2_ok k → uint4_ok (fst (philox_round (c, k))).
Proof.
  intros (Hx&Hy&Hz&Hw) [Hk1 Hk2]. unfold uint4_ok, philox_round; cbn [fst cx cy cz cw].
  split_and!; auto using u32_bound; unfold is_u32;
    apply lxor_bound; try lia; try apply u32_bound; try done;
    apply lxor_bound; try lia; try apply u32_bound; done.
Qed.

Lemma philox_unrounds_rounds n c k :
  uint4_ok c → uint2_ok k →
  philox_unrounds n (fst (Nat.iter n philox_round (c, k))) k = c.
Proof.
  revert c k. induction n as [|n IH]; intros c k Hc Hk; [done|].
  rewrite Nat.iter_succ_r. cbn [philox_unrounds].
  rewrite (surjective_pairing (philox_round (c, k))).
  change (snd (philox_round (c, k))) with (next_key k).
  rewrite IH; [by apply philox_unround_round|by apply philox_round_ok|].
  split; cbn; auto with mvcc_words.
Qed.

#[local] Transparent mvcc_philox4x32_10.
Lemma philox_unrounds_philox c k :
  uint4_ok c → uint2_ok k → philox_unrounds 10 (mvcc_philox4x32_10 c k) k = c.
Proof. exact (philox_unrounds_rounds 10 c k). Qed.
#[global] Opaque mvcc_philox4x32_10 philox_unrounds.

Lemma draw_4 {float} (s : curandState float) :
  draw 4 s = let '(a, s1) := curand s in let '(b, s2) := curand s1 in
             let '(c, s3) := curand s2 in let '(d, s4) := curand s3 in ([a; b; c; d], s4).
Proof.
  unfold draw. destruct (curand s) as [a s1], (curand s1) as [b s2], (curand s2) as [c s3],
    (curand s3) as [d s4]. done.
Qed.

Lemma sample_aligned {float} (s : curandState float) i :
  wf s → STATE s = 0 → 0 <= i < 4 →
  sample (key s) ((pos s + i) mod 2 ^ 130) = word_of (mvcc_philox4x32_10 (ctr s) (key s)) i.
Proof.
  intros Hs H0 Hi. pose proof (block_of_bound _ (wf_ctr s Hs)) as Hb.
  assert (Hp : pos s = 4 * block_of (ctr s)) by (unfold pos, cur_block; rewrite H0; cbn; lia).
  rewrite Z.mod_small by lia. unfold sample.
  replace ((pos s + i) / 4) with (block_of (ctr s)) by word_lia.
  replace ((pos s + i) mod 4) with i by word_lia.
  by rewrite Z.mod_small, counter_block by (done || apply Hs).
Qed.

Lemma curand4_aligned {float} (s : curandState float) :
  wf s → STATE s = 0 →
  let r := mvcc_philox4x32_10 (ctr s) (key s) in
  let s' := mk_state (mvcc_philox_bump (ctr s)) (output s) (key s) (STATE s)
              (boxmuller_flag s) (boxmuller_extra s) in
  [cx r; cy r; cz r; cw r] = (λ i, sample (key s) ((pos s + Z.of_nat i) mod 2 ^ 130)) <$> seq 0 4 ∧
  wf s' ∧ key s' = key s ∧ pos s' = (pos s + 4) mod 2 ^ 130.
Proof.
  intros Hs H0. cbv zeta. pose proof (block_of_bound _ (wf_ctr s Hs)) as Hb.
  change (seq 0 4) with [0; 1; 2; 3]%nat. cbn [fmap list_fmap].
  rewrite !(sample_aligned s) by (done || lia). unfold word_of.
  rewrite bump_spec by apply Hs. split_and!; [done| |done|].
  - constructor; red_state; [apply counter_ok|apply Hs|lia|lia].
  - unfold pos, cur_block. red_state. rewrite H0, block_counter by word_lia.
    change (0 =? 0) with true. cbv iota. word_lia.
Qed.

(** ** Properties *)

(** [C40] The host fill writes, for any seed and offset, the consecutive samples
    offset, offset + 1, ... of the sequence the seed selects: the caching of the current block
    in [output]/[STATE] and the 128-bit counter bump are invisible. *)
Theorem philox_fill_samples {float} (fzero : float) (seed offset : Z) (n : nat)
    (Hseed : is_u64 seed) (Hoff : is_u64 offset) :
  mvcc_philox_fill fzero seed offset n =
  (λ i, sample (mk_uint2 (seed mod 2 ^ 32) (seed / 2 ^ 32)) ((offset + Z.of_nat i) mod 2 ^ 130))
    <$> seq 0 n.
Proof.
  destruct (curand_init_spec fzero seed 0 offset) as (Hw&Hk&Hp); [done|word_lia|done|].
  pose proof (draw_spec n _ Hw) as Hd. unfold mvcc_philox_fill.
  destruct (draw n _) as [rs s']. destruct Hd as (Hrs&_). cbn [fst].
  rewrite Hrs, Hk, Hp. apply list_fmap_ext. intros i j _.
  rewrite Z.mul_0_l, Z.add_0_l, Z.add_mod_idemp_l by lia. done.
Qed.

Lemma philox_fill_samples_witness :
  is_u64 5 ∧ is_u64 3 ∧
  mvcc_philox_fill 0 5 3 6 =
  (λ i, sample (mk_uint2 (5 mod 2 ^ 32) (5 / 2 ^ 32)) ((3 + Z.of_nat i) mod 2 ^ 130)) <$> seq 0 6.
Proof.
  split; [unfold is_u64; lia|]. split; [unfold is_u64; lia|].
  apply (philox_fill_samples 0 5 3 6); unfold is_u64; lia.
Defined.

(** [skipahead n] is [n] draws: from any well-formed state the samples that follow a skip
    are exactly the samples that follow [n] calls of [curand] — across word, 64-bit and
    128-bit carries. *)
Theorem skipahead_is_draws {float} (s : curandState float) (n m : nat)
    (Hs : wf s) (Hn : is_u64 (Z.of_nat n)) :
  fst (draw m (skipahead (Z.of_nat n) s)) = drop n (fst (draw (n + m) s)).
Proof.
  destruct (skipahead_spec s _ Hs Hn) as (Hw&Hk&Hp).
  pose proof (draw_spec m _ Hw) as Hd1. pose proof (draw_spec (n + m) _ Hs) as Hd2.
  destruct (draw m _) as [r1 s1], (draw (n + m) s) as [r2 s2]. cbn [fst].
  destruct Hd1 as (->&_), Hd2 as (->&_). rewrite Hk, Hp.
  apply list_eq. intros i. rewrite lookup_drop, !list_lookup_fmap.
  destruct (decide (i < m)%nat) as [Hi|Hi].
  - rewrite !lookup_seq_lt by lia. simpl.
    rewrite Z.add_mod_idemp_l by lia. do 3 f_equal. lia.
  - rewrite !lookup_seq_ge by lia. done.
Qed.

Definition demo_state : curandState Z := curand_init 0 7 1 2.

Lemma demo_state_wf : wf demo_state.
Proof. apply (curand_init_spec 0 7 1 2); unfold is_u64; lia. Defined.

Lemma skipahead_is_draws_witness :
  wf demo_state ∧ is_u64 5 ∧
  fst (draw 3 (skipahead 5 demo_state)) = drop 5 (fst (draw (5 + 3) demo_state)).
Proof.
  split; [apply demo_state_wf|]. split; [unfold is_u64; lia|].
  apply (skipahead_is_draws demo_state 5 3); [apply demo_state_wf|unfold is_u64; lia].
Defined.

(** [skipahead_sequence n] moves the generator by [n] subsequences of 2^66 samples and
    keeps the place inside the subsequence. *)
Theorem skipahead_sequence_position {float} (s : curandState float) (n : Z)
    (Hs : wf s) (Hn : is_u64 n) :
  wf (skipahead_sequence n s) ∧ key (skipahead_sequence n s) = key s ∧
  pos (skipahead_sequence n s) = (pos s + n * 2 ^ 66) mod 2 ^ 130 ∧
  pos (skipahead_sequence n s) mod 2 ^ 66 = pos s mod 2 ^ 66.
Proof.
  destruct (skipahead_sequence_spec s n Hs Hn) as (?&?&Hp). split_and!; [done..|].
  rewrite Hp. change (2 ^ 130) with (2 ^ 66 * 2 ^ 64).
  rewrite Z.rem_mul_r, (Z.mul_comm (2 ^ 66)), !Z.mod_add, Z.mod_mod by lia. done.
Qed.

Lemma skipahead_sequence_position_witness :
  wf demo_state ∧ is_u64 9 ∧
  pos (skipahead_sequence 9 demo_state) = (pos demo_state + 9 * 2 ^ 66) mod 2 ^ 130.
Proof.
  split; [apply demo_state_wf|]. split; [unfold is_u64; lia|].
  apply (skipahead_sequence_position demo_state 9); [apply demo_state_wf|unfold is_u64; lia].
Defined.

(** [curand4] returns the next four samples, aligned to a block or not, and advances the
    generator by exactly four. *)
Theorem curand4_next_four {float} (s : curandState float) (Hs : wf s) :
  let '(r, s') := curand4 s in
  [cx r; cy r; cz r; cw r] = (λ i, sample (key s) ((pos s + Z.of_nat i) mod 2 ^ 130)) <$> seq 0 4 ∧
  wf s' ∧ key s' = key s ∧ pos s' = (pos s + 4) mod 2 ^ 130.
Proof.
  pose proof Hs as [_ _ Hst _]. unfold curand4. rewrite land3, Z.mod_small by lia.
  destruct (Z.eqb_spec (STATE s) 0) as [H0|H0]; [by apply curand4_aligned|].
  pose proof (draw_spec 4 s Hs) as Hd. rewrite draw_4 in Hd.
  destruct (curand s) as [a s1], (curand s1) as [b s2], (curand s2) as [c s3],
    (curand s3) as [d s4]. exact Hd.
Qed.

Lemma curand4_next_four_witness :
  wf demo_state ∧
  pos (snd (curand4 demo_state)) = (pos demo_state + 4) mod 2 ^ 130.
Proof.
  split; [apply demo_state_wf|].
  pose proof (curand4_next_four demo_state demo_state_wf) as H.
  destruct (curand4 demo_state). apply H.
Defined.

(** Philox4x32-10 is invertible under every key: distinct counters give distinct blocks,
    so the 2^128 blocks of a sequence never repeat. *)
Theorem philox_injective (k : uint2) (c1 c2 : uint4)
    (Hk : uint2_ok k) (H1 : uint4_ok c1) (H2 : uint4_ok c2)
    (Heq : mvcc_philox4x32_10 c1 k = mvcc_philox4x32_10 c2 k) : c1 = c2.
Proof.
  apply (f_equal (λ c, philox_unrounds 10 c k)) in Heq.
  rewrite !philox_unrounds_philox in Heq by done. exact Heq.
Qed.

Lemma philox_injective_witness :
  uint2_ok (mk_uint2 1 2) ∧ uint4_ok (counter 5) ∧ counter 5 = counter (2 ^ 128 + 5).
Proof.
  assert (Hk : uint2_ok (mk_uint2 1 2)) by (unfold uint2_ok, is_u32; cbn; lia).
  split; [exact Hk|]. split; [apply counter_ok|].
  apply (philox_injective (mk_uint2 1 2)); [exact Hk|apply counter_ok..|vm_compute; reflexivity].
Defined.

(** the Random123 known-answer vectors *)
Example philox_kat_zero :
  mvcc_philox4x32_10 (mk_uint4 0 0 0 0) (mk_uint2 0 0) =
  mk_uint4 0x6627e8d5 0xe169c58d 0xbc57ac4c 0x9b00dbd8.
Proof. vm_compute. reflexivity. Qed.
Example philox_kat_ones :
  mvcc_philox4x32_10 (mk_uint4 0xffffffff 0xffffffff 0xffffffff 0xffffffff)
    (mk_uint2 0xffffffff 0xffffffff) =
  mk_uint4 0x408f276d 0x41c83b0e 0xa20bc7c6 0x6d5451fd.
Proof. vm_compute. reflexivity. Qed.

(** a flag change does not touch the stream *)
Lemma wf_flag {float : Type} (s : curandState float) (f : bool) (e : float) :
  wf s → let s' := mk_state (ctr s) (output s) (key s) (STATE s) f e in
         wf s' ∧ pos s' = pos s.
Proof. intros Hs. split; [by apply (wf_ext s)|done]. Qed.

Section normal_pair.
Context {float : Type} (uniform_bits : Z → float) (fmul : float → float → float)
        (m2 two_pi : float) (sqrtf logf sinf cosf : float → float).
Let normal := curand_normal uniform_bits fmul m2 two_pi sqrtf logf sinf cosf.

(** Box-Muller pairing: with no saved deviate, two calls of [curand_normal] consume
    exactly two samples, return the cosine and the sine deviate of that one pair, and leave
    no saved deviate behind. *)
Theorem curand_normal_pair (s : curandState float) (Hs : wf s) (Hf : boxmuller_flag s = false) :
  let '(a, s1) := normal s in
  let '(b, s2) := normal s1 in
  let u := uniform_bits (sample (key s) (pos s)) in
  let v := uniform_bits (sample (key s) ((pos s + 1) mod 2 ^ 130)) in
  let radius := sqrtf (fmul m2 (logf u)) in
  a = fmul radius (cosf (fmul two_pi v)) ∧ b = fmul radius (sinf (fmul two_pi v)) ∧
  boxmuller_flag s1 = true ∧ boxmuller_flag s2 = false ∧
  wf s2 ∧ key s2 = key s ∧ pos s2 = (pos s + 2) mod 2 ^ 130.
Proof.
  unfold normal, curand_normal, curand_uniform. rewrite Hf.
  pose proof (curand_spec s Hs) as H1. destruct (curand s) as [r1 s1].
  destruct H1 as (->&Hw1&Hk1&Hp1). pose proof (curand_spec s1 Hw1) as H2.
  destruct (curand s1) as [r2 s2]. destruct H2 as (->&Hw2&Hk2&Hp2). red_state.
  rewrite Hk1, Hp1. split_and!; [done..| |congruence|].
  - by apply (wf_ext s2).
  - change (pos s2 = (pos s + 2) mod 2 ^ 130).
    rewrite Hp2, Hp1, Z.add_mod_idemp_l by lia. f_equal. lia.
Qed.
End normal_pair.

Lemma curand_normal_pair_witness :
  wf demo_state ∧ boxmuller_flag demo_state = false ∧
  pos (snd (curand_normal id Z.add 2 6 id id id id
         (snd (curand_normal id Z.add 2 6 id id id id demo_state)))) = (pos demo_state + 2) mod 2 ^ 130.
Proof.
  split; [apply demo_state_wf|]. split; [reflexivity|].
  pose proof (curand_normal_pair id Z.add 2 6 id id id id demo_state demo_state_wf eq_refl) as H.
  destruct (curand_normal id Z.add 2 6 id id id id demo_state) as [a s1]. cbn [snd].
  destruct (curand_normal id Z.add 2 6 id id id id s1) as [b s2]. apply H.
Defined.
