(* ===== verification/SigAlgebra.v ===== *)
(** Loop kinds, recurrence algebras and the permissions they grant a schedule: the enumerations
    and [permissionsOf] of cpp/mvcc-llvm/sig.h and sig.cpp. *)
From Stdlib Require Import Permutation.
From S2P Require Import Prelude Cstd.
Open Scope string_scope.
Open Scope Z_scope.

Inductive LoopKind := Bounded | Traversal | Generic | Refused.
Definition loopKindName (k : LoopKind) : string :=
  match k with
  | Bounded => "bounded" | Traversal => "traversal" | Generic => "generic" | Refused => "refused"
  end.
#[export] Instance LoopKind_eq_dec : EqDecision LoopKind.
Proof. solve_decision. Defined.

Inductive Algebra :=
| Invariant | Induction | Sum | Max | Min | And | Or | Xor | TensorSum | Tuple | Permutation
| OrderSensitive | Unknown.
Definition algebraName (a : Algebra) : string :=
  match a with
  | Invariant => "invariant" | Induction => "induction" | Sum => "sum" | Max => "max" | Min => "min"
  | And => "and" | Or => "or" | Xor => "xor" | TensorSum => "tensor-sum" | Tuple => "tuple"
  | Permutation => "permutation" | OrderSensitive => "order-sensitive" | Unknown => "unknown"
  end.
#[export] Instance Algebra_eq_dec : EqDecision Algebra.
Proof. solve_decision. Defined.

Record Permissions := mkPermissions {
  partition : bool;
  reorder : bool;
  duplicate : bool;
  treeCombine : bool }.
Definition permissions0 : Permissions := mkPermissions false false false false.
#[export] Instance Permissions_eq_dec : EqDecision Permissions.
Proof. solve_decision. Defined.

Definition permissionsOf (a : Algebra) : Permissions :=
  match a with
  | Sum | TensorSum | Xor => mkPermissions true true false true
  | Max | Min | And | Or => mkPermissions true true true true
  | Permutation => mkPermissions false false true false
  | Invariant | Induction => mkPermissions true true true true
  | _ => permissions0
  end.

(** the conjunction the checker and the source schedule accumulate over the loops *)
Definition permits_and (p q : Permissions) : Permissions :=
  mkPermissions (partition p && partition q) (reorder p && reorder q)
    (duplicate p && duplicate q) (treeCombine p && treeCombine q).

(** ** What the permissions mean
    The combining operation of an integer recurrence [x' = x ⊕ t] of each algebra, and what a
    schedule does with it: it reorders the terms, splits them into partial results that are
    combined, or replays a term. *)
Definition algebra_op (a : Algebra) : option (Z → Z → Z) :=
  match a with
  | Sum | TensorSum => Some Z.add
  | Max => Some Z.max
  | Min => Some Z.min
  | And => Some Z.land
  | Or => Some Z.lor
  | Xor => Some Z.lxor
  | _ => None
  end.
(** the recurrence run over the terms of the loop *)
Definition run (op : Z → Z → Z) (init : Z) (terms : list Z) : Z := fold_left op terms init.

(** a schedule may reorder terms / split the loop in two partial loops / visit a term twice *)
Definition can_reorder (op : Z → Z → Z) : Prop :=
  ∀ init l l', Permutation.Permutation l l' → run op init l = run op init l'.
Definition can_partition (op : Z → Z → Z) : Prop :=
  ∀ init l t l', run op init (l ++ t :: l') = op (run op init l) (run op t l').
Definition can_duplicate (op : Z → Z → Z) : Prop :=
  ∀ init l t l', t ∈ l → run op init (l ++ t :: l') = run op init (l ++ l').

Class CombineLaws (op : Z → Z → Z) : Prop := {
  op_comm : Comm (=) op;
  op_assoc : Assoc (=) op }.
#[export] Existing Instance op_comm.
#[export] Existing Instance op_assoc.

#[export] Instance add_laws : CombineLaws Z.add.
Proof. split; intros ?*; lia. Qed.
#[export] Instance max_laws : CombineLaws Z.max.
Proof. split; intros ?*; lia. Qed.
#[export] Instance min_laws : CombineLaws Z.min.
Proof. split; intros ?*; lia. Qed.
#[export] Instance land_laws : CombineLaws Z.land.
Proof. split; intros ?*; [apply Z.land_comm|apply Z.land_assoc]. Qed.
#[export] Instance lor_laws : CombineLaws Z.lor.
Proof. split; intros ?*; [apply Z.lor_comm|apply Z.lor_assoc]. Qed.
#[export] Instance lxor_laws : CombineLaws Z.lxor.
Proof. split; intros ?*; [apply Z.lxor_comm|symmetry; apply Z.lxor_assoc]. Qed.

Section laws.
Context (op : Z → Z → Z) `{!CombineLaws op}.

Lemma run_op_l x y l : run op (op x y) l = op x (run op y l).
Proof.
  unfold run. revert y. induction l as [|t l IH]; intros y; [done|]. cbn [fold_left].
  rewrite <- IH. by rewrite (assoc op).
Qed.
Lemma run_app init l l' : run op init (l ++ l') = run op (run op init l) l'.
Proof. apply fold_left_app. Qed.
Lemma run_partition : can_partition op.
Proof. intros init l t l'. by rewrite run_app, <- run_op_l. Qed.
Lemma run_reorder : can_reorder op.
Proof.
  intros init l l' Hp. revert init.
  induction Hp as [|x l l' _ IH|x y l|l1 l2 l3 _ IH1 _ IH2]; intros init; cbn.
  - done.
  - apply IH.
  - f_equal. rewrite <- !(assoc op). f_equal. apply (comm op).
  - by rewrite IH1.
Qed.
Lemma run_duplicate : (∀ x, op x x = x) → can_duplicate op.
Proof.
  intros Hid init l t l' [l1 [l2 ->]]%list_elem_of_split.
  rewrite !run_app. set (x := run op init l1).
  change (run op (run op x (t :: l2)) (t :: l')) with (run op (op (run op x (t :: l2)) t) l').
  change (run op x (t :: l2)) with (run op (op x t) l2).
  assert (E : op (run op (op x t) l2) t = run op (op x t) l2).
  { rewrite (comm op x t), run_op_l. set (r := run op x l2).
    rewrite (comm op (op t r) t). by rewrite (assoc op), Hid. }
  by rewrite E.
Qed.
End laws.

(** The permissions an algebra grants are sound for its combining operation: reordering
    granted means the terms may be permuted, partition and tree-combine that a loop may be split
    into partial results, and duplicate that a term may be visited twice.  Duplicate is refused
    exactly for the operations where a second visit changes the result. *)
Theorem permissionsOf_sound a op :
  algebra_op a = Some op →
  (reorder (permissionsOf a) = true → can_reorder op) ∧
  (partition (permissionsOf a) || treeCombine (permissionsOf a) = true → can_partition op) ∧
  (duplicate (permissionsOf a) = true ↔ can_duplicate op).
Proof.
  intros Ha.
  assert (CombineLaws op) as Hl by (destruct a; simplify_eq/=; apply _).
  split_and!; [intros _; by apply run_reorder|intros _; by apply run_partition|].
  destruct a; simplify_eq/=; (split; [intros Hd|]); try done;
    try (apply run_duplicate; [done|intros x; first [lia|apply Z.land_diag|apply Z.lor_diag]]).
  all: intros H; specialize (H 0 [1] 1 [] ltac:(set_solver)); by vm_compute in H.
Qed.
Lemma permissionsOf_sound_witness :
  run Z.max 0 [3; 7; 3] = run Z.max 0 [3; 7] ∧ run Z.add 0 [1; 2; 3] = run Z.add 0 [3; 1; 2].
Proof.
  split.
  - destruct (permissionsOf_sound Max Z.max eq_refl) as (_&_&Hd).
    apply (proj1 Hd eq_refl 0 [3; 7] 3 []). set_solver.
  - destruct (permissionsOf_sound Sum Z.add eq_refl) as (Hr&_&_).
    apply (Hr eq_refl). apply (Permutation_app_comm [1; 2] [3]).
Defined.
