(* ===== verification/Expr.v ===== *)
(** Names of arena objects shared by the symbolic executor and its clients. *)
From S2P Require Import Prelude.

(** [sym::EP]: an expression, by its creation index in the arena (the arena interns nodes, so
    pointer equality is equality of indices); [nullptr] is [None] where the source allows it *)
Abbreviation EP := nat.
(** [const Instruction *]: the identity of an instruction, never inspected here *)
Definition Site := nat.
