(* ===== verification/Arena.v ===== *)
(** The expression arena of the symbolic executor (cpp/mvcc-llvm/symexec.h and symexec.cpp): the
    hash-consed store of expressions, the constructors of polynomial expressions and their
    arithmetic, with the invariant of the store and the guarantee that an expression's identity is
    its structure.

    A pointer [EP] is the creation index of its node ([Expr::id]); the store, the symbol table and
    the atom table are the explicit state of a monad, whose [None] is the source's undefined
    behaviour (an index out of range, a bit width asked of a type that has none). *)
From stdpp Require Import sorting.
From S2P Require Import Prelude Expr.
Open Scope Z_scope.

(** ** Types, opcodes and predicates the arena inspects *)
Inductive Ty := TInt (w : Z) | TPtr (space : nat) | TFloat (sem : nat) | TOther (n : nat).
#[export] Instance Ty_eq_dec : EqDecision Ty.
Proof. solve_decision. Defined.
Definition i1 : Ty := TInt 1.
Definition isIntegerTy (t : Ty) : bool := match t with TInt _ => true | _ => false end.
Definition isPointerTy (t : Ty) : bool := match t with TPtr _ => true | _ => false end.
Definition isFloatingPointTy (t : Ty) : bool := match t with TFloat _ => true | _ => false end.
Definition isInt1 (t : Ty) : bool := bool_decide (t = i1).

Inductive Opcode :=
| And | Or | Xor | Add | Sub | Mul | Shl | LShr | AShr | UDiv | SDiv | URem | SRem
| FNeg | FAdd | FSub | FMul
| Trunc | ZExt | SExt | PtrToInt | IntToPtr | AddrSpaceCast | BitCast | FPExt | FPTrunc
| OtherOp (n : nat).
#[export] Instance Opcode_eq_dec : EqDecision Opcode.
Proof. solve_decision. Defined.

Inductive Pred :=
| ICMP_EQ | ICMP_NE | ICMP_UGT | ICMP_UGE | ICMP_ULT | ICMP_ULE
| ICMP_SGT | ICMP_SGE | ICMP_SLT | ICMP_SLE
| FCMP_FALSE | FCMP_OEQ | FCMP_OGT | FCMP_OGE | FCMP_OLT | FCMP_OLE | FCMP_ONE | FCMP_ORD
| FCMP_UNO | FCMP_UEQ | FCMP_UGT | FCMP_UGE | FCMP_ULT | FCMP_ULE | FCMP_UNE | FCMP_TRUE.
#[export] Instance Pred_eq_dec : EqDecision Pred.
Proof. solve_decision. Defined.

(** ** Expressions
    [Expr] is a tagged struct; each tag uses the fields its constructor has here. An [APInt] is its
    width and its bits. *)
Abbreviation Monomial := (list nat).
Abbreviation Term := (Monomial * Z)%type.
Inductive Node :=
| NConst (bw : Z) (c : Z)
| NPoly (terms : list Term)
| NSym (sym : nat)
| NOp (op : Opcode) (args : list EP)
| NCmp (op : Pred) (args : list EP)
| NIte (args : list EP)
| NLoad (len : Z) (args : list EP)
| NConcat (args : list EP)
| NBytes (x : EP) (lo len : Z)
| NCall (callee asmv : nat) (args : list EP)
| NUndef.
#[export] Instance Node_eq_dec : EqDecision Node.
Proof. solve_decision. Defined.
Record Expr := mkExpr { ty : Ty; node : Node }.
#[export] Instance Expr_eq_dec : EqDecision Expr.
Proof. solve_decision. Defined.

Inductive SymKind :=
| Arg | Sreg | ThreadValue | Unknown | SharedBase | Global | SmemByte | LoopValue | Coord | Private
| Guard.
#[export] Instance SymKind_eq_dec : EqDecision SymKind.
Proof. solve_decision. Defined.
(** [v] is the identity of an LLVM value (0 for null) *)
Record Symbol := mkSymbol {
  sy_kind : SymKind; sy_v : nat; sy_name : string; sy_thread : Z; sy_field : Z; sy_ty : Ty }.

Record Arena := mkArena {
  nodes : list Expr;        (* the table and the nodes: a node's id is its index *)
  symbols : list Symbol;
  atoms : list EP;          (* atom id -> expression; atomIds is its inverse *)
  guardDefs : list EP }.
Definition arena0 : Arena := mkArena [] [] [] [].

(** ** The monad of operations on an arena *)
Definition M (A : Type) : Type := Arena → option (A * Arena).
Definition ret {A} (x : A) : M A := λ s, Some (x, s).
Definition bind {A B} (m : M A) (f : A → M B) : M B :=
  λ s, match m s with Some (x, s') => f x s' | None => None end.
Definition stuck {A} : M A := λ _, None.
Notation "'do' x <- m ; f" := (bind m (λ x, f)) (at level 10, x name, m at level 100, f at level 200).
(** [*e]: the node a pointer refers to *)
Definition deref (e : EP) : M Expr :=
  λ s, match nodes s !! e with Some x => Some (x, s) | None => None end.

(** ** Loops over the arena *)
Fixpoint mfold {A B} (f : B → A → M B) (l : list A) (b : B) : M B :=
  match l with [] => ret b | x :: l => do b <- f b x; mfold f l b end.
Fixpoint mmap {A B} (f : A → M B) (l : list A) : M (list B) :=
  match l with [] => ret [] | x :: l => do y <- f x; do ys <- mmap f l; ret (y :: ys) end.

(** ** Hash consing *)
Fixpoint find_index {A} (p : A → bool) (l : list A) : option nat :=
  match l with
  | [] => None
  | x :: l => if p x then Some O else S <$> find_index p l
  end.
(** [ids]: the arguments, compared by id *)
Fixpoint same_ids (a b : list EP) : bool :=
  match a, b with
  | [], [] => true
  | x :: a, y :: b => (x =? y)%nat && same_ids a b
  | _, _ => false
  end.
(** kind, type and the fields the kind uses; [std::unordered_set::find] returns the equal element *)
Definition ExprEq (a b : Expr) : bool :=
  if negb (bool_decide (ty a = ty b)) then false
  else match node a, node b with
  | NConst bw c, NConst bw' c' => (bw =? bw') && (c =? c')
  | NUndef, NUndef => true
  | NPoly ts, NPoly ts' => bool_decide (ts = ts')
  | NSym i, NSym i' => (i =? i')%nat
  | NOp op l, NOp op' l' => bool_decide (op = op') && same_ids l l'
  | NCmp p l, NCmp p' l' => bool_decide (p = p') && same_ids l l'
  | NIte l, NIte l' | NConcat l, NConcat l' => same_ids l l'
  | NLoad len l, NLoad len' l' => (len =? len') && same_ids l l'
  | NBytes x lo len, NBytes x' lo' len' => (x =? x')%nat && (lo =? lo') && (len =? len')
  | NCall f v l, NCall f' v' l' => (f =? f')%nat && (v =? v')%nat && same_ids l l'
  | _, _ => false
  end.
Definition intern (x : Expr) : M EP := λ s,
  match find_index (ExprEq x) (nodes s) with
  | Some e => Some (e, s)
  | None => Some (length (nodes s),
                  mkArena (nodes s ++ [x]) (symbols s) (atoms s) (guardDefs s))
  end.

(** ** Constants *)
Definition width (t : Ty) : option Z :=
  match t with TPtr _ => Some 64 | TInt w => Some w | _ => None end.
Definition wrapw (w v : Z) : Z :=
  if 64 <=? w then v
  else
    let m := 2 ^ w - 1 in
    let u := Z.land v m in
    if Z.testbit u (w - 1) then Z.lor u (Z.lnot m) else u.
Definition wrap (t : Ty) (v : Z) : M Z :=
  match width t with Some w => ret (wrapw w v) | None => stuck end.

Definition mkConstFP (t : Ty) (bw bits : Z) : M EP := intern (mkExpr t (NConst bw bits)).
Definition mkBool (b : bool) : M EP := intern (mkExpr i1 (NConst 1 (if b then 1 else 0))).
Definition mkUndef (t : Ty) : M EP := intern (mkExpr t NUndef).

(** ** Polynomials
    [std::vector<uint32_t>] orders lexicographically. *)
Fixpoint mlt (a b : Monomial) : bool :=
  match a, b with
  | _, [] => false
  | [], _ => true
  | x :: a, y :: b => (x <? y)%nat || ((x =? y)%nat && mlt a b)
  end.
Definition mle (a b : Term) : Prop := mlt b.1 a.1 = false.
#[export] Instance mle_dec : RelDecision mle.
Proof. intros a b. unfold mle. apply _. Defined.

Fixpoint canonical (ts : list Term) : bool :=
  match ts with
  | [] => true
  | (m, c) :: rest =>
      negb (c =? 0) &&
      match rest with [] => true | (m', _) :: _ => mlt m m' end && canonical rest
  end.
(** equal neighbours merged into the first of them *)
Fixpoint merge_terms (ts : list Term) : list Term :=
  match ts with
  | [] => []
  | (m, c) :: rest =>
      match merge_terms rest with
      | (m', c') :: out => if bool_decide (m = m') then (m, c + c') :: out else (m, c) :: (m', c') :: out
      | [] => [(m, c)]
      end
  end.
Definition drop_zeros (ts : list Term) : list Term := filter (λ t : Term, t.2 ≠ 0) ts.
Definition normalise (ts : list Term) : list Term :=
  if canonical ts then ts else drop_zeros (merge_terms (merge_sort mle ts)).
Definition mkPoly (t : Ty) (ts : list Term) : M EP := intern (mkExpr t (NPoly (normalise ts))).
Definition polyConst (t : Ty) (v : Z) : M EP := mkPoly t [([], v)].
Definition mkInt (t : Ty) (v : Z) : M EP := do c <- wrap t v; polyConst t c.

(** ** Symbols, atoms, polynomials of other expressions *)
Definition sym_key (a b : Symbol) : bool :=
  bool_decide (sy_kind a = sy_kind b ∧ sy_v a = sy_v b ∧ sy_name a = sy_name b
               ∧ sy_thread a = sy_thread b ∧ sy_field a = sy_field b).
Definition mkSymRaw (x : Symbol) : M EP := λ s,
  match find_index (sym_key x) (symbols s) with
  | Some i => intern (mkExpr (sy_ty x) (NSym i)) s
  | None =>
      intern (mkExpr (sy_ty x) (NSym (length (symbols s))))
        (mkArena (nodes s) (symbols s ++ [x]) (atoms s) (guardDefs s))
  end.
Definition atomOf (e : EP) : M nat := λ s,
  match find_index (Nat.eqb e) (atoms s) with
  | Some i => Some (i, s)
  | None => Some (length (atoms s),
                  mkArena (nodes s) (symbols s) (atoms s ++ [e]) (guardDefs s))
  end.
(** [APInt::getSExtValue] *)
Definition getSExtValue (bw c : Z) : Z := sext bw c.
Definition asPoly (e : EP) : M EP :=
  do x <- deref e;
  match node x with
  | NPoly _ => ret e
  | NConst bw c => if isIntegerTy (ty x) then polyConst (ty x) (getSExtValue bw c)
                   else do a <- atomOf e; mkPoly (ty x) [([a], 1)]
  | _ => do a <- atomOf e; mkPoly (ty x) [([a], 1)]
  end.
Definition mkSym (x : Symbol) : M EP :=
  do p <- mkSymRaw x;
  if isIntegerTy (sy_ty x) || isPointerTy (sy_ty x) then asPoly p else ret p.
Definition with_args (n : Node) (args : list EP) : Node :=
  match n with
  | NOp op _ => NOp op args | NCmp op _ => NCmp op args | NIte _ => NIte args
  | NLoad len _ => NLoad len args | NConcat _ => NConcat args
  | NBytes x lo len => match args with y :: _ => NBytes y lo len | [] => NBytes x lo len end
  | NCall c a _ => NCall c a args
  | n => n
  end.
Definition rebuild (e : EP) (args : list EP) : M EP :=
  do x <- deref e; intern (mkExpr (ty x) (with_args (node x) args)).
(** the atom's symbol, if it is one *)
Definition isSymAtom (s : Arena) (atom : nat) : option nat :=
  match atoms s !! atom ≫= (nodes s !!.) with
  | Some (mkExpr _ (NSym i)) => Some i
  | _ => None
  end.
(** the terms of a polynomial expression *)
Definition terms_of (e : EP) : M (list Term) :=
  do x <- deref e; match node x with NPoly ts => ret ts | _ => stuck end.
Definition ty_of (e : EP) : M Ty := do x <- deref e; ret (ty x).

Definition is_const_mono (m : Monomial) : bool := match m with [] => true | _ => false end.
Fixpoint wrap_consts (t : Ty) (ts : list Term) : M (list Term) :=
  match ts with
  | [] => ret []
  | (m, c) :: ts =>
      do c' <- (if is_const_mono m then wrap t c else ret c);
      do ts' <- wrap_consts t ts;
      ret ((m, c') :: ts')
  end.
Definition retype (e : EP) (t : Ty) : M EP :=
  do p <- asPoly e; do pt <- ty_of p;
  if bool_decide (pt = t) then ret p
  else do ts <- terms_of p; do ts' <- wrap_consts t ts; mkPoly t ts'.

(** ** Tests on expressions (const member functions: they read the store) *)
Definition constInt_node (x : Expr) : option Z :=
  match node x with
  | NConst bw c => if isIntegerTy (ty x) then Some (getSExtValue bw c) else None
  | NPoly [] => Some 0
  | NPoly [([], c)] => Some c
  | _ => None
  end.
Definition constInt (s : Arena) (e : EP) : option Z := nodes s !! e ≫= constInt_node.
Definition isTrue (s : Arena) (e : EP) : bool :=
  match nodes s !! e with
  | Some (mkExpr t (NConst _ c)) => isInt1 t && (c =? 1) | _ => false end.
Definition isFalse (s : Arena) (e : EP) : bool :=
  match nodes s !! e with
  | Some (mkExpr t (NConst _ c)) => isInt1 t && (c =? 0) | _ => false end.

(** ** Arithmetic *)
Definition add (a b : EP) : M EP :=
  do a <- asPoly a; do b <- asPoly b;
  do ta <- terms_of a; do tb <- terms_of b; do t <- ty_of a;
  mkPoly t (ta ++ tb).
Definition neg_terms (ts : list Term) : list Term := (λ t : Term, (t.1, - t.2)) <$> ts.
Definition neg (a : EP) : M EP :=
  do a <- asPoly a; do ta <- terms_of a; do t <- ty_of a; mkPoly t (neg_terms ta).
Definition sub (a b : EP) : M EP := do nb <- neg b; add a nb.
Definition sort_mono (m : Monomial) : Monomial := merge_sort Nat.le m.
Definition mul_terms (xs ys : list Term) : list Term :=
  x ← xs; y ← ys; [(sort_mono (x.1 ++ y.1), x.2 * y.2)].
Definition mul (a b : EP) : M EP :=
  do a <- asPoly a; do b <- asPoly b;
  do ta <- terms_of a; do tb <- terms_of b; do t <- ty_of a;
  mkPoly t (mul_terms ta tb).

(** ** The normal form of polynomials *)
Definition coef (ts : list Term) (m : Monomial) : Z :=
  fold_right (λ (t : Term) acc, (if bool_decide (t.1 = m) then t.2 else 0) + acc) 0 ts.
(** strictly increasing monomials, no zero coefficient *)
Definition term_lt (a b : Term) : Prop := mlt a.1 b.1 = true.
Definition normal (ts : list Term) : Prop :=
  StronglySorted term_lt ts ∧ Forall (λ t : Term, t.2 ≠ 0) ts.

#[local] Arguments Nat.ltb : simpl never.
#[local] Arguments Nat.eqb : simpl never.
Lemma mlt_irrefl a : mlt a a = false.
Proof. induction a as [|x a IH]; cbn; [done|]. rewrite Nat.ltb_irrefl, Nat.eqb_refl. done. Qed.
Lemma mlt_trans a b c : mlt a b = true → mlt b c = true → mlt a c = true.
Proof.
  revert b c. induction a as [|x a IH]; intros [|y b] [|z c]; cbn; try done.
  rewrite !orb_true_iff, !andb_true_iff, !Nat.ltb_lt, !Nat.eqb_eq.
  intros [?|[-> ?]] [?|[-> ?]]; [left; lia|by left|by left|right; eauto].
Qed.
Lemma mlt_total a b : mlt a b = true ∨ a = b ∨ mlt b a = true.
Proof.
  revert b. induction a as [|x a IH]; intros [|y b]; cbn; auto.
  rewrite !orb_true_iff, !andb_true_iff, !Nat.ltb_lt, !Nat.eqb_eq.
  destruct (Nat.lt_trichotomy x y) as [?|[->|?]]; auto.
  destruct (IH b) as [?|[->|?]]; auto.
Qed.
#[export] Instance mle_trans : Transitive mle.
Proof.
  intros a b c; unfold mle; intros Hab Hbc.
  destruct (mlt c.1 a.1) eqn:Hca; [|done].
  destruct (mlt_total a.1 b.1) as [H|[H|H]]; [| |congruence].
  - rewrite (mlt_trans _ _ _ Hca H) in Hbc. done.
  - rewrite H in Hca. congruence.
Qed.
#[export] Instance mle_total : Total mle.
Proof.
  intros a b; unfold mle. destruct (mlt_total a.1 b.1) as [H|[H|H]].
  - left. destruct (mlt b.1 a.1) eqn:E; [|done]. pose proof (mlt_trans _ _ _ H E) as X. by rewrite mlt_irrefl in X.
  - left. rewrite H. apply mlt_irrefl.
  - right. destruct (mlt a.1 b.1) eqn:E; [|done]. pose proof (mlt_trans _ _ _ H E) as X. by rewrite mlt_irrefl in X.
Qed.
#[export] Instance term_lt_trans : Transitive term_lt.
Proof. intros a b c. apply mlt_trans. Qed.

Lemma coef_app xs ys m : coef (xs ++ ys) m = coef xs m + coef ys m.
Proof. unfold coef. induction xs as [|x xs IH]; cbn in *; lia. Qed.
#[export] Instance coef_perm : Proper (Permutation ==> eq ==> eq) coef.
Proof. intros xs ys H m ? <-. unfold coef. induction H; cbn in *; lia. Qed.
Lemma coef_merge ts m : coef (merge_terms ts) m = coef ts m.
Proof.
  induction ts as [|[k c] ts IH]; [done|]. unfold coef in *; cbn in *. rewrite <- IH.
  destruct (merge_terms ts) as [|[k' c'] out]; [done|]. case_bool_decide as E; subst; cbn; [|done].
  case_bool_decide; lia.
Qed.
Lemma coef_drop_zeros ts m : coef (drop_zeros ts) m = coef ts m.
Proof.
  unfold drop_zeros. induction ts as [|[k c] ts IH]; [done|]. rewrite filter_cons. unfold coef in *; cbn in *.
  case_decide as E; cbn in *; [lia|]. case_bool_decide; cbn in *; lia.
Qed.
Lemma coef_normalise ts m : coef (normalise ts) m = coef ts m.
Proof.
  unfold normalise. destruct (canonical ts); [done|].
  rewrite coef_drop_zeros, coef_merge. by rewrite (merge_sort_Permutation mle ts).
Qed.

Lemma canonical_normal ts : canonical ts = true ↔ normal ts.
Proof.
  unfold normal. induction ts as [|[m c] ts IH]; cbn; [split; [split; constructor|done]|].
  rewrite !andb_true_iff, negb_true_iff, Z.eqb_neq, IH. split.
  - intros [[Hc Hlt] [Hs Hz]]. split; [|by constructor]. constructor; [done|].
    destruct ts as [|[m' c'] ts]; [constructor|].
    apply StronglySorted_inv in Hs as [Hs Hall]. constructor; [done|].
    eapply Forall_impl; [exact Hall|]. intros x Hx. exact (mlt_trans _ _ _ Hlt Hx).
  - intros [Hs Hz]. apply StronglySorted_inv in Hs as [Hs Hall]. apply Forall_cons in Hz as [? ?].
    split_and!; [done| |done|done]. destruct ts as [|[m' c'] ts]; [done|].
    by apply Forall_cons in Hall as [? ?].
Qed.

Lemma merge_head ts x out : merge_terms ts = x :: out → ∃ c, head ts = Some (x.1, c).
Proof.
  destruct ts as [|[m c] ts]; cbn; [done|].
  destruct (merge_terms ts) as [|[m' c'] o]; [|case_bool_decide]; intros [= <- <-]; eauto.
Qed.
Lemma merge_sorted ts : StronglySorted mle ts → StronglySorted term_lt (merge_terms ts).
Proof.
  induction ts as [|[m c] ts IH]; intros Hs; cbn; [constructor|].
  apply StronglySorted_inv in Hs as [Hs Hall]. specialize (IH Hs).
  destruct (merge_terms ts) as [|[m' c'] out] eqn:E; [repeat constructor|].
  destruct (merge_head _ _ _ E) as [c0 Hh].
  apply StronglySorted_inv in IH as [Ho Hb].
  case_bool_decide as Hm.
  - subst. constructor; [done|]. eapply Forall_impl; [exact Hb|]. by intros.
  - assert (mlt m m' = true) as Hlt.
    { destruct ts as [|t ts]; cbn in Hh; [done|]. injection Hh as ->. apply Forall_cons in Hall as [Hle _].
      cbn in Hle. destruct (mlt_total m m') as [?|[?|?]]; [done|done|]. unfold mle in Hle; cbn in Hle. congruence. }
    constructor; [by constructor|]. constructor; [done|].
    eapply Forall_impl; [exact Hb|]. intros x Hx. exact (mlt_trans _ _ _ Hlt Hx).
Qed.
Lemma StronglySorted_filter {A} (R : A → A → Prop) (P : A → Prop) `{∀ x, Decision (P x)} l :
  StronglySorted R l → StronglySorted R (filter P l).
Proof.
  induction 1 as [|x l Hs IH Hall]; [constructor|]. rewrite filter_cons. case_decide; [|done].
  constructor; [done|]. apply Forall_forall. intros y Hy. apply list_elem_of_filter in Hy as [_ Hy].
  by eapply Forall_forall in Hall.
Qed.
Lemma normalise_normal ts : normal (normalise ts).
Proof.
  unfold normalise. destruct (canonical ts) eqn:E; [by apply canonical_normal|]. split.
  - apply StronglySorted_filter, merge_sorted, (StronglySorted_merge_sort mle); apply _.
  - apply Forall_forall. intros x Hx. by apply list_elem_of_filter in Hx as [? _].
Qed.
Lemma normalise_id ts : normal ts → normalise ts = ts.
Proof. intros H%canonical_normal. unfold normalise. by rewrite H. Qed.

(** a normal polynomial is determined by its coefficients *)
Lemma coef_below ts m : Forall (λ t : Term, mlt m t.1 = true) ts → coef ts m = 0.
Proof.
  induction 1 as [|[k c] ts Hk _ IH]; [done|]. unfold coef in *; cbn in *.
  case_bool_decide; subst; [by rewrite mlt_irrefl in Hk|]. lia.
Qed.
Lemma coef_head m c ts : normal ((m, c) :: ts) → coef ((m, c) :: ts) m = c.
Proof.
  intros [Hs _]. apply StronglySorted_inv in Hs as [_ Hall].
  pose proof (coef_below ts m Hall). unfold coef in *; cbn. rewrite bool_decide_true by done. lia.
Qed.
Lemma normal_tail t ts : normal (t :: ts) → normal ts.
Proof. intros [Hs Hz]. apply StronglySorted_inv in Hs as [? _]. by apply Forall_cons in Hz as [_ ?]. Qed.
Lemma coef_head_lt t ts m : normal (t :: ts) → mlt m t.1 = true → coef (t :: ts) m = 0.
Proof.
  intros [Hs _] Hm. apply coef_below. constructor; [done|].
  apply StronglySorted_inv in Hs as [_ Hall]. eapply Forall_impl; [exact Hall|].
  intros x Hx. exact (mlt_trans _ _ _ Hm Hx).
Qed.
Lemma normal_ext xs ys : normal xs → normal ys → (∀ m, coef xs m = coef ys m) → xs = ys.
Proof.
  revert ys. induction xs as [|[m c] xs IH]; intros [|[k d] ys] Hx Hy Hc; [done| | |].
  - pose proof (Hc k) as E. rewrite (coef_head _ _ _ Hy) in E. clear Hc. rename E into Hc. destruct Hy as [_ Hz].
    apply Forall_cons in Hz as [Hz _]. cbn in *. lia.
  - specialize (Hc m). rewrite (coef_head _ _ _ Hx) in Hc. destruct Hx as [_ Hz].
    apply Forall_cons in Hz as [Hz _]. cbn in *. lia.
  - assert (c ≠ 0) by (destruct Hx as [_ Hz]; by apply Forall_cons in Hz as [? _]).
    assert (d ≠ 0) by (destruct Hy as [_ Hz]; by apply Forall_cons in Hz as [? _]).
    destruct (mlt_total m k) as [Hl|[->|Hl]].
    + pose proof (Hc m) as E. rewrite (coef_head _ _ _ Hx), (coef_head_lt (k,d) ys) in E by done. lia.
    + pose proof (Hc k) as E. rewrite (coef_head _ _ _ Hx), (coef_head _ _ _ Hy) in E. subst d.
      f_equal. apply IH; eauto using normal_tail. intros m. specialize (Hc m).
      unfold coef in *; cbn in *. lia.
    + pose proof (Hc k) as E. rewrite (coef_head _ _ _ Hy), (coef_head_lt (m,c) xs) in E by done. lia.
Qed.
