(* ===== verification/LlvmInt.v ===== *)
(** What LLVM's language reference says of integer instructions: a value of [i w] is a natural below
    [2 ^ w]; [None] stands for undefined behaviour and poison.  The reference against which the folding of the
    symbolic executor and the text of the Metal emitter are compared. *)
From S2P Require Import Prelude Expr Arena.
Open Scope Z_scope.

Definition llvm_binary (op : Opcode) (w a b : Z) : option Z :=
  match op with
  | Add => Some ((a + b) mod 2 ^ w)
  | Sub => Some ((a - b) mod 2 ^ w)
  | Mul => Some ((a * b) mod 2 ^ w)
  | UDiv => if b =? 0 then None else Some (a / b)
  | URem => if b =? 0 then None else Some (a mod b)
  | SDiv => if (b =? 0) || ((sext w a =? - 2 ^ (w - 1)) && (sext w b =? -1)) then None else Some (Z.quot (sext w a) (sext w b) mod 2 ^ w)
  | SRem => if (b =? 0) || ((sext w a =? - 2 ^ (w - 1)) && (sext w b =? -1)) then None else Some (Z.rem (sext w a) (sext w b) mod 2 ^ w)
  | Shl => if b <? w then Some (Z.shiftl a b mod 2 ^ w) else None
  | LShr => if b <? w then Some (Z.shiftr a b) else None
  | AShr => if b <? w then Some (Z.shiftr (sext w a) b mod 2 ^ w) else None
  | And => Some (Z.land a b)
  | Or => Some (Z.lor a b)
  | Xor => Some (Z.lxor a b)
  | _ => None
  end.
(** conversions from [i w] to [i w']; pointers are integers of their width *)
Definition llvm_cast (op : Opcode) (w w' v : Z) : option Z :=
  match op with
  | Trunc => if w' <? w then Some (v mod 2 ^ w') else None
  | ZExt => if w <? w' then Some v else None
  | SExt => if w <? w' then Some (sext w v mod 2 ^ w') else None
  | PtrToInt | IntToPtr => Some (v mod 2 ^ w')
  | _ => None
  end.

Lemma land_pow2_range w a b : 0 <= w → 0 <= a < 2 ^ w → 0 <= b < 2 ^ w → 0 <= Z.land a b < 2 ^ w.
Proof.
  intros Hw Ha Hb. split; [apply Z.land_nonneg; lia|]. rewrite <- (Z.mod_small b (2 ^ w)), <- Z.land_ones, Z.land_assoc, Z.land_ones by lia.
  apply Z.mod_pos_bound. lia.
Qed.
Lemma lor_pow2_range w a b : 0 <= w → 0 <= a < 2 ^ w → 0 <= b < 2 ^ w → 0 <= Z.lor a b < 2 ^ w.
Proof.
  intros Hw Ha Hb. assert (Z.lor a b = Z.lxor (Z.lxor a b) (Z.land a b)) as ->.
  { apply Z.bits_inj'. intros n _. rewrite Z.lor_spec, !Z.lxor_spec, Z.land_spec.
    by destruct (Z.testbit a n), (Z.testbit b n). }
  apply lxor_bound; [done|by apply lxor_bound|by apply land_pow2_range].
Qed.
Lemma shiftr_pow2_range w a b : 0 <= w → 0 <= b → 0 <= a < 2 ^ w → 0 <= Z.shiftr a b < 2 ^ w.
Proof.
  intros Hw Hb Ha. rewrite Z.shiftr_div_pow2 by done. pose proof (Z.pow_pos_nonneg 2 b ltac:(lia) Hb).
  split; [apply Z.div_pos; lia|]. eapply Z.le_lt_trans; [|exact (proj2 Ha)]. apply Z.div_le_upper_bound; nia.
Qed.
(** results are of the width *)
Lemma llvm_binary_range op w a b r :
  0 < w → 0 <= a < 2 ^ w → 0 <= b < 2 ^ w → llvm_binary op w a b = Some r → 0 <= r < 2 ^ w.
Proof.
  intros Hw Ha Hb. pose proof (Z.pow_pos_nonneg 2 w ltac:(lia) ltac:(lia)) as Hp.
  assert (∀ z, 0 <= z mod 2 ^ w < 2 ^ w) as Hm by (intros z; apply Z.mod_pos_bound; lia).
  destruct op; cbn [llvm_binary]; try done; repeat case_match; try done; intros [= <-]; auto.
  - apply land_pow2_range; lia.
  - apply lor_pow2_range; lia.
  - apply lxor_bound; lia.
  - apply shiftr_pow2_range; lia.
  - apply Z.eqb_neq in H. split; [apply Z.div_pos; lia|]. eapply Z.le_lt_trans; [|exact (proj2 Ha)].
    apply Z.div_le_upper_bound; nia.
  - apply Z.eqb_neq in H. pose proof (Z.mod_pos_bound a b ltac:(lia)). lia.
Qed.
