(* ===== verification/ArenaSem.v ===== *)
(** The invariant of the expression arena, the meaning of its expressions, and the soundness of
    the constructors and of the polynomial arithmetic of Arena.v.

    The meaning follows the assumption stated at the top of symexec.h: integers are mathematical
    integers (address and index arithmetic does not wrap), so an expression of an integer type
    means its signed value; booleans are the integers 0 and -1 of [i1]. What the arena does not
    interpret (loads, calls, floating point) means an arbitrary function of its operands. *)
From stdpp Require Import sorting.
From S2P Require Import Prelude Expr Arena.
Open Scope Z_scope.

Create HintDb mvcc_arena.

(** ** Stores *)
Definition valid (s : Arena) (e : EP) : Prop := (e < length (nodes s))%nat.
Definition children (n : Node) : list EP :=
  match n with
  | NOp _ l | NCmp _ l | NIte l | NLoad _ l | NConcat l | NCall _ _ l => l
  | NBytes x _ _ => [x]
  | NConst _ _ | NPoly _ | NSym _ | NUndef => []
  end.
(** an atom refers to an expression created before [e] *)
Definition atom_ok (s : Arena) (e : EP) (a : nat) : Prop :=
  ∃ x, atoms s !! a = Some x ∧ (x < e)%nat.
Definition mono_ok (s : Arena) (e : EP) (m : Monomial) : Prop :=
  Forall (atom_ok s e) m ∧ StronglySorted Nat.le m.
Definition poly_ok (s : Arena) (e : EP) (ts : list Term) : Prop :=
  Forall (λ t : Term, mono_ok s e t.1) ts.
(** what a node created at index [e] satisfies *)
Definition expr_ok (s : Arena) (e : EP) (x : Expr) : Prop :=
  Forall (λ c, c < e)%nat (children (node x)) ∧
  match node x with
  | NPoly ts => normal ts ∧ poly_ok s e ts
  | NSym i => is_Some (symbols s !! i)
  | NConst bw c => ∀ w, ty x = TInt w → bw = w ∧ 0 < w ∧ 0 <= c < 2 ^ w
  | _ => True
  end.
Record wf (s : Arena) : Prop := {
  wf_nodes e x : nodes s !! e = Some x → expr_ok s e x;
  wf_nodup : NoDup (nodes s);
  wf_atoms a e : atoms s !! a = Some e → valid s e;
  wf_atoms_nodup : NoDup (atoms s) }.
(** stores only grow *)
Record ext (s s' : Arena) : Prop := {
  ext_nodes : nodes s `prefix_of` nodes s';
  ext_symbols : symbols s `prefix_of` symbols s';
  ext_atoms : atoms s `prefix_of` atoms s';
  ext_guards : guardDefs s `prefix_of` guardDefs s' }.
#[export] Instance ext_preorder : PreOrder ext.
Proof.
  split; [by split|].
  intros a b c [????] [????]. split; by etrans.
Qed.

Lemma ext_node s s' e x : ext s s' → nodes s !! e = Some x → nodes s' !! e = Some x.
Proof. intros [H _ _ _]. intros Hl. exact (prefix_lookup_Some _ _ _ _ Hl H). Qed.
Lemma ext_atom s s' a e : ext s s' → atoms s !! a = Some e → atoms s' !! a = Some e.
Proof. intros [_ _ H _]. intros Hl. exact (prefix_lookup_Some _ _ _ _ Hl H). Qed.
Lemma ext_valid s s' e : ext s s' → valid s e → valid s' e.
Proof. intros [H _ _ _]. apply prefix_length in H. unfold valid. lia. Qed.
Lemma valid_lookup s e : valid s e ↔ ∃ x, nodes s !! e = Some x.
Proof. unfold valid. split; [intros H; by apply lookup_lt_is_Some in H|intros [x Hx]; by eapply lookup_lt_Some]. Qed.
Lemma atom_ok_ext s s' e e' a : ext s s' → (e ≤ e')%nat → atom_ok s e a → atom_ok s' e' a.
Proof. intros Hx He (x & Ha & ?). exists x. split; [by eapply ext_atom|lia]. Qed.
Lemma mono_ok_ext s s' e e' m : ext s s' → (e ≤ e')%nat → mono_ok s e m → mono_ok s' e' m.
Proof.
  intros Hx He [Ha ?]. split; [|done].
  eapply Forall_impl; [exact Ha|]. intros a. by apply atom_ok_ext.
Qed.
Lemma poly_ok_ext s s' e e' ts : ext s s' → (e ≤ e')%nat → poly_ok s e ts → poly_ok s' e' ts.
Proof. intros Hx He Ha. eapply Forall_impl; [exact Ha|]. intros t. by apply mono_ok_ext. Qed.
Lemma expr_ok_ext s s' e x : ext s s' → expr_ok s e x → expr_ok s' e x.
Proof.
  intros Hx [Hc Hn]. split; [done|]. destruct (node x); try done.
  - destruct Hn as [? Hp]. split; [done|]. eapply poly_ok_ext; eauto.
  - destruct Hn as (y & ?). exists y. destruct Hx. eauto using prefix_lookup_Some.
Qed.

(** ** Meaning *)
Record Env := mkEnv { env_sym : nat → Z; env_opq : Ty → Node → list Z → Z }.
Definition truth (v : Z) : bool := negb (v =? 0).
Definition bval (b : bool) : Z := if b then -1 else 0.
Lemma truth_bval b : truth (bval b) = b.
Proof. by destruct b. Qed.
Fixpoint mono (v : nat → Z) (m : Monomial) : Z :=
  match m with [] => 1 | a :: m => v a * mono v m end.
Fixpoint peval (v : nat → Z) (ts : list Term) : Z :=
  match ts with [] => 0 | t :: ts => t.2 * mono v t.1 + peval v ts end.
(** the comparison [icmp] of the language reference on [w]-bit integers given by their signed
    values *)
Definition icmp (p : Pred) (w a b : Z) : option bool :=
  let ua := a mod 2 ^ w in let ub := b mod 2 ^ w in
  match p with
  | ICMP_EQ => Some (a =? b) | ICMP_NE => Some (negb (a =? b))
  | ICMP_SGT => Some (b <? a) | ICMP_SGE => Some (b <=? a)
  | ICMP_SLT => Some (a <? b) | ICMP_SLE => Some (a <=? b)
  | ICMP_UGT => Some (ub <? ua) | ICMP_UGE => Some (ub <=? ua)
  | ICMP_ULT => Some (ua <? ub) | ICMP_ULE => Some (ua <=? ub)
  | _ => None
  end.
Definition type_at (s : Arena) (e : EP) : option Ty := ty <$> nodes s !! e.
Definition atom_val (s : Arena) (look : EP → Z) (a : nat) : Z :=
  match atoms s !! a with Some e => look e | None => 0 end.
Definition eval_node (s : Arena) (ρ : Env) (look : EP → Z) (x : Expr) : Z :=
  let opaque := env_opq ρ (ty x) (node x) (look <$> children (node x)) in
  match node x with
  | NConst bw c => if isIntegerTy (ty x) then sext bw c else opaque
  | NPoly ts => peval (atom_val s look) ts
  | NSym i => env_sym ρ i
  | NCmp p [a; b] =>
      match type_at s a ≫= width with
      | Some w => match icmp p w (look a) (look b) with Some r => bval r | None => opaque end
      | None => opaque
      end
  | NOp And [a; b] => if isInt1 (ty x) then bval (truth (look a) && truth (look b)) else opaque
  | NOp Or [a; b] => if isInt1 (ty x) then bval (truth (look a) || truth (look b)) else opaque
  | NOp Xor [a; b] => if isInt1 (ty x) then bval (xorb (truth (look a)) (truth (look b))) else opaque
  | NIte [c; a; b] => if truth (look c) then look a else look b
  | _ => opaque
  end.
Fixpoint denf (n : nat) (s : Arena) (ρ : Env) (e : EP) : Z :=
  match n with
  | O => 0
  | S n => match nodes s !! e with Some x => eval_node s ρ (denf n s ρ) x | None => 0 end
  end.
(** operands are created before the expressions that use them, so [S e] levels are enough *)
Definition den (s : Arena) (ρ : Env) (e : EP) : Z := denf (S e) s ρ e.
#[global] Arguments den : simpl never.

Lemma peval_ext v v' ts : Forall (λ t : Term, Forall (λ a, v a = v' a) t.1) ts → peval v ts = peval v' ts.
Proof.
  induction 1 as [|[m c] ts Hm _ IH]; cbn; [done|]. rewrite IH. do 2 f_equal.
  cbn in Hm. induction Hm as [|a m Ha _ IHm]; cbn; congruence.
Qed.
Lemma eval_node_ext s s' ρ f g e x :
  ext s s' → wf s → expr_ok s e x → valid s e ∨ e = length (nodes s) →
  (∀ c, (c < e)%nat → f c = g c) → eval_node s ρ f x = eval_node s' ρ g x.
Proof.
  intros Hx Hwf [Hc Hn] Hv Hfg.
  assert (∀ c, (c < e)%nat → type_at s c = type_at s' c) as Hty.
  { intros c Hce. unfold type_at. assert (valid s c) as [y Hy]%valid_lookup.
    { unfold valid in *. destruct Hv; lia. }
    rewrite Hy. by rewrite (ext_node _ _ _ _ Hx Hy). }
  destruct x as [t n]; cbn in *. unfold eval_node; cbn.
  assert (f <$> children n = g <$> children n) as Hmap.
  { clear Hn. induction Hc as [|c l ? _ IH]; cbn; [done|]. f_equal; auto. }
  destruct n; cbn in *; try done; try (by rewrite Hmap).
  - destruct Hn as [_ Hp]. apply peval_ext. eapply Forall_impl; [exact Hp|]. intros y [Hm _].
    eapply Forall_impl; [exact Hm|]. intros a (k & Hk & Hke). unfold atom_val.
    rewrite Hk, (ext_atom _ _ _ _ Hx Hk). auto.
  - rewrite Hmap. destruct op; try done;
      (destruct args as [|? [|? [|]]]; try done;
       apply Forall_cons in Hc as [H1 [H2 _]%Forall_cons]; rewrite !Hfg by done; done).
  - rewrite Hmap. destruct args as [|? [|? [|]]]; try done.
    apply Forall_cons in Hc as [H1 [H2 _]%Forall_cons]. rewrite <- Hty, !Hfg by done. done.
  - rewrite Hmap. destruct args as [|? [|? [|? [|]]]]; try done.
    apply Forall_cons in Hc as [H1 [H2 [H3 _]%Forall_cons]%Forall_cons]. rewrite !Hfg by done. done.
Qed.
Lemma denf_fuel s ρ : wf s → ∀ n m e, (e < n)%nat → (e < m)%nat → denf n s ρ e = denf m s ρ e.
Proof.
  intros Hwf n. induction n as [|n IH]; intros m e Hn Hm; [lia|]. destruct m as [|m]; [lia|]. cbn.
  destruct (nodes s !! e) as [x|] eqn:E; [|done].
  eapply (eval_node_ext s s _ _ _ e); [done|done|by apply wf_nodes|left; apply valid_lookup; eauto|].
  intros c Hc. apply IH; lia.
Qed.
(** the meaning of an expression is its node's, applied to the meanings of the operands *)
Lemma den_unfold s ρ e x : wf s → nodes s !! e = Some x → den s ρ e = eval_node s ρ (den s ρ) x.
Proof.
  intros Hwf Hx. unfold den at 1. cbn. rewrite Hx.
  eapply (eval_node_ext s s _ _ _ e); [done|done|by apply wf_nodes|left; apply valid_lookup; eauto|].
  intros c Hc. unfold den. apply denf_fuel; [done|lia..].
Qed.
(** growing the store does not change meanings *)
Lemma den_ext s s' ρ e : wf s → wf s' → ext s s' → valid s e → den s' ρ e = den s ρ e.
Proof.
  intros Hwf Hwf' Hx. induction (lt_wf e) as [e _ IH]. intros Hv.
  pose proof Hv as [x Hn]%valid_lookup.
  rewrite (den_unfold s _ _ _ Hwf Hn), (den_unfold s' _ _ _ Hwf' (ext_node _ _ _ _ Hx Hn)).
  symmetry. eapply (eval_node_ext s s' _ _ _ e); [done|done|by apply wf_nodes|by left|].
  intros c Hc. symmetry. apply IH; [done|]. unfold valid in *. lia.
Qed.

(** ** Specifications of operations
    [spec m s Q]: from the store [s] the operation returns, the store it leaves is well formed and
    extends [s], and the result satisfies [Q]. *)
Definition spec {A} (m : M A) (s : Arena) (Q : A → Arena → Prop) : Prop :=
  ∃ r s', m s = Some (r, s') ∧ wf s' ∧ ext s s' ∧ Q r s'.
Lemma spec_ret {A} (x : A) s (Q : A → Arena → Prop) : wf s → Q x s → spec (ret x) s Q.
Proof. intros. exists x, s. split_and!; done. Qed.
Lemma spec_bind {A B} (m : M A) (f : A → M B) s (Q : A → Arena → Prop) R :
  spec m s Q → (∀ r s1, wf s1 → ext s s1 → Q r s1 → spec (f r) s1 R) → spec (bind m f) s R.
Proof.
  intros (r & s1 & Hm & Hwf & Hx & HQ) Hf. destruct (Hf r s1 Hwf Hx HQ) as (r' & s2 & Hr & ? & ? & ?).
  exists r', s2. unfold bind. rewrite Hm. split_and!; try done. by etrans.
Qed.
Lemma spec_mono {A} (m : M A) s (Q R : A → Arena → Prop) :
  spec m s Q → (∀ r s', wf s' → ext s s' → Q r s' → R r s') → spec m s R.
Proof. intros (r & s' & ? & ? & ? & ?) HR. exists r, s'. split_and!; auto. Qed.
Lemma spec_mmap {A B} (P : A → B → Arena → Prop) (f : A → M B) l s :
  wf s → (∀ x y s1 s2, ext s1 s2 → P x y s1 → P x y s2) →
  (∀ x s', x ∈ l → wf s' → ext s s' → spec (f x) s' (P x)) →
  spec (mmap f l) s (λ ys s', Forall2 (λ x y, P x y s') l ys).
Proof.
  intros Hwf HP. revert s Hwf. induction l as [|x l IH]; intros s Hwf Hf; [by apply spec_ret|].
  eapply spec_bind; [apply Hf; [left|done|done]|]. intros y s1 Hwf1 Hx1 Hy.
  eapply spec_bind; [apply IH; [done|]; intros x' s' ? ? ?; apply Hf; [by right|done|by etrans]|].
  intros ys s2 Hwf2 Hx2 Hys. apply spec_ret; [done|]. constructor; [by eapply HP|done].
Qed.
Lemma spec_mfold {A B} (I : list A → B → Arena → Prop) (f : B → A → M B) l b s :
  wf s → I [] b s →
  (∀ l1 x l2 b s', l = l1 ++ x :: l2 → wf s' → ext s s' → I l1 b s' → spec (f b x) s' (I (l1 ++ [x]))) →
  spec (mfold f l b) s (I l).
Proof.
  intros Hwf H0 Hf.
  assert (∀ l2 l1 b s', l = l1 ++ l2 → wf s' → ext s s' → I l1 b s' → spec (mfold f l2 b) s' (I l)) as H.
  { induction l2 as [|x l2 IH]; intros l1 b1 s1 El Hwf1 Hx1 HI; cbn.
    - rewrite app_nil_r in El. subst. by apply spec_ret.
    - eapply spec_bind; [by eapply Hf|]. intros b2 s2 Hwf2 Hx2 HI2.
      apply (IH (l1 ++ [x])); [by rewrite <- app_assoc|done|by etrans|done]. }
  by apply (H l []).
Qed.
(** reading the node of a known expression *)
Lemma spec_deref {B} (f : Expr → M B) s e x R :
  nodes s !! e = Some x → spec (f x) s R → spec (bind (deref e) f) s R.
Proof. intros Hx (r & s' & Hr & ?). exists r, s'. unfold bind, deref. by rewrite Hx. Qed.
Definition is_poly (s : Arena) (e : EP) (t : Ty) (ts : list Term) : Prop :=
  nodes s !! e = Some (mkExpr t (NPoly ts)).
Lemma spec_terms_of {B} (f : list Term → M B) s e t ts R :
  is_poly s e t ts → spec (f ts) s R → spec (bind (terms_of e) f) s R.
Proof. intros Hx (r & s' & Hr & ?). exists r, s'. unfold bind, terms_of, bind, deref. by rewrite Hx. Qed.
Lemma spec_ty_of {B} (f : Ty → M B) s e x R :
  nodes s !! e = Some x → spec (f (ty x)) s R → spec (bind (ty_of e) f) s R.
Proof. intros Hx (r & s' & Hr & ?). exists r, s'. unfold bind, ty_of, bind, deref. by rewrite Hx. Qed.

Lemma find_index_Some {A} (p : A → bool) l i :
  find_index p l = Some i → ∃ x, l !! i = Some x ∧ p x = true.
Proof.
  revert i. induction l as [|x l IH]; cbn; [done|]. intros i. destruct (p x) eqn:E.
  - intros [= <-]. eauto.
  - destruct (find_index p l) as [k|]; cbn; [|done]. intros [= <-]. by apply IH.
Qed.
Lemma find_index_None {A} (p : A → bool) l : find_index p l = None ↔ Forall (λ x, p x = false) l.
Proof.
  induction l as [|x l IH]; cbn; [split; [constructor|done]|]. rewrite Forall_cons, <- IH.
  destruct (p x); [naive_solver|]. destruct (find_index p l); naive_solver.
Qed.

Lemma same_ids_eq a b : same_ids a b = true ↔ a = b.
Proof.
  revert b. induction a as [|x a IH]; intros [|y b]; cbn; try done.
  rewrite andb_true_iff, Nat.eqb_eq, IH. naive_solver.
Qed.
(** the comparison of the fields of a kind misses none *)
Lemma ExprEq_eq a b : ExprEq a b = true ↔ a = b.
Proof.
  unfold ExprEq. destruct a as [t n], b as [t' n']. cbn [ty node]. case_bool_decide as Ht; cbn [negb]; [subst t'|naive_solver].
  destruct n, n'; rewrite ?andb_true_iff, ?same_ids_eq, ?Z.eqb_eq, ?Nat.eqb_eq, ?bool_decide_eq_true; naive_solver.
Qed.
Lemma intern_spec s x :
  wf s → expr_ok s (length (nodes s)) x → spec (intern x) s (λ e s', nodes s' !! e = Some x).
Proof.
  intros Hwf Hok. unfold spec, intern.
  destruct (find_index (ExprEq x) (nodes s)) as [e|] eqn:E.
  - apply find_index_Some in E as (y & Hy & ->%ExprEq_eq). exists e, s. split_and!; done.
  - apply find_index_None in E. set (s' := mkArena _ _ _ _).
    assert (ext s s') as Hx by (split; cbn; try done; by apply prefix_app_r).
    exists (length (nodes s)), s'. split_and!; [done| |done|by apply list_lookup_middle].
    split; cbn; [| | |by apply wf_atoms_nodup].
    + intros e y [Hy|[He Hy]]%lookup_app_Some.
      { eapply expr_ok_ext; [exact Hx|]. by apply wf_nodes. }
      apply list_lookup_singleton_Some in Hy as [He0 <-].
      replace e with (length (nodes s)) by lia. by eapply expr_ok_ext.
    + apply NoDup_app. split_and!; [by apply wf_nodup| |apply NoDup_singleton].
      intros y Hy ->%list_elem_of_singleton. rewrite Forall_forall in E. specialize (E _ Hy).
      by rewrite (proj2 (ExprEq_eq x x) eq_refl) in E.
    + intros a e Ha. eapply ext_valid; [exact Hx|]. by eapply wf_atoms.
Qed.
Lemma atomOf_spec s e :
  wf s → valid s e →
  spec (atomOf e) s (λ a s', nodes s' = nodes s ∧ atoms s' !! a = Some e ∧ ∀ ρ, den s' ρ e = den s ρ e).
Proof.
  intros Hwf Hv. unfold spec, atomOf.
  destruct (find_index (Nat.eqb e) (atoms s)) as [a|] eqn:E.
  - apply find_index_Some in E as (y & Hy & ->%Nat.eqb_eq). exists a, s. split_and!; done.
  - apply find_index_None in E. set (s' := mkArena _ _ _ _).
    assert (ext s s') as Hx by (split; cbn; try done; by apply prefix_app_r).
    assert (wf s') as Hwf'.
    { split; cbn; [| by apply wf_nodup| |].
      - intros k x Hk. eapply expr_ok_ext; [exact Hx|]. by apply wf_nodes.
      - intros k x [Hk|[_ Hk]]%lookup_app_Some; [exact (wf_atoms _ Hwf _ _ Hk)|].
        apply list_lookup_singleton_Some in Hk as [_ <-]. exact Hv.
      - apply NoDup_app. split_and!; [by apply wf_atoms_nodup| |apply NoDup_singleton].
        intros y Hy ->%list_elem_of_singleton. rewrite Forall_forall in E. specialize (E _ Hy).
        by rewrite Nat.eqb_refl in E. }
    exists (length (atoms s)), s'. split_and!; [done|done|done|done|by apply list_lookup_middle|].
    intros ρ. by apply den_ext.
Qed.

(** ** The value of a list of terms *)
Definition pval (s : Arena) (ρ : Env) (ts : list Term) : Z := peval (atom_val s (den s ρ)) ts.
#[global] Arguments pval : simpl never.
Lemma den_poly s ρ e t ts : wf s → is_poly s e t ts → den s ρ e = pval s ρ ts.
Proof. intros Hwf H. by rewrite (den_unfold _ _ _ _ Hwf H). Qed.
Lemma pval_ext s s' ρ ts :
  wf s → wf s' → ext s s' → poly_ok s (length (nodes s)) ts → pval s' ρ ts = pval s ρ ts.
Proof.
  intros Hwf Hwf' Hx Hp. apply peval_ext. eapply Forall_impl; [exact Hp|]. intros t [Hm _].
  eapply Forall_impl; [exact Hm|]. intros a (k & Hk & Hlt). unfold atom_val.
  rewrite Hk, (ext_atom _ _ _ _ Hx Hk). by apply den_ext.
Qed.
Section values.
Context (v : nat → Z).
Lemma peval_app xs ys : peval v (xs ++ ys) = peval v xs + peval v ys.
Proof. induction xs as [|x xs IH]; cbn in *; lia. Qed.
#[export] Instance peval_perm : Proper (Permutation ==> eq) (peval v).
Proof. intros xs ys H. induction H; cbn in *; lia. Qed.
#[export] Instance mono_perm : Proper (Permutation ==> eq) (mono v).
Proof. intros xs ys H. induction H; cbn in *; lia. Qed.
Lemma mono_app m n : mono v (m ++ n) = mono v m * mono v n.
Proof. induction m as [|a m IH]; cbn in *; [lia|]. rewrite IH. lia. Qed.
Lemma peval_merge ts : peval v (merge_terms ts) = peval v ts.
Proof.
  induction ts as [|[m c] ts IH]; cbn in *; [done|]. rewrite <- IH.
  destruct (merge_terms ts) as [|[m' c'] out]; cbn; [done|]. case_bool_decide; subst; cbn; lia.
Qed.
Lemma peval_drop ts : peval v (drop_zeros ts) = peval v ts.
Proof.
  unfold drop_zeros. induction ts as [|[m c] ts IH]; [done|]. rewrite filter_cons. case_decide as E; cbn in *; [lia|].
  assert (c = 0) as -> by lia. lia.
Qed.
Lemma peval_normalise ts : peval v (normalise ts) = peval v ts.
Proof.
  unfold normalise. destruct (canonical ts); [done|].
  by rewrite peval_drop, peval_merge, (merge_sort_Permutation mle ts).
Qed.
Lemma peval_neg ts : peval v (neg_terms ts) = - peval v ts.
Proof. unfold neg_terms. induction ts as [|[m c] ts IH]; cbn in *; [done|]. rewrite IH. lia. Qed.
Lemma peval_mul_term x ys :
  peval v (y ← ys; [(sort_mono (x.1 ++ y.1), x.2 * y.2)]) = x.2 * mono v x.1 * peval v ys.
Proof.
  induction ys as [|y ys IH]; [cbn; lia|]. rewrite bind_cons, peval_app, IH. cbn. unfold sort_mono.
  rewrite (merge_sort_Permutation Nat.le (x.1 ++ y.1)), mono_app. lia.
Qed.
Lemma peval_mul xs ys : peval v (mul_terms xs ys) = peval v xs * peval v ys.
Proof.
  unfold mul_terms. induction xs as [|x xs IH]; [done|].
  rewrite bind_cons, peval_app, IH, peval_mul_term. cbn. lia.
Qed.
End values.

(** ** Well-formed term lists *)
Section poly_ok.
Context (s : Arena) (e : EP).
Lemma poly_ok_app xs ys : poly_ok s e xs → poly_ok s e ys → poly_ok s e (xs ++ ys).
Proof. apply Forall_app_2. Qed.
Lemma poly_ok_neg ts : poly_ok s e ts → poly_ok s e (neg_terms ts).
Proof. intros H. apply Forall_fmap. eapply Forall_impl; [exact H|]. done. Qed.
Lemma poly_ok_const c : poly_ok s e [([], c)].
Proof. repeat constructor. Qed.
Lemma poly_ok_atom a c : atom_ok s e a → poly_ok s e [([a], c)].
Proof. intros H. repeat constructor. exact H. Qed.
Lemma mono_ok_sort m n : mono_ok s e m → mono_ok s e n → mono_ok s e (sort_mono (m ++ n)).
Proof.
  intros [Hm _] [Hn _]. split.
  - unfold sort_mono. rewrite (merge_sort_Permutation Nat.le (m ++ n)). by apply Forall_app_2.
  - apply StronglySorted_merge_sort; [intros ???; lia|intros ??; lia].
Qed.
Lemma poly_ok_mul xs ys : poly_ok s e xs → poly_ok s e ys → poly_ok s e (mul_terms xs ys).
Proof.
  intros Hx Hy. apply Forall_forall. intros t (x & Ht & Hx')%list_elem_of_bind.
  apply list_elem_of_bind in Ht as (y & ->%list_elem_of_singleton & Hy').
  unfold poly_ok in *. rewrite Forall_forall in Hx, Hy. by apply mono_ok_sort; [apply Hx|apply Hy].
Qed.
Lemma merge_keys ts t : t ∈ merge_terms ts → ∃ t', t' ∈ ts ∧ t'.1 = t.1.
Proof.
  revert t. induction ts as [|[m c] ts IH]; cbn; intros t Ht; [by apply elem_of_nil in Ht|].
  destruct (merge_terms ts) as [|[m' c'] out]; [|case_bool_decide].
  - apply list_elem_of_singleton in Ht as ->. exists (m, c). split; [left|done].
  - apply elem_of_cons in Ht as [->|Ht]; [exists (m, c); split; [left|done]|].
    destruct (IH t ltac:(by right)) as (t' & ? & ?). exists t'. split; [by right|done].
  - apply elem_of_cons in Ht as [->|Ht]; [exists (m, c); split; [left|done]|].
    destruct (IH t Ht) as (t' & ? & ?). exists t'. split; [by right|done].
Qed.
Lemma poly_ok_normalise ts : poly_ok s e ts → poly_ok s e (normalise ts).
Proof.
  intros H. unfold normalise. destruct (canonical ts); [done|]. unfold poly_ok in *.
  rewrite Forall_forall in *. intros t Ht.
  apply list_elem_of_filter in Ht as [_ Ht]. apply merge_keys in Ht as (t' & Ht' & <-).
  rewrite (merge_sort_Permutation mle ts) in Ht'. by apply H.
Qed.
End poly_ok.
#[export] Hint Resolve poly_ok_app poly_ok_neg poly_ok_const poly_ok_mul poly_ok_normalise : mvcc_arena.

(** ** Constructors *)
Lemma poly_at s e t ts : wf s → is_poly s e t ts → normal ts ∧ poly_ok s (length (nodes s)) ts.
Proof.
  intros Hwf H. destruct (wf_nodes _ Hwf _ _ H) as [_ [? Hp]]. split; [done|].
  eapply poly_ok_ext; [reflexivity| |exact Hp]. apply lookup_lt_Some in H. lia.
Qed.
Lemma mkPoly_spec s t ts :
  wf s → poly_ok s (length (nodes s)) ts →
  spec (mkPoly t ts) s (λ e s', is_poly s' e t (normalise ts) ∧ ∀ ρ, den s' ρ e = pval s ρ ts).
Proof.
  intros Hwf Hp. eapply spec_mono.
  - apply intern_spec; [done|]. split; [constructor|]. cbn.
    split; [apply normalise_normal|auto with mvcc_arena].
  - cbn. intros e s' Hwf' Hx He. split; [done|]. intros ρ.
    rewrite (den_poly _ _ _ _ _ Hwf' He), (pval_ext s) by auto with mvcc_arena.
    apply peval_normalise.
Qed.
Lemma polyConst_spec s t c :
  wf s → spec (polyConst t c) s (λ e s', is_poly s' e t (normalise [([], c)]) ∧ ∀ ρ, den s' ρ e = c).
Proof.
  intros Hwf. eapply spec_mono; [apply mkPoly_spec; auto with mvcc_arena|].
  cbn. intros e s' _ _ [? Hd]. split; [done|]. intros ρ. rewrite Hd. unfold pval; cbn. lia.
Qed.
Lemma type_at_ext s s' e t : ext s s' → type_at s e = Some t → type_at s' e = Some t.
Proof.
  unfold type_at. intros Hx H. apply fmap_Some in H as (x & H & ->). by rewrite (ext_node _ _ _ _ Hx H).
Qed.
(** the constant term of an expression read as a polynomial *)
Definition const_part (s : Arena) (e : EP) : Z :=
  match nodes s !! e with
  | Some (mkExpr _ (NPoly ts)) => coef ts []
  | Some (mkExpr t (NConst bw c)) => if isIntegerTy t then sext bw c else 0
  | _ => 0
  end.
Lemma asPoly_spec s e t :
  wf s → type_at s e = Some t →
  spec (asPoly e) s (λ p s', (∃ ts, is_poly s' p t ts ∧ coef ts [] = const_part s e)
                             ∧ ∀ ρ, den s' ρ p = den s ρ e).
Proof.
  intros Hwf Ht. apply fmap_Some in Ht as (x & Hx & ->). eapply spec_deref; [exact Hx|].
  unfold const_part. rewrite Hx.
  assert (spec (bind (atomOf e) (λ a, mkPoly (ty x) [([a], 1)])) s
            (λ p s', (∃ ts, is_poly s' p (ty x) ts ∧ coef ts [] = 0) ∧ ∀ ρ, den s' ρ p = den s ρ e)) as Hatom.
  { eapply spec_bind; [apply atomOf_spec; [done|apply valid_lookup; eauto]|].
    cbn. intros a s1 Hwf1 Hx1 (Hn & Ha & Hd).
    assert (e < length (nodes s1))%nat by (apply (ext_valid _ _ _ Hx1), valid_lookup; eauto).
    eapply spec_mono; [apply mkPoly_spec; [done|]; apply poly_ok_atom; by exists e|].
    cbn. intros p s2 _ _ [Hp Hpd]. split; [eauto|]. intros ρ. rewrite Hpd, <- Hd.
    unfold pval, atom_val; cbn. rewrite Ha. lia. }
  destruct x as [tx [bw c|ts|i| | | | | | | |]]; cbn -[asPoly] in *; try exact Hatom.
  - destruct (isIntegerTy tx) eqn:Hint; [|exact Hatom].
    eapply spec_mono; [by apply polyConst_spec|]. cbn. intros p s' _ _ [Hp Hd]. split.
    { eexists. split; [exact Hp|]. rewrite coef_normalise. unfold coef; cbn -[sext getSExtValue]. rewrite bool_decide_true by done. apply Z.add_0_r. }
    intros ρ. rewrite Hd, (den_unfold _ _ _ _ Hwf Hx). unfold eval_node; cbn. by rewrite Hint.
  - apply spec_ret; [done|]. split; [by exists ts|done].
Qed.

(** ** Arithmetic *)
Lemma poly2_spec (f : list Term → list Term → list Term) (g : Z → Z → Z) s a b t t' :
  (∀ s e xs ys, poly_ok s e xs → poly_ok s e ys → poly_ok s e (f xs ys)) →
  (∀ v xs ys, peval v (f xs ys) = g (peval v xs) (peval v ys)) →
  wf s → type_at s a = Some t → type_at s b = Some t' →
  spec (bind (asPoly a) (λ a, bind (asPoly b) (λ b, bind (terms_of a) (λ ta,
        bind (terms_of b) (λ tb, bind (ty_of a) (λ t, mkPoly t (f ta tb))))))) s
    (λ e s', (∃ ts, is_poly s' e t ts) ∧ ∀ ρ, den s' ρ e = g (den s ρ a) (den s ρ b)).
Proof.
  intros Hf Hg Hwf Ha Hb. eapply spec_bind; [by apply asPoly_spec|].
  cbn. intros pa s1 Hwf1 Hx1 [(ta & Hpa & _) Hda].
  eapply spec_bind; [apply asPoly_spec; [done|by eapply type_at_ext]|].
  cbn. intros pb s2 Hwf2 Hx2 [(tb & Hpb & _) Hdb].
  pose proof (ext_node _ _ _ _ Hx2 Hpa) as Hpa2.
  eapply spec_terms_of; [exact Hpa2|]. eapply spec_terms_of; [exact Hpb|].
  eapply spec_ty_of; [exact Hpa2|]. cbn.
  destruct (poly_at _ _ _ _ Hwf2 Hpa2) as [_ Hoa]. destruct (poly_at _ _ _ _ Hwf2 Hpb) as [_ Hob].
  eapply spec_mono; [apply mkPoly_spec; auto with mvcc_arena|].
  cbn. intros e s3 _ _ [He Hd]. split; [eauto|]. intros ρ. rewrite Hd.
  unfold pval. rewrite Hg. fold (pval s2 ρ ta) (pval s2 ρ tb).
  rewrite <- (den_poly _ _ _ _ _ Hwf2 Hpa2), <- (den_poly _ _ _ _ _ Hwf2 Hpb), Hdb.
  rewrite (den_ext s1 s2) by (done || (apply valid_lookup; eauto)). rewrite Hda.
  rewrite (den_ext s s1); [done..|]. apply valid_lookup. apply fmap_Some in Hb as (? & ? & _). eauto.
Qed.
Lemma add_spec s a b t t' :
  wf s → type_at s a = Some t → type_at s b = Some t' →
  spec (add a b) s (λ e s', (∃ ts, is_poly s' e t ts) ∧ ∀ ρ, den s' ρ e = den s ρ a + den s ρ b).
Proof. apply (poly2_spec app Z.add); [apply poly_ok_app|apply peval_app]. Qed.
Lemma mul_spec s a b t t' :
  wf s → type_at s a = Some t → type_at s b = Some t' →
  spec (mul a b) s (λ e s', (∃ ts, is_poly s' e t ts) ∧ ∀ ρ, den s' ρ e = den s ρ a * den s ρ b).
Proof. apply (poly2_spec mul_terms Z.mul); [apply poly_ok_mul|apply peval_mul]. Qed.
Lemma neg_spec s a t :
  wf s → type_at s a = Some t →
  spec (neg a) s (λ e s', (∃ ts, is_poly s' e t ts) ∧ ∀ ρ, den s' ρ e = - den s ρ a).
Proof.
  intros Hwf Ha. eapply spec_bind; [by apply asPoly_spec|]. cbn. intros pa s1 Hwf1 Hx1 [(ta & Hpa & _) Hda].
  eapply spec_terms_of; [exact Hpa|]. eapply spec_ty_of; [exact Hpa|]. cbn.
  destruct (poly_at _ _ _ _ Hwf1 Hpa) as [_ Hoa].
  eapply spec_mono; [apply mkPoly_spec; auto with mvcc_arena|].
  cbn. intros e s3 _ _ [He Hd]. split; [eauto|]. intros ρ. rewrite Hd.
  unfold pval. rewrite peval_neg. fold (pval s1 ρ ta). by rewrite <- (den_poly _ _ _ _ _ Hwf1 Hpa), Hda.
Qed.

Lemma is_poly_type s e t ts : is_poly s e t ts → type_at s e = Some t.
Proof. unfold is_poly, type_at. by intros ->. Qed.
Lemma type_at_valid s e t : type_at s e = Some t → valid s e.
Proof. intros (x & ? & _)%fmap_Some. apply valid_lookup. eauto. Qed.
#[export] Hint Resolve is_poly_type type_at_valid type_at_ext : mvcc_arena.
Lemma sub_spec s a b t t' :
  wf s → type_at s a = Some t → type_at s b = Some t' →
  spec (sub a b) s (λ e s', (∃ ts, is_poly s' e t ts) ∧ ∀ ρ, den s' ρ e = den s ρ a - den s ρ b).
Proof.
  intros Hwf Ha Hb. eapply spec_bind; [by eapply neg_spec|]. cbn. intros nb s1 Hwf1 Hx1 [[tn Hn] Hd].
  eapply spec_mono; [eapply add_spec; eauto with mvcc_arena|].
  cbn. intros e s2 _ _ [He Hde]. split; [done|]. intros ρ.
  rewrite Hde, Hd, (den_ext s s1) by eauto with mvcc_arena. lia.
Qed.

(** *** Constants wrap to the two's complement reading of their type's width *)
Lemma wrapw_sext w v : 0 < w → wrapw w v = if 64 <=? w then v else sext w v.
Proof.
  intros Hw. unfold wrapw. destruct (Z.leb_spec 64 w); [done|]. unfold sext.
  assert (2 ^ w - 1 = Z.ones w) as -> by (rewrite Z.ones_equiv; lia).
  rewrite Z.land_ones by lia. pose proof (Z.mod_pos_bound v (2 ^ w) ltac:(lia)) as Hu.
  set (u := v mod 2 ^ w) in *.
  assert (2 ^ w = 2 * 2 ^ (w - 1)) as Hp.
  { rewrite <- Z.pow_succ_r by lia. f_equal. lia. }
  destruct (Z.ltb_spec u (2 ^ (w - 1))) as [Hlt|Hge].
  - rewrite (proj2 (Z.testbit_false u (w - 1) ltac:(lia))); [done|]. by rewrite Z.div_small by lia.
  - rewrite (proj2 (Z.testbit_true u (w - 1) ltac:(lia))).
    2: { assert (u / 2 ^ (w - 1) = 1) as ->; [|done]. symmetry. apply (Z.div_unique _ _ _ (u - 2 ^ (w - 1))); lia. }
    rewrite <- (Z.lor_comm (Z.lnot _)). pose proof (Z.add_lor_land u (Z.lnot (Z.ones w))) as Ha.
    assert (Z.land u (Z.lnot (Z.ones w)) = 0) as Hl.
    { rewrite <- Z.ldiff_land. replace u with (Z.land v (Z.ones w)) by (unfold u; by rewrite Z.land_ones by lia).
      apply Z.bits_inj'. intros n Hn. rewrite Z.ldiff_spec, Z.land_spec, Z.bits_0.
      by destruct (Z.testbit v n), (Z.testbit (Z.ones w) n). }
    rewrite Hl in Ha. rewrite Z.lor_comm. unfold Z.lnot in *. rewrite Z.ones_equiv in *. lia.
Qed.
Lemma sext_range w v : 0 < w → - 2 ^ (w - 1) <= sext w v < 2 ^ (w - 1).
Proof.
  intros Hw. unfold sext. pose proof (Z.mod_pos_bound v (2 ^ w) ltac:(lia)).
  assert (2 ^ w = 2 * 2 ^ (w - 1)) by (rewrite <- Z.pow_succ_r by lia; f_equal; lia).
  destruct (Z.ltb_spec (v mod 2 ^ w) (2 ^ (w - 1))); lia.
Qed.
Lemma sext_mod w v : 0 < w → sext w v mod 2 ^ w = v mod 2 ^ w.
Proof.
  intros Hw. unfold sext. destruct (_ <? _).
  - by rewrite Z.mod_mod by lia.
  - replace (v mod 2 ^ w - 2 ^ w) with (v mod 2 ^ w + (-1) * 2 ^ w) by lia.
    by rewrite Z.mod_add, Z.mod_mod by lia.
Qed.
Lemma sext_id w v : 0 < w → - 2 ^ (w - 1) <= v < 2 ^ (w - 1) → sext w v = v.
Proof.
  intros Hw Hv. unfold sext.
  assert (2 ^ w = 2 * 2 ^ (w - 1)) as Hp by (rewrite <- Z.pow_succ_r by lia; f_equal; lia).
  destruct (Z.ltb_spec v 0).
  - rewrite <- (Z.mod_unique_pos v (2 ^ w) (-1) (v + 2 ^ w)) by lia.
    destruct (Z.ltb_spec (v + 2 ^ w) (2 ^ (w - 1))); lia.
  - rewrite Z.mod_small by lia. destruct (Z.ltb_spec v (2 ^ (w - 1))); lia.
Qed.

Lemma wrap_spec {B} (f : Z → M B) s t w v R :
  width t = Some w → spec (f (wrapw w v)) s R → spec (bind (wrap t v) f) s R.
Proof. intros Hw H. unfold wrap. rewrite Hw. exact H. Qed.
Lemma mkInt_spec s t w v :
  wf s → width t = Some w →
  spec (mkInt t v) s (λ e s', is_poly s' e t (normalise [([], wrapw w v)])
                              ∧ ∀ ρ, den s' ρ e = wrapw w v).
Proof. intros Hwf Hw. eapply wrap_spec; [exact Hw|]. by apply polyConst_spec. Qed.

(** an expression node with no operands yet to check *)
Lemma intern_leaf_spec s t n :
  wf s → expr_ok s (length (nodes s)) (mkExpr t n) →
  spec (intern (mkExpr t n)) s (λ e s', type_at s' e = Some t ∧ nodes s' !! e = Some (mkExpr t n)).
Proof.
  intros Hwf Hok. eapply spec_mono; [by apply intern_spec|]. cbn. intros e s' _ _ H.
  split; [|done]. unfold type_at. by rewrite H.
Qed.
Lemma mkBool_spec s b :
  wf s → spec (mkBool b) s (λ e s', nodes s' !! e = Some (mkExpr i1 (NConst 1 (if b then 1 else 0)))
                                    ∧ ∀ ρ, den s' ρ e = bval b).
Proof.
  intros Hwf. eapply spec_mono; [apply intern_leaf_spec; [done|]|].
  - split; [constructor|]. cbn. intros w [= <-]. destruct b; lia.
  - cbn. intros e s' Hwf' _ [_ H]. split; [done|]. intros ρ.
    rewrite (den_unfold _ _ _ _ Hwf' H). by destruct b.
Qed.
Lemma add_symbol_wf s x :
  wf s → let s' := mkArena (nodes s) (symbols s ++ [x]) (atoms s) (guardDefs s) in wf s' ∧ ext s s'.
Proof.
  intros Hwf s'. assert (ext s s') as Hx by (split; cbn; try done; by apply prefix_app_r).
  split; [|done]. split; cbn; [|by apply wf_nodup|by apply wf_atoms|by apply wf_atoms_nodup].
  intros k y Hk. eapply expr_ok_ext; [exact Hx|]. by apply wf_nodes.
Qed.
Lemma mkSymRaw_spec s x :
  wf s → spec (mkSymRaw x) s (λ e s', type_at s' e = Some (sy_ty x) ∧ ∃ i,
    nodes s' !! e = Some (mkExpr (sy_ty x) (NSym i))).
Proof.
  intros Hwf. unfold spec, mkSymRaw. destruct (find_index (sym_key x) (symbols s)) as [i|] eqn:E.
  - apply find_index_Some in E as (y & Hy & _).
    destruct (intern_leaf_spec s (sy_ty x) (NSym i) Hwf) as (e & s' & ? & ? & ? & ? & ?).
    { split; [constructor|]. cbn. eauto. }
    exists e, s'. split_and!; eauto.
  - destruct (add_symbol_wf s x Hwf) as [Hwf1 Hx1]. cbn in *. set (s1 := mkArena _ _ _ _) in *.
    destruct (intern_leaf_spec s1 (sy_ty x) (NSym (length (symbols s))) Hwf1) as (e & s' & ? & ? & ? & ? & ?).
    { split; [constructor|]. cbn. exists x. by apply list_lookup_middle. }
    exists e, s'. split_and!; [done|done|by etrans|done|eauto].
Qed.
Lemma mkSym_spec s x : wf s → spec (mkSym x) s (λ e s', type_at s' e = Some (sy_ty x)).
Proof.
  intros Hwf. eapply spec_bind; [by apply mkSymRaw_spec|]. cbn. intros e s1 Hwf1 Hx1 [Ht _].
  destruct (_ || _); [|by apply spec_ret].
  eapply spec_mono; [by apply asPoly_spec|]. cbn. intros p s2 _ _ [(ts & ? & _) _]. by eapply is_poly_type.
Qed.

(** *** Changing the type of a polynomial wraps its constant term *)
Definition wrap_term (w : Z) (t : Term) : Term := (t.1, if is_const_mono t.1 then wrapw w t.2 else t.2).
Lemma wrap_consts_eq t w ts s : width t = Some w → wrap_consts t ts s = Some (wrap_term w <$> ts, s).
Proof.
  intros Hw. induction ts as [|[m c] ts IH]; [done|]. cbn. unfold bind, wrap. rewrite Hw.
  unfold wrap_term; cbn. destruct (is_const_mono m); cbn; by rewrite IH.
Qed.
Lemma wrapw_0 w : wrapw w 0 = 0.
Proof. unfold wrapw. rewrite Z.land_0_l, Z.bits_0. by destruct (64 <=? w). Qed.
Lemma peval_wrap v w ts :
  normal ts → peval v (wrap_term w <$> ts) = peval v ts + (wrapw w (coef ts []) - coef ts []).
Proof.
  intros Hn. destruct ts as [|[m c] ts]; [cbn; by rewrite wrapw_0|].
  assert (wrap_term w <$> ts = ts) as Htl.
  { destruct Hn as [Hs _]. apply StronglySorted_inv in Hs as [_ Hall].
    induction Hall as [|[m' c'] ts Hm _ IH]; [done|]. rewrite fmap_cons, IH. unfold term_lt in Hm; cbn in Hm.
    unfold wrap_term; cbn. by destruct m, m'. }
  rewrite fmap_cons, Htl. destruct m as [|a m].
  - rewrite (coef_head _ _ _ Hn). cbn. lia.
  - rewrite (coef_head_lt _ _ [] Hn) by done. rewrite wrapw_0. cbn. lia.
Qed.
Lemma poly_ok_wrap s e w ts : poly_ok s e ts → poly_ok s e (wrap_term w <$> ts).
Proof. intros H. apply Forall_fmap. eapply Forall_impl; [exact H|]. done. Qed.
Lemma retype_spec s e t t' w :
  wf s → type_at s e = Some t → width t' = Some w →
  spec (retype e t') s (λ p s', (∃ ts, is_poly s' p t' ts) ∧
    ∀ ρ, den s' ρ p = den s ρ e + (if decide (t = t') then 0 else wrapw w (const_part s e) - const_part s e)).
Proof.
  intros Hwf Ht Hw. eapply spec_bind; [by apply asPoly_spec|]. cbn. intros p s1 Hwf1 Hx1 [(ts & Hp & Hc) Hd].
  eapply spec_ty_of; [exact Hp|]. cbn. destruct (decide (t = t')) as [->|Hne].
  { rewrite bool_decide_true by done. apply spec_ret; [done|]. split; [eauto|]. intros ρ. rewrite Hd. lia. }
  rewrite bool_decide_false by done. eapply spec_terms_of; [exact Hp|].
  destruct (poly_at _ _ _ _ Hwf1 Hp) as [Hn Hok]. unfold bind at 1. unfold spec at 1.
  rewrite (wrap_consts_eq _ _ _ _ Hw). fold (spec (mkPoly t' (wrap_term w <$> ts)) s1
    (λ p s', (∃ ts, is_poly s' p t' ts) ∧ ∀ ρ, den s' ρ p = den s ρ e + (wrapw w (const_part s e) - const_part s e))).
  eapply spec_mono; [apply mkPoly_spec; [done|by apply poly_ok_wrap]|].
  cbn. intros q s2 _ _ [Hq Hqd]. split; [eauto|]. intros ρ. rewrite Hqd.
  unfold pval. rewrite peval_wrap, Hc by done. fold (pval s1 ρ ts).
  by rewrite <- (den_poly _ _ _ _ _ Hwf1 Hp), Hd.
Qed.

(** ** Properties *)
Lemma intern_again s s' x e : wf s' → ext s s' → nodes s !! e = Some x → intern x s' = Some (e, s').
Proof.
  intros Hwf Hx He. pose proof (ext_node _ _ _ _ Hx He) as He'. unfold intern.
  destruct (find_index (ExprEq x) (nodes s')) as [k|] eqn:E.
  - apply find_index_Some in E as (y & Hy & ->%ExprEq_eq).
    by rewrite (NoDup_lookup _ _ _ _ (wf_nodup _ Hwf) Hy He').
  - apply find_index_None in E. rewrite Forall_forall in E.
    specialize (E x (list_elem_of_lookup_2 _ _ _ He')). by rewrite (proj2 (ExprEq_eq x x) eq_refl) in E.
Qed.

(** [C39] Hash consing: interning a well-formed node returns, keeps the arena well formed, and the
    pointer refers to that node.  From then on, in every later state of the arena, interning any
    node returns the same pointer exactly when it is the same node, field by field; interning the
    node again changes nothing, and the pointer keeps its meaning. *)
Theorem hash_consing s x (Hwf : wf s) (Hok : expr_ok s (length (nodes s)) x) :
  ∃ e s1, intern x s = Some (e, s1) ∧ wf s1 ∧ nodes s1 !! e = Some x ∧
  ∀ s2 y, wf s2 → ext s1 s2 → expr_ok s2 (length (nodes s2)) y →
  ∃ e' s3, intern y s2 = Some (e', s3) ∧ wf s3 ∧ nodes s3 !! e' = Some y ∧
    (e' = e ↔ y = x) ∧ (y = x → s3 = s2) ∧ ∀ ρ, den s3 ρ e = den s1 ρ e.
Proof.
  destruct (intern_spec s x Hwf Hok) as (e & s1 & Hi & Hwf1 & _ & He). exists e, s1. split_and!; try done.
  intros s2 y Hwf2 Hext Hoky. destruct (intern_spec s2 y Hwf2 Hoky) as (e' & s3 & Hi' & Hwf3 & Hext3 & He'). exists e', s3.
  pose proof (ext_node _ _ _ _ Hext3 (ext_node _ _ _ _ Hext He)) as Hx.
  split_and!; try done.
  - split; [intros ->; congruence|]. intros ->. by eapply NoDup_lookup; [apply (wf_nodup _ Hwf3)|..].
  - intros ->. rewrite (intern_again _ _ _ _ Hwf2 Hext He) in Hi'. congruence.
  - intros ρ. rewrite (den_ext s2 s3) by (done || (apply valid_lookup; eauto using ext_node)). apply den_ext; [done..|]. apply valid_lookup. eauto.
Qed.

(** [C25] Equal polynomials are equal pointers: two lists of terms of one type, in any order and
    with any repetition and cancellation, give the same expression exactly when every monomial has
    the same total coefficient in both. *)
Theorem polynomials_canonical s t ts1 ts2 e1 s1 e2 s2 (Hwf : wf s)
    (H1 : poly_ok s (length (nodes s)) ts1) (H2 : poly_ok s1 (length (nodes s1)) ts2)
    (E1 : mkPoly t ts1 s = Some (e1, s1)) (E2 : mkPoly t ts2 s1 = Some (e2, s2)) :
  e1 = e2 ↔ ∀ m, coef ts1 m = coef ts2 m.
Proof.
  destruct (mkPoly_spec s t ts1 Hwf H1) as (e1' & s1' & E & Hwf1 & _ & Hp1 & _).
  rewrite E1 in E. injection E as <- <-.
  destruct (mkPoly_spec s1 t ts2 Hwf1 H2) as (e2' & s2' & E & Hwf2 & Hx2 & Hp2 & _).
  rewrite E2 in E. injection E as <- <-.
  pose proof (ext_node _ _ _ _ Hx2 Hp1) as Hp1'. split.
  - intros <- m. unfold is_poly in *. rewrite Hp1' in Hp2. injection Hp2 as Hn.
    by rewrite <- (coef_normalise ts1), Hn, coef_normalise.
  - intros Hc. refine (NoDup_lookup _ _ _ _ (wf_nodup _ Hwf2) Hp1' _). rewrite Hp2. do 3 f_equal.
    apply normal_ext; [apply normalise_normal..|]. intros m. by rewrite !coef_normalise.
Qed.

(** Polynomial arithmetic is exact: on expressions of a well-formed arena [add], [sub],
    [mul] and [neg] return, leave a well-formed extension of the arena, and the result means the
    sum, difference, product and opposite of the operands, for every value of the symbols and
    every meaning of the opaque expressions; constants mean their two's complement reading. *)
Theorem arithmetic_sound s a b v t t' w (Hwf : wf s) (Ha : type_at s a = Some t)
    (Hb : type_at s b = Some t') (Hw : width t = Some w) (Hpos : 0 < w) :
  spec (add a b) s (λ e s', type_at s' e = Some t ∧ ∀ ρ, den s' ρ e = den s ρ a + den s ρ b) ∧
  spec (sub a b) s (λ e s', type_at s' e = Some t ∧ ∀ ρ, den s' ρ e = den s ρ a - den s ρ b) ∧
  spec (mul a b) s (λ e s', type_at s' e = Some t ∧ ∀ ρ, den s' ρ e = den s ρ a * den s ρ b) ∧
  spec (neg a) s (λ e s', type_at s' e = Some t ∧ ∀ ρ, den s' ρ e = - den s ρ a) ∧
  spec (mkInt t v) s (λ e s', type_at s' e = Some t ∧
    ∀ ρ, den s' ρ e = if 64 <=? w then v else sext w v).
Proof.
  assert (∀ (m : M EP) (d : Env → Z),
    spec m s (λ e s', (∃ ts, is_poly s' e t ts) ∧ ∀ ρ, den s' ρ e = d ρ) →
    spec m s (λ e s', type_at s' e = Some t ∧ ∀ ρ, den s' ρ e = d ρ)) as Hm.
  { intros m d H. eapply spec_mono; [exact H|]. cbn. intros e s' _ _ [[ts ?] ?]. eauto with mvcc_arena. }
  split_and!; try (apply Hm; [by eapply add_spec|by eapply sub_spec|by eapply mul_spec|by eapply neg_spec]).
  all: try apply Hm; eauto using add_spec, sub_spec, mul_spec, neg_spec.
  rewrite <- wrapw_sext by done. eapply spec_mono; [by apply mkInt_spec|]. cbn.
  intros e s' _ _ [? ?]. eauto with mvcc_arena.
Qed.

Lemma wf_arena0 : wf arena0.
Proof. split; try done; apply NoDup_nil_2. Qed.

(** ** Checking a concrete store *)
Definition expr_okb (s : Arena) (e : EP) (x : Expr) : bool :=
  forallb (λ c, Nat.ltb c e) (children (node x)) &&
  match node x with
  | NPoly ts =>
      canonical ts &&
      forallb (λ t : Term,
        forallb (λ a, match atoms s !! a with Some x => Nat.ltb x e | None => false end) t.1
        && bool_decide (t.1 = sort_mono t.1)) ts
  | NSym i => Nat.ltb i (length (symbols s))
  | NConst bw c =>
      match ty x with TInt w => (bw =? w) && (0 <? w) && (0 <=? c) && (c <? 2 ^ w) | _ => true end
  | _ => true
  end.
Definition wfb (s : Arena) : bool :=
  forallb (λ ix : nat * Expr, expr_okb s ix.1 ix.2) (imap pair (nodes s)) &&
  bool_decide (NoDup (nodes s)) &&
  forallb (λ e, Nat.ltb e (length (nodes s))) (atoms s) &&
  bool_decide (NoDup (atoms s)).
#[local] Arguments Nat.ltb : simpl never.
Lemma forallb_Forall' {A} (p : A → bool) (P : A → Prop) l :
  (∀ x, p x = true → P x) → forallb p l = true → Forall P l.
Proof. intros H. rewrite forallb_forall, Forall_forall. intros Hp x Hx. apply H, Hp, list_elem_of_In, Hx. Qed.
Lemma expr_okb_ok s e x : expr_okb s e x = true → expr_ok s e x.
Proof.
  unfold expr_okb, expr_ok. rewrite andb_true_iff. intros [Hc Hn]. split.
  { eapply forallb_Forall'; [|exact Hc]. cbn. intros c. by rewrite Nat.ltb_lt. }
  destruct (node x); try done.
  - intros w Hw. rewrite Hw in Hn. rewrite !andb_true_iff, Z.eqb_eq, Z.leb_le, !Z.ltb_lt in Hn. lia.
  - apply andb_true_iff in Hn as [Hcan Hp]. split; [by apply canonical_normal|].
    eapply forallb_Forall'; [|exact Hp]. intros t. cbn. rewrite andb_true_iff, bool_decide_eq_true.
    intros [Ha Hs]. split.
    + eapply forallb_Forall'; [|exact Ha]. intros a. cbn. destruct (atoms s !! a) as [y|] eqn:E; [|done].
      rewrite Nat.ltb_lt. intros ?. by exists y.
    + rewrite Hs. apply StronglySorted_merge_sort; [intros ???; lia|intros ??; lia].
  - apply lookup_lt_is_Some. by apply Nat.ltb_lt.
Qed.
(** used on the stores of the examples *)
Lemma wfb_wf s : wfb s = true → wf s.
Proof.
  unfold wfb. rewrite !andb_true_iff, !bool_decide_eq_true. intros [[[Hn Hd] Ha] Had]. split; [|done| |done].
  - intros e x He. apply expr_okb_ok. rewrite forallb_forall in Hn. apply (Hn (e, x)).
    apply list_elem_of_In. exact (elem_of_lookup_imap_2 pair _ _ _ He).
  - intros a e He. rewrite forallb_forall in Ha. apply Nat.ltb_lt, Ha, list_elem_of_In.
    by eapply list_elem_of_lookup_2.
Qed.
(** an arena with two integer arguments, x (expression 1) and y (expression 3) *)
Definition i32 : Ty := TInt 32.
Definition arg (n : nat) : Symbol := mkSymbol Arg n "" 0 0 i32.
Definition demo_args : M (EP * EP) := do x <- mkSym (arg 1); do y <- mkSym (arg 2); ret (x, y).
Definition state_of {A} (m : M A) (s : Arena) : Arena := match m s with Some (_, s') => s' | None => s end.
Definition demo : Arena := state_of demo_args arena0.
Ltac check_wf := apply wfb_wf; vm_compute; reflexivity.

(** ** The properties on concrete arenas *)
Lemma hash_consing_witness :
  ∃ e s1, intern (mkExpr i32 (NLoad 4 [1%nat])) demo = Some (e, s1) ∧ nodes s1 !! e = Some (mkExpr i32 (NLoad 4 [1%nat])) ∧
    ∃ e' s3, intern (mkExpr i32 (NLoad 8 [1%nat])) s1 = Some (e', s3) ∧ e' ≠ e.
Proof.
  assert (∀ s len, length (nodes s) = 4%nat ∨ length (nodes s) = 5%nat → expr_ok s (length (nodes s)) (mkExpr i32 (NLoad len [1%nat]))) as Hok.
  { intros s len Hl. split; [constructor; [destruct Hl as [-> | ->]; lia|constructor]|exact I]. }
  destruct (hash_consing demo (mkExpr i32 (NLoad 4 [1%nat]))) as (e & s1 & Hi & Hwf1 & He & Hlater).
  - check_wf.
  - apply Hok. by left.
  - exists e, s1. split; [exact Hi|]. split; [exact He|].
    assert (s1 = state_of (intern (mkExpr i32 (NLoad 4 [1%nat]))) demo) as Hs1 by (unfold state_of; by rewrite Hi).
    destruct (Hlater s1 (mkExpr i32 (NLoad 8 [1%nat]))) as (e' & s3 & Hi' & _ & _ & Hiff & _ & _).
    + exact Hwf1.
    + reflexivity.
    + apply Hok. right. rewrite Hs1. vm_compute. reflexivity.
    + exists e', s3. split; [exact Hi'|]. intros Heq%Hiff. discriminate.
Defined.
(** [1 x + 2 y + 3 x] and [2 y + 4 x] *)
Definition terms1 : list Term := [([0%nat], 1); ([1%nat], 2); ([0%nat], 3)].
Definition terms2 : list Term := [([1%nat], 2); ([0%nat], 4)].
Lemma demo_poly_ok ts :
  forallb (λ t : Term, match t.1 with [a] => Nat.ltb a 2 | _ => false end) ts = true →
  poly_ok demo (length (nodes demo)) ts.
Proof.
  apply forallb_Forall'. intros [[|[|[|a]] [|]] c] Ht; try discriminate.
  - split; [constructor; [exists 0%nat; split; [reflexivity|vm_compute; lia]|constructor]|repeat constructor].
  - split; [constructor; [exists 2%nat; split; [reflexivity|vm_compute; lia]|constructor]|repeat constructor].
Qed.
Lemma polynomials_canonical_witness :
  ∃ e s1, mkPoly i32 terms1 demo = Some (e, s1) ∧ (e = e ↔ ∀ m, coef terms1 m = coef terms2 m).
Proof.
  exists 4%nat, (state_of (mkPoly i32 terms1) demo). split; [vm_compute; reflexivity|].
  assert (state_of (mkPoly i32 terms1) demo = mkArena
    (nodes demo ++ [mkExpr i32 (NPoly [([0%nat], 4); ([1%nat], 2)])]) (symbols demo) (atoms demo) []) as E
    by (vm_compute; reflexivity).
  apply (polynomials_canonical demo i32 terms1 terms2 4 (state_of (mkPoly i32 terms1) demo) 4
    (state_of (mkPoly i32 terms1) demo)).
  - check_wf.
  - apply demo_poly_ok. vm_compute; reflexivity.
  - rewrite E. apply (poly_ok_ext demo _ (length (nodes demo))); [|vm_compute; lia|apply demo_poly_ok; vm_compute; reflexivity].
    split; cbn [nodes symbols atoms guardDefs]; try done. by apply prefix_app_r.
  - vm_compute; reflexivity.
  - vm_compute; reflexivity.
Defined.
(** x and y *)
Lemma arithmetic_sound_witness :
  ∃ e s', mul 1 3 demo = Some (e, s') ∧ ∀ ρ, den s' ρ e = den demo ρ 1 * den demo ρ 3.
Proof.
  assert (wf demo) as Hwf by check_wf.
  destruct (arithmetic_sound demo 1 3 7 i32 i32 32 Hwf eq_refl eq_refl eq_refl eq_refl)
    as (_ & _ & (e & s' & E & _ & _ & _ & H) & _).
  exists e, s'. split; [exact E|exact H].
Defined.
