(* ===== verification/ArenaCmp.v ===== *)
(** Comparisons of the expression arena (symexec.cpp, [Arena::cmp]): the canonical form of a
    comparison of polynomials, its soundness, and the inputs on which it does not terminate.

    What LLVM's [CmpInst] answers about predicates and [ICmpInst::compare] on constants are
    parameters with the language reference's meaning as laws. *)
From stdpp Require Import sorting.
From S2P Require Import Prelude Expr Arena ArenaSem.
Open Scope Z_scope.

(** [ICmpInst::compare] on [w]-bit constants given by their signed values, and the classification
    of predicates *)
Class CmpInst := {
  compare : Z → Z → Z → Pred → bool;
  getInversePredicate : Pred → Pred;
  getSwappedPredicate : Pred → Pred;
  isSigned : Pred → bool;
  isUnsigned : Pred → bool;
  isIntPredicate : Pred → bool;
  compare_spec w x y p r : icmp p w x y = Some r → compare w x y p = r;
  inverse_spec w x y p : icmp (getInversePredicate p) w x y = negb <$> icmp p w x y;
  swapped_spec w x y p : icmp (getSwappedPredicate p) w x y = icmp p w y x;
  swapped_class p : isUnsigned (getSwappedPredicate p) = isUnsigned p;
  isSigned_spec p : isSigned p = true ↔ p ∈ [ICMP_SGT; ICMP_SGE; ICMP_SLT; ICMP_SLE];
  isUnsigned_spec p : isUnsigned p = true ↔ p ∈ [ICMP_UGT; ICMP_UGE; ICMP_ULT; ICMP_ULE];
  isIntPredicate_spec w p : isIntPredicate p = true ↔ icmp p w 0 0 ≠ None }.

(** the documented tables, as an instance *)
Definition inverse_table (p : Pred) : Pred :=
  match p with
  | ICMP_EQ => ICMP_NE | ICMP_NE => ICMP_EQ | ICMP_UGT => ICMP_ULE | ICMP_ULE => ICMP_UGT
  | ICMP_UGE => ICMP_ULT | ICMP_ULT => ICMP_UGE | ICMP_SGT => ICMP_SLE | ICMP_SLE => ICMP_SGT
  | ICMP_SGE => ICMP_SLT | ICMP_SLT => ICMP_SGE
  | FCMP_OEQ => FCMP_UNE | FCMP_ONE => FCMP_UEQ | FCMP_OGT => FCMP_ULE | FCMP_OLT => FCMP_UGE
  | FCMP_OGE => FCMP_ULT | FCMP_OLE => FCMP_UGT | FCMP_UEQ => FCMP_ONE | FCMP_UNE => FCMP_OEQ
  | FCMP_UGT => FCMP_OLE | FCMP_ULT => FCMP_OGE | FCMP_UGE => FCMP_OLT | FCMP_ULE => FCMP_OGT
  | FCMP_ORD => FCMP_UNO | FCMP_UNO => FCMP_ORD | FCMP_TRUE => FCMP_FALSE | FCMP_FALSE => FCMP_TRUE
  end.
Definition swapped_table (p : Pred) : Pred :=
  match p with
  | ICMP_SGT => ICMP_SLT | ICMP_SLT => ICMP_SGT | ICMP_SGE => ICMP_SLE | ICMP_SLE => ICMP_SGE
  | ICMP_UGT => ICMP_ULT | ICMP_ULT => ICMP_UGT | ICMP_UGE => ICMP_ULE | ICMP_ULE => ICMP_UGE
  | FCMP_OGT => FCMP_OLT | FCMP_OLT => FCMP_OGT | FCMP_OGE => FCMP_OLE | FCMP_OLE => FCMP_OGE
  | FCMP_UGT => FCMP_ULT | FCMP_ULT => FCMP_UGT | FCMP_UGE => FCMP_ULE | FCMP_ULE => FCMP_UGE
  | p => p
  end.
#[export, refine] Instance CmpInst_tables : CmpInst := {|
  compare w x y p := match icmp p w x y with Some r => r | None => false end;
  getInversePredicate := inverse_table;
  getSwappedPredicate := swapped_table;
  isSigned p := bool_decide (p ∈ [ICMP_SGT; ICMP_SGE; ICMP_SLT; ICMP_SLE]);
  isUnsigned p := bool_decide (p ∈ [ICMP_UGT; ICMP_UGE; ICMP_ULT; ICMP_ULE]);
  isIntPredicate p := match icmp p 1 0 0 with Some _ => true | None => false end |}.
Proof.
  - intros w x y p r ->. done.
  - intros w x y []; cbn; try done; f_equal; rewrite ?negb_involutive; try done;
      try (apply eq_true_iff_eq; rewrite negb_true_iff, ?Z.leb_le, ?Z.ltb_lt, ?Z.leb_gt, ?Z.ltb_ge; lia).
  - intros w x y []; cbn; try done; f_equal; [|f_equal]; apply Z.eqb_sym.
  - by intros [].
  - intros p. apply bool_decide_eq_true.
  - intros p. apply bool_decide_eq_true.
  - by intros w [].
Defined.

Definition gets {A} (f : Arena → A) : M A := λ s, Some (f s, s).
Definition is_poly_node (n : Node) : bool := match n with NPoly _ => true | _ => false end.
Definition is_undef_node (n : Node) : bool := match n with NUndef => true | _ => false end.

(** C++ division rounds towards zero *)
Definition fdiv (x y : Z) : Z :=
  let q := Z.quot x y in
  if negb (Z.rem x y =? 0) && negb (Bool.eqb (x <? 0) (y <? 0)) then q - 1 else q.
Definition cdiv (x y : Z) : Z := - fdiv (- x) y.

(** the gcd of the non-constant coefficients, the constant, and whether the leading non-constant
    coefficient is negative *)
Fixpoint scan_terms (ts : list Term) (g c : Z) (lead : option bool) : Z * Z * option bool :=
  match ts with
  | [] => (g, c, lead)
  | (m, k) :: ts =>
      if is_const_mono m then scan_terms ts g k lead
      else scan_terms ts (if g =? 0 then Z.abs k else Z.gcd g (Z.abs k)) c
             (match lead with Some _ => lead | None => Some (k <? 0) end)
  end.
Definition reduced_terms (ts : list Term) (g : Z) (leadNeg : bool) : list Term :=
  (λ t : Term, (t.1, Z.quot (if leadNeg then - t.2 else t.2) g))
    <$> filter (λ t : Term, is_const_mono t.1 = false) ts.
(** the constant is appended, and popped again when it is zero *)
Definition push_const (et : list Term) (k : Z) : list Term := if k =? 0 then et else et ++ [([], k)].

Section cmp.
Context `{CmpInst}.

(** an integer or pointer operand is compared as a polynomial *)
Definition cmp_operand (e : EP) : M EP :=
  do x <- deref e;
  if ((isIntegerTy (ty x) && negb (isInt1 (ty x))) || isPointerTy (ty x))
     && negb (is_poly_node (node x)) && negb (is_undef_node (node x))
  then asPoly e else ret e.

(** [P > 0] or [P < 0], with the coefficients of [P] coprime and its leading one positive;
    [None] when the block falls through *)
Definition cmp_order (pred : Pred) (a b : EP) : M (option EP) :=
  do d <- (if bool_decide (pred = ICMP_SLT) then sub b a else sub a b);
  do dc <- gets (λ s, constInt s d);
  match dc with
  | Some dc => do r <- mkBool (0 <? dc); ret (Some r)
  | None =>
      do ts <- terms_of d;
      do t <- ty_of d;
      let '(g, c, lead) := scan_terms ts 0 0 None in
      let leadNeg := match lead with Some b => b | None => false end in
      if g =? 0 then ret None
      else
        let et := reduced_terms ts g leadNeg in
        let '(et, op) :=
          if negb leadNeg then (push_const et (- fdiv (- c) g), ICMP_SGT)
          else (push_const et (- cdiv c g), ICMP_SLT) in
        do p <- mkPoly t et;
        do z <- mkInt t 0;
        do r <- intern (mkExpr i1 (NCmp op [p; z]));
        ret (Some r)
  end.

Definition first_const (ts : list Term) : option Z :=
  snd <$> List.find (λ t : Term, is_const_mono t.1 && negb (t.2 =? 0)) ts.
Definition reflexive_pred (p : Pred) : option bool :=
  match p with
  | ICMP_EQ | ICMP_ULE | ICMP_SLE | ICMP_UGE | ICMP_SGE => Some true
  | ICMP_NE | ICMP_ULT | ICMP_SLT | ICMP_UGT | ICMP_SGT => Some false
  | _ => None
  end.
Definition cmp_tail (pred : Pred) (a b : EP) : M EP :=
  do xa <- deref a;
  match (if Nat.eqb a b && is_poly_node (node xa) then reflexive_pred pred else None) with
  | Some r => mkBool r
  | None => intern (mkExpr i1 (NCmp pred [a; b]))
  end.

(** one call of [cmp]; [rec] is the recursive call *)
Definition cmp_poly (rec : Pred → EP → EP → M EP) (pred : Pred) (a b : EP) (tb : list Term) : M EP :=
  do ta <- ty_of a;
  do tyb <- ty_of b;
  if bool_decide (pred = ICMP_SLE) then
    do one <- mkInt ta 1; do a' <- sub a one; rec ICMP_SLT a' b
  else if bool_decide (pred = ICMP_SGE) then
    do one <- mkInt ta 1; do a' <- add a one; rec ICMP_SGT a' b
  else
    do r <- (if bool_decide (pred = ICMP_SLT ∨ pred = ICMP_SGT) && negb (isPointerTy ta)
             then cmp_order pred a b else ret None);
    match r with
    | Some e => ret e
    | None =>
        match (if bool_decide (pred = ICMP_EQ ∨ pred = ICMP_NE) || isSigned pred
               then first_const tb else None) with
        | Some k => do c <- mkInt tyb k; do a' <- sub a c; do b' <- sub b c; rec pred a' b'
        | None => cmp_tail pred a b
        end
    end.
Definition cmp_body (rec : Pred → EP → EP → M EP) (pred : Pred) (a b : EP) : M EP :=
  do a <- cmp_operand a;
  do b <- cmp_operand b;
  do ca <- gets (λ s, constInt s a);
  do cb <- gets (λ s, constInt s b);
  match ca, cb with
  | Some ca, Some cb =>
      do t <- ty_of a;
      match width t with
      | Some w => mkBool (compare w (sext w ca) (sext w cb) pred)
      | None => stuck
      end
  | _, _ =>
      do xa <- deref a;
      do xb <- deref b;
      match node xa, node xb with
      | NPoly _, NPoly tb => cmp_poly rec pred a b tb
      | _, _ => cmp_tail pred a b
      end
  end.
(** [fuel] bounds the depth of the recursion; [cmp_fuel] is enough when the constants of the
    operands are in the range of their type (see [cmp_sound]) *)
Fixpoint cmp (fuel : nat) (pred : Pred) (a b : EP) : M EP :=
  match fuel with
  | O => stuck
  | S fuel => cmp_body (cmp fuel) pred a b
  end.
Definition cmp_fuel : nat := 3.
Lemma cmp_S n p a b : cmp (S n) p a b = cmp_body (cmp n) p a b.
Proof. done. Qed.
End cmp.

(** ** Helper facts on coefficients and constants *)
#[local] Arguments coef : simpl never.
Lemma coef_single c : coef [([], c)] [] = c.
Proof. unfold coef; cbn. rewrite bool_decide_true by done. lia. Qed.
Lemma coef_cons_proper a m c ts : coef ((a :: m, c) :: ts) [] = coef ts [].
Proof. unfold coef; cbn. rewrite bool_decide_false by done. done. Qed.
Lemma coef_neg ts m : coef (neg_terms ts) m = - coef ts m.
Proof.
  unfold neg_terms. induction ts as [|[k c] ts IH]; [done|]. rewrite fmap_cons. unfold coef in *; cbn in *.
  rewrite IH. case_bool_decide; lia.
Qed.
Lemma asPoly_poly s e t ts : is_poly s e t ts → asPoly e s = Some (e, s).
Proof. intros He. unfold asPoly, bind, deref. by rewrite He. Qed.
Lemma add_poly_spec s a b t t' ta tb :
  wf s → is_poly s a t ta → is_poly s b t' tb →
  spec (add a b) s (λ e s', (∃ ts, is_poly s' e t ts ∧ ∀ m, coef ts m = coef ta m + coef tb m)
    ∧ ∀ ρ, den s' ρ e = den s ρ a + den s ρ b).
Proof.
  intros Hwf Ha Hb.
  destruct (poly_at _ _ _ _ Hwf Ha) as [_ Hoa]. destruct (poly_at _ _ _ _ Hwf Hb) as [_ Hob].
  assert (add a b s = mkPoly t (ta ++ tb) s) as E.
  { unfold add, bind at 1. rewrite (asPoly_poly _ _ _ _ Ha). unfold bind at 1.
    rewrite (asPoly_poly _ _ _ _ Hb). unfold terms_of, ty_of, bind, deref. rewrite Ha; cbn. rewrite Hb; cbn. by rewrite Ha. }
  unfold spec. rewrite E. eapply spec_mono; [apply mkPoly_spec; auto with mvcc_arena|].
  cbn. intros e s' _ _ [He Hd]. split.
  - exists (normalise (ta ++ tb)). split; [done|]. intros m. by rewrite coef_normalise, coef_app.
  - intros ρ. rewrite Hd. unfold pval. rewrite peval_app. fold (pval s ρ ta) (pval s ρ tb).
    by rewrite <- (den_poly _ _ _ _ _ Hwf Ha), <- (den_poly _ _ _ _ _ Hwf Hb).
Qed.
Lemma neg_poly_spec s a t ta :
  wf s → is_poly s a t ta →
  spec (neg a) s (λ e s', (∃ ts, is_poly s' e t ts ∧ ∀ m, coef ts m = - coef ta m)
    ∧ ∀ ρ, den s' ρ e = - den s ρ a).
Proof.
  intros Hwf Ha. destruct (poly_at _ _ _ _ Hwf Ha) as [_ Hoa].
  assert (neg a s = mkPoly t (neg_terms ta) s) as E.
  { unfold neg, bind at 1. rewrite (asPoly_poly _ _ _ _ Ha). unfold terms_of, ty_of, bind, deref. rewrite Ha; cbn. by rewrite Ha. }
  unfold spec. rewrite E. eapply spec_mono; [apply mkPoly_spec; auto with mvcc_arena|].
  cbn. intros e s' _ _ [He Hd]. split.
  - exists (normalise (neg_terms ta)). split; [done|]. intros m. by rewrite coef_normalise, coef_neg.
  - intros ρ. rewrite Hd. unfold pval. rewrite peval_neg. fold (pval s ρ ta).
    by rewrite <- (den_poly _ _ _ _ _ Hwf Ha).
Qed.
Lemma is_poly_ext s s' e t ts : ext s s' → is_poly s e t ts → is_poly s' e t ts.
Proof. apply ext_node. Qed.
Lemma is_poly_valid s e t ts : is_poly s e t ts → valid s e.
Proof. intros He. apply valid_lookup. eauto. Qed.
#[export] Hint Resolve is_poly_ext is_poly_valid : mvcc_arena.
Lemma sub_poly_spec s a b t t' ta tb :
  wf s → is_poly s a t ta → is_poly s b t' tb →
  spec (sub a b) s (λ e s', (∃ ts, is_poly s' e t ts ∧ ∀ m, coef ts m = coef ta m - coef tb m)
    ∧ ∀ ρ, den s' ρ e = den s ρ a - den s ρ b).
Proof.
  intros Hwf Ha Hb. eapply spec_bind; [by eapply neg_poly_spec|].
  cbn. intros nb s1 Hwf1 Hx1 [(tn & Hn & Hcn) Hdn].
  eapply spec_mono; [eapply add_poly_spec; eauto with mvcc_arena|].
  cbn. intros e s2 _ _ [(ts & He & Hc) Hd]. split.
  - exists ts. split; [done|]. intros m. rewrite Hc, Hcn. lia.
  - intros ρ. rewrite Hd, Hdn, (den_ext s s1) by eauto with mvcc_arena. lia.
Qed.

(** a polynomial is not a constant when some proper monomial has a coefficient *)
Definition nonconst (ts : list Term) : Prop := ∃ m, m ≠ [] ∧ coef ts m ≠ 0.
Lemma constInt_nonconst t ts : normal ts → (constInt_node (mkExpr t (NPoly ts)) = None ↔ nonconst ts).
Proof.
  intros Hn. unfold nonconst. destruct ts as [|[m c] ts]; cbn.
  { split; [done|]. intros (m & _ & Hm). done. }
  destruct m as [|a m].
  - destruct ts as [|[m' c'] ts].
    + split; [done|]. intros (m & Hm & Hc). unfold coef in Hc; cbn in Hc. rewrite bool_decide_false in Hc by done. lia.
    + split; [|done]. intros _. exists m'. pose proof Hn as [Hs Hz].
      apply StronglySorted_inv in Hs as [_ Hall]. apply Forall_cons in Hall as [Hlt _].
      apply Forall_cons in Hz as [_ [Hz _]%Forall_cons]. unfold term_lt in Hlt; cbn in *.
      split; [by destruct m'|]. pose proof (coef_head _ _ _ (normal_tail _ _ Hn)) as E.
      unfold coef in *; cbn in *. rewrite bool_decide_false by (by destruct m'). lia.
  - split; [|done]. intros _. exists (a :: m). split; [done|]. rewrite (coef_head _ _ _ Hn).
    destruct Hn as [_ Hz]. by apply Forall_cons in Hz as [? _].
Qed.
Lemma constInt_poly s e t ts : is_poly s e t ts → constInt s e = constInt_node (mkExpr t (NPoly ts)).
Proof. unfold constInt. by intros ->. Qed.
Lemma first_const_None ts : normal ts → first_const ts = None ↔ coef ts [] = 0.
Proof.
  intros Hn. unfold first_const. induction ts as [|[m c] ts IH]; [done|]. cbn.
  pose proof Hn as [_ [Hz _]%Forall_cons]. cbn in Hz. destruct m as [|a m]; cbn.
  - rewrite (coef_head _ _ _ Hn). destruct (Z.eqb_spec c 0); naive_solver.
  - rewrite IH by eauto using normal_tail. by rewrite coef_cons_proper.
Qed.
Lemma first_const_Some ts k : normal ts → first_const ts = Some k → k = coef ts [].
Proof.
  intros Hn. unfold first_const. induction ts as [|[m c] ts IH]; [done|]. cbn. destruct m as [|a m]; cbn.
  - rewrite (coef_head _ _ _ Hn). pose proof Hn as [_ [Hz _]%Forall_cons]. cbn in Hz.
    destruct (Z.eqb_spec c 0); [done|]. cbn. congruence.
  - intros Hf. rewrite (IH (normal_tail _ _ Hn) Hf). by rewrite coef_cons_proper.
Qed.

(** *** The pieces of the canonical order *)
Lemma fdiv_floor x y : 0 < y → fdiv x y = x / y.
Proof.
  intros Hy. unfold fdiv. pose proof (Z.quot_rem x y ltac:(lia)) as E.
  rewrite (proj2 (Z.ltb_ge y 0)) by lia. destruct (Z.ltb_spec x 0) as [Hx|Hx]; cbn.
  - pose proof (Z.rem_bound_pos_neg x y ltac:(lia) ltac:(lia)).
    destruct (Z.eqb_spec (Z.rem x y) 0) as [E0|E0]; cbn;
      [apply (Z.div_unique _ _ _ 0)|apply (Z.div_unique _ _ _ (Z.rem x y + y))]; lia.
  - rewrite andb_false_r. apply Z.quot_div_nonneg; lia.
Qed.
Abbreviation nonconst_terms ts := (filter (λ t : Term, is_const_mono t.1 = false) ts).
Lemma scan_gcd ts g0 c0 l0 g c l :
  scan_terms ts g0 c0 l0 = (g, c, l) → 0 <= g0 → Forall (λ t : Term, t.2 ≠ 0) ts →
  (g | g0) ∧ 0 <= g ∧ Forall (λ t : Term, (g | t.2)) (nonconst_terms ts) ∧
  (g = 0 → g0 = 0 ∧ nonconst_terms ts = []).
Proof.
  revert g0 c0 l0. induction ts as [|[m k] ts IH]; intros g0 c0 l0 E Hg Hz; cbn in E.
  { injection E as <- _ _. split_and!; [done|done|constructor|done]. }
  rewrite filter_cons. apply Forall_cons in Hz as [Hk Hz]; cbn in *. destruct (is_const_mono m) eqn:Em; cbn.
  { rewrite decide_False by done. by eapply IH. }
  rewrite decide_True by done.
  destruct (IH _ _ _ E) as (Hd & Hg' & Hall & H0); [|done|].
  { destruct (g0 =? 0); [lia|]. apply Z.gcd_nonneg. }
  assert ((g | g0) ∧ (g | k)) as [H1 H2].
  { destruct (Z.eqb_spec g0 0) as [->|].
    - split; [apply Z.divide_0_r|]. by apply Z.divide_abs_r.
    - split; [by etrans; [exact Hd|apply Z.gcd_divide_l]|]. apply Z.divide_abs_r.
      etrans; [exact Hd|apply Z.gcd_divide_r]. }
  split_and!; [done|done|by constructor|]. intros ->. destruct (H0 eq_refl) as [E0 _]. exfalso.
  destruct (Z.eqb_spec g0 0); [lia|]. apply Z.gcd_eq_0_l in E0. lia.
Qed.
Lemma scan_const ts g0 c0 l0 g c l :
  scan_terms ts g0 c0 l0 = (g, c, l) → normal ts →
  c = if bool_decide (coef ts [] = 0) then c0 else coef ts [].
Proof.
  revert g0 c0 l0. induction ts as [|[m k] ts IH]; cbn; intros g0 c0 l0 E Hn; [by injection E as _ <- _|].
  destruct m as [|a m]; cbn in E.
  - pose proof Hn as [_ [Hk _]%Forall_cons]. cbn in Hk. rewrite (coef_head _ _ _ Hn), bool_decide_false by done.
    rewrite (IH _ _ _ E (normal_tail _ _ Hn)). rewrite bool_decide_true; [done|].
    destruct Hn as [Hs _]. apply StronglySorted_inv in Hs as [_ Hall]. by apply coef_below.
  - rewrite (IH _ _ _ E (normal_tail _ _ Hn)). by rewrite coef_cons_proper.
Qed.
Lemma peval_split v ts :
  normal ts → peval v ts = coef ts [] + peval v (nonconst_terms ts).
Proof.
  induction ts as [|[m k] ts IH]; intros Hn; [done|]. rewrite filter_cons.
  destruct m as [|a m]; cbn; [rewrite decide_False by done|rewrite decide_True by done].
  - rewrite (coef_head _ _ _ Hn), IH by eauto using normal_tail.
    destruct Hn as [Hs _]. apply StronglySorted_inv in Hs as [_ Hall]. rewrite (coef_below ts) by done. lia.
  - rewrite IH by eauto using normal_tail. rewrite coef_cons_proper. cbn. lia.
Qed.
Lemma peval_reduced v ts g b :
  g ≠ 0 → Forall (λ t : Term, (g | t.2)) (nonconst_terms ts) →
  g * peval v (reduced_terms ts g b) = (if b then -1 else 1) * peval v (nonconst_terms ts).
Proof.
  intros Hg. unfold reduced_terms. generalize (nonconst_terms ts) as l. intros l Hl.
  induction Hl as [|[m k] l [q Hq] _ IH]; [cbn; destruct b; lia|].
  rewrite fmap_cons. cbn in *. subst k. rewrite Z.mul_add_distr_l, IH. destruct b.
  - rewrite Z.quot_opp_l, Z.quot_mul by done. lia.
  - rewrite Z.quot_mul by done. lia.
Qed.
Lemma peval_push v et k : peval v (push_const et k) = peval v et + k.
Proof. unfold push_const. destruct (Z.eqb_spec k 0); [lia|]. rewrite peval_app. cbn. lia. Qed.
Lemma poly_ok_reduced s e ts g b : poly_ok s e ts → poly_ok s e (reduced_terms ts g b).
Proof.
  intros Hp. apply Forall_fmap, Forall_forall. intros t Ht. apply list_elem_of_filter in Ht as [_ Ht].
  unfold poly_ok in Hp. rewrite Forall_forall in Hp. cbn. by apply Hp.
Qed.
Lemma poly_ok_push s e et k : poly_ok s e et → poly_ok s e (push_const et k).
Proof. unfold push_const. destruct (k =? 0); auto with mvcc_arena. Qed.
(** [0 < g E + c], for [g > 0], is a comparison of [E] with a rounded quotient *)
Lemma order_up g E c : 0 < g → (0 < g * E + c ↔ 0 < E + - fdiv (- c) g).
Proof.
  intros Hg. rewrite fdiv_floor by done. pose proof (Z.div_mod (- c) g ltac:(lia)).
  pose proof (Z.mod_pos_bound (- c) g Hg). nia.
Qed.
Lemma order_down g E c : 0 < g → (0 < c - g * E ↔ E + - cdiv c g < 0).
Proof.
  intros Hg. unfold cdiv. rewrite fdiv_floor by done. pose proof (Z.div_mod (- c) g ltac:(lia)).
  pose proof (Z.mod_pos_bound (- c) g Hg). nia.
Qed.

(** ** Soundness of [cmp] *)
Section sound.
Context `{CmpInst}.
Context (w : Z) (t : Ty) (Hw : width t = Some w).

(** the literal means the comparison of the operands' values, wherever that is defined *)
Definition cmp_means (s : Arena) (pred : Pred) (a b : EP) (e : EP) (s' : Arena) : Prop :=
  type_at s' e = Some i1 ∧
  ∀ ρ r, icmp pred w (den s ρ a) (den s ρ b) = Some r → den s' ρ e = bval r.

Lemma gets_spec {A B} (f : Arena → A) (g : A → M B) s R : spec (g (f s)) s R → spec (bind (gets f) g) s R.
Proof. done. Qed.
Lemma den_cmp s ρ e p a b tb :
  wf s → nodes s !! e = Some (mkExpr i1 (NCmp p [a; b])) → type_at s a = Some tb → width tb = Some w →
  ∀ r, icmp p w (den s ρ a) (den s ρ b) = Some r → den s ρ e = bval r.
Proof.
  intros Hwf He Ha Hb r Hr. rewrite (den_unfold _ _ _ _ Hwf He). unfold eval_node; cbn -[icmp].
  rewrite Ha; cbn -[icmp]. by rewrite Hb, Hr.
Qed.
Lemma intern_cmp_spec s p a b :
  wf s → type_at s a = Some t → valid s b →
  spec (intern (mkExpr i1 (NCmp p [a; b]))) s (cmp_means s p a b).
Proof.
  intros Hwf Ha Hb. pose proof (type_at_valid _ _ _ Ha) as Hva.
  eapply spec_mono; [apply intern_leaf_spec; [done|]|].
  - split; [|done]. cbn. by repeat constructor.
  - cbn. intros e s' Hwf' Hx [Ht He]. split; [done|]. intros ρ r Hr.
    eapply den_cmp; eauto with mvcc_arena. by rewrite !(den_ext s s') by done.
Qed.
Lemma cmp_tail_spec s p a b :
  wf s → type_at s a = Some t → valid s b → spec (cmp_tail p a b) s (cmp_means s p a b).
Proof.
  intros Hwf Ha Hb. pose proof Ha as (xa & Hxa & _)%fmap_Some. eapply spec_deref; [exact Hxa|].
  destruct (if _ : bool then reflexive_pred p else None) as [r|] eqn:E; [|by apply intern_cmp_spec].
  destruct (Nat.eqb_spec a b) as [<-|]; [|done]. destruct (is_poly_node _); [|done].
  eapply spec_mono; [by apply mkBool_spec|]. cbn -[icmp]. intros e s' _ _ [He Hd]. split.
  { unfold type_at. by rewrite He. }
  intros ρ r' Hr. rewrite Hd. f_equal.
  destruct p; cbn in E, Hr; try discriminate; injection E as <-; injection Hr as <-;
    rewrite ?Z.eqb_refl, ?Z.leb_refl, ?Z.ltb_irrefl; done.
Qed.

Lemma cmp_order_spec s pred a b ta tb :
  wf s → is_poly s a t ta → is_poly s b t tb → pred = ICMP_SLT ∨ pred = ICMP_SGT →
  spec (cmp_order pred a b) s (λ o s', ∃ e, o = Some e ∧ cmp_means s pred a b e s').
Proof.
  intros Hwf Ha Hb Hp.
  assert (spec (if bool_decide (pred = ICMP_SLT) then sub b a else sub a b) s
    (λ d s', (∃ td, is_poly s' d t td) ∧
      ∀ ρ, icmp pred w (den s ρ a) (den s ρ b) = Some (0 <? den s' ρ d))) as Hd.
  { destruct Hp as [->| ->]; [rewrite bool_decide_true by done|rewrite bool_decide_false by done];
      (eapply spec_mono; [by eapply sub_poly_spec|]); cbn; intros d s' _ _ [(td & ? & _) Hd];
      (split; [eauto|]); intros ρ; rewrite Hd; f_equal; apply eq_true_iff_eq; rewrite !Z.ltb_lt; lia. }
  eapply spec_bind; [exact Hd|]. clear Hd. cbn -[icmp]. intros d s1 Hwf1 Hx1 [[td Htd] Hd].
  destruct (poly_at _ _ _ _ Hwf1 Htd) as [Hn Hok]. apply gets_spec.
  rewrite (constInt_poly _ _ _ _ Htd). destruct (constInt_node _) as [dc|] eqn:Ec.
  { eapply spec_bind; [by apply mkBool_spec|]. cbn -[icmp]. intros e s2 Hwf2 Hx2 [He Hde].
    apply spec_ret; [done|]. exists e. split; [done|]. split; [unfold type_at; by rewrite He|].
    intros ρ r. rewrite Hd, Hde. intros [= <-]. f_equal. f_equal.
    rewrite (den_poly _ _ _ _ _ Hwf1 Htd). unfold pval. unfold constInt_node in Ec; cbn in Ec.
    destruct td as [|[[|] c] [|]]; try done; injection Ec as <-; cbn; lia. }
  apply constInt_nonconst in Ec; [|done].
  eapply spec_terms_of; [exact Htd|]. eapply spec_ty_of; [exact Htd|]. cbn -[icmp].
  destruct (scan_terms td 0 0 None) as [[g c] lead] eqn:Es.
  destruct (scan_gcd _ _ _ _ _ _ _ Es) as (_ & Hg & Hdiv & H0); [lia|by destruct Hn|].
  pose proof (scan_const _ _ _ _ _ _ _ Es Hn) as Hc.
  assert (c = coef td []) as -> by (case_bool_decide; congruence). clear Hc.
  destruct (Z.eqb_spec g 0) as [->|Hg0].
  { exfalso. destruct (H0 eq_refl) as [_ Hnil]. destruct Ec as (m & Hm & Hcm). apply Hcm. clear -Hnil Hm.
    induction td as [|[k z] td IH]; [done|]. rewrite filter_cons in Hnil. destruct k as [|a k]; cbn in *.
    - rewrite decide_False in Hnil by done. unfold coef in *; cbn. rewrite bool_decide_false by done. by apply IH.
    - by rewrite decide_True in Hnil. }
  set (ln := match lead with Some b => b | None => false end).
  set (et := reduced_terms td g ln).
  set (c := coef td []).
  assert (∃ op k, (if negb ln then (push_const et (- fdiv (- c) g), ICMP_SGT)
                   else (push_const et (- cdiv c g), ICMP_SLT)) = (push_const et k, op) ∧
    ∀ v, icmp op w (peval v et + k) 0 = Some (0 <? peval v td)) as (op & k & -> & Hop).
  { assert (∀ v, g * peval v et = (if ln then -1 else 1) * (peval v td - c)) as Hred.
    { intros v. unfold et. rewrite peval_reduced, (peval_split v td) by done. unfold c. lia. }
    destruct ln; cbn; do 2 eexists; (split; [done|]); intros v; specialize (Hred v); cbn; f_equal;
      apply eq_true_iff_eq; rewrite !Z.ltb_lt.
    - rewrite <- order_down by lia. lia.
    - rewrite <- order_up by lia. lia. }
  eapply spec_bind; [apply mkPoly_spec; [done|]; apply poly_ok_push, poly_ok_reduced; done|].
  cbn -[icmp]. intros p s2 Hwf2 Hx2 [Hp2 Hdp].
  eapply spec_bind; [by eapply mkInt_spec|]. cbn -[icmp]. intros z s3 Hwf3 Hx3 [Hz Hdz].
  eapply spec_bind; [apply intern_cmp_spec; eauto with mvcc_arena|].
  cbn -[icmp]. intros e s4 Hwf4 Hx4 [He Hm]. apply spec_ret; [done|]. exists e. split; [done|].
  split; [done|]. intros ρ r. rewrite Hd. intros [= <-]. apply Hm.
  rewrite Hdz, wrapw_0, (den_ext s2 s3), Hdp by eauto with mvcc_arena.
  unfold pval. rewrite peval_push, Hop. by rewrite (den_poly _ _ _ _ _ Hwf1 Htd).
Qed.

(** *** The recursion *)
Lemma cmp_operand_poly s e te ts : is_poly s e te ts → cmp_operand e s = Some (e, s).
Proof. intros He. unfold cmp_operand, bind, deref. rewrite He; cbn. by rewrite andb_false_r. Qed.
Lemma cmp_body_poly rec p s a b ta tb :
  wf s → is_poly s a t ta → is_poly s b t tb → nonconst ta ∨ nonconst tb →
  cmp_body rec p a b s = cmp_poly rec p a b tb s.
Proof.
  intros Hwf Ha Hb Hnc. unfold cmp_body. unfold bind at 1. rewrite (cmp_operand_poly _ _ _ _ Ha).
  unfold bind at 1. rewrite (cmp_operand_poly _ _ _ _ Hb). unfold bind at 1, gets. unfold bind at 1.
  rewrite (constInt_poly _ _ _ _ Ha), (constInt_poly _ _ _ _ Hb).
  destruct (poly_at _ _ _ _ Hwf Ha) as [Hna _]. destruct (poly_at _ _ _ _ Hwf Hb) as [Hnb _].
  assert (constInt_node (mkExpr t (NPoly ta)) = None ∨ constInt_node (mkExpr t (NPoly tb)) = None) as Hc.
  { by rewrite !constInt_nonconst. }
  unfold bind, deref.
  destruct (constInt_node (mkExpr t (NPoly ta))), (constInt_node (mkExpr t (NPoly tb)));
    try (rewrite Ha; cbn; by rewrite Hb). by destruct Hc.
Qed.
Definition shift_invariant (p : Pred) : Prop :=
  p ∈ [ICMP_EQ; ICMP_NE; ICMP_SGT; ICMP_SGE; ICMP_SLT; ICMP_SLE].
Lemma icmp_shift p x y k : shift_invariant p → icmp p w (x - k) (y - k) = icmp p w x y.
Proof.
  unfold shift_invariant. rewrite !elem_of_cons, elem_of_nil.
  intros Hp. destruct_or! Hp; subst; cbn; f_equal; try apply (f_equal negb);
    apply eq_true_iff_eq; rewrite ?Z.eqb_eq, ?Z.ltb_lt, ?Z.leb_le; lia.
Qed.
Lemma shifts_spec p :
  bool_decide (p = ICMP_EQ ∨ p = ICMP_NE) || isSigned p = true → shift_invariant p.
Proof.
  unfold shift_invariant. rewrite orb_true_iff, bool_decide_eq_true, isSigned_spec. set_solver.
Qed.

Lemma cmp_poly_noconst rec p s a b ta tb :
  wf s → is_poly s a t ta → is_poly s b t tb → p ≠ ICMP_SLE → p ≠ ICMP_SGE → coef tb [] = 0 →
  spec (cmp_poly rec p a b tb) s (cmp_means s p a b).
Proof.
  intros Hwf Ha Hb H1 H2 Hc. eapply spec_ty_of; [exact Ha|]. eapply spec_ty_of; [exact Hb|]. cbn -[icmp].
  rewrite !bool_decide_false by done.
  destruct (_ && _) eqn:Eo.
  - apply andb_true_iff in Eo as [Ho%bool_decide_eq_true _].
    eapply spec_bind; [by eapply cmp_order_spec|]. cbn -[icmp]. intros o s1 Hwf1 Hx1 (e & -> & Hm).
    by apply spec_ret.
  - eapply spec_bind; [by apply (spec_ret _ _ (λ o _, o = None))|]. cbn -[icmp].
    intros o s1 Hwf1 Hx1 ->. destruct (poly_at _ _ _ _ Hwf Hb) as [Hn _].
    assert ((if bool_decide (p = ICMP_EQ ∨ p = ICMP_NE) || isSigned p then first_const tb else None) = None) as ->.
    { destruct (_ || _); [|done]. by apply first_const_None. }
    eapply spec_mono; [apply (cmp_tail_spec s1 p a b); eauto with mvcc_arena|].
    intros e s2 Hwf2 Hx2 [Ht Hm]. split; [done|]. intros ρ r Hr. apply Hm.
    by rewrite !(den_ext s s1) by eauto with mvcc_arena.
Qed.
Lemma cmp_poly_const n p s a b ta tb :
  wf s → is_poly s a t ta → is_poly s b t tb → nonconst ta ∨ nonconst tb → p ≠ ICMP_SLE → p ≠ ICMP_SGE →
  wrapw w (coef tb []) = coef tb [] →
  spec (cmp (S (S n)) p a b) s (cmp_means s p a b).
Proof.
  intros Hwf Ha Hb Hnc H1 H2 Hc. cbn [cmp]. unfold spec. rewrite (cmp_body_poly _ _ _ _ _ _ _ Hwf Ha Hb Hnc).
  destruct (decide (coef tb [] = 0)) as [E0|E0]; [by eapply cmp_poly_noconst|].
  eapply spec_ty_of; [exact Ha|]. eapply spec_ty_of; [exact Hb|]. cbn -[icmp cmp].
  rewrite !bool_decide_false by done.
  destruct (_ && _) eqn:Eo.
  { apply andb_true_iff in Eo as [Ho%bool_decide_eq_true _].
    eapply spec_bind; [by eapply cmp_order_spec|]. cbn -[icmp cmp]. intros o s1 Hwf1 Hx1 (e & -> & Hm).
    by apply spec_ret. }
  eapply spec_bind; [by apply (spec_ret _ _ (λ o s1, o = None ∧ s1 = s))|]. cbn -[icmp cmp].
  intros o s1 _ _ [-> ->]. destruct (poly_at _ _ _ _ Hwf Hb) as [Hn _].
  destruct (_ || _) eqn:Es; [|by apply cmp_tail_spec; eauto with mvcc_arena].
  destruct (first_const tb) as [k|] eqn:Ek; [|by apply first_const_None in Ek].
  apply first_const_Some in Ek as ->; [|done].
  eapply spec_bind; [by eapply mkInt_spec|]. cbn -[icmp cmp]. rewrite Hc. intros c s1 Hwf1 Hx1 [Hpc Hdc].
  eapply spec_bind; [eapply sub_poly_spec; eauto with mvcc_arena|].
  cbn -[icmp cmp]. intros a' s2 Hwf2 Hx2 [(ta' & Ha' & Hca) Hda].
  eapply spec_bind; [eapply (sub_poly_spec s2 b c); eauto with mvcc_arena|].
  cbn -[icmp cmp]. intros b' s3 Hwf3 Hx3 [(tb' & Hb' & Hcb) Hdb].
  assert (∀ m, m ≠ [] → coef (normalise [([], coef tb [])]) m = 0) as Hk.
  { intros m Hm. rewrite coef_normalise. unfold coef; cbn. by rewrite bool_decide_false. }
  assert (coef (normalise [([], coef tb [])]) [] = coef tb []) as Hk0.
  { by rewrite coef_normalise, coef_single. }
  pose proof (is_poly_ext _ _ _ _ _ Hx3 Ha') as Ha3.
  assert (nonconst ta' ∨ nonconst tb') as Hnc'.
  { destruct Hnc as [(m & Hm & ?)|(m & Hm & ?)]; [left|right]; exists m; (split; [done|]);
      rewrite ?Hca, ?Hcb, Hk by done; lia. }
  change (cmp_body (cmp n) p a' b') with (cmp (S n) p a' b'). cbn [cmp].
  unfold spec. rewrite (cmp_body_poly _ _ _ _ _ _ _ Hwf3 Ha3 Hb' Hnc').
  eapply spec_mono; [eapply cmp_poly_noconst; eauto; rewrite Hcb, Hk0; lia|].
  intros e s4 Hwf4 Hx4 [Ht Hm]. split; [done|]. intros ρ r Hr. apply Hm.
  rewrite (den_ext s2 s3), Hda, Hdb by eauto with mvcc_arena.
  rewrite (den_ext s1 s2 ρ c), Hdc by eauto with mvcc_arena.
  assert (ext s s2) by (by etrans).
  rewrite (den_ext s s1 ρ a), (den_ext s s2 ρ b) by eauto with mvcc_arena.
  rewrite icmp_shift by (by apply shifts_spec). done.
Qed.

Lemma wrapw_1 : 1 < w → wrapw w 1 = 1.
Proof.
  intros H1. rewrite wrapw_sext by lia. destruct (64 <=? w); [done|]. apply sext_id; [lia|].
  assert (2 ^ 1 <= 2 ^ (w - 1)) by (apply Z.pow_le_mono_r; lia). lia.
Qed.
Lemma cmp_poly_all n p s a b ta tb :
  1 < w → wf s → is_poly s a t ta → is_poly s b t tb → nonconst ta ∨ nonconst tb →
  wrapw w (coef tb []) = coef tb [] →
  spec (cmp (S (S (S n))) p a b) s (cmp_means s p a b).
Proof.
  intros H1 Hwf Ha Hb Hnc Hc.
  destruct (decide (p = ICMP_SLE ∨ p = ICMP_SGE)) as [Hp|Hp];
    [|by eapply cmp_poly_const; naive_solver].
  assert (∃ q, (p = ICMP_SLE ∧ q = ICMP_SLT ∨ p = ICMP_SGE ∧ q = ICMP_SGT)) as [q Hq] by naive_solver.
  assert (spec (bind (mkInt t 1) (λ one, bind (if bool_decide (p = ICMP_SLE) then sub a one else add a one)
    (λ a', cmp (S (S n)) q a' b))) s (cmp_means s p a b)) as Hs.
  { eapply spec_bind; [by eapply mkInt_spec|]. cbn -[icmp cmp]. rewrite wrapw_1 by done.
    intros c s1 Hwf1 Hx1 [Hpc Hdc].
    assert (spec (if bool_decide (p = ICMP_SLE) then sub a c else add a c) s1
      (λ a' s2, (∃ ta', is_poly s2 a' t ta' ∧ ∀ m, m ≠ [] → coef ta' m = coef ta m) ∧
        ∀ ρ y, icmp q w (den s2 ρ a') y = icmp p w (den s ρ a) y)) as Hs.
    { assert (∀ m, m ≠ [] → coef (normalise [([], 1)]) m = 0) as Hk.
      { intros m Hm. rewrite coef_normalise. unfold coef; cbn. by rewrite bool_decide_false. }
      destruct Hq as [[-> ->]|[-> ->]]; [rewrite bool_decide_true by done|rewrite bool_decide_false by done];
        (eapply spec_mono; [first [eapply sub_poly_spec|eapply add_poly_spec]; eauto with mvcc_arena|]);
        cbn -[icmp cmp]; intros a' s2 Hwf2 Hx2 [(ta' & ? & Hca) Hda];
        (split; [exists ta'; split; [done|]; intros m Hm; rewrite Hca, Hk by done; lia|]);
        intros ρ y; rewrite Hda, Hdc, (den_ext s s1) by eauto with mvcc_arena; cbn; f_equal;
        apply eq_true_iff_eq; rewrite Z.ltb_lt, Z.leb_le; lia. }
    eapply spec_bind; [exact Hs|]. clear Hs. cbn -[icmp cmp]. intros a' s2 Hwf2 Hx2 [(ta' & Ha' & Hca) Hda].
    assert (ext s s2) as Hx by (by etrans).
    eapply spec_mono; [eapply (cmp_poly_const n q s2 a' b ta' tb); eauto with mvcc_arena|].
    - destruct Hnc as [(m & Hm & ?)|?]; [left|by right]. exists m. split; [done|]. by rewrite Hca.
    - naive_solver.
    - naive_solver.
    - intros e s3 Hwf3 Hx3 [Ht Hm]. split; [done|]. intros ρ r Hr. apply Hm.
      rewrite Hda, (den_ext s s2 ρ b) by eauto with mvcc_arena. done. }
  cbn [cmp]. unfold spec. rewrite (cmp_body_poly _ _ _ _ _ _ _ Hwf Ha Hb Hnc).
  eapply spec_ty_of; [exact Ha|]. eapply spec_ty_of; [exact Hb|].
  destruct Hq as [[-> ->]|[-> ->]]; exact Hs.
Qed.
(** a constant that its type can hold *)
Definition fits (k : Z) : Prop := wrapw w k = k.
Definition in_range (v : Z) : Prop := - 2 ^ (w - 1) <= v < 2 ^ (w - 1).
Definition operand_ok (s' : Arena) (e' : EP) (k : Z) : Prop :=
  (∃ ts, is_poly s' e' t ts ∧ coef ts [] = k) ∨ nodes s' !! e' = Some (mkExpr t NUndef).
Lemma cmp_operand_spec s e :
  1 < w → wf s → type_at s e = Some t →
  spec (cmp_operand e) s (λ e' s', operand_ok s' e' (const_part s e) ∧ ∀ ρ, den s' ρ e' = den s ρ e).
Proof.
  intros H1 Hwf Ht. pose proof Ht as ([t' n] & Hx & Et)%fmap_Some. cbn in Et; subst t'.
  eapply spec_deref; [exact Hx|]. cbn.
  assert ((isIntegerTy t && negb (isInt1 t)) || isPointerTy t = true) as ->.
  { destruct t; try done. cbn in *. injection Hw as ->. rewrite orb_false_r. unfold isInt1, i1.
    rewrite bool_decide_false; [done|]. intros [= ->]. lia. }
  cbn. destruct (negb (is_poly_node n) && negb (is_undef_node n)) eqn:En.
  - eapply spec_mono; [by apply asPoly_spec|]. cbn. intros p s' _ _ [(ts & ? & ?) Hd].
    split; [left; eauto|done].
  - apply spec_ret; [done|]. split; [|done]. unfold const_part. rewrite Hx.
    destruct n; try done; [left; by eexists|by right].
Qed.
Lemma constInt_den s ρ e z : wf s → type_at s e = Some t → constInt s e = Some z → den s ρ e = z.
Proof.
  intros Hwf Ht Hz. pose proof Ht as ([t' n] & Hx & Et)%fmap_Some. cbn in Et; subst t'.
  unfold constInt in Hz. rewrite Hx in Hz. cbn in Hz. rewrite (den_unfold _ _ _ _ Hwf Hx).
  unfold eval_node, constInt_node in *; cbn in *. destruct n as [bw c|ts| | | | | | | | |]; try done.
  - destruct (isIntegerTy t); [|done]. by injection Hz.
  - destruct ts as [|[[|] c] [|]]; try done; injection Hz as <-; cbn; lia.
Qed.
Lemma operand_ok_ext s s' e k : ext s s' → operand_ok s e k → operand_ok s' e k.
Proof.
  intros Hx [(ts & ? & ?)|Hu]; [left; eauto with mvcc_arena|right]. by eapply ext_node.
Qed.
Lemma operand_type s e k : operand_ok s e k → type_at s e = Some t.
Proof. intros [(ts & ? & ?)|Hu]; [by eapply is_poly_type|unfold type_at; by rewrite Hu]. Qed.
Lemma const_part_ext s s' e : ext s s' → valid s e → const_part s' e = const_part s e.
Proof. intros Hx [x He]%valid_lookup. unfold const_part. by rewrite He, (ext_node _ _ _ _ Hx He). Qed.
End sound.

(** The value of a comparison the arena builds. *)
Lemma cmp_value `{CmpInst} s pred a b t w (Hwf : wf s) (Ha : type_at s a = Some t)
    (Hb : type_at s b = Some t) (Hw : width t = Some w) (H1 : 1 < w) (Hfit : fits w (const_part s b)) :
  spec (cmp cmp_fuel pred a b) s (λ e s', type_at s' e = Some i1 ∧
    ∀ ρ r, in_range w (den s ρ a) → in_range w (den s ρ b) →
      icmp pred w (den s ρ a) (den s ρ b) = Some r → den s' ρ e = bval r).
Proof.
  eapply spec_bind; [by eapply cmp_operand_spec|]. cbn -[icmp cmp]. intros pa s1 Hwf1 Hx1 [Hoa Hda].
  eapply spec_bind; [eapply (cmp_operand_spec w t Hw s1 b); eauto with mvcc_arena|].
  cbn -[icmp cmp]. intros pb s2 Hwf2 Hx2 [Hob Hdb].
  rewrite (const_part_ext s s1) in Hob by eauto with mvcc_arena.
  pose proof (operand_type _ _ _ _ Hoa) as Hta1. apply (operand_ok_ext _ _ _ _ _ Hx2) in Hoa.
  pose proof (operand_type _ _ _ _ Hoa) as Hta. pose proof (operand_type _ _ _ _ Hob) as Htb.
  assert (∀ ρ, den s2 ρ pa = den s ρ a) as Hda2.
  { intros ρ. rewrite <- Hda. apply den_ext; eauto with mvcc_arena. }
  assert (∀ ρ, den s2 ρ pb = den s ρ b) as Hdb2.
  { intros ρ. rewrite Hdb. apply den_ext; eauto with mvcc_arena. }
  assert (∀ e s', cmp_means w s2 pred pa pb e s' → type_at s' e = Some i1 ∧
    ∀ ρ r, in_range w (den s ρ a) → in_range w (den s ρ b) →
      icmp pred w (den s ρ a) (den s ρ b) = Some r → den s' ρ e = bval r) as Hpost.
  { intros e s' [Ht Hm]. split; [done|]. intros ρ r _ _ Hr. apply Hm. by rewrite Hda2, Hdb2. }
  apply gets_spec, gets_spec.
  assert (constInt s2 pa = None ∨ constInt s2 pb = None →
    spec (do xa <- deref pa; do xb <- deref pb;
          match node xa, node xb with
          | NPoly _, NPoly tb => cmp_poly (cmp 2) pred pa pb tb
          | _, _ => cmp_tail pred pa pb
          end) s2 (cmp_means w s2 pred pa pb)) as Hrest.
  { intros Hnc. pose proof Hta as ([ta' na] & Hpa & Eta)%fmap_Some. cbn in Eta; subst ta'.
    pose proof Htb as ([tb' nb] & Hpb & Etb)%fmap_Some. cbn in Etb; subst tb'.
    eapply spec_deref; [exact Hpa|]. eapply spec_deref; [exact Hpb|]. cbn -[icmp cmp].
    assert (spec (cmp_tail pred pa pb) s2 (cmp_means w s2 pred pa pb)) as Htail
      by (apply (cmp_tail_spec w t Hw); eauto with mvcc_arena).
    destruct na as [|ta| | | | | | | | |]; try exact Htail.
    destruct nb as [|tb| | | | | | | | |]; try exact Htail.
    destruct Hob as [(tb' & Hpb' & Hcb)|Hu]; [|congruence]. unfold is_poly in Hpb'.
    assert (tb' = tb) as -> by congruence.
    destruct (poly_at _ _ _ _ Hwf2 Hpa) as [Hna _]. destruct (poly_at _ _ _ _ Hwf2 Hpb) as [Hnb _].
    rewrite (constInt_poly _ _ _ _ Hpa), (constInt_poly _ _ _ _ Hpb), !constInt_nonconst in Hnc by done.
    destruct (cmp_poly_all w t Hw 0 pred s2 pa pb ta tb) as (e & s' & E & Hs); [done..|by rewrite Hcb|].
    rewrite cmp_S, (cmp_body_poly t _ _ _ _ _ ta tb) in E by done. by exists e, s'. }
  destruct (constInt s2 pa) as [ca|] eqn:Eca; [destruct (constInt s2 pb) as [cb|] eqn:Ecb|];
    [|eapply spec_mono; [apply Hrest; auto|]; intros e s' _ _; apply Hpost..].
  pose proof Hta as (xa & Hpa & Et)%fmap_Some. eapply spec_ty_of; [exact Hpa|]. rewrite <- Et, Hw.
  eapply spec_mono; [by apply mkBool_spec|]. cbn -[icmp cmp]. intros e s' _ _ [He Hd].
  split; [unfold type_at; by rewrite He|]. intros ρ r Hra Hrb Hr. rewrite Hd. f_equal.
  rewrite <- Hda2, <- Hdb2 in *.
  rewrite (constInt_den t s2 ρ pa ca Hwf2 Hta Eca), (constInt_den t s2 ρ pb cb Hwf2 Htb Ecb) in *.
  rewrite !sext_id by (done || lia). by apply compare_spec.
Qed.
(** [C13] A comparison built by the arena is sound: for operands of one integer type wider than one
    bit (or a pointer type) and a right operand whose constant term its type can hold, [cmp]
    terminates within three calls and the condition it returns - folded, or rewritten to the
    canonical [P > 0], [P < 0] form with coprime coefficients - has the value of the comparison
    for every value of the symbols that keeps the operands in the range of their type. *)
Theorem cmp_sound `{CmpInst} s pred a b t w (Hwf : wf s) (Ha : type_at s a = Some t)
    (Hb : type_at s b = Some t) (Hw : width t = Some w) (H1 : 1 < w) (Hfit : fits w (const_part s b)) :
  spec (cmp cmp_fuel pred a b) s (λ e s', type_at s' e = Some i1 ∧
    ∀ ρ r, in_range w (den s ρ a) → in_range w (den s ρ b) →
      icmp pred w (den s ρ a) (den s ρ b) = Some r → den s' ρ e = bval r).
Proof. by eapply cmp_value. Qed.

(** ** Where [cmp] does not terminate
    Polynomial constants are not reduced to their type ([add] and [mul] do not wrap), but the
    constant moved to the left is built with [mkInt], which wraps. *)
Lemma bind_eq {A B} (m : M A) (f : A → M B) s r s' : m s = Some (r, s') → bind m f s = f r s'.
Proof. unfold bind. by intros ->. Qed.
Lemma wrapw_rest w k : 0 < w → wrapw w k ≠ k → wrapw w (k - wrapw w k) ≠ k - wrapw w k.
Proof.
  intros Hw Hk. rewrite !wrapw_sext in * by done. destruct (64 <=? w); [done|].
  assert (sext w (k - sext w k) = 0) as ->; [|lia].
  unfold sext at 1. rewrite Zminus_mod, sext_mod, Z.sub_diag, Z.mod_0_l by lia.
  destruct (Z.ltb_spec 0 (2 ^ (w - 1))); [done|]. pose proof (Z.pow_pos_nonneg 2 (w - 1)). lia.
Qed.

(** An equality or inequality of integers whose right operand's constant term exceeds its
    type never returns: the constant that is subtracted from both sides is the wrapped one, so a
    multiple of 2^w stays on the right, and the next call subtracts zero. No fuel is enough (the
    source overflows its stack). *)
Theorem cmp_diverges `{CmpInst} w pred n s a b ta tb (Hwf : wf s) (Hw : 0 < w)
    (Ha : is_poly s a (TInt w) ta) (Hb : is_poly s b (TInt w) tb) (Hnc : nonconst ta ∨ nonconst tb)
    (Hp : pred = ICMP_EQ ∨ pred = ICMP_NE) (Hk : ¬ fits w (coef tb [])) :
  cmp n pred a b s = None.
Proof.
  revert s a b ta tb Hwf Ha Hb Hnc Hk. induction n as [|n IH]; intros s a b ta tb Hwf Ha Hb Hnc Hk; [done|].
  rewrite cmp_S, (cmp_body_poly (TInt w) _ _ _ _ _ ta tb) by done. unfold cmp_poly.
  rewrite (bind_eq (ty_of a) _ s (TInt w) s), (bind_eq (ty_of b) _ s (TInt w) s)
    by (unfold ty_of, bind, deref; by rewrite ?Ha, ?Hb).
  assert (bool_decide (pred = ICMP_SLE) = false ∧ bool_decide (pred = ICMP_SGE) = false ∧
    bool_decide (pred = ICMP_SLT ∨ pred = ICMP_SGT) = false ∧
    bool_decide (pred = ICMP_EQ ∨ pred = ICMP_NE) = true) as (-> & -> & -> & ->).
  { rewrite !bool_decide_eq_false, bool_decide_eq_true. naive_solver. }
  cbn [andb orb]. rewrite (bind_eq (ret None) _ s None s) by done.
  destruct (poly_at _ _ _ _ Hwf Hb) as [Hn _].
  destruct (first_const tb) as [k|] eqn:Ek.
  2: { apply first_const_None in Ek; [|done]. exfalso. apply Hk. unfold fits. by rewrite Ek, wrapw_0. }
  apply first_const_Some in Ek as ->; [|done].
  destruct (mkInt_spec s (TInt w) w (coef tb []) Hwf eq_refl) as (c & s1 & E1 & Hwf1 & Hx1 & Hpc & _).
  rewrite (bind_eq _ _ _ _ _ E1).
  destruct (sub_poly_spec s1 a c (TInt w) (TInt w) ta _ Hwf1 (is_poly_ext _ _ _ _ _ Hx1 Ha) Hpc)
    as (a' & s2 & E2 & Hwf2 & Hx2 & (ta' & Ha' & Hca) & _).
  rewrite (bind_eq _ _ _ _ _ E2). assert (ext s s2) as Hx by (by etrans).
  destruct (sub_poly_spec s2 b c (TInt w) (TInt w) tb _ Hwf2 (is_poly_ext _ _ _ _ _ Hx Hb)
    (is_poly_ext _ _ _ _ _ Hx2 Hpc)) as (b' & s3 & E3 & Hwf3 & Hx3 & (tb' & Hb' & Hcb) & _).
  rewrite (bind_eq _ _ _ _ _ E3). apply (IH s3 a' b' ta' tb'); [done|by eapply is_poly_ext|done| |].
  - destruct Hnc as [(m & Hm & ?)|(m & Hm & ?)]; [left|right]; exists m; (split; [done|]);
      rewrite ?Hca, ?Hcb, coef_normalise; unfold coef at 2; cbn; rewrite bool_decide_false by done; lia.
  - unfold fits in *. rewrite Hcb, coef_normalise, coef_single. by apply wrapw_rest.
Qed.

(** ** The properties on concrete arenas *)
Lemma cmp_sound_witness :
  ∃ e s', cmp cmp_fuel ICMP_SGE 1 3 demo = Some (e, s') ∧
    ∀ ρ, in_range 32 (den demo ρ 1) → in_range 32 (den demo ρ 3) →
      den s' ρ e = bval (den demo ρ 3 <=? den demo ρ 1).
Proof.
  assert (wf demo) as Hwf by check_wf.
  destruct (cmp_sound demo ICMP_SGE 1 3 i32 32 Hwf eq_refl eq_refl eq_refl eq_refl ltac:(vm_compute; reflexivity))
    as (e & s' & E & _ & _ & _ & H).
  exists e, s'. split; [exact E|]. intros ρ Ha Hb. by apply H.
Defined.
(** y + 2^31 as an expression of [i32] (expression 4) *)
Definition demo_over : Arena := state_of (mkPoly i32 [([], 2 ^ 31); ([1%nat], 1)]) demo.
Lemma cmp_diverges_witness : cmp 1000 ICMP_EQ 1 4 demo_over = None.
Proof.
  apply (cmp_diverges 32 ICMP_EQ 1000 demo_over 1 4 [([0%nat], 1)] [([], 2 ^ 31); ([1%nat], 1)]).
  - check_wf.
  - reflexivity.
  - vm_compute; reflexivity.
  - vm_compute; reflexivity.
  - left. exists [0%nat]. split; [discriminate|vm_compute; discriminate].
  - by left.
  - vm_compute; discriminate.
Defined.
