(* ===== verification/ArenaLits.v ===== *)
(** Reasoning on the literals of a path condition (symexec.cpp, [Arena::conjuncts], [litImplies],
    [decideLit], [contradictory]): the bounds that comparisons of one polynomial put on it, what
    they decide about another comparison, and when a conjunction has no integer solution. *)
From stdpp Require Import sorting.
From S2P Require Import Prelude Cstd Expr Arena ArenaSem ArenaCmp.
Open Scope Z_scope.

(** ** Literals *)
Definition isBoolOp (op : Opcode) (x : Expr) : option (EP * EP) :=
  match x with
  | mkExpr t (NOp o [a; b]) => if bool_decide (o = op) && isInt1 t then Some (a, b) else None
  | _ => None
  end.
(** the operands of a conjunction are created before it, so [S c] levels are enough *)
Fixpoint conjuncts_fuel (n : nat) (s : Arena) (c : EP) : list EP :=
  match n with
  | O => []
  | S n =>
      match nodes s !! c ≫= isBoolOp And with
      | Some (a, b) => conjuncts_fuel n s a ++ conjuncts_fuel n s b
      | None => if isTrue s c then [] else [c]
      end
  end.
Definition conjuncts (s : Arena) (c : EP) : list EP := conjuncts_fuel (S c) s c.

(** a comparison: predicate, left and right operand *)
Definition literal (s : Arena) (e : EP) : option (Pred * EP * EP) :=
  match nodes s !! e with Some (mkExpr _ (NCmp p [a; b])) => Some (p, a, b) | _ => None end.
Definition poly_of (s : Arena) (e : EP) : option (Ty * list Term) :=
  match nodes s !! e with Some (mkExpr t (NPoly ts)) => Some (t, ts) | _ => None end.

(** a polynomial without its constant, and the constant *)
Definition split_const (ts : list Term) : list Term * Z :=
  (filter (λ t : Term, is_const_mono t.1 = false) ts,
   fold_left (λ c (t : Term), if is_const_mono t.1 then t.2 else c) ts 0).
Definition zeroC (s : Arena) (e : EP) : bool :=
  match constInt s e with Some z => z =? 0 | None => false end.

(** [__int128] sentinels *)
Definition int128_min : Z := - 2 ^ 127.
Definition int128_max : Z := 2 ^ 127 - 1.
Definition no_lo : Z := Z.quot int128_min 4.
Definition no_hi : Z := Z.quot int128_max 4.
Definition b2z (b : bool) : Z := if b then 1 else 0.

(** ** What facts decide about a literal *)
Definition fact_step (s : Arena) (tl : Ty) (pl : list Term) (rhs : option EP) (rhsZero : bool)
    (acc : Z * Z * bool) (f : EP) : Z * Z * bool :=
  let '(lo, hi, any) := acc in
  match literal s f with
  | Some (opf, af, bf) =>
      match poly_of s af with
      | Some (tf, tsf) =>
          if negb (bool_decide (tf = tl)) then acc else
          let '(pf, cf) := split_const tsf in
          if negb (bool_decide (pf = pl)) then acc else
          let fZero := zeroC s bf in
          if rhsZero && negb fZero then
            match constInt s bf with
            | Some fC =>
                if negb (bool_decide (opf = ICMP_ULT ∨ opf = ICMP_ULE)) || (fC <? 0) then acc
                else (Z.max lo (- cf), Z.min hi (fC - cf - b2z (bool_decide (opf = ICMP_ULT))), true)
            | None => acc
            end
          else if match rhs with Some r => negb (Nat.eqb bf r) | None => negb fZero end then acc
          else
            let op := if fZero && bool_decide (opf = ICMP_ULE) then ICMP_EQ
                      else if fZero && bool_decide (opf = ICMP_UGT) then ICMP_NE else opf in
            match op with
            | ICMP_SGT => (Z.max lo (- cf + 1), hi, true)
            | ICMP_SGE => (Z.max lo (- cf), hi, true)
            | ICMP_SLT => (lo, Z.min hi (- cf - 1), true)
            | ICMP_SLE => (lo, Z.min hi (- cf), true)
            | ICMP_EQ => (Z.max lo (- cf), Z.min hi (- cf), true)
            | _ => acc
            end
      | None => acc
      end
  | None => acc
  end.

Definition decide2 (yes no : bool) : option bool :=
  if yes then Some true else if no then Some false else None.
Definition decide2' (no yes : bool) : option bool :=
  if no then Some false else if yes then Some true else None.
(** an unsigned order against the constant [uC], the signed value of the left side in
    [[vlo, vhi]] *)
Definition decide_unsigned (op : Pred) (uC vlo vhi : Z) : option bool :=
  let '(ltTrue, ltFalse, leTrue, leFalse) :=
    if 0 <=? uC
    then ((0 <=? vlo) && (vhi <? uC), (uC <=? vlo) || (vhi <? 0),
          (0 <=? vlo) && (vhi <=? uC), (uC <? vlo) || (vhi <? 0))
    else ((0 <=? vlo) || (vhi <? uC), (uC <=? vlo) && (vhi <? 0),
          (0 <=? vlo) || (vhi <=? uC), (uC <? vlo) && (vhi <? 0)) in
  match op with
  | ICMP_ULT => decide2 ltTrue ltFalse
  | ICMP_UGE => decide2' ltTrue ltFalse
  | ICMP_ULE => decide2 leTrue leFalse
  | ICMP_UGT => decide2' leTrue leFalse
  | _ => None
  end.
(** a signed order or (in)equality with zero *)
Definition decide_signed (op : Pred) (vlo vhi : Z) : option bool :=
  match op with
  | ICMP_SGT => decide2 (0 <? vlo) (vhi <=? 0)
  | ICMP_SGE => decide2 (0 <=? vlo) (vhi <? 0)
  | ICMP_SLT => decide2 (vhi <? 0) (0 <=? vlo)
  | ICMP_SLE => decide2 (vhi <=? 0) (0 <? vlo)
  | ICMP_EQ => if vlo =? vhi then Some (vlo =? 0) else decide2 false ((0 <? vlo) || (vhi <? 0))
  | ICMP_NE => if vlo =? vhi then Some (negb (vlo =? 0)) else decide2 ((0 <? vlo) || (vhi <? 0)) false
  | _ => None
  end.

Section lits.
Context `{CmpInst}.
(** [decideLit l facts out]: [Some out] when it returns true *)
Definition decideLit (s : Arena) (l : EP) (facts : list EP) : option bool :=
  match literal s l with
  | Some (opl, al, bl) =>
      if zeroC s bl && bool_decide (opl = ICMP_UGE) then Some true
      else if zeroC s bl && bool_decide (opl = ICMP_ULT) then Some false
      else
      match poly_of s al with
      | Some (tl, tsl) =>
          let '(pl, cl) := split_const tsl in
          let uns := isUnsigned opl in
          let uC := constInt s bl in
          if uns && bool_decide (uC = None) then None
          else
            let rhs := if uns then None else Some bl in
            let rhsZero := match rhs with Some r => zeroC s r | None => true end in
            let '(lo, hi, any) :=
              fold_left (fact_step s tl pl rhs rhsZero) facts (no_lo, no_hi, false) in
            if negb any then None
            else if uns then decide_unsigned opl (default 0 uC) (lo + cl) (hi + cl)
            else decide_signed opl (lo + cl) (hi + cl)
      | None => None
      end
  | None => None
  end.

Definition lower (p : Pred) : bool := bool_decide (p = ICMP_SGT ∨ p = ICMP_SGE).
Definition upper (p : Pred) : bool := bool_decide (p = ICMP_SLT ∨ p = ICMP_SLE).
(** the constants of two polynomials that differ in their constants only; [fuel] is the number of
    terms *)
Fixpoint lhs_diff (fuel : nat) (tx ty : list Term) (cx cy : Z) : option (Z * Z) :=
  match tx, ty with
  | [], [] => Some (cx, cy)
  | _, _ =>
      match fuel with
      | O => None
      | S fuel =>
          match tx with
          | ([], c) :: tx => lhs_diff fuel tx ty c cy
          | _ =>
              match ty with
              | ([], c) :: ty => lhs_diff fuel tx ty cx c
              | _ =>
                  match tx, ty with
                  | x :: tx, y :: ty => if bool_decide (x = y) then lhs_diff fuel tx ty cx cy else None
                  | _, _ => None
                  end
              end
          end
      end
  end.
(** [semantic] is the arena's flag of that name *)
Definition litImplies (semantic : bool) (s : Arena) (x y : EP) : bool :=
  if Nat.eqb x y then true
  else
  match literal s x, literal s y with
  | Some (px, ax, bx), Some (py, ay, by_) =>
      if negb (Nat.eqb bx by_) then false
      else if negb ((lower px && lower py) || (upper px && upper py)) then
        semantic && bool_decide (py = ICMP_NE ∨ py = ICMP_EQ)
        && bool_decide (decideLit s y [x] = Some true)
      else
        match poly_of s ax, poly_of s ay with
        | Some (tyx, tx), Some (tyy, ty) =>
            if negb (bool_decide (tyx = tyy)) then false
            else
            match lhs_diff (length tx + length ty) tx ty 0 0 with
            | Some (cx, cy) =>
                if lower px
                then - cy + b2z (bool_decide (py = ICMP_SGT)) <=? - cx + b2z (bool_decide (px = ICMP_SGT))
                else - cx - b2z (bool_decide (px = ICMP_SLT)) <=? - cy - b2z (bool_decide (py = ICMP_SLT))
            | None => false
            end
        | _, _ => false
        end
  | _, _ => false
  end.
End lits.

(** ** Soundness *)
(** closed decisions in a hypothesis are evaluated *)
Ltac eval_bool_decide H :=
  repeat match type of H with
  | context [bool_decide ?P] =>
      let b := eval vm_compute in (bool_decide P) in change (bool_decide P) with b in H
  end.
(** a comparison node of well-typed operands: both of one type, of 1 to 64 bits; their
    constants are 64-bit integers *)
Definition lit_typed (s : Arena) (w : Z) (e : EP) : Prop :=
  ∀ p a b, literal s e = Some (p, a, b) →
    ∃ t, type_at s a = Some t ∧ type_at s b = Some t ∧ width t = Some w ∧ 0 < w <= 64 ∧
      - 2 ^ 63 <= const_part s a < 2 ^ 63 ∧ - 2 ^ 63 <= const_part s b < 2 ^ 63 ∧ icmp p w 0 0 ≠ None.
Definition lit_in_range (s : Arena) (ρ : Env) (w : Z) (e : EP) : Prop :=
  ∀ p a b, literal s e = Some (p, a, b) → in_range w (den s ρ a) ∧ in_range w (den s ρ b).

Lemma literal_node s e p a b :
  literal s e = Some (p, a, b) → ∃ t, nodes s !! e = Some (mkExpr t (NCmp p [a; b])).
Proof.
  unfold literal. destruct (nodes s !! e) as [[t [| | | |q [|x [|y [|]]]| | | | | |]]|]; try done.
  intros [= -> -> ->]. by exists t.
Qed.
Lemma poly_of_is_poly s e t ts : poly_of s e = Some (t, ts) ↔ is_poly s e t ts.
Proof.
  unfold poly_of, is_poly. destruct (nodes s !! e) as [[t' [| | | | | | | | | |]]|]; naive_solver.
Qed.
Lemma icmp_total p w x y x' y' : icmp p w x y ≠ None → ∃ r, icmp p w x' y' = Some r.
Proof. destruct p; cbn; eauto; done. Qed.
(** the value of a well-typed literal *)
Lemma den_literal s ρ w e p a b r :
  wf s → lit_typed s w e → literal s e = Some (p, a, b) →
  icmp p w (den s ρ a) (den s ρ b) = Some r → den s ρ e = bval r.
Proof.
  intros Hwf Hty Hl Hr. destruct (Hty _ _ _ Hl) as (t & Ha & _ & Hw & _).
  apply literal_node in Hl as [t' Hn]. rewrite (den_unfold _ _ _ _ Hwf Hn).
  unfold eval_node; cbn -[icmp]. rewrite Ha; cbn -[icmp]. by rewrite Hw, Hr.
Qed.

Lemma const_fold_coef ts c0 :
  normal ts →
  fold_left (λ c (t : Term), if is_const_mono t.1 then t.2 else c) ts c0
  = if bool_decide (coef ts [] = 0) then c0 else coef ts [].
Proof.
  revert c0. induction ts as [|[m c] ts IH]; intros c0 Hn; [done|]. cbn -[coef].
  rewrite IH by eauto using normal_tail. destruct m as [|a m]; cbn -[coef].
  - rewrite (coef_head _ _ _ Hn). pose proof Hn as [_ [Hz _]%Forall_cons]. cbn in Hz.
    rewrite (bool_decide_false (c = 0)) by done. rewrite bool_decide_true; [done|].
    destruct Hn as [Hs _]. apply StronglySorted_inv in Hs as [_ Hall]. by apply coef_below.
  - by rewrite coef_cons_proper.
Qed.
Lemma split_const_spec ts p c :
  split_const ts = (p, c) → normal ts → c = coef ts [] ∧ ∀ v, peval v ts = peval v p + c.
Proof.
  intros [= <- <-] Hn. rewrite const_fold_coef by done.
  assert ((if bool_decide (coef ts [] = 0) then 0 else coef ts []) = coef ts []) as ->
    by (case_bool_decide; congruence).
  split; [done|]. intros v. rewrite (peval_split v ts Hn). lia.
Qed.
Lemma poly_split s ρ e t ts p c :
  wf s → is_poly s e t ts → split_const ts = (p, c) →
  c = const_part s e ∧ den s ρ e = pval s ρ p + c.
Proof.
  intros Hwf He Hs. destruct (poly_at _ _ _ _ Hwf He) as [Hn _].
  destruct (split_const_spec _ _ _ Hs Hn) as [-> Hv]. split.
  - unfold const_part. by rewrite He.
  - rewrite (den_poly _ _ _ _ _ Hwf He). apply Hv.
Qed.
Lemma umod w v : 0 < w → in_range w v → v mod 2 ^ w = if v <? 0 then v + 2 ^ w else v.
Proof.
  intros Hw Hv. unfold in_range in Hv.
  assert (2 ^ w = 2 * 2 ^ (w - 1)) as Hp by (rewrite <- Z.pow_succ_r by lia; f_equal; lia).
  destruct (Z.ltb_spec v 0).
  - symmetry. apply (Z.mod_unique_pos v (2 ^ w) (-1)); lia.
  - apply Z.mod_small. lia.
Qed.
Lemma pow_half w : 0 < w <= 64 → 2 ^ w = 2 * 2 ^ (w - 1) ∧ 1 <= 2 ^ (w - 1) <= 2 ^ 63.
Proof.
  intros Hw. split; [rewrite <- Z.pow_succ_r by lia; f_equal; lia|]. split.
  - pose proof (Z.pow_pos_nonneg 2 (w - 1)). lia.
  - apply Z.pow_le_mono_r; lia.
Qed.
Lemma constInt_value s ρ e z : wf s → constInt s e = Some z → den s ρ e = z.
Proof.
  intros Hwf Hz. destruct (nodes s !! e) as [x|] eqn:Hx; [|unfold constInt in Hz; by rewrite Hx in Hz].
  eapply (constInt_den (ty x)); [done| |done]. unfold type_at. by rewrite Hx.
Qed.
Lemma zeroC_value s ρ e : wf s → zeroC s e = true → den s ρ e = 0.
Proof.
  unfold zeroC. intros Hwf. destruct (constInt s e) as [z|] eqn:E; [|done]. intros ->%Z.eqb_eq.
  by eapply constInt_value.
Qed.

Section facts.
Context `{CmpInst} (s : Arena) (ρ : Env) (w : Z) (Hwf : wf s).
Definition rhs_value (rhs : option EP) : Z := match rhs with Some r => den s ρ r | None => 0 end.
Definition rhs_zero (rhs : option EP) : bool := match rhs with Some r => zeroC s r | None => true end.
Definition holds (e : EP) : Prop := truth (den s ρ e) = true.
Lemma literal_value e p a b :
  lit_typed s w e → literal s e = Some (p, a, b) →
  icmp p w (den s ρ a) (den s ρ b) = Some (truth (den s ρ e)).
Proof.
  intros Hty Hl. destruct (Hty _ _ _ Hl) as (t & _ & _ & _ & _ & _ & _ & Hp).
  destruct (icmp_total p w 0 0 (den s ρ a) (den s ρ b) Hp) as [r Hr].
  rewrite (den_literal _ _ _ _ _ _ _ _ Hwf Hty Hl Hr). by rewrite Hr, truth_bval.
Qed.
Lemma fact_step_sound tl pl rhs lo hi any f lo' hi' any' :
  fact_step s tl pl rhs (rhs_zero rhs) (lo, hi, any) f = (lo', hi', any') →
  lit_typed s w f → lit_in_range s ρ w f → holds f →
  lo <= pval s ρ pl - rhs_value rhs <= hi → lo' <= pval s ρ pl - rhs_value rhs <= hi'.
Proof.
  intros Hstep Hty Hir Hh HV. unfold fact_step in Hstep.
  destruct (literal s f) as [[[opf af] bf]|] eqn:El; [|by injection Hstep as <- <- _].
  pose proof (literal_value _ _ _ _ Hty El) as Hv. rewrite Hh in Hv.
  destruct (Hir _ _ _ El) as [Hia Hib]. destruct (Hty _ _ _ El) as (_ & _ & _ & _ & Hw & _ & _ & _).
  pose proof (pow_half w Hw) as [Hp1 Hp2].
  destruct (poly_of s af) as [[tf tsf]|] eqn:Epf; [|by injection Hstep as <- <- _].
  destruct (bool_decide (tf = tl)); cbn [negb] in Hstep; [|by injection Hstep as <- <- _].
  destruct (split_const tsf) as [pf cf] eqn:Es.
  destruct (bool_decide (pf = pl)) eqn:Epl; cbn [negb] in Hstep; [|by injection Hstep as <- <- _].
  apply bool_decide_eq_true in Epl as ->.
  apply poly_of_is_poly in Epf. destruct (poly_split _ ρ _ _ _ _ _ Hwf Epf Es) as [_ Hda].
  rewrite Hda in *. set (P := pval s ρ pl) in *.
  destruct (rhs_zero rhs && negb (zeroC s bf)) eqn:Ez.
  - apply andb_true_iff in Ez as [Hrz _].
    assert (rhs_value rhs = 0) as Hq.
    { destruct rhs as [r|]; [|done]. by apply zeroC_value. }
    destruct (constInt s bf) as [fC|] eqn:Ef; [|by injection Hstep as <- <- _].
    rewrite (constInt_value _ _ _ _ Hwf Ef) in *.
    destruct (negb _ || (fC <? 0)) eqn:Eg; [by injection Hstep as <- <- _|].
    apply orb_false_iff in Eg as [Hop%negb_false_iff%bool_decide_eq_true Hneg%Z.ltb_ge].
    injection Hstep as <- <- _. rewrite Hq in *.
    destruct Hop as [->| ->]; cbn in Hv; rewrite !umod in Hv by (done || lia);
      rewrite (proj2 (Z.ltb_ge fC 0)) in Hv by done; injection Hv as Hv;
      rewrite ?Z.ltb_lt, ?Z.leb_le in Hv; unfold in_range, b2z in *;
      (rewrite bool_decide_true by done) || (rewrite bool_decide_false by done);
      destruct (Z.ltb_spec (P + cf) 0); lia.
  - destruct (match rhs with Some r => negb (Nat.eqb bf r) | None => negb (zeroC s bf) end) eqn:Er;
      [by injection Hstep as <- <- _|].
    assert (den s ρ bf = rhs_value rhs) as Hq.
    { destruct rhs as [r|]; cbn in *.
      - by apply negb_false_iff, Nat.eqb_eq in Er as ->.
      - apply negb_false_iff in Er. by apply zeroC_value. }
    rewrite Hq in *.
    destruct (zeroC s bf) eqn:Efz.
    + rewrite (zeroC_value _ ρ _ Hwf Efz) in Hq. rewrite <- Hq in *.
      destruct opf; cbn in Hv, Hstep; try discriminate; injection Hstep as <- <- _; injection Hv as Hv;
        try exact HV; rewrite ?umod in Hv by (done || (unfold in_range; lia)); cbn in Hv;
        rewrite ?Z.ltb_lt, ?Z.leb_le, ?Z.eqb_eq in Hv; unfold in_range in *;
        try (destruct (Z.ltb_spec (P + cf) 0)); lia.
    + destruct opf; cbn in Hv, Hstep; try discriminate; injection Hstep as <- <- _; injection Hv as Hv;
        try exact HV; rewrite ?Z.ltb_lt, ?Z.leb_le, ?Z.eqb_eq in Hv; lia.
Qed.
End facts.
(** a literal that is well typed, in range and true, at its own width *)
(** a comparison that is not one of integers *)
Definition float_cmp (s : Arena) (f : EP) : Prop :=
  ∃ p a b, literal s f = Some (p, a, b) ∧ icmp p 1 0 0 = None.
Definition fact_ok (s : Arena) (ρ : Env) (f : EP) : Prop :=
  holds s ρ f ∧ ((∃ w, lit_typed s w f ∧ lit_in_range s ρ w f) ∨ float_cmp s f).
Lemma fact_step_float s tl pl rhs rz acc f : float_cmp s f → fact_step s tl pl rhs rz acc f = acc.
Proof.
  intros (p & a & b & El & Hp). unfold fact_step. destruct acc as [[lo hi] any]. rewrite El.
  destruct (poly_of s a) as [[tf tsf]|]; [|done]. destruct (negb _); [done|]. destruct (split_const tsf) as [pf cf].
  destruct (negb _); [done|]. destruct (rz && _).
  - destruct (constInt s b); [|done]. by rewrite bool_decide_false by (intros [-> | ->]; done).
  - destruct (match rhs with Some r => _ | None => _ end); [done|].
    rewrite (bool_decide_false (p = ICMP_ULE)), (bool_decide_false (p = ICMP_UGT)), !andb_false_r by (by intros ->).
    by destruct p.
Qed.
Lemma facts_sound `{CmpInst} s ρ (Hwf : wf s) tl pl rhs facts lo hi any lo' hi' any' :
  fold_left (fact_step s tl pl rhs (rhs_zero s rhs)) facts (lo, hi, any) = (lo', hi', any') →
  Forall (fact_ok s ρ) facts →
  lo <= pval s ρ pl - rhs_value s ρ rhs <= hi → lo' <= pval s ρ pl - rhs_value s ρ rhs <= hi'.
Proof.
  revert lo hi any. induction facts as [|f facts IH]; intros lo hi any Hf Hall HV.
  - by injection Hf as <- <- <-.
  - apply Forall_cons in Hall as [(? & [(w & ? & ?)|Hfl]) Hall]; cbn [fold_left] in Hf;
      [|rewrite fact_step_float in Hf by done; by eapply IH].
    destruct (fact_step s tl pl rhs (rhs_zero s rhs) (lo, hi, any) f) as [[lo1 hi1] any1] eqn:E.
    eapply IH; [exact Hf|done|]. by eapply fact_step_sound.
Qed.
Lemma decide_signed_sound w op vlo vhi x q out :
  decide_signed op vlo vhi = Some out → vlo <= x - q <= vhi →
  icmp op w x q = Some out.
Proof.
  intros Hd Hv. destruct op; cbn in Hd; try discriminate; unfold decide2, decide2' in Hd; cbn; f_equal;
    repeat match type of Hd with
    | context [?a <? ?b] => destruct (Z.ltb_spec a b)
    | context [?a <=? ?b] => destruct (Z.leb_spec a b)
    | context [?a =? ?b] => destruct (Z.eqb_spec a b)
    end; cbn in Hd; try discriminate; injection Hd as <-;
    rewrite ?negb_true_iff, ?negb_false_iff, ?Z.ltb_lt, ?Z.leb_le, ?Z.eqb_eq, ?Z.ltb_ge, ?Z.leb_gt, ?Z.eqb_neq; lia.
Qed.
Lemma decide_unsigned_sound w op uC vlo vhi v out :
  0 < w <= 64 → decide_unsigned op uC vlo vhi = Some out → vlo <= v <= vhi →
  in_range w v → in_range w uC → icmp op w v uC = Some out.
Proof.
  intros Hw Hd Hv Hr Hc. destruct (pow_half w Hw) as [Hp1 Hp2].
  assert (uC mod 2 ^ w = if uC <? 0 then uC + 2 ^ w else uC) as Hu by (apply umod; [lia|done]).
  assert (v mod 2 ^ w = if v <? 0 then v + 2 ^ w else v) as Hvm by (apply umod; [lia|done]).
  unfold in_range in *. unfold decide_unsigned, decide2, decide2' in Hd.
  destruct (Z.ltb_spec uC 0); [rewrite (proj2 (Z.leb_gt 0 uC)) in Hd by lia|rewrite (proj2 (Z.leb_le 0 uC)) in Hd by lia];
    destruct op; try discriminate; cbn; f_equal; rewrite Hu, Hvm; destruct (Z.ltb_spec v 0);
    repeat match type of Hd with
    | context [?a <? ?b] => destruct (Z.ltb_spec a b)
    | context [?a <=? ?b] => destruct (Z.leb_spec a b)
    end; cbn in Hd; try discriminate; injection Hd as <-;
    rewrite ?Z.ltb_lt, ?Z.leb_le, ?Z.ltb_ge, ?Z.leb_gt; lia.
Qed.

(** The value of a decided literal. *)
Lemma decideLit_value `{CmpInst} s ρ w l facts out (Hwf : wf s) (Hty : lit_typed s w l)
    (Hir : lit_in_range s ρ w l) (Hfacts : Forall (fact_ok s ρ) facts)
    (Hd : decideLit s l facts = Some out) : truth (den s ρ l) = out.
Proof.
  unfold decideLit in Hd. destruct (literal s l) as [[[op al] bl]|] eqn:El; [|done].
  pose proof (literal_value s ρ w Hwf _ _ _ _ Hty El) as Hv.
  destruct (Hty _ _ _ El) as (t & Hta & Htb & _ & Hw & Hc & _ & Hp). destruct (Hir _ _ _ El) as [Hia Hib].
  assert (∀ out', icmp op w (den s ρ al) (den s ρ bl) = Some out' → truth (den s ρ l) = out') as Hdone.
  { intros out' E. rewrite Hv in E. by injection E. }
  destruct (pow_half w Hw) as [Hp1 Hp2].
  destruct (zeroC s bl && bool_decide (op = ICMP_UGE)) eqn:E1.
  { apply andb_true_iff in E1 as [Hz ->%bool_decide_eq_true]. injection Hd as <-. apply Hdone.
    rewrite (zeroC_value _ ρ _ Hwf Hz). cbn. rewrite Z.mod_0_l by lia. f_equal. apply Z.leb_le.
    apply Z.mod_pos_bound. lia. }
  destruct (zeroC s bl && bool_decide (op = ICMP_ULT)) eqn:E2.
  { apply andb_true_iff in E2 as [Hz ->%bool_decide_eq_true]. injection Hd as <-. apply Hdone.
    rewrite (zeroC_value _ ρ _ Hwf Hz). cbn. rewrite Z.mod_0_l by lia. f_equal. apply Z.ltb_ge.
    apply Z.mod_pos_bound. lia. }
  clear E1 E2. destruct (poly_of s al) as [[tl tsl]|] eqn:Epl; [|done].
  destruct (split_const tsl) as [pl cl] eqn:Es. apply poly_of_is_poly in Epl.
  destruct (poly_split _ ρ _ _ _ _ _ Hwf Epl Es) as [-> Hda].
  destruct (isUnsigned op && bool_decide (constInt s bl = None)) eqn:Eu; [done|].
  set (rhs := if isUnsigned op then None else Some bl) in *. fold (rhs_zero s rhs) in Hd.
  destruct (fold_left _ facts _) as [[lo hi] any] eqn:Ef.
  assert (lo <= pval s ρ pl - rhs_value s ρ rhs <= hi) as HV.
  { eapply facts_sound; [done|exact Ef|done|].
    assert (- 2 ^ 63 <= rhs_value s ρ rhs < 2 ^ 63).
    { unfold rhs. destruct (isUnsigned op); cbn; unfold in_range in *; lia. }
    unfold no_lo, no_hi, int128_min, int128_max. unfold in_range in *.
    change (Z.quot (- 2 ^ 127) 4) with (- 2 ^ 125). change (Z.quot (2 ^ 127 - 1) 4) with (2 ^ 125 - 1). lia. }
  destruct (negb any); [done|]. apply Hdone. rewrite Hda in *.
  destruct (isUnsigned op); cbn [andb] in Eu.
  - destruct (constInt s bl) as [uC|] eqn:Ec; [|done].
    rewrite (constInt_value _ _ _ _ Hwf Ec) in *. cbn [default from_option id] in Hd.
    eapply decide_unsigned_sound; [done|exact Hd| |done|done]. cbn in HV. lia.
  - eapply decide_signed_sound; [exact Hd|]. cbn in HV. lia.
Qed.
(** [C24] A literal decided by facts has the decided value: when [decideLit] answers, then in every
    valuation that makes the facts true - comparisons of any width, well typed and in the range of
    their types - the literal is true or false as answered. Signed and unsigned orders, equalities
    and the range tests an unsigned order encodes are covered. *)
Theorem decideLit_sound `{CmpInst} s ρ w l facts out (Hwf : wf s) (Hty : lit_typed s w l)
    (Hir : lit_in_range s ρ w l) (Hfacts : Forall (fact_ok s ρ) facts)
    (Hd : decideLit s l facts = Some out) : truth (den s ρ l) = out.
Proof. by eapply decideLit_value. Qed.

Lemma if_zero (z : Z) : (if bool_decide (z = 0) then 0 else z) = z.
Proof. case_bool_decide; congruence. Qed.
Lemma lhs_diff_sound v n tx ty cx cy dx dy :
  lhs_diff n tx ty cx cy = Some (dx, dy) → normal tx → normal ty →
  dx = (if bool_decide (coef tx [] = 0) then cx else coef tx []) ∧
  dy = (if bool_decide (coef ty [] = 0) then cy else coef ty []) ∧
  peval v tx - coef tx [] = peval v ty - coef ty [].
Proof.
  assert (∀ c (l : list Term), normal (([], c) :: l) → c ≠ 0 ∧ coef (([], c) :: l) [] = c ∧ coef l [] = 0) as Hh.
  { intros c l Hn. split_and!; [|by apply coef_head|].
    - destruct Hn as [_ Hz]. by apply Forall_cons in Hz as [? _].
    - destruct Hn as [Hs _]. apply StronglySorted_inv in Hs as [_ Hall]. by apply coef_below. }
  revert tx ty cx cy. induction n as [|n IH]; intros tx ty cx cy E Hx Hy.
  { destruct tx, ty; cbn in E; try discriminate; try (destruct t; discriminate).
    injection E as <- <-. done. }
  assert (∀ c tx', tx = ([], c) :: tx' → lhs_diff n tx' ty c cy = Some (dx, dy) →
    dx = (if bool_decide (coef tx [] = 0) then cx else coef tx []) ∧
    dy = (if bool_decide (coef ty [] = 0) then cy else coef ty []) ∧
    peval v tx - coef tx [] = peval v ty - coef ty []) as HX.
  { intros c tx' -> E'. destruct (Hh _ _ Hx) as (Hc & Hc1 & Hc2).
    destruct (IH _ _ _ _ E' (normal_tail _ _ Hx) Hy) as (H1 & H2 & H3). rewrite Hc1, Hc2 in *.
    rewrite bool_decide_true in H1 by done. rewrite bool_decide_false by done. cbn [peval mono fst snd]. lia. }
  assert (∀ c ty', ty = ([], c) :: ty' → lhs_diff n tx ty' cx c = Some (dx, dy) →
    dx = (if bool_decide (coef tx [] = 0) then cx else coef tx []) ∧
    dy = (if bool_decide (coef ty [] = 0) then cy else coef ty []) ∧
    peval v tx - coef tx [] = peval v ty - coef ty []) as HY.
  { intros c ty' -> E'. destruct (Hh _ _ Hy) as (Hc & Hc1 & Hc2).
    destruct (IH _ _ _ _ E' Hx (normal_tail _ _ Hy)) as (H1 & H2 & H3). rewrite Hc1, Hc2 in *.
    rewrite bool_decide_true in H2 by done. rewrite (bool_decide_false (c = 0)) by done. cbn [peval mono fst snd]. lia. }
  destruct tx as [|[[|a m] c] tx].
  - destruct ty as [|[[|b k] d] ty]; cbn in E; [by injection E as <- <-|by eapply HY|done].
  - cbn in E. by eapply HX.
  - destruct ty as [|[[|b k] d] ty]; cbn [lhs_diff] in E; [done|by eapply HY|].
    destruct (bool_decide ((a :: m, c) = (b :: k, d))) eqn:Ee; [|done].
    apply bool_decide_eq_true in Ee. injection Ee as -> -> ->.
    destruct (IH _ _ _ _ E (normal_tail _ _ Hx) (normal_tail _ _ Hy)) as (H1 & H2 & H3).
    rewrite !coef_cons_proper. cbn [peval fst snd]. split_and!; [done|done|lia].
Qed.

(** A literal implied by one that holds. *)
Lemma litImplies_holds `{CmpInst} sem s ρ x y wx wy (Hwf : wf s)
    (Htx : lit_typed s wx x) (Hrx : lit_in_range s ρ wx x)
    (Hty : lit_typed s wy y) (Hry : lit_in_range s ρ wy y)
    (Hi : litImplies sem s x y = true) (Hx : holds s ρ x) : holds s ρ y.
Proof.
  unfold litImplies in Hi. destruct (Nat.eqb_spec x y) as [->|_]; [done|].
  destruct (literal s x) as [[[px ax] bx]|] eqn:Elx; [|done].
  destruct (literal s y) as [[[py ay] b']|] eqn:Ely; [|done].
  destruct (Nat.eqb_spec bx b') as [<-|_]; cbn [negb] in Hi; [|done].
  destruct (_ && _ || _ && _) eqn:Ek; cbn [negb] in Hi.
  2: { apply andb_true_iff in Hi as [_ Hi%bool_decide_eq_true].
       eapply decideLit_value; [done|exact Hty|exact Hry| |exact Hi]. constructor; [|constructor].
       split; [done|]. left. eauto. }
  destruct (poly_of s ax) as [[tyx tx]|] eqn:Epx; [|done].
  destruct (poly_of s ay) as [[tyy ty]|] eqn:Epy; [|done].
  destruct (bool_decide (tyx = tyy)); cbn [negb] in Hi; [|done].
  destruct (lhs_diff _ _ _ _ _) as [[cx cy]|] eqn:Ed; [|done].
  apply poly_of_is_poly in Epx, Epy.
  destruct (poly_at _ _ _ _ Hwf Epx) as [Hnx _]. destruct (poly_at _ _ _ _ Hwf Epy) as [Hny _].
  pose proof (literal_value s ρ wx Hwf _ _ _ _ Htx Elx) as Hvx. unfold holds in *. rewrite Hx in Hvx.
  pose proof (literal_value s ρ wy Hwf _ _ _ _ Hty Ely) as Hvy.
  rewrite (den_poly _ _ _ _ _ Hwf Epx) in Hvx. rewrite (den_poly _ _ _ _ _ Hwf Epy) in Hvy.
  unfold pval in *. set (v := atom_val s (den s ρ)) in *.
  destruct (lhs_diff_sound v _ _ _ _ _ _ _ Ed Hnx Hny) as (-> & -> & Hdiff).
  rewrite !if_zero in Hi. clear Ed.
  set (q := den s ρ bx) in *. unfold lower, upper in *.
  assert (∀ b, icmp py wy (peval v ty) q = Some b → b = true → truth (den s ρ y) = true) as Hfin.
  { intros b E ->. rewrite Hvy in E. by injection E. }
  destruct px, py; try discriminate Ek; cbn in Hvx; injection Hvx as Hvx; apply (Hfin _ eq_refl);
    eval_bool_decide Hi; cbn [b2z] in Hi; rewrite ?Z.ltb_lt, ?Z.leb_le in *; lia.
Qed.
(** One literal implies another only when it does: with or without the semantic mode, a
    literal [litImplies] derives from a literal that is true in a valuation is true there. *)
Theorem litImplies_sound `{CmpInst} sem s ρ x y wx wy (Hwf : wf s)
    (Htx : lit_typed s wx x) (Hrx : lit_in_range s ρ wx x)
    (Hty : lit_typed s wy y) (Hry : lit_in_range s ρ wy y)
    (Hi : litImplies sem s x y = true) (Hx : holds s ρ x) : holds s ρ y.
Proof. by eapply (litImplies_holds sem s ρ x y wx wy). Qed.

(** ** The properties on a concrete arena: the literals [x > 5] and [x > 3] *)
Definition demo_lits : M (EP * EP) :=
  do five <- mkInt i32 5; do three <- mkInt i32 3;
  do l5 <- cmp cmp_fuel ICMP_SGT 1 five;
  do l3 <- cmp cmp_fuel ICMP_SGT 1 three;
  ret (l5, l3).
Definition lit_arena : Arena := state_of demo_lits demo.
Definition l5 : EP := match demo_lits demo with Some ((a, _), _) => a | None => 0%nat end.
Definition l3 : EP := match demo_lits demo with Some ((_, b), _) => b | None => 0%nat end.
(** x is 10 *)
Definition env10 : Env := mkEnv (λ _, 10) (λ _ _ _, 0).
Lemma lit_checked s w e t :
  match literal s e with
  | Some (p, a, b) =>
      bool_decide (type_at s a = Some t) && bool_decide (type_at s b = Some t)
      && bool_decide (width t = Some w) && (0 <? w) && (w <=? 64)
      && (- 2 ^ 63 <=? const_part s a) && (const_part s a <? 2 ^ 63)
      && (- 2 ^ 63 <=? const_part s b) && (const_part s b <? 2 ^ 63)
      && bool_decide (icmp p w 0 0 ≠ None)
  | None => true
  end = true → lit_typed s w e.
Proof.
  intros H p a b E. rewrite E in H. rewrite !andb_true_iff, !bool_decide_eq_true, !Z.leb_le, !Z.ltb_lt in H.
  exists t. tauto.
Qed.
Lemma range_checked s ρ w e :
  match literal s e with
  | Some (_, a, b) =>
      (- 2 ^ (w - 1) <=? den s ρ a) && (den s ρ a <? 2 ^ (w - 1))
      && (- 2 ^ (w - 1) <=? den s ρ b) && (den s ρ b <? 2 ^ (w - 1))
  | None => true
  end = true → lit_in_range s ρ w e.
Proof.
  intros H p a b E. rewrite E in H. rewrite !andb_true_iff, !Z.leb_le, !Z.ltb_lt in H.
  unfold in_range. tauto.
Qed.
Lemma fact5 : fact_ok lit_arena env10 l5.
Proof.
  split; [vm_compute; reflexivity|]. left. exists 32. split.
  - apply (lit_checked _ _ _ i32). vm_compute; reflexivity.
  - apply range_checked. vm_compute; reflexivity.
Qed.
Lemma decideLit_sound_witness :
  decideLit lit_arena l3 [l5] = Some true ∧ truth (den lit_arena env10 l3) = true.
Proof.
  assert (decideLit lit_arena l3 [l5] = Some true) as Hd by (vm_compute; reflexivity).
  split; [exact Hd|].
  apply (decideLit_sound lit_arena env10 32 l3 [l5] true).
  - check_wf.
  - apply (lit_checked _ _ _ i32). vm_compute; reflexivity.
  - apply range_checked. vm_compute; reflexivity.
  - constructor; [exact fact5|constructor].
  - exact Hd.
Defined.
Lemma litImplies_sound_witness :
  litImplies false lit_arena l5 l3 = true ∧ litImplies false lit_arena l3 l5 = false ∧ holds lit_arena env10 l3.
Proof.
  split; [vm_compute; reflexivity|]. split; [vm_compute; reflexivity|].
  apply (litImplies_sound false lit_arena env10 l5 l3 32 32).
  - check_wf.
  - apply (lit_checked _ _ _ i32). vm_compute; reflexivity.
  - apply range_checked. vm_compute; reflexivity.
  - apply (lit_checked _ _ _ i32). vm_compute; reflexivity.
  - apply range_checked. vm_compute; reflexivity.
  - vm_compute; reflexivity.
  - exact (proj1 fact5).
Defined.
