(* ===== verification/ArenaContra.v ===== *)
(** Conjunctions without an integer solution (symexec.cpp, [Arena::contradictory]): the bounds all
    literals put on each polynomial, through clamps against constants and divisions by constants,
    and the test that no integer satisfies them together.

    The names of called functions are a parameter; the intrinsics [llvm.smin] and [llvm.smax] and
    the signed division mean what the language reference says (hypotheses of the theorems). *)
From stdpp Require Import sorting.
From S2P Require Import Prelude Cstd Expr Arena ArenaSem ArenaCmp ArenaLits.
Open Scope Z_scope.

(** ** The ranges of polynomials, a [std::map] in the order of its keys *)
Record Range := mkRange { r_lo : Z; r_hi : Z; r_ne : list Z }.
Definition range0 : Range := mkRange no_lo no_hi [].
Definition Groups : Type := list (list Term * Range).
Definition term_cmp (a b : Term) : comparison :=
  if mlt a.1 b.1 then Lt else if mlt b.1 a.1 then Gt else Z.compare a.2 b.2.
Fixpoint terms_lt (xs ys : list Term) : bool :=
  match xs, ys with
  | _, [] => false
  | [], _ => true
  | x :: xs, y :: ys => match term_cmp x y with Lt => true | Gt => false | Eq => terms_lt xs ys end
  end.
Fixpoint upd_group (G : Groups) (k : list Term) (f : Range → Range) : Groups :=
  match G with
  | [] => [(k, f range0)]
  | (k', r) :: G' =>
      if bool_decide (k' = k) then (k', f r) :: G'
      else if terms_lt k k' then (k, f range0) :: G
      else (k', r) :: upd_group G' k f
  end.
Fixpoint find_group (G : Groups) (k : list Term) : option Range :=
  match G with
  | [] => None
  | (k', r) :: G => if bool_decide (k' = k) then Some r else find_group G k
  end.
(** [std::set::insert] *)
Definition insert_ne (v : Z) (l : list Z) : list Z := if bool_decide (v ∈ l) then l else l ++ [v].

Definition coef_gcd (pn : list Term) : Z := fold_left (λ g (t : Term), Z.gcd g (Z.abs t.2)) pn 0.
Definition scale_down (pn : list Term) (g : Z) : list Term := (λ t : Term, (t.1, Z.quot t.2 g)) <$> pn.
(** the common factor, at least 1, and the polynomial without it *)
Definition primitive (pn : list Term) : Z * list Term :=
  let g := coef_gcd pn in if 1 <? g then (g, scale_down pn g) else (1, pn).
(** [g pn + c OP 0] as a bound on [pn] *)
Definition bound_range (op : Pred) (t g : Z) (r : Range) : Range :=
  match op with
  | ICMP_SGT => mkRange (Z.max (r_lo r) (fdiv t g + 1)) (r_hi r) (r_ne r)
  | ICMP_SGE => mkRange (Z.max (r_lo r) (cdiv t g)) (r_hi r) (r_ne r)
  | ICMP_SLT => mkRange (r_lo r) (Z.min (r_hi r) (cdiv t g - 1)) (r_ne r)
  | ICMP_SLE => mkRange (r_lo r) (Z.min (r_hi r) (fdiv t g)) (r_ne r)
  | ICMP_EQ => if negb (Z.rem t g =? 0) then mkRange 1 0 (r_ne r)
               else mkRange (Z.max (r_lo r) (Z.quot t g)) (Z.min (r_hi r) (Z.quot t g)) (r_ne r)
  | ICMP_NE => if Z.rem t g =? 0 then mkRange (r_lo r) (r_hi r) (insert_ne (Z.quot t g) (r_ne r)) else r
  | _ => r
  end.
Definition bound (G : Groups) (pn : list Term) (c : Z) (op : Pred) : Groups :=
  let '(g, p) := primitive pn in upd_group G p (bound_range op (- c) g).

Section contra.
Context `{CmpInst} (calleeName : nat → string).

(** one sign for the polynomial *)
Definition leading_negative (pn : list Term) : bool :=
  match pn with (_, k) :: _ => k <? 0 | [] => false end.
Definition signed_bound (G : Groups) (pn : list Term) (c : Z) (op : Pred) : Groups :=
  if leading_negative pn then bound G (neg_terms pn) (- c) (getSwappedPredicate op) else bound G pn c op.

(** a call of a minimum or maximum: whether it is a minimum, and its operands *)
Definition clamp_of (s : Arena) (atom : EP) : option (bool * EP * EP) :=
  match nodes s !! atom with
  | Some (mkExpr _ (NCall callee _ [x; y])) =>
      if negb (callee =? 0)%nat && starts (calleeName callee) "llvm.smin." then Some (true, x, y)
      else if negb (callee =? 0)%nat && starts (calleeName callee) "llvm.smax." then Some (false, x, y)
      else None
  | _ => None
  end.
(** the constant operand and the clamped one, of the clamp's type *)
Definition clamped (s : Arena) (atom x y : EP) : option (Z * EP) :=
  let kP := match constInt s y with
            | Some k => Some (k, x)
            | None => match constInt s x with Some k => Some (k, y) | None => None end
            end in
  match kP with
  | Some (k, P) => if bool_decide (type_at s P = type_at s atom) then Some (k, P) else None
  | None => None
  end.
(** a division by a positive constant: the dividend and the divisor *)
Definition sdiv_of (s : Arena) (atom : EP) : option (EP * Z) :=
  match nodes s !! atom with
  | Some (mkExpr _ (NOp SDiv [x; y])) =>
      match constInt s y with Some k => if 0 <? k then Some (x, k) else None | None => None end
  | _ => None
  end.
(** the polynomial is one atom with coefficient 1 *)
Definition single_atom (s : Arena) (pn : list Term) : option EP :=
  match pn with [([a], c)] => if c =? 1 then atoms s !! a else None | _ => None end.

Definition is_nil {A} (l : list A) : bool := match l with [] => true | _ => false end.
Definition int64_half (c : Z) : bool := (Z.quot (- 2 ^ 63) 2 <=? c) && (c <=? Z.quot (2 ^ 63 - 1) 2).
(** the polynomial of an expression, split *)
Definition split_poly (P : EP) : M (list Term * Z) :=
  do p <- asPoly P; do ts <- terms_of p; ret (split_const ts).
(** [pp + cp OP2 v2] as a bound *)
Definition derive (G : Groups) (pp : list Term) (cp : Z) (op2 : Pred) (v2 : Z) : Groups :=
  if int64_half (cp - v2) then signed_bound G pp (cp - v2) op2 else G.
(** a clamp compared for (in)equality with its own constant: [None] for a contradiction *)
Definition clamp_eq (G : Groups) (op : Pred) (isMin : bool) (k v : Z) (pp : list Term) (cp : Z) :
    option Groups :=
  if bool_decide (op = ICMP_NE) then
    Some (if v =? k then derive G pp cp (if isMin then ICMP_SLT else ICMP_SGT) k
          else if (isMin && (v <? k)) || (negb isMin && (k <? v)) then derive G pp cp ICMP_NE v
          else G)
  else if (isMin && (k <? v)) || (negb isMin && (v <? k)) then None
  else if v =? k then Some (derive G pp cp (if isMin then ICMP_SGE else ICMP_SLE) k)
  else Some (derive G pp cp ICMP_EQ v).
Definition step_clamp_eq (G : Groups) (op : Pred) (pn : list Term) (c : Z) : M (option Groups) :=
  do s <- gets id;
  match single_atom s pn with
  | Some atom =>
      if negb (bool_decide (op = ICMP_NE ∨ op = ICMP_EQ)) then ret (Some G) else
      match clamp_of s atom with
      | Some (isMin, x, y) =>
          match clamped s atom x y with
          | Some (k, P) =>
              do sp <- split_poly P;
              ret (if is_nil sp.1 then Some G else clamp_eq G op isMin k (- c) sp.1 sp.2)
          | None => ret (Some G)
          end
      | None => ret (Some G)
      end
  | None => ret (Some G)
  end.

Definition is_order (op : Pred) : bool :=
  bool_decide (op = ICMP_SGT ∨ op = ICMP_SGE ∨ op = ICMP_SLT ∨ op = ICMP_SLE).
(** a bound on a polynomial: [P >= v] or [P <= v] *)
Definition boundPoly (G : Groups) (P : EP) (v : Z) (lowerBound : bool) : M Groups :=
  do sp <- split_poly P;
  let cp := - v + sp.2 in
  ret (if is_nil sp.1 || negb (int64_half cp) then G
       else signed_bound G sp.1 cp (if lowerBound then ICMP_SGE else ICMP_SLE)).
(** a bounded quotient bounds the dividend *)
Definition step_sdiv (G : Groups) (op : Pred) (atom : EP) (c : Z) : M Groups :=
  do s <- gets id;
  match sdiv_of s atom with
  | Some (x, k) =>
      let t := - c in
      if lower op then
        let m := if bool_decide (op = ICMP_SGT) then t + 1 else t in
        boundPoly G x (if 1 <=? m then m * k else (m - 1) * k + 1) true
      else
        let m := if bool_decide (op = ICMP_SLT) then t - 1 else t in
        boundPoly G x (if 0 <=? m then (m + 1) * k - 1 else m * k) false
  | None => ret G
  end.
Definition order_holds (op : Pred) (k t : Z) : bool :=
  match op with
  | ICMP_SGT => t <? k | ICMP_SGE => t <=? k | ICMP_SLT => k <? t | _ => k <=? t
  end.
(** a bounded clamp bounds the clamped polynomial where its constant does not decide it *)
Definition step_clamp_order (G : Groups) (op : Pred) (atom : EP) (c : Z) : M (option Groups) :=
  do s <- gets id;
  match clamp_of s atom with
  | Some (isMin, x, y) =>
      match clamped s atom x y with
      | Some (k, P) =>
          let kHolds := order_holds op k (- c) in
          let both := Bool.eqb isMin (lower op) in
          if both && negb kHolds then ret None
          else if both || negb kHolds then
            do sp <- split_poly P;
            ret (Some (if is_nil sp.1 then G else signed_bound G sp.1 (c + sp.2) op))
          else ret (Some G)
      | None => ret (Some G)
      end
  | None => ret (Some G)
  end.
Definition step_order (clamps : bool) (G : Groups) (op : Pred) (pn : list Term) (c : Z) :
    M (option Groups) :=
  do s <- gets id;
  match single_atom s pn with
  | Some atom =>
      if clamps && is_order op
      then do G' <- step_sdiv G op atom c; step_clamp_order G' op atom c
      else ret (Some G)
  | None => ret (Some G)
  end.

(** the literals that are read: comparisons of integers wider than one bit that are not unsigned *)
Definition readable (s : Arena) (l : EP) : option (Pred * EP * EP) :=
  match literal s l with
  | Some (op, a, b) =>
      if negb (isIntPredicate op) || isUnsigned op then None
      else
      match nodes s !! a, nodes s !! b with
      | Some xa, Some xb =>
          if negb (isIntegerTy (ty xa)) || isInt1 (ty xa) || negb (bool_decide (ty xa = ty xb))
             || is_undef_node (node xa) || is_undef_node (node xb)
          then None else Some (op, a, b)
      | _, _ => None
      end
  | None => None
  end.
(** one literal's bounds; [None] when it contradicts its clamp *)
Definition lit_step (clamps : bool) (G : Groups) (l : EP) : M (option Groups) :=
  do s <- gets id;
  match readable s l with
  | Some (op, a, b) =>
      do pa <- asPoly a; do pb <- asPoly b; do d <- sub pa pb;
      do ts <- terms_of d;
      let '(pn, c) := split_const ts in
      if is_nil pn then ret (Some G)
      else
        let '(pn, c, op) :=
          if leading_negative pn then (neg_terms pn, - c, getSwappedPredicate op) else (pn, c, op) in
        do r <- step_clamp_eq (bound G pn c op) op pn c;
        match r with
        | Some G => step_order clamps G op pn c
        | None => ret None
        end
  | None => ret (Some G)
  end.
Fixpoint lits_loop (clamps : bool) (G : Groups) (lits : list EP) : M (option Groups) :=
  match lits with
  | [] => ret (Some G)
  | l :: lits =>
      do r <- lit_step clamps G l;
      match r with Some G => lits_loop clamps G lits | None => ret None end
  end.

(** *** Bounds on a dividend or a clamped polynomial bound the quotient or the clamp *)
Inductive MapKind := MDiv | MMin | MMax.
Definition mapQ (kind : MapKind) (k p : Z) : Z :=
  match kind with MDiv => Z.quot p k | MMin => Z.min p k | MMax => Z.max p k end.
Definition mapped_of (s : Arena) (atom : EP) : option (MapKind * Z * EP) :=
  match sdiv_of s atom with
  | Some (x, k) => if bool_decide (type_at s x = type_at s atom) then Some (MDiv, k, x) else None
  | None =>
      match clamp_of s atom with
      | Some (isMin, x, y) =>
          match clamped s atom x y with
          | Some (k, P) => Some (if isMin then MMin else MMax, k, P)
          | None => None
          end
      | None => None
      end
  end.
Definition big : Z := Z.quot int128_max 8.
(** the range [r] of the atom, narrowed by the range [pr] of [G] where [P = sgn gp G + cp] *)
Definition map_range (kind : MapKind) (k : Z) (neg : bool) (gp cp : Z) (pr r : Range) : Range :=
  let loB := - big <? r_lo pr in
  let hiB := r_hi pr <? big in
  let pLoB := if neg then hiB else loB in
  let pHiB := if neg then loB else hiB in
  let plo := if neg then - gp * r_hi pr + cp else gp * r_lo pr + cp in
  let phi := if neg then - gp * r_lo pr + cp else gp * r_hi pr + cp in
  mkRange (if pLoB then Z.max (r_lo r) (mapQ kind k plo) else r_lo r)
          (if pHiB then Z.min (r_hi r) (mapQ kind k phi) else r_hi r) (r_ne r).
Definition pass_step (G : Groups) (key : list Term) : M (option Groups) :=
  do s <- gets id;
  match single_atom s key with
  | Some atom =>
      match mapped_of s atom with
      | Some (kind, k, P) =>
          do sp <- split_poly P;
          if is_nil sp.1 then ret (Some G)
          else
            let neg := leading_negative sp.1 in
            let '(gp, pp) := primitive (if neg then neg_terms sp.1 else sp.1) in
            match find_group G pp with
            | Some pr =>
                if r_hi pr <? r_lo pr then ret None
                else ret (Some (upd_group G key (map_range kind k neg gp sp.2 pr)))
            | None => ret (Some G)
            end
      | None => ret (Some G)
      end
  | None => ret (Some G)
  end.
Fixpoint pass_loop (G : Groups) (keys : list (list Term)) : M (option Groups) :=
  match keys with
  | [] => ret (Some G)
  | key :: keys =>
      do r <- pass_step G key;
      match r with Some G => pass_loop G keys | None => ret None end
  end.

(** ** The test *)
Definition empty_range (r : Range) : bool :=
  if r_hi r <? r_lo r then true
  else if r_hi r - r_lo r + 1 <=? Z.of_nat (length (r_ne r))
  then forallb (λ v, bool_decide (v ∈ r_ne r)) (seqZ (r_lo r) (r_hi r - r_lo r + 1))
  else false.
Definition contradictory (lits : list EP) (clamps : bool) : M bool :=
  do r <- lits_loop clamps [] lits;
  match r with
  | None => ret true
  | Some G =>
      do r <- (if clamps then
                 do r <- pass_loop G (fst <$> G);
                 match r with Some G => pass_loop G (fst <$> G) | None => ret None end
               else ret (Some G));
      ret match r with None => true | Some G => existsb (λ kr : list Term * Range, empty_range kr.2) G end
  end.
End contra.

(** ** Soundness *)
#[local] Arguments split_const : simpl never.
(** *** Ranges *)
Definition range_ok (r : Range) (v : Z) : Prop := r_lo r <= v <= r_hi r ∧ v ∉ r_ne r.
Definition small (v : Z) : Prop := - 2 ^ 66 <= v <= 2 ^ 66.
Lemma range0_ok v : small v → range_ok range0 v.
Proof.
  intros Hv. split; [|set_solver]. cbn [range0 r_lo r_hi]. unfold small in Hv.
  change no_lo with (- 2 ^ 125). change no_hi with (2 ^ 125 - 1). lia.
Qed.
(** the signed order or (in)equality of [x] with zero *)
Definition sat `{CmpInst} (op : Pred) (x : Z) : Prop :=
  isUnsigned op = false → ∀ b, icmp op 1 x 0 = Some b → b = true.
Lemma unsigned_cases `{CmpInst} op :
  isUnsigned op = false → op ≠ ICMP_UGT ∧ op ≠ ICMP_UGE ∧ op ≠ ICMP_ULT ∧ op ≠ ICMP_ULE.
Proof.
  intros Hu. split_and!; intros ->;
    match type of Hu with isUnsigned ?p = _ => pose proof (proj2 (isUnsigned_spec p)) as Hs end;
    rewrite Hs in Hu; (done || set_solver).
Qed.
Lemma icmp_diff `{CmpInst} op w x y : isUnsigned op = false → icmp op 1 (x - y) 0 = icmp op w x y.
Proof.
  intros Hu%unsigned_cases. destruct op; cbn; try done; try (exfalso; naive_solver); f_equal;
    try apply (f_equal negb); apply eq_true_iff_eq; rewrite ?Z.eqb_eq, ?Z.ltb_lt, ?Z.leb_le; lia.
Qed.
Lemma sat_icmp `{CmpInst} op w x y : icmp op w x y = Some true → sat op (x - y).
Proof. intros Hi Hu b Hb. rewrite (icmp_diff _ w) in Hb by done. congruence. Qed.
Lemma sat_swap `{CmpInst} op x : sat op x → sat (getSwappedPredicate op) (- x).
Proof.
  intros Hs Hu b Hb. rewrite swapped_class in Hu. rewrite swapped_spec in Hb. apply (Hs Hu).
  rewrite <- Hb, <- (icmp_diff op 1 0 (- x)) by done. f_equal. lia.
Qed.
Lemma insert_ne_spec v x l : x ∈ insert_ne v l ↔ x = v ∨ x ∈ l.
Proof. unfold insert_ne. case_bool_decide; set_solver. Qed.
Lemma bound_range_ok `{CmpInst} op c g v r :
  0 < g → sat op (g * v + c) → range_ok r v → range_ok (bound_range op (- c) g r) v.
Proof.
  intros Hg Hs [Hr Hne]. destruct (isUnsigned op) eqn:Hu.
  { apply isUnsigned_spec in Hu. rewrite !elem_of_cons, elem_of_nil in Hu. by destruct_or! Hu; subst op. }
  specialize (Hs Hu). pose proof (order_up g v c Hg) as Hup.
  pose proof (order_down g (- v) c Hg) as Hdn. pose proof (fdiv_floor (- c) g Hg) as Hf.
  pose proof (fdiv_floor c g Hg) as Hfc.
  pose proof (Z.div_mod (- c) g ltac:(lia)) as Hdm. pose proof (Z.mod_pos_bound (- c) g Hg) as Hm.
  pose proof (Z.div_mod c g ltac:(lia)) as Hdm'. pose proof (Z.mod_pos_bound c g Hg) as Hm'.
  pose proof (Z.quot_rem (- c) g ltac:(lia)) as Hq.
  destruct op; try done; cbn [bound_range]; cbn in Hs; specialize (Hs _ eq_refl); unfold cdiv in *;
    rewrite ?negb_true_iff, ?Z.eqb_eq, ?Z.eqb_neq, ?Z.ltb_lt, ?Z.leb_le in Hs;
    rewrite ?Z.opp_involutive in *.
  - (* EQ *) destruct (Z.eqb_spec (Z.rem (- c) g) 0) as [E|E]; cbn [negb].
    + split; cbn [r_lo r_hi r_ne]; [|done]. nia.
    + exfalso. apply E. replace (- c) with (v * g) by lia. apply Z.rem_mul. lia.
  - (* NE *) destruct (Z.eqb_spec (Z.rem (- c) g) 0) as [E|E]; [|done].
    split; cbn [r_lo r_hi r_ne]; [done|]. rewrite insert_ne_spec. intros [Hv|?]; [|done]. nia.
  - split; cbn [r_lo r_hi r_ne]; [|done]. nia.
  - split; cbn [r_lo r_hi r_ne]; [|done]. nia.
  - split; cbn [r_lo r_hi r_ne]; [|done]. nia.
  - split; cbn [r_lo r_hi r_ne]; [|done]. nia.
Qed.
Lemma empty_range_ok r v : range_ok r v → empty_range r = false.
Proof.
  intros [Hr Hne]. unfold empty_range. rewrite (proj2 (Z.ltb_ge _ _)) by lia.
  destruct (_ <=? _); [|done]. apply not_true_iff_false. rewrite forallb_forall. intros Hall.
  apply Hne. specialize (Hall v). rewrite bool_decide_eq_true in Hall. apply Hall.
  apply list_elem_of_In, elem_of_seqZ. lia.
Qed.

(** *** Groups *)
Definition group_ok (v : list Term → Z) (kr : list Term * Range) : Prop := range_ok kr.2 (v kr.1).
Lemma upd_group_ok v G k f :
  Forall (group_ok v) G → small (v k) → (∀ r, range_ok r (v k) → range_ok (f r) (v k)) →
  Forall (group_ok v) (upd_group G k f).
Proof.
  intros HG Hs Hf. induction HG as [|[k' r] G Hr HG IH]; cbn.
  - constructor; [|constructor]. apply Hf. by apply range0_ok.
  - case_bool_decide as E; [subst; constructor; [by apply Hf|done]|].
    destruct (terms_lt k k'); constructor; try done; [|by constructor].
    apply Hf. by apply range0_ok.
Qed.
Lemma find_group_ok v G k r : Forall (group_ok v) G → find_group G k = Some r → range_ok r (v k).
Proof.
  induction 1 as [|[k' r'] G Hr HG IH]; cbn; [done|]. case_bool_decide as E; [|done].
  intros [= <-]. by subst.
Qed.
(** a value of every term list: [peval] under the atoms' values, whatever the store *)
Definition pv (v : nat → Z) : list Term → Z := peval v.

Lemma coef_gcd_spec pn : 0 <= coef_gcd pn ∧ Forall (λ t : Term, (coef_gcd pn | t.2)) pn.
Proof.
  unfold coef_gcd. assert (∀ g, 0 <= g → let r := fold_left (λ g (t : Term), Z.gcd g (Z.abs t.2)) pn g in
    (r | g) ∧ 0 <= r ∧ Forall (λ t : Term, (r | t.2)) pn) as H.
  { induction pn as [|[m c] pn IH]; intros g Hg; cbn; [split_and!; [done|done|constructor]|].
    destruct (IH (Z.gcd g (Z.abs c)) (Z.gcd_nonneg _ _)) as (Hd & Hp & Hall).
    split_and!; [etrans; [exact Hd|apply Z.gcd_divide_l]|done|]. constructor; [|done].
    apply Z.divide_abs_r. etrans; [exact Hd|apply Z.gcd_divide_r]. }
  by destruct (H 0 ltac:(lia)) as (_ & ? & ?).
Qed.
Lemma peval_scale_down v g pn :
  g ≠ 0 → Forall (λ t : Term, (g | t.2)) pn → peval v pn = g * peval v (scale_down pn g).
Proof.
  intros Hg. unfold scale_down. induction 1 as [|[m c] l [q Hq] _ IH]; [cbn; lia|].
  rewrite fmap_cons. cbn in *. subst c. rewrite IH, Z.quot_mul by done. lia.
Qed.
Lemma primitive_spec pn g p :
  primitive pn = (g, p) → 0 < g ∧ (∀ v, peval v pn = g * peval v p) ∧
  ∀ s e, poly_ok s e pn → poly_ok s e p.
Proof.
  unfold primitive. destruct (coef_gcd_spec pn) as [Hg Hall].
  destruct (Z.ltb_spec 1 (coef_gcd pn)); intros [= <- <-].
  - split_and!; [lia| |].
    + intros v. apply peval_scale_down; [lia|done].
    + intros s e Hp. apply Forall_fmap. eapply Forall_impl; [exact Hp|]. done.
  - split_and!; [lia| |done]. intros v. lia.
Qed.
Lemma bound_ok `{CmpInst} v G pn c op :
  Forall (group_ok (pv v)) G → small (peval v pn) → sat op (peval v pn + c) →
  Forall (group_ok (pv v)) (bound G pn c op).
Proof.
  intros HG Hs Hsat. unfold bound. destruct (primitive pn) as [g p] eqn:E.
  destruct (primitive_spec _ _ _ E) as (Hg & Hv & _). rewrite Hv in *.
  apply upd_group_ok; [done| |].
  - unfold small, pv in *. nia.
  - intros r. by apply bound_range_ok.
Qed.
Lemma signed_bound_ok `{CmpInst} v G pn c op :
  Forall (group_ok (pv v)) G → small (peval v pn) → sat op (peval v pn + c) →
  Forall (group_ok (pv v)) (signed_bound G pn c op).
Proof.
  intros HG Hs Hsat. unfold signed_bound. destruct (leading_negative pn); [|by apply bound_ok].
  apply bound_ok; [done| |]; rewrite peval_neg.
  - unfold small in *. lia.
  - replace (- peval v pn + - c) with (- (peval v pn + c)) by lia. by apply sat_swap.
Qed.
Lemma derive_ok `{CmpInst} v G pp cp op2 v2 :
  Forall (group_ok (pv v)) G → small (peval v pp) → sat op2 (peval v pp + (cp - v2)) →
  Forall (group_ok (pv v)) (derive G pp cp op2 v2).
Proof. intros HG Hs Hsat. unfold derive. destruct (int64_half _); [|done]. by apply signed_bound_ok. Qed.
Definition keys_ok (s : Arena) (G : Groups) : Prop :=
  Forall (λ kr : list Term * Range, poly_ok s (length (nodes s)) kr.1) G.
Lemma keys_upd s G k f : keys_ok s G → poly_ok s (length (nodes s)) k → keys_ok s (upd_group G k f).
Proof.
  intros HG Hk. induction HG as [|[k' r] G Hr HG IH]; cbn; [by repeat constructor|].
  case_bool_decide; [by constructor|]. destruct (terms_lt k k'); by repeat constructor.
Qed.
Lemma keys_bound s G pn c op : keys_ok s G → poly_ok s (length (nodes s)) pn → keys_ok s (bound G pn c op).
Proof.
  intros HG Hp. unfold bound. destruct (primitive pn) as [g p] eqn:E.
  destruct (primitive_spec _ _ _ E) as (_ & _ & H). auto using keys_upd.
Qed.
Lemma keys_signed_bound `{CmpInst} s G pn c op :
  keys_ok s G → poly_ok s (length (nodes s)) pn → keys_ok s (signed_bound G pn c op).
Proof.
  intros HG Hp. unfold signed_bound.
  destruct (leading_negative pn); auto using keys_bound, poly_ok_neg.
Qed.
Lemma keys_derive `{CmpInst} s G pp cp op2 v2 :
  keys_ok s G → poly_ok s (length (nodes s)) pp → keys_ok s (derive G pp cp op2 v2).
Proof. intros HG Hp. unfold derive. destruct (int64_half _); auto using keys_signed_bound. Qed.
#[local] Hint Resolve keys_bound keys_signed_bound keys_derive keys_upd : mvcc_arena.

(** the groups hold in a store *)
Definition groups_ok (s : Arena) (ρ : Env) (G : Groups) : Prop := Forall (group_ok (pval s ρ)) G.
Lemma keys_ok_ext s s' G : ext s s' → keys_ok s G → keys_ok s' G.
Proof.
  intros Hx HG. eapply Forall_impl; [exact HG|]. intros kr Hk. eapply poly_ok_ext; [exact Hx| |exact Hk].
  destruct Hx as [Hn _ _ _]. by apply prefix_length.
Qed.
Lemma groups_ok_ext s s' ρ G :
  wf s → wf s' → ext s s' → keys_ok s G → groups_ok s ρ G → groups_ok s' ρ G.
Proof.
  intros Hwf Hwf' Hx HK HG. unfold groups_ok, keys_ok in *. rewrite Forall_forall in *.
  intros kr Hkr. unfold group_ok. rewrite (pval_ext s s') by auto. by apply HG.
Qed.

Create HintDb mvcc_polys.
(** *** Only polynomials are created *)
Definition new_polys (s s' : Arena) : Prop :=
  ∀ e x, nodes s' !! e = Some x → is_poly_node (node x) = false → nodes s !! e = Some x.
Definition makes_polys {A} (m : M A) : Prop := ∀ s r s', m s = Some (r, s') → new_polys s s'.
Lemma new_polys_refl s : new_polys s s.
Proof. by intros e x. Qed.
Lemma new_polys_trans a b c : new_polys a b → new_polys b c → new_polys a c.
Proof. intros H1 H2 e x Hx Hp. auto. Qed.
Lemma polys_ret {A} (x : A) : makes_polys (ret x).
Proof. intros s r s' [= _ <-]. apply new_polys_refl. Qed.
Lemma polys_gets {A} (f : Arena → A) : makes_polys (gets f).
Proof. intros s r s' [= _ <-]. apply new_polys_refl. Qed.
Lemma polys_bind {A B} (m : M A) (f : A → M B) :
  makes_polys m → (∀ x, makes_polys (f x)) → makes_polys (bind m f).
Proof.
  intros Hm Hf s r s' E. unfold bind in E. destruct (m s) as [[x s1]|] eqn:Em; [|done].
  eapply new_polys_trans; [by eapply Hm|by eapply Hf].
Qed.
Lemma polys_deref e : makes_polys (deref e).
Proof. intros s r s' E. unfold deref in E. destruct (nodes s !! e); [|done]. injection E as _ <-. apply new_polys_refl. Qed.
Lemma polys_terms_of e : makes_polys (terms_of e).
Proof. apply polys_bind; [apply polys_deref|]. intros x. destruct (node x); try apply polys_ret; done. Qed.
Lemma polys_ty_of e : makes_polys (ty_of e).
Proof. apply polys_bind; [apply polys_deref|]. intros x. apply polys_ret. Qed.
Lemma polys_mkPoly t ts : makes_polys (mkPoly t ts).
Proof.
  intros s r s' E. unfold mkPoly, intern in E. destruct (find_index _ _) as [k|].
  - injection E as _ <-. apply new_polys_refl.
  - injection E as _ <-. intros e x Hx Hp. cbn in Hx. apply lookup_app_Some in Hx as [Hx|[_ Hx]]; [done|].
    apply list_lookup_singleton_Some in Hx as [_ <-]. done.
Qed.
Lemma polys_atomOf e : makes_polys (atomOf e).
Proof.
  intros s r s' E. unfold atomOf in E. destruct (find_index _ _); injection E as _ <-; by intros k x.
Qed.
Lemma polys_asPoly e : makes_polys (asPoly e).
Proof.
  apply polys_bind; [apply polys_deref|]. intros x.
  assert (makes_polys (bind (atomOf e) (λ a, mkPoly (ty x) [([a], 1)]))) as Ha.
  { apply polys_bind; [apply polys_atomOf|]. intros a. apply polys_mkPoly. }
  destruct (node x); try exact Ha; [|apply polys_ret]. destruct (isIntegerTy _); [apply polys_mkPoly|exact Ha].
Qed.
#[local] Hint Resolve polys_ret polys_gets polys_bind polys_deref polys_terms_of polys_ty_of
  polys_mkPoly polys_atomOf polys_asPoly : mvcc_polys.
Lemma polys_sub a b : makes_polys (sub a b).
Proof. unfold sub, neg, add. auto 20 with mvcc_polys. Qed.
Lemma polys_split P : makes_polys (split_poly P).
Proof. unfold split_poly. auto 20 with mvcc_polys. Qed.
#[local] Hint Resolve polys_sub polys_split : mvcc_polys.

(** *** What is assumed of a valuation: the intrinsics' and the division's meaning, and operands of
    clamps and divisions that fit 64 bits *)
Section valuations.
Context `{CmpInst} (calleeName : nat → string).
Record sem_ok (ρ : Env) : Prop := {
  sem_min t c a args x y : starts (calleeName c) "llvm.smin." = true →
    env_opq ρ t (NCall c a args) [x; y] = Z.min x y;
  sem_max t c a args x y : starts (calleeName c) "llvm.smax." = true →
    env_opq ρ t (NCall c a args) [x; y] = Z.max x y;
  sem_sdiv t args x y : 0 < y → env_opq ρ t (NOp SDiv args) [x; y] = Z.quot x y }.
Definition operand_small (s : Arena) (ρ : Env) (o : EP) : Prop :=
  - 2 ^ 64 <= den s ρ o <= 2 ^ 64 ∧ - 2 ^ 63 <= const_part s o < 2 ^ 63.
Definition operands_small (s : Arena) (ρ : Env) : Prop :=
  (∀ e b x y, clamp_of calleeName s e = Some (b, x, y) → operand_small s ρ x ∧ operand_small s ρ y) ∧
  (∀ e x k, sdiv_of s e = Some (x, k) → operand_small s ρ x).
Definition valuation_ok (s : Arena) (ρ : Env) : Prop := sem_ok ρ ∧ operands_small s ρ.

Lemma clamp_node s e b x y :
  clamp_of calleeName s e = Some (b, x, y) →
  ∃ t c a, nodes s !! e = Some (mkExpr t (NCall c a [x; y])) ∧
    starts (calleeName c) (if b then "llvm.smin."%string else "llvm.smax."%string) = true.
Proof.
  unfold clamp_of. destruct (nodes s !! e) as [[t n]|]; [|done].
  destruct n as [| | | | | | | | |c a [|x' [|y' [|]]]|]; try done.
  destruct (_ && starts _ "llvm.smin.") eqn:E1.
  { intros [= <- <- <-]. apply andb_true_iff in E1 as [_ ?]. eauto 10. }
  destruct (_ && starts _ "llvm.smax.") eqn:E2; [|done].
  intros [= <- <- <-]. apply andb_true_iff in E2 as [_ ?]. eauto 10.
Qed.
Lemma sdiv_node s e x k :
  sdiv_of s e = Some (x, k) →
  ∃ t y, nodes s !! e = Some (mkExpr t (NOp SDiv [x; y])) ∧ constInt s y = Some k ∧ 0 < k.
Proof.
  unfold sdiv_of. destruct (nodes s !! e) as [[t n]|]; [|done].
  destruct n as [| | |op args| | | | | | |]; try done.
  destruct op; try done. destruct args as [|x' [|y' [|]]]; try done.
  destruct (constInt s y') as [k'|] eqn:Ek; [|done]. destruct (Z.ltb_spec 0 k'); [|done].
  intros [= <- <-]. eauto 10.
Qed.
Lemma child_valid s e x c : wf s → nodes s !! e = Some x → c ∈ children (node x) → valid s c.
Proof.
  intros Hwf Hx Hc. destruct (wf_nodes _ Hwf _ _ Hx) as [Hall _]. rewrite Forall_forall in Hall.
  specialize (Hall _ Hc). apply lookup_lt_Some in Hx. unfold valid. lia.
Qed.
Lemma constInt_ext s s' e : ext s s' → valid s e → constInt s' e = constInt s e.
Proof. intros Hx [x He]%valid_lookup. unfold constInt. by rewrite He, (ext_node _ _ _ _ Hx He). Qed.
Lemma operand_small_ext s s' ρ o :
  wf s → wf s' → ext s s' → valid s o → operand_small s ρ o → operand_small s' ρ o.
Proof.
  intros Hwf Hwf' Hx Hv [H1 H2]. unfold operand_small.
  by rewrite (den_ext s s'), (const_part_ext s s') by done.
Qed.
Lemma valuation_ok_ext s s' ρ :
  wf s → wf s' → ext s s' → new_polys s s' → valuation_ok s ρ → valuation_ok s' ρ.
Proof.
  intros Hwf Hwf' Hx Hn [Hsem [Hc Hd]]. split; [done|]. split.
  - intros e b x y He. pose proof (clamp_node _ _ _ _ _ He) as (t & c & a & Hnode & _).
    pose proof (Hn _ _ Hnode eq_refl) as Hnode0.
    assert (clamp_of calleeName s e = Some (b, x, y)) as He0.
    { unfold clamp_of in *. by rewrite Hnode in He; rewrite Hnode0. }
    destruct (Hc _ _ _ _ He0). split; (apply (operand_small_ext s); [done..| |done]);
      (eapply child_valid; [done|exact Hnode0|]); cbn; set_solver.
  - intros e x k He. pose proof (sdiv_node _ _ _ _ He) as (t & y & Hnode & Hk & Hpos).
    pose proof (Hn _ _ Hnode eq_refl) as Hnode0.
    assert (valid s y) as Hvy by (eapply child_valid; [done|exact Hnode0|cbn; set_solver]).
    assert (sdiv_of s e = Some (x, k)) as He0.
    { unfold sdiv_of. rewrite Hnode0, <- (constInt_ext s s'), Hk by done.
      by rewrite (proj2 (Z.ltb_lt 0 k)). }
    apply (operand_small_ext s); [done..| |by eapply Hd].
    eapply child_valid; [done|exact Hnode0|]; cbn; set_solver.
Qed.
(** values *)
Lemma clamp_value s ρ e b x y :
  wf s → sem_ok ρ → clamp_of calleeName s e = Some (b, x, y) →
  den s ρ e = if b then Z.min (den s ρ x) (den s ρ y) else Z.max (den s ρ x) (den s ρ y).
Proof.
  intros Hwf Hs He. destruct (clamp_node _ _ _ _ _ He) as (t & c & a & Hn & Hst).
  rewrite (den_unfold _ _ _ _ Hwf Hn). unfold eval_node; cbn.
  destruct b; [by apply (sem_min _ Hs)|by apply (sem_max _ Hs)].
Qed.
Lemma sdiv_value s ρ e x k :
  wf s → sem_ok ρ → sdiv_of s e = Some (x, k) → 0 < k ∧ den s ρ e = Z.quot (den s ρ x) k.
Proof.
  intros Hwf Hs He. destruct (sdiv_node _ _ _ _ He) as (t & y & Hn & Hk & Hpos). split; [done|].
  rewrite (den_unfold _ _ _ _ Hwf Hn). unfold eval_node; cbn.
  rewrite <- (constInt_value _ ρ _ _ Hwf Hk). apply (sem_sdiv _ Hs).
  by rewrite (constInt_value _ ρ _ _ Hwf Hk).
Qed.
Lemma clamped_value s ρ e b x y k P :
  wf s → sem_ok ρ → clamp_of calleeName s e = Some (b, x, y) → clamped s e x y = Some (k, P) →
  den s ρ e = (if b then Z.min k (den s ρ P) else Z.max k (den s ρ P)) ∧ (P = x ∨ P = y) ∧
  is_Some (type_at s P) ∧ (∃ o, (o = x ∨ o = y) ∧ den s ρ o = k).
Proof.
  intros Hwf Hs He Hc. rewrite (clamp_value _ _ _ _ _ _ Hwf Hs He).
  destruct (clamp_node _ _ _ _ _ He) as (t & c & a & Hn & _). unfold clamped in Hc.
  destruct (constInt s y) as [ky|] eqn:Ey.
  - case_bool_decide as Et; [|done]. injection Hc as <- <-. rewrite (constInt_value _ ρ _ _ Hwf Ey).
    split_and!; [destruct b; lia|by left| |].
    + rewrite Et. unfold type_at. rewrite Hn. by eexists.
    + exists y. split; [by right|]. by apply constInt_value.
  - destruct (constInt s x) as [kx|] eqn:Ex; [|done]. case_bool_decide as Et; [|done].
    injection Hc as <- <-. rewrite (constInt_value _ ρ _ _ Hwf Ex).
    split_and!; [destruct b; lia|by right| |].
    + rewrite Et. unfold type_at. rewrite Hn. by eexists.
    + exists x. split; [by left|]. by apply constInt_value.
Qed.
Lemma single_value s ρ pn atom : single_atom s pn = Some atom → pval s ρ pn = den s ρ atom.
Proof.
  unfold single_atom. destruct pn as [|[[|a [|]] c] [|]]; try done.
  destruct (Z.eqb_spec c 1) as [->|]; [|done]. intros Ha. unfold pval, atom_val; cbn [peval mono fst snd].
  rewrite Ha. lia.
Qed.
Lemma spec_polys {A} (m : M A) s (Q : A → Arena → Prop) :
  spec m s Q → makes_polys m → spec m s (λ r s', new_polys s s' ∧ Q r s').
Proof. intros (r & s' & E & ? & ? & ?) Hm. exists r, s'. split_and!; eauto. Qed.
Lemma split_poly_spec s P t :
  wf s → type_at s P = Some t →
  spec (split_poly P) s (λ sp s', new_polys s s' ∧ poly_ok s' (length (nodes s')) sp.1 ∧
    sp.2 = const_part s P ∧ ∀ ρ, den s ρ P = pval s' ρ sp.1 + sp.2).
Proof.
  intros Hwf Ht. apply spec_polys; [|apply polys_split].
  eapply spec_bind; [by apply asPoly_spec|]. cbn. intros p s1 Hwf1 Hx1 [(ts & Hp & Hc) Hd].
  eapply spec_terms_of; [exact Hp|]. apply spec_ret; [done|].
  destruct (split_const ts) as [pp cp] eqn:E. destruct (poly_at _ _ _ _ Hwf1 Hp) as [Hn Hok].
  destruct (split_const_spec _ _ _ E Hn) as [-> Hv]. cbn. split_and!; [|done|].
  - injection E as <- _. unfold poly_ok in *. rewrite Forall_forall in *.
    intros t' Ht'%list_elem_of_filter. apply Hok. naive_solver.
  - intros ρ. rewrite <- Hd, (den_poly _ _ _ _ _ Hwf1 Hp). apply Hv.
Qed.
End valuations.

(** *** The steps *)
Section steps.
Context `{CmpInst} (calleeName : nat → string).
(** a step keeps the keys well formed; in a valuation with [K] it does not report a contradiction
    and the groups it leaves hold *)
Definition step_post (s : Arena) (G : Groups) (K : Env → Prop) (r : option Groups) (s' : Arena) : Prop :=
  new_polys s s' ∧ (∀ G', r = Some G' → keys_ok s' G') ∧
  ∀ ρ, valuation_ok calleeName s ρ → groups_ok s ρ G → K ρ → ∃ G', r = Some G' ∧ groups_ok s' ρ G'.
Lemma step_none s G K : wf s → keys_ok s G → spec (ret (Some G)) s (step_post s G K).
Proof.
  intros Hwf HK. apply spec_ret; [done|]. split_and!; [apply new_polys_refl|by intros G' [= <-]|eauto].
Qed.
Lemma sat_eq x : sat ICMP_EQ x → x = 0.
Proof.
  intros Hs. apply Z.eqb_eq. apply Hs; [|done]. apply not_true_iff_false. rewrite isUnsigned_spec. set_solver.
Qed.
Lemma sat_ne x : sat ICMP_NE x → x ≠ 0.
Proof.
  intros Hs. apply Z.eqb_neq, negb_true_iff. apply Hs; [|done].
  apply not_true_iff_false. rewrite isUnsigned_spec. set_solver.
Qed.
Lemma sat_intro op x : icmp op 1 x 0 = Some true → sat op x.
Proof. intros Hi _ b Hb. congruence. Qed.
Lemma clamp_eq_ok v G op (isMin : bool) k val pp cp P a :
  Forall (group_ok (pv v)) G → small (peval v pp) → P = peval v pp + cp →
  op = ICMP_NE ∨ op = ICMP_EQ → a = (if isMin then Z.min k P else Z.max k P) → sat op (a + - val) →
  ∃ G', clamp_eq G op isMin k val pp cp = Some G' ∧ Forall (group_ok (pv v)) G'.
Proof.
  intros HG Hs HP Hop Ha Hsat. unfold clamp_eq.
  destruct Hop as [->| ->];
    [rewrite bool_decide_true by done; apply sat_ne in Hsat
    |rewrite bool_decide_false by done; apply sat_eq in Hsat].
  - eexists. split; [done|]. destruct (Z.eqb_spec val k) as [->|Hne].
    + apply derive_ok; [done..|]. apply sat_intro.
      destruct isMin; cbn; f_equal; apply Z.ltb_lt; lia.
    + destruct (_ || _) eqn:E; [|done]. apply derive_ok; [done..|]. apply sat_intro. cbn. f_equal.
      rewrite negb_true_iff, Z.eqb_neq.
      destruct isMin; cbn in E; rewrite ?orb_false_r, ?Z.ltb_lt in E; lia.
  - destruct (_ || _) eqn:E.
    { exfalso. destruct isMin; cbn in E; rewrite ?orb_false_r, ?Z.ltb_lt in E; lia. }
    destruct (Z.eqb_spec val k) as [->|Hne]; eexists; (split; [done|]); (apply derive_ok; [done..|]);
      apply sat_intro.
    + destruct isMin; cbn; f_equal; apply Z.leb_le; lia.
    + cbn. f_equal. apply Z.eqb_eq. destruct isMin; cbn in E; rewrite ?orb_false_r, ?Z.ltb_ge in E; lia.
Qed.
Lemma keys_clamp_eq s G op isMin k val pp cp G' :
  keys_ok s G → poly_ok s (length (nodes s)) pp → clamp_eq G op isMin k val pp cp = Some G' → keys_ok s G'.
Proof.
  intros HK Hp. unfold clamp_eq. repeat (case_match; try done); intros [= <-]; auto with mvcc_arena.
Qed.
Lemma clamped_type s e b x y k P :
  clamp_of calleeName s e = Some (b, x, y) → clamped s e x y = Some (k, P) → is_Some (type_at s P).
Proof.
  intros He Hc. destruct (clamp_node _ _ _ _ _ _ He) as (t & c & a & Hn & _). unfold clamped in Hc.
  assert (is_Some (type_at s e)) as Ht by (unfold type_at; rewrite Hn; by eexists).
  destruct (constInt s y); [|destruct (constInt s x); [|done]];
    (case_bool_decide as Et; [|done]); injection Hc as _ <-; by rewrite Et.
Qed.
Lemma step_clamp_eq_spec s G op pn c :
  wf s → keys_ok s G → poly_ok s (length (nodes s)) pn →
  spec (step_clamp_eq calleeName G op pn c) s (step_post s G (λ ρ, sat op (pval s ρ pn + c))).
Proof.
  intros Hwf HK Hp. apply gets_spec. unfold id.
  destruct (single_atom s pn) as [atom|] eqn:Ea; [|by apply step_none].
  destruct (negb _) eqn:Eop; [by apply step_none|].
  apply negb_false_iff, bool_decide_eq_true in Eop.
  destruct (clamp_of calleeName s atom) as [[[isMin x] y]|] eqn:Ec; [|by apply step_none].
  destruct (clamped s atom x y) as [[k P]|] eqn:EP; [|by apply step_none].
  destruct (clamped_type _ _ _ _ _ _ _ Ec EP) as [t Ht].
  eapply spec_bind; [by eapply split_poly_spec|]. cbn [fst snd]. intros [pp cp] s1 Hwf1 Hx1 (Hn1 & Hpp & Hcp & Hd).
  cbn in *. apply spec_ret; [done|].
  assert (∀ G', (if is_nil pp then Some G else clamp_eq G op isMin k (- c) pp cp) = Some G' → keys_ok s1 G') as HK'.
  { intros G'. assert (keys_ok s1 G) by (by eapply keys_ok_ext). destruct (is_nil pp); [by intros [= <-]|].
    by apply keys_clamp_eq. }
  split_and!; [done|done|]. intros ρ Hval HG Hsat.
  assert (groups_ok s1 ρ G) as HG1 by (by apply (groups_ok_ext s)). destruct Hval as [Hsem [Hsm _]].
  destruct (clamped_value _ _ ρ _ _ _ _ _ _ Hwf Hsem Ec EP) as (Hv & HPxy & _ & _).
  destruct (is_nil pp); [by exists G|].
  apply (clamp_eq_ok (atom_val s1 (den s1 ρ)) G op isMin k (- c) pp cp (den s ρ P) (den s ρ atom)); [done| |apply Hd|done|done|].
  - destruct (Hsm _ _ _ _ Ec) as [[? ?] [? ?]]. specialize (Hd ρ). unfold small. fold (pval s1 ρ pp).
    destruct HPxy; subst P cp; lia.
  - rewrite Z.opp_involutive, <- (single_value _ _ _ _ Ea). done.
Qed.

(** a step that cannot report a contradiction *)
Definition bounds_post (s : Arena) (G : Groups) (K : Env → Prop) (G' : Groups) (s' : Arena) : Prop :=
  new_polys s s' ∧ keys_ok s' G' ∧
  ∀ ρ, valuation_ok calleeName s ρ → groups_ok s ρ G → K ρ → groups_ok s' ρ G'.
Lemma boundPoly_spec s G P t v (lb : bool) :
  wf s → keys_ok s G → type_at s P = Some t →
  spec (boundPoly G P v lb) s (bounds_post s G (λ ρ,
    operand_small s ρ P ∧ if lb then v <= den s ρ P else den s ρ P <= v)).
Proof.
  intros Hwf HK Ht. eapply spec_bind; [by eapply split_poly_spec|].
  intros [pp cp] s1 Hwf1 Hx1 (Hn1 & Hpp & Hcp & Hd). cbn [fst snd] in *. apply spec_ret; [done|].
  assert (keys_ok s1 G) as HK1 by (by eapply keys_ok_ext).
  split_and!; [done|destruct (_ || _); auto with mvcc_arena|]. intros ρ Hval HG [[Hs1 Hs2] Hb].
  assert (groups_ok s1 ρ G) as HG1 by (by apply (groups_ok_ext s)).
  destruct (_ || _); [done|]. specialize (Hd ρ).
  apply signed_bound_ok; [done|unfold small; fold (pval s1 ρ pp); lia|].
  fold (pval s1 ρ pp). apply sat_intro. destruct lb; cbn; f_equal; apply Z.leb_le; lia.
Qed.
Lemma quot_bounds x k :
  0 < k → let q := Z.quot x k in
  (0 <= x → 0 <= q ∧ k * q <= x < k * (q + 1)) ∧ (x < 0 → q <= 0 ∧ k * (q - 1) < x <= k * q).
Proof.
  intros Hk q. pose proof (Z.quot_rem x k ltac:(lia)) as E. fold q in E. split; intros Hx.
  - pose proof (Z.rem_bound_pos x k ltac:(lia) Hk). split; [by apply Z.quot_pos|]. nia.
  - pose proof (Z.rem_bound_pos_neg x k ltac:(lia) ltac:(lia)). nia.
Qed.
Lemma sat_lower op x : lower op = true → sat op x → if bool_decide (op = ICMP_SGT) then 0 < x else 0 <= x.
Proof.
  unfold lower. rewrite bool_decide_eq_true. intros Hop Hs.
  assert (isUnsigned op = false) as Hu.
  { apply not_true_iff_false. rewrite isUnsigned_spec. destruct Hop as [->| ->]; set_solver. }
  specialize (Hs Hu). destruct Hop as [->| ->].
  - rewrite bool_decide_true by done. apply Z.ltb_lt. by apply Hs.
  - rewrite bool_decide_false by done. apply Z.leb_le. by apply Hs.
Qed.
Lemma sat_upper op x :
  op = ICMP_SLT ∨ op = ICMP_SLE → sat op x → if bool_decide (op = ICMP_SLT) then x < 0 else x <= 0.
Proof.
  intros Hop Hs.
  assert (isUnsigned op = false) as Hu.
  { apply not_true_iff_false. rewrite isUnsigned_spec. destruct Hop as [->| ->]; set_solver. }
  specialize (Hs Hu). destruct Hop as [->| ->].
  - rewrite bool_decide_true by done. apply Z.ltb_lt. by apply Hs.
  - rewrite bool_decide_false by done. apply Z.leb_le. by apply Hs.
Qed.
Lemma is_order_upper op : is_order op = true → lower op = false → op = ICMP_SLT ∨ op = ICMP_SLE.
Proof.
  unfold is_order, lower. rewrite bool_decide_eq_true, bool_decide_eq_false. naive_solver.
Qed.
Lemma spec_bounds_none s G K : wf s → keys_ok s G → spec (ret G) s (bounds_post s G K).
Proof. intros. apply spec_ret; [done|]. split_and!; [apply new_polys_refl|done|eauto]. Qed.
Lemma bounds_mono s G (K K' : Env → Prop) m :
  spec m s (bounds_post s G K) → (∀ ρ, valuation_ok calleeName s ρ → K' ρ → K ρ) →
  spec m s (bounds_post s G K').
Proof.
  intros Hm HK. eapply spec_mono; [exact Hm|]. intros G' s' _ _ (? & ? & H3). split_and!; [done..|].
  intros ρ Hval HG HK'. apply H3; auto.
Qed.
Lemma step_sdiv_spec s G op atom c :
  wf s → keys_ok s G → is_order op = true →
  spec (step_sdiv G op atom c) s (bounds_post s G (λ ρ, sat op (den s ρ atom + c))).
Proof.
  intros Hwf HK Hop. apply gets_spec. unfold id.
  destruct (sdiv_of s atom) as [[x k]|] eqn:Ed; [|by apply spec_bounds_none].
  destruct (sdiv_node _ _ _ _ Ed) as (t & y & Hnode & _ & Hk).
  assert (valid s x) as [nx Hx]%valid_lookup by (eapply child_valid; [done|exact Hnode|cbn; set_solver]).
  assert (type_at s x = Some (ty nx)) as Htx by (unfold type_at; by rewrite Hx).
  destruct (lower op) eqn:El; (eapply bounds_mono; [by eapply boundPoly_spec|]);
    intros ρ [Hsem [_ Hsm]] Hsat; (split; [by eapply Hsm|]);
    destruct (sdiv_value _ _ ρ _ _ _ Hwf Hsem Ed) as [_ Hv]; rewrite Hv in Hsat;
    pose proof (quot_bounds (den s ρ x) k Hk) as Hq; cbn zeta in Hq;
    set (q := Z.quot (den s ρ x) k) in *; set (X := den s ρ x) in *.
  - apply sat_lower in Hsat; [|done]. destruct (bool_decide (op = ICMP_SGT));
      (destruct (Z.leb_spec 1 (- c)); destruct (Z.leb_spec 1 (- c + 1)); destruct (Z.ltb_spec X 0)); nia.
  - apply (sat_upper _ _ (is_order_upper _ Hop El)) in Hsat. destruct (bool_decide (op = ICMP_SLT));
      (destruct (Z.leb_spec 0 (- c)); destruct (Z.leb_spec 0 (- c - 1)); destruct (Z.ltb_spec X 0)); nia.
Qed.

Lemma sat_order_holds op x c : is_order op = true → (sat op (x + c) ↔ order_holds op x (- c) = true).
Proof.
  unfold is_order. rewrite bool_decide_eq_true. intros Hop.
  assert (isUnsigned op = false) as Hu.
  { apply not_true_iff_false. rewrite isUnsigned_spec. destruct_or! Hop; subst; set_solver. }
  split.
  - intros Hs. specialize (Hs Hu).
    destruct_or! Hop; subst; cbn in *; specialize (Hs _ eq_refl); rewrite ?Z.ltb_lt, ?Z.leb_le in *; lia.
  - intros Ho. apply sat_intro.
    destruct_or! Hop; subst; cbn in *; f_equal; rewrite ?Z.ltb_lt, ?Z.leb_le in *; lia.
Qed.
Lemma order_clamp op (isMin : bool) k P c a :
  is_order op = true → a = (if isMin then Z.min k P else Z.max k P) → sat op (a + c) →
  let kHolds := order_holds op k (- c) in
  let both := Bool.eqb isMin (lower op) in
  (both && negb kHolds = false) ∧ (both || negb kHolds = true → sat op (P + c)).
Proof.
  intros Hop Ha. cbn zeta. rewrite !sat_order_holds by done. intros Hs.
  unfold is_order in Hop. apply bool_decide_eq_true in Hop.
  destruct_or! Hop; subst op; destruct isMin; subst a;
    match goal with |- context [lower ?p] =>
      let b := eval vm_compute in (lower p) in change (lower p) with b end;
    cbn [order_holds Bool.eqb andb orb negb] in *;
    rewrite ?Z.ltb_lt, ?Z.leb_le in Hs;
    (split; [try (apply negb_false_iff; rewrite ?Z.ltb_lt, ?Z.leb_le; lia); try done
            |rewrite ?negb_true_iff, ?Z.ltb_lt, ?Z.leb_le, ?Z.ltb_ge, ?Z.leb_gt; lia]).
Qed.
Lemma step_clamp_order_spec s G op atom c :
  wf s → keys_ok s G → is_order op = true →
  spec (step_clamp_order calleeName G op atom c) s (step_post s G (λ ρ, sat op (den s ρ atom + c))).
Proof.
  intros Hwf HK Hop. apply gets_spec. unfold id.
  destruct (clamp_of calleeName s atom) as [[[isMin x] y]|] eqn:Ec; [|by apply step_none].
  destruct (clamped s atom x y) as [[k P]|] eqn:EP; [|by apply step_none].
  destruct (clamped_type _ _ _ _ _ _ _ Ec EP) as [t Ht].
  assert (∀ ρ, valuation_ok calleeName s ρ → sat op (den s ρ atom + c) →
    Bool.eqb isMin (lower op) && negb (order_holds op k (- c)) = false ∧
    (Bool.eqb isMin (lower op) || negb (order_holds op k (- c)) = true → sat op (den s ρ P + c)) ∧
    operand_small s ρ P) as Hval.
  { intros ρ [Hsem [Hsm _]] Hsat.
    destruct (clamped_value _ _ ρ _ _ _ _ _ _ Hwf Hsem Ec EP) as (Hv & HPxy & _ & _).
    destruct (order_clamp op isMin k (den s ρ P) c _ Hop Hv Hsat) as [H1 H2]. split_and!; [done|done|].
    destruct (Hsm _ _ _ _ Ec). by destruct HPxy; subst. }
  destruct (_ && _) eqn:E1.
  { apply spec_ret; [done|]. split_and!; [apply new_polys_refl|done|].
    intros ρ Hv _ Hsat. by destruct (Hval ρ Hv Hsat). }
  destruct (_ || _) eqn:E2; [|by apply step_none].
  eapply spec_bind; [by eapply split_poly_spec|].
  intros [pp cp] s1 Hwf1 Hx1 (Hn1 & Hpp & Hcp & Hd). cbn [fst snd] in *. apply spec_ret; [done|].
  assert (keys_ok s1 G) as HK1 by (by eapply keys_ok_ext).
  split_and!; [done|intros G' [= <-]; destruct (is_nil pp); auto with mvcc_arena|].
  intros ρ Hv HG Hsat. destruct (Hval ρ Hv Hsat) as (_ & HP & [Hs1 Hs2]). specialize (HP eq_refl).
  assert (groups_ok s1 ρ G) as HG1 by (by apply (groups_ok_ext s)).
  eexists. split; [done|]. destruct (is_nil pp); [done|]. specialize (Hd ρ).
  apply signed_bound_ok; [done|unfold small; fold (pval s1 ρ pp); lia|].
  fold (pval s1 ρ pp). replace (pval s1 ρ pp + (c + cp)) with (den s ρ P + c) by lia. done.
Qed.
Lemma step_order_spec clamps s G op pn c :
  wf s → keys_ok s G → poly_ok s (length (nodes s)) pn →
  spec (step_order calleeName clamps G op pn c) s (step_post s G (λ ρ, sat op (pval s ρ pn + c))).
Proof.
  intros Hwf HK Hp. apply gets_spec. unfold id.
  destruct (single_atom s pn) as [atom|] eqn:Ea; [|by apply step_none].
  destruct (_ && _) eqn:E; [|by apply step_none]. apply andb_true_iff in E as [_ Hop].
  assert (valid s atom) as Hva.
  { unfold single_atom in Ea. destruct pn as [|[[|a [|]] z] [|]]; try done.
    destruct (z =? 1); [|done]. by eapply wf_atoms. }
  eapply spec_bind; [by apply step_sdiv_spec|]. intros G1 s1 Hwf1 Hx1 (Hn1 & HK1 & HG1).
  eapply spec_mono; [by apply step_clamp_order_spec|]. intros r s2 Hwf2 Hx2 (Hn2 & HK2 & HG2).
  split_and!; [by eapply new_polys_trans|done|]. intros ρ Hv HG Hsat.
  rewrite (single_value _ _ _ _ Ea) in Hsat. apply HG2; [by apply (valuation_ok_ext _ s)|by apply HG1|].
  by rewrite (den_ext s s1).
Qed.

(** *** One literal *)
Lemma fact_ok_ext s s' ρ l :
  wf s → wf s' → ext s s' → valid s l → fact_ok s ρ l → fact_ok s' ρ l.
Proof.
  intros Hwf Hwf' Hx Hv [Hh Hf]. pose proof Hv as [x Hl]%valid_lookup.
  assert (literal s' l = literal s l) as El.
  { unfold literal. by rewrite Hl, (ext_node _ _ _ _ Hx Hl). }
  split; [unfold holds; by rewrite (den_ext s s')|]. destruct Hf as [(w & Hty & Hir)|(p & a & b & E & ?)].
  2: { right. exists p, a, b. by rewrite El. }
  left. exists w. split.
  - intros p a b E. rewrite El in E. destruct (Hty _ _ _ E) as (t & Ha & Hb & ? & ? & ? & ? & ?).
    exists t. rewrite !(const_part_ext s s') by eauto with mvcc_arena.
    split; [eauto with mvcc_arena|]. split; [eauto with mvcc_arena|]. tauto.
  - intros p a b E. rewrite El in E. destruct (Hty _ _ _ E) as (t & Ha & Hb & _).
    rewrite !(den_ext s s') by eauto with mvcc_arena. by eapply Hir.
Qed.
Lemma readable_literal s l op a b :
  readable s l = Some (op, a, b) →
  literal s l = Some (op, a, b) ∧ isUnsigned op = false ∧ ∃ ta tb, type_at s a = Some ta ∧ type_at s b = Some tb.
Proof.
  unfold readable. destruct (literal s l) as [[[op' a'] b']|] eqn:El; [|done].
  destruct (negb _ || isUnsigned op') eqn:E; [done|]. apply orb_false_iff in E as [_ Hu].
  destruct (nodes s !! a') as [xa|] eqn:Ha; [|done]. destruct (nodes s !! b') as [xb|] eqn:Hb; [|done].
  destruct (_ || _); [done|]. intros [= -> -> ->]. split_and!; [done..|].
  unfold type_at. rewrite Ha, Hb. eauto.
Qed.
Lemma readable_not_float s l op a b : readable s l = Some (op, a, b) → float_cmp s l → False.
Proof.
  unfold readable. intros Hr (p & a' & b' & El & Hp). rewrite El in Hr.
  destruct (isIntPredicate p) eqn:E; [|done]. by apply (isIntPredicate_spec 1) in E.
Qed.
Definition diff_value (s : Arena) (ρ : Env) (a b : EP) : Z := den s ρ a - den s ρ b.
Lemma lit_step_spec clamps s G l :
  wf s → keys_ok s G → valid s l →
  spec (lit_step calleeName clamps G l) s (step_post s G (λ ρ, fact_ok s ρ l)).
Proof.
  intros Hwf HK Hvl. apply gets_spec. unfold id.
  destruct (readable s l) as [[[op a] b]|] eqn:Er; [|by apply step_none].
  destruct (readable_literal _ _ _ _ _ Er) as (El & Hu & ta & tb & Hta & Htb).
  eapply spec_bind; [apply spec_polys; [by eapply asPoly_spec|apply polys_asPoly]|].
  cbn. intros pa s1 Hwf1 Hx1 [Hn1 [(tsa & Hpa & Hca) Hda]].
  eapply spec_bind; [apply spec_polys; [eapply (asPoly_spec s1 b); eauto with mvcc_arena|apply polys_asPoly]|].
  cbn. intros pb s2 Hwf2 Hx2 [Hn2 [(tsb & Hpb & Hcb) Hdb]].
  eapply spec_bind; [apply spec_polys; [eapply (sub_poly_spec s2 pa pb); eauto with mvcc_arena|apply polys_sub]|].
  cbn. intros d s3 Hwf3 Hx3 [Hn3 [(ts & Hd & Hcd) Hdd]].
  eapply spec_terms_of; [exact Hd|]. destruct (split_const ts) as [pn c] eqn:Es.
  destruct (poly_at _ _ _ _ Hwf3 Hd) as [Hnm Hok].
  assert (poly_ok s3 (length (nodes s3)) pn) as Hpn.
  { unfold split_const in Es. injection Es as <- _. unfold poly_ok in *. rewrite Forall_forall in *.
    intros t' Ht'%list_elem_of_filter. apply Hok. naive_solver. }
  assert (ext s s3) as Hx by (by repeat (etrans; [eassumption|])).
  assert (new_polys s s3) as Hn by eauto using new_polys_trans.
  assert (keys_ok s3 G) as HK3 by (by eapply keys_ok_ext).
  assert (∀ ρ, fact_ok s ρ l → sat op (pval s3 ρ pn + c) ∧ small (pval s3 ρ pn)) as Hlit.
  { intros ρ [Hh [(w & Hty & Hir)|Hfl]]; [|by destruct (readable_not_float _ _ _ _ _ Er Hfl)].
    pose proof (literal_value s ρ w Hwf _ _ _ _ Hty El) as Hv.
    unfold holds in Hh. rewrite Hh in Hv. destruct (poly_split _ ρ _ _ _ _ _ Hwf3 Hd Es) as [Hc Hval].
    assert (den s3 ρ d = den s ρ a - den s ρ b) as Hdiff.
    { rewrite Hdd, (den_ext s1 s2 ρ pa), Hda, Hdb, (den_ext s s1 ρ b) by eauto with mvcc_arena. done. }
    rewrite <- Hval, Hdiff. split; [by eapply sat_icmp|].
    destruct (Hty _ _ _ El) as (t & _ & _ & _ & Hw & Hka & Hkb & _). destruct (Hir _ _ _ El) as [Hra Hrb].
    destruct (pow_half w Hw) as [_ Hpw]. unfold in_range, small in *.
    assert (c = const_part s a - const_part s b) as Hcc.
    { rewrite Hc. unfold const_part at 1. rewrite Hd. rewrite Hcd, Hca, Hcb.
      by rewrite (const_part_ext s s1) by eauto with mvcc_arena. }
    lia. }
  destruct (is_nil pn).
  { apply spec_ret; [done|]. split_and!; [done|by intros G' [= <-]|]. intros ρ Hval HG _.
    exists G. split; [done|]. by apply (groups_ok_ext s). }
  set (neg := leading_negative pn).
  set (pn' := if neg then neg_terms pn else pn). set (c' := if neg then - c else c).
  set (op' := if neg then getSwappedPredicate op else op).
  assert ((if neg then (neg_terms pn, - c, getSwappedPredicate op) else (pn, c, op)) = (pn', c', op')) as ->
    by (unfold pn', c', op'; by destruct neg).
  assert (∀ ρ, fact_ok s ρ l → sat op' (pval s3 ρ pn' + c') ∧ small (pval s3 ρ pn')) as Hlit'.
  { intros ρ Hf. destruct (Hlit ρ Hf) as [H1 H2]. unfold op', pn', c'. destruct neg; [|done].
    unfold pval in *. rewrite peval_neg. unfold small in *. split; [|lia].
    replace (- peval (atom_val s3 (den s3 ρ)) pn + - c) with (- (peval (atom_val s3 (den s3 ρ)) pn + c)) by lia.
    by apply sat_swap. }
  assert (poly_ok s3 (length (nodes s3)) pn') as Hpn' by (unfold pn'; destruct neg; auto with mvcc_arena).
  eapply spec_bind; [apply step_clamp_eq_spec; auto with mvcc_arena|].
  intros r s4 Hwf4 Hx4 (Hn4 & HK4 & HG4). destruct r as [G1|].
  - eapply spec_mono; [apply step_order_spec; [done|by apply HK4|]|].
    { eapply poly_ok_ext; [exact Hx4| |exact Hpn']. destruct Hx4 as [Hp4 _ _ _]. by apply prefix_length in Hp4. }
    intros r s5 Hwf5 Hx5 (Hn5 & HK5 & HG5).
    split_and!; [eauto using new_polys_trans|done|]. intros ρ Hval HG Hf. destruct (Hlit' ρ Hf) as [H1 H2].
    assert (valuation_ok calleeName s3 ρ) as Hv3 by (by apply (valuation_ok_ext _ s)).
    assert (groups_ok s3 ρ G) as HG3 by (by apply (groups_ok_ext s)).
    destruct (HG4 ρ Hv3 (bound_ok _ _ _ _ _ HG3 H2 H1) H1) as (G2 & [= <-] & HG2).
    apply HG5; [by apply (valuation_ok_ext _ s3)|done|]. by rewrite (pval_ext s3 s4).
  - apply spec_ret; [done|]. split_and!; [eauto using new_polys_trans|done|]. intros ρ Hval HG Hf.
    destruct (Hlit' ρ Hf) as [H1 H2].
    assert (valuation_ok calleeName s3 ρ) as Hv3 by (by apply (valuation_ok_ext _ s)).
    assert (groups_ok s3 ρ G) as HG3 by (by apply (groups_ok_ext s)).
    destruct (HG4 ρ Hv3 (bound_ok _ _ _ _ _ HG3 H2 H1) H1) as (G2 & ? & _). done.
Qed.
Lemma lits_loop_spec clamps s G lits :
  wf s → keys_ok s G → Forall (valid s) lits →
  spec (lits_loop calleeName clamps G lits) s (step_post s G (λ ρ, Forall (fact_ok s ρ) lits)).
Proof.
  intros Hwf HK Hall. revert s G Hwf HK Hall. induction lits as [|l lits IH]; intros s G Hwf HK Hall.
  { by apply step_none. }
  apply Forall_cons in Hall as [Hv Hall].
  eapply spec_bind; [by apply lit_step_spec|]. intros r s1 Hwf1 Hx1 (Hn1 & HK1 & HG1).
  assert (Forall (valid s1) lits) as Hall1.
  { eapply Forall_impl; [exact Hall|]. intros x. by apply ext_valid. }
  destruct r as [G1|].
  - eapply spec_mono; [by apply IH; auto|]. intros r s2 Hwf2 Hx2 (Hn2 & HK2 & HG2).
    split_and!; [eauto using new_polys_trans|done|]. intros ρ Hval HG [Hf Hfs]%Forall_cons.
    destruct (HG1 ρ Hval HG Hf) as (G' & [= <-] & HG'). apply HG2; [by apply (valuation_ok_ext _ s)|done|].
    rewrite Forall_forall in *. intros x Hx. apply (fact_ok_ext s); auto.
  - apply spec_ret; [done|]. split_and!; [done|done|]. intros ρ Hval HG [Hf Hfs]%Forall_cons.
    by destruct (HG1 ρ Hval HG Hf) as (? & ? & _).
Qed.

(** *** The passes over the groups *)
Lemma mapQ_mono kind k a b : (kind = MDiv → 0 < k) → a <= b → mapQ kind k a <= mapQ kind k b.
Proof. intros Hk Hab. destruct kind; cbn [mapQ]; [apply Z.quot_le_mono; auto|lia|lia]. Qed.
Lemma map_range_ok kind k (neg : bool) gp cp pr r g P :
  (kind = MDiv → 0 < k) → 0 < gp → range_ok pr g → P = (if neg then - gp * g else gp * g) + cp →
  range_ok r (mapQ kind k P) → range_ok (map_range kind k neg gp cp pr r) (mapQ kind k P).
Proof.
  intros Hk Hgp [Hpr _] HP [Hr Hne]. unfold map_range.
  split; cbn [r_lo r_hi r_ne]; [|done].
  assert (mapQ kind k (if neg then - gp * r_hi pr + cp else gp * r_lo pr + cp) <= mapQ kind k P) as H1.
  { apply mapQ_mono; [done|]. destruct neg; nia. }
  assert (mapQ kind k P <= mapQ kind k (if neg then - gp * r_lo pr + cp else gp * r_hi pr + cp)) as H2.
  { apply mapQ_mono; [done|]. destruct neg; nia. }
  destruct (if neg then r_hi pr <? big else - big <? r_lo pr),
    (if neg then - big <? r_lo pr else r_hi pr <? big); lia.
Qed.
Lemma mapped_value s ρ atom kind k P :
  wf s → valuation_ok calleeName s ρ → mapped_of calleeName s atom = Some (kind, k, P) →
  den s ρ atom = mapQ kind k (den s ρ P) ∧ (kind = MDiv → 0 < k) ∧ operand_small s ρ P ∧
  small (den s ρ atom).
Proof.
  intros Hwf [Hsem [Hc Hd]] Hm. unfold mapped_of in Hm.
  destruct (sdiv_of s atom) as [[x k']|] eqn:Ed.
  - case_bool_decide; [|done]. injection Hm as <- <- <-.
    destruct (sdiv_value _ _ ρ _ _ _ Hwf Hsem Ed) as [Hk Hv]. pose proof (Hd _ _ _ Ed) as Ho.
    split_and!; [done|done|done|]. rewrite Hv. destruct Ho as [Hx _]. unfold small.
    pose proof (quot_bounds (den s ρ x) k' Hk) as Hq. cbn zeta in Hq. destruct (Z.ltb_spec (den s ρ x) 0); nia.
  - destruct (clamp_of calleeName s atom) as [[[isMin x] y]|] eqn:Ec; [|done].
    destruct (clamped s atom x y) as [[k' P']|] eqn:EP; [|done]. injection Hm as <- <- <-.
    destruct (clamped_value _ _ ρ _ _ _ _ _ _ Hwf Hsem Ec EP) as (Hv & HPxy & _ & (o & Ho & Hok)).
    destruct (Hc _ _ _ _ Ec) as [Hx Hy].
    assert (operand_small s ρ P') as HP by (by destruct HPxy; subst).
    assert (operand_small s ρ o) as Hos by (by destruct Ho; subst).
    rewrite Hv. split_and!; [destruct isMin; cbn [mapQ]; lia|by destruct isMin|done|].
    destruct HP as [HP _], Hos as [Hos _]. unfold small. destruct isMin; lia.
Qed.
Lemma mapped_type s atom kind k P :
  wf s → mapped_of calleeName s atom = Some (kind, k, P) → is_Some (type_at s P).
Proof.
  intros Hwf Hm. unfold mapped_of in Hm. destruct (sdiv_of s atom) as [[x k']|] eqn:Ed.
  - case_bool_decide as Et; [|done]. injection Hm as _ _ <-. rewrite Et.
    destruct (sdiv_node _ _ _ _ Ed) as (t & y & Hn & _). unfold type_at. rewrite Hn. by eexists.
  - destruct (clamp_of calleeName s atom) as [[[isMin x] y]|] eqn:Ec; [|done].
    destruct (clamped s atom x y) as [[k' P']|] eqn:EP; [|done]. injection Hm as _ _ <-.
    by eapply clamped_type.
Qed.
Lemma pass_step_spec s G key :
  wf s → keys_ok s G → poly_ok s (length (nodes s)) key →
  spec (pass_step calleeName G key) s (step_post s G (λ _, True)).
Proof.
  intros Hwf HK Hkey. apply gets_spec. unfold id.
  destruct (single_atom s key) as [atom|] eqn:Ea; [|by apply step_none].
  destruct (mapped_of calleeName s atom) as [[[kind k] P]|] eqn:Em; [|by apply step_none].
  destruct (mapped_type _ _ _ _ _ Hwf Em) as [t Ht].
  eapply spec_bind; [by eapply split_poly_spec|].
  intros [pp cp] s1 Hwf1 Hx1 (Hn1 & Hpp & Hcp & Hd). cbn [fst snd] in *.
  assert (keys_ok s1 G) as HK1 by (by eapply keys_ok_ext).
  assert (∀ ρ, groups_ok s ρ G → groups_ok s1 ρ G) as HG1 by (intros ρ; by apply groups_ok_ext).
  assert (∀ r : option Groups, (∀ G', r = Some G' → keys_ok s1 G') →
    (∀ ρ, valuation_ok calleeName s ρ → groups_ok s1 ρ G → ∃ G', r = Some G' ∧ groups_ok s1 ρ G') →
    spec (ret r) s1 (step_post s G (λ _, True))) as Hret.
  { intros r H1 H2. apply spec_ret; [done|]. split_and!; [done|done|]. intros ρ Hv HG _. auto. }
  destruct (is_nil pp); [apply Hret; [by intros G' [= <-]|eauto]|].
  set (neg := leading_negative pp). destruct (primitive _) as [gp q] eqn:Eq.
  destruct (primitive_spec _ _ _ Eq) as (Hgp & Hq & _).
  destruct (find_group G q) as [pr|] eqn:Ef; [|apply Hret; [by intros G' [= <-]|eauto]].
  assert (∀ ρ, groups_ok s1 ρ G → range_ok pr (pval s1 ρ q)) as Hpr.
  { intros ρ HG. by eapply (find_group_ok (pval s1 ρ)). }
  destruct (Z.ltb_spec (r_hi pr) (r_lo pr)).
  { apply Hret; [done|]. intros ρ _ HG. exfalso. destruct (Hpr ρ HG) as [? _]. lia. }
  apply Hret.
  { intros G' [= <-]. apply keys_upd; [done|]. eapply poly_ok_ext; [exact Hx1| |exact Hkey].
    destruct Hx1 as [Hp _ _ _]. by apply prefix_length. }
  intros ρ Hv HG. eexists. split; [done|].
  destruct (mapped_value _ ρ _ _ _ _ Hwf Hv Em) as (Hval & Hk & _ & Hsm).
  assert (pval s1 ρ key = mapQ kind k (den s ρ P)) as Hkv.
  { rewrite (pval_ext s s1), (single_value _ _ _ _ Ea) by done. done. }
  apply upd_group_ok; [done| |]; rewrite Hkv; [by rewrite <- Hval|].
  intros r Hr. apply (map_range_ok _ _ _ _ _ _ _ (pval s1 ρ q)); auto.
  rewrite (Hd ρ). specialize (Hq (atom_val s1 (den s1 ρ))). unfold pval, neg in *.
  destruct (leading_negative pp); [rewrite peval_neg in Hq|]; lia.
Qed.
Lemma pass_loop_spec s G keys :
  wf s → keys_ok s G → Forall (poly_ok s (length (nodes s))) keys →
  spec (pass_loop calleeName G keys) s (step_post s G (λ _, True)).
Proof.
  revert s G. induction keys as [|key keys IH]; intros s G Hwf HK Hkeys; [by apply step_none|].
  apply Forall_cons in Hkeys as [Hkey Hkeys].
  eapply spec_bind; [by apply pass_step_spec|]. intros r s1 Hwf1 Hx1 (Hn1 & HK1 & HG1).
  destruct r as [G1|].
  - eapply spec_mono; [apply IH; [done|by apply HK1|]|].
    { eapply Forall_impl; [exact Hkeys|]. intros x Hx. eapply poly_ok_ext; [exact Hx1| |exact Hx].
      destruct Hx1 as [Hp _ _ _]. by apply prefix_length. }
    intros r s2 Hwf2 Hx2 (Hn2 & HK2 & HG2). split_and!; [eauto using new_polys_trans|done|].
    intros ρ Hv HG _. destruct (HG1 ρ Hv HG I) as (G' & [= <-] & HG').
    apply HG2; [by apply (valuation_ok_ext _ s)|done|done].
  - apply spec_ret; [done|]. split_and!; [done|done|]. intros ρ Hv HG _.
    by destruct (HG1 ρ Hv HG I) as (? & ? & _).
Qed.
End steps.

(** Contradictory literals have no solution. *)
Lemma contradictory_spec `{CmpInst} calleeName s lits clamps (Hwf : wf s)
    (Hlits : Forall (valid s) lits) :
  spec (contradictory calleeName lits clamps) s (λ r _, r = true →
    ∀ ρ, valuation_ok calleeName s ρ → ¬ Forall (fact_ok s ρ) lits).
Proof.
  eapply spec_bind; [apply lits_loop_spec; [done|constructor|done]|].
  intros r s1 Hwf1 Hx1 (Hn1 & HK1 & HG1).
  destruct r as [G|].
  2: { apply spec_ret; [done|]. intros _ ρ Hv Hall.
       by destruct (HG1 ρ Hv ltac:(constructor) Hall) as (? & ? & _). }
  assert (∀ G s', keys_ok s' G → Forall (poly_ok s' (length (nodes s'))) (fst <$> G)) as Hkeys.
  { intros G' s' HK. by apply Forall_fmap. }
  assert (spec (if clamps then bind (pass_loop calleeName G (fst <$> G)) (λ r,
      match r with Some G => pass_loop calleeName G (fst <$> G) | None => ret None end)
    else ret (Some G)) s1 (step_post calleeName s1 G (λ _, True))) as Hpass.
  { specialize (HK1 G eq_refl). destruct clamps; [|by apply step_none].
    eapply spec_bind; [apply pass_loop_spec; auto|]. intros r s2 Hwf2 Hx2 (Hn2 & HK2 & HG2).
    destruct r as [G2|].
    - specialize (HK2 G2 eq_refl). eapply spec_mono; [apply pass_loop_spec; auto|].
      intros r s3 Hwf3 Hx3 (Hn3 & HK3 & HG3). split_and!; [eauto using new_polys_trans|done|].
      intros ρ Hv HG _. destruct (HG2 ρ Hv HG I) as (G' & [= <-] & HG').
      apply HG3; [by apply (valuation_ok_ext _ s1)|done|done].
    - apply spec_ret; [done|]. split_and!; [done|done|]. intros ρ Hv HG _.
      by destruct (HG2 ρ Hv HG I) as (? & ? & _). }
  eapply spec_bind; [exact Hpass|]. intros r s2 Hwf2 Hx2 (Hn2 & _ & HG2).
  apply spec_ret; [done|]. intros Hr ρ Hv Hall.
  destruct (HG1 ρ Hv ltac:(constructor) Hall) as (G' & [= <-] & HG').
  destruct (HG2 ρ ltac:(by apply (valuation_ok_ext _ s)) HG' I) as (G2 & -> & Hok).
  apply existsb_exists in Hr as (kr & Hin & He). apply list_elem_of_In in Hin.
  unfold groups_ok in Hok. rewrite Forall_forall in Hok.
  by rewrite (empty_range_ok _ _ (Hok kr Hin)) in He.
Qed.
(** [C12] A conjunction reported contradictory has no solution: [contradictory] returns on every
    list of expressions of a well-formed arena, with or without the bounds through clamps, and
    when it answers true no valuation - with the intrinsics and the division meaning what they do,
    and operands of clamps and divisions that fit 64 bits - makes all the literals true. *)
Theorem contradictory_sound `{CmpInst} calleeName s lits clamps (Hwf : wf s)
    (Hlits : Forall (valid s) lits) :
  spec (contradictory calleeName lits clamps) s (λ r _, r = true →
    ∀ ρ, valuation_ok calleeName s ρ → ¬ Forall (fact_ok s ρ) lits).
Proof. by eapply contradictory_spec. Qed.

(** ** The property on a concrete arena: [min(x, 2) > 1] and [x < 2] have no common solution, which
    only the bounds through clamps see *)
Definition demo_callee (n : nat) : string := if (n =? 1)%nat then "llvm.smin.i32" else "".
Definition demo_clamp : M (EP * EP) :=
  do two <- mkInt i32 2; do one <- mkInt i32 1;
  do m <- intern (mkExpr i32 (NCall 1 0 [1%nat; two]));
  do l1 <- cmp cmp_fuel ICMP_SGT m one;
  do l2 <- cmp cmp_fuel ICMP_SLT 1 two;
  ret (l1, l2).
Definition clamp_arena : Arena := state_of demo_clamp demo.
Definition clamp_lits : list EP :=
  match demo_clamp demo with Some ((a, b), _) => [a; b] | None => [] end.
Lemma contradictory_sound_witness :
  (∃ s', contradictory demo_callee clamp_lits false clamp_arena = Some (false, s')) ∧
  ∀ ρ, valuation_ok demo_callee clamp_arena ρ → ¬ Forall (fact_ok clamp_arena ρ) clamp_lits.
Proof.
  split; [eexists; vm_compute; reflexivity|].
  assert (wf clamp_arena) as Hwf by check_wf.
  assert (Forall (valid clamp_arena) clamp_lits) as Hv.
  { apply (forallb_Forall' (λ e, Nat.ltb e (length (nodes clamp_arena)))).
    - intros e He. apply Nat.ltb_lt. exact He.
    - vm_compute; reflexivity. }
  destruct (contradictory_sound demo_callee clamp_arena clamp_lits true Hwf Hv)
    as (r & s' & E & _ & _ & H).
  apply H. assert (r = match contradictory demo_callee clamp_lits true clamp_arena with
    | Some (r, _) => r | None => false end) as -> by (by rewrite E).
  vm_compute. reflexivity.
Defined.
