(* ===== verification/ArenaCond.v ===== *)
(** Path conditions (cpp/mvcc-llvm/symexec.cpp: [Arena::notb], [andb], [orb], [implies], [disjoint],
    [expandGuard], [given], [factor]): the boolean algebra of the symbolic executor.  Conditions are
    kept as disjunctions of conjunctions of literals; a join simplifies them by resolution, and a
    guard symbol may stand for a disjunction.

    The functions call each other, so each is a body over a record of the recursive calls, and a
    fuel ties the knot.  The memo tables, the depth of guard expansion and the rounds of [orb] are
    part of the state, since they decide what is returned.  The arguments of a call are evaluated
    from left to right. *)
From stdpp Require Import sorting.
From S2P Require Import Prelude Expr Arena ArenaSem ArenaCmp ArenaLits ArenaContra.
Open Scope Z_scope.

(** ** The state *)
Record Memo := mkMemo {
  notbMemo : gmap EP EP;
  andMemo : gmap (EP * EP) EP;
  orMemo : gmap (EP * EP) EP;
  impliesMemo : gmap (EP * EP) bool;
  disjointMemo : gmap (EP * EP) bool;
  givenMemo : gmap (EP * EP) EP;
  guardOf : gmap EP EP;
  guardExpandDepth : nat;
  orbDepth : nat }.
Definition memo0 : Memo := mkMemo ∅ ∅ ∅ ∅ ∅ ∅ ∅ 0 0.
Record CSt := mkC { ar : Arena; me : Memo }.

Definition set_not (k : EP) (v : EP) (m : Memo) : Memo :=
  mkMemo (<[k := v]> (notbMemo m)) (andMemo m) (orMemo m) (impliesMemo m) (disjointMemo m) (givenMemo m)
    (guardOf m) (guardExpandDepth m) (orbDepth m).
Definition set_and (k : EP * EP) (v : EP) (m : Memo) : Memo :=
  mkMemo (notbMemo m) (<[k := v]> (andMemo m)) (orMemo m) (impliesMemo m) (disjointMemo m) (givenMemo m)
    (guardOf m) (guardExpandDepth m) (orbDepth m).
Definition set_or (k : EP * EP) (v : EP) (m : Memo) : Memo :=
  mkMemo (notbMemo m) (andMemo m) (<[k := v]> (orMemo m)) (impliesMemo m) (disjointMemo m) (givenMemo m)
    (guardOf m) (guardExpandDepth m) (orbDepth m).
Definition set_implies (k : EP * EP) (v : bool) (m : Memo) : Memo :=
  mkMemo (notbMemo m) (andMemo m) (orMemo m) (<[k := v]> (impliesMemo m)) (disjointMemo m) (givenMemo m)
    (guardOf m) (guardExpandDepth m) (orbDepth m).
Definition set_disjoint (k : EP * EP) (v : bool) (m : Memo) : Memo :=
  mkMemo (notbMemo m) (andMemo m) (orMemo m) (impliesMemo m) (<[k := v]> (disjointMemo m)) (givenMemo m)
    (guardOf m) (guardExpandDepth m) (orbDepth m).
Definition set_given (k : EP * EP) (v : EP) (m : Memo) : Memo :=
  mkMemo (notbMemo m) (andMemo m) (orMemo m) (impliesMemo m) (disjointMemo m) (<[k := v]> (givenMemo m))
    (guardOf m) (guardExpandDepth m) (orbDepth m).
Definition set_guardOf (k v : EP) (m : Memo) : Memo :=
  mkMemo (notbMemo m) (andMemo m) (orMemo m) (impliesMemo m) (disjointMemo m) (givenMemo m)
    (<[k := v]> (guardOf m)) (guardExpandDepth m) (orbDepth m).
Definition set_depth (f : nat → nat) (m : Memo) : Memo :=
  mkMemo (notbMemo m) (andMemo m) (orMemo m) (impliesMemo m) (disjointMemo m) (givenMemo m)
    (guardOf m) (f (guardExpandDepth m)) (orbDepth m).
Definition set_rounds (f : nat → nat) (m : Memo) : Memo :=
  mkMemo (notbMemo m) (andMemo m) (orMemo m) (impliesMemo m) (disjointMemo m) (givenMemo m)
    (guardOf m) (guardExpandDepth m) (f (orbDepth m)).

(** ** The monad: an arena operation, with the tables *)
Definition C (A : Type) : Type := CSt → option (A * CSt).
Definition cret {A} (x : A) : C A := λ st, Some (x, st).
Definition cbind {A B} (m : C A) (f : A → C B) : C B :=
  λ st, match m st with Some (x, st') => f x st' | None => None end.
Definition cstuck {A} : C A := λ _, None.
Definition lift {A} (m : M A) : C A :=
  λ st, match m (ar st) with Some (x, s) => Some (x, mkC s (me st)) | None => None end.
Definition look {A} (f : Arena → A) : C A := λ st, Some (f (ar st), st).
Definition recall {A} (f : Memo → A) : C A := λ st, Some (f (me st), st).
Definition note (f : Memo → Memo) : C unit := λ st, Some (tt, mkC (ar st) (f (me st))).
Notation "'let!' x := m 'in' f" := (cbind m (λ x, f)) (at level 10, x name, m at level 100, f at level 200).
Fixpoint cfold {A B} (f : B → A → C B) (l : list A) (b : B) : C B :=
  match l with [] => cret b | x :: l => let! b := f b x in cfold f l b end.
(** the first element that passes *)
Fixpoint cfind {A} (p : A → C bool) (l : list A) : C (option A) :=
  match l with
  | [] => cret None
  | x :: l => let! b := p x in if b then cret (Some x) else cfind p l
  end.
(** a table is asked first, and told the answer *)
Definition cached {V} (find : Memo → option V) (put : V → Memo → Memo) (m : C V) : C V :=
  let! o := recall find in
  match o with
  | Some v => cret v
  | None => let! v := m in let! _ := note (put v) in cret v
  end.

(** ** What the functions ask of an expression *)
Definition bool_op (s : Arena) (op : Opcode) (e : EP) : option (EP * EP) := nodes s !! e ≫= isBoolOp op.
Definition is_or (s : Arena) (e : EP) : bool := match bool_op s Or e with Some _ => true | None => false end.
(** the operand of [x xor true] *)
Definition negated (s : Arena) (e : EP) : option EP :=
  match nodes s !! e with
  | Some (mkExpr _ (NOp Xor [x; t])) => if isTrue s t then Some x else None
  | _ => None
  end.
Definition isGuardSym (s : Arena) (l : EP) : bool :=
  match nodes s !! l with
  | Some (mkExpr _ (NSym i)) =>
      match symbols s !! i with Some sy => bool_decide (sy_kind sy = Guard) | None => false end
  | _ => false
  end.
Definition guard_def (s : Arena) (l : EP) : option EP :=
  match nodes s !! l with
  | Some (mkExpr _ (NSym i)) => sy ← symbols s !! i; guardDefs s !! Z.to_nat (sy_field sy)
  | _ => None
  end.
(** the definition of a guard symbol *)
Definition guard (l : EP) : C (option EP) :=
  let! g := look (λ s, isGuardSym s l) in
  if g then
    let! d := look (λ s, guard_def s l) in
    match d with Some d => cret (Some d) | None => cstuck end
  else cret None.
(** the clauses of a disjunction; operands are created before it, so [S c] levels are enough *)
Fixpoint or_leaves_f (n : nat) (s : Arena) (c : EP) : list EP :=
  match n with
  | O => []
  | S n =>
      match bool_op s Or c with
      | Some (a, b) => or_leaves_f n s a ++ or_leaves_f n s b
      | None => [c]
      end
  end.
Definition or_leaves (s : Arena) (c : EP) : list EP := or_leaves_f (S c) s c.

(** ** Clauses: lists of literals sorted by identity *)
Definition sort_ids (l : list EP) : list EP := merge_sort Nat.le l.
Fixpoint unique (l : list EP) : list EP :=
  match l with
  | x :: l' => match l' with
               | y :: _ => if (x =? y)%nat then unique l' else x :: unique l'
               | [] => [x]
               end
  | [] => []
  end.
Fixpoint set_difference (a b : list EP) : list EP :=
  match a with
  | [] => []
  | x :: a' =>
      (fix go (b : list EP) :=
         match b with
         | [] => a
         | y :: b' =>
             if (x <? y)%nat then x :: set_difference a' b
             else if (y <? x)%nat then go b'
             else set_difference a' b'
         end) b
  end.
Fixpoint set_intersection (a b : list EP) : list EP :=
  match a with
  | [] => []
  | x :: a' =>
      (fix go (b : list EP) :=
         match b with
         | [] => []
         | y :: b' =>
             if (x <? y)%nat then set_intersection a' b
             else if (y <? x)%nat then go b'
             else x :: set_intersection a' b'
         end) b
  end.
Abbreviation Clause := (list EP).

(** ** The functions *)
(** the recursive calls; [flat c canon clauses] is the local function of [orbRaw] *)
Record Ops := mkOps {
  notb : EP → C EP;
  andb_ : EP → EP → C EP;
  orb_ : EP → EP → C EP;
  implies : EP → EP → C bool;
  disjoint : EP → EP → C bool;
  flat : EP → bool → list Clause → C (list Clause);
  given : EP → EP → C EP }.
Definition kGuardExpandLimit : nat := 32.

Section body.
Context `{CmpInst} (calleeName : nat → string) (semantic : bool) (rec : Ops).
Definition truec : C EP := lift (mkBool true).
Definition falsec : C EP := lift (mkBool false).
Definition type_of (e : EP) : C Ty := lift (ty_of e).
Definition mkOp (t : Ty) (op : Opcode) (args : list EP) : C EP := lift (intern (mkExpr t (NOp op args))).
Definition lits (c : EP) : C (list EP) := look (λ s, conjuncts s c).
Definition lit_implies (x y : EP) : C bool := look (λ s, litImplies semantic s x y).
Definition contra (l : list EP) : C bool := lift (contradictory calleeName l false).
(** [c = true; for (l : ls) c = andb(c, l)] *)
Definition and_all (ls : list EP) : C EP := let! t := truec in cfold (andb_ rec) ls t.

(** *** Negation *)
Definition notb_raw (a : EP) : C EP :=
  let! x := lift (deref a) in
  match node x with
  | NCmp p (l :: r :: _) => lift (cmp cmp_fuel (getInversePredicate p) l r)
  | NCmp _ _ => cstuck
  | _ =>
      match isBoolOp And x, isBoolOp Or x with
      | Some (l, r), _ => let! nl := notb rec l in let! nr := notb rec r in orb_ rec nl nr
      | None, Some (l, r) => let! nl := notb rec l in let! nr := notb rec r in andb_ rec nl nr
      | None, None => let! t := truec in mkOp (ty x) Xor [a; t]
      end
  end.
Definition notb_body (a : EP) : C EP :=
  let! t := look (λ s, isTrue s a) in
  if t then falsec else
  let! f := look (λ s, isFalse s a) in
  if f then truec else
  let! n := look (λ s, negated s a) in
  match n with
  | Some x => cret x
  | None => cached (λ m, notbMemo m !! a) (set_not a) (notb_raw a)
  end.

(** *** Conjunction *)
(** the literal [i] is dropped because of the literal [j] *)
Definition drops (s : Arena) (ls : list EP) (i j : nat) : bool :=
  match ls !! i, ls !! j with
  | Some x, Some y =>
      negb (i =? j)%nat && litImplies semantic s y x && negb (litImplies semantic s x y && (i <? j)%nat)
  | _, _ => false
  end.
Definition kept (s : Arena) (ls : list EP) : list EP :=
  omap (λ i, if existsb (drops s ls i) (seq 0 (length ls)) then None else ls !! i) (seq 0 (length ls)).
Definition and_chain (t : Ty) (l : list EP) : C EP :=
  match l with
  | k :: ks => cfold (λ r k, mkOp t And [r; k]) ks k
  | [] => cstuck
  end.
Definition andb_raw (a b : EP) : C EP :=
  let! i := implies rec a b in
  if i then cret a else
  let! i := implies rec b a in
  if i then cret b else
  let! d := disjoint rec a b in
  if d then falsec else
  let! la := lits a in
  let! lb := lits b in
  let! t := type_of a in
  let! anyOr := look (λ s, existsb (is_or s) (la ++ lb)) in
  if negb anyOr then
    let! ks := look (λ s, kept s (la ++ lb)) in
    and_chain t (unique (sort_ids ks))
  else
    let! ob := look (λ s, bool_op s Or b) in
    let! oa := look (λ s, bool_op s Or a) in
    match ob, oa with
    | Some (b0, b1), _ => let! x := andb_ rec a b0 in let! y := andb_ rec a b1 in orb_ rec x y
    | None, Some (a0, a1) => let! x := andb_ rec a0 b in let! y := andb_ rec a1 b in orb_ rec x y
    | None, None => mkOp t And [a; b]
    end.
Definition andb_body (a b : EP) : C EP :=
  let! ta := look (λ s, isTrue s a) in
  if ta then cret b else
  let! tb := look (λ s, isTrue s b) in
  if tb then cret a else
  let! f := look (λ s, isFalse s a || isFalse s b) in
  if f then falsec else
  if (a =? b)%nat then cret a else
  cached (λ m, andMemo m !! (a, b)) (set_and (a, b)) (andb_raw a b).

(** *** Disjunction *)
(** a guard whose definition has at most four clauses, of literals that are not guards *)
Definition shallowGuard (l : EP) : C (option EP) :=
  let! g := guard l in
  match g with
  | Some def =>
      let! ok := look (λ s,
        forallb (λ c, forallb (λ x, negb (isGuardSym s x)) (conjuncts s c)) (or_leaves s def)
        && (length (or_leaves s def) <=? 4)%nat) in
      cret (if ok then Some def else None)
  | None => cret None
  end.
Definition is_shallow (l : EP) : C bool :=
  let! g := shallowGuard l in cret (match g with Some _ => true | None => false end).
(** the first shallow guard of a clause, expanded: its clauses, each with the other literals *)
Definition expand_shallow (ls : list EP) (clauses : list Clause) : C (option (list Clause)) :=
  if (length clauses <? 64)%nat then
    let! o := cfind (λ il : nat * EP, is_shallow il.2) (imap pair ls) in
    match o with
    | Some (i, l) =>
        let! g := shallowGuard l in
        match g with
        | Some def =>
            let! rest := and_all (delete i ls) in
            let! ds := look (λ s, or_leaves s def) in
            let! cls := cfold (λ cls d, let! x := andb_ rec rest d in flat rec x true cls) ds clauses in
            cret (Some cls)
        | None => cstuck
        end
    | None => cret None
    end
  else cret None.
Definition flat_clause (c : EP) (clauses : list Clause) : C (list Clause) :=
  let! t := look (λ s, isTrue s c) in
  if t then cret [[]] else
  let! ls := lits c in
  let! e := expand_shallow ls clauses in
  match e with
  | Some cls => cret cls
  | None => cret (clauses ++ [sort_ids ls])
  end.
Definition flat_body (c : EP) (canon : bool) (clauses : list Clause) : C (list Clause) :=
  let! o := look (λ s, bool_op s Or c) in
  match o with
  | Some (a, b) => let! cls := flat rec a canon clauses in flat rec b canon cls
  | None =>
      let! f := look (λ s, isFalse s c) in
      if f then cret clauses else
      if canon then
        let! ls := lits c in
        let! cc := and_all ls in
        if negb (cc =? c)%nat then flat rec cc false clauses else flat_clause c clauses
      else flat_clause c clauses
  end.

(** two literals one of which is the other's negation *)
Definition complementary (x y : EP) : C bool :=
  let! nx := notb rec x in
  if (nx =? y)%nat then cret true else
  look (λ s, match nodes s !! x, nodes s !! y with
             | Some (mkExpr _ (NCmp p l)), Some (mkExpr _ (NCmp q l')) =>
                 bool_decide (l = l') && bool_decide (p = getInversePredicate q)
             | _, _ => false
             end).
(** two literals one of which always holds *)
Definition covering (x y : EP) : C bool :=
  let! c := complementary x y in
  if c then cret true else
  let! nx := notb rec x in
  let! i := lit_implies nx y in
  if i then cret true else
  let! ny := notb rec y in
  lit_implies ny x.
(** every literal of [by_] is implied by one of [cl] *)
Definition subsumed (s : Arena) (by_ cl : Clause) : bool :=
  forallb (λ m, existsb (λ l, litImplies semantic s l m) cl) by_.
(** the rest of a clause implies its literal [k] *)
Definition redundant (cl : Clause) (k : nat) (l : EP) : C bool :=
  let! rest := and_all (delete k cl) in implies rec rest l.
(** a literal of [cl] that the literal [x] of the other clause covers and that may be dropped; [d] are
    the literals of [cl] that the other clause does not have *)
Definition droppable (x : EP) (d cl : Clause) : C (option nat) :=
  let! o := cfind (λ kl : nat * EP,
    let! c := covering x kl.2 in
    if c then if existsb (Nat.eqb kl.2) d then cret true else redundant cl kl.1 kl.2 else cret false)
    (imap pair cl) in
  cret (fst <$> o).
(** the first change two clauses allow *)
Definition drop_one (x : list EP) (d cl : Clause) : C (option nat) :=
  match x with [x] => droppable x d cl | _ => cret None end.
Definition pair_step (cls : list Clause) (i j : nat) : C (option (list Clause)) :=
  match cls !! i, cls !! j with
  | Some ci, Some cj =>
      let di := set_difference ci cj in
      let dj := set_difference cj ci in
      match di, dj with
      | [], _ => cret (Some (delete j cls))
      | _, [] => cret (Some (delete i cls))
      | _, _ =>
          let! s1 := look (λ s, semantic && subsumed s ci cj) in
          if s1 then cret (Some (delete j cls)) else
          let! s2 := look (λ s, semantic && subsumed s cj ci) in
          if s2 then cret (Some (delete i cls)) else
          let! cov := match di, dj with [x], [y] => covering x y | _, _ => cret false end in
          if cov then cret (Some (<[i := set_intersection ci cj]> (delete j cls))) else
          let! k := drop_one di dj cj in
          match k with
          | Some k => cret (Some (<[j := delete k cj]> cls))
          | None =>
              let! k := drop_one dj di ci in
              cret ((λ k, <[i := delete k ci]> cls) <$> k)
          end
      end
  | _, _ => cstuck
  end.
Fixpoint first_change (cls : list Clause) (ps : list (nat * nat)) : C (option (list Clause)) :=
  match ps with
  | [] => cret None
  | (i, j) :: ps =>
      let! r := pair_step cls i j in
      match r with Some cls' => cret (Some cls') | None => first_change cls ps end
  end.
Definition pairs_upto (n : nat) : list (nat * nat) := i ← seq 0 n; j ← seq (S i) (n - S i); [(i, j)].
(** the [while (changed)] loop; every change shortens the clauses *)
Fixpoint resolve (fuel : nat) (cls : list Clause) : C (list Clause) :=
  match fuel with
  | O => cstuck
  | S fuel =>
      let! r := first_change cls (pairs_upto (length cls)) in
      match r with Some cls' => resolve fuel cls' | None => cret cls end
  end.
Definition clauses_size (cls : list Clause) : nat := foldr (λ cl n, S (length cl) + n)%nat O cls.
(** the disjunction of the clauses; [inl] when one of them is true; otherwise the disjunction, if any
    clause is left, and whether [andb] simplified one *)
Fixpoint rebuild_or (t : Ty) (cls : list Clause) (r : option EP) (again : bool) : C (EP + option EP * bool) :=
  match cls with
  | [] => cret (inr (r, again))
  | cl :: cls =>
      let! c := and_all cl in
      let! tr := look (λ s, isTrue s c) in
      if tr then cret (inl c) else
      let! fa := look (λ s, isFalse s c) in
      if fa then rebuild_or t cls r true else
      let! ls := lits c in
      let again := again || negb (length ls =? length cl)%nat in
      match r with
      | None => rebuild_or t cls (Some c) again
      | Some r => let! r := mkOp t Or [r; c] in rebuild_or t cls (Some r) again
      end
  end.
Definition orb_raw (a b : EP) : C EP :=
  let! i := implies rec a b in
  if i then cret b else
  let! i := implies rec b a in
  if i then cret a else
  let! cls := flat rec a true [] in
  let! cls := flat rec b true cls in
  if existsb is_nil cls then truec else
  let! cls := resolve (S (clauses_size cls)) cls in
  let! t := type_of a in
  let! rb := rebuild_or t cls None false in
  match rb with
  | inl c => cret c
  | inr (None, _) => falsec
  | inr (Some r, again) =>
      let! rounds := recall orbDepth in
      let! o := look (λ s, bool_op s Or r) in
      match o with
      | Some (x, y) =>
          if again && (rounds <? 4)%nat then
            let! _ := note (set_rounds S) in
            let! r := orb_ rec x y in
            let! _ := note (set_rounds pred) in
            cret r
          else cret r
      | None => cret r
      end
  end.
Definition orb_body (a b : EP) : C EP :=
  let! fa := look (λ s, isFalse s a) in
  if fa then cret b else
  let! fb := look (λ s, isFalse s b) in
  if fb then cret a else
  let! t := look (λ s, isTrue s a || isTrue s b) in
  if t then truec else
  if (a =? b)%nat then cret a else
  cached (λ m, orMemo m !! (a, b)) (set_or (a, b)) (orb_raw a b).

(** *** Implication and disjointness *)
(** one more nested guard expansion; past the limit the question is left unproven *)
Definition expanding (m : C bool) : C bool :=
  let! depth := recall guardExpandDepth in
  if (kGuardExpandLimit <=? depth)%nat then cret false else
  let! _ := note (set_depth S) in
  let! r := m in
  let! _ := note (set_depth pred) in
  cret r.
Definition conj_step (rest l : EP) : C EP :=
  let! tr := look (λ s, isTrue s rest) in
  if tr then cret l else let! t := type_of l in mkOp t And [rest; l].
Definition clause_step (rest : EP) (r : option EP) (c : EP) : C (option EP) :=
  let! t := type_of c in
  let! tr := look (λ s, isTrue s rest) in
  let! cl := if tr then cret c else mkOp t And [c; rest] in
  match r with
  | None => cret (Some cl)
  | Some r => let! e := mkOp t Or [r; cl] in cret (Some e)
  end.
(** the first guard of a conjunction expanded, without simplification; [None]: there is none *)
Definition expandGuard (ls : list EP) : C (option EP) :=
  let! o := cfind (λ il : nat * EP, look (λ s, isGuardSym s il.2)) (imap pair ls) in
  match o with
  | None => cret None
  | Some (i, l) =>
      let! t := truec in
      let! rest := cfold conj_step (delete i ls) t in
      let! g := guard l in
      match g with
      | Some def => let! cs := look (λ s, or_leaves s def) in cfold (clause_step rest) cs None
      | None => cstuck
      end
  end.
(** whether the conjunction of [la] ([a] itself) is shown to imply the literal [l] *)
Definition implies_guard (a l : EP) : C bool :=
  let! g := guard l in
  match g with Some def => implies rec a def | None => cret false end.
Definition implies_not_guard (a l : EP) : C bool :=
  let! n := look (λ s, negated s l) in
  match n with
  | Some x => let! g := guard x in match g with Some def => disjoint rec a def | None => cret false end
  | None => cret false
  end.
Definition implies_lit (a : EP) (la : list EP) (l : EP) : C bool :=
  let! ok := look (λ s, existsb (λ m, litImplies semantic s m l) la) in
  if ok then cret true else
  let! ok := implies_guard a l in
  if ok then cret true else
  let! ok := implies_not_guard a l in
  if ok then cret true else
  let! nl := notb rec l in
  contra (la ++ [nl]).
Fixpoint implies_lits (a b : EP) (la lb : list EP) : C bool :=
  match lb with
  | [] => cret true
  | l :: lb =>
      let! ok := implies_lit a la l in
      if ok then implies_lits a b la lb
      else
        let! ex := expandGuard la in
        match ex with
        | Some ex => expanding (implies rec ex b)
        | None => cret false
        end
  end.
Definition implies_raw (a b : EP) : C bool :=
  let! oa := look (λ s, bool_op s Or a) in
  match oa with
  | Some (x, y) => let! i := implies rec x b in if i then implies rec y b else cret false
  | None =>
      let! ob := look (λ s, bool_op s Or b) in
      match ob with
      | Some (x, y) => let! i := implies rec a x in if i then cret true else implies rec a y
      | None =>
          let! g := guard b in
          match g with
          | Some def => implies rec a def
          | None => let! la := lits a in let! lb := lits b in implies_lits a b la lb
          end
      end
  end.
Definition implies_body (a b : EP) : C bool :=
  let! q := look (λ s, isTrue s b || (a =? b)%nat || isFalse s a) in
  if q then cret true else
  cached (λ m, impliesMemo m !! (a, b)) (set_implies (a, b)) (implies_raw a b).

Definition opposite (xy : EP * EP) : C bool :=
  let! nx := notb rec xy.1 in
  if (nx =? xy.2)%nat then cret true else lit_implies xy.2 nx.
Definition disjoint_raw (a b : EP) : C bool :=
  let! oa := look (λ s, bool_op s Or a) in
  match oa with
  | Some (x, y) => let! d := disjoint rec x b in if d then disjoint rec y b else cret false
  | None =>
      let! ob := look (λ s, bool_op s Or b) in
      match ob with
      | Some (x, y) => let! d := disjoint rec a x in if d then disjoint rec a y else cret false
      | None =>
          let! la := lits a in
          let! lb := lits b in
          let! o := cfind opposite (x ← la; y ← lb; [(x, y)]) in
          match o with
          | Some _ => cret true
          | None =>
              let! c := contra (la ++ lb) in
              if c then cret true else
              let! ea := expandGuard la in
              match ea with
              | Some ea => expanding (disjoint rec ea b)
              | None =>
                  let! eb := expandGuard lb in
                  match eb with
                  | Some eb => expanding (disjoint rec a eb)
                  | None => cret false
                  end
              end
          end
      end
  end.
Definition disjoint_body (a b : EP) : C bool :=
  let! q := look (λ s, isFalse s a || isFalse s b) in
  if q then cret true else
  cached (λ m, disjointMemo m !! (a, b)) (set_disjoint (a, b)) (disjoint_raw a b).

(** *** A condition where another holds *)
(** the literals of a conjunction; [None]: one of them is excluded *)
Fixpoint given_lits (ctx : EP) (ls : list EP) (r : EP) : C (option EP) :=
  match ls with
  | [] => cret (Some r)
  | l :: ls =>
      let! i := implies rec ctx l in
      if i then given_lits ctx ls r else
      let! d := disjoint rec ctx l in
      if d then cret None else
      let! g := guard l in
      let! x := match g with Some def => given rec def ctx | None => cret l end in
      let! r := andb_ rec r x in
      given_lits ctx ls r
  end.
Definition given_raw (c ctx : EP) : C EP :=
  let! i := implies rec ctx c in
  if i then truec else
  let! o := look (λ s, bool_op s Or c) in
  match o with
  | Some (a, b) => let! x := given rec a ctx in let! y := given rec b ctx in orb_ rec x y
  | None =>
      let! ls := lits c in
      let! t := truec in
      let! r := given_lits ctx ls t in
      match r with Some r => cret r | None => falsec end
  end.
Definition given_body (c ctx : EP) : C EP :=
  let! q := look (λ s, isTrue s c || isFalse s c) in
  if q then cret c else
  cached (λ m, givenMemo m !! (c, ctx)) (set_given (c, ctx)) (given_raw c ctx).

(** *** A disjunction as its common literals and a guard for the rest *)
Definition mkGuard (t : Ty) (rest : EP) : C EP := λ st,
  let s := ar st in
  let g := mkSymbol Guard 0 "guard" 0 (Z.of_nat (length (guardDefs s))) t in
  match mkSymRaw g (mkArena (nodes s) (symbols s) (atoms s) (guardDefs s ++ [rest])) with
  | Some (e, s) => Some (e, mkC s (set_guardOf rest e (me st)))
  | None => None
  end.
Fixpoint factor_rest (t : Ty) (common : Clause) (cls : list Clause) (rest : option EP) : C (option EP) :=
  match cls with
  | [] => cret rest
  | cl :: cls =>
      let! x := and_all (set_difference cl common) in
      let! tr := look (λ s, isTrue s x) in
      if tr then cret (Some x) else
      match rest with
      | None => factor_rest t common cls (Some x)
      | Some r => let! r := mkOp t Or [r; x] in factor_rest t common cls (Some r)
      end
  end.
Definition common_lits (cls : list Clause) : Clause :=
  match cls with cl :: cls => fold_left set_intersection cls cl | [] => [] end.
Definition guard_for (t : Ty) (rest : EP) : C EP :=
  let! tr := look (λ s, isTrue s rest) in
  if tr then cret rest else
  let! o := recall (λ m, guardOf m !! rest) in
  match o with Some g => cret g | None => mkGuard t rest end.
Definition factor (c : EP) : C EP :=
  let! o := look (λ s, bool_op s Or c) in
  match o with
  | None => cret c
  | Some _ =>
      let! t := type_of c in
      let! cls := look (λ s, (λ x, sort_ids (conjuncts s x)) <$> or_leaves s c) in
      let common := common_lits cls in
      let! rest := factor_rest t common cls None in
      match rest with
      | Some rest => let! g := guard_for t rest in cfold (andb_ rec) common g
      | None => cstuck
      end
  end.
End body.

(** the knot: [n] bounds the depth of the calls *)
Section knot.
Context `{CmpInst} (calleeName : nat → string) (semantic : bool).
Definition ops0 : Ops :=
  mkOps (λ _, cstuck) (λ _ _, cstuck) (λ _ _, cstuck) (λ _ _, cstuck) (λ _ _, cstuck) (λ _ _ _, cstuck) (λ _ _, cstuck).
Definition opsS (rec : Ops) : Ops :=
  mkOps (notb_body rec) (andb_body semantic rec) (orb_body semantic rec)
    (implies_body calleeName semantic rec) (disjoint_body calleeName semantic rec)
    (flat_body rec) (given_body rec).
Definition ops (n : nat) : Ops := Nat.iter n opsS ops0.
End knot.
