(* ===== verification/ArenaCondSem.v ===== *)
(** Soundness of the path conditions (ArenaCond.v): every function of the boolean algebra returns a
    condition (or an answer) that is right in every model of the store it leaves.

    A model is a valuation in which the comparisons of integers do not leave their types (the
    assumption at the top of symexec.h), a guard symbol means its definition, and the comparisons
    of floating point respect [getInversePredicate].  The specifications are of partial correctness
    ([sound]); for conjunctions of literals, total correctness is shown too. *)
From stdpp Require Import sorting.
From S2P Require Import Prelude Expr Arena ArenaSem ArenaCmp ArenaLits ArenaContra ArenaCond.
Open Scope Z_scope.

(** ** Stores only grow, and keep their symbols and guards *)
Record step (s s' : Arena) : Prop := {
  st_ext : ext s s';
  st_symbols : symbols s' = symbols s;
  st_guards : guardDefs s' = guardDefs s }.
#[export] Instance step_preorder : PreOrder step.
Proof.
  split; [by split|]. intros a b c [? E1 E1'] [? E2 E2']. split; [by etrans|congruence..].
Qed.
Definition mstep {A} (m : M A) : Prop := ∀ s r s', m s = Some (r, s') → step s s'.
Definition cstep {A} (m : C A) : Prop := ∀ st r st', m st = Some (r, st') → step (ar st) (ar st').
Create HintDb mvcc_step.

Lemma mstep_ret {A} (x : A) : mstep (ret x).
Proof. by intros s r s' [= _ <-]. Qed.
Lemma mstep_stuck {A} : mstep (@stuck A).
Proof. by intros s r s'. Qed.
Lemma mstep_gets {A} (f : Arena → A) : mstep (gets f).
Proof. by intros s r s' [= _ <-]. Qed.
Lemma mstep_deref e : mstep (deref e).
Proof. intros s r s'. unfold deref. destruct (nodes s !! e); [|done]. by intros [= _ <-]. Qed.
Lemma mstep_bind {A B} (m : M A) (f : A → M B) : mstep m → (∀ x, mstep (f x)) → mstep (bind m f).
Proof.
  intros Hm Hf s r s'. unfold bind. destruct (m s) as [[x s1]|] eqn:E; [|done]. intros E2.
  etrans; [by eapply Hm|by eapply Hf].
Qed.
Lemma mstep_intern x : mstep (intern x).
Proof.
  intros s r s'. unfold intern. destruct (find_index _ _) as [k|]; intros [= _ <-]; [done|].
  split; [|done..]. split; cbn; try done. by apply prefix_app_r.
Qed.
Lemma mstep_atomOf e : mstep (atomOf e).
Proof.
  intros s r s'. unfold atomOf. destruct (find_index _ _) as [k|]; intros [= _ <-]; [done|].
  split; [|done..]. split; cbn; try done. by apply prefix_app_r.
Qed.
Lemma mstep_wrap t v : mstep (wrap t v).
Proof. unfold wrap. destruct (width t); [apply mstep_ret|apply mstep_stuck]. Qed.
#[export] Hint Resolve mstep_ret mstep_stuck mstep_gets mstep_deref mstep_intern mstep_atomOf mstep_wrap : mvcc_step.
(** one branch of the program after another *)
Ltac stepper1 :=
  match goal with
  | |- mstep (bind _ _) => apply mstep_bind; [|intros ?]
  | |- mstep (match ?x with _ => _ end) => destruct x
  | |- mstep (let '(_, _) := ?x in _) => destruct x
  | |- mstep _ => solve [eauto 2 with mvcc_step]
  | |- mstep _ => progress cbn beta zeta
  end.
Ltac stepper := repeat stepper1.
Lemma mstep_mkPoly t ts : mstep (mkPoly t ts).
Proof. apply mstep_intern. Qed.
#[export] Hint Resolve mstep_mkPoly : mvcc_step.
Lemma mstep_polyConst t v : mstep (polyConst t v).
Proof. apply mstep_mkPoly. Qed.
Lemma mstep_mkInt t v : mstep (mkInt t v).
Proof. unfold mkInt, polyConst. stepper. Qed.
Lemma mstep_mkBool b : mstep (mkBool b).
Proof. apply mstep_intern. Qed.
Lemma mstep_terms_of e : mstep (terms_of e).
Proof. unfold terms_of. stepper. Qed.
Lemma mstep_ty_of e : mstep (ty_of e).
Proof. unfold ty_of. stepper. Qed.
#[export] Hint Resolve mstep_polyConst mstep_mkInt mstep_mkBool mstep_terms_of mstep_ty_of : mvcc_step.
Lemma mstep_asPoly e : mstep (asPoly e).
Proof. unfold asPoly. stepper. Qed.
#[export] Hint Resolve mstep_asPoly : mvcc_step.
Lemma mstep_add a b : mstep (add a b).
Proof. unfold add. stepper. Qed.
Lemma mstep_neg a : mstep (neg a).
Proof. unfold neg. stepper. Qed.
#[export] Hint Resolve mstep_add mstep_neg : mvcc_step.
Lemma mstep_sub a b : mstep (sub a b).
Proof. unfold sub. stepper. Qed.
#[export] Hint Resolve mstep_sub : mvcc_step.
Section cmp_steps.
Context `{CmpInst}.
Lemma mstep_cmp_tail p a b : mstep (cmp_tail p a b).
Proof. unfold cmp_tail. stepper. Qed.
Lemma mstep_cmp_operand e : mstep (cmp_operand e).
Proof. unfold cmp_operand. stepper. Qed.
Lemma mstep_cmp_order p a b : mstep (cmp_order p a b).
Proof. unfold cmp_order. stepper. Qed.
#[local] Hint Resolve mstep_cmp_tail mstep_cmp_operand mstep_cmp_order : mvcc_step.
Lemma mstep_cmp n p a b : mstep (cmp n p a b).
Proof.
  revert p a b. induction n as [|n IH]; intros p a b; [apply mstep_stuck|]. rewrite cmp_S. unfold cmp_body, cmp_poly.
  stepper; apply IH.
Qed.
Context (calleeName : nat → string).
Lemma mstep_split_poly P : mstep (split_poly P).
Proof. unfold split_poly. stepper. Qed.
#[local] Hint Resolve mstep_split_poly : mvcc_step.
Lemma mstep_step_clamp_eq G op pn c : mstep (step_clamp_eq calleeName G op pn c).
Proof. unfold step_clamp_eq. stepper. Qed.
Lemma mstep_step_order cl G op pn c : mstep (step_order calleeName cl G op pn c).
Proof. unfold step_order, step_sdiv, step_clamp_order, boundPoly. stepper. Qed.
#[local] Hint Resolve mstep_step_clamp_eq mstep_step_order : mvcc_step.
Lemma mstep_lits_loop cl G ls : mstep (lits_loop calleeName cl G ls).
Proof.
  revert G. induction ls as [|l ls IH]; intros G; cbn [lits_loop]; [apply mstep_ret|].
  unfold lit_step. stepper; apply IH.
Qed.
Lemma mstep_pass_loop G ks : mstep (pass_loop calleeName G ks).
Proof.
  revert G. induction ks as [|k ks IH]; intros G; cbn [pass_loop]; [apply mstep_ret|].
  unfold pass_step. stepper; apply IH.
Qed.
Lemma mstep_contradictory ls cl : mstep (contradictory calleeName ls cl).
Proof. unfold contradictory. stepper; eauto using mstep_lits_loop, mstep_pass_loop. Qed.
End cmp_steps.
#[export] Hint Resolve mstep_cmp mstep_contradictory : mvcc_step.

Lemma cstep_ret {A} (x : A) : cstep (cret x).
Proof. by intros s r s' [= _ <-]. Qed.
Lemma cstep_stuck {A} : cstep (@cstuck A).
Proof. by intros s r s'. Qed.
Lemma cstep_look {A} (f : Arena → A) : cstep (look f).
Proof. by intros s r s' [= _ <-]. Qed.
Lemma cstep_recall {A} (f : Memo → A) : cstep (recall f).
Proof. by intros s r s' [= _ <-]. Qed.
Lemma cstep_note f : cstep (note f).
Proof. by intros s r s' [= _ <-]. Qed.
Lemma cstep_lift {A} (m : M A) : mstep m → cstep (lift m).
Proof.
  intros Hm st r st'. unfold lift. destruct (m (ar st)) as [[x s]|] eqn:E; [|done]. intros [= _ <-]. by eapply Hm.
Qed.
Lemma cstep_bind {A B} (m : C A) (f : A → C B) : cstep m → (∀ x, cstep (f x)) → cstep (cbind m f).
Proof.
  intros Hm Hf s r s'. unfold cbind. destruct (m s) as [[x s1]|] eqn:E; [|done]. intros E2.
  etrans; [by eapply Hm|by eapply Hf].
Qed.
#[export] Hint Resolve cstep_ret cstep_stuck cstep_look cstep_recall cstep_note cstep_lift : mvcc_step.
#[export] Hint Extern 2 (mstep _) => stepper : mvcc_step.
Ltac cstepper1 :=
  match goal with
  | |- cstep (cbind _ _) => apply cstep_bind; [|intros ?]
  | |- cstep (match ?x with _ => _ end) => destruct x
  | |- cstep (let '(_, _) := ?x in _) => destruct x
  | |- cstep _ => solve [eauto 3 with mvcc_step]
  | |- cstep _ => progress cbn beta zeta
  end.
Ltac cstepper := repeat cstepper1.
Lemma cstep_fold {A B} (f : B → A → C B) l b : (∀ b x, cstep (f b x)) → cstep (cfold f l b).
Proof. intros Hf. revert b. induction l as [|x l IH]; intros b; cbn [cfold]; cstepper; auto. Qed.
Lemma cstep_find {A} (p : A → C bool) l : (∀ x, cstep (p x)) → cstep (cfind p l).
Proof. intros Hp. induction l as [|x l IH]; cbn [cfind]; cstepper; auto. Qed.
Lemma cstep_cached {V} (find : Memo → option V) put (m : C V) : cstep m → cstep (cached find put m).
Proof. intros Hm. unfold cached. cstepper. Qed.
#[export] Hint Resolve cstep_fold cstep_find cstep_cached : mvcc_step.
Lemma cstep_guard l : cstep (guard l).
Proof. unfold guard. cstepper. Qed.
Lemma cstep_mkOp t op l : cstep (mkOp t op l).
Proof. apply cstep_lift, mstep_intern. Qed.
Lemma cstep_type_of e : cstep (type_of e).
Proof. apply cstep_lift, mstep_ty_of. Qed.
#[export] Hint Resolve cstep_guard cstep_mkOp cstep_type_of : mvcc_step.

Record ops_step (R : Ops) : Prop := {
  os_not a : cstep (notb R a);
  os_and a b : cstep (andb_ R a b);
  os_or a b : cstep (orb_ R a b);
  os_implies a b : cstep (implies R a b);
  os_disjoint a b : cstep (disjoint R a b);
  os_flat c k cls : cstep (flat R c k cls);
  os_given c x : cstep (given R c x) }.
#[export] Hint Resolve os_not os_and os_or os_implies os_disjoint os_flat os_given : mvcc_step.
Section cond_steps.
Context `{CmpInst} (calleeName : nat → string) (semantic : bool) (rec : Ops) (HR : ops_step rec).
Lemma cstep_truec : cstep truec.
Proof. apply cstep_lift, mstep_mkBool. Qed.
Lemma cstep_falsec : cstep falsec.
Proof. apply cstep_lift, mstep_mkBool. Qed.
Lemma cstep_contra l : cstep (contra calleeName l).
Proof. apply cstep_lift, mstep_contradictory. Qed.
#[local] Hint Resolve HR cstep_truec cstep_falsec cstep_contra : mvcc_step.
Lemma cstep_and_all ls : cstep (and_all rec ls).
Proof. unfold and_all. cstepper. Qed.
#[local] Hint Resolve cstep_and_all : mvcc_step.
Lemma cstep_notb a : cstep (notb_body rec a).
Proof. unfold notb_body, notb_raw. cstepper; try (apply cstep_cached; cstepper). Qed.
Lemma cstep_and_chain t l : cstep (and_chain t l).
Proof. unfold and_chain. cstepper. Qed.
#[local] Hint Resolve cstep_and_chain : mvcc_step.
Lemma cstep_andb a b : cstep (andb_body semantic rec a b).
Proof. unfold andb_body, andb_raw, lits. cstepper; try (apply cstep_cached; cstepper). Qed.
Lemma cstep_shallow l : cstep (shallowGuard l).
Proof. unfold shallowGuard. cstepper. Qed.
#[local] Hint Resolve cstep_shallow : mvcc_step.
Lemma cstep_is_shallow l : cstep (is_shallow l).
Proof. unfold is_shallow. cstepper. Qed.
#[local] Hint Resolve cstep_is_shallow : mvcc_step.
Lemma cstep_expand_shallow ls cls : cstep (expand_shallow rec ls cls).
Proof. unfold expand_shallow. cstepper. apply cstep_fold. intros. cstepper. Qed.
#[local] Hint Resolve cstep_expand_shallow : mvcc_step.
Lemma cstep_flat_clause c cls : cstep (flat_clause rec c cls).
Proof. unfold flat_clause, lits. cstepper. Qed.
#[local] Hint Resolve cstep_flat_clause : mvcc_step.
Lemma cstep_flat c k cls : cstep (flat_body rec c k cls).
Proof. unfold flat_body, lits. cstepper. Qed.
Lemma cstep_covering x y : cstep (covering semantic rec x y).
Proof. unfold covering, complementary, lit_implies. cstepper. Qed.
#[local] Hint Resolve cstep_covering : mvcc_step.
Lemma cstep_redundant cl k l : cstep (redundant rec cl k l).
Proof. unfold redundant. cstepper. Qed.
#[local] Hint Resolve cstep_redundant : mvcc_step.
Lemma cstep_droppable x d cl : cstep (droppable semantic rec x d cl).
Proof. unfold droppable. cstepper. apply cstep_find. intros. cstepper. Qed.
#[local] Hint Resolve cstep_droppable : mvcc_step.
Lemma cstep_drop_one x d cl : cstep (drop_one semantic rec x d cl).
Proof. unfold drop_one. cstepper. Qed.
#[local] Hint Resolve cstep_drop_one : mvcc_step.
Lemma cstep_pair_step cls i j : cstep (pair_step semantic rec cls i j).
Proof. unfold pair_step. cstepper. Qed.
#[local] Hint Resolve cstep_pair_step : mvcc_step.
Lemma cstep_first_change cls ps : cstep (first_change semantic rec cls ps).
Proof. induction ps as [|[i j] ps IH]; cbn [first_change]; cstepper. Qed.
#[local] Hint Resolve cstep_first_change : mvcc_step.
Lemma cstep_resolve n cls : cstep (resolve semantic rec n cls).
Proof. revert cls. induction n as [|n IH]; intros cls; cbn [resolve]; cstepper. Qed.
#[local] Hint Resolve cstep_resolve : mvcc_step.
Lemma cstep_rebuild t cls r again : cstep (rebuild_or rec t cls r again).
Proof. revert r again. induction cls as [|cl cls IH]; intros r again; cbn [rebuild_or]; unfold lits; cstepper; auto. Qed.
#[local] Hint Resolve cstep_rebuild : mvcc_step.
Lemma cstep_orb a b : cstep (orb_body semantic rec a b).
Proof. unfold orb_body, orb_raw. cstepper; try (apply cstep_cached; cstepper). Qed.
Lemma cstep_expandGuard ls : cstep (expandGuard ls).
Proof.
  unfold expandGuard, conj_step, clause_step. cstepper; try (apply cstep_find || apply cstep_fold); intros; cstepper.
Qed.
#[local] Hint Resolve cstep_expandGuard : mvcc_step.
Lemma cstep_expanding m : cstep m → cstep (expanding m).
Proof. intros Hm. unfold expanding. cstepper. Qed.
#[local] Hint Resolve cstep_expanding : mvcc_step.
Lemma cstep_implies_lit a la l : cstep (implies_lit calleeName semantic rec a la l).
Proof. unfold implies_lit, implies_guard, implies_not_guard. cstepper. Qed.
#[local] Hint Resolve cstep_implies_lit : mvcc_step.
Lemma cstep_implies_lits a b la lb : cstep (implies_lits calleeName semantic rec a b la lb).
Proof. induction lb as [|l lb IH]; cbn [implies_lits]; cstepper. Qed.
#[local] Hint Resolve cstep_implies_lits : mvcc_step.
Lemma cstep_implies a b : cstep (implies_body calleeName semantic rec a b).
Proof. unfold implies_body, implies_raw, lits. cstepper; try (apply cstep_cached; cstepper). Qed.
Lemma cstep_disjoint a b : cstep (disjoint_body calleeName semantic rec a b).
Proof.
  unfold disjoint_body, disjoint_raw, lits. cstepper; try (apply cstep_cached; cstepper).
  apply cstep_find. intros. unfold opposite, lit_implies. cstepper.
Qed.
Lemma cstep_given_lits ctx ls r : cstep (given_lits rec ctx ls r).
Proof. revert r. induction ls as [|l ls IH]; intros r; cbn [given_lits]; cstepper; auto. Qed.
#[local] Hint Resolve cstep_given_lits : mvcc_step.
Lemma cstep_given c ctx : cstep (given_body rec c ctx).
Proof. unfold given_body, given_raw, lits. cstepper; try (apply cstep_cached; cstepper). Qed.
End cond_steps.
Lemma ops_steps `{CmpInst} calleeName semantic n : ops_step (ops calleeName semantic n).
Proof.
  induction n as [|n IH]; [split; intros; apply cstep_stuck|].
  split; intros; cbn.
  - by apply cstep_notb.
  - by apply cstep_andb.
  - by apply cstep_orb.
  - by apply cstep_implies.
  - by apply cstep_disjoint.
  - by apply cstep_flat.
  - by apply cstep_given.
Qed.

(** ** Conditions, and the valuations that are models of a store *)
Definition cond (s : Arena) (e : EP) : Prop := type_at s e = Some i1.
Definition T (s : Arena) (ρ : Env) (e : EP) : bool := truth (den s ρ e).
(** an operand the comparison leaves alone *)
Definition float_operand (s : Arena) (a : EP) : Prop :=
  ∃ x, nodes s !! a = Some x ∧ isIntegerTy (ty x) = false ∧ isPointerTy (ty x) = false ∧ is_poly_node (node x) = false.
Definition int_operands (s : Arena) (a b : EP) : Prop :=
  ∃ t w, type_at s a = Some t ∧ type_at s b = Some t ∧ width t = Some w ∧ 1 < w <= 64 ∧
    - 2 ^ 63 <= const_part s a < 2 ^ 63 ∧ - 2 ^ 63 <= const_part s b < 2 ^ 63 ∧ fits w (const_part s b).
Definition cmp_typed (s : Arena) (p : Pred) (a b : EP) : Prop :=
  match icmp p 1 0 0 with
  | Some _ => int_operands s a b
  | None => float_operand s a ∧ float_operand s b
  end.
(** a node whose operands are in the store is typed; so a store grown into a typed one was typed *)
Record typed (s : Arena) : Prop := {
  ty_cmp e t p l : nodes s !! e = Some (mkExpr t (NCmp p l)) → Forall (valid s) l →
    ∃ a b, l = [a; b] ∧ cmp_typed s p a b;
  ty_bool e op a b : nodes s !! e = Some (mkExpr i1 (NOp op [a; b])) → op ∈ [And; Or; Xor] →
    valid s a → valid s b → cond s a ∧ cond s b }.
(** every guard symbol has its definition *)
Definition guards_ok (s : Arena) : Prop :=
  ∀ i sy, symbols s !! i = Some sy → sy_kind sy = Guard →
    ∃ d, guardDefs s !! Z.to_nat (sy_field sy) = Some d ∧ cond s d.

Lemma cond_valid s e : cond s e → valid s e.
Proof. apply type_at_valid. Qed.
Lemma cond_ext s s' e : ext s s' → cond s e → cond s' e.
Proof. apply type_at_ext. Qed.
#[export] Hint Resolve cond_valid cond_ext st_ext : mvcc_arena.
Lemma type_at_back s s' e t : ext s s' → valid s e → type_at s' e = Some t → type_at s e = Some t.
Proof. intros Hx [x Hn]%valid_lookup. unfold type_at. by rewrite Hn, (ext_node _ _ _ _ Hx Hn). Qed.
Lemma const_part_back s s' e : ext s s' → valid s e → const_part s' e = const_part s e.
Proof. intros Hx [x Hn]%valid_lookup. unfold const_part. by rewrite Hn, (ext_node _ _ _ _ Hx Hn). Qed.
Lemma int_operands_back s s' a b : ext s s' → valid s a → valid s b → int_operands s' a b → int_operands s a b.
Proof.
  intros Hx Ha Hb (t & w & Hta & Htb & H). exists t, w. rewrite !(const_part_back s s') in H by done.
  split; [by eapply type_at_back|]. split; [by eapply type_at_back|done].
Qed.
Lemma int_operands_ext s s' a b : ext s s' → int_operands s a b → int_operands s' a b.
Proof.
  intros Hx (t & w & Hta & Htb & H). exists t, w. rewrite !(const_part_back s s') by eauto with mvcc_arena.
  split; [by eapply type_at_ext|]. split; [by eapply type_at_ext|done].
Qed.
Lemma float_operand_back s s' a : ext s s' → valid s a → float_operand s' a → float_operand s a.
Proof.
  intros Hx [x Hn]%valid_lookup (y & Hy & H). rewrite (ext_node _ _ _ _ Hx Hn) in Hy. injection Hy as <-. by exists x.
Qed.
Lemma typed_back s s' : ext s s' → typed s' → typed s.
Proof.
  intros Hx [Hc Hb]. split.
  - intros e t p l He Hl. destruct (Hc e t p l) as (a & b & -> & Hp); [by eapply ext_node| |].
    { eapply Forall_impl; [exact Hl|]. intros c. by apply ext_valid. }
    exists a, b. split; [done|]. apply Forall_cons in Hl as [Ha [Hb' _]%Forall_cons]. unfold cmp_typed in *.
    destruct (icmp p 1 0 0); [by eapply int_operands_back|]. destruct Hp. split; by eapply float_operand_back.
  - intros e op a b He Hop Ha Hvb. destruct (Hb e op a b) as [? ?]; [by eapply ext_node|done|by eapply ext_valid..|].
    split; by eapply type_at_back.
Qed.
Lemma guards_step s s' : step s s' → guards_ok s → guards_ok s'.
Proof.
  intros [Hx Es Eg] Hg i sy Hi Hk. rewrite Es in Hi. rewrite Eg. destruct (Hg i sy Hi Hk) as (d & Hd & Hc).
  exists d. split; [done|by eapply cond_ext].
Qed.

Section sem.
Context `{CmpInst} (calleeName : nat → string) (semantic : bool).
(** comparisons of floating point: the inverse predicate is the negation *)
Definition float_law (ρ : Env) : Prop :=
  ∀ p a b va vb, icmp p 1 0 0 = None →
    truth (env_opq ρ i1 (NCmp (getInversePredicate p) [a; b]) [va; vb]) = negb (truth (env_opq ρ i1 (NCmp p [a; b]) [va; vb])).
Record model (s : Arena) (ρ : Env) : Prop := {
  mo_typed : typed s;
  mo_range e p a b t w : literal s e = Some (p, a, b) → icmp p 1 0 0 ≠ None →
    type_at s a = Some t → width t = Some w → in_range w (den s ρ a) ∧ in_range w (den s ρ b);
  mo_guard e d : isGuardSym s e = true → guard_def s e = Some d → T s ρ e = T s ρ d;
  mo_val : valuation_ok calleeName s ρ;
  mo_float : float_law ρ }.

Lemma T_ext s s' ρ e : wf s → wf s' → ext s s' → valid s e → T s' ρ e = T s ρ e.
Proof. intros Hw Hw' Hx Hv. unfold T. by rewrite (den_ext s s'). Qed.
Lemma T_step s s' ρ e : wf s → wf s' → step s s' → valid s e → T s' ρ e = T s ρ e.
Proof. intros Hw Hw' [Hx _ _]. by apply T_ext. Qed.
Lemma isGuardSym_ext s s' e : ext s s' → isGuardSym s e = true → isGuardSym s' e = true.
Proof.
  unfold isGuardSym. intros Hx. destruct (nodes s !! e) as [x|] eqn:Hn; [|done]. rewrite (ext_node _ _ _ _ Hx Hn).
  destruct x as [t [| |i| | | | | | | |]]; try done. destruct (symbols s !! i) as [sy|] eqn:Ei; [|done].
  by rewrite (prefix_lookup_Some _ _ _ _ Ei (ext_symbols _ _ Hx)).
Qed.
Lemma guard_def_ext s s' e d : ext s s' → guard_def s e = Some d → guard_def s' e = Some d.
Proof.
  unfold guard_def. intros Hx. destruct (nodes s !! e) as [x|] eqn:Hn; [|done]. rewrite (ext_node _ _ _ _ Hx Hn).
  destruct x as [t [| |i| | | | | | | |]]; try done. destruct (symbols s !! i) as [sy|] eqn:Ei; [|done].
  rewrite (prefix_lookup_Some _ _ _ _ Ei (ext_symbols _ _ Hx)). cbn. intros Hd.
  by rewrite (prefix_lookup_Some _ _ _ _ Hd (ext_guards _ _ Hx)).
Qed.
Lemma isGuardSym_valid s e : isGuardSym s e = true → valid s e.
Proof. unfold isGuardSym. intros Hg. apply valid_lookup. destruct (nodes s !! e) as [x|]; [by eexists|done]. Qed.
Lemma guard_def_cond s e d : guards_ok s → isGuardSym s e = true → guard_def s e = Some d → cond s d.
Proof.
  unfold isGuardSym, guard_def. intros Hg. destruct (nodes s !! e) as [[t [| |i| | | | | | | |]]|]; try done.
  destruct (symbols s !! i) as [sy|] eqn:E; [|done]. intros Hk%bool_decide_eq_true Hd. cbn in Hd.
  destruct (Hg i sy E Hk) as (d' & Hd' & ?). congruence.
Qed.
Lemma literal_step s s' e : ext s s' → valid s e → literal s' e = literal s e.
Proof. intros Hx [x Hn]%valid_lookup. unfold literal. by rewrite Hn, (ext_node _ _ _ _ Hx Hn). Qed.
Lemma literal_valid s e p a b : wf s → literal s e = Some (p, a, b) → valid s e ∧ valid s a ∧ valid s b.
Proof.
  intros Hwf [t Hn]%literal_node. pose proof Hn as Hv%lookup_lt_Some. destruct (wf_nodes _ Hwf _ _ Hn) as [Hc _].
  cbn in Hc. apply Forall_cons in Hc as [? [? _]%Forall_cons]. unfold valid in *. split_and!; lia.
Qed.
Lemma valuation_ok_back s s' ρ : wf s → wf s' → ext s s' → valuation_ok calleeName s' ρ → valuation_ok calleeName s ρ.
Proof.
  intros Hw Hw' Hx [Hsem [Hc Hd]]. split; [done|].
  assert (∀ o, valid s o → operand_small s' ρ o → operand_small s ρ o) as Hback.
  { intros o Ho. unfold operand_small. by rewrite (den_ext s s'), (const_part_back s s'). }
  split.
  - intros e b x y He. pose proof (clamp_node _ _ _ _ _ _ He) as (t & c & a & Hn & _).
    destruct (Hc e b x y) as [Hs1 Hs2].
    { unfold clamp_of in *. by rewrite Hn in He; rewrite (ext_node _ _ _ _ Hx Hn). }
    split; (apply Hback; [|done]); (eapply child_valid; [done|exact Hn|cbn; set_solver]).
  - intros e x k He. pose proof (sdiv_node _ _ _ _ He) as (t & y & Hn & Hk & _).
    assert (valid s x ∧ valid s y) as [Hvx Hvy] by (split; eapply child_valid; [done|exact Hn|cbn; set_solver..]).
    apply Hback; [done|]. eapply Hd. unfold sdiv_of in *. rewrite Hn in He. rewrite (ext_node _ _ _ _ Hx Hn).
    by rewrite (constInt_ext s s').
Qed.
Lemma model_ext s s' ρ : wf s → wf s' → guards_ok s → ext s s' → model s' ρ → model s ρ.
Proof.
  intros Hw Hw' Hgs Hx [Ht Hr Hg Hv Hf]. split.
  - by eapply typed_back.
  - intros e p a b t w El Hp Hta Hwd. destruct (literal_valid _ _ _ _ _ Hw El) as (Hve & Hva & Hvb).
    rewrite <- (den_ext s s' ρ a), <- (den_ext s s' ρ b) by done.
    eapply Hr; [by rewrite (literal_step s s')|done|by eapply type_at_ext|done].
  - intros e d Hge Hd. pose proof (isGuardSym_valid _ _ Hge) as Hve. pose proof (guard_def_cond _ _ _ Hgs Hge Hd) as Hcd.
    rewrite <- (T_ext s s' ρ e), <- (T_ext s s' ρ d) by eauto with mvcc_arena.
    apply Hg; [by apply (isGuardSym_ext s s')|by apply (guard_def_ext s s')].
  - by eapply valuation_ok_back.
  - done.
Qed.

(** [means s e v]: the condition [e] has the truth value [v] in every model *)
Definition means (s : Arena) (e : EP) (v : Env → bool) : Prop := cond s e ∧ ∀ ρ, model s ρ → T s ρ e = v ρ.
Definition holds_in (s : Arena) (P : Env → Prop) : Prop := ∀ ρ, model s ρ → P ρ.
Lemma means_T s e : cond s e → means s e (λ ρ, T s ρ e).
Proof. by split. Qed.
Lemma means_valid s e v : means s e v → valid s e.
Proof. intros [Hc _]. by apply cond_valid. Qed.
Lemma means_iff s e v v' : (∀ ρ, model s ρ → v ρ = v' ρ) → means s e v → means s e v'.
Proof. intros Hv [Hc Hm]. split; [done|]. intros ρ Hρ. by rewrite Hm, Hv. Qed.

(** ** The tables hold right answers *)
Definition ok_not (s : Arena) (a r : EP) : Prop := cond s a ∧ means s r (λ ρ, negb (T s ρ a)).
Definition ok_bin (f : bool → bool → bool) (s : Arena) (k : EP * EP) (r : EP) : Prop :=
  cond s k.1 ∧ cond s k.2 ∧ means s r (λ ρ, f (T s ρ k.1) (T s ρ k.2)).
Definition ok_rel (f : bool → bool → bool) (s : Arena) (k : EP * EP) (r : bool) : Prop :=
  cond s k.1 ∧ cond s k.2 ∧ (r = true → holds_in s (λ ρ, f (T s ρ k.1) (T s ρ k.2) = true)).
(** where the context holds, the result is the condition *)
Definition ok_given (s : Arena) (k : EP * EP) (r : EP) : Prop :=
  cond s k.1 ∧ cond s k.2 ∧ cond s r ∧ holds_in s (λ ρ, T s ρ k.2 = true → T s ρ r = T s ρ k.1).
Definition ok_guard (s : Arena) (rest g : EP) : Prop := cond s rest ∧ means s g (λ ρ, T s ρ rest).
Record memo_ok (s : Arena) (m : Memo) : Prop := {
  mk_not : map_Forall (ok_not s) (notbMemo m);
  mk_and : map_Forall (ok_bin andb s) (andMemo m);
  mk_or : map_Forall (ok_bin orb s) (orMemo m);
  mk_implies : map_Forall (ok_rel implb s) (impliesMemo m);
  mk_disjoint : map_Forall (ok_rel (λ a b, negb (a && b)) s) (disjointMemo m);
  mk_given : map_Forall (ok_given s) (givenMemo m);
  mk_guard : map_Forall (ok_guard s) (guardOf m) }.
Record inv (st : CSt) : Prop := {
  in_wf : wf (ar st);
  in_guards : guards_ok (ar st);
  in_memo : memo_ok (ar st) (me st) }.

Section stable.
Context (s s' : Arena) (Hw : wf s) (Hw' : wf s') (Hg : guards_ok s) (Hx : ext s s').
Lemma holds_in_ext P : holds_in s P → holds_in s' P.
Proof. intros HP ρ Hρ. apply HP. by eapply model_ext. Qed.
Lemma means_ext e v : means s e v → means s' e v.
Proof.
  intros [Hc Hm]. split; [by apply (cond_ext s)|]. intros ρ Hρ.
  rewrite (T_ext s s') by eauto with mvcc_arena. apply Hm. by eapply model_ext.
Qed.
Lemma holds_T_ext (f : bool → bool → bool) a b : cond s a → cond s b →
  holds_in s (λ ρ, f (T s ρ a) (T s ρ b) = true) → holds_in s' (λ ρ, f (T s' ρ a) (T s' ρ b) = true).
Proof. intros Ha Hb HP ρ Hρ. rewrite !(T_ext s s') by eauto with mvcc_arena. apply HP. by eapply model_ext. Qed.
Lemma ok_bin_ext f k r : ok_bin f s k r → ok_bin f s' k r.
Proof.
  intros (Ha & Hb & Hr). split; [by apply (cond_ext s)|]. split; [by apply (cond_ext s)|].
  eapply means_iff; [|by apply means_ext]. intros ρ _. cbn. by rewrite !(T_ext s s') by eauto with mvcc_arena.
Qed.
Lemma ok_rel_ext f k r : ok_rel f s k r → ok_rel f s' k r.
Proof.
  intros (Ha & Hb & Hr). split; [by apply (cond_ext s)|]. split; [by apply (cond_ext s)|]. intros E.
  apply holds_T_ext; auto.
Qed.
Lemma memo_ok_ext m : memo_ok s m → memo_ok s' m.
Proof.
  intros [H1 H2 H3 H4 H5 H6 H7].
  split; eapply map_Forall_impl; try eassumption; intros k v; try apply ok_bin_ext; try apply ok_rel_ext.
  - intros (Ha & Hr). split; [by apply (cond_ext s)|]. eapply means_iff; [|by apply means_ext].
    intros ρ _. cbn. by rewrite (T_ext s s') by eauto with mvcc_arena.
  - intros (Ha & Hb & Hc & Hr). split_and!; try (by apply (cond_ext s)). intros ρ Hρ.
    rewrite !(T_ext s s') by eauto with mvcc_arena. apply Hr. by eapply model_ext.
  - intros (Ha & Hr). split; [by apply (cond_ext s)|]. eapply means_iff; [|by apply means_ext].
    intros ρ _. cbn. by rewrite (T_ext s s') by eauto with mvcc_arena.
Qed.
End stable.

(** ** Partial correctness
    [sound m st Q]: when the operation returns, in a store that is typed, the tables are right and the
    result satisfies [Q]. *)
Definition sound {A} (m : C A) (st : CSt) (Q : A → Arena → Prop) : Prop :=
  inv st → ∀ r st', m st = Some (r, st') → typed (ar st') → inv st' ∧ Q r (ar st').
Lemma sound_ret {A} (x : A) st (Q : A → Arena → Prop) : (inv st → typed (ar st) → Q x (ar st)) → sound (cret x) st Q.
Proof. intros HQ Hi r st' [= <- <-] Ht. auto. Qed.
Lemma sound_stuck {A} st (Q : A → Arena → Prop) : sound cstuck st Q.
Proof. by intros _ r st'. Qed.
Lemma sound_bind {A B} (m : C A) (f : A → C B) st (Q1 : A → Arena → Prop) (Q2 : B → Arena → Prop) :
  (∀ x, cstep (f x)) → sound m st Q1 →
  (∀ x st1, m st = Some (x, st1) → inv st1 → typed (ar st1) → Q1 x (ar st1) → sound (f x) st1 Q2) →
  sound (cbind m f) st Q2.
Proof.
  intros Hs Hm Hf Hi r st'. unfold cbind. destruct (m st) as [[x st1]|] eqn:E; [|done]. intros E2 Ht.
  assert (typed (ar st1)) as Ht1. { eapply typed_back; [|exact Ht]. exact (st_ext _ _ (Hs x _ _ _ E2)). }
  destruct (Hm Hi x st1 E Ht1) as [Hi1 HQ1]. by eapply Hf.
Qed.
Lemma sound_mono {A} (m : C A) st (Q1 Q2 : A → Arena → Prop) :
  sound m st Q1 → (∀ r st', m st = Some (r, st') → inv st' → typed (ar st') → Q1 r (ar st') → Q2 r (ar st')) → sound m st Q2.
Proof. intros Hm HQ Hi r st' E Ht. destruct (Hm Hi r st' E Ht). auto. Qed.
Lemma sound_start {A} (m : C A) st (Q : A → Arena → Prop) :
  cstep m → (inv st → typed (ar st) → sound m st Q) → sound m st Q.
Proof.
  intros Hs Hm Hi r st' E Ht. apply Hm; [done| |done..]. eapply typed_back; [|exact Ht]. exact (st_ext _ _ (Hs _ _ _ E)).
Qed.
Lemma sound_look {A B} (g : Arena → A) (f : A → C B) st (Q : B → Arena → Prop) :
  sound (f (g (ar st))) st Q → sound (cbind (look g) f) st Q.
Proof. done. Qed.
Lemma sound_recall {A B} (g : Memo → A) (f : A → C B) st (Q : B → Arena → Prop) :
  sound (f (g (me st))) st Q → sound (cbind (recall g) f) st Q.
Proof. done. Qed.
(** a change of the counters *)
Definition counter (f : Memo → Memo) : Prop := ∀ s m, memo_ok s m → memo_ok s (f m).
Lemma counter_depth f : counter (set_depth f).
Proof. intros s m Hm. destruct Hm. split; assumption. Qed.
Lemma counter_rounds f : counter (set_rounds f).
Proof. intros s m Hm. destruct Hm. split; assumption. Qed.
Lemma sound_note {B} g (f : unit → C B) st (Q : B → Arena → Prop) : counter g →
  (∀ st', ar st' = ar st → sound (f tt) st' Q) → sound (cbind (note g) f) st Q.
Proof.
  intros Hg Hf Hi. apply (Hf (mkC (ar st) (g (me st))) eq_refl). destruct Hi. split; cbn; auto.
Qed.
Lemma sound_lift {A} (m : M A) st (Q : A → Arena → Prop) :
  mstep m → (wf (ar st) → typed (ar st) → guards_ok (ar st) → spec m (ar st) Q) → sound (lift m) st Q.
Proof.
  intros Hs Hm [Hw Hg Hk] r st'. unfold lift. destruct (m (ar st)) as [[x s]|] eqn:E; [|done]. intros [= <- <-] Ht.
  cbn in *. pose proof (Hs _ _ _ E) as Hst.
  destruct (Hm Hw) as (x' & s' & E' & Hw' & _ & HQ); [by eapply typed_back, Ht; destruct Hst|done|].
  rewrite E in E'. injection E' as <- <-. split; [|done].
  split; cbn; [done|by apply (guards_step (ar st))|apply (memo_ok_ext (ar st)); by destruct Hst].
Qed.
Lemma sound_cached {V} (find : Memo → option V) put (m : C V) st (Q : V → Arena → Prop) :
  cstep m →
  (inv st → typed (ar st) → ∀ v, find (me st) = Some v → Q v (ar st)) →
  sound m st Q →
  (∀ v st', step (ar st) (ar st') → inv st → inv st' → Q v (ar st') → memo_ok (ar st') (put v (me st'))) →
  sound (cached find put m) st Q.
Proof.
  intros Hs Hf Hm Hp Hi r st' E Ht. unfold cached, cbind, recall in E. destruct (find (me st)) as [v|] eqn:Ef.
  { injection E as <- <-. split; [done|]. by apply Hf. }
  destruct (m st) as [[v st1]|] eqn:E1; [|done]. unfold note, cret in E. injection E as <- <-. cbn in Ht |- *.
  destruct (Hm Hi v st1 E1 Ht) as [Hi1 HQ]. split; [|done]. pose proof (Hp v st1 (Hs _ _ _ E1) Hi Hi1 HQ).
  destruct Hi1. by split.
Qed.
(** what a postcondition about the store keeps *)
Lemma sound_fold {A B} (f : B → A → C B) l b st (I : list A → B → Arena → Prop) :
  (∀ b x, cstep (f b x)) → I [] b (ar st) →
  (∀ l1 x l2 b st', l = l1 ++ x :: l2 → inv st' → typed (ar st') → step (ar st) (ar st') → I l1 b (ar st') →
     sound (f b x) st' (I (l1 ++ [x]))) →
  sound (cfold f l b) st (I l).
Proof.
  intros Hs H0 Hf.
  assert (∀ l2 l1 b st', l = l1 ++ l2 → step (ar st) (ar st') → I l1 b (ar st') → sound (cfold f l2 b) st' (I l)) as Hgen.
  { induction l2 as [|x l2 IH]; intros l1 b1 st1 El Hst HI; cbn [cfold].
    - rewrite app_nil_r in El. subst. by apply sound_ret.
    - apply sound_start; [cstepper; auto using cstep_fold|]. intros Hi1 Ht1.
      eapply sound_bind; [intros; by apply cstep_fold|by eapply Hf|]. cbn beta. intros b2 st2 E Hi2 Ht2 HI2.
      apply (IH (l1 ++ [x])); [by rewrite <- app_assoc| |done]. etrans; [exact Hst|]. by eapply Hs. }
  by apply (Hgen l []).
Qed.
Lemma sound_find {A} (p : A → C bool) l st (Q : A → bool → Arena → Prop) :
  (∀ x, cstep (p x)) →
  (∀ x st', x ∈ l → inv st' → typed (ar st') → step (ar st) (ar st') → sound (p x) st' (Q x)) →
  sound (cfind p l) st (λ o s, ∀ x, o = Some x → x ∈ l ∧ Q x true s).
Proof.
  intros Hs. revert st. induction l as [|x l IH]; intros st Hp; cbn [cfind]; [by apply sound_ret|].
  apply sound_start; [cstepper; auto using cstep_find|]. intros Hi Ht.
  eapply sound_bind; [intros; cstepper; auto using cstep_find|apply (Hp x st); [left|done..]|].
  cbn beta. intros b st1 E Hi1 Ht1 HQ. pose proof (Hs _ _ _ _ E) as Hst. destruct b.
  - apply sound_ret. intros _ _ y [= <-]. split; [left|done].
  - eapply sound_mono; [apply IH; intros; apply Hp; [by right|done..|by etrans]|].
    cbn beta. intros o st2 _ _ _ HQ2 y ->. destruct (HQ2 y eq_refl). split; [by right|done].
Qed.
End sem.
