(* ===== verification/ArenaCondLits.v ===== *)
(** The literals of path conditions in a model (ArenaCondSem.v): the structure of conjunctions and
    disjunctions, what the literal tests of the arena answer in a model, the negation of a
    comparison, and why the implied literals of a conjunction can be dropped. *)
From stdpp Require Import sorting.
From S2P Require Import Prelude Cstd Expr Arena ArenaSem ArenaCmp ArenaLits ArenaContra ArenaCond ArenaCondSem.
Open Scope Z_scope.

(** ** Nodes of conditions *)
Lemma T_bool s ρ e op a b : wf s → nodes s !! e = Some (mkExpr i1 (NOp op [a; b])) →
  T s ρ e = match op with
            | And => T s ρ a && T s ρ b | Or => T s ρ a || T s ρ b | Xor => xorb (T s ρ a) (T s ρ b)
            | _ => T s ρ e
            end.
Proof.
  intros Hw He. unfold T. destruct op; try done;
    rewrite (den_unfold _ _ _ _ Hw He); unfold eval_node; cbn -[truth bval isInt1]; apply truth_bval.
Qed.
Lemma bool_op_node s op e a b : bool_op s op e = Some (a, b) → nodes s !! e = Some (mkExpr i1 (NOp op [a; b])).
Proof.
  unfold bool_op. destruct (nodes s !! e) as [[t [| | |o [|x [|y [|]]]| | | | | | |]]|]; try done. cbn.
  destruct (bool_decide (o = op)) eqn:Eo; [|done]. destruct (isInt1 t) eqn:Et; [|done]. cbn.
  apply bool_decide_eq_true in Eo, Et. by intros [= -> ->]; subst.
Qed.
Lemma bool_op_step s s' op e : ext s s' → valid s e → bool_op s' op e = bool_op s op e.
Proof. intros Hx [x Hn]%valid_lookup. unfold bool_op. by rewrite Hn, (ext_node _ _ _ _ Hx Hn). Qed.
Section structure.
Context (s : Arena) (Hw : wf s) (Ht : typed s).
Lemma bool_op_spec op e a b : op ∈ [And; Or; Xor] → bool_op s op e = Some (a, b) →
  (a < e ∧ b < e)%nat ∧ cond s e ∧ cond s a ∧ cond s b.
Proof using All.
  intros Hop He%bool_op_node. destruct (wf_nodes _ Hw _ _ He) as [Hc _]. cbn in Hc.
  apply Forall_cons in Hc as [Ha [Hb _]%Forall_cons].
  pose proof He as Hv%lookup_lt_Some. split; [done|]. split; [unfold cond, type_at; by rewrite He|].
  eapply (ty_bool _ Ht); [exact He|done|unfold valid; lia..].
Qed.
Lemma or_op_spec e a b : bool_op s Or e = Some (a, b) →
  (a < e ∧ b < e)%nat ∧ cond s e ∧ cond s a ∧ cond s b ∧ ∀ ρ, T s ρ e = T s ρ a || T s ρ b.
Proof using All.
  intros E. destruct (bool_op_spec Or e a b) as (? & ? & ? & ?); [set_solver|done|].
  split_and!; try done; try tauto. intros ρ. by rewrite (T_bool _ ρ _ Or a b Hw (bool_op_node _ _ _ _ _ E)).
Qed.
Lemma and_op_spec e a b : bool_op s And e = Some (a, b) →
  (a < e ∧ b < e)%nat ∧ cond s e ∧ cond s a ∧ cond s b ∧ ∀ ρ, T s ρ e = T s ρ a && T s ρ b.
Proof using All.
  intros E. destruct (bool_op_spec And e a b) as (? & ? & ? & ?); [set_solver|done|].
  split_and!; try done; try tauto. intros ρ. by rewrite (T_bool _ ρ _ And a b Hw (bool_op_node _ _ _ _ _ E)).
Qed.
Lemma const_T ρ e bw c : nodes s !! e = Some (mkExpr i1 (NConst bw c)) → T s ρ e = negb (c =? 0).
Proof using Hw.
  intros E. destruct (wf_nodes _ Hw _ _ E) as [_ Hok]. cbn in Hok. destruct (Hok 1 eq_refl) as (-> & _ & Hc).
  unfold T. rewrite (den_unfold _ _ _ _ Hw E). unfold eval_node; cbn -[truth sext].
  assert (c = 0 ∨ c = 1) as [-> | ->] by lia; done.
Qed.
Lemma isTrue_T ρ e : isTrue s e = true → T s ρ e = true.
Proof using Hw.
  unfold isTrue. destruct (nodes s !! e) as [[t [bw c| | | | | | | | | |]]|] eqn:E; try done.
  intros [->%bool_decide_eq_true ->%Z.eqb_eq]%andb_true_iff. by rewrite (const_T _ _ _ _ E).
Qed.
Lemma isFalse_T ρ e : isFalse s e = true → T s ρ e = false.
Proof using Hw.
  unfold isFalse. destruct (nodes s !! e) as [[t [bw c| | | | | | | | | |]]|] eqn:E; try done.
  intros [->%bool_decide_eq_true ->%Z.eqb_eq]%andb_true_iff. by rewrite (const_T _ _ _ _ E).
Qed.
Lemma negated_T ρ e x : cond s e → negated s e = Some x → cond s x ∧ T s ρ e = negb (T s ρ x).
Proof using All.
  unfold negated. intros Hc. destruct (nodes s !! e) as [[t [| | |[] [|y [|z [|]]]| | | | | | |]]|] eqn:E; try done.
  destruct (isTrue s z) eqn:Ez; [|done]. intros [= ->]. unfold cond, type_at in Hc. rewrite E in Hc.
  injection Hc as ->. destruct (bool_op_spec Xor e x z) as (_ & _ & Hx & _); [set_solver| |].
  { unfold bool_op. by rewrite E. }
  split; [done|]. rewrite (T_bool s ρ e Xor x z Hw E), (isTrue_T ρ z Ez). apply xorb_true_r.
Qed.

(** the literals of a conjunction, and the clauses of a disjunction *)
Lemma conjuncts_fuel_spec n c : (c < n)%nat → cond s c →
  Forall (cond s) (conjuncts_fuel n s c) ∧ ∀ ρ, T s ρ c = forallb (T s ρ) (conjuncts_fuel n s c).
Proof using All.
  revert c. induction n as [|n IH]; intros c Hn Hc; [lia|]. cbn [conjuncts_fuel].
  change (nodes s !! c ≫= isBoolOp And) with (bool_op s And c).
  destruct (bool_op s And c) as [[a b]|] eqn:E.
  - destruct (and_op_spec _ _ _ E) as ([Ha Hb] & _ & Hca & Hcb & HT).
    destruct (IH a) as [H1 H2]; [lia|done|]. destruct (IH b) as [H3 H4]; [lia|done|].
    split; [by apply Forall_app|]. intros ρ. by rewrite HT, forallb_app, H2, H4.
  - destruct (isTrue s c) eqn:Et; [split; [constructor|]; intros ρ; by apply isTrue_T|].
    split; [by constructor|]. intros ρ. cbn. by rewrite andb_true_r.
Qed.
Lemma conjuncts_cond c : cond s c → Forall (cond s) (conjuncts s c).
Proof using All. intros Hc. by apply conjuncts_fuel_spec; [lia|]. Qed.
Lemma conjuncts_T ρ c : cond s c → T s ρ c = forallb (T s ρ) (conjuncts s c).
Proof using All. intros Hc. apply conjuncts_fuel_spec; [lia|done]. Qed.
Lemma or_leaves_spec n c : (c < n)%nat → cond s c →
  Forall (cond s) (or_leaves_f n s c) ∧ ∀ ρ, T s ρ c = existsb (T s ρ) (or_leaves_f n s c).
Proof using All.
  revert c. induction n as [|n IH]; intros c Hn Hc; [lia|]. cbn [or_leaves_f].
  destruct (bool_op s Or c) as [[a b]|] eqn:E.
  - destruct (or_op_spec _ _ _ E) as ([Ha Hb] & _ & Hca & Hcb & HT).
    destruct (IH a) as [H1 H2]; [lia|done|]. destruct (IH b) as [H3 H4]; [lia|done|].
    split; [by apply Forall_app|]. intros ρ. by rewrite HT, existsb_app, H2, H4.
  - split; [by constructor|]. intros ρ. cbn. by rewrite orb_false_r.
Qed.
Lemma or_leaves_cond c : cond s c → Forall (cond s) (or_leaves s c).
Proof using All. intros Hc. by apply or_leaves_spec; [lia|]. Qed.
Lemma or_leaves_T ρ c : cond s c → T s ρ c = existsb (T s ρ) (or_leaves s c).
Proof using All. intros Hc. apply or_leaves_spec; [lia|done]. Qed.
End structure.

(** ** Literals in a model *)
Section sem.
Context `{CmpInst} (calleeName : nat → string) (semantic : bool).
Local Abbreviation model := (model calleeName).
Local Abbreviation means := (means calleeName).
Local Abbreviation holds_in := (holds_in calleeName).
Local Abbreviation inv := (inv calleeName).
Local Abbreviation sound := (sound calleeName).
Lemma literal_cmp_typed s l p a b : wf s → typed s → literal s l = Some (p, a, b) → cmp_typed s p a b.
Proof using Type.
  intros Hw Ht El. destruct (literal_valid _ _ _ _ _ Hw El) as (_ & Ha & Hb).
  apply literal_node in El as [t Hn]. destruct (ty_cmp _ Ht _ _ _ _ Hn) as (a' & b' & [= <- <-] & ?); [|done].
  by repeat constructor.
Qed.
Lemma icmp_none p w x y w' x' y' : icmp p w x y = None → icmp p w' x' y' = None.
Proof. by destruct p. Qed.
(** a literal is a comparison of integers, well typed and in range in every model, or one of floats *)
Lemma literal_int s ρ l p a b : wf s → model s ρ → literal s l = Some (p, a, b) → icmp p 1 0 0 ≠ None →
  ∃ w, lit_typed s w l ∧ lit_in_range s ρ w l.
Proof.
  intros Hw Hm El Hp. pose proof (literal_cmp_typed _ _ _ _ _ Hw (mo_typed _ _ _ Hm) El) as Hty.
  unfold cmp_typed in Hty. destruct (icmp p 1 0 0) eqn:Ei; [|done].
  destruct Hty as (t & w & Hta & Htb & Hwd & Hw1 & Hca & Hcb & _). exists w. split.
  - intros p' a' b' E. rewrite El in E. injection E as <- <- <-. exists t. split_and!; try done; try lia.
    intros Hn. by rewrite (icmp_none _ _ _ _ 1 0 0 Hn) in Ei.
  - intros p' a' b' E. rewrite El in E. injection E as <- <- <-. eapply (mo_range _ _ _ Hm); eauto; congruence.
Qed.
Lemma model_fact s ρ l : wf s → model s ρ → T s ρ l = true → fact_ok s ρ l.
Proof.
  intros Hw Hm HT. split; [exact HT|]. destruct (literal s l) as [[[p a] b]|] eqn:El.
  - destruct (icmp p 1 0 0) eqn:Ei; [left; eapply literal_int; [done|done|exact El|by rewrite Ei]|right; by exists p, a, b].
  - left. exists 1. split; intros p a b E; congruence.
Qed.
Lemma litImplies_float s x y : float_cmp s x ∨ float_cmp s y → litImplies semantic s x y = true → x = y.
Proof.
  intros Hf. unfold litImplies. destruct (Nat.eqb_spec x y) as [|_]; [done|].
  destruct (literal s x) as [[[px ax] bx]|] eqn:Ex; [|done]. destruct (literal s y) as [[[py ay] by_]|] eqn:Ey; [|done].
  destruct (negb (bx =? by_)%nat); [done|].
  assert (∀ q, lower q = true ∨ upper q = true → icmp q 1 0 0 ≠ None) as Hlu.
  { intros []; cbn; try done; by intros [?|?]. }
  assert ((lower px && lower py) || (upper px && upper py) = false) as ->.
  { apply not_true_iff_false. rewrite orb_true_iff, !andb_true_iff. intros Hk.
    destruct Hf as [(p & a & b & El & Hp)|(p & a & b & El & Hp)]; rewrite ?Ex, ?Ey in El; injection El as -> -> ->;
      apply (Hlu p); tauto. }
  cbn. destruct (bool_decide (py = ICMP_NE ∨ py = ICMP_EQ)) eqn:Epy; [|by rewrite andb_false_r].
  apply bool_decide_eq_true in Epy.
  destruct Hf as [Hf|(p & a & b & El & Hp)].
  2: { rewrite Ey in El. injection El as -> -> ->. destruct Epy as [-> | ->]; done. }
  intros [_ Hd%bool_decide_eq_true]%andb_true_iff. unfold decideLit in Hd. rewrite Ey in Hd.
  rewrite (bool_decide_false (py = ICMP_UGE)), (bool_decide_false (py = ICMP_ULT)), !andb_false_r in Hd
    by (by destruct Epy as [-> | ->]).
  destruct (poly_of s ay) as [[tl tsl]|]; [|done]. destruct (split_const tsl) as [pl cl].
  destruct (_ && _); [done|]. cbn [fold_left] in Hd. by rewrite fact_step_float in Hd.
Qed.
Lemma lit_implies_T s ρ x y : wf s → model s ρ → litImplies semantic s x y = true → T s ρ x = true → T s ρ y = true.
Proof.
  intros Hw Hm Hi Hx. pose proof Hi as Hi'. unfold litImplies in Hi'.
  destruct (Nat.eqb_spec x y) as [->|_]; [done|].
  destruct (literal s x) as [[[px ax] bx]|] eqn:Ex; [|done]. destruct (literal s y) as [[[py ay] by_]|] eqn:Ey; [|done].
  clear Hi'. destruct (icmp px 1 0 0) eqn:Epx.
  2: { rewrite <- (litImplies_float s x y); [done|left; by exists px, ax, bx|done]. }
  destruct (icmp py 1 0 0) eqn:Epy.
  2: { rewrite <- (litImplies_float s x y); [done|right; by exists py, ay, by_|done]. }
  destruct (literal_int _ _ _ _ _ _ Hw Hm Ex ltac:(by rewrite Epx)) as (wx & ? & ?).
  destruct (literal_int _ _ _ _ _ _ Hw Hm Ey ltac:(by rewrite Epy)) as (wy & ? & ?).
  by eapply (litImplies_holds semantic s ρ x y wx wy).
Qed.
(** a comparison with the inverse predicate is the negation *)
Lemma inverse_T s ρ x y p q l tx ty : wf s → model s ρ → cond s x → cond s y →
  nodes s !! x = Some (mkExpr tx (NCmp p l)) → nodes s !! y = Some (mkExpr ty (NCmp q l)) →
  p = getInversePredicate q → T s ρ x = negb (T s ρ y).
Proof.
  intros Hw Hm Hcx Hcy Hx Hy ->. unfold cond, type_at in Hcx, Hcy. rewrite Hx in Hcx. rewrite Hy in Hcy.
  injection Hcx as ->. injection Hcy as ->. pose proof (mo_typed _ _ _ Hm) as Ht.
  destruct (wf_nodes _ Hw _ _ Hy) as [Hch _]. cbn in Hch. pose proof Hy as Hlt%lookup_lt_Some.
  destruct (ty_cmp _ Ht _ _ _ _ Hy) as (a & b & -> & Hc).
  { eapply Forall_impl; [exact Hch|]. unfold valid. cbn. lia. }
  unfold T. rewrite (den_unfold _ _ _ _ Hw Hx), (den_unfold _ _ _ _ Hw Hy). unfold eval_node; cbn -[truth icmp].
  unfold cmp_typed in Hc. destruct (icmp q 1 0 0) as [r|] eqn:Eq.
  - destruct Hc as (t & w & Hta & _ & Hwd & _). rewrite Hta; cbn -[truth icmp]. rewrite Hwd, inverse_spec.
    destruct (icmp q w (den s ρ a) (den s ρ b)) as [r'|] eqn:Er; [cbn -[truth]; by rewrite !truth_bval|].
    by rewrite (icmp_none _ _ _ _ 1 0 0 Er) in Eq.
  - destruct Hc as [(xa & Hxa & Hi & Hp & _) _]. unfold type_at. rewrite Hxa. cbn -[truth icmp].
    destruct (width (Arena.ty xa)) eqn:E; [by destruct (Arena.ty xa)|]. by apply (mo_float _ _ _ Hm).
Qed.

(** ** The operations on nodes *)
Lemma sound_op {A} (m : M A) st (Q1 Q : A → Arena → Prop) :
  mstep m → (wf (ar st) → typed (ar st) → spec m (ar st) Q1) →
  (∀ r s', wf (ar st) → guards_ok (ar st) → step (ar st) s' → wf s' → typed s' → Q1 r s' → Q r s') →
  sound (lift m) st Q.
Proof.
  intros Hs Hm HQ. apply sound_start; [by apply cstep_lift|]. intros Hi Ht.
  eapply sound_mono; [apply (sound_lift _ _ _ Q1); auto|]. intros r st' E Hi' Ht' HQ1.
  destruct Hi, Hi'. apply HQ; try done. by eapply (cstep_lift m).
Qed.
Lemma step_model s s' ρ : wf s → guards_ok s → step s s' → wf s' → model s' ρ → model s ρ.
Proof. intros ?? [] ? Hm. by eapply model_ext. Qed.
Lemma sound_bool b st : sound (lift (mkBool b)) st (λ e s, means s e (λ _, b)).
Proof.
  eapply sound_op; [auto with mvcc_step|intros; by apply mkBool_spec|].
  cbn. intros e s' _ _ _ _ _ [Hn Hd]. split; [unfold cond, type_at; by rewrite Hn|].
  intros ρ _. unfold T. by rewrite Hd, truth_bval.
Qed.
Definition connective (op : Opcode) (a b : bool) : bool :=
  match op with And => a && b | Or => a || b | _ => xorb a b end.
Lemma sound_mkOp op a b st va vb : op ∈ [And; Or; Xor] → means (ar st) a va → means (ar st) b vb →
  sound (mkOp i1 op [a; b]) st (λ e s, means s e (λ ρ, connective op (va ρ) (vb ρ))).
Proof.
  intros Hop Ha Hb. pose proof (means_valid _ _ _ _ Ha) as Hva. pose proof (means_valid _ _ _ _ Hb) as Hvb.
  eapply sound_op; [auto with mvcc_step|intros Hw _; apply intern_leaf_spec; [done|]|].
  { split; [|done]. cbn. by repeat constructor. }
  cbn. intros e s' Hw Hg Hst Hw' Ht' [Hc Hn]. split; [done|]. intros ρ Hm.
  pose proof (step_model _ _ _ Hw Hg Hst Hw' Hm) as Hm0.
  rewrite (T_bool _ _ _ _ _ _ Hw' Hn), !(T_step (ar st) s') by done.
  destruct Ha as [_ Ha], Hb as [_ Hb]. rewrite Ha, Hb by done. unfold connective.
  repeat apply elem_of_cons in Hop as [->|Hop]; by try apply elem_of_nil in Hop.
Qed.
Lemma sound_type_of {B} e (f : Ty → C B) st (Q : B → Arena → Prop) :
  cond (ar st) e → sound (f i1) st Q → sound (cbind (type_of e) f) st Q.
Proof.
  intros (x & Hx & Et)%fmap_Some Hf. unfold sound, cbind, type_of, lift, ty_of, bind, deref. rewrite Hx. cbn.
  rewrite <- Et. by destruct st.
Qed.
Lemma sound_contra l st : Forall (valid (ar st)) l →
  sound (contra calleeName l) st (λ r s, r = true → holds_in s (λ ρ, forallb (T s ρ) l = false)).
Proof.
  intros Hv. eapply sound_op; [auto with mvcc_step|intros Hw _; by apply contradictory_spec|].
  cbn. intros r s' Hw Hg Hst Hw' Ht' Hr E ρ Hm. pose proof (step_model _ _ _ Hw Hg Hst Hw' Hm) as Hm0.
  apply not_true_iff_false. intros Hall. apply (Hr E ρ (mo_val _ _ _ Hm0)). rewrite forallb_forall in Hall.
  apply Forall_forall. intros x Hx. rewrite Forall_forall in Hv. apply model_fact; [done..|].
  rewrite <- (T_step (ar st) s') by auto. apply Hall. by apply list_elem_of_In.
Qed.
(** a comparison of floats is left as it is *)
Lemma cmp_float s p a b : float_operand s a → float_operand s b →
  cmp cmp_fuel p a b s = intern (mkExpr i1 (NCmp p [a; b])) s.
Proof.
  intros (xa & Hxa & Hia & Hpa & Hna) (xb & Hxb & Hib & Hpb & Hnb).
  assert (∀ e x, nodes s !! e = Some x → isIntegerTy (ty x) = false → isPointerTy (ty x) = false →
    cmp_operand e s = Some (e, s)) as Hop.
  { intros e x Hx H1 H2. unfold cmp_operand, bind, deref. rewrite Hx. by rewrite H1, H2. }
  assert (constInt s a = None) as Ecl.
  { unfold constInt. rewrite Hxa. destruct xa as [ta na]. cbn in *. unfold constInt_node; cbn. rewrite Hia. by destruct na. }
  change cmp_fuel with 3%nat. rewrite cmp_S. unfold cmp_body, bind.
  rewrite (Hop a xa), (Hop b xb) by done. cbn. rewrite Ecl. unfold deref. rewrite Hxa, Hxb.
  destruct xa as [ta na]. cbn in Hna |- *.
  assert (cmp_tail p a b s = intern (mkExpr i1 (NCmp p [a; b])) s) as E.
  { unfold cmp_tail, bind, deref. rewrite Hxa. cbn. by rewrite Hna, andb_false_r. }
  by destruct na.
Qed.
(** the negation of a comparison *)
Lemma sound_not_cmp a t p l r st v : means (ar st) a v →
  nodes (ar st) !! a = Some (mkExpr t (NCmp p (l :: r))) →
  sound (match r with b :: _ => lift (cmp cmp_fuel (getInversePredicate p) l b) | [] => cstuck end) st
    (λ e s, means s e (λ ρ, negb (v ρ))).
Proof.
  intros [Hc Hv] Hn. apply sound_start; [cstepper|]. intros [Hw Hg _] Ht.
  destruct (wf_nodes _ Hw _ _ Hn) as [Hch _]. cbn in Hch. pose proof Hn as Hlt%lookup_lt_Some.
  assert (Forall (valid (ar st)) (l :: r)) as Hval.
  { eapply Forall_impl; [exact Hch|]. unfold valid. cbn. lia. }
  destruct (ty_cmp _ Ht _ _ _ _ Hn Hval) as (a' & b & [= <- ->] & Hcmp).
  assert (literal (ar st) a = Some (p, l, b)) as El by (unfold literal; by rewrite Hn).
  unfold cmp_typed in Hcmp. destruct (icmp p 1 0 0) as [r0|] eqn:Ep.
  - destruct Hcmp as (t' & w & Hta & Htb & Hwd & Hw1 & _ & _ & Hfit).
    eapply sound_op; [auto with mvcc_step|intros _ _; eapply (cmp_value (ar st)); try done; lia|].
    cbn -[icmp]. intros e s' _ _ Hst Hw' Ht' [He Hval']. split; [done|]. intros ρ Hm.
    pose proof (step_model _ _ _ Hw Hg Hst Hw' Hm) as Hm0.
    destruct (mo_range _ _ _ Hm0 _ _ _ _ _ _ El ltac:(by rewrite Ep) Hta Hwd) as [Hra Hrb].
    assert (∃ q, icmp p w (den (ar st) ρ l) (den (ar st) ρ b) = Some q) as [q Hq].
    { destruct (icmp p w _ _) eqn:E; [by eexists|]. by rewrite (icmp_none _ _ _ _ 1 0 0 E) in Ep. }
    unfold T. rewrite (Hval' ρ (negb q) Hra Hrb) by (by rewrite inverse_spec, Hq). rewrite truth_bval.
    rewrite <- (Hv ρ Hm0). unfold T. rewrite (den_unfold _ _ _ _ Hw Hn). unfold eval_node; cbn -[truth icmp].
    rewrite Hta; cbn -[truth icmp]. by rewrite Hwd, Hq, truth_bval.
  - destruct Hcmp as [Hfl Hfb]. intros Hi0. unfold lift. rewrite cmp_float by done. revert Hi0.
    change (sound (lift (intern (mkExpr i1 (NCmp (getInversePredicate p) [l; b])))) st (λ e s, means s e (λ ρ, negb (v ρ)))).
    eapply sound_op; [auto with mvcc_step|intros _ _; apply intern_leaf_spec; [done|]|].
    { split; [|done]. exact Hval. }
    cbn. intros e s' _ _ Hst Hw' Ht' [Hce Hne]. split; [done|]. intros ρ Hm.
    pose proof (step_model _ _ _ Hw Hg Hst Hw' Hm) as Hm0. rewrite <- (Hv ρ Hm0).
    rewrite <- (T_step (ar st) s') by eauto with mvcc_arena.
    eapply inverse_T; [done|done|done| |exact Hne| |done].
    + eapply cond_ext; [by destruct Hst|done].
    + eapply ext_node; [by destruct Hst|exact Hn].
Qed.

(** ** The literals a conjunction keeps
    A literal is dropped because of one that is higher in an order: stronger bounds first, then
    equalities, then inequalities; of equal bounds, the first. So a kept literal implies it. *)
Lemma nonconst_const c ts : nonconst_terms (([], c) :: ts) = nonconst_terms ts.
Proof. done. Qed.
Lemma nonconst_mono a m c ts : nonconst_terms ((a :: m, c) :: ts) = (a :: m, c) :: nonconst_terms ts.
Proof. done. Qed.
Lemma lhs_diff_parts n tx ty cx cy d : lhs_diff n tx ty cx cy = Some d →
  nonconst_terms tx = nonconst_terms ty.
Proof.
  revert tx ty cx cy. induction n as [|n IH]; intros tx ty cx cy.
  { destruct tx, ty; cbn; try done; destruct t; done. }
  destruct tx as [|[[|a m] c] tx]; [| |destruct ty as [|[[|b k] d'] ty]];
    rewrite ?nonconst_const, ?nonconst_mono; cbn [lhs_diff].
  - destruct ty as [|[[|b k] d'] ty]; rewrite ?nonconst_const; try done. apply IH.
  - intros E%IH. by rewrite <- E.
  - done.
  - intros E%IH. rewrite <- E. by rewrite ?nonconst_mono.
  - case_bool_decide as E; [|done]. injection E as -> -> ->. intros E%IH. by rewrite E.
Qed.
Lemma lhs_diff_complete n tx ty cx cy : (length tx + length ty ≤ n)%nat →
  nonconst_terms tx = nonconst_terms ty → is_Some (lhs_diff n tx ty cx cy).
Proof.
  revert tx ty cx cy. induction n as [|n IH]; intros tx ty cx cy Hn E.
  { destruct tx, ty; cbn in *; try lia. by eexists. }
  destruct tx as [|[[|a m] c] tx]; [| |destruct ty as [|[[|b k] d'] ty]];
    rewrite ?nonconst_const, ?nonconst_mono in E; cbn [length lhs_diff] in *.
  - destruct ty as [|[[|b k] d'] ty]; rewrite ?nonconst_const, ?nonconst_mono in E; cbn [length] in *;
      [by eexists|apply IH; cbn; [lia|done]|done].
  - apply IH; [lia|done].
  - done.
  - apply IH; [cbn; lia|]. by rewrite nonconst_mono.
  - injection E as -> -> -> E. rewrite bool_decide_true by done. apply IH; [lia|done].
Qed.
(** a comparison, if it is one, is well typed *)
Definition lit_ok (s : Arena) (l : EP) : Prop := ∀ p a b, literal s l = Some (p, a, b) → cmp_typed s p a b.
Lemma typed_lit s l : wf s → typed s → lit_ok s l.
Proof. intros Hw Ht p a b. by apply literal_cmp_typed. Qed.
Definition lit_class (s : Arena) (l : EP) : Z :=
  match literal s l with Some (ICMP_NE, _, _) => 0 | Some (ICMP_EQ, _, _) => 1 | _ => 2 end.
Definition lit_bound (s : Arena) (l : EP) : Z :=
  match literal s l with
  | Some (p, a, _) =>
      match poly_of s a with
      | Some (_, ts) =>
          if lower p then - coef ts [] + b2z (bool_decide (p = ICMP_SGT))
          else if upper p then coef ts [] + b2z (bool_decide (p = ICMP_SLT)) else 0
      | None => 0
      end
  | None => 0
  end.
Lemma same_node s x y p a b t t' : wf s → cond s x → cond s y →
  nodes s !! x = Some (mkExpr t (NCmp p [a; b])) → nodes s !! y = Some (mkExpr t' (NCmp p [a; b])) → x = y.
Proof.
  intros Hw Hx Hy Ex Ey. unfold cond, type_at in Hx, Hy. rewrite Ex in Hx. rewrite Ey in Hy.
  injection Hx as ->. injection Hy as ->. by eapply (NoDup_lookup _ _ _ _ (wf_nodup _ Hw)).
Qed.
Lemma coef_nonconst ts m : m ≠ [] → coef (nonconst_terms ts) m = coef ts m.
Proof.
  intros Hm. induction ts as [|[k c] ts IH]; [done|]. rewrite filter_cons. unfold coef in *. cbn.
  case_decide as E; cbn; rewrite IH; [done|]. destruct k; [|done]. by rewrite bool_decide_false.
Qed.
(** two equalities of one right side of which one implies the other are the same *)
Lemma eq_implies_eq s x y ax ay b : wf s → lit_ok s x → lit_ok s y → cond s x → cond s y →
  literal s x = Some (ICMP_EQ, ax, b) → literal s y = Some (ICMP_EQ, ay, b) →
  decideLit s y [x] = Some true → x = y.
Proof.
  intros Hw Htx Hty Hx Hy Ex Ey Hd. pose proof (Htx _ _ _ Ex) as Hcx. pose proof (Hty _ _ _ Ey) as Hcy. cbn in Hcx, Hcy.
  destruct Hcx as (? & ? & _ & _ & _ & _ & Hax & _). destruct Hcy as (? & ? & _ & _ & _ & _ & Hay & _).
  unfold decideLit in Hd. rewrite Ey in Hd. cbn [andb] in Hd.
  rewrite (bool_decide_false (ICMP_EQ = ICMP_UGE)), (bool_decide_false (ICMP_EQ = ICMP_ULT)), !andb_false_r in Hd by done.
  destruct (poly_of s ay) as [[tl tsl]|] eqn:Epy; [|done]. destruct (split_const tsl) as [pl cl] eqn:Esl.
  assert (isUnsigned ICMP_EQ = false) as Eu.
  { apply not_true_iff_false. rewrite isUnsigned_spec. set_solver. }
  rewrite Eu in Hd. cbn [andb fold_left] in Hd. unfold fact_step in Hd. rewrite Ex in Hd.
  destruct (poly_of s ax) as [[tf tsf]|] eqn:Epx; [|done].
  destruct (bool_decide (tf = tl)) eqn:Et; [|done]. cbn [negb] in Hd. destruct (split_const tsf) as [pf cf] eqn:Esf.
  destruct (bool_decide (pf = pl)) eqn:Ep; [|done]. cbn [negb] in Hd. rewrite andb_negb_r in Hd.
  rewrite Nat.eqb_refl in Hd. cbn [negb] in Hd.
  rewrite (bool_decide_false (ICMP_EQ = ICMP_ULE)), (bool_decide_false (ICMP_EQ = ICMP_UGT)), !andb_false_r in Hd by done.
  cbn [negb] in Hd. unfold decide_signed in Hd.
  apply bool_decide_eq_true in Et as ->. apply bool_decide_eq_true in Ep as ->.
  apply poly_of_is_poly in Epx, Epy. destruct (poly_at _ _ _ _ Hw Epx) as [Hnx _]. destruct (poly_at _ _ _ _ Hw Epy) as [Hny _].
  assert (∀ a ts p c, is_poly s a tl ts → normal ts → split_const ts = (p, c) → const_part s a = c ∧ nonconst_terms ts = p) as Hc.
  { intros a ts p c Ha Hn Es. destruct (split_const_spec _ _ _ Es Hn) as [-> _]. unfold const_part. rewrite Ha.
    split; [done|]. unfold split_const in Es. by injection Es as <- _. }
  destruct (Hc _ _ _ _ Epx Hnx Esf) as [Hcf Hpf]. destruct (Hc _ _ _ _ Epy Hny Esl) as [Hcl Hpl].
  rewrite Hcf in Hax. rewrite Hcl in Hay. unfold no_lo, no_hi, int128_min, int128_max in Hd.
  change (Z.quot (- 2 ^ 127) 4) with (- 2 ^ 125) in Hd. change (Z.quot (2 ^ 127 - 1) 4) with (2 ^ 125 - 1) in Hd.
  rewrite Z.max_r, Z.min_r, Z.eqb_refl in Hd by lia. injection Hd as Hd%Z.eqb_eq.
  assert (ax = ay) as ->.
  { eapply (NoDup_lookup _ _ _ _ (wf_nodup _ Hw)); [exact Epx|]. rewrite Epy. do 3 f_equal.
    apply normal_ext; [done..|]. intros m.
    assert (coef tsf [] = coef tsl []) as E0.
    { unfold const_part in Hcf, Hcl. rewrite Epx in Hcf. rewrite Epy in Hcl. lia. }
    destruct (decide (m = [])) as [->|Hm]; [done|].
    by rewrite <- (coef_nonconst tsf), <- (coef_nonconst tsl), Hpf, Hpl by done. }
  apply literal_node in Ex as [? Ex], Ey as [? Ey]. by eapply same_node.
Qed.

Lemma decideLit_facts_NE s x y bx ax : literal s x = Some (ICMP_NE, ax, bx) →
  ∀ py ay by_, literal s y = Some (py, ay, by_) → py = ICMP_NE ∨ py = ICMP_EQ → decideLit s y [x] = None.
Proof.
  intros Ex py ay by_ Ey Hp. unfold decideLit. rewrite Ey.
  rewrite (bool_decide_false (py = ICMP_UGE)), (bool_decide_false (py = ICMP_ULT)), !andb_false_r
    by (by destruct Hp as [-> | ->]).
  destruct (poly_of s ay) as [[tl tsl]|]; [|done]. destruct (split_const tsl) as [pl cl].
  destruct (_ && _); [done|]. cbn [fold_left].
  assert (∀ rhs rz acc, fact_step s tl pl rhs rz acc x = acc) as ->; [|done].
  intros rhs rz [[lo hi] any]. unfold fact_step. rewrite Ex. destruct (poly_of s ax) as [[tf tsf]|]; [|done].
  destruct (negb _); [done|]. destruct (split_const tsf) as [pf cf].
  destruct (negb _); [done|]. destruct (rz && _).
  - destruct (constInt s bx); [|done]. by rewrite bool_decide_false by (intros [?|?]; done).
  - destruct (match rhs with Some r => _ | None => _ end); [done|].
    by rewrite (bool_decide_false (ICMP_NE = ICMP_ULE)), (bool_decide_false (ICMP_NE = ICMP_UGT)), !andb_false_r by done.
Qed.
(** [x] implies another literal [y]: it is higher, or they are bounds and it is as strong *)
Lemma litImplies_order s x y : wf s → lit_ok s x → lit_ok s y → cond s x → cond s y → x ≠ y → litImplies semantic s x y = true →
  lit_class s y < lit_class s x ∨
  lit_class s y = lit_class s x ∧ lit_bound s y <= lit_bound s x ∧
    (lit_bound s y = lit_bound s x → litImplies semantic s y x = true).
Proof.
  intros Hw Htx Hty Hx Hy Hne. unfold litImplies. rewrite (proj2 (Nat.eqb_neq x y)), (proj2 (Nat.eqb_neq y x)) by congruence.
  unfold lit_class, lit_bound.
  destruct (literal s x) as [[[px ax] bx]|] eqn:Ex; [|done]. destruct (literal s y) as [[[py ay] by_]|] eqn:Ey; [|done].
  rewrite (Nat.eqb_sym by_ bx). destruct (Nat.eqb_spec bx by_) as [<-|]; [|done]. cbn [negb].
  destruct ((lower px && lower py) || (upper px && upper py)) eqn:Ek; cbn [negb].
  - rewrite (andb_comm (lower py)), (andb_comm (upper py)), Ek. cbn [negb].
    destruct (poly_of s ax) as [[tyx tx]|] eqn:Epx; [|done].
    destruct (poly_of s ay) as [[tyy ty]|] eqn:Epy; [|done].
    rewrite (bool_decide_ext (tyy = tyx) (tyx = tyy)) by done.
    destruct (bool_decide (tyx = tyy)); [|done]. cbn [negb].
    destruct (lhs_diff _ tx ty 0 0) as [[cx cy]|] eqn:Ed; [|done].
    apply poly_of_is_poly in Epx, Epy.
    destruct (poly_at _ _ _ _ Hw Epx) as [Hnx _]. destruct (poly_at _ _ _ _ Hw Epy) as [Hny _].
    destruct (lhs_diff_complete (length ty + length tx) ty tx 0 0) as [[cy' cx'] Ed']; [lia|by erewrite <- lhs_diff_parts|].
    rewrite Ed'.
    destruct (lhs_diff_sound (λ _, 0) _ _ _ _ _ _ _ Ed Hnx Hny) as (-> & -> & _).
    destruct (lhs_diff_sound (λ _, 0) _ _ _ _ _ _ _ Ed' Hny Hnx) as (-> & -> & _).
    rewrite !if_zero. intros Hi. right.
    assert (∀ q, lower q = true → upper q = false) as Hlu.
    { intros []; cbn; try done; by intros [?|?]%bool_decide_eq_true. }
    assert (∀ q : Pred, lower q = true ∨ upper q = true → match q with ICMP_NE => 0 | ICMP_EQ => 1 | _ => 2 end = 2) as Hcl.
    { intros []; cbn; try done; intros [E|E]; apply bool_decide_eq_true in E; by destruct E. }
    apply orb_true_iff in Ek as [[Hl1 Hl2]%andb_true_iff|[Hl1 Hl2]%andb_true_iff].
    + rewrite Hl1, Hl2 in *. rewrite !Hcl by auto. rewrite Z.leb_le in *. split_and!; [done|lia|]. intros ?. apply Z.leb_le. lia.
    + assert (lower px = false) as E1 by (apply not_true_iff_false; intros E%Hlu; congruence).
      assert (lower py = false) as E2 by (apply not_true_iff_false; intros E%Hlu; congruence).
      rewrite E1, E2, Hl1, Hl2 in *. rewrite !Hcl by auto. rewrite Z.leb_le in *. split_and!; [done|lia|]. intros ?. apply Z.leb_le. lia.
  - intros [[_ Hp]%andb_true_iff Hd%bool_decide_eq_true]%andb_true_iff. apply bool_decide_eq_true in Hp. left.
    destruct (decide (px = ICMP_NE)) as [->|Hpx].
    { by rewrite (decideLit_facts_NE s x y _ _ Ex _ _ _ Ey Hp) in Hd. }
    destruct (decide (px = ICMP_EQ)) as [->|Hpx'].
    + destruct Hp as [-> | ->]; [lia|]. destruct Hne. by eapply eq_implies_eq.
    + assert (match px with ICMP_NE => 0 | ICMP_EQ => 1 | _ => 2 end = 2) as -> by (by destruct px).
      destruct Hp as [-> | ->]; lia.
Qed.
(** in a finite list, what holds of [x] when it holds of all that are above it holds of every element *)
Lemma filter_shrinks {A} (p q : A → bool) l y : (∀ x, p x = true → q x = true) → y ∈ l → p y = false → q y = true →
  (length (List.filter p l) < length (List.filter q l))%nat.
Proof.
  intros Hpq Hy Hp Hq.
  assert (∀ l, (length (List.filter p l) ≤ length (List.filter q l))%nat) as Hle.
  { clear -Hpq. induction l as [|x l IH]; cbn; [lia|]. destruct (p x) eqn:E; [rewrite (Hpq x E); cbn; lia|].
    destruct (q x); cbn; lia. }
  induction Hy as [? l0|? z l0 Hy IH]; cbn.
  - rewrite Hp, Hq. apply Nat.lt_succ_r, Hle.
  - specialize (IH Hp Hq). destruct (p z) eqn:E; [rewrite (Hpq z E); cbn; lia|]. destruct (q z); cbn; lia.
Qed.
Lemma above_ind {A} (lt : A → A → bool) (l : list A) (P : A → Prop) :
  (∀ x, lt x x = false) → (∀ x y z, lt x y = true → lt y z = true → lt x z = true) →
  (∀ x, x ∈ l → (∀ y, y ∈ l → lt x y = true → P y) → P x) → ∀ x, x ∈ l → P x.
Proof.
  intros Hirr Htr Hstep x. remember (length (List.filter (lt x) l)) as n eqn:En. revert x En.
  induction (lt_wf n) as [n _ IH]. intros x -> Hx. apply Hstep; [done|]. intros y Hy Hlt.
  eapply IH; [|done..]. apply (filter_shrinks _ _ _ y); [|done..]. intros z. by apply Htr.
Qed.
Section kept.
Context (s : Arena) (ls : list EP) (Hw : wf s) (Ht : Forall (lit_ok s) ls) (Hc : Forall (cond s) ls).
Definition below (i j : nat) : bool :=
  match ls !! i, ls !! j with
  | Some x, Some y =>
      (lit_class s x <? lit_class s y) ||
      (lit_class s x =? lit_class s y) && ((lit_bound s x <? lit_bound s y) ||
        (lit_bound s x =? lit_bound s y) && (j <? i)%nat)
  | _, _ => false
  end.
Lemma below_spec i j x y : ls !! i = Some x → ls !! j = Some y → below i j = true ↔
  lit_class s x < lit_class s y ∨ lit_class s x = lit_class s y ∧
    (lit_bound s x < lit_bound s y ∨ lit_bound s x = lit_bound s y ∧ (j < i)%nat).
Proof.
  intros Ei Ej. unfold below. rewrite Ei, Ej.
  by rewrite !orb_true_iff, !andb_true_iff, !orb_true_iff, !andb_true_iff, !Z.ltb_lt, !Z.eqb_eq, Nat.ltb_lt.
Qed.
Lemma drops_below i j : drops semantic s ls i j = true → below i j = true.
Proof.
  unfold drops. destruct (ls !! i) as [x|] eqn:Ei; [|done]. destruct (ls !! j) as [y|] eqn:Ej; [|done].
  intros [[Hij Hyx]%andb_true_iff Hxy]%andb_true_iff. apply negb_true_iff in Hij, Hxy. apply Nat.eqb_neq in Hij.
  apply (below_spec _ _ _ _ Ei Ej). rewrite Forall_lookup in Hc, Ht.
  apply andb_false_iff in Hxy. rewrite Nat.ltb_ge in Hxy.
  destruct (decide (x = y)) as [->|Hne].
  { destruct Hxy as [Hxy|Hxy]; [|right; split; [done|]; right; split; [done|lia]].
    unfold litImplies in Hxy. by rewrite Nat.eqb_refl in Hxy. }
  destruct (litImplies_order s y x Hw) as [?|(? & ? & Hsym)]; [by eapply Ht|by eapply Ht|by eapply Hc|by eapply Hc|congruence|done|by left|]. right. split; [done|].
  destruct (decide (lit_bound s x = lit_bound s y)) as [E|]; [|left; lia]. right. split; [done|].
  destruct Hxy as [Hxy|Hxy]; [|lia]. by rewrite Hsym in Hxy.
Qed.
Lemma kept_elem i x : i ∈ seq 0 (length ls) → existsb (drops semantic s ls i) (seq 0 (length ls)) = false →
  ls !! i = Some x → x ∈ kept semantic s ls.
Proof. intros Hi Hd Hx. unfold kept. apply list_elem_of_omap. exists i. by rewrite Hd. Qed.
Lemma kept_sub x : x ∈ kept semantic s ls → x ∈ ls.
Proof.
  unfold kept. intros (i & _ & Hi)%list_elem_of_omap. destruct (existsb _ _); [done|]. by eapply list_elem_of_lookup_2.
Qed.
(** every literal is implied by one that is kept *)
Lemma kept_covers x : x ∈ ls → ∃ k, k ∈ kept semantic s ls ∧ ∀ ρ, model s ρ → T s ρ k = true → T s ρ x = true.
Proof.
  intros [i Hi]%list_elem_of_lookup. revert x Hi.
  assert (∀ i, i ∈ seq 0 (length ls) →
    ∀ x, ls !! i = Some x → ∃ k, k ∈ kept semantic s ls ∧ ∀ ρ, model s ρ → T s ρ k = true → T s ρ x = true) as Hall.
  { refine (above_ind below (seq 0 (length ls)) _ _ _ _).
    - intros j. unfold below. destruct (ls !! j); [|done].
      by rewrite !Z.ltb_irrefl, !Z.eqb_refl, Nat.ltb_irrefl.
    - intros a b c. destruct (ls !! a) as [xa|] eqn:Ea; [|unfold below; by rewrite Ea].
      destruct (ls !! b) as [xb|] eqn:Eb; [|unfold below; by rewrite Ea, Eb].
      destruct (ls !! c) as [xc|] eqn:Ec; [|unfold below; by rewrite Eb, Ec].
      rewrite (below_spec _ _ _ _ Ea Eb), (below_spec _ _ _ _ Eb Ec), (below_spec _ _ _ _ Ea Ec). lia.
    - intros j Hj IH x Hx. destruct (existsb (drops semantic s ls j) (seq 0 (length ls))) eqn:Ed.
      + apply existsb_exists in Ed as (k & Hk%list_elem_of_In & Hd). pose proof Hd as Hd'.
        unfold drops in Hd'. rewrite Hx in Hd'. destruct (ls !! k) as [y|] eqn:Ey; [|done].
        apply andb_true_iff in Hd' as [[_ Hyx]%andb_true_iff _].
        destruct (IH k Hk (drops_below _ _ Hd) y Ey) as (z & Hz & Hzy). exists z. split; [done|].
        intros ρ Hm Hz'. eapply lit_implies_T; eauto.
      + exists x. split; [by eapply kept_elem|done]. }
  intros x Hx. apply (Hall i); [|done]. apply elem_of_seq. apply lookup_lt_Some in Hx. lia.
Qed.
Lemma kept_T ρ : model s ρ → forallb (T s ρ) (kept semantic s ls) = forallb (T s ρ) ls.
Proof.
  intros Hm. apply eq_true_iff_eq. rewrite !forallb_forall. split; intros Hall x Hx%list_elem_of_In.
  - destruct (kept_covers x Hx) as (k & Hk & Hkx). apply (Hkx ρ Hm), Hall. by apply list_elem_of_In.
  - apply Hall, list_elem_of_In. by apply kept_sub.
Qed.
End kept.
End sem.
