(* ===== verification/ArenaCondClauses.v ===== *)
(** The clauses of [Arena::orb] (ArenaCond.v): the set operations on sorted lists of literals, the
    meaning of a disjunction of clauses, and the rules of resolution on two of its clauses. *)
From stdpp Require Import sorting.
From S2P Require Import Prelude Expr Arena ArenaSem ArenaCond.
Open Scope Z_scope.

(** ** Lists of identities *)
Lemma sort_ids_perm l : sort_ids l ≡ₚ l.
Proof. apply merge_sort_Permutation. Qed.
Lemma unique_ids_elem l x : x ∈ unique l ↔ x ∈ l.
Proof.
  induction l as [|y l IH]; [done|]. cbn [unique]. destruct l as [|z l]; [done|].
  destruct (Nat.eqb_spec y z) as [->|].
  - rewrite IH, !elem_of_cons. tauto.
  - rewrite elem_of_cons, IH, (elem_of_cons (z :: l)). tauto.
Qed.
Lemma set_difference_nil a : set_difference a [] = a.
Proof. by destruct a. Qed.
Lemma set_intersection_nil a : set_intersection a [] = [].
Proof. by destruct a. Qed.
Lemma set_difference_cons x a y b : set_difference (x :: a) (y :: b) =
  if (x <? y)%nat then x :: set_difference a (y :: b)
  else if (y <? x)%nat then set_difference (x :: a) b else set_difference a b.
Proof. done. Qed.
Lemma set_intersection_cons x a y b : set_intersection (x :: a) (y :: b) =
  if (x <? y)%nat then set_intersection a (y :: b)
  else if (y <? x)%nat then set_intersection (x :: a) b else x :: set_intersection a b.
Proof. done. Qed.
(** a list is its difference with another and their intersection, in any order *)
Lemma difference_intersection a b : a ≡ₚ set_difference a b ++ set_intersection a b.
Proof.
  revert b. induction a as [|x a IHa]; intros b; [done|]. induction b as [|y b IHb].
  { rewrite set_difference_nil, set_intersection_nil. by rewrite app_nil_r. }
  rewrite set_difference_cons, set_intersection_cons.
  destruct (x <? y)%nat; [cbn; by rewrite <- IHa|]. destruct (y <? x)%nat; [done|].
  rewrite <- Permutation_middle. by rewrite <- IHa.
Qed.
Lemma set_intersection_comm a b : set_intersection a b = set_intersection b a.
Proof.
  revert b. induction a as [|x a IHa]; intros b; [by rewrite set_intersection_nil|].
  induction b as [|y b IHb]; [by rewrite set_intersection_nil|].
  rewrite (set_intersection_cons x), (set_intersection_cons y).
  destruct (Nat.ltb_spec x y), (Nat.ltb_spec y x); try lia; [apply IHa|apply IHb|].
  assert (x = y) as -> by lia. by rewrite IHa.
Qed.
Lemma difference_intersection_r a b : b ≡ₚ set_difference b a ++ set_intersection a b.
Proof. rewrite (set_intersection_comm a b). apply difference_intersection. Qed.

(** ** Clauses under a valuation of the literals *)
Section clauses.
Context (t : EP → bool).
Abbreviation conj cl := (forallb t cl).
Definition dnf (cls : list Clause) : bool := existsb (forallb t) cls.
#[export] Instance conj_perm : Proper (Permutation ==> eq) (forallb t).
Proof.
  intros l l' Hp. induction Hp; cbn; [done|by f_equal| |congruence]. destruct (t x), (t y); done.
Qed.
#[export] Instance dnf_perm : Proper (Permutation ==> eq) dnf.
Proof.
  intros l l' Hp. unfold dnf. induction Hp; cbn; [done|by f_equal| |congruence].
  destruct (conj x), (conj y); done.
Qed.
Lemma conj_same l l' : (∀ x, x ∈ l ↔ x ∈ l') → conj l = conj l'.
Proof.
  intros Hl. apply eq_true_iff_eq. rewrite !forallb_forall. setoid_rewrite <- list_elem_of_In.
  split; intros Hall x Hx; apply Hall, Hl, Hx.
Qed.
Lemma conj_delete k cl l : cl !! k = Some l → conj cl = t l && conj (delete k cl).
Proof. intros Hl. exact (conj_perm _ _ (delete_Permutation _ _ _ Hl)). Qed.
Lemma dnf_delete k cls cl : cls !! k = Some cl → dnf cls = conj cl || dnf (delete k cls).
Proof. intros Hl. exact (dnf_perm _ _ (delete_Permutation _ _ _ Hl)). Qed.
Lemma delete_insert k (cls : list Clause) c : (k < length cls)%nat → <[k := c]> cls ≡ₚ c :: delete k cls.
Proof.
  intros Hk. rewrite (delete_Permutation (<[k := c]> cls) k c) by (by rewrite list_lookup_insert_eq).
  f_equiv. revert k Hk. induction cls as [|x cls IH]; intros [|k] Hk; cbn in *; [lia|lia|done|].
  f_equiv. apply IH. lia.
Qed.
Lemma dnf_insert k cls c : (k < length cls)%nat → dnf (<[k := c]> cls) = conj c || dnf (delete k cls).
Proof. intros Hk. exact (dnf_perm _ _ (delete_insert k cls c Hk)). Qed.

(** where a clause [b] without its literal [l] holds and [l] does not, the clause whose only own literal
    covers [l] holds *)
Lemma shorten_other a b x k l : set_difference a b = [x] → b !! k = Some l → t x || t l = true →
  (l ∈ set_difference b a ∨ (conj (delete k b) = true → t l = true)) →
  conj (delete k b) = true → t l = false → conj a = true.
Proof.
  intros Ex Hk Hc Hown Ed El. rewrite El, orb_false_r in Hc.
  destruct Hown as [Hown|Hr]; [|by rewrite (Hr Ed) in El].
  rewrite (conj_perm _ _ (difference_intersection a b)), Ex. cbn. rewrite Hc. cbn.
  apply list_elem_of_split in Hown as (l1 & l2 & Edj). pose proof (difference_intersection_r a b) as Hp.
  rewrite Edj, <- app_assoc in Hp. cbn in Hp. rewrite <- Permutation_middle in Hp.
  pose proof (Permutation_trans (symmetry (delete_Permutation _ _ _ Hk)) Hp) as Hp'.
  apply Permutation_cons_inv in Hp'. rewrite (conj_perm _ _ Hp'), !forallb_app in Ed.
  by apply andb_true_iff in Ed as [_ [_ ?]%andb_true_iff].
Qed.
Section pair.
Context (cls : list Clause) (i j : nat) (ci cj : Clause).
Context (Hij : (i < j)%nat) (Hi : cls !! i = Some ci) (Hj : cls !! j = Some cj).
Lemma lookup_delete_before : delete j cls !! i = Some ci.
Proof using All. by rewrite list_lookup_delete_lt. Qed.
Lemma lookup_delete_after : delete i cls !! (pred j) = Some cj.
Proof using All. rewrite list_lookup_delete_ge by lia. by replace (S (pred j)) with j by lia. Qed.
(** a clause that another subsumes can go *)
Lemma dnf_drop_right : (conj cj = true → conj ci = true) → dnf (delete j cls) = dnf cls.
Proof using All.
  intros Hsub. rewrite (dnf_delete j cls cj) by done. rewrite (dnf_delete i (delete j cls) ci) by apply lookup_delete_before.
  destruct (conj cj); [by rewrite Hsub|done].
Qed.
Lemma dnf_drop_left : (conj ci = true → conj cj = true) → dnf (delete i cls) = dnf cls.
Proof using All.
  intros Hsub. rewrite (dnf_delete i cls ci) by done.
  rewrite (dnf_delete (pred j) (delete i cls) cj) by apply lookup_delete_after.
  destruct (conj ci); [by rewrite Hsub|done].
Qed.
Lemma conj_left : conj ci = conj (set_difference ci cj) && conj (set_intersection ci cj).
Proof using Type. rewrite <- forallb_app. apply conj_perm, difference_intersection. Qed.
Lemma conj_right : conj cj = conj (set_difference cj ci) && conj (set_intersection ci cj).
Proof using Type. rewrite <- forallb_app. apply conj_perm, difference_intersection_r. Qed.
(** two clauses that differ in literals one of which holds are what they share *)
Lemma dnf_merge x y : set_difference ci cj = [x] → set_difference cj ci = [y] → t x || t y = true →
  dnf (<[i := set_intersection ci cj]> (delete j cls)) = dnf cls.
Proof using All.
  intros Ex Ey Hc. pose proof lookup_delete_before as Hb. pose proof Hb as Hlt%lookup_lt_Some.
  rewrite dnf_insert by done. rewrite (dnf_delete j cls cj), (dnf_delete i (delete j cls) ci) by done.
  rewrite conj_left, conj_right, Ex, Ey. cbn. rewrite !andb_true_r.
  destruct (t x), (t y), (conj (set_intersection ci cj)), (dnf (delete i (delete j cls))); try done.
Qed.
(** a literal of one clause that the other one's only own literal covers can go, if it is that clause's own
    or follows from its other literals *)
Lemma dnf_shorten_right x k l : set_difference ci cj = [x] → cj !! k = Some l → t x || t l = true →
  (l ∈ set_difference cj ci ∨ (conj (delete k cj) = true → t l = true)) →
  dnf (<[j := delete k cj]> cls) = dnf cls.
Proof using All.
  intros Ex Hk Hc Hown. pose proof Hj as Hlt%lookup_lt_Some. rewrite dnf_insert by done.
  rewrite (dnf_delete j cls cj), (dnf_delete i (delete j cls) ci) by (done || apply lookup_delete_before).
  pose proof (shorten_other ci cj x k l Ex Hk Hc Hown) as Hs. rewrite (conj_delete k cj l Hk).
  destruct (conj (delete k cj)); [|by rewrite andb_false_r]. destruct (t l); [done|]. by rewrite Hs.
Qed.
Lemma dnf_shorten_left x k l : set_difference cj ci = [x] → ci !! k = Some l → t x || t l = true →
  (l ∈ set_difference ci cj ∨ (conj (delete k ci) = true → t l = true)) →
  dnf (<[i := delete k ci]> cls) = dnf cls.
Proof using All.
  intros Ex Hk Hc Hown. pose proof Hi as Hlt%lookup_lt_Some. rewrite dnf_insert by done.
  rewrite (dnf_delete i cls ci), (dnf_delete (pred j) (delete i cls) cj) by (done || apply lookup_delete_after).
  pose proof (shorten_other cj ci x k l Ex Hk Hc Hown) as Hs. rewrite (conj_delete k ci l Hk).
  destruct (conj (delete k ci)); [|by rewrite andb_false_r]. destruct (t l); [done|]. by rewrite Hs.
Qed.
End pair.
End clauses.
