(* ===== verification/ArenaCondSound.v ===== *)
(** Soundness of the path conditions (ArenaCond.v), function by function: each body is right when the
    recursive calls are, so [ops n] is right for every [n].

    The specifications are stated with the truth value an operand has in a model, a function of the
    valuation, so they do not mention the store, which grows. *)
From stdpp Require Import sorting.
From S2P Require Import Prelude Expr Arena ArenaSem ArenaCmp ArenaLits ArenaContra.
From S2P Require Import ArenaCond ArenaCondSem ArenaCondLits ArenaCondClauses.
Open Scope Z_scope.

Section sem.
Context `{CmpInst} (calleeName : nat → string) (semantic : bool).
Local Abbreviation model := (model calleeName).
Local Abbreviation means := (means calleeName).
Local Abbreviation holds_in := (holds_in calleeName).
Local Abbreviation inv := (inv calleeName).
Local Abbreviation sound := (sound calleeName).
Local Abbreviation value := (Env → bool).

(** ** The meaning of clauses *)
Definition clause_means (s : Arena) (cl : Clause) (f : value) : Prop :=
  Forall (cond s) cl ∧ ∀ ρ, model s ρ → forallb (T s ρ) cl = f ρ.
Definition clauses_mean (s : Arena) (cls : list Clause) (f : value) : Prop :=
  Forall (Forall (cond s)) cls ∧ ∀ ρ, model s ρ → dnf (T s ρ) cls = f ρ.
Definition leaves_mean (s : Arena) (ds : list EP) (f : value) : Prop :=
  Forall (cond s) ds ∧ ∀ ρ, model s ρ → existsb (T s ρ) ds = f ρ.
Lemma means_T_eq s e v ρ : means s e v → model s ρ → T s ρ e = v ρ.
Proof. intros [_ Hv]. apply Hv. Qed.
Lemma means_cond s e v : means s e v → cond s e.
Proof. by intros [? _]. Qed.
Lemma clause_iff s cl f g : (∀ ρ, model s ρ → f ρ = g ρ) → clause_means s cl f → clause_means s cl g.
Proof. intros Hfg [Hc Hf]. split; [done|]. intros ρ Hm. by rewrite <- Hfg, Hf. Qed.
Lemma clauses_iff s cls f g : (∀ ρ, model s ρ → f ρ = g ρ) → clauses_mean s cls f → clauses_mean s cls g.
Proof. intros Hfg [Hc Hf]. split; [done|]. intros ρ Hm. by rewrite <- Hfg, Hf. Qed.
Lemma clause_own s cl : Forall (cond s) cl → clause_means s cl (λ ρ, forallb (T s ρ) cl).
Proof. by split. Qed.
Lemma clauses_own s cls : Forall (Forall (cond s)) cls → clauses_mean s cls (λ ρ, dnf (T s ρ) cls).
Proof. by split. Qed.
Section steps.
Context (st st' : CSt) (Hi : inv st) (Hi' : inv st') (Hext : ext (ar st) (ar st')).
Lemma means_in e v : means (ar st) e v → means (ar st') e v.
Proof. destruct Hi, Hi'. by apply (means_ext _ (ar st)). Qed.
Lemma holds_in_in P : holds_in (ar st) P → holds_in (ar st') P.
Proof. destruct Hi, Hi'. by apply (holds_in_ext _ (ar st)). Qed.
Lemma cond_in e : cond (ar st) e → cond (ar st') e.
Proof. by apply cond_ext. Qed.
Lemma conds_in l : Forall (cond (ar st)) l → Forall (cond (ar st')) l.
Proof. intros Hc. eapply Forall_impl; [exact Hc|]. apply cond_in. Qed.
Lemma clause_in cl f : clause_means (ar st) cl f → clause_means (ar st') cl f.
Proof.
  intros [Hc Hf]. split; [by apply conds_in|]. intros ρ Hm. destruct Hi, Hi'.
  rewrite <- Hf by (by eapply model_ext). clear Hf. induction Hc as [|x l Hx Hc IH]; [done|]. cbn.
  rewrite IH. f_equal. apply T_ext; eauto with mvcc_arena.
Qed.
Lemma clauses_in cls f : clauses_mean (ar st) cls f → clauses_mean (ar st') cls f.
Proof.
  intros [Hc Hf]. split; [eapply Forall_impl; [exact Hc|]; apply conds_in|]. intros ρ Hm.
  assert (model (ar st) ρ) as Hm0 by (destruct Hi, Hi'; by eapply model_ext).
  rewrite <- Hf by done. clear Hf. induction Hc as [|cl l Hcl Hc IH]; [done|]. cbn. unfold dnf in IH. rewrite IH. f_equal.
  destruct (clause_in cl _ (clause_own _ _ Hcl)) as [_ E]. by apply E.
Qed.
Lemma leaves_in ds f : leaves_mean (ar st) ds f → leaves_mean (ar st') ds f.
Proof.
  intros [Hc Hf]. split; [by apply conds_in|]. intros ρ Hm. destruct Hi, Hi'.
  rewrite <- Hf by (by eapply model_ext). clear Hf. induction Hc as [|x l Hx Hc IH]; [done|]. cbn.
  rewrite IH. f_equal. apply T_ext; eauto with mvcc_arena.
Qed.
End steps.

(** one call after another *)
Lemma sound_seq {A B} (m : C A) (f : A → C B) st (Q1 : A → Arena → Prop) (Q2 : B → Arena → Prop) :
  cstep m → (∀ x, cstep (f x)) → sound m st Q1 →
  (∀ x st1, step (ar st) (ar st1) → inv st → inv st1 → typed (ar st1) → Q1 x (ar st1) → sound (f x) st1 Q2) →
  sound (cbind m f) st Q2.
Proof.
  intros Hs Hsf Hm Hf Hi. revert Hi. apply sound_start; [by apply cstep_bind|]. intros Hi Ht.
  eapply sound_bind; [done|exact Hm|]. intros x st1 E Hi1 Ht1 HQ. by apply Hf; [eapply Hs|..].
Qed.
Lemma sound_weaken {A} (m : C A) st (Q1 Q2 : A → Arena → Prop) :
  sound m st Q1 → (∀ r s, wf s → typed s → Q1 r s → Q2 r s) → sound m st Q2.
Proof. intros Hm HQ. eapply sound_mono; [exact Hm|]. intros r st' _ [] Ht. by apply HQ. Qed.
Lemma sound_last {A} (m : C A) st (Q1 Q2 : A → Arena → Prop) : cstep m → sound m st Q1 →
  (∀ r st1, step (ar st) (ar st1) → inv st → inv st1 → typed (ar st1) → Q1 r (ar st1) → Q2 r (ar st1)) → sound m st Q2.
Proof.
  intros Hs Hm HQ Hi. revert Hi. apply sound_start; [done|]. intros Hi Ht.
  eapply sound_mono; [exact Hm|]. intros r st' E Hi' Ht'. apply HQ; try done. by eapply Hs.
Qed.
(** a result whose meaning is, in every model, the one asked for *)
Lemma sound_means (m : C EP) st v v' : cstep m → sound m st (λ r s, means s r v) →
  holds_in (ar st) (λ ρ, v ρ = v' ρ) → sound m st (λ r s, means s r v').
Proof.
  intros Hs Hm Hv. eapply sound_last; [done|exact Hm|]. intros r st1 Hst Hi Hi1 _. apply means_iff.
  apply (holds_in_in st st1 Hi Hi1 (st_ext _ _ Hst)), Hv.
Qed.
Lemma sound_answer (m : C bool) st (P P' : Env → Prop) : cstep m → sound m st (λ r s, r = true → holds_in s P) →
  holds_in (ar st) (λ ρ, P ρ → P' ρ) → sound m st (λ r s, r = true → holds_in s P').
Proof.
  intros Hs Hm Hv. eapply sound_last; [done|exact Hm|]. intros r st1 Hst Hi Hi1 _ HP E ρ Hρ.
  apply (holds_in_in st st1 Hi Hi1 (st_ext _ _ Hst) _ Hv ρ Hρ), HP; done.
Qed.
(** ** What is promised of the recursive calls *)
Record ops_ok (R : Ops) : Prop := {
  ok_steps : ops_step R;
  ok_notb a v st : means (ar st) a v → sound (notb R a) st (λ r s, means s r (λ ρ, negb (v ρ)));
  ok_andb a b va vb st : means (ar st) a va → means (ar st) b vb →
    sound (andb_ R a b) st (λ r s, means s r (λ ρ, va ρ && vb ρ));
  ok_orb a b va vb st : means (ar st) a va → means (ar st) b vb →
    sound (orb_ R a b) st (λ r s, means s r (λ ρ, va ρ || vb ρ));
  ok_implies a b va vb st : means (ar st) a va → means (ar st) b vb →
    sound (implies R a b) st (λ r s, r = true → holds_in s (λ ρ, va ρ = true → vb ρ = true));
  ok_disjoint a b va vb st : means (ar st) a va → means (ar st) b vb →
    sound (disjoint R a b) st (λ r s, r = true → holds_in s (λ ρ, va ρ && vb ρ = false));
  ok_flat c canon cls v f st : means (ar st) c v → clauses_mean (ar st) cls f →
    sound (flat R c canon cls) st (λ r s, clauses_mean s r (λ ρ, f ρ || v ρ));
  ok_given_ c x vc vx st : means (ar st) c vc → means (ar st) x vx →
    sound (given R c x) st (λ r s, ∃ v, means s r v ∧ holds_in s (λ ρ, vx ρ = true → v ρ = vc ρ)) }.
(** the facts about the store before a call, after it *)
Ltac advance H :=
  cbn beta in *;
  match type of H with
  | step (ar ?st) (ar ?st') =>
      match goal with
      | Hi : inv st, Hi' : inv st' |- _ =>
          repeat match goal with
          | X : means (ar st) _ _ |- _ => apply (means_in st st' Hi Hi' (st_ext _ _ H)) in X
          | X : holds_in (ar st) _ |- _ => apply (holds_in_in st st' Hi Hi' (st_ext _ _ H)) in X
          | X : clause_means (ar st) _ _ |- _ => apply (clause_in st st' Hi Hi' (st_ext _ _ H)) in X
          | X : clauses_mean (ar st) _ _ |- _ => apply (clauses_in st st' Hi Hi' (st_ext _ _ H)) in X
          | X : leaves_mean (ar st) _ _ |- _ => apply (leaves_in st st' Hi Hi' (st_ext _ _ H)) in X
          end
      end
  end.

Section body.
Context (rec : Ops) (HR : ops_ok rec).
Definition rec_steps : ops_step rec := ok_steps _ HR.
#[local] Hint Resolve rec_steps cstep_truec cstep_falsec cstep_contra cstep_and_all cstep_and_chain cstep_shallow
  cstep_is_shallow cstep_expand_shallow cstep_flat_clause cstep_covering cstep_redundant cstep_droppable
  cstep_drop_one cstep_pair_step cstep_first_change cstep_resolve cstep_rebuild cstep_expandGuard
  cstep_expanding cstep_implies_lit cstep_implies_lits cstep_given_lits cstep_notb cstep_andb cstep_orb cstep_flat
  cstep_implies cstep_disjoint cstep_given : mvcc_step.
Ltac csteps := cstepper; repeat (first [apply cstep_fold|apply cstep_find|apply cstep_cached]; intros; cstepper); auto with mvcc_step.
(** one call, [tac] giving what it promises *)
Ltac call tac := eapply sound_seq; [csteps|intros; csteps|tac|]; cbn beta.
Ltac last_call tac := eapply sound_means; [csteps|tac|].
Ltac last_answer tac := eapply sound_answer; [csteps|tac|].

(** *** Negation *)
Lemma sound_and_chain l f st : clause_means (ar st) l f → sound (and_chain i1 l) st (λ r s, means s r f).
Proof.
  unfold and_chain. destruct l as [|k l]; [intros _; apply sound_stuck|]. intros Hl.
  assert (∀ l k v st, means (ar st) k v → Forall (cond (ar st)) l →
    (∀ ρ, model (ar st) ρ → v ρ && forallb (T (ar st) ρ) l = f ρ) →
    sound (cfold (λ r k, mkOp i1 And [r; k]) l k) st (λ r s, means s r f)) as Hgen.
  { clear. induction l as [|x l IH]; intros k v st Hk Hl Hf; cbn [cfold].
    - apply sound_ret. intros _ _. eapply means_iff; [|exact Hk]. intros ρ Hm. rewrite <- Hf by done. by rewrite andb_true_r.
    - apply Forall_cons in Hl as [Hx Hl].
      eapply sound_seq; [csteps|intros; csteps|apply (sound_mkOp _ _ _ _ _ v (λ ρ, T (ar st) ρ x)); [set_solver|done|by apply means_T]|].
      intros r st1 Hst Hi Hi1 Ht1 Hr. eapply IH; [exact Hr|by eapply (conds_in st st1 (st_ext _ _ Hst))|]. intros ρ Hm. cbn.
      assert (model (ar st) ρ) as Hm0 by (destruct Hi, Hi1; by eapply step_model).
      rewrite <- Hf by done. cbn. rewrite <- andb_assoc. do 2 f_equal.
      destruct (clause_in st st1 Hi Hi1 (st_ext _ _ Hst) l _ (clause_own _ _ Hl)) as [_ E]. by apply E. }
  destruct Hl as [Hc Hf]. apply Forall_cons in Hc as [Hk Hc]. eapply Hgen; [by apply means_T|done|exact Hf].
Qed.
(** the conditions are those of one typed store *)
Lemma sound_enter {A} (m : C A) st (Q : A → Arena → Prop) : cstep m →
  (inv st → wf (ar st) → typed (ar st) → guards_ok (ar st) → memo_ok calleeName (ar st) (me st) → sound m st Q) →
  sound m st Q.
Proof. intros Hs Hm. apply sound_start; [done|]. intros Hi Ht. pose proof Hi as []. by apply Hm. Qed.
Lemma sound_deref {B} e x (f : Expr → C B) st (Q : B → Arena → Prop) :
  nodes (ar st) !! e = Some x → sound (f x) st Q → sound (cbind (lift (deref e)) f) st Q.
Proof. intros Hn Hf. unfold sound, cbind, lift, deref. rewrite Hn. by destruct st. Qed.
(** operands of a connective *)
Lemma and_means s e v a b : wf s → typed s → means s e v → bool_op s And e = Some (a, b) →
  ∃ va vb, means s a va ∧ means s b vb ∧ holds_in s (λ ρ, v ρ = va ρ && vb ρ).
Proof.
  intros Hw Ht He E. destruct (and_op_spec _ Hw Ht _ _ _ E) as (_ & _ & Ha & Hb & HT).
  exists (λ ρ, T s ρ a), (λ ρ, T s ρ b). split_and!; [by apply means_T..|]. intros ρ Hm. by rewrite <- HT, (means_T_eq _ _ _ _ He Hm).
Qed.
Lemma or_means s e v a b : wf s → typed s → means s e v → bool_op s Or e = Some (a, b) →
  ∃ va vb, means s a va ∧ means s b vb ∧ holds_in s (λ ρ, v ρ = va ρ || vb ρ).
Proof.
  intros Hw Ht He E. destruct (or_op_spec _ Hw Ht _ _ _ E) as (_ & _ & Ha & Hb & HT).
  exists (λ ρ, T s ρ a), (λ ρ, T s ρ b). split_and!; [by apply means_T..|]. intros ρ Hm. by rewrite <- HT, (means_T_eq _ _ _ _ He Hm).
Qed.
Lemma true_means s e v : wf s → means s e v → isTrue s e = true → holds_in s (λ ρ, v ρ = true).
Proof. intros Hw He E ρ Hm. rewrite <- (means_T_eq _ _ _ _ He Hm). by apply isTrue_T. Qed.
Lemma false_means s e v : wf s → means s e v → isFalse s e = true → holds_in s (λ ρ, v ρ = false).
Proof. intros Hw He E ρ Hm. rewrite <- (means_T_eq _ _ _ _ He Hm). by apply isFalse_T. Qed.
(** reason in every model, with what is known there *)
Ltac models := intros ?ρ ?Hm; repeat match goal with X : holds_in _ _ |- _ => specialize (X ρ Hm); cbn beta in X end; cbn beta.

Lemma notb_raw_sound a v st : means (ar st) a v → sound (notb_raw rec a) st (λ r s, means s r (λ ρ, negb (v ρ))).
Proof.
  intros Ha. apply sound_enter; [unfold notb_raw; csteps|]. intros Hi Hw Ht Hg _.
  pose proof Ha as [(x & Hn & Et)%fmap_Some _]. unfold notb_raw. eapply sound_deref; [exact Hn|].
  destruct x as [t n]. cbn [ty node] in *. symmetry in Et. subst t.
  set (rest := match isBoolOp And (mkExpr i1 n) with Some _ => _ | None => _ end).
  assert (sound rest st (λ r s, means s r (λ ρ, negb (v ρ)))) as Hrest.
  { assert (∀ op, isBoolOp op (mkExpr i1 n) = bool_op (ar st) op a) as Eb by (intros; unfold bool_op; by rewrite Hn).
    unfold rest. rewrite !Eb.
    destruct (bool_op (ar st) And a) as [[l r]|] eqn:EA; [|destruct (bool_op (ar st) Or a) as [[l r]|] eqn:EO].
    - destruct (and_means _ _ _ _ _ Hw Ht Ha EA) as (vl & vr & Hl & Hr & HT).
      call ltac:(by apply (ok_notb _ HR)). intros nl st1 Hst _ Hi1 _ Hnl. advance Hst.
      call ltac:(by apply (ok_notb _ HR)). intros nr st2 Hst2 _ Hi2 _ Hnr. advance Hst2.
      last_call ltac:(by apply (ok_orb _ HR)). models. by rewrite HT, negb_andb.
    - destruct (or_means _ _ _ _ _ Hw Ht Ha EO) as (vl & vr & Hl & Hr & HT).
      call ltac:(by apply (ok_notb _ HR)). intros nl st1 Hst _ Hi1 _ Hnl. advance Hst.
      call ltac:(by apply (ok_notb _ HR)). intros nr st2 Hst2 _ Hi2 _ Hnr. advance Hst2.
      last_call ltac:(by apply (ok_andb _ HR)). models. by rewrite HT, negb_orb.
    - call ltac:(apply sound_bool). intros tr st1 Hst _ Hi1 _ Htr. advance Hst.
      eapply sound_means; [csteps|by apply (sound_mkOp _ _ _ _ _ v (λ _, true)); [set_solver|..]|]. models. apply xorb_true_r. }
  destruct n as [| | | |p l| | | | | |]; try exact Hrest. clear Hrest rest.
  pose proof Hn as Hlt%lookup_lt_Some. destruct (wf_nodes _ Hw _ _ Hn) as [Hch _]. cbn in Hch.
  destruct (ty_cmp _ Ht _ _ _ _ Hn) as (a' & b & -> & _).
  { eapply Forall_impl; [exact Hch|]. unfold valid. cbn. lia. }
  exact (sound_not_cmp calleeName a i1 p a' [b] st v Ha Hn).
Qed.
Lemma notb_sound a v st : means (ar st) a v → sound (notb_body rec a) st (λ r s, means s r (λ ρ, negb (v ρ))).
Proof.
  intros Ha. apply sound_enter; [auto with mvcc_step|]. intros Hi Hw Ht Hg Hmm. unfold notb_body.
  apply sound_look. destruct (isTrue (ar st) a) eqn:Et.
  { pose proof (true_means _ _ _ Hw Ha Et) as X. last_call ltac:(apply sound_bool). models. by rewrite X. }
  apply sound_look. destruct (isFalse (ar st) a) eqn:Ef.
  { pose proof (false_means _ _ _ Hw Ha Ef) as X. last_call ltac:(apply sound_bool). models. by rewrite X. }
  apply sound_look. destruct (negated (ar st) a) as [x|] eqn:En.
  { apply sound_ret. intros _ _. destruct (negated_T _ Hw Ht (mkEnv (λ _, 0) (λ _ _ _, 0)) a x (means_cond _ _ _ Ha) En) as [Hx _].
    split; [done|]. intros ρ Hm. destruct (negated_T _ Hw Ht ρ a x (means_cond _ _ _ Ha) En) as [_ E].
    rewrite <- (means_T_eq _ _ _ _ Ha Hm), E. by rewrite negb_involutive. }
  apply sound_cached; [unfold notb_raw; csteps| |by apply notb_raw_sound|].
  - intros _ _ r Hr. destruct (mk_not _ _ _ Hmm _ _ Hr) as [_ Hok]. eapply means_iff; [|exact Hok].
    intros ρ Hm. cbn. by rewrite (means_T_eq _ _ _ _ Ha Hm).
  - intros r st' Hst _ Hi' Hr. advance Hst. destruct Hi' as [? ? []]. split; try done.
    apply map_Forall_insert_2; [|done]. split; [by eapply means_cond|]. eapply means_iff; [|exact Hr].
    intros ρ Hm. cbn. by rewrite (means_T_eq _ _ _ _ Ha Hm).
Qed.

(** *** Conjunction *)
Lemma and_fold_sound l k v f st : means (ar st) k v → clause_means (ar st) l f →
  sound (cfold (andb_ rec) l k) st (λ r s, means s r (λ ρ, v ρ && f ρ)).
Proof.
  revert k v f st. induction l as [|x l IH]; intros k v f st Hk [Hc Hf]; cbn [cfold].
  - apply sound_ret. intros _ _. eapply means_iff; [|exact Hk]. intros ρ Hm. rewrite <- Hf by done. by rewrite andb_true_r.
  - apply Forall_cons in Hc as [Hx Hc]. pose proof (means_T calleeName _ _ Hx) as Hx'.
    set (vx := λ ρ, T (ar st) ρ x) in *. set (g := λ ρ, forallb (T (ar st) ρ) l).
    assert (clause_means (ar st) l g) as Hl by (by split).
    assert (holds_in (ar st) (λ ρ, f ρ = vx ρ && g ρ)) as HT by (intros ρ Hm; by rewrite <- Hf).
    call ltac:(by apply (ok_andb _ HR)). intros r st1 Hst Hi Hi1 _ Hr. advance Hst.
    last_call ltac:(by apply IH). models. by rewrite HT, andb_assoc.
Qed.
Lemma and_all_sound l f st : clause_means (ar st) l f → sound (and_all rec l) st (λ r s, means s r f).
Proof.
  intros Hl. unfold and_all. call ltac:(apply sound_bool). intros k st1 Hst Hi Hi1 _ Hk. advance Hst.
  last_call ltac:(by apply and_fold_sound). by models.
Qed.
Lemma conjuncts_means s e v : wf s → typed s → means s e v → clause_means s (conjuncts s e) v.
Proof.
  intros Hw Ht He. split; [by eapply conjuncts_cond, means_cond|]. intros ρ Hm.
  rewrite <- conjuncts_T by (done || by eapply means_cond). by apply means_T_eq.
Qed.
Lemma clause_app s l l' f g : clause_means s l f → clause_means s l' g → clause_means s (l ++ l') (λ ρ, f ρ && g ρ).
Proof.
  intros [Hc Hf] [Hc' Hg]. split; [by apply Forall_app|]. intros ρ Hm. by rewrite forallb_app, Hf, Hg.
Qed.
Lemma clause_same s l l' f : (∀ x, x ∈ l' → x ∈ l) → (∀ ρ, model s ρ → forallb (T s ρ) l' = forallb (T s ρ) l) →
  clause_means s l f → clause_means s l' f.
Proof.
  intros Hin Heq [Hc Hf]. split; [|intros ρ Hm; by rewrite Heq, Hf].
  rewrite Forall_forall in *. auto.
Qed.
Lemma andb_raw_sound a b va vb st : means (ar st) a va → means (ar st) b vb →
  sound (andb_raw semantic rec a b) st (λ r s, means s r (λ ρ, va ρ && vb ρ)).
Proof.
  intros Ha Hb. unfold andb_raw.
  call ltac:(by apply (ok_implies _ HR)). intros i st1 Hst Hi Hi1 _ Himp. advance Hst. destruct i.
  { specialize (Himp eq_refl). apply sound_ret. intros _ _. eapply means_iff; [|exact Ha]. models.
    destruct (va ρ); [by rewrite Himp|done]. }
  call ltac:(by apply (ok_implies _ HR)). intros i st2 Hst2 _ Hi2 _ Himp'. advance Hst2. destruct i.
  { specialize (Himp' eq_refl). apply sound_ret. intros _ _. eapply means_iff; [|exact Hb]. models.
    destruct (vb ρ); [by rewrite Himp'|by rewrite andb_false_r]. }
  call ltac:(by apply (ok_disjoint _ HR)). intros d st3 Hst3 _ Hi3 Ht3 Hdis. advance Hst3. destruct d.
  { specialize (Hdis eq_refl). last_call ltac:(apply sound_bool). models. by rewrite Hdis. }
  clear Himp Himp' Hdis. pose proof Hi3 as [Hw _ _].
  apply sound_look, sound_look. apply sound_type_of; [by eapply means_cond|]. apply sound_look.
  destruct (existsb (is_or (ar st3)) (conjuncts (ar st3) a ++ conjuncts (ar st3) b)); cbn [negb].
  - apply sound_look, sound_look.
    destruct (bool_op (ar st3) Or b) as [[b0 b1]|] eqn:Eb; [|destruct (bool_op (ar st3) Or a) as [[a0 a1]|] eqn:Ea].
    + destruct (or_means _ _ _ _ _ Hw Ht3 Hb Eb) as (v0 & v1 & H0 & H1 & HT).
      call ltac:(by apply (ok_andb _ HR)). intros x st4 Hst4 _ Hi4 _ Hx. advance Hst4.
      call ltac:(by apply (ok_andb _ HR)). intros y st5 Hst5 _ Hi5 _ Hy. advance Hst5.
      last_call ltac:(by apply (ok_orb _ HR)). models. by rewrite HT, andb_orb_distrib_r.
    + destruct (or_means _ _ _ _ _ Hw Ht3 Ha Ea) as (v0 & v1 & H0 & H1 & HT).
      call ltac:(by apply (ok_andb _ HR)). intros x st4 Hst4 _ Hi4 _ Hx. advance Hst4.
      call ltac:(by apply (ok_andb _ HR)). intros y st5 Hst5 _ Hi5 _ Hy. advance Hst5.
      last_call ltac:(by apply (ok_orb _ HR)). models. by rewrite HT, andb_orb_distrib_l.
    + by apply (sound_mkOp calleeName And); [set_solver|..].
  - apply sound_look. apply sound_and_chain.
    pose proof (clause_app _ _ _ _ _ (conjuncts_means _ _ _ Hw Ht3 Ha) (conjuncts_means _ _ _ Hw Ht3 Hb)) as Hls.
    set (ls := conjuncts (ar st3) a ++ conjuncts (ar st3) b) in *. pose proof Hls as [Hc _].
    eapply clause_same; [| |exact Hls].
    + intros x. rewrite unique_ids_elem, sort_ids_perm. by apply kept_sub.
    + intros ρ Hm. rewrite <- (kept_T calleeName semantic (ar st3) ls Hw (Forall_true _ _ (λ l, typed_lit _ l Hw Ht3)) Hc ρ Hm). apply conj_same. intros x.
      by rewrite unique_ids_elem, sort_ids_perm.
Qed.
Lemma andb_sound a b va vb st : means (ar st) a va → means (ar st) b vb →
  sound (andb_body semantic rec a b) st (λ r s, means s r (λ ρ, va ρ && vb ρ)).
Proof.
  intros Ha Hb. apply sound_enter; [auto with mvcc_step|]. intros Hi Hw Ht Hg Hmm. unfold andb_body.
  apply sound_look. destruct (isTrue (ar st) a) eqn:Eta.
  { pose proof (true_means _ _ _ Hw Ha Eta) as X. apply sound_ret. intros _ _. eapply means_iff; [|exact Hb]. models. by rewrite X. }
  apply sound_look. destruct (isTrue (ar st) b) eqn:Etb.
  { pose proof (true_means _ _ _ Hw Hb Etb) as X. apply sound_ret. intros _ _. eapply means_iff; [|exact Ha]. models. by rewrite X, andb_true_r. }
  apply sound_look. destruct (isFalse (ar st) a || isFalse (ar st) b) eqn:Ef.
  { assert (holds_in (ar st) (λ ρ, va ρ && vb ρ = false)) as X.
    { apply orb_true_iff in Ef as [E|E]; [pose proof (false_means _ _ _ Hw Ha E) as X|pose proof (false_means _ _ _ Hw Hb E) as X];
        models; rewrite X; [done|apply andb_false_r]. }
    last_call ltac:(apply sound_bool). models. by rewrite X. }
  destruct (Nat.eqb_spec a b) as [<-|_].
  { apply sound_ret. intros _ _. eapply means_iff; [|exact Ha]. intros ρ Hm.
    rewrite <- (means_T_eq _ _ _ _ Ha Hm), <- (means_T_eq _ _ _ _ Hb Hm). by rewrite andb_diag. }
  apply sound_cached; [unfold andb_raw, lits; csteps| |by apply andb_raw_sound|].
  - intros _ _ r Hr. destruct (mk_and _ _ _ Hmm _ _ Hr) as (_ & _ & Hok). eapply means_iff; [|exact Hok].
    intros ρ Hm. cbn. by rewrite (means_T_eq _ _ _ _ Ha Hm), (means_T_eq _ _ _ _ Hb Hm).
  - intros r st' Hst _ Hi' Hr. advance Hst. destruct Hi' as [? ? []]. split; try done.
    apply map_Forall_insert_2; [|done]. split_and!; [by eapply means_cond..|]. eapply means_iff; [|exact Hr].
    intros ρ Hm. cbn. by rewrite (means_T_eq _ _ _ _ Ha Hm), (means_T_eq _ _ _ _ Hb Hm).
Qed.

(** *** Disjunction *)
Lemma guard_sound l v st : means (ar st) l v → sound (guard l) st (λ r s, ∀ d, r = Some d → means s d v).
Proof.
  intros Hl. apply sound_enter; [auto with mvcc_step|]. intros Hi Hw Ht Hg Hmm. unfold guard. apply sound_look.
  destruct (isGuardSym (ar st) l) eqn:Eg; [|by apply sound_ret]. apply sound_look.
  destruct (guard_def (ar st) l) as [d|] eqn:Ed; [|apply sound_stuck]. apply sound_ret. intros _ _ d' [= <-].
  split; [by eapply guard_def_cond|]. intros ρ Hm. rewrite <- (mo_guard _ _ _ Hm l d Eg Ed). by apply means_T_eq.
Qed.
Lemma shallow_sound l v st : means (ar st) l v → sound (shallowGuard l) st (λ r s, ∀ d, r = Some d → means s d v).
Proof.
  intros Hl. unfold shallowGuard. call ltac:(by apply guard_sound). intros g st1 Hst Hi Hi1 _ Hg. advance Hst.
  destruct g as [d|]; [|by apply sound_ret]. specialize (Hg d eq_refl). apply sound_look, sound_ret. intros _ _ d'.
  destruct (_ && _); [by intros [= <-]|done].
Qed.
(** a literal of a clause, and the others *)
Lemma clause_split s ls f i l : clause_means s ls f → ls !! i = Some l →
  ∃ vl g, means s l vl ∧ clause_means s (delete i ls) g ∧ holds_in s (λ ρ, f ρ = vl ρ && g ρ).
Proof.
  intros [Hc Hf] Hl. pose proof (delete_Permutation _ _ _ Hl) as Hp. rewrite Hp in Hc.
  apply Forall_cons in Hc as [Hcl Hc].
  exists (λ ρ, T s ρ l), (λ ρ, forallb (T s ρ) (delete i ls)). split_and!; [by apply means_T|by apply clause_own|].
  intros ρ Hm. rewrite <- Hf by done. by rewrite (conj_perm _ _ _ Hp).
Qed.
Lemma imap_pair_elem {A} (l : list A) i x : (i, x) ∈ imap pair l → l !! i = Some x.
Proof. intros (j & y & [= -> ->] & Hj)%elem_of_lookup_imap. done. Qed.
Lemma clause_lit s cl f l : clause_means s cl f → l ∈ cl → means s l (λ ρ, T s ρ l).
Proof. intros [Hc _] Hl. rewrite Forall_forall in Hc. by apply means_T, Hc. Qed.
Lemma or_leaves_means s e v : wf s → typed s → means s e v → leaves_mean s (or_leaves s e) v.
Proof.
  intros Hw Ht He. split; [by eapply or_leaves_cond, means_cond|]. intros ρ Hm.
  rewrite <- or_leaves_T by (done || by eapply means_cond). by apply means_T_eq.
Qed.
Lemma leaves_cons s d ds g : leaves_mean s (d :: ds) g →
  ∃ vd g', means s d vd ∧ leaves_mean s ds g' ∧ holds_in s (λ ρ, g ρ = vd ρ || g' ρ).
Proof.
  intros [[Hd Hc]%Forall_cons Hf]. exists (λ ρ, T s ρ d), (λ ρ, existsb (T s ρ) ds).
  split_and!; [by apply means_T|by split|]. intros ρ Hm. by rewrite <- Hf.
Qed.
Lemma flat_fold_sound e ve ds g cls f st : means (ar st) e ve → leaves_mean (ar st) ds g → clauses_mean (ar st) cls f →
  sound (cfold (λ cls d, let! x := andb_ rec e d in flat rec x true cls) ds cls) st
    (λ r s, clauses_mean s r (λ ρ, f ρ || (ve ρ && g ρ))).
Proof.
  revert g cls f st. induction ds as [|d ds IH]; intros g cls f st He Hds Hcls; cbn [cfold].
  - apply sound_ret. intros _ _. eapply clauses_iff; [|exact Hcls]. intros ρ Hm. destruct Hds as [_ Hg].
    rewrite <- Hg by done. cbn. by rewrite andb_false_r, orb_false_r.
  - destruct (leaves_cons _ _ _ _ Hds) as (vd & g' & Hd & Hds' & HT). clear Hds.
    eapply sound_seq with (Q1 := λ r s, clauses_mean s r (λ ρ, f ρ || (ve ρ && vd ρ))); [csteps|intros; csteps| |].
    + call ltac:(by apply (ok_andb _ HR)). intros x st1 Hst Hi Hi1 _ Hx. advance Hst. by apply (ok_flat _ HR).
    + intros cls1 st1 Hst Hi Hi1 _ Hcls1. advance Hst. eapply sound_last; [csteps|by apply IH|]. cbn beta.
      intros r st2 Hst2 _ Hi2 _ Hr. advance Hst2. eapply clauses_iff; [|exact Hr]. models. rewrite HT.
      by rewrite andb_orb_distrib_r, orb_assoc.
Qed.
Lemma sound_true {A} (m : C A) st : (inv st → ∀ r st', m st = Some (r, st') → inv st') → sound m st (λ _ _, True).
Proof. intros Hm Hi r st' E _. split; [by eapply Hm|done]. Qed.
Lemma is_shallow_sound l v st : means (ar st) l v → sound (is_shallow l) st (λ _ _, True).
Proof.
  intros Hl. unfold is_shallow. call ltac:(by apply shallow_sound). intros o st1 _ _ _ _ _. by apply sound_ret.
Qed.
(** a search that only keeps the store right *)
Lemma find_sound {A} (p : A → C bool) l st (P : A → Arena → Prop) :
  (∀ x, cstep (p x)) →
  (∀ x st', x ∈ l → inv st → inv st' → step (ar st) (ar st') → sound (p x) st' (λ r s, r = true → P x s)) →
  sound (cfind p l) st (λ o s, ∀ x, o = Some x → x ∈ l ∧ P x s).
Proof.
  intros Hs Hp. apply sound_enter; [by apply cstep_find|]. intros Hi _ _ _ _.
  eapply sound_weaken; [apply (sound_find _ p l st (λ x r s, r = true → P x s)); [done|]|].
  - intros x st' Hx Hi' _ Hst. by apply Hp.
  - cbn. intros o s _ _ Ho x E. destruct (Ho x E) as [? HP]. split; [done|by apply HP].
Qed.
Lemma expand_shallow_sound ls v cls f st : clause_means (ar st) ls v → clauses_mean (ar st) cls f →
  sound (expand_shallow rec ls cls) st (λ r s, ∀ cls', r = Some cls' → clauses_mean s cls' (λ ρ, f ρ || v ρ)).
Proof.
  intros Hls Hcls. unfold expand_shallow. destruct (length cls <? 64)%nat; [|by apply sound_ret].
  eapply sound_seq; [csteps|intros; csteps|apply (find_sound _ _ _ (λ _ _, True)); [intros; csteps|]|].
  { intros [i l] st1 Hin%imap_pair_elem Hi Hi1 Hst. advance Hst. eapply sound_weaken; [|done].
    eapply is_shallow_sound, clause_lit; [exact Hls|]. by eapply list_elem_of_lookup_2. }
  cbn beta. intros o st1 Hst Hi Hi1 Ht1 Ho. advance Hst. destruct o as [[i l]|]; [|by apply sound_ret].
  destruct (Ho _ eq_refl) as [Hin%imap_pair_elem _]. clear Ho.
  destruct (clause_split _ _ _ _ _ Hls Hin) as (vl & g & Hl & Hg & HT).
  call ltac:(by apply shallow_sound). intros o st2 Hst2 _ Hi2 _ Ho. advance Hst2.
  destruct o as [d|]; [|apply sound_stuck]. specialize (Ho d eq_refl).
  call ltac:(by apply and_all_sound). intros rest st3 Hst3 _ Hi3 Ht3 Hrest. advance Hst3. apply sound_look.
  pose proof (or_leaves_means _ _ _ (in_wf _ _ Hi3) Ht3 Ho) as Hds.
  call ltac:(by apply flat_fold_sound). intros cls' st4 Hst4 _ Hi4 _ Hcls'. advance Hst4. apply sound_ret.
  intros _ _ ? [= <-]. eapply clauses_iff; [|exact Hcls']. models. by rewrite HT, (andb_comm (g ρ)).
Qed.
Lemma clauses_snoc s cls f cl g : clauses_mean s cls f → clause_means s cl g →
  clauses_mean s (cls ++ [cl]) (λ ρ, f ρ || g ρ).
Proof.
  intros [Hc Hf] [Hl Hg]. split; [apply Forall_app; split; [done|by constructor]|]. intros ρ Hm.
  specialize (Hf ρ Hm). unfold dnf in *. rewrite existsb_app. cbn. by rewrite Hf, Hg, orb_false_r.
Qed.
Lemma clause_perm s l l' f : l ≡ₚ l' → clause_means s l f → clause_means s l' f.
Proof.
  intros Hp. apply clause_same; [intros x; by rewrite Hp|]. intros ρ _. by apply conj_perm.
Qed.
Lemma flat_clause_sound c cls v f st : means (ar st) c v → clauses_mean (ar st) cls f →
  sound (flat_clause rec c cls) st (λ r s, clauses_mean s r (λ ρ, f ρ || v ρ)).
Proof.
  intros Hc Hcls. apply sound_enter; [unfold flat_clause, lits; csteps|]. intros Hi Hw Ht _ _. unfold flat_clause.
  apply sound_look. destruct (isTrue (ar st) c) eqn:Et.
  { apply sound_ret. intros _ _. pose proof (true_means _ _ _ Hw Hc Et) as X.
    split; [by repeat constructor|]. models. by rewrite X, orb_true_r. }
  apply sound_look. pose proof (conjuncts_means _ _ _ Hw Ht Hc) as Hls.
  call ltac:(by apply expand_shallow_sound). intros o st1 Hst _ Hi1 _ Ho. advance Hst.
  destruct o as [cls'|]; [apply sound_ret; intros _ _; by apply Ho|].
  apply sound_ret. intros _ _. apply clauses_snoc; [done|]. eapply clause_perm; [|exact Hls]. symmetry. apply sort_ids_perm.
Qed.
Lemma flat_sound c canon cls v f st : means (ar st) c v → clauses_mean (ar st) cls f →
  sound (flat_body rec c canon cls) st (λ r s, clauses_mean s r (λ ρ, f ρ || v ρ)).
Proof.
  intros Hc Hcls. apply sound_enter; [auto with mvcc_step|]. intros Hi Hw Ht _ _. unfold flat_body.
  apply sound_look. destruct (bool_op (ar st) Or c) as [[a b]|] eqn:Eo.
  { destruct (or_means _ _ _ _ _ Hw Ht Hc Eo) as (va & vb & Ha & Hb & HT).
    call ltac:(by apply (ok_flat _ HR)). intros cls1 st1 Hst _ Hi1 _ Hcls1. advance Hst.
    eapply sound_last; [csteps|by apply (ok_flat _ HR)|]. cbn beta. intros r st2 Hst2 _ Hi2 _ Hr. advance Hst2.
    eapply clauses_iff; [|exact Hr]. models. by rewrite HT, orb_assoc. }
  apply sound_look. destruct (isFalse (ar st) c) eqn:Ef.
  { apply sound_ret. intros _ _. pose proof (false_means _ _ _ Hw Hc Ef) as X. eapply clauses_iff; [|exact Hcls].
    models. by rewrite X, orb_false_r. }
  destruct canon; [|by apply flat_clause_sound]. apply sound_look.
  pose proof (conjuncts_means _ _ _ Hw Ht Hc) as Hls.
  call ltac:(by apply and_all_sound). intros cc st1 Hst _ Hi1 _ Hcc. advance Hst.
  destruct (negb _); [by apply (ok_flat _ HR)|by apply flat_clause_sound].
Qed.

(** *** Resolution *)
Lemma complementary_sound x y vx vy st : means (ar st) x vx → means (ar st) y vy →
  sound (complementary rec x y) st (λ r s, r = true → holds_in s (λ ρ, vy ρ = negb (vx ρ))).
Proof.
  intros Hx Hy. unfold complementary. call ltac:(by apply (ok_notb _ HR)). intros nx st1 Hst Hi Hi1 Ht1 Hnx. advance Hst.
  pose proof Hi1 as [Hw _ _]. destruct (Nat.eqb_spec nx y) as [->|_].
  { apply sound_ret. intros _ _ _ ρ Hm. by rewrite <- (means_T_eq _ _ _ _ Hy Hm), <- (means_T_eq _ _ _ _ Hnx Hm). }
  eapply (sound_look calleeName (λ s, _) cret). apply sound_ret. intros _ _ Hc ρ Hm.
  destruct (nodes (ar st1) !! x) as [[tx [| | | |p l| | | | | |]]|] eqn:Ex; try done.
  destruct (nodes (ar st1) !! y) as [[ty [| | | |q l'| | | | | |]]|] eqn:Ey; try done.
  apply andb_true_iff in Hc as [->%bool_decide_eq_true ->%bool_decide_eq_true].
  rewrite <- (means_T_eq _ _ _ _ Hy Hm), <- (means_T_eq _ _ _ _ Hx Hm).
  rewrite (inverse_T calleeName (ar st1) ρ x y _ _ _ _ _ Hw Hm (means_cond _ _ _ Hx) (means_cond _ _ _ Hy) Ex Ey eq_refl).
  by rewrite negb_involutive.
Qed.
Lemma lit_implies_means s x y vx vy : wf s → means s x vx → means s y vy → litImplies semantic s x y = true →
  holds_in s (λ ρ, vx ρ = true → vy ρ = true).
Proof.
  intros Hw Hx Hy Hl ρ Hm. rewrite <- (means_T_eq _ _ _ _ Hx Hm), <- (means_T_eq _ _ _ _ Hy Hm).
  by eapply lit_implies_T.
Qed.
Lemma covering_sound x y vx vy st : means (ar st) x vx → means (ar st) y vy →
  sound (covering semantic rec x y) st (λ r s, r = true → holds_in s (λ ρ, vx ρ || vy ρ = true)).
Proof.
  intros Hx Hy. unfold covering. eapply sound_seq; [unfold complementary; csteps|intros; csteps|by apply complementary_sound|].
  cbn beta. intros c st1 Hst Hi Hi1 _ Hc. advance Hst. destruct c.
  { specialize (Hc eq_refl). apply sound_ret. intros _ _ _. models. rewrite Hc. by destruct (vx ρ). }
  clear Hc. call ltac:(by apply (ok_notb _ HR)). intros nx st2 Hst2 _ Hi2 _ Hnx. advance Hst2.
  apply sound_look. destruct (litImplies semantic (ar st2) nx y) eqn:E1.
  { pose proof (lit_implies_means _ _ _ _ _ (in_wf _ _ Hi2) Hnx Hy E1) as X. apply sound_ret. intros _ _ _.
    models. destruct (vx ρ); [done|]. by apply X. }
  call ltac:(by apply (ok_notb _ HR)). intros ny st3 Hst3 _ Hi3 _ Hny. advance Hst3.
  eapply (sound_look calleeName (λ s, _) cret). apply sound_ret. intros _ _ E2.
  pose proof (lit_implies_means _ _ _ _ _ (in_wf _ _ Hi3) Hny Hx E2) as X.
  models. destruct (vy ρ); [by rewrite orb_true_r|]. by rewrite X.
Qed.
Lemma redundant_sound cl k l st : Forall (cond (ar st)) cl → cl !! k = Some l →
  sound (redundant rec cl k l) st
    (λ r s, r = true → holds_in s (λ ρ, forallb (T s ρ) (delete k cl) = true → T s ρ l = true)).
Proof.
  intros Hc Hk. destruct (clause_split _ _ _ _ _ (clause_own _ _ Hc) Hk) as (vl & g & Hl & Hg & _).
  unfold redundant. call ltac:(by apply and_all_sound). intros rest st1 Hst Hi Hi1 _ Hrest. advance Hst.
  eapply sound_last; [csteps|by apply (ok_implies _ HR)|]. cbn beta. intros r st2 Hst2 _ Hi2 _ Hr E. advance Hst2.
  specialize (Hr E). destruct Hg as [_ Hg]. intros ρ Hm. rewrite Hg, (means_T_eq _ _ _ _ Hl Hm) by done. by apply Hr.
Qed.
(** the literal at [k] of [cl] can go, given the literal [x] of the other clause *)
Definition can_drop (x : EP) (d cl : Clause) (k : nat) (s : Arena) : Prop :=
  ∃ l, cl !! k = Some l ∧ holds_in s (λ ρ, T s ρ x || T s ρ l = true ∧
    (l ∈ d ∨ (forallb (T s ρ) (delete k cl) = true → T s ρ l = true))).
Lemma droppable_sound x d cl st : cond (ar st) x → Forall (cond (ar st)) cl →
  sound (droppable semantic rec x d cl) st (λ r s, ∀ k, r = Some k → can_drop x d cl k s).
Proof.
  intros Hx Hc. unfold droppable. eapply sound_seq; [csteps|intros; csteps| |].
  - apply (find_sound _ _ _ (λ kl s, can_drop x d cl kl.1 s)); [intros; csteps|].
    intros [k l] st1 Hk%imap_pair_elem Hi Hi1 Hst. cbn [fst snd].
    pose proof (cond_in st st1 (st_ext _ _ Hst) x Hx) as Hx1. pose proof (conds_in st st1 (st_ext _ _ Hst) cl Hc) as Hc1.
    pose proof (Forall_lookup_1 _ _ _ _ Hc1 Hk) as Hl1.
    pose proof (means_T calleeName _ _ Hx1) as Hmx. pose proof (means_T calleeName _ _ Hl1) as Hml.
    call ltac:(by apply covering_sound). intros c st2 Hst2 _ Hi2 _ Hcov. advance Hst2.
    destruct c; [|by apply sound_ret]. specialize (Hcov eq_refl).
    assert (∀ s, holds_in s (λ ρ, (T s ρ x || T s ρ l = true) ∧
      (l ∈ d ∨ (forallb (T s ρ) (delete k cl) = true → T s ρ l = true))) → can_drop x d cl k s) as Hfin.
    { intros s Hh. by exists l. }
    assert (holds_in (ar st2) (λ ρ, T (ar st2) ρ x || T (ar st2) ρ l = true)) as Hcov2.
    { models. rewrite (means_T_eq _ _ _ _ Hmx Hm), (means_T_eq _ _ _ _ Hml Hm). done. }
    destruct (existsb (Nat.eqb l) d) eqn:Ed.
    { apply sound_ret. intros _ _ _. apply Hfin. models. split; [done|left].
      apply existsb_exists in Ed as (l' & Hl' & ->%Nat.eqb_eq). by apply list_elem_of_In. }
    eapply sound_last; [csteps|apply redundant_sound; [by eapply (conds_in st1 st2 (st_ext _ _ Hst2))|done]|]. cbn beta.
    intros r st3 Hst3 _ Hi3 _ Hr E. advance Hst3. apply Hfin. specialize (Hr E). models. split; [|by right].
    rewrite (means_T_eq _ _ _ _ Hmx Hm), (means_T_eq _ _ _ _ Hml Hm). done.
  - cbn beta. intros o st1 _ _ _ _ Ho. apply sound_ret. intros _ _ k Hk.
    destruct o as [[k' l]|]; [|done]. injection Hk as <-. by destruct (Ho _ eq_refl).
Qed.
Lemma drop_one_sound xs d cl st : Forall (cond (ar st)) xs → Forall (cond (ar st)) cl →
  sound (drop_one semantic rec xs d cl) st (λ r s, ∀ k, r = Some k → ∃ x, xs = [x] ∧ can_drop x d cl k s).
Proof.
  intros Hx Hc. unfold drop_one. destruct xs as [|x [|? ?]]; try by apply sound_ret.
  apply Forall_cons in Hx as [Hx _]. eapply sound_weaken; [by apply droppable_sound|]. cbn. intros r s _ _ Hr k E.
  exists x. split; [done|by apply Hr].
Qed.
Lemma subsumed_T s ρ by_ cl : wf s → model s ρ → subsumed semantic s by_ cl = true →
  forallb (T s ρ) cl = true → forallb (T s ρ) by_ = true.
Proof.
  intros Hw Hm Hs Hcl. rewrite forallb_forall in *. unfold subsumed in Hs. rewrite forallb_forall in Hs.
  intros m Hin. specialize (Hs m Hin). apply existsb_exists in Hs as (l & Hl & Hi). eapply lit_implies_T; eauto.
Qed.
Lemma clauses_change s cls cls' f : Forall (Forall (cond s)) cls' →
  holds_in s (λ ρ, dnf (T s ρ) cls' = dnf (T s ρ) cls) → clauses_mean s cls f → clauses_mean s cls' f.
Proof. intros Hc Hd [_ Hf]. split; [done|]. intros ρ Hm. by rewrite Hd, Hf. Qed.
Lemma Forall_difference s a b : Forall (cond s) a → Forall (cond s) (set_difference a b).
Proof. intros Hc. rewrite (difference_intersection a b) in Hc. by apply Forall_app in Hc as [? _]. Qed.
Lemma Forall_intersection s a b : Forall (cond s) a → Forall (cond s) (set_intersection a b).
Proof. intros Hc. rewrite (difference_intersection a b) in Hc. by apply Forall_app in Hc as [_ ?]. Qed.
(** what a search for a change promises *)
Abbreviation keeps f := (λ r s, ∀ cls', r = Some cls' → clauses_mean s cls' f).
(** a clause that the other one subsumes goes *)
Lemma drop_right s cls i j ci cj f : (i < j)%nat → cls !! i = Some ci → cls !! j = Some cj → clauses_mean s cls f →
  holds_in s (λ ρ, forallb (T s ρ) cj = true → forallb (T s ρ) ci = true) → clauses_mean s (delete j cls) f.
Proof.
  intros Hij Ei Ej Hs Hsub. eapply clauses_change; [apply Forall_delete; by destruct Hs|models|exact Hs].
  by apply (dnf_drop_right _ cls i j ci cj).
Qed.
Lemma drop_left s cls i j ci cj f : (i < j)%nat → cls !! i = Some ci → cls !! j = Some cj → clauses_mean s cls f →
  holds_in s (λ ρ, forallb (T s ρ) ci = true → forallb (T s ρ) cj = true) → clauses_mean s (delete i cls) f.
Proof.
  intros Hij Ei Ej Hs Hsub. eapply clauses_change; [apply Forall_delete; by destruct Hs|models|exact Hs].
  by apply (dnf_drop_left _ cls i j ci cj).
Qed.
(** the last change: a literal of either clause that the other one's only own literal covers *)
Lemma shorten_sound cls i j ci cj f st : (i < j)%nat → cls !! i = Some ci → cls !! j = Some cj →
  clauses_mean (ar st) cls f →
  sound (let! k := drop_one semantic rec (set_difference ci cj) (set_difference cj ci) cj in
         match k with
         | Some k => cret (Some (<[j := delete k cj]> cls))
         | None =>
             let! k := drop_one semantic rec (set_difference cj ci) (set_difference ci cj) ci in
             cret ((λ k, <[i := delete k ci]> cls) <$> k)
         end) st (keeps f).
Proof.
  intros Hij Ei Ej Hcls. pose proof Hcls as [Hc _].
  pose proof (Forall_lookup_1 _ _ _ _ Hc Ei) as Hci. pose proof (Forall_lookup_1 _ _ _ _ Hc Ej) as Hcj.
  call ltac:(apply drop_one_sound; auto using Forall_difference). intros k st1 Hst Hi Hi1 _ Hk. advance Hst.
  pose proof Hcls as [Hc1 _].
  pose proof (Forall_lookup_1 _ _ _ _ Hc1 Ei) as Hci1. pose proof (Forall_lookup_1 _ _ _ _ Hc1 Ej) as Hcj1.
  destruct k as [k|].
  { apply sound_ret. intros _ _ cls' [= <-]. destruct (Hk k eq_refl) as (x & Ex & l & El & Hl).
    eapply clauses_change; [|models|exact Hcls].
    - apply Forall_insert; [done|]. by apply Forall_delete.
    - destruct Hl as [Hcov Hown]. by eapply (dnf_shorten_right _ cls i j ci cj). }
  clear Hk. call ltac:(apply drop_one_sound; auto using Forall_difference). intros k st2 Hst2 _ Hi2 _ Hk. advance Hst2.
  apply sound_ret. intros _ _ cls' Ek. destruct k as [k|]; [|done]. injection Ek as <-.
  destruct (Hk k eq_refl) as (x & Ex & l & El & Hl). pose proof Hcls as [Hc2 _].
  eapply clauses_change; [|models|exact Hcls].
  - apply Forall_insert; [done|]. apply Forall_delete. by eapply Forall_lookup_1.
  - destruct Hl as [Hcov Hown]. by eapply (dnf_shorten_left _ cls i j ci cj).
Qed.
(** two clauses each of which has a literal the other has not: subsumption, a covered pair of literals,
    or a literal that can go *)
Lemma pair_rest_sound cls i j ci cj f st : (i < j)%nat → cls !! i = Some ci → cls !! j = Some cj →
  clauses_mean (ar st) cls f →
  sound (let! s1 := look (λ s, semantic && subsumed semantic s ci cj) in
    if s1 then cret (Some (delete j cls)) else
    let! s2 := look (λ s, semantic && subsumed semantic s cj ci) in
    if s2 then cret (Some (delete i cls)) else
    let! cov := match set_difference ci cj, set_difference cj ci with [x], [y] => covering semantic rec x y | _, _ => cret false end in
    if cov then cret (Some (<[i := set_intersection ci cj]> (delete j cls))) else
    let! k := drop_one semantic rec (set_difference ci cj) (set_difference cj ci) cj in
    match k with
    | Some k => cret (Some (<[j := delete k cj]> cls))
    | None =>
        let! k := drop_one semantic rec (set_difference cj ci) (set_difference ci cj) ci in
        cret ((λ k, <[i := delete k ci]> cls) <$> k)
    end) st (keeps f).
Proof.
  intros Hij Ei Ej Hcls.
  apply sound_enter; [csteps; destruct (set_difference ci cj) as [|x [|? ?]], (set_difference cj ci) as [|y [|? ?]]; csteps|].
  intros Hi Hw Ht _ _. pose proof Hcls as [Hc _].
  pose proof (Forall_lookup_1 _ _ _ _ Hc Ei) as Hci. pose proof (Forall_lookup_1 _ _ _ _ Hc Ej) as Hcj.
  apply sound_look. destruct (semantic && subsumed semantic (ar st) ci cj) eqn:E1.
  { apply andb_true_iff in E1 as [_ E1]. apply sound_ret. intros _ _ cls' [= <-].
    eapply drop_right; [done..|]. intros ρ Hm. by eapply subsumed_T. }
  apply sound_look. destruct (semantic && subsumed semantic (ar st) cj ci) eqn:E2.
  { apply andb_true_iff in E2 as [_ E2]. apply sound_ret. intros _ _ cls' [= <-].
    eapply drop_left; [done..|]. intros ρ Hm. by eapply subsumed_T. }
  eapply sound_seq with (Q1 := λ r s, r = true → ∃ x y, set_difference ci cj = [x] ∧ set_difference cj ci = [y] ∧
    holds_in s (λ ρ, T s ρ x || T s ρ y = true)).
  - destruct (set_difference ci cj) as [|x [|? ?]], (set_difference cj ci) as [|y [|? ?]]; csteps.
  - intros; csteps.
  - pose proof (Forall_difference _ _ cj Hci) as Hx. pose proof (Forall_difference _ _ ci Hcj) as Hy.
    destruct (set_difference ci cj) as [|x [|? ?]], (set_difference cj ci) as [|y [|? ?]]; try by apply sound_ret.
    apply Forall_cons in Hx as [Hx _]. apply Forall_cons in Hy as [Hy _].
    pose proof (means_T calleeName _ _ Hx) as Hmx. pose proof (means_T calleeName _ _ Hy) as Hmy.
    eapply sound_last; [csteps|by apply covering_sound|]. cbn beta. intros r st1 Hst _ Hi1 _ Hcov E. advance Hst.
    specialize (Hcov E). exists x, y. split_and!; [done..|]. models.
    by rewrite (means_T_eq _ _ _ _ Hmx Hm), (means_T_eq _ _ _ _ Hmy Hm).
  - cbn beta. intros cov st1 Hst _ Hi1 _ Hcov. advance Hst. destruct cov; [|by apply shorten_sound].
    destruct (Hcov eq_refl) as (x & y & Ex & Ey & Hxy). apply sound_ret. intros _ _ cls' [= <-].
    eapply clauses_change; [|models|exact Hcls].
    + apply Forall_insert; [apply Forall_delete; by destruct Hcls|]. apply Forall_intersection.
      eapply conds_in; [exact (st_ext _ _ Hst)|done].
    + by eapply (dnf_merge _ cls i j ci cj).
Qed.
Lemma pair_step_sound cls i j f st : (i < j)%nat → clauses_mean (ar st) cls f →
  sound (pair_step semantic rec cls i j) st (keeps f).
Proof.
  intros Hij Hcls. unfold pair_step.
  destruct (cls !! i) as [ci|] eqn:Ei; [|apply sound_stuck]. destruct (cls !! j) as [cj|] eqn:Ej; [|apply sound_stuck].
  pose proof (pair_rest_sound cls i j ci cj f st Hij Ei Ej Hcls) as Hrest.
  pose proof (λ t, conj_left t ci cj) as Hl. pose proof (λ t, conj_right t ci cj) as Hr.
  revert Hrest Hl Hr. destruct (set_difference ci cj) as [|xi di].
  { intros _ Hl Hr. apply sound_ret. intros _ _ cls' [= <-]. eapply drop_right; [done..|]. intros ρ _. rewrite Hr, Hl. cbn.
    by intros [_ ?]%andb_true_iff. }
  destruct (set_difference cj ci) as [|xj dj].
  { intros _ Hl Hr. apply sound_ret. intros _ _ cls' [= <-]. eapply drop_left; [done..|]. intros ρ _. rewrite Hr, Hl. cbn.
    by intros [_ ?]%andb_true_iff. }
  intros Hrest _ _. exact Hrest.
Qed.
Lemma pairs_upto_lt n i j : (i, j) ∈ pairs_upto n → (i < j)%nat.
Proof.
  unfold pairs_upto. intros (i' & Hp & Hi)%list_elem_of_bind. apply list_elem_of_bind in Hp as (j' & Hp & Hj).
  apply list_elem_of_singleton in Hp. injection Hp as -> ->. apply elem_of_seq in Hj. lia.
Qed.
Lemma first_change_sound cls ps f st : Forall (λ ij, (ij.1 < ij.2)%nat) ps → clauses_mean (ar st) cls f →
  sound (first_change semantic rec cls ps) st (keeps f).
Proof.
  intros Hps. revert st. induction Hps as [|[i j] ps Hij Hps IH]; intros st Hcls; cbn [first_change]; [by apply sound_ret|].
  call ltac:(by apply pair_step_sound). intros r st1 Hst Hi Hi1 _ Hr. advance Hst.
  destruct r as [cls'|]; [|by apply IH]. apply sound_ret. intros _ _. exact Hr.
Qed.
Lemma resolve_sound n cls f st : clauses_mean (ar st) cls f →
  sound (resolve semantic rec n cls) st (λ r s, clauses_mean s r f).
Proof.
  revert cls st. induction n as [|n IH]; intros cls st Hcls; cbn [resolve]; [apply sound_stuck|].
  call ltac:(apply first_change_sound; [|done]).
  { apply Forall_forall. intros [i j] Hp. by eapply pairs_upto_lt. }
  intros r st1 Hst Hi Hi1 _ Hr. advance Hst. destruct r as [cls'|]; [by apply IH, Hr|by apply sound_ret].
Qed.
Definition opt_means (s : Arena) (o : option EP) (v : value) : Prop :=
  match o with Some e => means s e v | None => holds_in s (λ ρ, v ρ = false) end.
Lemma opt_iff s o v v' : holds_in s (λ ρ, v ρ = v' ρ) → opt_means s o v → opt_means s o v'.
Proof.
  intros Hv. destruct o; cbn; [by apply means_iff|]. intros Hf ρ Hm. rewrite <- (Hv ρ Hm). by apply Hf.
Qed.
Lemma opt_in st st' o v : inv st → inv st' → step (ar st) (ar st') → opt_means (ar st) o v → opt_means (ar st') o v.
Proof. intros Hi Hi' Hst. pose proof (st_ext _ _ Hst). destruct o; cbn; [by apply means_in|by apply holds_in_in]. Qed.
Lemma clauses_cons s cl cls f : clauses_mean s (cl :: cls) f →
  ∃ vc g, clause_means s cl vc ∧ clauses_mean s cls g ∧ holds_in s (λ ρ, f ρ = vc ρ || g ρ).
Proof.
  intros [[Hd Hc]%Forall_cons Hf]. exists (λ ρ, forallb (T s ρ) cl), (λ ρ, dnf (T s ρ) cls).
  split_and!; [by split|by split|]. intros ρ Hm. by rewrite <- Hf.
Qed.
Lemma rebuild_sound cls o again v f st : clauses_mean (ar st) cls f → opt_means (ar st) o v →
  sound (rebuild_or rec i1 cls o again) st (λ r s,
    match r with inl c => means s c (λ ρ, v ρ || f ρ) | inr (o, _) => opt_means s o (λ ρ, v ρ || f ρ) end).
Proof.
  revert o again v f st. induction cls as [|cl cls IH]; intros o again v f st Hcls Ho; cbn [rebuild_or].
  { apply sound_ret. intros _ _. eapply opt_iff; [|exact Ho]. destruct Hcls as [_ Hf]. intros ρ Hm.
    rewrite <- Hf by done. by rewrite orb_false_r. }
  destruct (clauses_cons _ _ _ _ Hcls) as (vc & g & Hcl & Hrest & HT). clear Hcls.
  call ltac:(by apply and_all_sound). intros c st1 Hst Hi Hi1 _ Hc. pose proof (opt_in _ _ _ _ Hi Hi1 Hst Ho) as Ho1. advance Hst.
  clear Ho. pose proof Hi1 as [Hw1 _ _]. apply sound_look. destruct (isTrue (ar st1) c) eqn:Et.
  { pose proof (true_means _ _ _ Hw1 Hc Et) as X. apply sound_ret. intros _ _. eapply means_iff; [|exact Hc]. models.
    rewrite HT, X. by rewrite orb_true_r. }
  apply sound_look. destruct (isFalse (ar st1) c) eqn:Ef.
  { pose proof (false_means _ _ _ Hw1 Hc Ef) as X.
    eapply sound_last; [csteps|by apply IH|]. cbn beta. intros r st2 Hst2 _ Hi2 _ Hr. advance Hst2.
    assert (holds_in (ar st2) (λ ρ, v ρ || g ρ = v ρ || f ρ)) as Y by (models; by rewrite HT, X).
    destruct r as [c'|[o' ?]]; [exact (means_iff _ _ _ _ _ Y Hr)|exact (opt_iff _ _ _ _ Y Hr)]. }
  apply sound_look. destruct o as [e|].
  - cbn [opt_means] in Ho1. call ltac:(apply (sound_mkOp calleeName Or e c _ v vc); [set_solver|done..]).
    intros e' st2 Hst2 _ Hi2 _ He'. advance Hst2.
    eapply sound_last; [csteps|by apply (IH (Some e'))|]. cbn beta. intros r st3 Hst3 _ Hi3 _ Hr. advance Hst3.
    assert (holds_in (ar st3) (λ ρ, connective Or (v ρ) (vc ρ) || g ρ = v ρ || f ρ)) as Y
      by (models; by rewrite HT, orb_assoc).
    destruct r as [c'|[o' ?]]; [exact (means_iff _ _ _ _ _ Y Hr)|exact (opt_iff _ _ _ _ Y Hr)].
  - eapply sound_last; [csteps|by apply (IH (Some c))|]. cbn beta. intros r st3 Hst3 _ Hi3 _ Hr. advance Hst3.
    cbn [opt_means] in Ho1. apply (holds_in_in st1 st3 Hi1 Hi3 (st_ext _ _ Hst3)) in Ho1.
    assert (holds_in (ar st3) (λ ρ, vc ρ || g ρ = v ρ || f ρ)) as Y
      by (models; by rewrite HT, Ho1).
    destruct r as [c'|[o' ?]]; [exact (means_iff _ _ _ _ _ Y Hr)|exact (opt_iff _ _ _ _ Y Hr)].
Qed.
Lemma empty_clause s cls f : clauses_mean s cls f → existsb is_nil cls = true → holds_in s (λ ρ, f ρ = true).
Proof.
  intros [_ Hf] He ρ Hm. rewrite <- Hf by done. apply existsb_exists in He as (cl & Hin & Hn).
  apply existsb_exists. exists cl. split; [done|]. by destruct cl.
Qed.
Lemma clauses_nil s : clauses_mean s [] (λ _, false).
Proof. split; [constructor|done]. Qed.
Lemma orb_raw_sound a b va vb st : means (ar st) a va → means (ar st) b vb →
  sound (orb_raw semantic rec a b) st (λ r s, means s r (λ ρ, va ρ || vb ρ)).
Proof.
  intros Ha Hb. unfold orb_raw.
  call ltac:(by apply (ok_implies _ HR)). intros i st1 Hst Hi Hi1 _ Himp. advance Hst. destruct i.
  { specialize (Himp eq_refl). apply sound_ret. intros _ _. eapply means_iff; [|exact Hb]. models.
    destruct (va ρ); [by rewrite Himp|done]. }
  call ltac:(by apply (ok_implies _ HR)). intros i st2 Hst2 _ Hi2 _ Himp'. advance Hst2. destruct i.
  { specialize (Himp' eq_refl). apply sound_ret. intros _ _. eapply means_iff; [|exact Ha]. models.
    destruct (vb ρ); [by rewrite Himp'|by rewrite orb_false_r]. }
  clear Himp Himp'. call ltac:(by apply (ok_flat _ HR); [|apply clauses_nil]).
  intros cls1 st3 Hst3 _ Hi3 _ Hcls1. advance Hst3.
  call ltac:(by apply (ok_flat _ HR)). intros cls2 st4 Hst4 _ Hi4 _ Hcls2. advance Hst4.
  destruct (existsb is_nil cls2) eqn:En.
  { pose proof (empty_clause _ _ _ Hcls2 En) as X. last_call ltac:(apply sound_bool). models. by rewrite <- X. }
  call ltac:(by apply resolve_sound). intros cls3 st5 Hst5 _ Hi5 _ Hcls3. advance Hst5.
  apply sound_type_of; [by eapply means_cond|].
  call ltac:(apply (rebuild_sound cls3 None false (λ _, false)); [done|by intros ? ?]).
  intros r st6 Hst6 _ Hi6 Ht6 Hr. advance Hst6. destruct r as [c|[[r|] again]].
  - by apply sound_ret.
  - cbn [opt_means] in Hr. apply sound_recall, sound_look. pose proof Hi6 as [Hw6 _ _].
    destruct (bool_op (ar st6) Or r) as [[x y]|] eqn:Eo; [|by apply sound_ret].
    destruct (_ && _); [|by apply sound_ret].
    destruct (or_means _ _ _ _ _ Hw6 Ht6 Hr Eo) as (vx & vy & Hx & Hy & HT).
    apply sound_note; [apply counter_rounds|]. intros st7 E7. rewrite <- E7 in *.
    eapply sound_seq; [csteps|intros; csteps|by apply (ok_orb _ HR)|]. cbn beta.
    intros r' st8 Hst8 Hi7 Hi8 _ Hr'. advance Hst8. apply sound_note; [apply counter_rounds|]. intros st9 E9.
    apply sound_ret. intros _ _. rewrite E9. eapply means_iff; [|exact Hr']. models. by rewrite <- HT.
  - cbn [opt_means] in Hr. last_call ltac:(apply sound_bool). models. by rewrite <- Hr.
Qed.
Lemma orb_sound a b va vb st : means (ar st) a va → means (ar st) b vb →
  sound (orb_body semantic rec a b) st (λ r s, means s r (λ ρ, va ρ || vb ρ)).
Proof.
  intros Ha Hb. apply sound_enter; [auto with mvcc_step|]. intros Hi Hw Ht Hg Hmm. unfold orb_body.
  apply sound_look. destruct (isFalse (ar st) a) eqn:Efa.
  { pose proof (false_means _ _ _ Hw Ha Efa) as X. apply sound_ret. intros _ _. eapply means_iff; [|exact Hb]. models. by rewrite X. }
  apply sound_look. destruct (isFalse (ar st) b) eqn:Efb.
  { pose proof (false_means _ _ _ Hw Hb Efb) as X. apply sound_ret. intros _ _. eapply means_iff; [|exact Ha]. models. by rewrite X, orb_false_r. }
  apply sound_look. destruct (isTrue (ar st) a || isTrue (ar st) b) eqn:Et.
  { assert (holds_in (ar st) (λ ρ, va ρ || vb ρ = true)) as X.
    { apply orb_true_iff in Et as [E|E]; [pose proof (true_means _ _ _ Hw Ha E) as X|pose proof (true_means _ _ _ Hw Hb E) as X];
        models; rewrite X; [done|apply orb_true_r]. }
    last_call ltac:(apply sound_bool). models. by rewrite X. }
  destruct (Nat.eqb_spec a b) as [<-|_].
  { apply sound_ret. intros _ _. eapply means_iff; [|exact Ha]. intros ρ Hm.
    rewrite <- (means_T_eq _ _ _ _ Ha Hm), <- (means_T_eq _ _ _ _ Hb Hm). by rewrite orb_diag. }
  apply sound_cached; [unfold orb_raw; csteps| |by apply orb_raw_sound|].
  - intros _ _ r Hr. destruct (mk_or _ _ _ Hmm _ _ Hr) as (_ & _ & Hok). eapply means_iff; [|exact Hok].
    intros ρ Hm. cbn. by rewrite (means_T_eq _ _ _ _ Ha Hm), (means_T_eq _ _ _ _ Hb Hm).
  - intros r st' Hst _ Hi' Hr. advance Hst. destruct Hi' as [? ? []]. split; try done.
    apply map_Forall_insert_2; [|done]. split_and!; [by eapply means_cond..|]. eapply means_iff; [|exact Hr].
    intros ρ Hm. cbn. by rewrite (means_T_eq _ _ _ _ Ha Hm), (means_T_eq _ _ _ _ Hb Hm).
Qed.

(** *** Implication and disjointness *)
Abbreviation shows P := (λ r s, r = true → holds_in s P).
Lemma shows_false (P : Env → Prop) st : sound (cret false) st (shows P).
Proof. by apply sound_ret. Qed.
Lemma shows_in st P : (inv st → holds_in (ar st) P) → sound (cret true) st (shows P).
Proof. intros HP. apply sound_ret. auto. Qed.
Lemma conj_fold_sound l k v f st : means (ar st) k v → clause_means (ar st) l f →
  sound (cfold conj_step l k) st (λ r s, means s r (λ ρ, v ρ && f ρ)).
Proof.
  revert k v f st. induction l as [|x l IH]; intros k v f st Hk [Hc Hf]; cbn [cfold].
  - apply sound_ret. intros _ _. eapply means_iff; [|exact Hk]. intros ρ Hm. rewrite <- Hf by done. by rewrite andb_true_r.
  - apply Forall_cons in Hc as [Hx Hc]. pose proof (means_T calleeName _ _ Hx) as Hx'.
    set (vx := λ ρ, T (ar st) ρ x) in *. set (g := λ ρ, forallb (T (ar st) ρ) l).
    assert (clause_means (ar st) l g) as Hl by (by split).
    assert (holds_in (ar st) (λ ρ, f ρ = vx ρ && g ρ)) as HT by (intros ρ Hm; by rewrite <- Hf).
    apply sound_enter; [csteps; intros; unfold conj_step; csteps|]. intros Hi Hw _ _ _.
    eapply sound_seq with (Q1 := λ r s, means s r (λ ρ, v ρ && vx ρ)); [unfold conj_step; csteps|intros; csteps; unfold conj_step; csteps| |].
    + unfold conj_step. apply sound_look. destruct (isTrue (ar st) k) eqn:Et.
      { pose proof (true_means _ _ _ Hw Hk Et) as X. apply sound_ret. intros _ _. eapply means_iff; [|exact Hx']. models. by rewrite X. }
      apply sound_type_of; [done|]. by apply (sound_mkOp calleeName And); [set_solver|..].
    + cbn beta. intros r st1 Hst _ Hi1 _ Hr. advance Hst.
      eapply sound_means; [csteps; unfold conj_step; csteps|by apply IH|]. models. by rewrite HT, andb_assoc.
Qed.
Lemma clause_step_steps rest o c : cstep (clause_step rest o c).
Proof. unfold clause_step. csteps. Qed.
#[local] Hint Resolve clause_step_steps : mvcc_step.
Lemma clause_fold_sound rest vr cs o v g st : means (ar st) rest vr → leaves_mean (ar st) cs g → opt_means (ar st) o v →
  sound (cfold (clause_step rest) cs o) st (λ r s, opt_means s r (λ ρ, v ρ || (vr ρ && g ρ))).
Proof.
  revert o v g st. induction cs as [|c cs IH]; intros o v g st Hrest Hcs Ho; cbn [cfold].
  { apply sound_ret. intros _ _. eapply opt_iff; [|exact Ho]. destruct Hcs as [_ Hg]. intros ρ Hm.
    rewrite <- Hg by done. cbn. by rewrite andb_false_r, orb_false_r. }
  destruct (leaves_cons _ _ _ _ Hcs) as (vc & g' & Hc & Hcs' & HT). clear Hcs.
  eapply sound_seq with (Q1 := λ r s, opt_means s r (λ ρ, v ρ || (vr ρ && vc ρ))); [csteps|intros; csteps| |].
  - apply sound_enter; [csteps|]. intros Hi Hw _ _ _. unfold clause_step. apply sound_type_of; [by eapply means_cond|].
    apply sound_look.
    eapply sound_seq with (Q1 := λ e s, means s e (λ ρ, vr ρ && vc ρ)); [csteps|intros; csteps| |].
    + destruct (isTrue (ar st) rest) eqn:Et.
      * pose proof (true_means _ _ _ Hw Hrest Et) as X. apply sound_ret. intros _ _. eapply means_iff; [|exact Hc].
        models. by rewrite X.
      * eapply sound_means; [csteps|by apply (sound_mkOp calleeName And c rest _ vc vr); [set_solver|..]|].
        models. cbn. apply andb_comm.
    + cbn beta. intros cl st1 Hst _ Hi1 _ Hcl. pose proof (opt_in _ _ _ _ Hi Hi1 Hst Ho) as Ho1. advance Hst.
      destruct o as [e|]; cbn [opt_means] in *.
      * call ltac:(apply (sound_mkOp calleeName Or e cl _ v (λ ρ, vr ρ && vc ρ)); [set_solver|done..]).
        intros e' st2 Hst2 _ Hi2 _ He'. advance Hst2. apply sound_ret. intros _ _. exact He'.
      * apply sound_ret. intros _ _. cbn. eapply means_iff; [|exact Hcl]. models. by rewrite Ho1.
  - cbn beta. intros o1 st1 Hst Hi Hi1 _ Ho1. advance Hst. eapply sound_last; [csteps|by apply IH|]. cbn beta.
    intros r st2 Hst2 _ Hi2 _ Hr. advance Hst2. eapply opt_iff; [|exact Hr]. models. rewrite HT.
    by rewrite andb_orb_distrib_r, orb_assoc.
Qed.
Lemma expandGuard_sound ls f st : clause_means (ar st) ls f →
  sound (expandGuard ls) st (λ r s, ∀ ex, r = Some ex → means s ex f).
Proof.
  intros Hls. unfold expandGuard.
  eapply sound_seq; [csteps|intros; csteps; unfold conj_step; csteps| |].
  { apply (find_sound _ _ _ (λ _ _, True)); [intros; csteps|]. intros [i l] st1 _ _ _ _. by apply (sound_look calleeName (λ s, _) cret), sound_ret. }
  cbn beta. intros o st1 Hst Hi Hi1 Ht1 Ho. advance Hst. destruct o as [[i l]|]; [|by apply sound_ret].
  destruct (Ho _ eq_refl) as [Hin%imap_pair_elem _]. clear Ho.
  destruct (clause_split _ _ _ _ _ Hls Hin) as (vl & g & Hl & Hg & HT).
  eapply sound_seq; [csteps|intros; csteps; unfold conj_step; csteps|apply sound_bool|]. cbn beta.
  intros t st2 Hst2 _ Hi2 _ Htr. advance Hst2.
  eapply sound_seq; [csteps; unfold conj_step; csteps|intros; csteps|by apply conj_fold_sound|]. cbn beta.
  intros rest st3 Hst3 _ Hi3 _ Hrest. advance Hst3.
  call ltac:(by apply guard_sound). intros d st4 Hst4 _ Hi4 Ht4 Hd. advance Hst4.
  destruct d as [d|]; [|apply sound_stuck]. specialize (Hd d eq_refl). apply sound_look.
  pose proof (or_leaves_means _ _ _ (in_wf _ _ Hi4) Ht4 Hd) as Hds.
  eapply sound_last; [csteps|apply (clause_fold_sound rest (λ ρ, true && g ρ) _ None (λ _, false) vl); [done..|by intros ? ?]|]. cbn beta.
  intros r st5 Hst5 _ Hi5 _ Hr ex ->. advance Hst5. cbn [opt_means] in Hr. eapply means_iff; [|exact Hr]. models.
  by rewrite HT, (andb_comm (g ρ)).
Qed.
Lemma expanding_sound m P st : cstep m → (∀ st', ar st' = ar st → sound m st' (shows P)) → sound (expanding m) st (shows P).
Proof.
  intros Hs Hm. unfold expanding. apply sound_recall. destruct (_ <=? _)%nat; [by apply sound_ret|].
  apply sound_note; [apply counter_depth|]. intros st1 E1.
  eapply sound_seq; [csteps|intros; csteps|by apply Hm|]. cbn beta. intros r st2 Hst _ _ _ Hr.
  apply sound_note; [apply counter_depth|]. intros st3 E3. apply sound_ret. intros _ _. by rewrite E3.
Qed.
Lemma implies_lit_sound a la l va vl st : means (ar st) a va → clause_means (ar st) la va → means (ar st) l vl →
  sound (implies_lit calleeName semantic rec a la l) st (shows (λ ρ, va ρ = true → vl ρ = true)).
Proof.
  intros Ha Hla Hl. apply sound_enter; [csteps|]. intros Hi Hw Ht _ _. unfold implies_lit.
  apply sound_look. destruct (existsb (λ m, litImplies semantic (ar st) m l) la) eqn:E1.
  { apply shows_in. intros _ ρ Hm Hva. destruct Hla as [_ Hf]. rewrite <- Hf, forallb_forall in Hva by done.
    apply existsb_exists in E1 as (m & Hin & Hi'). rewrite <- (means_T_eq _ _ _ _ Hl Hm).
    eapply lit_implies_T; eauto. }
  eapply sound_seq with (Q1 := shows (λ ρ, va ρ = true → vl ρ = true));
    [unfold implies_guard; csteps|intros; unfold implies_not_guard; csteps| |].
  { unfold implies_guard. call ltac:(by apply guard_sound). intros g st1 Hst _ Hi1 _ Hg. advance Hst.
    destruct g as [d|]; [|by apply shows_false]. by apply (ok_implies _ HR); [|apply Hg]. }
  cbn beta. intros ok st1 Hst _ Hi1 Ht1 Hok. advance Hst. destruct ok; [apply shows_in; intros _; by apply Hok|]. clear Hok.
  eapply sound_seq with (Q1 := shows (λ ρ, va ρ = true → vl ρ = true));
    [unfold implies_not_guard; csteps|intros; csteps| |].
  { unfold implies_not_guard. apply sound_look. destruct (negated (ar st1) l) as [x|] eqn:En; [|by apply shows_false].
    pose proof (λ ρ, negated_T _ (in_wf _ _ Hi1) Ht1 ρ l x (means_cond _ _ _ Hl) En) as Hx.
    assert (means (ar st1) x (λ ρ, negb (vl ρ))) as Hmx.
    { split; [apply (Hx (mkEnv (λ _, 0) (λ _ _ _, 0)))|]. intros ρ Hm. destruct (Hx ρ) as [_ E].
      rewrite <- (means_T_eq _ _ _ _ Hl Hm), E. by rewrite negb_involutive. }
    call ltac:(by apply guard_sound). intros g st2 Hst2 _ Hi2 _ Hg. advance Hst2.
    destruct g as [d|]; [|by apply shows_false]. specialize (Hg d eq_refl).
    last_answer ltac:(by apply (ok_disjoint _ HR)). models. intros Hd Hva. rewrite Hva in Hd. cbn in Hd.
    by apply negb_false_iff in Hd. }
  cbn beta. intros ok st2 Hst2 _ Hi2 Ht2 Hok. advance Hst2. destruct ok; [apply shows_in; intros _; by apply Hok|]. clear Hok.
  call ltac:(by apply (ok_notb _ HR)). intros nl st3 Hst3 _ Hi3 _ Hnl. advance Hst3.
  assert (clause_means (ar st3) (la ++ [nl]) (λ ρ, va ρ && negb (vl ρ))) as Hall.
  { apply clause_app; [done|]. split; [constructor; [by eapply means_cond|constructor]|]. intros ρ Hm. cbn.
    by rewrite (means_T_eq _ _ _ _ Hnl Hm), andb_true_r. }
  eapply sound_last; [csteps|apply sound_contra|].
  { destruct Hall as [Hc _]. eapply Forall_impl; [exact Hc|]. apply cond_valid. }
  cbn beta. intros r st4 Hst4 _ Hi4 _ Hr E. advance Hst4. specialize (Hr E). destruct Hall as [_ Hf]. intros ρ Hm Hva.
  specialize (Hf ρ Hm). rewrite (Hr ρ Hm), Hva in Hf. cbn in Hf. symmetry in Hf. by apply negb_false_iff in Hf.
Qed.
Lemma clause_head s l ls f : clause_means s (l :: ls) f →
  ∃ vl g, means s l vl ∧ clause_means s ls g ∧ holds_in s (λ ρ, f ρ = vl ρ && g ρ).
Proof. intros Hf. exact (clause_split s (l :: ls) f 0 l Hf eq_refl). Qed.
Lemma implies_lits_sound a b la lb va vb f st :
  means (ar st) a va → means (ar st) b vb → clause_means (ar st) la va → clause_means (ar st) lb f →
  sound (implies_lits calleeName semantic rec a b la lb) st (shows (λ ρ, va ρ = true → f ρ = true ∨ vb ρ = true)).
Proof.
  intros Ha Hb Hla. revert f st Ha Hb Hla. induction lb as [|l lb IH]; intros f st Ha Hb Hla Hlb; cbn [implies_lits].
  { apply shows_in. intros _ ρ Hm _. left. destruct Hlb as [_ Hf]. by rewrite <- Hf. }
  destruct (clause_head _ _ _ _ Hlb) as (vl & g & Hl & Hg & HT). clear Hlb.
  call ltac:(by apply implies_lit_sound). intros ok st1 Hst Hi Hi1 _ Hok. advance Hst. destruct ok.
  - specialize (Hok eq_refl). last_answer ltac:(by apply (IH g)). models. intros Hr Hva.
    rewrite HT. destruct (Hr Hva) as [Hgv|]; [left|by right]. by rewrite Hok, Hgv.
  - call ltac:(by apply expandGuard_sound). intros ex st2 Hst2 _ Hi2 _ Hex. advance Hst2.
    destruct ex as [ex|]; [|by apply shows_false]. specialize (Hex ex eq_refl).
    apply expanding_sound; [csteps|]. intros st3 E3. rewrite <- E3 in *.
    eapply sound_weaken; [by apply (ok_implies _ HR)|]. cbn. intros r s _ _ Hr E ρ Hm Hva. right. by apply Hr.
Qed.
Lemma implies_raw_sound a b va vb st : means (ar st) a va → means (ar st) b vb →
  sound (implies_raw calleeName semantic rec a b) st (shows (λ ρ, va ρ = true → vb ρ = true)).
Proof.
  intros Ha Hb. apply sound_enter; [unfold implies_raw, lits; csteps|]. intros Hi Hw Ht _ _. unfold implies_raw.
  apply sound_look. destruct (bool_op (ar st) Or a) as [[x y]|] eqn:Ea.
  { destruct (or_means _ _ _ _ _ Hw Ht Ha Ea) as (vx & vy & Hx & Hy & HT).
    call ltac:(by apply (ok_implies _ HR)). intros i st1 Hst _ Hi1 _ Hr. advance Hst.
    destruct i; [|by apply shows_false]. specialize (Hr eq_refl).
    last_answer ltac:(by apply (ok_implies _ HR)). models. rewrite HT. intros Hy' [?|?]%orb_true_iff; auto. }
  apply sound_look. destruct (bool_op (ar st) Or b) as [[x y]|] eqn:Eb.
  { destruct (or_means _ _ _ _ _ Hw Ht Hb Eb) as (vx & vy & Hx & Hy & HT).
    call ltac:(by apply (ok_implies _ HR)). intros i st1 Hst _ Hi1 _ Hr. advance Hst. destruct i.
    - specialize (Hr eq_refl). apply shows_in. intros _. models. intros Hva. rewrite HT, Hr by done. done.
    - last_answer ltac:(by apply (ok_implies _ HR)). models. intros Hvy Hva. rewrite HT, Hvy by done. apply orb_true_r. }
  call ltac:(by apply guard_sound). intros g st1 Hst _ Hi1 Ht1 Hg. advance Hst.
  destruct g as [d|]; [by apply (ok_implies _ HR); [|apply Hg]|]. clear Hg.
  apply sound_look, sound_look. pose proof (in_wf _ _ Hi1) as Hw1.
  last_answer ltac:(by apply implies_lits_sound; [..|apply conjuncts_means|apply conjuncts_means]).
  models. intros Hr Hva. by destruct (Hr Hva).
Qed.
Lemma implies_sound a b va vb st : means (ar st) a va → means (ar st) b vb →
  sound (implies_body calleeName semantic rec a b) st (shows (λ ρ, va ρ = true → vb ρ = true)).
Proof.
  intros Ha Hb. apply sound_enter; [auto with mvcc_step|]. intros Hi Hw Ht Hg Hmm. unfold implies_body.
  apply sound_look. destruct (isTrue (ar st) b || (a =? b)%nat || isFalse (ar st) a) eqn:Eq.
  { apply shows_in. intros _. apply orb_true_iff in Eq as [[Eq| ->%Nat.eqb_eq]%orb_true_iff|Eq].
    - pose proof (true_means _ _ _ Hw Hb Eq) as X. by models.
    - intros ρ Hm. by rewrite <- (means_T_eq _ _ _ _ Ha Hm), <- (means_T_eq _ _ _ _ Hb Hm).
    - pose proof (false_means _ _ _ Hw Ha Eq) as X. models. by rewrite X. }
  apply sound_cached; [unfold implies_raw, lits; csteps| |by apply implies_raw_sound|].
  - intros _ _ r Hr ->. destruct (mk_implies _ _ _ Hmm _ _ Hr) as (_ & _ & Hok). specialize (Hok eq_refl).
    intros ρ Hm. specialize (Hok ρ Hm). cbn in Hok.
    rewrite (means_T_eq _ _ _ _ Ha Hm), (means_T_eq _ _ _ _ Hb Hm) in Hok. intros E. by rewrite E in Hok.
  - intros r st' Hst _ Hi' Hr. advance Hst. destruct Hi' as [? ? []]. split; try done.
    apply map_Forall_insert_2; [|done]. split_and!; [by eapply means_cond..|]. intros E. specialize (Hr E).
    intros ρ Hm. specialize (Hr ρ Hm). cbn in *. rewrite (means_T_eq _ _ _ _ Ha Hm), (means_T_eq _ _ _ _ Hb Hm).
    destruct (va ρ); [by rewrite Hr by done|done].
Qed.
Lemma opposite_sound x y vx vy st : means (ar st) x vx → means (ar st) y vy →
  sound (opposite semantic rec (x, y)) st (shows (λ ρ, vx ρ && vy ρ = false)).
Proof.
  intros Hx Hy. unfold opposite. cbn [fst snd]. call ltac:(by apply (ok_notb _ HR)).
  intros nx st1 Hst Hi Hi1 _ Hnx. advance Hst. pose proof (in_wf _ _ Hi1) as Hw1.
  destruct (Nat.eqb_spec nx y) as [->|_].
  { apply shows_in. intros _ ρ Hm. rewrite <- (means_T_eq _ _ _ _ Hy Hm), (means_T_eq _ _ _ _ Hnx Hm). apply andb_negb_r. }
  eapply (sound_look calleeName (λ s, _) cret). apply sound_ret. intros _ _ E.
  pose proof (lit_implies_means _ _ _ _ _ Hw1 Hy Hnx E) as X. models. destruct (vy ρ); [|apply andb_false_r].
  specialize (X eq_refl). apply negb_true_iff in X. by rewrite X.
Qed.
Lemma disjoint_raw_sound a b va vb st : means (ar st) a va → means (ar st) b vb →
  sound (disjoint_raw calleeName semantic rec a b) st (shows (λ ρ, va ρ && vb ρ = false)).
Proof.
  intros Ha Hb. apply sound_enter; [unfold disjoint_raw, opposite, lit_implies, lits; csteps|]. intros Hi Hw Ht _ _. unfold disjoint_raw.
  apply sound_look. destruct (bool_op (ar st) Or a) as [[x y]|] eqn:Ea.
  { destruct (or_means _ _ _ _ _ Hw Ht Ha Ea) as (vx & vy & Hx & Hy & HT).
    call ltac:(by apply (ok_disjoint _ HR)). intros i st1 Hst _ Hi1 _ Hr. advance Hst.
    destruct i; [|by apply shows_false]. specialize (Hr eq_refl).
    last_answer ltac:(by apply (ok_disjoint _ HR)). models. intros Hy'. by rewrite HT, andb_orb_distrib_l, Hr, Hy'. }
  apply sound_look. destruct (bool_op (ar st) Or b) as [[x y]|] eqn:Eb.
  { destruct (or_means _ _ _ _ _ Hw Ht Hb Eb) as (vx & vy & Hx & Hy & HT).
    call ltac:(by apply (ok_disjoint _ HR)). intros i st1 Hst _ Hi1 _ Hr. advance Hst.
    destruct i; [|by apply shows_false]. specialize (Hr eq_refl).
    last_answer ltac:(by apply (ok_disjoint _ HR)). models. intros Hy'. by rewrite HT, andb_orb_distrib_r, Hr, Hy'. }
  apply sound_look, sound_look.
  pose proof (conjuncts_means _ _ _ Hw Ht Ha) as Hla. pose proof (conjuncts_means _ _ _ Hw Ht Hb) as Hlb.
  set (la := conjuncts (ar st) a) in *. set (lb := conjuncts (ar st) b) in *.
  eapply sound_seq; [unfold opposite, lit_implies; csteps|intros; csteps|
    apply (find_sound _ _ _ (λ xy s, holds_in s (λ ρ, T s ρ xy.1 && T s ρ xy.2 = false)));
      [intros; unfold opposite, lit_implies; csteps|]|].
  { intros [x y] st1 Hin Hi0 Hi1 Hst. apply list_elem_of_bind in Hin as (x' & Hin & Hx).
    apply list_elem_of_bind in Hin as (y' & Hin & Hy). apply list_elem_of_singleton in Hin. injection Hin as -> ->.
    advance Hst. pose proof (clause_lit _ _ _ _ Hla Hx) as Hmx. pose proof (clause_lit _ _ _ _ Hlb Hy) as Hmy. cbn [fst snd].
    eapply sound_last; [unfold opposite, lit_implies; csteps|by apply opposite_sound|]. cbn beta. intros r st2 Hst2 _ Hi2 _ Hr E.
    advance Hst2. specialize (Hr E). models. by rewrite (means_T_eq _ _ _ _ Hmx Hm), (means_T_eq _ _ _ _ Hmy Hm). }
  cbn beta. intros o st1 Hst _ Hi1 _ Ho. advance Hst. destruct o as [[x y]|].
  { destruct (Ho _ eq_refl) as [Hin X]. apply shows_in. intros _. apply list_elem_of_bind in Hin as (x' & Hin & Hx).
    apply list_elem_of_bind in Hin as (y' & Hin & Hy). apply list_elem_of_singleton in Hin. injection Hin as -> ->.
    models. cbn in X. destruct Hla as [_ Hla], Hlb as [_ Hlb]. rewrite <- Hla, <- Hlb by done.
    apply andb_false_iff in X as [X|X]; apply andb_false_iff; [left|right]; apply not_true_iff_false;
      rewrite forallb_forall; intros Hall; [rewrite (Hall x') in X|rewrite (Hall y') in X]; try done; by apply list_elem_of_In. }
  clear Ho. pose proof (clause_app _ _ _ _ _ Hla Hlb) as Hall.
  call ltac:(apply sound_contra). 
  { destruct Hall as [Hc _]. eapply Forall_impl; [exact Hc|]. apply cond_valid. }
  intros c st2 Hst2 _ Hi2 _ Hc. advance Hst2. destruct c.
  { apply shows_in. intros _ ρ Hm. destruct Hall as [_ Hf]. rewrite <- (Hf ρ Hm). by apply Hc. }
  clear Hc. call ltac:(by apply expandGuard_sound). intros ea st3 Hst3 _ Hi3 _ Hea. advance Hst3.
  destruct ea as [ea|].
  { specialize (Hea ea eq_refl). apply expanding_sound; [csteps|]. intros st4 E4. rewrite <- E4 in *. by apply (ok_disjoint _ HR). }
  clear Hea. call ltac:(by apply expandGuard_sound). intros eb st4 Hst4 _ Hi4 _ Heb. advance Hst4.
  destruct eb as [eb|]; [|by apply shows_false].
  specialize (Heb eb eq_refl). apply expanding_sound; [csteps|]. intros st5 E5. rewrite <- E5 in *. by apply (ok_disjoint _ HR).
Qed.
Lemma disjoint_sound a b va vb st : means (ar st) a va → means (ar st) b vb →
  sound (disjoint_body calleeName semantic rec a b) st (shows (λ ρ, va ρ && vb ρ = false)).
Proof.
  intros Ha Hb. apply sound_enter; [auto with mvcc_step|]. intros Hi Hw Ht Hg Hmm. unfold disjoint_body.
  apply sound_look. destruct (isFalse (ar st) a || isFalse (ar st) b) eqn:Eq.
  { apply shows_in. intros _. apply orb_true_iff in Eq as [Eq|Eq].
    - pose proof (false_means _ _ _ Hw Ha Eq) as X. models. by rewrite X.
    - pose proof (false_means _ _ _ Hw Hb Eq) as X. models. rewrite X. apply andb_false_r. }
  apply sound_cached; [unfold disjoint_raw, opposite, lit_implies, lits; csteps| |by apply disjoint_raw_sound|].
  - intros _ _ r Hr ->. destruct (mk_disjoint _ _ _ Hmm _ _ Hr) as (_ & _ & Hok). specialize (Hok eq_refl).
    intros ρ Hm. specialize (Hok ρ Hm). cbn in Hok.
    rewrite (means_T_eq _ _ _ _ Ha Hm), (means_T_eq _ _ _ _ Hb Hm) in Hok. by apply negb_true_iff.
  - intros r st' Hst _ Hi' Hr. advance Hst. destruct Hi' as [? ? []]. split; try done.
    apply map_Forall_insert_2; [|done]. split_and!; [by eapply means_cond..|]. intros E. specialize (Hr E).
    intros ρ Hm. specialize (Hr ρ Hm). cbn in *. rewrite (means_T_eq _ _ _ _ Ha Hm), (means_T_eq _ _ _ _ Hb Hm). by rewrite Hr.
Qed.

(** *** A condition where another holds *)
Lemma given_lits_sound ctx ls r vx vr f st : means (ar st) ctx vx → clause_means (ar st) ls f → means (ar st) r vr →
  sound (given_lits rec ctx ls r) st (λ o s,
    match o with
    | Some e => ∃ v, means s e v ∧ holds_in s (λ ρ, vx ρ = true → v ρ = vr ρ && f ρ)
    | None => holds_in s (λ ρ, vx ρ = true → f ρ = false)
    end).
Proof.
  revert r vr f st. induction ls as [|l ls IH]; intros r vr f st Hctx Hls Hr; cbn [given_lits].
  { apply sound_ret. intros _ _. exists vr. split; [done|]. destruct Hls as [_ Hf]. intros ρ Hm _.
    rewrite <- Hf by done. by rewrite andb_true_r. }
  destruct (clause_head _ _ _ _ Hls) as (vl & g & Hl & Hg & HT). clear Hls.
  call ltac:(by apply (ok_implies _ HR)). intros i st1 Hst Hi Hi1 _ Himp. advance Hst. destruct i.
  { specialize (Himp eq_refl). eapply sound_last; [csteps|by apply IH|]. cbn beta. intros o st2 Hst2 _ Hi2 _ Ho. advance Hst2.
    destruct o as [e|].
    - destruct Ho as (v & Hv & Hh). exists v. split; [done|]. models. intros Hx. by rewrite HT, Himp, Hh.
    - models. intros Hx. by rewrite HT, Himp, Ho. }
  clear Himp. call ltac:(by apply (ok_disjoint _ HR)). intros d st2 Hst2 _ Hi2 _ Hd. advance Hst2. destruct d.
  { specialize (Hd eq_refl). apply sound_ret. intros _ _. models. intros Hx. rewrite HT. rewrite Hx in Hd. cbn in Hd. by rewrite Hd. }
  clear Hd. call ltac:(by apply guard_sound). intros gd st3 Hst3 _ Hi3 _ Hgd. advance Hst3.
  eapply sound_seq with (Q1 := λ e s, ∃ v, means s e v ∧ holds_in s (λ ρ, vx ρ = true → v ρ = vl ρ)); [csteps|intros; csteps| |].
  { destruct gd as [d|]; [apply (ok_given_ _ HR); [by apply Hgd|done]|]. apply sound_ret. intros _ _. by exists vl. }
  cbn beta. intros x st4 Hst4 _ Hi4 _ (v & Hv & Hvl). advance Hst4.
  call ltac:(by apply (ok_andb _ HR)). intros r' st5 Hst5 _ Hi5 _ Hr'. advance Hst5.
  eapply sound_last; [csteps|by apply IH|]. cbn beta. intros o st6 Hst6 _ Hi6 _ Ho. advance Hst6.
  destruct o as [e|].
  - destruct Ho as (v' & Hv' & Hh). exists v'. split; [done|]. models. intros Hx. by rewrite HT, Hh, Hvl, andb_assoc.
  - models. intros Hx. by rewrite HT, Ho, andb_false_r.
Qed.
Lemma given_raw_sound c ctx vc vx st : means (ar st) c vc → means (ar st) ctx vx →
  sound (given_raw rec c ctx) st (λ r s, ∃ v, means s r v ∧ holds_in s (λ ρ, vx ρ = true → v ρ = vc ρ)).
Proof.
  intros Hc Hx. unfold given_raw. call ltac:(by apply (ok_implies _ HR)). intros i st1 Hst Hi Hi1 Ht1 Himp. advance Hst.
  pose proof (in_wf _ _ Hi1) as Hw1. destruct i.
  { specialize (Himp eq_refl). eapply sound_last; [csteps|apply sound_bool|]. cbn beta. intros r st2 Hst2 _ Hi2 _ Hr. advance Hst2.
    exists (λ _, true). split; [done|]. models. intros Hv. by rewrite Himp. }
  clear Himp. apply sound_look. destruct (bool_op (ar st1) Or c) as [[a b]|] eqn:Eo.
  { destruct (or_means _ _ _ _ _ Hw1 Ht1 Hc Eo) as (va & vb & Ha & Hb & HT).
    call ltac:(by apply (ok_given_ _ HR)). intros x st2 Hst2 _ Hi2 _ (vx' & Hx' & Hhx). advance Hst2.
    call ltac:(by apply (ok_given_ _ HR)). intros y st3 Hst3 _ Hi3 _ (vy' & Hy' & Hhy). advance Hst3.
    eapply sound_last; [csteps|by apply (ok_orb _ HR)|]. cbn beta. intros r st4 Hst4 _ Hi4 _ Hr. advance Hst4.
    eexists. split; [done|]. models. intros Hv. by rewrite HT, Hhx, Hhy. }
  apply sound_look. pose proof (conjuncts_means _ _ _ Hw1 Ht1 Hc) as Hls.
  call ltac:(apply sound_bool). intros t st2 Hst2 _ Hi2 _ Ht. advance Hst2.
  eapply sound_seq; [csteps|intros; csteps|by apply given_lits_sound|]. cbn beta. intros o st3 Hst3 _ Hi3 _ Ho. advance Hst3.
  destruct o as [e|].
  - apply sound_ret. intros _ _. exact Ho.
  - eapply sound_last; [csteps|apply sound_bool|]. cbn beta. intros r st4 Hst4 _ Hi4 _ Hr. advance Hst4.
    exists (λ _, false). split; [done|]. models. intros Hv. by rewrite Ho.
Qed.
Lemma given_sound c ctx vc vx st : means (ar st) c vc → means (ar st) ctx vx →
  sound (given_body rec c ctx) st (λ r s, ∃ v, means s r v ∧ holds_in s (λ ρ, vx ρ = true → v ρ = vc ρ)).
Proof.
  intros Hc Hx. apply sound_enter; [auto with mvcc_step|]. intros Hi Hw Ht Hg Hmm. unfold given_body.
  apply sound_look. destruct (isTrue (ar st) c || isFalse (ar st) c).
  { apply sound_ret. intros _ _. by exists vc. }
  apply sound_cached; [unfold given_raw, lits; csteps| |by apply given_raw_sound|].
  - intros _ _ r Hr. destruct (mk_given _ _ _ Hmm _ _ Hr) as (_ & _ & Hcr & Hok). exists (λ ρ, T (ar st) ρ r).
    split; [by apply means_T|]. intros ρ Hm. specialize (Hok ρ Hm). cbn in *.
    by rewrite (means_T_eq _ _ _ _ Hc Hm), (means_T_eq _ _ _ _ Hx Hm) in Hok.
  - intros r st' Hst _ Hi' (v & Hv & Hh). advance Hst. destruct Hi' as [? ? []]. split; try done.
    apply map_Forall_insert_2; [|done]. split_and!; [by eapply means_cond..|].
    intros ρ Hm. specialize (Hh ρ Hm). cbn in *.
    rewrite (means_T_eq _ _ _ _ Hc Hm), (means_T_eq _ _ _ _ Hx Hm), (means_T_eq _ _ _ _ Hv Hm). done.
Qed.

(** *** The promises hold of the bodies *)
Lemma opsS_ok : ops_ok (opsS calleeName semantic rec).
Proof.
  split; cbn [notb andb_ orb_ implies disjoint flat given opsS];
    eauto using notb_sound, andb_sound, orb_sound, implies_sound, disjoint_sound, flat_sound, given_sound.
  split; intros; cbn; auto with mvcc_step.
Qed.

(** *** Common literals and a guard *)
Lemma intersection_sub a b x : x ∈ set_intersection a b → x ∈ a ∧ x ∈ b.
Proof.
  intros Hx. split.
  - rewrite (difference_intersection a b). apply elem_of_app. by right.
  - rewrite (difference_intersection_r a b). apply elem_of_app. by right.
Qed.
Lemma common_sub cls x cl : x ∈ common_lits cls → cl ∈ cls → x ∈ cl.
Proof.
  unfold common_lits. destruct cls as [|c cls]; [by intros ?%elem_of_nil|].
  assert (∀ cls c, x ∈ fold_left set_intersection cls c → x ∈ c ∧ ∀ cl, cl ∈ cls → x ∈ cl) as Hf.
  { clear. induction cls as [|d cls IH]; intros c Hx; cbn in Hx; [split; [done|]; by intros ? ?%elem_of_nil|].
    destruct (IH _ Hx) as [[H1 H2]%intersection_sub H3]. split; [done|]. intros cl [ ->|?]%elem_of_cons; auto. }
  intros Hx [ ->|Hcl]%elem_of_cons; [by apply (Hf cls)|]. by eapply Hf.
Qed.
Lemma conj_sub (t : EP → bool) (l l' : list EP) : (∀ x, x ∈ l → x ∈ l') → forallb t l' = true → forallb t l = true.
Proof.
  intros Hin. rewrite !forallb_forall. setoid_rewrite <- list_elem_of_In. auto.
Qed.
(** a clause is what it has in common and the rest *)
Lemma conj_common (t : EP → bool) cls cl : cl ∈ cls →
  forallb t cl = forallb t (common_lits cls) && forallb t (set_difference cl (common_lits cls)).
Proof.
  intros Hcl. pose proof (difference_intersection cl (common_lits cls)) as Hp.
  rewrite (conj_perm t _ _ Hp), forallb_app. apply eq_true_iff_eq. rewrite !andb_true_iff. split.
  - intros [H1 H2]. split; [|done]. apply (conj_sub _ _ cl); [intros x Hx; by apply (common_sub cls)|].
    by rewrite (conj_perm t _ _ Hp), forallb_app, H1, H2.
  - intros [H1 H2]. split; [done|]. eapply conj_sub; [|exact H1]. intros x Hx. by apply intersection_sub in Hx as [_ ?].
Qed.
Lemma dnf_common (t : EP → bool) cls : dnf t cls =
  forallb t (common_lits cls) && existsb (λ cl, forallb t (set_difference cl (common_lits cls))) cls.
Proof.
  assert (∀ l, (∀ cl, cl ∈ l → cl ∈ cls) → dnf t l =
    forallb t (common_lits cls) && existsb (λ cl, forallb t (set_difference cl (common_lits cls))) l) as Hl.
  { unfold dnf. induction l as [|cl l IH]; intros Hsub; cbn; [by rewrite andb_false_r|].
    rewrite IH by (intros; apply Hsub; by right). rewrite (conj_common t cls cl) by (apply Hsub; by left).
    by rewrite andb_orb_distrib_r. }
  by apply Hl.
Qed.
Lemma factor_rest_steps t common cls o : cstep (factor_rest rec t common cls o).
Proof. revert o. induction cls as [|cl cls IH]; intros o; cbn [factor_rest]; csteps. Qed.
#[local] Hint Resolve factor_rest_steps : mvcc_step.
Lemma factor_rest_sound common cls o v g st :
  Forall (Forall (cond (ar st))) cls →
  (∀ ρ, model (ar st) ρ → existsb (λ cl, forallb (T (ar st) ρ) (set_difference cl common)) cls = g ρ) →
  opt_means (ar st) o v →
  sound (factor_rest rec i1 common cls o) st (λ r s, opt_means s r (λ ρ, v ρ || g ρ)).
Proof.
  revert o v g st. induction cls as [|cl cls IH]; intros o v g st Hc Hg Ho; cbn [factor_rest].
  { apply sound_ret. intros _ _. eapply opt_iff; [|exact Ho]. intros ρ Hm. rewrite <- Hg by done. by rewrite orb_false_r. }
  apply Forall_cons in Hc as [Hcl Hc].
  set (g' := λ ρ, existsb (λ cl, forallb (T (ar st) ρ) (set_difference cl common)) cls).
  set (vx := λ ρ, forallb (T (ar st) ρ) (set_difference cl common)).
  assert (clause_means (ar st) (set_difference cl common) vx) as Hd by (apply clause_own; by apply Forall_difference).
  assert (holds_in (ar st) (λ ρ, g ρ = vx ρ || g' ρ)) as HT by (intros ρ Hm; by rewrite <- Hg).
  call ltac:(by apply and_all_sound). intros x st1 Hst Hi Hi1 _ Hx. pose proof (opt_in _ _ _ _ Hi Hi1 Hst Ho) as Ho1.
  assert (Forall (Forall (cond (ar st1))) cls) as Hc1.
  { eapply Forall_impl; [exact Hc|]. apply conds_in. by apply st_ext. }
  assert (∀ ρ, model (ar st1) ρ → existsb (λ cl, forallb (T (ar st1) ρ) (set_difference cl common)) cls = g' ρ) as Hg1.
  { intros ρ Hm. unfold g'. clear -Hc Hst Hi Hi1 Hm. induction Hc as [|cl l Hcl Hc IH]; [done|]. cbn. rewrite IH. f_equal.
    destruct (clause_in st st1 Hi Hi1 (st_ext _ _ Hst) _ _ (clause_own _ _ (Forall_difference _ _ common Hcl))) as [_ E].
    by apply E. }
  advance Hst. clear Ho Hc Hg. pose proof (in_wf _ _ Hi1) as Hw1. apply sound_look. destruct (isTrue (ar st1) x) eqn:Et.
  { pose proof (true_means _ _ _ Hw1 Hx Et) as X. apply sound_ret. intros _ _. cbn. eapply means_iff; [|exact Hx]. models.
    by rewrite HT, X, orb_true_r. }
  destruct o as [r|].
  - cbn [opt_means] in Ho1. call ltac:(apply (sound_mkOp calleeName Or r x _ v vx); [set_solver|done..]).
    intros r' st2 Hst2 _ Hi2 _ Hr'. 
    eapply sound_last; [csteps|apply (IH (Some r') (λ ρ, connective Or (v ρ) (vx ρ)) g')|].
    + eapply Forall_impl; [exact Hc1|]. apply conds_in. by apply st_ext.
    + intros ρ Hm. rewrite <- (Hg1 ρ) by (destruct Hi1, Hi2; by eapply step_model). clear -Hc1 Hst2 Hi1 Hi2 Hm.
      induction Hc1 as [|cl l Hcl Hc IH]; [done|]. cbn. rewrite IH. f_equal.
      destruct (clause_in st1 st2 Hi1 Hi2 (st_ext _ _ Hst2) _ _ (clause_own _ _ (Forall_difference _ _ common Hcl))) as [_ E].
      by apply E.
    + exact Hr'.
    + cbn beta. intros o st3 Hst3 _ Hi3 _ Hr. advance Hst2. advance Hst3. eapply opt_iff; [|exact Hr]. models. cbn. by rewrite HT, orb_assoc.
  - eapply sound_last; [csteps|apply (IH (Some x) vx g'); [done..|exact Hx]|]. cbn beta.
    cbn [opt_means] in Ho1. intros o st3 Hst3 _ Hi3 _ Hr. advance Hst3. eapply opt_iff; [|exact Hr]. models. by rewrite HT, Ho1.
Qed.
(** a new guard symbol: the only operation that adds a symbol *)
Lemma guard_fresh s t : guards_ok s →
  find_index (sym_key (mkSymbol Guard 0 "guard" 0 (Z.of_nat (length (guardDefs s))) t)) (symbols s) = None.
Proof.
  intros Hg. destruct (find_index _ _) as [i|] eqn:E; [|done]. apply find_index_Some in E as (sy & Hi & Hk).
  apply bool_decide_eq_true in Hk as (Hk & _ & _ & _ & Hf). cbn in Hk, Hf.
  destruct (Hg i sy Hi (eq_sym Hk)) as (d & Hd & _). rewrite <- Hf, Nat2Z.id in Hd. apply lookup_lt_Some in Hd. lia.
Qed.
Lemma mkGuard_sound rest v st e st' : inv st → means (ar st) rest v → mkGuard i1 rest st = Some (e, st') →
  ext (ar st) (ar st') ∧ inv st' ∧ means (ar st') e v.
Proof.
  intros Hi Hrest. pose proof Hi as [Hw Hg Hm]. unfold mkGuard, mkSymRaw. cbn [symbols nodes atoms guardDefs sy_ty].
  rewrite guard_fresh by done. set (g := mkSymbol Guard 0 "guard" 0 (Z.of_nat (length (guardDefs (ar st)))) i1).
  set (s1 := mkArena (nodes (ar st)) (symbols (ar st) ++ [g]) (atoms (ar st)) (guardDefs (ar st) ++ [rest])).
  assert (ext (ar st) s1) as Hx1 by (split; cbn; try done; by apply prefix_app_r).
  assert (wf s1) as Hw1.
  { split; cbn; [|by apply wf_nodup| |by apply wf_atoms_nodup].
    - intros k x Hk. eapply expr_ok_ext; [exact Hx1|]. by apply wf_nodes.
    - intros a x Ha. exact (wf_atoms _ Hw _ _ Ha). }
  assert (symbols s1 !! length (symbols (ar st)) = Some g) as Hsy by (by apply list_lookup_middle).
  destruct (intern_spec s1 (mkExpr i1 (NSym (length (symbols (ar st)))))) as (e' & s2 & E & Hw2 & Hx2 & Hn); [done|split; [constructor|by eexists]|].
  rewrite E. intros [= <- <-]. cbn [ar me]. destruct (mstep_intern _ _ _ _ E) as [_ Es2 Eg2].
  assert (ext (ar st) s2) as Hx by (by etrans).
  assert (guards_ok s2) as Hg2.
  { intros i sy Hi' Hk. rewrite Es2 in Hi'. rewrite Eg2. cbn in Hi' |- *.
    apply lookup_app_Some in Hi' as [Hi'|[_ Hi']].
    - destruct (Hg i sy Hi' Hk) as (d & Hd & Hc). exists d. split; [by apply lookup_app_l_Some|by eapply cond_ext].
    - apply list_lookup_singleton_Some in Hi' as [_ <-]. cbn. rewrite Nat2Z.id. exists rest.
      split; [by apply list_lookup_middle|]. by eapply cond_ext, means_cond. }
  assert (means s2 rest v) as Hr2 by (by apply (means_ext _ (ar st))).
  assert (means s2 e' v) as He.
  { split; [unfold cond, type_at; by rewrite Hn|]. intros ρ Hρ. rewrite <- (means_T_eq _ _ _ _ Hr2 Hρ).
    apply (mo_guard _ _ _ Hρ).
    - unfold isGuardSym. rewrite Hn, Es2, Hsy. done.
    - unfold guard_def. rewrite Hn, Es2, Hsy. cbn. rewrite Nat2Z.id, Eg2. by apply list_lookup_middle. }
  split_and!; [done| |done]. pose proof (memo_ok_ext _ _ _ Hw Hw2 Hg Hx _ Hm) as [].
  split; cbn; [done|done|]. split; try done. cbn. apply map_Forall_insert_2; [|done].
  split; [by eapply means_cond|]. eapply means_iff; [|exact He]. intros ρ Hρ. by rewrite (means_T_eq _ _ _ _ Hr2 Hρ).
Qed.
Lemma guard_for_sound rest v st : means (ar st) rest v →
  sound (guard_for i1 rest) st (λ e s, ext (ar st) s ∧ means s e v).
Proof.
  intros Hrest Hi e st'. unfold guard_for, cbind, look, recall.
  destruct (isTrue (ar st) rest); [by intros [= <- <-] _|].
  destruct (guardOf (me st) !! rest) as [g|] eqn:Eg.
  - intros [= <- <-] _. split; [done|]. split; [done|]. pose proof Hi as [_ _ Hm]. destruct (mk_guard _ _ _ Hm _ _ Eg) as [_ Hok].
    eapply means_iff; [|exact Hok]. intros ρ Hρ. by apply means_T_eq.
  - intros E _. destruct (mkGuard_sound _ _ _ _ _ Hi Hrest E) as (? & ? & ?). done.
Qed.
(** operations that may add a guard *)
Definition cext {A} (m : C A) : Prop := ∀ st r st', m st = Some (r, st') → ext (ar st) (ar st').
Lemma cext_step {A} (m : C A) : cstep m → cext m.
Proof. intros Hs st r st' E. apply st_ext. by eapply Hs. Qed.
Lemma cext_bind {A B} (m : C A) (f : A → C B) : cext m → (∀ x, cext (f x)) → cext (cbind m f).
Proof.
  intros Hm Hf st r st'. unfold cbind. destruct (m st) as [[x st1]|] eqn:E; [|done]. intros E2.
  etrans; [by eapply Hm|by eapply Hf].
Qed.
Lemma cext_guard_for t r : cext (guard_for t r).
Proof.
  unfold guard_for. apply cext_bind; [by apply cext_step, cstep_look|]. intros []; [by apply cext_step, cstep_ret|].
  apply cext_bind; [by apply cext_step, cstep_recall|]. intros [g|]; [by apply cext_step, cstep_ret|].
  intros st e st'. unfold mkGuard, mkSymRaw. cbn [symbols nodes atoms guardDefs].
  destruct (find_index _ _) as [i|]; destruct (intern _ _) as [[x s]|] eqn:E; try done; intros [= <- <-]; cbn;
    (etrans; [|apply st_ext; by eapply mstep_intern]); split; cbn; try done; by apply prefix_app_r.
Qed.
Lemma sound_bind_ext {A B} (m : C A) (f : A → C B) st (Q1 : A → Arena → Prop) (Q2 : B → Arena → Prop) :
  (∀ x, cext (f x)) → sound m st Q1 →
  (∀ x st1, m st = Some (x, st1) → inv st1 → typed (ar st1) → Q1 x (ar st1) → sound (f x) st1 Q2) →
  sound (cbind m f) st Q2.
Proof.
  intros Hs Hm Hf Hi r st'. unfold cbind. destruct (m st) as [[x st1]|] eqn:E; [|done]. intros E2 Ht.
  assert (typed (ar st1)) as Ht1 by (eapply typed_back; [by eapply Hs|exact Ht]).
  destruct (Hm Hi x st1 E Ht1) as [Hi1 HQ1]. by eapply Hf.
Qed.
Lemma sorted_leaves s c v : wf s → typed s → means s c v →
  clauses_mean s ((λ x, sort_ids (conjuncts s x)) <$> or_leaves s c) v.
Proof.
  intros Hw Ht Hc. destruct (or_leaves_means _ _ _ Hw Ht Hc) as [Hcs Hv]. split.
  - apply Forall_fmap. eapply Forall_impl; [exact Hcs|]. intros x Hx. cbn. rewrite sort_ids_perm. by apply conjuncts_cond.
  - intros ρ Hm. rewrite <- Hv by done. clear Hv. induction Hcs as [|x l Hx Hcs IH]; [done|]. unfold dnf in *. rewrite fmap_cons. cbn [existsb]. rewrite IH.
    by rewrite (conj_perm _ _ _ (sort_ids_perm _)), <- conjuncts_T.
Qed.
Lemma factor_sound c v st : typed (ar st) → means (ar st) c v → sound (factor rec c) st (λ r s, means s r v).
Proof.
  intros Ht Hc Hi. revert Hi. assert (inv st → sound (factor rec c) st (λ r s, means s r v)) as Hf; [|by intros Hi; apply Hf].
  intros Hi. pose proof (in_wf _ _ Hi) as Hw. unfold factor. apply sound_look.
  destruct (bool_op (ar st) Or c) as [p|]; [|by apply sound_ret]. apply sound_type_of; [by eapply means_cond|]. apply sound_look.
  pose proof (sorted_leaves _ _ _ Hw Ht Hc) as Hcls. set (cls := _ <$> or_leaves (ar st) c) in *.
  pose proof Hcls as [Hcc Hcv]. set (common := common_lits cls).
  set (g := λ ρ, existsb (λ cl, forallb (T (ar st) ρ) (set_difference cl common)) cls).
  set (f := λ ρ, forallb (T (ar st) ρ) common).
  assert (holds_in (ar st) (λ ρ, v ρ = f ρ && g ρ)) as HT by (intros ρ Hm; rewrite <- Hcv by done; apply dnf_common).
  assert (clause_means (ar st) common f) as Hcom.
  { apply clause_own. apply Forall_forall. intros x Hx. destruct cls as [|cl cls']; [by apply elem_of_nil in Hx|].
    apply Forall_cons in Hcc as [Hcl _]. rewrite Forall_forall in Hcl. apply Hcl. eapply common_sub; [exact Hx|left]. }
  assert (∀ o, cext (match o with Some rest => let! g := guard_for i1 rest in cfold (andb_ rec) common g | None => cstuck end)) as Hext.
  { intros [r|]; [|by apply cext_step, cstep_stuck]. apply cext_bind; [apply cext_guard_for|]. intros x. apply cext_step. csteps. }
  eapply sound_bind_ext; [done|apply (factor_rest_sound common cls None (λ _, false) g); [done..|by intros ? ?]|].
  cbn beta. intros o st1 E1 Hi1 Ht1 Ho. pose proof (factor_rest_steps _ _ _ _ _ _ _ E1) as Hst. advance Hst.
  destruct o as [r|]; [|apply sound_stuck]. cbn [opt_means] in Ho.
  eapply sound_bind_ext; [intros; apply cext_step; csteps|by apply guard_for_sound|].
  cbn beta. intros e st2 _ Hi2 _ [Hx He].
  apply (clause_in st1 st2 Hi1 Hi2 Hx) in Hcom. apply (holds_in_in st1 st2 Hi1 Hi2 Hx) in HT.
  eapply sound_means; [csteps|by apply and_fold_sound|]. models. by rewrite HT, andb_comm.
Qed.
End body.
Lemma ops_sound n : ops_ok (ops calleeName semantic n).
Proof.
  induction n as [|n IH]; [|by apply opsS_ok]. split; intros; try apply sound_stuck. apply (ops_steps calleeName semantic 0).
Qed.
End sem.
