(* ===== verification/ArenaCondTotal.v ===== *)
(** Termination of the path conditions (ArenaCond.v) on disjunctions of conjunctions of literals that
    are not guard symbols: [andb], [orb], [implies] and [disjoint] return, within a depth of calls
    bounded by the number of clauses, and their results are again such disjunctions, with no more
    clauses than the sum (for [orb]) or the product (for [andb]) of the operands'.

    Guard symbols are left out: their expansion is bounded by the depth [kGuardExpandLimit] only. *)
From stdpp Require Import sorting.
From S2P Require Import Prelude Expr Arena ArenaSem ArenaCmp ArenaLits ArenaContra.
From S2P Require Import ArenaCond ArenaCondSem ArenaCondLits ArenaCondClauses ArenaCondSound.
Open Scope Z_scope.

(** ** The conditions *)
(** a literal: not a connective, not a guard symbol or the negation of one; a comparison is well typed *)
Record base (s : Arena) (l : EP) : Prop := {
  ba_cond : cond s l;
  ba_and : bool_op s And l = None;
  ba_or : bool_op s Or l = None;
  ba_guard : isGuardSym s l = false;
  ba_neg x : negated s l = Some x → isGuardSym s x = false;
  ba_cmp t p args : nodes s !! l = Some (mkExpr t (NCmp p args)) → ∃ a b, args = [a; b] ∧ cmp_typed s p a b }.
(** a conjunction of literals *)
Record conjc (s : Arena) (c : EP) : Prop := {
  cj_cond : cond s c;
  cj_or : bool_op s Or c = None;
  cj_guard : isGuardSym s c = false;
  cj_lits : Forall (base s) (conjuncts s c);
  cj_some : conjuncts s c = [] → isTrue s c = true }.
(** a disjunction of conjunctions *)
Definition dnfc (s : Arena) (c : EP) : Prop := cond s c ∧ Forall (conjc s) (or_leaves s c).
Definition leaves (s : Arena) (c : EP) : nat := length (or_leaves s c).
Abbreviation bases s cls := (Forall (Forall (base s)) cls).

(** the recursions on operands do not depend on their fuel *)
Lemma bool_op_below s op e a b : wf s → bool_op s op e = Some (a, b) → (a < e ∧ b < e)%nat.
Proof.
  intros Hw He%bool_op_node. destruct (wf_nodes _ Hw _ _ He) as [Hc _]. cbn in Hc.
  by apply Forall_cons in Hc as [Ha [Hb _]%Forall_cons].
Qed.
Lemma or_leaves_fuel s n m c : wf s → (c < n)%nat → (c < m)%nat → or_leaves_f n s c = or_leaves_f m s c.
Proof.
  intros Hw. revert m c. induction n as [|n IH]; intros [|m] c Hn Hm; try lia. cbn [or_leaves_f].
  destruct (bool_op s Or c) as [[a b]|] eqn:E; [|done]. destruct (bool_op_below _ _ _ _ _ Hw E).
  by rewrite (IH m a), (IH m b) by lia.
Qed.
Lemma conjuncts_fuel_eq s n m c : wf s → (c < n)%nat → (c < m)%nat → conjuncts_fuel n s c = conjuncts_fuel m s c.
Proof.
  intros Hw. revert m c. induction n as [|n IH]; intros [|m] c Hn Hm; try lia. cbn [conjuncts_fuel].
  change (nodes s !! c ≫= isBoolOp And) with (bool_op s And c).
  destruct (bool_op s And c) as [[a b]|] eqn:E; [|done]. destruct (bool_op_below _ _ _ _ _ Hw E).
  by rewrite (IH m a), (IH m b) by lia.
Qed.
Lemma or_leaves_or s c a b : wf s → bool_op s Or c = Some (a, b) → or_leaves s c = or_leaves s a ++ or_leaves s b.
Proof.
  intros Hw E. destruct (bool_op_below _ _ _ _ _ Hw E). unfold or_leaves at 1. cbn [or_leaves_f]. rewrite E.
  f_equal; apply or_leaves_fuel; auto; lia.
Qed.
Lemma or_leaves_leaf s c : bool_op s Or c = None → or_leaves s c = [c].
Proof. intros E. unfold or_leaves. cbn [or_leaves_f]. by rewrite E. Qed.
Lemma conjuncts_and s c a b : wf s → bool_op s And c = Some (a, b) → conjuncts s c = conjuncts s a ++ conjuncts s b.
Proof.
  intros Hw E. destruct (bool_op_below _ _ _ _ _ Hw E). unfold conjuncts at 1. cbn [conjuncts_fuel].
  change (nodes s !! c ≫= isBoolOp And) with (bool_op s And c). rewrite E.
  f_equal; apply conjuncts_fuel_eq; auto; lia.
Qed.
Lemma conjuncts_lit s l : bool_op s And l = None → conjuncts s l = if isTrue s l then [] else [l].
Proof.
  intros E. unfold conjuncts. cbn [conjuncts_fuel].
  change (nodes s !! l ≫= isBoolOp And) with (bool_op s And l). by rewrite E.
Qed.
Lemma leaves_pos s c : wf s → (1 ≤ leaves s c)%nat.
Proof.
  intros Hw. unfold leaves. induction (lt_wf c) as [c _ IH]. destruct (bool_op s Or c) as [[a b]|] eqn:E.
  - destruct (bool_op_below _ _ _ _ _ Hw E) as [Ha _]. rewrite (or_leaves_or s c a b), length_app by done.
    specialize (IH a Ha). lia.
  - by rewrite or_leaves_leaf.
Qed.

(** *** In a store that grows *)
Section grow.
Context (s s' : Arena) (Hw : wf s) (Hx : ext s s').
Lemma node_ext e : valid s e → nodes s' !! e = nodes s !! e.
Proof using All. intros [x Hn]%valid_lookup. by rewrite Hn, (ext_node _ _ _ _ Hx Hn). Qed.
Lemma isTrue_ext e : valid s e → isTrue s' e = isTrue s e.
Proof using All. intros Hv. unfold isTrue. by rewrite node_ext. Qed.
Lemma isFalse_ext e : valid s e → isFalse s' e = isFalse s e.
Proof using All. intros Hv. unfold isFalse. by rewrite node_ext. Qed.
Lemma isGuardSym_eq e : valid s e → isGuardSym s' e = isGuardSym s e.
Proof using All.
  intros Hv. unfold isGuardSym. rewrite node_ext by done. destruct (nodes s !! e) as [[t [| |i| | | | | | | |]]|] eqn:E; try done.
  destruct (wf_nodes _ Hw _ _ E) as [_ [sy Hsy]]. by rewrite Hsy, (prefix_lookup_Some _ _ _ _ Hsy (ext_symbols _ _ Hx)).
Qed.
Lemma child_valid' e t n c : nodes s !! e = Some (mkExpr t n) → c ∈ children n → valid s c.
Proof using All. intros He Hc. by eapply child_valid. Qed.
Lemma negated_eq e : valid s e → negated s' e = negated s e.
Proof using All.
  intros Hv. unfold negated. rewrite node_ext by done.
  destruct (nodes s !! e) as [[t [| | |[] [|x [|y [|]]]| | | | | | |]]|] eqn:E; try done.
  rewrite isTrue_ext; [done|]. eapply child_valid'; [exact E|cbn; set_solver].
Qed.
Lemma negated_valid e x : negated s e = Some x → valid s x.
Proof using All.
  unfold negated. destruct (nodes s !! e) as [[t [| | |[] [|z [|y [|]]]| | | | | | |]]|] eqn:E; try done.
  destruct (isTrue s y); [|done]. intros [= <-]. eapply child_valid'; [exact E|cbn; set_solver].
Qed.
Lemma bool_op_valid op e a b : bool_op s op e = Some (a, b) → valid s a ∧ valid s b.
Proof using All. intros E%bool_op_node. split; (eapply child_valid'; [exact E|cbn; set_solver]). Qed.
Lemma or_leaves_f_ext n e : valid s e → or_leaves_f n s' e = or_leaves_f n s e.
Proof using All.
  revert e. induction n as [|n IH]; intros e Hv; [done|]. cbn [or_leaves_f]. rewrite (bool_op_step s s') by done.
  destruct (bool_op s Or e) as [[a b]|] eqn:E; [|done]. apply bool_op_valid in E as [??]. by rewrite !IH.
Qed.
Lemma or_leaves_ext e : valid s e → or_leaves s' e = or_leaves s e.
Proof using All. apply or_leaves_f_ext. Qed.
Lemma leaves_ext e : valid s e → leaves s' e = leaves s e.
Proof using All. intros Hv. unfold leaves. by rewrite or_leaves_ext. Qed.
Lemma conjuncts_f_ext n e : valid s e → conjuncts_fuel n s' e = conjuncts_fuel n s e.
Proof using All.
  revert e. induction n as [|n IH]; intros e Hv; [done|]. cbn [conjuncts_fuel].
  change (nodes s' !! e ≫= isBoolOp And) with (bool_op s' And e).
  change (nodes s !! e ≫= isBoolOp And) with (bool_op s And e).
  rewrite (bool_op_step s s') by done.
  destruct (bool_op s And e) as [[a b]|] eqn:E; [apply bool_op_valid in E as [??]; by rewrite !IH|by rewrite isTrue_ext].
Qed.
Lemma conjuncts_ext e : valid s e → conjuncts s' e = conjuncts s e.
Proof using All. apply conjuncts_f_ext. Qed.
Lemma float_operand_ext a : float_operand s a → float_operand s' a.
Proof using Hx. intros (x & Hn & H). exists x. split; [by eapply ext_node|done]. Qed.
Lemma cmp_typed_ext p a b : cmp_typed s p a b → cmp_typed s' p a b.
Proof using Hx.
  unfold cmp_typed. destruct (icmp p 1 0 0); [by apply int_operands_ext|]. intros []. by split; apply float_operand_ext.
Qed.
Lemma cmp_typed_back p a b : valid s a → valid s b → cmp_typed s' p a b → cmp_typed s p a b.
Proof using Hx.
  unfold cmp_typed. intros Ha Hb. destruct (icmp p 1 0 0); [by apply int_operands_back|]. intros [].
  split; by eapply float_operand_back.
Qed.
Lemma base_ext l : valid s l → base s' l ↔ base s l.
Proof using All.
  intros Hv. split; intros [Hc Ha Ho Hg Hn Hp]; split.
  - by eapply type_at_back.
  - by rewrite <- (bool_op_step s s').
  - by rewrite <- (bool_op_step s s').
  - by rewrite <- isGuardSym_eq.
  - intros x Ex. rewrite <- isGuardSym_eq by (by eapply negated_valid). apply Hn. by rewrite negated_eq.
  - intros t p args E. destruct (Hp t p args) as (a & b & -> & Hab); [by rewrite node_ext|]. exists a, b. split; [done|].
    apply cmp_typed_back; [..|done]; (eapply child_valid'; [exact E|cbn; set_solver]).
  - by eapply cond_ext.
  - by rewrite (bool_op_step s s').
  - by rewrite (bool_op_step s s').
  - by rewrite isGuardSym_eq.
  - intros x Ex. rewrite negated_eq in Ex by done. rewrite isGuardSym_eq by (by eapply negated_valid). by apply Hn.
  - intros t p args E. rewrite node_ext in E by done. destruct (Hp t p args E) as (a & b & -> & Hab). exists a, b.
    split; [done|]. by apply cmp_typed_ext.
Qed.
Lemma conjuncts_f_valid n c : valid s c → Forall (valid s) (conjuncts_fuel n s c).
Proof using Hw Hx.
  revert c. induction n as [|n IH]; intros c Hv; cbn [conjuncts_fuel]; [constructor|].
  change (nodes s !! c ≫= isBoolOp And) with (bool_op s And c).
  destruct (bool_op s And c) as [[a b]|] eqn:E; [apply bool_op_valid in E as [??]; apply Forall_app; auto|].
  destruct (isTrue s c); by repeat constructor.
Qed.
Lemma or_leaves_f_valid n c : valid s c → Forall (valid s) (or_leaves_f n s c).
Proof using Hw Hx.
  revert c. induction n as [|n IH]; intros c Hv; cbn [or_leaves_f]; [constructor|].
  destruct (bool_op s Or c) as [[a b]|] eqn:E; [apply bool_op_valid in E as [??]; apply Forall_app; auto|].
  by repeat constructor.
Qed.
Lemma bases_ext l : Forall (valid s) l → Forall (base s') l ↔ Forall (base s) l.
Proof using All.
  intros Hv. rewrite !Forall_forall in *. split; intros Hb x Hin; apply base_ext; auto.
Qed.
Lemma conjc_ext c : valid s c → conjc s' c ↔ conjc s c.
Proof using All.
  intros Hv. pose proof (conjuncts_f_valid (S c) c Hv) as Hvs. change (conjuncts_fuel (S c) s c) with (conjuncts s c) in Hvs.
  split; intros [Hc Ho Hg Hl Hs].
  - rewrite conjuncts_ext, isTrue_ext in * by done. split; [by eapply type_at_back|by rewrite <- (bool_op_step s s')|
      by rewrite <- isGuardSym_eq|by apply bases_ext|done].
  - split; [by eapply cond_ext|by rewrite (bool_op_step s s')|by rewrite isGuardSym_eq|..];
      rewrite conjuncts_ext by done; [by apply bases_ext|by rewrite isTrue_ext].
Qed.
Lemma dnfc_ext c : valid s c → dnfc s' c ↔ dnfc s c.
Proof using All.
  intros Hv. pose proof (or_leaves_f_valid (S c) c Hv) as Hvs. change (or_leaves_f (S c) s c) with (or_leaves s c) in Hvs.
  unfold dnfc. rewrite or_leaves_ext by done. rewrite !Forall_forall in *.
  split; intros [Hc Hl]; (split; [first [by eapply type_at_back|by eapply cond_ext]|]); intros x Hin; apply conjc_ext; auto.
Qed.
End grow.

(** ** Total correctness
    [total m st Q]: from a store and tables that are right, [m] returns; the tables stay right, the rounds of
    [orb] are back where they were, and the result satisfies [Q]. *)
Definition small_dnf (s : Arena) (k : nat) (r : EP) : Prop := dnfc s r ∧ (leaves s r ≤ k)%nat.
Definition entry_ok (f : nat → nat → nat) (s : Arena) (k : EP * EP) (r : EP) : Prop :=
  valid s k.1 ∧ valid s k.2 ∧ (dnfc s k.1 → dnfc s k.2 → small_dnf s (f (leaves s k.1) (leaves s k.2)) r).
Record tables_ok (s : Arena) (m : Memo) : Prop := {
  tb_not : map_Forall (λ _ r, valid s r) (notbMemo m);
  tb_and : map_Forall (entry_ok Nat.mul s) (andMemo m);
  tb_or : map_Forall (entry_ok Nat.add s) (orMemo m) }.
Record tinv (st : CSt) : Prop := { ti_wf : wf (ar st); ti_tables : tables_ok (ar st) (me st) }.
Definition total {A} (m : C A) (st : CSt) (Q : A → Arena → Prop) : Prop :=
  tinv st → ∃ r st', m st = Some (r, st') ∧ step (ar st) (ar st') ∧ tinv st' ∧
    orbDepth (me st') = orbDepth (me st) ∧ Q r (ar st').

Lemma small_dnf_ext s s' k r : wf s → ext s s' → small_dnf s k r → small_dnf s' k r.
Proof.
  intros Hw Hx [Hd Hl]. pose proof (cond_valid _ _ (proj1 Hd)) as Hv.
  split; [by apply (dnfc_ext s)|by rewrite (leaves_ext s)].
Qed.
Lemma tables_step s s' m : wf s → ext s s' → tables_ok s m → tables_ok s' m.
Proof.
  intros Hw Hx [Hn Ha Ho].
  assert (∀ f k r, entry_ok f s k r → entry_ok f s' k r) as He.
  { intros f k r (H1 & H2 & Hr). split_and!; [by eapply ext_valid..|]. intros Hd1 Hd2.
    apply (dnfc_ext s s') in Hd1, Hd2; try done. rewrite !(leaves_ext s s') by done. by apply (small_dnf_ext s), Hr. }
  split; eapply map_Forall_impl; try eassumption; cbn; [intros _ r; by apply ext_valid|intros k r; apply He..].
Qed.
Section rules.
Lemma total_ret {A} (x : A) st (Q : A → Arena → Prop) : (tinv st → Q x (ar st)) → total (cret x) st Q.
Proof. intros HQ Hi. exists x, st. split_and!; auto. done. Qed.
Lemma total_bind {A B} (m : C A) (f : A → C B) st (Q1 : A → Arena → Prop) (Q2 : B → Arena → Prop) :
  total m st Q1 →
  (∀ x st1, step (ar st) (ar st1) → tinv st → tinv st1 → orbDepth (me st1) = orbDepth (me st) → Q1 x (ar st1) →
     total (f x) st1 Q2) →
  total (cbind m f) st Q2.
Proof.
  intros Hm Hf Hi. destruct (Hm Hi) as (x & st1 & E1 & Hst1 & Hi1 & Ed1 & HQ1).
  destruct (Hf x st1 Hst1 Hi Hi1 Ed1 HQ1 Hi1) as (r & st2 & E2 & Hst2 & Hi2 & Ed2 & HQ2).
  exists r, st2. unfold cbind. rewrite E1. split_and!; try done; [by etrans|congruence].
Qed.
Lemma total_weaken {A} (m : C A) st (Q1 Q2 : A → Arena → Prop) :
  total m st Q1 → (∀ r s, step (ar st) s → wf (ar st) → wf s → Q1 r s → Q2 r s) → total m st Q2.
Proof.
  intros Hm HQ Hi. destruct (Hm Hi) as (x & st1 & E1 & Hst1 & Hi1 & Ed1 & HQ1). exists x, st1.
  split_and!; try done. destruct Hi, Hi1. by apply HQ.
Qed.
Lemma total_enter {A} (m : C A) st (Q : A → Arena → Prop) :
  (tinv st → wf (ar st) → tables_ok (ar st) (me st) → total m st Q) → total m st Q.
Proof. intros Hm Hi. pose proof Hi as []. by apply Hm. Qed.
Lemma total_look {A B} (g : Arena → A) (f : A → C B) st (Q : B → Arena → Prop) :
  total (f (g (ar st))) st Q → total (cbind (look g) f) st Q.
Proof. done. Qed.
Lemma total_recall {A B} (g : Memo → A) (f : A → C B) st (Q : B → Arena → Prop) :
  total (f (g (me st))) st Q → total (cbind (recall g) f) st Q.
Proof. done. Qed.
Lemma total_look_last {A} (g : Arena → A) st (Q : A → Arena → Prop) : (tinv st → Q (g (ar st)) (ar st)) → total (look g) st Q.
Proof. apply (total_ret (g (ar st))). Qed.
Lemma total_lift {A} (m : M A) st (Q : A → Arena → Prop) :
  mstep m → (wf (ar st) → spec m (ar st) Q) → total (lift m) st Q.
Proof.
  intros Hs Hm [Hw Ht]. destruct (Hm Hw) as (r & s & E & Hw' & Hx & HQ). exists r, (mkC s (me st)). unfold lift.
  rewrite E. cbn. split_and!; try done; [by eapply Hs|]. split; cbn; [done|by eapply (tables_step (ar st))].
Qed.
Lemma total_type_of {B} e (f : Ty → C B) st (Q : B → Arena → Prop) :
  cond (ar st) e → total (f i1) st Q → total (cbind (type_of e) f) st Q.
Proof.
  intros (x & Hx & Et)%fmap_Some Hf. unfold total, cbind, type_of, lift, ty_of, bind, deref. rewrite Hx. cbn.
  rewrite <- Et. by destruct st.
Qed.
Lemma total_cached {V} (find : Memo → option V) put (m : C V) st (Q : V → Arena → Prop) :
  (tinv st → ∀ v, find (me st) = Some v → Q v (ar st)) → total m st Q →
  (∀ v st', step (ar st) (ar st') → tinv st → tinv st' → Q v (ar st') →
     tables_ok (ar st') (put v (me st')) ∧ orbDepth (put v (me st')) = orbDepth (me st')) →
  total (cached find put m) st Q.
Proof.
  intros Hf Hm Hp Hi. unfold cached, cbind, recall. destruct (find (me st)) as [v|] eqn:Ef.
  { exists v, st. split_and!; auto. done. }
  destruct (Hm Hi) as (v & st1 & E1 & Hst1 & Hi1 & Ed1 & HQ1). rewrite E1. cbn.
  destruct (Hp v st1 Hst1 Hi Hi1 HQ1) as [Ht Ed]. eexists _, _. split_and!; try done; [|cbn; congruence].
  split; [by destruct Hi1|done].
Qed.
Lemma total_find {A} (p : A → C bool) l st (R : A → Arena → Prop) :
  (∀ x s s', step s s' → wf s → R x s → R x s') → Forall (λ x, R x (ar st)) l →
  (∀ x st', x ∈ l → step (ar st) (ar st') → R x (ar st') → total (p x) st' (λ _ _, True)) →
  total (cfind p l) st (λ o s, ∀ x, o = Some x → x ∈ l).
Proof.
  intros HR. revert st. induction l as [|x l IH]; intros st Hl Hp; cbn [cfind]; [by apply total_ret|].
  apply Forall_cons in Hl as [Hx Hl].
  eapply total_bind; [apply Hp; [left|done|done]|]. intros b st1 Hst Hi Hi1 _ _. destruct b.
  - apply total_ret. intros _ y [= <-]. left.
  - eapply total_weaken; [apply IH|].
    + eapply Forall_impl; [exact Hl|]. intros y. destruct Hi. by apply HR.
    + intros y st' Hy Hst' HRy. apply Hp; [by right|by etrans|done].
    + cbn. intros o s _ _ _ Ho y E. right. by apply Ho.
Qed.
End rules.
Ltac tcall tac := eapply total_bind; [tac|]; cbn beta.

(** ** Facts in a later store *)
Section later.
Context (st st' : CSt) (Hi : tinv st) (Hst : step (ar st) (ar st')).
Lemma base_later l : base (ar st) l → base (ar st') l.
Proof using All. intros Hb. apply (base_ext (ar st)); [by destruct Hi|by destruct Hst|by apply cond_valid, ba_cond|done]. Qed.
Lemma bases_later l : Forall (base (ar st)) l → Forall (base (ar st')) l.
Proof using All. intros Hb. eapply Forall_impl; [exact Hb|]. apply base_later. Qed.
Lemma clauses_later cls : bases (ar st) cls → bases (ar st') cls.
Proof using All. intros Hb. eapply Forall_impl; [exact Hb|]. apply bases_later. Qed.
Lemma conjc_later c : conjc (ar st) c → conjc (ar st') c.
Proof using All. intros Hb. apply (conjc_ext (ar st)); [by destruct Hi|by destruct Hst|by apply cond_valid, cj_cond|done]. Qed.
Lemma small_later k c : small_dnf (ar st) k c → small_dnf (ar st') k c.
Proof using All. destruct Hi, Hst. by apply small_dnf_ext. Qed.
Lemma valid_later e : valid (ar st) e → valid (ar st') e.
Proof using Hst. destruct Hst. by apply ext_valid. Qed.
Lemma valids_later l : Forall (valid (ar st)) l → Forall (valid (ar st')) l.
Proof using Hst. intros Hv. eapply Forall_impl; [exact Hv|]. apply valid_later. Qed.
End later.
Ltac later H :=
  cbn beta in *;
  match type of H with
  | step (ar ?st) (ar ?st') =>
      match goal with
      | Hi : tinv st |- _ =>
          repeat match goal with
          | X : base (ar st) _ |- _ => apply (base_later st st' Hi H) in X
          | X : Forall (base (ar st)) _ |- _ => apply (bases_later st st' Hi H) in X
          | X : bases (ar st) _ |- _ => apply (clauses_later st st' Hi H) in X
          | X : conjc (ar st) _ |- _ => apply (conjc_later st st' Hi H) in X
          | X : small_dnf (ar st) _ _ |- _ => apply (small_later st st' Hi H) in X
          | X : valid (ar st) _ |- _ => apply (valid_later st st' H) in X
          | X : Forall (valid (ar st)) _ |- _ => apply (valids_later st st' H) in X
          end
      end
  end.
Lemma bases_valid s l : Forall (base s) l → Forall (valid s) l.
Proof. intros Hb. eapply Forall_impl; [exact Hb|]. intros x Hx. apply cond_valid, Hx. Qed.
Lemma bases_cond s l : Forall (base s) l → Forall (cond s) l.
Proof. intros Hb. eapply Forall_impl; [exact Hb|]. intros x Hx. apply Hx. Qed.
Lemma base_lit s l : base s l → lit_ok s l.
Proof.
  intros Hb p a b [t Hn]%literal_node. destruct (ba_cmp _ _ Hb _ _ _ Hn) as (a' & b' & [= <- <-] & ?). done.
Qed.
Lemma base_conj s l : base s l → isTrue s l = false → conjuncts s l = [l].
Proof. intros Hb Ht. rewrite conjuncts_lit by apply Hb. by rewrite Ht. Qed.
Lemma conjc_small s c : conjc s c → small_dnf s 1 c.
Proof.
  intros Hc. pose proof (or_leaves_leaf _ _ (cj_or _ _ Hc)) as E. unfold small_dnf, dnfc, leaves. rewrite E.
  split; [|done]. split; [by apply Hc|]. by apply Forall_singleton.
Qed.
Lemma small_conjc s c : wf s → small_dnf s 1 c → conjc s c.
Proof.
  intros Hw [[Hc Hl] Hn]. destruct (bool_op s Or c) as [[a b]|] eqn:E.
  - pose proof (leaves_pos s a Hw). pose proof (leaves_pos s b Hw). unfold leaves in *.
    rewrite (or_leaves_or s c a b), length_app in Hn by done. lia.
  - rewrite or_leaves_leaf in Hl by done. by apply Forall_cons in Hl as [? _].
Qed.
Lemma small_or s c k a b : wf s → small_dnf s k c → bool_op s Or c = Some (a, b) →
  ∃ ka kb, (ka + kb ≤ k)%nat ∧ (1 ≤ ka)%nat ∧ (1 ≤ kb)%nat ∧ small_dnf s ka a ∧ small_dnf s kb b.
Proof.
  intros Hw [[Hc Hl] Hn] E. exists (leaves s a), (leaves s b). unfold leaves in Hn. rewrite (or_leaves_or s c a b) in * by done.
  rewrite length_app in Hn. apply Forall_app in Hl as [Ha Hb].
  assert (∀ x, Forall (conjc s) (or_leaves s x) → cond s x) as Hcx.
  { intros x. induction (lt_wf x) as [x _ IH]. intros Hx. destruct (bool_op s Or x) as [[y z]|] eqn:Ex.
    - pose proof (bool_op_node _ _ _ _ _ Ex) as Hn'. unfold cond, type_at. by rewrite Hn'.
    - rewrite or_leaves_leaf in Hx by done. by apply Forall_cons in Hx as [[] _]. }
  split_and!; [done|by apply leaves_pos..| |]; (split; [split; [by apply Hcx|done]|done]).
Qed.
Lemma small_pos s k c : wf s → small_dnf s k c → (1 ≤ k)%nat.
Proof. intros Hw [_ Hk]. pose proof (leaves_pos s c Hw). lia. Qed.
Lemma small_leaf s k c : small_dnf s k c → bool_op s Or c = None → conjc s c.
Proof. intros [[Hc Hl] Hn] E. rewrite or_leaves_leaf in Hl by done. by apply Forall_cons in Hl as [? _]. Qed.
Lemma small_le s k k' c : (k ≤ k')%nat → small_dnf s k c → small_dnf s k' c.
Proof. intros Hk [? ?]. split; [done|lia]. Qed.
Lemma small_cond s k c : small_dnf s k c → cond s c.
Proof. by intros [[] _]. Qed.

(** ** The functions, by depth of the calls *)
Section total.
Context `{CmpInst} (calleeName : nat → string) (semantic : bool).
Definition not_total (R : Ops) : Prop := ∀ l st, base (ar st) l → total (notb R l) st (λ r s, valid s r).
Definition implies_total (R : Ops) (k : nat) : Prop := ∀ a b ka kb st,
  small_dnf (ar st) ka a → small_dnf (ar st) kb b → (ka + kb ≤ k)%nat → total (implies R a b) st (λ _ _, True).
Definition disjoint_total (R : Ops) (k : nat) : Prop := ∀ a b ka kb st,
  small_dnf (ar st) ka a → small_dnf (ar st) kb b → (ka + kb ≤ k)%nat → total (disjoint R a b) st (λ _ _, True).
Definition conj_total (R : Ops) : Prop := ∀ a b st,
  conjc (ar st) a → conjc (ar st) b → total (andb_ R a b) st (λ r s, conjc s r).
Definition flat_post (k : nat) (cls : list Clause) (r : list Clause) (s : Arena) : Prop :=
  bases s r ∧ (length r ≤ length cls + k)%nat.
Definition flat1_total (R : Ops) : Prop := ∀ c cls st,
  conjc (ar st) c → bases (ar st) cls → total (flat R c false cls) st (flat_post 1 cls).
Definition flat_total (R : Ops) (k : nat) : Prop := ∀ c canon cls kc st,
  small_dnf (ar st) kc c → (kc ≤ k)%nat → bases (ar st) cls → total (flat R c canon cls) st (flat_post kc cls).
(** [d] rounds are left *)
Definition or_total (R : Ops) (d k : nat) : Prop := ∀ a b ka kb st,
  small_dnf (ar st) ka a → small_dnf (ar st) kb b → (ka + kb ≤ k)%nat → (4 ≤ d + orbDepth (me st))%nat →
  total (orb_ R a b) st (λ r s, small_dnf s (ka + kb) r).
Definition and_total (R : Ops) (m k : nat) : Prop := ∀ a b ka kb st,
  small_dnf (ar st) ka a → small_dnf (ar st) kb b → (ka * kb ≤ m)%nat → (ka + kb ≤ k)%nat →
  total (andb_ R a b) st (λ r s, small_dnf s (ka * kb) r).

Lemma truec_total b st : total (lift (mkBool b)) st (λ r s, nodes s !! r = Some (mkExpr i1 (NConst 1 (if b then 1 else 0)))).
Proof.
  apply total_lift; [auto with mvcc_step|]. intros Hw. eapply spec_mono; [by apply mkBool_spec|]. by intros e s' _ _ [? _].
Qed.
Lemma const_conjc s e b : nodes s !! e = Some (mkExpr i1 (NConst 1 (if b : bool then 1 else 0))) → conjc s e.
Proof.
  intros Hn. assert (base s e) as Hb.
  { split; unfold cond, type_at, bool_op, isGuardSym, negated; rewrite Hn; done. }
  split; try apply Hb; rewrite conjuncts_lit by apply Hb; destruct (isTrue s e) eqn:E; try done; by apply Forall_singleton.
Qed.
Lemma mkOp_total op a b st : valid (ar st) a → valid (ar st) b →
  total (mkOp i1 op [a; b]) st (λ r s, nodes s !! r = Some (mkExpr i1 (NOp op [a; b]))).
Proof.
  intros Ha Hb. apply total_lift; [auto with mvcc_step|]. intros Hw.
  eapply spec_mono; [apply intern_spec; [done|]|done]. split; [|done]. cbn. by repeat constructor.
Qed.
Lemma cmp_total p a b st : cmp_typed (ar st) p a b → valid (ar st) a → valid (ar st) b → ∀ q, icmp q 1 0 0 = negb <$> icmp p 1 0 0 →
  total (lift (cmp cmp_fuel q a b)) st (λ r s, valid s r).
Proof.
  intros Hc Ha Hb q Hq. apply total_lift; [auto with mvcc_step|]. intros Hw. unfold cmp_typed in Hc.
  destruct (icmp p 1 0 0).
  - destruct Hc as (t & w & Hta & Htb & Hwd & Hw1 & _ & _ & Hfit).
    eapply spec_mono; [eapply cmp_value; try done; lia|]. cbn. intros r s _ _ [Ht _]. by eapply type_at_valid.
  - destruct Hc as [Hfa Hfb]. unfold spec. rewrite cmp_float by done.
    assert (spec (intern (mkExpr i1 (NCmp q [a; b]))) (ar st) (λ r s, valid s r)) as Hs; [|exact Hs].
    eapply spec_mono; [apply intern_spec; [done|split; [cbn; by repeat constructor|done]]|].
    cbn. intros r s _ _ Hn. by apply lookup_lt_Some in Hn.
Qed.
Lemma notb_body_total rec l st : base (ar st) l → total (notb_body rec l) st (λ r s, valid s r).
Proof.
  intros Hb. apply total_enter. intros Hi Hw Htb. unfold notb_body.
  assert (∀ b, total (lift (mkBool b)) st (λ r s, valid s r)) as Hbool.
  { intros b. eapply total_weaken; [apply truec_total|]. cbn. intros r s _ _ _ Hn. by apply lookup_lt_Some in Hn. }
  apply total_look. destruct (isTrue (ar st) l); [apply Hbool|]. apply total_look. destruct (isFalse (ar st) l); [apply Hbool|].
  apply total_look. destruct (negated (ar st) l) as [x|] eqn:En.
  { apply total_ret. intros _. by eapply (negated_valid (ar st) (ar st)). }
  pose proof (cond_valid _ _ (ba_cond _ _ Hb)) as Hv.
  apply total_cached.
  - intros _ v Hf. exact (tb_not _ _ Htb _ _ Hf).
  - pose proof (ba_cond _ _ Hb) as (x & Hn & Et)%fmap_Some. unfold notb_raw.
    assert (∀ B (f : Expr → C B) Q, total (f x) st Q → total (cbind (lift (deref l)) f) st Q) as Hd.
    { intros B f Q Hf. unfold total, cbind, lift, deref. rewrite Hn. by destruct st. }
    apply Hd. clear Hd. destruct x as [t n]. cbn [ty node] in *. symmetry in Et. subst t.
    assert (∀ op, isBoolOp op (mkExpr i1 n) = bool_op (ar st) op l) as Eb by (intros; unfold bool_op; by rewrite Hn).
    rewrite !Eb, (ba_and _ _ Hb), (ba_or _ _ Hb).
    assert (total (let! t := truec in mkOp i1 Xor [l; t]) st (λ r s, valid s r)) as Hx.
    { tcall ltac:(apply truec_total). intros t st1 Hst _ Hi1 _ Ht. later Hst.
      eapply total_weaken; [apply mkOp_total; [done|by apply lookup_lt_Some in Ht]|]. cbn. intros r s _ _ _ Hr.
      by apply lookup_lt_Some in Hr. }
    destruct n as [| | | |p args| | | | | |]; try exact Hx.
    destruct (ba_cmp _ _ Hb _ _ _ Hn) as (a & b & -> & Hc).
    eapply cmp_total; [exact Hc|(eapply child_valid; [done|exact Hn|cbn; set_solver])..|apply inverse_spec].
  - cbn. intros v st' Hst _ [Hw' [Hn Ha Ho]] Hval. split; [|done]. split; try done.
    apply map_Forall_insert_2; done.
Qed.

(** *** Implication and disjointness *)
Lemma total_guard {B} l (f : option EP → C B) st (Q : B → Arena → Prop) :
  isGuardSym (ar st) l = false → total (f None) st Q → total (cbind (guard l) f) st Q.
Proof. intros Hg Hf. unfold total, guard, cbind, look in *. by rewrite Hg. Qed.
Lemma contra_total l st : Forall (valid (ar st)) l → total (contra calleeName l) st (λ _ _, True).
Proof.
  intros Hv. apply total_lift; [auto with mvcc_step|]. intros Hw.
  eapply spec_mono; [by apply contradictory_spec|done].
Qed.
Lemma expandGuard_none {B} ls (f : option EP → C B) st (Q : B → Arena → Prop) :
  Forall (base (ar st)) ls → total (f None) st Q → total (cbind (expandGuard ls) f) st Q.
Proof.
  intros Hls Hf. assert (cfind (λ il : nat * EP, look (λ s, isGuardSym s il.2)) (imap pair ls) st = Some (None, st)) as E.
  { assert (Forall (λ il : nat * EP, isGuardSym (ar st) il.2 = false) (imap pair ls)) as Hall.
    { apply Forall_forall. intros [i l] Hin%imap_pair_elem. rewrite Forall_lookup in Hls. by apply (Hls i l). }
    induction Hall as [|[i l] il Hl Hall IH]; [done|]. cbn [cfind]. unfold cbind, look. by rewrite Hl. }
  unfold total, expandGuard, cbind in *. by rewrite E.
Qed.
Section bodies.
Context (rec : Ops) (Hnot : not_total rec).
Lemma implies_lit_total a la l st : Forall (base (ar st)) la → base (ar st) l →
  total (implies_lit calleeName semantic rec a la l) st (λ _ _, True).
Proof.
  intros Hla Hl. unfold implies_lit. apply total_look. destruct (existsb _ la); [by apply total_ret|].
  assert (∀ f (Q : bool → Arena → Prop), total (f false) st Q → total (cbind (implies_guard rec a l) f) st Q) as H1.
  { intros f Q Hf. unfold total, implies_guard, guard, cbind, look in *. by rewrite (ba_guard _ _ Hl). }
  apply H1. clear H1.
  assert (∀ f (Q : bool → Arena → Prop), total (f false) st Q → total (cbind (implies_not_guard rec a l) f) st Q) as H2.
  { intros f Q Hf. unfold total, implies_not_guard, guard, cbind, look in *.
    destruct (negated (ar st) l) as [x|] eqn:En; [|done]. by rewrite (ba_neg _ _ Hl x En). }
  apply H2. clear H2. tcall ltac:(by apply Hnot). intros nl st1 Hst Hi Hi1 _ Hnl. later Hst.
  apply contra_total. apply Forall_app. split; [by apply bases_valid|by apply Forall_singleton].
Qed.
Lemma implies_lits_total a b la lb st : Forall (base (ar st)) la → Forall (base (ar st)) lb →
  total (implies_lits calleeName semantic rec a b la lb) st (λ _ _, True).
Proof.
  revert st. induction lb as [|l lb IH]; intros st Hla Hlb; cbn [implies_lits]; [by apply total_ret|].
  apply Forall_cons in Hlb as [Hl Hlb]. tcall ltac:(by apply implies_lit_total).
  intros ok st1 Hst Hi Hi1 _ _. later Hst. destruct ok; [by apply IH|].
  apply expandGuard_none; [done|]. by apply total_ret.
Qed.
Lemma conj_bases s k c : small_dnf s k c → bool_op s Or c = None → Forall (base s) (conjuncts s c).
Proof. intros Hc E. by eapply cj_lits, small_leaf. Qed.
Lemma implies_body_total k : implies_total rec (pred k) → ∀ a b ka kb st,
  small_dnf (ar st) ka a → small_dnf (ar st) kb b → (ka + kb ≤ k)%nat →
  total (implies_body calleeName semantic rec a b) st (λ _ _, True).
Proof.
  intros Hrec a b ka kb st Ha Hb Hk. apply total_enter. intros Hi0 Hw _. unfold implies_body. apply total_look.
  destruct (_ || _); [by apply total_ret|].
  apply total_cached; [done| |cbn; intros v st' _ _ [? []] _; split; [by split|done]].
  pose proof (small_pos _ _ _ Hw Ha). pose proof (small_pos _ _ _ Hw Hb).
  unfold implies_raw. apply total_look. destruct (bool_op (ar st) Or a) as [[x y]|] eqn:Ea.
  { destruct (small_or _ _ _ _ _ Hw Ha Ea) as (kx & ky & Hxy & ? & ? & Hx & Hy).
    tcall ltac:(apply (Hrec x b kx kb); [done|done|lia]). intros i st1 Hst Hi Hi1 _ _. later Hst.
    destruct i; [|by apply total_ret]. apply (Hrec y b ky kb); [done|done|lia]. }
  apply total_look. destruct (bool_op (ar st) Or b) as [[x y]|] eqn:Eb.
  { destruct (small_or _ _ _ _ _ Hw Hb Eb) as (kx & ky & Hxy & ? & ? & Hx & Hy).
    tcall ltac:(apply (Hrec a x ka kx); [done|done|lia]). intros i st1 Hst Hi Hi1 _ _. later Hst.
    destruct i; [by apply total_ret|]. apply (Hrec a y ka ky); [done|done|lia]. }
  apply total_guard; [by eapply cj_guard, small_leaf|]. apply total_look, total_look.
  apply implies_lits_total; by eapply conj_bases.
Qed.
Lemma disjoint_body_total k : disjoint_total rec (pred k) → ∀ a b ka kb st,
  small_dnf (ar st) ka a → small_dnf (ar st) kb b → (ka + kb ≤ k)%nat →
  total (disjoint_body calleeName semantic rec a b) st (λ _ _, True).
Proof.
  intros Hrec a b ka kb st Ha Hb Hk. apply total_enter. intros Hi0 Hw _. unfold disjoint_body. apply total_look.
  destruct (_ || _); [by apply total_ret|].
  apply total_cached; [done| |cbn; intros v st' _ _ [? []] _; split; [by split|done]].
  pose proof (small_pos _ _ _ Hw Ha). pose proof (small_pos _ _ _ Hw Hb).
  unfold disjoint_raw. apply total_look. destruct (bool_op (ar st) Or a) as [[x y]|] eqn:Ea.
  { destruct (small_or _ _ _ _ _ Hw Ha Ea) as (kx & ky & Hxy & ? & ? & Hx & Hy).
    tcall ltac:(apply (Hrec x b kx kb); [done|done|lia]). intros i st1 Hst Hi Hi1 _ _. later Hst.
    destruct i; [|by apply total_ret]. apply (Hrec y b ky kb); [done|done|lia]. }
  apply total_look. destruct (bool_op (ar st) Or b) as [[x y]|] eqn:Eb.
  { destruct (small_or _ _ _ _ _ Hw Hb Eb) as (kx & ky & Hxy & ? & ? & Hx & Hy).
    tcall ltac:(apply (Hrec a x ka kx); [done|done|lia]). intros i st1 Hst Hi Hi1 _ _. later Hst.
    destruct i; [|by apply total_ret]. apply (Hrec a y ka ky); [done|done|lia]. }
  apply total_look, total_look.
  pose proof (conj_bases _ _ _ Ha Ea) as Hla. pose proof (conj_bases _ _ _ Hb Eb) as Hlb.
  set (la := conjuncts (ar st) a) in *. set (lb := conjuncts (ar st) b) in *.
  eapply total_bind; [apply (total_find _ _ _ (λ xy s, base s xy.1))|].
  - intros [x y] s s' Hst Hws Hx. apply (base_ext s); [done|by destruct Hst|by apply cond_valid, ba_cond|done].
  - apply Forall_forall. intros [x y] Hin. apply list_elem_of_bind in Hin as (x' & Hin & Hx).
    apply list_elem_of_bind in Hin as (y' & Hin & Hy). apply list_elem_of_singleton in Hin. injection Hin as -> ->.
    rewrite Forall_forall in Hla. by apply Hla.
  - intros [x y] st1 _ Hst Hx. unfold opposite. cbn [fst snd] in *. tcall ltac:(by apply Hnot).
    intros nx st2 Hst2 Hi2 _ _ _. destruct (_ =? _)%nat; [by apply total_ret|]. by apply total_look_last.
  - cbn beta. intros o st1 Hst Hi Hi1 _ _. later Hst. destruct o; [by apply total_ret|].
    tcall ltac:(apply contra_total; apply Forall_app; split; by apply bases_valid).
    intros c st2 Hst2 _ Hi2 _ _. later Hst2. destruct c; [by apply total_ret|].
    apply expandGuard_none; [done|]. apply expandGuard_none; [done|]. by apply total_ret.
Qed.

(** *** Conjunctions of literals *)
Lemma conjuncts_not_true s c : Forall (λ l, isTrue s l = false) (conjuncts s c).
Proof.
  unfold conjuncts. generalize (S c) as n. intros n. revert c. induction n as [|n IH]; intros c; cbn [conjuncts_fuel]; [constructor|].
  destruct (nodes s !! c ≫= isBoolOp And) as [[a b]|]; [by apply Forall_app|].
  destruct (isTrue s c) eqn:E; [constructor|by apply Forall_singleton].
Qed.
Lemma and_node s e a b : nodes s !! e = Some (mkExpr i1 (NOp And [a; b])) → bool_op s And e = Some (a, b) ∧
  bool_op s Or e = None ∧ isGuardSym s e = false ∧ isTrue s e = false.
Proof. intros Hn. unfold bool_op, isGuardSym, isTrue. by rewrite Hn. Qed.
Lemma and_conjc s e a b : wf s → nodes s !! e = Some (mkExpr i1 (NOp And [a; b])) →
  conjc s a → conjuncts s a ≠ [] → Forall (base s) (conjuncts s b) → conjc s e ∧ conjuncts s e ≠ [].
Proof.
  intros Hw Hn Ha Hne Hb. destruct (and_node _ _ _ _ Hn) as (E & Eo & Eg & _). pose proof (conjuncts_and _ _ _ _ Hw E) as Ec.
  assert (conjuncts s e ≠ []) as Hne' by (rewrite Ec; by intros [? _]%app_nil).
  split; [|done]. split; [unfold cond, type_at; by rewrite Hn|done|done| |by intros ?].
  rewrite Ec. apply Forall_app. split; [by apply Ha|done].
Qed.
Lemma and_chain_total l st : Forall (base (ar st)) l → Forall (λ x, isTrue (ar st) x = false) l → l ≠ [] →
  total (and_chain i1 l) st (λ r s, conjc s r).
Proof.
  intros Hb Ht Hne. destruct l as [|k l]; [done|]. clear Hne.
  apply Forall_cons in Hb as [Hk Hb]. apply Forall_cons in Ht as [Hkt Ht]. cbn [and_chain].
  assert (conjc (ar st) k ∧ conjuncts (ar st) k ≠ []) as [Hck Hne].
  { pose proof (base_conj _ _ Hk Hkt) as E. split; [|by rewrite E]. split; try apply Hk.
    - rewrite E. by apply Forall_singleton.
    - by rewrite E. }
  clear Hk Hkt Ht. revert k st Hb Hck Hne. induction l as [|x l IH]; intros k st Hb Hck Hne; cbn [cfold]; [by apply total_ret|].
  apply Forall_cons in Hb as [Hx Hb].
  apply total_enter. intros Hi Hw _. pose proof (cond_valid _ _ (cj_cond _ _ Hck)) as Hvk.
  tcall ltac:(apply mkOp_total; [done|by apply cond_valid, ba_cond]).
  intros e st1 Hst _ Hi1 _ Hn.
  assert (conjuncts (ar st1) k ≠ []) as Hne1 by (by rewrite (conjuncts_ext (ar st)) by (done || apply Hst)).
  later Hst. assert (Forall (base (ar st1)) (conjuncts (ar st1) x)) as Hbx.
  { rewrite conjuncts_lit by apply Hx. destruct (isTrue (ar st1) x); [constructor|by apply Forall_singleton]. }
  destruct (and_conjc _ _ _ _ (ti_wf _ Hi1) Hn Hck Hne1 Hbx) as [? ?]. by apply IH.
Qed.
Lemma put_and a b v st : tinv st → valid (ar st) a → valid (ar st) b →
  (dnfc (ar st) a → dnfc (ar st) b → small_dnf (ar st) (leaves (ar st) a * leaves (ar st) b) v) →
  tables_ok (ar st) (set_and (a, b) v (me st)) ∧ orbDepth (set_and (a, b) v (me st)) = orbDepth (me st).
Proof. intros [_ []] Ha Hb Hv. split; [|done]. split; try done. by apply map_Forall_insert_2. Qed.
Lemma put_or a b v st : tinv st → valid (ar st) a → valid (ar st) b →
  (dnfc (ar st) a → dnfc (ar st) b → small_dnf (ar st) (leaves (ar st) a + leaves (ar st) b) v) →
  tables_ok (ar st) (set_or (a, b) v (me st)) ∧ orbDepth (set_or (a, b) v (me st)) = orbDepth (me st).
Proof. intros [_ []] Ha Hb Hv. split; [|done]. split; try done. by apply map_Forall_insert_2. Qed.
Lemma not_or_exists s l : Forall (base s) l → existsb (is_or s) l = false.
Proof.
  intros Hl. induction Hl as [|x l Hx Hl IH]; [done|]. cbn. rewrite IH. unfold is_or. by rewrite (ba_or _ _ Hx).
Qed.
Lemma kept_nonempty s ls : wf s → Forall (base s) ls → ls ≠ [] → kept semantic s ls ≠ [].
Proof.
  intros Hw Hb Hne. destruct ls as [|x ls']; [done|]. set (ls := x :: ls') in *. intros E.
  destruct (kept_covers calleeName semantic s ls Hw) with (x := x) as (k & Hk & _).
  - eapply Forall_impl; [exact Hb|]. apply base_lit.
  - by apply bases_cond.
  - left.
  - rewrite E in Hk. by apply elem_of_nil in Hk.
Qed.
Lemma unique_nonempty l : l ≠ [] → unique (sort_ids l) ≠ [].
Proof.
  intros Hne E. destruct l as [|x l]; [done|]. assert (x ∈ unique (sort_ids (x :: l))) as Hx.
  { rewrite unique_ids_elem, sort_ids_perm. left. }
  rewrite E in Hx. by apply elem_of_nil in Hx.
Qed.
Lemma conjc_lits s c : conjc s c → isTrue s c = false → conjuncts s c ≠ [].
Proof. intros Hc Ht E. by rewrite (cj_some _ _ Hc E) in Ht. Qed.
Lemma one_dnf s c : dnfc s c → conjc s c → leaves s c = 1%nat.
Proof. intros _ Hc. unfold leaves. by rewrite or_leaves_leaf by apply Hc. Qed.
Lemma conj_body_total : implies_total rec 2 → disjoint_total rec 2 → ∀ a b st,
  conjc (ar st) a → conjc (ar st) b → total (andb_body semantic rec a b) st (λ r s, conjc s r).
Proof.
  intros Himp Hdis a b st Ha Hb. apply total_enter. intros Hi0 Hw Htb. unfold andb_body.
  apply total_look. destruct (isTrue (ar st) a) eqn:Eta; [by apply total_ret|].
  apply total_look. destruct (isTrue (ar st) b) eqn:Etb; [by apply total_ret|].
  assert (∀ st, total falsec st (λ r s, conjc s r)) as Hfalse.
  { intros st'. eapply total_weaken; [apply truec_total|]. cbn. intros r s _ _ _ Hn. by eapply (const_conjc s r false). }
  apply total_look. destruct (_ || _); [apply Hfalse|].
  destruct (a =? b)%nat; [by apply total_ret|].
  pose proof (conjc_small _ _ Ha) as Hsa. pose proof (conjc_small _ _ Hb) as Hsb.
  pose proof (cond_valid _ _ (cj_cond _ _ Ha)) as Hva. pose proof (cond_valid _ _ (cj_cond _ _ Hb)) as Hvb.
  assert (conjuncts (ar st) a ≠ []) as Hna by (by apply conjc_lits).
  apply total_cached.
  - intros _ v Hf. destruct (tb_and _ _ Htb _ _ Hf) as (_ & _ & Hr). apply small_conjc; [done|].
    destruct (Hr (proj1 Hsa) (proj1 Hsb)) as [? Hl]. split; [done|]. cbn [fst snd] in Hl.
    rewrite (one_dnf _ _ (proj1 Hsa) Ha), (one_dnf _ _ (proj1 Hsb) Hb) in *. lia.
  - unfold andb_raw. tcall ltac:(apply (Himp a b 1%nat 1%nat); [done|done|lia]). intros i st1 Hst1 Hi Hi1 _ _.
    assert (conjuncts (ar st1) a ≠ []) as Hna1 by (by rewrite (conjuncts_ext (ar st)) by (done || apply Hst1)).
    later Hst1. destruct i; [by apply total_ret|].
    tcall ltac:(apply (Himp b a 1%nat 1%nat); [done|done|lia]). intros i st2 Hst2 _ Hi2 _ _.
    assert (conjuncts (ar st2) a ≠ []) as Hna2 by (rewrite (conjuncts_ext (ar st1)); [done|apply Hi1|apply Hst2|done]).
    later Hst2. destruct i; [by apply total_ret|].
    tcall ltac:(apply (Hdis a b 1%nat 1%nat); [done|done|lia]). intros i st3 Hst3 _ Hi3 _ _.
    assert (conjuncts (ar st3) a ≠ []) as Hna3 by (rewrite (conjuncts_ext (ar st2)); [done|apply Hi2|apply Hst3|done]).
    later Hst3. destruct i; [apply Hfalse|].
    apply total_look, total_look, total_type_of; [by apply Ha|]. apply total_look.
    pose proof (cj_lits _ _ Ha) as Hla. pose proof (cj_lits _ _ Hb) as Hlb.
    set (ls := conjuncts (ar st3) a ++ conjuncts (ar st3) b).
    assert (Forall (base (ar st3)) ls) as Hls by (by apply Forall_app).
    assert (Forall (λ x, isTrue (ar st3) x = false) ls) as Hlt by (apply Forall_app; split; apply conjuncts_not_true).
    rewrite (not_or_exists _ _ Hls). cbn [negb]. apply total_look.
    assert (∀ x, x ∈ unique (sort_ids (kept semantic (ar st3) ls)) → x ∈ ls) as Hsub.
    { intros x. rewrite unique_ids_elem, sort_ids_perm. apply kept_sub. }
    rewrite Forall_forall in Hls, Hlt.
    apply and_chain_total; [apply Forall_forall; auto..|].
    apply unique_nonempty, kept_nonempty; [apply Hi3|by apply Forall_forall|]. unfold ls. by intros [? _]%app_nil.
  - cbn. intros v st' Hst Hi Hi' Hv. pose proof (valid_later _ _ Hst _ Hva). pose proof (valid_later _ _ Hst _ Hvb).
    apply put_and; [done..|]. intros Hda Hdb. pose proof (conjc_later _ _ Hi Hst _ Ha) as Ha'. pose proof (conjc_later _ _ Hi Hst _ Hb) as Hb'.
    rewrite (one_dnf _ _ Hda Ha'), (one_dnf _ _ Hdb Hb'). by apply conjc_small.
Qed.
Lemma base_conjc s l : base s l → conjc s l.
Proof.
  intros Hl. pose proof (conjuncts_lit s l (ba_and _ _ Hl)) as E.
  split; try apply Hl; rewrite E; destruct (isTrue s l); try done; by apply Forall_singleton.
Qed.
Lemma and_all_total ls st : conj_total rec → Forall (base (ar st)) ls → total (and_all rec ls) st (λ r s, conjc s r).
Proof.
  intros Hconj Hls. unfold and_all. tcall ltac:(apply truec_total). intros t st1 Hst Hi Hi1 _ Ht. later Hst.
  apply const_conjc in Ht. clear Hst Hi st. revert t st1 Hls Ht Hi1.
  induction ls as [|x ls IH]; intros t st Hls Ht Hi1; cbn [cfold]; [by apply total_ret|].
  apply Forall_cons in Hls as [Hx Hls].
  apply base_conjc in Hx.
  tcall ltac:(by apply Hconj). intros r st1 Hst Hi Hi2 _ Hr. later Hst. by apply IH.
Qed.

(** *** Clauses *)
Lemma shallow_none {B} l (f : option EP → C B) st (Q : B → Arena → Prop) :
  isGuardSym (ar st) l = false → total (f None) st Q → total (cbind (shallowGuard l) f) st Q.
Proof. intros Hg Hf. unfold total, shallowGuard, guard, cbind, look, cret in *. by rewrite Hg. Qed.
Lemma expand_shallow_none {B} ls cls (f : option (list Clause) → C B) st (Q : B → Arena → Prop) :
  Forall (base (ar st)) ls → total (f None) st Q → total (cbind (expand_shallow rec ls cls) f) st Q.
Proof.
  intros Hls Hf. assert (cfind (λ il : nat * EP, is_shallow il.2) (imap pair ls) st = Some (None, st)) as E.
  { assert (Forall (λ il : nat * EP, isGuardSym (ar st) il.2 = false) (imap pair ls)) as Hall.
    { apply Forall_forall. intros [i l] Hin%imap_pair_elem. rewrite Forall_lookup in Hls. by apply (Hls i l). }
    induction Hall as [|[i l] il Hl Hall IH]; [done|]. cbn [cfind snd] in *.
    unfold is_shallow, shallowGuard, guard, cbind, look, cret. rewrite Hl. exact IH. }
  unfold total, expand_shallow, cbind in *. destruct (length cls <? 64)%nat; [by rewrite E|done].
Qed.
Lemma flat_clause_total c cls st : conjc (ar st) c → bases (ar st) cls → total (flat_clause rec c cls) st (flat_post 1 cls).
Proof.
  intros Hc Hcls. unfold flat_clause. apply total_look. destruct (isTrue (ar st) c).
  { apply total_ret. intros _. split; [by repeat constructor|cbn; lia]. }
  apply total_look. pose proof (cj_lits _ _ Hc) as Hls. apply expand_shallow_none; [done|].
  apply total_ret. intros _. split.
  - apply Forall_app. split; [done|]. apply Forall_singleton. by rewrite sort_ids_perm.
  - rewrite length_app. cbn. lia.
Qed.
Lemma flat1_body_total c cls st : conjc (ar st) c → bases (ar st) cls →
  total (flat_body rec c false cls) st (flat_post 1 cls).
Proof.
  intros Hc Hcls. unfold flat_body. apply total_look. rewrite (cj_or _ _ Hc). apply total_look.
  destruct (isFalse (ar st) c); [apply total_ret; intros _; split; [done|lia]|]. by apply flat_clause_total.
Qed.
Lemma flat_body_total k : conj_total rec → flat1_total rec → flat_total rec (pred k) → ∀ c canon cls kc st,
  small_dnf (ar st) kc c → (kc ≤ k)%nat → bases (ar st) cls → total (flat_body rec c canon cls) st (flat_post kc cls).
Proof.
  intros Hconj Hflat1 Hflat c canon cls kc st Hc Hk Hcls. apply total_enter. intros Hi Hw _.
  pose proof (small_pos _ _ _ Hw Hc) as Hpos.
  assert (∀ r s, flat_post 1 cls r s → flat_post kc cls r s) as Hle by (intros r s [? ?]; split; [done|lia]).
  unfold flat_body. apply total_look. destruct (bool_op (ar st) Or c) as [[a b]|] eqn:E.
  { destruct (small_or _ _ _ _ _ Hw Hc E) as (ka & kb & Hab & ? & ? & Ha & Hb).
    tcall ltac:(apply (Hflat a canon cls ka); [done|lia|done]). intros cls1 st1 Hst _ Hi1 _ [Hcls1 Hl1]. later Hst.
    eapply total_weaken; [apply (Hflat b canon cls1 kb); [done|lia|done]|]. cbn. intros r s _ _ _ [? ?]. split; [done|lia]. }
  apply total_look. destruct (isFalse (ar st) c); [apply total_ret; intros _; split; [done|lia]|].
  pose proof (small_leaf _ _ _ Hc E) as Hcc.
  destruct canon; [|eapply total_weaken; [by apply flat_clause_total|auto]].
  apply total_look. pose proof (cj_lits _ _ Hcc) as Hls.
  tcall ltac:(by apply and_all_total). intros cc st1 Hst _ Hi1 _ Hcc'. later Hst.
  destruct (negb _); (eapply total_weaken; [first [by apply Hflat1|by apply flat_clause_total]|auto]).
Qed.
End bodies.

(** *** Resolution: every change shortens the clauses *)
#[local] Instance clauses_size_perm : Proper (Permutation ==> eq) clauses_size.
Proof.
  assert (∀ c l, clauses_size (c :: l) = S (length c) + clauses_size l)%nat as Hc by done.
  intros l l' Hp. induction Hp; rewrite ?Hc; lia.
Qed.
Lemma clauses_size_delete j cls c : cls !! j = Some c → clauses_size cls = (S (length c) + clauses_size (delete j cls))%nat.
Proof. intros Hj. exact (clauses_size_perm _ _ (delete_Permutation _ _ _ Hj)). Qed.
Lemma clauses_size_insert i cls c : (i < length cls)%nat →
  clauses_size (<[i := c]> cls) = (S (length c) + clauses_size (delete i cls))%nat.
Proof. intros Hi. exact (clauses_size_perm _ _ (delete_insert i cls c Hi)). Qed.
(** clauses after a change *)
Definition shorter (cls : list Clause) (r : option (list Clause)) (s : Arena) : Prop :=
  ∀ cls', r = Some cls' → bases s cls' ∧ (clauses_size cls' < clauses_size cls ∧ length cls' ≤ length cls)%nat.
Lemma shorter_delete cls j s : bases s cls → (j < length cls)%nat → shorter cls (Some (delete j cls)) s.
Proof.
  intros Hb Hj cls' [= <-]. apply lookup_lt_is_Some in Hj as [c Hc]. split; [by apply Forall_delete|].
  rewrite (clauses_size_delete j cls c Hc), (length_delete _ _ (mk_is_Some _ _ Hc)). lia.
Qed.
Lemma shorter_literal cls j k c s : bases s cls → cls !! j = Some c → (k < length c)%nat →
  shorter cls (Some (<[j := delete k c]> cls)) s.
Proof.
  intros Hb Hj Hk cls' [= <-]. pose proof Hj as Hlt%lookup_lt_Some. apply lookup_lt_is_Some in Hk as [l Hl].
  split; [apply Forall_insert; [done|]; apply Forall_delete; by eapply Forall_lookup_1|].
  rewrite clauses_size_insert, (clauses_size_delete j cls c Hj), length_insert, (length_delete _ _ (mk_is_Some _ _ Hl)) by done.
  apply lookup_lt_Some in Hl. lia.
Qed.
Lemma shorter_merge cls i j ci cj s : bases s cls → (i < j)%nat → cls !! i = Some ci → cls !! j = Some cj →
  shorter cls (Some (<[i := set_intersection ci cj]> (delete j cls))) s.
Proof.
  intros Hb Hij Hi Hj cls' [= <-]. assert (delete j cls !! i = Some ci) as Hi' by (by rewrite list_lookup_delete_lt).
  pose proof Hi' as Hlt%lookup_lt_Some. pose proof (difference_intersection ci cj) as Hp.
  pose proof (Forall_lookup_1 _ _ _ _ Hb Hi) as Hbi. split.
  - apply Forall_insert; [by apply Forall_delete|]. rewrite Hp in Hbi. by apply Forall_app in Hbi as [_ ?].
  - rewrite clauses_size_insert, (clauses_size_delete j cls cj Hj), (clauses_size_delete i _ ci Hi'), length_insert, (length_delete _ _ (mk_is_Some _ _ Hj)) by done.
    apply Permutation_length in Hp. rewrite length_app in Hp. lia.
Qed.
Section resolve.
Context (rec : Ops) (Hnot : not_total rec) (Hconj : conj_total rec) (Himp : implies_total rec 2).
Lemma covering_total x y st : base (ar st) x → base (ar st) y → total (covering semantic rec x y) st (λ _ _, True).
Proof using Hnot.
  intros Hx Hy. unfold covering. eapply total_bind with (Q1 := λ _ _, True).
  { unfold complementary. tcall ltac:(by apply Hnot). intros nx st1 _ _ _ _ _.
    destruct (_ =? _)%nat; [by apply total_ret|by apply total_look_last]. }
  cbn beta. intros c st1 Hst Hi Hi1 _ _. later Hst. destruct c; [by apply total_ret|].
  tcall ltac:(by apply Hnot). intros nx st2 Hst2 _ Hi2 _ _. later Hst2. apply total_look.
  destruct (litImplies _ _ _ _); [by apply total_ret|].
  tcall ltac:(by apply Hnot). intros ny st3 _ _ _ _ _. by apply total_look_last.
Qed.
Lemma redundant_total cl k l st : Forall (base (ar st)) cl → base (ar st) l → total (redundant rec cl k l) st (λ _ _, True).
Proof using All.
  intros Hcl Hl. unfold redundant. tcall ltac:(apply and_all_total; [done|by apply Forall_delete]).
  intros r st1 Hst Hi Hi1 _ Hr. later Hst. apply (Himp r l 1%nat 1%nat); [by apply conjc_small|by apply conjc_small, base_conjc|lia].
Qed.
Lemma droppable_total x d cl st : base (ar st) x → Forall (base (ar st)) cl →
  total (droppable semantic rec x d cl) st (λ r _, ∀ k, r = Some k → (k < length cl)%nat).
Proof using All.
  intros Hx Hcl. unfold droppable.
  eapply total_bind; [apply (total_find _ _ _ (λ kl s, base s x ∧ Forall (base s) cl ∧ base s kl.2))|].
  - intros [k l] s s' Hst Hws (H1 & H2 & H3).
    assert (∀ y, base s y → base s' y) as Hb.
    { intros y Hy. apply (base_ext s); [done|by destruct Hst|by apply cond_valid, ba_cond|done]. }
    split_and!; [by apply Hb| |by apply Hb]. eapply Forall_impl; [exact H2|done].
  - apply Forall_forall. intros [k l] Hk%imap_pair_elem. split_and!; [done..|]. by eapply (Forall_lookup_1 _ _ k).
  - intros [k l] st1 _ Hst (H1 & H2 & H3). cbn [fst snd] in *. tcall ltac:(by apply covering_total).
    intros c st2 Hst2 Hi1 Hi2 _ _. later Hst2. destruct c; [|by apply total_ret].
    destruct (existsb _ _); [by apply total_ret|by apply redundant_total].
  - cbn beta. intros o st1 _ _ _ _ Ho. apply total_ret. intros _ k Hk. destruct o as [[k' l]|]; [|done]. injection Hk as <-.
    by eapply lookup_lt_Some, imap_pair_elem, Ho.
Qed.
Lemma drop_one_total xs d cl st : Forall (base (ar st)) xs → Forall (base (ar st)) cl →
  total (drop_one semantic rec xs d cl) st (λ r _, ∀ k, r = Some k → (k < length cl)%nat).
Proof using All.
  intros Hxs Hcl. unfold drop_one. destruct xs as [|x [|? ?]]; try by apply total_ret.
  apply Forall_cons in Hxs as [Hx _]. by apply droppable_total.
Qed.
Lemma bases_difference s a b : Forall (base s) a → Forall (base s) (set_difference a b).
Proof using Type. intros Hc. rewrite (difference_intersection a b) in Hc. by apply Forall_app in Hc as [? _]. Qed.
Lemma pair_step_total cls i j st : bases (ar st) cls → (i < j < length cls)%nat →
  total (pair_step semantic rec cls i j) st (shorter cls).
Proof using All.
  intros Hb [Hij Hj]. unfold pair_step.
  destruct (proj2 (lookup_lt_is_Some cls j) Hj) as [cj Ej]. destruct (proj2 (lookup_lt_is_Some cls i)) as [ci Ei]; [lia|].
  rewrite Ei, Ej. pose proof (Forall_lookup_1 _ _ _ _ Hb Ei) as Hci. pose proof (Forall_lookup_1 _ _ _ _ Hb Ej) as Hcj.
  pose proof (bases_difference _ _ cj Hci) as Hdi. pose proof (bases_difference _ _ ci Hcj) as Hdj.
  assert (∀ st k, bases (ar st) cls → (k < length cls)%nat → total (cret (Some (delete k cls))) st (shorter cls)) as Hdel.
  { intros st' k Hb' Hk. apply total_ret. intros _. by apply shorter_delete. }
  destruct (set_difference ci cj) as [|xi di] eqn:Edi; [by apply Hdel|].
  destruct (set_difference cj ci) as [|xj dj] eqn:Edj; [by apply Hdel; [|lia]|].
  apply total_look. destruct (_ && _); [by apply Hdel|].
  apply total_look. destruct (_ && _); [apply Hdel; [done|lia]|].
  eapply total_bind with (Q1 := λ _ _, True).
  { destruct di; [destruct dj|]; try by apply total_ret. apply Forall_cons in Hdi as [? _]. apply Forall_cons in Hdj as [? _].
    by apply covering_total. }
  cbn beta. intros cov st1 Hst Hi Hi1 _ _. later Hst. destruct cov.
  { apply total_ret. intros _. by apply shorter_merge. }
  tcall ltac:(by apply drop_one_total). intros k st2 Hst2 _ Hi2 _ Hk. later Hst2. destruct k as [k|].
  { apply total_ret. intros _. apply shorter_literal; auto. }
  tcall ltac:(by apply drop_one_total). intros k st3 Hst3 _ Hi3 _ Hk'. later Hst3.
  apply total_ret. intros _. destruct k as [k|]; [|by intros ?]. apply shorter_literal; auto.
Qed.
Lemma first_change_total cls ps st : bases (ar st) cls → Forall (λ ij : nat * nat, (ij.1 < ij.2 < length cls)%nat) ps →
  total (first_change semantic rec cls ps) st (shorter cls).
Proof using All.
  intros Hb Hps. revert st Hb. induction Hps as [|[i j] ps Hij Hps IH]; intros st Hb; cbn [first_change].
  { apply total_ret. by intros _ ?. }
  tcall ltac:(by apply pair_step_total). intros r st1 Hst Hi Hi1 _ Hr. later Hst.
  destruct r as [cls'|]; [by apply total_ret|by apply IH].
Qed.
Lemma pairs_upto_bound n i j : (i, j) ∈ pairs_upto n → (i < j < n)%nat.
Proof using Type.
  unfold pairs_upto. intros (i' & Hp & Hi)%list_elem_of_bind. apply list_elem_of_bind in Hp as (j' & Hp & Hj).
  apply list_elem_of_singleton in Hp. injection Hp as -> ->. apply elem_of_seq in Hj, Hi. lia.
Qed.
(** the loop ends: its fuel, one more than the size of the clauses, is enough *)
Lemma resolve_total n cls st : bases (ar st) cls → (clauses_size cls < n)%nat →
  total (resolve semantic rec n cls) st (λ r s, bases s r ∧ (length r ≤ length cls)%nat).
Proof using All.
  revert cls st. induction n as [|n IH]; intros cls st Hb Hn; [lia|]. cbn [resolve].
  tcall ltac:(apply first_change_total; [done|]).
  { apply Forall_forall. intros [i j] Hp. by apply pairs_upto_bound. }
  intros r st1 Hst Hi Hi1 _ Hr. later Hst. destruct r as [cls'|]; [|by apply total_ret].
  destruct (Hr cls' eq_refl) as (Hb' & Hsz & Hl).
  eapply total_weaken; [apply IH; [done|lia]|]. cbn. intros r s _ _ _ [? ?]. split; [done|lia].
Qed.

(** *** Disjunctions *)
Lemma or_node s e a b k : wf s → nodes s !! e = Some (mkExpr i1 (NOp Or [a; b])) → small_dnf s k a → conjc s b →
  small_dnf s (S k) e.
Proof using Type.
  intros Hw Hn [[Ha Hal] Hk] Hb. assert (bool_op s Or e = Some (a, b)) as E by (unfold bool_op; by rewrite Hn).
  pose proof (or_leaves_or _ _ _ _ Hw E) as El. rewrite (or_leaves_leaf s b) in El by apply Hb.
  split; [split; [unfold cond, type_at; by rewrite Hn|]|unfold leaves in *]; rewrite El.
  - apply Forall_app. split; [done|]. by apply Forall_singleton.
  - rewrite length_app. cbn [length]. lia.
Qed.
Definition part_ok (s : Arena) (k : nat) (o : option EP) : Prop :=
  match o with Some e => small_dnf s k e | None => True end.
Lemma rebuild_total cls o again k st : bases (ar st) cls → part_ok (ar st) k o →
  total (rebuild_or rec i1 cls o again) st (λ r s,
    match r with inl c => conjc s c | inr (o, _) => part_ok s (k + length cls) o end).
Proof using All.
  revert o again k st. induction cls as [|cl cls IH]; intros o again k st Hb Ho; cbn [rebuild_or].
  { apply total_ret. intros _. cbn. by rewrite Nat.add_0_r. }
  apply Forall_cons in Hb as [Hcl Hb]. tcall ltac:(by apply and_all_total). intros c st1 Hst Hi Hi1 _ Hc.
  assert (part_ok (ar st1) k o) as Ho1 by (destruct o; [by apply (small_later st st1 Hi Hst)|done]). clear Ho. later Hst.
  assert (∀ r s, match r with inl c => conjc s c | inr (o, _) => part_ok s (k + length cls) o end →
    match r : EP + option EP * bool with inl c => conjc s c | inr (o, _) => part_ok s (k + length (cl :: cls)) o end) as Hle.
  { intros [c'|[[e|] ?]] s; cbn; try done. apply small_le. lia. }
  assert (∀ r s, match r with inl c => conjc s c | inr (o, _) => part_ok s (S k + length cls) o end →
    match r : EP + option EP * bool with inl c => conjc s c | inr (o, _) => part_ok s (k + length (cl :: cls)) o end) as Hle'.
  { intros [c'|[[e|] ?]] s; cbn; try done. apply small_le. lia. }
  apply total_look. destruct (isTrue (ar st1) c); [by apply total_ret|].
  apply total_look. destruct (isFalse (ar st1) c); [eapply total_weaken; [apply (IH o true k st1 Hb Ho1)|intros r s _ _ _; apply Hle]|].
  unfold lits. apply total_look. destruct o as [e|].
  - cbn [part_ok] in Ho1. pose proof (cond_valid _ _ (small_cond _ _ _ Ho1)). pose proof (cond_valid _ _ (cj_cond _ _ Hc)).
    tcall ltac:(by apply mkOp_total). intros e' st2 Hst2 _ Hi2 _ He'. later Hst2.
    eapply total_weaken; [apply (IH (Some e') _ (S k)); [done|]|intros; by apply Hle'].
    by apply (or_node _ _ e c); [apply Hi2|..].
  - eapply total_weaken; [apply (IH (Some c) _ (S k)); [done|]|intros; by apply Hle'].
    eapply small_le; [|by apply conjc_small]. lia.
Qed.
Lemma total_round {A} (m : C A) st (Q : A → Arena → Prop) :
  (∀ st1, ar st1 = ar st → orbDepth (me st1) = S (orbDepth (me st)) → total m st1 Q) →
  total (let! _ := note (set_rounds S) in let! r := m in let! _ := note (set_rounds pred) in cret r) st Q.
Proof using Type.
  intros Hm [Hw [Hn Ha Ho]]. destruct (Hm (mkC (ar st) (set_rounds S (me st))) eq_refl eq_refl) as (r & st' & E & Hst & [Hw' [Hn' Ha' Ho']] & Ed & HQ).
  { split; [done|by split]. }
  exists r, (mkC (ar st') (set_rounds pred (me st'))). unfold cbind, note. cbn. rewrite E. cbn.
  split_and!; [done|done|split; [done|by split]|cbn; by rewrite Ed|done].
Qed.
Lemma orb_raw_total d k : implies_total rec k → flat_total rec k → (d ≠ 0%nat → or_total rec (pred d) k) → ∀ a b ka kb st,
  small_dnf (ar st) ka a → small_dnf (ar st) kb b → (ka + kb ≤ k)%nat → (4 ≤ d + orbDepth (me st))%nat →
  total (orb_raw semantic rec a b) st (λ r s, small_dnf s (ka + kb) r).
Proof using All.
  intros Hi2 Hflat Hor a b ka kb st Ha Hb Hk Hd. apply total_enter. intros Hi0 Hw Htb.
  pose proof (small_pos _ _ _ Hw Ha) as Hka. pose proof (small_pos _ _ _ Hw Hb) as Hkb.
  assert (∀ s e, small_dnf s ka e → small_dnf s (ka + kb) e) as Hla by (intros s e; apply small_le; lia).
  assert (∀ s e, small_dnf s kb e → small_dnf s (ka + kb) e) as Hlb by (intros s e; apply small_le; lia).
  assert (∀ s e, conjc s e → small_dnf s (ka + kb) e) as Hlc by (intros s e He; eapply small_le; [|by apply conjc_small]; lia).
  assert (∀ b st, total (lift (mkBool b)) st (λ r s, small_dnf s (ka + kb) r)) as Hconst.
  { intros b' st'. eapply total_weaken; [apply truec_total|]. cbn. intros r s _ _ _ Hn. by eapply Hlc, const_conjc. }
  unfold orb_raw. tcall ltac:(by apply (Hi2 a b ka kb)). intros i st1 Hst1 Hi Hi1 Ed1 _. later Hst1. destruct i; [apply total_ret; auto|].
    tcall ltac:(apply (Hi2 b a kb ka); [done|done|lia]). intros i st2 Hst2 _ Hj2 Ed2 _. later Hst2. destruct i; [apply total_ret; auto|].
    tcall ltac:(apply (Hflat a true [] ka); [done|lia|constructor]). intros cls1 st3 Hst3 _ Hi3 Ed3 [Hcls1 Hl1]. later Hst3.
    tcall ltac:(apply (Hflat b true cls1 kb); [done|lia|done]). intros cls2 st4 Hst4 _ Hi4 Ed4 [Hcls2 Hl2]. later Hst4.
    destruct (existsb is_nil cls2); [apply Hconst|].
    tcall ltac:(apply resolve_total; [done|lia]). intros cls3 st5 Hst5 _ Hi5 Ed5 [Hcls3 Hl3]. later Hst5.
    apply total_type_of; [by eapply small_cond|].
    tcall ltac:(by apply (rebuild_total cls3 None false 0)). intros r st6 Hst6 _ Hi6 Ed6 Hr. later Hst6.
    destruct r as [c|[[r|] again]]; [by apply total_ret; auto| |apply Hconst].
    cbn [part_ok] in Hr. cbn [length] in Hl1. assert (small_dnf (ar st6) (ka + kb) r) as Hr' by (eapply small_le; [|exact Hr]; lia).
    apply total_recall, total_look. destruct (bool_op (ar st6) Or r) as [[x y]|] eqn:E; [|by apply total_ret].
    destruct (again && _) eqn:Eg; [|by apply total_ret]. apply andb_true_iff in Eg as [_ Hlt%Nat.ltb_lt].
    destruct (small_or _ _ _ _ _ (ti_wf _ Hi6) Hr' E) as (kx & ky & Hxy & ? & ? & Hx & Hy).
    apply total_round. intros st7 E7 Ed7. rewrite <- E7 in Hx, Hy.
    eapply total_weaken; [apply (Hor ltac:(lia) x y kx ky); [done|done|lia|lia]|]. cbn. intros r' s _ _ _. apply small_le. lia.
Qed.
Lemma orb_body_total d k : implies_total rec k → flat_total rec k → (d ≠ 0%nat → or_total rec (pred d) k) → ∀ a b ka kb st,
  small_dnf (ar st) ka a → small_dnf (ar st) kb b → (ka + kb ≤ k)%nat → (4 ≤ d + orbDepth (me st))%nat →
  total (orb_body semantic rec a b) st (λ r s, small_dnf s (ka + kb) r).
Proof using All.
  intros Hi2 Hflat Hor a b ka' kb' st Ha' Hb' Hk' Hd.
  set (ka := leaves (ar st) a). set (kb := leaves (ar st) b).
  destruct Ha' as [Hda Hla'], Hb' as [Hdb Hlb']. fold ka in Hla'. fold kb in Hlb'.
  assert (small_dnf (ar st) ka a) as Ha by done. assert (small_dnf (ar st) kb b) as Hb by done.
  eapply (total_weaken _ _ (λ r s, small_dnf s (ka + kb) r)); [|intros r s _ _ _; apply small_le; lia].
  apply total_enter. intros Hi0 Hw Htb.
  pose proof (small_pos _ _ _ Hw Ha) as Hka. pose proof (small_pos _ _ _ Hw Hb) as Hkb.
  assert (∀ b st, total (lift (mkBool b)) st (λ r s, small_dnf s (ka + kb) r)) as Hconst.
  { intros b' st'. eapply total_weaken; [apply truec_total|]. cbn beta. intros r s _ _ _ Hn.
    eapply small_le; [|by eapply conjc_small, const_conjc]. lia. }
  unfold orb_body. apply total_look. destruct (isFalse (ar st) a); [apply total_ret; intros _; eapply small_le; [|done]; lia|].
  apply total_look. destruct (isFalse (ar st) b); [apply total_ret; intros _; eapply small_le; [|done]; lia|].
  apply total_look. destruct (_ || _); [apply Hconst|].
  destruct (a =? b)%nat; [apply total_ret; intros _; eapply small_le; [|done]; lia|].
  apply total_cached.
  - intros _ v Hf. destruct (tb_or _ _ Htb _ _ Hf) as (_ & _ & Hr). by apply Hr.
  - apply (orb_raw_total d k); try done. lia.
  - intros v st' Hst Hi Hi' Hv.
    pose proof (cond_valid _ _ (small_cond _ _ _ Ha)) as Hva. pose proof (cond_valid _ _ (small_cond _ _ _ Hb)) as Hvb.
    pose proof (valid_later _ _ Hst _ Hva). pose proof (valid_later _ _ Hst _ Hvb).
    apply put_or; [done..|]. intros _ _. by rewrite !(leaves_ext (ar st) (ar st')) by (done || apply Hst).
Qed.
End resolve.

(** *** Conjunctions of disjunctions *)
Lemma or_conjuncts s e a b : bool_op s Or e = Some (a, b) → conjuncts s e = [e].
Proof.
  intros E%bool_op_node. rewrite conjuncts_lit by (unfold bool_op; by rewrite E). unfold isTrue. by rewrite E.
Qed.
Lemma or_exists s e l : is_or s e = true → e ∈ l → existsb (is_or s) l = true.
Proof. intros He Hl. apply existsb_exists. exists e. split; [by apply list_elem_of_In|done]. Qed.
Lemma is_or_some s e a b : bool_op s Or e = Some (a, b) → is_or s e = true.
Proof. intros E. unfold is_or. by rewrite E. Qed.
Section and_dnf.
Context (rec : Ops) (m k : nat).
Context (Hnot : not_total rec) (Himp2 : implies_total rec 2) (Hdis2 : disjoint_total rec 2).
Context (Himp : implies_total rec k) (Hdis : disjoint_total rec k).
Context (Hand : and_total rec m (pred k)) (Hor : or_total rec 4 m).
(** one operand is distributed over the other, which is a disjunction *)
Lemma distribute x y x' y' kx ky kx' ky' q st :
  small_dnf (ar st) kx x → small_dnf (ar st) ky y → small_dnf (ar st) kx' x' → small_dnf (ar st) ky' y' →
  (kx + ky ≤ pred k)%nat → (kx' + ky' ≤ pred k)%nat → (kx * ky + kx' * ky' ≤ q)%nat → (q ≤ m)%nat →
  total (let! u := andb_ rec x y in let! v := andb_ rec x' y' in orb_ rec u v) st (λ r s, small_dnf s q r).
Proof using Hand Hor.
  intros Hx Hy Hx' Hy' Hk Hk' Hq Hm.
  tcall ltac:(apply (Hand x y kx ky); [done|done|nia|lia]). intros u st1 Hst Hi Hi1 _ Hu. later Hst.
  tcall ltac:(apply (Hand x' y' kx' ky'); [done|done|nia|lia]). intros v st2 Hst2 _ Hi2 _ Hv. later Hst2.
  eapply total_weaken; [apply (Hor u v (kx * ky)%nat (kx' * ky')%nat); [done|done|lia|lia]|].
  intros r s _ _ _. by apply small_le.
Qed.
Lemma andb_raw_total a b ka kb st : small_dnf (ar st) ka a → small_dnf (ar st) kb b →
  (ka * kb ≤ m)%nat → (ka + kb ≤ k)%nat → is_or (ar st) a || is_or (ar st) b = true →
  total (andb_raw semantic rec a b) st (λ r s, small_dnf s (ka * kb) r).
Proof using All.
  intros Ha Hb Hm Hk Hsome. apply total_enter. intros Hi0 Hw _.
  pose proof (small_pos _ _ _ Hw Ha) as Hka. pose proof (small_pos _ _ _ Hw Hb) as Hkb.
  pose proof (cond_valid _ _ (small_cond _ _ _ Ha)) as Hva. pose proof (cond_valid _ _ (small_cond _ _ _ Hb)) as Hvb.
  assert (∀ s, step (ar st) s → is_or s a || is_or s b = true) as Hsome'.
  { intros s Hst. unfold is_or. by rewrite !(bool_op_step (ar st) s) by (done || apply Hst). }
  unfold andb_raw. tcall ltac:(by apply (Himp a b ka kb)). intros i st1 Hst1 Hi Hi1 _ _. later Hst1.
  destruct i; [apply total_ret; intros _; eapply small_le; [|done]; nia|].
  tcall ltac:(apply (Himp b a kb ka); [done|done|lia]). intros i st2 Hst2 _ Hi2 _ _. later Hst2.
  destruct i; [apply total_ret; intros _; eapply small_le; [|done]; nia|].
  tcall ltac:(by apply (Hdis a b ka kb)). intros i st3 Hst3 _ Hi3 _ _. later Hst3.
  assert (is_or (ar st3) a || is_or (ar st3) b = true) as Hs3.
  { apply Hsome'. etrans; [exact Hst1|]. by etrans. }
  destruct i.
  { eapply total_weaken; [apply truec_total|]. cbn beta. intros r s _ _ _ Hn.
    eapply small_le; [|by eapply conjc_small, (const_conjc s r false)]. nia. }
  apply total_look, total_look, total_type_of; [by eapply small_cond|]. apply total_look.
  assert (existsb (is_or (ar st3)) (conjuncts (ar st3) a ++ conjuncts (ar st3) b) = true) as ->.
  { unfold is_or in Hs3. destruct (bool_op (ar st3) Or a) as [[x y]|] eqn:Ea.
    - eapply or_exists; [by eapply is_or_some|]. rewrite (or_conjuncts _ _ _ _ Ea). left.
    - destruct (bool_op (ar st3) Or b) as [[x y]|] eqn:Eb; [|done].
      eapply or_exists; [by eapply is_or_some|]. rewrite (or_conjuncts _ _ _ _ Eb). apply elem_of_app. right. left. }
  cbn [negb]. apply total_look, total_look. unfold is_or in Hs3. pose proof (ti_wf _ Hi3) as Hw3.
  destruct (bool_op (ar st3) Or b) as [[b0 b1]|] eqn:Eb.
  { destruct (small_or _ _ _ _ _ Hw3 Hb Eb) as (k0 & k1 & Hk01 & ? & ? & H0 & H1).
    apply (distribute a b0 a b1 ka k0 ka k1); try done; nia. }
  destruct (bool_op (ar st3) Or a) as [[a0 a1]|] eqn:Ea; [|done].
  destruct (small_or _ _ _ _ _ Hw3 Ha Ea) as (k0 & k1 & Hk01 & ? & ? & H0 & H1).
  apply (distribute a0 b a1 b k0 kb k1 kb); try done; nia.
Qed.
Lemma andb_body_total a b ka kb st : small_dnf (ar st) ka a → small_dnf (ar st) kb b →
  (ka * kb ≤ m)%nat → (ka + kb ≤ k)%nat →
  total (andb_body semantic rec a b) st (λ r s, small_dnf s (ka * kb) r).
Proof using All.
  intros Ha' Hb' Hm' Hk'. apply total_enter. intros Hi0 Hw Htb.
  pose proof (small_pos _ _ _ Hw Ha') as Hka'. pose proof (small_pos _ _ _ Hw Hb') as Hkb'.
  destruct (is_or (ar st) a || is_or (ar st) b) eqn:Es.
  2: { unfold is_or in Es. destruct (bool_op (ar st) Or a) eqn:Ea; [done|]. destruct (bool_op (ar st) Or b) eqn:Eb; [done|].
       eapply total_weaken; [apply conj_body_total; [done..|by eapply small_leaf|by eapply small_leaf]|]. cbn beta.
       intros r s _ _ _ Hr. eapply small_le; [|by apply conjc_small]. nia. }
  set (la := leaves (ar st) a). set (lb := leaves (ar st) b).
  destruct Ha' as [Hda Hla'], Hb' as [Hdb Hlb']. fold la in Hla'. fold lb in Hlb'.
  assert (small_dnf (ar st) la a) as Ha by done. assert (small_dnf (ar st) lb b) as Hb by done.
  pose proof (small_pos _ _ _ Hw Ha) as Hka. pose proof (small_pos _ _ _ Hw Hb) as Hkb.
  eapply (total_weaken _ _ (λ r s, small_dnf s (la * lb)%nat r)); [|intros r s _ _ _; apply small_le; nia].
  pose proof (cond_valid _ _ (small_cond _ _ _ Ha)) as Hva. pose proof (cond_valid _ _ (small_cond _ _ _ Hb)) as Hvb.
  unfold andb_body. apply total_look. destruct (isTrue (ar st) a); [apply total_ret; intros _; eapply small_le; [|done]; nia|].
  apply total_look. destruct (isTrue (ar st) b); [apply total_ret; intros _; eapply small_le; [|done]; nia|].
  apply total_look. destruct (isFalse (ar st) a || isFalse (ar st) b).
  { eapply total_weaken; [apply truec_total|]. cbn beta. intros r s _ _ _ Hn.
    eapply small_le; [|by eapply conjc_small, (const_conjc s r false)]. nia. }
  destruct (a =? b)%nat; [apply total_ret; intros _; eapply small_le; [|done]; nia|].
  apply total_cached.
  - intros _ v Hf. destruct (tb_and _ _ Htb _ _ Hf) as (_ & _ & Hr). by apply Hr.
  - apply andb_raw_total; [done|done|nia|lia|done].
  - intros v st' Hst Hi Hi' Hv. pose proof (valid_later _ _ Hst _ Hva). pose proof (valid_later _ _ Hst _ Hvb).
    apply put_and; [done..|]. intros _ _. by rewrite !(leaves_ext (ar st) (ar st')) by (done || apply Hst).
Qed.
End and_dnf.

(** ** The knot: how much fuel is enough *)
Lemma implies_one R : implies_total R 1.
Proof.
  intros a b ka kb st Ha Hb Hk. apply total_enter. intros _ Hw _.
  pose proof (small_pos _ _ _ Hw Ha). pose proof (small_pos _ _ _ Hw Hb). lia.
Qed.
Lemma disjoint_one R : disjoint_total R 1.
Proof.
  intros a b ka kb st Ha Hb Hk. apply total_enter. intros _ Hw _.
  pose proof (small_pos _ _ _ Hw Ha). pose proof (small_pos _ _ _ Hw Hb). lia.
Qed.
Local Abbreviation ops := (ops calleeName semantic).
Lemma ops_S n : ops (S n) = opsS calleeName semantic (ops n).
Proof. done. Qed.
Lemma ops_not n : (1 ≤ n)%nat → not_total (ops n).
Proof. destruct n as [|n]; [lia|]. intros _ l st. apply notb_body_total. Qed.
Lemma ops_implies n k : (2 ≤ n)%nat → (k ≤ n)%nat → implies_total (ops n) k.
Proof.
  revert k. induction n as [|n IH]; intros k H2 Hk; [lia|]. intros a b ka kb st Ha Hb Hab.
  rewrite ops_S. cbn [implies opsS]. apply (implies_body_total (ops n) (ops_not n ltac:(lia)) k) with ka kb; [|exact Ha|exact Hb|exact Hab].
  destruct (decide (n = 1%nat)) as [->|]; [|apply IH; lia].
  intros a' b' ka' kb' st' Ha' Hb' Hab'. apply (implies_one _ a' b' ka' kb'); [done|done|lia].
Qed.
Lemma ops_disjoint n k : (2 ≤ n)%nat → (k ≤ n)%nat → disjoint_total (ops n) k.
Proof.
  revert k. induction n as [|n IH]; intros k H2 Hk; [lia|]. intros a b ka kb st Ha Hb Hab.
  rewrite ops_S. cbn [disjoint opsS]. apply (disjoint_body_total (ops n) (ops_not n ltac:(lia)) k) with ka kb; [|exact Ha|exact Hb|exact Hab].
  destruct (decide (n = 1%nat)) as [->|]; [|apply IH; lia].
  intros a' b' ka' kb' st' Ha' Hb' Hab'. apply (disjoint_one _ a' b' ka' kb'); [done|done|lia].
Qed.
Lemma ops_conj n : (3 ≤ n)%nat → conj_total (ops n).
Proof.
  destruct n as [|n]; [lia|]. intros Hn a b st. rewrite ops_S. cbn [andb_ opsS]. apply conj_body_total; [apply ops_implies; lia|apply ops_disjoint; lia].
Qed.
Lemma ops_flat1 n : (1 ≤ n)%nat → flat1_total (ops n).
Proof. destruct n as [|n]; [lia|]. intros _ c cls st. rewrite ops_S. cbn [flat opsS]. apply flat1_body_total. Qed.
Lemma ops_flat n k : (4 ≤ n)%nat → (3 + k ≤ n)%nat → flat_total (ops n) k.
Proof.
  revert k. induction n as [|n IH]; intros k H4 Hk; [lia|]. intros c canon cls kc st Hc Hkc Hcls.
  rewrite ops_S. cbn [flat opsS]. apply (flat_body_total (ops n) k); [apply ops_conj; lia|apply ops_flat1; lia| |exact Hc|exact Hkc|exact Hcls].
  destruct (decide (k ≤ 1)%nat) as [Hk1|]; [|apply IH; lia].
  intros c' canon' cls' kc' st' Hc' Hkc' Hcls'. apply total_enter. intros _ Hw _.
  pose proof (small_pos _ _ _ Hw Hc'). lia.
Qed.
Lemma ops_or n d k : (2 ≤ k)%nat → (k + d + 5 ≤ n)%nat → or_total (ops n) d k.
Proof.
  revert d. induction n as [|n IH]; intros d H2 Hk; [lia|]. intros a b ka kb st Ha Hb Hab Hd.
  rewrite ops_S. cbn [orb_ opsS]. apply (orb_body_total (ops n) (ops_not n ltac:(lia)) (ops_conj n ltac:(lia)) (ops_implies n 2 ltac:(lia) ltac:(lia)) d k);
    [apply ops_implies; lia|apply ops_flat; lia| |exact Ha|exact Hb|exact Hab|exact Hd]. intros Hd0. apply IH; lia.
Qed.
Lemma ops_and n m k : (2 ≤ m)%nat → (2 ≤ k)%nat → (m + k + 9 ≤ n)%nat → and_total (ops n) m k.
Proof.
  revert k. induction n as [|n IH]; intros k Hm H2 Hk; [lia|]. intros a b ka kb st Ha Hb Hab Hs.
  rewrite ops_S. cbn [andb_ opsS]. apply (andb_body_total (ops n) m k (ops_not n ltac:(lia)) (ops_implies n 2 ltac:(lia) ltac:(lia)) (ops_disjoint n 2 ltac:(lia) ltac:(lia))
    (ops_implies n k ltac:(lia) ltac:(lia)) (ops_disjoint n k ltac:(lia) ltac:(lia)));
    [|apply ops_or; lia|exact Ha|exact Hb|exact Hab|exact Hs].
  destruct (decide (k = 2%nat)) as [->|]; [|apply IH; lia].
  intros a' b' ka' kb' st' Ha' Hb' _ Hs'. apply total_enter. intros _ Hw _.
  pose proof (small_pos _ _ _ Hw Ha'). pose proof (small_pos _ _ _ Hw Hb'). cbn in Hs'. lia.
Qed.
End total.
