(* ===== verification/ArenaCondThm.v ===== *)
(** The theorems about path conditions (ArenaCond.v): soundness of the connectives, of the answers about
    implication and disjointness, of a condition's simplification under another and of its factoring, and
    termination on disjunctions of conjunctions of literals; with the properties on a concrete store. *)
From stdpp Require Import sorting.
From S2P Require Import Prelude Expr Arena ArenaSem ArenaCmp ArenaLits ArenaContra.
From S2P Require Import ArenaCond ArenaCondSem ArenaCondLits ArenaCondClauses ArenaCondSound ArenaCondTotal.
Open Scope Z_scope.

Section theorems.
Context `{CmpInst} (calleeName : nat → string) (semantic : bool).
Local Abbreviation ops := (ops calleeName semantic).
Local Abbreviation model := (model calleeName).
Local Abbreviation inv := (inv calleeName).

(** how deep the calls go on conditions without guard symbols *)
Lemma conditions_return n st a b (Hw : wf (ar st)) (Htb : tables_ok (ar st) (me st))
    (Ha : dnfc (ar st) a) (Hb : dnfc (ar st) b) (la := leaves (ar st) a) (lb := leaves (ar st) b)
    (Hn : (la * lb + la + lb + 10 ≤ n)%nat) :
  is_Some (implies (ops n) a b st) ∧ is_Some (disjoint (ops n) a b st) ∧
  (∃ r st', orb_ (ops n) a b st = Some (r, st') ∧ dnfc (ar st') r ∧ (leaves (ar st') r ≤ la + lb)%nat) ∧
  (∃ r st', andb_ (ops n) a b st = Some (r, st') ∧ dnfc (ar st') r ∧ (leaves (ar st') r ≤ la * lb)%nat).
Proof.
  assert (tinv st) as Hi by done.
  assert (small_dnf (ar st) la a) as Hsa by done. assert (small_dnf (ar st) lb b) as Hsb by done.
  pose proof (leaves_pos (ar st) a Hw) as Hla. pose proof (leaves_pos (ar st) b Hw) as Hlb. fold la in Hla. fold lb in Hlb.
  split_and!.
  - destruct (ops_implies calleeName semantic n (la + lb) ltac:(lia) ltac:(lia) a b la lb st Hsa Hsb ltac:(lia) Hi)
      as (r & st' & E & _). by eexists.
  - destruct (ops_disjoint calleeName semantic n (la + lb) ltac:(lia) ltac:(lia) a b la lb st Hsa Hsb ltac:(lia) Hi)
      as (r & st' & E & _). by eexists.
  - destruct (ops_or calleeName semantic n 4 (la + lb) ltac:(lia) ltac:(lia) a b la lb st Hsa Hsb ltac:(lia) ltac:(lia) Hi)
      as (r & st' & E & _ & _ & _ & Hr). by exists r, st'.
  - destruct (ops_and calleeName semantic n (la * lb + 1) (la + lb) ltac:(lia) ltac:(lia) ltac:(lia) a b la lb st Hsa Hsb
      ltac:(lia) ltac:(lia) Hi) as (r & st' & E & _ & _ & _ & Hr). by exists r, st'.
Qed.

(** [C10] The connectives of path conditions are sound, and return. Conditions without guard symbols, disjunctions of
    conjunctions of literals with well-typed comparisons: from tables of such conditions, within a depth of calls
    bounded by the numbers of clauses, [andb] and [orb] return such a condition, of no more clauses than the product
    or the sum of the operands', and [notb] of a literal returns.  Any conditions, with guard symbols or of any
    depth: whatever [notb], [andb] and [orb] return into a well-typed store - looked up, folded, simplified by
    implied literals, resolution of clauses or expansion of guards - is a condition that has, in every model of
    the store, the negation, conjunction or disjunction of the operands' truth values; and the tables stay right. *)
Theorem connectives_sound n st a b (Hi : inv st) (Ha : cond (ar st) a) (Hb : cond (ar st) b)
    (la := leaves (ar st) a) (lb := leaves (ar st) b) :
  (tables_ok (ar st) (me st) → dnfc (ar st) a → dnfc (ar st) b → (la * lb + la + lb + 10 ≤ n)%nat →
     (∃ r st', andb_ (ops n) a b st = Some (r, st') ∧ dnfc (ar st') r ∧ (leaves (ar st') r ≤ la * lb)%nat) ∧
     (∃ r st', orb_ (ops n) a b st = Some (r, st') ∧ dnfc (ar st') r ∧ (leaves (ar st') r ≤ la + lb)%nat) ∧
     (base (ar st) a → is_Some (notb (ops n) a st))) ∧
  (∀ r st', notb (ops n) a st = Some (r, st') → typed (ar st') →
     inv st' ∧ cond (ar st') r ∧ ∀ ρ, model (ar st') ρ → T (ar st') ρ r = negb (T (ar st') ρ a)) ∧
  (∀ r st', andb_ (ops n) a b st = Some (r, st') → typed (ar st') →
     inv st' ∧ cond (ar st') r ∧ ∀ ρ, model (ar st') ρ → T (ar st') ρ r = T (ar st') ρ a && T (ar st') ρ b) ∧
  (∀ r st', orb_ (ops n) a b st = Some (r, st') → typed (ar st') →
     inv st' ∧ cond (ar st') r ∧ ∀ ρ, model (ar st') ρ → T (ar st') ρ r = T (ar st') ρ a || T (ar st') ρ b).
Proof.
  pose proof (ops_sound calleeName semantic n) as Hok. pose proof (ops_steps calleeName semantic n) as Hst.
  pose proof (means_T calleeName _ _ Ha) as Hma. pose proof (means_T calleeName _ _ Hb) as Hmb.
  assert (∀ st' e ρ, step (ar st) (ar st') → inv st' → cond (ar st) e → T (ar st') ρ e = T (ar st) ρ e) as HT.
  { intros st' e ρ Hs Hi' Hc. apply T_step; [by destruct Hi|by destruct Hi'|done|by apply cond_valid]. }
  split.
  { intros Htb Hda Hdb Hn. pose proof (in_wf _ _ Hi) as Hw. split_and!; [by apply conditions_return..|].
    intros Hl. destruct (ops_not calleeName semantic n ltac:(lia) a st Hl) as (r & st' & E & _); [by split|by eexists]. }
  split_and!; intros r st' E Ht; [pose proof (os_not _ Hst _ _ _ _ E) as Hs|pose proof (os_and _ Hst _ _ _ _ _ E) as Hs|
    pose proof (os_or _ Hst _ _ _ _ _ E) as Hs].
  - destruct (ok_notb _ _ Hok _ _ _ Hma Hi _ _ E Ht) as (Hi' & Hc & Hv). split_and!; [done..|].
    intros ρ Hm. rewrite Hv, (HT st' a) by done. done.
  - destruct (ok_andb _ _ Hok _ _ _ _ _ Hma Hmb Hi _ _ E Ht) as (Hi' & Hc & Hv). split_and!; [done..|].
    intros ρ Hm. rewrite Hv, (HT st' a), (HT st' b) by done. done.
  - destruct (ok_orb _ _ Hok _ _ _ _ _ Hma Hmb Hi _ _ E Ht) as (Hi' & Hc & Hv). split_and!; [done..|].
    intros ρ Hm. rewrite Hv, (HT st' a), (HT st' b) by done. done.
Qed.

(** [C11] What is said about path conditions is true: when [implies] answers yes, the second condition holds in
    every model in which the first does; when [disjoint] does, no model has both - whether the answer comes
    from the tables, the literals, a contradiction or a nested expansion of guards. A question cut off by the
    limit on guard expansion is answered no. *)
Theorem answers_sound n st a b (Hi : inv st) (Ha : cond (ar st) a) (Hb : cond (ar st) b) :
  (∀ st', implies (ops n) a b st = Some (true, st') → typed (ar st') →
     inv st' ∧ ∀ ρ, model (ar st') ρ → T (ar st') ρ a = true → T (ar st') ρ b = true) ∧
  (∀ st', disjoint (ops n) a b st = Some (true, st') → typed (ar st') →
     inv st' ∧ ∀ ρ, model (ar st') ρ → T (ar st') ρ a && T (ar st') ρ b = false).
Proof.
  pose proof (ops_sound calleeName semantic n) as Hok. pose proof (ops_steps calleeName semantic n) as Hst.
  pose proof (means_T calleeName _ _ Ha) as Hma. pose proof (means_T calleeName _ _ Hb) as Hmb.
  assert (∀ st' e ρ, step (ar st) (ar st') → inv st' → cond (ar st) e → T (ar st') ρ e = T (ar st) ρ e) as HT.
  { intros st' e ρ Hs Hi' Hc. apply T_step; [by destruct Hi|by destruct Hi'|done|by apply cond_valid]. }
  split; intros st' E Ht; [pose proof (os_implies _ Hst _ _ _ _ _ E) as Hs|pose proof (os_disjoint _ Hst _ _ _ _ _ E) as Hs].
  - destruct (ok_implies _ _ Hok _ _ _ _ _ Hma Hmb Hi _ _ E Ht) as [Hi' Hv]. split; [done|].
    intros ρ Hm. rewrite (HT st' a), (HT st' b) by done. by apply Hv.
  - destruct (ok_disjoint _ _ Hok _ _ _ _ _ Hma Hmb Hi _ _ E Ht) as [Hi' Hv]. split; [done|].
    intros ρ Hm. rewrite (HT st' a), (HT st' b) by done. by apply Hv.
Qed.

(** Rewriting a condition keeps its meaning: [factor], which may introduce a guard symbol for a disjunction,
    returns a condition equal to its operand in every model of the store it leaves; [given] returns one that
    agrees with its operand wherever the context holds. *)
Theorem rewriting_sound n st c ctx (Hi : inv st) (Ht0 : typed (ar st)) (Hc : cond (ar st) c) (Hx : cond (ar st) ctx) :
  (∀ r st', factor (ops n) c st = Some (r, st') → typed (ar st') →
     inv st' ∧ cond (ar st') r ∧ ∀ ρ, model (ar st') ρ → T (ar st') ρ r = T (ar st) ρ c) ∧
  (∀ r st', given (ops n) c ctx st = Some (r, st') → typed (ar st') →
     inv st' ∧ cond (ar st') r ∧ ∀ ρ, model (ar st') ρ → T (ar st) ρ ctx = true → T (ar st') ρ r = T (ar st) ρ c).
Proof.
  pose proof (ops_sound calleeName semantic n) as Hok.
  pose proof (means_T calleeName _ _ Hc) as Hmc. pose proof (means_T calleeName _ _ Hx) as Hmx.
  split; intros r st' E Ht.
  - by destruct (factor_sound calleeName (ops n) Hok c _ st Ht0 Hmc Hi r st' E Ht) as (Hi' & Hcr & Hv).
  - destruct (ok_given_ _ _ Hok _ _ _ _ _ Hmc Hmx Hi _ _ E Ht) as (Hi' & v & [Hcr Hv] & Hh).
    split_and!; [done..|]. intros ρ Hm Hctx. rewrite Hv by done. by apply Hh.
Qed.

(** The operations on path conditions end: on disjunctions of conjunctions of literals that are no guard
    symbols, with well-typed comparisons, [implies], [disjoint], [orb] and [andb] return within a depth of calls
    bounded by the number of clauses of the operands, from any store and tables of such conditions; and what
    [orb] and [andb] return is again such a disjunction, of no more clauses than the operands' sum or product. *)
Theorem conditions_end n st a b (Hw : wf (ar st)) (Htb : tables_ok (ar st) (me st))
    (Ha : dnfc (ar st) a) (Hb : dnfc (ar st) b) (la := leaves (ar st) a) (lb := leaves (ar st) b)
    (Hn : (la * lb + la + lb + 10 ≤ n)%nat) :
  is_Some (implies (ops n) a b st) ∧ is_Some (disjoint (ops n) a b st) ∧
  (∃ r st', orb_ (ops n) a b st = Some (r, st') ∧ dnfc (ar st') r ∧ (leaves (ar st') r ≤ la + lb)%nat) ∧
  (∃ r st', andb_ (ops n) a b st = Some (r, st') ∧ dnfc (ar st') r ∧ (leaves (ar st') r ≤ la * lb)%nat).
Proof. by apply conditions_return. Qed.
End theorems.

(** ** The assumptions, as checks *)
Definition condb (s : Arena) (e : EP) : bool := bool_decide (type_at s e = Some i1).
Definition float_operandb (s : Arena) (a : EP) : bool :=
  match nodes s !! a with
  | Some x => negb (isIntegerTy (ty x)) && negb (isPointerTy (ty x)) && negb (is_poly_node (node x))
  | None => false
  end.
Definition int_operandsb (s : Arena) (a b : EP) : bool :=
  match type_at s a, type_at s b with
  | Some t, Some t' =>
      bool_decide (t = t') &&
      match width t with
      | Some w =>
          (1 <? w) && (w <=? 64) && (- 2 ^ 63 <=? const_part s a) && (const_part s a <? 2 ^ 63) &&
          (- 2 ^ 63 <=? const_part s b) && (const_part s b <? 2 ^ 63) && (wrapw w (const_part s b) =? const_part s b)
      | None => false
      end
  | _, _ => false
  end.
Definition cmp_typedb (s : Arena) (p : Pred) (a b : EP) : bool :=
  match icmp p 1 0 0 with
  | Some _ => int_operandsb s a b
  | None => float_operandb s a && float_operandb s b
  end.
Definition node_typedb (s : Arena) (x : Expr) : bool :=
  match node x with
  | NCmp p [a; b] => cmp_typedb s p a b
  | NCmp _ _ => false
  | NOp (And | Or | Xor) [a; b] => negb (isInt1 (ty x)) || condb s a && condb s b
  | _ => true
  end.
Lemma float_operandb_ok s a : float_operandb s a = true → float_operand s a.
Proof.
  unfold float_operandb. destruct (nodes s !! a) as [x|] eqn:E; [|done]. intros [[?%negb_true_iff ?%negb_true_iff]%andb_true_iff ?%negb_true_iff]%andb_true_iff.
  by exists x.
Qed.
Lemma int_operandsb_ok s a b : int_operandsb s a b = true → int_operands s a b.
Proof.
  unfold int_operandsb. destruct (type_at s a) as [t|] eqn:Ea; [|done]. destruct (type_at s b) as [t'|] eqn:Eb; [|done].
  intros [<-%bool_decide_eq_true Hw]%andb_true_iff. destruct (width t) as [w|] eqn:Ew; [|done].
  rewrite !andb_true_iff, !Z.ltb_lt, !Z.leb_le, Z.eqb_eq in Hw. exists t, w. unfold fits. rewrite Ea, Eb. tauto.
Qed.
Lemma cmp_typedb_ok s p a b : cmp_typedb s p a b = true → cmp_typed s p a b.
Proof.
  unfold cmp_typedb, cmp_typed. destruct (icmp p 1 0 0); [apply int_operandsb_ok|].
  intros [??]%andb_true_iff. by split; apply float_operandb_ok.
Qed.
Lemma typed_check s : forallb (node_typedb s) (nodes s) = true → typed s.
Proof.
  intros Hall. rewrite forallb_forall in Hall.
  assert (∀ e x, nodes s !! e = Some x → node_typedb s x = true) as Hn.
  { intros e x He. apply Hall, list_elem_of_In. by eapply list_elem_of_lookup_2. }
  split.
  - intros e t p l He _. specialize (Hn e _ He). unfold node_typedb in Hn. cbn [node] in Hn.
    destruct l as [|a [|b [|]]]; try done. exists a, b. split; [done|]. by apply cmp_typedb_ok.
  - intros e op a b He Hop _ _. specialize (Hn e _ He). unfold node_typedb in Hn. cbn [node ty] in Hn.
    assert (negb (isInt1 i1) || condb s a && condb s b = true) as Hab.
    { repeat (apply elem_of_cons in Hop as [->|Hop]; [exact Hn|]). by apply elem_of_nil in Hop. }
    apply andb_true_iff in Hab as [?%bool_decide_eq_true ?%bool_decide_eq_true]. by split.
Qed.
Definition baseb (s : Arena) (l : EP) : bool :=
  condb s l && bool_decide (bool_op s And l = None) && bool_decide (bool_op s Or l = None) && negb (isGuardSym s l) &&
  match negated s l with Some x => negb (isGuardSym s x) | None => true end &&
  match nodes s !! l with Some x => node_typedb s x | None => true end.
Lemma baseb_ok s l : baseb s l = true → base s l.
Proof.
  unfold baseb. rewrite !andb_true_iff.
  intros [[[[[Hc%bool_decide_eq_true Ha%bool_decide_eq_true] Ho%bool_decide_eq_true] Hg%negb_true_iff] Hn] Ht]. split; try done.
  - intros x E. rewrite E in Hn. by apply negb_true_iff.
  - intros t p args E. rewrite E in Ht. unfold node_typedb in Ht. cbn [node] in Ht.
    destruct args as [|a [|b [|]]]; try done. exists a, b. split; [done|]. by apply cmp_typedb_ok.
Qed.
Definition conjcb (s : Arena) (c : EP) : bool :=
  condb s c && bool_decide (bool_op s Or c = None) && negb (isGuardSym s c) && forallb (baseb s) (conjuncts s c) &&
  (negb (is_nil (conjuncts s c)) || isTrue s c).
Lemma conjcb_ok s c : conjcb s c = true → conjc s c.
Proof.
  unfold conjcb. rewrite !andb_true_iff. intros [[[[Hc%bool_decide_eq_true Ho%bool_decide_eq_true] Hg%negb_true_iff] Hl] Hs]. split; try done.
  - eapply forallb_Forall'; [|exact Hl]. apply baseb_ok.
  - intros E. rewrite E in Hs. done.
Qed.
Definition dnfcb (s : Arena) (c : EP) : bool := condb s c && forallb (conjcb s) (or_leaves s c).
Lemma dnfcb_ok s c : dnfcb s c = true → dnfc s c.
Proof.
  unfold dnfcb. intros [Hc%bool_decide_eq_true Hl]%andb_true_iff. split; [done|].
  eapply forallb_Forall'; [|exact Hl]. apply conjcb_ok.
Qed.
Lemma inv_check calleeName s : wf s → forallb (λ sy, negb (bool_decide (sy_kind sy = Guard)) ||
    match guardDefs s !! Z.to_nat (sy_field sy) with Some d => condb s d | None => false end) (symbols s) = true →
  inv calleeName (mkC s memo0).
Proof.
  intros Hw Hg. split; [done| |split; apply map_Forall_empty]. cbn. intros i sy Hi Hk. rewrite forallb_forall in Hg.
  specialize (Hg sy). rewrite bool_decide_true in Hg by done. cbn in Hg.
  destruct (guardDefs s !! Z.to_nat (sy_field sy)) as [d|]; [exists d; split; [done|]|];
    (lapply Hg; [intros E|apply list_elem_of_In; by eapply list_elem_of_lookup_2]); [by apply bool_decide_eq_true in E|done].
Qed.

(** a store without clamps and divisions, in a valuation with its literals in range and its guards defined *)
Definition in_rangeb (w v : Z) : bool := (- 2 ^ (w - 1) <=? v) && (v <? 2 ^ (w - 1)).
Definition node_modelb (s : Arena) (ρ : Env) (e : EP) : bool :=
  match literal s e with
  | Some (p, a, b) =>
      match icmp p 1 0 0, type_at s a ≫= width with
      | Some _, Some w => in_rangeb w (den s ρ a) && in_rangeb w (den s ρ b)
      | _, _ => true
      end
  | None => true
  end &&
  (negb (isGuardSym s e) || match guard_def s e with Some d => eqb (T s ρ e) (T s ρ d) | None => true end).
Lemma model_check calleeName s ρ : typed s → float_law ρ → sem_ok calleeName ρ →
  forallb (node_modelb s ρ) (seq 0 (length (nodes s))) = true →
  forallb (λ e, bool_decide (clamp_of calleeName s e = None) && bool_decide (sdiv_of s e = None)) (seq 0 (length (nodes s))) = true →
  model calleeName s ρ.
Proof.
  intros Ht Hf Hsem Hn Hc. rewrite forallb_forall in Hn, Hc.
  assert (∀ e, is_Some (nodes s !! e) → In e (seq 0 (length (nodes s)))) as Hin.
  { intros e [x He]. apply list_elem_of_In, elem_of_seq. apply lookup_lt_Some in He. lia. }
  split; [done| | |split; [done|split]|done].
  - intros e p a b t w El Hp Hta Hw. pose proof (literal_node _ _ _ _ _ El) as [t' He].
    specialize (Hn e (Hin e (mk_is_Some _ _ He))). unfold node_modelb in Hn. rewrite El, Hta in Hn. cbn -[icmp den] in Hn.
    rewrite Hw in Hn. destruct (icmp p 1 0 0); [|done]. unfold in_rangeb, in_range in *.
    rewrite !andb_true_iff, !Z.leb_le, !Z.ltb_lt in Hn. tauto.
  - intros e d Hg Hd. assert (is_Some (nodes s !! e)) as He.
    { unfold isGuardSym in Hg. destruct (nodes s !! e); [by eexists|done]. }
    specialize (Hn e (Hin e He)). unfold node_modelb in Hn. rewrite Hg, Hd in Hn.
    apply andb_true_iff in Hn as [_ Hn]. cbn [negb orb] in Hn. by apply eqb_prop.
  - intros e b x y E. assert (is_Some (nodes s !! e)) as He.
    { unfold clamp_of in E. destruct (nodes s !! e); [by eexists|done]. }
    specialize (Hc e (Hin e He)). rewrite E in Hc. by apply andb_true_iff in Hc as [?%bool_decide_eq_true _].
  - intros e x k E. assert (is_Some (nodes s !! e)) as He.
    { unfold sdiv_of in E. destruct (nodes s !! e); [by eexists|done]. }
    specialize (Hc e (Hin e He)). rewrite E in Hc. by apply andb_true_iff in Hc as [_ ?%bool_decide_eq_true].
Qed.

(** ** On a concrete store: the conditions [x < 10], [x > 1], [x < 2] and [x > 20] on an index [x] *)
Definition sample_conds : C (EP * EP * EP * EP) :=
  let! x := lift (mkSym (mkSymbol Arg 1 "x" 0 0 i32)) in
  let lt c := let! k := lift (mkInt i32 c) in lift (cmp cmp_fuel ICMP_SLT x k) in
  let gt c := let! k := lift (mkInt i32 c) in lift (cmp cmp_fuel ICMP_SGT x k) in
  let! a := lt 10 in let! b := gt 1 in let! c := lt 2 in let! d := gt 20 in
  cret (a, b, c, d).
Definition no_name : nat → string := λ _, ""%string.
Abbreviation sample_ops := (ops no_name true 20).
(** the sample, and the disjunction of [x < 2] and [x > 20] behind a guard *)
Definition sample : option (EP * EP * EP * EP * EP * EP * Arena) :=
  match (let! s := sample_conds in
         let '(a, b, c, d) := s in
         let! u := orb_ sample_ops c d in
         let! g := factor sample_ops u in
         cret (a, b, c, d, u, g)) (mkC arena0 memo0) with
  | Some (r, st) => Some (r, ar st)
  | None => None
  end.
Definition sample_store : Arena := match sample with Some (_, s) => s | None => arena0 end.
Definition start : CSt := mkC sample_store memo0.
Abbreviation x_lt_10 := 7%nat.
Abbreviation x_gt_1 := 11%nat.
Abbreviation x_lt_2 := 15%nat.
Abbreviation x_gt_20 := 19%nat.
Abbreviation x_out := 24%nat.
Abbreviation x_guard := 25%nat.
Abbreviation new_guard := 26%nat.
(** the index is [v], the truth value of a guard follows; of the comparisons of floats, the ordered ones hold *)
Definition ordered (p : Pred) : bool :=
  bool_decide (p ∈ [FCMP_OEQ; FCMP_ONE; FCMP_OGT; FCMP_OLT; FCMP_OGE; FCMP_OLE; FCMP_ORD; FCMP_TRUE]).
Definition sample_env (v : Z) : Env :=
  mkEnv (λ i, if (1 <=? i)%nat then bval ((v <? 2) || (20 <? v)) else v)
    (λ _ n vs, match n, vs with
               | NOp SDiv _, [x; y] => Z.quot x y
               | NCmp p _, _ => bval (ordered p)
               | _, _ => 0
               end).
Lemma sample_law v : float_law (sample_env v).
Proof. intros p a b va vb Hp. cbn [sample_env env_opq]. rewrite !truth_bval. by destruct p. Qed.
Lemma sample_sem v : sem_ok no_name (sample_env v).
Proof. by split. Qed.
Lemma sample_typed : typed sample_store.
Proof. apply typed_check. vm_compute. reflexivity. Qed.
Lemma sample_wf : wf sample_store.
Proof. check_wf. Qed.
Lemma start_inv : inv no_name start.
Proof. apply inv_check; [exact sample_wf|vm_compute; reflexivity]. Qed.
(** a store that is reached, and a valuation that is a model of it *)
Ltac reached :=
  match goal with
  | |- typed ?s => apply typed_check; vm_compute; reflexivity
  | |- model no_name _ (sample_env ?v) =>
      apply (model_check no_name); [apply typed_check; vm_compute; reflexivity|apply sample_law|apply sample_sem|vm_compute; reflexivity..]
  end.
Definition result {A} (m : C A) : option A := fst <$> m start.
Definition reach {A} (m : C A) : CSt := match m start with Some (_, st) => st | None => start end.
Lemma reach_eq {A} (m : C A) r : result m = Some r → m start = Some (r, reach m).
Proof. unfold result, reach. destruct (m start) as [[x st]|]; [|done]. by intros [= ->]. Qed.

(** [x < 10] and ([x < 2] or [x > 20]), conditions without guard symbols, is [x < 2]; and the model [x = 1] has it *)
Lemma connectives_sound_witness :
  let m := andb_ sample_ops x_lt_10 x_out in
  is_Some (m start) ∧ is_Some (notb sample_ops x_lt_10 start) ∧ result m = Some x_lt_2 ∧ model no_name (ar (reach m)) (sample_env 1) ∧
  T (ar (reach m)) (sample_env 1) x_lt_2
    = T (ar (reach m)) (sample_env 1) x_lt_10 && T (ar (reach m)) (sample_env 1) x_out.
Proof.
  cbn zeta. destruct (connectives_sound no_name true 20 start x_lt_10 x_out start_inv eq_refl eq_refl) as (Hret & _ & Hand & _).
  destruct Hret as ((r & st' & E & _) & _ & Hnot).
  - split; apply map_Forall_empty.
  - apply dnfcb_ok. vm_compute. reflexivity.
  - apply dnfcb_ok. vm_compute. reflexivity.
  - apply (Nat.leb_le _ 20). vm_compute. reflexivity.
  - split; [by eexists|]. split; [apply Hnot, baseb_ok; vm_compute; reflexivity|].
    split; [vm_compute; reflexivity|].
    assert (model no_name (ar (reach (andb_ sample_ops x_lt_10 x_out))) (sample_env 1)) as Hm by reached. split; [exact Hm|].
    destruct (Hand x_lt_2 (reach (andb_ sample_ops x_lt_10 x_out))) as (_ & _ & HT).
    + refine (reach_eq _ _ _). vm_compute. reflexivity.
    + reached.
    + apply HT, Hm.
Defined.
(** [x < 2] implies the guard, and [x > 20] excludes [x < 10] *)
Lemma answers_sound_witness :
  result (implies sample_ops x_lt_2 x_guard) = Some true ∧
  T (ar (reach (implies sample_ops x_lt_2 x_guard))) (sample_env 1) x_guard = true ∧
  result (disjoint sample_ops x_gt_20 x_lt_10) = Some true ∧
  T (ar (reach (disjoint sample_ops x_gt_20 x_lt_10))) (sample_env 1) x_gt_20 &&
    T (ar (reach (disjoint sample_ops x_gt_20 x_lt_10))) (sample_env 1) x_lt_10 = false.
Proof.
  destruct (answers_sound no_name true 20 start x_lt_2 x_guard start_inv eq_refl eq_refl) as [Himp _].
  destruct (answers_sound no_name true 20 start x_gt_20 x_lt_10 start_inv eq_refl eq_refl) as [_ Hdis].
  split; [vm_compute; reflexivity|]. split; [|split; [vm_compute; reflexivity|]].
  - destruct (Himp (reach (implies sample_ops x_lt_2 x_guard))) as [_ HT].
    + refine (reach_eq _ _ _). vm_compute. reflexivity.
    + reached.
    + apply HT; [reached|]. vm_compute. reflexivity.
  - destruct (Hdis (reach (disjoint sample_ops x_gt_20 x_lt_10))) as [_ HT].
    + refine (reach_eq _ _ _). vm_compute. reflexivity.
    + reached.
    + apply HT. reached.
Defined.
(** with empty tables the disjunction gets a new guard; where [x < 10] it is [x < 2] *)
Lemma rewriting_sound_witness :
  result (factor sample_ops x_out) = Some new_guard ∧
  T (ar (reach (factor sample_ops x_out))) (sample_env 1) new_guard = T (ar start) (sample_env 1) x_out ∧
  result (given sample_ops x_out x_lt_10) = Some x_lt_2 ∧
  T (ar (reach (given sample_ops x_out x_lt_10))) (sample_env 1) x_lt_2 = T (ar start) (sample_env 1) x_out.
Proof.
  assert (typed (ar start)) as Ht by reached.
  destruct (rewriting_sound no_name true 20 start x_out x_lt_10 start_inv Ht eq_refl eq_refl) as [Hf Hg].
  split; [vm_compute; reflexivity|]. split; [|split; [vm_compute; reflexivity|]].
  - destruct (Hf new_guard (reach (factor sample_ops x_out))) as (_ & _ & HT).
    + refine (reach_eq _ _ _). vm_compute. reflexivity.
    + reached.
    + apply HT. reached.
  - destruct (Hg x_lt_2 (reach (given sample_ops x_out x_lt_10))) as (_ & _ & HT).
    + refine (reach_eq _ _ _). vm_compute. reflexivity.
    + reached.
    + apply HT; [reached|]. vm_compute. reflexivity.
Defined.
Lemma conditions_end_witness :
  is_Some (implies (ops no_name true 15) x_out x_lt_10 start) ∧
  is_Some (andb_ (ops no_name true 15) x_out x_lt_10 start) ∧
  leaves (ar start) x_out = 2%nat.
Proof.
  destruct (conditions_end no_name true 15 start x_out x_lt_10 sample_wf) as (H1 & _ & _ & r & st' & E & _).
  - split; apply map_Forall_empty.
  - apply dnfcb_ok. vm_compute. reflexivity.
  - apply dnfcb_ok. vm_compute. reflexivity.
  - apply (Nat.leb_le _ 15). vm_compute. reflexivity.
  - split; [exact H1|]. split; [by eexists|]. vm_compute. reflexivity.
Defined.
