(* ===== verification/ArenaValue.v ===== *)
(** Values of the symbolic executor (cpp/mvcc-llvm/symexec.cpp: [unop], [binop], [cast], [ite], [load], [call],
    [callAsm], [concat], [bytes], [toBytes], [fromBytes], [unwrap]): the constructors an instruction's result is
    made with, and a value as its bytes, which is how memory holds it.

    Arithmetic of booleans and selections between them use the path conditions of ArenaCond, so they are bodies
    over a record of those; [bytes], [toBytes] and [fromBytes] call each other and are tied by a fuel, with the
    tables [bytesMemo] and [byteMemo] in the state.  What LLVM computes on floating-point bits and how large a
    type is in memory is a class. *)
From S2P Require Import Prelude Expr Arena ArenaSem ArenaCmp ArenaLits ArenaContra ArenaCond.
Open Scope Z_scope.

(** ** What LLVM provides *)
Class DataModel := {
  sizeOf : Ty → Z;                          (* DataLayout::getTypeStoreSize *)
  fltBits : nat → Z;                        (* the bits of a floating type *)
  fltNeg : nat → Z → Z;                     (* APFloat::changeSign, on bit patterns *)
  fltBin : Opcode → nat → Z → Z → Z;        (* APFloat::add, subtract, multiply *)
  fltConvert : nat → nat → Z → Z }.         (* APFloat::convert *)

Definition node_at (s : Arena) (e : EP) : option Node := node <$> nodes s !! e.
Definition is_undef (s : Arena) (e : EP) : bool := match node_at s e with Some NUndef => true | _ => false end.
Definition is_concat (s : Arena) (e : EP) : bool := match node_at s e with Some (NConcat _) => true | _ => false end.
(** [Type::getIntNTy(C, 8 * n)] *)
Definition bytesTy (n : Z) : Ty := TInt (8 * n).
(** [APInt::getSExtValue]: the value must fit *)
Definition getSExt (w c : Z) : M Z :=
  let v := sext w c in if (- 2 ^ 63 <=? v) && (v <? 2 ^ 63) then ret v else stuck.
(** the atom of [1*atom] when it has the polynomial's type *)
Definition unwrap (s : Arena) (e : EP) : EP :=
  match nodes s !! e with
  | Some (mkExpr t (NPoly [([a], 1)])) =>
      match atoms s !! a with
      | Some x => if bool_decide (type_at s x = Some t) then x else e
      | None => e
      end
  | _ => e
  end.

(** ** Integer arithmetic *)
Inductive Folded := FoldInt (r : Z) | FoldUndef | FoldNot.
(** two constants, as [w]-bit integers *)
Definition fold_int (op : Opcode) (w ca cb : Z) : Folded :=
  let x := ca mod 2 ^ w in
  let y := cb mod 2 ^ w in
  let sx := sext w ca in
  let sy := sext w cb in
  match op with
  | Add => FoldInt (x + y)
  | Sub => FoldInt (x - y)
  | Mul => FoldInt (x * y)
  | And => FoldInt (Z.land x y)
  | Or => FoldInt (Z.lor x y)
  | Xor => FoldInt (Z.lxor x y)
  | Shl => FoldInt (if w <=? y then 0 else Z.shiftl x y)
  | LShr => FoldInt (if w <=? y then 0 else Z.shiftr x y)
  | AShr => FoldInt (if w <=? y then Z.shiftr sx (w - 1) else Z.shiftr sx y)
  | UDiv => if y =? 0 then FoldUndef else FoldInt (x / y)
  | SDiv => if y =? 0 then FoldUndef else FoldInt (Z.quot sx sy)
  | URem => if y =? 0 then FoldUndef else FoldInt (x mod y)
  | SRem => if y =? 0 then FoldUndef else FoldInt (Z.rem sx sy)
  | _ => FoldNot
  end.
Definition binop_opaque (opc : Opcode) (a b : EP) (t : Ty) : M EP :=
  do pa <- asPoly a; do pb <- asPoly b;
  do e <- intern (mkExpr t (NOp opc [pa; pb]));
  asPoly e.
(** [cb]: the second operand, when it is a constant *)
Definition binop_sym (opc : Opcode) (a b : EP) (t : Ty) (cb : option Z) : M EP :=
  match opc, cb with
  | Add, _ => add a b
  | Sub, _ => sub a b
  | Mul, _ => mul a b
  | Shl, Some c =>
      if (0 <=? c) && (c <? 63) then do k <- mkInt t (Z.shiftl 1 c); mul a k else binop_opaque opc a b t
  | And, Some c =>
      if c =? -1 then asPoly a else if c =? 0 then mkInt t 0 else binop_opaque opc a b t
  | UDiv, Some c | SDiv, Some c => if c =? 1 then asPoly a else binop_opaque opc a b t
  | URem, Some c | SRem, Some c =>
      if (c =? 1) || (c =? -1) then mkInt t 0 else binop_opaque opc a b t
  | _, _ => binop_opaque opc a b t
  end.
Definition binop_int (opc : Opcode) (a b : EP) (t : Ty) : M EP :=
  do ka <- gets (λ s, constInt s a);
  do kb <- gets (λ s, constInt s b);
  match ka, kb with
  | Some ca, Some cb =>
      match t with
      | TInt w =>
          match fold_int opc w ca cb with
          | FoldInt r => do v <- getSExt w r; mkInt t v
          | FoldUndef => mkUndef t
          | FoldNot => binop_opaque opc a b t
          end
      | _ => stuck
      end
  | _, _ => binop_sym opc a b t kb
  end.

Section values.
Context `{DataModel}.

(** ** Floating point: opaque, folded when the operands are constants *)
Definition unop (opc : Opcode) (a : EP) (t : Ty) : M EP :=
  do x <- deref a;
  match node x, t, opc with
  | NConst _ c, TFloat sem, FNeg => mkConstFP t (fltBits sem) (fltNeg sem c)
  | _, _, _ => intern (mkExpr t (NOp opc [a]))
  end.
Definition binop_float (opc : Opcode) (a b : EP) (t : Ty) : M EP :=
  do x <- deref a; do y <- deref b;
  match node x, node y, t, opc with
  | NConst _ ca, NConst _ cb, TFloat sem, (FAdd | FSub | FMul) =>
      mkConstFP t (fltBits sem) (fltBin opc sem ca cb)
  | _, _, _, _ => intern (mkExpr t (NOp opc [a; b]))
  end.

(** ** Conversions *)
Definition cast_opaque (opc : Opcode) (a : EP) (t : Ty) : M EP :=
  do p <- intern (mkExpr t (NOp opc [a]));
  if isIntegerTy t || isPointerTy t then asPoly p else ret p.
Definition is_intcast (opc : Opcode) : bool :=
  match opc with Trunc | ZExt | SExt | PtrToInt | IntToPtr | AddrSpaceCast => true | _ => false end.
(** the conversions the first [switch] leaves *)
Definition cast_rest (opc : Opcode) (a : EP) (x : Expr) (t : Ty) : M EP :=
  match node x, ty x, t, opc with
  | NConst _ c, TFloat sem, TFloat sem', (FPExt | FPTrunc) =>
      mkConstFP t (fltBits sem') (fltConvert sem sem' c)
  | _, _, _, _ => cast_opaque opc a t
  end.
Definition cast_int (opc : Opcode) (a : EP) (x : Expr) (t : Ty) : M EP :=
  if isInt1 t then
    match constInt_node x with Some c => mkBool (Z.odd c) | None => cast_rest opc a x t end
  else if is_poly_node (node x) || match node x with NConst _ _ => isIntegerTy (ty x) | _ => false end then
    match opc, constInt_node x with
    | ZExt, Some c =>
        match ty x with
        | TInt w => mkInt t (if w <? 64 then Z.land c (2 ^ w - 1) else c)
        | _ => stuck
        end
    | _, _ => retype a t
    end
  else match node x with NUndef => mkUndef t | _ => cast_rest opc a x t end.
Definition cast_bits (a : EP) (x : Expr) (t : Ty) : M EP :=
  if bool_decide (ty x = t) then ret a else
  match node x, t, constInt_node x with
  | NUndef, _, _ => mkUndef t
  | NConst bw c, TInt _, _ => do v <- getSExt bw c; mkInt t v
  | _, TFloat sem, Some c => mkConstFP t (fltBits sem) (u64 c mod 2 ^ fltBits sem)
  | _, _, _ => cast_rest BitCast a x t
  end.
Definition cast (opc : Opcode) (a : EP) (t : Ty) : M EP :=
  do x <- deref a;
  if is_intcast opc then cast_int opc a x t
  else match opc with BitCast => cast_bits a x t | _ => cast_rest opc a x t end.

(** ** Opaque values *)
Definition wrap_value (t : Ty) (p : EP) : M EP := if isIntegerTy t || isPointerTy t then asPoly p else ret p.
Definition load (t : Ty) (addr guard : EP) (align : Z) : M EP :=
  do p <- intern (mkExpr t (NLoad align [addr; guard])); wrap_value t p.
Definition call (callee : nat) (args : list EP) (t : Ty) : M EP :=
  do p <- intern (mkExpr t (NCall callee 0 args)); wrap_value t p.
Definition callAsm (asmv : nat) (args : list EP) (t : Ty) : M EP :=
  do p <- intern (mkExpr t (NCall 0 asmv args)); wrap_value t p.
Definition concat (parts : list EP) (t : Ty) : M EP :=
  do same <- gets (λ s, match parts with [p] => bool_decide (type_at s p = Some t) | _ => false end);
  match parts, same with
  | p :: _, true => ret p
  | _, _ => intern (mkExpr t (NConcat parts))
  end.

(** ** Sizes *)
Definition size_at (s : Arena) (e : EP) : Z := match type_at s e with Some t => sizeOf t | None => 0 end.
(** the operand of a cast that keeps the size *)
Definition same_size_cast (s : Arena) (e : EP) : option EP :=
  match nodes s !! e with
  | Some (mkExpr t (NOp BitCast (y :: _))) => if size_at s y =? sizeOf t then Some y else None
  | _ => None
  end.
(** the atom of [1*atom], when it has the polynomial's size *)
Definition same_size_atom (s : Arena) (e : EP) : option EP :=
  match nodes s !! e with
  | Some (mkExpr t (NPoly [([a], 1)])) =>
      match atoms s !! a with
      | Some x => if size_at s x =? sizeOf t then Some x else None
      | None => None
      end
  | _ => None
  end.

(** ** Booleans and selections *)
Definition canonicalPred (p : Pred) : bool :=
  match p with
  | ICMP_NE | ICMP_SGE | ICMP_UGE | ICMP_SGT | ICMP_UGT
  | FCMP_ONE | FCMP_OGE | FCMP_OGT | FCMP_UNE | FCMP_UGE | FCMP_UGT => false
  | _ => true
  end.
(** a comparison whose predicate is not canonical *)
Definition flipped (s : Arena) (c : EP) : bool :=
  match node_at s c with Some (NCmp p _) => negb (canonicalPred p) | _ => false end.
(** the arm [k] (1 or 2) of a selection under the condition [c] *)
Definition arm_of (s : Arena) (c : EP) (k : nat) (e : EP) : option EP :=
  match node_at s e with
  | Some (NIte l) => if bool_decide (l !! 0%nat = Some c) then l !! k else None
  | _ => None
  end.
(** a cast of the same size from a type that is no integer: its operand and the operand's type *)
Definition hoistable (s : Arena) (e : EP) : option (EP * Ty) :=
  match same_size_cast s e with
  | Some y => match type_at s y with
              | Some t => if isIntegerTy t then None else Some (y, t)
              | None => None
              end
  | None => None
  end.

Section conditions.
Context `{CmpInst} (rec : Ops).
Definition binop_bool (opc : Opcode) (a b : EP) (t : Ty) : C EP :=
  match opc with
  | And => andb_ rec a b
  | Or => orb_ rec a b
  | Xor =>
      let! tb := look (λ s, isTrue s b) in
      if tb then notb rec a else
      let! ta := look (λ s, isTrue s a) in
      if ta then notb rec b else
      let! fb := look (λ s, isFalse s b) in
      if fb then cret a else
      let! fa := look (λ s, isFalse s a) in
      if fa then cret b else
      if (a =? b)%nat then falsec else mkOp t opc [a; b]
  | _ => mkOp t opc [a; b]
  end.
Definition binop (opc : Opcode) (a b : EP) (t : Ty) : C EP :=
  if isInt1 t then binop_bool opc a b t
  else if isIntegerTy t || isPointerTy t then lift (binop_int opc a b t)
  else lift (binop_float opc a b t).

(** the boolean arms *)
Definition ite_bool (c a b : EP) (t : Ty) : C EP :=
  let! ta := look (λ s, isTrue s a) in
  let! fa := look (λ s, isFalse s a) in
  let! tb := look (λ s, isTrue s b) in
  let! fb := look (λ s, isFalse s b) in
  if ta && fb then cret c else
  if fa && tb then notb rec c else
  if ta then orb_ rec c b else
  if fa then let! nc := notb rec c in andb_ rec nc b else
  if tb then let! nc := notb rec c in orb_ rec nc a else
  if fb then andb_ rec c a else
  lift (intern (mkExpr t (NIte [c; a; b]))).
Definition ite_body (ite : EP → EP → EP → C EP) (c a b : EP) : C EP :=
  let! tc := look (λ s, isTrue s c) in
  if tc then cret a else
  let! fc := look (λ s, isFalse s c) in
  if fc then cret b else
  if (a =? b)%nat then cret a else
  let! fl := look (λ s, flipped s c) in
  if fl then let! nc := notb rec c in ite nc b a else
  let! n := look (λ s, negated s c) in
  match n with
  | Some c' => ite c' b a
  | None =>
      let! ua := look (λ s, is_undef s a) in
      if ua then cret b else
      let! ub := look (λ s, is_undef s b) in
      if ub then cret a else
      let! a := look (λ s, default a (arm_of s c 1 a)) in
      let! b := look (λ s, default b (arm_of s c 2 b)) in
      if (a =? b)%nat then cret a else
      let! ha := look (λ s, hoistable s (unwrap s a)) in
      let! hb := look (λ s, hoistable s (unwrap s b)) in
      let! t := type_of a in
      match ha, hb with
      | Some (x, tx), Some (y, ty) =>
          if bool_decide (tx = ty) then let! r := ite c x y in lift (cast BitCast r t)
          else if isInt1 t then ite_bool c a b t else lift (intern (mkExpr t (NIte [c; a; b])))
      | _, _ => if isInt1 t then ite_bool c a b t else lift (intern (mkExpr t (NIte [c; a; b])))
      end
  end.
Fixpoint ite_f (n : nat) : EP → EP → EP → C EP :=
  match n with O => λ _ _ _, cstuck | S n => ite_body (ite_f n) end.
(** a call within a call has older arms, or the same arms and a condition turned round *)
Definition ite_fuel (a b : EP) : nat := (a + b + 4)%nat.
Definition ite (c a b : EP) : C EP := ite_f (ite_fuel a b) c a b.
End conditions.

(** ** The state of [bytes]: the arena, its tables, and the two tables of bytes *)
Record VSt := mkV { cs : CSt; bytesMemo : gmap (EP * Z * Z) EP; byteMemo : gmap EP (list EP) }.
Definition var (st : VSt) : Arena := ar (cs st).
Definition V (A : Type) : Type := VSt → option (A * VSt).
Definition vret {A} (x : A) : V A := λ st, Some (x, st).
Definition vbind {A B} (m : V A) (f : A → V B) : V B :=
  λ st, match m st with Some (x, st') => f x st' | None => None end.
Definition vstuck {A} : V A := λ _, None.
Definition vlift {A} (m : C A) : V A :=
  λ st, match m (cs st) with Some (x, c) => Some (x, mkV c (bytesMemo st) (byteMemo st)) | None => None end.
Definition vsee {A} (f : Arena → A) : V A := λ st, Some (f (var st), st).
Fixpoint vmap {A B} (f : A → V B) (l : list A) : V (list B) :=
  match l with
  | [] => vret []
  | x :: l => vbind (f x) (λ y, vbind (vmap f l) (λ ys, vret (y :: ys)))
  end.
Fixpoint vfold {A B} (f : B → A → V B) (l : list A) (b : B) : V B :=
  match l with [] => vret b | x :: l => vbind (f b x) (λ b, vfold f l b) end.
End values.
Notation "'val!' x := m 'in' f" := (vbind m (λ x, f)) (at level 10, x name, m at level 100, f at level 200).

(** ** Bytes of a value, and values from bytes *)
Record BOps := mkBOps {
  bytes_ : EP → Z → Z → V EP;
  toBytes_ : EP → V (list EP);
  fromBytes_ : list EP → Ty → V EP }.
Section bytes.
Context `{DataModel} `{CmpInst} (cond_ops : Ops) (rec : BOps).
Definition vm {A} (m : M A) : V A := vlift (lift m).
Definition vite (c a b : EP) : V EP := vlift (ite cond_ops c a b).

(** the part of a concatenation that holds the bytes [lo .. lo+len), and where in it *)
Fixpoint covering_part (s : Arena) (ps : list EP) (off lo len : Z) : option (EP * Z) :=
  match ps with
  | [] => None
  | p :: ps =>
      let psz := size_at s p in
      if (off <=? lo) && (lo + len <=? off + psz) then Some (p, lo - off)
      else covering_part s ps (off + psz) lo len
  end.
Definition bytes_const (x : Expr) (lo len : Z) : V EP :=
  match constInt_node x, node x with
  | Some c, _ =>
      if 8 * lo <? 64 then
        let u := Z.shiftr (u64 c) (8 * lo) in
        vm (mkInt (bytesTy len) (sext 64 (if 8 <=? len then u else Z.land u (2 ^ (8 * len) - 1))))
      else vstuck
  | None, NConst bw c => vm (do v <- getSExt (8 * len) (Z.shiftr c (8 * lo)); mkInt (bytesTy len) v)
  | None, _ => vstuck
  end.
Definition bytes_node (e : EP) (x : Expr) (lo len : Z) : V EP :=
  val! y := vsee (λ s, same_size_cast s e) in
  val! a := vsee (λ s, same_size_atom s e) in
  match node x, y, a with
  | NUndef, _, _ => vm (mkUndef (bytesTy len))
  | NBytes z lo' _, _, _ => bytes_ rec z (lo' + lo) len
  | _, Some y, _ => bytes_ rec y lo len
  | NIte [c; a; b], _, _ =>
      val! ra := bytes_ rec a lo len in val! rb := bytes_ rec b lo len in vite c ra rb
  | NIte _, _, _ => vstuck
  | _, _, Some a => bytes_ rec a lo len
  | NConcat ps, _, _ =>
      val! o := vsee (λ s, covering_part s ps 0 lo len) in
      match o with
      | Some (p, off) => bytes_ rec p off len
      | None =>
          val! bs := toBytes_ rec e in
          if (lo + len <=? Z.of_nat (length bs)) then
            fromBytes_ rec (take (Z.to_nat len) (drop (Z.to_nat lo) bs)) (bytesTy len)
          else vstuck
      end
  | n, _, _ =>
      match constInt_node x, n with
      | None, NConst _ _ | Some _, _ => bytes_const x lo len
      | None, _ => vm (intern (mkExpr (bytesTy len) (NBytes e lo len)))
      end
  end.
Definition whole (s : Arena) (e : EP) (lo len : Z) : bool := (lo =? 0) && (len =? size_at s e).
Definition bytesRaw (e : EP) (lo len : Z) : V EP :=
  val! w := vsee (λ s, whole s e lo len) in
  if w then vret e else val! x := vm (deref e) in bytes_node e x lo len.
Definition set_bytes (k : EP * Z * Z) (r : EP) : V unit :=
  λ st, Some (tt, mkV (cs st) (<[k := r]> (bytesMemo st)) (byteMemo st)).
Definition set_byte (v : EP) (bs : list EP) : V unit :=
  λ st, Some (tt, mkV (cs st) (bytesMemo st) (<[v := bs]> (byteMemo st))).
Definition bytes_body (e : EP) (lo len : Z) : V EP :=
  val! w := vsee (λ s, whole s e lo len) in
  if w then vret e else
  λ st, match bytesMemo st !! (e, lo, len) with
        | Some r => Some (r, st)
        | None => (val! r := bytesRaw e lo len in val! _ := set_bytes (e, lo, len) r in vret r) st
        end.
Definition toBytes_raw (v : EP) : V (list EP) :=
  val! x := vm (deref v) in
  match node x with
  | NConcat ps => val! bss := vmap (toBytes_ rec) ps in vret (List.concat bss)
  | _ => vmap (λ i, bytes_ rec v (Z.of_nat i) 1) (seq 0 (Z.to_nat (sizeOf (ty x))))
  end.
Definition toBytes_body (v : EP) : V (list EP) :=
  λ st, match byteMemo st !! v with
        | Some bs => Some (bs, st)
        | None => (val! bs := toBytes_raw v in val! _ := set_byte v bs in vret bs) st
        end.

(** *** [fromBytes]: runs of bytes of one source *)
(** bytes of [x] from [lo] on *)
Fixpoint source_run (s : Arena) (x : EP) (lo : Z) (bs : list EP) : nat :=
  match bs with
  | b :: bs =>
      match node_at s b with
      | Some (NBytes y lo' _) => if (y =? x)%nat && (lo' =? lo) then S (source_run s x (lo + 1) bs) else O
      | _ => O
      end
  | [] => O
  end.
(** the constants at the front, at most [n] *)
Fixpoint const_run (s : Arena) (n : nat) (bs : list EP) : list Z :=
  match n, bs with
  | S n, b :: bs => match constInt s b with Some c => c :: const_run s n bs | None => [] end
  | _, _ => []
  end.
(** [v |= (c & 0xff) << 8 * i] *)
Fixpoint le_word (i : Z) (cs : list Z) : Z :=
  match cs with [] => 0 | c :: cs => Z.lor (Z.shiftl (Z.land c 255) (8 * i)) (le_word (i + 1) cs) end.
Fixpoint undef_run (s : Arena) (bs : list EP) : nat :=
  match bs with b :: bs => if is_undef s b then S (undef_run s bs) else O | [] => O end.
(** the arms of the selections under [c] at the front *)
Fixpoint arms_run (s : Arena) (c : EP) (bs : list EP) : list (EP * EP) :=
  match bs with
  | b :: bs =>
      match node_at s b with
      | Some (NIte [c'; t; f]) => if (c' =? c)%nat then (t, f) :: arms_run s c bs else []
      | _ => []
      end
  | [] => []
  end.
Definition strip (s : Arena) (v : EP) : EP := default (unwrap s v) (same_size_cast s (unwrap s v)).
(** the first [j] bytes as one selection, if its arms are no concatenations *)
Definition arms_value (c : EP) (arms : list (EP * EP)) (j : nat) : V (option EP) :=
  let it := bytesTy (Z.of_nat j) in
  val! t := fromBytes_ rec (take j arms).*1 it in
  val! f := fromBytes_ rec (take j arms).*2 it in
  val! t := vsee (λ s, strip s t) in
  val! f := vsee (λ s, strip s f) in
  val! cc := vsee (λ s, is_concat s t || is_concat s f) in
  if cc then vret None else
  val! same := vsee (λ s, bool_decide (type_at s t = type_at s f)) in
  if same then val! r := vite c t f in vret (Some r)
  else
    val! t := vm (cast BitCast t it) in
    val! f := vm (cast BitCast f it) in
    val! r := vite c t f in vret (Some r).
(** the longest such prefix *)
Definition arms_best (c : EP) (arms : list (EP * EP)) : V (option (nat * EP)) :=
  vfold (λ best j, val! r := arms_value c arms j in
                   vret (match r with Some r => Some (j, r) | None => best end))
    (seq 1 (length arms)) None.
(** the first run: the part it makes and its length *)
Definition first_part (b : EP) (bs : list EP) : V (EP * nat) :=
  val! x := vm (deref b) in
  val! k := vsee (λ s, constInt s b) in
  match node x, k with
  | NBytes y lo _, _ =>
      val! j := vsee (λ s, S (source_run s y (lo + 1) bs)) in
      val! p := bytes_ rec y lo (Z.of_nat j) in vret (p, j)
  | _, Some _ =>
      val! cs := vsee (λ s, const_run s 8 (b :: bs)) in
      val! p := vm (mkInt (bytesTy (Z.of_nat (length cs))) (sext 64 (le_word 0 cs))) in vret (p, length cs)
  | NUndef, _ =>
      val! j := vsee (λ s, S (undef_run s bs)) in
      val! p := vm (mkUndef (bytesTy (Z.of_nat j))) in vret (p, j)
  | NIte (c :: _), _ =>
      val! arms := vsee (λ s, arms_run s c (b :: bs)) in
      val! best := arms_best c arms in
      match best with
      | Some (j, r) => if (1 <? j)%nat then vret (r, j) else vret (b, 1%nat)
      | None => vret (b, 1%nat)
      end
  | _, _ => vret (b, 1%nat)
  end.
(** every turn takes at least one byte *)
Fixpoint all_parts (n : nat) (bs : list EP) : V (list EP) :=
  match n, bs with
  | _, [] => vret []
  | O, _ => vstuck
  | S n, b :: bs' =>
      val! pj := first_part b bs' in
      val! ps := all_parts n (drop pj.2 bs) in
      vret (pj.1 :: ps)
  end.
Definition fromBytes_body (bs : list EP) (t : Ty) : V EP :=
  val! parts := all_parts (length bs) bs in
  match parts with
  | [p] =>
      val! tp := vsee (λ s, type_at s p) in
      if bool_decide (tp = Some t) then vret p else
      val! same := vsee (λ s, size_at s p =? sizeOf t) in
      if same then vm (cast BitCast p t) else vm (concat parts t)
  | _ => vm (concat parts t)
  end.
End bytes.

(** the knot: [n] bounds the depth of the calls *)
Section knot.
Context `{DataModel} `{CmpInst} (cond_ops : Ops).
Definition bops0 : BOps := mkBOps (λ _ _ _, vstuck) (λ _, vstuck) (λ _ _, vstuck).
Definition bopsS (rec : BOps) : BOps :=
  mkBOps (bytes_body cond_ops rec) (toBytes_body rec) (fromBytes_body cond_ops rec).
Definition bops (n : nat) : BOps := Nat.iter n bopsS bops0.
Definition bytes (n : nat) : EP → Z → Z → V EP := bytes_ (bops n).
Definition toBytes (n : nat) : EP → V (list EP) := toBytes_ (bops n).
Definition fromBytes (n : nat) : list EP → Ty → V EP := fromBytes_ (bops n).
End knot.
