(* ===== verification/ArenaFold.v ===== *)
(** Integer instructions of the symbolic executor (ArenaValue.v): what [binop] and [cast] return means, modulo
    the width, what LLVM gives the instruction, whether the operands are constants or symbolic. *)
From S2P Require Import Prelude Expr Arena LlvmInt ArenaSem ArenaCmp ArenaLits ArenaContra ArenaCond ArenaCondSem.
From S2P Require Import ArenaValue.
Open Scope Z_scope.

(** ** Residues *)
Section residues.
Context (w : Z) (Hw : 0 < w).
Lemma pow_pos' : 0 < 2 ^ w.
Proof. apply Z.pow_pos_nonneg; lia. Qed.
Lemma sext_residue z : sext w (z mod 2 ^ w) = sext w z.
Proof. unfold sext. pose proof pow_pos'. by rewrite Z.mod_mod by lia. Qed.
Lemma wrapw_residue w' z : 0 < w' <= w → wrapw w z mod 2 ^ w' = z mod 2 ^ w'.
Proof.
  intros Hw'. rewrite wrapw_sext by lia. destruct (64 <=? w); [done|].
  assert (2 ^ w = 2 ^ w' * 2 ^ (w - w')) as E by (rewrite <- Z.pow_add_r by lia; f_equal; lia).
  pose proof (Z.pow_pos_nonneg 2 w' ltac:(lia) ltac:(lia)). pose proof (Z.pow_pos_nonneg 2 (w - w') ltac:(lia) ltac:(lia)).
  unfold sext. pose proof (Z_div_mod_eq_full z (2 ^ w)) as Ez. set (q := z / 2 ^ w) in *. set (u := z mod 2 ^ w) in *.
  destruct (_ <? _); rewrite Ez, E.
  - replace (2 ^ w' * 2 ^ (w - w') * q + u) with (u + (2 ^ (w - w') * q) * 2 ^ w') by lia. by rewrite Z.mod_add by lia.
  - replace (u - 2 ^ w' * 2 ^ (w - w')) with (u + (- 2 ^ (w - w')) * 2 ^ w') by lia.
    replace (2 ^ w' * 2 ^ (w - w') * q + u) with (u + (2 ^ (w - w') * q) * 2 ^ w') by lia. by rewrite !Z.mod_add by lia.
Qed.
(** what [fold_int] computes is LLVM's result *)
Lemma fold_int_ok op ca cb r :
  llvm_binary op w (ca mod 2 ^ w) (cb mod 2 ^ w) = Some r →
  ∃ z, fold_int op w ca cb = FoldInt z ∧ z mod 2 ^ w = r.
Proof.
  pose proof pow_pos' as Hp. intros Hr.
  pose proof (llvm_binary_range op w _ _ r Hw (Z.mod_pos_bound ca _ Hp) (Z.mod_pos_bound cb _ Hp) Hr) as Hrange.
  destruct op; cbn [llvm_binary fold_int] in *; rewrite ?sext_residue in *; try done;
    repeat (case_match; try done); simplify_eq; try rewrite ?Z.leb_le, ?Z.ltb_lt, ?orb_false_iff in *; try lia;
    eexists; (split; [reflexivity|]); rewrite ?Z.mod_small by done; try done.
  all: rewrite ?Z.eqb_neq in *; try (destruct H0; done); try lia.
Qed.
End residues.

(** ** Lawful valuations: the opaque integer instructions mean what LLVM says, modulo the width *)
Definition int_law (ρ : Env) : Prop :=
  ∀ w op args va vb r, 1 < w → llvm_binary op w (va mod 2 ^ w) (vb mod 2 ^ w) = Some r →
    env_opq ρ (TInt w) (NOp op args) [va; vb] mod 2 ^ w = r.
(** the value of an expression as an [i w] *)
Definition ival (w : Z) (s : Arena) (ρ : Env) (e : EP) : Z := den s ρ e mod 2 ^ w.

Section binop.
Context (s : Arena) (w : Z) (Hwf : wf s) (Hw : 1 < w <= 64).
Local Abbreviation t := (TInt w).
(** what is shown of an operation: it has the type, and LLVM's value wherever LLVM has one *)
Definition computes (op : Opcode) (a b : EP) (e : EP) (s' : Arena) : Prop :=
  type_at s' e = Some t ∧
  ∀ ρ r, int_law ρ → llvm_binary op w (ival w s ρ a) (ival w s ρ b) = Some r → ival w s' ρ e = r.

Lemma opaque_spec op a b :
  type_at s a = Some t → type_at s b = Some t → spec (binop_opaque op a b t) s (computes op a b).
Proof.
  intros Ha Hb. eapply spec_bind; [by apply asPoly_spec|]. cbn. intros pa s1 Hwf1 Hx1 [(ta & Hpa & _) Hda].
  eapply spec_bind; [apply asPoly_spec; [done|by eapply type_at_ext]|]. cbn. intros pb s2 Hwf2 Hx2 [(tb & Hpb & _) Hdb].
  pose proof (ext_node _ _ _ _ Hx2 Hpa) as Hpa2.
  assert (valid s2 pa ∧ valid s2 pb) as [Hva Hvb] by (split; eauto with mvcc_arena).
  eapply spec_bind; [apply intern_leaf_spec; [done|]|].
  { split; [|done]. cbn. unfold valid in *. repeat constructor; done. }
  cbn. intros e s3 Hwf3 Hx3 [Ht He]. eapply spec_mono; [by apply asPoly_spec|].
  cbn. intros p s4 Hwf4 Hx4 [(ts & Hp & _) Hd]. split; [by eapply is_poly_type|]. intros ρ r Hlaw Hr. unfold ival in *.
  rewrite Hd, (den_unfold _ _ _ _ Hwf3 He).
  assert (eval_node s3 ρ (den s3 ρ) (mkExpr t (NOp op [pa; pb]))
    = env_opq ρ t (NOp op [pa; pb]) [den s3 ρ pa; den s3 ρ pb]) as ->.
  { unfold eval_node; cbn. destruct op; try done; unfold isInt1; by rewrite bool_decide_false by (intros [= ->]; lia). }
  apply Hlaw; [lia|]. rewrite !(den_ext s2 s3) by done. rewrite Hdb, (den_ext s1 s2), Hda by eauto with mvcc_arena.
  by rewrite (den_ext s s1) by eauto with mvcc_arena.
Qed.

(** a result that is exact up to a multiple of [2 ^ w] *)
Lemma computes_by op a b (m : M EP) (f : Env → Z) :
  spec m s (λ e s', (∃ ts, is_poly s' e t ts) ∧ ∀ ρ, den s' ρ e = f ρ) →
  (∀ ρ r, llvm_binary op w (ival w s ρ a) (ival w s ρ b) = Some r → f ρ mod 2 ^ w = r) →
  spec m s (computes op a b).
Proof.
  intros Hm Hf. eapply spec_mono; [exact Hm|]. cbn. intros e s' _ _ [[ts Hp] Hd].
  split; [by eapply is_poly_type|]. intros ρ r _ Hr. unfold ival. rewrite Hd. by apply Hf.
Qed.
Lemma asPoly_computes op a b : type_at s a = Some t →
  (∀ ρ r, llvm_binary op w (ival w s ρ a) (ival w s ρ b) = Some r → ival w s ρ a = r) →
  spec (asPoly a) s (computes op a b).
Proof.
  intros Ha Hf. eapply computes_by; [eapply spec_mono; [by apply asPoly_spec|]|exact Hf].
  cbn. intros e s' _ _ [(ts & ? & _) ?]. eauto.
Qed.
Lemma const_computes op a b c :
  (∀ ρ r, llvm_binary op w (ival w s ρ a) (ival w s ρ b) = Some r → c mod 2 ^ w = r) →
  spec (mkInt t c) s (computes op a b).
Proof.
  intros Hf. eapply computes_by; [eapply spec_mono; [by apply mkInt_spec|]|].
  - cbn. intros e s' _ _ [? Hd]. split; [by eexists|exact Hd].
  - intros ρ r Hr. cbn. rewrite wrapw_residue by lia. by eapply Hf.
Qed.
Lemma undef_computes op a b :
  (∀ ρ, llvm_binary op w (ival w s ρ a) (ival w s ρ b) = None) → spec (mkUndef t) s (computes op a b).
Proof.
  intros Hf. eapply spec_mono; [apply intern_leaf_spec; [done|by split]|]. cbn. intros e s' _ _ [? _].
  split; [done|]. intros ρ r _. by rewrite Hf.
Qed.

Lemma getSExt_ok z : spec (getSExt w z) s (λ v s', s' = s ∧ v = sext w z).
Proof.
  unfold getSExt. pose proof (sext_range w z ltac:(lia)).
  assert (2 ^ (w - 1) <= 2 ^ 63) by (apply Z.pow_le_mono_r; lia).
  rewrite (proj2 (Z.leb_le _ _)), (proj2 (Z.ltb_lt _ _)) by lia. by apply spec_ret.
Qed.
Lemma fold_spec op a b ca cb :
  type_at s a = Some t → type_at s b = Some t → constInt s a = Some ca → constInt s b = Some cb →
  spec (binop_int op a b t) s (computes op a b).
Proof.
  intros Ha Hb Ka Kb. apply gets_spec. apply gets_spec. rewrite Ka, Kb. cbn.
  assert (∀ ρ, ival w s ρ a = ca mod 2 ^ w ∧ ival w s ρ b = cb mod 2 ^ w) as Hv.
  { intros ρ. unfold ival. by rewrite (constInt_value _ _ _ _ Hwf Ka), (constInt_value _ _ _ _ Hwf Kb). }
  destruct (fold_int op w ca cb) as [z| |] eqn:E.
  - eapply spec_bind; [apply getSExt_ok|]. cbn. intros v s1 _ _ [-> ->]. apply const_computes. intros ρ r.
    destruct (Hv ρ) as [-> ->]. intros (z' & Ez & Hr)%fold_int_ok; [|lia]. rewrite E in Ez. injection Ez as <-.
    by rewrite sext_mod by lia.
  - apply undef_computes. intros ρ. destruct (Hv ρ) as [-> ->].
    destruct (llvm_binary _ _ _ _) as [r|] eqn:Er; [|done]. apply fold_int_ok in Er as (z & Ez & _); [|lia]. by rewrite E in Ez.
  - by apply opaque_spec.
Qed.

(** the second operand's constant, as an [i w] *)
Lemma ival_const ρ b c : constInt s b = Some c → ival w s ρ b = c mod 2 ^ w.
Proof. intros K. unfold ival. by rewrite (constInt_value _ _ _ _ Hwf K). Qed.
Lemma small_const c : 0 <= c < 2 → c mod 2 ^ w = c.
Proof. intros Hc. pose proof (Z.pow_lt_mono_r 2 1 w). apply Z.mod_small. lia. Qed.
Lemma minus_one_const : -1 mod 2 ^ w = 2 ^ w - 1.
Proof. symmetry. apply (Z.mod_unique _ _ (-1)); lia. Qed.
Lemma sext_minus_one : sext w (2 ^ w - 1) = -1.
Proof.
  rewrite <- minus_one_const, sext_residue by lia. apply sext_id; [lia|]. pose proof (Z.pow_le_mono_r 2 1 (w - 1)). lia.
Qed.
Lemma ival_bound ρ e : 0 <= ival w s ρ e < 2 ^ w.
Proof. apply Z.mod_pos_bound, Z.pow_pos_nonneg; lia. Qed.
Lemma sext_one : sext w 1 = 1.
Proof. apply sext_id; [lia|]. pose proof (Z.pow_le_mono_r 2 1 (w - 1)). destruct (decide (w = 2)) as [->|]; [|pose proof (Z.pow_le_mono_r 2 2 (w - 1))]; lia. Qed.

Lemma ring_spec op a b (m : M EP) (f : Z → Z → Z) :
  spec m s (λ e s', (∃ ts, is_poly s' e t ts) ∧ ∀ ρ, den s' ρ e = f (den s ρ a) (den s ρ b)) →
  (∀ x y, llvm_binary op w (x mod 2 ^ w) (y mod 2 ^ w) = Some (f x y mod 2 ^ w)) →
  spec m s (computes op a b).
Proof.
  intros Hm Hf. eapply computes_by; [exact Hm|]. cbn. intros ρ r. unfold ival. rewrite Hf. by intros [= <-].
Qed.
Lemma shl_spec a b c : type_at s a = Some t → constInt s b = Some c → c < 2 ^ (w - 1) → 0 <= c →
  spec (bind (mkInt t (Z.shiftl 1 c)) (λ k, mul a k)) s (computes Shl a b).
Proof.
  intros Ha Kb Hc H0. eapply spec_bind; [by apply (mkInt_spec s t w)|]. cbn. intros k s1 Hwf1 Hx1 [Hk Hd].
  eapply spec_mono; [eapply mul_spec; eauto with mvcc_arena|]. cbn. intros e s2 _ _ [[ts He] Hde].
  split; [by eapply is_poly_type|]. intros ρ r _. rewrite (ival_const ρ b c Kb). cbn [llvm_binary].
  assert (2 ^ (w - 1) < 2 ^ w) by (apply Z.pow_lt_mono_r; lia).
  rewrite (Z.mod_small c) by lia. destruct (c <? w); [|done]. intros [= <-]. unfold ival.
  rewrite Hde, Hd, (den_ext s s1) by eauto with mvcc_arena. rewrite Z.shiftl_1_l, Z.shiftl_mul_pow2 by lia.
  rewrite <- Z.mul_mod_idemp_r, wrapw_residue, Z.mul_mod_idemp_r by lia. by rewrite Z.mul_mod_idemp_l by lia.
Qed.
Lemma sym_spec op a b :
  type_at s a = Some t → type_at s b = Some t →
  (∀ c, constInt s b = Some c → - 2 ^ (w - 1) <= c < 2 ^ (w - 1)) →
  ¬ (op = URem ∧ constInt s b = Some (-1)) →
  spec (binop_sym op a b t (constInt s b)) s (computes op a b).
Proof.
  intros Ha Hb Hfit Hrem. pose proof (opaque_spec op a b Ha Hb) as Hop.
  pose proof (Z.pow_pos_nonneg 2 w ltac:(lia) ltac:(lia)) as Hp.
  destruct op; cbn [binop_sym]; try exact Hop.
  - destruct (constInt s b) as [c|] eqn:Kb; [|exact Hop]. destruct (Z.eqb_spec c (-1)) as [->|].
    { apply asPoly_computes; [done|]. intros ρ r. rewrite (ival_const ρ b _ Kb), minus_one_const. cbn [llvm_binary].
      assert (2 ^ w - 1 = Z.ones w) as -> by (rewrite Z.ones_equiv; lia). rewrite Z.land_ones by lia.
      intros [= <-]. symmetry. apply Z.mod_small, ival_bound. }
    destruct (Z.eqb_spec c 0) as [->|]; [|exact Hop]. apply const_computes. intros ρ r.
    rewrite (ival_const ρ b _ Kb), Z.mod_0_l by lia. cbn [llvm_binary]. rewrite Z.land_0_r. by intros [= <-].
  - eapply (ring_spec Add); [by eapply add_spec|]. intros x y. cbn [llvm_binary]. rewrite <- Z.add_mod by lia. done.
  - eapply (ring_spec Sub); [by eapply sub_spec|]. intros x y. cbn [llvm_binary]. rewrite <- Zminus_mod. done.
  - eapply (ring_spec Mul); [by eapply mul_spec|]. intros x y. cbn [llvm_binary]. rewrite <- Z.mul_mod by lia. done.
  - destruct (constInt s b) as [c|] eqn:Kb; [|exact Hop]. specialize (Hfit c eq_refl).
    destruct (Z.leb_spec 0 c); [|exact Hop]. destruct (Z.ltb_spec c 63); [|exact Hop]. cbn [andb].
    apply shl_spec; [done|done|lia|done].
  - destruct (constInt s b) as [c|] eqn:Kb; [|exact Hop]. destruct (Z.eqb_spec c 1) as [->|]; [|exact Hop].
    apply asPoly_computes; [done|]. intros ρ r. rewrite (ival_const ρ b _ Kb), small_const by lia. cbn. rewrite Z.div_1_r.
    by intros [= <-].
  - destruct (constInt s b) as [c|] eqn:Kb; [|exact Hop]. destruct (Z.eqb_spec c 1) as [->|]; [|exact Hop].
    apply asPoly_computes; [done|]. intros ρ r. rewrite (ival_const ρ b _ Kb), small_const by lia. cbn [llvm_binary].
    case_match; [done|]. rewrite sext_one, Z.quot_1_r, sext_mod by lia. intros [= <-].
    symmetry. apply Z.mod_small, ival_bound.
  - destruct (constInt s b) as [c|] eqn:Kb; [|exact Hop].
    destruct (Z.eqb_spec c 1) as [->|]; cbn [orb].
    + apply const_computes. intros ρ r. rewrite (ival_const ρ b _ Kb), small_const by lia. cbn [llvm_binary Z.eqb].
      rewrite Z.mod_1_r. intros [= <-]. by apply Z.mod_0_l; lia.
    + destruct (Z.eqb_spec c (-1)) as [->|]; [by destruct Hrem|exact Hop].
  - destruct (constInt s b) as [c|] eqn:Kb; [|exact Hop].
    destruct (Z.eqb_spec c 1) as [->|]; cbn [orb].
    + apply const_computes. intros ρ r. rewrite (ival_const ρ b _ Kb), small_const by lia. cbn [llvm_binary].
      case_match; [done|]. rewrite sext_one, Z.rem_1_r. by intros [= <-].
    + destruct (Z.eqb_spec c (-1)) as [->|]; [|exact Hop]. apply const_computes. intros ρ r.
      rewrite (ival_const ρ b _ Kb), minus_one_const. cbn [llvm_binary]. case_match; [done|].
      rewrite sext_minus_one. change (-1) with (- (1)). rewrite Z.rem_opp_r, Z.rem_1_r by lia. by intros [= <-].
Qed.
End binop.

(** [C21] An integer instruction keeps LLVM's meaning, modulo the width: for constant and for symbolic operands, with
    overflow or without, the expression [binop] builds has the value the language reference gives the
    instruction on the operands' values wherever that is defined.  The exception is the unsigned remainder
    of a symbolic value by the constant -1 ([urem_by_minus_one]). *)
Theorem binop_sound `{DataModel} `{CmpInst} rec op a b w st
    (Hwf : wf (ar st)) (Hw : 1 < w <= 64)
    (Ha : type_at (ar st) a = Some (TInt w)) (Hb : type_at (ar st) b = Some (TInt w))
    (Hfit : ∀ c, constInt (ar st) b = Some c → - 2 ^ (w - 1) <= c < 2 ^ (w - 1))
    (Hrem : ¬ (op = URem ∧ constInt (ar st) a = None ∧ constInt (ar st) b = Some (-1))) :
  ∃ e s', binop rec op a b (TInt w) st = Some (e, mkC s' (me st)) ∧ wf s' ∧ ext (ar st) s' ∧
    type_at s' e = Some (TInt w) ∧
    ∀ ρ r, int_law ρ → llvm_binary op w (ival w (ar st) ρ a) (ival w (ar st) ρ b) = Some r → ival w s' ρ e = r.
Proof.
  assert (spec (binop_int op a b (TInt w)) (ar st) (computes (ar st) w op a b)) as (e & s' & E & Hwf' & Hx & Hc).
  { destruct (constInt (ar st) a) as [ca|] eqn:Ka.
    - destruct (constInt (ar st) b) as [cb|] eqn:Kb; [by eapply fold_spec|].
      apply gets_spec. apply gets_spec. rewrite Ka, Kb. rewrite <- Kb. apply sym_spec; try done; rewrite Kb; [done|]. by intros [_ ?].
    - apply gets_spec. apply gets_spec. rewrite Ka. apply sym_spec; try done. intros [-> ?]. by destruct Hrem. }
  exists e, s'. split; [|by destruct Hc]. unfold binop. unfold isInt1. rewrite bool_decide_false by (intros [= ->]; lia).
  cbn. unfold lift. by rewrite E.
Qed.

(** ** Conversions *)
(** an expression that is an integer in the store: a polynomial or an integer constant *)
Definition int_value (s : Arena) (e : EP) : Prop :=
  ∃ x, nodes s !! e = Some x ∧
    (is_poly_node (node x) = true ∨ ∃ bw c, node x = NConst bw c ∧ isIntegerTy (ty x) = true).
(** what the source assumes of a symbolic operand: an extension finds the value in its range *)
Definition extends_ok (op : Opcode) (w w' : Z) (v : Z) : Prop :=
  match op with
  | SExt => in_range w v
  | ZExt => 0 <= v < 2 ^ w
  | PtrToInt | IntToPtr => w' <= w ∨ 0 <= v < 2 ^ w
  | _ => True
  end.
Section casts.
Context `{DataModel} (s : Arena) (a : EP) (t t' : Ty) (w w' : Z) (Hwf : wf s).
Context (Ha : type_at s a = Some t) (Hwt : width t = Some w) (Hwt' : width t' = Some w') (Hw : 1 <= w) (Hw' : 1 < w' <= 64).
Lemma retype_residue : spec (retype a t') s (λ e s', type_at s' e = Some t' ∧ ∀ ρ, ival w' s' ρ e = ival w' s ρ a).
Proof.
  eapply spec_mono; [by apply (retype_spec s a t t' w')|]. cbn. intros e s' _ _ [[ts He] Hd].
  split; [by eapply is_poly_type|]. intros ρ. unfold ival. rewrite Hd. destruct (decide (t = t')); [by rewrite Z.add_0_r|].
  rewrite Z.add_mod, Zminus_mod, wrapw_residue, Z.sub_diag, Z.mod_0_l, Z.add_0_r, Z.mod_mod by lia. done.
Qed.
Lemma mod_pow_le u v z : 0 <= v <= u → (z mod 2 ^ u) mod 2 ^ v = z mod 2 ^ v.
Proof.
  intros Hv. pose proof (Z.pow_pos_nonneg 2 v ltac:(lia) ltac:(lia)). pose proof (Z.pow_pos_nonneg 2 (u - v) ltac:(lia) ltac:(lia)).
  replace (2 ^ u) with (2 ^ v * 2 ^ (u - v)) by (rewrite <- Z.pow_add_r by lia; f_equal; lia).
  rewrite Z.rem_mul_r by lia. rewrite (Z.mul_comm (2 ^ v)), Z.mod_add, Z.mod_mod by lia. done.
Qed.
(** a conversion that keeps the residue is LLVM's where the operand is in range *)
Lemma keeps_residue op ρ v : extends_ok op w w' (den s ρ a) →
  llvm_cast op w w' (ival w s ρ a) = Some v → ival w' s ρ a = v.
Proof.
  unfold ival. pose proof (Z.pow_pos_nonneg 2 w ltac:(lia) ltac:(lia)). pose proof (Z.pow_pos_nonneg 2 w' ltac:(lia) ltac:(lia)).
  assert (∀ z, w < w' → 0 <= z < 2 ^ w → z mod 2 ^ w' = z) as Hsmall.
  { intros z Hlt Hz. assert (2 ^ w < 2 ^ w') by (apply Z.pow_lt_mono_r; lia). apply Z.mod_small. lia. }
  unfold extends_ok, in_range. destruct op; cbn [llvm_cast]; intros Hr; try done.
  - destruct (Z.ltb_spec w' w); [|done]. intros [= <-]. by rewrite mod_pow_le by lia.
  - destruct (Z.ltb_spec w w'); [|done]. intros [= <-]. rewrite (Z.mod_small _ (2 ^ w)) by lia. by apply Hsmall.
  - destruct (Z.ltb_spec w w'); [|done]. intros [= <-]. rewrite sext_residue, sext_id by lia. done.
  - intros [= <-]. destruct (decide (w' <= w)); [by rewrite mod_pow_le by lia|]. destruct Hr; [lia|].
    by rewrite (Z.mod_small _ (2 ^ w)) by lia.
  - intros [= <-]. destruct (decide (w' <= w)); [by rewrite mod_pow_le by lia|]. destruct Hr; [lia|].
    by rewrite (Z.mod_small _ (2 ^ w)) by lia.
Qed.
Lemma zext_const c : constInt s a = Some c → w < w' →
  spec (mkInt t' (if w <? 64 then Z.land c (2 ^ w - 1) else c)) s
    (λ e s', type_at s' e = Some t' ∧ ∀ ρ, ival w' s' ρ e = ival w s ρ a).
Proof.
  intros K Hlt. eapply spec_mono; [by apply mkInt_spec|]. cbn. intros e s' _ _ [He Hd]. split; [by eapply is_poly_type|].
  intros ρ. unfold ival. rewrite Hd, wrapw_residue, (constInt_value _ _ _ _ Hwf K) by lia.
  rewrite (proj2 (Z.ltb_lt w 64)) by lia. replace (2 ^ w - 1) with (Z.ones w) by (rewrite Z.ones_equiv; lia).
  rewrite Z.land_ones by lia. assert (2 ^ w < 2 ^ w') by (apply Z.pow_lt_mono_r; lia).
  apply Z.mod_small. pose proof (Z.mod_pos_bound c (2 ^ w) ltac:(apply Z.pow_pos_nonneg; lia)). lia.
Qed.
End casts.

(** A conversion between integers and pointers keeps LLVM's meaning: truncation always, extension of a constant
    always, and extension of a symbolic value when the value is in the range of its type, read signed for a
    sign extension and unsigned for a zero extension (the assumption the source states). *)
Theorem conversions_fold `{DataModel} op s a t t' w w'
    (Hwf : wf s) (Ha : type_at s a = Some t) (Hwt : width t = Some w) (Hw : 1 <= w)
    (Hwt' : width t' = Some w') (Hw' : 1 < w' <= 64) (Hop : is_intcast op = true) (Hv : int_value s a)
    (Hz : op = ZExt → isIntegerTy t = true ∧ w < w') :
  spec (cast op a t') s (λ e s', type_at s' e = Some t' ∧
    ∀ ρ v, llvm_cast op w w' (ival w s ρ a) = Some v →
      (op = ZExt ∧ is_Some (constInt s a)) ∨ extends_ok op w w' (den s ρ a) → ival w' s' ρ e = v).
Proof.
  destruct Hv as (x & Hx & Hv). assert (ty x = t) as Ht by (unfold type_at in Ha; rewrite Hx in Ha; by injection Ha).
  eapply spec_deref; [exact Hx|]. rewrite Hop. unfold cast_int, isInt1.
  rewrite bool_decide_false by (intros ->; injection Hwt' as <-; lia).
  assert (is_poly_node (node x) || match node x with NConst _ _ => isIntegerTy (ty x) | _ => false end = true) as ->.
  { destruct Hv as [->|(bw & c & -> & ->)]; [done|apply orb_true_r]. }
  assert (constInt s a = constInt_node x) as Kx by (unfold constInt; by rewrite Hx).
  assert (spec (retype a t') s (λ e s', type_at s' e = Some t' ∧ ∀ ρ v, llvm_cast op w w' (ival w s ρ a) = Some v →
      extends_ok op w w' (den s ρ a) → ival w' s' ρ e = v)) as Hre.
  { eapply spec_mono; [by eapply retype_residue|]. cbn. intros e s' _ _ [? Hi]. split; [done|]. intros ρ v Hc Hr.
    rewrite Hi. by eapply keeps_residue. }
  destruct (decide (op = ZExt)) as [->|Hne].
  - destruct (Hz eq_refl) as [Hti Hlt]. destruct (constInt_node x) as [c|] eqn:K.
    + destruct t as [wt| | |]; try done. injection Hwt as ->. rewrite Ht.
      eapply spec_mono; [by eapply zext_const|]. cbn. intros e s' _ _ [? Hi]. split; [done|]. intros ρ v Hc _.
      rewrite Hi. cbn in Hc. destruct (w <? w'); [by injection Hc|done].
    + eapply spec_mono; [exact Hre|]. cbn. intros e s' _ _ [? Hi]. split; [done|]. intros ρ v Hc [[_ [? Hk]]|Hr]; [|by eapply Hi].
      rewrite Kx in Hk. done.
  - assert (match op, constInt_node x with
            | ZExt, Some c => match ty x with TInt w => mkInt t' (if w <? 64 then Z.land c (2 ^ w - 1) else c) | _ => stuck end
            | _, _ => retype a t' end = retype a t') as -> by (by destruct op).
    eapply spec_mono; [exact Hre|]. cbn. intros e s' _ _ [? Hi]. split; [done|]. intros ρ v Hc [[? _]|Hr]; [done|by eapply Hi].
Qed.

(** ** On concrete stores *)
(** sizes of a 64-bit target; the folding of floating point plays no part *)
#[local] Instance demo_model : DataModel := {|
  sizeOf t := match t with TInt w => Z.max 0 ((w + 7) / 8) | TPtr _ => 8 | TFloat n | TOther n => Z.of_nat n end;
  fltBits n := 8 * Z.of_nat n; fltNeg _ c := c; fltBin _ _ c _ := c; fltConvert _ _ c := c |}.
(** [x] (expression 1), [y] (expression 3) and a constant (expression 4) *)
Definition with_const (c : Z) : Arena := state_of (mkInt i32 c) demo.

(** [x urem -1] is folded to 0; the remainder of 5 by 2^32 - 1 is 5. *)
Theorem urem_by_minus_one :
  constInt (with_const (-1)) 4 = Some (-1) ∧
  (∃ e s', binop_int URem 1 4 i32 (with_const (-1)) = Some (e, s') ∧ ∀ ρ, den s' ρ e = 0) ∧
  ∀ ρ, den (with_const (-1)) ρ 1 = 5 →
    llvm_binary URem 32 (ival 32 (with_const (-1)) ρ 1) (ival 32 (with_const (-1)) ρ 4) = Some 5.
Proof.
  assert (wf (with_const (-1))) as Hwf by check_wf. split; [vm_compute; reflexivity|]. split.
  - destruct (mkInt_spec (with_const (-1)) i32 32 0 Hwf eq_refl) as (e & s' & E & _ & _ & _ & Hd).
    exists e, s'. split; [|exact Hd]. rewrite <- E. vm_compute. reflexivity.
  - intros ρ Hx. unfold ival. rewrite Hx, (constInt_value _ ρ 4 (-1) Hwf) by (vm_compute; reflexivity). reflexivity.
Qed.
Definition lawful : Env :=
  mkEnv (λ _, 7) (λ t n l, match t, n, l with
    | TInt w, NOp op _, [va; vb] => default 0 (llvm_binary op w (va mod 2 ^ w) (vb mod 2 ^ w)) | _, _, _ => 0 end).
Lemma lawful_ok : int_law lawful.
Proof.
  intros w op args va vb r Hw Hr. cbn. rewrite Hr. cbn. pose proof (Z.pow_pos_nonneg 2 w ltac:(lia) ltac:(lia)).
  apply Z.mod_small. by eapply llvm_binary_range; [|apply Z.mod_pos_bound|apply Z.mod_pos_bound|exact Hr]; lia.
Qed.
(** [x lshr 3], symbolic: 7 shifted by 3 is 0 *)
Lemma binop_sound_witness :
  ∃ e s', binop ops0 LShr 1 4 i32 (mkC (with_const 3) memo0) = Some (e, mkC s' memo0) ∧ ival 32 s' lawful e = 0.
Proof.
  assert (wf (with_const 3)) as Hwf by check_wf.
  destruct (binop_sound ops0 LShr 1 4 32 (mkC (with_const 3) memo0)) as (e & s' & E & _ & _ & _ & Hd).
  - exact Hwf.
  - lia.
  - vm_compute. reflexivity.
  - vm_compute. reflexivity.
  - intros c Hc. vm_compute in Hc. injection Hc as <-. vm_compute. by split.
  - by intros [? _].
  - exists e, s'. split; [exact E|]. apply Hd; [apply lawful_ok|]. vm_compute. reflexivity.
Defined.
(** [x] truncated to a byte, and [-1] of 32 bits zero-extended to 64 *)
Lemma conversions_fold_witness :
  (∃ e s', cast Trunc 1 (TInt 8) demo = Some (e, s') ∧ ∀ ρ, den demo ρ 1 = 261 → ival 8 s' ρ e = 5) ∧
  (∃ e s', cast ZExt 4 (TInt 64) (with_const (-1)) = Some (e, s') ∧ ∀ ρ, ival 64 s' ρ e = 2 ^ 32 - 1).
Proof.
  split.
  - destruct (conversions_fold Trunc demo 1 i32 (TInt 8) 32 8) as (e & s' & E & _ & _ & _ & Hd); try reflexivity; try lia.
    + check_wf.
    + eexists. split; [vm_compute; reflexivity|left; reflexivity].
    + intros [=].
    + exists e, s'. split; [exact E|]. intros ρ Hx. apply Hd; [|by right]. unfold ival. rewrite Hx. reflexivity.
  - assert (wf (with_const (-1))) as Hwf by check_wf.
    destruct (conversions_fold ZExt (with_const (-1)) 4 i32 (TInt 64) 32 64) as (e & s' & E & _ & _ & _ & Hd); try reflexivity; try lia.
    + exact Hwf.
    + eexists. split; [vm_compute; reflexivity|left; reflexivity].
    + intros _. by split.
    + exists e, s'. split; [exact E|]. intros ρ. apply Hd.
      * unfold ival. rewrite (constInt_value _ ρ 4 (-1) Hwf) by (vm_compute; reflexivity). reflexivity.
      * left. split; [reflexivity|]. vm_compute. by eexists.
Defined.
