(* ===== verification/ArenaBytes.v ===== *)
(** The bytes of a value: what an expression holds in memory, byte by byte, and the invariant of the store
    under which [bytes], [toBytes] and [fromBytes] (ArenaValue.v) are shown to keep them.

    A byte of an undefined value is [None]; an operation may replace it by any byte ([refines]), as LLVM
    allows of [undef]. *)
From S2P Require Import Prelude Expr Arena ArenaSem ArenaCmp ArenaLits ArenaContra ArenaCond ArenaCondSem.
From S2P Require Import ArenaValue.
Open Scope Z_scope.

(** ** Bytes of integers *)
Definition byte (k z : Z) : Z := Z.shiftr z (8 * k) mod 256.
Lemma byte_bit k z i : 0 <= k → 0 <= i → Z.testbit (byte k z) i = (i <? 8) && Z.testbit z (8 * k + i).
Proof.
  intros Hk Hi. unfold byte. change 256 with (2 ^ 8). destruct (Z.ltb_spec i 8).
  - rewrite Z.mod_pow2_bits_low, Z.shiftr_spec by lia. cbn. f_equal. lia.
  - by rewrite Z.mod_pow2_bits_high by lia.
Qed.
(** bytes are equal when the bits are *)
Lemma byte_ext k k' z z' :
  0 <= k → 0 <= k' → (∀ i, 0 <= i < 8 → Z.testbit z (8 * k + i) = Z.testbit z' (8 * k' + i)) → byte k z = byte k' z'.
Proof.
  intros Hk Hk' Hb. apply Z.bits_inj'. intros i Hi. rewrite !byte_bit by done.
  destruct (Z.ltb_spec i 8); [|done]. cbn. apply Hb. lia.
Qed.
Lemma testbit_mod w z i : 0 <= i < w → Z.testbit (z mod 2 ^ w) i = Z.testbit z i.
Proof. intros Hi. by rewrite Z.mod_pow2_bits_low by lia. Qed.
Lemma byte_mod w k z : 0 <= k → 8 * k + 8 <= w → byte k (z mod 2 ^ w) = byte k z.
Proof. intros Hk Hw. apply byte_ext; [done|done|]. intros i Hi. apply testbit_mod. lia. Qed.
(** a value known modulo [2 ^ w] *)
Lemma byte_residue w k z z' : 0 <= k → 8 * k + 8 <= w → z mod 2 ^ w = z' mod 2 ^ w → byte k z = byte k z'.
Proof. intros Hk Hw E. by rewrite <- (byte_mod w k z), E, byte_mod by done. Qed.
Lemma byte_shiftr lo k z : 0 <= lo → 0 <= k → byte k (Z.shiftr z (8 * lo)) = byte (lo + k) z.
Proof. intros Hl Hk. apply byte_ext; [lia..|]. intros i Hi. rewrite Z.shiftr_spec by lia. f_equal. lia. Qed.

(** an undefined byte may become any *)
Definition refines (a b : option Z) : Prop := a = None ∨ a = b.
#[export] Instance refines_preorder : PreOrder refines.
Proof. split; [by right|]. intros a b c [->| ->]; [by left|done]. Qed.
Lemma refines_none b : refines None b.
Proof. by left. Qed.
#[export] Hint Resolve refines_none : core.

(** ** What memory holds of an expression *)
(** types whose values fill their bytes: not [i1], nor an integer of another number of bits *)
Definition mem_ty (t : Ty) : bool := match t with TInt w => (0 <? w) && (w mod 8 =? 0) | _ => true end.
Section bytes.
Context `{DataModel}.
(** what the data layout says of sizes *)
Class SizeLaws : Prop := {
  size_int w : 0 < w → sizeOf (TInt w) = (w + 7) / 8;
  size_nonneg t : 0 <= sizeOf t;
  size_flt sem : fltBits sem = 8 * sizeOf (TFloat sem) }.
Fixpoint part_byte (look : EP → Z → option Z) (s : Arena) (ps : list EP) (k : Z) : option Z :=
  match ps with
  | [] => None
  | p :: ps => if k <? size_at s p then look p k else part_byte look s ps (k - size_at s p)
  end.
(** byte [k] of an expression: a part of a value, a concatenation, a selection and a cast of the same size have
    the bytes of their operands; other values those of their two's complement or their bit pattern *)
Definition ob_node (s : Arena) (ρ : Env) (look : EP → Z → option Z) (e : EP) (x : Expr) (k : Z) : option Z :=
  match node x, same_size_cast s e, same_size_atom s e with
  | NUndef, _, _ => None
  | NBytes y lo len, _, _ => if k <? len then look y (lo + k) else None
  | NIte [c; a; b], _, _ => look (if T s ρ c then a else b) k
  | NConcat ps, _, _ => part_byte look s ps k
  | _, Some y, _ => look y k
  | _, _, Some a => look a k
  | NConst _ c, _, _ => Some (byte k (if isIntegerTy (ty x) then den s ρ e else c))
  | _, _, _ => Some (byte k (den s ρ e))
  end.
Fixpoint obf (n : nat) (s : Arena) (ρ : Env) (e : EP) (k : Z) : option Z :=
  match n with
  | O => None
  | S n => match nodes s !! e with Some x => ob_node s ρ (obf n s ρ) e x k | None => None end
  end.
Definition ob (s : Arena) (ρ : Env) (e : EP) (k : Z) : option Z := obf (S e) s ρ e k.
#[global] Arguments ob : simpl never.

(** ** Operands are older, and stay what they are *)
Lemma size_at_ext s s' e : ext s s' → valid s e → size_at s' e = size_at s e.
Proof. intros Hx [x Hn]%valid_lookup. unfold size_at, type_at. by rewrite Hn, (ext_node _ _ _ _ Hx Hn). Qed.
Lemma same_size_cast_node s e y : same_size_cast s e = Some y →
  ∃ t l, nodes s !! e = Some (mkExpr t (NOp BitCast (y :: l))) ∧ size_at s y = sizeOf t.
Proof.
  unfold same_size_cast. destruct (nodes s !! e) as [[t [| | |[] [|y' l]| | | | | | |]]|]; try done.
  destruct (Z.eqb_spec (size_at s y') (sizeOf t)); [|done]. intros [= ->]. eauto.
Qed.
Lemma same_size_atom_node s e a : same_size_atom s e = Some a →
  ∃ t i, nodes s !! e = Some (mkExpr t (NPoly [([i], 1)])) ∧ atoms s !! i = Some a ∧ size_at s a = sizeOf t.
Proof.
  unfold same_size_atom. destruct (nodes s !! e) as [[t n]|]; [|done].
  destruct n as [|[|[[|i [|]] c] [|]]| | | | | | | | |]; try done; destruct c as [|[]|]; try done.
  destruct (atoms s !! i) as [x|] eqn:E; [|done]. destruct (Z.eqb_spec (size_at s x) (sizeOf t)); [|done].
  intros [= ->]. eauto.
Qed.
Lemma cast_older s e y : wf s → same_size_cast s e = Some y → (y < e)%nat.
Proof.
  intros Hwf (t & l & Hn & _)%same_size_cast_node. destruct (wf_nodes _ Hwf _ _ Hn) as [Hc _].
  by apply Forall_cons in Hc as [? _].
Qed.
Lemma atom_older s e a : wf s → same_size_atom s e = Some a → (a < e)%nat.
Proof.
  intros Hwf (t & i & Hn & Ha & _)%same_size_atom_node. destruct (wf_nodes _ Hwf _ _ Hn) as [_ [_ Hp]].
  apply Forall_cons in Hp as [[Hm _] _]. apply Forall_cons in Hm as [(x & Hx & ?) _]. cbn in *. congruence.
Qed.
Lemma older_valid s e e' : valid s e → (e' < e)%nat → valid s e'.
Proof. unfold valid. lia. Qed.
Lemma same_size_cast_ext s s' e : wf s → ext s s' → valid s e → same_size_cast s' e = same_size_cast s e.
Proof.
  intros Hwf Hx Hv. pose proof Hv as [x Hn]%valid_lookup. unfold same_size_cast. rewrite Hn, (ext_node _ _ _ _ Hx Hn).
  destruct x as [t [| | |[] [|y l]| | | | | | |]]; try done. rewrite (size_at_ext s s'); [done|done|].
  destruct (wf_nodes _ Hwf _ _ Hn) as [Hc _]. apply Forall_cons in Hc as [? _]. by eapply older_valid.
Qed.
Lemma same_size_atom_ext s s' e : wf s → ext s s' → valid s e → same_size_atom s' e = same_size_atom s e.
Proof.
  intros Hwf Hx Hv. pose proof Hv as [x Hn]%valid_lookup. unfold same_size_atom. rewrite Hn, (ext_node _ _ _ _ Hx Hn).
  destruct x as [t n]. destruct n as [|[|[[|i [|]] c] [|]]| | | | | | | | |]; try done; destruct c as [|[]|]; try done.
  destruct (wf_nodes _ Hwf _ _ Hn) as [_ [_ Hp]]. apply Forall_cons in Hp as [[Hm _] _].
  apply Forall_cons in Hm as [(y & Hy & Hlt) _]. rewrite Hy, (ext_atom _ _ _ _ Hx Hy), (size_at_ext s s'); [done|done|].
  by eapply older_valid.
Qed.
Lemma part_byte_ext look look' s s' ps k :
  Forall (λ p, size_at s p = size_at s' p ∧ ∀ k, look p k = look' p k) ps → part_byte look s ps k = part_byte look' s' ps k.
Proof. intros Hp. revert k. induction Hp as [|p ps [Hs Hl] _ IH]; intros k; cbn; [done|]. by rewrite Hs, Hl, IH. Qed.
Lemma ob_node_ext s s' ρ f g e x k : wf s → wf s' → ext s s' → nodes s !! e = Some x →
  (∀ c k, (c < e)%nat → f c k = g c k) → ob_node s ρ f e x k = ob_node s' ρ g e x k.
Proof.
  intros Hwf Hwf' Hx Hn Hfg. assert (valid s e) as Hv by (apply valid_lookup; eauto).
  destruct (wf_nodes _ Hwf _ _ Hn) as [Hc _]. unfold ob_node.
  rewrite (same_size_cast_ext s s'), (same_size_atom_ext s s') by done. rewrite (den_ext s s') by done.
  pose proof (λ y, cast_older s e y Hwf) as Hcast. pose proof (λ a, atom_older s e a Hwf) as Hatom.
  destruct x as [t n]. cbn [node ty] in *.
  destruct n; destruct (same_size_cast s e), (same_size_atom s e); try done; cbn [children] in Hc; auto.
  all: try (apply Forall_cons in Hc as [Hxe _]; destruct (k <? len); auto; done).
  all: try (destruct args as [|c [|a [|b [|]]]]; try done; auto;
    apply Forall_cons in Hc as [? [? [? _]%Forall_cons]%Forall_cons]; rewrite (T_ext s s') by (done || by eapply older_valid);
    destruct (T s ρ c); auto).
  all: apply part_byte_ext; eapply Forall_impl; [exact Hc|]; intros p Hp; split; [|by intros; apply Hfg];
    symmetry; apply size_at_ext; [done|by eapply older_valid].
Qed.
Lemma obf_fuel s ρ : wf s → ∀ n m e k, (e < n)%nat → (e < m)%nat → obf n s ρ e k = obf m s ρ e k.
Proof.
  intros Hwf n. induction n as [|n IH]; intros m e k Hn Hm; [lia|]. destruct m as [|m]; [lia|]. cbn.
  destruct (nodes s !! e) as [x|] eqn:E; [|done]. apply (ob_node_ext s s); [done..|]. intros c k' Hc. apply IH; lia.
Qed.
Lemma ob_unfold s ρ e x k : wf s → nodes s !! e = Some x → ob s ρ e k = ob_node s ρ (ob s ρ) e x k.
Proof.
  intros Hwf Hx. unfold ob at 1. cbn. rewrite Hx. apply (ob_node_ext s s); [done..|].
  intros c k' Hc. unfold ob. apply obf_fuel; [done|lia..].
Qed.
Lemma ob_ext s s' ρ e k : wf s → wf s' → ext s s' → valid s e → ob s' ρ e k = ob s ρ e k.
Proof.
  intros Hwf Hwf' Hx. revert k. induction (lt_wf e) as [e _ IH]. intros k Hv. pose proof Hv as [x Hn]%valid_lookup.
  rewrite (ob_unfold s _ _ _ _ Hwf Hn), (ob_unfold s' _ _ _ _ Hwf' (ext_node _ _ _ _ Hx Hn)).
  symmetry. apply (ob_node_ext s s'); [done..|]. intros c k' Hc. symmetry. apply IH; [done|]. by eapply older_valid.
Qed.

(** ** How deep the selections of a byte go, and where its source is
    [brank s R d e]: below at most [d] selections (casts and atoms aside) the parts of values [e] selects
    from are parts of expressions up to [R]. *)
Inductive brank (s : Arena) (R : nat) : nat → EP → Prop :=
| br_bytes d e t y lo len : nodes s !! e = Some (mkExpr t (NBytes y lo len)) → (y ≤ R)%nat → brank s R d e
| br_ite d e t c a b : nodes s !! e = Some (mkExpr t (NIte [c; a; b])) → brank s R d a → brank s R d b → brank s R (S d) e
| br_cast d e y : same_size_cast s e = Some y → brank s R d y → brank s R d e
| br_atom d e a : same_size_atom s e = Some a → brank s R d a → brank s R d e
| br_other d e x : nodes s !! e = Some x → match node x with NBytes _ _ _ | NIte [_; _; _] => False | _ => True end →
    same_size_cast s e = None → same_size_atom s e = None → brank s R d e.
Lemma brank_mono s R d e R' d' : brank s R d e → (R ≤ R')%nat → (d ≤ d')%nat → brank s R' d' e.
Proof.
  intros Hb HR. revert d'. induction Hb as [d e t y lo len|d e t c a b He Ha IHa Hb IHb|d e y|d e a|d e x]; intros d' Hd.
  - eapply br_bytes; [done|lia].
  - destruct d' as [|d']; [lia|]. eapply br_ite; [done|apply IHa; lia|apply IHb; lia].
  - eapply br_cast; eauto.
  - eapply br_atom; eauto.
  - by eapply br_other.
Qed.
Lemma brank_valid s R d e : brank s R d e → valid s e.
Proof.
  intros Hb. destruct Hb as [d e t y lo len He|d e t c a b He|d e y Hy|d e a Ha|d e x He]; try (apply valid_lookup; by eexists).
  - apply same_size_cast_node in Hy as (? & ? & ? & _). apply valid_lookup. by eexists.
  - apply same_size_atom_node in Ha as (? & ? & ? & _). apply valid_lookup. by eexists.
Qed.
Lemma brank_ext s s' R d e : wf s → ext s s' → brank s R d e → brank s' R d e.
Proof.
  intros Hwf Hx Hb. pose proof (brank_valid _ _ _ _ Hb) as Hv. induction Hb as [d e t y lo len|d e t c a b He Ha IHa Hb IHb|d e y Hy Hb IH|d e a Ha Hb IH|d e x].
  - eapply br_bytes; [by eapply ext_node|done].
  - eapply br_ite; [by eapply ext_node|eauto using brank_valid..].
  - eapply br_cast; [by rewrite (same_size_cast_ext s s')|eauto using brank_valid].
  - eapply br_atom; [by rewrite (same_size_atom_ext s s')|eauto using brank_valid].
  - eapply br_other; [by eapply ext_node|done|by rewrite (same_size_cast_ext s s')|by rewrite (same_size_atom_ext s s')].
Qed.
(** an expression is as deep as it is old *)
Lemma brank_old s R d e : wf s → valid s e → (e ≤ R)%nat → (e ≤ d)%nat → brank s R d e.
Proof.
  intros Hwf. revert d. induction (lt_wf e) as [e _ IH]. intros d Hv HR Hd. pose proof Hv as [x Hn]%valid_lookup.
  destruct (same_size_cast s e) as [y|] eqn:Ec.
  { pose proof (cast_older _ _ _ Hwf Ec). eapply br_cast; [done|]. apply IH; [done|by eapply older_valid|lia|lia]. }
  destruct (same_size_atom s e) as [a|] eqn:Ea.
  { pose proof (atom_older _ _ _ Hwf Ea). eapply br_atom; [done|]. apply IH; [done|by eapply older_valid|lia|lia]. }
  destruct (wf_nodes _ Hwf _ _ Hn) as [Hc _].
  destruct x as [t n]. destruct n as [| | | | |l| | |y lo len| |]; try (by eapply br_other); cbn in Hc.
  - destruct l as [|c [|a [|b [|]]]]; try (by eapply br_other).
    apply Forall_cons in Hc as [? [? [? _]%Forall_cons]%Forall_cons]. destruct d as [|d]; [lia|].
    eapply br_ite; [done|apply IH; [done|by eapply older_valid|lia|lia]..].
  - apply Forall_cons in Hc as [? _]. eapply br_bytes; [done|lia].
Qed.
Lemma brank_leaf s R d e t n : nodes s !! e = Some (mkExpr t n) →
  match n with NUndef | NConst _ _ => True | NPoly [] | NPoly [([], _)] => True | _ => False end → brank s R d e.
Proof.
  intros He Hn. eapply br_other; [done| | |]; unfold same_size_cast, same_size_atom; rewrite ?He; cbn [node];
    destruct n as [|[|[[|] z] [|]]| | | | | | | | |]; try done; by destruct z.
Qed.
(** what a byte depends on, kept by an operation *)
Definition keeps_rank (s : Arena) (e r : EP) (s' : Arena) : Prop := ∀ R d, brank s R d e → brank s' R d r.

(** ** The invariant of the store *)
Definition mem_at (s : Arena) (e : EP) : Prop := ∃ t, type_at s e = Some t ∧ mem_ty t = true.
(** a condition [ite] keeps as it is *)
Definition plain (s : Arena) (c : EP) : Prop :=
  valid s c ∧ isTrue s c = false ∧ isFalse s c = false ∧ flipped s c = false ∧ negated s c = None.
Fixpoint sizes (s : Arena) (ps : list EP) : Z := match ps with [] => 0 | p :: ps => size_at s p + sizes s ps end.
(** what a node of a type [t] of memory satisfies *)
Definition vnode (s : Arena) (e : EP) (x : Expr) : Prop :=
  match node x with
  | NBytes y lo len => ty x = bytesTy len ∧ 0 <= lo ∧ 0 < len ∧ lo + len <= size_at s y ∧ mem_at s y
  | NConcat ps => Forall (mem_at s) ps ∧ sizes s ps = sizeOf (ty x)
  | NIte l => ∃ c a b, l = [c; a; b] ∧ plain s c ∧ size_at s a = sizeOf (ty x) ∧ size_at s b = sizeOf (ty x)
                       ∧ mem_at s a ∧ mem_at s b
  | NConst bw c => sizeOf (ty x) <= 8 ∧ (isIntegerTy (ty x) = false → bw = 8 * sizeOf (ty x))
  | NPoly ts => is_Some (constInt_node x) → sizeOf (ty x) <= 8
  | _ => True
  end ∧
  (∀ y, same_size_cast s e = Some y → mem_at s y) ∧
  (∀ a, same_size_atom s e = Some a → sizeOf (ty x) = 1 ∨ mem_at s a).
Definition vok (s : Arena) : Prop := ∀ e x, nodes s !! e = Some x → mem_ty (ty x) = true → vnode s e x.

Lemma mem_at_ext s s' e : ext s s' → mem_at s e → mem_at s' e.
Proof. intros Hx (t & ? & ?). exists t. split; [by eapply type_at_ext|done]. Qed.
Lemma mem_valid s e : mem_at s e → valid s e.
Proof. intros (t & ? & _). by eapply type_at_valid. Qed.
Lemma mem_node s e : mem_at s e → ∃ x, nodes s !! e = Some x ∧ mem_ty (ty x) = true ∧ size_at s e = sizeOf (ty x).
Proof.
  intros (t & Ht & ?). unfold size_at. rewrite Ht. apply fmap_Some in Ht as (x & ? & ->). eauto.
Qed.
Lemma node_at_ext s s' e : ext s s' → valid s e → node_at s' e = node_at s e.
Proof. intros Hx [x Hn]%valid_lookup. unfold node_at. by rewrite Hn, (ext_node _ _ _ _ Hx Hn). Qed.
Lemma isTrue_grows s s' e : ext s s' → valid s e → isTrue s' e = isTrue s e.
Proof. intros Hx [x Hn]%valid_lookup. unfold isTrue. by rewrite Hn, (ext_node _ _ _ _ Hx Hn). Qed.
Lemma isFalse_grows s s' e : ext s s' → valid s e → isFalse s' e = isFalse s e.
Proof. intros Hx [x Hn]%valid_lookup. unfold isFalse. by rewrite Hn, (ext_node _ _ _ _ Hx Hn). Qed.
Lemma negated_ext s s' e : wf s → ext s s' → valid s e → negated s' e = negated s e.
Proof.
  intros Hwf Hx Hv. pose proof Hv as [x Hn]%valid_lookup. unfold negated. rewrite Hn, (ext_node _ _ _ _ Hx Hn).
  destruct x as [t [| | |[] [|a [|b [|]]]| | | | | | |]]; try done.
  destruct (wf_nodes _ Hwf _ _ Hn) as [Hc _]. apply Forall_cons in Hc as [_ [? _]%Forall_cons].
  rewrite (isTrue_grows s s'); [done|done|]. by eapply older_valid.
Qed.
Lemma plain_ext s s' c : wf s → ext s s' → plain s c → plain s' c.
Proof.
  intros Hwf Hx (Hv & Ht & Hf & Hfl & Hn). split; [by eapply ext_valid|].
  unfold flipped in *. rewrite (isTrue_grows s s'), (isFalse_grows s s'), (node_at_ext s s'), (negated_ext s s') by done. done.
Qed.
Lemma sizes_ext s s' ps : ext s s' → Forall (mem_at s) ps → sizes s' ps = sizes s ps.
Proof.
  intros Hx. induction 1 as [|p ps Hp _ IH]; cbn; [done|]. rewrite IH, (size_at_ext s s'); [done|done|by apply mem_valid].
Qed.
Lemma vnode_ext s s' e x : wf s → ext s s' → nodes s !! e = Some x → vnode s e x → vnode s' e x.
Proof.
  intros Hwf Hx Hn (Hnode & Hcast & Hatom). assert (valid s e) as Hv by (apply valid_lookup; eauto).
  split; [|split].
  - destruct (node x); try done.
    + destruct Hnode as (c & a & b & -> & Hp & Ha & Hb & Hma & Hmb). exists c, a, b.
      rewrite !(size_at_ext s s') by eauto using mem_valid. split_and!; eauto using plain_ext, mem_at_ext.
    + destruct Hnode as [Hps Hs]. rewrite (sizes_ext s s') by done. split; [|done].
      eapply Forall_impl; [exact Hps|]. intros p. by apply mem_at_ext.
    + destruct Hnode as (Ht & Hlo & Hlen & Hsz & Hm). rewrite (size_at_ext s s') by eauto using mem_valid.
      split_and!; eauto using mem_at_ext.
  - intros y. rewrite (same_size_cast_ext s s') by done. eauto using mem_at_ext.
  - intros a. rewrite (same_size_atom_ext s s') by done. intros Ha. destruct (Hatom a Ha); eauto using mem_at_ext.
Qed.

(** ** Operations keep the invariant *)
Definition mspec {A} (m : M A) (s : Arena) (Q : A → Arena → Prop) : Prop := spec m s (λ r s', vok s' ∧ Q r s').
Lemma mspec_bind {A B} (m : M A) (f : A → M B) s (Q : A → Arena → Prop) R :
  mspec m s Q → (∀ r s1, wf s1 → vok s1 → ext s s1 → Q r s1 → mspec (f r) s1 R) → mspec (bind m f) s R.
Proof. intros Hm Hf. eapply spec_bind; [exact Hm|]. cbn. intros r s1 Hw Hx [Hv HQ]. by apply Hf. Qed.
Lemma mspec_mono {A} (m : M A) s (Q R : A → Arena → Prop) :
  mspec m s Q → (∀ r s', wf s' → vok s' → ext s s' → Q r s' → R r s') → mspec m s R.
Proof. intros Hm HR. eapply spec_mono; [exact Hm|]. cbn. intros r s' ?? [? ?]. split; auto. Qed.
Lemma mspec_ret {A} (x : A) s (Q : A → Arena → Prop) : wf s → vok s → Q x s → mspec (ret x) s Q.
Proof. intros. by apply spec_ret. Qed.
Lemma mspec_deref {B} (f : Expr → M B) s e x R :
  nodes s !! e = Some x → mspec (f x) s R → mspec (bind (deref e) f) s R.
Proof. apply spec_deref. Qed.
(** interning a node that satisfies the invariant wherever it is put *)
Lemma intern_vok s t n :
  wf s → vok s → expr_ok s (length (nodes s)) (mkExpr t n) →
  (∀ e s', wf s' → ext s s' → nodes s' !! e = Some (mkExpr t n) → mem_ty t = true → vnode s' e (mkExpr t n)) →
  mspec (intern (mkExpr t n)) s (λ e s', type_at s' e = Some t ∧ nodes s' !! e = Some (mkExpr t n)).
Proof.
  intros Hwf Hv Hok Hn. unfold mspec. assert (∃ e s', intern (mkExpr t n) s = Some (e, s') ∧ wf s' ∧ ext s s' ∧
    nodes s' !! e = Some (mkExpr t n) ∧ (s' = s ∨ nodes s' = nodes s ++ [mkExpr t n])) as (e & s' & E & Hw' & Hx & He & Hs').
  { destruct (intern_spec s _ Hwf Hok) as (e & s' & E & Hw' & Hx & He). exists e, s'. split_and!; try done.
    revert E. unfold intern. destruct (find_index _ _); intros [= _ <-]; [by left|by right]. }
  exists e, s'. split; [done|]. split; [done|]. split; [done|]. split; [|split; [unfold type_at; by rewrite He|done]].
  intros k y Hk Hm. destruct Hs' as [->|Hs']; [by apply Hv|]. rewrite Hs' in Hk.
  apply lookup_app_Some in Hk as [Hk|[Hlen Hk]].
  - eapply vnode_ext; [exact Hwf|done|done|by apply Hv].
  - apply list_lookup_singleton_Some in Hk as [Hk0 <-]. apply Hn; [done|done| |done].
    rewrite Hs', lookup_app_r by done. apply list_lookup_singleton_Some. by split; [lia|].
Qed.
Lemma no_cast s e t n : nodes s !! e = Some (mkExpr t n) → (∀ l, n ≠ NOp BitCast l) → ∀ y, same_size_cast s e = Some y → mem_at s y.
Proof. intros He Hn y (t' & l & He' & _)%same_size_cast_node. rewrite He in He'. injection He' as -> ->. by destruct (Hn (y :: l)). Qed.
Lemma no_atom s e t n : nodes s !! e = Some (mkExpr t n) → (∀ ts, n ≠ NPoly ts) →
  ∀ a, same_size_atom s e = Some a → sizeOf t = 1 ∨ mem_at s a.
Proof. intros He Hn a (t' & i & He' & _)%same_size_atom_node. rewrite He in He'. injection He' as -> ->. by destruct (Hn [([i], 1)]). Qed.

(** ** The constructors *)
Context `{SizeLaws}.
Definition has_bytes (t : Ty) (f : Env → Z → option Z) (r : EP) (s' : Arena) : Prop :=
  type_at s' r = Some t ∧ ∀ ρ k, 0 <= k < sizeOf t → refines (f ρ k) (ob s' ρ r k).
Lemma mkUndef_v s t : wf s → vok s → mspec (mkUndef t) s (λ e s', type_at s' e = Some t ∧ ∀ R d, brank s' R d e).
Proof.
  intros Hwf Hv. eapply mspec_mono; [apply intern_vok; [done|done|by split|]|].
  - intros e s' _ _ He _. split; [done|]. split; [by eapply no_cast|by eapply no_atom].
  - intros e s' _ _ _ [? He]. split; [done|]. intros R d. by eapply brank_leaf.
Qed.
Lemma const_poly_atom s e t c : nodes s !! e = Some (mkExpr t (NPoly (normalise [([], c)]))) → same_size_atom s e = None.
Proof.
  unfold same_size_atom. intros ->. destruct (Z.eqb_spec c 0) as [->|Hc]; [done|].
  unfold normalise. cbn [canonical]. by rewrite (proj2 (Z.eqb_neq _ _) Hc).
Qed.
Lemma poly_no_cast s e t ts : nodes s !! e = Some (mkExpr t (NPoly ts)) → same_size_cast s e = None.
Proof. unfold same_size_cast. by intros ->. Qed.
Lemma polyConst_v s t c : wf s → vok s → (mem_ty t = true → sizeOf t <= 8) →
  mspec (polyConst t c) s (λ e s', type_at s' e = Some t ∧ (∀ ρ k, ob s' ρ e k = Some (byte k c)) ∧ ∀ R d, brank s' R d e).
Proof.
  intros Hwf Hv Hs. destruct (polyConst_spec s t c Hwf) as (e & s' & E & Hwf' & Hx & Hp & Hd).
  eapply mspec_mono.
  - apply intern_vok; [done|done| |].
    + split; [constructor|]. cbn. split; [apply normalise_normal|]. apply poly_ok_normalise, poly_ok_const.
    + intros e' s1 _ _ He Hm. split; [cbn; auto|]. split; [by eapply no_cast|].
      intros a Ha. by rewrite (const_poly_atom _ _ _ _ He) in Ha.
  - cbn. intros e' s1 Hw1 _ Hx1 [Ht He]. split; [done|]. split.
    2: { intros R d. eapply brank_leaf; [exact He|]. unfold normalise. destruct (Z.eqb_spec c 0) as [->|Hc]; [done|].
         cbn [canonical]. by rewrite (proj2 (Z.eqb_neq _ _) Hc). }
    intros ρ k. rewrite (ob_unfold _ _ _ _ _ Hw1 He). unfold ob_node. cbn [node].
    rewrite (const_poly_atom _ _ _ _ He), (poly_no_cast _ _ _ _ He), (den_poly _ _ _ _ _ Hw1 He).
    unfold pval. rewrite peval_normalise. cbn [peval mono fst snd]. by rewrite Z.mul_1_r, Z.add_0_r.
Qed.
Lemma mkInt_v s t w c : wf s → vok s → width t = Some w → (mem_ty t = true → sizeOf t <= 8) →
  mspec (mkInt t c) s (λ e s', type_at s' e = Some t ∧ (∀ ρ k, ob s' ρ e k = Some (byte k (wrapw w c))) ∧ ∀ R d, brank s' R d e).
Proof. intros Hwf Hv Hw Hs. eapply wrap_spec; [exact Hw|]. by apply polyConst_v. Qed.
Lemma mkConstFP_v s sem c : wf s → vok s → sizeOf (TFloat sem) <= 8 →
  mspec (mkConstFP (TFloat sem) (fltBits sem) c) s
    (λ e s', type_at s' e = Some (TFloat sem) ∧ (∀ ρ k, ob s' ρ e k = Some (byte k c)) ∧ ∀ R d, brank s' R d e).
Proof.
  intros Hwf Hv Hs. eapply mspec_mono.
  - apply intern_vok; [done|done|by split|]. intros e s' _ _ He _.
    split; [split; [done|]; intros _; apply size_flt|]. split; [by eapply no_cast|by eapply no_atom].
  - cbn. intros e s' Hw' _ _ [Ht He]. split; [done|]. split; [|intros R d; by eapply brank_leaf].
    intros ρ k. rewrite (ob_unfold _ _ _ _ _ Hw' He). unfold ob_node; cbn [node ty].
    unfold same_size_cast, same_size_atom. by rewrite He.
Qed.
Lemma atom_poly_v s e t : wf s → vok s → type_at s e = Some t → mem_ty t = true →
  mspec (bind (atomOf e) (λ a, mkPoly t [([a], 1)])) s (λ p s', type_at s' p = Some t ∧ (∀ ρ k, ob s' ρ p k = ob s ρ e k) ∧ keeps_rank s e p s').
Proof.
  intros Hwf Hv Ht Hm. assert (valid s e) as Hve by eauto with mvcc_arena.
  assert (mspec (atomOf e) s (λ a s', atoms s' !! a = Some e)) as Hatom.
  { eapply spec_mono; [by apply atomOf_spec|]. cbn. intros a s1 Hwf1 Hx1 (Hn & Ha & _). split; [|done].
    intros k x Hk Hmx. rewrite Hn in Hk. eapply vnode_ext; [exact Hwf|done|done|by apply Hv]. }
  eapply mspec_bind; [exact Hatom|]. cbn. intros a s1 Hwf1 Hv1 Hx1 Ha.
  assert (valid s1 e) as Hve1 by (by eapply ext_valid). assert (type_at s1 e = Some t) as Ht1 by (by eapply type_at_ext).
  assert (∀ p s2, ext s1 s2 → nodes s2 !! p = Some (mkExpr t (NPoly [([a], 1)])) → same_size_atom s2 p = Some e) as Hsame.
  { intros p s2 Hx2 Hp. unfold same_size_atom. rewrite Hp, (ext_atom _ _ _ _ Hx2 Ha).
    unfold size_at. by rewrite (type_at_ext _ _ _ _ Hx2 Ht1), Z.eqb_refl. }
  eapply mspec_mono; [apply intern_vok; [done|done| |]|].
  - split; [constructor|]. cbn. split; [apply (normalise_normal [([a], 1)])|].
    change [([a], 1)] with (normalise [([a], 1)]). apply poly_ok_normalise, poly_ok_atom. by exists e.
  - intros p s2 _ Hx2 Hp _. split; [by intros [? [=]]|]. split; [by eapply no_cast|].
    intros a' Ha'. change (normalise [([a], 1)]) with [([a], 1)] in Hp. rewrite (Hsame _ _ Hx2 Hp) in Ha'.
    injection Ha' as <-. right. exists t. split; [by eapply type_at_ext|done].
  - cbn. intros p s2 Hwf2 _ Hx2 [Htp Hp]. split; [done|].
    split; [|intros R d Hb; eapply br_atom; [by apply Hsame|eapply brank_ext; [exact Hwf|by etrans|done]]].
    intros ρ k. rewrite (ob_unfold _ _ _ _ _ Hwf2 Hp). unfold ob_node. cbn [node].
    rewrite (Hsame _ _ Hx2 Hp), (poly_no_cast _ _ _ _ Hp). apply ob_ext; [done|done|by etrans|done].
Qed.
Lemma asPoly_v s e t : wf s → vok s → type_at s e = Some t → mem_ty t = true →
  mspec (asPoly e) s (λ p s', type_at s' p = Some t ∧ (∀ ρ k, ob s' ρ p k = ob s ρ e k) ∧ keeps_rank s e p s').
Proof.
  intros Hwf Hv Ht Hm. pose proof (atom_poly_v s e t Hwf Hv Ht Hm) as Hatom.
  apply fmap_Some in Ht as (x & Hx & ->). eapply mspec_deref; [exact Hx|]. pose proof (Hv _ _ Hx Hm) as Hok.
  destruct x as [tx [bw c|ts| | | | | | | | |]]; cbn [node ty] in *; try exact Hatom.
  - destruct (isIntegerTy tx) eqn:Ei; [|exact Hatom]. destruct Hok as [[Hs _] _].
    eapply mspec_mono; [apply polyConst_v; try done|]. cbn. intros p s' _ _ Hxs (Htp & Hp & Hr). split; [done|].
    split; [|by intros R d _]. intros ρ k. rewrite Hp, (ob_unfold _ _ _ _ _ Hwf Hx). unfold ob_node, same_size_cast, same_size_atom. rewrite Hx. cbn [node ty].
    rewrite Ei, (den_unfold _ _ _ _ Hwf Hx). unfold eval_node; cbn [node ty]. by rewrite Ei.
  - apply mspec_ret; [done|done|]. split; [unfold type_at; by rewrite Hx|]. split; [done|by intros R d].
Qed.

(** *** A cast of the same size keeps the bytes *)
Lemma mem_int w : mem_ty (TInt w) = true → 0 < w ∧ w = 8 * sizeOf (TInt w).
Proof.
  cbn. rewrite andb_true_iff, Z.ltb_lt, Z.eqb_eq. intros [Hw Hm]. split; [done|]. rewrite size_int by done.
  Z.div_mod_to_equations. lia.
Qed.
Lemma mem_not_i1 t : mem_ty t = true → isInt1 t = false.
Proof. intros Hm. apply bool_decide_false. by intros ->. Qed.
Lemma cast_rest_bitcast a x t : cast_rest BitCast a x t = cast_opaque BitCast a t.
Proof. unfold cast_rest. by destruct (node x), (ty x), t. Qed.
Lemma cast_opaque_v s a t : wf s → vok s → mem_at s a → mem_ty t = true → size_at s a = sizeOf t →
  mspec (cast_opaque BitCast a t) s (λ r s', has_bytes t (λ ρ k, ob s ρ a k) r s' ∧ keeps_rank s a r s').
Proof.
  intros Hwf Hv Ha Ht Hs. pose proof (mem_valid _ _ Ha) as Hva.
  assert (∀ s' e, ext s s' → nodes s' !! e = Some (mkExpr t (NOp BitCast [a])) → same_size_cast s' e = Some a) as Hcast.
  { intros s' e Hx He. unfold same_size_cast. by rewrite He, (size_at_ext s s'), Hs, Z.eqb_refl. }
  eapply mspec_bind; [apply intern_vok; [done|done|by repeat constructor|]|].
  - intros e s' _ Hx He _. split; [done|]. split; [|by eapply no_atom].
    intros y Hy. rewrite (Hcast _ _ Hx He) in Hy. injection Hy as <-. by eapply mem_at_ext.
  - cbn. intros e s1 Hwf1 Hv1 Hx1 [Hte He].
    assert (∀ ρ k, ob s1 ρ e k = ob s ρ a k) as Hob.
    { intros ρ k. rewrite (ob_unfold _ _ _ _ _ Hwf1 He). unfold ob_node; cbn [node]. rewrite (Hcast _ _ Hx1 He). by apply ob_ext. }
    assert (keeps_rank s a e s1) as Hk.
    { intros R d Hb. eapply br_cast; [by apply Hcast|]. by apply (brank_ext s s1). }
    destruct (_ || _).
    + eapply mspec_mono; [by apply asPoly_v|]. cbn. intros p s2 _ _ _ (Htp & Hp & Hkp).
      split; [|intros R d Hb; by apply Hkp, Hk]. split; [done|]. intros ρ k _. by rewrite Hp, Hob.
    + apply mspec_ret; [done..|]. split; [|done]. split; [done|]. intros ρ k _. by rewrite Hob.
Qed.
(** the bytes of a constant are those of its value *)
Lemma const_bytes s e x c ρ k : wf s → nodes s !! e = Some x → constInt_node x = Some c → ob s ρ e k = Some (byte k c).
Proof.
  intros Hwf Hx Hc. assert (den s ρ e = c) as Hd by (eapply constInt_value; [done|unfold constInt; by rewrite Hx]).
  rewrite (ob_unfold _ _ _ _ _ Hwf Hx). unfold ob_node, same_size_cast, same_size_atom. rewrite Hx, Hd.
  destruct x as [tx [bw z|[|[[|] z] [|]]| | | | | | | | |]]; cbn [node ty] in *; try done.
  unfold constInt_node in Hc. cbn [node ty] in Hc. by destruct (isIntegerTy tx).
Qed.
Lemma getSExt_v s w c : wf s → vok s → 0 < w <= 64 → mspec (getSExt w c) s (λ v s', s' = s ∧ v = sext w c).
Proof.
  intros Hwf Hv Hw. unfold getSExt. pose proof (sext_range w c ltac:(lia)).
  assert (2 ^ (w - 1) <= 2 ^ 63) by (apply Z.pow_le_mono_r; lia).
  rewrite (proj2 (Z.leb_le _ _)), (proj2 (Z.ltb_lt _ _)) by lia. by apply mspec_ret.
Qed.
Lemma wrapw_mod w v : 0 < w → wrapw w v mod 2 ^ w = v mod 2 ^ w.
Proof. intros Hw. rewrite wrapw_sext by done. destruct (_ <=? _); [done|by apply sext_mod]. Qed.
Lemma bitcast_const_int s bw c w : wf s → vok s → 0 < w <= 64 → bw = w → sizeOf (TInt w) <= 8 → w = 8 * sizeOf (TInt w) →
  mspec (bind (getSExt bw c) (λ v, mkInt (TInt w) v)) s (λ r s', has_bytes (TInt w) (λ _ k, Some (byte k c)) r s' ∧ ∀ R d, brank s' R d r).
Proof.
  intros Hwf Hv Hw -> Hs Hsz. eapply mspec_bind; [by apply getSExt_v|]. cbn. intros v s1 Hwf1 Hv1 _ [-> ->].
  eapply mspec_mono; [by apply (mkInt_v s (TInt w) w)|]. cbn. intros e s2 _ _ _ (Ht & Hb & Hr). split; [|done]. split; [done|].
  intros ρ k Hk. right. rewrite Hb. f_equal. apply (byte_residue w); [lia|lia|].
  by rewrite wrapw_mod, sext_mod by lia.
Qed.
Lemma bitcast_const_flt s sem c : wf s → vok s → sizeOf (TFloat sem) <= 8 →
  mspec (mkConstFP (TFloat sem) (fltBits sem) (u64 c mod 2 ^ fltBits sem)) s
    (λ r s', has_bytes (TFloat sem) (λ _ k, Some (byte k c)) r s' ∧ ∀ R d, brank s' R d r).
Proof.
  intros Hwf Hv Hs. eapply mspec_mono; [by apply mkConstFP_v|]. cbn. intros e s' _ _ _ (Ht & Hb & Hr). split; [|done]. split; [done|].
  intros ρ k Hk. right. rewrite Hb, byte_mod by (try rewrite size_flt; lia). f_equal. unfold u64. symmetry. apply byte_mod; lia.
Qed.
Lemma has_bytes_mono t f g r s' : (∀ ρ k, 0 <= k < sizeOf t → refines (g ρ k) (f ρ k)) → has_bytes t f r s' → has_bytes t g r s'.
Proof. intros Hfg [Ht Hb]. split; [done|]. intros ρ k Hk. etrans; [by apply Hfg|by apply Hb]. Qed.
Lemma cast_v s a t : wf s → vok s → mem_at s a → mem_ty t = true → size_at s a = sizeOf t →
  mspec (cast BitCast a t) s (λ r s', has_bytes t (λ ρ k, ob s ρ a k) r s' ∧ keeps_rank s a r s').
Proof.
  intros Hwf Hv Ha Ht Hs. pose proof (cast_opaque_v s a t Hwf Hv Ha Ht Hs) as Hop.
  destruct (mem_node _ _ Ha) as (x & Hx & Hmx & Hsx). eapply mspec_deref; [exact Hx|]. cbn [is_intcast]. unfold cast_bits.
  destruct (bool_decide_reflect (ty x = t)) as [<-|Hne].
  { apply mspec_ret; [done..|]. split; [split; [unfold type_at; by rewrite Hx|done]|by intros R d]. }
  rewrite cast_rest_bitcast. destruct (Hv _ _ Hx Hmx) as [Hok _]. destruct (wf_nodes _ Hwf _ _ Hx) as [_ Hwfx].
  assert (∀ c sem, constInt_node x = Some c → t = TFloat sem →
    mspec (mkConstFP t (fltBits sem) (u64 c mod 2 ^ fltBits sem)) s (λ r s', has_bytes t (λ ρ k, ob s ρ a k) r s' ∧ keeps_rank s a r s')) as Hflt.
  { intros c sem Hc ->. eapply mspec_mono; [apply (bitcast_const_flt s); try done|].
    - rewrite <- Hs, Hsx. destruct (node x) eqn:En; try (unfold constInt_node in Hc; rewrite En in Hc; done); [tauto|].
      apply Hok. eauto.
    - intros r s' _ _ _ [Hb Hr]. split; [|by intros R d _]. eapply has_bytes_mono, Hb. intros ρ k _. by rewrite (const_bytes s a x c). }
  destruct (node x) eqn:En.
  all: try (destruct t; try exact Hop; destruct (constInt_node x) eqn:Ec; try exact Hop; by eapply Hflt).
  - destruct Hok as [Hs8 Hbw].
    assert (bw = 8 * sizeOf t) as Hbits.
    { rewrite <- Hs, Hsx. destruct (ty x) as [w0| | |] eqn:Et; try (apply Hbw; done).
      destruct (Hwfx w0 eq_refl) as (-> & _). by apply mem_int. }
    destruct t as [w| | |]; try exact Hop; [|destruct (constInt_node x) eqn:Ec; [by eapply Hflt|exact Hop]].
    destruct (mem_int w Ht) as [Hw Hw8].
    eapply mspec_mono; [apply (bitcast_const_int s bw c w); try done; lia|]. intros r s' _ _ _ [Hb Hr]. split; [|by intros R d _].
    eapply has_bytes_mono, Hb. intros ρ k Hk. right. rewrite (ob_unfold _ _ _ _ _ Hwf Hx). unfold ob_node, same_size_cast, same_size_atom. rewrite Hx, En.
    destruct x as [tx nx]. cbn [node ty] in *. subst nx.
    assert (den s ρ a = sext bw c ∨ isIntegerTy tx = false) as [->| ->]; [|f_equal; destruct (isIntegerTy tx); [|done]|done].
    { rewrite (den_unfold _ _ _ _ Hwf Hx). unfold eval_node; cbn [node ty]. destruct (isIntegerTy tx); auto. }
    apply (byte_residue w); [lia|lia|]. replace bw with w by lia. by rewrite sext_mod by lia.
  - eapply mspec_mono; [by apply mkUndef_v|]. cbn. intros r s' _ _ _ [Htr Hr]. split; [|by intros R d _]. split; [done|]. intros ρ k _.
    rewrite (ob_unfold _ _ _ _ _ Hwf Hx). unfold ob_node. by rewrite En.
Qed.
End bytes.
