(* ===== verification/ArenaIte.v ===== *)
(** Selections of values ([ite] of ArenaValue.v) under a condition that is constant or kept as it is: the result has
    the bytes of the arm the condition chooses. *)
From S2P Require Import Prelude Expr Arena ArenaSem ArenaCmp ArenaLits ArenaContra ArenaCond ArenaCondSem ArenaCondLits.
From S2P Require Import ArenaValue ArenaBytes.
Open Scope Z_scope.

Section select.
Context `{SizeLaws} `{CmpInst} (rec : Ops).
(** [cspec m st Q]: the operation returns, keeps the invariants and the tables of the path conditions *)
Definition cspec {A} (m : C A) (st : CSt) (Q : A → Arena → Prop) : Prop :=
  ∃ r s', m st = Some (r, mkC s' (me st)) ∧ wf s' ∧ ext (ar st) s' ∧ vok s' ∧ Q r s'.
Lemma cspec_ret {A} (x : A) st (Q : A → Arena → Prop) : wf (ar st) → vok (ar st) → Q x (ar st) → cspec (cret x) st Q.
Proof. intros. exists x, (ar st). destruct st. split_and!; done. Qed.
Lemma cspec_lift {A} (m : M A) st (Q : A → Arena → Prop) : mspec m (ar st) Q → cspec (lift m) st Q.
Proof. intros (r & s' & E & Hw & Hx & Hv & HQ). exists r, s'. unfold lift. by rewrite E. Qed.
Lemma cspec_bind {A B} (m : C A) (f : A → C B) st (Q : A → Arena → Prop) R :
  cspec m st Q → (∀ r s1, wf s1 → vok s1 → ext (ar st) s1 → Q r s1 → cspec (f r) (mkC s1 (me st)) R) → cspec (cbind m f) st R.
Proof.
  intros (r & s1 & E & Hw & Hx & Hv & HQ) Hf. destruct (Hf r s1 Hw Hv Hx HQ) as (r' & s2 & E2 & Hw2 & Hx2 & Hv2 & HR).
  exists r', s2. unfold cbind. rewrite E. split_and!; try done. by etrans.
Qed.
Lemma cspec_look {A B} (g : Arena → A) (f : A → C B) st (Q : B → Arena → Prop) :
  cspec (f (g (ar st))) st Q → cspec (cbind (look g) f) st Q.
Proof. done. Qed.
Lemma cspec_mono {A} (m : C A) st (Q R : A → Arena → Prop) :
  cspec m st Q → (∀ r s', wf s' → vok s' → ext (ar st) s' → Q r s' → R r s') → cspec m st R.
Proof. intros (r & s' & E & Hw & Hx & Hv & HQ) HR. exists r, s'. split_and!; auto. Qed.

(** an arm of a selection under the same condition *)
Lemma arm_of_v s c k e x : wf s → vok s → mem_at s e → arm_of s c (S k) e = Some x → (k < 2)%nat →
  (x < e)%nat ∧ mem_at s x ∧ size_at s x = size_at s e ∧
  (∀ ρ j, T s ρ c = (k =? 0)%nat → ob s ρ e j = ob s ρ x j) ∧ keeps_rank s e x s.
Proof.
  intros Hwf Hv Hm. destruct (mem_node _ _ Hm) as ([t n] & Hx & Hmx & Hs). cbn [ty] in *. unfold arm_of, node_at. rewrite Hx. cbn [fmap option_fmap option_map node].
  destruct n as [| | | | |l| | | | |]; try done. destruct (bool_decide_reflect (l !! 0%nat = Some c)) as [Hc|]; [|done].
  destruct (Hv _ _ Hx Hmx) as [(c' & a & b & -> & Hp & Ha & Hb & Hma & Hmb) _]. cbn [lookup list_lookup ty] in *. injection Hc as ->.
  destruct (wf_nodes _ Hwf _ _ Hx) as [Hch _]. cbn in Hch. apply Forall_cons in Hch as [? [? [? _]%Forall_cons]%Forall_cons].
  assert (∀ R d, brank s R d e → brank s R d a ∧ brank s R d b) as Hrank.
  { intros R d Hr. inversion Hr as [? ? ? ? ? ? He|d' ? ? c0 a0 b0 He Ha0 Hb0|? ? ? He|? ? ? He|? ? ? He Hn]; subst;
      try (rewrite Hx in He; congruence).
    - rewrite Hx in He. injection He as <- <- <- <-. split; (eapply brank_mono; [done|lia|lia]).
    - apply same_size_cast_node in He as (? & ? & He & _). congruence.
    - apply same_size_atom_node in He as (? & ? & He & _). congruence.
    - rewrite Hx in He. injection He as <-. done. }
  intros Hl Hk. destruct k as [|[|k]]; [| |lia]; cbn in Hl; injection Hl as <-; rewrite Hs; (split_and!; [done|done|done| |by intros R d []%Hrank]);
    intros ρ j HT; rewrite (ob_unfold _ _ _ _ _ Hwf Hx); unfold ob_node; cbn [node]; by rewrite HT.
Qed.
(** [unwrap] *)
Lemma unwrap_v s e : wf s → mem_at s e →
  (unwrap s e ≤ e)%nat ∧ mem_at s (unwrap s e) ∧ size_at s (unwrap s e) = size_at s e ∧
  (∀ ρ k, ob s ρ (unwrap s e) k = ob s ρ e k) ∧ keeps_rank s e (unwrap s e) s.
Proof.
  intros Hwf Hm. assert (∀ u, u = e → (u ≤ e)%nat ∧ mem_at s u ∧ size_at s u = size_at s e ∧
    (∀ ρ k, ob s ρ u k = ob s ρ e k) ∧ keeps_rank s e u s) as Hid by (intros u ->; split_and!; [lia|done..|by intros R d]).
  destruct (mem_node _ _ Hm) as ([t n] & Hx & Hmx & Hs). unfold unwrap. rewrite Hx.
  destruct n as [|[|[[|i [|]] z] [|]]| | | | | | | | |]; try (apply Hid; done); try (apply Hid; destruct z as [|[]|]; done).
  destruct z as [|[]|]; try by apply Hid. destruct (atoms s !! i) as [x|] eqn:Ei; [|by apply Hid].
  destruct (bool_decide_reflect (type_at s x = Some t)) as [Ht|]; [|by apply Hid].
  assert (same_size_atom s e = Some x) as Hatom.
  { unfold same_size_atom. rewrite Hx, Ei. unfold size_at. by rewrite Ht, Z.eqb_refl. }
  split; [pose proof (atom_older _ _ _ Hwf Hatom); lia|]. split; [by exists t|].
  split; [unfold size_at at 1; by rewrite Ht, Hs|]. split.
  - intros ρ k. rewrite (ob_unfold s ρ e _ k Hwf Hx). unfold ob_node. rewrite Hatom. unfold same_size_cast. by rewrite Hx.
  - intros R d Hr. inversion Hr as [? ? ? ? ? ? He|? ? ? ? ? ? He|? ? ? He|? ? ? He|? ? ? He _ _ Ha]; subst; try congruence.
    apply same_size_cast_node in He as (? & ? & He & _). congruence.
Qed.
Lemma same_size_cast_v s e y : wf s → mem_at s e → same_size_cast s e = Some y →
  (y < e)%nat ∧ size_at s y = size_at s e ∧ (∀ ρ k, ob s ρ e k = ob s ρ y k) ∧ keeps_rank s e y s.
Proof.
  intros Hwf Hm Hc. pose proof (same_size_cast_node _ _ _ Hc) as (t & l & He & Hs). split; [by eapply cast_older|].
  split; [unfold size_at at 2, type_at; by rewrite He|]. split.
  - intros ρ k. rewrite (ob_unfold _ _ _ _ _ Hwf He). unfold ob_node. by rewrite Hc.
  - intros R d Hr. inversion Hr as [? ? ? ? ? ? He'|? ? ? ? ? ? He'|? ? ? He'|? ? ? He'|? ? ? He' _ Hn]; subst; try congruence.
    apply same_size_atom_node in He' as (? & ? & He' & _). congruence.
Qed.
Lemma hoistable_v s e y t : wf s → mem_at s e → hoistable s e = Some (y, t) →
  (y < e)%nat ∧ mem_at s y ∧ size_at s y = size_at s e ∧ (∀ ρ k, ob s ρ e k = ob s ρ y k) ∧ keeps_rank s e y s.
Proof.
  intros Hwf Hm. unfold hoistable. destruct (same_size_cast s e) as [y'|] eqn:Ec; [|done].
  destruct (type_at s y') as [t'|] eqn:Et; [|done]. destruct (isIntegerTy t') eqn:Ei; [done|]. intros [= <- <-].
  destruct (same_size_cast_v _ _ _ Hwf Hm Ec) as (Hlt & Hs & Hob & Hr).
  split; [done|]. split; [exists t'; split; [done|by destruct t']|done].
Qed.

(** ** The selection *)
Definition chosen (s : Arena) (ρ : Env) (c a b : EP) : EP := if T s ρ c then a else b.
Definition selects (s : Arena) (c a b r : EP) (s' : Arena) : Prop :=
  mem_at s' r ∧ size_at s' r = size_at s a ∧
  (∀ ρ k, 0 <= k < size_at s a → refines (ob s ρ (chosen s ρ c a b) k) (ob s' ρ r k)) ∧
  ∀ R d, brank s R d a → brank s R d b → brank s' R (S d) r.
Lemma selects_arm s c a b r : mem_at s r → size_at s r = size_at s a →
  (∀ ρ k, refines (ob s ρ (chosen s ρ c a b) k) (ob s ρ r k)) →
  (∀ R d, brank s R d a → brank s R d b → brank s R d r) → selects s c a b r s.
Proof.
  intros Hm Hs Hob Hr. split_and!; auto. intros R d Ha Hb. eapply brank_mono; [by apply Hr|lia|lia].
Qed.
Lemma selects_sub s c a b x y r s' : size_at s x = size_at s a →
  (∀ ρ k, refines (ob s ρ (chosen s ρ c a b) k) (ob s ρ (chosen s ρ c x y) k)) →
  (∀ R d, brank s R d a → brank s R d b → brank s R d x ∧ brank s R d y) →
  selects s c x y r s' → selects s c a b r s'.
Proof.
  intros Hs Hob Hr (Hm & Hsr & Ho & Hk). rewrite Hs in *. split_and!; [done|done| |].
  - intros ρ k Hk'. etrans; [apply Hob|by apply Ho].
  - intros R d Ha Hb. destruct (Hr R d Ha Hb). by apply Hk.
Qed.
Lemma undef_ob s ρ e k : wf s → is_undef s e = true → ob s ρ e k = None.
Proof.
  intros Hwf. unfold is_undef, node_at. destruct (nodes s !! e) as [x|] eqn:Hx; [|done]. cbn.
  intros Hu. rewrite (ob_unfold _ _ _ _ _ Hwf Hx). unfold ob_node. by destruct (node x).
Qed.
Lemma new_ite_v c a b t st : wf (ar st) → vok (ar st) → plain (ar st) c → mem_at (ar st) a → mem_at (ar st) b →
  size_at (ar st) a = size_at (ar st) b → type_at (ar st) a = Some t →
  cspec (lift (intern (mkExpr t (NIte [c; a; b])))) st (selects (ar st) c a b).
Proof.
  intros Hwf Hv Hc Ha Hb Hs Ht. pose proof (mem_valid _ _ Ha) as Hva. pose proof (mem_valid _ _ Hb) as Hvb.
  assert (size_at (ar st) a = sizeOf t) as Hsa by (unfold size_at; by rewrite Ht).
  assert (mem_ty t = true) as Hmt by (destruct Ha as (t' & Ht' & ?); congruence).
  apply cspec_lift. eapply mspec_mono; [apply intern_vok; [done|done| |]|].
  - split; [|done]. destruct Hc as (Hvc & _). unfold valid in *. by repeat constructor.
  - intros e s' Hwf' Hx He _. split; [|split; [by eapply no_cast|by eapply no_atom]]. exists c, a, b.
    rewrite !(size_at_ext (ar st) s') by done. split_and!; eauto using plain_ext, mem_at_ext; cbn [ty]; congruence.
  - cbn. intros e s' Hwf' _ Hx [Hte He]. split; [by exists t|]. split; [unfold size_at at 1; by rewrite Hte, Hsa|]. split.
    + intros ρ k Hk. right. rewrite (ob_unfold _ _ _ _ _ Hwf' He). unfold ob_node; cbn [node].
      rewrite (T_ext (ar st) s') by (done || by destruct Hc). unfold chosen.
      destruct (T (ar st) ρ c); symmetry; by apply ob_ext.
    + intros R d Hra Hrb. eapply br_ite; [exact He|by apply (brank_ext (ar st) s')..].
Qed.

(** the arms under the condition's own selections *)
Lemma arms_sub s c a b x y : wf s → vok s → mem_at s a → mem_at s b → size_at s a = size_at s b →
  x = default a (arm_of s c 1 a) → y = default b (arm_of s c 2 b) →
  (x ≤ a)%nat ∧ (y ≤ b)%nat ∧ mem_at s x ∧ mem_at s y ∧ size_at s x = size_at s a ∧ size_at s y = size_at s a ∧
  (∀ ρ k, refines (ob s ρ (chosen s ρ c a b) k) (ob s ρ (chosen s ρ c x y) k)) ∧ keeps_rank s a x s ∧ keeps_rank s b y s.
Proof.
  intros Hwf Hv Ha Hb Hs -> ->.
  assert (∀ e k, (k < 2)%nat → mem_at s e → let z := default e (arm_of s c (S k) e) in
    (z ≤ e)%nat ∧ mem_at s z ∧ size_at s z = size_at s e ∧ (∀ ρ j, T s ρ c = (k =? 0)%nat → ob s ρ e j = ob s ρ z j) ∧ keeps_rank s e z s) as Harm.
  { intros e k Hk Hm z. unfold z. destruct (arm_of s c (S k) e) as [x|] eqn:E; cbn [default].
    - destruct (arm_of_v _ _ _ _ _ Hwf Hv Hm E Hk) as (? & ? & ? & ? & ?). split_and!; try done. cbn. lia.
    - split_and!; [lia|done..|by intros R d]. }
  destruct (Harm a 0%nat ltac:(lia) Ha) as (Hla & Hma & Hsa & Hoa & Hka).
  destruct (Harm b 1%nat ltac:(lia) Hb) as (Hlb & Hmb & Hsb & Hob & Hkb).
  split_and!; try done; [congruence|]. intros ρ k. right. unfold chosen. destruct (T s ρ c) eqn:ET; [by apply Hoa|by apply Hob].
Qed.
Lemma type_of_v s me e t : type_at s e = Some t → type_of e (mkC s me) = Some (t, mkC s me).
Proof.
  intros Ht. apply fmap_Some in Ht as (x & Hx & ->). unfold type_of, lift, ty_of, bind, deref. cbn. by rewrite Hx.
Qed.
Lemma cspec_type_of {B} (f : Ty → C B) st e t (Q : B → Arena → Prop) : type_at (ar st) e = Some t →
  cspec (f t) st Q → cspec (cbind (type_of e) f) st Q.
Proof.
  intros Ht (r & s' & E & HQ). exists r, s'. split; [|done]. unfold cbind. destruct st as [s m]. cbn [ar] in Ht.
  by rewrite (type_of_v _ _ _ _ Ht).
Qed.
Lemma size_of_type s e t : type_at s e = Some t → size_at s e = sizeOf t.
Proof. unfold size_at. by intros ->. Qed.
(** the bitcasts of both arms, made one of the selection *)
Lemma hoist_v (ite : EP → EP → EP → C EP) c a b x y t st :
  wf (ar st) → vok (ar st) → mem_at (ar st) a → type_at (ar st) a = Some t →
  (∀ ρ k, ob (ar st) ρ (chosen (ar st) ρ c a b) k = ob (ar st) ρ (chosen (ar st) ρ c x y) k) →
  size_at (ar st) x = size_at (ar st) a → keeps_rank (ar st) a x (ar st) → keeps_rank (ar st) b y (ar st) →
  cspec (ite c x y) st (selects (ar st) c x y) →
  cspec (let! r := ite c x y in lift (cast BitCast r t)) st (selects (ar st) c a b).
Proof.
  intros Hwf Hv Ha Ht Hob Hs Hka Hkb Hrec.
  assert (mem_ty t = true) as Hmt by (destruct Ha as (t' & Ht' & ?); congruence).
  assert (size_at (ar st) a = sizeOf t) as Hsa by (by apply size_of_type).
  eapply cspec_bind; [exact Hrec|]. cbn beta. intros r s1 Hw1 Hv1 Hx1 (Hm & Hsr & Ho & Hk).
  apply cspec_lift. cbn [ar]. eapply mspec_mono; [apply cast_v; try done; congruence|]. cbn.
  intros e s2 Hw2 Hv2 Hx2 [[Hte Hoe] Hke]. split; [by exists t|]. split; [by rewrite (size_of_type _ _ _ Hte)|]. split.
  - intros ρ k Hkr. rewrite Hob. etrans; [apply Ho; lia|]. apply Hoe. lia.
  - intros R d Hra Hrb. apply Hke, Hk; [by apply Hka|by apply Hkb].
Qed.
Lemma ite_plain n c a b st :
  (a + b < n)%nat → wf (ar st) → vok (ar st) → plain (ar st) c → mem_at (ar st) a → mem_at (ar st) b →
  size_at (ar st) a = size_at (ar st) b → cspec (ite_f rec n c a b) st (selects (ar st) c a b).
Proof.
  revert a b st. induction n as [|n IH]; intros a b st Hn Hwf Hv Hc Ha Hb Hs; [lia|]. cbn [ite_f]. unfold ite_body.
  pose proof Hc as (Hvc & Ht & Hf & Hfl & Hng).
  do 2 (apply cspec_look; rewrite ?Ht, ?Hf).
  destruct (Nat.eqb_spec a b) as [<-|Hab].
  { apply cspec_ret; [done..|]. apply selects_arm; auto. intros ρ k. unfold chosen. by destruct (T _ _ _). }
  do 2 (apply cspec_look; rewrite ?Hfl, ?Hng).
  apply cspec_look. destruct (is_undef (ar st) a) eqn:Ua.
  { apply cspec_ret; [done..|]. apply selects_arm; auto. intros ρ k. unfold chosen. destruct (T _ _ _); [|done]. by rewrite undef_ob. }
  apply cspec_look. destruct (is_undef (ar st) b) eqn:Ub.
  { apply cspec_ret; [done..|]. apply selects_arm; auto. intros ρ k. unfold chosen. destruct (T _ _ _); [done|]. by rewrite undef_ob. }
  apply cspec_look. apply cspec_look.
  set (x := default a (arm_of (ar st) c 1 a)) in *. set (y := default b (arm_of (ar st) c 2 b)) in *.
  destruct (arms_sub (ar st) c a b x y Hwf Hv Ha Hb Hs eq_refl eq_refl) as (Hlx & Hly & Hmx & Hmy & Hsx & Hsy & Hobs & Hkx & Hky).
  eapply cspec_mono; [|intros r s' _ _ _ HQ; eapply (selects_sub (ar st) c a b x y); [done|done| |exact HQ];
    intros R d ??; split; [by apply Hkx|by apply Hky]].
  clearbody x y. clear Hobs Hkx Hky Ha Hb Ua Ub Hab Hs.
  destruct (Nat.eqb_spec x y) as [<-|Hxy].
  { apply cspec_ret; [done..|]. apply selects_arm; auto. intros ρ k. unfold chosen. by destruct (T _ _ _). }
  destruct (unwrap_v (ar st) x Hwf Hmx) as (Hux & Hmux & Hsux & Hobx & Hkux).
  destruct (unwrap_v (ar st) y Hwf Hmy) as (Huy & Hmuy & Hsuy & Hoby & Hkuy).
  apply cspec_look. apply cspec_look. destruct (mem_node _ _ Hmx) as (nx & Hnx & Hmt & _).
  assert (type_at (ar st) x = Some (ty nx)) as Htx by (unfold type_at; by rewrite Hnx).
  eapply cspec_type_of; [exact Htx|]. rewrite (mem_not_i1 _ Hmt).
  assert (cspec (lift (intern (mkExpr (ty nx) (NIte [c; x; y])))) st (selects (ar st) c x y)) as Hnew
    by (apply new_ite_v; try done; congruence).
  destruct (hoistable (ar st) (unwrap (ar st) x)) as [[x' tx]|] eqn:Ehx; [|exact Hnew].
  destruct (hoistable (ar st) (unwrap (ar st) y)) as [[y' ty']|] eqn:Ehy; [|exact Hnew].
  destruct (bool_decide _); [|exact Hnew].
  destruct (hoistable_v _ _ _ _ Hwf Hmux Ehx) as (Hlx' & Hmx' & Hsx' & Hox' & Hkx').
  destruct (hoistable_v _ _ _ _ Hwf Hmuy Ehy) as (Hly' & Hmy' & Hsy' & Hoy' & Hky').
  eapply hoist_v; try done; [|congruence| | |apply IH; try done; [lia|congruence]].
  - intros ρ k. unfold chosen. destruct (T _ _ _); [by rewrite <- Hobx|by rewrite <- Hoby].
  - intros R d Hr. by apply Hkx', Hkux.
  - intros R d Hr. by apply Hky', Hkuy.
Qed.
(** a condition that chooses an arm at once, or is kept *)
Definition settled (s : Arena) (c : EP) : Prop := isTrue s c = true ∨ isFalse s c = true ∨ plain s c.
#[export] Instance settled_dec s c : Decision (settled s c).
Proof. unfold settled, plain, valid. apply _. Defined.
Lemma ite_settled n c a b st :
  (a + b < n)%nat → wf (ar st) → vok (ar st) → settled (ar st) c → mem_at (ar st) a → mem_at (ar st) b →
  size_at (ar st) a = size_at (ar st) b → cspec (ite_f rec n c a b) st (selects (ar st) c a b).
Proof.
  intros Hn Hwf Hv [Ht|[Hf|Hc]] Ha Hb Hs; [| |by apply ite_plain].
  - destruct n as [|n]; [lia|]. cbn [ite_f]. unfold ite_body. apply cspec_look. rewrite Ht.
    apply cspec_ret; [done..|]. apply selects_arm; auto. intros ρ k. unfold chosen. by rewrite isTrue_T.
  - destruct n as [|n]; [lia|]. cbn [ite_f]. unfold ite_body. apply cspec_look.
    destruct (isTrue (ar st) c) eqn:Ht; [pose proof (isTrue_T _ Hwf (mkEnv (λ _, 0) (λ _ _ _, 0)) c Ht) as HT; by rewrite isFalse_T in HT|].
    apply cspec_look. rewrite Hf.
    apply cspec_ret; [done..|]. apply selects_arm; auto. intros ρ k. unfold chosen. by rewrite isFalse_T.
Qed.
(** turned round, the condition chooses the other arm *)
Lemma selects_turned s c c' a b r s' ρ k : size_at s a = size_at s b →
  selects s c' b a r s' → T s ρ c = negb (T s ρ c') → 0 <= k < size_at s a →
  refines (ob s ρ (chosen s ρ c a b) k) (ob s' ρ r k).
Proof.
  intros Hs (_ & _ & Ho & _) HT Hk. rewrite <- Hs in *. specialize (Ho ρ k Hk). unfold chosen in *. rewrite HT. by destruct (T s ρ c').
Qed.
End select.
