(* ===== verification/ArenaSlice.v ===== *)
(** [bytes], [toBytes] and [fromBytes] (ArenaValue.v) return, and what they return has the bytes asked for:
    specifications of the three over a record of the calls they make, and the fuel that is enough. *)
From S2P Require Import Prelude Expr Arena ArenaSem ArenaCmp ArenaLits ArenaContra ArenaCond ArenaCondSem.
From S2P Require Import ArenaValue ArenaBytes ArenaIte.
Open Scope Z_scope.

Section slices.
Context `{SizeLaws} `{CmpInst} (cond_ops : Ops).

(** ** What the operations promise *)
(** [lo .. lo+len) are bytes of a value of memory *)
Definition sliceable (s : Arena) (e : EP) (lo len : Z) : Prop :=
  mem_at s e ∧ 0 <= lo ∧ 0 < len ∧ lo + len <= size_at s e.
Definition slice (s : Arena) (e : EP) (lo len : Z) (r : EP) : Prop :=
  mem_at s r ∧ size_at s r = len ∧
  (∀ ρ k, 0 <= k < len → refines (ob s ρ e (lo + k)) (ob s ρ r k)) ∧
  (len = 1 → brank s e e r).
(** a byte with its source among the expressions up to [R], below at most [d] selections *)
Definition a_byte (s : Arena) (R d : nat) (b : EP) : Prop := mem_at s b ∧ size_at s b = 1 ∧ brank s R d b.
Definition newest (s : Arena) (v : EP) : nat := if is_concat s v then pred v else v.
Definition split_of (s : Arena) (v : EP) (bs : list EP) : Prop :=
  mem_at s v ∧ Z.of_nat (length bs) = size_at s v ∧ Forall (a_byte s (newest s v) (newest s v)) bs ∧
  ∀ i b, bs !! i = Some b → ∀ ρ, refines (ob s ρ v (Z.of_nat i)) (ob s ρ b 0).
Definition joins (s : Arena) (bs : list EP) (t : Ty) (r : EP) (s' : Arena) : Prop :=
  type_at s' r = Some t ∧ ∀ ρ i b, bs !! i = Some b → refines (ob s ρ b 0) (ob s' ρ r (Z.of_nat i)).

Record vinv (st : VSt) : Prop := {
  vi_wf : wf (var st);
  vi_ok : vok (var st);
  vi_slices : map_Forall (λ k r, sliceable (var st) k.1.1 k.1.2 k.2 ∧ slice (var st) k.1.1 k.1.2 k.2 r) (bytesMemo st);
  vi_splits : map_Forall (split_of (var st)) (byteMemo st) }.
Definition vspec {A} (m : V A) (st : VSt) (Q : A → Arena → Prop) : Prop :=
  ∃ r st', m st = Some (r, st') ∧ vinv st' ∧ ext (var st) (var st') ∧ me (cs st') = me (cs st) ∧ Q r (var st').

(** ** What is promised stays true *)
Section stable.
Context (s s' : Arena) (Hw : wf s) (Hw' : wf s') (Hx : ext s s').
Lemma sliceable_ext e lo len : sliceable s e lo len → sliceable s' e lo len.
Proof.
  intros (Hm & Hlo & Hlen & Hs). unfold sliceable. rewrite (size_at_ext s s') by eauto using mem_valid.
  split_and!; try done. by eapply mem_at_ext.
Qed.
Lemma slice_ext e lo len r : mem_at s e → slice s e lo len r → slice s' e lo len r.
Proof.
  intros He (Hm & Hs & Ho & Hr). pose proof (mem_valid _ _ He). pose proof (mem_valid _ _ Hm).
  split; [by eapply mem_at_ext|]. split; [by rewrite (size_at_ext s s')|]. split.
  - intros ρ k Hk. rewrite !(ob_ext s s') by done. by apply Ho.
  - intros Hl. apply (brank_ext s s'); auto.
Qed.
Lemma a_byte_ext R d b : a_byte s R d b → a_byte s' R d b.
Proof.
  intros (Hm & Hs & Hr). split; [by eapply mem_at_ext|].
  rewrite (size_at_ext s s') by eauto using mem_valid. split; [done|]. by apply (brank_ext s s').
Qed.
Lemma is_concat_ext e : valid s e → is_concat s' e = is_concat s e.
Proof. intros Hv. unfold is_concat. by rewrite (node_at_ext s s'). Qed.
Lemma split_of_ext v bs : split_of s v bs → split_of s' v bs.
Proof.
  intros (Hm & Hl & Hbs & Ho). pose proof (mem_valid _ _ Hm) as Hv. unfold split_of, newest. rewrite is_concat_ext, (size_at_ext s s') by done.
  split; [by eapply mem_at_ext|]. split; [done|]. split.
  - eapply Forall_impl; [exact Hbs|]. intros b. apply a_byte_ext.
  - intros i b Hi ρ. pose proof Hi as Hin%list_elem_of_lookup_2. rewrite Forall_forall in Hbs.
    destruct (Hbs b Hin) as (Hmb & _). rewrite !(ob_ext s s') by eauto using mem_valid. eauto.
Qed.
End stable.
Lemma vinv_ext st c : vinv st → wf (ar c) → vok (ar c) → ext (var st) (ar c) → vinv (mkV c (bytesMemo st) (byteMemo st)).
Proof.
  intros [Hw Hv Hs Hp] Hw' Hv' Hx. split; [done|done| |].
  - eapply map_Forall_impl; [exact Hs|]. cbn. intros k r [Ha Hb]. split; [by apply (sliceable_ext (var st))|].
    apply (slice_ext (var st)); try done. by destruct Ha.
  - eapply map_Forall_impl; [exact Hp|]. cbn. intros v bs. by apply split_of_ext.
Qed.

(** ** The monad *)
Lemma vspec_ret {A} (x : A) st (Q : A → Arena → Prop) : vinv st → Q x (var st) → vspec (vret x) st Q.
Proof. intros. by exists x, st. Qed.
Lemma vspec_bind {A B} (m : V A) (f : A → V B) st (Q : A → Arena → Prop) R :
  vspec m st Q →
  (∀ r st1, vinv st1 → ext (var st) (var st1) → me (cs st1) = me (cs st) → Q r (var st1) → vspec (f r) st1 R) →
  vspec (vbind m f) st R.
Proof.
  intros (r & st1 & E & Hi & Hx & Hm & HQ) Hf. destruct (Hf r st1 Hi Hx Hm HQ) as (r' & st2 & E2 & Hi2 & Hx2 & Hm2 & HR).
  exists r', st2. unfold vbind. rewrite E. split_and!; try done; [by etrans|congruence].
Qed.
Lemma vspec_mono {A} (m : V A) st (Q R : A → Arena → Prop) :
  vspec m st Q → (∀ r st', vinv st' → ext (var st) (var st') → Q r (var st') → R r (var st')) → vspec m st R.
Proof. intros (r & st' & E & Hi & Hx & Hm & HQ) HR. exists r, st'. split_and!; auto. Qed.
Lemma vspec_see {A B} (g : Arena → A) (f : A → V B) st (Q : B → Arena → Prop) :
  vspec (f (g (var st))) st Q → vspec (vbind (vsee g) f) st Q.
Proof. done. Qed.
Lemma vspec_lift {A} (m : C A) st (Q : A → Arena → Prop) : vinv st → cspec m (cs st) Q → vspec (vlift m) st Q.
Proof.
  intros Hi (r & s' & E & Hw & Hx & Hv & HQ). exists r, (mkV (mkC s' (me (cs st))) (bytesMemo st) (byteMemo st)).
  unfold vlift. rewrite E. split_and!; try done. by apply vinv_ext.
Qed.
Lemma vspec_vm {A} (m : M A) st (Q : A → Arena → Prop) : vinv st → mspec m (var st) Q → vspec (vm m) st Q.
Proof. intros Hi Hm. apply vspec_lift; [done|]. by apply cspec_lift. Qed.
Lemma vspec_deref {B} (f : Expr → V B) st e x (Q : B → Arena → Prop) :
  nodes (var st) !! e = Some x → vspec (f x) st Q → vspec (vbind (vm (deref e)) f) st Q.
Proof.
  intros Hx (r & st' & E & HQ). exists r, st'. split; [|done]. unfold vbind, vm, vlift, lift, deref. fold (var st).
  rewrite Hx. by destruct st as [[] ? ?].
Qed.
Lemma vspec_map {A B} (P : A → B → Arena → Prop) (f : A → V B) l st :
  vinv st → (∀ x y s1 s2, wf s1 → wf s2 → ext s1 s2 → P x y s1 → P x y s2) →
  (∀ x st', x ∈ l → vinv st' → ext (var st) (var st') → vspec (f x) st' (P x)) →
  vspec (vmap f l) st (λ ys s', Forall2 (λ x y, P x y s') l ys).
Proof.
  intros Hi HP. revert st Hi. induction l as [|x l IH]; intros st Hi Hf; cbn [vmap]; [by apply vspec_ret|].
  eapply vspec_bind; [apply Hf; [left|done|done]|]. intros y st1 Hi1 Hx1 _ Hy.
  eapply vspec_bind; [apply IH; [done|]; intros x' st' ? ? ?; apply Hf; [by right|done|by etrans]|].
  intros ys st2 Hi2 Hx2 _ Hys. apply vspec_ret; [done|]. constructor; [|done].
  eapply HP; [apply Hi1|apply Hi2|done|done].
Qed.
(** ** [bytes] *)
Lemma bytesTy_mem len : 0 < len → mem_ty (bytesTy len) = true ∧ sizeOf (bytesTy len) = len.
Proof.
  intros Hl. unfold bytesTy, mem_ty. rewrite (proj2 (Z.ltb_lt _ _)) by lia. rewrite Z.mul_comm, Z.mod_mul by lia.
  split; [done|]. rewrite size_int by lia. Z.div_mod_to_equations. lia.
Qed.
Lemma slice_of s e lo len r : 0 < len → type_at s r = Some (bytesTy len) →
  (∀ ρ k, 0 <= k < len → refines (ob s ρ e (lo + k)) (ob s ρ r k)) → (len = 1 → brank s e e r) → slice s e lo len r.
Proof.
  intros Hl Ht Ho Hr. destruct (bytesTy_mem len Hl) as [Hm Hs]. split; [by exists (bytesTy len)|].
  split; [by rewrite (size_of_type _ _ _ Ht)|done].
Qed.
Lemma slice_via s e y lo lo' len r : (y ≤ e)%nat →
  (∀ ρ k, 0 <= k < len → refines (ob s ρ e (lo + k)) (ob s ρ y (lo' + k))) → slice s y lo' len r → slice s e lo len r.
Proof.
  intros Hy Hob (Hm & Hs & Ho & Hr). split_and!; try done.
  - intros ρ k Hk. etrans; [by apply Hob|by apply Ho].
  - intros Hl. eapply brank_mono; [by apply Hr|done|done].
Qed.
Lemma whole_slice s e lo len : wf s → mem_at s e → whole s e lo len = true → slice s e lo len e.
Proof.
  intros Hwf Hm [->%Z.eqb_eq ->%Z.eqb_eq]%andb_true_iff. split_and!; [done|done|done|].
  intros _. apply brank_old; [done|by apply mem_valid|lia|lia].
Qed.
(** the part that holds the bytes *)
Lemma size_nonneg_at s p : 0 <= size_at s p.
Proof. unfold size_at. destruct (type_at s p); [apply size_nonneg|done]. Qed.
Lemma covering_part_late s ps off lo len : lo < off → covering_part s ps off lo len = None.
Proof.
  revert off. induction ps as [|p ps IH]; intros off Hlo; cbn [covering_part]; [done|].
  destruct (Z.leb_spec off lo); [lia|]. cbn. apply IH. pose proof (size_nonneg_at s p). lia.
Qed.
Lemma covering_part_Some s ps off lo len p o : covering_part s ps off lo len = Some (p, o) → 0 < len →
  p ∈ ps ∧ 0 <= o ∧ o + len <= size_at s p ∧
  ∀ look k, 0 <= k < len → part_byte look s ps (lo - off + k) = look p (o + k).
Proof.
  intros Hc Hlen. revert off Hc. induction ps as [|q ps IH]; intros off; cbn [covering_part]; [done|].
  pose proof (size_nonneg_at s q). destruct (Z.leb_spec off lo); cbn [andb].
  - destruct (Z.leb_spec (lo + len) (off + size_at s q)).
    + intros [= -> <-]. split; [left|]. split; [lia|]. split; [lia|]. intros look k Hk. cbn [part_byte].
      destruct (Z.ltb_spec (lo - off + k) (size_at s p)); [done|lia].
    + intros Hc. destruct (Z.ltb_spec lo (off + size_at s q)) as [Hlt|].
      { by rewrite covering_part_late in Hc. }
      destruct (IH _ Hc) as (Hp & Ho & Hs & Hl). split; [by right|]. split; [done|]. split; [done|].
      intros look k Hk. rewrite <- (Hl look k Hk). cbn [part_byte].
      destruct (Z.ltb_spec (lo - off + k) (size_at s q)); [lia|f_equal; lia].
  - intros Hc. rewrite covering_part_late in Hc by lia. done.
Qed.
(** one byte never straddles parts *)
Lemma covering_part_one s ps off lo : off <= lo → lo < off + sizes s ps → is_Some (covering_part s ps off lo 1).
Proof.
  revert off. induction ps as [|p ps IH]; intros off Ho Hs; cbn [sizes covering_part] in *; [lia|].
  destruct (Z.leb_spec off lo); [|lia]. cbn [andb]. destruct (Z.leb_spec (lo + 1) (off + size_at s p)); [by eexists|].
  apply IH; lia.
Qed.
(** constants *)
Lemma bytes_const_v st e x lo len : vinv st → nodes (var st) !! e = Some x → mem_ty (ty x) = true →
  sliceable (var st) e lo len → (constInt_node x = None → ∃ bw c, node x = NConst bw c) →
  vspec (bytes_const x lo len) st (λ r s', slice s' e lo len r).
Proof.
  intros Hi Hx Hm (Hme & Hlo & Hlen & Hle) Hc. pose proof (vi_wf _ Hi) as Hwf. pose proof (vi_ok _ Hi) as Hv.
  destruct (bytesTy_mem len Hlen) as [Hbm Hbs].
  destruct (Hv _ _ Hx Hm) as [Hok _]. assert (size_at (var st) e = sizeOf (ty x)) as Hsz
    by (apply size_of_type; unfold type_at; by rewrite Hx).
  assert (∀ v (f : Env → Z → option Z), (∀ ρ k, ob (var st) ρ e k = f ρ k) → sizeOf (ty x) <= 8 →
    (∀ ρ k, 0 <= k < len → f ρ (lo + k) = Some (byte k v)) →
    mspec (mkInt (bytesTy len) v) (var st) (λ r s', slice s' e lo len r)) as Hmk.
  { intros v f Hf Hs8 Hb. destruct (mkInt_v (var st) (bytesTy len) (8 * len) v Hwf Hv eq_refl) as (r & s' & E & Hw' & Hx' & Hv' & Ht & Ho & Hr).
    { intros _. rewrite Hbs. lia. }
    exists r, s'. split_and!; try done. apply slice_of; [done|done| |auto]. intros ρ k Hk. right.
    rewrite Ho, (ob_ext (var st) s'), Hf, Hb by eauto using mem_valid. f_equal. apply (byte_residue (8 * len)); [lia|lia|].
    by rewrite wrapw_mod by lia. }
  unfold bytes_const. destruct (constInt_node x) as [c|] eqn:Ec.
  - assert (sizeOf (ty x) <= 8) as Hs8.
    { unfold constInt_node in Ec. destruct (node x); try done; [tauto|]. apply Hok. eauto. }
    rewrite (proj2 (Z.ltb_lt _ _)) by lia. apply vspec_vm; [done|].
    eapply (Hmk _ (λ _ k, Some (byte k c))); [intros ρ k; by eapply const_bytes|done|].
    intros _ k Hk. f_equal. symmetry. rewrite <- (byte_mod 64 (lo + k) c), <- byte_shiftr by lia. fold (u64 c).
    assert (∀ u, byte k (sext 64 u) = byte k u) as Hsx by (intros u; apply (byte_residue 64); [lia|lia|by apply sext_mod]).
    rewrite Hsx. destruct (Z.leb_spec 8 len); [done|]. replace (2 ^ (8 * len) - 1) with (Z.ones (8 * len)) by (rewrite Z.ones_equiv; lia).
    rewrite Z.land_ones by lia. apply byte_mod; lia.
  - destruct (Hc eq_refl) as (bw & c & En). destruct x as [tx nx]. cbn [node ty] in *. subst nx. destruct Hok as [Hs8 Hbw].
    unfold constInt_node in Ec; cbn [node ty] in Ec. destruct (isIntegerTy tx) eqn:Ei; [done|].
    apply vspec_vm; [done|]. eapply mspec_bind; [apply getSExt_v; try done; lia|]. cbn. intros v s1 _ _ _ [-> ->].
    eapply (Hmk _ (λ _ k, Some (byte k c))); [|done|].
    + intros ρ k. rewrite (ob_unfold _ _ _ _ _ Hwf Hx). unfold ob_node, same_size_cast, same_size_atom. rewrite Hx. cbn [node ty]. by rewrite Ei.
    + intros _ k Hk. f_equal. rewrite <- byte_shiftr by lia. symmetry. apply (byte_residue (8 * len)); [lia|lia|]. by apply sext_mod; lia.
Qed.
Lemma bytes_opaque_v st e x lo len : vinv st → nodes (var st) !! e = Some x → sliceable (var st) e lo len →
  vspec (vm (intern (mkExpr (bytesTy len) (NBytes e lo len)))) st (λ r s', slice s' e lo len r).
Proof.
  intros Hi Hx (Hm & Hlo & Hlen & Hle). pose proof (mem_valid _ _ Hm) as Hve. apply vspec_vm; [done|].
  eapply mspec_mono; [apply intern_vok; [apply Hi|apply Hi| |]|].
  - split; [|done]. by constructor.
  - intros r s' _ Hx' Hr _. split; [|split; [by eapply no_cast|by eapply no_atom]]. cbn.
    rewrite (size_at_ext (var st) s') by done. split_and!; try done. by eapply mem_at_ext.
  - cbn. intros r s' Hw' _ Hx' [Ht Hr]. apply slice_of; [done|done| |intros _; eapply br_bytes; [exact Hr|done]].
    intros ρ k Hk. right. rewrite (ob_unfold _ _ _ _ _ Hw' Hr). unfold ob_node; cbn [node].
    rewrite (proj2 (Z.ltb_lt k len)) by lia. done.
Qed.

(** ** The bodies, over calls that keep their promise *)
Section body.
Context (rec : BOps).
Definition bytes_at (e : EP) : Prop := ∀ lo len st,
  vinv st → sliceable (var st) e lo len → vspec (bytes_ rec e lo len) st (λ r s', slice s' e lo len r).
Definition toBytes_at (v : EP) : Prop := ∀ st,
  vinv st → mem_at (var st) v → vspec (toBytes_ rec v) st (λ bs s', split_of s' v bs).
(** the same for a concatenation, whose parts are older *)
Definition concat_at (v : EP) : Prop := ∀ st,
  vinv st → mem_at (var st) v → is_concat (var st) v = true → vspec (toBytes_ rec v) st (λ bs s', split_of s' v bs).
Definition fromBytes_at (R d : nat) : Prop := ∀ bs t st,
  vinv st → Forall (a_byte (var st) R d) bs → bs ≠ [] → mem_ty t = true → sizeOf t = Z.of_nat (length bs) →
  vspec (fromBytes_ rec bs t) st (joins (var st) bs t).

(** a slice of an operand with the bytes of the expression *)
Lemma operand_slice e y lo lo' len st : bytes_at y → (y < e)%nat → vinv st →
  sliceable (var st) y lo' len → mem_at (var st) e → 
  (∀ ρ k, 0 <= k < len → refines (ob (var st) ρ e (lo + k)) (ob (var st) ρ y (lo' + k))) →
  vspec (bytes_ rec y lo' len) st (λ r s', slice s' e lo len r).
Proof.
  intros Hy Hlt Hi Hs Hm Hob. eapply vspec_mono; [by apply Hy|]. cbn. intros r st' Hi' Hx Hr.
  destruct Hs as (Hmy & _). eapply (slice_via _ e y lo lo'); [lia| |exact Hr]. intros ρ k Hk.
  rewrite !(ob_ext (var st) (var st')) by (done || (by apply mem_valid) || apply Hi || apply Hi'). by apply Hob.
Qed.
Lemma ite_slice e c a b t lo len st : bytes_at a → bytes_at b → vinv st → sliceable (var st) e lo len →
  nodes (var st) !! e = Some (mkExpr t (NIte [c; a; b])) → mem_ty t = true →
  vspec (val! ra := bytes_ rec a lo len in val! rb := bytes_ rec b lo len in vite cond_ops c ra rb) st (λ r s', slice s' e lo len r).
Proof.
  intros Ha Hb Hi (Hm & Hlo & Hlen & Hle) Hn Ht. pose proof (vi_wf _ Hi) as Hwf.
  destruct (vi_ok _ Hi _ _ Hn Ht) as [(c' & a' & b' & [= <- <- <-] & Hp & Hsa & Hsb & Hma & Hmb) _]. cbn [ty] in *.
  assert (size_at (var st) e = sizeOf t) as Hse by (apply size_of_type; unfold type_at; by rewrite Hn).
  destruct (wf_nodes _ Hwf _ _ Hn) as [Hch _]. cbn in Hch. apply Forall_cons in Hch as [_ [Hla [Hlb _]%Forall_cons]%Forall_cons].
  eapply vspec_bind; [apply Ha; [done|]; split_and!; try done; lia|]. intros ra st1 Hi1 Hx1 _ Hra.
  eapply vspec_bind; [apply Hb; [done|]; apply (sliceable_ext (var st)); try done; split_and!; try done; lia|].
  intros rb st2 Hi2 Hx2 _ Hrb.
  pose proof (slice_ext (var st1) (var st2) (vi_wf _ Hi1) (vi_wf _ Hi2) Hx2 a lo len ra (mem_at_ext _ _ _ Hx1 Hma) Hra) as Hra2.
  assert (ext (var st) (var st2)) as Hx02 by (by etrans).
  destruct Hra2 as (Hma2 & Hsa2 & Hoa & Hka). destruct Hrb as (Hmb2 & Hsb2 & Hob & Hkb).
  eapply vspec_mono; [apply vspec_lift; [done|]; apply ite_plain; try done; [unfold ite_fuel; lia|apply Hi2|apply Hi2|by apply (plain_ext (var st))|unfold var in *; congruence]|].
  cbn. intros r st3 Hi3 Hx3 (Hmr & Hsr & Hor & Hkr). fold (var st2) in *. rewrite Hsa2 in *.
  assert (ext (var st) (var st3)) as Hx03 by (by etrans).
  split; [done|]. split; [done|]. split.
  - intros ρ k Hk. etrans; [|by apply Hor]. rewrite (ob_ext (var st) (var st3)) by (apply Hi || apply Hi3 || done || by apply mem_valid).
    rewrite (ob_unfold _ _ _ _ _ Hwf Hn). unfold ob_node; cbn [node]. unfold chosen.
    rewrite (T_ext (var st) (var st2)) by (apply Hi || apply Hi2 || done || by destruct Hp).
    destruct (T (var st) ρ c).
    + rewrite <- (ob_ext (var st) (var st2)) by (apply Hi || apply Hi2 || done || by apply mem_valid). by apply Hoa.
    + rewrite <- (ob_ext (var st) (var st2)) by (apply Hi || apply Hi2 || done || by apply mem_valid). by apply Hob.
  - intros ->. assert (brank (var st3) e (S (pred e)) r) as Hbr.
    { apply Hkr; eapply brank_mono; [by apply Hka|lia|lia|by apply Hkb|lia|lia]. }
    by replace (S (pred e)) with e in Hbr by lia.
Qed.

Lemma part_byte_at look s ps off lo len p o k : covering_part s ps off lo len = Some (p, o) → 0 < len → 0 <= k < len →
  part_byte look s ps (lo - off + k) = look p (o + k).
Proof. intros Hc Hl Hk. destruct (covering_part_Some _ _ _ _ _ _ _ Hc Hl) as (_ & _ & _ & Hp). by apply Hp. Qed.
Lemma straddle_slice e lo len st : concat_at e → (∀ R d, (R < e)%nat → (d < e)%nat → fromBytes_at R d) →
  vinv st → sliceable (var st) e lo len → is_concat (var st) e = true → (0 < e)%nat → len ≠ 1 →
  vspec (val! bs := toBytes_ rec e in
         if lo + len <=? Z.of_nat (length bs) then
           fromBytes_ rec (take (Z.to_nat len) (drop (Z.to_nat lo) bs)) (bytesTy len)
         else vstuck) st (λ r s', slice s' e lo len r).
Proof.
  intros Ht Hf Hi (Hm & Hlo & Hlen & Hle) Hc He Hne. pose proof (mem_valid _ _ Hm) as Hve.
  eapply vspec_bind; [by apply Ht|]. intros bs st1 Hi1 Hx1 _ (Hm1 & Hl1 & Hb1 & Ho1).
  rewrite (size_at_ext (var st) (var st1)) in Hl1 by done. rewrite (proj2 (Z.leb_le _ _)) by lia.
  destruct (bytesTy_mem len Hlen) as [Hbm Hbs].
  set (sel := take (Z.to_nat len) (drop (Z.to_nat lo) bs)).
  assert (length sel = Z.to_nat len) as Hls by (unfold sel; rewrite length_take, length_drop; lia).
  assert (newest (var st1) e = pred e) as Hnew by (unfold newest; by rewrite (is_concat_ext (var st)), Hc).
  rewrite Hnew in Hb1.
  eapply vspec_mono; [apply (Hf (pred e) (pred e)); [lia|lia|done| |by intros E; rewrite E in Hls; cbn in Hls; lia|done|lia]|].
  - unfold sel. by apply Forall_take, Forall_drop.
  - cbn. intros r st2 Hi2 Hx2 [Htr Hor]. apply slice_of; [done|done| |done].
    intros ρ k Hk. assert (∃ b, sel !! Z.to_nat k = Some b) as [b Hbk] by (apply lookup_lt_is_Some; lia).
    specialize (Hor ρ (Z.to_nat k) b Hbk). rewrite Z2Nat.id in Hor by lia. etrans; [|exact Hor].
    unfold sel in Hbk. rewrite lookup_take_lt, lookup_drop in Hbk by lia. specialize (Ho1 _ _ Hbk ρ).
    rewrite (ob_ext (var st1) (var st2)) by (apply Hi1 || apply Hi2 || done || by apply mem_valid).
    by replace (lo + k) with (Z.of_nat (Z.to_nat lo + Z.to_nat k)) by lia.
Qed.
Lemma bytes_node_v e x lo len st : (∀ y, (y < e)%nat → bytes_at y) → concat_at e →
  (∀ R d, (R < e)%nat → (d < e)%nat → fromBytes_at R d) →
  vinv st → sliceable (var st) e lo len → nodes (var st) !! e = Some x → whole (var st) e lo len = false →
  vspec (bytes_node cond_ops rec e x lo len) st (λ r s', slice s' e lo len r).
Proof.
  intros Hb Ht Hf Hi Hsl Hx Hnw. pose proof Hsl as (Hm & Hlo & Hlen & Hle). pose proof (vi_wf _ Hi) as Hwf. pose proof (vi_ok _ Hi) as Hv.
  destruct (mem_node _ _ Hm) as (x' & Hx' & Hmx & Hsz). rewrite Hx in Hx'. injection Hx' as <-.
  destruct (Hv _ _ Hx Hmx) as (Hok & Hcast & Hatom). destruct (bytesTy_mem len Hlen) as [Hbm Hbs].
  unfold bytes_node. apply vspec_see. apply vspec_see.
  assert (∀ y, same_size_cast (var st) e = Some y → vspec (bytes_ rec y lo len) st (λ r s', slice s' e lo len r)) as Hc.
  { intros y Ey. destruct (same_size_cast_v _ _ _ Hwf Hm Ey) as (Hlt & Hs & Ho & _).
    eapply operand_slice; [by apply Hb|done|done| |done|]; [split_and!; [by apply Hcast|done|done|lia]|].
    intros ρ k _. by rewrite Ho. }
  assert (∀ a, same_size_atom (var st) e = Some a → vspec (bytes_ rec a lo len) st (λ r s', slice s' e lo len r)) as Ha.
  { intros a Ea. pose proof (same_size_atom_node _ _ _ Ea) as (t & i & Hn & _ & Hs). rewrite Hx in Hn. injection Hn as ->.
    cbn [ty] in *. eapply operand_slice; [apply Hb; by eapply atom_older|by eapply atom_older|done| |done|].
    - destruct (Hatom a Ea) as [H1s|Hma]; [|split_and!; [done|done|done|lia]].
      exfalso. unfold whole in Hnw. replace lo with 0 in Hnw by lia. replace len with (size_at (var st) e) in Hnw by lia. by rewrite !Z.eqb_refl in Hnw.
    - intros ρ k _. rewrite (ob_unfold _ _ e _ _ Hwf Hx). unfold ob_node; cbn [node]. rewrite Ea. unfold same_size_cast. by rewrite Hx. }
  assert (vspec (vm (intern (mkExpr (bytesTy len) (NBytes e lo len)))) st (λ r s', slice s' e lo len r)) as Hop
    by (by eapply bytes_opaque_v).
  assert (∀ (b : bool), (constInt_node x = None → b = true → ∃ bw c, node x = NConst bw c) →
    vspec (if b then bytes_const x lo len else vm (intern (mkExpr (bytesTy len) (NBytes e lo len)))) st (λ r s', slice s' e lo len r)) as Hk.
  { intros [] Hbk; [|done]. apply bytes_const_v; try done. auto. }
  destruct x as [t n]. cbn [node ty] in *.
  assert ((∀ l, n ≠ NOp BitCast l) → same_size_cast (var st) e = None) as Hnc.
  { intros Hn. unfold same_size_cast. rewrite Hx. destruct n as [| | |[] l| | | | | | |]; try done. by destruct (Hn l). }
  assert ((∀ ts, n ≠ NPoly ts) → same_size_atom (var st) e = None) as Hna.
  { intros Hn. unfold same_size_atom. rewrite Hx. destruct n as [|ts| | | | | | | | |]; try done. by destruct (Hn ts). }
  destruct n as [bw c|ts|i|op args|p args|l|align args|ps|y lo' len'|f a args|];
    try (rewrite Hnc by done); try (rewrite Hna by done).
  - destruct (constInt_node _) eqn:Ec; apply bytes_const_v; try done; intros ?; cbn [node]; eauto.
  - destruct (same_size_atom (var st) e) as [a|] eqn:Ea; [by apply Ha|].
    destruct (constInt_node _) eqn:Ec; [|done]. apply bytes_const_v; try done. congruence.
  - done.
  - destruct (same_size_cast (var st) e) as [y|] eqn:Ey; [by apply Hc|]. done.
  - done.
  - destruct Hok as (c & a & b & -> & _). destruct (wf_nodes _ Hwf _ _ Hx) as [Hch _]. cbn in Hch.
    apply Forall_cons in Hch as [_ [Hla [Hlb _]%Forall_cons]%Forall_cons]. eapply ite_slice; [by apply Hb|by apply Hb|done..].
  - done.
  - destruct Hok as [Hps Hsum]. apply vspec_see. destruct (wf_nodes _ Hwf _ _ Hx) as [Hch _]. cbn in Hch.
    destruct (covering_part (var st) ps 0 lo len) as [[p o]|] eqn:Ecov.
    + destruct (covering_part_Some _ _ _ _ _ _ _ Ecov Hlen) as (Hp & Ho & Hop' & Hlook). rewrite Forall_forall in Hch, Hps.
      eapply operand_slice; [by apply Hb, Hch|by apply Hch|done|by split_and!; auto|done|].
      intros ρ k Hk'. rewrite (ob_unfold _ _ e _ _ Hwf Hx). unfold ob_node; cbn [node]. rewrite <- (Hlook _ k Hk').
      by rewrite Z.sub_0_r.
    + apply straddle_slice; try done.
      * unfold is_concat, node_at. by rewrite Hx.
      * destruct ps as [|p ps]; [cbn in Hsum; lia|]. apply Forall_cons in Hch as [? _]. lia.
      * intros ->. destruct (covering_part_one (var st) ps 0 lo) as [? Hsome]; [lia|lia|congruence].
  - destruct Hok as (-> & Hlo' & Hlen' & Hle' & Hmy). destruct (wf_nodes _ Hwf _ _ Hx) as [Hch _]. cbn in Hch.
    apply Forall_cons in Hch as [Hlt _]. destruct (bytesTy_mem len' Hlen') as [_ Hs']. rewrite Hs' in Hsz.
    eapply operand_slice; [by apply Hb|done|done|split_and!; [done|lia|done|lia]|done|].
    intros ρ k Hk'. rewrite (ob_unfold _ _ e _ _ Hwf Hx). unfold ob_node; cbn [node].
    rewrite (proj2 (Z.ltb_lt (lo + k) len')) by lia. right. f_equal. lia.
  - done.
  - apply vspec_vm; [done|]. eapply mspec_mono; [by apply mkUndef_v|]. cbn. intros r s' Hw' _ Hx' [Hr Hrank].
    apply slice_of; auto. intros ρ k Hk'. rewrite (ob_ext (var st) s') by (done || by apply mem_valid).
    rewrite (ob_unfold _ _ e _ _ Hwf Hx). done.
Qed.
(** the table of slices *)
Lemma bytes_body_v e lo len st : (∀ y, (y < e)%nat → bytes_at y) → concat_at e →
  (∀ R d, (R < e)%nat → (d < e)%nat → fromBytes_at R d) →
  vinv st → sliceable (var st) e lo len → vspec (bytes_body cond_ops rec e lo len) st (λ r s', slice s' e lo len r).
Proof.
  intros Hb Ht Hf Hi Hsl. pose proof Hsl as (Hm & _). unfold bytes_body. apply vspec_see.
  destruct (whole (var st) e lo len) eqn:Ew.
  { apply vspec_ret; [done|]. apply whole_slice; [apply Hi|done|done]. }
  destruct (bytesMemo st !! (e, lo, len)) as [r|] eqn:Er.
  { exists r, st. rewrite Er. split_and!; try done. by destruct (vi_slices _ Hi _ _ Er). }
  assert (vspec (val! r := bytesRaw cond_ops rec e lo len in val! _ := set_bytes (e, lo, len) r in vret r) st
    (λ r s', slice s' e lo len r)) as (r & st' & E & HQ); [|exists r, st'; by rewrite Er].
  destruct (mem_node _ _ Hm) as (x & Hx & _).
  eapply vspec_bind; [unfold bytesRaw; apply vspec_see; rewrite Ew; eapply vspec_deref; [exact Hx|]; by apply bytes_node_v|].
  intros r st1 Hi1 Hx1 _ Hr. eexists r, _. split; [reflexivity|]. split; [|by split_and!].
  destruct Hi1 as [Hw Hv Hs Hp]. split; try done. cbn. apply map_Forall_insert_2; [|done]. cbn. split; [|done].
  by apply (sliceable_ext (var st)).
Qed.

(** ** [toBytes] *)
Lemma split_byte v st : bytes_at v → vinv st → mem_at (var st) v → is_concat (var st) v = false →
  vspec (vmap (λ i, bytes_ rec v (Z.of_nat i) 1) (seq 0 (Z.to_nat (size_at (var st) v)))) st (λ bs s', split_of s' v bs).
Proof.
  intros Hb Hi Hm Hc. set (n := Z.to_nat (size_at (var st) v)). pose proof (size_nonneg_at (var st) v).
  eapply vspec_mono; [apply (vspec_map (λ i b s, mem_at s v ∧ slice s v (Z.of_nat i) 1 b))|]; [done| | |].
  - intros i b s1 s2 ? ? ? [Hm1 Hs]. split; [by eapply mem_at_ext|]. by apply (slice_ext s1).
  - intros i st' Hin Hi' Hx'. apply elem_of_seq in Hin. assert (mem_at (var st') v) as Hm' by (by eapply mem_at_ext).
    eapply vspec_mono; [apply Hb; [done|]|].
    + split; [done|]. rewrite (size_at_ext (var st)) by (done || by apply mem_valid). lia.
    + cbn. intros r st2 _ Hx2 Hs. split; [by eapply mem_at_ext|done].
  - cbn. intros bs st' Hi' Hx' Hbs. assert (mem_at (var st') v) as Hm' by (by eapply mem_at_ext).
    pose proof (Forall2_length _ _ _ Hbs) as Hlen. rewrite length_seq in Hlen.
    assert (newest (var st') v = v) as Hnew by (unfold newest; by rewrite (is_concat_ext (var st)), Hc by (done || by apply mem_valid)).
    split; [done|]. rewrite Hnew, (size_at_ext (var st)) by (done || by apply mem_valid). split; [lia|].
    assert (∀ i b, bs !! i = Some b → slice (var st') v (Z.of_nat i) 1 b) as Hget.
    { intros i b Hib. destruct (Forall2_lookup_r _ _ _ _ _ Hbs Hib) as (j & Hj & _ & Hs). by apply lookup_seq in Hj as [-> _]. }
    split.
    + apply Forall_lookup_2. intros i b Hib. destruct (Hget i b Hib) as (Hmb & Hsb & _ & Hr). split_and!; auto.
    + intros i b Hib ρ. destruct (Hget i b Hib) as (_ & _ & Ho & _). specialize (Ho ρ 0 ltac:(lia)). by rewrite Z.add_0_r in Ho.
Qed.
(** the bytes of a concatenation, part by part *)
Lemma part_byte_concat look s (ps : list EP) (bss : list (list EP)) i (b : EP) :
  Forall2 (λ p bs, Z.of_nat (length bs) = size_at s p) ps bss → List.concat bss !! i = Some b →
  ∃ j (p : EP) (bs : list EP) k, ps !! j = Some p ∧ bss !! j = Some bs ∧ bs !! k = Some b ∧ part_byte look s ps (Z.of_nat i) = look p (Z.of_nat k).
Proof.
  intros Hl. revert i. induction Hl as [|p bs ps bss Hpb _ IH]; intros i; cbn [List.concat part_byte]; [done|].
  intros [Hi|[Hge Hi]]%lookup_app_Some.
  - exists 0%nat, p, bs, i. split_and!; try done. apply lookup_lt_Some in Hi.
    by rewrite (proj2 (Z.ltb_lt _ _)) by lia.
  - destruct (IH _ Hi) as (j & q & cs & k & Hj & Hcs & Hk & Ho). exists (S j), q, cs, k. split_and!; try done.
    rewrite (proj2 (Z.ltb_ge _ _)) by lia. rewrite <- Ho. f_equal. lia.
Qed.
Lemma split_concat v st t ps : (∀ p, (p < v)%nat → toBytes_at p) → vinv st → mem_at (var st) v →
  nodes (var st) !! v = Some (mkExpr t (NConcat ps)) →
  vspec (val! bss := vmap (toBytes_ rec) ps in vret (List.concat bss)) st (λ bs s', split_of s' v bs).
Proof.
  intros Ht Hi Hm Hx. pose proof (vi_wf _ Hi) as Hwf. destruct (mem_node _ _ Hm) as (x & Hx' & Hmx & Hsz).
  rewrite Hx in Hx'. injection Hx' as <-. cbn [ty] in *. destruct (vi_ok _ Hi _ _ Hx Hmx) as [[Hps Hsum] _]. cbn [ty] in *.
  destruct (wf_nodes _ Hwf _ _ Hx) as [Hch _]. cbn in Hch. pose proof Hps as Hps'. rewrite Forall_forall in Hch, Hps'.
  eapply vspec_bind; [apply (vspec_map (λ p bs s, split_of s p bs)); [done|intros; by apply (split_of_ext s1)|]|].
  { intros p st' Hp Hi' Hx'. apply Ht; [by apply Hch|done|]. eapply mem_at_ext; [done|by apply Hps']. }
  cbn. intros bss st' Hi' Hx' _ Hbss. apply vspec_ret; [done|].
  assert (mem_at (var st') v) as Hm' by (by eapply mem_at_ext). pose proof (ext_node _ _ _ _ Hx' Hx) as Hxs.
  assert (is_concat (var st') v = true) as Hc by (unfold is_concat, node_at; by rewrite Hxs).
  assert (Forall2 (λ p bs, Z.of_nat (length bs) = size_at (var st') p) ps bss) as Hlen.
  { eapply Forall2_impl; [exact Hbss|]. intros p bs (_ & Hl & _). done. }
  split; [done|]. split.
  { rewrite (size_at_ext (var st)), Hsz, <- Hsum, <- (sizes_ext (var st) (var st')) by (done || by apply mem_valid).
    clear -Hlen. induction Hlen as [|p bs ps bss Hl _ IH]; cbn; [done|]. rewrite length_app. lia. }
  unfold newest. rewrite Hc. split.
  - apply Forall_concat. apply Forall_lookup_2. intros j bs Hj. destruct (Forall2_lookup_r _ _ _ _ _ Hbss Hj) as (p & Hp & _ & _ & Hb & _).
    apply list_elem_of_lookup_2 in Hp. specialize (Hch p Hp). eapply Forall_impl; [exact Hb|]. intros b (Hmb & Hsb & Hr).
    split_and!; try done. unfold newest in Hr. eapply brank_mono; [exact Hr|destruct (is_concat _ p); lia..].
  - intros i b Hib ρ. destruct (part_byte_concat (ob (var st') ρ) _ _ _ _ _ Hlen Hib) as (j & p & bs & k & Hj & Hbs & Hk & Ho).
    rewrite (ob_unfold _ _ v _ _ (vi_wf _ Hi') Hxs). unfold ob_node; cbn [node]. rewrite Ho.
    destruct (Forall2_lookup_lr _ _ _ _ _ _ Hbss Hj Hbs) as (_ & _ & _ & Hob). by apply Hob.
Qed.
Lemma toBytes_body_v v st : (∀ p, (p < v)%nat → toBytes_at p) → (is_concat (var st) v = false → bytes_at v) →
  vinv st → mem_at (var st) v → vspec (toBytes_body rec v) st (λ bs s', split_of s' v bs).
Proof.
  intros Ht Hb Hi Hm. unfold toBytes_body. destruct (byteMemo st !! v) as [bs|] eqn:E.
  { exists bs, st. rewrite E. split_and!; try done. by apply (vi_splits _ Hi). }
  assert (vspec (val! bs := toBytes_raw rec v in val! _ := set_byte v bs in vret bs) st (λ bs s', split_of s' v bs))
    as (bs & st' & Ebs & HQ); [|exists bs, st'; by rewrite E].
  destruct (mem_node _ _ Hm) as (x & Hx & _ & Hsz).
  assert (vspec (toBytes_raw rec v) st (λ bs s', split_of s' v bs)) as Hraw.
  { eapply vspec_deref; [exact Hx|]. rewrite <- Hsz.
    assert (is_concat (var st) v = match node x with NConcat _ => true | _ => false end) as Hc.
    { unfold is_concat, node_at. rewrite Hx. done. }
    destruct x as [t n]. cbn [node] in *. destruct n; try (apply split_byte; auto; done). by eapply split_concat. }
  eapply vspec_bind; [exact Hraw|]. intros bs st1 Hi1 Hx1 _ Hbs. eexists bs, _. split; [reflexivity|]. split; [|by split_and!].
  destruct Hi1 as [Hw Hv Hs Hp]. split; try done. cbn. by apply map_Forall_insert_2.
Qed.
End body.
End slices.
