(* ===== verification/ArenaJoin.v ===== *)
(** [fromBytes] (ArenaValue.v): the runs of bytes it merges, each made one part, and the value of the parts. *)
From S2P Require Import Prelude Expr Arena ArenaSem ArenaCmp ArenaLits ArenaContra ArenaCond ArenaCondSem.
From S2P Require Import ArenaValue ArenaBytes ArenaIte ArenaSlice.
Open Scope Z_scope.

Section join.
Context `{SizeLaws} `{CmpInst} (cond_ops : Ops) (rec : BOps).

(** ** Runs *)
(** a part that holds the first [j] bytes *)
Definition part_of (s : Arena) (bs : list EP) (pj : EP * nat) (s' : Arena) : Prop :=
  mem_at s' pj.1 ∧ size_at s' pj.1 = Z.of_nat pj.2 ∧ (0 < pj.2 ≤ length bs)%nat ∧
  ∀ ρ i b, (i < pj.2)%nat → bs !! i = Some b → refines (ob s ρ b 0) (ob s' ρ pj.1 (Z.of_nat i)).
Lemma source_run_le s x lo bs : (source_run s x lo bs ≤ length bs)%nat.
Proof.
  revert lo. induction bs as [|b bs IH]; intros lo; cbn; [lia|]. specialize (IH (lo + 1)).
  destruct (node_at s b) as [[]|]; try lia. destruct (_ && _); lia.
Qed.
Lemma source_run_at s x lo bs i b : (i < source_run s x lo bs)%nat → bs !! i = Some b →
  ∃ len, node_at s b = Some (NBytes x (lo + Z.of_nat i) len).
Proof.
  revert lo i. induction bs as [|b' bs IH]; intros lo i; cbn [source_run]; [lia|].
  destruct (node_at s b') as [[| | | | | | | |y lo' len| |]|] eqn:En; try lia.
  destruct (Nat.eqb_spec y x) as [->|]; [|cbn; lia]. destruct (Z.eqb_spec lo' lo) as [->|]; cbn [andb]; [|lia].
  intros Hi. destruct i as [|i]; cbn.
  - intros [= ->]. exists len. rewrite En. do 2 f_equal. lia.
  - intros Hb. destruct (IH (lo + 1) i ltac:(lia) Hb) as [l Hl]. exists l. rewrite Hl. do 2 f_equal. lia.
Qed.
Lemma undef_run_le s bs : (undef_run s bs ≤ length bs)%nat.
Proof. induction bs as [|b bs IH]; cbn; [lia|]. destruct (is_undef s b); lia. Qed.
Lemma undef_run_at s bs i b : (i < undef_run s bs)%nat → bs !! i = Some b → is_undef s b = true.
Proof.
  revert i. induction bs as [|b' bs IH]; intros i; cbn [undef_run]; [lia|]. destruct (is_undef s b') eqn:Eu; [|lia].
  intros Hi. destruct i as [|i]; cbn; [by intros [= ->]|]. apply IH. lia.
Qed.
Lemma const_run_le s n bs : (length (const_run s n bs) ≤ n)%nat ∧ (length (const_run s n bs) ≤ length bs)%nat.
Proof.
  revert bs. induction n as [|n IH]; intros bs; cbn; [lia|]. destruct bs as [|b bs]; cbn; [lia|].
  destruct (constInt s b); cbn; [|lia]. specialize (IH bs). lia.
Qed.
Lemma const_run_at s n bs i c : const_run s n bs !! i = Some c → ∃ b, bs !! i = Some b ∧ constInt s b = Some c.
Proof.
  revert bs i. induction n as [|n IH]; intros bs i; cbn; [done|]. destruct bs as [|b bs]; [done|].
  destruct (constInt s b) as [c'|] eqn:Ec; [|done]. destruct i as [|i]; cbn.
  - intros [= ->]. eauto.
  - apply IH.
Qed.
Lemma arms_run_le s c bs : (length (arms_run s c bs) ≤ length bs)%nat.
Proof.
  induction bs as [|b bs IH]; cbn; [lia|]. destruct (node_at s b) as [[| | | | |[|c' [|t [|f [|]]]]| | | | |]|]; cbn; try lia.
  destruct (_ =? _)%nat; cbn; lia.
Qed.
Lemma arms_run_at s c bs i t f : arms_run s c bs !! i = Some (t, f) →
  ∃ b, bs !! i = Some b ∧ node_at s b = Some (NIte [c; t; f]).
Proof.
  revert i. induction bs as [|b bs IH]; intros i; cbn [arms_run]; [done|].
  destruct (node_at s b) as [[| | | | |[|c' [|t' [|f' [|]]]]| | | | |]|] eqn:En; try done.
  destruct (Nat.eqb_spec c' c) as [->|]; [|done]. destruct i as [|i]; cbn.
  - intros [= -> ->]. eauto.
  - apply IH.
Qed.

(** ** Words of constant bytes *)
Lemma le_word_bits i cs k : 0 <= i → 0 <= k →
  Z.testbit (le_word i cs) k =
    match cs !! Z.to_nat (k / 8 - i) with Some c => (i <=? k / 8) && Z.testbit c (k mod 8) | None => false end.
Proof.
  intros Hi Hk. revert i Hi. induction cs as [|c cs IH]; intros i Hi; cbn [le_word]; [by rewrite Z.bits_0|].
  rewrite Z.lor_spec, IH by lia. rewrite Z.shiftl_spec by done. change 255 with (Z.ones 8).
  pose proof (Z.div_mod k 8 ltac:(lia)). pose proof (Z.mod_pos_bound k 8 ltac:(lia)).
  destruct (Z.ltb_spec (k - 8 * i) 0).
  { rewrite (Z.testbit_neg_r _ (k - 8 * i)) by lia. cbn [orb].
    destruct (Z.leb_spec (i + 1) (k / 8)); [lia|]. destruct (Z.leb_spec i (k / 8)); [lia|].
    destruct (cs !! _), ((c :: cs) !! _); done. }
  rewrite Z.land_spec, Z.testbit_ones by lia. destruct (Z.eqb_spec (k / 8) i) as [Ei|].
  - replace (k - 8 * i) with (k mod 8) by lia. replace (k / 8 - i) with 0 by lia. cbn.
    rewrite (proj2 (Z.leb_le _ _)), (proj2 (Z.ltb_lt _ 8)), (proj2 (Z.leb_le i _)) by lia. rewrite andb_true_r, (proj2 (Z.leb_gt _ _)) by lia.
    cbn. destruct (cs !! _); by rewrite orb_false_r.
  - rewrite (proj2 (Z.ltb_ge _ 8)) by lia. rewrite andb_false_r, andb_false_r. cbn [orb].
    replace (Z.to_nat (k / 8 - i)) with (S (Z.to_nat (k / 8 - (i + 1)))) by lia. cbn.
    rewrite !(proj2 (Z.leb_le _ _)) by lia. done.
Qed.
Lemma le_word_byte cs i c : cs !! i = Some c → byte (Z.of_nat i) (le_word 0 cs) = byte 0 c.
Proof.
  intros Hc. apply byte_ext; [lia|lia|]. intros j Hj. rewrite le_word_bits by lia.
  rewrite (Z.mul_comm 8), (Z.div_add_l _ 8) by lia. rewrite (Z.div_small j 8), Z.add_0_r by lia.
  rewrite Z.sub_0_r, Nat2Z.id, Hc. rewrite (proj2 (Z.leb_le _ _)) by lia. cbn [andb]. f_equal.
  rewrite Z.add_comm, Z.mod_add by lia. apply Z.mod_small. lia.
Qed.

(** ** The first part *)
Lemma byte_node s R d b : vok s → a_byte s R d b → ∃ x, nodes s !! b = Some x ∧ mem_ty (ty x) = true ∧ sizeOf (ty x) = 1 ∧ vnode s b x.
Proof.
  intros Hv (Hm & Hs & _). destruct (mem_node _ _ Hm) as (x & Hx & Hmx & Hsx). exists x. split_and!; try done; [congruence|by apply Hv].
Qed.
Lemma node_at_node s e n : node_at s e = Some n → ∃ t, nodes s !! e = Some (mkExpr t n).
Proof. unfold node_at. destruct (nodes s !! e) as [[t n']|]; [|done]. intros [= ->]. eauto. Qed.
(** a byte that is part of a value *)
Lemma byte_source s R d b y lo len : wf s → vok s → a_byte s R d b → node_at s b = Some (NBytes y lo len) →
  mem_at s y ∧ 0 <= lo ∧ lo + 1 <= size_at s y ∧ (y ≤ R)%nat ∧ ∀ ρ, ob s ρ b 0 = ob s ρ y lo.
Proof.
  intros Hwf Hv Hb [t Hn]%node_at_node. destruct (byte_node _ _ _ _ Hv Hb) as (x & Hx & Hmx & Hsx & Hok & _).
  rewrite Hn in Hx. injection Hx as <-. cbn [node ty] in *. destruct Hok as (-> & Hlo & Hlen & Hle & Hm).
  destruct (bytesTy_mem len Hlen) as [_ Hs]. assert (len = 1) as -> by congruence. split; [done|]. split; [done|]. split; [done|].
  destruct Hb as (_ & _ & Hr). split.
  - inversion Hr as [? ? ? ? ? ? He|? ? ? ? ? ? He|? ? ? He|? ? ? He|? ? ? He Hn']; subst.
    + rewrite Hn in He. by injection He as <- <- <- <-.
    + rewrite Hn in He. done.
    + apply same_size_cast_node in He as (? & ? & He & _). congruence.
    + apply same_size_atom_node in He as (? & ? & He & _). congruence.
    + rewrite Hn in He. by injection He as <-.
  - intros ρ. rewrite (ob_unfold _ _ b _ _ Hwf Hn). unfold ob_node; cbn [node]. cbn. by rewrite Z.add_0_r.
Qed.
Lemma source_part R d y lo b bs st : (∀ y, (y ≤ R)%nat → bytes_at rec y) → vinv st →
  Forall (a_byte (var st) R d) (b :: bs) → (∃ len, node_at (var st) b = Some (NBytes y lo len)) →
  let j := S (source_run (var st) y (lo + 1) bs) in
  vspec (val! p := bytes_ rec y lo (Z.of_nat j) in vret (p, j)) st (part_of (var st) (b :: bs)).
Proof.
  intros Hb Hi Hbs [len Hn] j. pose proof (vi_wf _ Hi) as Hwf. pose proof (vi_ok _ Hi) as Hv.
  assert (∀ i c, (i < j)%nat → (b :: bs) !! i = Some c → ∃ len, node_at (var st) c = Some (NBytes y (lo + Z.of_nat i) len)) as Hat.
  { intros [|i] c Hij; cbn; [intros [= <-]; exists len; by rewrite Z.add_0_r|]. intros Hc.
    destruct (source_run_at (var st) y (lo + 1) bs i c) as [l Hl]; [lia|done|]. exists l. rewrite Hl. do 2 f_equal. lia. }
  assert (j ≤ length (b :: bs))%nat as Hj by (pose proof (source_run_le (var st) y (lo + 1) bs); cbn; lia).
  assert (∀ i c, (i < j)%nat → (b :: bs) !! i = Some c → 0 <= lo + Z.of_nat i ∧ lo + Z.of_nat i + 1 <= size_at (var st) y ∧
    mem_at (var st) y ∧ (y ≤ R)%nat ∧ ∀ ρ, ob (var st) ρ c 0 = ob (var st) ρ y (lo + Z.of_nat i)) as Hsrc.
  { intros i c Hij Hc. destruct (Hat i c Hij Hc) as [l Hl]. rewrite Forall_lookup in Hbs.
    destruct (byte_source _ _ _ _ _ _ _ Hwf Hv (Hbs _ _ Hc) Hl) as (? & ? & ? & ? & ?). split_and!; done. }
  destruct (Hsrc 0%nat b) as (Hlo0 & _ & Hm & HyR & _); [lia|done|].
  assert (∃ c, (b :: bs) !! (j - 1)%nat = Some c) as [c Hc] by (apply lookup_lt_is_Some; cbn in *; lia).
  destruct (Hsrc (j - 1)%nat c) as (_ & Hlast & _); [lia|done|].
  eapply vspec_bind; [apply Hb; [done|done|]; split_and!; [done|lia|lia|lia]|]. intros p st1 Hi1 Hx1 _ (Hmp & Hsp & Hop & _).
  apply vspec_ret; [done|]. split; [done|]. split; [done|]. split; [cbn in *; lia|]. cbn [fst snd]. intros ρ i c' Hij Hc'.
  destruct (Hsrc i c' Hij Hc') as (_ & _ & _ & _ & Ho). rewrite Ho.
  rewrite <- (ob_ext (var st) (var st1)) by (done || apply Hi1 || by apply mem_valid). apply Hop. lia.
Qed.
Lemma const_part b bs st R d : vinv st → Forall (a_byte (var st) R d) (b :: bs) → is_Some (constInt (var st) b) →
  let cs := const_run (var st) 8 (b :: bs) in
  vspec (val! p := vm (mkInt (bytesTy (Z.of_nat (length cs))) (sext 64 (le_word 0 cs))) in vret (p, length cs)) st
    (part_of (var st) (b :: bs)).
Proof.
  intros Hi Hbs [c0 Hc0] cs. pose proof (vi_wf _ Hi) as Hwf. pose proof (vi_ok _ Hi) as Hv.
  destruct (const_run_le (var st) 8 (b :: bs)) as [Hl8 Hll]. fold cs in Hl8, Hll.
  assert (0 < length cs)%nat as Hpos by (unfold cs; cbn; rewrite Hc0; cbn; lia).
  set (len := Z.of_nat (length cs)) in *. destruct (bytesTy_mem len) as [Hbm Hbs']; [lia|].
  eapply vspec_bind; [apply vspec_vm; [done|]; apply (mkInt_v (var st) (bytesTy len) (8 * len)); try done; intros _; lia|].
  intros p st1 Hi1 Hx1 _ (Htp & Hop & _). apply vspec_ret; [done|]. split; [by exists (bytesTy len)|]. cbn [fst snd].
  split; [by rewrite (size_of_type _ _ _ Htp)|]. split; [lia|]. intros ρ i c Hij Hc. right. rewrite Hop.
  apply lookup_lt_is_Some in Hij as [z Hz]. destruct (const_run_at _ _ _ _ _ Hz) as (c' & Hc' & Hk). rewrite Hc in Hc'. injection Hc' as <-.
  assert (∃ x, nodes (var st) !! c = Some x) as [x Hx].
  { unfold constInt in Hk. destruct (nodes (var st) !! c) as [x|]; [eauto|done]. }
  rewrite (const_bytes (var st) c x z) by (done || (unfold constInt in Hk; by rewrite Hx in Hk)). f_equal.
  rewrite <- (le_word_byte cs i z Hz). apply lookup_lt_Some in Hz.
  symmetry. transitivity (byte (Z.of_nat i) (sext 64 (le_word 0 cs))).
  - apply (byte_residue (8 * len)); [lia|lia|]. by rewrite wrapw_mod by lia.
  - apply (byte_residue 64); [lia|lia|]. by apply sext_mod.
Qed.
Lemma undef_part b bs st : vinv st → is_undef (var st) b = true →
  let j := S (undef_run (var st) bs) in
  vspec (val! p := vm (mkUndef (bytesTy (Z.of_nat j))) in vret (p, j)) st (part_of (var st) (b :: bs)).
Proof.
  intros Hi Hu j. pose proof (vi_wf _ Hi) as Hwf. destruct (bytesTy_mem (Z.of_nat j)) as [Hbm Hbs]; [lia|].
  eapply vspec_bind; [apply vspec_vm; [done|]; by apply mkUndef_v; [|apply Hi]|]. intros p st1 Hi1 Hx1 _ [Htp _].
  apply vspec_ret; [done|]. split; [by exists (bytesTy (Z.of_nat j))|]. split; [by rewrite (size_of_type _ _ _ Htp)|].
  split; [pose proof (undef_run_le (var st) bs); cbn; lia|]. intros ρ i c Hij Hc. left. apply undef_ob; [done|].
  destruct i as [|i]; cbn in Hc; [by injection Hc as <-|]. cbn [snd] in Hij. eapply undef_run_at; [|exact Hc]. lia.
Qed.
Lemma single_part b bs st R d : vinv st → Forall (a_byte (var st) R d) (b :: bs) →
  vspec (vret (b, 1%nat)) st (part_of (var st) (b :: bs)).
Proof.
  intros Hi Hbs. apply Forall_cons in Hbs as [(Hm & Hs & _) _]. apply vspec_ret; [done|].
  split; [done|]. split; [done|]. split; [cbn; lia|]. intros ρ [|i] c Hij; cbn in *; [by intros [= <-]|lia].
Qed.

(** ** Bytes selected by one condition *)
Lemma strip_v s e : wf s → vok s → mem_at s e →
  mem_at s (strip s e) ∧ size_at s (strip s e) = size_at s e ∧ ∀ ρ k, ob s ρ (strip s e) k = ob s ρ e k.
Proof.
  intros Hwf Hv Hm. destruct (unwrap_v s e Hwf Hm) as (_ & Hmu & Hsu & Hou & _). unfold strip.
  destruct (same_size_cast s (unwrap s e)) as [y|] eqn:Ec; cbn [default]; [|done].
  destruct (same_size_cast_v _ _ _ Hwf Hmu Ec) as (_ & Hs & Ho & _).
  destruct (mem_node _ _ Hmu) as (x & Hx & Hmx & _). destruct (Hv _ _ Hx Hmx) as (_ & Hcast & _).
  split; [by apply Hcast|]. split; [change (size_at s y = size_at s e); congruence|]. intros ρ k. change (ob s ρ y k = ob s ρ e k).
  by rewrite <- Ho, Hou.
Qed.
(** the value [r] has, for each of the first [j] pairs of arms, the byte of the arm that [c] chooses *)
Definition selected (s : Arena) (c : EP) (arms : list (EP * EP)) (j : nat) (r : EP) (s' : Arena) : Prop :=
  mem_at s' r ∧ size_at s' r = Z.of_nat j ∧
  ∀ ρ i t f, (i < j)%nat → arms !! i = Some (t, f) → refines (ob s ρ (chosen s ρ c t f) 0) (ob s' ρ r (Z.of_nat i)).
Definition arm_bytes (s : Arena) (R d : nat) (arms : list (EP * EP)) : Prop :=
  Forall (λ p : EP * EP, a_byte s R d p.1 ∧ a_byte s R d p.2) arms.
Lemma selected_ext s s1 s' c arms j r R d : wf s → wf s1 → ext s s1 → valid s c → arm_bytes s R d arms →
  selected s1 c arms j r s' → selected s c arms j r s'.
Proof.
  intros Hw Hw1 Hx Hc Ha (Hm & Hs & Ho). split; [done|]. split; [done|]. intros ρ i t f Hi Hp. etrans; [|by eapply Ho].
  unfold arm_bytes in Ha. rewrite Forall_lookup in Ha. destruct (Ha _ _ Hp) as [[Hmt _] [Hmf _]]. cbn in *. unfold chosen. rewrite (T_ext s s1) by done.
  destruct (T s ρ c); rewrite (ob_ext s s1) by (done || by apply mem_valid); done.
Qed.
(** both sides joined, and the selection of them *)
Lemma select_joined c arms j t f st0 st R d : vinv st0 → vinv st → ext (var st0) (var st) → plain (var st0) c → arm_bytes (var st0) R d arms →
  (j ≤ length arms)%nat → mem_at (var st) t → mem_at (var st) f → size_at (var st) t = Z.of_nat j → size_at (var st) f = Z.of_nat j →
  (∀ ρ i b, (take j arms).*1 !! i = Some b → refines (ob (var st0) ρ b 0) (ob (var st) ρ t (Z.of_nat i))) →
  (∀ ρ i b, (take j arms).*2 !! i = Some b → refines (ob (var st0) ρ b 0) (ob (var st) ρ f (Z.of_nat i))) →
  vspec (vite cond_ops c t f) st (selected (var st0) c arms j).
Proof.
  intros Hi0 Hi Hx Hp Ha Hj Hmt Hmf Hst Hsf Hot Hof.
  assert (plain (var st) c) as Hp' by (apply (plain_ext (var st0)); [apply Hi0|done|done]).
  eapply vspec_mono; [apply vspec_lift; [done|]; apply ite_plain; try done; [unfold ite_fuel; lia|apply Hi|apply Hi|unfold var in *; congruence]|].
  cbn. intros r st' Hi' Hx' (Hmr & Hsr & Hor & _). fold (var st) in *. rewrite Hst in *. split; [done|]. split; [done|].
  intros ρ i x y Hij Hxy. etrans; [|apply Hor; lia]. unfold chosen. rewrite (T_ext (var st0) (var st)) by (apply Hi0 || apply Hi || done || by destruct Hp).
  destruct (T (var st0) ρ c); [apply Hot|apply Hof]; by rewrite list_lookup_fmap, lookup_take_lt, Hxy by done.
Qed.
Lemma arms_value_v c arms j st R d : fromBytes_at rec R d → vinv st → plain (var st) c → arm_bytes (var st) R d arms →
  (0 < j ≤ length arms)%nat →
  vspec (arms_value cond_ops rec c arms j) st (λ o s', ∀ r, o = Some r → selected (var st) c arms j r s').
Proof.
  intros Hf Hi Hp Ha Hj. unfold arms_value. set (it := bytesTy (Z.of_nat j)).
  destruct (bytesTy_mem (Z.of_nat j)) as [Hmt Hst]; [lia|]. fold it in Hmt, Hst.
  assert (length (take j arms) = j) as Hlen by (rewrite length_take; lia).
  assert (Forall (a_byte (var st) R d) (take j arms).*1 ∧ Forall (a_byte (var st) R d) (take j arms).*2) as [Ht1 Ht2].
  { split; apply Forall_fmap, Forall_take; (eapply Forall_impl; [exact Ha|]); intros p [? ?]; done. }
  assert (∀ l : list EP, length l = j → l ≠ []) as Hne by (intros [|]; [cbn; lia|done]).
  eapply vspec_bind; [apply Hf; [done|done|apply Hne; by rewrite length_fmap|done|by rewrite length_fmap, Hlen]|].
  intros t st1 Hi1 Hx1 _ [Htt Hot].
  eapply vspec_bind; [apply Hf; [done| |apply Hne; by rewrite length_fmap|done|by rewrite length_fmap, Hlen]|].
  { eapply Forall_impl; [exact Ht2|]. intros b. by apply a_byte_ext; [apply Hi|..]. }
  intros f st2 Hi2 Hx2 _ [Htf Hof]. assert (ext (var st) (var st2)) as Hx02 by (by etrans).
  pose proof (vi_wf _ Hi) as Hwf. pose proof (vi_wf _ Hi2) as Hwf2.
  assert (mem_at (var st2) t) as Hmtt by (exists it; split; [by apply (type_at_ext (var st1))|done]).
  assert (mem_at (var st2) f) as Hmtf by (by exists it).
  assert (size_at (var st2) t = Z.of_nat j) as Hst2 by (erewrite size_of_type; [exact Hst|by apply (type_at_ext (var st1))]).
  assert (size_at (var st2) f = Z.of_nat j) as Hsf2 by (by erewrite size_of_type).
  destruct (strip_v _ t Hwf2 (vi_ok _ Hi2) Hmtt) as (Hm1 & Hs1 & Ho1). destruct (strip_v _ f Hwf2 (vi_ok _ Hi2) Hmtf) as (Hm2 & Hs2 & Ho2).
  apply vspec_see. apply vspec_see. set (t' := strip (var st2) t) in *. set (f' := strip (var st2) f) in *. apply vspec_see.
  destruct (_ || _); [by apply vspec_ret|]. apply vspec_see.
  assert (∀ ρ i b, (take j arms).*1 !! i = Some b → refines (ob (var st) ρ b 0) (ob (var st2) ρ t' (Z.of_nat i))) as Hjt.
  { intros ρ i b Hb. rewrite Ho1. rewrite (ob_ext (var st1) (var st2)) by (apply Hi1 || done || by eapply type_at_valid). by apply Hot. }
  assert (∀ ρ i b, (take j arms).*2 !! i = Some b → refines (ob (var st) ρ b 0) (ob (var st2) ρ f' (Z.of_nat i))) as Hjf.
  { intros ρ i b Hb. rewrite Ho2. etrans; [|by apply Hof]. right. symmetry. rewrite Forall_lookup in Ht2.
    destruct (Ht2 _ _ Hb) as (Hmb & _). apply ob_ext; [done|apply Hi1|done|by apply mem_valid]. }
  assert (∀ m : V EP, vspec m st2 (selected (var st) c arms j) → 
    vspec (val! r := m in vret (Some r)) st2 (λ o s', ∀ r, o = Some r → selected (var st) c arms j r s')) as Hdone.
  { intros m Hm. eapply vspec_bind; [exact Hm|]. intros r st3 Hi3 Hx3 _ Hr. apply vspec_ret; [done|]. by intros ? [= <-]. }
  destruct (bool_decide _).
  - apply Hdone. eapply select_joined; try done; [lia|congruence|congruence].
  - eapply vspec_bind; [apply vspec_vm; [done|]; apply cast_v; try done; [apply Hi2|congruence]|].
    intros t2 st3 Hi3 Hx3 _ [[Htt2 Hot2] _].
    eapply vspec_bind; [apply vspec_vm; [done|]; apply cast_v; try done; [apply Hi3|apply Hi3|by apply (mem_at_ext (var st2))|]|].
    { rewrite (size_at_ext (var st2)) by (done || by apply mem_valid). congruence. }
    intros f2 st4 Hi4 Hx4 _ [[Htf2 Hof2] _]. assert (ext (var st) (var st4)) as Hx04 by (etrans; [|exact Hx4]; by etrans).
    assert (type_at (var st4) t2 = Some it) as Htt4 by (by apply (type_at_ext (var st3))).
    assert (∀ m : V EP, vspec m st4 (selected (var st) c arms j) → 
      vspec (val! r := m in vret (Some r)) st4 (λ o s', ∀ r, o = Some r → selected (var st) c arms j r s')) as Hdone4.
    { intros m Hm. eapply vspec_bind; [exact Hm|]. intros r st5 Hi5 Hx5 _ Hr. apply vspec_ret; [done|]. by intros ? [= <-]. }
    apply Hdone4. eapply select_joined; try done; [lia|by exists it|by exists it|by erewrite size_of_type|by erewrite size_of_type| |].
    + intros ρ i b Hb. etrans; [by apply Hjt|]. rewrite (ob_ext (var st3) (var st4)) by (apply Hi3 || apply Hi4 || done || by eapply type_at_valid).
      apply Hot2. apply lookup_lt_Some in Hb. rewrite length_fmap in Hb. lia.
    + intros ρ i b Hb. etrans; [by apply Hjf|]. rewrite <- (ob_ext (var st2) (var st3)) by (apply Hi3 || done || by apply mem_valid).
      apply Hof2. apply lookup_lt_Some in Hb. rewrite length_fmap in Hb. lia.
Qed.

Lemma arm_bytes_ext s s' R d arms : wf s → ext s s' → arm_bytes s R d arms → arm_bytes s' R d arms.
Proof. intros Hw Hx Ha. eapply Forall_impl; [exact Ha|]. intros p [? ?]. split; by apply (a_byte_ext s s'). Qed.
Lemma arms_best_v c arms st R d : fromBytes_at rec R d → vinv st → plain (var st) c → arm_bytes (var st) R d arms →
  vspec (arms_best cond_ops rec c arms) st
    (λ o s', ∀ j r, o = Some (j, r) → (0 < j ≤ length arms)%nat ∧ selected (var st) c arms j r s').
Proof.
  intros Hf Hi Hp Ha. unfold arms_best.
  set (Good := λ (o : option (nat * EP)) (s' : Arena), ∀ j r, o = Some (j, r) → (0 < j ≤ length arms)%nat ∧ selected (var st) c arms j r s').
  assert (∀ js best st', (∀ j, j ∈ js → (0 < j ≤ length arms)%nat) → vinv st' → ext (var st) (var st') → Good best (var st') →
    vspec (vfold (λ best j, val! r := arms_value cond_ops rec c arms j in
       vret (match r with Some r => Some (j, r) | None => best end)) js best) st' Good) as Hloop.
  { induction js as [|j js IH]; intros best st' Hjs Hi' Hx' Hg; cbn [vfold]; [by apply vspec_ret|].
    assert (plain (var st') c) as Hp' by (apply (plain_ext (var st)); [apply Hi|done|done]).
    assert (arm_bytes (var st') R d arms) as Ha' by (apply (arm_bytes_ext (var st)); [apply Hi|done|done]).
    eapply vspec_bind; [eapply vspec_bind; [apply (arms_value_v c arms j st' R d); try done; apply Hjs; left|]|].
    - intros o st1 Hi1 Hx1 _ Ho. apply vspec_ret; [done|].
      instantiate (1 := Good). intros j' r. destruct o as [r'|].
      + intros [= <- <-]. split; [apply Hjs; left|]. eapply selected_ext; [apply Hi|apply Hi'|done|by destruct Hp|done|by apply Ho].
      + intros E. destruct (Hg j' r E) as (Hj & Hm & Hs & Ho'). split; [done|]. split; [by apply (mem_at_ext (var st'))|].
        rewrite (size_at_ext (var st')) by (done || by apply mem_valid). split; [done|]. intros ρ i t f Hij Htf.
        rewrite (ob_ext (var st') (var st1)) by (apply Hi' || apply Hi1 || done || by apply mem_valid). by eapply Ho'.
    - intros best' st1 Hi1 Hx1 _ Hg1. eapply vspec_mono; [apply IH; [intros k Hk; apply Hjs; by right|done|by etrans|done]|].
      by intros o st2 _ _ Hg2. }
  apply Hloop; [|done|done|done]. intros j Hj. apply elem_of_seq in Hj. lia.
Qed.
(** the selections at the front are of bytes *)
Lemma arms_run_v s R d c bs : wf s → vok s → Forall (a_byte s R d) bs → arms_run s c bs ≠ [] →
  (0 < d)%nat ∧ arm_bytes s R (pred d) (arms_run s c bs) ∧ plain s c ∧
  ∀ i t f b ρ, arms_run s c bs !! i = Some (t, f) → bs !! i = Some b → ob s ρ b 0 = ob s ρ (chosen s ρ c t f) 0.
Proof.
  intros Hwf Hv Hbs Hne. rewrite Forall_lookup in Hbs.
  assert (∀ i t f, arms_run s c bs !! i = Some (t, f) → (0 < d)%nat ∧ a_byte s R (pred d) t ∧ a_byte s R (pred d) f ∧ plain s c ∧
    ∀ b ρ, bs !! i = Some b → ob s ρ b 0 = ob s ρ (chosen s ρ c t f) 0) as Hat.
  { intros i t f Ha. destruct (arms_run_at _ _ _ _ _ _ Ha) as (b & Hb & [ty Hn]%node_at_node). pose proof (Hbs _ _ Hb) as Hby.
    destruct (byte_node _ _ _ _ Hv Hby) as (x & Hx & Hmx & Hsx & Hok & _). rewrite Hn in Hx. injection Hx as <-. cbn [Arena.node Arena.ty] in *.
    destruct Hok as (c' & t' & f' & [= <- <- <-] & Hp & Hst & Hsf & Hmt & Hmf). destruct Hby as (_ & _ & Hr).
    assert (∃ d', d = S d' ∧ brank s R d' t ∧ brank s R d' f) as (d' & -> & Hrt & Hrf).
    { inversion Hr as [? ? ? ? ? ? He|d' ? ? c0 a0 b0 He Ha0 Hb0|? ? ? He|? ? ? He|? ? ? He Hn']; subst.
      - rewrite Hn in He. done.
      - rewrite Hn in He. injection He as _ _ <- <-. eauto.
      - apply same_size_cast_node in He as (? & ? & He & _). congruence.
      - apply same_size_atom_node in He as (? & ? & He & _). congruence.
      - rewrite Hn in He. by injection He as <-. }
    cbn [pred]. split; [lia|]. split; [split_and!; try done; congruence|]. split; [split_and!; try done; congruence|]. split; [done|].
    intros b' ρ Hb'. rewrite Hb in Hb'. injection Hb' as <-. rewrite (ob_unfold _ _ b _ _ Hwf Hn). unfold ob_node; cbn [node]. done. }
  destruct (arms_run s c bs) as [|[t0 f0] arms] eqn:Er; [done|]. rewrite <- Er in *. assert (arms_run s c bs !! 0%nat = Some (t0, f0)) as H0f by (by rewrite Er).
  destruct (Hat _ _ _ H0f) as (Hd & _ & _ & Hp & _). split; [done|]. split; [|split; [done|]].
  - apply Forall_lookup_2. intros i [t f] Ha. by destruct (Hat i t f Ha) as (_ & ? & ? & _).
  - intros i t f b ρ Ha Hb. destruct (Hat i t f Ha) as (_ & _ & _ & _ & Ho). by apply Ho.
Qed.
Lemma first_part_v b bs st R d : (∀ y, (y ≤ R)%nat → bytes_at rec y) → (∀ d', (d' < d)%nat → fromBytes_at rec R d') →
  vinv st → Forall (a_byte (var st) R d) (b :: bs) → vspec (first_part cond_ops rec b bs) st (part_of (var st) (b :: bs)).
Proof.
  intros Hb Hf Hi Hbs. pose proof (vi_wf _ Hi) as Hwf. pose proof (vi_ok _ Hi) as Hv.
  pose proof (single_part b bs st R d Hi Hbs) as Hsingle.
  assert (∃ x, nodes (var st) !! b = Some x) as [x Hx].
  { apply Forall_cons in Hbs as [Hby _]. destruct (byte_node _ _ _ _ Hv Hby) as (x & ? & _). eauto. }
  eapply vspec_deref; [exact Hx|]. apply vspec_see.
  assert (node_at (var st) b = Some (node x)) as Hna by (unfold node_at; by rewrite Hx).
  assert (∀ c l, node x = NIte (c :: l) → vspec
    (val! arms := vsee (λ s, arms_run s c (b :: bs)) in
     val! best := arms_best cond_ops rec c arms in
     match best with
     | Some (j, r) => if (1 <? j)%nat then vret (r, j) else vret (b, 1%nat)
     | None => vret (b, 1%nat)
     end) st (part_of (var st) (b :: bs))) as Hite.
  { intros c l _. apply vspec_see. destruct (decide (arms_run (var st) c (b :: bs) = [])) as [->|Hne].
    { exact Hsingle. }
    destruct (arms_run_v _ R d c (b :: bs) Hwf Hv Hbs Hne) as (Hd & Ha & Hp & Ho).
    eapply vspec_bind; [apply (arms_best_v c _ st R (pred d)); try done; apply Hf; lia|]. intros best st1 Hi1 Hx1 _ Hbest.
    assert (vspec (vret (b, 1%nat)) st1 (part_of (var st) (b :: bs))) as Hone.
    { apply vspec_ret; [done|]. apply Forall_cons in Hbs as [(Hm & Hs & _) _]. split; [by apply (mem_at_ext (var st))|].
      split; [cbn; by rewrite (size_at_ext (var st)) by (done || by apply mem_valid)|]. split; [cbn; lia|].
      intros ρ [|i] c' Hij; cbn in *; [|lia]. intros [= <-]. right. symmetry. apply ob_ext; [done|apply Hi1|done|by apply mem_valid]. }
    destruct best as [[j r]|]; [|exact Hone]. destruct (Nat.ltb_spec 1 j); [|exact Hone].
    destruct (Hbest j r eq_refl) as (Hj & Hmr & Hsr & Hor). apply vspec_ret; [done|].
    pose proof (arms_run_le (var st) c (b :: bs)). split; [done|]. split; [done|]. split; [cbn in *; lia|].
    cbn [fst snd]. intros ρ i b' Hij Hb'. assert (is_Some (arms_run (var st) c (b :: bs) !! i)) as [[t f] Htf] by (apply lookup_lt_is_Some; lia).
    rewrite (Ho _ _ _ _ ρ Htf Hb'). by apply Hor. }
  destruct (constInt (var st) b) as [z|] eqn:Ez.
  - assert (∀ y lo len, node x ≠ NBytes y lo len) as Hnb.
    { intros y lo len En. unfold constInt, constInt_node in Ez. rewrite Hx in Ez. cbn in Ez. by rewrite En in Ez. }
    assert (vspec (val! cs := vsee (λ s, const_run s 8 (b :: bs)) in
      val! p := vm (mkInt (bytesTy (Z.of_nat (length cs))) (sext 64 (le_word 0 cs))) in vret (p, length cs)) st (part_of (var st) (b :: bs))) as Hc.
    { apply vspec_see. eapply const_part; [done|exact Hbs|]. by rewrite Ez. }
    destruct (node x) as [| | | | |[|c l]| | |y lo len| |]; try exact Hc. by destruct (Hnb y lo len).
  - destruct (node x) as [| | | | |[|c l]| | |y lo len| |] eqn:En; try exact Hsingle.
    + by eapply Hite.
    + apply vspec_see. eapply source_part; [done|done|exact Hbs|]. eauto.
    + apply vspec_see. apply undef_part; [done|]. unfold is_undef. by rewrite Hna.
Qed.

(** ** All parts, and their value *)
Definition parts_of (s : Arena) (bs ps : list EP) (s' : Arena) : Prop :=
  Forall (mem_at s') ps ∧ sizes s' ps = Z.of_nat (length bs) ∧ (bs ≠ [] → ps ≠ []) ∧
  ∀ ρ i b, bs !! i = Some b → refines (ob s ρ b 0) (part_byte (ob s' ρ) s' ps (Z.of_nat i)).
Lemma all_parts_v n bs st R d : (∀ y, (y ≤ R)%nat → bytes_at rec y) → (∀ d', (d' < d)%nat → fromBytes_at rec R d') →
  (length bs ≤ n)%nat → vinv st → Forall (a_byte (var st) R d) bs →
  vspec (all_parts cond_ops rec n bs) st (parts_of (var st) bs).
Proof.
  intros Hb Hf. revert bs st. induction n as [|n IH]; intros bs st Hn Hi Hbs.
  { destruct bs; [|cbn in Hn; lia]. cbn. apply vspec_ret; [done|]. by split_and!. }
  destruct bs as [|b bs]; cbn [all_parts]; [apply vspec_ret; [done|]; by split_and!|].
  eapply vspec_bind; [by eapply first_part_v|]. intros [p j] st1 Hi1 Hx1 _ (Hmp & Hsp & Hj & Hop). cbn [fst snd] in *.
  eapply vspec_bind; [apply IH; [rewrite length_drop; cbn in *; lia|done|]|].
  { apply Forall_drop. eapply Forall_impl; [exact Hbs|]. intros b'. apply a_byte_ext; [apply Hi|done]. }
  intros ps st2 Hi2 Hx2 _ (Hmps & Hsz & _ & Hops). apply vspec_ret; [done|].
  split; [constructor; [by apply (mem_at_ext (var st1))|done]|].
  split; [cbn [sizes]; rewrite Hsz, length_drop, (size_at_ext (var st1)) by (done || by apply mem_valid); lia|].
  split; [done|]. intros ρ i c Hc. cbn [part_byte]. rewrite (size_at_ext (var st1)), Hsp by (done || by apply mem_valid).
  destruct (Z.ltb_spec (Z.of_nat i) (Z.of_nat j)).
  - rewrite (ob_ext (var st1) (var st2)) by (apply Hi1 || apply Hi2 || done || by apply mem_valid). apply Hop; [lia|done].
  - specialize (Hops ρ (i - j)%nat c). rewrite lookup_drop in Hops. replace (j + (i - j))%nat with i in Hops by lia.
    specialize (Hops Hc). replace (Z.of_nat i - Z.of_nat j) with (Z.of_nat (i - j)) by lia.
    rewrite (ob_ext (var st) (var st1)) in Hops; [done|apply Hi|apply Hi1|done|].
    rewrite Forall_lookup in Hbs. by destruct (Hbs _ _ Hc) as (?%mem_valid & _).
Qed.
Lemma concat_v s ps t : wf s → vok s → Forall (mem_at s) ps → sizes s ps = sizeOf t → mem_ty t = true →
  mspec (concat ps t) s (λ r s', type_at s' r = Some t ∧
    ∀ ρ k, 0 <= k < sizeOf t → ob s' ρ r k = part_byte (ob s ρ) s ps k).
Proof.
  intros Hwf Hv Hps Hs Hm. unfold concat. apply gets_spec.
  assert (mspec (intern (mkExpr t (NConcat ps))) s (λ r s', type_at s' r = Some t ∧
    ∀ ρ k, 0 <= k < sizeOf t → ob s' ρ r k = part_byte (ob s ρ) s ps k)) as Hnew.
  { eapply mspec_mono; [apply intern_vok; [done|done| |]|].
    - split; [|done]. eapply Forall_impl; [exact Hps|]. intros p Hp. by apply mem_valid.
    - intros r s' _ Hx Hr _. split; [|split; [by eapply no_cast|by eapply no_atom]]. cbn. split.
      + eapply Forall_impl; [exact Hps|]. intros p. by apply mem_at_ext.
      + by rewrite (sizes_ext s s').
    - cbn. intros r s' Hw' _ Hx [Ht Hr]. split; [done|]. intros ρ k _. rewrite (ob_unfold _ _ _ _ _ Hw' Hr). unfold ob_node; cbn [node].
      apply part_byte_ext. eapply Forall_impl; [exact Hps|]. intros p Hp%mem_valid. split; [by apply size_at_ext|].
      intros k'. by apply ob_ext. }
  destruct ps as [|p [|q ps]]; try exact Hnew. case_bool_decide as Ht; [|exact Hnew].
  apply mspec_ret; [done..|]. split; [done|]. intros ρ k Hk. cbn. apply size_of_type in Ht. by rewrite (proj2 (Z.ltb_lt _ _)) by lia.
Qed.
Lemma fromBytes_body_v bs t st R d : (∀ y, (y ≤ R)%nat → bytes_at rec y) → (∀ d', (d' < d)%nat → fromBytes_at rec R d') →
  vinv st → Forall (a_byte (var st) R d) bs → bs ≠ [] → mem_ty t = true → sizeOf t = Z.of_nat (length bs) →
  vspec (fromBytes_body cond_ops rec bs t) st (joins (var st) bs t).
Proof.
  intros Hb Hf Hi Hbs Hne Hm Hs. unfold fromBytes_body.
  eapply vspec_bind; [by eapply all_parts_v|]. intros ps st1 Hi1 Hx1 _ (Hmps & Hsz & Hps & Hop). specialize (Hps Hne).
  assert (vspec (vm (concat ps t)) st1 (joins (var st) bs t)) as Hcat.
  { apply vspec_vm; [done|]. eapply mspec_mono; [apply concat_v; [apply Hi1|apply Hi1|done|congruence|done]|].
    cbn. intros r s' _ _ _ [Ht Ho]. split; [done|]. intros ρ i b Hib. rewrite Ho; [by apply Hop|].
    apply lookup_lt_Some in Hib. lia. }
  destruct ps as [|p [|q ps]]; [done| |exact Hcat]. apply vspec_see. apply Forall_cons in Hmps as [Hmp _].
  cbn [sizes] in Hsz. assert (∀ ρ i b, bs !! i = Some b → refines (ob (var st) ρ b 0) (ob (var st1) ρ p (Z.of_nat i))) as Hop'.
  { intros ρ i b Hib. specialize (Hop ρ i b Hib). cbn [part_byte] in Hop. apply lookup_lt_Some in Hib.
    rewrite (proj2 (Z.ltb_lt _ _)) in Hop by lia. done. }
  case_bool_decide as Ht; [by apply vspec_ret|]. apply vspec_see. destruct (Z.eqb_spec (size_at (var st1) p) (sizeOf t)); [|exact Hcat].
  apply vspec_vm; [done|]. eapply mspec_mono; [apply cast_v; try done; apply Hi1|]. cbn. intros r s' _ _ _ [[Htr Hor] _].
  split; [done|]. intros ρ i b Hib. etrans; [by apply Hop'|]. apply Hor. apply lookup_lt_Some in Hib. lia.
Qed.
End join.
