(* ===== verification/ArenaValueThm.v ===== *)
(** The theorems about values of the symbolic executor (ArenaValue.v) and their bytes: parts of values, joining
    bytes, and the round trip through memory. *)
From S2P Require Import Prelude Expr Arena ArenaSem ArenaCmp ArenaLits ArenaContra ArenaCond ArenaCondSem ArenaCondLits ArenaCondSound ArenaCondTotal ArenaCondThm.
From S2P Require Import ArenaValue ArenaFold ArenaBytes ArenaIte ArenaSlice ArenaJoin.
Open Scope Z_scope.

(** ** Fuel *)
(** calls at an expression go to older ones; a straddled concatenation takes its bytes and joins them *)
Definition fuel_bytes (e : EP) : nat := (e + 2) * (e + 2).
Definition fuel_toBytes (v : EP) : nat := v + 1 + fuel_bytes v.
Definition fuel_fromBytes (R d : nat) : nat := 1 + d + fuel_bytes R.
Section knot.
Context `{SizeLaws} `{CmpInst} (cond_ops : Ops).
Local Abbreviation bops := (bops cond_ops).
Lemma bops_ok n :
  (∀ e, (fuel_bytes e ≤ n)%nat → bytes_at (bops n) e) ∧
  (∀ v, (v + 1 + (v + 1) * (v + 1) ≤ n)%nat → concat_at (bops n) v) ∧
  (∀ v, (fuel_toBytes v ≤ n)%nat → toBytes_at (bops n) v) ∧
  (∀ R d, (fuel_fromBytes R d ≤ n)%nat → fromBytes_at (bops n) R d).
Proof.
  unfold fuel_toBytes, fuel_fromBytes, fuel_bytes. induction n as [|n (IHb & IHc & IHt & IHf)].
  { split_and!; intros; exfalso; lia. }
  split_and!.
  - intros e Hn lo len st Hi Hs. apply bytes_body_v; try done.
    + intros y Hy. apply IHb. nia.
    + apply IHc. nia.
    + intros R d HR Hd. apply IHf. nia.
  - intros v Hn st Hi Hm Hc. apply toBytes_body_v; try done; [|congruence].
    intros p Hp. apply IHt. nia.
  - intros v Hn st Hi Hm. apply toBytes_body_v; try done.
    + intros p Hp. apply IHt. nia.
    + intros _. apply IHb. nia.
  - intros R d Hn bs t st Hi Hbs Hne Ht Hs. eapply fromBytes_body_v; try done.
    + intros y Hy. apply IHb. nia.
    + intros d' Hd. apply IHf. nia.
Qed.
End knot.

(** ** Bytes and values *)
Section values.
Context `{SizeLaws}.
(** [ρ] gives parts, concatenations, casts and constants of the store the value of their bytes *)
Record byte_model (s : Arena) (ρ : Env) : Prop := {
  bm_value e x k v : nodes s !! e = Some x → 0 <= k →
    ob_node s ρ (λ y j, Some (byte j (den s ρ y))) e x k = Some v → byte k (den s ρ e) = v;
  bm_unsigned e t y lo len : nodes s !! e = Some (mkExpr t (NBytes y lo len)) → 0 <= lo }.
(** the defined bytes of an expression are those of its value *)
Lemma ob_den s ρ e k v : wf s → byte_model s ρ → 0 <= k → ob s ρ e k = Some v → v = byte k (den s ρ e).
Proof.
  intros Hwf Hm. revert k v. induction (lt_wf e) as [e _ IH]. intros k v Hk Hv.
  destruct (nodes s !! e) as [x|] eqn:Hx; [|unfold ob in Hv; cbn in Hv; by rewrite Hx in Hv].
  symmetry. apply (bm_value _ _ Hm e x k v); [done|done|]. rewrite (ob_unfold _ _ _ _ _ Hwf Hx) in Hv. revert Hv.
  destruct (wf_nodes _ Hwf _ _ Hx) as [Hc _]. unfold ob_node.
  pose proof (λ y, cast_older s e y Hwf) as Hcast. pose proof (λ a, atom_older s e a Hwf) as Hatom.
  assert (∀ y j, (y < e)%nat → 0 <= j → ob s ρ y j = Some v → Some (byte j (den s ρ y)) = Some v) as Hy.
  { intros y j Hlt Hj Ho. f_equal. symmetry. by apply (IH y). }
  assert (∀ ps, Forall (λ c, (c < e)%nat) ps → ∀ j, 0 <= j → part_byte (ob s ρ) s ps j = Some v →
    part_byte (λ y j, Some (byte j (den s ρ y))) s ps j = Some v) as Hp.
  { intros ps Hps. induction Hps as [|p ps Hlt _ IHp]; intros j Hj; cbn [part_byte]; [done|].
    destruct (Z.ltb_spec j (size_at s p)); [by apply Hy|]. apply IHp. lia. }
  destruct x as [t n]. cbn [node ty] in *. cbn [children] in Hc.
  destruct n; destruct (same_size_cast s e) as [y|], (same_size_atom s e) as [a|]; try done; cbn [children] in Hc;
    try (by apply Hy; auto); try (by apply Hp).
  all: try (destruct args as [|c [|a0 [|b0 [|]]]]; try done; try (by apply Hy; auto);
    apply Forall_cons in Hc as [? [? [? _]%Forall_cons]%Forall_cons]; destruct (T s ρ c); by apply Hy).
  all: apply Forall_cons in Hc as [Hlt _]; destruct (k <? len); [|done]; pose proof (bm_unsigned _ _ Hm _ _ _ _ _ Hx);
    apply Hy; [done|lia].
Qed.
(** an integer of [n] bytes is determined by them *)
Lemma bytes_residue n z z' : 0 <= n → (∀ k, 0 <= k < n → byte k z = byte k z') → z mod 2 ^ (8 * n) = z' mod 2 ^ (8 * n).
Proof.
  intros Hn Hb. apply Z.bits_inj'. intros i Hi. destruct (Z.ltb_spec i (8 * n)).
  - rewrite !Z.mod_pow2_bits_low by lia. pose proof (Z.div_mod i 8 ltac:(lia)). pose proof (Z.mod_pos_bound i 8 ltac:(lia)).
    specialize (Hb (i / 8) ltac:(lia)). assert (Z.testbit (byte (i / 8) z) (i mod 8) = Z.testbit (byte (i / 8) z') (i mod 8)) as E by (by rewrite Hb).
    rewrite !byte_bit, (proj2 (Z.ltb_lt _ 8)) in E by lia. by replace (8 * (i / 8) + i mod 8) with i in E by lia.
  - by rewrite !Z.mod_pow2_bits_high by lia.
Qed.
Lemma same_value s s' ρ v r n : wf s → wf s' → byte_model s ρ → byte_model s' ρ → 0 <= n →
  (∀ k, 0 <= k < n → is_Some (ob s ρ v k)) → (∀ k, 0 <= k < n → refines (ob s ρ v k) (ob s' ρ r k)) →
  den s' ρ r mod 2 ^ (8 * n) = den s ρ v mod 2 ^ (8 * n).
Proof.
  intros Hw Hw' Hm Hm' Hn Hd Hr. apply bytes_residue; [done|]. intros k Hk. destruct (Hd k Hk) as [b Hb].
  rewrite <- (ob_den _ _ _ _ _ Hw Hm (proj1 Hk) Hb). symmetry. apply (ob_den s'); try done; [lia|].
  destruct (Hr k Hk) as [E|E]; congruence.
Qed.
End values.

Section theorems.
Context `{SizeLaws} `{CmpInst} (cond_ops : Ops).

(** [C22] Part of a value: on a store and tables that keep the invariant, [bytes] returns, in a depth of calls bounded by
    the square of the value's index, an expression of [len] bytes that holds the bytes [lo .. lo+len) of the
    value, in every valuation; a byte of an undefined value may become any. The invariant is kept, the store
    only grows, and the tables of the path conditions are left alone. *)
Theorem bytes_sound n e lo len st (Hi : vinv st) (Hn : (fuel_bytes e ≤ n)%nat)
    (Hm : mem_at (var st) e) (Hlo : 0 <= lo) (Hlen : 0 < len) (Hle : lo + len <= size_at (var st) e) :
  ∃ r st', bytes cond_ops n e lo len st = Some (r, st') ∧ vinv st' ∧ ext (var st) (var st') ∧ me (cs st') = me (cs st) ∧
    size_at (var st') r = len ∧
    ∀ ρ k, 0 <= k < len → refines (ob (var st) ρ e (lo + k)) (ob (var st') ρ r k).
Proof.
  destruct (bops_ok cond_ops n) as (Hb & _). destruct (Hb e Hn lo len st Hi) as (r & st' & E & Hi' & Hx & Hme & _ & Hs & Ho & _).
  { by split_and!. }
  exists r, st'. split_and!; try done. intros ρ k Hk.
  rewrite <- (ob_ext (var st) (var st')) by (apply Hi || apply Hi' || done || by apply mem_valid). by apply Ho.
Qed.
(** Joining bytes: from expressions of one byte each, [fromBytes] returns an expression of the type asked for that
    holds them in order, whether it merges runs of one source, constants, undefined bytes or selections
    under one condition into a value, or concatenates. *)
Theorem fromBytes_sound n N bs t st (Hi : vinv st) (Hn : (fuel_fromBytes N N ≤ n)%nat)
    (Hbs : Forall (λ b, mem_at (var st) b ∧ size_at (var st) b = 1 ∧ (b ≤ N)%nat) bs) (Hne : bs ≠ [])
    (Ht : mem_ty t = true) (Hs : sizeOf t = Z.of_nat (length bs)) :
  ∃ r st', fromBytes cond_ops n bs t st = Some (r, st') ∧ vinv st' ∧ ext (var st) (var st') ∧ me (cs st') = me (cs st) ∧
    type_at (var st') r = Some t ∧
    ∀ ρ i b, bs !! i = Some b → refines (ob (var st) ρ b 0) (ob (var st') ρ r (Z.of_nat i)).
Proof.
  destruct (bops_ok cond_ops n) as (_ & _ & _ & Hf). destruct (Hf N N Hn bs t st Hi) as (r & st' & E & Hi' & Hx & Hme & Hty & Ho); try done.
  { eapply Forall_impl; [exact Hbs|]. intros b (Hm & Hb & Hle). split_and!; try done.
    apply brank_old; [apply Hi|by apply mem_valid|done|done]. }
  by exists r, st'.
Qed.
(** [C20] Memory round trip: the bytes [toBytes] takes of a value are as many as its type is large, and [fromBytes] makes
    of them, at any type of that size, an expression with the same bytes; so, where no byte is undefined,
    with the same value modulo the size. Nothing is stuck, and the depth of calls is bounded by the index. *)
Theorem memory_round_trip n v t st (Hi : vinv st) (Hn : (fuel_toBytes v + fuel_fromBytes v v ≤ n)%nat)
    (Hm : mem_at (var st) v) (Ht : mem_ty t = true) (Hs : sizeOf t = size_at (var st) v) (Hpos : 0 < sizeOf t) :
  ∃ bs r st', (val! bs := toBytes cond_ops n v in val! r := fromBytes cond_ops n bs t in vret (bs, r)) st = Some ((bs, r), st') ∧
    vinv st' ∧ Z.of_nat (length bs) = sizeOf t ∧ type_at (var st') r = Some t ∧
    (∀ ρ k, 0 <= k < sizeOf t → refines (ob (var st) ρ v k) (ob (var st') ρ r k)) ∧
    ∀ ρ, byte_model (var st) ρ → byte_model (var st') ρ → (∀ k, 0 <= k < sizeOf t → is_Some (ob (var st) ρ v k)) →
      den (var st') ρ r mod 2 ^ (8 * sizeOf t) = den (var st) ρ v mod 2 ^ (8 * sizeOf t).
Proof.
  destruct (bops_ok cond_ops n) as (_ & _ & Htb & Hfb). unfold fuel_fromBytes in *.
  destruct (Htb v ltac:(lia) st Hi Hm) as (bs & st1 & E1 & Hi1 & Hx1 & _ & Hm1 & Hl1 & Hb1 & Ho1).
  rewrite (size_at_ext (var st)) in Hl1 by (done || by apply mem_valid).
  assert (newest (var st1) v ≤ v)%nat as Hnv by (unfold newest; destruct (is_concat _ _); lia).
  destruct (Hfb v v ltac:(lia) bs t st1 Hi1) as (r & st2 & E2 & Hi2 & Hx2 & _ & Hty & Ho2); try done.
  { eapply Forall_impl; [exact Hb1|]. intros b (? & ? & Hr). split_and!; try done. by eapply brank_mono. }
  { intros ->. cbn in Hl1. lia. }
  { congruence. }
  exists bs, r, st2. unfold vbind, toBytes, fromBytes. rewrite E1, E2. split; [done|]. split; [done|]. split; [congruence|]. split; [done|].
  assert (∀ ρ k, 0 <= k < sizeOf t → refines (ob (var st) ρ v k) (ob (var st2) ρ r k)) as Hob.
  2: { split; [done|]. intros ρ Hbm Hbm2 Hd. apply same_value; auto; [apply Hi|apply Hi2|lia]. }
  intros ρ k Hk. assert (is_Some (bs !! Z.to_nat k)) as [b Hb] by (apply lookup_lt_is_Some; lia).
  specialize (Ho1 _ _ Hb ρ). specialize (Ho2 ρ _ _ Hb). rewrite !Z2Nat.id in * by lia.
  rewrite <- (ob_ext (var st) (var st1)) by (apply Hi || apply Hi1 || done || by apply mem_valid). by etrans.
Qed.
End theorems.
Section selections.
Context `{SizeLaws} `{CmpInst} (calleeName : nat → string) (semantic : bool).
Local Abbreviation ops := (ops calleeName semantic).
(** a comparison is a literal, whose negation [notb] can build *)
Lemma flipped_base s c : wf s → typed s → cond s c → flipped s c = true → base s c.
Proof.
  intros Hw Ht Hc Hf. unfold flipped, node_at in Hf. destruct (nodes s !! c) as [[t nd]|] eqn:E; [|done]. cbn in Hf.
  destruct nd as [| | | |p l| | | | | |]; try done.
  split; [done|unfold bool_op, isGuardSym, negated; rewrite E; try done..].
  intros t' p' args [= <- <- <-]. apply (ty_cmp _ Ht c t); [done|]. destruct (wf_nodes _ Hw _ _ E) as [Hch _]. cbn in Hch.
  apply lookup_lt_Some in E. eapply Forall_impl; [exact Hch|]. unfold valid. cbn. lia.
Qed.
(** [C23] A selection of values of memory types has the bytes of the arm its condition chooses: [ite] returns an expression
    as large as the arms, whose bytes are those of the arm a constant condition names; of the first or the second
    arm as the condition holds or not - dropping an undefined arm, an arm's own selection under the condition, or
    hoisting a cast of both arms; of the arms exchanged for the operand of a negation; and of the arms exchanged
    for what [notb] makes of a comparison that is not canonical.  There [notb] returns; as long as that is a constant or
    a canonical condition, in a store that is still well typed, the bytes are right in every model of the store. *)
Theorem ite_sound n c a b st (Hi : inv calleeName st) (Hty : typed (ar st)) (Hok : vok (ar st)) (Hc : cond (ar st) c)
    (Ha : mem_at (ar st) a) (Hb : mem_at (ar st) b) (Hs : size_at (ar st) a = size_at (ar st) b)
    (Hn : (1 ≤ n)%nat) (Htb : tables_ok (ar st) (me st))
    (Hflip : ∀ nc st1, flipped (ar st) c = true → notb (ops n) c st = Some (nc, st1) →
       typed (ar st1) ∧ vok (ar st1) ∧ settled (ar st1) nc)
    (Hneg : ∀ c', flipped (ar st) c = false → negated (ar st) c = Some c' → settled (ar st) c') :
  ∃ r st', ite (ops n) c a b st = Some (r, st') ∧ wf (ar st') ∧ vok (ar st') ∧ ext (ar st) (ar st') ∧
    size_at (ar st') r = size_at (ar st) a ∧
    ∀ ρ, flipped (ar st) c = false ∨ model calleeName (ar st') ρ → ∀ k, 0 <= k < size_at (ar st) a →
      refines (ob (ar st) ρ (if T (ar st) ρ c then a else b) k) (ob (ar st') ρ r k).
Proof.
  pose proof (in_wf _ _ Hi) as Hwf. unfold ite, ite_fuel. replace (a + b + 4)%nat with (S (a + b + 3)) by lia.
  destruct (decide (settled (ar st) c)) as [Hset|Hset].
  { destruct (ite_settled (ops n) (S (a + b + 3)) c a b st) as (r & s' & E & Hw & Hx & Hv & _ & Hsr & Ho & _); try done; [lia|].
    exists r, (mkC s' (me st)). split_and!; try done. intros ρ _. apply Ho. }
  assert (isTrue (ar st) c = false ∧ isFalse (ar st) c = false) as [Et Ef].
  { unfold settled in Hset. destruct (isTrue _ c), (isFalse _ c); naive_solver. }
  cbn [ite_f]. unfold ite_body at 1. unfold cbind at 1, look at 1. cbv beta iota. rewrite Et. unfold cbind at 1, look at 1. cbv beta iota. rewrite Ef.
  destruct (Nat.eqb_spec a b) as [<-|_].
  { exists a, st. split_and!; try done. intros ρ _ k _. destruct (T _ _ _); by right. }
  unfold cbind at 1, look at 1. cbv beta iota. destruct (flipped (ar st) c) eqn:Ec.
  - destruct (ops_not calleeName semantic n Hn c st (flipped_base _ _ Hwf Hty Hc Ec)) as (nc & st1 & En & _); [by split|].
    destruct (Hflip nc st1 eq_refl En) as (Ht1 & Hv1 & Hset1). unfold cbind. rewrite En.
    destruct (ok_notb _ _ (ops_sound calleeName semantic n) _ _ _ (means_T calleeName _ _ Hc) Hi _ _ En Ht1) as (Hi1 & Hcn & HTn).
    assert (step (ar st) (ar st1)) as Hst by (by eapply (os_not _ (ops_steps calleeName semantic n))). pose proof (st_ext _ _ Hst) as Hx1.
    assert (size_at (ar st1) a = size_at (ar st) a) as Ea by (by apply size_at_ext; [|apply mem_valid]).
    assert (size_at (ar st1) b = size_at (ar st) b) as Eb by (by apply size_at_ext; [|apply mem_valid]).
    destruct (ite_settled (ops n) (a + b + 3) nc b a st1) as (r & s' & E & Hw & Hx & Hv & Hsel); eauto using mem_at_ext; [lia|by destruct Hi1|congruence|].
    exists r, (mkC s' (me st1)). pose proof Hsel as (_ & Hsr & _). split_and!; try done; [by etrans|cbn; congruence|].
    intros ρ [?|Hm] k Hk; [done|]. cbn [ar] in Hm |- *. pose proof (selects_turned (ar st1) c nc a b r s' ρ k) as Hsel'. unfold chosen in Hsel'.
    assert (model calleeName (ar st1) ρ) as Hm1 by (apply (model_ext calleeName _ s'); [by destruct Hi1|done|by destruct Hi1|done|done]).
    assert (T (ar st1) ρ c = T (ar st) ρ c) as ETc by (apply T_step; [done|by destruct Hi1|done|by apply cond_valid]).
    rewrite ETc in Hsel'.
    assert (∀ e, mem_at (ar st) e → ob (ar st1) ρ e k = ob (ar st) ρ e k) as Hoe by (intros e He; apply ob_ext; [done|by destruct Hi1|done|by apply mem_valid]).
    replace (ob (ar st) ρ (if T (ar st) ρ c then a else b) k) with (ob (ar st1) ρ (if T (ar st) ρ c then a else b) k) by (destruct (T _ _ _); by apply Hoe).
    apply Hsel'; [congruence|done| |lia]. rewrite (HTn ρ Hm1), negb_involutive. done.
  - unfold cbind at 1, look at 1. cbv beta iota. destruct (negated (ar st) c) as [c'|] eqn:En.
    + destruct (negated_T _ Hwf Hty (mkEnv (λ _, 0) (λ _ _ _, 0)) _ _ Hc En) as [Hc' _].
      destruct (ite_settled (ops n) (a + b + 3) c' b a st) as (r & s' & E & Hw & Hx & Hv & Hsel); eauto; [lia|].
      exists r, (mkC s' (me st)). pose proof Hsel as (_ & Hsr & _). split_and!; try done; [cbn; congruence|].
      intros ρ _ k Hk. apply (selects_turned (ar st) c c' a b r s' ρ k); try done. by apply negated_T.
    + destruct Hset. right. right. unfold plain. split_and!; try done. by apply cond_valid.
Qed.
End selections.


(** ** Checking a concrete store *)
Section checks.
Context `{DataModel}.
Definition mem_atb (s : Arena) (e : EP) : bool := match type_at s e with Some t => mem_ty t | None => false end.
Definition plainb (s : Arena) (c : EP) : bool :=
  Nat.ltb c (length (nodes s)) && negb (isTrue s c) && negb (isFalse s c) && negb (flipped s c) && bool_decide (negated s c = None).
Definition vnodeb (s : Arena) (e : EP) (x : Expr) : bool :=
  match node x with
  | NBytes y lo len => bool_decide (ty x = bytesTy len) && (0 <=? lo) && (0 <? len) && (lo + len <=? size_at s y) && mem_atb s y
  | NConcat ps => forallb (mem_atb s) ps && (sizes s ps =? sizeOf (ty x))
  | NIte [c; a; b] => plainb s c && (size_at s a =? sizeOf (ty x)) && (size_at s b =? sizeOf (ty x)) && mem_atb s a && mem_atb s b
  | NIte _ => false
  | NConst bw c => (sizeOf (ty x) <=? 8) && (isIntegerTy (ty x) || (bw =? 8 * sizeOf (ty x)))
  | NPoly ts => match constInt_node x with Some _ => sizeOf (ty x) <=? 8 | None => true end
  | _ => true
  end &&
  match same_size_cast s e with Some y => mem_atb s y | None => true end &&
  match same_size_atom s e with Some a => (sizeOf (ty x) =? 1) || mem_atb s a | None => true end.
Definition vokb (s : Arena) : bool := forallb (λ ex : nat * Expr, negb (mem_ty (ty ex.2)) || vnodeb s ex.1 ex.2) (imap pair (nodes s)).
Lemma mem_atb_ok s e : mem_atb s e = true → mem_at s e.
Proof. unfold mem_atb, mem_at. destruct (type_at s e); [eauto|done]. Qed.
Lemma plainb_ok s c : plainb s c = true → plain s c.
Proof.
  unfold plainb, plain. rewrite !andb_true_iff, !negb_true_iff, Nat.ltb_lt, bool_decide_eq_true. unfold valid. tauto.
Qed.
Lemma vnodeb_ok s e x : vnodeb s e x = true → vnode s e x.
Proof.
  unfold vnodeb. rewrite !andb_true_iff. intros [[Hn Hc] Ha]. split; [|split].
  - destruct (node x) eqn:En; try done.
    + apply andb_true_iff in Hn as [?%Z.leb_le Hn]. split; [done|]. intros Hi. rewrite Hi in Hn. by apply Z.eqb_eq.
    + intros [z Hz]. rewrite Hz in Hn. by apply Z.leb_le.
    + destruct args as [|c [|a [|b [|]]]]; try done. rewrite !andb_true_iff, !Z.eqb_eq in Hn.
      exists c, a, b. split_and!; try done; [apply plainb_ok|..|apply mem_atb_ok|apply mem_atb_ok]; tauto.
    + apply andb_true_iff in Hn as [Hp ?%Z.eqb_eq]. split; [|done]. eapply forallb_Forall'; [|exact Hp]. apply mem_atb_ok.
    + rewrite !andb_true_iff, bool_decide_eq_true, !Z.leb_le, Z.ltb_lt in Hn. split_and!; try apply mem_atb_ok; tauto.
  - intros y E. rewrite E in Hc. by apply mem_atb_ok.
  - intros a E. rewrite E in Ha. apply orb_true_iff in Ha as [?%Z.eqb_eq|?]; [by left|right; by apply mem_atb_ok].
Qed.
Lemma vok_check s : vokb s = true → vok s.
Proof.
  unfold vokb. rewrite forallb_forall. intros Hall e x Hx Hm. apply vnodeb_ok.
  specialize (Hall (e, x)). cbn in Hall. rewrite Hm in Hall. apply Hall, list_elem_of_In.
  exact (elem_of_lookup_imap_2 pair _ _ _ Hx).
Qed.
(** a store without any table *)
Lemma vinv_check s : wf s → vokb s = true → vinv (mkV (mkC s memo0) ∅ ∅).
Proof. intros Hw Hv. split; [done|by apply vok_check|apply map_Forall_empty..]. Qed.
End checks.

(** ** On concrete stores *)
#[local] Existing Instance demo_model.
#[local] Instance demo_sizes : SizeLaws.
Proof.
  split; [|intros [w| | |]; cbn; lia|done]. intros w Hw. cbn. assert (0 <= (w + 7) / 8) by (apply Z.div_pos; lia). lia.
Qed.
(** integers [x] and [y] (1 and 3), a condition [g] (4), and [g ? x : y] (5) *)
Definition select_args : M EP :=
  do _ <- demo_args; do g <- mkSymRaw (mkSymbol Arg 9 "" 0 0 i1); intern (mkExpr i32 (NIte [g; 1%nat; 3%nat])).
Definition select_store : Arena := state_of select_args arena0.
Definition select_state : VSt := mkV (mkC select_store memo0) ∅ ∅.
Lemma select_inv : vinv select_state.
Proof. apply vinv_check; [check_wf|vm_compute; reflexivity]. Qed.
Lemma bytes_sound_witness :
  ∃ r st', bytes ops0 49 5 1 2 select_state = Some (r, st') ∧ size_at (var st') r = 2.
Proof.
  destruct (bytes_sound ops0 49 5 1 2 select_state) as (r & st' & E & _ & _ & _ & Hs & _).
  - exact select_inv.
  - vm_compute. lia.
  - exists i32. split; reflexivity.
  - lia.
  - lia.
  - vm_compute. discriminate.
  - exists r, st'. split; [exact E|exact Hs].
Defined.
Lemma memory_round_trip_witness :
  ∃ bs r st', (val! bs := toBytes ops0 110 5%nat in val! r := fromBytes ops0 110 bs i32 in vret (bs, r)) select_state = Some ((bs, r), st') ∧
    ∀ ρ k, 0 <= k < 4 → refines (ob select_store ρ 5 k) (ob (var st') ρ r k).
Proof.
  destruct (memory_round_trip ops0 110 5 i32 select_state) as (bs & r & st' & E & _ & _ & _ & Ho & _).
  - exact select_inv.
  - vm_compute. lia.
  - exists i32. split; reflexivity.
  - reflexivity.
  - reflexivity.
  - reflexivity.
  - exists bs, r, st'. split; [exact E|exact Ho].
Defined.
(** the bytes 0x34 and 0x12 make 0x1234 *)
Definition byte_store : Arena := state_of (do _ <- mkInt (TInt 8) 52; mkInt (TInt 8) 18) arena0.
Lemma fromBytes_sound_witness :
  ∃ r st', fromBytes ops0 11 [0%nat; 1%nat] (TInt 16) (mkV (mkC byte_store memo0) ∅ ∅) = Some (r, st') ∧
    constInt (var st') r = Some 4660 ∧
    ∀ ρ, refines (ob byte_store ρ 1 0) (ob (var st') ρ r 1).
Proof.
  destruct (fromBytes_sound ops0 11 1 [0%nat; 1%nat] (TInt 16) (mkV (mkC byte_store memo0) ∅ ∅)) as (r & st' & E & _ & _ & _ & _ & Ho).
  - apply vinv_check; [check_wf|vm_compute; reflexivity].
  - vm_compute. lia.
  - repeat constructor; exists (TInt 8); split; reflexivity.
  - discriminate.
  - reflexivity.
  - reflexivity.
  - exists r, st'. split; [exact E|]. split; [|intros ρ; exact (Ho ρ 1%nat 1%nat eq_refl)].
    revert E. vm_compute. intros [= <- <-]. reflexivity.
Defined.
(** [x <> y ? x : y] on the integers [x] and [y]: the comparison is turned round *)
Definition ne_store : Arena := state_of (do _ <- demo_args; cmp cmp_fuel ICMP_NE 1 3) arena0.
Abbreviation ne_ops := (ops no_name true 2).
Definition ne_turned : CSt := match notb ne_ops 4 (mkC ne_store memo0) with Some (_, st) => st | None => mkC ne_store memo0 end.
Lemma ite_sound_witness :
  flipped ne_store 4 = true ∧
  ∃ r st', ite ne_ops 4 1 3 (mkC ne_store memo0) = Some (r, st') ∧ nodes (ar st') !! r = Some (mkExpr i32 (NIte [5%nat; 3%nat; 1%nat])) ∧
    ∀ ρ, model no_name (ar st') ρ → refines (ob ne_store ρ (if T ne_store ρ 4 then 1%nat else 3%nat) 0) (ob (ar st') ρ r 0).
Proof.
  split; [vm_compute; reflexivity|].
  destruct (ite_sound no_name true 2 4 1 3 (mkC ne_store memo0)) as (r & st' & E & _ & _ & _ & _ & Ho).
  - apply inv_check; [check_wf|vm_compute; reflexivity].
  - apply typed_check. vm_compute. reflexivity.
  - apply vok_check. vm_compute. reflexivity.
  - reflexivity.
  - exists i32. split; reflexivity.
  - exists i32. split; reflexivity.
  - reflexivity.
  - lia.
  - split; apply map_Forall_empty.
  - intros nc st1 _ E. assert (Some (nc, st1) = Some (5%nat, ne_turned)) as [= -> ->] by (rewrite <- E; vm_compute; reflexivity).
    split; [apply typed_check; vm_compute; reflexivity|].
    split; [apply vok_check; vm_compute; reflexivity|]. right. right. apply plainb_ok. vm_compute. reflexivity.
  - intros c' Hc. vm_compute in Hc. discriminate.
  - exists r, st'. split; [exact E|]. split; [revert E; vm_compute; intros [= <- <-]; reflexivity|].
    intros ρ Hm. apply Ho; [by right|]. vm_compute. split; [discriminate|reflexivity].
Defined.

(** Constants wider than 64 bits lose their sign: bytes 4 to 11 of a 128-bit -1 are taken to be the number
    2^32 - 1, whose byte 4 is 0 where the value's byte 8 is 255; from byte 8 on the shift exceeds the word and
    its result is undefined. *)
Definition wide_state : VSt := mkV (mkC (state_of (mkInt (TInt 128) (-1)) arena0) memo0) ∅ ∅.
Theorem wide_constant_bytes :
  (∀ ρ, ob (var wide_state) ρ 0 8 = Some 255) ∧ bytes ops0 9 0 8 4 wide_state = None ∧
  ∃ r st', bytes ops0 9 0 4 8 wide_state = Some (r, st') ∧ ∀ ρ, ob (var st') ρ r 4 = Some 0.
Proof.
  assert (wf (var wide_state)) as Hw by check_wf. split; [|split].
  - intros ρ. erewrite (const_bytes (var wide_state) 0 _ (-1)); [vm_compute; reflexivity|exact Hw|vm_compute; reflexivity|vm_compute; reflexivity].
  - vm_compute. reflexivity.
  - eexists _, _. split; [vm_compute; reflexivity|]. intros ρ.
    erewrite (const_bytes _ 1 _ (2 ^ 32 - 1)); [vm_compute; reflexivity|check_wf|vm_compute; reflexivity|vm_compute; reflexivity].
Qed.
