(* ===== verification/TensorPoly.v ===== *)
(** Polynomials of the tensor recovery (cpp/mvcc-llvm/tensor_recovery.cpp: struct [Poly], its operators,
    [samePoly], [divExact], [foldInt]): a sorted map from monomials to 64-bit coefficients, and a flag that falls
    once a coefficient overflowed or the polynomial grew too large.

    While the flag is up the operations are the exact ones on integer polynomials, and two polynomials have the
    same map exactly when they have the same coefficients. *)
From stdpp Require Import sorting.
From S2P Require Import Prelude Expr Arena LlvmInt ArenaSem.
Open Scope Z_scope.

(** ** 64-bit arithmetic *)
(** [__builtin_add_overflow], [__builtin_mul_overflow]: the wrapped result, and whether it differs *)
Definition in64 (x : Z) : bool := (- 2 ^ 63 <=? x) && (x <? 2 ^ 63).
Definition wrap64 (x : Z) : Z := sext 64 x.

(** ** The polynomials *)
Abbreviation Mono := Monomial.
(** [std::map<std::vector<unsigned>, int64_t>] in key order *)
Abbreviation Terms := (list Term).
Record Poly := mkPoly { t : Terms; ok : bool }.
#[export] Instance Poly_eq_dec : EqDecision Poly.
Proof. solve_decision. Defined.

Definition constant (c : Z) : Poly := mkPoly (if c =? 0 then [] else [([], c)]) true.
Definition atom (a : nat) : Poly := mkPoly [([a], 1)] true.
Definition isConst (p : Poly) : option Z :=
  if ok p then
    match t p with
    | [] => Some 0
    | [([], c)] => Some c
    | _ => None
    end
  else None.
Definition mentions (pred : nat → bool) (p : Poly) : bool := existsb (λ kv, existsb pred kv.1) (t p).

Fixpoint find_term (m : Mono) (ts : Terms) : option Z :=
  match ts with
  | [] => None
  | (m', c) :: ts => if bool_decide (m = m') then Some c else find_term m ts
  end.
Fixpoint emplace (m : Mono) (c : Z) (ts : Terms) : Terms :=
  match ts with
  | [] => [(m, c)]
  | (m', c') :: rest => if mlt m m' then (m, c) :: ts else (m', c') :: emplace m c rest
  end.
(** the coefficient of [m] set to [c], or the term erased when [c] is 0 *)
Fixpoint update (m : Mono) (c : Z) (ts : Terms) : Terms :=
  match ts with
  | [] => []
  | (m', c') :: rest =>
      if bool_decide (m = m') then if c =? 0 then rest else (m, c) :: rest
      else (m', c') :: update m c rest
  end.
Definition add (p : Poly) (m : Mono) (c : Z) : Poly :=
  if c =? 0 then p else
  match find_term m (t p) with
  | None => let ts := emplace m c (t p) in mkPoly ts (ok p && (length ts <=? 64)%nat)
  | Some c' => mkPoly (update m (wrap64 (c' + c)) (t p)) (ok p && in64 (c' + c))
  end.
Definition poly_add (a b : Poly) : Poly :=
  fold_left (λ r kv, add r kv.1 kv.2) (t b) (mkPoly (t a) (ok a && ok b)).
Definition scaled (a : Poly) (c : Z) : Poly :=
  fold_left (λ r kv, add (mkPoly (t r) (ok r && in64 (kv.2 * c))) kv.1 (wrap64 (kv.2 * c))) (t a) (mkPoly [] (ok a)).
Definition poly_sub (a b : Poly) : Poly := poly_add a (scaled b (-1)).
(** one product of terms *)
Definition mul_step (x : Mono * Z) (r : Poly) (y : Mono * Z) : Poly :=
  let m := x.1 ++ y.1 in
  if (6 <? length m)%nat then mkPoly (t r) false
  else add (mkPoly (t r) (ok r && in64 (x.2 * y.2))) (sort_mono m) (wrap64 (x.2 * y.2)).
Definition poly_mul (a b : Poly) : Poly :=
  fold_left (λ r x, fold_left (mul_step x) (t b) r) (t a) (mkPoly [] (ok a && ok b)).
Definition samePoly (a b : Poly) : bool := ok a && ok b && bool_decide (t a = t b).
(** [None]: the quotient overflows, which is undefined *)
Fixpoint div_terms (d : Z) (ts : Terms) : option (option Terms) :=
  match ts with
  | [] => Some (Some [])
  | (m, c) :: ts =>
      if (c =? - 2 ^ 63) && (d =? -1) then None
      else if Z.rem c d =? 0 then
        match div_terms d ts with
        | Some (Some out) => Some (Some ((m, Z.quot c d) :: out))
        | r => r
        end
      else Some None
  end.
Definition divExact (a : Poly) (d : Z) : option (option Poly) :=
  if negb (ok a) || (d =? 0) then Some None
  else match div_terms d (t a) with
       | Some (Some ts) => Some (Some (mkPoly ts true))
       | Some None => Some None
       | None => None
       end.

Declare Scope tpoly_scope.
Delimit Scope tpoly_scope with tp.
Infix "+" := poly_add : tpoly_scope.
Infix "-" := poly_sub : tpoly_scope.
Infix "*" := poly_mul : tpoly_scope.

(** ** Constants folded at their width *)
Definition foldInt (op : Opcode) (w x y : Z) : option Z :=
  if (w <=? 0) || (64 <? w) then None else
  let a := x mod 2 ^ w in
  let b := y mod 2 ^ w in
  let sa := sext w x in
  let sb := sext w y in
  option_map (sext w)
  match op with
  | Add => Some (a + b)
  | Sub => Some (a - b)
  | Mul => Some (a * b)
  | And => Some (Z.land a b)
  | Or => Some (Z.lor a b)
  | Xor => Some (Z.lxor a b)
  | Shl => if w <=? b then None else Some (Z.shiftl a b)
  | LShr => if w <=? b then None else Some (Z.shiftr a b)
  | AShr => if w <=? b then None else Some (Z.shiftr sa b)
  | UDiv => if b =? 0 then None else Some (a / b)
  | SDiv => if b =? 0 then None else Some (Z.quot sa sb)
  | URem => if b =? 0 then None else Some (a mod b)
  | SRem => if b =? 0 then None else Some (Z.rem sa sb)
  | _ => None
  end.

(** ** Well-formed polynomials *)
Definition pwf (p : Poly) : Prop := normal (t p) ∧ Forall (λ kv : Mono * Z, - 2 ^ 63 <= kv.2 < 2 ^ 63) (t p).
Section keys.
Implicit Types (m : Mono) (ts : Terms).
Lemma find_term_Some m c ts : find_term m ts = Some c → (m, c) ∈ ts.
Proof.
  induction ts as [|[m' c'] ts IH]; cbn; [done|]. case_bool_decide; [intros [= ->]; subst; left|]. intros. right. auto.
Qed.
Lemma find_term_None m ts : find_term m ts = None → m ∉ ts.*1.
Proof.
  induction ts as [|[m' c'] ts IH]; cbn; [by intros _ ?%elem_of_nil|]. case_bool_decide; [done|]. intros E [?|?]%elem_of_cons; [done|by apply IH].
Qed.
Lemma emplace_perm m c ts : emplace m c ts ≡ₚ (m, c) :: ts.
Proof.
  induction ts as [|[m' c'] ts IH]; cbn; [done|]. destruct (mlt m m'); [done|]. rewrite IH. apply Permutation_swap.
Qed.
Lemma emplace_normal m c ts : normal ts → m ∉ ts.*1 → c ≠ 0 → normal (emplace m c ts).
Proof.
  intros [Hs Hz] Hm Hc. split; [|rewrite emplace_perm; by constructor]. clear Hz.
  induction ts as [|[m' c'] ts IH]; cbn; [repeat constructor|]. rewrite fmap_cons, not_elem_of_cons in Hm. destruct Hm as [Hne Hm].
  apply StronglySorted_inv in Hs as [Hs Hall]. destruct (mlt m m') eqn:E.
  - constructor; [by constructor|]. constructor; [done|]. eapply Forall_impl; [exact Hall|]. intros [m'' c''] H. unfold term_lt in *. cbn in *. by eapply mlt_trans.
  - constructor; [auto|]. rewrite emplace_perm. constructor; [|done]. unfold term_lt. cbn. destruct (mlt m' m) eqn:E'; [done|].
    exfalso. destruct (mlt_total m m') as [?|[?|?]]; cbn in *; congruence.
Qed.
Lemma update_key m c ts k : k ∈ (update m c ts).*1 → k ∈ ts.*1.
Proof.
  induction ts as [|[m' c'] ts IH]; cbn; [done|]. case_bool_decide; [destruct (c =? 0); cbn; set_solver|]. cbn. set_solver.
Qed.
Lemma update_normal m c ts : normal ts → normal (update m c ts).
Proof.
  induction ts as [|[m' c'] ts IH]; intros Hn; [done|]. cbn. pose proof (normal_tail _ _ Hn) as Ht. destruct Hn as [Hs Hz].
  apply StronglySorted_inv in Hs as [Hs Hall]. apply Forall_cons in Hz as [Hz Hzs]. case_bool_decide as E.
  - subst. destruct (Z.eqb_spec c 0); [done|]. split; [by constructor|by constructor].
  - destruct (IH Ht) as [Hs' Hz']. split; [constructor; [done|]|by constructor].
    rewrite Forall_forall in Hall |- *. intros [k d] Hk. unfold term_lt. cbn.
    assert (k ∈ ts.*1) as [[k' d'] [-> Hk']]%list_elem_of_fmap by (eapply update_key; apply list_elem_of_fmap; by exists (k, d)).
    apply (Hall _ Hk').
Qed.
Lemma update_peval v m c c' ts : find_term m ts = Some c' → peval v (update m c ts) = peval v ts + (c - c') * mono v m.
Proof.
  induction ts as [|[k d] ts IH]; cbn; [done|]. case_bool_decide as E; [intros [= ->]; subst|intros H; cbn; rewrite (IH H); lia].
  destruct (Z.eqb_spec c 0) as [->|]; cbn; lia.
Qed.
Lemma update_Forall (P : Mono * Z → Prop) m c ts : P (m, c) → Forall P ts → Forall P (update m c ts).
Proof.
  intros Hc. induction 1 as [|[k d] ts Hk Hts IH]; cbn; [constructor|]. case_bool_decide; [destruct (c =? 0); [done|by constructor]|by constructor].
Qed.
End keys.

Lemma in64_spec x : in64 x = true ↔ - 2 ^ 63 <= x < 2 ^ 63.
Proof. unfold in64. rewrite andb_true_iff, Z.leb_le, Z.ltb_lt. done. Qed.
Lemma wrap64_range x : - 2 ^ 63 <= wrap64 x < 2 ^ 63.
Proof. apply (sext_range 64). lia. Qed.
Lemma wrap64_id x : - 2 ^ 63 <= x < 2 ^ 63 → wrap64 x = x.
Proof. apply (sext_id 64). lia. Qed.

(** ** Operations *)
(** [r] is well formed, and exact while its flag is up *)
Definition exact (r : Poly) (oks : bool) (f : (nat → Z) → Z) : Prop :=
  pwf r ∧ (ok r = true → oks = true ∧ ∀ v, peval v (t r) = f v).
Lemma exact_wf r oks f : exact r oks f → pwf r.
Proof. by intros [? _]. Qed.
Lemma exact_mono r o o' f g : exact r o f → (o = true → o' = true) → (∀ v, f v = g v) → exact r o' g.
Proof. intros [Hw He] Ho Hf. split; [done|]. intros [? H]%He. split; [auto|]. intros v. by rewrite H. Qed.
Lemma add_exact p m c : pwf p → - 2 ^ 63 <= c < 2 ^ 63 → exact (add p m c) (ok p) (λ v, peval v (t p) + c * mono v m).
Proof.
  intros [Hn Hr] Hc. unfold add. destruct (Z.eqb_spec c 0) as [->|Hz].
  { split; [done|]. intros ->. split; [done|]. intros v. lia. }
  destruct (find_term m (t p)) as [c'|] eqn:E.
  - split; cbn [t ok].
    + split; [by apply update_normal|]. apply update_Forall; [apply wrap64_range|done].
    + rewrite andb_true_iff, in64_spec. intros [? Hi]. split; [done|]. intros v. rewrite (update_peval _ _ _ c') by done. rewrite wrap64_id by done. lia.
  - split; cbn [t ok].
    + split; cbn [t]; [apply emplace_normal; [done|by apply find_term_None|done]|]. rewrite emplace_perm. by constructor.
    + rewrite andb_true_iff. intros [? _]. split; [done|]. intros v. rewrite emplace_perm. cbn. lia.
Qed.
(** flags lowered before a step *)
Lemma exact_flag p q b (m : Mono) z :
  pwf p → t q = t p → ok q = ok p && in64 z → b = in64 z →
  exact (add q m (wrap64 z)) (ok p) (λ v, peval v (t p) + z * mono v m).
Proof.
  intros Hp Ht Ho ->. assert (pwf q) as Hq by (destruct Hp; split; by rewrite Ht). destruct (add_exact q m (wrap64 z) Hq (wrap64_range z)) as [Hw He].
  split; [done|]. intros [Hok Hv]%He. rewrite Ho, andb_true_iff, in64_spec in Hok. destruct Hok as [? Hi]. split; [done|].
  intros v. rewrite Hv, Ht, wrap64_id by done. done.
Qed.
(** a loop over terms, each step of which adds [g] of its term *)
Lemma fold_exact (f : Poly → Mono * Z → Poly) (g : (nat → Z) → Mono * Z → Z) ts p :
  pwf p → (∀ p kv, kv ∈ ts → pwf p → exact (f p kv) (ok p) (λ v, peval v (t p) + g v kv)) →
  exact (fold_left f ts p) (ok p) (λ v, peval v (t p) + foldr (λ kv z, g v kv + z) 0 ts).
Proof.
  revert p. induction ts as [|kv ts IH]; intros p Hp Hf; cbn [fold_left foldr].
  { split; [done|]. intros ->. split; [done|]. intros v. lia. }
  destruct (Hf p kv ltac:(left) Hp) as [Hw He]. destruct (IH (f p kv) Hw) as [Hw' He'].
  { intros. apply Hf; [by right|done]. }
  split; [done|]. intros [Ho Hv]%He'. apply He in Ho as [Ho Hv']. split; [done|]. intros v. rewrite Hv. cbn beta. rewrite Hv'. cbn beta. lia.
Qed.
Lemma fold_terms v c ts : foldr (λ (kv : Mono * Z) z, kv.2 * c * mono v kv.1 + z) 0 ts = peval v ts * c.
Proof. induction ts as [|kv ts IH]; cbn [foldr peval]; [done|]. rewrite IH. ring. Qed.

Lemma poly_add_exact a b : pwf a → pwf b → exact (a + b)%tp (ok a && ok b) (λ v, peval v (t a) + peval v (t b)).
Proof.
  intros Ha [Hb Hr]. eapply exact_mono; [apply (fold_exact _ (λ v kv, kv.2 * 1 * mono v kv.1))| |].
  - exact Ha.
  - intros p kv Hkv Hp. rewrite Forall_forall in Hr. eapply exact_mono; [by apply add_exact; [|apply Hr]|done|]. intros v. cbn. lia.
  - done.
  - intros v. cbn beta. rewrite fold_terms. cbn. lia.
Qed.
Lemma scaled_exact a c : pwf a → exact (scaled a c) (ok a) (λ v, peval v (t a) * c).
Proof.
  intros Ha. eapply exact_mono; [apply (fold_exact _ (λ v kv, kv.2 * c * mono v kv.1))| |].
  - by repeat constructor.
  - intros p kv Hkv Hp. by eapply exact_flag.
  - done.
  - intros v. cbn beta. by rewrite fold_terms.
Qed.
Lemma poly_sub_exact a b : pwf a → pwf b → exact (a - b)%tp (ok a && ok b) (λ v, peval v (t a) - peval v (t b)).
Proof.
  intros Ha Hb. destruct (scaled_exact b (-1) Hb) as [Hw He]. destruct (poly_add_exact a _ Ha Hw) as [Hw' He']. split; [done|].
  intros [[??%He]%andb_true_iff Hv]%He'. destruct H0 as [? Hs]. split; [by apply andb_true_iff|]. intros v. rewrite Hv, Hs. lia.
Qed.
Lemma mul_step_exact x r y : pwf r → exact (mul_step x r y) (ok r) (λ v, peval v (t r) + x.2 * mono v x.1 * (y.2 * mono v y.1)).
Proof.
  intros Hr. unfold mul_step. destruct (6 <? length (x.1 ++ y.1))%nat; [by destruct Hr|].
  eapply exact_mono; [by eapply exact_flag|done|]. intros v. cbn beta. unfold sort_mono.
  rewrite (merge_sort_Permutation Nat.le (x.1 ++ y.1)), mono_app. lia.
Qed.
Lemma poly_mul_exact a b : pwf a → pwf b → exact (a * b)%tp (ok a && ok b) (λ v, peval v (t a) * peval v (t b)).
Proof.
  intros Ha Hb. eapply exact_mono; [apply (fold_exact _ (λ v x, x.2 * peval v (t b) * mono v x.1))| |].
  - by repeat constructor.
  - intros p x _ Hp. eapply exact_mono; [apply (fold_exact _ (λ v y, x.2 * mono v x.1 * (y.2 * mono v y.1))); [done|]|done|].
    + intros q y _ Hq. by apply mul_step_exact.
    + intros v. cbn beta. f_equal. induction (t b) as [|y ts IH]; cbn [foldr peval]; [lia|]. rewrite IH. lia.
  - done.
  - intros v. cbn beta. cbn [t peval]. induction (t a) as [|y ts IH]; cbn [foldr peval] in *; lia.
Qed.
Lemma constant_wf c : - 2 ^ 63 <= c < 2 ^ 63 → pwf (constant c).
Proof.
  intros Hc. unfold constant. destruct (Z.eqb_spec c 0); split; cbn; repeat constructor; try done; cbn; lia.
Qed.
Lemma constant_peval v c : peval v (t (constant c)) = c.
Proof. unfold constant. destruct (Z.eqb_spec c 0); cbn; lia. Qed.
Lemma atom_wf a : pwf (atom a).
Proof. split; cbn; repeat constructor; cbn; lia. Qed.
Lemma atom_peval v a : peval v (t (atom a)) = v a.
Proof. cbn. lia. Qed.
Lemma isConst_peval p c : isConst p = Some c → ok p = true ∧ ∀ v, peval v (t p) = c.
Proof.
  unfold isConst. destruct (ok p); [|done]. destruct (t p) as [|[[|] d] [|]]; try done; intros [= <-]; split; try done; intros v; cbn; lia.
Qed.

(** ** Equality and division *)
Lemma samePoly_spec a b : pwf a → pwf b →
  samePoly a b = true ↔ ok a = true ∧ ok b = true ∧ ∀ m, coef (t a) m = coef (t b) m.
Proof.
  intros [Ha _] [Hb _]. unfold samePoly. rewrite !andb_true_iff, bool_decide_eq_true. split.
  - intros [[??] ->]. done.
  - intros (?&?&H). split_and!; try done. by apply normal_ext.
Qed.
Lemma samePoly_peval a b : samePoly a b = true → ok a = true ∧ ok b = true ∧ ∀ v, peval v (t a) = peval v (t b).
Proof. unfold samePoly. rewrite !andb_true_iff, bool_decide_eq_true. intros [[??] ->]. done. Qed.
Lemma div_terms_spec d ts out : d ≠ 0 → div_terms d ts = Some (Some out) →
  out.*1 = ts.*1 ∧ Forall2 (λ o s : Mono * Z, s.2 = d * o.2) out ts.
Proof.
  intros Hd. revert out. induction ts as [|[m c] ts IH]; intros out; cbn [div_terms]; [by intros [= <-]|].
  case_match; [done|]. destruct (Z.eqb_spec (Z.rem c d) 0) as [Hz|]; [|done]. destruct (div_terms d ts) as [[o|]|]; [|done..].
  intros [= <-]. destruct (IH o eq_refl) as [E F]. cbn. split; [by f_equal|]. constructor; [|done]. cbn.
  pose proof (Z.quot_rem' c d). lia.
Qed.

(** ** The atoms of a polynomial *)
Definition atoms_all (P : nat → Prop) (p : Poly) : Prop := Forall (λ kv : Term, Forall P kv.1) (t p).
Section atoms.
Context (P : nat → Prop).
Local Abbreviation al := (atoms_all P).
Lemma atoms_constant c : al (constant c).
Proof. unfold constant. destruct (c =? 0); repeat constructor. Qed.
Lemma atoms_atom a : P a → al (atom a).
Proof. intros H. repeat constructor. done. Qed.
Lemma atoms_add p m c : al p → Forall P m → al (add p m c).
Proof.
  unfold add, atoms_all. intros Hp Hm. destruct (c =? 0); [done|]. destruct (find_term m (t p)); cbn [t].
  - by apply update_Forall.
  - rewrite emplace_perm. by constructor.
Qed.
Lemma atoms_fold {A} (f : Poly → A → Poly) l p : al p → (∀ p x, x ∈ l → al p → al (f p x)) → al (fold_left f l p).
Proof. revert p. induction l as [|x l IH]; intros p Hp Hf; [done|]. cbn. apply IH; [apply Hf; [left|done]|]. intros. apply Hf; [by right|done]. Qed.
Lemma atoms_poly_add a b : al a → al b → al (a + b)%tp.
Proof. intros Ha Hb. apply atoms_fold; [done|]. intros p x Hx Hp. apply atoms_add; [done|]. unfold atoms_all in Hb. rewrite Forall_forall in Hb. auto. Qed.
Lemma atoms_scaled a c : al a → al (scaled a c).
Proof. intros Ha. apply atoms_fold; [constructor|]. intros p x Hx Hp. apply atoms_add; [done|]. unfold atoms_all in Ha. rewrite Forall_forall in Ha. auto. Qed.
Lemma atoms_poly_sub a b : al a → al b → al (a - b)%tp.
Proof. intros. apply atoms_poly_add; [done|by apply atoms_scaled]. Qed.
Lemma atoms_poly_mul a b : al a → al b → al (a * b)%tp.
Proof.
  intros Ha Hb. apply atoms_fold; [constructor|]. intros p x Hx Hp. apply atoms_fold; [done|]. intros q y Hy Hq.
  unfold mul_step. destruct (6 <? length (x.1 ++ y.1))%nat; [done|]. apply atoms_add; [done|]. unfold sort_mono.
  rewrite (merge_sort_Permutation Nat.le (x.1 ++ y.1)). unfold atoms_all in Ha, Hb. rewrite Forall_forall in Ha, Hb.
  apply Forall_app; split; [by apply (Ha x)|by apply (Hb y)].
Qed.
Lemma mentions_false f p : mentions f p = false → atoms_all (λ a, f a = false) p.
Proof.
  unfold mentions, atoms_all. intros H. apply Forall_forall. intros kv Hkv. apply Forall_forall. intros a Ha.
  destruct (f a) eqn:E; [|done]. assert (existsb (λ kv : Term, existsb f kv.1) (t p) = true); [|congruence].
  apply existsb_exists. exists kv. split; [by apply list_elem_of_In|]. apply existsb_exists. exists a. split; [by apply list_elem_of_In|done].
Qed.
End atoms.
Lemma atoms_mono (P Q : nat → Prop) p : (∀ a, P a → Q a) → atoms_all P p → atoms_all Q p.
Proof. intros H Hp. eapply Forall_impl; [exact Hp|]. intros kv Hk. eapply Forall_impl; [exact Hk|done]. Qed.
Lemma atoms_peval (v v' : nat → Z) p : atoms_all (λ a, v a = v' a) p → peval v (t p) = peval v' (t p).
Proof. apply peval_ext. Qed.
Create HintDb mvcc_poly.
#[export] Hint Resolve atoms_constant atoms_atom atoms_poly_add atoms_scaled atoms_poly_sub atoms_poly_mul : mvcc_poly.
#[export] Hint Resolve constant_wf atom_wf : mvcc_poly.

(** ** Folding *)
Lemma foldInt_llvm op w x y r : 0 < w <= 64 → llvm_binary op w (x mod 2 ^ w) (y mod 2 ^ w) = Some r →
  foldInt op w x y = Some (sext w r).
Proof.
  intros Hw Hr. unfold foldInt. destruct (Z.leb_spec w 0), (Z.ltb_spec 64 w); try lia. cbn [orb].
  assert (∀ z, sext w (z mod 2 ^ w) = sext w z) as Hs.
  { intros z. unfold sext. by rewrite Z.mod_mod by (apply Z.pow_nonzero; lia). }
  destruct op; cbn [llvm_binary option_map] in *; rewrite ?Hs in *; try done; repeat (case_match; try done); simplify_eq; cbn [option_map]; rewrite ?Hs; try done.
  all: rewrite ?Z.leb_le, ?Z.ltb_lt, ?orb_false_iff in *; try lia.
  all: try (destruct H0 as [??]; congruence).
Qed.
Lemma foldInt_range op w x y r : foldInt op w x y = Some r → - 2 ^ 63 <= r < 2 ^ 63.
Proof.
  unfold foldInt. destruct (Z.leb_spec w 0), (Z.ltb_spec 64 w); try done. cbn [orb]. intros (z & _ & ->)%fmap_Some.
  pose proof (sext_range w z ltac:(lia)). pose proof (Z.pow_le_mono_r 2 (w - 1) 63 ltac:(lia) ltac:(lia)). lia.
Qed.
Lemma foldInt_width op w x y r : foldInt op w x y = Some r → 0 < w <= 64.
Proof. unfold foldInt. destruct (Z.leb_spec w 0), (Z.ltb_spec 64 w); try done; lia. Qed.
Lemma div_terms_range d ts out : d ≠ 0 → div_terms d ts = Some (Some out) →
  Forall (λ kv : Term, - 2 ^ 63 <= kv.2 < 2 ^ 63) ts → Forall (λ kv : Term, - 2 ^ 63 <= kv.2 < 2 ^ 63) out.
Proof.
  intros Hd. revert out. induction ts as [|[m c] ts IH]; intros out; cbn [div_terms]; [by intros [= <-]|].
  destruct ((c =? - 2 ^ 63) && (d =? -1)) eqn:E; [done|]. destruct (Z.rem c d =? 0); [|done]. destruct (div_terms d ts) as [[o|]|]; [|done..].
  intros [= <-] [Hc Hts]%Forall_cons. constructor; [|by apply IH]. cbn in *.
  apply andb_false_iff in E. rewrite !Z.eqb_neq in E. destruct (Z.abs_spec d) as [[Hda Hdb]|[Hda Hdb]]; pose proof (Z.quot_abs_l c d Hd); pose proof (Z.quot_rem' c d) as Hq.
  - destruct (Z.le_gt_cases 0 c) as [Hc0|Hc0].
    + pose proof (Z.quot_pos c d Hc0 ltac:(lia)). pose proof (Z.rem_bound_pos c d Hc0 ltac:(lia)). nia.
    + pose proof (Z.quot_pos (- c) d ltac:(lia) ltac:(lia)) as Hp. rewrite Z.quot_opp_l in Hp by done.
      pose proof (Z.rem_nonpos c d Hd ltac:(lia)). nia.
  - destruct (Z.le_gt_cases 0 c) as [Hc0|Hc0].
    + pose proof (Z.quot_pos c (- d) Hc0 ltac:(lia)) as Hp. rewrite Z.quot_opp_r in Hp by done. pose proof (Z.rem_nonneg c d Hd Hc0). nia.
    + pose proof (Z.quot_pos (- c) (- d) ltac:(lia) ltac:(lia)) as Hp. rewrite Z.quot_opp_opp in Hp by done. pose proof (Z.rem_nonpos c d Hd ltac:(lia)).
      destruct (Z.eq_dec d (-1)) as [->|]; [|nia]. assert (Z.rem c (-1) = 0) as Hr0 by (change (-1) with (- (1)); rewrite Z.rem_opp_r by lia; apply Z.rem_1_r). rewrite Hr0 in Hq. destruct E as [E|E]; [|done]. lia.
Qed.
Lemma normal_keys (ts ts' : list Term) : ts.*1 = ts'.*1 → Forall (λ kv : Term, kv.2 ≠ 0) ts' → normal ts → normal ts'.
Proof.
  intros E Hz [Hs _]. split; [|done]. clear Hz. revert ts' E. induction Hs as [|kv ts Hs IH Hall]; intros [|kv' ts'] E; try done; [constructor|].
  rewrite !fmap_cons in E. injection E as Ek E. constructor; [by apply IH|]. apply Forall_forall. intros y Hy. assert (y.1 ∈ ts.*1) as Hy'.
  { rewrite E. by apply list_elem_of_fmap_2. }
  apply list_elem_of_fmap in Hy' as (x & Hx & Hxin). rewrite Forall_forall in Hall. specialize (Hall _ Hxin). unfold term_lt in *. by rewrite Hx, <- Ek.
Qed.
Lemma divExact_spec a d q : pwf a → divExact a d = Some (Some q) →
  ok a = true ∧ ok q = true ∧ pwf q ∧ (∀ v, peval v (t a) = d * peval v (t q)) ∧ ∀ P, atoms_all P a → atoms_all P q.
Proof.
  intros [Hn Hr]. unfold divExact. destruct (ok a); [|done]. destruct (Z.eqb_spec d 0) as [|Hd]; [done|]. cbn [negb orb].
  destruct (div_terms d (t a)) as [[ts|]|] eqn:E; [|done..]. intros [= <-]. destruct (div_terms_spec _ _ _ Hd E) as [Hk Hv]. cbn [ok t].
  split_and!; [done|done| | |].
  - split; cbn [t]; [|by eapply div_terms_range]. apply (normal_keys (t a)); [done| |done]. destruct Hn as [_ Hz].
    clear E Hk Hr. induction Hv as [|o s out src Ho Hv IH]; [constructor|]. apply Forall_cons in Hz as [Hz1 Hz2]. constructor; [|by apply IH]. intros H0. rewrite H0 in Ho. lia.
  - intros v. clear E Hn Hr. induction Hv as [|o s out src Ho Hv IH]; [cbn; lia|]. cbn in Hk |- *. injection Hk as Hk1 Hk2. rewrite (IH Hk2), Ho, Hk1. lia.
  - intros P. unfold atoms_all. cbn [t]. clear E Hn Hr. induction Hv as [|o s out src Ho Hv IH]; [done|]. cbn in Hk. injection Hk as Hk1 Hk2.
    intros [Hp1 Hp2]%Forall_cons. constructor; [by rewrite Hk1|by apply IH].
Qed.
