(* ===== verification/DevEval.v ===== *)
(** The evaluator of addresses of the tensor recovery (cpp/mvcc-llvm/tensor_recovery.cpp: class [DevEval]):
    which values can differ between threads ([taint]), and the value of an instruction in one thread as a
    polynomial over atoms ([eval], [go], [raw], [phi]).

    A function of LLVM IR is data: the instructions with the operands the evaluator reads, and LLVM's answers
    about users, loops and address spaces as functions.  The evaluator's tables are the state of a monad; [go]
    carries its depth and stops at 256, so the number of levels left is the fuel. *)
From S2P Require Import Prelude Expr Arena LlvmInt ArenaSem ArenaCmp TensorPoly.
Open Scope Z_scope.

(** ** LLVM IR as the evaluator sees it *)
Abbreviation Val := nat.
Definition Block := nat.
Definition Loop := nat.
Record Callee := mkCallee { cname : string; isIntrinsic : bool; noMemory : bool; isConvergent : bool }.
(** an index of a [getelementptr]: into a structure, at an offset; or into elements of a size *)
Inductive GepStep := GField (offset : Z) | GIndex (idx : Val) (vector : bool) (size : Z).
Inductive Inst :=
| IPhi (inc : list (Val * Block))
| ICall (callee : option Callee) (args : list Val)
| IBinary (op : Opcode) (ty : Ty) (disjoint : bool) (a b : Val)
| ICast (op : Opcode) (src dst : Ty) (a : Val)
| IGep (p : Val) (steps : list GepStep)
| ISelect (c a b : Val)
| IICmp (p : Pred) (ty : Ty) (a b : Val)
| IFreeze (a : Val)
| ILoad (simple : bool) (ty : Ty) (ptr : Val)
| IExtractElement (vec idx : Val)
| IAlloca
| IAtomic (args : list Val)
| IOther (args : list Val).
(** constant expressions are [DOther] *)
Inductive Def := DInt (w c : Z) | DNull | DArgument | DGlobal | DOther | DInst (i : Inst).
Record Fn := mkFn {
  def : Val → Def;
  insts : list Val;                (* instructions(F) *)
  users : Val → list Val;
  isVoid : Val → bool;
  parent : Val → Block;
  loopFor : Block → option Loop;   (* LoopInfo::getLoopFor *)
  header : Loop → Block;
  inLoop : Loop → Block → bool;    (* Loop::contains *)
  loopIn : Loop → Loop → bool;
  space3 : Val → bool;             (* a pointer into address space 3 *)
  underlying : Val → Val }.        (* getUnderlyingObject *)
Definition inst (F : Fn) (v : Val) : option Inst := match def F v with DInst i => Some i | _ => None end.
Definition is_inst (F : Fn) (v : Val) : bool := match inst F v with Some _ => true | None => false end.
Definition callee_name (f : option Callee) : string := match f with Some f => cname f | None => ""%string end.
Definition starts_with (p s : string) : bool := String.prefix p s.

(** ** Values that differ between threads *)
Section taint.
Context (F : Fn).
Definition uniform_call (f : option Callee) : bool :=
  let n := callee_name f in
  starts_with "llvm.nvvm.read.ptx.sreg.ctaid." n || starts_with "llvm.nvvm.read.ptx.sreg.nctaid." n
  || starts_with "llvm.nvvm.read.ptx.sreg.ntid." n
  || match f with
     | Some f => isIntrinsic f && negb (starts_with "llvm.nvvm." n) && noMemory f && negb (isConvergent f)
     | None => false
     end.
Definition is_alloca (v : Val) : bool := match inst F v with Some IAlloca => true | _ => false end.
Definition is_header (b : Block) : bool :=
  match loopFor F b with Some L => (header F L =? b)%nat | None => false end.
Definition merges (inc : list (Val * Block)) : bool :=
  match inc with [] => false | (v0, _) :: _ => existsb (λ vb, negb (vb.1 =? v0)%nat) inc end.
(** an instruction that starts the propagation *)
Definition source (v : Val) : bool :=
  match inst F v with
  | Some (ICall f _) => negb (uniform_call f)
  | Some (IAlloca | IAtomic _) => true
  | Some (ILoad simple _ p) =>
      let obj := underlying F p in
      negb simple || space3 F p || space3 F obj || is_alloca obj
  | Some (IPhi inc) => negb (is_header (parent F v)) && merges inc
  | _ => false
  end.
(** [mark]: the set and the stack of values whose users are not yet visited *)
Definition mark (sw : gset Val * list Val) (v : Val) : gset Val * list Val :=
  if bool_decide (v ∈ sw.1) then sw else ({[v]} ∪ sw.1, v :: sw.2).
Definition sources : gset Val * list Val := fold_left mark (filter source (insts F)) (∅, []).
Definition reached (skip : Val → bool) (v : Val) : list Val :=
  filter (λ u, is_inst F u && negb (isVoid F u) && negb (skip u)) (users F v).
Fixpoint spread (n : nat) (skip : Val → bool) (sw : gset Val * list Val) : gset Val :=
  match n, sw.2 with
  | S n, v :: work => spread n skip (fold_left mark (reached skip v) (sw.1, work))
  | _, _ => sw.1
  end.
(** every turn takes a value off the stack, and no value is put on it twice *)
Definition spread_fuel : nat := length (insts F).
Definition perThread : gset Val := spread spread_fuel (λ _, false) sources.
Definition is_tid (v : Val) : bool :=
  match inst F v with Some (ICall f _) => String.eqb (callee_name f) "llvm.nvvm.read.ptx.sreg.tid.x" | _ => false end.
(** the warp index: [tid.x >> 5] or more, [tid.x / 32k], [tid.x & ~31] *)
Definition warpIndex (v : Val) : bool :=
  match inst F v with
  | Some (IBinary op _ _ a b) =>
      match def F b with
      | DInt w c =>
          if negb (is_tid a) || (64 <? w) then false else
          let z := c mod 2 ^ w in
          match op with
          | LShr => 5 <=? z
          | UDiv => negb (z =? 0) && (z mod 32 =? 0)
          | And => Z.land z 31 =? 0
          | _ => false
          end
      | _ => false
      end
  | _ => false
  end.
Definition laneVarying : gset Val :=
  spread spread_fuel warpIndex (fold_left mark (rev sources.2) (∅, [])).
End taint.

(** ** The evaluator's state *)
Record St := mkSt {
  atomValue : list (option Val);     (* atom -> the value it stands for *)
  atomLoop : list (option Loop);     (* atom -> the loop whose iterations it counts *)
  atomOf : gmap Val nat;
  iterOf : gmap Loop nat;
  stepping : gmap Val nat;           (* header phis whose step is being evaluated *)
  uniformMemo : gmap Val (option Poly);
  threadMemo : gmap (Val * Z) (option Poly) }.
Definition st0 : St := mkSt [] [] ∅ ∅ ∅ ∅ ∅.
Definition E (A : Type) : Type := St → A * St.
Definition eret {A} (x : A) : E A := λ st, (x, st).
Definition ebind {A B} (m : E A) (f : A → E B) : E B := λ st, let '(x, st) := m st in f x st.
(** a step that gives no polynomial ends the attempt with [k] *)
Definition eor {A B} (m : E (option A)) (k : E B) (f : A → E B) : E B :=
  ebind m (λ r, match r with Some x => f x | None => k end).
Declare Scope deveval_scope.
Notation "'get!' x := m 'else' k 'in' f" := (eor m k (λ x, f)) (at level 10, x name, m at level 100, k at level 100, f at level 200) : deveval_scope.
Open Scope deveval_scope.

Definition newWarp : E unit := λ st,
  (tt, mkSt (atomValue st) (atomLoop st) (atomOf st) (iterOf st) (stepping st) (uniformMemo st) ∅).
Definition atomFor (v : Val) : E nat := λ st,
  match atomOf st !! v with
  | Some a => (a, st)
  | None =>
      let a := length (atomValue st) in
      (a, mkSt (atomValue st ++ [Some v]) (atomLoop st ++ [None]) (<[v := a]> (atomOf st)) (iterOf st)
               (stepping st) (uniformMemo st) (threadMemo st))
  end.
Definition iterFor (L : Loop) : E nat := λ st,
  match iterOf st !! L with
  | Some a => (a, st)
  | None =>
      let a := length (atomValue st) in
      (a, mkSt (atomValue st ++ [None]) (atomLoop st ++ [Some L]) (atomOf st) (<[L := a]> (iterOf st))
               (stepping st) (uniformMemo st) (threadMemo st))
  end.
Definition set_stepping (m : gmap Val nat) : E unit := λ st,
  (tt, mkSt (atomValue st) (atomLoop st) (atomOf st) (iterOf st) m (uniformMemo st) (threadMemo st)).

Section eval.
(** [perThread] and [laneVarying], which the constructor computes *)
Context `{CmpInst} (F : Fn) (PT LV : gset Val).
(** an atom whose value can change from one iteration of [L] to the next *)
Definition variantIn (st : St) (L : Loop) (a : nat) : bool :=
  match atomLoop st !! a, atomValue st !! a with
  | Some (Some AL), _ => loopIn F L AL
  | _, Some (Some v) => is_inst F v && inLoop F L (parent F v)
  | _, _ => false
  end.
Definition opaque (v : Val) : E (option Poly) :=
  if bool_decide (v ∈ LV) then eret None
  else ebind (atomFor v) (λ a, eret (Some (atom a))).
Definition orelse (m : E (option Poly)) (k : E (option Poly)) : E (option Poly) :=
  eor m k (λ p, eret (Some p)).

Section body.
(** [tid], and the evaluation one level deeper *)
Context (tid : Z) (rec : Val → E (option Poly)).
Definition raw_call (v : Val) (f : option Callee) : E (option Poly) :=
  let n := callee_name f in
  if String.eqb n "llvm.nvvm.read.ptx.sreg.tid.x" then eret (Some (constant tid))
  else if String.eqb n "llvm.nvvm.read.ptx.sreg.laneid" then eret (Some (constant (Z.land tid 31)))
  else opaque v.
Definition raw_binary (v : Val) (op : Opcode) (ty : Ty) (disjoint : bool) (a b : Val) : E (option Poly) :=
  match ty with
  | TInt w =>
      if 64 <? w then opaque v else
      get! pa := rec a else opaque v in
      get! pb := rec b else opaque v in
      match isConst pa, isConst pb with
      | Some x, Some y =>
          match foldInt op w x y with Some r => eret (Some (constant r)) | None => opaque v end
      | _, cb =>
          match op, cb with
          | Add, _ => eret (Some (pa + pb)%tp)
          | Sub, _ => eret (Some (pa - pb)%tp)
          | Mul, _ => eret (Some (pa * pb)%tp)
          | Shl, Some y => if (0 <=? y) && (y <? 48) then eret (Some (scaled pa (Z.shiftl 1 y))) else opaque v
          | Or, _ => if disjoint then eret (Some (pa + pb)%tp) else opaque v
          | _, _ => opaque v
          end
      end
  | _ => opaque v
  end.
Definition is_intconv (op : Opcode) : bool := match op with ZExt | SExt | Trunc => true | _ => false end.
(** [APInt::zext], [sext], [trunc] of a constant, read signed *)
Definition convert (op : Opcode) (sw dw x : Z) : Z :=
  sext dw (match op with SExt => sext sw x | _ => x mod 2 ^ sw end).
Definition raw_cast (v : Val) (op : Opcode) (src dst : Ty) (a : Val) : E (option Poly) :=
  if negb ((isIntegerTy src || isPointerTy src) && (isIntegerTy dst || isPointerTy dst)) then opaque v else
  get! pa := rec a else opaque v in
  match isConst pa, is_intconv op, src, dst with
  | Some x, true, TInt sw, TInt dw =>
      if (64 <? sw) || (64 <? dw) then opaque v else eret (Some (constant (convert op sw dw x)))
  | _, _, _, _ =>
      match op with
      | ZExt | SExt | Trunc | PtrToInt | IntToPtr | AddrSpaceCast | BitCast => eret (Some pa)
      | _ => opaque v
      end
  end.
Fixpoint raw_gep (v : Val) (steps : list GepStep) (p : Poly) : E (option Poly) :=
  match steps with
  | [] => eret (Some p)
  | GField off :: steps => raw_gep v steps (p + constant off)%tp
  | GIndex idx vector size :: steps =>
      if vector : bool then opaque v else
      get! ip := rec idx else opaque v in
      raw_gep v steps (p + scaled ip size)%tp
  end.
Definition raw_select (v c a b : Val) : E (option Poly) :=
  get! pc := rec c else opaque v in
  match isConst pc with
  | Some cv => orelse (rec (if cv =? 0 then b else a)) (opaque v)
  | None => opaque v
  end.
Definition icmp_width (ty : Ty) : Z := match ty with TPtr _ => 64 | TInt w => w | _ => 0 end.
Definition raw_icmp (v : Val) (p : Pred) (ty : Ty) (a b : Val) : E (option Poly) :=
  let w := icmp_width ty in
  if (w =? 0) || (64 <? w) then opaque v else
  get! pa := rec a else opaque v in
  get! pb := rec b else opaque v in
  match isConst pa, isConst pb with
  | Some x, Some y => eret (Some (constant (if compare w (sext w x) (sext w y) p then 1 else 0)))
  | _, _ => opaque v
  end.
(** the incoming values of a phi of the header of [L] from inside the loop and from outside *)
Definition loop_inputs (L : Loop) (inc : list (Val * Block)) : option (Val * Val) :=
  match inc with
  | [(v0, b0); (v1, b1)] =>
      match inLoop F L b0, inLoop F L b1 with
      | true, false => Some (v0, v1)
      | false, true => Some (v1, v0)
      | _, _ => None
      end
  | _ => None
  end.
(** [m] with the phi [v] standing for itself *)
Definition with_phi (v : Val) (self : nat) (m : E (option Poly)) : E (option Poly) := λ st,
  let outer := stepping st in
  ebind (set_stepping (<[v := self]> outer)) (λ _, ebind m (λ r,
  ebind (set_stepping (delete v outer)) (λ _, eret r))) st.
(** the phi after [k] iterations, when what an iteration adds is the same in each *)
Definition phi_close (v : Val) (L : Loop) (self : nat) (init next : Poly) : E (option Poly) := λ st,
  let step := (next - atom self)%tp in
  if ok step && negb (mentions (variantIn st L) step)
  then ebind (iterFor L) (λ k, eret (Some (init + step * atom k)%tp)) st
  else opaque v st.
Definition phi_loop (v : Val) (L : Loop) (nx ini : Val) : E (option Poly) :=
  get! init := rec ini else opaque v in
  ebind (atomFor v) (λ self,
  get! next := with_phi v self (rec nx) else opaque v in
  phi_close v L self init next).
Definition phi (v : Val) (inc : list (Val * Block)) : E (option Poly) := λ st,
  match stepping st !! v with
  | Some a => (Some (atom a), st)
  | None =>
      (if negb (merges inc)
       then match inc with (v0, _) :: _ => orelse (rec v0) (opaque v) | [] => opaque v end
       else match loopFor F (parent F v) with
            | Some L =>
                if (header F L =? parent F v)%nat then
                  match loop_inputs L inc with Some (nx, ini) => phi_loop v L nx ini | None => opaque v end
                else opaque v
            | None => opaque v
            end) st
  end.
Definition raw (v : Val) : E (option Poly) :=
  match inst F v with
  | Some (IPhi inc) => phi v inc
  | Some (ICall f _) => raw_call v f
  | Some (IBinary op ty dj a b) => raw_binary v op ty dj a b
  | Some (ICast op src dst a) => raw_cast v op src dst a
  | Some (IGep p steps) => get! pp := rec p else opaque v in raw_gep v steps pp
  | Some (ISelect c a b) => raw_select v c a b
  | Some (IICmp p ty a b) => raw_icmp v p ty a b
  | Some (IFreeze a) => orelse (rec a) (opaque v)
  | _ => opaque v
  end.
Definition set_memo (thread : bool) (v : Val) (r : option Poly) : E unit := λ st,
  (tt, mkSt (atomValue st) (atomLoop st) (atomOf st) (iterOf st) (stepping st)
        (if thread then uniformMemo st else <[v := r]> (uniformMemo st))
        (if thread then <[(v, tid) := r]> (threadMemo st) else threadMemo st)).
Definition memo_hit (thread : bool) (v : Val) (st : St) : option (option Poly) :=
  if thread then threadMemo st !! (v, tid) else uniformMemo st !! v.
(** the result counts only while its flag is up *)
Definition checked (r : option Poly) : option Poly :=
  match r with Some p => if ok p then Some p else None | None => None end.
Definition go_body (v : Val) : E (option Poly) :=
  match def F v with
  | DInt w c => eret (if 64 <? w then None else Some (constant c))
  | DNull => eret (Some (mkPoly [] true))
  | _ => λ st,
      let thread := bool_decide (v ∈ PT) in
      let memo := bool_decide (stepping st = ∅) in
      match (if memo then memo_hit thread v st else None) with
      | Some r => (r, st)
      | None =>
          ebind (raw v) (λ r, ebind (if memo then set_memo thread v (checked r) else eret tt)
                                    (λ _, eret (checked r))) st
      end
  end.
End body.

(** [n] levels of depth are left *)
Fixpoint go (n : nat) (tid : Z) (v : Val) : E (option Poly) :=
  match n with O => eret None | S n => go_body tid (go n tid) v end.
Definition eval (v : Val) (tid : Z) : E (option Poly) := ebind (go 257 tid v) (λ r, eret (checked r)).
End eval.
