(* ===== verification/DevEvalSem.v ===== *)
(** What the evaluator of addresses (DevEval.v) promises: in every execution of the function the polynomial it
    returns for a value has that value, whatever the atoms are, and no atom differs between the lanes of a
    warp.

    An execution is a family of moments, each giving every value of every thread an integer and every loop a
    count of iterations; its laws are those of LLVM's language reference, with the assumption of the source
    that the arithmetic the address is made of does not wrap. *)
From S2P Require Import Prelude Expr Arena LlvmInt ArenaSem ArenaCmp TensorPoly DevEval.
Open Scope Z_scope.

Definition operands (i : Inst) : list Val :=
  match i with
  | IPhi inc => inc.*1
  | ICall _ args | IAtomic args | IOther args => args
  | IBinary _ _ _ a b | IICmp _ _ a b => [a; b]
  | ICast _ _ _ a | IFreeze a | ILoad _ _ a => [a]
  | IExtractElement a b => [a; b]
  | IGep p steps => p :: (s ← steps; match s with GIndex idx _ _ => [idx] | GField _ => [] end)
  | ISelect c a b => [c; a; b]
  | IAlloca => []
  end.

(** ** Executions *)
Record Exec := mkExec {
  Moment : Type;
  val : Moment → Z → Val → Z;        (* of a thread *)
  count : Moment → Loop → Z }.
Section exec.
Context `{CmpInst} (F : Fn) (X : Exec) (D : Val → Prop).
(** defined outside of [L] *)
Definition outside (L : Loop) (v : Val) : Prop := is_inst F v = true → inLoop F L (parent F v) = false.
(** the moment [m'], an iteration of [L] earlier *)
Definition earlier (L : Loop) (m' m : Moment X) : Prop :=
  count X m' L = count X m L - 1 ∧
  (∀ v i, outside L v → val X m' i v = val X m i v) ∧
  ∀ L', loopIn F L L' = false → count X m' L' = count X m L'.
(** LLVM's meaning of the instructions; exact on the values [D], those an address is made of *)
Record lawful : Prop := {
  l_int m i v w c : def F v = DInt w c → val X m i v = c;
  l_null m i v : def F v = DNull → val X m i v = 0;
  l_tid m i v f args : inst F v = Some (ICall f args) → callee_name f = "llvm.nvvm.read.ptx.sreg.tid.x"%string → val X m i v = i;
  l_lane m i v f args : inst F v = Some (ICall f args) → callee_name f = "llvm.nvvm.read.ptx.sreg.laneid"%string → val X m i v = Z.land i 31;
  l_binary m i v op w dj a b r : inst F v = Some (IBinary op (TInt w) dj a b) →
    llvm_binary op w (val X m i a mod 2 ^ w) (val X m i b mod 2 ^ w) = Some r → val X m i v = sext w r;
  l_arith m i v op w dj a b : D v → inst F v = Some (IBinary op (TInt w) dj a b) →
    match op with
    | Add => val X m i v = val X m i a + val X m i b
    | Sub => val X m i v = val X m i a - val X m i b
    | Mul => val X m i v = val X m i a * val X m i b
    | Shl => 0 <= val X m i b → val X m i v = val X m i a * 2 ^ val X m i b
    | Or => dj = true → val X m i v = val X m i a + val X m i b
    | _ => True
    end;
  l_defined m i v op w dj a b : D v → inst F v = Some (IBinary op (TInt w) dj a b) → op ∈ [SDiv; SRem] →
    val X m i b mod 2 ^ w ≠ 0 → is_Some (llvm_binary op w (val X m i a mod 2 ^ w) (val X m i b mod 2 ^ w));
  l_convert m i v op sw dw a r : inst F v = Some (ICast op (TInt sw) (TInt dw) a) →
    llvm_cast op sw dw (val X m i a mod 2 ^ sw) = Some r → is_intconv op = true → val X m i v = sext dw r;
  l_cast m i v op src dst a : D v → inst F v = Some (ICast op src dst a) →
    op ∈ [ZExt; SExt; Trunc; PtrToInt; IntToPtr; AddrSpaceCast; BitCast] → val X m i v = val X m i a;
  l_gep m i v p steps : D v → inst F v = Some (IGep p steps) →
    val X m i v = val X m i p + foldr (λ s z, match s with GField off => off | GIndex idx _ size => val X m i idx * size end + z) 0 steps;
  l_select m i v c a b : inst F v = Some (ISelect c a b) → val X m i v = val X m i (if val X m i c =? 0 then b else a);
  l_icmp m i v p ty a b : inst F v = Some (IICmp p ty a b) →
    let w := icmp_width ty in 0 < w → val X m i v = if compare w (sext w (val X m i a)) (sext w (val X m i b)) p then 1 else 0;
  l_freeze m i v a : inst F v = Some (IFreeze a) → val X m i v = val X m i a;
  l_same m i v v0 b0 inc : inst F v = Some (IPhi ((v0, b0) :: inc)) → merges ((v0, b0) :: inc) = false → val X m i v = val X m i v0;
  l_loop m i v L inc nx ini : inst F v = Some (IPhi inc) → loopFor F (parent F v) = Some L → header F L = parent F v →
    loop_inputs F L inc = Some (nx, ini) →
    outside L ini ∧ 0 <= count X m L ∧ (count X m L = 0 → val X m i v = val X m i ini) ∧
    (0 < count X m L → ∃ m', earlier L m' m ∧ val X m i v = val X m' i nx) }.
(** the lanes of a warp differ only in values the thread index reaches: a set of values that contains what can
    differ and is closed under use holds every value that does *)
Definition warp_uniform : Prop :=
  ∀ S : gset Val, (∀ v, v ∈ insts F → source F v = true → v ∈ S) →
    (∀ v i u, inst F v = Some i → u ∈ operands i → u ∈ S → isVoid F v = false → warpIndex F v = false → v ∈ S) →
    ∀ m v i j, v ∉ S → i / 32 = j / 32 → val X m i v = val X m j v.
End exec.

(** ** Well-formed functions *)
Record fn_ok (F : Fn) : Prop := {
  f_int v w c : def F v = DInt w c → w <= 64 → - 2 ^ 63 <= c < 2 ^ 63;
  f_insts v : is_inst F v = true → v ∈ insts F;
  f_users v i u : inst F v = Some i → u ∈ operands i → v ∈ users F u;
  f_void v i : inst F v = Some i → isVoid F v = true → match i with ICall _ _ | IAtomic _ | IOther _ => True | _ => False end;
  f_binary v op w dj a b : inst F v = Some (IBinary op (TInt w) dj a b) → 0 < w;
  f_convert v op sw dw a : inst F v = Some (ICast op (TInt sw) (TInt dw) a) → is_intconv op = true → (0 < sw ∧ 0 < dw) ∧ ∀ z, is_Some (llvm_cast op sw dw z);
  f_gep v p steps : inst F v = Some (IGep p steps) → Forall (λ s, match s with GField off => - 2 ^ 63 <= off < 2 ^ 63 | _ => True end) steps;
  f_icmp v p ty a b : inst F v = Some (IICmp p ty a b) → 0 <= icmp_width ty;
  f_header L : inLoop F L (header F L) = true }.

(** ** The values that differ *)
Section taint.
Context (F : Fn) (HF : fn_ok F).
Definition all_insts : gset Val := list_to_set (insts F).
(** the state of the propagation: the values on the stack are in the set; users of the others are too *)
Definition closed_but (skip : Val → bool) (sw : gset Val * list Val) : Prop :=
  sw.1 ⊆ all_insts ∧ (∀ v, v ∈ sw.2 → v ∈ sw.1) ∧ ∀ v, v ∈ sw.1 → v ∈ sw.2 ∨ ∀ u, u ∈ reached F skip v → u ∈ sw.1.
Lemma mark_in sw v : v ∈ sw.1 → mark sw v = sw.
Proof. intros E. unfold mark. by rewrite bool_decide_true. Qed.
Lemma mark_out sw v : v ∉ sw.1 → mark sw v = ({[v]} ∪ sw.1, v :: sw.2).
Proof. intros E. unfold mark. by rewrite bool_decide_false. Qed.
Lemma mark_all l sw : (∀ v, v ∈ l → v ∈ all_insts) → sw.1 ⊆ all_insts →
  let sw' := fold_left mark l sw in
  sw'.1 = sw.1 ∪ list_to_set l ∧ (∃ new, sw'.2 = new ++ sw.2 ∧ (∀ v, v ∈ new → v ∈ l) ∧ (∀ v, v ∈ l → v ∈ new ∨ v ∈ sw.1)
  ∧ size sw'.1 = (length new + size sw.1)%nat).
Proof.
  revert sw. induction l as [|v l IH]; intros sw Hl Hs; cbn [fold_left].
  { split; [cbn; set_solver|]. exists []. split_and!; [done|by intros ? ?%elem_of_nil|by intros ? ?%elem_of_nil|done]. }
  assert (v ∈ all_insts) as Hv by (apply Hl; left). destruct (decide (v ∈ sw.1)) as [E|E]; [rewrite (mark_in _ _ E)|rewrite (mark_out _ _ E)].
  - destruct (IH sw) as (E1 & new & E2 & Hn & Hc & Hz); [intros; apply Hl; by right|done|].
    split; [rewrite E1; cbn; set_solver|]. exists new. split_and!; try done; [intros; right; auto|]. intros u [->|?]%elem_of_cons; [by right|auto].
  - destruct (IH ({[v]} ∪ sw.1, v :: sw.2)) as (E1 & new & E2 & Hn & Hc & Hz); [intros; apply Hl; by right|cbn; set_solver|].
    split; [rewrite E1; cbn; set_solver|]. exists (new ++ [v]). cbn in *. split_and!.
    + by rewrite E2, <- app_assoc.
    + intros u [?|?%list_elem_of_singleton]%elem_of_app; subst; [right; auto|left].
    + intros u [->|Hu]%elem_of_cons; [left; apply elem_of_app; right; left|]. destruct (Hc u Hu) as [?|?]; [left; apply elem_of_app; auto|].
      destruct (decide (u = v)) as [->|]; [left; apply elem_of_app; right; left|right; set_solver].
    + rewrite Hz, size_union by set_solver. rewrite size_singleton, length_app. cbn. lia.
Qed.
Lemma reached_insts skip v u : u ∈ reached F skip v → u ∈ all_insts.
Proof. intros [Hu _]%list_elem_of_filter. apply elem_of_list_to_set, f_insts; [done|]. destruct (is_inst F u); [done|by destruct Hu]. Qed.
Lemma spread_closed n skip sw :
  closed_but skip sw → (length sw.2 + (size all_insts - size sw.1) ≤ n)%nat →
  let S := spread F n skip sw in sw.1 ⊆ S ∧ ∀ v u, v ∈ S → u ∈ reached F skip v → u ∈ S.
Proof.
  revert sw. induction n as [|n IH]; intros [s work] (Hs & Hw & Hc) Hn; cbn -[all_insts] in *.
  - destruct work; cbn in Hn; [|lia]. split; [done|]. intros v u Hv Hu. destruct (Hc v Hv) as [?%elem_of_nil|]; [done|auto].
  - destruct work as [|v work].
    { split; [done|]. intros v u Hv Hu. destruct (Hc v Hv) as [?%elem_of_nil|]; [done|auto]. }
    destruct (mark_all (reached F skip v) (s, work)) as (E1 & new & E2 & Hnew & Hin & Hz); [by apply reached_insts|done|].
    cbn -[all_insts] in *. destruct (fold_left mark (reached F skip v) (s, work)) as [s' work'] eqn:E. cbn -[all_insts] in *. subst s' work'.
    destruct (IH (s ∪ list_to_set (reached F skip v), new ++ work)) as [H1 H2]; cbn -[all_insts] in *.
    + split_and!; cbn -[all_insts].
      * intros u [?|Hu%elem_of_list_to_set]%elem_of_union; [set_solver|by eapply reached_insts].
      * intros u [Hu|Hu]%elem_of_app; apply elem_of_union; [right; apply elem_of_list_to_set; auto|left; apply Hw; by right].
      * intros u [Hu|Hu%elem_of_list_to_set]%elem_of_union.
        -- destruct (Hc u Hu) as [[->|?]%elem_of_cons|?]; [right|left; apply elem_of_app; auto|right; set_solver].
           intros x Hx. apply elem_of_union. right. by apply elem_of_list_to_set.
        -- destruct (Hin u Hu) as [?|Hu']; [left; apply elem_of_app; auto|].
           destruct (Hc u Hu') as [[->|?]%elem_of_cons|?]; [right|left; apply elem_of_app; auto|right; set_solver].
           intros x Hx. apply elem_of_union. right. by apply elem_of_list_to_set.
    + rewrite Hz, length_app. assert (size s ≤ size all_insts)%nat by (by apply subseteq_size).
      assert (length new + size s ≤ size all_insts)%nat; [|lia]. rewrite <- Hz. apply subseteq_size.
      intros u [?|Hu%elem_of_list_to_set]%elem_of_union; [set_solver|by eapply reached_insts].
    + split; [set_solver|done].
Qed.
Lemma insts_size : (size all_insts ≤ length (insts F))%nat.
Proof. unfold all_insts. induction (insts F) as [|v l IH]; cbn; [done|]. rewrite size_union_alt. pose proof (size_singleton (C := gset Val) v). etransitivity; [apply Nat.add_le_mono; [by rewrite H|]|apply (Nat.add_le_mono 1 1); [done|exact IH]]. apply subseteq_size. set_solver. Qed.
Lemma is_inst_intro v i : inst F v = Some i → is_inst F v = true.
Proof. unfold is_inst. by intros ->. Qed.
Lemma sources_spec : closed_but (λ _, false) (sources F) ∧ (length (sources F).2 = size (sources F).1) ∧
  ∀ v, v ∈ (sources F).2 ↔ v ∈ insts F ∧ source F v = true.
Proof.
  assert (∀ v, v ∈ filter (source F) (insts F) ↔ source F v = true ∧ v ∈ insts F) as Hf.
  { intros v. rewrite list_elem_of_filter, Is_true_true. done. }
  destruct (mark_all (filter (source F) (insts F)) (∅, [])) as (E1 & new & E2 & Hnew & Hin & Hz).
  { intros v [_ Hv]%Hf. by apply elem_of_list_to_set. } { cbn; set_solver. }
  fold (sources F) in *. cbn -[sources] in *. rewrite app_nil_r in E2. rewrite E2. split_and!.
  - split_and!.
    + rewrite E1. intros v [?|Hv%elem_of_list_to_set]%elem_of_union; [set_solver|]. apply Hf in Hv as [_ Hv]. by apply elem_of_list_to_set.
    + intros v Hv. rewrite E2 in Hv. rewrite E1. apply elem_of_union. right. apply elem_of_list_to_set. auto.
    + intros v Hv. left. rewrite E2. rewrite E1 in Hv. apply elem_of_union in Hv as [?|Hv%elem_of_list_to_set]; [set_solver|]. destruct (Hin v Hv); [done|set_solver].
  - rewrite Hz, size_empty. lia.
  - intros v. split; [intros [??]%Hnew%Hf; done|]. intros [??]. destruct (Hin v); [by apply Hf|done|set_solver].
Qed.
(** the computed set contains the sources and, with a value, the instructions that use it *)
Definition taints (skip : Val → bool) (S : gset Val) : Prop :=
  (∀ v, v ∈ insts F → source F v = true → v ∈ S) ∧
  ∀ v i u, inst F v = Some i → u ∈ operands i → u ∈ S → isVoid F v = false → skip v = false → v ∈ S.
Lemma taints_intro skip S : (∀ v, v ∈ insts F → source F v = true → v ∈ S) →
  (∀ v u, v ∈ S → u ∈ reached F skip v → u ∈ S) → taints skip S.
Proof.
  intros H1 H2. split; [done|]. intros v i u Hi Hu HS Hv Hk. apply (H2 u); [done|]. apply list_elem_of_filter. split; [|by eapply f_users].
  by rewrite (is_inst_intro _ _ Hi), Hv, Hk.
Qed.
Theorem perThread_taints : taints (λ _, false) (perThread F).
Proof.
  destruct sources_spec as (Hc & Hl & Hs). destruct (spread_closed (spread_fuel F) _ _ Hc) as [H1 H2].
  { unfold spread_fuel. pose proof insts_size. pose proof (subseteq_size _ _ (proj1 Hc)). lia. }
  apply taints_intro; [|done]. intros v Hv Hsv. apply H1. apply (proj1 (proj2 Hc)). by apply Hs.
Qed.
Theorem laneVarying_taints : taints (warpIndex F) (laneVarying F).
Proof.
  destruct sources_spec as (Hc & Hl & Hs).
  destruct (mark_all (rev (sources F).2) (∅, [])) as (E1 & new & E2 & Hnew & Hin & Hz).
  { intros v Hv%list_elem_of_In%in_rev%list_elem_of_In. apply (proj1 Hc). by apply (proj1 (proj2 Hc)). } { cbn; set_solver. }
  cbn in *. rewrite app_nil_r in E2. rewrite size_empty, Nat.add_0_r in Hz.
  assert ((fold_left mark (rev (sources F).2) (∅, [])).1 ⊆ all_insts) as Hsub.
  { rewrite E1. intros v [?|Hv%elem_of_list_to_set]%elem_of_union; [set_solver|]. apply list_elem_of_In, in_rev, list_elem_of_In in Hv. apply (proj1 Hc). by apply (proj1 (proj2 Hc)). }
  destruct (spread_closed (spread_fuel F) (warpIndex F) (fold_left mark (rev (sources F).2) (∅, []))) as [H1 H2].
  - split_and!; rewrite ?E1, ?E2.
    + by rewrite <- E1.
    + intros v Hv%Hnew. apply elem_of_union. right. by apply elem_of_list_to_set.
    + intros v [?|Hv%elem_of_list_to_set]%elem_of_union; [set_solver|]. left. destruct (Hin v Hv); [done|set_solver].
  - apply subseteq_size in Hsub. rewrite E2, Hz in *. unfold spread_fuel. pose proof insts_size. lia.
  - apply taints_intro; [|done]. intros v Hv Hsv. apply H1. rewrite E1. apply elem_of_union. right. apply elem_of_list_to_set.
    apply list_elem_of_In. rewrite <- in_rev. apply list_elem_of_In. by apply Hs.
Qed.
End taint.
