(* ===== verification/DevEvalThm.v ===== *)
(** The evaluator of addresses is sound (DevEval.v, DevEvalSem.v): its tables stay right, and the polynomial it
    returns has the value's value in every execution. *)
From S2P Require Import Prelude Expr Arena LlvmInt ArenaSem ArenaCmp TensorPoly DevEval DevEvalSem.
Open Scope Z_scope.

Section sound.
Context `{CmpInst} (F : Fn) (HF : fn_ok F) (X : Exec) (D : Val → Prop) (HX : lawful F X D).
Context (HD : ∀ v i u, D v → inst F v = Some i → u ∈ operands i → D u).

Local Abbreviation PT := (perThread F).
Local Abbreviation LV := (laneVarying F).

(** ** Meaning of the atoms *)
Definition atom_value (st : St) (m : Moment X) (i : Z) (a : nat) : Z :=
  match atomLoop st !! a with
  | Some (Some L) => count X m L
  | _ => match atomValue st !! a with Some (Some v) => val X m i v | _ => 0 end
  end.
(** an atom of the table that is the same in every lane, unless it is a phi of [S] *)
Definition good (S : gmap Val nat) (st : St) (a : nat) : Prop :=
  (a < length (atomValue st))%nat ∧
  ∀ v, atomLoop st !! a = Some None → atomValue st !! a = Some (Some v) → v ∈ laneVarying F → is_Some (S !! v).
(** the threads [j] a result for [v] in thread [i] holds for *)
Definition applies (i : Z) (v : Val) (j : Z) : Prop := D v ∧ (j = i ∨ v ∉ perThread F).
Definition means (S : gmap Val nat) (st : St) (i : Z) (v : Val) (p : Poly) : Prop :=
  pwf p ∧ (ok p = true → atoms_all (good S st) p ∧
    (∀ m j, applies i v j → peval (atom_value st m j) (t p) = val X m j v)).
Record inv (st : St) : Prop := {
  i_len : length (atomLoop st) = length (atomValue st);
  i_of v a : atomOf st !! v = Some a → atomValue st !! a = Some (Some v) ∧ atomLoop st !! a = Some None;
  i_iter L a : iterOf st !! L = Some a → atomLoop st !! a = Some (Some L);
  i_step v a : stepping st !! v = Some a → atomOf st !! v = Some a;
  i_uniform v p : uniformMemo st !! v = Some (Some p) → (v ∉ perThread F) ∧ ok p = true ∧ (∀ i, means ∅ st i v p);
  i_thread v i p : threadMemo st !! (v, i) = Some (Some p) → ok p = true ∧ means ∅ st i v p }.
(** the tables of atoms only grow *)
Definition grows (st st' : St) : Prop :=
  atomValue st `prefix_of` atomValue st' ∧ atomLoop st `prefix_of` atomLoop st' ∧
  ∀ v a, atomOf st !! v = Some a → atomOf st' !! v = Some a.
#[local] Instance grows_preorder : PreOrder grows.
Proof.
  split; [intros st; split_and!; done|]. intros s1 s2 s3 (P1&Q1&R1) (P2&Q2&R2). split_and!; [by etrans|by etrans|]. intros. auto.
Qed.
Lemma atom_value_grows st st' m i a : inv st → grows st st' → (a < length (atomValue st))%nat →
  atom_value st' m i a = atom_value st m i a.
Proof.
  intros Hi (HV & HL & _) Ha. unfold atom_value.
  assert (a < length (atomLoop st))%nat as Ha' by (rewrite (i_len _ Hi); done).
  apply lookup_lt_is_Some in Ha as [o Ho]. apply lookup_lt_is_Some in Ha' as [l Hl].
  by rewrite (prefix_lookup_Some _ _ _ _ Ho HV), (prefix_lookup_Some _ _ _ _ Hl HL), Ho, Hl.
Qed.
Lemma good_grows S st st' a : inv st → grows st st' → good S st a → good S st' a.
Proof.
  intros Hi (HV & HL & _) [Ha Hg]. pose proof Ha as Ha'. rewrite <- (i_len _ Hi) in Ha'. split; [apply prefix_length in HV; lia|].
  apply lookup_lt_is_Some in Ha as [o Ho]. apply lookup_lt_is_Some in Ha' as [l Hl].
  rewrite (prefix_lookup_Some _ _ _ _ Ho HV), (prefix_lookup_Some _ _ _ _ Hl HL). intros v [= ->] [= ->]. by apply Hg.
Qed.
Lemma means_grows S st st' i v p : inv st → grows st st' → means S st i v p → means S st' i v p.
Proof.
  intros Hi Hg [Hw Hm]. split; [done|]. intros [Ha Hv]%Hm. split; [eapply atoms_mono; [|exact Ha]; intros; by eapply good_grows|].
  intros m j Hj. rewrite <- (Hv m j Hj). apply atoms_peval. eapply atoms_mono; [|exact Ha]. intros a [? _]. by apply atom_value_grows.
Qed.

(** ** Steps *)
(** [m] keeps the tables right and the phis being stepped *)
Definition hoare {A} (m : E A) (st : St) (Q : A → St → Prop) : Prop :=
  inv (m st).2 ∧ grows st (m st).2 ∧ stepping (m st).2 = stepping st ∧ Q (m st).1 (m st).2.
Lemma hoare_ret {A} (x : A) st (Q : A → St → Prop) : inv st → Q x st → hoare (eret x) st Q.
Proof. intros. split_and!; done. Qed.
Lemma hoare_bind {A B} (m : E A) (f : A → E B) st Q R :
  hoare m st Q → (∀ x st', inv st' → grows st st' → stepping st' = stepping st → Q x st' → hoare (f x) st' R) → hoare (ebind m f) st R.
Proof.
  intros (Hi & Hg & Hs & HQ) Hf. unfold hoare, ebind. destruct (m st) as [x st']. cbn in *.
  destruct (Hf x st' Hi Hg Hs HQ) as (? & ? & ? & ?). split_and!; try done; [by etrans|congruence].
Qed.
Lemma hoare_mono {A} (m : E A) st (Q R : A → St → Prop) :
  hoare m st Q → (∀ x st', inv st' → grows st st' → stepping st' = stepping st → Q x st' → R x st') → hoare m st R.
Proof. intros (?&?&?&?) HR. split_and!; try done. auto. Qed.
(** what a result is: no polynomial, or one that means the value *)
Definition result (i : Z) (v : Val) (S : gmap Val nat) (r : option Poly) (st : St) : Prop :=
  ∀ p, r = Some p → means S st i v p.
Lemma hoare_or S (m : E (option Poly)) k f st Q (R : option Poly → St → Prop) :
  stepping st = S → hoare m st Q →
  (∀ st', inv st' → grows st st' → stepping st' = S → hoare k st' R) →
  (∀ p st', inv st' → grows st st' → stepping st' = S → Q (Some p) st' → hoare (f p) st' R) →
  hoare (eor (B := option Poly) m k f) st R.
Proof. intros HS Hm Hk Hf. eapply hoare_bind; [exact Hm|]. intros [p|] st' Hi Hg Hs HQ; [apply Hf|apply Hk]; by try congruence. Qed.

(** ** Atoms *)
Lemma inv_push st o l : inv st →
  ∀ oO iO, (∀ v a, oO !! v = Some a → (atomOf st !! v = Some a) ∨ (o = Some v ∧ l = None ∧ a = length (atomValue st))) →
  (∀ v a, atomOf st !! v = Some a → oO !! v = Some a) →
  (∀ L a, iO !! L = Some a → (iterOf st !! L = Some a) ∨ (l = Some L ∧ a = length (atomValue st))) →
  let st' := mkSt (atomValue st ++ [o]) (atomLoop st ++ [l]) oO iO (stepping st) (uniformMemo st) (threadMemo st) in
  inv st' ∧ grows st st'.
Proof.
  intros Hi oO iO HO HO' HI st'. assert (grows st st') as Hg by (split_and!; cbn; [by apply prefix_app_r|by apply prefix_app_r|done]).
  split; [|done]. split; cbn.
  - rewrite !length_app, (i_len _ Hi). done.
  - intros v a [Ha|(-> & -> & ->)]%HO.
    + destruct (i_of _ Hi _ _ Ha). split; by apply lookup_app_l_Some.
    + split; [by apply list_lookup_middle|]. rewrite <- (i_len _ Hi). by apply list_lookup_middle.
  - intros L a [Ha|(-> & ->)]%HI; [apply lookup_app_l_Some; by eapply i_iter|]. rewrite <- (i_len _ Hi). by apply list_lookup_middle.
  - intros v a Hs. apply HO'. by eapply i_step.
  - intros v p (?&?&Hm)%(i_uniform _ Hi). split_and!; try done. intros i. by eapply means_grows; [..|apply Hm].
  - intros v i p (?&Hm)%(i_thread _ Hi). split; [done|]. by eapply means_grows; [..|apply Hm].
Qed.
Lemma atomFor_hoare v st : inv st → hoare (atomFor v) st (λ a st', atomOf st' !! v = Some a).
Proof.
  intros Hi. unfold hoare, atomFor. destruct (atomOf st !! v) as [a|] eqn:E; [split_and!; done|]. cbn.
  destruct (inv_push st (Some v) None Hi (<[v := length (atomValue st)]> (atomOf st)) (iterOf st)) as [Hi' Hg].
  - intros u a [[<- <-]|[_ ?]]%lookup_insert_Some; auto.
  - intros u a Hu. rewrite lookup_insert_ne; [done|congruence].
  - auto.
  - split_and!; try done. cbn. apply lookup_insert_eq.
Qed.
Lemma iterFor_hoare L st : inv st → hoare (iterFor L) st (λ a st', iterOf st' !! L = Some a).
Proof.
  intros Hi. unfold hoare, iterFor. destruct (iterOf st !! L) as [a|] eqn:E; [split_and!; done|]. cbn.
  destruct (inv_push st None (Some L) Hi (atomOf st) (<[L := length (atomValue st)]> (iterOf st))) as [Hi' Hg].
  - auto.
  - auto.
  - intros u a [[<- <-]|[_ ?]]%lookup_insert_Some; auto.
  - split_and!; try done. cbn. apply lookup_insert_eq.
Qed.
Lemma atom_of_value st m j v a : inv st → atomOf st !! v = Some a → atom_value st m j a = val X m j v.
Proof. intros Hi [E1 E2]%(i_of _ Hi). unfold atom_value. by rewrite E1, E2. Qed.
Lemma atom_of_lt st v a : inv st → atomOf st !! v = Some a → (a < length (atomValue st))%nat.
Proof. intros Hi [E _]%(i_of _ Hi). by apply lookup_lt_Some in E. Qed.
Lemma atom_means S st i v a : inv st → atomOf st !! v = Some a → (v ∈ laneVarying F → is_Some (S !! v)) → means S st i v (atom a).
Proof.
  intros Hi Ha HS. split; [apply atom_wf|]. intros _. split.
  - apply atoms_atom. split; [by eapply atom_of_lt|]. destruct (i_of _ Hi _ _ Ha) as [E _]. intros u _ Hu Hl. rewrite E in Hu. injection Hu as ->. auto.
  - intros m j _. rewrite atom_peval. by apply atom_of_value.
Qed.
Lemma opaque_hoare i v S st : inv st → hoare (opaque LV v) st (result i v S).
Proof.
  intros Hi. unfold opaque. case_bool_decide as E; [by apply hoare_ret|]. eapply hoare_bind; [by apply atomFor_hoare|].
  intros a st' Hi' _ _ Ha. apply hoare_ret; [done|]. intros p [= <-]. apply atom_means; [done|done|]. intros. done.
Qed.

(** ** Instructions *)
(** a result the caller may use *)
Definition knows (S : gmap Val nat) (st : St) (i : Z) (v : Val) (p : Poly) : Prop := ok p = true ∧ means S st i v p.
Lemma knows_grows S st st' i v p : inv st → grows st st' → knows S st i v p → knows S st' i v p.
Proof. intros Hi Hg [Ho Hm]. split; [done|by eapply means_grows]. Qed.
Lemma knows_wf S st i v p : knows S st i v p → pwf p.
Proof. intros [_ [? _]]. done. Qed.
Lemma knows_atoms S st i v p : knows S st i v p → atoms_all (good S st) p.
Proof. intros [Ho [_ Hm]]. by apply Hm. Qed.
Lemma knows_val S st i v p m j : knows S st i v p → applies i v j → peval (atom_value st m j) (t p) = val X m j v.
Proof. intros [Ho [_ Hm]] Hj. by apply Hm. Qed.
Hint Resolve knows_wf knows_atoms : mvcc_poly.
(** the operands of a value in its threads *)
Lemma applies_operand i v ins u j : inst F v = Some ins → u ∈ operands ins →
  match ins with ICall _ _ | IAtomic _ | IOther _ => False | _ => True end → applies i v j → applies i u j.
Proof.
  intros Hv Hu Hk [Hd Hj]. split; [by eapply HD|]. destruct Hj as [->|Hj]; [by left|right]. intros Hin. apply Hj.
  destruct (isVoid F v) eqn:E; [exfalso; pose proof (f_void _ HF _ _ Hv E); by destruct ins|].
  by eapply (proj2 (perThread_taints F HF)).
Qed.
(** a polynomial made of results, exact while its flag is up *)
Lemma means_exact S st i v r o f :
  exact r o f → atoms_all (good S st) r → (∀ m j, applies i v j → f (atom_value st m j) = val X m j v) → means S st i v r.
Proof. intros [Hw He] Ha Hf. split; [done|]. intros [_ Hv]%He. split; [done|]. intros m j Hj. rewrite Hv. by apply Hf. Qed.
Lemma means_constant S st i v c : - 2 ^ 63 <= c < 2 ^ 63 → (∀ m j, applies i v j → val X m j v = c) → means S st i v (constant c).
Proof.
  intros Hc Hv. split; [by apply constant_wf|]. intros _. split; [apply atoms_constant|]. intros m j Hj. by rewrite constant_peval, Hv.
Qed.
Lemma knows_const S st i v p c m j : knows S st i v p → isConst p = Some c → applies i v j → val X m j v = c.
Proof. intros Hk [_ Hc]%isConst_peval Hj. by rewrite <- (knows_val _ _ _ _ _ m j Hk Hj), Hc. Qed.

(** a folded constant is the value *)
Lemma folded_value m j v op w dj a b r : 0 < w → w <= 64 → inst F v = Some (IBinary op (TInt w) dj a b) → D v →
  foldInt op w (val X m j a) (val X m j b) = Some r → val X m j v = r.
Proof.
  intros Hw Hw' Hv Hd Hr. destruct (llvm_binary op w (val X m j a mod 2 ^ w) (val X m j b mod 2 ^ w)) as [z|] eqn:Ez.
  - rewrite (foldInt_llvm _ _ _ _ z) in Hr by (done || lia). injection Hr as <-. by eapply l_binary.
  - exfalso. revert Hr. unfold foldInt. destruct (Z.leb_spec w 0), (Z.ltb_spec 64 w); try lia. cbn [orb].
    pose proof (l_defined _ _ _ HX m j _ _ _ _ _ _ Hd Hv) as Hdef.
    destruct op; cbn [llvm_binary option_map] in *; try done; repeat (case_match; try done); rewrite ?Z.ltb_lt, ?Z.leb_gt, ?Z.ltb_ge, ?Z.eqb_neq in *; try lia.
    all: destruct (Hdef ltac:(set_solver) ltac:(done)); done.
Qed.

Section body.
Context (i : Z) (Hi32 : 0 <= i < 2 ^ 32) (rec : Val → E (option Poly)).
Definition gives (S : gmap Val nat) (v : Val) (r : option Poly) (st : St) : Prop := ∀ p, r = Some p → knows S st i v p.
Context (Hrec : ∀ v st, inv st → hoare (rec v) st (gives (stepping st) v)).
Local Abbreviation res v st := (hoare v st).

(** a call for an operand: it fails and the value is opaque, or the rest goes on *)
Lemma sub_hoare S v u k st (f : Poly → E (option Poly)) :
  inv st → stepping st = S → k = opaque LV v →
  (∀ p st', inv st' → grows st st' → stepping st' = S → knows S st' i u p → hoare (f p) st' (result i v S)) →
  hoare (eor (B := option Poly) (rec u) k f) st (result i v S).
Proof.
  intros Hi HS -> Hf. eapply hoare_or; [exact HS|by apply Hrec|..].
  - intros. by apply opaque_hoare.
  - intros p st' Hi' Hg HS' Hp. apply Hf; try done. rewrite <- HS. by apply Hp.
Qed.
Lemma ret_means S v p st : inv st → means S st i v p → hoare (eret (Some p)) st (result i v S).
Proof. intros Hi Hm. apply hoare_ret; [done|]. by intros q [= <-]. Qed.
Lemma orelse_hoare S v u st : inv st → stepping st = S →
  (∀ m j, applies i v j → applies i u j ∧ val X m j u = val X m j v) →
  hoare (orelse (rec u) (opaque LV v)) st (result i v S).
Proof.
  intros Hi HS Hv. unfold orelse. apply (sub_hoare _ _ _ _ _ _ Hi HS); [done|]. intros p st' Hi' _ _ [Ho [Hw Hm]]. apply ret_means; [done|].
  split; [done|]. intros Ho'. destruct (Hm Ho') as [Ha He]. split; [done|]. intros m j Hj. destruct (Hv m j Hj) as [Hj' <-]. by apply He.
Qed.

Lemma call_hoare S v f args st : inv st → inst F v = Some (ICall f args) → hoare (raw_call LV i v f) st (result i v S).
Proof.
  intros Hi Hv. unfold raw_call.
  assert (∀ j, uniform_call f = false → applies i v j → j = i) as Hj.
  { intros j Hu [_ [?|Hn]]; [done|]. destruct Hn. apply (proj1 (perThread_taints F HF)); [apply (f_insts _ HF); by eapply is_inst_intro|].
    unfold source. by rewrite Hv, Hu. }
  destruct (String.eqb_spec (callee_name f) "llvm.nvvm.read.ptx.sreg.tid.x") as [E|]; [|destruct (String.eqb_spec (callee_name f) "llvm.nvvm.read.ptx.sreg.laneid") as [E|]; [|by apply opaque_hoare]].
  - apply ret_means; [done|]. apply means_constant; [lia|]. intros m j Ha. rewrite (l_tid _ _ _ HX _ _ _ _ _ Hv E). apply Hj; [|done].
    unfold uniform_call, callee_name in *. destruct f as [[]|]; [|done]. cbn in *. subst. cbn. by rewrite andb_false_r.
  - pose proof (Z.land_ones i 5 ltac:(lia)) as Hland. change (Z.ones 5) with 31 in Hland. pose proof (Z.mod_pos_bound i (2 ^ 5) ltac:(lia)).
    apply ret_means; [done|]. apply means_constant; [lia|]. intros m j Ha. rewrite (l_lane _ _ _ HX _ _ _ _ _ Hv E). f_equal. apply Hj; [|done].
    unfold uniform_call, callee_name in *. destruct f as [[]|]; [|done]. cbn in *. subst. cbn. by rewrite andb_false_r.
Qed.
Lemma binary_hoare S v op ty dj a b st : inv st → stepping st = S → inst F v = Some (IBinary op ty dj a b) →
  hoare (raw_binary LV rec v op ty dj a b) st (result i v S).
Proof.
  intros Hi HS Hv. unfold raw_binary. destruct ty as [w| | |]; try by apply opaque_hoare. destruct (Z.ltb_spec 64 w); [by apply opaque_hoare|].
  apply (sub_hoare _ _ _ _ _ _ Hi HS); [done|]. intros pa s1 Hi1 Hg1 HS1 Ha.
  apply (sub_hoare _ _ _ _ _ _ Hi1 HS1); [done|]. intros pb s2 Hi2 Hg2 HS2 Hb. apply (knows_grows _ _ _ _ _ _ Hi1 Hg2) in Ha.
  pose proof (f_binary _ HF _ _ _ _ _ _ Hv) as Hw.
  assert (∀ j, applies i v j → applies i a j ∧ applies i b j) as Hj.
  { intros j Hj. split; (eapply applies_operand; [exact Hv| |done|done]); cbn; set_solver. }
  assert (∀ x y, isConst pa = Some x → isConst pb = Some y → hoare
    match foldInt op w x y with Some r => eret (Some (constant r)) | None => opaque LV v end s2 (result i v S)) as Hfold.
  { intros x y Hx Hy. destruct (foldInt op w x y) as [r|] eqn:Er; [|by apply opaque_hoare]. apply ret_means; [done|].
    apply means_constant; [by eapply foldInt_range|]. intros m j Ha'. destruct (Hj j Ha') as [Hja Hjb].
    pose proof (knows_const _ _ _ _ _ _ m j Ha Hx Hja) as Ex. pose proof (knows_const _ _ _ _ _ _ m j Hb Hy Hjb) as Ey.
    rewrite <- Ex, <- Ey in Er. eapply folded_value; [done|done|exact Hv|apply Ha'|exact Er]. }
  destruct (isConst pa) as [x|] eqn:Ex, (isConst pb) as [y|] eqn:Ey; [by apply Hfold|..]; clear Hfold; destruct op; try by apply opaque_hoare.
  all: try (destruct dj; [|by apply opaque_hoare]).
  all: try (destruct ((0 <=? y) && (y <? 48)) eqn:Ey'; [|by apply opaque_hoare]; apply andb_true_iff in Ey' as [?%Z.leb_le ?%Z.ltb_lt]).
  all: apply ret_means; [done|]; eapply means_exact; [eauto using poly_add_exact, poly_sub_exact, poly_mul_exact, scaled_exact with mvcc_poly|eauto with mvcc_poly|].
  all: intros m j Hm; destruct (Hj j Hm) as [Hja Hjb]; pose proof (l_arith _ _ _ HX m j _ _ _ _ _ _ (proj1 Hm) Hv) as E; cbn in E |- *.
  all: rewrite ?(knows_val _ _ _ _ _ m j Ha Hja), ?(knows_val _ _ _ _ _ m j Hb Hjb).
  all: try by rewrite E.
  all: pose proof (knows_const _ _ _ _ _ _ m j Hb Ey Hjb) as Eb; rewrite Eb in E; rewrite E by done; rewrite Z.shiftl_1_l; done.
Qed.
Lemma convert_range op sw dw x : 0 < dw <= 64 → - 2 ^ 63 <= convert op sw dw x < 2 ^ 63.
Proof.
  intros Hd. unfold convert. pose proof (sext_range dw (match op with SExt => sext sw x | _ => x mod 2 ^ sw end) ltac:(lia)).
  pose proof (Z.pow_le_mono_r 2 (dw - 1) 63 ltac:(lia) ltac:(lia)). lia.
Qed.
Lemma convert_llvm op sw dw x r : 0 < sw → 0 < dw → is_intconv op = true → llvm_cast op sw dw (x mod 2 ^ sw) = Some r → sext dw r = convert op sw dw x.
Proof.
  intros Hs Hd Hop Hr. assert (∀ z, sext dw (z mod 2 ^ dw) = sext dw z) as Hm.
  { intros z. unfold sext. by rewrite Z.mod_mod by (apply Z.pow_nonzero; lia). }
  unfold convert. destruct op; try done; cbn in Hr; case_match; try done; injection Hr as <-; rewrite ?Hm; try done.
  unfold sext at 2. rewrite Z.mod_mod by (apply Z.pow_nonzero; lia). done.
Qed.
Lemma cast_hoare S v op src dst a st : inv st → stepping st = S → inst F v = Some (ICast op src dst a) →
  hoare (raw_cast LV rec v op src dst a) st (result i v S).
Proof.
  intros Hi HS Hv. unfold raw_cast. destruct (negb _); [by apply opaque_hoare|].
  apply (sub_hoare _ _ _ _ _ _ Hi HS); [done|]. intros pa s1 Hi1 Hg1 HS1 Ha.
  assert (∀ j, applies i v j → applies i a j) as Hj by (intros j Hj; eapply applies_operand; [exact Hv|cbn; set_solver|done|done]).
  assert (hoare match op with
    | ZExt | SExt | Trunc | PtrToInt | IntToPtr | AddrSpaceCast | BitCast => eret (Some pa) | _ => opaque LV v end s1 (result i v S)) as Hsym.
  { assert (op ∈ [ZExt; SExt; Trunc; PtrToInt; IntToPtr; AddrSpaceCast; BitCast] → hoare (eret (Some pa)) s1 (result i v S)) as Hk.
    { intros Hop. apply ret_means; [done|]. split; [eauto with mvcc_poly|]. intros _. split; [eauto with mvcc_poly|]. intros m j Hm.
      rewrite (knows_val _ _ _ _ _ m j Ha (Hj j Hm)). symmetry. eapply l_cast; [exact HX|apply Hm|exact Hv|done]. }
    destruct op; try (by apply opaque_hoare); apply Hk; set_solver. }
  destruct (isConst pa) as [x|] eqn:Ex; [|exact Hsym]. destruct (is_intconv op) eqn:Eop; [|exact Hsym].
  destruct src as [sw| | |]; try exact Hsym. destruct dst as [dw| | |]; try exact Hsym.
  destruct (Z.ltb_spec 64 sw), (Z.ltb_spec 64 dw); cbn [orb]; try by apply opaque_hoare.
  pose proof (f_convert _ HF _ _ _ _ _ Hv Eop) as [[Hsw Hdw] Hc].
  apply ret_means; [done|]. apply means_constant; [apply convert_range; lia|]. intros m j Hm.
  destruct (Hc (val X m j a mod 2 ^ sw)) as [r Hr]. rewrite (l_convert _ _ _ HX _ _ _ _ _ _ _ _ Hv Hr Eop).
  rewrite (convert_llvm _ sw _ (val X m j a)) by done. by rewrite (knows_const _ _ _ _ _ _ m j Ha Ex (Hj j Hm)).
Qed.
(** the value of the indices *)
Definition steps_val (m : Moment X) (j : Z) (steps : list GepStep) : Z :=
  foldr (λ s z, match s with GField off => off | GIndex idx _ size => val X m j idx * size end + z) 0 steps.
Lemma gep_hoare S v steps p st g :
  inv st → stepping st = S →
  Forall (λ s, match s with GField off => - 2 ^ 63 <= off < 2 ^ 63 | GIndex idx _ _ => ∀ j, applies i v j → applies i idx j end) steps →
  exact p true (λ ρ, peval ρ (t p)) → atoms_all (good S st) p →
  (∀ m j, applies i v j → ok p = true → peval (atom_value st m j) (t p) = g m j) →
  (∀ m j, applies i v j → val X m j v = g m j + steps_val m j steps) →
  hoare (raw_gep LV rec v steps p) st (result i v S).
Proof.
  intros Hi HS Hst. revert p st g Hi HS. induction Hst as [|s steps Hs Hst IH]; intros p st g Hi HS Hp Ha Hg Hv; cbn [raw_gep].
  - apply ret_means; [done|]. destruct Hp as [Hw _]. split; [done|]. intros Ho. split; [done|]. intros m j Hj. rewrite (Hv m j Hj). cbn. rewrite Hg by done. lia.
  - destruct s as [off|idx [|] size]; [| by apply opaque_hoare|].
    + pose proof (poly_add_exact p (constant off) (exact_wf _ _ _ Hp) (constant_wf _ Hs)) as Hx.
      apply (IH _ _ (λ m j, g m j + off)); try done.
      * by split; [eapply exact_wf|].
      * eauto with mvcc_poly.
      * intros m j Hj Ho. destruct (proj2 Hx Ho) as [Ho' E]. rewrite E, constant_peval, Hg; [done|done|]. cbn in Ho'. by apply andb_true_iff in Ho' as [? _].
      * intros m j Hj. rewrite (Hv m j Hj). unfold steps_val. cbn [foldr]. lia.
    + apply (sub_hoare _ _ _ _ _ _ Hi HS); [done|]. intros ip s1 Hi1 Hg1 HS1 Hk.
      pose proof (scaled_exact ip size (knows_wf _ _ _ _ _ Hk)) as Hsc.
      pose proof (poly_add_exact p (scaled ip size) (exact_wf _ _ _ Hp) (exact_wf _ _ _ Hsc)) as Hx.
      assert (atoms_all (good S s1) p) as Ha1 by (eapply atoms_mono; [|exact Ha]; intros x Hx0; exact (good_grows _ _ _ _ Hi Hg1 Hx0)).
      apply (IH _ _ (λ m j, g m j + val X m j idx * size)); try done.
      * by split; [eapply exact_wf|].
      * eauto with mvcc_poly.
      * intros m j Hj Ho. destruct (proj2 Hx Ho) as [[Ho1 Ho2]%andb_true_iff E]. destruct (proj2 Hsc Ho2) as [_ E2].
        rewrite E, E2, (knows_val _ _ _ _ _ m j Hk (Hs j Hj)). f_equal. rewrite <- (Hg m j Hj Ho1). apply atoms_peval.
        eapply atoms_mono; [|exact Ha]. intros a [? _]. by apply atom_value_grows.
      * intros m j Hj. rewrite (Hv m j Hj). unfold steps_val. cbn [foldr]. lia.
Qed.
Lemma gep_all_hoare S v p steps st : inv st → stepping st = S → inst F v = Some (IGep p steps) →
  hoare (get! pp := rec p else opaque LV v in raw_gep LV rec v steps pp) st (result i v S).
Proof.
  intros Hi HS Hv. apply (sub_hoare _ _ _ _ _ _ Hi HS); [done|]. intros pp s1 Hi1 Hg1 HS1 Ha.
  assert (∀ u j, u ∈ operands (IGep p steps) → applies i v j → applies i u j) as Hj.
  { intros u j Hu Hj. by eapply applies_operand; [exact Hv|..]. }
  eapply (gep_hoare _ _ _ _ _ (λ m j, val X m j p)); try done; eauto with mvcc_poly.
  - pose proof (f_gep _ HF _ _ _ Hv) as Hf. rewrite Forall_forall in Hf |- *. intros [off|idx vec size] Hs; [exact (Hf _ Hs)|].
    intros j. apply Hj. cbn. right. apply list_elem_of_bind. exists (GIndex idx vec size). split; [left|done].
  - split; [eauto with mvcc_poly|done].
  - intros m j Hm _. apply (knows_val _ _ _ _ _ m j Ha). apply Hj; [left|done].
  - intros m j Hm. eapply l_gep; [exact HX|apply Hm|exact Hv].
Qed.
Lemma select_hoare S v c a b st : inv st → stepping st = S → inst F v = Some (ISelect c a b) →
  hoare (raw_select LV rec v c a b) st (result i v S).
Proof.
  intros Hi HS Hv. unfold raw_select. apply (sub_hoare _ _ _ _ _ _ Hi HS); [done|]. intros pc s1 Hi1 Hg1 HS1 Hc.
  destruct (isConst pc) as [cv|] eqn:Ec; [|by apply opaque_hoare].
  apply orelse_hoare; [done|done|]. intros m j Hm.
  assert (∀ u, u ∈ [c; a; b] → applies i u j) as Hj by (intros u Hu; by eapply applies_operand; [exact Hv|..]).
  split; [apply Hj; destruct (cv =? 0); set_solver|]. rewrite (l_select _ _ _ HX _ _ _ _ _ _ Hv).
  by rewrite (knows_const _ _ _ _ _ _ m j Hc Ec) by (apply Hj; set_solver).
Qed.
Lemma icmp_hoare S v p ty a b st : inv st → stepping st = S → inst F v = Some (IICmp p ty a b) →
  hoare (raw_icmp LV rec v p ty a b) st (result i v S).
Proof.
  intros Hi HS Hv. unfold raw_icmp. pose proof (f_icmp _ HF _ _ _ _ _ Hv) as Hw.
  destruct (Z.eqb_spec (icmp_width ty) 0); [by apply opaque_hoare|]. destruct (64 <? icmp_width ty); [by apply opaque_hoare|]. cbn [orb].
  apply (sub_hoare _ _ _ _ _ _ Hi HS); [done|]. intros pa s1 Hi1 Hg1 HS1 Ha.
  apply (sub_hoare _ _ _ _ _ _ Hi1 HS1); [done|]. intros pb s2 Hi2 Hg2 HS2 Hb. apply (knows_grows _ _ _ _ _ _ Hi1 Hg2) in Ha.
  destruct (isConst pa) as [x|] eqn:Ex; [|by apply opaque_hoare]. destruct (isConst pb) as [y|] eqn:Ey; [|by apply opaque_hoare].
  apply ret_means; [done|]. apply means_constant; [case_match; lia|]. intros m j Hm.
  assert (∀ u, u ∈ [a; b] → applies i u j) as Hj by (intros u Hu; by eapply applies_operand; [exact Hv|..]).
  rewrite (l_icmp _ _ _ HX _ _ _ _ _ _ _ Hv) by lia.
  by rewrite (knows_const _ _ _ _ _ _ m j Ha Ex), (knows_const _ _ _ _ _ _ m j Hb Ey) by (apply Hj; set_solver).
Qed.

(** ** Phis *)
Definition with_stepping (st : St) (S : gmap Val nat) : St :=
  mkSt (atomValue st) (atomLoop st) (atomOf st) (iterOf st) S (uniformMemo st) (threadMemo st).
Lemma inv_stepping st S : inv st → (∀ v a, S !! v = Some a → atomOf st !! v = Some a) → inv (with_stepping st S).
Proof. intros [] HS. by split. Qed.
Lemma nonvariant_same st L a m m' j : inv st → earlier F X L m' m → variantIn F st L a = false →
  atom_value st m' j a = atom_value st m j a.
Proof.
  intros Hi (_ & Hv & Hc) Ha. unfold variantIn, atom_value in *. destruct (atomLoop st !! a) as [[AL|]|] eqn:El.
  - by apply Hc.
  - destruct (atomValue st !! a) as [[u|]|] eqn:Eu; try done. apply Hv. intros Hu. by rewrite Hu in Ha.
  - destruct (atomValue st !! a) as [[u|]|] eqn:Eu; try done. apply Hv. intros Hu. by rewrite Hu in Ha.
Qed.
Lemma loop_inputs_operands L inc nx ini : loop_inputs F L inc = Some (nx, ini) → nx ∈ inc.*1 ∧ ini ∈ inc.*1.
Proof.
  unfold loop_inputs. destruct inc as [|[v0 b0] [|[v1 b1] [|]]]; try done. repeat case_match; try done; intros [= <- <-]; cbn; set_solver.
Qed.
(** the value after [count] iterations *)
Lemma loop_value S S' st v L inc nx ini init next self :
  inv st → inst F v = Some (IPhi inc) → loopFor F (parent F v) = Some L → header F L = parent F v → loop_inputs F L inc = Some (nx, ini) →
  knows S st i ini init → knows S' st i nx next → atomOf st !! v = Some self →
  let step := (next - atom self)%tp in
  ok step = true → mentions (variantIn F st L) step = false →
  ∀ j, applies i v j → ∀ m, val X m j v = peval (atom_value st m j) (t init) + peval (atom_value st m j) (t step) * count X m L.
Proof.
  intros Hi Hv HL Hh Hin Hinit Hnext Hself step Ho Hm j Hj.
  destruct (loop_inputs_operands _ _ _ _ Hin) as [Hnx Hini].
  assert (∀ u, u ∈ inc.*1 → applies i u j) as Hop by (intros u Hu; by eapply applies_operand; [exact Hv|..]).
  assert (∀ m, peval (atom_value st m j) (t step) = val X m j nx - val X m j v) as Hstep.
  { intros m. destruct (poly_sub_exact next (atom self) (knows_wf _ _ _ _ _ Hnext) (atom_wf self)) as [_ He].
    rewrite (proj2 (He Ho)), atom_peval, (atom_of_value _ _ _ v) by done. by rewrite (knows_val _ _ _ _ _ m j Hnext) by auto. }
  assert (∀ n, 0 <= n → ∀ m, count X m L = n → val X m j v = peval (atom_value st m j) (t init) + peval (atom_value st m j) (t step) * n) as Hn.
  { intros n Hn. pattern n. apply natlike_ind; [| |done]; clear n Hn.
    - intros m Hc. destruct (l_loop _ _ _ HX m j v L inc nx ini) as (_ & _ & H0' & _); try done.
      rewrite H0' by done. rewrite (knows_val _ _ _ _ _ m j Hinit) by auto. lia.
    - intros n Hn IH m Hc. destruct (l_loop _ _ _ HX m j v L inc nx ini) as (Hout & _ & _ & Hpos); try done.
      destruct Hpos as (m' & He & ->); [lia|]. pose proof He as (Hc' & Hsame & _).
      specialize (IH m' ltac:(lia)). rewrite (knows_val _ _ _ _ _ m' j Hinit) in IH by auto. rewrite (Hsame ini j Hout) in IH.
      rewrite (knows_val _ _ _ _ _ m j Hinit) by auto.
      assert (peval (atom_value st m' j) (t step) = peval (atom_value st m j) (t step)) as E.
      { apply atoms_peval. eapply atoms_mono; [|apply (mentions_false _ _ Hm)]. intros a Ha. by eapply nonvariant_same. }
      pose proof (Hstep m'). rewrite E in *. lia. }
  intros m. destruct (l_loop _ _ _ HX m j v L inc nx ini) as (_ & Hc & _); try done. by apply Hn.
Qed.
Lemma with_phi_hoare S v u self st :
  inv st → stepping st = S → S !! v = None → atomOf st !! v = Some self →
  hoare (with_phi v self (rec u)) st (λ r st', ∀ p, r = Some p → knows (<[v := self]> S) st' i u p).
Proof.
  intros Hi HS Hnone Hself. set (s3 := with_stepping st (<[v := self]> S)).
  assert (inv s3) as Hi3.
  { apply inv_stepping; [done|]. intros x a [[<- <-]|[_ Hx]]%lookup_insert_Some; [done|]. apply (i_step _ Hi). by rewrite HS. }
  destruct (Hrec u s3 Hi3) as (Hi4 & Hg4 & HS4 & Hn). cbn in HS4.
  unfold hoare, with_phi. rewrite HS. unfold ebind, set_stepping. change (mkSt (atomValue st) (atomLoop st) (atomOf st) (iterOf st) (<[v:=self]> S) (uniformMemo st) (threadMemo st)) with s3.
  destruct (rec u s3) as [r s4]. cbn in *. rewrite delete_id by done.
  assert (inv (with_stepping s4 S)) as Hi5.
  { apply inv_stepping; [done|]. intros x a Hx. apply (i_step _ Hi4). rewrite HS4. apply lookup_insert_Some. right. split; [congruence|done]. }
  split_and!; try done.
Qed.
Lemma knows_stepping S st i' v p S' : knows S st i' v p → knows S (with_stepping st S') i' v p.
Proof. done. Qed.
Lemma phi_close_hoare S v L inc nx ini init next self st :
  inv st → stepping st = S → S !! v = None →
  inst F v = Some (IPhi inc) → loopFor F (parent F v) = Some L → header F L = parent F v → loop_inputs F L inc = Some (nx, ini) →
  knows S st i ini init → knows (<[v := self]> S) st i nx next → atomOf st !! v = Some self →
  hoare (phi_close F LV v L self init next) st (result i v S).
Proof.
  intros Hi HS Hnone Hv HL Hh Hin Hinit Hnext Hself. set (step := (next - atom self)%tp).
  unfold hoare, phi_close. fold step. cbv beta zeta. destruct (ok step && negb (mentions (variantIn F st L) step)) eqn:E; [|by apply opaque_hoare].
  apply andb_true_iff in E as [Ho Hm%negb_true_iff].
  change (hoare (ebind (iterFor L) (λ k, eret (Some (init + step * atom k)%tp))) st (result i v S)).
  pose proof (loop_value _ _ _ _ _ _ _ _ _ _ _ Hi Hv HL Hh Hin Hinit Hnext Hself Ho Hm) as Hval. fold step in Hval.
  assert (atoms_all (good S st) step) as Hgood.
  { assert (atoms_all (good (<[v := self]> S) st) step) as Hb.
    { apply atoms_poly_sub; [eauto with mvcc_poly|]. apply atoms_atom. split; [by eapply atom_of_lt|].
      intros x _ Hx _. destruct (i_of _ Hi _ _ Hself) as [Hx' _]. rewrite Hx in Hx'. injection Hx' as ->. rewrite lookup_insert_eq. done. }
    pose proof (mentions_false _ _ Hm) as Hnv. unfold atoms_all in *. rewrite Forall_forall in *. intros kv Hkv.
    specialize (Hb kv Hkv). specialize (Hnv kv Hkv). rewrite Forall_forall in *. intros a Ha. destruct (Hb a Ha) as [Hlt Hl]. split; [done|].
    intros x Hx1 Hx2 Hx3. specialize (Hl x Hx1 Hx2 Hx3). destruct (decide (x = v)) as [->|]; [|by rewrite lookup_insert_ne in Hl].
    exfalso. specialize (Hnv a Ha). unfold variantIn in Hnv. rewrite Hx1, Hx2 in Hnv. rewrite (is_inst_intro _ _ _ Hv), <- Hh in Hnv.
    by rewrite (f_header _ HF) in Hnv. }
  eapply hoare_bind; [by apply iterFor_hoare|]. cbn. intros k s' Hi' Hg' HS' Hk. apply ret_means; [done|].
  pose proof (poly_sub_exact next (atom self) (knows_wf _ _ _ _ _ Hnext) (atom_wf self)) as Hsub. fold step in Hsub.
  pose proof (poly_mul_exact step (atom k) (exact_wf _ _ _ Hsub) (atom_wf k)) as Hmul.
  pose proof (poly_add_exact init _ (knows_wf _ _ _ _ _ Hinit) (exact_wf _ _ _ Hmul)) as Hadd.
  pose proof (i_iter _ Hi' _ _ Hk) as Hkl.
  split; [by eapply exact_wf|]. intros Hok. destruct (proj2 Hadd Hok) as [[Ho1 Ho2]%andb_true_iff Ea]. destruct (proj2 Hmul Ho2) as [_ Em]. split.
  - apply atoms_poly_add; [|apply atoms_poly_mul].
    + eapply atoms_mono; [|eapply knows_atoms, Hinit]. intros x Hx. exact (good_grows _ _ _ _ Hi Hg' Hx).
    + eapply atoms_mono; [|exact Hgood]. intros x Hx. exact (good_grows _ _ _ _ Hi Hg' Hx).
    + apply atoms_atom. split; [|intros x Hx; congruence]. rewrite <- (i_len _ Hi'). by apply lookup_lt_Some in Hkl.
  - intros m j Hj. rewrite Ea, Em, atom_peval, (Hval j Hj m). unfold atom_value at 3. rewrite Hkl. f_equal; [|f_equal]; apply atoms_peval.
    + eapply atoms_mono; [|eapply knows_atoms, Hinit]. intros x [Hx _]. by apply atom_value_grows.
    + eapply atoms_mono; [|exact Hgood]. intros x [Hx _]. by apply atom_value_grows.
Qed.
Lemma phi_hoare S v inc st : inv st → stepping st = S → inst F v = Some (IPhi inc) → hoare (phi F LV rec v inc) st (result i v S).
Proof.
  intros Hi HS Hv. unfold hoare, phi. destruct (stepping st !! v) as [a|] eqn:Es.
  { split_and!; try done. intros p [= <-]. apply atom_means; [done|by apply (i_step _ Hi)|]. intros _. rewrite <- HS. by eexists. }
  rewrite HS in Es. change (hoare (if negb (merges inc)
       then match inc with (v0, _) :: _ => orelse (rec v0) (opaque LV v) | [] => opaque LV v end
       else match loopFor F (parent F v) with
            | Some L =>
                if (header F L =? parent F v)%nat then
                  match loop_inputs F L inc with Some (nx, ini) => phi_loop F LV rec v L nx ini | None => opaque LV v end
                else opaque LV v
            | None => opaque LV v
            end) st (result i v S)).
  destruct (merges inc) eqn:Em; cbn [negb].
  - destruct (loopFor F (parent F v)) as [L|] eqn:EL; [|by apply opaque_hoare].
    destruct (Nat.eqb_spec (header F L) (parent F v)) as [Hh|]; [|by apply opaque_hoare].
    destruct (loop_inputs F L inc) as [[nx ini]|] eqn:Ein; [|by apply opaque_hoare].
    apply (sub_hoare _ _ _ _ _ _ Hi HS); [done|]. intros init s1 Hi1 Hg1 HS1 Hinit.
    eapply hoare_bind; [by apply atomFor_hoare|]. cbn. intros self s2 Hi2 Hg2 HS2 Hself. rewrite HS1 in HS2.
    eapply hoare_or; [exact HS2|by apply with_phi_hoare|intros; by apply opaque_hoare|]. cbn. intros next s3 Hi3 Hg3 HS3 Hnext.
    eapply phi_close_hoare; try done.
    + eapply knows_grows; [exact Hi1|by etrans|done].
    + by apply Hnext.
    + by apply Hg3.
  - destruct inc as [|[v0 b0] inc]; [by apply opaque_hoare|]. apply orelse_hoare; [done|done|]. intros m j Hj. split.
    + eapply applies_operand; [exact Hv|cbn; left|done|done].
    + symmetry. by eapply l_same.
Qed.

(** ** The evaluator *)
Lemma raw_hoare v st : inv st → hoare (raw F LV i rec v) st (result i v (stepping st)).
Proof.
  intros Hi. unfold raw. destruct (inst F v) as [ins|] eqn:Hv; [|by apply opaque_hoare].
  destruct ins; try by apply opaque_hoare.
  - by apply phi_hoare.
  - by eapply call_hoare.
  - by apply binary_hoare.
  - by apply cast_hoare.
  - by apply gep_all_hoare.
  - by apply select_hoare.
  - by apply icmp_hoare.
  - apply orelse_hoare; [done|done|]. intros m j Hj. split; [eapply applies_operand; [exact Hv|cbn; left|done|done]|].
    symmetry. by eapply l_freeze.
Qed.
Lemma checked_result S v r st : result i v S r st → gives S v (checked r) st.
Proof. intros Hr p. unfold checked. destruct r as [q|]; [|done]. destruct (ok q) eqn:E; [|done]. intros [= <-]. split; [done|by apply Hr]. Qed.
Lemma set_memo_hoare v r st : inv st → stepping st = ∅ → gives ∅ v r st →
  hoare (set_memo i (bool_decide (v ∈ perThread F)) v r) st (λ _ st', gives ∅ v r st').
Proof.
  intros Hi HS Hr. unfold hoare, set_memo. cbn. assert (∀ j p, v ∉ perThread F → r = Some p → means ∅ st j v p) as Hall.
  { intros j p Hn Hp. destruct (Hr p Hp) as [Ho [Hw Hm]]. split; [done|]. intros _. destruct (Hm Ho) as [Ha Hv]. split; [done|].
    intros m k [Hd _]. apply Hv. split; [done|by right]. }
  split_and!; try done. destruct Hi as [Hi1 Hi2 Hi3 Hi4 Hi5 Hi6]. split; cbn; try done.
  - intros u p. case_bool_decide as E; [apply Hi5|]. intros [[<- Hp]|[_ Hp]]%lookup_insert_Some; [|by apply Hi5].
    split_and!; [done|by apply Hr|]. intros j. by apply Hall.
  - intros u j p. case_bool_decide as E; [|apply Hi6]. intros [[[= <- <-] Hp]|[_ Hp]]%lookup_insert_Some; [|by apply Hi6].
    by apply Hr.
Qed.
Lemma memo_hoare v st : inv st →
  hoare (λ st,
      let thread := bool_decide (v ∈ perThread F) in
      let memo := bool_decide (stepping st = ∅) in
      match (if memo then memo_hit i thread v st else None) with
      | Some r => (r, st)
      | None =>
          ebind (raw F LV i rec v) (λ r, ebind (if memo then set_memo i thread v (checked r) else eret tt)
                                    (λ _, eret (checked r))) st
      end) st (gives (stepping st) v).
Proof.
  intros Hi. unfold hoare. cbv beta zeta.
  destruct (if bool_decide (stepping st = ∅) then memo_hit i (bool_decide (v ∈ perThread F)) v st else None) as [r|] eqn:E.
  - split_and!; try done. cbn. intros p ->. case_bool_decide as HS; [|done]. cbn. rewrite HS. unfold memo_hit in E. case_bool_decide.
    + apply (i_thread _ Hi) in E as [? ?]. done.
    + apply (i_uniform _ Hi) in E as (_ & ? & Hm). split; [done|apply Hm].
  - change (hoare (ebind (raw F LV i rec v) (λ r, ebind (if bool_decide (stepping st = ∅) then set_memo i (bool_decide (v ∈ perThread F)) v (checked r) else eret tt)
                                    (λ _, eret (checked r)))) st (gives (stepping st) v)).
    clear E. eapply hoare_bind; [by apply raw_hoare|]. intros r s1 Hi1 Hg1 HS1 Hr. apply checked_result in Hr.
    eapply (hoare_bind _ _ _ (λ _, gives (stepping st) v (checked r))); [|intros; by apply hoare_ret].
    case_bool_decide as HS; [|by apply hoare_ret]. rewrite HS in *. by apply set_memo_hoare.
Qed.
Lemma go_body_hoare v st : inv st → hoare (go_body F PT LV i rec v) st (gives (stepping st) v).
Proof.
  intros Hi. unfold go_body. destruct (def F v) as [w c| | | | |ins] eqn:Hd.
  - destruct (Z.ltb_spec 64 w); apply hoare_ret; try done. intros p [= <-].
    pose proof (f_int _ HF _ _ _ Hd ltac:(lia)). split; [unfold constant; by destruct (c =? 0)|].
    apply means_constant; [done|]. intros m j _. by eapply l_int.
  - apply hoare_ret; [done|]. intros p [= <-]. split; [done|]. split; [by repeat constructor|]. intros _. split; [constructor|].
    intros m j _. symmetry. by eapply l_null.
  - by apply memo_hoare.
  - by apply memo_hoare.
  - by apply memo_hoare.
  - by apply memo_hoare.
Qed.
End body.
Lemma go_hoare n i v st : 0 <= i < 2 ^ 32 → inv st → hoare (go F PT LV n i v) st (gives i (stepping st) v).
Proof.
  intros Hi32. revert v st. induction n as [|n IH]; intros v st Hi; cbn [go]; [by apply hoare_ret|]. by apply go_body_hoare.
Qed.
Lemma st0_inv : inv st0.
Proof. split; try done; intros *; cbn; rewrite lookup_empty; done. Qed.
Lemma newWarp_hoare st : inv st → hoare newWarp st (λ _ _, True).
Proof. intros []. by split_and!. Qed.
Lemma eval_hoare i v st : 0 <= i < 2 ^ 32 → inv st → hoare (eval F PT LV v i) st (gives i (stepping st) v).
Proof.
  intros Hi32 Hi. eapply hoare_bind; [by apply go_hoare|]. intros r st' Hi' _ HS Hr. apply hoare_ret; [done|].
  intros p Hp. apply Hr. unfold checked in Hp. destruct r as [q|]; [|done]. by destruct (ok q).
Qed.
End sound.
