(* ===== verification/DevEvalRun.v ===== *)
(** Runs of the evaluator of addresses (DevEval.v): what a sequence of evaluations returns, and a kernel on which
    it is evaluated. *)
From S2P Require Import Prelude Expr Arena LlvmInt ArenaSem ArenaCmp TensorPoly DevEval DevEvalSem DevEvalThm.
Open Scope Z_scope.

Section runs.
Context `{CmpInst} (F : Fn) (HF : fn_ok F).
(** evaluations of values in threads, one after the other *)
Fixpoint evals (reqs : list (Val * Z)) : E (list (option Poly)) :=
  match reqs with
  | [] => eret []
  | (v, i) :: reqs =>
      ebind (eval F (perThread F) (laneVarying F) v i) (λ r, ebind (evals reqs) (λ rs, eret (r :: rs)))
  end.
(** an atom that is the same in every lane of a warp, as far as [taint] tells *)
Definition uniform_atom (st : St) (a : nat) : Prop :=
  (a < length (atomValue st))%nat ∧
  match atomLoop st !! a, atomValue st !! a with
  | Some None, Some (Some v) => v ∉ laneVarying F
  | _, _ => True
  end.
Context (X : Exec) (D : Val → Prop) (HX : lawful F X D) (HD : ∀ v i u, D v → inst F v = Some i → u ∈ operands i → D u).
Lemma evals_hoare reqs st : inv F X D st → stepping st = ∅ → Forall (λ vi, 0 <= vi.2 < 2 ^ 32) reqs →
  hoare F X D (evals reqs) st (λ rs st', Forall2 (λ vi r, ∀ p, r = Some p → knows F X D ∅ st' vi.2 vi.1 p) reqs rs).
Proof.
  intros Hi HS Hr. revert st Hi HS. induction Hr as [|[v i] reqs Hv Hr IH]; intros st Hi HS; cbn [evals]; [by apply hoare_ret|].
  eapply hoare_bind; [by apply eval_hoare|]. intros r s1 Hi1 Hg1 HS1 Hk. eapply hoare_bind; [apply IH; [done|congruence]|].
  intros rs s2 Hi2 Hg2 HS2 Hks. apply hoare_ret; [done|]. constructor; [|done]. intros p Hp. eapply knows_grows; [exact Hi1|exact Hg2|].
  rewrite <- HS. by apply Hk.
Qed.
(** [C15] The evaluator is sound: whatever was evaluated before, a polynomial it returns for a value in a thread has the
    value's value at every moment of every execution whose arithmetic on the address does not wrap, loops
    included, and is made of atoms that no lane of the warp disagrees on. *)
Theorem evaluation_sound reqs k v i p rs st (Hrun : evals reqs st0 = (rs, st)) (Hreqs : Forall (λ vi, 0 <= vi.2 < 2 ^ 32) reqs)
    (Hk : reqs !! k = Some (v, i)) (Hp : rs !! k = Some (Some p)) :
  ok p = true ∧ normal (t p) ∧ atoms_all (uniform_atom st) p ∧
  (D v → ∀ m, peval (atom_value X st m i) (t p) = val X m i v).
Proof.
  destruct (evals_hoare reqs st0 (st0_inv F X D) eq_refl Hreqs) as (_ & _ & _ & Hall). rewrite Hrun in Hall. cbn in Hall.
  destruct (Forall2_lookup_l _ _ _ _ _ Hall Hk) as (r & Hr & Hkn). rewrite Hp in Hr. injection Hr as <-. specialize (Hkn p eq_refl). cbn in Hkn.
  split_and!.
  - apply Hkn.
  - by destruct (knows_wf _ _ _ _ _ _ _ _ Hkn).
  - eapply atoms_mono; [|eapply knows_atoms, Hkn]. intros a [Ha Hg]. split; [done|]. repeat case_match; try done. intros Hv.
    destruct (Hg _ eq_refl eq_refl Hv) as [? E]. by rewrite lookup_empty in E.
  - intros Hd m. apply (knows_val _ _ _ _ _ _ _ _ m i Hkn). split; [done|by left].
Qed.
End runs.

(** ** A kernel: the A fragment of a matrix with a row pitch from an argument, in a loop over columns *)
Definition demo_defs : list Def :=
  let i32 := TInt 32 in
  [DArgument; DArgument; DInst (ICall (Some (mkCallee "llvm.nvvm.read.ptx.sreg.tid.x" true true false)) []);
   DInt 32 31; DInst (IBinary And i32 false 2 3);                     (* 4: lane *)
   DInt 32 2; DInst (IBinary LShr i32 false 4 5);                     (* 6: g *)
   DInt 32 3; DInst (IBinary And i32 false 4 7);                      (* 8: t *)
   DInst (IBinary Mul i32 false 6 1);                                 (* 9: g * pitch *)
   DInt 32 1; DInst (IBinary Shl i32 false 8 10);                     (* 11: 2 t *)
   DInst (IPhi [(13, 0); (14, 1)]%nat); DInt 32 0;                    (* 12: the column of the step *)
   DInst (IBinary Add i32 false 12 15); DInt 32 16;
   DInst (IBinary Add i32 false 9 11); DInst (IBinary Add i32 false 16 12);
   DInt 32 8; DInst (IBinary Mul i32 false 18 1);
   DInst (IBinary Add i32 false 17 19); DInst (IBinary Add i32 false 17 18); DInst (IBinary Add i32 false 20 18);
   DInst (IGep 0 [GIndex 17 false 2]); DInst (IGep 0 [GIndex 20 false 2]); DInst (IGep 0 [GIndex 21 false 2]); DInst (IGep 0 [GIndex 22 false 2]);
   DInst (ILoad true i32 23); DInst (ILoad true i32 24); DInst (ILoad true i32 25); DInst (ILoad true i32 26);
   DInst (IBinary Add i32 false 17 15); DInst (IBinary Add i32 false 20 15); DInst (IBinary Add i32 false 21 15); DInst (IBinary Add i32 false 22 15);
   DInst (IGep 0 [GIndex 31 false 2]); DInst (IGep 0 [GIndex 32 false 2]); DInst (IGep 0 [GIndex 33 false 2]); DInst (IGep 0 [GIndex 34 false 2]);
   DInst (ILoad true i32 35); DInst (ILoad true i32 36); DInst (ILoad true i32 37); DInst (ILoad true i32 38)]%nat.
Definition demo_inst (v : Val) : option Inst := match demo_defs !! v with Some (DInst i) => Some i | _ => None end.
Definition demo_fn : Fn := {|
  def v := default DOther (demo_defs !! v);
  insts := filter (λ v, is_Some (demo_inst v)) (seq 0 43);
  users u := filter (λ v, u ∈ default [] (operands <$> demo_inst v)) (seq 0 43);
  isVoid _ := false;
  parent v := if bool_decide (v ∈ [2; 4; 6; 8; 9; 11; 16; 19]%nat) then 0%nat else 1%nat;
  loopFor b := if (b =? 1)%nat then Some 0%nat else None;
  header _ := 1%nat;
  inLoop _ b := (b =? 1)%nat;
  loopIn _ _ := true;
  space3 _ := false;
  underlying v := if bool_decide (v ∈ [23; 24; 25; 26; 35; 36; 37; 38]%nat) then 0%nat else v |}.
(** iterations of the loop: four *)
Definition demo_val (m : nat) (i : Z) (v : Val) : Z :=
  let k := 16 * Z.of_nat (m mod 4) in
  let lane := Z.land i 31 in
  let g := Z.shiftr lane 2 in
  let c := Z.land lane 3 in
  let at_ := g * 64 + 2 * c + k in
  default 0 ([4096; 64; i; 31; lane; 2; g; 3; c; g * 64; 1; 2 * c; k; 0; k + 16; 16; g * 64 + 2 * c; at_; 8; 512; at_ + 512; at_ + 8; at_ + 520;
     4096 + at_ * 2; 4096 + (at_ + 512) * 2; 4096 + (at_ + 8) * 2; 4096 + (at_ + 520) * 2; 0; 0; 0; 0;
     at_ + 16; at_ + 528; at_ + 24; at_ + 536; 4096 + (at_ + 16) * 2; 4096 + (at_ + 528) * 2; 4096 + (at_ + 24) * 2; 4096 + (at_ + 536) * 2] !! v).
Definition demo_exec : Exec := mkExec nat demo_val (λ m _, Z.of_nat (m mod 4)).
Lemma lane_range i : 0 <= Z.land i 31 < 32.
Proof. change 31 with (Z.ones 5). rewrite Z.land_ones by lia. apply Z.mod_pos_bound. lia. Qed.
(** each value of the demo in turn *)
Lemma demo_cases (P : Val → Prop) : Forall P (seq 0 43) → (∀ v, P (43 + v)%nat) → ∀ v, P v.
Proof.
  intros H1 H2 v. destruct (decide (v < 43)%nat); [|replace v with (43 + (v - 43))%nat by lia; apply H2].
  rewrite Forall_forall in H1. apply H1. apply elem_of_seq. lia.
Qed.
Ltac each_value v := pattern v; revert v; apply demo_cases; [cbn [seq]; repeat (apply Forall_cons; split; [try discriminate|]); [..|apply Forall_nil; done]|try discriminate].
Lemma in_width w op a b r z : 0 < w → llvm_binary op w (a mod 2 ^ w) (b mod 2 ^ w) = Some r → - 2 ^ (w - 1) <= z < 2 ^ (w - 1) →
  r = z mod 2 ^ w → z = sext w r.
Proof. intros Hw _ Hz ->. symmetry. unfold sext. rewrite Z.mod_mod by (apply Z.pow_nonzero; lia). by apply sext_id. Qed.
Lemma demo_fn_inst v : inst demo_fn v = demo_inst v.
Proof. unfold inst, demo_inst. cbn [def demo_fn]. by destruct (demo_defs !! v) as [[]|]. Qed.
Lemma demo_fn_ok : fn_ok demo_fn.
Proof.
  split.
  - intros v w c. cbn [def demo_fn]. each_value v; intros [= <- <-] _; lia.
  - intros v. each_value v; intros _; apply (bool_decide_unpack _); vm_compute; exact I.
  - intros v i u. rewrite demo_fn_inst. each_value v; intros [= <-] Hu; apply list_elem_of_filter;
      (split; [exact Hu|apply (bool_decide_unpack _); vm_compute; exact I]).
  - done.
  - intros v op w dj a b. rewrite demo_fn_inst. each_value v; intros [= <- <- <- <- <-]; lia.
  - intros v op sw dw a. rewrite demo_fn_inst. each_value v.
  - intros v p steps. rewrite demo_fn_inst. each_value v; intros [= <- <-]; repeat constructor.
  - intros v p ty a b. rewrite demo_fn_inst. each_value v.
  - done.
Qed.
(** an operation that does not leave its width *)
Lemma exact_binary w op a b r z : 0 < w → llvm_binary op w (a mod 2 ^ w) (b mod 2 ^ w) = Some r → - 2 ^ (w - 1) <= z < 2 ^ (w - 1) →
  match op with
  | Add => z = a + b
  | Mul => z = a * b
  | Shl => 0 <= b < w ∧ w < 2 ^ w ∧ z = a * 2 ^ b
  | LShr => 0 <= b < w ∧ w < 2 ^ w ∧ 0 <= a < 2 ^ w ∧ z = Z.shiftr a b
  | And => z = Z.land a b
  | _ => False
  end → z = sext w r.
Proof.
  intros Hw Hr Hz Hop. pose proof (Z.pow_pos_nonneg 2 w ltac:(lia) ltac:(lia)) as Hp.
  assert (r mod 2 ^ w = z mod 2 ^ w) as E.
  { destruct op; try done; cbn in Hr.
    - injection Hr as <-. subst z. rewrite <- !Z.land_ones by lia. apply Z.bits_inj'. intros n Hn. rewrite !Z.land_spec.
      destruct (Z.ltb_spec n w); [rewrite Z.ones_spec_low by lia|rewrite Z.ones_spec_high by lia]; by rewrite ?andb_true_r, ?andb_false_r.
    - injection Hr as <-. subst z. rewrite Z.mod_mod by lia. symmetry. apply Zplus_mod.
    - injection Hr as <-. subst z. rewrite Z.mod_mod by lia. symmetry. apply Zmult_mod.
    - destruct Hop as (Hb & Hww & ->). rewrite (Z.mod_small b) in Hr by lia. destruct (Z.ltb_spec b w); [|lia]. injection Hr as <-.
      rewrite Z.mod_mod, Z.shiftl_mul_pow2 by lia. by rewrite Z.mul_mod_idemp_l by lia.
    - destruct Hop as (Hb & Hww & Ha & ->). rewrite (Z.mod_small b), (Z.mod_small a) in Hr by lia. destruct (Z.ltb_spec b w); [|lia]. by injection Hr as <-. }
  rewrite <- (sext_id w z) at 1 by done. unfold sext. by rewrite E.
Qed.
Lemma demo_ranges i m : 0 <= Z.land i 31 < 32 ∧ 0 <= Z.shiftr (Z.land i 31) 2 < 8 ∧ 0 <= Z.land (Z.land i 31) 3 < 4 ∧ 0 <= Z.of_nat (m mod 4) < 4.
Proof.
  pose proof (lane_range i). rewrite Z.shiftr_div_pow2 by lia. change 3 with (Z.ones 2). rewrite (Z.land_ones _ 2) by lia.
  pose proof (Z.mod_pos_bound (Z.land i 31) (2 ^ 2) ltac:(lia)). pose proof (Nat.mod_upper_bound m 4 ltac:(lia)).
  change (2 ^ 2) with 4 in *. split_and!; try lia; [apply Z.div_pos; lia|apply Z.div_lt_upper_bound; lia].
Qed.
Lemma step_before m : (0 < m mod 4)%nat → ((m - 1) mod 4 = m mod 4 - 1)%nat.
Proof.
  intros Hm. pose proof (Nat.div_mod m 4 ltac:(lia)). pose proof (Nat.mod_upper_bound m 4 ltac:(lia)).
  symmetry. apply (Nat.mod_unique _ 4 (m / 4)); lia.
Qed.
Lemma demo_lawful : lawful demo_fn demo_exec (λ _, True).
Proof.
  split.
  all: intros m i v; pose proof (demo_ranges i m) as (R1 & R2 & R3 & R4).
  all: try change (Moment demo_exec) with nat in m.

  - intros w c. cbn [def demo_fn]. each_value v; intros [= <- <-]; reflexivity.
  - cbn [def demo_fn]. each_value v.
  - intros f args. try rewrite demo_fn_inst. each_value v; intros [= <- <-] _. reflexivity.
  - intros f args. try rewrite demo_fn_inst. each_value v; intros [= <- <-]; discriminate.
  - intros op w dj a b r. try rewrite demo_fn_inst. each_value v; intros [= <- <- <- <- <-] Hr; (eapply exact_binary; [|exact Hr|..]); cbn; try lia.
  - intros op w dj a b _. try rewrite demo_fn_inst. each_value v; intros [= <- <- <- <- <-]; cbn; try lia.
  - intros op w dj a b _. try rewrite demo_fn_inst. each_value v; intros [= <- <- <- <- <-]; intros Hop; exfalso; set_solver.
  - intros op sw dw a r. try rewrite demo_fn_inst. each_value v.
  - intros op src dst a _. try rewrite demo_fn_inst. each_value v.
  - intros p steps _. try rewrite demo_fn_inst. each_value v; intros [= <- <-]; cbn; lia.
  - intros c a b. try rewrite demo_fn_inst. each_value v.
  - intros p ty a b. try rewrite demo_fn_inst. each_value v.
  - intros a. try rewrite demo_fn_inst. each_value v.
  - intros v0 b0 inc. try rewrite demo_fn_inst. each_value v; intros [= <- <- <-]; discriminate.
  - intros L inc nx ini. try rewrite demo_fn_inst. each_value v; intros [= <-] [= <-] _ [= <- <-].
    split_and!; cbn [count demo_exec].
    + by intros ?.
    + lia.
    + intros Hm. cbn -[Nat.modulo]. by rewrite Hm.
    + intros Hm. exists (m - 1)%nat. pose proof (step_before m ltac:(lia)) as E. split.
      * split_and!; cbn [count demo_exec].
        -- lia.
        -- intros u j. each_value u; intros Hu; try reflexivity; by specialize (Hu eq_refl).
        -- done.
      * cbn -[Nat.modulo]. lia.
Qed.

Lemma demo_uniform : warp_uniform demo_fn demo_exec.
Proof.
  intros S H1 H2 m v i j.
  assert (2 ∈ S)%nat as S2 by (apply H1; [apply (bool_decide_unpack _); vm_compute; exact I|reflexivity]).
  assert (∀ v ins u, inst demo_fn v = Some ins → warpIndex demo_fn v = false → u ∈ S → bool_decide (u ∈ operands ins) = true → v ∈ S) as Hs.
  { intros u ins x Hu Hw Hx Ho. apply bool_decide_eq_true in Ho. by eapply H2. }
  assert (∀ v ins u, u ∈ S → inst demo_fn v = Some ins → warpIndex demo_fn v = false → bool_decide (u ∈ operands ins) = true → v ∈ S) as Hn by eauto.
  pose proof (Hn 4 _ 2 S2 eq_refl eq_refl eq_refl)%nat as S4. pose proof (Hn 6 _ 4 S4 eq_refl eq_refl eq_refl)%nat as S6.
  pose proof (Hn 8 _ 4 S4 eq_refl eq_refl eq_refl)%nat as S8. pose proof (Hn 9 _ 6 S6 eq_refl eq_refl eq_refl)%nat as S9.
  pose proof (Hn 11 _ 8 S8 eq_refl eq_refl eq_refl)%nat as S11. pose proof (Hn 16 _ 9 S9 eq_refl eq_refl eq_refl)%nat as S16.
  pose proof (Hn 17 _ 16 S16 eq_refl eq_refl eq_refl)%nat as S17. pose proof (Hn 20 _ 17 S17 eq_refl eq_refl eq_refl)%nat as S20.
  pose proof (Hn 21 _ 17 S17 eq_refl eq_refl eq_refl)%nat as S21. pose proof (Hn 22 _ 20 S20 eq_refl eq_refl eq_refl)%nat as S22.
  pose proof (Hn 31 _ 17 S17 eq_refl eq_refl eq_refl)%nat as S31. pose proof (Hn 32 _ 20 S20 eq_refl eq_refl eq_refl)%nat as S32.
  pose proof (Hn 33 _ 21 S21 eq_refl eq_refl eq_refl)%nat as S33. pose proof (Hn 34 _ 22 S22 eq_refl eq_refl eq_refl)%nat as S34.
  pose proof (Hn 23 _ 17 S17 eq_refl eq_refl eq_refl)%nat. pose proof (Hn 24 _ 20 S20 eq_refl eq_refl eq_refl)%nat.
  pose proof (Hn 25 _ 21 S21 eq_refl eq_refl eq_refl)%nat. pose proof (Hn 26 _ 22 S22 eq_refl eq_refl eq_refl)%nat.
  pose proof (Hn 35 _ 31 S31 eq_refl eq_refl eq_refl)%nat. pose proof (Hn 36 _ 32 S32 eq_refl eq_refl eq_refl)%nat.
  pose proof (Hn 37 _ 33 S33 eq_refl eq_refl eq_refl)%nat. pose proof (Hn 38 _ 34 S34 eq_refl eq_refl eq_refl)%nat.
  clear H1 H2 Hs Hn. each_value v; intros Hv Hij; try reflexivity; by destruct Hv.
Qed.

(** the address of the third word in thread 37 (lane 5: row 1, column 2) *)
Definition demo_reqs : list (Val * Z) := [(17%nat, 0); (25%nat, 37)].
Lemma evaluation_sound_witness :
  ∃ p, (evals demo_fn demo_reqs st0).1 !! 1%nat = Some (Some p) ∧ ok p = true ∧
    ∀ m, peval (atom_value demo_exec (evals demo_fn demo_reqs st0).2 m 37) (t p) = demo_val m 37 25.
Proof.
  eexists. split; [vm_compute; reflexivity|].
  edestruct (evaluation_sound demo_fn demo_fn_ok demo_exec (λ _, True) demo_lawful ltac:(done) demo_reqs 1 25%nat 37) as (Ho & _ & _ & Hv).
  - apply surjective_pairing.
  - repeat constructor; cbn; lia.
  - reflexivity.
  - vm_compute. reflexivity.
  - split; [exact Ho|]. intros m. by apply Hv.
Defined.

(** ** A truth value extended with and without its sign *)
Definition bool_fn : Fn := {|
  def v := default DOther ([DArgument; DInst (ICast ZExt (TInt 1) (TInt 32) 0); DInst (ICast SExt (TInt 1) (TInt 32) 0)]%nat !! v);
  insts := [1; 2]%nat;
  users u := match u with O => [1; 2]%nat | _ => [] end;
  isVoid _ := false;
  parent _ := 0%nat;
  loopFor _ := None;
  header _ := 0%nat;
  inLoop _ _ := true;
  loopIn _ _ := true;
  space3 _ := false;
  underlying v := v |}.
(** The evaluator takes every extension of a symbolic value for the value: the zero and the sign extension of one [i1]
    are one polynomial, and are 1 and -1 when it is true. *)
Theorem bool_extensions_confused :
  (∃ p, (evals bool_fn [(1%nat, 0); (2%nat, 0)] st0).1 = [Some p; Some p] ∧ samePoly p p = true) ∧
  sext 32 <$> llvm_cast ZExt 1 32 1 = Some 1 ∧ sext 32 <$> llvm_cast SExt 1 32 1 = Some (-1).
Proof. split; [|done]. eexists. split; vm_compute; reflexivity. Qed.
