(* ===== verification/DevBlocks.v ===== *)
(** Fragments in memory (cpp/mvcc-llvm/tensor_recovery.cpp: [memoryOf], [KernelRecovery::proveDeviceBlocks] and
    the tile test [devOpWhy] of [buildGrids]): a block of four words per lane, built by 32-bit loads, is handed
    to the matrix multiplication as an origin and a row pitch when its loads are the fragment of one row-major
    tile in every warp.

    The words' addresses come from the evaluator (DevEval.v), whose tables live from one block to the next. *)
From S2P Require Import Prelude Cstd Expr Arena LlvmInt ArenaSem ArenaCmp TensorPoly DevEval.
Open Scope Z_scope.

(** ** Blocks and their consumers *)
(** [LdRec], what this part reads of it; blocks are known by their position *)
Record Ld := mkLd { reg : bool; kind : Z; solo : bool; regWords : list Val }.
Record Mma := mkMma { mok : bool; mtype : Z; aSrc : list nat; bSrc : list nat }.
(** what is proven of a block: [devShared], [devBase], [devLd] *)
Record Proven := mkProven { devShared : bool; devBase : list Poly; devLd : list Poly }.

Section blocks.
Context `{CmpInst} (F : Fn).
(** device memory (0), a shared object (1), or neither *)
Definition memoryOf (ptr : Val) : Z :=
  let obj := underlying F ptr in
  if space3 F ptr || space3 F obj then match def F obj with DGlobal => 1 | _ => -1 end
  else
    let obj := match inst F obj with
               | Some (ICast IntToPtr _ _ a) =>
                   match inst F a with Some (IExtractElement vec _) => vec | _ => obj end
               | _ => obj
               end in
    match def F obj with DArgument | DInst (ILoad _ _ _) => 0 | _ => -1 end.

(** the element type of each block, -1 when its consumers differ *)
Definition meet_type (ty : Z) (m : gmap nat Z) (l : nat) : gmap nat Z :=
  match m !! l with None => <[l := ty]> m | Some t => if t =? ty then m else <[l := -1]> m end.
Definition typeOf (mmas : list Mma) : gmap nat Z :=
  fold_left (λ m mp, if mok mp then fold_left (meet_type (mtype mp)) (aSrc mp ++ bSrc mp) m else m) mmas ∅.

(** ** Candidates *)
(** the memory of the words, the same for all; [inr why] *)
Fixpoint words_space (space : Z) (ws : list Val) : Z + string :=
  match ws with
  | [] => inl space
  | w :: ws =>
      match inst F w with
      | Some (ILoad true (TInt 32) p) =>
          let s := memoryOf p in
          if s <? 0 then inr "a word's memory is neither behind a kernel argument or loaded pointer nor a shared object"%string
          else if (0 <=? space) && negb (s =? space) then inr "its words are in different memories"%string
          else words_space s ws
      | _ => inr "a word is not a plain 32-bit load"%string
      end
  end.
(** a block whose element type is [ty], with whether it lies in shared memory *)
Record Cand := mkCand { c_ld : nat; c_kind : Z; c_type : Z; c_words : list Val; c_shared : bool }.
Definition candidate (types : gmap nat Z) (k : nat) (l : Ld) : option Cand :=
  if negb (reg l) then None else
  match types !! k with
  | Some ty =>
      if solo l || negb (length (regWords l) =? 4)%nat || (ty <? 0) then None else
      match words_space (-1) (regWords l) with
      | inl space => Some (mkCand k (kind l) ty (regWords l) (space =? 1))
      | inr _ => None
      end
  | None => None
  end.
Definition candidates (mmas : list Mma) (lds : list Ld) : list Cand :=
  omap (λ kl, candidate (typeOf mmas) kl.1 kl.2) (zip (seq 0 (length lds)) lds).

(** ** One warp *)
Definition pointer_of (w : Val) : Val := match inst F w with Some (ILoad _ _ p) => p | _ => w end.
(** [for (...) if (...) { ...; break; }] over calls of the evaluator *)
Fixpoint emap {A B} (f : A → E (option B)) (l : list A) : E (option (list B)) :=
  match l with
  | [] => eret (Some [])
  | x :: l => get! y := f x else eret None in get! ys := emap f l else eret None in eret (Some (y :: ys))
  end.
(** what the evaluator is made with *)
Context (PT LV : gset Val).
Definition lanes : list Z := seqZ 0 32.
(** [addr]: by lane, by word *)
Definition addresses (w : Z) (c : Cand) : E (option (list (list Poly))) :=
  emap (λ l, emap (λ r, eval F PT LV (pointer_of r) (32 * w + l)) (c_words c)) lanes.
Definition esize (ty : Z) : Z := if 2 <=? ty then 1 else 2.
Definition half (ty : Z) : Z := if 2 <=? ty then 16 else 8.
(** the row and the column of word [r] of lane [l] *)
Definition frag_row (c : Cand) (l r : Z) : Z :=
  let g := Z.shiftr l 2 in if c_kind c =? 0 then g + 8 * Z.land r 1 else g + 8 * Z.shiftr r 1.
Definition frag_col (c : Cand) (l r : Z) : Z :=
  let kw := Z.quot 4 (esize (c_type c)) in
  let t := Z.land l 3 in
  if c_kind c =? 0 then kw * t + half (c_type c) * Z.shiftr r 1 else kw * t + half (c_type c) * Z.land r 1.
Definition at_tile (c : Cand) (base pitch : Poly) (l r : Z) (a : Poly) : bool :=
  let es := esize (c_type c) in
  samePoly a (base + scaled pitch (frag_row c l r * es) + constant (frag_col c l r * es))%tp.
Definition fragment (c : Cand) (base pitch : Poly) (addr : list (list Poly)) : bool :=
  forallb (λ la, forallb (λ ra, at_tile c base pitch la.1 ra.1 ra.2) (zip (seqZ 0 4) la.2)) (zip lanes addr).
(** origin and row pitch; the division by 1 or 2 cannot overflow *)
Definition prove_warp (w : Z) (c : Cand) : E (option (Poly * Poly)) :=
  get! addr := addresses w c else eret None in
  eret match addr !! 0%nat ≫= (.!! 0%nat), addr !! 4%nat ≫= (.!! 0%nat) with
       | Some base, Some next =>
           match divExact (next - base)%tp (esize (c_type c)) with
           | Some (Some pitch) => if fragment c base pitch addr then Some (base, pitch) else None
           | _ => None
           end
       | _, _ => None
       end.

(** ** All warps: a candidate that fails in one warp is dropped *)
Definition Progress : Type := Cand * option (list (Poly * Poly)).
Fixpoint each_cand (w : Z) (cs : list Progress) : E (list Progress) :=
  match cs with
  | [] => eret []
  | (c, Some done) :: cs =>
      ebind (prove_warp w c) (λ r, ebind (each_cand w cs) (λ cs',
      eret ((c, match r with Some bp => Some (done ++ [bp]) | None => None end) :: cs')))
  | (c, None) :: cs => ebind (each_cand w cs) (λ cs', eret ((c, None) :: cs'))
  end.
Fixpoint each_warp (ws : list Z) (cs : list Progress) : E (list Progress) :=
  match ws with
  | [] => eret cs
  | w :: ws => ebind newWarp (λ _, ebind (each_cand w cs) (each_warp ws))
  end.
Definition proven (cp : Progress) : option (Cand * Proven) :=
  match cp with
  | (c, Some bps) => Some (c, mkProven (c_shared c) bps.*1 bps.*2)
  | (_, None) => None
  end.
End blocks.
(** [T]: the threads of a block, 0 when the kernel has no bound *)
Definition proveDeviceBlocks `{CmpInst} (F : Fn) (T : Z) (mmas : list Mma) (lds : list Ld) : list (Cand * Proven) :=
  let cands := candidates F mmas lds in
  if (length cands =? 0)%nat || (T =? 0) || negb (T mod 32 =? 0) then []
  else
    let PT := perThread F in
    let LV := laneVarying F in
    omap proven (each_warp F PT LV (seqZ 0 (T / 32)) ((λ c, (c, Some [])) <$> cands) st0).1.

(** ** The blocks of one matrix multiplication *)
Section tile.
Context (es kstep : Z).
(** the block is [row] block rows and [lv] k-steps from the first, in every warp *)
Definition block_at (p0 p : Proven) (row lv : Z) : bool :=
  forallb (λ k, match devBase p0 !! k, devLd p0 !! k, devBase p !! k, devLd p !! k with
                | Some b0, Some l0, Some b, Some l =>
                    samePoly b (b0 + scaled l0 (16 * row * es) + constant (kstep * lv * es))%tp && samePoly l l0
                | _, _, _, _ => false
                end) (seq 0 (length (devBase p0))).
(** the operands of the multiplications of an op, by block row, by n8 tile, by k-step *)
Definition OpGrid : Type := list (list (list (Proven * Proven))).
Definition cell_ok (a0 b0 : Proven) (mt nt lv : nat) (ab : Proven * Proven) : bool :=
  let '(a, b) := ab in
  (length (devBase a) =? length (devBase a0))%nat && (length (devBase b) =? length (devBase a0))%nat
  && Bool.eqb (devShared a) (devShared a0) && Bool.eqb (devShared b) (devShared b0)
  && block_at a0 a (Z.of_nat mt) (Z.of_nat lv) && block_at b0 b (Z.of_nat (nt / 2)) (Z.of_nat lv).
Definition tiles_ok (m : OpGrid) : bool :=
  match m with
  | (((a0, b0) :: _) :: _) :: _ =>
      forallb (λ i_x, forallb (λ j_y, forallb (λ k_z, cell_ok a0 b0 i_x.1 j_y.1 k_z.1 k_z.2)
        (imap pair j_y.2)) (imap pair i_x.2)) (imap pair m)
  | _ => false
  end.
End tile.
