(* ===== verification/DevBlocksThm.v ===== *)
(** The fragments [proveDeviceBlocks] accepts (DevBlocks.v) are what it says: in every execution, in every warp,
    the loads of the block read the fragment of one row-major tile, and the blocks of one matrix multiplication
    are one tile. *)
From S2P Require Import Prelude Cstd Expr Arena LlvmInt ArenaSem ArenaCmp TensorPoly DevEval DevEvalSem DevEvalThm DevEvalRun DevBlocks.
Open Scope Z_scope.

Section proven.
Context `{CmpInst} (F : Fn) (HF : fn_ok F) (X : Exec) (D : Val → Prop) (HX : lawful F X D).
Context (HD : ∀ v i u, D v → inst F v = Some i → u ∈ operands i → D u).
Local Abbreviation PT := (perThread F).
Local Abbreviation LV := (laneVarying F).
Local Abbreviation inv := (inv F X D).
Local Abbreviation hoare := (hoare F X D).
Local Abbreviation knows := (knows F X D).
Local Abbreviation good := (good F).
Local Abbreviation atom_value := (atom_value X).

(** ** What is known of a block in one warp *)
(** a polynomial of atoms every lane of a warp agrees on *)
Definition shared_poly (st : St) (p : Poly) : Prop := pwf p ∧ ok p = true ∧ atoms_all (good ∅ st) p.
Definition located (w : Z) (c : Cand) (st : St) (bp : Poly * Poly) : Prop :=
  shared_poly st bp.1 ∧ shared_poly st bp.2 ∧
  ∀ l r word m, 0 <= l < 32 → c_words c !! r = Some word → D (pointer_of F word) → length (c_words c) = 4%nat →
    let i := 32 * w + l in
    val X m i (pointer_of F word) = peval (atom_value st m i) (t bp.1) +
      (frag_row c l (Z.of_nat r) * peval (atom_value st m i) (t bp.2) + frag_col c l (Z.of_nat r)) * esize (c_type c).
Lemma shared_grows st st' p : inv st → grows st st' → shared_poly st p → shared_poly st' p.
Proof. intros Hi Hg (?&?&Ha). split_and!; try done. eapply atoms_mono; [|exact Ha]. intros a. by eapply good_grows. Qed.
Lemma shared_value st st' p m i : inv st → grows st st' → shared_poly st p →
  peval (atom_value st' m i) (t p) = peval (atom_value st m i) (t p).
Proof. intros Hi Hg (?&?&Ha). apply atoms_peval. eapply atoms_mono; [|exact Ha]. intros a [? _]. by eapply atom_value_grows. Qed.
Lemma located_grows w c st st' bp : inv st → grows st st' → located w c st bp → located w c st' bp.
Proof.
  intros Hi Hg (Hb & Hp & Hv). split_and!; [by eapply shared_grows|by eapply shared_grows|]. intros l r word m Hl Hr Hd H4.
  cbn. rewrite !(shared_value st st') by done. by apply Hv.
Qed.
Lemma knows_shared st i v p : knows ∅ st i v p → shared_poly st p.
Proof. intros Hk. split_and!; [by eapply knows_wf|apply Hk|by eapply knows_atoms]. Qed.
(** lanes of a warp *)
Lemma shared_lanes st p m i j : warp_uniform F X → inv st → shared_poly st p → i / 32 = j / 32 →
  peval (atom_value st m i) (t p) = peval (atom_value st m j) (t p).
Proof.
  intros Hu Hi (_ & _ & Ha) Hij. apply atoms_peval. eapply atoms_mono; [|exact Ha]. intros a [_ Hg]. unfold DevEvalThm.atom_value.
  destruct (atomLoop st !! a) as [[L|]|] eqn:EL; [done| |].
  - destruct (atomValue st !! a) as [[v|]|] eqn:EV; try done. destruct (laneVarying_taints F HF) as [H1 H2].
    apply (Hu (laneVarying F)); [done|done| |done]. intros Hv. destruct (Hg v eq_refl eq_refl Hv) as [? E]. by rewrite lookup_empty in E.
  - destruct (atomValue st !! a) as [[v|]|] eqn:EV; try done. exfalso. apply lookup_lt_Some in EV. rewrite <- (i_len _ _ _ _ Hi) in EV.
    apply lookup_lt_is_Some in EV as [? E]. congruence.
Qed.

(** ** One warp *)
Lemma emap_hoare {A B} (Q : A → B → St → Prop) (f : A → E (option B)) l st :
  (∀ x y st st', inv st → grows st st' → Q x y st → Q x y st') →
  (∀ x st, x ∈ l → inv st → stepping st = ∅ → hoare (f x) st (λ r st', ∀ y, r = Some y → Q x y st')) →
  inv st → stepping st = ∅ → hoare (emap f l) st (λ r st', ∀ ys, r = Some ys → Forall2 (λ x y, Q x y st') l ys).
Proof.
  intros HQ. revert st. induction l as [|x l IH]; intros st Hf Hi HS; cbn [emap].
  { apply hoare_ret; [done|]. by intros ys [= <-]. }
  eapply hoare_bind; [apply Hf; [left|done|done]|]. cbn. intros [y|] s1 Hi1 Hg1 HS1 Hy; [|by apply hoare_ret].
  eapply hoare_bind; [apply IH; [intros; apply Hf; [by right|done|done]|done|congruence]|]. cbn. intros [ys|] s2 Hi2 Hg2 HS2 Hys; [|by apply hoare_ret].
  apply hoare_ret; [done|]. intros ? [= <-]. constructor; [|by apply Hys]. eapply HQ; [exact Hi1|exact Hg2|]. by apply Hy.
Qed.
Lemma addresses_hoare w c st : 0 <= w → 32 * w + 32 <= 2 ^ 32 → inv st → stepping st = ∅ →
  hoare (addresses F PT LV w c) st (λ r st', ∀ addr, r = Some addr →
    Forall2 (λ l row, Forall2 (λ word p, knows ∅ st' (32 * w + l) (pointer_of F word) p) (c_words c) row) lanes addr).
Proof.
  intros Hw Hw' Hi HS. apply emap_hoare; [|intros l s1 Hl Hi1 HS1; apply emap_hoare; [| |done|done]|done|done].
  - intros l row s1 s2 Hi1 Hg Hr. eapply Forall2_impl; [exact Hr|]. intros word p. by apply knows_grows.
  - intros word p s2 s3 Hi2 Hg. by apply knows_grows.
  - intros word s2 _ Hi2 HS2. unfold lanes in Hl. apply elem_of_seqZ in Hl. eapply hoare_mono; [apply eval_hoare; [done..|lia|done]|].
    cbn. intros r s3 _ _ _ Hr p Hp. rewrite HS2 in Hr. by apply Hr.
Qed.
Lemma esize_pos ty : esize ty ≠ 0 ∧ - 2 ^ 63 <= esize ty < 2 ^ 63 ∧ (esize ty = 1 ∨ esize ty = 2).
Proof. unfold esize. destruct (2 <=? ty); split_and!; auto; lia. Qed.
Lemma frag_col_range c l r : 0 <= l < 32 → 0 <= r < 4 → 0 <= frag_col c l r * esize (c_type c) < 256.
Proof.
  intros Hl Hr. unfold frag_col, half, esize.
  assert (0 <= Z.land l 3 < 4) by (change 3 with (Z.ones 2); rewrite Z.land_ones by lia; apply Z.mod_pos_bound; lia).
  assert (0 <= Z.land r 1 < 2) by (change 1 with (Z.ones 1); rewrite Z.land_ones by lia; apply Z.mod_pos_bound; lia).
  assert (0 <= Z.shiftr r 1 < 2) by (rewrite Z.shiftr_div_pow2 by lia; change (2 ^ 1) with 2; split; [apply Z.div_pos; lia|apply Z.div_lt_upper_bound; lia]).
  destruct (2 <=? c_type c); change (4 `quot` 1) with 4; change (4 `quot` 2) with 2; destruct (c_kind c =? 0); lia.
Qed.
(** the value of a sum of an origin, rows and columns *)
Lemma tile_value b p x y v : pwf b → pwf p → - 2 ^ 63 <= y < 2 ^ 63 → let q := (b + scaled p x + constant y)%tp in
  ok q = true → peval v (t q) = peval v (t b) + peval v (t p) * x + y.
Proof.
  intros Hb Hp Hy q Ho. pose proof (scaled_exact p x Hp) as Hs. pose proof (poly_add_exact b _ Hb (exact_wf _ _ _ Hs)) as Ha.
  pose proof (poly_add_exact _ (constant y) (exact_wf _ _ _ Ha) (constant_wf _ Hy)) as Hq.
  destruct (proj2 Hq Ho) as [[Ho1 _]%andb_true_iff E]. destruct (proj2 Ha Ho1) as [[_ Ho2]%andb_true_iff E1]. destruct (proj2 Hs Ho2) as [_ E2].
  subst q. by rewrite E, E1, E2, constant_peval.
Qed.
Lemma lanes_lookup l : 0 <= l < 32 → lanes !! Z.to_nat l = Some l.
Proof. intros Hl. unfold lanes. rewrite lookup_seqZ. lia. Qed.
Lemma fragment_at c b p addr l r row a : fragment c b p addr = true → 0 <= l < 32 → addr !! Z.to_nat l = Some row →
  row !! r = Some a → (r < 4)%nat → at_tile c b p l (Z.of_nat r) a = true.
Proof.
  unfold fragment. rewrite forallb_forall. intros Hf Hl Hrow Ha Hr. specialize (Hf (l, row)).
  rewrite forallb_forall in Hf. cbn in Hf. apply (Hf ltac:(apply list_elem_of_In, list_elem_of_lookup; exists (Z.to_nat l); apply lookup_zip_Some; split; [by apply lanes_lookup|done]) (Z.of_nat r, a)).
  apply list_elem_of_In, list_elem_of_lookup. exists r. apply lookup_zip_Some. split; [|done]. rewrite lookup_seqZ. lia.
Qed.
Lemma prove_warp_hoare w c st : 0 <= w → 32 * w + 32 <= 2 ^ 32 → inv st → stepping st = ∅ →
  hoare (prove_warp F PT LV w c) st (λ r st', ∀ bp, r = Some bp → located w c st' bp).
Proof.
  intros Hw Hw' Hi HS. eapply hoare_bind; [by apply addresses_hoare|]. cbn. intros [addr|] s1 Hi1 Hg1 HS1 Hk; [|by apply hoare_ret].
  apply hoare_ret; [done|]. intros [b p]. specialize (Hk addr eq_refl).
  assert (∀ l row, addr !! l = Some row → (l < 32)%nat ∧ Forall2 (λ word p, knows ∅ s1 (32 * w + Z.of_nat l) (pointer_of F word) p) (c_words c) row) as Hrow.
  { intros l row Hl. destruct (Forall2_lookup_r _ _ _ _ _ Hk Hl) as (l' & Hl' & Hr). unfold lanes in Hl'. apply lookup_seqZ in Hl' as [-> ?].
    split; [lia|]. by rewrite Z.add_0_l in Hr. }
  assert (∀ l a, addr !! l ≫= (.!! 0%nat) = Some a → shared_poly s1 a) as Hfirst.
  { intros l a. destruct (addr !! l) as [row|] eqn:El; [|done]. cbn. intros Ha. destruct (Hrow _ _ El) as [_ Hr].
    destruct (Forall2_lookup_r _ _ _ _ _ Hr Ha) as (word & _ & Hkn). by eapply knows_shared. }
  destruct (addr !! 0%nat ≫= (.!! 0%nat)) as [base|] eqn:Eb; [|done]. destruct (addr !! 4%nat ≫= (.!! 0%nat)) as [next|] eqn:En; [|done].
  destruct (Hfirst _ _ Eb) as (Hwb & Hob & Hab). destruct (Hfirst _ _ En) as (Hwn & Hon & Han).
  pose proof (poly_sub_exact next base Hwn Hwb) as Hsub.
  destruct (divExact (next - base)%tp (esize (c_type c))) as [[pitch|]|] eqn:Ed; [|done..].
  destruct (divExact_spec _ _ _ (exact_wf _ _ _ Hsub) Ed) as (_ & Hop & Hwp & _ & Hap).
  destruct (fragment c base pitch addr) eqn:Ef; [|done]. intros [= <- <-]. split_and!; cbn.
  - done.
  - split_and!; [done|done|]. apply Hap. by apply atoms_poly_sub.
  - intros l r word m Hl Hr Hd H4. pose proof (lookup_lt_Some _ _ _ Hr) as Hr4. rewrite H4 in Hr4.
    destruct (Forall2_lookup_l _ _ _ _ _ Hk (lanes_lookup l Hl)) as (row & Hrow' & Hws).
    destruct (Forall2_lookup_l _ _ _ _ _ Hws Hr) as (a & Ha & Hka).
    pose proof (fragment_at _ _ _ _ _ _ _ _ Ef Hl Hrow' Ha Hr4) as Hat. unfold at_tile in Hat.
    destruct (samePoly_peval _ _ Hat) as (_ & Hoq & Hv).
    rewrite <- (knows_val _ _ _ _ _ _ _ _ m (32 * w + l) Hka) by (split; [done|by left]). rewrite Hv.
    pose proof (frag_col_range c l (Z.of_nat r) Hl ltac:(lia)). rewrite tile_value by (done || lia). lia.
Qed.

(** ** All warps *)
Definition progress_ok (k : nat) (st : St) (cp : Progress) : Prop :=
  ∀ bps, cp.2 = Some bps → length bps = k ∧ ∀ w bp, bps !! w = Some bp → located (Z.of_nat w) cp.1 st bp.
Lemma progress_grows k st st' cp : inv st → grows st st' → progress_ok k st cp → progress_ok k st' cp.
Proof. intros Hi Hg Hp bps E. destruct (Hp bps E) as [? Hl]. split; [done|]. intros w bp Hw. eapply located_grows; [done|done|by apply Hl]. Qed.
Lemma each_cand_hoare k cs st : 32 * Z.of_nat k + 32 <= 2 ^ 32 → inv st → stepping st = ∅ → Forall (progress_ok k st) cs →
  hoare (each_cand F PT LV (Z.of_nat k) cs) st (λ cs' st', cs'.*1 = cs.*1 ∧ Forall (progress_ok (S k) st') cs').
Proof.
  intros Hk. revert st. induction cs as [|[c [bps|]] cs IH]; intros st Hi HS Hcs; cbn [each_cand]; [by apply hoare_ret|..];
    apply Forall_cons in Hcs as [Hc Hcs].
  - eapply hoare_bind; [apply prove_warp_hoare; [lia|done..]|]. cbn. intros r s1 Hi1 Hg1 HS1 Hr.
    eapply hoare_bind; [apply IH; [done|congruence|]|].
    { eapply Forall_impl; [exact Hcs|]. intros cp. by apply progress_grows. }
    cbn. intros cs' s2 Hi2 Hg2 HS2 [Hf Hcs']. apply hoare_ret; [done|]. split; [cbn; by f_equal|]. constructor; [|done].
    intros bps'. cbn. destruct r as [bp|]; [|done]. intros [= <-]. destruct (Hc bps eq_refl) as [Hlen Hl]. rewrite length_app. cbn. split; [lia|].
    intros w bp' [Hw|[Hge Hw]]%lookup_app_Some.
    + eapply located_grows; [exact Hi1|exact Hg2|]. eapply located_grows; [exact Hi|exact Hg1|]. by apply Hl.
    + apply list_lookup_singleton_Some in Hw as [Hw <-]. replace w with k by lia. eapply located_grows; [exact Hi1|exact Hg2|]. by apply Hr.
  - eapply hoare_bind; [by apply IH|]. cbn. intros cs' s2 Hi2 Hg2 HS2 [Hf Hcs']. apply hoare_ret; [done|]. split; [cbn; by f_equal|]. by constructor.
Qed.
Lemma each_warp_hoare n k cs st : 32 * Z.of_nat (k + n) <= 2 ^ 32 → inv st → stepping st = ∅ → Forall (progress_ok k st) cs →
  hoare (each_warp F PT LV (seqZ (Z.of_nat k) (Z.of_nat n)) cs) st (λ cs' st', cs'.*1 = cs.*1 ∧ Forall (progress_ok (k + n) st') cs').
Proof.
  revert k cs st. induction n as [|n IH]; intros k cs st Hk Hi HS Hcs.
  { rewrite Nat.add_0_r. by apply hoare_ret. }
  rewrite seqZ_cons by lia. cbn [each_warp]. replace (Z.succ (Z.of_nat k)) with (Z.of_nat (S k)) by lia. replace (Z.pred (Z.of_nat (S n))) with (Z.of_nat n) by lia.
  eapply hoare_bind; [by apply newWarp_hoare|]. intros _ s1 Hi1 Hg1 HS1 _.
  eapply hoare_bind; [apply (each_cand_hoare k cs); [lia|done|congruence|]|].
  { eapply Forall_impl; [exact Hcs|]. intros cp. by apply progress_grows. }
  intros cs' s2 Hi2 Hg2 HS2 [Hf Hcs']. eapply hoare_mono; [apply IH; [lia|done|congruence|done]|].
  intros cs'' s3 _ _ _ [Hf' Hcs'']. split; [congruence|]. by rewrite Nat.add_succ_r.
Qed.
(** every block proven is located in every warp, in one final state *)
Lemma proven_located T mmas lds : 0 <= T < 2 ^ 32 → ∃ st, inv st ∧
  ∀ c p, (c, p) ∈ proveDeviceBlocks F T mmas lds → c ∈ candidates F mmas lds ∧ devShared p = c_shared c ∧
    Z.of_nat (length (devBase p)) = T / 32 ∧ length (devLd p) = length (devBase p) ∧
    ∀ w b l, devBase p !! w = Some b → devLd p !! w = Some l → located (Z.of_nat w) c st (b, l).
Proof.
  intros HT. unfold proveDeviceBlocks. destruct (_ || _ || _) eqn:E.
  { exists st0. split; [apply st0_inv|]. by intros c p ?%elem_of_nil. }
  rewrite !orb_false_iff, negb_false_iff, Z.eqb_eq in E. destruct E as [[_ _] Em].
  pose proof (Z.div_pos T 32 ltac:(lia) ltac:(lia)). pose proof (Z.div_mod T 32 ltac:(lia)).
  destruct (each_warp_hoare (Z.to_nat (T / 32)) 0 ((λ c, (c, Some [])) <$> candidates F mmas lds) st0) as (Hi & _ & _ & Hf & Hok).
  { lia. } { apply st0_inv. } { done. }
  { apply Forall_fmap, Forall_forall. intros c _ bps [= <-]. split; [done|]. intros w bp Hw. by rewrite lookup_nil in Hw. }
  rewrite Z2Nat.id in Hf, Hok, Hi by lia. cbn [Z.of_nat Nat.add] in *. eexists. split; [exact Hi|].
  intros c p (cp & Hin & Hp)%list_elem_of_omap. rewrite Forall_forall in Hok. destruct cp as [c' [bps|]]; [|done]. injection Hp as -> <-.
  destruct (Hok _ Hin bps eq_refl) as [Hlen Hl]. split_and!; cbn.
  - assert (c ∈ ((λ c, (c, Some [])) <$> candidates F mmas lds : list Progress).*1) as Hc by (rewrite <- Hf; by apply (list_elem_of_fmap_2 fst _ (c, Some bps))).
    rewrite <- list_fmap_compose in Hc. apply list_elem_of_fmap in Hc as (c' & -> & ?). done.
  - done.
  - rewrite length_fmap. cbn in Hlen. rewrite Hlen. lia.
  - by rewrite !length_fmap.
  - intros w b l ([b' l'] & -> & Hw)%list_lookup_fmap_Some ([b'' l''] & -> & Hw')%list_lookup_fmap_Some. rewrite Hw in Hw'. injection Hw' as <- <-. by apply Hl.
Qed.
Lemma candidate_words types k l c : candidate F types k l = Some c → length (c_words c) = 4%nat.
Proof.
  unfold candidate. destruct (negb (reg l)); [done|]. destruct (types !! k) as [ty|]; [|done].
  destruct (_ || _ || _) eqn:E; [done|]. rewrite !orb_false_iff, negb_false_iff in E. destruct E as [[_ E%Nat.eqb_eq] _]. destruct (words_space _ _ _); [|done]. by intros [= <-].
Qed.
Lemma candidates_words mmas lds c : c ∈ candidates F mmas lds → length (c_words c) = 4%nat.
Proof. unfold candidates. intros (kl & _ & Hc)%list_elem_of_omap. by eapply candidate_words. Qed.
(** the address of a word of a lane of a warp, at a moment *)
Definition word_address (m : Moment X) (w : Z) (c : Cand) (l : Z) (r : nat) : option Z :=
  (λ word, val X m (32 * w + l) (pointer_of F word)) <$> c_words c !! r.
Lemma located_tile st w c b p m (Hu : warp_uniform F X) (Hi : inv st) :
  located w c st (b, p) → length (c_words c) = 4%nat → Forall (λ word, D (pointer_of F word)) (c_words c) →
  ∀ l r, 0 <= l < 32 → (r < 4)%nat → word_address m w c l r =
    Some (peval (atom_value st m (32 * w)) (t b) +
      (frag_row c l (Z.of_nat r) * peval (atom_value st m (32 * w)) (t p) + frag_col c l (Z.of_nat r)) * esize (c_type c)).
Proof.
  intros (Hb & Hp & Hv) H4 HDw l r Hl Hr. unfold word_address. destruct (lookup_lt_is_Some_2 (c_words c) r ltac:(lia)) as [word Hword].
  rewrite Forall_forall in HDw. rewrite Hword. cbn. f_equal. rewrite (Hv l r word m Hl Hword) by (done || apply HDw; by eapply list_elem_of_lookup_2). cbn.
  assert ((32 * w + l) / 32 = (32 * w) / 32) as Hdiv.
  { rewrite (Z.mul_comm 32 w), Z.div_add_l, Z.div_mul, Z.div_small by lia. lia. }
  by rewrite (shared_lanes st b m _ (32 * w)), (shared_lanes st p m _ (32 * w)).
Qed.

(** [C14] A block [proveDeviceBlocks] accepts is the fragment of a row-major tile: in every execution whose arithmetic
    on the addresses does not wrap, at every moment and in every warp of the launch bound there are one origin
    and one row pitch such that word [r] of lane [l] is loaded from row [frag_row], column [frag_col]. *)
Theorem fragments_are_tiles T mmas lds c p (HT : 0 <= T < 2 ^ 32) (Hin : (c, p) ∈ proveDeviceBlocks F T mmas lds)
    (Hu : warp_uniform F X) (HDw : Forall (λ word, D (pointer_of F word)) (c_words c)) :
  Z.of_nat (length (devBase p)) = T / 32 ∧
  ∀ m w, 0 <= w < T / 32 → ∃ origin pitch, ∀ l r, 0 <= l < 32 → (r < 4)%nat →
    word_address m w c l r = Some (origin + (frag_row c l (Z.of_nat r) * pitch + frag_col c l (Z.of_nat r)) * esize (c_type c)).
Proof.
  destruct (proven_located T mmas lds HT) as (st & Hi & Hall). destruct (Hall _ _ Hin) as (Hc & _ & Hlen & Hlen' & Hl). split; [done|].
  intros m w Hw. destruct (lookup_lt_is_Some_2 (devBase p) (Z.to_nat w) ltac:(lia)) as [b Hb].
  destruct (lookup_lt_is_Some_2 (devLd p) (Z.to_nat w) ltac:(lia)) as [l Hp]. specialize (Hl _ _ _ Hb Hp). rewrite Z2Nat.id in Hl by lia.
  eexists _, _. intros l' r. eapply located_tile; [done|exact Hi|exact Hl|by eapply candidates_words|done].
Qed.

(** ** The blocks of one multiplication *)
Definition cell {A} (m : list (list (list A))) (mt nt lv : nat) : option A := xs ← m !! mt; ys ← xs !! nt; ys !! lv.
Lemma forallb_imap {A} (f : nat * A → bool) (l : list A) k x : forallb f (imap pair l) = true → l !! k = Some x → f (k, x) = true.
Proof.
  intros Hf Hk. rewrite forallb_forall in Hf. apply Hf. apply list_elem_of_In, list_elem_of_lookup. exists k. by rewrite list_lookup_imap, Hk.
Qed.
Lemma tiles_cells es kstep m : tiles_ok es kstep m = true → ∃ a0 b0, cell m 0 0 0 = Some (a0, b0) ∧
  ∀ mt nt lv ab, cell m mt nt lv = Some ab → cell_ok es kstep a0 b0 mt nt lv ab = true.
Proof.
  unfold tiles_ok. destruct m as [|[|[|[a0 b0] z] y] x]; try done. intros Hf. exists a0, b0. split; [done|].
  intros mt nt lv ab (xs & Hx & (ys & Hy & Hz)%bind_Some)%bind_Some.
  pose proof (forallb_imap _ _ _ _ Hf Hx) as Hf1. pose proof (forallb_imap _ _ _ _ Hf1 Hy) as Hf2. apply (forallb_imap _ _ _ _ Hf2 Hz).
Qed.
Lemma block_at_spec es kstep p0 p row lv w b0 l0 b l : block_at es kstep p0 p row lv = true →
  devBase p0 !! w = Some b0 → devLd p0 !! w = Some l0 → devBase p !! w = Some b → devLd p !! w = Some l →
  samePoly b (b0 + scaled l0 (16 * row * es) + constant (kstep * lv * es))%tp = true ∧ samePoly l l0 = true.
Proof.
  intros Hf Hb0 Hl0 Hb Hl. unfold block_at in Hf. rewrite forallb_forall in Hf. pose proof (lookup_lt_Some _ _ _ Hb0).
  specialize (Hf w ltac:(apply in_seq; lia)). rewrite Hb0, Hl0, Hb, Hl in Hf. by apply andb_true_iff.
Qed.
(** a block placed by [block_at] from the first one *)
Lemma block_address es kstep T mmas lds c0 p0 m w (HT : 0 <= T < 2 ^ 32) (Hu : warp_uniform F X)
    (Hin0 : (c0, p0) ∈ proveDeviceBlocks F T mmas lds) (Hw : 0 <= w < T / 32) :
  ∃ origin pitch, ∀ c p row lv, (c, p) ∈ proveDeviceBlocks F T mmas lds → block_at es kstep p0 p row lv = true →
    esize (c_type c) = es → - 2 ^ 63 <= kstep * lv * es < 2 ^ 63 → Forall (λ word, D (pointer_of F word)) (c_words c) →
    ∀ l r, 0 <= l < 32 → (r < 4)%nat → word_address m w c l r =
      Some (origin + ((16 * row + frag_row c l (Z.of_nat r)) * pitch + (kstep * lv + frag_col c l (Z.of_nat r))) * es).
Proof.
  destruct (proven_located T mmas lds HT) as (st & Hi & Hall).
  assert (∀ c p, (c, p) ∈ proveDeviceBlocks F T mmas lds → ∃ b l, devBase p !! Z.to_nat w = Some b ∧ devLd p !! Z.to_nat w = Some l ∧ located w c st (b, l)) as Hat.
  { intros c p Hin. destruct (Hall _ _ Hin) as (_ & _ & Hlen & Hlen' & Hl).
    destruct (lookup_lt_is_Some_2 (devBase p) (Z.to_nat w) ltac:(lia)) as [b Hb]. destruct (lookup_lt_is_Some_2 (devLd p) (Z.to_nat w) ltac:(lia)) as [l Hp].
    exists b, l. split_and!; [done|done|]. specialize (Hl _ _ _ Hb Hp). by rewrite Z2Nat.id in Hl by lia. }
  destruct (Hat _ _ Hin0) as (b0 & l0 & Hb0 & Hl0 & Hloc0). exists (peval (atom_value st m (32 * w)) (t b0)), (peval (atom_value st m (32 * w)) (t l0)).
  intros c p row lv Hin Hblock Hes Hrange HDw l r Hl Hr. destruct (Hat _ _ Hin) as (b & p' & Hb & Hp & Hloc).
  destruct (block_at_spec _ _ _ _ _ _ _ _ _ _ _ Hblock Hb0 Hl0 Hb Hp) as [Sb Sl].
  destruct (samePoly_peval _ _ Sb) as (_ & Hok & Eb). destruct (samePoly_peval _ _ Sl) as (_ & _ & El).
  rewrite (located_tile st w c b p' m Hu Hi Hloc) by (done || (eapply candidates_words; apply (Hall _ _ Hin))).
  rewrite Hes, Eb, El, tile_value; [f_equal; ring|apply Hloc0|apply Hloc0|done|done].
Qed.
Definition provens (grid : list (list (list ((Cand * Proven) * (Cand * Proven))))) : OpGrid :=
  map (map (map (λ ab, (ab.1.2, ab.2.2)))) grid.
(** [C16] The blocks of one matrix multiplication are one tile: when [devOpWhy]'s test accepts an op, every A block is
    16 rows per block row and [kstep] columns per k-step from the first, in every warp, at every moment, and so is
    every B block, by pairs of n8 tiles. *)
Theorem op_is_one_tile T mmas lds es kstep (grid : list (list (list ((Cand * Proven) * (Cand * Proven))))) m w (HT : 0 <= T < 2 ^ 32) (Hw : 0 <= w < T / 32) (Hu : warp_uniform F X)
    (Hes : es = 1 ∨ es = 2) (Hk : 0 <= kstep <= 32) (Hok : tiles_ok es kstep (provens grid) = true)
    (Hgrid : ∀ mt nt lv a b, cell grid mt nt lv = Some (a, b) →
       Z.of_nat lv < 2 ^ 32 ∧ ∀ x, x ∈ [a; b] → x ∈ proveDeviceBlocks F T mmas lds ∧ esize (c_type x.1) = es ∧
         Forall (λ word, D (pointer_of F word)) (c_words x.1)) :
  ∃ originA pitchA originB pitchB, ∀ mt nt lv a b l r, cell grid mt nt lv = Some (a, b) → 0 <= l < 32 → (r < 4)%nat →
    word_address m w a.1 l r = Some (originA + ((16 * Z.of_nat mt + frag_row a.1 l (Z.of_nat r)) * pitchA + (kstep * Z.of_nat lv + frag_col a.1 l (Z.of_nat r))) * es) ∧
    word_address m w b.1 l r = Some (originB + ((16 * Z.of_nat (nt / 2) + frag_row b.1 l (Z.of_nat r)) * pitchB + (kstep * Z.of_nat lv + frag_col b.1 l (Z.of_nat r))) * es).
Proof.
  destruct (tiles_cells _ _ _ Hok) as (pa0 & pb0 & H00 & Hcells).
  assert (∀ mt nt lv, cell (provens grid) mt nt lv = (λ ab, (ab.1.2, ab.2.2)) <$> cell grid mt nt lv) as Hcell.
  { intros mt nt lv. unfold cell, provens. rewrite (list_lookup_fmap _ grid). destruct (grid !! mt) as [xs|]; [|done]. cbn. rewrite (list_lookup_fmap _ xs).
    destruct (xs !! nt) as [ys|]; [|done]. cbn. by rewrite (list_lookup_fmap _ ys). }
  rewrite Hcell in H00. apply fmap_Some in H00 as ([[ca0 pa0'] [cb0 pb0']] & H00 & [= -> ->]).
  destruct (Hgrid _ _ _ _ _ H00) as [_ Hin0].
  destruct (block_address es kstep T mmas lds ca0 pa0' m w HT Hu (proj1 (Hin0 (ca0, pa0') ltac:(left))) Hw) as (oA & lA & HA).
  destruct (block_address es kstep T mmas lds cb0 pb0' m w HT Hu (proj1 (Hin0 (cb0, pb0') ltac:(right; left))) Hw) as (oB & lB & HB).
  exists oA, lA, oB, lB. intros mt nt lv [ca pa] [cb pb] l r Hc Hl Hr. cbn [fst].
  assert (cell_ok es kstep pa0' pb0' mt nt lv (pa, pb) = true) as Hco by (apply Hcells; by rewrite Hcell, Hc).
  unfold cell_ok in Hco. rewrite !andb_true_iff in Hco. destruct Hco as [[_ Ha] Hb].
  destruct (Hgrid _ _ _ _ _ Hc) as [Hlv Hin]. destruct (Hin (ca, pa) ltac:(left)) as (Hpa & Hea & Hda). destruct (Hin (cb, pb) ltac:(right; left)) as (Hpb & Heb & Hdb).
  assert (- 2 ^ 63 <= kstep * Z.of_nat lv * es < 2 ^ 63) as Hrange by (destruct Hes as [-> | ->]; nia).
  split; [by apply (HA ca pa)|by apply (HB cb pb)].
Qed.
End proven.
(** ** The example of DevEvalRun.v: two k-steps of an A block and a B block *)
Definition demo_mmas : list Mma := [mkMma true 0 [0%nat] [2%nat]; mkMma true 0 [1%nat] [3%nat]].
Definition demo_lds : list Ld :=
  [mkLd true 0 false [27; 28; 29; 30]%nat; mkLd true 0 false [39; 40; 41; 42]%nat; mkLd true 1 false [27; 29; 28; 30]%nat;
   mkLd true 1 false [39; 41; 40; 42]%nat].
Definition demo_poly (ts : list Term) : Poly := mkPoly ts true.
Definition demo_cand (k : nat) (kind : Z) (ws : list Val) : Cand := mkCand k kind 0 ws false.
Definition demo_proven (column : list Term) : Proven :=
  mkProven false (replicate 2 (demo_poly (column ++ [([0%nat], 1); ([3%nat], 32)]))) (replicate 2 (demo_poly [([1%nat], 1)])).
Definition demo_a0 : Cand * Proven := (demo_cand 0 0 [27; 28; 29; 30]%nat, demo_proven []).
Definition demo_a1 : Cand * Proven := (demo_cand 1 0 [39; 40; 41; 42]%nat, demo_proven [([], 32)]).
Definition demo_b1 : Cand * Proven := (demo_cand 3 1 [39; 41; 40; 42]%nat, demo_proven [([], 32)]).
Definition demo_b : Cand * Proven := (demo_cand 2 1 [27; 29; 28; 30]%nat, demo_proven []).
Lemma demo_blocks : proveDeviceBlocks demo_fn 64 demo_mmas demo_lds = [demo_a0; demo_a1; demo_b; demo_b1].
Proof. vm_compute. reflexivity. Qed.

Lemma fragments_are_tiles_witness :
  (demo_cand 1 0 [39; 40; 41; 42]%nat, demo_proven [([], 32)]) ∈ proveDeviceBlocks demo_fn 64 demo_mmas demo_lds ∧
  Z.of_nat (length (devBase (demo_proven [([], 32)]))) = 64 / 32.
Proof.
  split; [rewrite demo_blocks; right; left|].
  apply (fragments_are_tiles demo_fn demo_fn_ok demo_exec (λ _, True) demo_lawful ltac:(done) 64 demo_mmas demo_lds (demo_cand 1 0 [39; 40; 41; 42]%nat)).
  - lia.
  - rewrite demo_blocks. right. left.
  - exact demo_uniform.
  - repeat constructor.
Defined.

Definition demo_grid : list (list (list ((Cand * Proven) * (Cand * Proven)))) := [[[(demo_a0, demo_b); (demo_a1, demo_b1)]]].
Lemma op_is_one_tile_witness :
  tiles_ok 2 16 (provens demo_grid) = true ∧ cell demo_grid 0 0 1 = Some (demo_a1, demo_b1) ∧
  ∃ originA pitchA originB pitchB, ∀ mt nt lv a b l r, cell demo_grid mt nt lv = Some (a, b) → 0 <= l < 32 → (r < 4)%nat →
    word_address demo_fn demo_exec 3%nat 1 a.1 l r = Some (originA + ((16 * Z.of_nat mt + frag_row a.1 l (Z.of_nat r)) * pitchA + (16 * Z.of_nat lv + frag_col a.1 l (Z.of_nat r))) * 2) ∧
    word_address demo_fn demo_exec 3%nat 1 b.1 l r = Some (originB + ((16 * Z.of_nat (nt / 2) + frag_row b.1 l (Z.of_nat r)) * pitchB + (16 * Z.of_nat lv + frag_col b.1 l (Z.of_nat r))) * 2).
Proof.
  split; [vm_compute; reflexivity|]. split; [reflexivity|].
  apply (op_is_one_tile demo_fn demo_fn_ok demo_exec (λ _, True) demo_lawful ltac:(done) 64 demo_mmas demo_lds 2 16 demo_grid 3%nat 1).
  - lia.
  - change (64 / 32) with 2. lia.
  - exact demo_uniform.
  - by right.
  - lia.
  - vm_compute. reflexivity.
  - intros mt nt lv a b Hc.
    assert ((mt = 0 ∧ nt = 0 ∧ ((lv = 0 ∧ a = demo_a0 ∧ b = demo_b) ∨ (lv = 1 ∧ a = demo_a1 ∧ b = demo_b1)))%nat) as (-> & -> & Hlv).
    { destruct mt as [|[|]]; try done. destruct nt as [|[|]]; try done. destruct lv as [|[|[|]]]; try done; injection Hc as <- <-; auto 6. }
    rewrite demo_blocks. destruct Hlv as [(-> & -> & ->)|(-> & -> & ->)]; (split; [lia|]); intros x Hx; repeat apply elem_of_cons in Hx as [->|Hx];
      try (by apply elem_of_nil in Hx); (split; [rewrite !elem_of_cons; tauto|split; [reflexivity|repeat constructor]]).
Defined.
