(* ===== verification/TpLayout.v ===== *)
(** The layout of cooperative matrix tiles (msl/mvcc_prelude.metal, namespace [mvcc_tp] and the helpers that tensor
    recovery calls; cpp/mvcc-llvm/emit.cpp, [lawRowIR] and [lawColIR]): which element of a tile slot [s] of lane
    [l] holds, and the conversions between the slots and the fragments of [mma.sync].

    A value per lane of the simdgroup is a function of the lane, so [simd_shuffle] is application.  The
    conversions through threadgroup memory are rounds of writes by all lanes, a barrier, and reads by all
    lanes; the scratch keeps its contents from round to round. *)
From S2P Require Import Prelude.
Open Scope Z_scope.

(** ** The law *)
Definition bit (x k : Z) : Z := Z.land (Z.shiftr x k) 1.
Definition law_br (l s : Z) : Z :=
  Z.lor (Z.lor (Z.land (Z.shiftr l 1) 3) (Z.shiftl (Z.shiftr l 4) 2)) (Z.shiftl (bit s 2) 3).
Definition law_bc (l s : Z) : Z :=
  Z.lor (Z.lor (Z.land s 3) (Z.shiftl (Z.land l 1) 2)) (Z.shiftl (bit l 3) 3).
Definition law_row (l s : Z) (transposed : bool) (R C : Z) : Z :=
  let row := if transposed then law_bc l s else law_br l s in
  if C =? 32 then if R =? 32 then Z.lor row (Z.shiftl (bit s 4) 4) else row
  else if R =? 32 then Z.lor row (Z.shiftl (bit s 3) 4) else row.
Definition law_col (l s : Z) (transposed : bool) (R C : Z) : Z :=
  let col := if transposed then law_br l s else law_bc l s in
  if C =? 32 then Z.lor col (Z.shiftl (bit s 3) 4) else col.

(** *** The instructions the emitter builds for it, on the 32-bit lane index *)
Definition ir_shr (v k : Z) : Z := if k =? 0 then v else Z.shiftr v k.
Definition ir_shl (v k : Z) : Z := if k =? 0 then v else u32 (Z.shiftl v k).
Definition ir_br (l s : Z) : Z :=
  Z.lor (Z.lor (Z.land (ir_shr l 1) 3) (ir_shl (ir_shr l 4) 2)) (Z.shiftl (Z.land (Z.shiftr s 2) 1) 3).
Definition ir_bc (l s : Z) : Z :=
  Z.lor (Z.lor (Z.land s 3) (ir_shl (Z.land l 1) 2)) (ir_shl (Z.land (ir_shr l 3) 1) 3).
Definition lawRowIR (l s : Z) (tr : bool) (R C : Z) : Z :=
  let row := if tr then ir_bc l s else ir_br l s in
  if (C =? 32) && (R =? 32) then Z.lor row (Z.shiftl (Z.land (Z.shiftr s 4) 1) 4)
  else if R =? 32 then Z.lor row (Z.shiftl (Z.land (Z.shiftr s 3) 1) 4)
  else row.
Definition lawColIR (l s : Z) (tr : bool) (R C : Z) : Z :=
  let col := if tr then ir_br l s else ir_bc l s in
  if C =? 32 then Z.lor col (Z.shiftl (Z.land (Z.shiftr s 3) 1) 4) else col.

(** ** Operand blocks of 16 by 16 *)
Definition lawT (kind : Z) (trans : bool) : bool := if kind =? 0 then trans else negb trans.
(** the lane whose [ldmatrix] row feeds slot quad [j] *)
Definition tp_srclane (lane j kind : Z) (trans : bool) (blockmap : Z) : Z :=
  let T := lawT kind trans in
  let row := law_row lane (4 * j) T 16 16 in
  let col := law_col lane (4 * j) T 16 16 in
  let rowlike := if T then col else row in
  let r := Z.shiftr row 3 + Z.shiftl (Z.shiftr col 3) 1 in
  let mat := Z.land (Z.shiftr blockmap (2 * r)) 3 in
  8 * mat + Z.land rowlike 7.
(** the byte offset of the quad in that row *)
Definition tp_offset (lane j kind : Z) (trans : bool) : Z :=
  let T := lawT kind trans in
  let row := law_row lane (4 * j) T 16 16 in
  let col := law_col lane (4 * j) T 16 16 in
  2 * Z.land (if T then row else col) 7.
(** [addr]: by lane; [load]: the two words at an address; the result is the words of [lane] *)
Definition tp_ld {X} (load : Z → X * X) (addr : Z → Z) (lane kind : Z) (trans : bool) (blockmap : Z) : list X :=
  mjoin ((λ j, let v := load (addr (tp_srclane lane j kind trans blockmap) + tp_offset lane j kind trans) in [v.1; v.2]) <$> [0; 1]).
(** register-built blocks: four words per lane, by register, by lane *)
Definition tp_frag2slot {X} (f0 f1 f2 f3 : Z → X) (lane kind : Z) : list X :=
  let hi := negb (bit lane 3 =? 0) in
  let s0 := 4 * Z.lor (Z.land (Z.shiftr lane 1) 3) (Z.shiftl (Z.shiftr lane 4) 2) + 2 * Z.land lane 1 in
  let s1 := s0 + 1 in
  if kind =? 0
  then [if hi then f2 s0 else f0 s0; if hi then f2 s1 else f0 s1; if hi then f3 s0 else f1 s0; if hi then f3 s1 else f1 s1]
  else [if hi then f1 s0 else f0 s0; if hi then f1 s1 else f0 s1; if hi then f3 s0 else f2 s0; if hi then f3 s1 else f2 s1].

(** the same block filled from the two addresses of its rows, of 16-bit elements *)
Definition tp_ld_direct {X} (load : Z → X * X) (a0 a1 : Z) (lane kind : Z) (trans : bool) : list X :=
  mjoin ((λ j, let v := load ((if j =? 0 then a0 else a1) + tp_offset lane j kind trans) in [v.1; v.2]) <$> [0; 1]).

(** ** The ring of addresses of staged chunks *)
(** [zmode]: 0 full copies, 1 full copies or zeros, 2 any size *)
Definition tp_stage (src srcsize zmode : Z) : Z :=
  if zmode =? 1 then if srcsize =? 0 then 0 else src
  else if zmode =? 2 then if srcsize =? 0 then 0 else Z.lor src (Z.land (16 - srcsize) 15)
  else src.
Definition ring_slot (obj a : Z) : Z := u64 (obj + Z.shiftr (u64 (a - obj)) 1).
Definition le32 (mem : Z → Z) (a : Z) : Z :=
  mem a + Z.shiftl (mem (a + 1)) 8 + Z.shiftl (mem (a + 2)) 16 + Z.shiftl (mem (a + 3)) 24.
Definition load_uint2 (mem : Z → Z) (a : Z) : Z * Z := (le32 mem a, le32 mem (a + 4)).
Definition put_byte (mem : Z → Z) (base off : Z) (v : Z * Z) (b : Z) : Z * Z :=
  let byte := mem (base + b) in
  if b - off <? 4 then (Z.lor v.1 (Z.shiftl byte (8 * (b - off))), v.2)
  else (v.1, Z.lor v.2 (Z.shiftl byte (8 * (b - off - 4)))).
Definition tp_ring_load (mem : Z → Z) (q off zmode : Z) : Z * Z :=
  if zmode =? 0 then load_uint2 mem (q + off)
  else if q =? 0 then (0, 0)
  else if zmode =? 1 then load_uint2 mem (q + off)
  else
    let n := 16 - Z.land q 15 in
    let base := Z.ldiff q 15 in
    if off + 8 <=? n then load_uint2 mem (base + off)
    else fold_left (put_byte mem base off) (seqZ off (n - off)) (0, 0).
(** [addr]: the row address of each lane; [ring]: threadgroup memory, the chunk addresses by slot *)
Definition tp_ld_ring (mem ring : Z → Z) (obj : Z) (addr : Z → Z) (lane kind : Z) (trans : bool) (blockmap zmode : Z) : list Z :=
  mjoin ((λ j, let v := tp_ring_load mem (ring (ring_slot obj (addr (tp_srclane lane j kind trans blockmap))))
                          (tp_offset lane j kind trans) zmode in [v.1; v.2]) <$> [0; 1]).

(** ** Accumulators: slots to the positions of [mma.sync] and back *)
Section accumulators.
Context {X : Type} (M N : Z).
Definition tp_lanes : list Z := seqZ 0 32.
(** the scratch, as the writes into it, latest first *)
Definition Scratch : Type := list (Z * X).
Fixpoint peek (ws : Scratch) (a : Z) : option X :=
  match ws with [] => None | (a', x) :: ws => if a' =? a then Some x else peek ws a end.
(** an array of each lane: what was written to it, by lane and index, latest first *)
Definition Out : Type := list ((Z * Z) * X).
(** the slot quads of a block, and where one is in the scratch *)
Definition quads (rb cb : Z) : list Z :=
  filter (λ s, Z.shiftr (law_row 0 s false M N) 3 = rb ∧ Z.shiftr (law_col 0 s false M N) 4 = cb)
    ((λ q, 4 * q) <$> seqZ 0 (M * N / 128)).
Definition quad_at (lane s : Z) : Z :=
  Z.land (law_row lane s false M N) 7 * 16 + Z.land (law_col lane s false M N) 15.
(** the position pairs of a block, and where one is in the scratch *)
Definition pair_block (p : Z) : Z * Z :=
  let tile := Z.shiftr p 2 in
  let r := Z.land p 3 in
  (2 * (tile / (N / 8)) + Z.shiftr r 1, (tile mod (N / 8)) / 2).
Definition pairs (rb cb : Z) : list Z :=
  filter (λ p, pair_block p = (rb, cb)) ((λ q, 2 * q) <$> seqZ 0 (M * N / 64)).
Definition pair_at (lane p : Z) : Z :=
  let nt := Z.shiftr p 2 mod (N / 8) in
  Z.shiftr lane 2 * 16 + 8 * Z.land nt 1 + 2 * Z.land lane 3.
(** a vector of [n] elements written or read at once *)
Definition store_run (n : Z) (at_ : Z → Z → Z) (items : list Z) (v : Z → Z → X) : Scratch :=
  l ← tp_lanes; s ← items; (λ k, (at_ l s + k, v l (s + k))) <$> seqZ 0 n.
Definition load_run (n : Z) (at_ : Z → Z → Z) (items : list Z) (ws : Scratch) : Out :=
  l ← tp_lanes; s ← items; k ← seqZ 0 n;
  match peek ws (at_ l s + k) with Some x => [((l, s + k), x)] | None => [] end.
Definition blocks_of : list (Z * Z) := (λ b, (b / (N / 16), b mod (N / 16))) <$> seqZ 0 (M / 8 * (N / 16)).
(** writes by all lanes, the barrier, reads by all lanes, the barrier *)
Definition rounds (wr : Z * Z → Scratch) (rd : Z * Z → Scratch → Out) : Scratch * Out :=
  fold_left (λ so b, let ws := wr b ++ so.1 in (ws, rd b ws ++ so.2)) blocks_of ([], []).
Definition tp_acc2ptx (slots : Z → Z → X) : Out :=
  (rounds (λ b, store_run 4 quad_at (quads b.1 b.2) slots) (λ b, load_run 2 pair_at (pairs b.1 b.2))).2.
Definition tp_ptx2acc (ptx : Z → Z → X) : Out :=
  (rounds (λ b, store_run 2 pair_at (pairs b.1 b.2) ptx) (λ b, load_run 4 quad_at (quads b.1 b.2))).2.
End accumulators.

(** ** The origin of a tile read from memory *)
(** [p]: the address of each lane's first word; [ld]: the pitch, or negative when it was not computed at the op;
    [size]: of an element; [first]: the first active lane.  The result: the origin and the pitch. *)
Definition tp_tile_origin (size : Z) (p : Z → Z) (ld first : Z) : Z * Z :=
  if 0 <=? ld
  then (u64 (p first - (Z.shiftr first 2 * ld + 4 / size * Z.land first 3) * size), ld)
  else (p 0, sext 32 (Z.quot (sext 64 (p 4) - sext 64 (p 0)) size)).
