(* ===== verification/TpLayoutThm.v ===== *)
(** Theorems about the layout of cooperative tiles (TpLayout.v).

    A layout is a finite map, so what relates two layouts is decided over all lanes and slots; a conversion is
    shown to move values without looking at them (it is natural in the type of the elements), which reduces it
    to its run on the names of the slots. *)
From S2P Require Import Prelude ArenaSem TpLayout.
Open Scope Z_scope.

(** ** Checks over all lanes and slots *)
Definition each (n : Z) (f : Z → bool) : bool := forallb f (seqZ 0 n).
Lemma each_spec n f : each n f = true → ∀ x, 0 <= x < n → f x = true.
Proof. intros Hf x Hx. unfold each in Hf. rewrite forallb_forall in Hf. apply Hf, list_elem_of_In, elem_of_seqZ. lia. Qed.
Definition side (x : Z) : Prop := x = 16 ∨ x = 32.
(** a check for every shape of tile *)
Definition shapes (f : Z → Z → bool) : bool := f 16 16 && f 16 32 && f 32 16 && f 32 32.
Lemma shapes_spec f : shapes f = true → ∀ R C, side R → side C → f R C = true.
Proof. unfold shapes. rewrite !andb_true_iff. intros [[[? ?] ?] ?] R C [-> | ->] [-> | ->]; done. Qed.
Definition slots_of (R C : Z) : Z := R * C / 32.
Definition each_slot (f : bool → Z → Z → Z → Z → bool) : bool :=
  shapes (λ R C, forallb (λ tr, each 32 (λ l, each (slots_of R C) (λ s, f tr R C l s))) [true; false]).
Lemma each_slot_spec f : each_slot f = true → ∀ R C tr l s, side R → side C → 0 <= l < 32 → 0 <= s < slots_of R C → f tr R C l s = true.
Proof.
  intros Hf R C tr l s HR HC Hl Hs. pose proof (shapes_spec _ Hf R C HR HC) as H1. cbn beta in H1.
  rewrite forallb_forall in H1. specialize (H1 tr ltac:(destruct tr; cbn; auto)).
  exact (each_spec _ _ (each_spec _ _ H1 l Hl) s Hs).
Qed.

(** ** The law is a bijection, and the emitter's instructions compute it *)
(** the lane and the slot that hold an element *)
Definition holder (tr : bool) (R C r c : Z) : Z * Z :=
  let (br, bc) := if tr then (c, r) else (r, c) in
  (Z.lor (Z.lor (bit bc 2) (Z.shiftl (Z.land br 3) 1)) (Z.lor (Z.shiftl (bit bc 3) 3) (Z.shiftl (bit br 2) 4)),
   Z.lor (Z.lor (Z.land bc 3) (Z.shiftl (bit br 3) 2))
     (if C =? 32 then Z.lor (Z.shiftl (bit c 4) 3) (if R =? 32 then Z.shiftl (bit r 4) 4 else 0)
      else if R =? 32 then Z.shiftl (bit r 4) 3 else 0)).
Definition law_check (tr : bool) (R C l s : Z) : bool :=
  let r := law_row l s tr R C in
  let c := law_col l s tr R C in
  (0 <=? r) && (r <? R) && (0 <=? c) && (c <? C) && bool_decide (holder tr R C r c = (l, s)) &&
  (lawRowIR l s tr R C =? r) && (lawColIR l s tr R C =? c).
Definition holder_check (tr : bool) (R C : Z) : bool :=
  each R (λ r, each C (λ c, let (l, s) := holder tr R C r c in
    (0 <=? l) && (l <? 32) && (0 <=? s) && (s <? slots_of R C) && (law_row l s tr R C =? r) && (law_col l s tr R C =? c))).
Lemma law_checked : each_slot law_check = true.
Proof. vm_compute. reflexivity. Qed.
Lemma holder_checked : shapes (λ R C, holder_check true R C && holder_check false R C) = true.
Proof. vm_compute. reflexivity. Qed.
Lemma law_spec R C tr l s (HR : side R) (HC : side C) (Hl : 0 <= l < 32) (Hs : 0 <= s < slots_of R C) :
  0 <= law_row l s tr R C < R ∧ 0 <= law_col l s tr R C < C ∧
  holder tr R C (law_row l s tr R C) (law_col l s tr R C) = (l, s) ∧
  lawRowIR l s tr R C = law_row l s tr R C ∧ lawColIR l s tr R C = law_col l s tr R C.
Proof.
  pose proof (each_slot_spec _ law_checked R C tr l s HR HC Hl Hs) as Hc. unfold law_check in Hc.
  rewrite !andb_true_iff, !Z.leb_le, !Z.ltb_lt, !Z.eqb_eq, bool_decide_eq_true in Hc. naive_solver lia.
Qed.
Lemma holder_spec R C tr r c (HR : side R) (HC : side C) (Hr : 0 <= r < R) (Hc : 0 <= c < C) :
  let (l, s) := holder tr R C r c in
  0 <= l < 32 ∧ 0 <= s < slots_of R C ∧ law_row l s tr R C = r ∧ law_col l s tr R C = c.
Proof.
  pose proof (shapes_spec _ holder_checked R C HR HC) as Hf. cbn beta in Hf.
  assert (holder_check tr R C = true) as Ht by (apply andb_true_iff in Hf; destruct tr; tauto).
  pose proof (each_spec _ _ (each_spec _ _ Ht r Hr) c Hc) as Hh. cbn beta in Hh. destruct (holder tr R C r c) as [l s].
  rewrite !andb_true_iff, !Z.leb_le, !Z.ltb_lt, !Z.eqb_eq in Hh. lia.
Qed.

(** ** Operand blocks *)
(** the address of the element of a block that [ldmatrix] would place at a row and a column *)
Definition block_address (addr : Z → Z) (T : bool) (blockmap row col : Z) : Z :=
  let r := Z.shiftr row 3 + Z.shiftl (Z.shiftr col 3) 1 in
  let mat := Z.land (Z.shiftr blockmap (2 * r)) 3 in
  if T then addr (8 * mat + Z.land col 7) + 2 * Z.land row 7 else addr (8 * mat + Z.land row 7) + 2 * Z.land col 7.
(** two elements of 16 bits to a word *)
Definition load_halves {H} (at_ : Z → H) (a : Z) : (H * H) * (H * H) :=
  ((at_ a, at_ (a + 2)), (at_ (a + 4), at_ (a + 6))).
Definition elements {H} (ws : list (H * H)) : list H := mjoin ((λ w, [w.1; w.2]) <$> ws).
Definition quad_check (T : bool) (l j : Z) : bool :=
  let row := law_row l (4 * j) T 16 16 in
  let col := law_col l (4 * j) T 16 16 in
  each 4 (λ e, let row' := law_row l (4 * j + e) T 16 16 in
    let col' := law_col l (4 * j + e) T 16 16 in
    (Z.shiftr row' 3 =? Z.shiftr row 3) && (Z.shiftr col' 3 =? Z.shiftr col 3) &&
    (Z.land (if T then col' else row') 7 =? Z.land (if T then col else row) 7) &&
    (Z.land (if T then row' else col') 7 =? Z.land (if T then row else col) 7 + e)).
Lemma quads_checked : forallb (λ T, each 32 (λ l, each 2 (quad_check T l))) [true; false] = true.
Proof. vm_compute. reflexivity. Qed.
Lemma quad_address addr l j e kind trans bm (Hl : 0 <= l < 32) (Hj : 0 <= j < 2) (He : 0 <= e < 4) :
  addr (tp_srclane l j kind trans bm) + tp_offset l j kind trans + 2 * e =
  block_address addr (lawT kind trans) bm (law_row l (4 * j + e) (lawT kind trans) 16 16) (law_col l (4 * j + e) (lawT kind trans) 16 16).
Proof.
  unfold tp_srclane, tp_offset, block_address. cbv zeta. set (T := lawT kind trans).
  pose proof quads_checked as Hq. rewrite forallb_forall in Hq.
  pose proof (each_spec _ _ (each_spec _ _ (each_spec _ _ (Hq T ltac:(destruct T; cbn; auto)) l Hl) j Hj) e He) as Hc. cbn beta in Hc. cbv zeta in Hc.
  rewrite !andb_true_iff, !Z.eqb_eq in Hc. destruct Hc as [[[Hr Hc] H1] H2]. rewrite Hr, Hc. destruct T; rewrite H1, H2; lia.
Qed.
Lemma eight {P : Z → Prop} : P 0 → P 1 → P 2 → P 3 → P 4 → P 5 → P 6 → P 7 → ∀ s, 0 <= s < 8 → P s.
Proof. intros. assert (s = 0 ∨ s = 1 ∨ s = 2 ∨ s = 3 ∨ s = 4 ∨ s = 5 ∨ s = 6 ∨ s = 7) as Hs by lia. destruct_or! Hs; by subst. Qed.
(** element [s] of the words of a lane is the block's element at the law's place *)
Lemma operand_block {H} (at_ : Z → H) addr lane kind trans bm s (Hl : 0 <= lane < 32) (Hs : 0 <= s < 8) :
  let T := lawT kind trans in
  elements (tp_ld (load_halves at_) addr lane kind trans bm) !! Z.to_nat s =
  Some (at_ (block_address addr T bm (law_row lane s T 16 16) (law_col lane s T 16 16))).
Proof.
  cbv zeta. pose proof (λ j e, quad_address addr lane j e kind trans bm Hl) as Hq. revert s Hs.
  assert (∀ j e x y, 0 <= j < 2 → 0 <= e < 4 → x = addr (tp_srclane lane j kind trans bm) + tp_offset lane j kind trans + 2 * e →
    y = block_address addr (lawT kind trans) bm (law_row lane (4 * j + e) (lawT kind trans) 16 16) (law_col lane (4 * j + e) (lawT kind trans) 16 16) →
    Some (at_ x) = Some (at_ y)) as Hg by (intros j e x y Hj He -> ->; by rewrite Hq).
  apply eight; [apply (Hg 0 0)|apply (Hg 0 1)|apply (Hg 0 2)|apply (Hg 0 3)|apply (Hg 1 0)|apply (Hg 1 1)|apply (Hg 1 2)|apply (Hg 1 3)]; try reflexivity; lia.
Qed.

(** the direct fill of 16-bit elements, given the addresses of the rows of both quads *)
Lemma direct_block {X} (load : Z → X * X) addr lane kind trans bm :
  tp_ld_direct load (addr (tp_srclane lane 0 kind trans bm)) (addr (tp_srclane lane 1 kind trans bm)) lane kind trans =
  tp_ld load addr lane kind trans bm.
Proof. reflexivity. Qed.

(** the fragments of [mma.sync] in registers: word [i] of lane [l], A blocks (kind 0) and pairs of B blocks *)
Definition fragment_word {H} (E : Z → Z → H) (kind i l : Z) : H * H :=
  let g := Z.shiftr l 2 in
  let t := Z.land l 3 in
  if kind =? 0
  then let m := g + 8 * Z.land i 1 in let k := 2 * t + 8 * Z.shiftr i 1 in (E m k, E m (k + 1))
  else let n := g + 8 * Z.shiftr i 1 in let k := 2 * t + 8 * Z.land i 1 in (E k n, E (k + 1) n).
Definition frag_places (kind lane : Z) : list (Z * Z) :=
  elements (tp_frag2slot (fragment_word pair kind 0) (fragment_word pair kind 1) (fragment_word pair kind 2) (fragment_word pair kind 3) lane kind).
Lemma frag_places_law : forallb (λ kind, each 32 (λ l, bool_decide (frag_places kind l =
  (λ s, (law_row l s (negb (kind =? 0)) 16 16, law_col l s (negb (kind =? 0)) 16 16)) <$> seqZ 0 8))) [0; 1] = true.
Proof. vm_compute. reflexivity. Qed.
Lemma frag2slot_natural {H} (E : Z → Z → H) kind lane :
  elements (tp_frag2slot (fragment_word E kind 0) (fragment_word E kind 1) (fragment_word E kind 2) (fragment_word E kind 3) lane kind) =
  (λ rc, E rc.1 rc.2) <$> frag_places kind lane.
Proof. unfold frag_places, elements, tp_frag2slot, fragment_word. cbv zeta. destruct (kind =? 0), (negb _); reflexivity. Qed.
(** A block held in registers as fragments of [mma.sync] has its elements moved to the places of the law. *)
Lemma register_block {H} (E : Z → Z → H) kind lane (Hk : kind = 0 ∨ kind = 1) (Hl : 0 <= lane < 32) :
  elements (tp_frag2slot (fragment_word E kind 0) (fragment_word E kind 1) (fragment_word E kind 2) (fragment_word E kind 3) lane kind) =
  (λ s, E (law_row lane s (lawT kind false) 16 16) (law_col lane s (lawT kind false) 16 16)) <$> seqZ 0 8.
Proof.
  rewrite frag2slot_natural. pose proof frag_places_law as Hf. rewrite forallb_forall in Hf.
  pose proof (each_spec _ _ (Hf kind ltac:(destruct Hk as [-> | ->]; cbn; auto)) lane Hl) as He. cbn beta in He.
  rewrite bool_decide_eq_true in He. rewrite He, <- list_fmap_compose. by destruct Hk as [-> | ->].
Qed.

(** ** Accumulators *)
(** where [mma.sync] has position [p] of lane [l] *)
Definition ptx_row (N l p : Z) : Z := 16 * (Z.shiftr p 2 / (N / 8)) + Z.shiftr l 2 + 8 * Z.shiftr (Z.land p 3) 1.
Definition ptx_col (N l p : Z) : Z := 8 * (Z.shiftr p 2 mod (N / 8)) + 2 * Z.land l 3 + Z.land (Z.land p 3) 1.
Fixpoint element {X} (out : Out (X := X)) (k : Z * Z) : option X :=
  match out with [] => None | (k', x) :: out => if bool_decide (k' = k) then Some x else element out k end.

(** *** Conversions move values without looking at them *)
Section natural.
Context {X Y : Type} (f : X → Y).
Definition val_map {K} : list (K * X) → list (K * Y) := fmap (λ kx, (kx.1, f kx.2)).
Lemma val_map_bind {K A} (g : A → list (K * X)) l : val_map (l ≫= g) = l ≫= (λ a, val_map (g a)).
Proof. unfold val_map. induction l as [|a l IH]; [done|]. cbn. by rewrite fmap_app, IH. Qed.
Lemma peek_map ws a : peek (val_map ws) a = f <$> peek ws a.
Proof. induction ws as [|[a' x] ws IH]; [done|]. cbn. by destruct (a' =? a). Qed.
Lemma element_map out k : element (val_map out) k = f <$> element out k.
Proof. induction out as [|[k' x] out IH]; [done|]. cbn. by case_bool_decide. Qed.
Lemma store_map n at_ items (v : Z → Z → X) : store_run n at_ items (λ l s, f (v l s)) = val_map (store_run n at_ items v).
Proof.
  unfold store_run. rewrite val_map_bind. apply list_bind_ext; [|done]. intros l. rewrite val_map_bind. apply list_bind_ext; [|done]. intros s.
  unfold val_map. by rewrite <- list_fmap_compose.
Qed.
Lemma load_map n at_ items ws : load_run n at_ items (val_map ws) = val_map (load_run n at_ items ws).
Proof.
  unfold load_run. do 3 (rewrite val_map_bind; apply list_bind_ext; [|done]; intros ?). rewrite peek_map. by destruct (peek _ _).
Qed.
Lemma rounds_map N M wr wr' rd rd' : (∀ b, wr' b = val_map (wr b)) → (∀ b ws, rd' b (val_map ws) = val_map (rd b ws)) →
  (rounds M N wr' rd').2 = val_map (rounds M N wr rd).2.
Proof.
  intros Hw Hr. unfold rounds. enough (∀ bs so, fold_left (λ so b, (wr' b ++ so.1, rd' b (wr' b ++ so.1) ++ so.2)) bs (val_map so.1, val_map so.2) =
    (λ so, (val_map so.1, val_map so.2)) (fold_left (λ so b, (wr b ++ so.1, rd b (wr b ++ so.1) ++ so.2)) bs so)) as He
    by (pose proof (He (blocks_of M N) ([], [])) as He'; cbn in He'; cbv zeta; by rewrite He').
  induction bs as [|b bs IH]; intros so; [done|]. cbn [fold_left fst snd].
  assert (wr' b ++ val_map so.1 = val_map (wr b ++ so.1)) as -> by (rewrite Hw; unfold val_map; by rewrite fmap_app).
  assert (rd' b (val_map (wr b ++ so.1)) ++ val_map so.2 = val_map (rd b (wr b ++ so.1) ++ so.2)) as -> by (rewrite Hr; unfold val_map; by rewrite fmap_app).
  apply (IH (_, _)).
Qed.
Lemma acc2ptx_map M N slots : tp_acc2ptx M N (λ l s, f (slots l s)) = val_map (tp_acc2ptx M N slots).
Proof. apply rounds_map; intros; [apply store_map|apply load_map]. Qed.
Lemma ptx2acc_map M N ptx : tp_ptx2acc M N (λ l p, f (ptx l p)) = val_map (tp_ptx2acc M N ptx).
Proof. apply rounds_map; intros; [apply store_map|apply load_map]. Qed.
End natural.

(** *** What the names say *)
Definition acc_named (M N : Z) (out : Out (X := Z * Z)) (l p : Z) : bool :=
  match element out (l, p) with
  | Some (l', s) => (0 <=? l') && (l' <? 32) && (0 <=? s) && (s <? slots_of M N) &&
      (law_row l' s false M N =? ptx_row N l p) && (law_col l' s false M N =? ptx_col N l p)
  | None => false end.
Definition ptx_named (M N : Z) (out : Out (X := Z * Z)) (l s : Z) : bool :=
  match element out (l, s) with
  | Some (l', p) => (0 <=? l') && (l' <? 32) && (0 <=? p) && (p <? slots_of M N) &&
      (ptx_row N l' p =? law_row l s false M N) && (ptx_col N l' p =? law_col l s false M N)
  | None => false end.
Definition named (check : Z → Z → Out (X := Z * Z) → Z → Z → bool) (conv : ∀ M N : Z, Out (X := Z * Z)) : bool :=
  shapes (λ M N, let out := conv M N in each 32 (λ l, each (slots_of M N) (check M N out l))).
Lemma acc_names : named acc_named (λ M N, tp_acc2ptx M N pair) = true.
Proof. vm_compute. reflexivity. Qed.
Lemma ptx_names : named ptx_named (λ M N, tp_ptx2acc M N pair) = true.
Proof. vm_compute. reflexivity. Qed.

(** *** The conversions *)
Section conversions.
Context {X : Type} (M N : Z) (HM : side M) (HN : side N) (D : Z → Z → X).
Lemma named_at check conv (Hn : named check conv = true) l p : 0 <= l < 32 → 0 <= p < slots_of M N → check M N (conv M N) l p = true.
Proof. intros Hl Hp. exact (each_spec _ _ (each_spec _ _ (shapes_spec _ Hn M N HM HN) l Hl) p Hp). Qed.
Definition in_slots (v : Z → Z → X) : Prop :=
  ∀ l s, 0 <= l < 32 → 0 <= s < slots_of M N → v l s = D (law_row l s false M N) (law_col l s false M N).
Definition in_positions (v : Z → Z → X) : Prop :=
  ∀ l p, 0 <= l < 32 → 0 <= p < slots_of M N → v l p = D (ptx_row N l p) (ptx_col N l p).
Lemma run_of_names (v : Z → Z → X) conv out (Hc : conv = val_map (λ k, v k.1 k.2) out) l p k :
  element out (l, p) = Some k → element conv (l, p) = Some (v k.1 k.2).
Proof. intros He. by rewrite Hc, element_map, He. Qed.
(** If the slots hold a matrix by the law, every position of [mma.sync] gets its element of that matrix: none is
    missing, none is read before it is written. *)
Lemma acc2ptx_positions slots l p (Hs : in_slots slots) (Hl : 0 <= l < 32) (Hp : 0 <= p < slots_of M N) :
  element (tp_acc2ptx M N slots) (l, p) = Some (D (ptx_row N l p) (ptx_col N l p)).
Proof.
  pose proof (named_at _ _ acc_names l p Hl Hp) as Hn. unfold acc_named in Hn. destruct (element _ _) as [[l' s]|] eqn:He; [|done].
  rewrite !andb_true_iff, !Z.leb_le, !Z.ltb_lt, !Z.eqb_eq in Hn.
  etransitivity; [exact (run_of_names slots _ _ (acc2ptx_map (λ k, slots k.1 k.2) M N pair) _ _ _ He)|]. cbn. rewrite Hs by lia. destruct Hn as [[_ ->] ->]. done.
Qed.
Lemma ptx2acc_slots ptx l s (Hp : in_positions ptx) (Hl : 0 <= l < 32) (Hs : 0 <= s < slots_of M N) :
  element (tp_ptx2acc M N ptx) (l, s) = Some (D (law_row l s false M N) (law_col l s false M N)).
Proof.
  pose proof (named_at _ _ ptx_names l s Hl Hs) as Hn. unfold ptx_named in Hn. destruct (element _ _) as [[l' p]|] eqn:He; [|done].
  rewrite !andb_true_iff, !Z.leb_le, !Z.ltb_lt, !Z.eqb_eq in Hn.
  etransitivity; [exact (run_of_names ptx _ _ (ptx2acc_map (λ k, ptx k.1 k.2) M N pair) _ _ _ He)|]. cbn. rewrite Hp by lia. destruct Hn as [[_ ->] ->]. done.
Qed.
End conversions.
(** To the positions and back, whatever the slots hold. *)
Lemma acc_round_trip {X} M N (slots : Z → Z → X) (d : X) l s (HM : side M) (HN : side N) (Hl : 0 <= l < 32) (Hs : 0 <= s < slots_of M N) :
  element (tp_ptx2acc M N (λ l p, default d (element (tp_acc2ptx M N slots) (l, p)))) (l, s) = Some (slots l s).
Proof.
  set (D := λ r c, let (l, s) := holder false M N r c in slots l s).
  assert (in_slots M N D slots) as HD by (intros l' s' Hl' Hs'; unfold D; by destruct (law_spec M N false l' s') as (_ & _ & -> & _)).
  rewrite (ptx2acc_slots M N HM HN D); [by rewrite <- HD|..|done|done].
  intros l' p Hl' Hp. by rewrite (acc2ptx_positions M N HM HN D).
Qed.
(** [C18] The accumulator conversions are exact: when the slots hold a matrix by the law, every position of
    [mma.sync] gets its element of it, and when the positions hold one, every slot does.  Nothing is read before it
    is written, for no position and no slot is missing. *)
Theorem conversions_exact {X} M N (D slots ptx : Z → Z → X) (HM : side M) (HN : side N) :
  (in_slots M N D slots → ∀ l p, 0 <= l < 32 → 0 <= p < slots_of M N →
     element (tp_acc2ptx M N slots) (l, p) = Some (D (ptx_row N l p) (ptx_col N l p))) ∧
  (in_positions M N D ptx → ∀ l s, 0 <= l < 32 → 0 <= s < slots_of M N →
     element (tp_ptx2acc M N ptx) (l, s) = Some (D (law_row l s false M N) (law_col l s false M N))).
Proof. split; intros Hv l k Hl Hk; [by apply acc2ptx_positions|by apply ptx2acc_slots]. Qed.
Lemma conversions_exact_witness : element (tp_acc2ptx 16 32 (λ l s, (law_row l s false 16 32, law_col l s false 16 32))) (5, 13) = Some (1, 27).
Proof. apply (proj1 (conversions_exact 16 32 pair _ (λ _ _, (0, 0)) ltac:(by left) ltac:(by right)) ltac:(done) 5 13); [lia|by vm_compute]. Defined.
(** *** A round has no race: its writes are to distinct places, and fill the scratch of 8 rows and 16 columns *)
Definition fills {X} (ws : Scratch (X := X)) : bool :=
  bool_decide (NoDup (fst <$> ws)) && (length ws =? 128)%nat && forallb (λ a, (0 <=? a) && (a <? 128)) (fst <$> ws).
Lemma fills_checked : shapes (λ M N, forallb (λ b, fills (store_run 4 (quad_at M N) (quads M N b.1 b.2) pair) &&
  fills (store_run 2 (pair_at N) (pairs M N b.1 b.2) pair)) (blocks_of M N)) = true.
Proof. vm_compute. reflexivity. Qed.
Lemma rounds_race_free {X} M N b (v : Z → Z → X) (HM : side M) (HN : side N) (Hb : b ∈ blocks_of M N) :
  fills (store_run 4 (quad_at M N) (quads M N b.1 b.2) v) = true ∧ fills (store_run 2 (pair_at N) (pairs M N b.1 b.2) v) = true.
Proof.
  pose proof (shapes_spec _ fills_checked M N HM HN) as Hf. cbn beta in Hf. rewrite forallb_forall in Hf. specialize (Hf b ltac:(by apply list_elem_of_In)).
  assert (∀ ws, fills (val_map (λ k, v k.1 k.2) ws) = fills ws) as Hm
    by (intros ws; unfold fills, val_map; rewrite <- list_fmap_compose, length_fmap; done).
  rewrite (store_map (λ k, v k.1 k.2) _ (quad_at M N) _ pair), (store_map (λ k, v k.1 k.2) _ (pair_at N) _ pair), !Hm. by apply andb_true_iff in Hf.
Qed.

(** ** The ring: reading through it is reading the chunk that was staged *)
Section ring.
Context (mem : Z → Z) (Hmem : ∀ a, 0 <= mem a < 256).
(** a chunk staged with [srcsize] valid bytes *)
Definition staged (src srcsize k : Z) : Z := if k <? srcsize then mem (src + k) else 0.
Definition staged_word (src srcsize off : Z) : Z * Z := load_uint2 (staged src srcsize) off.
Lemma put_bytes base off (j : nat) : (j <= 8)%nat → fold_left (put_byte mem base off) (seqZ off (Z.of_nat j)) (0, 0) =
  (le32 (staged (base + off) (Z.of_nat j)) 0, le32 (staged (base + off) (Z.of_nat j)) 4).
Proof.
  induction j as [|j IH]; intros Hj; [reflexivity|].
  rewrite seqZ_S, fold_left_app, IH by lia. cbn [fold_left]. unfold put_byte. cbn [fst snd].
  pose proof (λ k, Hmem (base + off + k)) as Hb. replace (base + (off + Z.of_nat j)) with (base + off + Z.of_nat j) by lia.
  replace (off + Z.of_nat j - off) with (Z.of_nat j) by lia.
  assert (j = 0 ∨ j = 1 ∨ j = 2 ∨ j = 3 ∨ j = 4 ∨ j = 5 ∨ j = 6 ∨ j = 7)%nat as Hjs by lia.
  pose proof (Hb 0); pose proof (Hb 1); pose proof (Hb 2); pose proof (Hb 3); pose proof (Hb 4); pose proof (Hb 5); pose proof (Hb 6); pose proof (Hb 7).
  destruct_or! Hjs; subst j; unfold staged, le32; change (4 + 1) with 5; change (4 + 2) with 6; change (4 + 3) with 7;
    change (0 + 1) with 1; change (0 + 2) with 2; change (0 + 3) with 3; cbv [Z.of_nat Pos.of_succ_nat Pos.succ Z.ltb Z.compare Pos.compare Pos.compare_cont];
    cbv iota; rewrite lor_shiftl; rewrite ?Z.shiftl_mul_pow2 by lia; rewrite ?Z.mul_0_l; try (f_equal; lia); try lia.
Qed.
Lemma le32_ext (f g : Z → Z) a b : (∀ k, 0 <= k < 4 → f (a + k) = g (b + k)) → le32 f a = le32 g b.
Proof.
  intros He. unfold le32. pose proof (He 0 ltac:(lia)) as H0'. rewrite !Z.add_0_r in H0'. by rewrite H0', (He 1), (He 2), (He 3) by lia.
Qed.
(** what a copy may be under each mode *)
Definition stageable (zmode src srcsize : Z) : Prop :=
  0 < src ∧ src mod 16 = 0 ∧ ((zmode = 0 ∧ srcsize = 16) ∨ (zmode = 1 ∧ (srcsize = 0 ∨ srcsize = 16)) ∨ (zmode = 2 ∧ 0 <= srcsize <= 16)).
Lemma low_bits src k : src mod 16 = 0 → 0 <= k < 16 → Z.land (Z.lor src k) 15 = k ∧ Z.ldiff (Z.lor src k) 15 = src.
Proof.
  intros Hs Hk. assert (Z.lor src k = k + src / 16 * 2 ^ 4) as ->.
  { rewrite Z.lor_comm, <- (lor_shiftl 4 k) by lia. f_equal. rewrite Z.shiftl_mul_pow2 by lia. change (2 ^ 4) with 16. pose proof (Z.div_mod src 16). lia. }
  split; [rewrite (Z.land_ones _ 4) by lia; change (2 ^ 4) with 16; rewrite Z.mod_add by lia; apply Z.mod_small; lia|].
  rewrite (Z.ldiff_ones_r _ 4) by lia. rewrite Z.shiftr_div_pow2, Z.shiftl_mul_pow2 by lia. change (2 ^ 4) with 16. rewrite Z.div_add, Z.div_small by lia.
  pose proof (Z.div_mod src 16). lia.
Qed.
Lemma whole_copy src off : off = 0 ∨ off = 8 → load_uint2 mem (src + off) = load_uint2 (staged src 16) off.
Proof.
  intros Ho. unfold load_uint2, staged. f_equal; apply le32_ext; intros k Hk; rewrite (proj2 (Z.ltb_lt _ 16)) by lia; f_equal; lia.
Qed.
(** Reading 8 bytes of a chunk through its ring entry gives the bytes the copy would have put in shared memory,
    zeros past its size. *)
Lemma ring_entry_read zmode src srcsize off (Hst : stageable zmode src srcsize) (Ho : off = 0 ∨ off = 8) :
  tp_ring_load mem (tp_stage src srcsize zmode) off zmode = load_uint2 (staged src srcsize) off.
Proof.
  assert (load_uint2 (staged src 0) off = (0, 0)) as Hzero.
  { unfold load_uint2, le32, staged. rewrite !(proj2 (Z.ltb_ge _ 0)) by lia. reflexivity. }
  destruct Hst as (Hpos & Hal & [[-> ->]|[[-> [-> | ->]]|[-> Hn]]]); unfold tp_ring_load, tp_stage.
  - by apply whole_copy.
  - cbn. by rewrite Hzero.
  - cbn. rewrite (proj2 (Z.eqb_neq src 0)) by lia. by apply whole_copy.
  - cbn. destruct (Z.eqb_spec srcsize 0) as [->|Hne]; [by rewrite Hzero|].
    assert (0 <= Z.land (16 - srcsize) 15 < 16 ∧ 16 - Z.land (16 - srcsize) 15 = srcsize) as [Hk Hks].
    { rewrite (Z.land_ones _ 4) by lia. change (2 ^ 4) with 16. rewrite Z.mod_small by lia. lia. }
    destruct (low_bits src _ Hal Hk) as [-> ->]. rewrite Hks. rewrite (proj2 (Z.eqb_neq _ 0)).
    2: { intros Hl. apply Z.lor_eq_0_iff in Hl. lia. }
    destruct (Z.leb_spec (off + 8) srcsize) as [Hle|Hgt].
    { unfold load_uint2, staged. f_equal; apply le32_ext; intros k ?; rewrite (proj2 (Z.ltb_lt _ srcsize)) by lia; f_equal; lia. }
    destruct (decide (0 <= srcsize - off)) as [Hin|Hout].
    + rewrite <- (Z2Nat.id (srcsize - off)) by lia. rewrite put_bytes, Z2Nat.id by lia. unfold load_uint2, staged.
      f_equal; apply le32_ext; intros k ?; repeat case_match; rewrite ?Z.ltb_lt, ?Z.ltb_ge in *; try lia; f_equal; lia.
    + rewrite seqZ_nil by lia. cbn. unfold load_uint2, le32, staged. rewrite !(proj2 (Z.ltb_ge _ srcsize)) by lia. reflexivity.
Qed.
(** Slots of the chunks of an object are distinct places of it, 8 bytes each. *)
Lemma ring_slot_chunk obj k : 0 <= obj → 0 <= k → obj + 16 * k < 2 ^ 64 → ring_slot obj (obj + 16 * k) = obj + 8 * k.
Proof.
  intros Ho Hk Hb. unfold ring_slot. replace (obj + 16 * k - obj) with (16 * k) by lia. rewrite (u64_small (16 * k)) by (split; lia).
  rewrite Z.shiftr_div_pow2 by lia. change (2 ^ 1) with 2. replace (16 * k) with (8 * k * 2) by lia. rewrite Z.div_mul by lia. apply u64_small. split; lia.
Qed.
Lemma srclane_range l j kind trans bm : 0 <= tp_srclane l j kind trans bm < 32.
Proof.
  unfold tp_srclane. cbv zeta. set (rl := if lawT kind trans then _ else _). set (m := Z.shiftr bm _).
  pose proof (Z.land_ones m 2 ltac:(lia)) as Hm. pose proof (Z.land_ones rl 3 ltac:(lia)) as Hr. change (Z.ones 2) with 3 in Hm. change (Z.ones 3) with 7 in Hr.
  rewrite Hm, Hr. change (2 ^ 2) with 4. change (2 ^ 3) with 8. pose proof (Z.mod_pos_bound m 4). pose proof (Z.mod_pos_bound rl 8). lia.
Qed.
Lemma offsets_checked : forallb (λ T : bool, each 32 (λ l, each 2 (λ j, let c := Z.land (if T then law_row l (4 * j) T 16 16 else law_col l (4 * j) T 16 16) 7 in
  (2 * c =? 0) || (2 * c =? 8)))) [true; false] = true.
Proof. vm_compute. reflexivity. Qed.
Lemma offset_cases l j kind trans : 0 <= l < 32 → 0 <= j < 2 → tp_offset l j kind trans = 0 ∨ tp_offset l j kind trans = 8.
Proof.
  intros Hl Hj. unfold tp_offset. cbv zeta. set (T := lawT kind trans). pose proof offsets_checked as Hf. rewrite forallb_forall in Hf.
  pose proof (each_spec _ _ (each_spec _ _ (Hf T ltac:(destruct T; cbn; auto)) l Hl) j Hj) as Hc. cbn beta in Hc. cbv zeta in Hc.
  apply orb_true_iff in Hc. rewrite !Z.eqb_eq in Hc. destruct T; exact Hc.
Qed.
(** [C19] A block read through the ring is the block [ldmatrix] would read from shared memory, had the copies been made. *)
Theorem ring_block ring smem obj addr lane kind trans bm zmode (Hl : 0 <= lane < 32)
    (Hring : ∀ l, 0 <= l < 32 → ∃ src srcsize, stageable zmode src srcsize ∧ ring (ring_slot obj (addr l)) = tp_stage src srcsize zmode ∧
       ∀ k, 0 <= k < 16 → smem (addr l + k) = staged src srcsize k) :
  tp_ld_ring mem ring obj addr lane kind trans bm zmode = tp_ld (load_uint2 smem) addr lane kind trans bm.
Proof.
  assert (∀ j, 0 <= j < 2 → tp_ring_load mem (ring (ring_slot obj (addr (tp_srclane lane j kind trans bm)))) (tp_offset lane j kind trans) zmode =
    load_uint2 smem (addr (tp_srclane lane j kind trans bm) + tp_offset lane j kind trans)) as Hj.
  { intros j Hj. destruct (Hring _ (srclane_range lane j kind trans bm)) as (src & n & Hst & -> & Hs).
    pose proof (offset_cases lane j kind trans Hl Hj) as Ho. rewrite (ring_entry_read _ _ _ _ Hst Ho). unfold load_uint2.
    f_equal; apply le32_ext; intros k Hk; rewrite <- Hs by lia; f_equal; lia. }
  unfold tp_ld_ring, tp_ld. cbn [fmap list_fmap mjoin list_join]. by rewrite (Hj 0), (Hj 1) by lia.
Qed.
End ring.
Definition demo_memory (a : Z) : Z := a mod 251.
Lemma demo_memory_byte a : 0 <= demo_memory a < 256.
Proof. unfold demo_memory. pose proof (Z.mod_pos_bound a 251). lia. Qed.
(** rows staged from [4096 + 32 l], 10 bytes of each, to shared memory at [1024 + 16 l] *)
Definition demo_ring (a : Z) : Z := tp_stage (4096 + 32 * ((a - 1024) / 8)) 10 2.
Definition demo_smem (a : Z) : Z := staged demo_memory (4096 + 32 * ((a - 1024) / 16)) 10 (a mod 16).
Lemma ring_block_witness :
  tp_ld_ring demo_memory demo_ring 1024 (λ l, 1024 + 16 * l) 3 0 false 216 2 = tp_ld (load_uint2 demo_smem) (λ l, 1024 + 16 * l) 3 0 false 216.
Proof.
  apply (ring_block demo_memory demo_memory_byte); [lia|]. intros l Hl. exists (4096 + 32 * l), 10. split_and!.
  - split; [lia|]. split; [|right; right; lia]. replace (4096 + 32 * l) with (0 + (256 + 2 * l) * 16) by lia. by rewrite Z.mod_add.
  - rewrite ring_slot_chunk by lia. unfold demo_ring. replace (1024 + 8 * l - 1024) with (l * 8) by lia. by rewrite Z.div_mul.
  - intros k Hk. unfold demo_smem. replace (1024 + 16 * l + k - 1024) with (l * 16 + k) by lia.
    rewrite Z.div_add_l, (Z.div_small k) by lia. replace (1024 + 16 * l + k) with (k + (64 + l) * 16) by lia.
    rewrite Z.mod_add, Z.mod_small by lia. by rewrite Z.add_0_r.
Defined.

(** ** The origin of a tile *)
(** the address of the first word of a lane of a fragment of the tile at [o] *)
Definition word0 (size o pitch l : Z) : Z := o + (Z.shiftr l 2 * pitch + 4 / size * Z.land l 3) * size.
(** The origin is found from any lane when the pitch is known, and with the pitch from two lanes when it is not. *)
Lemma tile_origin_found size o pitch p ld first (Hsize : 0 < size) (Hfirst : 0 <= first < 32)
    (Hp : ∀ l, 0 <= l < 32 → p l = u64 (word0 size o pitch l))
    (Hld : (0 <= ld ∧ ld = pitch) ∨
           (ld < 0 ∧ - 2 ^ 31 <= pitch < 2 ^ 31 ∧ - 2 ^ 63 <= o < 2 ^ 63 ∧ - 2 ^ 63 <= o + pitch * size < 2 ^ 63)) :
  tp_tile_origin size p ld first = (u64 o, pitch).
Proof.
  unfold tp_tile_origin. destruct Hld as [[Hld ->]|(Hld & Hpitch & Ho & Ho')].
  - rewrite (proj2 (Z.leb_le 0 pitch)) by lia. f_equal. rewrite Hp by done. unfold word0, u64. rewrite Zminus_mod_idemp_l. f_equal. lia.
  - rewrite (proj2 (Z.leb_gt 0 ld)) by lia. rewrite !Hp by lia. unfold word0. change (Z.shiftr 0 2) with 0. change (Z.land 0 3) with 0.
    change (Z.shiftr 4 2) with 1. change (Z.land 4 3) with 0. rewrite !Z.mul_0_r, !Z.add_0_r, Z.mul_1_l, ?Z.mul_0_l, ?Z.add_0_r.
    f_equal. assert (∀ x, sext 64 (u64 x) = sext 64 x) as Hsx by (intros; unfold sext, u64; by rewrite Zmod_mod).
    rewrite !Hsx, (sext_id 64 o), (sext_id 64 (o + pitch * size)) by lia. replace (o + pitch * size - o) with (pitch * size) by lia. rewrite Z.quot_mul by lia. apply sext_id; lia.
Qed.
