(* ===== verification/TpTile.v ===== *)
(** The operand of a device-memory matrix multiplication: the tile [__mvcc_tp_tile_origin] (TpLayout.v) finds at run
    time is the tile [proveDeviceBlocks] (DevBlocks.v) proved. *)
From S2P Require Import Prelude Cstd Expr Arena LlvmInt ArenaSem ArenaCmp TensorPoly DevEval DevEvalSem DevEvalThm DevEvalRun DevBlocks DevBlocksThm TpLayout TpLayoutThm.
Open Scope Z_scope.

(** the address of word [r] of lane [l], read from a tile at [origin] with a row pitch in elements *)
Definition tile_address (c : Cand) (origin pitch l r : Z) : Z :=
  u64 (origin + (frag_row c l r * pitch + frag_col c l r) * esize (c_type c)).
Lemma esize_cases t : esize t = 1 ∨ esize t = 2.
Proof. unfold esize. destruct (2 <=? t); auto. Qed.
Lemma word0_fragment c o pitch l : word0 (esize (c_type c)) o pitch l = o + (frag_row c l 0 * pitch + frag_col c l 0) * esize (c_type c).
Proof.
  unfold word0, frag_row, frag_col. change (Z.land 0 1) with 0. change (Z.shiftr 0 1) with 0. rewrite !Z.mul_0_r, !Z.add_0_r.
  destruct (esize_cases (c_type c)) as [-> | ->]; change (4 / 1) with 4; change (Z.quot 4 1) with 4; change (4 / 2) with 2; change (Z.quot 4 2) with 2;
    destruct (c_kind c =? 0); reflexivity.
Qed.
Section operand.
Context `{CmpInst} (F : Fn) (HF : fn_ok F) (X : Exec) (D : Val → Prop) (HX : lawful F X D).
Context (HD : ∀ v i u, D v → inst F v = Some i → u ∈ operands i → D u).
(** what the lanes pass: the address of their first word, as an unsigned 64-bit value *)
Definition operand_pointer (m : Moment X) (w : Z) (c : Cand) (l : Z) : Z := u64 (default 0 (word_address F X m w c l 0)).
(** [C17] The operation reads what the loads read: for a block that was accepted, the tile found from the lanes'
    pointers has every word of the block at the address its load had.  The pitch is either given or, when it is
    an [int] and the addresses are signed 64-bit ones, found from two lanes. *)
Theorem operand_read T mmas lds c p m w (HT : 0 <= T < 2 ^ 32) (Hin : (c, p) ∈ proveDeviceBlocks F T mmas lds) (Hu : warp_uniform F X)
    (HDw : Forall (λ word, D (pointer_of F word)) (c_words c)) (Hw : 0 <= w < T / 32)
    (Haddr : ∀ l a, 0 <= l < 32 → word_address F X m w c l 0 = Some a → - 2 ^ 63 <= a < 2 ^ 63) :
  ∃ pitch, ∀ ld first, 0 <= first < 32 → (0 <= ld ∧ ld = pitch) ∨ (ld < 0 ∧ - 2 ^ 31 <= pitch < 2 ^ 31) →
    let '(origin, found) := tp_tile_origin (esize (c_type c)) (operand_pointer m w c) ld first in
    found = pitch ∧ ∀ l r, 0 <= l < 32 → (r < 4)%nat →
      u64 <$> word_address F X m w c l r = Some (tile_address c origin found l (Z.of_nat r)).
Proof.
  destruct (proven_located F HF X D HX HD T mmas lds HT) as (st & Hi & Hall). destruct (Hall _ _ Hin) as (Hc & _ & Hlen & Hlen' & Hloc).
  destruct (lookup_lt_is_Some_2 (devBase p) (Z.to_nat w) ltac:(lia)) as [b Hb].
  destruct (lookup_lt_is_Some_2 (devLd p) (Z.to_nat w) ltac:(lia)) as [q Hq]. specialize (Hloc _ _ _ Hb Hq). rewrite Z2Nat.id in Hloc by lia.
  pose proof (located_tile F HF X D st w c b q m Hu Hi Hloc ltac:(by eapply candidates_words) HDw) as Htile.
  set (o := peval _ (t b)) in Htile. set (pitch := peval _ (t q)) in Htile. exists pitch. intros ld first Hfirst Hld.
  assert (∀ l, 0 <= l < 32 → word_address F X m w c l 0 = Some (word0 (esize (c_type c)) o pitch l)) as H0
    by (intros l Hl; rewrite Htile by lia; by rewrite word0_fragment).
  pose proof (Haddr 0 _ ltac:(lia) (H0 0 ltac:(lia))) as Ho. pose proof (Haddr 4 _ ltac:(lia) (H0 4 ltac:(lia))) as Ho'. unfold word0 in Ho, Ho'.
  change (Z.shiftr 0 2) with 0 in Ho. change (Z.land 0 3) with 0 in Ho. change (Z.shiftr 4 2) with 1 in Ho'. change (Z.land 4 3) with 0 in Ho'.
  rewrite (tile_origin_found _ o pitch).
  - split; [done|]. intros l r Hl Hr. rewrite Htile by done. cbn. f_equal. unfold tile_address, u64. by rewrite Zplus_mod_idemp_l.
  - destruct (esize_cases (c_type c)); lia.
  - done.
  - intros l Hl. unfold operand_pointer. by rewrite H0.
  - rewrite !Z.mul_0_r, ?Z.add_0_r, ?Z.mul_0_l in *. destruct Hld as [?|[??]]; [by left|right]. split_and!; lia.
Qed.
End operand.
Lemma operand_read_witness :
  (demo_cand 1 0 [39; 40; 41; 42]%nat, demo_proven [([], 32)]) ∈ proveDeviceBlocks demo_fn 64 demo_mmas demo_lds ∧
  ∃ pitch, ∀ ld first, 0 <= first < 32 → (0 <= ld ∧ ld = pitch) ∨ (ld < 0 ∧ - 2 ^ 31 <= pitch < 2 ^ 31) →
    let '(origin, found) := tp_tile_origin 2 (operand_pointer demo_fn demo_exec 3%nat 1 (demo_cand 1 0 [39; 40; 41; 42]%nat)) ld first in
    found = pitch ∧ ∀ l r, 0 <= l < 32 → (r < 4)%nat →
      u64 <$> word_address demo_fn demo_exec 3%nat 1 (demo_cand 1 0 [39; 40; 41; 42]%nat) l r =
      Some (tile_address (demo_cand 1 0 [39; 40; 41; 42]%nat) origin found l (Z.of_nat r)).
Proof.
  split; [rewrite demo_blocks; right; left|].
  apply (operand_read demo_fn demo_fn_ok demo_exec (λ _, True) demo_lawful ltac:(done) 64 demo_mmas demo_lds (demo_cand 1 0 [39; 40; 41; 42]%nat) (demo_proven [([], 32)]) 3%nat 1).
  - lia.
  - rewrite demo_blocks. right. left.
  - exact demo_uniform.
  - repeat constructor.
  - change (64 / 32) with 2. lia.
  - intros l a Hl. unfold word_address. intros [= <-]. change (val demo_exec) with demo_val. unfold demo_val. cbn -[Z.land Z.shiftr Z.of_nat Z.add Z.mul].
    pose proof (lane_range (32 * 1 + l)). set (x := Z.land (32 * 1 + l) 31) in *.
    assert (0 <= Z.shiftr x 2 < 8 ∧ 0 <= Z.land x 3 < 4) as [? ?].
    { rewrite Z.shiftr_div_pow2 by lia. rewrite (Z.land_ones _ 2) by lia. change (2 ^ 2) with 4. split; [|apply Z.mod_pos_bound; lia].
      split; [apply Z.div_pos; lia|apply Z.div_lt_upper_bound; lia]. }
    change (3 mod 4)%nat with 3%nat. lia.
Defined.
