(* ===== verification/Hnf.v ===== *)
(** The integer Hermite normal form of the coordinate discovery (cpp/mvcc-llvm/coords.cpp, [hnf] and
    [inverse]): the row operations, the elimination of a column, the whole reduction, and its
    correctness: it terminates, the transform is unimodular and produces the result, and the
    result is in Hermite normal form.

    Matrices are vectors of rows as in the source; entries are integers (the source's [int64_t]
    arithmetic is taken without overflow, which is undefined there). *)
From S2P Require Import Prelude.
Open Scope Z_scope.

Abbreviation Row := (list Z).
Abbreviation Mat := (list (list Z)).
(** [M[i][j]] *)
Definition ent (M : Mat) (i j : nat) : Z := nth j (nth i M []) 0.

(** ** The operations *)
(** the state: the matrix and the transform *)
Abbreviation St := (Mat * Mat)%type.
Definition row_sub (q : Z) (dst src : Row) : Row := zip_with (λ x y, x - q * y) dst src.
Definition sub_row (M : Mat) (dst src : nat) (q : Z) : Mat :=
  <[dst := row_sub q (nth dst M []) (nth src M [])]> M.
Definition rowOp (s : St) (dst src : nat) (q : Z) : St :=
  if q =? 0 then s else (sub_row s.1 dst src q, sub_row s.2 dst src q).
Definition swap (M : Mat) (a b : nat) : Mat := <[b := nth a M []]> (<[a := nth b M []]> M).
Definition swapRows (s : St) (a b : nat) : St :=
  if (a =? b)%nat then s else (swap s.1 a b, swap s.2 a b).
Definition neg (M : Mat) (a : nat) : Mat := <[a := Z.opp <$> nth a M []]> M.
Definition negRow (s : St) (a : nat) : St := (neg s.1 a, neg s.2 a).

Definition identity (r : nat) : Mat :=
  (λ i, (λ j, if (i =? j)%nat then 1 else 0) <$> seq 0 r) <$> seq 0 r.

(** the row at or below [p] with the smallest nonzero entry of the column, the first of them *)
Definition pick (M : Mat) (col : nat) (best : option (nat * Z)) (i : nat) : option (nat * Z) :=
  let v := ent M i col in
  if v =? 0 then best
  else
    let ab := if v <? 0 then - v else v in
    match best with
    | None => Some (i, ab)
    | Some (_, b) => if ab <? b then Some (i, ab) else best
    end.
Definition best_row (M : Mat) (p col : nat) : option (nat * Z) :=
  fold_left (pick M col) (seq p (length M - p)) None.
(** the rows below [p] reduced by the pivot row; whether any keeps a nonzero entry *)
Definition reduce_row (p col : nat) (s : St * bool) (i : nat) : St * bool :=
  let '(s, others) := s in
  if ent s.1 i col =? 0 then (s, others)
  else
    let s' := rowOp s i p (Z.quot (ent s.1 i col) (ent s.1 p col)) in
    (s', others || negb (ent s'.1 i col =? 0)).
Definition reduce_below (s : St) (p col : nat) : St * bool :=
  fold_left (reduce_row p col) (seq (S p) (length s.1 - S p)) (s, false).
(** the [for (;;)] loop; [fuel] bounds its iterations *)
Fixpoint eliminate (fuel : nat) (s : St) (p col : nat) : option St :=
  match fuel with
  | O => None
  | S fuel =>
      match best_row s.1 p col with
      | None => Some s
      | Some (best, _) =>
          let '(s', others) := reduce_below (swapRows s p best) p col in
          if others then eliminate fuel s' p col else Some s'
      end
  end.
(** enough iterations: every one lowers the smallest nonzero entry *)
Definition column_fuel (M : Mat) (col : nat) : nat :=
  S (S (Z.to_nat (fold_right (λ (r : Row) acc, Z.abs (nth col r 0) + acc) 0 M))).

(** the entries above a pivot reduced to be less than it *)
Definition reduce_above_row (p col : nat) (s : St) (i : nat) : St :=
  let m := ent s.1 i col in
  let d := ent s.1 p col in
  let q := Z.quot m d in
  rowOp s i p (if m - q * d <? 0 then q - 1 else q).
Definition fix_pivot (s : St) (p col : nat) : St :=
  let s := if ent s.1 p col <? 0 then negRow s p else s in
  fold_left (reduce_above_row p col) (seq 0 p) s.
(** one column; [p] is the number of pivots found *)
Definition hnf_column (r : nat) (acc : option (St * nat)) (col : nat) : option (St * nat) :=
  match acc with
  | Some (s, p) =>
      if (p <? r)%nat then
        match eliminate (column_fuel s.1 col) s p col with
        | Some s =>
            if negb (ent s.1 p col =? 0) then Some (fix_pivot s p col, S p) else Some (s, p)
        | None => None
        end
      else Some (s, p)
  | None => None
  end.
(** the reduced matrix, the transform and the rank *)
Definition hnf (M : Mat) : option (Mat * Mat * nat) :=
  let r := length M in
  let c := match M with row :: _ => length row | [] => O end in
  match fold_left (hnf_column r) (seq 0 c) (Some ((M, identity r), O)) with
  | Some ((H, U), p) => Some (H, U, p)
  | None => None
  end.
Definition inverse (U : Mat) : option Mat :=
  match hnf U with Some (_, W, _) => Some W | None => None end.

Example hnf_example :
  hnf [[2; 4; 4]; [-6; 6; 12]; [10; 4; 16]] =
  Some ([[2; 0; 120]; [0; 2; 20]; [0; 0; 156]], [[-16; 6; 7]; [-2; 1; 1]; [-21; 8; 9]], 3%nat).
Proof. vm_compute. reflexivity. Qed.

(** ** Matrices as functions *)
Definition Fn := nat → nat → Z.
Definition mmul (r : nat) (A B : Fn) : Fn := λ i j, sum r (λ k, A i k * B k j).
Definition delta : Fn := λ i j, if (i =? j)%nat then 1 else 0.
(** equality on the first [r] rows and [c] columns *)
Definition meq (r c : nat) (A B : Fn) : Prop := ∀ i j, (i < r)%nat → (j < c)%nat → A i j = B i j.

Lemma delta_eq i : delta i i = 1.
Proof. unfold delta. by rewrite Nat.eqb_refl. Qed.
Lemma delta_ne i j : i ≠ j → delta i j = 0.
Proof. intros H. unfold delta. by apply Nat.eqb_neq in H as ->. Qed.
Lemma mmul_delta_l r c B : meq r c (mmul r delta B) B.
Proof.
  intros i j Hi Hj. unfold mmul. rewrite (sum_single r i); [rewrite delta_eq; lia|done|].
  intros k Hk Hne. rewrite delta_ne by done. lia.
Qed.
Lemma mmul_delta_r r A : meq r r (mmul r A delta) A.
Proof.
  intros i j Hi Hj. unfold mmul. rewrite (sum_single r j); [rewrite delta_eq; lia|done|].
  intros k Hk Hne. rewrite delta_ne by done. lia.
Qed.
Lemma mmul_assoc r A B C i j : mmul r (mmul r A B) C i j = mmul r A (mmul r B C) i j.
Proof.
  unfold mmul.
  rewrite (sum_ext r _ (λ k, sum r (λ l, A i l * B l k * C k j))) by (intros; by rewrite <- sum_scale_r).
  rewrite sum_swap. apply sum_ext. intros l _. rewrite <- sum_scale. apply sum_ext. intros. lia.
Qed.
Lemma mmul_ext r c A A' B B' : meq r r A A' → meq r c B B' → meq r c (mmul r A B) (mmul r A' B').
Proof. intros HA HB i j Hi Hj. unfold mmul. apply sum_ext. intros k Hk. by rewrite HA, HB. Qed.
Lemma meq_trans r c A B C : meq r c A B → meq r c B C → meq r c A C.
Proof. intros H1 H2 i j Hi Hj. by rewrite H1, H2. Qed.
Lemma meq_sym r c A B : meq r c A B → meq r c B A.
Proof. intros H i j Hi Hj. by rewrite H. Qed.

(** *** Unimodular matrices: invertible over the integers *)
Definition unimodular (r : nat) (A : Fn) : Prop :=
  ∃ W, meq r r (mmul r A W) delta ∧ meq r r (mmul r W A) delta.
Lemma unimodular_delta r : unimodular r delta.
Proof. exists delta. split; apply mmul_delta_l. Qed.

(** an invertible transformation of the rows *)
Record RowT (r : nat) (T T' : Fn → Fn) : Prop := {
  rt_ext c A B : meq r c A B → meq r c (T A) (T B);
  rt_ext' c A B : meq r c A B → meq r c (T' A) (T' B);
  rt_mul c A B : meq r c (T (mmul r A B)) (mmul r (T A) B);
  rt_mul' c A B : meq r c (T' (mmul r A B)) (mmul r (T' A) B);
  rt_inv c A : meq r c (T (T' A)) A;
  rt_inv' c A : meq r c (T' (T A)) A }.
Lemma unimodular_row r T T' A : RowT r T T' → unimodular r A → unimodular r (T A).
Proof.
  intros HT (W & H1 & H2).
  assert (∀ B, meq r r (mmul r (T delta) B) (T B)) as HTm.
  { intros B. eapply meq_trans; [apply meq_sym, (rt_mul _ _ _ HT)|].
    apply (rt_ext _ _ _ HT), mmul_delta_l. }
  assert (∀ B, meq r r (mmul r (T' delta) B) (T' B)) as HTm'.
  { intros B. eapply meq_trans; [apply meq_sym, (rt_mul' _ _ _ HT)|].
    apply (rt_ext' _ _ _ HT), mmul_delta_l. }
  exists (mmul r W (T' delta)). split.
  - eapply meq_trans; [intros i j _ _; symmetry; apply mmul_assoc|].
    eapply meq_trans; [apply mmul_ext; [|intros i j _ _; reflexivity]|].
    { eapply meq_trans; [apply meq_sym, (rt_mul _ _ _ HT)|]. apply (rt_ext _ _ _ HT), H1. }
    eapply meq_trans; [apply HTm|]. apply (rt_inv _ _ _ HT).
  - eapply meq_trans; [intros i j _ _; apply mmul_assoc|].
    eapply meq_trans; [apply (mmul_ext _ _ _ W _ A); [by intros ????|]|exact H2].
    eapply meq_trans; [apply HTm'|]. apply (rt_inv' _ _ _ HT).
Qed.

(** *** The three row transformations *)
Definition act_sub (d s : nat) (q : Z) : Fn → Fn :=
  λ A i j, if (i =? d)%nat then A d j - q * A s j else A i j.
Definition act_swap (a b : nat) : Fn → Fn :=
  λ A i j, if (i =? b)%nat then A a j else if (i =? a)%nat then A b j else A i j.
Definition act_neg (a : nat) : Fn → Fn := λ A i j, if (i =? a)%nat then - A a j else A i j.
Lemma act_sub_row r d s q :
  (d < r)%nat → (s < r)%nat → d ≠ s → RowT r (act_sub d s q) (act_sub d s (- q)).
Proof.
  intros Hd Hs Hne. apply Nat.eqb_neq in Hne as Hne'. apply not_eq_sym, Nat.eqb_neq in Hne as Hne''.
  assert (∀ q c A B, meq r c A B → meq r c (act_sub d s q A) (act_sub d s q B)) as He.
  { intros q' c A B H i j Hi Hj. unfold act_sub. by destruct (Nat.eqb_spec i d); rewrite !H. }
  assert (∀ q c A B, meq r c (act_sub d s q (mmul r A B)) (mmul r (act_sub d s q A) B)) as Hm.
  { intros q' c A B i j Hi Hj. unfold act_sub, mmul. destruct (Nat.eqb_spec i d) as [->|]; [|done].
    rewrite <- sum_scale. pose proof (sum_add r (λ k, A d k * B k j) (λ k, - q' * (A s k * B k j))) as E.
    rewrite !sum_scale in E. rewrite (sum_ext _ (λ k, (A d k - q' * A s k) * B k j) (λ k, A d k * B k j + - q' * (A s k * B k j)))
      by (intros; lia). rewrite E, sum_scale. lia. }
  assert (∀ q c A, meq r c (act_sub d s q (act_sub d s (- q) A)) A) as Hi.
  { intros q' c A i j Hi Hj. unfold act_sub. rewrite Nat.eqb_refl, Hne''.
    destruct (Nat.eqb_spec i d) as [->|]; [lia|done]. }
  split; auto. intros c A. pose proof (Hi (- q) c A) as H. by rewrite Z.opp_involutive in H.
Qed.
Lemma act_swap_row r a b : (a < r)%nat → (b < r)%nat → RowT r (act_swap a b) (act_swap a b).
Proof.
  intros Ha Hb.
  assert (∀ c A B, meq r c A B → meq r c (act_swap a b A) (act_swap a b B)) as He.
  { intros c A B H i j Hi Hj. unfold act_swap.
    destruct (Nat.eqb_spec i b); [by rewrite H|]. by destruct (Nat.eqb_spec i a); rewrite H. }
  assert (∀ c A B, meq r c (act_swap a b (mmul r A B)) (mmul r (act_swap a b A) B)) as Hm.
  { intros c A B i j Hi Hj. unfold act_swap, mmul.
    destruct (Nat.eqb_spec i b); [done|]. by destruct (Nat.eqb_spec i a). }
  assert (∀ c A, meq r c (act_swap a b (act_swap a b A)) A) as Hi.
  { intros c A i j Hi Hj. unfold act_swap. rewrite !Nat.eqb_refl.
    destruct (Nat.eqb_spec i b) as [->|]; [destruct (Nat.eqb_spec a b) as [->|]; done|].
    destruct (Nat.eqb_spec i a) as [->|]; [done|done]. }
  split; auto.
Qed.
Lemma act_neg_row r a : (a < r)%nat → RowT r (act_neg a) (act_neg a).
Proof.
  intros Ha.
  assert (∀ c A B, meq r c A B → meq r c (act_neg a A) (act_neg a B)) as He.
  { intros c A B H i j Hi Hj. unfold act_neg. destruct (Nat.eqb_spec i a); by rewrite H. }
  assert (∀ c A B, meq r c (act_neg a (mmul r A B)) (mmul r (act_neg a A) B)) as Hm.
  { intros c A B i j Hi Hj. unfold act_neg, mmul. destruct (Nat.eqb_spec i a) as [->|]; [|done].
    rewrite <- (Z.mul_1_l (sum _ _)), <- Z.mul_opp_l, <- sum_scale. apply sum_ext. intros. lia. }
  assert (∀ c A, meq r c (act_neg a (act_neg a A)) A) as Hi.
  { intros c A i j Hi Hj. unfold act_neg. rewrite Nat.eqb_refl. destruct (Nat.eqb_spec i a) as [->|]; lia. }
  split; auto.
Qed.

(** ** The operations on matrices of lists *)
Definition dims (M : Mat) (r c : nat) : Prop := length M = r ∧ Forall (λ row, length row = c) M.
Lemma dims_row M r c i : dims M r c → (i < r)%nat → length (nth i M []) = c.
Proof.
  intros [Hl Hc] Hi. rewrite Forall_forall in Hc. apply Hc. apply list_elem_of_In, nth_In. lia.
Qed.
Lemma nth_insert {A} (l : list A) d x i dflt :
  (d < length l)%nat → nth i (<[d := x]> l) dflt = if (i =? d)%nat then x else nth i l dflt.
Proof.
  revert d i. induction l as [|y l IH]; cbn; intros d i Hd; [lia|].
  destruct d as [|d], i as [|i]; cbn; try done. apply IH. lia.
Qed.
Lemma dims_insert M r c d row : dims M r c → length row = c → dims (<[d := row]> M) r c.
Proof. intros [Hl Hc] Hr. split; [by rewrite length_insert|]. by apply Forall_insert. Qed.
Lemma nth_zip f (a b : Row) j :
  (j < length a)%nat → (j < length b)%nat → nth j (zip_with f a b) 0 = f (nth j a 0) (nth j b 0).
Proof.
  revert b j. induction a as [|x a IH]; intros [|y b] [|j]; cbn; try lia. intros. apply IH; lia.
Qed.
Lemma nth_fmap_opp (a : Row) j : nth j (Z.opp <$> a) 0 = - nth j a 0.
Proof. revert j. induction a as [|x a IH]; intros [|j]; cbn; auto. Qed.

Lemma sub_row_spec M r c d s q :
  dims M r c → (d < r)%nat → (s < r)%nat →
  dims (sub_row M d s q) r c ∧ meq r c (ent (sub_row M d s q)) (act_sub d s q (ent M)).
Proof.
  intros HM Hd Hs. pose proof (dims_row _ _ _ _ HM Hd) as Ld. pose proof (dims_row _ _ _ _ HM Hs) as Ls.
  split.
  - apply dims_insert; [done|]. unfold row_sub. rewrite length_zip_with. lia.
  - intros i j Hi Hj. unfold sub_row, ent, act_sub. destruct HM as [Hl _].
    rewrite nth_insert by lia. destruct (Nat.eqb_spec i d) as [->|]; [|done].
    unfold row_sub. by rewrite nth_zip by lia.
Qed.
Lemma swap_spec M r c a b :
  dims M r c → (a < r)%nat → (b < r)%nat →
  dims (swap M a b) r c ∧ meq r c (ent (swap M a b)) (act_swap a b (ent M)).
Proof.
  intros HM Ha Hb. pose proof (dims_row _ _ _ _ HM Ha). pose proof (dims_row _ _ _ _ HM Hb).
  split; [by repeat apply dims_insert|].
  intros i j Hi Hj. unfold swap, ent, act_swap. destruct HM as [Hl _].
  rewrite !nth_insert by (rewrite ?length_insert; lia).
  destruct (Nat.eqb_spec i b) as [->|]; [done|]. by destruct (Nat.eqb_spec i a).
Qed.
Lemma neg_row_spec M r c a :
  dims M r c → (a < r)%nat → dims (neg M a) r c ∧ meq r c (ent (neg M a)) (act_neg a (ent M)).
Proof.
  intros HM Ha. pose proof (dims_row _ _ _ _ HM Ha). split; [apply dims_insert; [done|by rewrite length_fmap]|].
  intros i j Hi Hj. unfold neg, ent, act_neg. destruct HM as [Hl _].
  rewrite nth_insert by lia. destruct (Nat.eqb_spec i a) as [->|]; [|done]. apply nth_fmap_opp.
Qed.
Lemma nth_fmap_seq {A} (f : nat → A) r i d : (i < r)%nat → nth i (f <$> seq 0 r) d = f i.
Proof. intros Hi. by rewrite nth_lookup, list_lookup_fmap, lookup_seq_lt by lia. Qed.
Lemma ent_identity r : dims (identity r) r r ∧ meq r r (ent (identity r)) delta.
Proof.
  split.
  - split; [unfold identity; by rewrite length_fmap, length_seq|].
    apply Forall_fmap, Forall_forall. intros i _. cbn. by rewrite length_fmap, length_seq.
  - intros i j Hi Hj. unfold ent, identity. by rewrite !nth_fmap_seq by lia.
Qed.

Section reduction.
Context (r c : nat) (M0 : Mat).
(** the transform is unimodular and takes the original matrix to the current one *)
Record inv (s : St) : Prop := {
  inv_M : dims s.1 r c;
  inv_U : dims s.2 r r;
  inv_rel : meq r c (ent s.1) (mmul r (ent s.2) (ent M0));
  inv_uni : unimodular r (ent s.2) }.
Lemma unimodular_meq A B : meq r r A B → unimodular r A → unimodular r B.
Proof.
  intros H (W & H1 & H2). exists W. split.
  - eapply meq_trans; [|exact H1]. apply mmul_ext; [by apply meq_sym|by intros ????].
  - eapply meq_trans; [|exact H2]. apply mmul_ext; [by intros ????|by apply meq_sym].
Qed.
Lemma inv_step s s' T T' :
  inv s → RowT r T T' → dims s'.1 r c → dims s'.2 r r →
  meq r c (ent s'.1) (T (ent s.1)) → meq r r (ent s'.2) (T (ent s.2)) → inv s'.
Proof.
  intros [HM HU Hrel Huni] HT HM' HU' E1 E2. split; [done|done| |].
  - eapply meq_trans; [exact E1|]. eapply meq_trans; [apply (rt_ext _ _ _ HT), Hrel|].
    eapply meq_trans; [apply (rt_mul _ _ _ HT)|]. apply mmul_ext; [by apply meq_sym|by intros ????].
  - eapply unimodular_meq; [apply meq_sym, E2|]. by eapply unimodular_row.
Qed.
Lemma rowOp_spec s d p q :
  inv s → (d < r)%nat → (p < r)%nat → d ≠ p →
  inv (rowOp s d p q) ∧ meq r c (ent (rowOp s d p q).1) (act_sub d p q (ent s.1)).
Proof.
  intros Hs Hd Hp Hne. unfold rowOp. destruct (Z.eqb_spec q 0) as [->|Hq].
  - split; [done|]. intros i j _ _. unfold act_sub. destruct (Nat.eqb_spec i d); subst; lia.
  - destruct (sub_row_spec s.1 r c d p q (inv_M _ Hs) Hd Hp) as [? ?].
    destruct (sub_row_spec s.2 r r d p q (inv_U _ Hs) Hd Hp) as [? ?].
    split; [|done]. eapply inv_step; [exact Hs|by apply (act_sub_row r d p q)|done..].
Qed.
Lemma swapRows_spec s a b :
  inv s → (a < r)%nat → (b < r)%nat →
  inv (swapRows s a b) ∧ meq r c (ent (swapRows s a b).1) (act_swap a b (ent s.1)).
Proof.
  intros Hs Ha Hb. unfold swapRows. destruct (Nat.eqb_spec a b) as [->|Hne].
  - split; [done|]. intros i j _ _. unfold act_swap. by destruct (Nat.eqb_spec i b) as [->|].
  - destruct (swap_spec s.1 r c a b (inv_M _ Hs) Ha Hb) as [? ?].
    destruct (swap_spec s.2 r r a b (inv_U _ Hs) Ha Hb) as [? ?].
    split; [|done]. eapply inv_step; [exact Hs|by apply (act_swap_row r a b)|done..].
Qed.
Lemma negRow_spec s a :
  inv s → (a < r)%nat → inv (negRow s a) ∧ meq r c (ent (negRow s a).1) (act_neg a (ent s.1)).
Proof.
  intros Hs Ha. unfold negRow.
  destruct (neg_row_spec s.1 r c a (inv_M _ Hs) Ha) as [? ?].
  destruct (neg_row_spec s.2 r r a (inv_U _ Hs) Ha) as [? ?].
  split; [|done]. eapply inv_step; [exact Hs|by apply (act_neg_row r a)|done..].
Qed.

(** *** The elimination of a column *)
Lemma pick_fold M col l best0 :
  let best := fold_left (pick M col) l best0 in
  (best0 = None → best = None → ∀ i, i ∈ l → ent M i col = 0) ∧
  (∀ b ab, best = Some (b, ab) →
    (best0 = Some (b, ab) ∨ (b ∈ l ∧ ent M b col ≠ 0 ∧ ab = Z.abs (ent M b col))) ∧
    (∀ b0 ab0, best0 = Some (b0, ab0) → ab <= ab0) ∧
    ∀ i, i ∈ l → ent M i col ≠ 0 → ab <= Z.abs (ent M i col)) ∧
  (is_Some best0 → is_Some best).
Proof.
  revert best0. induction l as [|x l IH]; intros best0; cbn [fold_left].
  { split_and!; [set_solver| |done]. intros b ab ->. split_and!; [by left|naive_solver lia|set_solver]. }
  specialize (IH (pick M col best0 x)). cbv zeta in *. destruct IH as (H1 & H2 & H3).
  assert ((pick M col best0 x = best0 ∧ ent M x col = 0) ∨
    (ent M x col ≠ 0 ∧ pick M col best0 x = Some (x, Z.abs (ent M x col)) ∧
      ∀ b0 ab0, best0 = Some (b0, ab0) → Z.abs (ent M x col) <= ab0) ∨
    (ent M x col ≠ 0 ∧ ∃ b0 ab0, best0 = Some (b0, ab0) ∧ pick M col best0 x = best0 ∧
      ab0 <= Z.abs (ent M x col))) as Hp.
  { unfold pick. destruct (Z.eqb_spec (ent M x col) 0); [by left|right].
    assert ((if ent M x col <? 0 then - ent M x col else ent M x col) = Z.abs (ent M x col)) as ->
      by (destruct (Z.ltb_spec (ent M x col) 0); lia).
    destruct best0 as [[b0 ab0]|]; [|left; naive_solver].
    destruct (Z.ltb_spec (Z.abs (ent M x col)) ab0); [left|right].
    - split_and!; [done|done|]. intros ?? [= <- <-]. lia.
    - split; [done|]. exists b0, ab0. split_and!; [done|done|lia]. }
  destruct Hp as [[Ep Ex]|[(Ex & Ep & Hle)|(Ex & b0 & ab0 & E0 & Ep & Hle)]]; rewrite Ep in *.
  - split_and!; [intros H0 Hb i [->|Hi]%elem_of_cons; auto| |done].
    intros b ab Hb. destruct (H2 b ab Hb) as (Hc & Hl & Hm). split_and!; [set_solver|done|].
    intros i [->|Hi]%elem_of_cons; [done|auto].
  - assert (is_Some (fold_left (pick M col) l (Some (x, Z.abs (ent M x col))))) as Hsome by eauto.
    split_and!; [intros _ Hb; rewrite Hb in Hsome; by destruct Hsome| |done].
    intros b ab Hb. destruct (H2 b ab Hb) as (Hc & Hl & Hm). specialize (Hl _ _ eq_refl).
    split_and!.
    + right. destruct Hc as [[= <- <-]|(? & ? & ?)]; [set_solver|]. set_solver.
    + intros ?? E. specialize (Hle _ _ E). lia.
    + intros i [->|Hi]%elem_of_cons; [lia|auto].
  - split_and!; [congruence| |done].
    intros b ab Hb. destruct (H2 b ab Hb) as (Hc & Hl & Hm). specialize (Hl _ _ E0).
    split_and!; [set_solver|naive_solver lia|]. intros i [->|Hi]%elem_of_cons; [lia|auto].
Qed.
Lemma best_row_spec M p col :
  length M = r →
  match best_row M p col with
  | None => ∀ i, (p <= i < r)%nat → ent M i col = 0
  | Some (b, ab) => (p <= b < r)%nat ∧ ent M b col ≠ 0 ∧ ab = Z.abs (ent M b col) ∧
      ∀ i, (p <= i < r)%nat → ent M i col ≠ 0 → ab <= Z.abs (ent M i col)
  end.
Proof.
  intros Hl. unfold best_row. rewrite Hl.
  destruct (pick_fold M col (seq p (r - p)) None) as (H1 & H2 & _). cbv zeta in *.
  destruct (fold_left _ _ _) as [[b ab]|] eqn:E.
  - destruct (H2 b ab eq_refl) as ([?|(Hb & Hn & Ha)] & _ & Hm); [done|].
    rewrite elem_of_seq in Hb. split_and!; [lia|lia|done|done|]. intros i Hi. apply Hm. rewrite elem_of_seq. lia.
  - intros i Hi. apply H1; [done|done|]. rewrite elem_of_seq. lia.
Qed.

Lemma act_sub_other d s q A i j : i ≠ d → act_sub d s q A i j = A i j.
Proof. intros H. unfold act_sub. by apply Nat.eqb_neq in H as ->. Qed.
Lemma act_sub_same d s q A j : act_sub d s q A d j = A d j - q * A s j.
Proof. unfold act_sub. by rewrite Nat.eqb_refl. Qed.

Section column.
Context (p col : nat) (Hp : (p < r)%nat) (Hcol : (col < c)%nat).
(** rows from [p] on are zero in the columns already treated *)
Definition cleared (A : Fn) : Prop := ∀ i j, (p <= i < r)%nat → (j < col)%nat → A i j = 0.
(** the rows above [p] are those of [A] *)
Definition same_above (A B : Fn) : Prop := ∀ i j, (i < p)%nat → (j < c)%nat → B i j = A i j.

Lemma reduce_fold l s o piv :
  inv s → NoDup l → (∀ i, i ∈ l → (p < i < r)%nat) → ent s.1 p col = piv → piv ≠ 0 → cleared (ent s.1) →
  let '(s', o') := fold_left (reduce_row p col) l (s, o) in
  inv s' ∧ cleared (ent s'.1) ∧
  (∀ i j, (i < r)%nat → (j < c)%nat → i ∉ l → ent s'.1 i j = ent s.1 i j) ∧
  (∀ i, i ∈ l → Z.abs (ent s'.1 i col) < Z.abs piv) ∧
  (o' = true ↔ o = true ∨ ∃ i, i ∈ l ∧ ent s'.1 i col ≠ 0).
Proof.
  revert s o. induction l as [|i l IH]; intros s o Hs Hnd Hl Hpiv Hne Hcl; cbn [fold_left].
  { split_and!; [done|done|done|set_solver|set_solver]. }
  apply NoDup_cons in Hnd as [Hil Hnd]. pose proof (Hl i ltac:(set_solver)) as Hi.
  assert (∃ s1 o1, reduce_row p col (s, o) i = (s1, o1) ∧ inv s1 ∧
    (∀ i' j, (i' < r)%nat → (j < c)%nat → i' ≠ i → ent s1.1 i' j = ent s.1 i' j) ∧
    cleared (ent s1.1) ∧ Z.abs (ent s1.1 i col) < Z.abs piv ∧
    (o1 = true ↔ o = true ∨ ent s1.1 i col ≠ 0)) as (s1 & o1 & E1 & Hs1 & Hoth & Hcl1 & Hab & Ho1).
  { unfold reduce_row. destruct (Z.eqb_spec (ent s.1 i col) 0) as [Ez|Ez].
    - exists s, o. split_and!; [done|done|done|done|lia|]. split; [by left|intros [?|?]; [done|lia]].
    - destruct (rowOp_spec s i p (Z.quot (ent s.1 i col) (ent s.1 p col)) Hs) as [Hinv Hm]; [lia..|].
      eexists _, _. split; [done|]. split_and!; [done| | | |].
      + intros i' j Hi' Hj Hii. rewrite Hm by done. by apply act_sub_other.
      + intros i' j Hi' Hj. rewrite Hm by lia. destruct (decide (i' = i)) as [->|Hii].
        * rewrite act_sub_same, (Hcl i j), (Hcl p j) by lia. lia.
        * rewrite act_sub_other by done. by apply Hcl.
      + rewrite Hm, act_sub_same, Hpiv by lia. pose proof (Z.quot_rem (ent s.1 i col) piv Hne).
        pose proof (Z.rem_bound_abs (ent s.1 i col) piv Hne).
        replace (ent s.1 i col - Z.quot (ent s.1 i col) piv * piv) with (Z.rem (ent s.1 i col) piv) by lia. done.
      + rewrite orb_true_iff, negb_true_iff, Z.eqb_neq. done. }
  rewrite E1. specialize (IH s1 o1 Hs1 Hnd ltac:(set_solver)).
  assert (ent s1.1 p col = piv) as Hp1 by (rewrite Hoth by lia; done).
  specialize (IH Hp1 Hne Hcl1). destruct (fold_left _ l (s1, o1)) as [s' o'].
  destruct IH as (Hs' & Hcl' & Hun & Hlt & Ho). split_and!; [done|done| | |].
  - intros i' j Hi' Hj Hn. rewrite Hun, Hoth by (done || set_solver). done.
  - intros i' [->|Hi']%elem_of_cons; [|by apply Hlt]. by rewrite Hun by (done || lia).
  - rewrite Ho, Ho1. assert (ent s'.1 i col = ent s1.1 i col) as Ei by (by rewrite Hun by (done || lia)).
    split.
    + intros [[?|?]|(k & ? & ?)]; [by left|right; exists i; rewrite Ei; set_solver|right; exists k; set_solver].
    + intros [?|(k & [->|?]%elem_of_cons & ?)]; [by do 2 left|left; right; by rewrite <- Ei|right; eauto].
Qed.

Lemma eliminate_spec fuel s :
  inv s → cleared (ent s.1) →
  (∀ b ab, best_row s.1 p col = Some (b, ab) → (Z.to_nat ab < fuel)%nat) → (0 < fuel)%nat →
  ∃ s', eliminate fuel s p col = Some s' ∧ inv s' ∧ cleared (ent s'.1) ∧
    same_above (ent s.1) (ent s'.1) ∧ ∀ i, (p < i < r)%nat → ent s'.1 i col = 0.
Proof.
  revert s. induction fuel as [|fuel IH]; intros s Hs Hcl Hfuel Hpos; [lia|]. cbn [eliminate].
  pose proof (best_row_spec s.1 p col ltac:(by destruct (inv_M _ Hs))) as Hb.
  destruct (best_row s.1 p col) as [[b ab]|].
  2: { exists s. split_and!; [done|done|done|by intros ????|]. intros i Hi. apply Hb. lia. }
  destruct Hb as (Hb & Hbn & Hab & Hmin). specialize (Hfuel _ _ eq_refl).
  destruct (swapRows_spec s p b Hs) as [Hs1 Hm1]; [lia..|]. set (s1 := swapRows s p b) in *.
  assert (ent s1.1 p col = ent s.1 b col) as Hpiv.
  { rewrite Hm1 by lia. unfold act_swap. destruct (Nat.eqb_spec p b) as [->|]; [done|]. by rewrite Nat.eqb_refl. }
  assert (cleared (ent s1.1)) as Hcl1.
  { intros i j Hi Hj. rewrite Hm1 by lia. unfold act_swap.
    destruct (Nat.eqb_spec i b); [apply Hcl; lia|]. destruct (Nat.eqb_spec i p); apply Hcl; lia. }
  assert (same_above (ent s.1) (ent s1.1)) as Hab1.
  { intros i j Hi Hj. rewrite Hm1 by lia. unfold act_swap.
    destruct (Nat.eqb_spec i b); [lia|]. destruct (Nat.eqb_spec i p); [lia|done]. }
  unfold reduce_below. assert (length s1.1 = r) as Hl1 by (by destruct (inv_M _ Hs1)). rewrite Hl1.
  pose proof (reduce_fold (seq (S p) (r - S p)) s1 false _ Hs1 (NoDup_seq _ _)
    ltac:(intros i Hi; rewrite elem_of_seq in Hi; lia) Hpiv Hbn Hcl1) as Hred.
  destruct (fold_left _ _ (s1, false)) as [s2 others].
  destruct Hred as (Hs2 & Hcl2 & Hun & Hlt & Ho).
  assert (same_above (ent s.1) (ent s2.1)) as Hab2.
  { intros i j Hi Hj. rewrite Hun; [by apply Hab1|lia|done|]. rewrite elem_of_seq. lia. }
  destruct others.
  - assert (∃ i, (p < i < r)%nat ∧ ent s2.1 i col ≠ 0) as (i & Hi & Hin).
    { destruct (proj1 Ho eq_refl) as [?|(i & Hi & ?)]; [done|]. rewrite elem_of_seq in Hi. exists i. split; [lia|done]. }
    destruct (IH s2 Hs2 Hcl2) as (s' & E & Hs' & Hcl' & Hsa & Hz).
    + intros b2 ab2 E2. pose proof (best_row_spec s2.1 p col ltac:(by destruct (inv_M _ Hs2))) as Hb2.
      rewrite E2 in Hb2. destruct Hb2 as (_ & _ & _ & Hmin2). specialize (Hmin2 i ltac:(lia) Hin).
      specialize (Hlt i ltac:(rewrite elem_of_seq; lia)). lia.
    + assert (0 < Z.abs (ent s.1 b col)) by lia. lia.
    + exists s'. split_and!; [done|done|done| |done].
      intros i' j Hi' Hj. rewrite Hsa by done. by apply Hab2.
  - exists s2. split_and!; [done|done|done|done|]. intros i Hi.
    destruct (decide (ent s2.1 i col = 0)) as [|Hn]; [done|]. exfalso.
    assert (false = true); [|done]. apply Ho. right. exists i. rewrite elem_of_seq. split; [lia|done].
Qed.

(** *** The pivot of a column *)
Lemma reduce_above_fold l s d :
  inv s → cleared (ent s.1) → NoDup l → (∀ i, i ∈ l → (i < p)%nat) → ent s.1 p col = d → 0 < d →
  let s' := fold_left (reduce_above_row p col) l s in
  inv s' ∧
  (∀ i j, (i < r)%nat → (j < c)%nat → i ∉ l ∨ (j < col)%nat → ent s'.1 i j = ent s.1 i j) ∧
  (∀ i, i ∈ l → 0 <= ent s'.1 i col < d).
Proof.
  revert s. induction l as [|i l IH]; intros s Hs Hcl Hnd Hl Hd Hpos; cbn [fold_left].
  { split_and!; [done|done|set_solver]. }
  apply NoDup_cons in Hnd as [Hil Hnd]. pose proof (Hl i ltac:(set_solver)) as Hi.
  assert (inv (reduce_above_row p col s i) ∧
    (∀ i' j, (i' < r)%nat → (j < c)%nat → i' ≠ i ∨ (j < col)%nat →
      ent (reduce_above_row p col s i).1 i' j = ent s.1 i' j) ∧
    0 <= ent (reduce_above_row p col s i).1 i col < d) as (Hs1 & Hun1 & Hr1).
  { unfold reduce_above_row. set (q := if _ <? 0 then _ else _).
    destruct (rowOp_spec s i p q Hs) as [Hinv Hm]; [lia..|]. split; [done|split].
    - intros i' j Hi' Hj Hor. rewrite Hm by done. destruct (decide (i' = i)) as [->|Hne].
      + rewrite act_sub_same, (Hcl p j) by lia. lia.
      + by apply act_sub_other.
    - rewrite Hm, act_sub_same by lia. subst q. rewrite Hd.
      pose proof (Z.quot_rem (ent s.1 i col) d ltac:(lia)) as Hqr.
      pose proof (Z.rem_bound_abs (ent s.1 i col) d ltac:(lia)) as Hb.
      destruct (Z.ltb_spec (ent s.1 i col - Z.quot (ent s.1 i col) d * d) 0); lia. }
  set (s1 := reduce_above_row p col s i) in *.
  assert (cleared (ent s1.1)) as Hcl1 by (intros i' j ? ?; rewrite Hun1 by lia; apply Hcl; lia).
  assert (ent s1.1 p col = d) as Hd1 by (rewrite Hun1 by lia; done).
  specialize (IH s1 Hs1 Hcl1 Hnd ltac:(set_solver) Hd1 Hpos). cbv zeta in IH.
  destruct IH as (Hs' & Hun & Hb). split_and!; [done| |].
  - intros i' j Hi' Hj Hor. rewrite Hun, Hun1 by (try done; set_solver). done.
  - intros i' [->|Hi']%elem_of_cons; [|by apply Hb]. by rewrite Hun by (try lia; by left).
Qed.
Lemma fix_pivot_spec s :
  inv s → cleared (ent s.1) → ent s.1 p col ≠ 0 → (∀ i, (p < i < r)%nat → ent s.1 i col = 0) →
  let s' := fix_pivot s p col in
  inv s' ∧ 0 < ent s'.1 p col ∧
  (∀ i j, (p <= i < r)%nat → (j < col)%nat → ent s'.1 i j = 0) ∧
  (∀ i, (p < i < r)%nat → ent s'.1 i col = 0) ∧
  (∀ i j, (i < p)%nat → (j < col)%nat → ent s'.1 i j = ent s.1 i j) ∧
  (∀ i, (i < p)%nat → 0 <= ent s'.1 i col < ent s'.1 p col).
Proof.
  intros Hs Hcl Hne Hz. unfold fix_pivot.
  set (s1 := if ent s.1 p col <? 0 then negRow s p else s).
  assert (inv s1 ∧ 0 < ent s1.1 p col ∧ cleared (ent s1.1) ∧
    ∀ i j, (i < r)%nat → (j < c)%nat → i ≠ p → ent s1.1 i j = ent s.1 i j) as (Hs1 & Hpos & Hcl1 & Hun1).
  { subst s1. destruct (Z.ltb_spec (ent s.1 p col) 0) as [Hlt|Hge]; [|split_and!; [done|lia|done|done]].
    destruct (negRow_spec s p Hs Hp) as [Hinv Hm]. split_and!; [done| | |].
    - rewrite Hm by lia. unfold act_neg. rewrite Nat.eqb_refl. lia.
    - intros i j Hi Hj. rewrite Hm by lia. unfold act_neg.
      destruct (Nat.eqb_spec i p); rewrite Hcl by lia; done.
    - intros i j Hi Hj Hn. rewrite Hm by done. unfold act_neg. by apply Nat.eqb_neq in Hn as ->. }
  pose proof (reduce_above_fold (seq 0 p) s1 _ Hs1 Hcl1 (NoDup_seq _ _)
    ltac:(intros i Hi; rewrite elem_of_seq in Hi; lia) eq_refl Hpos) as Hf. cbv zeta in *.
  destruct Hf as (Hs' & Hun & Hb).
  assert (∀ j, (j < c)%nat → ent (fold_left (reduce_above_row p col) (seq 0 p) s1).1 p j = ent s1.1 p j) as Hpj.
  { intros j Hj. apply Hun; [done|done|]. left. rewrite elem_of_seq. lia. }
  split_and!; [done|by rewrite Hpj| | | |].
  - intros i j Hi Hj. rewrite Hun by (try lia; by right). by apply Hcl1.
  - intros i Hi. rewrite Hun by (try lia; left; rewrite elem_of_seq; lia). rewrite Hun1 by lia. by apply Hz.
  - intros i j Hi Hj. rewrite Hun by (try lia; by right). apply Hun1; lia.
  - intros i Hi. rewrite Hpj by done. apply Hb. rewrite elem_of_seq. lia.
Qed.
End column.

(** *** The whole reduction *)
(** [pc] lists the pivot columns among the first [col]; the pivot of row [k] is positive, what is to
    its left (in its row and below) and below it is zero, what is above it is between 0 and it, and
    the rows without a pivot are zero *)
Record echelon (col : nat) (pc : list nat) (A : Fn) : Prop := {
  ech_rank : (length pc <= r)%nat;
  ech_col k x : pc !! k = Some x → (x < col)%nat;
  ech_pos k x : pc !! k = Some x → 0 < A k x;
  ech_left k x i j : pc !! k = Some x → (k <= i < r)%nat → (j < x)%nat → A i j = 0;
  ech_below k x i : pc !! k = Some x → (k < i < r)%nat → A i x = 0;
  ech_above k x i : pc !! k = Some x → (i < k)%nat → 0 <= A i x < A k x;
  ech_rest i j : (length pc <= i < r)%nat → (j < col)%nat → A i j = 0 }.
Lemma echelon_frame col pc A B :
  (col <= c)%nat → echelon col pc A → same_above (length pc) A B → cleared (length pc) col B → echelon col pc B.
Proof.
  intros Hc [H1 H2 H3 H4 H5 H6 H7] Hs Hcl.
  assert (∀ k x, pc !! k = Some x → (k < length pc)%nat) as Hlt by (intros; by eapply lookup_lt_Some).
  split; [done|done|..].
  - intros k x Hk. pose proof (H2 _ _ Hk). rewrite Hs by (eauto; lia). eauto.
  - intros k x i j Hk Hi Hj. pose proof (H2 _ _ Hk).
    destruct (decide (i < length pc)%nat); [rewrite Hs by lia; eauto|apply Hcl; lia].
  - intros k x i Hk Hi. pose proof (H2 _ _ Hk).
    destruct (decide (i < length pc)%nat); [rewrite Hs by lia; eauto|apply Hcl; lia].
  - intros k x i Hk Hi. pose proof (H2 _ _ Hk). pose proof (Hlt _ _ Hk). rewrite !Hs by lia. eauto.
  - done.
Qed.
Lemma echelon_skip col pc A :
  echelon col pc A → (∀ i, (length pc <= i < r)%nat → A i col = 0) → echelon (S col) pc A.
Proof.
  intros [H1 H2 H3 H4 H5 H6 H7] Hz. split; [done| |done..|].
  - intros k x Hk. pose proof (H2 _ _ Hk). lia.
  - intros i j Hi Hj. destruct (decide (j = col)) as [->|]; [by apply Hz|apply H7; lia].
Qed.
Lemma echelon_pivot col pc A B :
  echelon col pc A → (length pc < r)%nat → 0 < B (length pc) col →
  (∀ i j, (length pc <= i < r)%nat → (j < col)%nat → B i j = 0) →
  (∀ i, (length pc < i < r)%nat → B i col = 0) →
  (∀ i j, (i < length pc)%nat → (j < col)%nat → B i j = A i j) →
  (∀ i, (i < length pc)%nat → 0 <= B i col < B (length pc) col) →
  echelon (S col) (pc ++ [col]) B.
Proof.
  intros [H1 H2 H3 H4 H5 H6 H7] Hr Hpos Hcl Hbel Hsame Habv.
  assert (∀ k x, (pc ++ [col]) !! k = Some x →
    (pc !! k = Some x ∧ (k < length pc)%nat ∧ (x < col)%nat) ∨ (k = length pc ∧ x = col)) as Hk.
  { intros k x [Hk|[Hk Hx]]%lookup_app_Some.
    - left. split_and!; [done|by eapply lookup_lt_Some|by eapply H2].
    - right. apply list_lookup_singleton_Some in Hx as [Hx ->]. split; [lia|done]. }
  split.
  - rewrite length_app. cbn. lia.
  - intros k x [(_ & _ & ?)|[_ ->]]%Hk; lia.
  - intros k x [(? & ? & ?)|[-> ->]]%Hk; [|done]. rewrite Hsame by done. eauto.
  - intros k x i j [(? & ? & ?)|[-> ->]]%Hk Hi Hj; [|by apply Hcl].
    destruct (decide (i < length pc)%nat); [rewrite Hsame by lia; eauto|apply Hcl; lia].
  - intros k x i [(? & ? & ?)|[-> ->]]%Hk Hi; [|by apply Hbel].
    destruct (decide (i < length pc)%nat); [rewrite Hsame by lia; eauto|apply Hcl; lia].
  - intros k x i [(? & ? & ?)|[-> ->]]%Hk Hi; [|by apply Habv]. rewrite !Hsame by lia. eauto.
  - intros i j Hi Hj. rewrite length_app in Hi. cbn in Hi.
    destruct (decide (j = col)) as [->|]; [apply Hbel; lia|apply Hcl; lia].
Qed.
Lemma column_fuel_enough M col b : Z.abs (ent M b col) < Z.of_nat (column_fuel M col).
Proof.
  unfold column_fuel, ent. set (f := fold_right _ _ _).
  assert (0 <= f ∧ Z.abs (nth col (nth b M []) 0) <= f); [|lia]. subst f.
  revert b. induction M as [|row M IH]; intros b; cbn [fold_right].
  - replace (nth b [] []) with (@nil Z) by (by destruct b). destruct col; cbn; lia.
  - destruct (IH O) as [? _]. destruct b as [|b]; cbn [nth]; [lia|]. destruct (IH b). lia.
Qed.
Lemma hnf_column_spec s pc col :
  inv s → echelon col pc (ent s.1) → (col < c)%nat →
  ∃ s' pc', hnf_column r (Some (s, length pc)) col = Some (s', length pc') ∧
    inv s' ∧ echelon (S col) pc' (ent s'.1).
Proof.
  intros Hs He Hcol. unfold hnf_column.
  destruct (Nat.ltb_spec (length pc) r) as [Hp|Hp].
  2: { exists s, pc. split_and!; [done|done|]. apply echelon_skip; [done|]. intros. lia. }
  destruct (eliminate_spec (length pc) col Hp Hcol (column_fuel s.1 col) s Hs) as (s1 & E & Hs1 & Hcl1 & Hsa & Hz).
  { intros i j Hi Hj. by apply (ech_rest _ _ _ He). }
  { intros b ab Hb. pose proof (best_row_spec s.1 (length pc) col ltac:(by destruct (inv_M _ Hs))) as Hbr.
    rewrite Hb in Hbr. destruct Hbr as (_ & _ & -> & _). pose proof (column_fuel_enough s.1 col b). lia. }
  { unfold column_fuel. lia. }
  rewrite E. pose proof (echelon_frame col pc _ _ ltac:(lia) He Hsa Hcl1) as He1.
  destruct (Z.eqb_spec (ent s1.1 (length pc) col) 0) as [E0|E0]; cbn [negb].
  - exists s1, pc. split_and!; [done|done|]. apply echelon_skip; [done|]. intros i Hi.
    destruct (decide (i = length pc)) as [->|]; [done|apply Hz; lia].
  - destruct (fix_pivot_spec (length pc) col Hp Hcol s1 Hs1 Hcl1 E0 Hz) as (Hs2 & Hpos & Hcl2 & Hb & Hsm & Ha).
    exists (fix_pivot s1 (length pc) col), (pc ++ [col]).
    split_and!; [by rewrite length_app, Nat.add_1_r|done|]. by eapply echelon_pivot.
Qed.
Lemma hnf_fold n col s pc :
  inv s → echelon col pc (ent s.1) → (col + n <= c)%nat →
  ∃ s' pc', fold_left (hnf_column r) (seq col n) (Some (s, length pc)) = Some (s', length pc') ∧
    inv s' ∧ echelon (col + n) pc' (ent s'.1).
Proof.
  revert col s pc. induction n as [|n IH]; intros col s pc Hs He Hn; cbn [seq fold_left].
  - exists s, pc. by rewrite Nat.add_0_r.
  - destruct (hnf_column_spec s pc col Hs He ltac:(lia)) as (s1 & pc1 & -> & Hs1 & He1).
    rewrite <- Nat.add_succ_comm. apply IH; [done|done|lia].
Qed.
End reduction.

(** ** Triangular unimodular matrices *)
Lemma unimodular_prod r A B : unimodular r A → unimodular r B → unimodular r (mmul r A B).
Proof.
  assert (∀ P Q V W, meq r r (mmul r P V) delta → meq r r (mmul r Q W) delta →
    meq r r (mmul r (mmul r P Q) (mmul r W V)) delta) as H.
  { intros P Q V W H1 H2. eapply meq_trans; [intros i j _ _; apply mmul_assoc|].
    eapply meq_trans; [|exact H1]. apply mmul_ext; [by intros ????|].
    eapply meq_trans; [intros i j _ _; symmetry; apply mmul_assoc|].
    eapply meq_trans; [apply mmul_ext; [exact H2|by intros ????]|]. apply mmul_delta_l. }
  intros (V & HV1 & HV2) (W & HW1 & HW2). exists (mmul r W V). split; by apply H.
Qed.
(** the columns of the pivots increase, so pivot [k] is at or right of column [k] *)
Lemma pivots_increase r col pc A k x y :
  echelon r col pc A → pc !! k = Some x → pc !! S k = Some y → (x < y)%nat.
Proof.
  intros He Hx Hy. pose proof (ech_pos _ _ _ _ He _ _ Hy) as Hpos.
  assert (S k < r)%nat by (pose proof (ech_rank _ _ _ _ He); apply lookup_lt_Some in Hy; lia).
  destruct (decide (x < y)%nat) as [|Hge]; [done|]. destruct (decide (x = y)) as [->|Hne].
  - rewrite (ech_below _ _ _ _ He k y (S k)) in Hpos by (done || lia). lia.
  - rewrite (ech_left _ _ _ _ He k x (S k) y) in Hpos by (done || lia). lia.
Qed.
Lemma pivot_lower r col pc A k x : echelon r col pc A → pc !! k = Some x → (k <= x)%nat.
Proof.
  intros He. revert x. induction k as [|k IH]; intros x Hx; [lia|].
  destruct (lookup_lt_is_Some_2 pc k) as [y Hy]; [apply lookup_lt_Some in Hx; lia|].
  pose proof (IH _ Hy). pose proof (pivots_increase _ _ _ _ _ _ _ He Hy Hx). lia.
Qed.
Lemma pivot_upper r col pc A n k x :
  echelon r col pc A → (k + n)%nat = length pc → pc !! k = Some x → (x + n <= col)%nat.
Proof.
  intros He. revert k x. induction n as [|n IH]; intros k x Hn Hx; [apply lookup_lt_Some in Hx; lia|].
  destruct n as [|n]; [pose proof (ech_col _ _ _ _ He _ _ Hx); lia|].
  destruct (lookup_lt_is_Some_2 pc (S k)) as [y Hy]; [lia|].
  pose proof (IH (S k) y ltac:(lia) Hy). pose proof (pivots_increase _ _ _ _ _ _ _ He Hx Hy). lia.
Qed.
(** a unimodular matrix in Hermite normal form is the identity *)
Lemma echelon_unimodular r pc A : echelon r r pc A → unimodular r A → meq r r A delta.
Proof.
  intros He (X & HX & _).
  assert (length pc = r) as Hrank.
  { pose proof (ech_rank _ _ _ _ He). destruct (decide (length pc = r)) as [|Hne]; [done|exfalso].
    pose proof (HX (length pc) (length pc) ltac:(lia) ltac:(lia)) as E. rewrite delta_eq in E.
    unfold mmul in E. rewrite sum_zero in E; [lia|]. intros k Hk.
    rewrite (ech_rest _ _ _ _ He) by lia. lia. }
  assert (∀ k, (k < r)%nat → pc !! k = Some k) as Hpiv.
  { intros k Hk. destruct (lookup_lt_is_Some_2 pc k) as [x Hx]; [lia|].
    pose proof (pivot_lower _ _ _ _ _ _ He Hx).
    pose proof (pivot_upper _ _ _ _ (r - k) k x He ltac:(lia) Hx). assert (x = k) as -> by lia. done. }
  assert (∀ n k, (k + n = r)%nat → ∀ i j, (k <= i < r)%nat → (j < r)%nat → A i j = delta i j ∧ X i j = delta i j) as Hind.
  { induction n as [|n IH]; intros k Hk i j Hi Hj; [lia|].
    destruct (decide (i = k)) as [->|Hne]; [|apply (IH (S k)); lia].
    specialize (IH (S k) ltac:(lia)).
    assert (∀ l, (k < l < r)%nat → 0 <= A k l < 1) as Habv.
    { intros l Hl. pose proof (ech_above _ _ _ _ He l l k (Hpiv l ltac:(lia)) ltac:(lia)) as Hb.
      rewrite (proj1 (IH l l ltac:(lia) ltac:(lia))), delta_eq in Hb. done. }
    assert (∀ j, (j < r)%nat → A k k * X k j = delta k j) as Hrow.
    { intros j' Hj'. rewrite <- (HX k j') by lia. unfold mmul. symmetry. rewrite (sum_single r k); [done|lia|].
      intros l Hl Hlk. destruct (decide (l < k)%nat).
      - rewrite (ech_left _ _ _ _ He k k k l (Hpiv k ltac:(lia))) by lia. lia.
      - pose proof (Habv l ltac:(lia)). replace (A k l) with 0 by lia. lia. }
    pose proof (Hrow k ltac:(lia)) as Hd. rewrite delta_eq in Hd.
    pose proof (ech_pos _ _ _ _ He k k (Hpiv k ltac:(lia))) as Hpos.
    assert (A k k = 1) as Hkk by (destruct (Z.mul_eq_1 _ _ Hd) as [?|?]; lia).
    split; [|pose proof (Hrow j Hj); lia].
    destruct (decide (j = k)) as [->|]; [by rewrite delta_eq|]. rewrite delta_ne by done.
    destruct (decide (j < k)%nat); [apply (ech_left _ _ _ _ He k k k j (Hpiv k ltac:(lia))); lia|].
    pose proof (Habv j ltac:(lia)). lia. }
  intros i j Hi Hj. apply (Hind r 0%nat); lia.
Qed.
(** the rows that carry a pivot are independent *)
Lemma echelon_independent r col pc A y :
  echelon r col pc A → (∀ j, (j < col)%nat → sum (length pc) (λ k, y k * A k j) = 0) →
  ∀ k, (k < length pc)%nat → y k = 0.
Proof.
  intros He Hz k. induction k as [k IH] using lt_wf_ind. intros Hk.
  destruct (lookup_lt_is_Some_2 pc k Hk) as [x Hx].
  pose proof (Hz x (ech_col _ _ _ _ He _ _ Hx)) as E. rewrite (sum_single _ k) in E; [|done|].
  - pose proof (ech_pos _ _ _ _ He _ _ Hx). nia.
  - intros l Hl Hne. destruct (decide (l < k)%nat); [rewrite IH by lia; lia|].
    pose proof (ech_rank _ _ _ _ He). rewrite (ech_below _ _ _ _ He k x l Hx) by lia. lia.
Qed.

(** ** The results *)
Lemma echelon_start r A : echelon r 0 [] A.
Proof. split; intros *; rewrite ?lookup_nil; cbn; (done || lia). Qed.
Lemma inv_start r c M : dims M r c → inv r c M (M, identity r).
Proof.
  intros HM. destruct (ent_identity r) as [Hd Hm]. split; cbn; [done|done| |].
  - apply meq_sym. eapply meq_trans; [apply mmul_ext; [exact Hm|by intros ????]|]. apply mmul_delta_l.
  - eapply unimodular_meq; [apply meq_sym, Hm|apply unimodular_delta].
Qed.
Lemma hnf_spec M r c :
  dims M r c → (0 < r)%nat →
  ∃ H U pc, hnf M = Some (H, U, length pc) ∧ inv r c M (H, U) ∧ echelon r c pc (ent H).
Proof.
  intros HM Hr. pose proof (dims_row _ _ _ 0 HM Hr) as Hrow.
  destruct (hnf_fold r c M c 0 (M, identity r) [] (inv_start _ _ _ HM) (echelon_start _ _) ltac:(lia))
    as ([H U] & pc & E & Hinv & He).
  exists H, U, pc. split_and!; [|done|done]. unfold hnf. destruct HM as [Hl HM].
  destruct M as [|row M]; [cbn in Hl; lia|]. cbn [nth] in Hrow. cbv zeta. rewrite Hl, Hrow. cbn [length] in E. by rewrite E.
Qed.
Lemma inverse_spec U r :
  dims U r r → (0 < r)%nat → unimodular r (ent U) →
  ∃ V, inverse U = Some V ∧ dims V r r ∧
    meq r r (mmul r (ent V) (ent U)) delta ∧ meq r r (mmul r (ent U) (ent V)) delta.
Proof.
  intros HU Hr Huni. destruct (hnf_spec U r r HU Hr) as (H & V & pc & E & [HM HV Hrel Hv] & He).
  cbn in *. exists V. unfold inverse. rewrite E.
  assert (meq r r (ent H) delta) as HI.
  { apply (echelon_unimodular _ pc); [done|]. eapply unimodular_meq; [apply meq_sym, Hrel|].
    by apply unimodular_prod. }
  assert (meq r r (mmul r (ent V) (ent U)) delta) as HVU by (eapply meq_trans; [apply meq_sym, Hrel|done]).
  split_and!; [done|done|done|]. destruct Huni as (X & HX & _).
  assert (meq r r (ent V) X) as HVX.
  { eapply meq_trans; [apply meq_sym, mmul_delta_r|].
    eapply meq_trans; [apply mmul_ext; [by intros ????|apply meq_sym, HX]|].
    eapply meq_trans; [intros i j _ _; symmetry; apply mmul_assoc|].
    eapply meq_trans; [apply mmul_ext; [exact HVU|by intros ????]|]. apply mmul_delta_l. }
  eapply meq_trans; [|exact HX]. apply mmul_ext; [by intros ????|done].
Qed.
(** the rank is at most the number of columns *)
Lemma echelon_rank_cols r c pc A : echelon r c pc A → (length pc <= c)%nat.
Proof.
  intros He. destruct pc as [|x pc0] eqn:E; [cbn; lia|]. rewrite <- E in *.
  pose proof (pivot_upper _ _ _ _ (length pc) 0 x He ltac:(lia) ltac:(by rewrite E)). lia.
Qed.

(** [C33] The reduction of coords.cpp terminates on every matrix and is an integer Hermite normal form
    of it: the transform is unimodular, it takes the matrix to the result, and the result is in row
    echelon form with positive pivots, zeros to the left of and below a pivot, entries between 0 and
    the pivot above it, and no other nonzero row; the value returned is the number of pivots, at
    most the number of rows and of columns. *)
Theorem hnf_hermite M r c :
  dims M r c → (0 < r)%nat →
  ∃ H U pc, hnf M = Some (H, U, length pc) ∧ dims H r c ∧ dims U r r ∧ unimodular r (ent U) ∧
    meq r c (ent H) (mmul r (ent U) (ent M)) ∧ echelon r c pc (ent H) ∧
    (length pc <= r)%nat ∧ (length pc <= c)%nat.
Proof.
  intros HM Hr. destruct (hnf_spec M r c HM Hr) as (H & U & pc & E & [? ? ? ?] & He).
  exists H, U, pc. pose proof (ech_rank _ _ _ _ He). pose proof (echelon_rank_cols _ _ _ _ He). by split_and!.
Qed.
Definition stride_example : Mat := [[2; 4; 4]; [-6; 6; 12]; [10; 4; 16]; [12; 8; 20]].
Lemma stride_dims : dims stride_example 4 3.
Proof. split; [done|]. by repeat constructor. Qed.
Theorem hnf_hermite_witness :
  ∃ H U pc, hnf stride_example = Some (H, U, length pc) ∧ dims H 4 3 ∧ dims U 4 4 ∧ unimodular 4 (ent U) ∧
    meq 4 3 (ent H) (mmul 4 (ent U) (ent stride_example)) ∧ echelon 4 3 pc (ent H) ∧
    (length pc <= 4)%nat ∧ (length pc <= 3)%nat.
Proof. apply (hnf_hermite stride_example 4 3 stride_dims). lia. Defined.

(** the strides are the combinations, by the inverse's first columns, of the reduced rows *)
Lemma basis_sum S r c :
  dims S r c → (0 < r)%nat →
  ∃ H U pc V, hnf S = Some (H, U, length pc) ∧ echelon r c pc (ent H) ∧ inverse U = Some V ∧
    meq r r (mmul r (ent V) (ent U)) delta ∧ meq r r (mmul r (ent U) (ent V)) delta ∧
    ∀ a, (a < r)%nat → ∀ j, (j < c)%nat → ent S a j = sum (length pc) (λ k, ent V a k * ent H k j).
Proof.
  intros HS Hr. destruct (hnf_spec S r c HS Hr) as (H & U & pc & E & [HH HU Hrel Huni] & He). cbn in *.
  destruct (inverse_spec U r HU Hr Huni) as (V & EV & HV & HVU & HUV).
  exists H, U, pc, V. split_and!; [done..|]. intros a Ha j Hj.
  rewrite <- (sum_prefix (length pc) r) by
    (try apply (ech_rank _ _ _ _ He); intros k Hk; rewrite (ech_rest _ _ _ _ He) by lia; lia).
  rewrite <- (mmul_delta_l r c (ent S) a j Ha Hj).
  rewrite (mmul_ext r c delta _ (ent S) (ent S) (meq_sym _ _ _ _ HVU) ltac:(by intros ????) a j Ha Hj).
  rewrite mmul_assoc. unfold mmul at 1. apply sum_ext. intros k Hk. by rewrite Hrel.
Qed.
(** The basis change of the discovery: with [H] and [U] the reduction of the stride matrix and [V]
    the inverse computed from [U] (which the code computes by reducing [U]), [V] is a two-sided
    inverse of [U] and the strides along the physical axes are the combinations, by the first [d]
    columns of [V], of the strides along the [d] coordinates; these combinations are the only
    ones. So the check "basis change does not reproduce the stride" compares equal numbers. *)
Theorem basis_change S r c :
  dims S r c → (0 < r)%nat →
  ∃ H U d V, hnf S = Some (H, U, d) ∧ inverse U = Some V ∧
    meq r r (mmul r (ent V) (ent U)) delta ∧ meq r r (mmul r (ent U) (ent V)) delta ∧
    ∀ a, (a < r)%nat →
      (∀ j, (j < c)%nat → ent S a j = sum d (λ k, ent V a k * ent H k j)) ∧
      ∀ x, (∀ j, (j < c)%nat → ent S a j = sum d (λ k, x k * ent H k j)) →
        ∀ k, (k < d)%nat → x k = ent V a k.
Proof.
  intros HS Hr. destruct (basis_sum S r c HS Hr) as (H & U & pc & V & E & He & EV & HVU & HUV & Hs).
  exists H, U, (length pc), V. split_and!; [done..|]. intros a Ha. specialize (Hs a Ha).
  split; [done|]. intros x Hx k Hk.
  assert (x k - ent V a k = 0); [|lia].
  apply (echelon_independent _ _ _ _ (λ k, x k - ent V a k) He); [|done].
  intros j Hj. pose proof (Hx j Hj) as E1. rewrite (Hs j Hj) in E1.
  rewrite (sum_ext _ _ (λ k, x k * ent H k j + - (1) * (ent V a k * ent H k j))) by (intros; lia).
  rewrite sum_add, sum_scale. lia.
Qed.
Theorem basis_change_witness :
  ∃ H U d V, hnf stride_example = Some (H, U, d) ∧ inverse U = Some V ∧
    meq 4 4 (mmul 4 (ent V) (ent U)) delta ∧ meq 4 4 (mmul 4 (ent U) (ent V)) delta ∧
    ∀ a, (a < 4)%nat →
      (∀ j, (j < 3)%nat → ent stride_example a j = sum d (λ k, ent V a k * ent H k j)) ∧
      ∀ x, (∀ j, (j < 3)%nat → ent stride_example a j = sum d (λ k, x k * ent H k j)) →
        ∀ k, (k < d)%nat → x k = ent V a k.
Proof. apply (basis_change stride_example 4 3 stride_dims). lia. Defined.
