(* ===== verification/Recurrence.v ===== *)
(** The recurrence classifier (cpp/mvcc-llvm/sig.cpp, [classifyRecurrence] and its helpers): which
    algebra the value a loop carries into its next iteration belongs to, read off the expression of
    the next value and, when that is opaque, off the LLVM instructions.

    What an algebra promises is stated over the meaning of expressions (ArenaSem.v): the next value
    is a function of the header phi's value, and that function has the form the algebra names.
    Floating point is taken in exact arithmetic for this ([Exact]), as the reassociation the
    permissions grant assumes. *)
From S2P Require Import Prelude SigAlgebra Expr Arena ArenaSem ArenaCmp.
Open Scope string_scope.
Open Scope Z_scope.

(** ** Reading expressions *)
(** [Arena::unwrap]: a polynomial that is one atom of its own type is that atom *)
Definition unwrap (s : Arena) (e : EP) : EP :=
  match nodes s !! e with
  | Some (mkExpr t (NPoly [([a], 1)])) =>
      match atoms s !! a with
      | Some x => if bool_decide (type_at s x = Some t) then x else e
      | None => e
      end
  | _ => e
  end.

(** the memo table of [Ctx::contains] only caches results *)
Fixpoint contains_f (n : nat) (s : Arena) (sid : nat) (e : EP) : bool :=
  match n with
  | O => false
  | S n =>
      match nodes s !! e with
      | None => false
      | Some x =>
          match node x with
          | NSym i => (i =? sid)%nat
          | NPoly ts =>
              existsb (λ t : Term, existsb (λ a,
                match isSymAtom s a with
                | Some i => (i =? sid)%nat
                | None => match atoms s !! a with Some k => contains_f n s sid k | None => false end
                end) t.1) ts
          | nd => existsb (contains_f n s sid) (children nd)
          end
      end
  end.
(** operands are older than the expression: [S e] levels are enough *)
Definition contains (s : Arena) (sid : nat) (e : EP) : bool := contains_f (S e) s sid e.

Definition isSym (s : Arena) (e : EP) : option nat :=
  match nodes s !! e with Some (mkExpr _ (NSym i)) => Some i | _ => None end.

Definition starts_with (p n : string) : bool := String.prefix p n.
Definition str_contains (p n : string) : bool :=
  match String.index 0 p n with Some _ => true | None => false end.
Definition isMaxName (n : string) : bool :=
  starts_with "llvm.maxnum" n || starts_with "llvm.maximum" n || (n =? "__nv_fmaxf")%string
  || (n =? "__nv_fmax")%string || starts_with "llvm.smax" n || starts_with "llvm.umax" n
  || (n =? "__nv_max")%string || (n =? "__nv_umax")%string.
Definition isMinName (n : string) : bool :=
  starts_with "llvm.minnum" n || starts_with "llvm.minimum" n || (n =? "__nv_fminf")%string
  || (n =? "__nv_fmin")%string || starts_with "llvm.smin" n || starts_with "llvm.umin" n
  || (n =? "__nv_min")%string || (n =? "__nv_umin")%string.
Definition isFmaName (n : string) : bool :=
  starts_with "llvm.fma." n || starts_with "llvm.fmuladd." n || (n =? "__nv_fmaf")%string
  || (n =? "__nv_fma")%string || (n =? "__nv_fmaf_rn")%string.

(** ** The result *)
(** the texts of [Classified::detail]; [Expression] is the expression printed to depth 3 *)
Inductive Detail :=
| NoDetail | NoBackEdge | UndefValue | MixedParts (ks : list Algebra) | ReadsSibling (n : EP)
| OnlineSoftmax | LinearForm | OpaqueValue | Overwritten | Expression (n : EP)
| IrMmaChain | IrFmaChain | PredicatedOpaqueFill | OpaqueFill.
#[export] Instance Detail_eq_dec : EqDecision Detail.
Proof. solve_decision. Defined.
Record Classified := mkClassified {
  kind : Algebra; c_terms : nat; predicated : bool; initIdentity : bool;
  detail : Detail; c_permits : Permissions }.
Definition classified0 : Classified := mkClassified SigAlgebra.Unknown 0 false false NoDetail permissions0.
Definition as_kind (k : Algebra) : Classified := mkClassified k 0 false false NoDetail permissions0.
Definition as_detail (k : Algebra) (d : Detail) : Classified := mkClassified k 0 false false d permissions0.

(** the enumeration in its order, which is the order of [std::set<Algebra>] *)
Definition all_algebras : list Algebra :=
  [Invariant; Induction; Sum; Max; Min; SigAlgebra.And; SigAlgebra.Or; SigAlgebra.Xor; TensorSum;
   Tuple; Permutation; OrderSensitive; SigAlgebra.Unknown].
Definition algebra_set (ks : list Algebra) : list Algebra := filter (λ a, a ∈ ks) all_algebras.

(** [fname f] is the name of the function [f], [fbits sem] the width of a floating-point type *)
Section classify.
Context (fname : nat → string) (fbits : nat → Z).

(** whether the initial value is the neutral element of the algebra *)
Definition int_identity (k : Algebra) (v : Z) : bool :=
  match k with
  | Sum | SigAlgebra.Or | SigAlgebra.Xor => v =? 0
  | SigAlgebra.And => v =? -1
  | _ => false
  end.
Definition float_identity (k : Algebra) (w bits : Z) : bool :=
  let negzero := if w =? 32 then 0x80000000 else if w =? 16 then 0x8000 else 0x8000000000000000 in
  let ninf := if w =? 32 then 0xff800000 else if w =? 16 then 0xfc00 else 0xfff0000000000000 in
  let pinf := if w =? 32 then 0x7f800000 else if w =? 16 then 0x7c00 else 0x7ff0000000000000 in
  let fmin := if w =? 32 then 0xff7fffff else 0 in
  let fmax := if w =? 32 then 0x7f7fffff else 0 in
  match k with
  | Sum => (bits =? 0) || (bits =? negzero)
  | Max => (bits =? ninf) || (bits =? fmin)
  | Min => (bits =? pinf) || (bits =? fmax)
  | _ => false
  end.
Definition isIdentity_at (s : Arena) (init : EP) (k : Algebra) : bool :=
  let init := unwrap s init in
  match nodes s !! init with
  | Some (mkExpr _ (NPoly _)) =>
      match constInt s init with Some v => int_identity k v | None => false end
  | Some (mkExpr t (NConst bw c)) =>
      match t with
      | TFloat sem => float_identity k (fbits sem) c
      | _ => int_identity k (getSExtValue bw c)
      end
  | _ => false
  end.
(** a null initial value is dereferenced, by [unwrap], before it is tested *)
Definition isIdentity (init : option EP) (k : Algebra) : M bool :=
  match init with None => stuck | Some init => gets (λ s, isIdentity_at s init k) end.

(** ** [Ctx]: the phi's symbol and those of the loop's other phis *)
Context (pid : nat) (siblingIds : list nat).

Definition isPhi (s : Arena) (e : EP) : bool := bool_decide (isSym s (unwrap s e) = Some pid).
Definition isAnyPhi (s : Arena) (e : EP) : bool :=
  match isSym s (unwrap s e) with
  | Some i => bool_decide (i = pid) || existsb (Nat.eqb i) siblingIds
  | None => false
  end.
Definition free (s : Arena) (e : EP) : bool := negb (contains s pid e).
Definition calleeName (n : Node) : string :=
  match n with
  | NCall callee _ _ => if (callee =? 0)%nat then "asm" else fname callee
  | _ => ""
  end.

(** the atom of the phi *)
Definition patom : M nat :=
  do sy <- (λ s, (λ y, (y, s)) <$> symbols s !! pid);
  do e <- mkSymRaw sy;
  atomOf e.

(** the scan of an integer polynomial: exactly one monomial [1 * phi], the others free of it;
    [None] is [return false] *)
Definition atom_bad (s : Arena) (patom a : nat) : bool :=
  (a =? patom)%nat
  || match isSymAtom s a with
     | Some _ => false
     | None => match atoms s !! a with Some k => contains s pid k | None => false end
     end.
Fixpoint scan_terms (s : Arena) (patom : nat) (one : bool) (ts : list Term) : option bool :=
  match ts with
  | [] => Some one
  | (m, c) :: ts =>
      if bool_decide (m = [patom]) then
        if negb (c =? 1) || one then None else scan_terms s patom true ts
      else if existsb (atom_bad s patom) m then None
      else scan_terms s patom one ts
  end.

(** one step down the additive chain: the operand the accumulator comes through, and whether the
    step adds a term; [None] when the chain ends here without the phi *)
Definition chain_step (s : Arena) (n : Node) : option (EP * bool) :=
  match n with
  | NCall _ _ (a :: b :: c :: _) =>
      if isFmaName (calleeName n) then if free s a && free s b then Some (c, true) else None
      else None
  | NOp op [a; b] =>
      match op with
      | FAdd | Add => if free s b then Some (a, true) else if free s a then Some (b, true) else None
      | FSub | Sub => if free s b then Some (a, true) else None
      | _ => None
      end
  | NOp op [a] => match op with FPExt | FPTrunc => Some (a, false) | _ => None end
  | _ => None
  end.
Fixpoint chain_f (guard : nat) (x : EP) (terms : nat) : M (bool * nat) :=
  match guard with
  | O => ret (false, terms)
  | S guard =>
      do phi <- gets (λ s, isPhi s x);
      if phi then ret (Nat.ltb 0 terms, terms)
      else
        do X <- deref x;
        match node X with
        | NPoly ts =>
            do a <- patom;
            do one <- gets (λ s, scan_terms s a false ts);
            match one with
            | Some true => ret (true, terms + length ts - 1)%nat
            | _ => ret (false, terms)
            end
        | nd =>
            do next <- gets (λ s, chain_step s nd);
            match next with
            | Some (y, add) => chain_f guard y (if add then S terms else terms)
            | None => ret (false, terms)
            end
        end
  end.
Definition additiveChain (n : EP) : M (bool * nat) := chain_f 4096 n 0.

(** ** The cases of [classifyOne] *)
(** predicated update: the arm to classify *)
Definition predicated_arm (s : Arena) (n : Node) : option EP :=
  match n with
  | NIte [c; a; b] =>
      if free s c then
        if isPhi s b && negb (isPhi s a) then Some a
        else if isPhi s a && negb (isPhi s b) then Some b
        else None
      else None
  | _ => None
  end.

(** max / min as compare and select *)
Definition pred_gt (p : Pred) : bool :=
  match p with
  | FCMP_OGT | FCMP_UGT | FCMP_OGE | FCMP_UGE | ICMP_SGT | ICMP_UGT | ICMP_SGE | ICMP_UGE => true
  | _ => false
  end.
Definition pred_lt (p : Pred) : bool :=
  match p with
  | FCMP_OLT | FCMP_ULT | FCMP_OLE | FCMP_ULE | ICMP_SLT | ICMP_ULT | ICMP_SLE | ICMP_ULE => true
  | _ => false
  end.
Definition minmax_select (s : Arena) (n : Node) : option Algebra :=
  match n with
  | NIte [c; a; b] =>
      match nodes s !! c with
      | Some (mkExpr _ (NCmp p [l; r])) =>
          let phiA := isPhi s a in
          let phiB := isPhi s b in
          if (phiA && free s b) || (phiB && free s a) then
            let other := if phiA then b else a in
            let lPhi := isPhi s l && (unwrap s r =? unwrap s other)%nat in
            let rPhi := isPhi s r && (unwrap s l =? unwrap s other)%nat in
            if lPhi || rPhi then
              let gt := pred_gt p in
              let lt := pred_lt p in
              if gt || lt then
                let isMax := (gt && ((lPhi && phiA) || (negb lPhi && negb phiA)))
                             || (lt && ((lPhi && negb phiA) || (negb lPhi && phiA))) in
                Some (if isMax then Max else Min)
              else None
            else None
          else None
      | _ => None
      end
  | _ => None
  end.

(** the algebra of a value from those of its parts *)
Definition of_parts (pcs : list Classified) : Classified :=
  let kinds := algebra_set (kind <$> pcs) in
  let terms := foldr (λ pc n, (c_terms pc + n)%nat) O pcs in
  let pred := existsb predicated pcs in
  let d := fold_left (λ d pc,
    match kind pc with OrderSensitive | SigAlgebra.Unknown => detail pc | _ => d end) pcs NoDetail in
  match kinds with
  | [k] => mkClassified k terms pred false d permissions0
  | _ =>
      let kinds := filter (λ a, a ≠ Invariant) kinds in
      match kinds with
      | [k] => mkClassified k terms pred false d permissions0
      | _ => as_detail Tuple (MixedParts kinds)
      end
  end.

(** one operand is the phi, the other does not depend on it *)
Definition phi_and_free (s : Arena) (a b : EP) : bool :=
  (isPhi s a && free s b) || (isPhi s b && free s a).

Definition direct_kind (s : Arena) (n : Node) : option Algebra :=
  match n with
  | NCall _ _ args =>
      if starts_with "__mvcc_tp_mma_" (calleeName n) && existsb (λ a, negb (free s a)) args
      then Some TensorSum
      else
        match args with
        | [a; b] =>
            let mx := isMaxName (calleeName n) in
            let mn := isMinName (calleeName n) in
            if (mx || mn) && phi_and_free s a b then Some (if mx then Max else Min) else None
        | _ => None
        end
  | NOp op [a; b] =>
      if phi_and_free s a b then
        match op with
        | And => Some SigAlgebra.And | Or => Some SigAlgebra.Or | Xor => Some SigAlgebra.Xor
        | _ => None
        end
      else None
  | _ => None
  end.

(** selection among values: no leaf computes on the phi and no condition reads it; [None] when a
    select has no arms *)
Fixpoint walk_f (n : nat) (s : Arena) (e : EP) : option bool :=
  match n with
  | O => None
  | S n =>
      let e := unwrap s e in
      match nodes s !! e with
      | Some (mkExpr _ (NIte (c :: a :: b :: _))) =>
          ra ← walk_f n s a; rb ← walk_f n s b; Some (free s c && ra && rb)
      | Some (mkExpr _ (NIte _)) => None
      | Some _ => Some (isAnyPhi s e || free s e)
      | None => None
      end
  end.
Definition walk (s : Arena) (e : EP) : option bool := walk_f (S e) s e.

(** [l' = a*l + b]: the scale [a] *)
Definition isMulByPhi (s : Arena) (m : EP) : option EP :=
  match nodes s !! unwrap s m with
  | Some (mkExpr _ (NOp FMul [a; b])) =>
      if isPhi s a && free s b then Some b
      else if isPhi s b && free s a then Some a
      else None
  | _ => None
  end.
Definition linear_scale (s : Arena) (n : EP) : option EP :=
  match nodes s !! unwrap s n with
  | Some (mkExpr _ (NCall f v (a :: b :: c :: l))) =>
      if isFmaName (calleeName (NCall f v (a :: b :: c :: l))) then
        if isPhi s a && free s b && free s c then Some b
        else if isPhi s b && free s a && free s c then Some a
        else None
      else None
  | Some (mkExpr _ (NOp FAdd [a; b])) =>
      match isMulByPhi s a, isMulByPhi s b with
      | Some o, Some o' => if free s b then Some o else if free s a then Some o' else None
      | Some o, None => if free s b then Some o else None
      | None, Some o' => if free s a then Some o' else None
      | None, None => None
      end
  | _ => None
  end.
(** a call of an exponential that reads another phi *)
Fixpoint expOfSibling_f (n : nat) (s : Arena) (e : EP) : bool :=
  match n with
  | O => false
  | S n =>
      let e := unwrap s e in
      match nodes s !! e with
      | Some x =>
          match node x with
          | NCall _ _ _ =>
              str_contains "exp" (calleeName (node x)) && existsb (λ sid, contains s sid e) siblingIds
          | _ => false
          end || existsb (expOfSibling_f n s) (children (node x))
      | None => false
      end
  end.
Definition expOfSibling (s : Arena) (e : EP) : bool := expOfSibling_f (S e) s e.
Definition tuple (s : Arena) (n : EP) : Classified :=
  match linear_scale s n with
  | None => as_detail Tuple (ReadsSibling n)
  | Some scale =>
      let e := expOfSibling s scale in
      mkClassified Tuple 0 false false (if e then OnlineSoftmax else LinearForm)
        (mkPermissions true e false true)
  end.

(** what is left when the value is none of the algebras *)
Definition remaining (s : Arena) (n : EP) (x : Expr) : option Classified :=
  let rest :=
    if existsb (λ sid, contains s sid n) siblingIds then Some (tuple s n)
    else
      let opaque := match node x with
                    | NSym i => match symbols s !! i with
                                | Some sy => bool_decide (sy_kind sy = Arena.Unknown)
                                | None => false
                                end
                    | _ => false
                    end in
      if opaque then Some (as_detail SigAlgebra.Unknown OpaqueValue)
      else if free s n then Some (as_detail Permutation Overwritten)
      else Some (as_detail OrderSensitive (Expression n)) in
  match node x with
  | NIte _ => ok ← walk s n; if (ok : bool) then Some (as_kind Permutation) else rest
  | _ => rest
  end.

(** loop control: an additive polynomial whose other terms are constants *)
Definition all_const (patom : nat) (ts : list Term) : bool :=
  forallb (λ t : Term, is_const_mono t.1 || bool_decide (t.1 = [patom])) ts.
Definition is_induction (n : Node) : M bool :=
  match n with NPoly ts => do a <- patom; ret (all_const a ts) | _ => ret false end.

Definition set_predicated (r : Classified) : Classified :=
  mkClassified (kind r) (c_terms r) true (initIdentity r) (detail r) (c_permits r).
Definition lift_opt {A} (o : option A) : M A := λ s, (λ x, (x, s)) <$> o.

(** additive chains (floating point and integer), then the rest *)
Definition additive_or_remaining (n : EP) (x : Expr) (init : option EP) : M Classified :=
  do ch <- additiveChain n;
  if (ch : bool * nat).1 then
    do ind <- is_induction (node x);
    if (ind : bool) then ret (mkClassified Induction ch.2 false false NoDetail permissions0)
    else
      do ident <- isIdentity init Sum;
      ret (mkClassified Sum ch.2 false ident NoDetail permissions0)
  else do s <- gets id; lift_opt (remaining s n x).

Fixpoint classifyOne_f (fuel : nat) (n : EP) (init : option EP) : M Classified :=
  match fuel with
  | O => stuck
  | S fuel =>
      do n <- gets (λ s, unwrap s n);
      do x <- deref n;
      do s <- gets id;
      if bool_decide (node x = NUndef) then ret (as_detail SigAlgebra.Unknown UndefValue)
      else if isPhi s n then ret (as_kind Invariant)
      else
        match predicated_arm s (node x) with
        | Some a => do r <- classifyOne_f fuel a init; ret (set_predicated r)
        | None =>
            match minmax_select s (node x) with
            | Some k => do ident <- isIdentity init k; ret (mkClassified k 1 false ident NoDetail permissions0)
            | None =>
                match node x with
                | NConcat parts =>
                    do pcs <- mmap (λ part, classifyOne_f fuel part None) parts; ret (of_parts pcs)
                | _ =>
                    match direct_kind s (node x) with
                    | Some k =>
                        do ident <- isIdentity init (match k with TensorSum => Sum | k => k end);
                        ret (mkClassified k 1 false ident NoDetail permissions0)
                    | None => additive_or_remaining n x init
                    end
                end
            end
        end
  end.
(** a null expression is [None] *)
Definition classifyOne (n init : option EP) : M Classified :=
  match n with
  | None => ret (as_detail SigAlgebra.Unknown NoBackEdge)
  | Some n => classifyOne_f (S n) n init
  end.
End classify.

(** ** [classifyRecurrence] *)
(** what [irFeedsPhi] inspects of an LLVM value; a value is its number, 0 is null *)
Inductive Inst :=
| ICast (x : nat)
| IExtractElement (vec idx : nat)
| IInsertElement (vec x idx : nat)
| IExtractValue (agg : nat)
| IInsertValue (agg x : nat)
| IShuffleVector (a b : nat)
| ISelect (c a b : nat)
| IBinary (op : Opcode) (a b : nat)
| ICallAsm (asm : string) (args : list nat)
| ICall (callee : option nat) (fmaIntrinsic : bool) (args : list nat)
| IOther.

Section feeds.
Context (fname : nat → string) (inst : nat → Inst).

(** [walkArgs] and the pairs of operands: the first that feeds the phi, [throughMma] threaded *)
Fixpoint first_feeding (f : nat → bool → bool * bool) (xs : list nat) (mma : bool) : bool * bool :=
  match xs with
  | [] => (false, mma)
  | x :: xs => let r := f x mma in if r.1 then r else first_feeding f xs r.2
  end.
(** [fuel] is 65 minus the depth: [depth > 64] is false, and so is an exhausted fuel *)
Fixpoint irFeedsPhi_f (fuel : nat) (P X : nat) (throughMma : bool) : bool * bool :=
  match fuel with
  | O => (false, throughMma)
  | S fuel =>
      if (X =? 0)%nat then (false, throughMma)
      else if (X =? P)%nat then (true, throughMma)
      else
        let rec := irFeedsPhi_f fuel P in
        match inst X with
        | ICast x => rec x throughMma
        | IExtractElement v _ => rec v throughMma
        | IInsertElement v x _ => first_feeding rec [v; x] throughMma
        | IExtractValue a => rec a throughMma
        | IInsertValue a x => first_feeding rec [a; x] throughMma
        | IShuffleVector a b => first_feeding rec [a; b] throughMma
        | ISelect _ a b => first_feeding rec [a; b] throughMma
        | IBinary FAdd a b | IBinary FSub a b => first_feeding rec [a; b] throughMma
        | IBinary _ _ _ => (false, throughMma)
        | ICallAsm asm args =>
            first_feeding rec args
              (if str_contains "mma.sync" asm || str_contains "mma." asm then true else throughMma)
        | ICall None _ _ => (false, throughMma)
        | ICall (Some f) fma args =>
            let n := fname f in
            if starts_with "__mvcc_tp_mma" n || starts_with "__mvcc_tp_acc" n || str_contains "mma" n
               || starts_with "llvm.nvvm.wmma" n || starts_with "llvm.nvvm.mma" n
            then first_feeding rec args true
            else if fma || (n =? "__nv_fmaf")%string || starts_with "llvm.fma." n
                    || starts_with "llvm.fmuladd." n
            then match args with _ :: _ :: c :: _ => rec c throughMma | _ => (false, throughMma) end
            else (false, throughMma)
        | IOther => (false, throughMma)
        end
  end.
Definition irFeedsPhi (X P : nat) (throughMma : bool) : bool * bool := irFeedsPhi_f 65 P X throughMma.
End feeds.

(** [Recurrence] of symexec.h; [phi] and [L] are the phi's and the loop's identities (0 is null),
    [phi_ty] the phi's type, [incoming] its values with whether the block they come from is in the
    loop *)
Record Recurrence := mkRecurrence {
  L : nat; phi : nat; phi_ty : Ty; incoming : list (bool * nat);
  r_init : option EP; r_next : option EP; r_thread : Z }.
Definition phi_symbol (r : Recurrence) : Symbol :=
  mkSymbol ThreadValue (phi r) "" (r_thread r) 0 (phi_ty r).
(** the number of a symbol node *)
Definition symOf (e : EP) : M nat :=
  do x <- deref e; match node x with NSym i => ret i | _ => stuck end.
Definition is_sibling (r o : Recurrence) : bool :=
  (L o =? L r)%nat && (r_thread o =? r_thread r) && negb (phi o =? phi r)%nat.

Section recurrence.
Context (fname : nat → string) (fbits : nat → Z) (inst : nat → Inst).

Definition set_permits (k : Classified) (p : Permissions) : Classified :=
  mkClassified (kind k) (c_terms k) (predicated k) (initIdentity k) (detail k) p.
Definition unclear (k : Algebra) : bool :=
  match k with SigAlgebra.Unknown | OrderSensitive => true | _ => false end.
(** the fallback on the LLVM instructions *)
Definition ir_fallback (r : Recurrence) (k : Classified) : M Classified :=
  if unclear (kind k) && negb (phi r =? 0)%nat && negb (L r =? 0)%nat then
    let f := first_feeding (λ v, irFeedsPhi fname inst v (phi r))
               (snd <$> filter (λ i : bool * nat, i.1 = true) (incoming r)) false in
    if f.1 then
      do ident <- isIdentity fbits (r_init r) Sum;
      ret (mkClassified (if f.2 then TensorSum else Sum) 1 (predicated k) ident
             (if f.2 then IrMmaChain else IrFmaChain) (c_permits k))
    else if bool_decide (kind k = SigAlgebra.Unknown) then
      ret (mkClassified Permutation (c_terms k) (predicated k) (initIdentity k)
             (match detail k with
              | NoDetail => if predicated k then PredicatedOpaqueFill else OpaqueFill
              | d => d
              end) (c_permits k))
    else ret k
  else ret k.
Definition finish (k : Classified) : Classified :=
  match kind k with Tuple => k | a => set_permits k (permissionsOf a) end.
Definition classifyRecurrence (r : Recurrence) (siblings : list Recurrence) : M Classified :=
  do e <- mkSymRaw (phi_symbol r);
  do pid <- symOf e;
  do ids <- mmap (λ o, do e <- mkSymRaw (phi_symbol o); symOf e)
              (filter (λ o, is_sibling r o = true) siblings);
  do k <- classifyOne fname fbits pid ids (r_next r) (r_init r);
  do k <- ir_fallback r k;
  ret (finish k).
End recurrence.

(** ** The meaning of the next value as a function of the phi *)
(** the environment with the phi's value replaced *)
Definition set_sym (ρ : Env) (pid : nat) (v : Z) : Env :=
  mkEnv (λ i, if (i =? pid)%nat then v else env_sym ρ i) (env_opq ρ).
Definition val (s : Arena) (ρ : Env) (pid : nat) (e : EP) (v : Z) : Z := den s (set_sym ρ pid v) e.
#[global] Arguments val : simpl never.

Definition fcmp_rel (p : Pred) (x y : Z) : option bool :=
  match p with
  | FCMP_OGT | FCMP_UGT | ICMP_SGT | ICMP_UGT => Some (y <? x)
  | FCMP_OGE | FCMP_UGE | ICMP_SGE | ICMP_UGE => Some (y <=? x)
  | FCMP_OLT | FCMP_ULT | ICMP_SLT | ICMP_ULT => Some (x <? y)
  | FCMP_OLE | FCMP_ULE | ICMP_SLE | ICMP_ULE => Some (x <=? y)
  | _ => None
  end.
(** [z] is the one of [x] and [y] that is largest in the order given by [κ] *)
Definition picks_max (κ : Z → Z) (x y z : Z) : Prop := (z = x ∨ z = y) ∧ κ z = κ x `max` κ y.
Definition picks_min (κ : Z → Z) (x y z : Z) : Prop := (z = x ∨ z = y) ∧ κ z = κ x `min` κ y.

(** exact arithmetic: the operations the arena leaves opaque compute without rounding, floats
    compare as numbers, and the library's maximum and minimum choose one of their operands *)
Record Exact (fname : nat → string) (O : Ty → Node → list Z → Z) : Prop := {
  ex_add op t l x y : op = FAdd ∨ op = Add → O t (NOp op l) [x; y] = x + y;
  ex_sub op t l x y : op = FSub ∨ op = Sub → O t (NOp op l) [x; y] = x - y;
  ex_mul t l x y : O t (NOp FMul l) [x; y] = x * y;
  ex_ext op t l x : op = FPExt ∨ op = FPTrunc → O t (NOp op l) [x] = x;
  ex_fma t c v l x y z r :
    isFmaName (calleeName fname (NCall c v l)) = true → O t (NCall c v l) (x :: y :: z :: r) = x * y + z;
  ex_and t l x y : O t (NOp And l) [x; y] = Z.land x y;
  ex_or t l x y : O t (NOp Or l) [x; y] = Z.lor x y;
  ex_xor t l x y : O t (NOp Xor l) [x; y] = Z.lxor x y;
  ex_cmp t p l x y b : fcmp_rel p x y = Some b → O t (NCmp p l) [x; y] = bval b;
  ex_max t c v l : isMaxName (calleeName fname (NCall c v l)) = true →
    ∃ κ, ∀ x y, picks_max κ x y (O t (NCall c v l) [x; y]);
  ex_min t c v l : isMinName (calleeName fname (NCall c v l)) = true →
    ∃ κ, ∀ x y, picks_min κ x y (O t (NCall c v l) [x; y]) }.

(** the forms: [F] is the next value as a function of the phi's value; [bool1] restricts the phi to
    the two values of [i1] *)
Definition form (k : Algebra) (bool1 : bool) (F : Z → Z) : Prop :=
  match k with
  | Invariant => ∀ v, F v = v
  | Induction | Sum => ∃ t, ∀ v, F v = v + t
  | Max => ∃ κ t, ∀ v, picks_max κ v t (F v)
  | Min => ∃ κ t, ∀ v, picks_min κ v t (F v)
  | SigAlgebra.And => ∃ t, ∀ v, (bool1 = true → v = 0 ∨ v = -1) → F v = Z.land v t
  | SigAlgebra.Or => ∃ t, ∀ v, (bool1 = true → v = 0 ∨ v = -1) → F v = Z.lor v t
  | SigAlgebra.Xor => ∃ t, ∀ v, (bool1 = true → v = 0 ∨ v = -1) → F v = Z.lxor v t
  | Permutation => (∀ v, F v = v) ∨ (∀ v v', F v = F v')
  | SigAlgebra.Unknown => ∀ v v', F v = F v'
  | _ => True
  end.

Section updates.
Context (s : Arena) (pid : nat) (O : Ty → Node → list Z → Z).

(** the value [e] has the form of [k] in every environment; a predicated value also may leave the
    phi unchanged; the parts of an aggregate each have the form, or are unchanged *)
Inductive updates : Algebra → bool → EP → Prop :=
| up_form k e :
    (∀ ρ, env_opq ρ = O → form k (bool_decide (type_at s e = Some i1)) (val s ρ pid e)) →
    (k = Induction → ∃ K, ∀ ρ v, env_opq ρ = O → val s ρ pid e v = v + K) → updates k false e
| up_predicated k p e a :
    updates k p a →
    (∀ ρ, env_opq ρ = O → (∀ v, val s ρ pid e v = val s ρ pid a v) ∨ (∀ v, val s ρ pid e v = v)) →
    updates k true e
| up_parts k p e t parts kps :
    nodes s !! e = Some (mkExpr t (NConcat parts)) → length parts = length kps →
    Forall (λ kp : Algebra * bool, kp.1 = k ∨ kp.1 = Invariant) kps →
    (∀ i x kp, parts !! i = Some x → kps !! i = Some kp → updates kp.1 kp.2 x) → updates k p e
| up_unwrap k p e e' : (∀ ρ, den s ρ e = den s ρ e') → updates k p e' → updates k p e.
End updates.

(** ** Reading expressions preserves their meaning *)
Lemma unwrap_spec s e : wf s → valid s e →
  valid s (unwrap s e) ∧ (unwrap s e ≤ e)%nat ∧ ∀ ρ, den s ρ (unwrap s e) = den s ρ e.
Proof.
  intros Hwf Hv. unfold unwrap.
  assert (valid s e ∧ (e ≤ e)%nat ∧ ∀ ρ, den s ρ e = den s ρ e) as Hid by done.
  pose proof Hv as [x Hx]%valid_lookup. rewrite Hx.
  destruct x as [t [| [|[[|a [|]] c] [|]] | | | | | | | | |]]; try done;
    [|by destruct c as [|[]|]].
  destruct (decide (c = 1)) as [->|Hc]; [|by destruct c as [|[]|]].
  destruct (atoms s !! a) as [y|] eqn:Ha; [|done]. case_bool_decide as Ht; [|done].
  assert (y < e)%nat.
  { destruct (wf_nodes _ Hwf _ _ Hx) as [_ [_ Hp]]. apply Forall_cons in Hp as [[Hm _] _].
    apply Forall_cons in Hm as [(y' & Hy' & ?) _]. cbn in *. congruence. }
  split_and!; [unfold valid in *; lia|lia|]. intros ρ.
  rewrite (den_unfold s ρ e _ Hwf Hx). unfold eval_node, atom_val; cbn. rewrite Ha. lia.
Qed.

Section meaning.
Context (s : Arena) (Hwf : wf s) (pid : nat).

Lemma isSym_node e i : isSym s e = Some i → ∃ t, nodes s !! e = Some (mkExpr t (NSym i)).
Proof. unfold isSym. destruct (nodes s !! e) as [[t []]|]; naive_solver. Qed.
Lemma isSymAtom_node a i : isSymAtom s a = Some i →
  ∃ k t, atoms s !! a = Some k ∧ nodes s !! k = Some (mkExpr t (NSym i)).
Proof.
  unfold isSymAtom. destruct (atoms s !! a) as [k|]; cbn; [|done].
  destruct (nodes s !! k) as [[t []]|] eqn:E; try done. intros [= ->]. eauto.
Qed.
Lemma den_sym ρ e t i : nodes s !! e = Some (mkExpr t (NSym i)) → den s ρ e = env_sym ρ i.
Proof. intros Hx. by rewrite (den_unfold _ _ _ _ Hwf Hx). Qed.
Lemma val_phi ρ e v : valid s e → isPhi pid s e = true → val s ρ pid e v = v.
Proof.
  intros Hv Hp. apply bool_decide_eq_true in Hp. apply isSym_node in Hp as [t Hx].
  unfold val. rewrite <- (proj2 (proj2 (unwrap_spec _ _ Hwf Hv))), (den_sym _ _ _ _ Hx). cbn.
  by rewrite Nat.eqb_refl.
Qed.

(** what does not contain a symbol does not depend on its value *)
Lemma contains_fuel n m e : valid s e → (e < n)%nat → (e < m)%nat →
  contains_f n s pid e = contains_f m s pid e.
Proof.
  revert m e. induction n as [|n IH]; intros m e Hv Hn Hm; [lia|]. destruct m as [|m]; [lia|].
  pose proof Hv as [x Hx]%valid_lookup. pose proof (wf_nodes _ Hwf _ _ Hx) as [Hc Hp]. cbn. rewrite Hx.
  assert (∀ c, (c < e)%nat → contains_f n s pid c = contains_f m s pid c) as Hrec.
  { intros c ?. apply IH; unfold valid in *; lia. }
  assert (∀ l, Forall (λ c, c < e)%nat l → existsb (contains_f n s pid) l = existsb (contains_f m s pid) l) as Hl.
  { induction 1 as [|c l ? _ IHl]; cbn; [done|]. by rewrite IHl, Hrec. }
  destruct (node x); try exact (Hl _ Hc); try done. clear Hl Hc. destruct Hp as [_ Hp]. cbn.
  induction Hp as [|[mo c] ts [Hm' _] _ IHt]; cbn; [done|]. rewrite IHt. f_equal. cbn in *.
  induction Hm' as [|a mo (k & Hk & Hke) _ IHa]; cbn; [done|]. rewrite IHa. f_equal.
  destruct (isSymAtom s a); [done|]. rewrite Hk. by apply Hrec.
Qed.
Lemma existsb_false {A} (f : A → bool) l : existsb f l = false ↔ Forall (λ x, f x = false) l.
Proof.
  induction l as [|x l IH]; cbn; [split; [constructor|done]|]. by rewrite orb_false_iff, Forall_cons, IH.
Qed.
Definition contains_node (x : Expr) : bool :=
  match node x with
  | NSym i => (i =? pid)%nat
  | NPoly ts =>
      existsb (λ t : Term, existsb (λ a,
        match isSymAtom s a with
        | Some i => (i =? pid)%nat
        | None => match atoms s !! a with Some k => contains s pid k | None => false end
        end) t.1) ts
  | nd => existsb (contains s pid) (children nd)
  end.
Lemma contains_unfold e x : nodes s !! e = Some x → contains s pid e = contains_node x.
Proof.
  intros Hx. assert (valid s e) as Hv by (apply valid_lookup; eauto).
  pose proof (wf_nodes _ Hwf _ _ Hx) as [Hc Hp]. unfold contains at 1. cbn. rewrite Hx.
  assert (∀ c, (c < e)%nat → contains_f e s pid c = contains s pid c) as Hrec.
  { intros c ?. apply contains_fuel; unfold valid in *; lia. }
  assert (∀ l, Forall (λ c, c < e)%nat l → existsb (contains_f e s pid) l = existsb (contains s pid) l) as Hl.
  { induction 1 as [|c l ? _ IHl]; cbn; [done|]. by rewrite IHl, Hrec. }
  unfold contains_node. destruct (node x); try exact (Hl _ Hc); try done.
  clear Hl Hc Hx. destruct Hp as [_ Hp].
  induction Hp as [|[mo c] ts [Hm' _] _ IHt]; cbn; [done|]. rewrite IHt. f_equal. cbn in *.
  induction Hm' as [|a mo (k & Hk & Hke) _ IHa]; cbn; [done|]. rewrite IHa. f_equal.
  destruct (isSymAtom s a); [done|]. rewrite Hk. by apply Hrec.
Qed.
Lemma contains_sub e x c : nodes s !! e = Some x → contains s pid e = false → c ∈ children (node x) →
  contains s pid c = false.
Proof.
  intros Hx He Hc. rewrite (contains_unfold _ _ Hx) in He. unfold contains_node in He.
  assert (existsb (contains s pid) (children (node x)) = false → contains s pid c = false) as Hf.
  { rewrite existsb_false, Forall_forall. auto. }
  destruct (node x); try exact (Hf He); try done; by apply not_elem_of_nil in Hc.
Qed.
Lemma contains_atom e t ts mo c a k : nodes s !! e = Some (mkExpr t (NPoly ts)) → contains s pid e = false →
  (mo, c) ∈ ts → a ∈ mo → atoms s !! a = Some k → contains s pid k = false.
Proof.
  intros Hx He Ht Ha Hk. rewrite (contains_unfold _ _ Hx) in He. unfold contains_node in He. cbn in He.
  rewrite existsb_false, Forall_forall in He.
  specialize (He _ Ht). cbn in He. rewrite existsb_false, Forall_forall in He. specialize (He _ Ha). cbn in He.
  destruct (isSymAtom s a) as [i|] eqn:E; [|by rewrite Hk in He].
  apply isSymAtom_node in E as (k' & t' & Hk' & Hn). assert (k' = k) as -> by congruence.
  by rewrite (contains_unfold _ _ Hn).
Qed.
Lemma contains_den ρ ρ' e :
  valid s e → contains s pid e = false → env_opq ρ = env_opq ρ' →
  (∀ i, i ≠ pid → env_sym ρ i = env_sym ρ' i) → den s ρ e = den s ρ' e.
Proof.
  intros Hv He Ho Hs. induction (lt_wf e) as [e _ IH]. pose proof Hv as [x Hx]%valid_lookup.
  rewrite !(den_unfold s _ e x Hwf Hx).
  pose proof (wf_nodes _ Hwf _ _ Hx) as [Hc Hp].
  assert (∀ c, c ∈ children (node x) → den s ρ c = den s ρ' c) as Hch.
  { intros c Hin. pose proof (proj1 (Forall_forall _ _) Hc _ Hin). cbn in *.
    apply IH; [done|unfold valid in *; lia|by eapply contains_sub]. }
  assert (den s ρ <$> children (node x) = den s ρ' <$> children (node x)) as Hmap.
  { apply list_fmap_ext. intros i c Hi. apply Hch. by eapply list_elem_of_lookup_2. }
  unfold eval_node. rewrite Hmap, Ho. destruct x as [t n]. cbn [ty node] in *. destruct n; try done.
  - apply peval_ext, Forall_forall. intros [mo c] Ht. apply Forall_forall. intros a Ha.
    pose proof (proj1 (Forall_forall _ _) (proj2 Hp) _ Ht) as [Hm _].
    pose proof (proj1 (Forall_forall _ _) Hm _ Ha) as (k & Hk & Hlt). cbn in *.
    unfold atom_val. rewrite Hk. apply IH; [done|unfold valid in *; lia|by eapply contains_atom].
  - apply Hs. intros ->. unfold contains in He. cbn in He. rewrite Hx in He. cbn in He.
    by rewrite Nat.eqb_refl in He.
  - destruct op; try done; destruct args as [|a [|b [|]]]; try done; cbn in Hch;
      rewrite !Hch by set_solver; done.
  - destruct args as [|a [|b [|]]]; try done. cbn in Hch. rewrite !Hch by set_solver. done.
  - destruct args as [|a [|b [|c [|]]]]; try done. cbn in Hch. rewrite !Hch by set_solver. done.
Qed.
Lemma val_free ρ e v v' : valid s e → free pid s e = true → val s ρ pid e v = val s ρ pid e v'.
Proof.
  intros Hv Hf%negb_true_iff. apply contains_den; [done|done|done|]. intros i Hi. cbn.
  by destruct (i =? pid)%nat eqn:E; [apply Nat.eqb_eq in E|].
Qed.
Lemma val_anyPhi ids ρ e : valid s e → isAnyPhi pid ids s e = true →
  (∀ v, val s ρ pid e v = v) ∨ (∀ v v', val s ρ pid e v = val s ρ pid e v').
Proof.
  intros Hv Ha. unfold isAnyPhi in Ha. destruct (isSym s (unwrap s e)) as [i|] eqn:E; [|done].
  destruct (decide (i = pid)) as [->|Hi].
  { left. intros v. apply val_phi; [done|]. unfold isPhi. rewrite E. by rewrite bool_decide_true. }
  right. apply isSym_node in E as [t Hx]. intros v v'. unfold val.
  rewrite <- !(proj2 (proj2 (unwrap_spec _ _ Hwf Hv))), !(den_sym _ _ _ _ Hx). cbn.
  by rewrite (proj2 (Nat.eqb_neq _ _) Hi).
Qed.
End meaning.

(** ** The cases, one by one *)
Definition same_for (s : Arena) (pid : nat) (O : Ty → Node → list Z → Z) (P : (EP → Z → Z) → Prop) : Prop :=
  ∀ ρ, env_opq ρ = O → P (val s ρ pid).

Section cases.
Context (s : Arena) (Hwf : wf s) (pid : nat) (fname : nat → string).
Context (ρ : Env) (Hex : Exact fname (env_opq ρ)).
Abbreviation V := (val s ρ pid).

Lemma child_older e x c : nodes s !! e = Some x → c ∈ children (node x) → valid s c ∧ (c < e)%nat.
Proof.
  intros Hx Hc. destruct (wf_nodes _ Hwf _ _ Hx) as [H _].
  pose proof (proj1 (Forall_forall _ _) H _ Hc). cbn in *.
  assert (valid s e) by (apply valid_lookup; eauto). unfold valid in *. split; lia.
Qed.
Lemma V_ite e t c a b v : nodes s !! e = Some (mkExpr t (NIte [c; a; b])) →
  V e v = if truth (V c v) then V a v else V b v.
Proof. intros Hx. unfold val. by rewrite (den_unfold _ _ _ _ Hwf Hx). Qed.
Lemma V_node e x v : nodes s !! e = Some x →
  V e v = eval_node s (set_sym ρ pid v) (λ c, V c v) x.
Proof. intros Hx. unfold val at 1. by rewrite (den_unfold _ _ _ _ Hwf Hx). Qed.
Lemma V_unwrap e e' v : valid s e → valid s e' → unwrap s e = unwrap s e' → V e v = V e' v.
Proof.
  intros Hv Hv' He. unfold val. rewrite <- (proj2 (proj2 (unwrap_spec _ _ Hwf Hv))), He.
  apply (unwrap_spec _ _ Hwf Hv').
Qed.
Lemma not_phi_and_free e : valid s e → isPhi pid s e = true → free pid s e = true → False.
Proof.
  intros Hv Hp Hf. pose proof (val_free s Hwf pid ρ e 0 1 Hv Hf) as H.
  rewrite !(val_phi s Hwf pid ρ e _ Hv Hp) in H. done.
Qed.

Lemma phi_and_free_spec a b : valid s a → valid s b → phi_and_free pid s a b = true →
  free pid s (if isPhi pid s a then b else a) = true ∧ isPhi pid s (if isPhi pid s a then a else b) = true.
Proof.
  intros Ha Hb H. pose proof (not_phi_and_free a Ha) as Na. unfold phi_and_free in H.
  destruct (isPhi pid s a) eqn:Ea; cbn in H.
  - destruct (free pid s b); [done|]. cbn in H. apply andb_true_iff in H as [_ H]. by destruct (Na eq_refl).
  - by apply andb_true_iff in H as [? ?].
Qed.

Lemma predicated_arm_sound e t n a : nodes s !! e = Some (mkExpr t n) → predicated_arm pid s n = Some a →
  a ∈ children n ∧ ((∀ v, V e v = V a v) ∨ (∀ v, V e v = v)).
Proof.
  intros Hx H. destruct n as [| | | | |l| | | | |]; try done. destruct l as [|c [|x [|y [|]]]]; try done.
  assert (∀ z, z ∈ [c; x; y] → valid s z) as Hv by (intros z Hz; by eapply (child_older _ _ _ Hx)).
  cbn in H. destruct (free pid s c) eqn:Hc; [|done].
  assert (∀ v, truth (V c v) = truth (V c 0)) as Ht.
  { intros v. f_equal. apply val_free; [done|apply Hv; set_solver|done]. }
  destruct (isPhi pid s y && negb (isPhi pid s x)) eqn:E1.
  - apply andb_true_iff in E1 as [Hy _]. injection H as <-. split; [set_solver|].
    destruct (truth (V c 0)) eqn:E; [left|right]; intros v; rewrite (V_ite _ _ _ _ _ _ Hx), Ht; [done|].
    apply val_phi; [done|apply Hv; set_solver|done].
  - destruct (isPhi pid s x && negb (isPhi pid s y)) eqn:E2; [|done].
    apply andb_true_iff in E2 as [Hy _]. injection H as <-. split; [set_solver|].
    destruct (truth (V c 0)) eqn:E; [right|left]; intros v; rewrite (V_ite _ _ _ _ _ _ Hx), Ht; [|done].
    apply val_phi; [done|apply Hv; set_solver|done].
Qed.

(** a comparison compares the operands, as they are or as unsigned numbers *)
Lemma guard_value c t p l r : nodes s !! c = Some (mkExpr t (NCmp p [l; r])) →
  pred_gt p || pred_lt p = true →
  ∃ κ, ∀ v, ∃ b, fcmp_rel p (κ (V l v)) (κ (V r v)) = Some b ∧ truth (V c v) = b.
Proof.
  intros Hx Hp.
  assert (∀ x y, is_Some (fcmp_rel p x y)) as Hrel by (intros x y; destruct p; try done; eexists; done).
  assert (∀ v, V c v = match type_at s l ≫= width with
                       | Some w => match icmp p w (V l v) (V r v) with
                                   | Some r => bval r
                                   | None => env_opq ρ t (NCmp p [l; r]) [V l v; V r v] end
                       | None => env_opq ρ t (NCmp p [l; r]) [V l v; V r v] end) as HV.
  { intros v. by rewrite (V_node _ _ _ Hx). }
  destruct (type_at s l ≫= width) as [w|].
  - destruct p; try done; first
      [ exists id; intros v; eexists; split; [reflexivity|]; rewrite HV; cbn; apply truth_bval
      | exists (λ x, x mod 2 ^ w); intros v; eexists; split; [reflexivity|]; rewrite HV; cbn; apply truth_bval
      | exists id; intros v; destruct (Hrel (V l v) (V r v)) as [b Hb]; exists b; split; [done|];
        rewrite HV; cbn [icmp]; rewrite (ex_cmp _ _ Hex _ _ _ _ _ _ Hb); apply truth_bval ].
  - exists id. intros v. destruct (Hrel (V l v) (V r v)) as [b Hb]. exists b. split; [done|].
    rewrite HV, (ex_cmp _ _ Hex _ _ _ _ _ _ Hb). apply truth_bval.
Qed.

Lemma minmax_select_sound e t n k b1 : nodes s !! e = Some (mkExpr t n) → minmax_select pid s n = Some k →
  form k b1 (V e) ∧ k ≠ Induction.
Proof.
  intros Hx H. destruct n as [| | | | |l0| | | | |]; try done. destruct l0 as [|c [|a [|b [|]]]]; try done.
  cbn in H. destruct (nodes s !! c) as [[tc [| | | |p [|l [|r [|]]]| | | | | |]]|] eqn:Hcx; try done.
  assert (∀ z, z ∈ [c; a; b] → valid s z) as Hv by (intros z Hz; by eapply (child_older _ _ _ Hx)).
  assert (∀ z, z ∈ [l; r] → valid s z) as Hvc by (intros z Hz; by eapply (child_older _ _ _ Hcx)).
  assert (valid s a ∧ valid s b ∧ valid s l ∧ valid s r) as (Ha&Hb&Hl&Hr)
    by (split_and!; [apply Hv|apply Hv|apply Hvc|apply Hvc]; set_solver).
  destruct ((isPhi pid s a && free pid s b) || (isPhi pid s b && free pid s a)) eqn:Hpf; [|done].
  set (other := if isPhi pid s a then b else a) in *.
  assert (valid s other) as Ho by (unfold other; by destruct (isPhi pid s a)).
  assert (free pid s other = true ∧ (∀ v, V (if isPhi pid s a then a else b) v = v)) as [Hof Hph].
  { destruct (phi_and_free_spec a b Ha Hb Hpf) as [Hf Hph]. split; [done|]. intros v. apply val_phi; [done| |done].
    by destruct (isPhi pid s a). }
  destruct ((isPhi pid s l && (unwrap s r =? unwrap s other)%nat)
            || (isPhi pid s r && (unwrap s l =? unwrap s other)%nat)) eqn:Hlr; [|done].
  destruct (pred_gt p || pred_lt p) eqn:Hp; [|done].
  injection H as <-. destruct (guard_value _ _ _ _ _ Hcx Hp) as [κ Hκ].
  set (T := V other 0). assert (∀ v, V other v = T) as HT by (intros v; by apply val_free).
  assert (∀ v, V e v = if truth (V c v) then if isPhi pid s a then v else T
                       else if isPhi pid s a then T else v) as HV.
  { intros v. rewrite (V_ite _ _ _ _ _ _ Hx). unfold other in HT. specialize (Hph v). specialize (HT v).
    destruct (isPhi pid s a); by rewrite Hph, HT. }
  set (lPhi := isPhi pid s l && (unwrap s r =? unwrap s other)%nat) in *.
  assert (∀ v, if lPhi then V l v = v ∧ V r v = T else V r v = v ∧ V l v = T) as HL.
  { intros v. destruct lPhi eqn:E.
    - apply andb_true_iff in E as [E1 E2%Nat.eqb_eq].
      split; [by apply val_phi|]. by rewrite (V_unwrap r other), HT.
    - cbn in Hlr. apply andb_true_iff in Hlr as [E1 E2%Nat.eqb_eq].
      split; [by apply val_phi|]. by rewrite (V_unwrap l other), HT. }
  clearbody lPhi T. destruct (isPhi pid s a).
  all: split; [|match goal with |- context [if ?c then Max else Min] => by destruct c end].
  all: destruct p; try done; destruct lPhi; cbn; exists κ, T; intros v; rewrite HV;
    destruct (HL v) as [HL1 HL2]; destruct (Hκ v) as (b' & Hb' & ->); cbn in Hb';
    rewrite HL1, HL2 in Hb'; injection Hb' as <-; unfold picks_max, picks_min;
    match goal with |- context [if ?c then _ else _] => destruct c eqn:Hcmp end;
    (split; [by auto|]); lia.
Qed.

(** *** Operations on the phi and a value that does not depend on it *)
Lemma const_of_free e v : valid s e → free pid s e = true → V e v = V e 0.
Proof. intros. by apply val_free. Qed.
(** the value of a binary operation with one operand the phi and the other free *)
Lemma binary_form (f : Z → Z → Z) e a b : valid s a → valid s b → phi_and_free pid s a b = true →
  (∀ v, V e v = f (V a v) (V b v)) →
  ∃ T, (∀ v, V e v = f v T) ∨ (∀ v, V e v = f T v).
Proof.
  intros Ha Hb Hpf He. destruct (phi_and_free_spec a b Ha Hb Hpf) as [Hf Hp].
  destruct (isPhi pid s a).
  - exists (V b 0). left. intros v. by rewrite He, (val_phi s Hwf pid ρ a), (const_of_free b).
  - exists (V a 0). right. intros v. by rewrite He, (val_phi s Hwf pid ρ b), (const_of_free a).
Qed.
Lemma two_values v : (v = 0 ∨ v = -1) → bval (truth v) = v.
Proof. by intros [->| ->]. Qed.

Lemma direct_kind_sound e t n k : nodes s !! e = Some (mkExpr t n) → direct_kind fname pid s n = Some k →
  form k (bool_decide (t = i1)) (V e) ∧ k ≠ Induction.
Proof.
  intros Hx H.
  assert (∀ z, z ∈ children n → valid s z) as Hv by (intros z Hz; by eapply (child_older _ _ _ Hx)).
  destruct n as [| | |op l| | | | | |c v l|]; try done.
  - destruct l as [|a [|b [|]]]; try done. cbn in H.
    destruct (phi_and_free pid s a b) eqn:Hpf; [|done].
    assert (valid s a ∧ valid s b) as [Ha Hb] by (split; apply Hv; set_solver).
    assert (∀ (f : bool → bool → bool) (g : Z → Z → Z),
      (op = And ∨ op = Or ∨ op = Xor) →
      (∀ x y, f x y = f y x) → (∀ x y, g x y = g y x) →
      (∀ x y, bval (f x y) = g (bval x) (bval y)) →
      (∀ v, V e v = if bool_decide (t = i1) then bval (f (truth (V a v)) (truth (V b v)))
                    else g (V a v) (V b v)) →
      ∃ T, ∀ v, (bool_decide (t = i1) = true → v = 0 ∨ v = -1) → V e v = g v T) as Hbit.
    { intros f g _ Hf Hg Hfg He. case_bool_decide as Ht.
      - destruct (binary_form (λ x y, bval (f (truth x) (truth y))) e a b Ha Hb Hpf He) as [T [HT|HT]];
          exists (bval (truth T)); intros v H2; rewrite HT, Hfg, (two_values v) by auto; auto.
      - destruct (binary_form g e a b Ha Hb Hpf He) as [T [HT|HT]]; exists T; intros v _; rewrite HT; auto. }
    destruct op; try done; injection H as <-; (split; [|done]).
    + apply (Hbit andb Z.land); [tauto|by intros [] []|apply Z.land_comm|by intros [] []|].
      intros v. rewrite (V_node _ _ _ Hx). unfold eval_node; cbn. unfold isInt1.
      case_bool_decide; [done|]. apply (ex_and _ _ Hex).
    + apply (Hbit orb Z.lor); [tauto|by intros [] []|apply Z.lor_comm|by intros [] []|].
      intros v. rewrite (V_node _ _ _ Hx). unfold eval_node; cbn. unfold isInt1.
      case_bool_decide; [done|]. apply (ex_or _ _ Hex).
    + apply (Hbit xorb Z.lxor); [tauto|by intros [] []|apply Z.lxor_comm|by intros [] []|].
      intros v. rewrite (V_node _ _ _ Hx). unfold eval_node; cbn. unfold isInt1.
      case_bool_decide; [done|]. apply (ex_xor _ _ Hex).
  - unfold direct_kind in H. destruct (starts_with _ _ && _); [by injection H as <-|].
    destruct l as [|a [|b [|]]]; try done.
    destruct (isMaxName (calleeName fname (NCall c v [a; b]))) eqn:Emx,
      (isMinName (calleeName fname (NCall c v [a; b]))) eqn:Emn; cbn [orb andb] in H;
      destruct (phi_and_free pid s a b) eqn:Hpf; try done; injection H as <-; (split; [|done]);
      (assert (valid s a ∧ valid s b) as [Ha Hb] by (split; apply Hv; set_solver)).
    1-2: destruct (ex_max _ _ Hex t c v [a; b] Emx) as [κ Hκ].
    3: destruct (ex_min _ _ Hex t c v [a; b] Emn) as [κ Hκ].
    all: destruct (binary_form (λ x y, env_opq ρ t (NCall c v [a; b]) [x; y]) e a b Ha Hb Hpf) as [T [HT|HT]];
      [intros v'; by rewrite (V_node _ _ _ Hx)|..]; exists κ, T; intros v'; rewrite HT;
      [apply Hκ|destruct (Hκ T v') as [? E]; split; [tauto|rewrite E; lia]].
Qed.

(** *** The additive chain *)
Lemma chain_step_sound e t n y add : nodes s !! e = Some (mkExpr t n) →
  chain_step fname pid s n = Some (y, add) →
  y ∈ children n ∧ ∃ T, ∀ v, V e v = V y v + T.
Proof.
  intros Hx H.
  assert (∀ z, z ∈ children n → valid s z) as Hv by (intros z Hz; by eapply (child_older _ _ _ Hx)).
  destruct n as [| | |op l| | | | | |c v l|]; try done.
  - destruct l as [|a [|b [|]]]; try done.
    + cbn in H. assert (valid s a) by (apply Hv; set_solver).
      assert (op = FPExt ∨ op = FPTrunc) as Hop by (destruct op; try done; auto).
      assert (y = a) as -> by (by destruct Hop as [-> | ->]; injection H).
      split; [set_solver|]. exists 0. intros v. rewrite (V_node _ _ _ Hx), Z.add_0_r.
      transitivity (env_opq ρ t (NOp op [a]) [V a v]); [by destruct Hop as [-> | ->]|].
      by apply (ex_ext _ _ Hex).
    + assert (valid s a ∧ valid s b) as [Ha Hb] by (split; apply Hv; set_solver).
      assert ((op = FAdd ∨ op = Add) ∨ (op = FSub ∨ op = Sub)) as [Hop|Hop] by (destruct op; try done; auto).
      * assert (∀ v, V e v = V a v + V b v) as He.
        { intros v. rewrite (V_node _ _ _ Hx), <- (ex_add _ _ Hex op t [a; b]) by done.
          by destruct Hop as [-> | ->]. }
        assert (chain_step fname pid s (NOp op [a; b]) =
                if free pid s b then Some (a, true) else if free pid s a then Some (b, true) else None) as E
          by (by destruct Hop as [-> | ->]).
        rewrite E in H. destruct (free pid s b) eqn:Fb; [|destruct (free pid s a) eqn:Fa; [|done]];
          injection H as <- <-; (split; [set_solver|]).
        -- exists (V b 0). intros v. by rewrite He, (const_of_free b).
        -- exists (V a 0). intros v. rewrite He, (const_of_free a v) by done. lia.
      * assert (∀ v, V e v = V a v - V b v) as He.
        { intros v. rewrite (V_node _ _ _ Hx), <- (ex_sub _ _ Hex op t [a; b]) by done.
          by destruct Hop as [-> | ->]. }
        assert (free pid s b = true ∧ y = a) as [Fb ->].
        { destruct Hop as [-> | ->]; cbn in H; destruct (free pid s b); by simplify_eq. }
        split; [set_solver|]. exists (- V b 0). intros v. rewrite He, (const_of_free b v) by done. lia.
  - destruct l as [|a [|b [|x l]]]; try done. unfold chain_step in H.
    destruct (isFmaName _) eqn:Ef; [|done]. destruct (free pid s a) eqn:Fa; [|done].
    destruct (free pid s b) eqn:Fb; [|done]. cbn in H. injection H as <- <-. split; [set_solver|].
    exists (V a 0 * V b 0). intros v'. rewrite (V_node _ _ _ Hx). unfold eval_node; cbn.
    rewrite (ex_fma _ _ Hex) by done.
    rewrite (const_of_free a v'), (const_of_free b v') by (try done; apply Hv; set_solver). lia.
Qed.
End cases.

(** ** The classifier only adds atoms *)
Definition same (s s' : Arena) : Prop := nodes s' = nodes s ∧ symbols s' = symbols s.
#[export] Instance same_preorder : PreOrder same.
Proof. split; [done|]. intros ??? [] []. split; congruence. Qed.

(** [p] is the node of the phi's symbol, and the only one *)
Record phi_ok (s : Arena) (pid : nat) (p : EP) : Prop := {
  po_symbol : ∃ sy, symbols s !! pid = Some sy ∧ find_index (sym_key sy) (symbols s) = Some pid
                    ∧ nodes s !! p = Some (mkExpr (sy_ty sy) (NSym pid));
  po_unique e t : nodes s !! e = Some (mkExpr t (NSym pid)) → e = p }.
(** a select has three operands *)
Definition arity_ok (s : Arena) : Prop :=
  ∀ e t l, nodes s !! e = Some (mkExpr t (NIte l)) → length l = 3%nat.

Lemma phi_ok_same s s' pid p : same s s' → phi_ok s pid p → phi_ok s' pid p.
Proof. intros [Hn Hs] [? ?]. split; by rewrite ?Hs, Hn. Qed.
Lemma den_same s s' ρ e : wf s → wf s' → ext s s' → same s s' → den s' ρ e = den s ρ e.
Proof.
  intros Hwf Hwf' Hx [Hn _]. destruct (nodes s !! e) eqn:E; [apply den_ext; try done; apply valid_lookup; eauto|].
  unfold den; cbn. by rewrite Hn, E.
Qed.
Lemma val_same s s' ρ pid e v : wf s → wf s' → ext s s' → same s s' → val s' ρ pid e v = val s ρ pid e v.
Proof. intros. by apply den_same. Qed.

Lemma patom_spec s pid p : wf s → phi_ok s pid p →
  spec (patom pid) s (λ a s', same s s' ∧ atoms s' !! a = Some p).
Proof.
  intros Hwf [(sy & Hsy & Hf & Hp) _].
  assert (valid s p) as Hv by (apply valid_lookup; eauto).
  assert (mkSymRaw sy s = Some (p, s)) as Hraw.
  { unfold mkSymRaw. rewrite Hf. by apply (intern_again s s). }
  assert (patom pid s = atomOf p s) as E.
  { unfold patom, bind. rewrite Hsy. cbn. by rewrite Hraw. }
  destruct (atomOf_spec s p Hwf Hv) as (a & s' & Ha & Hwf' & Hx & Hn & Hat & _).
  exists a, s'. rewrite E. split_and!; try done.
  unfold atomOf in Ha. destruct (find_index _ (atoms s)); by injection Ha as <- <-.
Qed.

Section scan.
Context (s : Arena) (Hwf : wf s) (pid : nat) (p : EP) (Hphi : phi_ok s pid p).
Context (a0 : nat) (Ha0 : atoms s !! a0 = Some p).

Lemma patom_val ρ v : atom_val s (den s (set_sym ρ pid v)) a0 = v.
Proof.
  unfold atom_val. rewrite Ha0. destruct (po_symbol _ _ _ Hphi) as (sy & _ & _ & Hp).
  rewrite (den_sym s Hwf _ _ _ _ Hp). cbn. by rewrite Nat.eqb_refl.
Qed.
Lemma atom_bad_val ρ v e a : atom_ok s e a → (e ≤ length (nodes s))%nat → atom_bad pid s a0 a = false →
  atom_val s (den s (set_sym ρ pid v)) a = atom_val s (den s (set_sym ρ pid 0)) a.
Proof.
  intros (k & Hk & Hlt) He Hb. unfold atom_bad in Hb. apply orb_false_iff in Hb as [Hne Hb].
  apply Nat.eqb_neq in Hne. unfold atom_val. rewrite Hk in Hb |- *.
  assert (valid s k) as Hv by (unfold valid; lia).
  destruct (isSymAtom s a) as [i|] eqn:E.
  - apply isSymAtom_node in E as (k' & t & Hk' & Hn). assert (k' = k) as -> by congruence.
    rewrite !(den_sym s Hwf _ _ _ _ Hn). cbn. destruct (i =? pid)%nat eqn:Ei; [|done].
    apply Nat.eqb_eq in Ei. subst i. pose proof (po_unique _ _ _ Hphi _ _ Hn). subst k.
    destruct Hne. eapply NoDup_lookup; [by apply wf_atoms_nodup|done..].
  - apply (val_free s Hwf pid ρ k v 0 Hv). unfold free. by rewrite Hb.
Qed.
Lemma mono_indep ρ v e m : Forall (atom_ok s e) m → (e ≤ length (nodes s))%nat →
  existsb (atom_bad pid s a0) m = false →
  mono (atom_val s (den s (set_sym ρ pid v))) m = mono (atom_val s (den s (set_sym ρ pid 0))) m.
Proof.
  intros Hm He. induction Hm as [|a m Ha _ IH]; [done|]. cbn [existsb mono].
  rewrite orb_false_iff. intros [Hb Hr]. by rewrite (IH Hr), (atom_bad_val ρ v e a).
Qed.
Lemma scan_terms_value ρ e one ts r : poly_ok s e ts → (e ≤ length (nodes s))%nat →
  scan_terms pid s a0 one ts = Some r →
  (one = true → r = true) ∧
  ∃ T, ∀ v, pval s (set_sym ρ pid v) ts = (if negb one && r then v else 0) + T.
Proof.
  intros Hp He. unfold pval. revert one. induction Hp as [|[m c] ts [Hm _] _ IH]; intros one H; cbn in H |- *.
  { injection H as <-. split; [done|]. exists 0. intros v. by destruct one. }
  case_bool_decide as Hmp.
  - subst m. destruct (c =? 1) eqn:Hc; cbn in H; [|done]. destruct one; [done|]. cbn in H.
    apply Z.eqb_eq in Hc. subst c. destruct (IH _ H) as [Hr [T HT]]. rewrite (Hr eq_refl) in HT |- *. split; [done|].
    exists T. intros v. rewrite HT. cbn [mono negb andb]. rewrite patom_val. lia.
  - destruct (existsb _ m) eqn:Hb; [done|]. destruct (IH _ H) as [Hr [T HT]]. split; [done|].
    exists (c * mono (atom_val s (den s (set_sym ρ pid 0))) m + T). intros v.
    rewrite HT, (mono_indep ρ v e m Hm He Hb). lia.
Qed.
Lemma all_const_value ts : all_const a0 ts = true →
  ∃ c K, ∀ ρ v, pval s (set_sym ρ pid v) ts = c * v + K.
Proof.
  unfold pval. induction ts as [|[m c] ts IH]; intros H; [by exists 0, 0|].
  apply andb_true_iff in H as [Hm H]. destruct (IH H) as (c' & K & HK).
  cbn in Hm. apply orb_true_iff in Hm as [Hm|Hm%bool_decide_eq_true].
  - destruct m; [|done]. exists c', (c + K). intros ρ v. cbn [peval mono snd fst]. rewrite HK. lia.
  - subst m. exists (c + c'), K. intros ρ v. cbn [peval mono snd fst]. rewrite HK, patom_val. lia.
Qed.
End scan.

Lemma isPhi_same pid s s' e : wf s → ext s s' → same s s' → valid s e → isPhi pid s' e = isPhi pid s e.
Proof.
  intros Hwf Hx [Hn _] Hv. unfold isPhi. assert (unwrap s' e = unwrap s e) as ->.
  { unfold unwrap. rewrite Hn. destruct (nodes s !! e) as [[t [|ts| | | | | | | | |]]|] eqn:E; try done.
    destruct (wf_nodes _ Hwf _ _ E) as [_ [_ Hp]].
    destruct ts as [|[[|a [|]] c] [|]]; try done.
    apply Forall_cons in Hp as [[Hm _] _]. apply Forall_cons in Hm as [(k & Hk & _) _].
    rewrite Hk, (ext_atom _ _ _ _ Hx Hk). unfold type_at. by rewrite Hn. }
  unfold isSym. by rewrite Hn.
Qed.

Section chain.
Context (fname : nat → string) (pid : nat) (p : EP).
Context (O : Ty → Node → list Z → Z) (Hex : Exact fname O).
Definition additive (s : Arena) (x : EP) : Prop :=
  ∀ ρ, env_opq ρ = O → ∃ T, ∀ v, val s ρ pid x v = v + T.

Lemma chain_spec guard x terms s : wf s → phi_ok s pid p → valid s x →
  spec (chain_f fname pid guard x terms) s (λ r s', same s s' ∧ (r.1 = true → additive s x)).
Proof.
  revert x terms. induction guard as [|guard IH]; intros x terms Hwf Hphi Hv.
  { by apply spec_ret. }
  cbn [chain_f]. apply gets_spec. destruct (isPhi pid s x) eqn:Hp.
  { apply spec_ret; [done|]. split; [done|]. intros _ ρ _. exists 0. intros v. rewrite Z.add_0_r. by apply val_phi. }
  pose proof Hv as [X Hx]%valid_lookup. eapply spec_deref; [exact Hx|].
  assert (spec (do next <- gets (λ s, chain_step fname pid s (node X));
                match next with
                | Some (y, add) => chain_f fname pid guard y (if add then S terms else terms)
                | None => ret (false, terms)
                end) s (λ r s', same s s' ∧ (r.1 = true → additive s x))) as Hstep.
  { apply gets_spec. destruct (chain_step _ _ _ _) as [[y add]|] eqn:E; [|by apply spec_ret].
    destruct X as [t n].
    assert (∀ ρ, env_opq ρ = O → ∃ T, ∀ v, val s ρ pid x v = val s ρ pid y v + T) as Hxy.
    { intros ρ <-. by eapply (chain_step_sound s Hwf pid fname ρ Hex). }
    eapply spec_mono; [apply IH; [done|done|]|].
    { eapply (child_older s Hwf _ _ _ Hx).
      eapply (chain_step_sound s Hwf pid fname (mkEnv (λ _, 0) O)); eauto. }
    cbn. intros r s' _ _ [Hs Hr]. split; [done|]. intros H ρ Hρ.
    destruct (Hr H ρ Hρ) as [T HT]. destruct (Hxy ρ Hρ) as [T' HT']. exists (T + T'). intros v.
    rewrite HT', HT. lia. }
  destruct X as [t n]. destruct n as [|ts| | | | | | | | |]; try exact Hstep. clear Hstep.
  cbn [node]. eapply spec_bind; [by apply patom_spec|]. cbn beta. intros a s1 Hwf1 Hx1 [Hs Ha]. apply gets_spec.
  destruct (scan_terms pid s1 a false ts) as [[|]|] eqn:E; apply spec_ret; try done.
  split; [done|]. intros _ ρ Hρ.
  pose proof (ext_node _ _ _ _ Hx1 Hx) as Hn1. pose proof (wf_nodes _ Hwf1 _ _ Hn1) as [_ [_ Hpo]].
  apply (ext_valid _ _ _ Hx1) in Hv. unfold valid in Hv.
  destruct (scan_terms_value s1 Hwf1 pid p (phi_ok_same _ _ _ _ Hs Hphi) a Ha ρ x false ts true) as [_ [T HT]];
    [done|lia|done|].
  exists T. intros v. rewrite <- (val_same s s1) by done. unfold val. rewrite (den_poly _ _ _ _ _ Hwf1 Hn1). apply HT.
Qed.
End chain.

(** ** What remains when no algebra applies *)
Section rest.
Context (fname : nat → string) (pid : nat) (ids : list nat).
Context (O : Ty → Node → list Z → Z) (Hex : Exact fname O).
Context (s : Arena) (Hwf : wf s).

(** the next value is the phi, or does not depend on it *)
Definition selects (e : EP) : Prop :=
  ∀ ρ, env_opq ρ = O → (∀ v, val s ρ pid e v = v) ∨ (∀ v v', val s ρ pid e v = val s ρ pid e v').
Definition linear (e : EP) : Prop :=
  ∀ ρ, env_opq ρ = O → ∃ a b, ∀ v, val s ρ pid e v = a * v + b.

Lemma val_unwrap ρ e v : valid s e → val s ρ pid (unwrap s e) v = val s ρ pid e v.
Proof. intros Hv. apply (unwrap_spec _ _ Hwf Hv). Qed.
Lemma walk_sound n e : arity_ok s → valid s e → (e < n)%nat →
  ∃ r, walk_f pid ids n s e = Some r ∧ (r = true → selects e).
Proof.
  intros Har. revert e. induction n as [|n IH]; intros e Hv Hn; [lia|]. cbn.
  pose proof (unwrap_spec s e Hwf Hv) as (Hvu & Hle & _).
  pose proof Hvu as [[t nd] Hx]%valid_lookup. rewrite Hx.
  assert (isAnyPhi pid ids s (unwrap s e) || free pid s (unwrap s e) = true → selects e) as Hleaf.
  { intros [H|H]%orb_true_iff ρ Hρ.
    - destruct (val_anyPhi s Hwf pid ids ρ _ Hvu H) as [H'|H']; [left|right]; intros; by rewrite <- !(val_unwrap ρ e).
    - right. intros v v'. rewrite <- !(val_unwrap ρ e) by done. by apply val_free. }
  destruct nd as [| | | | |l| | | | |]; try (eexists; split; [reflexivity|exact Hleaf]).
  pose proof (Har _ _ _ Hx) as Hlen. destruct l as [|c [|a [|b [|]]]]; try done.
  assert (∀ z, z ∈ [c; a; b] → valid s z ∧ (z < unwrap s e)%nat) as Hc
    by (intros z Hz; by eapply (child_older s Hwf _ _ _ Hx)).
  destruct (IH a) as (ra & -> & Ha); [apply Hc; set_solver|destruct (Hc a); [set_solver|lia]|].
  destruct (IH b) as (rb & -> & Hb); [apply Hc; set_solver|destruct (Hc b); [set_solver|lia]|].
  cbn. eexists. split; [reflexivity|]. rewrite !andb_true_iff. intros [[Hf Hra] Hrb] ρ Hρ.
  assert (∀ v, val s ρ pid e v = if truth (val s ρ pid c 0) then val s ρ pid a v else val s ρ pid b v) as He.
  { intros v. rewrite <- (val_unwrap ρ e), (V_ite s Hwf pid ρ _ _ _ _ _ v Hx) by done.
    rewrite (val_free s Hwf pid ρ c v 0); [done|apply Hc; set_solver|done]. }
  destruct (truth _); [destruct (Ha Hra ρ Hρ) as [H|H]|destruct (Hb Hrb ρ Hρ) as [H|H]];
    [left|right|left|right]; intros; rewrite !He; auto.
Qed.

Lemma isMulByPhi_sound m o ρ : valid s m → env_opq ρ = O → isMulByPhi pid s m = Some o →
  ∃ a, ∀ v, val s ρ pid m v = a * v.
Proof.
  intros Hv Hρ H. pose proof (unwrap_spec s m Hwf Hv) as (Hvu & _ & _).
  pose proof Hvu as [[t nd] Hx]%valid_lookup. unfold isMulByPhi in H. rewrite Hx in H.
  destruct nd as [| | |op l| | | | | | |]; try done. destruct op, l as [|a [|b [|]]]; try done.
  assert (valid s a ∧ valid s b) as [Ha Hb]
    by (split; eapply (child_older s Hwf _ _ _ Hx); cbn; set_solver).
  assert (∀ v, val s ρ pid m v = val s ρ pid a v * val s ρ pid b v) as Hm.
  { intros v. rewrite <- (val_unwrap ρ m), (V_node s Hwf pid ρ _ _ _ Hx) by done. unfold eval_node; cbn.
    subst O. apply (ex_mul _ _ Hex). }
  destruct (isPhi pid s a && free pid s b) eqn:E1.
  - apply andb_true_iff in E1 as [E1 E2]. exists (val s ρ pid b 0). intros v.
    rewrite Hm, (val_phi s Hwf pid ρ a v Ha E1), (val_free s Hwf pid ρ b v 0 Hb E2). lia.
  - destruct (isPhi pid s b && free pid s a) eqn:E3; [|done].
    apply andb_true_iff in E3 as [E3 E4]. exists (val s ρ pid a 0). intros v.
    rewrite Hm, (val_phi s Hwf pid ρ b v Hb E3), (val_free s Hwf pid ρ a v 0 Ha E4). lia.
Qed.
Lemma linear_scale_sound e o : valid s e → linear_scale fname pid s e = Some o → linear e.
Proof.
  intros Hv H ρ Hρ. pose proof (unwrap_spec s e Hwf Hv) as (Hvu & _ & _).
  pose proof Hvu as [[t nd] Hx]%valid_lookup. unfold linear_scale in H. rewrite Hx in H.
  assert (∀ z, z ∈ children nd → valid s z) as Hc by (intros z Hz; by eapply (child_older s Hwf _ _ _ Hx)).
  assert (∀ v, val s ρ pid e v = eval_node s (set_sym ρ pid v) (λ c, val s ρ pid c v) (mkExpr t nd)) as He.
  { intros v. by rewrite <- (val_unwrap ρ e), (V_node s Hwf pid ρ _ _ _ Hx). }
  clear Hx Hvu. pose proof (val_free s Hwf pid ρ) as Hfree. pose proof (val_phi s Hwf pid ρ) as Hphi.
  destruct nd as [| | |op l| | | | | |f w l|]; try done.
  - destruct op, l as [|a [|b [|]]]; try done.
    assert (valid s a ∧ valid s b) as [Ha Hb] by (split; apply Hc; cbn; set_solver).
    assert (∀ v, val s ρ pid e v = val s ρ pid a v + val s ρ pid b v) as Hs.
    { intros v. rewrite He. unfold eval_node; cbn. subst O. by apply (ex_add _ _ Hex FAdd); left. }
    assert (∀ m o', valid s m → isMulByPhi pid s m = Some o' → ∃ a, ∀ v, val s ρ pid m v = a * v) as Hmul
      by (intros m o' Hm; by apply isMulByPhi_sound).
    assert ((∃ o', isMulByPhi pid s a = Some o' ∧ free pid s b = true) ∨
            (∃ o', isMulByPhi pid s b = Some o' ∧ free pid s a = true)) as [(o' & Hm & Hf)|(o' & Hm & Hf)].
    { destruct (isMulByPhi pid s a), (isMulByPhi pid s b), (free pid s a), (free pid s b); try done; eauto. }
    + destruct (Hmul _ _ Ha Hm) as [k Hk]. exists k, (val s ρ pid b 0). intros v.
      by rewrite Hs, Hk, (Hfree b v 0 Hb Hf).
    + destruct (Hmul _ _ Hb Hm) as [k Hk]. exists k, (val s ρ pid a 0). intros v.
      rewrite Hs, Hk, (Hfree a v 0 Ha Hf). lia.
  - destruct l as [|a [|b [|c l]]]; try done. destruct (isFmaName _) eqn:Ef; [|done].
    assert (valid s a ∧ valid s b ∧ valid s c) as (Ha & Hb & Hcv) by (split_and!; apply Hc; cbn; set_solver).
    assert (∀ v, val s ρ pid e v = val s ρ pid a v * val s ρ pid b v + val s ρ pid c v) as Hs.
    { intros v. rewrite He. unfold eval_node; cbn. subst O. by apply (ex_fma _ _ Hex). }
    destruct (isPhi pid s a && free pid s b && free pid s c) eqn:E1.
    + apply andb_true_iff in E1 as [[E1 E2]%andb_true_iff E3].
      exists (val s ρ pid b 0), (val s ρ pid c 0). intros v.
      rewrite Hs, (Hphi a v Ha E1), (Hfree b v 0 Hb E2), (Hfree c v 0 Hcv E3). lia.
    + destruct (isPhi pid s b && free pid s a && free pid s c) eqn:E4; [|done].
      apply andb_true_iff in E4 as [[F1 F2]%andb_true_iff F3].
      exists (val s ρ pid a 0), (val s ρ pid c 0). intros v.
      rewrite Hs, (Hphi b v Hb F1), (Hfree a v 0 Ha F2), (Hfree c v 0 Hcv F3). lia.
Qed.
End rest.

(** ** The classifier *)
Lemma form_ext k b F G : (∀ v, F v = G v) → form k b F → form k b G.
Proof.
  intros H. destruct k; cbn; try done.
  - intros HF v. by rewrite <- H.
  - intros [t HF]. exists t. intros v. by rewrite <- H.
  - intros [t HF]. exists t. intros v. by rewrite <- H.
  - intros (κ & t & HF). exists κ, t. intros v. by rewrite <- H.
  - intros (κ & t & HF). exists κ, t. intros v. by rewrite <- H.
  - intros [t HF]. exists t. intros v. rewrite <- H. auto.
  - intros [t HF]. exists t. intros v. rewrite <- H. auto.
  - intros [t HF]. exists t. intros v. rewrite <- H. auto.
  - intros [HF|HF]; [left|right]; intros; rewrite <- !H; auto.
  - intros HF v v'. rewrite <- !H. auto.
Qed.
Lemma elem_of_algebra_set k ks : k ∈ algebra_set ks ↔ k ∈ ks.
Proof.
  unfold algebra_set. rewrite list_elem_of_filter. split; [tauto|]. intros ?. split; [done|].
  destruct k; vm_compute; set_solver.
Qed.
Lemma of_parts_cases pcs : let r := of_parts pcs in
  c_permits r = permissions0 ∧
  ((kind r = Tuple ∧ predicated r = false)
   ∨ Forall (λ pc, kind pc = kind r ∨ kind pc = Invariant) pcs).
Proof.
  unfold of_parts. set (d := fold_left _ pcs NoDetail). clearbody d.
  assert (∀ pc, pc ∈ pcs → kind pc ∈ algebra_set (kind <$> pcs)) as Hin.
  { intros pc Hpc. apply elem_of_algebra_set, list_elem_of_fmap. eauto. }
  assert (∀ k, filter (λ a, a ≠ Invariant) (algebra_set (kind <$> pcs)) = [k] →
    Forall (λ pc, kind pc = k ∨ kind pc = Invariant) pcs) as Hf.
  { intros k Hk. apply Forall_forall. intros pc Hpc. destruct (decide (kind pc = Invariant)); [by right|left].
    assert (kind pc ∈ filter (λ a, a ≠ Invariant) (algebra_set (kind <$> pcs))) as H
      by (apply list_elem_of_filter; auto).
    rewrite Hk in H. by apply list_elem_of_singleton in H. }
  cbn zeta. destruct (algebra_set (kind <$> pcs)) as [|k [|k' ks]] eqn:E.
  - cbn. auto.
  - cbn [c_permits kind predicated]. split; [done|]. right. apply Forall_forall. intros pc Hpc. left.
    specialize (Hin _ Hpc). by apply list_elem_of_singleton in Hin.
  - destruct (filter _ _) as [|k1 [|]]; cbn; auto.
Qed.

(** [spec_or P m s Q]: [m] returns from [s] with [Q], unless [P], where it may also be undefined *)
Definition spec_or {A} (P : Prop) (m : M A) (s : Arena) (Q : A → Arena → Prop) : Prop :=
  (P ∧ m s = None) ∨ spec m s Q.
Lemma spec_or_ret {A} P (x : A) s (Q : A → Arena → Prop) : wf s → Q x s → spec_or P (ret x) s Q.
Proof. right. by apply spec_ret. Qed.
Lemma spec_or_bind {A B} P (m : M A) (f : A → M B) s (Q : A → Arena → Prop) R :
  spec_or P m s Q → (∀ r s1, wf s1 → ext s s1 → Q r s1 → spec_or P (f r) s1 R) → spec_or P (bind m f) s R.
Proof.
  intros [[HP Hm]|(r & s1 & Hm & Hwf & Hx & HQ)] Hf; [left; split; [done|]; unfold bind; by rewrite Hm|].
  destruct (Hf r s1 Hwf Hx HQ) as [[HP Hr]|(r' & s2 & Hr & ? & ? & ?)].
  - left. split; [done|]. unfold bind. by rewrite Hm.
  - right. exists r', s2. unfold bind. rewrite Hm. split_and!; try done. by etrans.
Qed.
Lemma spec_or_mono {A} P (m : M A) s (Q R : A → Arena → Prop) :
  spec_or P m s Q → (∀ r s', wf s' → ext s s' → Q r s' → R r s') → spec_or P m s R.
Proof. intros [?|?] HR; [by left|right]. by eapply spec_mono. Qed.
Lemma spec_or_deref {B} P (f : Expr → M B) s e x R :
  nodes s !! e = Some x → spec_or P (f x) s R → spec_or P (bind (deref e) f) s R.
Proof. intros Hx [[HP Hf]|Hf]; [left; split; [done|]; unfold bind, deref; by rewrite Hx|right; by eapply spec_deref]. Qed.
Lemma gets_spec_or {A B} P (f : Arena → A) (g : A → M B) s R :
  spec_or P (g (f s)) s R → spec_or P (bind (gets f) g) s R.
Proof. done. Qed.
Lemma isIdentity_spec P fbits init k s : wf s → (init = None → P) →
  spec_or P (isIdentity fbits init k) s (λ _ s', s' = s).
Proof. intros Hwf Hi. destruct init; [by apply spec_or_ret|left; auto]. Qed.
(** an aggregate is among the expressions: its parts are classified without an initial value *)
Definition aggregate (s : Arena) : Prop := ∃ e t l, nodes s !! e = Some (mkExpr t (NConcat l)).

Section sound.
Context (P : Prop).
Context (fname : nat → string) (fbits : nat → Z) (pid : nat) (p : EP) (ids : list nat).
Context (O : Ty → Node → list Z → Z) (Hex : Exact fname O).
Context (s0 : Arena) (Hwf0 : wf s0) (Hphi0 : phi_ok s0 pid p) (Har0 : arity_ok s0) (Hagg : aggregate s0 → P).

(** the result's algebra describes the value; a tuple that may be partitioned is linear *)
Definition sound (e : EP) (r : Classified) : Prop :=
  updates s0 pid O (kind r) (predicated r) e ∧ (partition (c_permits r) = true → linear pid O s0 e).

Section at_store.
Context (s : Arena) (Hwf : wf s) (Hx : ext s0 s) (Hs : same s0 s).
Lemma val0 ρ e v : val s ρ pid e v = val s0 ρ pid e v.
Proof. by apply val_same. Qed.
Lemma up_leaf k e : k ≠ Induction →
  (∀ ρ, env_opq ρ = O → form k (bool_decide (type_at s e = Some i1)) (val s ρ pid e)) →
  updates s0 pid O k false e.
Proof.
  intros Hk H. apply up_form; [|done]. intros ρ Hρ. specialize (H ρ Hρ).
  unfold type_at in *. rewrite (proj1 Hs) in H. eapply form_ext; [|exact H]. intros v. apply val0.
Qed.
Lemma linear0 e : linear pid O s e → linear pid O s0 e.
Proof. intros H ρ Hρ. destruct (H ρ Hρ) as (a & b & Hab). exists a, b. intros v. by rewrite <- val0. Qed.

Lemma remaining_sound e x : nodes s !! e = Some x → isPhi pid s e = false →
  ∃ r, remaining fname pid ids s e x = Some r ∧ sound e r.
Proof.
  intros Hn Hnphi. assert (valid s e) as Hv by (apply valid_lookup; eauto).
  assert (arity_ok s) as Har by (unfold arity_ok; rewrite (proj1 Hs); exact Har0).
  assert (∀ d, selects pid O s e → sound e (as_detail Permutation d)) as Hperm.
  { intros d H. split; [|done]. apply up_leaf; [done|]. exact H. }
  unfold remaining. set (rest := if existsb _ ids then _ else _).
  assert (∃ r, rest = Some r ∧ sound e r) as Hrest.
  { unfold rest. destruct (existsb _ ids).
    - eexists. split; [reflexivity|]. unfold tuple. destruct (linear_scale fname pid s e) as [o|] eqn:E.
      + split; [by apply up_leaf|]. intros _. by eapply linear0, linear_scale_sound.
      + split; [by apply up_leaf|done].
    - match goal with |- context [if ?c then _ else _] => destruct c eqn:Hop end; [|destruct (free pid s e) eqn:Hf].
      + eexists. split; [reflexivity|]. split; [|done]. apply up_leaf; [done|]. intros ρ _ v v'.
        destruct x as [t nd]; cbn in Hop. destruct nd as [| |i| | | | | | | |]; try done.
        unfold isPhi in Hnphi. apply bool_decide_eq_false in Hnphi.
        assert (unwrap s e = e) as Hu by (unfold unwrap; by rewrite Hn). rewrite Hu in Hnphi.
        unfold isSym in Hnphi. rewrite Hn in Hnphi.
        unfold val. rewrite !(den_sym s Hwf _ _ _ _ Hn). cbn.
        destruct (i =? pid)%nat eqn:Ei; [|done]. apply Nat.eqb_eq in Ei. congruence.
      + eexists. split; [reflexivity|]. apply Hperm. intros ρ Hρ. right. intros v v'. by apply val_free.
      + eexists. split; [reflexivity|]. split; [by apply up_leaf|done]. }
  clearbody rest. destruct (node x); try exact Hrest.
  destruct (walk_sound fname pid ids O Hex s Hwf (S e) e Har Hv) as (ok & Hok & Hsel); [lia|]. unfold walk. rewrite Hok. cbn.
  destruct ok; [|exact Hrest]. eexists. split; [reflexivity|]. apply (Hperm NoDetail). auto.
Qed.
End at_store.

Lemma parts_sound e t parts pcs : nodes s0 !! e = Some (mkExpr t (NConcat parts)) →
  Forall2 sound parts pcs → sound e (of_parts pcs).
Proof.
  intros Hn Hp. destruct (of_parts_cases pcs) as [Hper Hc]. split; [|by rewrite Hper].
  destruct Hc as [[-> ->]|Hall]; [by apply (up_leaf s0)|].
  eapply (up_parts _ _ _ _ _ _ _ _ ((λ pc, (kind pc, predicated pc)) <$> pcs)); [exact Hn| | |].
  - rewrite length_fmap. by eapply Forall2_length.
  - apply Forall_fmap. eapply Forall_impl; [exact Hall|]. done.
  - intros i x kp Hi Hk. apply list_lookup_fmap_Some in Hk as (pc & -> & Hpc).
    exact (proj1 (Forall2_lookup_lr _ _ _ _ _ _ Hp Hi Hpc)).
Qed.
Lemma mmap_sound (f : EP → M Classified) parts s : wf s → ext s0 s → same s0 s →
  (∀ x s', x ∈ parts → wf s' → ext s0 s' → same s0 s' → spec_or P (f x) s' (λ r s'', same s0 s'' ∧ sound x r)) →
  spec_or P (mmap f parts) s (λ pcs s', same s0 s' ∧ Forall2 sound parts pcs).
Proof.
  intros Hwf Hx Hs Hf. revert s Hwf Hx Hs. induction parts as [|x parts IH]; intros s Hwf Hx Hs; [by apply spec_or_ret|].
  eapply spec_or_bind; [apply Hf; [left|done..]|]. cbn beta. intros r s1 Hwf1 Hx1 [Hs1 Hr].
  eapply spec_or_bind; [apply IH; [intros y s' ?; apply Hf; by right|done|by etrans|done]|].
  cbn beta. intros pcs s2 Hwf2 Hx2 [Hs2 Hpcs]. apply spec_or_ret; [done|]. split; [done|]. by constructor.
Qed.

Lemma sum_sound s e n i : wf s → ext s0 s → same s0 s → additive pid O s e →
  sound e (mkClassified Sum n false i NoDetail permissions0).
Proof. intros Hwf Hx Hs Ha. split; [|done]. by apply (up_leaf s). Qed.
(** an additive polynomial whose other terms are constants adds the same constant every time *)
Lemma induction_sound s e t ts n : wf s → ext s0 s → same s0 s → nodes s !! e = Some (mkExpr t (NPoly ts)) →
  additive pid O s e → ∀ a, atoms s !! a = Some p → all_const a ts = true →
  sound e (mkClassified Induction n false false NoDetail permissions0).
Proof.
  intros Hwf Hx Hs Hn Hadd a Ha Hall. split; [|done].
  destruct (all_const_value s Hwf pid p (phi_ok_same _ _ _ _ Hs Hphi0) a Ha ts Hall) as (c & K & HK).
  assert (∀ ρ v, env_opq ρ = O → val s0 ρ pid e v = v + K) as H.
  { intros ρ v Hρ. destruct (Hadd ρ Hρ) as [T HT].
    assert (∀ v, val s ρ pid e v = c * v + K) as Hc.
    { intros v'. unfold val. by rewrite (den_poly _ _ _ _ _ Hwf Hn), HK. }
    rewrite <- (val0 s) by done. pose proof (HT 0). rewrite Hc in *. specialize (HT v). rewrite Hc in HT. lia. }
  apply up_form; [|by eauto]. intros ρ Hρ. exists K. intros v. by apply H.
Qed.
(** the additive chain decides between loop control and a sum *)
Lemma chain_sound s e x init : wf s → ext s0 s → same s0 s → nodes s !! e = Some x →
  isPhi pid s e = false → (init = None → P) →
  spec_or P (additive_or_remaining fname fbits pid ids e x init) s (λ r s', same s0 s' ∧ sound e r).
Proof.
  intros Hwf Hx Hs Hn Hnp Hinit. assert (valid s e) as Hv by (apply valid_lookup; eauto).
  pose proof (phi_ok_same _ _ _ _ Hs Hphi0) as Hphi.
  eapply spec_or_bind; [right; by apply (chain_spec fname pid p O Hex)|]. cbn beta. intros [ok n] s1 Hwf1 Hx1 [Hs1 Hadd].
  assert (same s0 s1) as Hs01 by (by etrans). assert (ext s0 s1) as Hx01 by (by etrans).
  assert (nodes s1 !! e = Some x) as Hn1 by exact (ext_node _ _ _ _ Hx1 Hn).
  cbn [fst snd] in *. destruct ok; cycle 1.
  { apply gets_spec_or. right. destruct (remaining_sound s1 Hwf1 Hx01 Hs01 e x Hn1) as (r & Hr & Hsnd).
    { by rewrite (isPhi_same pid s s1). }
    exists r, s1. unfold lift_opt, id. rewrite Hr. by split_and!. }
  assert (additive pid O s e) as Ha by auto.
  eapply (spec_or_bind _ _ _ _ (λ ind s2, same s0 s2 ∧ (ind = true →
    sound e (mkClassified Induction n false false NoDetail permissions0)))).
  { right. unfold is_induction. destruct x as [t []]; cbn [node]; try (by apply spec_ret).
    eapply spec_bind; [apply (patom_spec _ _ p); [done|by eapply phi_ok_same]|].
    cbn beta. intros a s2 Hwf2 Hx2 [Hs2 Hat]. apply spec_ret; [done|].
    assert (same s0 s2) as Hs02 by (by etrans). split; [done|].
    apply (induction_sound s2 e t); [done|by etrans|done|exact (ext_node _ _ _ _ Hx2 Hn1)| |done].
    intros ρ Hρ. destruct (Ha ρ Hρ) as [T HT]. exists T. intros v.
    rewrite (val_same s s2) by (done || by etrans). apply HT. }
  cbn beta. intros ind s2 Hwf2 Hx2 [Hs2 Hind]. destruct ind; [apply spec_or_ret; auto|].
  eapply spec_or_bind; [by apply isIdentity_spec|]. cbn beta. intros i ? _ _ ->.
  apply spec_or_ret; [done|]. split; [done|]. by apply (sum_sound s).
Qed.

Lemma classifyOne_f_sound fuel : ∀ n init s, wf s → ext s0 s → same s0 s → valid s n → (n < fuel)%nat →
  (init = None → P) → spec_or P (classifyOne_f fname fbits pid ids fuel n init) s (λ r s', same s0 s' ∧ sound n r).
Proof.
  induction fuel as [|fuel IH]; intros n init s Hwf Hx Hs Hv Hlt Hinit; [lia|]. cbn [classifyOne_f]. apply gets_spec_or.
  pose proof (unwrap_spec s n Hwf Hv) as (Hvu & Hle & Hden).
  assert (∀ r, sound (unwrap s n) r → sound n r) as Hup.
  { assert (∀ ρ, den s0 ρ n = den s0 ρ (unwrap s n)) as Hd.
    { intros ρ. by rewrite <- !(den_same s0 s), Hden. }
    intros r [Hr Hlin]. split; [by eapply up_unwrap|]. intros Hp ρ Hρ. destruct (Hlin Hp ρ Hρ) as (a & b & Hab).
    exists a, b. intros v. rewrite <- Hab. apply Hd. }
  eapply (spec_or_mono _ _ _ (λ r s', same s0 s' ∧ sound (unwrap s n) r)); [|cbn; intros r s' _ _ []; by auto].
  clear Hden Hup. set (m := unwrap s n) in *. clearbody m. pose proof Hvu as [x Hn]%valid_lookup.
  eapply spec_or_deref; [exact Hn|]. apply gets_spec_or. unfold id.
  assert (∀ c, c ∈ children (node x) → valid s c ∧ (c < m)%nat) as Hch by (intros; by eapply child_older).
  case_bool_decide as Hund.
  { apply spec_or_ret; [done|]. split; [done|]. split; [|done]. apply (up_leaf s); try done.
    intros ρ _ v v'. destruct x as [t nd]; cbn in Hund. subst nd. by rewrite !(V_node s Hwf pid ρ _ _ _ Hn). }
  destruct (isPhi pid s m) eqn:Hp.
  { apply spec_or_ret; [done|]. split; [done|]. split; [|done]. apply (up_leaf s); try done.
    intros ρ _ v. by apply val_phi. }
  destruct x as [t nd]; cbn [node] in *.
  destruct (predicated_arm pid s nd) as [a|] eqn:Earm.
  { assert (∀ ρ, env_opq ρ = O → a ∈ children nd ∧ ((∀ v, val s ρ pid m v = val s ρ pid a v)
                                                    ∨ (∀ v, val s ρ pid m v = v))) as Ha.
    { intros ρ <-. by eapply (predicated_arm_sound s Hwf pid fname ρ Hex). }
    assert (a ∈ children nd) as Hin by (by destruct (Ha (mkEnv (λ _, 0) O) eq_refl)).
    eapply spec_or_bind; [apply IH; try done; destruct (Hch a Hin); [done|lia]|].
    cbn beta. intros r s1 Hwf1 Hx1 [Hs1 [Hr Hlin]]. apply spec_or_ret; [done|]. split; [done|]. 
    assert (∀ ρ, env_opq ρ = O → (∀ v, val s0 ρ pid m v = val s0 ρ pid a v) ∨ (∀ v, val s0 ρ pid m v = v)) as Ha0.
    { intros ρ Hρ. destruct (proj2 (Ha ρ Hρ)) as [H'|H']; [left|right]; intros v; rewrite <- !(val0 s) by done; auto. }
    split; [by eapply up_predicated|]. cbn. intros Hpm ρ Hρ. destruct (Ha0 ρ Hρ) as [H'|H'].
    - destruct (Hlin Hpm ρ Hρ) as (k & b & Hab). exists k, b. intros v. by rewrite H'.
    - exists 1, 0. intros v. rewrite H'. lia. }
  destruct (minmax_select pid s nd) as [k|] eqn:Emm.
  { eapply spec_or_bind; [by apply isIdentity_spec|]. cbn beta. intros i ? _ _ ->.
    apply spec_or_ret; [done|]. split; [done|]. split; [|done]. apply (up_leaf s); try done.
    - by eapply (minmax_select_sound s Hwf pid fname (mkEnv (λ _, 0) O) Hex _ _ _ _ true).
    - intros ρ <-. by eapply (minmax_select_sound s Hwf pid fname ρ Hex). }
  assert (spec_or P (match direct_kind fname pid s nd with
                | Some k =>
                    do ident <- isIdentity fbits init (match k with TensorSum => Sum | k => k end);
                    ret (mkClassified k 1 false ident NoDetail permissions0)
                | None => additive_or_remaining fname fbits pid ids m (mkExpr t nd) init end) s (λ r s', same s0 s' ∧ sound m r)) as Hrest.
  { destruct (direct_kind fname pid s nd) as [k|] eqn:Ed; [|by apply (chain_sound s m (mkExpr t nd) init)].
    eapply spec_or_bind; [by apply isIdentity_spec|]. cbn beta. intros i ? _ _ ->.
    apply spec_or_ret; [done|]. split; [done|]. split; [|done].
    assert (∀ ρ, env_opq ρ = O → form k (bool_decide (t = i1)) (val s ρ pid m) ∧ k ≠ Induction) as Hk.
    { intros ρ <-. by eapply (direct_kind_sound s Hwf pid fname ρ Hex). }
    apply (up_leaf s); try done; [by apply (Hk (mkEnv (λ _, 0) O))|].
    intros ρ Hρ. destruct (Hk ρ Hρ) as [Hf _]. unfold type_at. rewrite Hn. cbn.
    erewrite bool_decide_ext; [exact Hf|]. naive_solver. }
  destruct nd as [| | | | | | |parts| | |]; try exact Hrest.
  eapply spec_or_bind; [apply mmap_sound; try done|].
  { intros y s' Hy Hwf' Hx' Hs'. destruct (Hch y Hy) as [Hvy ?].
    apply IH; try done; [|lia|intros _; apply Hagg; unfold aggregate; rewrite <- (proj1 Hs); by exists m, t, parts]. unfold valid in *. rewrite (proj1 Hs'). by rewrite (proj1 Hs) in Hvy. }
  cbn beta. intros pcs s1 Hwf1 Hx1 [Hs1 Hpcs]. apply spec_or_ret; [done|]. split; [done|].
  eapply parts_sound; [|exact Hpcs]. rewrite <- (proj1 Hs). exact Hn.
Qed.
End sound.

(** ** [classifyRecurrence] *)
Lemma find_index_app {A} (f : A → bool) l l' i : find_index f l = Some i → find_index f (l ++ l') = Some i.
Proof.
  revert i. induction l as [|x l IH]; cbn; [done|]. intros i. destruct (f x); [done|].
  destruct (find_index f l) as [k|]; cbn; [|done]. intros [= <-]. by rewrite (IH k).
Qed.
Lemma intern_new s x : wf s → expr_ok s (length (nodes s)) x →
  spec (intern x) s (λ e s', symbols s' = symbols s ∧ nodes s' !! e = Some x
                             ∧ ∀ k y, nodes s' !! k = Some y → nodes s !! k = Some y ∨ y = x).
Proof.
  intros Hwf Hok. destruct (intern_spec s x Hwf Hok) as (e & s' & E & Hwf' & Hx & He).
  exists e, s'. split_and!; try done.
  - unfold intern in E. destruct (find_index _ _); by injection E as <- <-.
  - intros k y Hk. unfold intern in E. destruct (find_index _ _); injection E as <- <-; [by left|].
    cbn in Hk. apply lookup_app_Some in Hk as [?|[_ Hk]]; [by left|right].
    by apply list_lookup_singleton_Some in Hk as [_ <-].
Qed.
(** creating another symbol leaves the phi's symbol as it is *)
Lemma mkSymRaw_other s pid p x sy : wf s → phi_ok s pid p → arity_ok s →
  symbols s !! pid = Some sy → sym_key x sy = false →
  spec (mkSymRaw x) s (λ e s', (∃ t i, nodes s' !! e = Some (mkExpr t (NSym i))) ∧ phi_ok s' pid p ∧ arity_ok s'
                               ∧ symbols s' !! pid = Some sy ∧ (aggregate s' → aggregate s)).
Proof.
  intros Hwf [(sy0 & Hsy & Hfi & Hp) Hu] Har Hsy' Hk. assert (sy0 = sy) as -> by congruence. clear Hsy'.
  assert (∀ s1 i, wf s1 → ext s s1 → nodes s1 = nodes s → find_index (sym_key sy) (symbols s1) = Some pid →
    is_Some (symbols s1 !! i) → i ≠ pid →
    spec (intern (mkExpr (sy_ty x) (NSym i))) s1 (λ e s', (∃ t i, nodes s' !! e = Some (mkExpr t (NSym i)))
      ∧ phi_ok s' pid p ∧ arity_ok s' ∧ symbols s' !! pid = Some sy ∧ (aggregate s' → aggregate s))) as H.
  { intros s1 i Hwf1 Hx1 Hn1 Hfi1 Hi Hne.
    eapply spec_mono; [apply intern_new; [done|split; [constructor|done]]|].
    cbn. intros e s' _ Hx' (Hsym & He & Hnew). rewrite Hn1 in Hnew.
    assert (symbols s1 !! pid = Some sy) as Hs1 by (destruct Hx1; by eapply prefix_lookup_Some).
    split_and!; [by eauto| | |by rewrite Hsym|].
    - split; [exists sy; rewrite Hsym; split_and!; [done|done|]|].
      + eapply ext_node; [|exact Hp]. by etrans.
      + intros k t [Hk'|Hk']%Hnew; [by eapply Hu|]. injection Hk' as _ Hk'. congruence.
    - intros k t l [Hk'|Hk']%Hnew; [by eapply Har|done].
    - intros (k & t & l & [Hk'|Hk']%Hnew); [by exists k, t, l|done]. }
  unfold mkSymRaw. unfold spec in *. destruct (find_index (sym_key x) (symbols s)) as [i|] eqn:E.
  - apply find_index_Some in E as (y & Hy & Hxy). apply (H s i); eauto; [done|].
    intros ->. congruence.
  - destruct (add_symbol_wf s x Hwf) as [Hwf1 Hx1]. cbn in *.
    destruct (H _ (length (symbols s)) Hwf1 Hx1) as (e & s' & He & Hw & Hx' & HQ);
      [done|by apply find_index_app|cbn; exists x; by apply list_lookup_middle| |].
    { apply lookup_lt_Some in Hsy. lia. }
    exists e, s'. split; [done|]. split; [done|]. split; [by etrans|exact HQ].
Qed.
Lemma updates_same s s' pid O k q e : wf s → wf s' → ext s s' → same s s' →
  updates s pid O k q e → updates s' pid O k q e.
Proof.
  intros Hwf Hwf' Hx Hs H. induction H as [k e Hf HK|k q e a _ IH Ha|k q e t parts kps Hn Hl Hall _ IH|k q e e' He _ IH].
  - apply up_form.
    + intros ρ Hρ. specialize (Hf ρ Hρ). unfold type_at in *. rewrite (proj1 Hs).
      eapply form_ext; [|exact Hf]. intros v. symmetry. by apply val_same.
    + intros Hk. destruct (HK Hk) as [K HK']. exists K. intros ρ v Hρ. rewrite (val_same s s') by done. auto.
  - eapply up_predicated; [exact IH|]. intros ρ Hρ. destruct (Ha ρ Hρ) as [H'|H']; [left|right]; intros v;
      rewrite !(val_same s s') by done; auto.
  - eapply (up_parts _ _ _ _ _ _ _ _ kps); [by rewrite (proj1 Hs)|done|done|exact IH].
  - eapply up_unwrap; [|exact IH]. intros ρ. by rewrite !(den_same s s').
Qed.
(** an opaque value is selected, not computed *)
Lemma updates_opaque s pid O q e : updates s pid O SigAlgebra.Unknown q e → updates s pid O Permutation q e.
Proof.
  intros H. remember SigAlgebra.Unknown as k eqn:Hk.
  induction H as [k e Hf HK|k q e a _ IH Ha|k q e t parts kps Hn Hl Hall Hu IH|k q e e' He _ IH]; subst.
  - apply up_form; [|done]. intros ρ Hρ. right. exact (Hf ρ Hρ).
  - eapply up_predicated; eauto.
  - eapply (up_parts _ _ _ _ _ _ _ _ ((λ kp : Algebra * bool,
      (if bool_decide (kp.1 = SigAlgebra.Unknown) then Permutation else kp.1, kp.2)) <$> kps));
      [done|by rewrite length_fmap| |].
    + apply Forall_fmap. eapply Forall_impl; [exact Hall|]. intros [k b]; cbn. intros [-> | ->]; cbn; auto.
    + intros i x kp Hi Hk. apply list_lookup_fmap_Some in Hk as ([k b] & -> & Hk). cbn.
      case_bool_decide as Hd; [|exact (Hu _ _ _ Hi Hk)]. exact (IH _ _ _ Hi Hk Hd).
  - eapply up_unwrap; eauto.
Qed.

Lemma linear_same s s' pid O e : wf s → wf s' → ext s s' → same s s' → linear pid O s e → linear pid O s' e.
Proof.
  intros Hwf Hwf' Hx Hs H ρ Hρ. destruct (H ρ Hρ) as (a & b & Hab). exists a, b. intros v.
  rewrite <- Hab. by apply val_same.
Qed.
(** what the fallback on the instructions leaves of a sound result *)
Definition from_ir (d : Detail) : Prop := d = IrMmaChain ∨ d = IrFmaChain.
Lemma fallback_spec P fname fbits inst r k s : wf s → (r_init r = None → P) →
  spec_or P (ir_fallback fname fbits inst r k) s (λ k' s', s' = s ∧
    (from_ir (detail k') ∨
     (predicated k' = predicated k ∧ c_permits k' = c_permits k ∧
      (kind k' = kind k ∨ (kind k = SigAlgebra.Unknown ∧ kind k' = Permutation))))).
Proof.
  intros Hwf Hi. unfold ir_fallback, from_ir. destruct (_ && _ && _);
    [|apply spec_or_ret; [done|]; split_and!; [done|]; by right; auto].
  cbn zeta. destruct (first_feeding _ _ _) as [[|] m]; cbn [fst snd].
  - eapply spec_or_bind; [by apply isIdentity_spec|]. cbn beta. intros i ? _ _ ->.
    apply spec_or_ret; [done|]. split; [done|]. left. destruct m; auto.
  - case_bool_decide; (apply spec_or_ret; [done|]; split; [done|]; right; cbn; split_and!; auto).
Qed.

(** the phi's symbol and its node, selects of three operands, and no aggregates but those of [s0] *)
Definition knows (s0 : Arena) (r : Recurrence) (pid : nat) (p : EP) (s : Arena) : Prop :=
  phi_ok s pid p ∧ arity_ok s ∧ symbols s !! pid = Some (phi_symbol r) ∧ (aggregate s → aggregate s0).
Lemma siblings_spec s0 r pid p l s : Forall (λ o, is_sibling r o = true) l → wf s → knows s0 r pid p s →
  spec (mmap (λ o, do e <- mkSymRaw (phi_symbol o); symOf e) l) s (λ _ s', knows s0 r pid p s').
Proof.
  intros Hall. revert s. induction Hall as [|o l Ho _ IH]; intros s Hwf Hk; [by apply spec_ret|].
  destruct Hk as (Hphi & Har & Hsym & Hag). cbn [mmap].
  eapply (spec_bind _ _ _ (λ _ s', knows s0 r pid p s')).
  - eapply spec_bind; [apply (mkSymRaw_other s pid p _ (phi_symbol r)); try done|].
    + apply bool_decide_eq_false. unfold phi_symbol. cbn. intros (_ & He & _).
      unfold is_sibling in Ho. rewrite !andb_true_iff, negb_true_iff, Nat.eqb_neq in Ho. tauto.
    + cbn beta. intros e s2 Hwf2 Hx2 ((t & i & He) & ? & ? & ? & ?). eapply spec_deref; [exact He|].
      apply spec_ret; [done|]. split_and!; auto.
  - cbn beta. intros i s2 Hwf2 Hx2 Hk2. eapply spec_bind; [by apply IH|].
    cbn beta. intros js s3 Hwf3 Hx3 Hk3. by apply spec_ret.
Qed.

Section theorem.
Context (fname : nat → string) (fbits : nat → Z) (inst : nat → Inst).
Context (O : Ty → Node → list Z → Z) (Hex : Exact fname O).

End theorem.

(** ** A concrete loop *)
Definition demo_fname (f : nat) : string :=
  if (f =? 1)%nat then "__nv_fmaf" else if (f =? 2)%nat then "__nv_fmaxf" else "__nv_fminf".
Definition demo_interp (t : Ty) (n : Node) (args : list Z) : Z :=
  match n, args with
  | NOp FAdd _, [x; y] | NOp Add _, [x; y] => x + y
  | NOp FSub _, [x; y] | NOp Sub _, [x; y] => x - y
  | NOp FMul _, [x; y] => x * y
  | NOp FPExt _, [x] | NOp FPTrunc _, [x] => x
  | NOp And _, [x; y] => Z.land x y
  | NOp Or _, [x; y] => Z.lor x y
  | NOp Xor _, [x; y] => Z.lxor x y
  | NCmp p _, [x; y] => match fcmp_rel p x y with Some b => bval b | None => 0 end
  | NCall c _ _, x :: y :: rest =>
      if (c =? 1)%nat then match rest with z :: _ => x * y + z | [] => 0 end
      else if (c =? 2)%nat then x `max` y else x `min` y
  | _, _ => 0
  end.
Lemma demo_exact : Exact demo_fname demo_interp.
Proof.
  split; try done; try (intros; by naive_solver).
  - intros t c v l x y z r H. destruct c as [|[|[|c]]]; by vm_compute in H.
  - intros t p l x y b H. cbn. by rewrite H.
  - intros t c v l H. exists id. intros x y.
    destruct c as [|[|[|c]]]; try (by vm_compute in H). cbn. unfold picks_max, id. lia.
  - intros t c v l H. exists id. intros x y.
    destruct c as [|[|[|c]]]; try (by vm_compute in H). cbn. unfold picks_min, id. lia.
Qed.

(** the loop [acc = fma(x, x, acc + x)] *)
Definition f32 : Ty := TFloat 0.
Definition demo_rec (init next : option EP) (incoming : list (bool * nat)) : Recurrence :=
  mkRecurrence 1 7 f32 incoming init next 0.
Definition demo_x : Symbol := mkSymbol Arg 2 "" 0 0 f32.
Definition demo_phi_sum : M EP :=
  do p <- mkSymRaw (phi_symbol (demo_rec None None []));
  do x <- mkSymRaw demo_x;
  do f <- intern (mkExpr f32 (NOp FAdd [p; x]));
  intern (mkExpr f32 (NCall 1 0 [x; x; f])).
Definition demo_loop : Arena := state_of demo_phi_sum arena0.

(** *** What the fallback on the instructions accepts *)
(** the loop [acc = x - acc], [x] an opaque value *)
Definition demo_phi_diff : M EP :=
  do p <- mkSymRaw (phi_symbol (demo_rec None None []));
  do x <- mkSymRaw demo_x;
  intern (mkExpr f32 (NOp FSub [x; p])).
Definition demo_diff : Arena := state_of demo_phi_diff arena0.
Definition diff_inst (v : nat) : Inst := if (v =? 8)%nat then IBinary FSub 2 7 else IOther.
(** the phi as the second operand of a subtraction is reported as a sum that may be reordered and
    partitioned, though the next value is not the phi plus a value *)
Lemma subtraction_from_classified_sum : ∃ k s',
  classifyRecurrence demo_fname (λ _, 32) diff_inst (demo_rec (Some 1%nat) (Some 2%nat) [(true, 8%nat)]) [] demo_diff
    = Some (k, s')
  ∧ kind k = Sum ∧ reorder (c_permits k) = true ∧ partition (c_permits k) = true
  ∧ (∀ ρ v, env_opq ρ = demo_interp → val s' ρ 0 2 v = env_sym ρ 1 - v)
  ∧ ¬ ∃ T, ∀ v, val s' (mkEnv (λ _, 0) demo_interp) 0 2 v = v + T.
Proof.
  eexists _, _. split; [vm_compute; reflexivity|]. split_and!; try done.
  - intros ρ v Hρ. unfold val, den. cbn. rewrite Hρ. done.
  - intros [T HT]. assert (0 = 0 + T) by exact (HT 0). assert (-1 = 1 + T) by exact (HT 1). lia.
Qed.
(** an aggregate with an accumulating part: the part's initial value is a null pointer *)
Definition demo_parts : M EP :=
  do p <- mkSymRaw (phi_symbol (demo_rec None None []));
  do x <- mkSymRaw demo_x;
  do f <- intern (mkExpr f32 (NOp FAdd [p; x]));
  intern (mkExpr f32 (NConcat [f])).
Lemma aggregate_sum_undefined :
  classifyRecurrence demo_fname (λ _, 32) (λ _, IOther) (demo_rec (Some 1%nat) (Some 3%nat) []) []
    (state_of demo_parts arena0) = None.
Proof. by vm_compute. Qed.
(** +0 counts as the neutral element of a half-precision maximum *)
Lemma half_zero_is_max_identity : float_identity Max 16 0 = true ∧ float_identity Max 64 0 = true
  ∧ float_identity Max 32 0 = false.
Proof. done. Qed.

(** the initial value of an integer recurrence that is reported as the identity is neutral *)
Definition neutral (k : Algebra) : Z := match k with SigAlgebra.And => -1 | _ => 0 end.
Lemma isIdentity_neutral fbits s init k w : wf s → type_at s (unwrap s init) = Some (TInt w) →
  valid s init → isIdentity_at fbits s init k = true →
  (∀ ρ, den s ρ init = neutral k) ∧ ∃ op, algebra_op k = Some op ∧ ∀ v, op (neutral k) v = v.
Proof.
  intros Hwf Ht Hv H. unfold isIdentity_at in H.
  assert (∀ v, int_identity k v = true →
    v = neutral k ∧ ∃ op, algebra_op k = Some op ∧ ∀ v, op (neutral k) v = v) as Hk.
  { intros v Hi. destruct k; cbn in Hi; try done; apply Z.eqb_eq in Hi; subst v; (split; [done|]);
      eexists; (split; [reflexivity|]); intros v; cbn; try done.
    - apply Z.land_m1_l. }
  assert (∀ ρ, den s ρ init = den s ρ (unwrap s init)) as Hd by (intros; symmetry; by apply unwrap_spec).
  destruct (nodes s !! unwrap s init) as [[t n]|] eqn:E; [|done].
  assert (t = TInt w) as -> by (unfold type_at in Ht; rewrite E in Ht; by injection Ht).
  destruct n as [bw c|ts| | | | | | | | |]; try done.
  - destruct (Hk _ H) as [Hv' Hop]. split; [|done]. intros ρ. rewrite Hd, (den_unfold _ _ _ _ Hwf E).
    unfold eval_node; cbn. exact Hv'.
  - destruct (constInt s (unwrap s init)) as [v|] eqn:Ec; [|done]. destruct (Hk _ H) as [-> Hop]. split; [|done].
    intros ρ. rewrite Hd, (den_poly _ _ _ _ _ Hwf E). unfold constInt in Ec. rewrite E in Ec. cbn in Ec.
    destruct ts as [|[[|] c] [|]]; try done; injection Ec as Ec; unfold pval; cbn [peval Datatypes.fst Datatypes.snd ArenaSem.mono]; lia.
Qed.
