(* ===== verification/Coords.v ===== *)
(** The coordinate discovery (cpp/mvcc-llvm/coords.cpp): the samples of an access site, the affine
    fit over the physical axes ([Fitter::fit]), the split into affine families ([splitFamilies]),
    the separation of the derived quantities ([splitDerived], [fitExtended]) and the base of an
    address ([baseOf]).

    The values of the samples are polynomials of the expression arena; as in the source, two of them
    are compared by pointer. The reason of a failed fit is data here ([Why]); the source prints it. *)
From stdpp Require Import sorting.
From S2P Require Import Prelude Expr Arena ArenaSem ArenaCmp.
Open Scope Z_scope.

Definition i64 : Ty := TInt 64.
(** a physical point, one entry per axis, and the polynomial there *)
Record Sample := mkSample { pt : list Z; val : EP }.
#[export] Instance Sample_eq_dec : EqDecision Sample.
Proof. solve_decision. Defined.
(** [x[a]] *)
Definition coord (x : list Z) (a : nat) : Z := nth a x 0.

(** ** Sorting samples *)
(** [std::vector<int>::operator<] *)
Fixpoint vlt (a b : list Z) : bool :=
  match a, b with
  | _, [] => false
  | [], _ => true
  | x :: a, y :: b => (x <? y) || ((x =? y) && vlt a b)
  end.
(** the comparator of [dedupe]; an expression's id is its creation index *)
Definition sample_lt (a b : Sample) : bool :=
  if bool_decide (pt a = pt b) then (val a <? val b)%nat else vlt (pt a) (pt b).
Definition sample_le (a b : Sample) : Prop := sample_lt b a = false.
#[export] Instance sample_le_dec : RelDecision sample_le.
Proof. intros a b. unfold sample_le. apply _. Defined.
(** [std::unique]: of a run of equal samples one is kept *)
Fixpoint unique {A} `{EqDecision A} (l : list A) : list A :=
  match l with
  | [] => []
  | x :: l =>
      match unique l with
      | (y :: _) as out => if bool_decide (x = y) then out else x :: out
      | [] => [x]
      end
  end.
Definition dedupe (Ss : list Sample) : list Sample := unique (merge_sort sample_le Ss).

(** ** The affine fit *)
Inductive Why :=
| NoSamples
| UnderSampled (a : nat)
| NotAffine (x : list Z) (v pred : EP).
Inductive Fit := Fitted (base : EP) (stride : list (option EP)) | Failed (why : Why).

(** the first of the samples at the lowest point *)
Definition lowest (s : Sample) (Ss : list Sample) : Sample :=
  fold_left (λ o s, if vlt (pt s) (pt o) then s else o) Ss s.
(** the samples [i], [j] at different indices, in the order of the two loops *)
Definition pairs (Ss : list Sample) : list (Sample * Sample) :=
  x ← imap pair Ss; y ← imap pair Ss; if (x.1 =? y.1)%nat then [] else [(x.2, y.2)].
(** the difference along axis [a] when the points differ along no other *)
Definition one_axis (nx a : nat) (xi xj : list Z) : option Z :=
  if forallb (λ b, (b =? a)%nat || (coord xj b - coord xi b =? 0)) (seq 0 nx)
  then Some (coord xj a - coord xi a) else None.
(** the terms divided by [k], if it divides every coefficient *)
Fixpoint div_terms (k : Z) (ts : list Term) : option (list Term) :=
  match ts with
  | [] => Some []
  | (m, c) :: ts => if Z.rem c k =? 0 then cons (m, Z.quot c k) <$> div_terms k ts else None
  end.
(** what one pair of samples says of the stride along [a] *)
Definition pair_stride (nx a : nat) (si sj : Sample) : M (option EP) :=
  match one_axis nx a (pt si) (pt sj) with
  | None => ret None
  | Some k =>
      if k =? 0 then ret None
      else
        do diff <- sub (val sj) (val si);
        if k =? 1 then ret (Some diff)
        else
          do ts <- terms_of diff;
          match div_terms k ts with
          | None => ret None
          | Some terms => do d <- mkPoly i64 terms; ret (Some d)
          end
  end.
Fixpoint find_stride (nx a : nat) (ps : list (Sample * Sample)) : M (option EP) :=
  match ps with
  | [] => ret None
  | (si, sj) :: ps =>
      do d <- pair_stride nx a si sj;
      match d with Some d => ret (Some d) | None => find_stride nx a ps end
  end.
(** an axis along which the samples vary but no stride was found *)
Definition under_sampled (Ss : list Sample) (o : Sample) (strides : list (option EP)) : option nat :=
  find (λ a, match strides !! a with
             | Some None => existsb (λ s, negb (coord (pt s) a =? coord (pt o) a)) Ss
             | _ => false
             end) (seq 0 (length strides)).
(** [acc - stride x] and [acc + stride x], left alone when the stride is null or [x] is 0 *)
Definition step_axis (op : EP → EP → M EP) (acc : EP) (dx : option EP * Z) : M EP :=
  match dx.1 with
  | Some d => if dx.2 =? 0 then ret acc else do c <- mkInt i64 dx.2; do t <- mul d c; op acc t
  | None => ret acc
  end.
Definition along (op : EP → EP → M EP) (strides : list (option EP)) (x : list Z) (acc : EP) : M EP :=
  mfold (step_axis op) (zip strides x) acc.
Definition drop_zero_strides (s : Arena) (strides : list (option EP)) : list (option EP) :=
  (λ d : option EP, match d with
     | Some e => match constInt s e with Some z => if z =? 0 then None else d | None => d end
     | None => None
     end) <$> strides.
(** every sample is evaluated against the map *)
Fixpoint verify (base : EP) (strides : list (option EP)) (Ss : list Sample) : M (option Why) :=
  match Ss with
  | [] => ret None
  | s :: Ss =>
      do pred <- along add strides (pt s) base;
      if bool_decide (pred = val s) then verify base strides Ss else ret (Some (NotAffine (pt s) (val s) pred))
  end.
Definition fit (Ss : list Sample) : M Fit :=
  match Ss with
  | [] => ret (Failed NoSamples)
  | s0 :: rest =>
      let nx := length (pt s0) in
      let o := lowest s0 rest in
      do strides <- mmap (λ a, find_stride nx a (pairs Ss)) (seq 0 nx);
      match under_sampled Ss o strides with
      | Some a => ret (Failed (UnderSampled a))
      | None =>
          do base <- along sub strides (pt o) (val o);
          do A <- gets id;
          let strides := drop_zero_strides A strides in
          do bad <- verify base strides Ss;
          ret (match bad with Some w => Failed w | None => Fitted base strides end)
      end
  end.

(** ** The split into affine families *)
(** one step apart along [a] and nowhere else *)
Definition one_step (n a : nat) (si sj : Sample) : bool :=
  forallb (λ b, coord (pt sj) b - coord (pt si) b =? (if (b =? a)%nat then 1 else 0)) (seq 0 n).
(** the counts, in the order the differences are first seen (the source's map is ordered by the
    addresses of the expressions; [most_voted] does not depend on the order) *)
Fixpoint vote (e : EP) (votes : list (EP * nat)) : list (EP * nat) :=
  match votes with
  | [] => [(e, 1%nat)]
  | (e', n) :: votes => if (e =? e')%nat then (e', S n) :: votes else (e', n) :: vote e votes
  end.
Definition collect_votes (n a : nat) (Ss : list Sample) : M (list (EP * nat)) :=
  mfold (λ votes p, if one_step n a p.1 p.2 then do d <- sub (val p.2) (val p.1); ret (vote d votes)
                    else ret votes) (pairs Ss) [].
(** the most common difference, the one created first among equals *)
Definition better_vote (best : option (EP * nat)) (kv : EP * nat) : option (EP * nat) :=
  match best with
  | None => if (0 <? kv.2)%nat then Some kv else None
  | Some (e, n) =>
      if (n <? kv.2)%nat || ((kv.2 =? n)%nat && (kv.1 <? e)%nat) then Some kv else best
  end.
Definition most_voted (votes : list (EP * nat)) : option EP := fst <$> fold_left better_vote votes None.
Definition common_stride (Ss : list Sample) (n a : nat) : M (option EP) :=
  do votes <- collect_votes n a Ss;
  do A <- gets id;
  ret (match most_voted votes with
       | Some e => match constInt A e with Some z => if z =? 0 then None else Some e | None => Some e end
       | None => None
       end).
(** the samples grouped by residual, in the order the residuals are first seen *)
Fixpoint add_group (res : EP) (s : Sample) (groups : list (EP * list Sample)) : list (EP * list Sample) :=
  match groups with
  | [] => [(res, [s])]
  | (r, g) :: groups =>
      if (r =? res)%nat then (r, g ++ [s]) :: groups else (r, g) :: add_group res s groups
  end.
Definition group_by_residual (st : list (option EP)) (Ss : list Sample) : M (list (EP * list Sample)) :=
  mfold (λ groups s, do res <- along sub st (pt s) (val s); ret (add_group res s groups)) Ss [].
Definition splitFamilies (Ss : list Sample) : M (list (list Sample)) :=
  match Ss with
  | [] | [_] => ret [Ss]
  | s0 :: _ =>
      do f <- fit Ss;
      match f with
      | Fitted _ _ => ret [Ss]
      | Failed _ =>
          do st <- mmap (common_stride Ss (length (pt s0))) (seq 0 (length (pt s0)));
          do groups <- group_by_residual st Ss;
          ret (snd <$> groups)
      end
  end.

(** ** Derived quantities as axes *)
Inductive Why2 := WhyFit (w : Why) | DerivedProduct (v : EP) | StrideDiffers (q : nat).
(** the placeholder factor of a monomial and its other factors; [None]: two placeholders *)
Fixpoint split_mono (derAtom : list nat) (m : Monomial) : option (option nat * Monomial) :=
  match m with
  | [] => Some (None, [])
  | a :: m =>
      match split_mono derAtom m with
      | None => None
      | Some (which, others) =>
          match find_index (Nat.eqb a) derAtom, which with
          | None, _ => Some (which, a :: others)
          | Some j, None => Some (Some j, others)
          | Some _, Some _ => None
          end
      end
  end.
(** the terms without a placeholder and, per placeholder, the terms it multiplies *)
Fixpoint split_terms (derAtom : list nat) (ts : list Term) : option (list Term * list (list Term)) :=
  match ts with
  | [] => Some ([], replicate (length derAtom) [])
  | (m, c) :: ts =>
      match split_mono derAtom m, split_terms derAtom ts with
      | Some (None, _), Some (rest, per) => Some ((m, c) :: rest, per)
      | Some (Some j, others), Some (rest, per) => Some (rest, alter (cons (others, c)) j per)
      | _, _ => None
      end
  end.
Definition splitDerived (derAtom : list nat) (p : EP) : M (option (EP * list (option EP))) :=
  do ts <- terms_of p;
  match split_terms derAtom ts with
  | None => ret None
  | Some (rest, per) =>
      do coef <- mmap (λ ts : list Term, match ts with [] => ret None | _ => do c <- mkPoly i64 ts; ret (Some c) end) per;
      do r <- mkPoly i64 rest;
      ret (Some (r, coef))
  end.
(** the coefficients of the placeholders must agree across the samples *)
Fixpoint split_samples (derAtom : list nat) (coef : option (list (option EP))) (Ss : list Sample)
  : M (Why2 + list (option EP) * list Sample) :=
  match Ss with
  | [] => ret (inr (default (replicate (length derAtom) None) coef, []))
  | s :: Ss =>
      do r <- splitDerived derAtom (val s);
      match r with
      | None => ret (inl (DerivedProduct (val s)))
      | Some (r, c) =>
          match find (λ q, negb (bool_decide ((coef ≫= λ c0, c0 !! q) = c !! q)))
                  (match coef with Some _ => seq 0 (length derAtom) | None => [] end) with
          | Some q => ret (inl (StrideDiffers q))
          | None =>
              do out <- split_samples derAtom (Some (default c coef)) Ss;
              ret (match out with
                   | inl w => inl w
                   | inr (c', Ss') => inr (c', mkSample (pt s) r :: Ss')
                   end)
          end
      end
  end.
(** the map of a site: base, strides along the physical axes, then along the derived ones *)
Definition fitExtended (derAtom : list nat) (nPhys : nat) (Ss : list Sample) : M (Why2 + EP * list (option EP)) :=
  do sp <- split_samples derAtom None Ss;
  match sp with
  | inl w => ret (inl w)
  | inr (coef, Ss') =>
      do f <- fit Ss';
      ret (match f with
           | Failed w => inl (WhyFit w)
           | Fitted base phys =>
               inr (base, take nPhys (phys ++ replicate nPhys None) ++ coef)
           end)
  end.

(** ** Polynomials by their coefficients *)
Definition terms (s : Arena) (e : EP) : list Term :=
  match nodes s !! e with Some (mkExpr _ (NPoly ts)) => ts | _ => [] end.
Definition pcoef (s : Arena) (e : EP) (m : Monomial) : Z := coef (terms s e) m.
(** an address polynomial *)
Definition ispoly (s : Arena) (e : EP) : Prop := ∃ ts, is_poly s e i64 ts.
Definition ocoef (s : Arena) (d : option EP) (m : Monomial) : Z := from_option (λ e, pcoef s e m) 0 d.
Definition oden (s : Arena) (ρ : Env) (d : option EP) : Z := from_option (den s ρ) 0 d.
Definition opoly (s : Arena) (d : option EP) : Prop := from_option (ispoly s) True d.

Lemma terms_is_poly s e t ts : is_poly s e t ts → terms s e = ts.
Proof. unfold is_poly, terms. by intros ->. Qed.
Lemma ispoly_terms s e : ispoly s e → is_poly s e i64 (terms s e).
Proof. intros [ts H]. by rewrite (terms_is_poly _ _ _ _ H). Qed.
Lemma ispoly_ext s s' e : ext s s' → ispoly s e → ispoly s' e.
Proof. intros Hx [ts H]. exists ts. by eapply ext_node. Qed.
Lemma opoly_ext s s' d : ext s s' → opoly s d → opoly s' d.
Proof. destruct d; cbn; [apply ispoly_ext|done]. Qed.
Lemma terms_ext s s' e : ext s s' → ispoly s e → terms s' e = terms s e.
Proof.
  intros Hx [ts H]. rewrite (terms_is_poly s _ _ _ H). apply (terms_is_poly _ _ i64). by eapply ext_node.
Qed.
Lemma pcoef_ext s s' e m : ext s s' → ispoly s e → pcoef s' e m = pcoef s e m.
Proof. intros Hx H. unfold pcoef. by rewrite (terms_ext _ _ _ Hx H). Qed.
Lemma ocoef_ext s s' d m : ext s s' → opoly s d → ocoef s' d m = ocoef s d m.
Proof. destruct d; cbn; [apply pcoef_ext|done]. Qed.
Lemma ispoly_type s e : ispoly s e → type_at s e = Some i64.
Proof. intros [ts H]. by eapply is_poly_type. Qed.
Lemma ispoly_valid s e : ispoly s e → valid s e.
Proof. intros H. eapply type_at_valid, ispoly_type, H. Qed.
#[export] Hint Resolve ispoly_ext opoly_ext ispoly_type ispoly_valid ispoly_terms : mvcc_arena.
(** hash consing: equal coefficients, equal expressions *)
Lemma pcoef_inj s a b : wf s → ispoly s a → ispoly s b → (∀ m, pcoef s a m = pcoef s b m) ↔ a = b.
Proof.
  intros Hwf Ha%ispoly_terms Hb%ispoly_terms. split; [|by intros ->]. intros Hm.
  refine (NoDup_lookup _ _ _ _ (wf_nodup _ Hwf) Ha _). unfold is_poly in Hb. rewrite Hb. do 3 f_equal.
  destruct (poly_at _ _ _ _ Hwf Ha) as [? _]. destruct (poly_at _ _ _ _ Hwf Hb) as [? _].
  symmetry. by apply normal_ext.
Qed.
(** a linear relation between coefficients is one between values *)
Lemma peval_coef v xs ys : (∀ m, coef xs m = coef ys m) → peval v xs = peval v ys.
Proof.
  intros H. rewrite <- (peval_normalise v xs), <- (peval_normalise v ys). f_equal.
  apply normal_ext; [apply normalise_normal..|]. intros m. by rewrite !coef_normalise.
Qed.
Definition scale (k : Z) (ts : list Term) : list Term := (λ t : Term, (t.1, k * t.2)) <$> ts.
Lemma coef_scale k ts m : coef (scale k ts) m = k * coef ts m.
Proof.
  unfold scale, coef. induction ts as [|[n c] ts IH]; cbn in *; [lia|]. rewrite IH. case_bool_decide; lia.
Qed.
Lemma peval_scale v k ts : peval v (scale k ts) = k * peval v ts.
Proof. unfold scale. induction ts as [|[n c] ts IH]; cbn in *; [lia|]. rewrite IH. lia. Qed.
Lemma coef_sum r (f : nat → list Term) m :
  coef (mjoin (f <$> seq 0 r)) m = sum r (λ a, coef (f a) m).
Proof.
  induction r as [|r IH]; [done|]. rewrite seq_S, fmap_app, join_app, coef_app, IH. cbn.
  by rewrite app_nil_r.
Qed.
Lemma peval_sum v r (f : nat → list Term) :
  peval v (mjoin (f <$> seq 0 r)) = sum r (λ a, peval v (f a)).
Proof.
  induction r as [|r IH]; [done|]. rewrite seq_S, fmap_app, join_app, peval_app, IH. cbn.
  by rewrite app_nil_r.
Qed.
Lemma den_terms s ρ e : wf s → ispoly s e → den s ρ e = peval (atom_val s (den s ρ)) (terms s e).
Proof. intros Hwf H%ispoly_terms. exact (den_poly _ _ _ _ _ Hwf H). Qed.
Lemma den_linear s ρ e b (ds : nat → option EP) (x : nat → Z) r :
  wf s → ispoly s e → ispoly s b → (∀ a, (a < r)%nat → opoly s (ds a)) →
  (∀ m, pcoef s e m = pcoef s b m + sum r (λ a, x a * ocoef s (ds a) m)) →
  den s ρ e = den s ρ b + sum r (λ a, x a * oden s ρ (ds a)).
Proof.
  intros Hwf He Hb Hds Hm. rewrite !den_terms by done. set (v := atom_val s (den s ρ)).
  assert (∀ a, (a < r)%nat → oden s ρ (ds a) = peval v (from_option (terms s) [] (ds a))) as Ho.
  { intros a Ha. specialize (Hds a Ha). destruct (ds a); cbn in *; [by apply den_terms|done]. }
  rewrite (sum_ext r _ (λ a, peval v (scale (x a) (from_option (terms s) [] (ds a))))).
  2: { intros a Ha. by rewrite Ho, peval_scale. }
  rewrite <- (peval_sum v r (λ a, scale (x a) (from_option (terms s) [] (ds a)))), <- peval_app.
  apply peval_coef. intros m. rewrite coef_app, coef_sum. fold (pcoef s e m) (pcoef s b m). rewrite Hm. f_equal.
  apply sum_ext. intros a Ha. rewrite coef_scale. by destruct (ds a).
Qed.

(** ** The arithmetic on coefficients *)
Lemma asPoly_id s e t ts : is_poly s e t ts → asPoly e s = Some (e, s).
Proof. intros H. unfold asPoly, bind, deref. by rewrite H. Qed.
Lemma mkPoly_coef s ts :
  wf s → poly_ok s (length (nodes s)) ts →
  spec (mkPoly i64 ts) s (λ e s', ispoly s' e ∧ ∀ m, pcoef s' e m = coef ts m).
Proof.
  intros Hwf Hp. eapply spec_mono; [by apply mkPoly_spec|]. cbn. intros e s' _ _ [H _].
  split; [by eexists|]. intros m. unfold pcoef. by rewrite (terms_is_poly _ _ _ _ H), coef_normalise.
Qed.
Lemma poly2_coef (f : list Term → list Term → list Term) s a b :
  (∀ s e xs ys, poly_ok s e xs → poly_ok s e ys → poly_ok s e (f xs ys)) →
  wf s → ispoly s a → ispoly s b →
  spec (bind (asPoly a) (λ a, bind (asPoly b) (λ b, bind (terms_of a) (λ ta,
        bind (terms_of b) (λ tb, bind (ty_of a) (λ t, mkPoly t (f ta tb))))))) s
    (λ e s', ispoly s' e ∧ ∀ m, pcoef s' e m = coef (f (terms s a) (terms s b)) m).
Proof.
  intros Hf Hwf Ha%ispoly_terms Hb%ispoly_terms.
  assert (∀ A (g : EP → M A) e ts R, is_poly s e i64 ts → spec (g e) s R → spec (bind (asPoly e) g) s R) as Has.
  { intros A g e ts R He (r & s' & Hr & ?). exists r, s'. unfold bind at 1. by rewrite (asPoly_id _ _ _ _ He). }
  eapply Has; [exact Ha|]. eapply Has; [exact Hb|].
  eapply spec_terms_of; [exact Ha|]. eapply spec_terms_of; [exact Hb|]. eapply spec_ty_of; [exact Ha|]. cbn.
  destruct (poly_at _ _ _ _ Hwf Ha) as [_ ?]. destruct (poly_at _ _ _ _ Hwf Hb) as [_ ?]. apply mkPoly_coef; auto.
Qed.
Lemma add_coef s a b :
  wf s → ispoly s a → ispoly s b →
  spec (add a b) s (λ e s', ispoly s' e ∧ ∀ m, pcoef s' e m = pcoef s a m + pcoef s b m).
Proof.
  intros. eapply spec_mono; [apply (poly2_coef app); [apply poly_ok_app|done..]|].
  cbn. intros e s' _ _ [? Hc]. split; [done|]. intros m. by rewrite Hc, coef_app.
Qed.
Lemma neg_coef s a :
  wf s → ispoly s a → spec (neg a) s (λ e s', ispoly s' e ∧ ∀ m, pcoef s' e m = - pcoef s a m).
Proof.
  intros Hwf Ha%ispoly_terms. unfold neg. unfold spec at 1. unfold bind at 1. rewrite (asPoly_id _ _ _ _ Ha).
  eapply spec_terms_of; [exact Ha|]. eapply spec_ty_of; [exact Ha|]. cbn.
  destruct (poly_at _ _ _ _ Hwf Ha) as [_ ?].
  eapply spec_mono; [apply mkPoly_coef; auto with mvcc_arena|]. cbn. intros e s' _ _ [? Hc].
  split; [done|]. intros m. by rewrite Hc, coef_neg.
Qed.
Lemma sub_coef s a b :
  wf s → ispoly s a → ispoly s b →
  spec (sub a b) s (λ e s', ispoly s' e ∧ ∀ m, pcoef s' e m = pcoef s a m - pcoef s b m).
Proof.
  intros Hwf Ha Hb. eapply spec_bind; [by apply neg_coef|]. cbn. intros nb s1 Hwf1 Hx1 [Hn Hc].
  eapply spec_mono; [apply add_coef; eauto with mvcc_arena|]. cbn. intros e s2 _ _ [? He].
  split; [done|]. intros m. rewrite He, Hc, (pcoef_ext s s1) by done. lia.
Qed.
Lemma sort_mono_nil m : StronglySorted Nat.le m → sort_mono (m ++ []) = m.
Proof.
  intros Hs. rewrite app_nil_r. apply (StronglySorted_unique Nat.le); [|done|].
  - apply StronglySorted_merge_sort; [intros ???; lia|intros ??; lia].
  - apply merge_sort_Permutation.
Qed.
Lemma mul_const_terms s e ts c : poly_ok s e ts → c ≠ 0 → mul_terms ts [([], c)] = scale c ts.
Proof.
  intros Hp Hc. unfold mul_terms, scale. induction Hp as [|[m k] ts [_ Hm] _ IH]; [done|].
  rewrite bind_cons, fmap_cons, IH. cbn. rewrite sort_mono_nil by done. by rewrite Z.mul_comm.
Qed.
(** [acc] and then [stride * mkInt(i64, x)] added or subtracted *)
Definition signed_op (op : EP → EP → M EP) (σ : Z) : Prop := ∀ s a b,
  wf s → ispoly s a → ispoly s b →
  spec (op a b) s (λ e s', ispoly s' e ∧ ∀ m, pcoef s' e m = pcoef s a m + σ * pcoef s b m).
Lemma add_signed : signed_op add 1.
Proof. intros s a b ? ? ?. eapply spec_mono; [by apply add_coef|]. cbn. intros e s' _ _ [? Hm]. split; [done|]. intros m. rewrite Hm. lia. Qed.
Lemma sub_signed : signed_op sub (-1).
Proof. intros s a b ? ? ?. eapply spec_mono; [by apply sub_coef|]. cbn. intros e s' _ _ [? Hm]. split; [done|]. intros m. rewrite Hm. lia. Qed.
Lemma mul_int_coef s d x : wf s → ispoly s d → x ≠ 0 →
  spec (do c <- mkInt i64 x; mul d c) s (λ t s', ispoly s' t ∧ ∀ m, pcoef s' t m = x * pcoef s d m).
Proof.
  intros Hwf Hd Hx.
  eapply spec_bind; [by apply (mkInt_spec _ i64 64)|]. cbn beta. intros c s1 Hwf1 Hx1 [Hc _].
  assert (ispoly s1 c) as Hpc by (by eexists).
  assert (terms s1 c = [([], x)]) as Htc.
  { rewrite (terms_is_poly _ _ _ _ Hc). change (wrapw 64 x) with x. apply normalise_id.
    split; [repeat constructor|]. by repeat constructor. }
  eapply spec_mono; [apply (poly2_coef mul_terms); [apply poly_ok_mul|done|by eauto with mvcc_arena|done]|].
  cbn beta. intros t s2 Hwf2 Hx2 [Ht Htm]. split; [done|]. intros m.
  rewrite Htm, Htc, (terms_ext s s1) by done.
  destruct (poly_at _ _ _ _ Hwf (ispoly_terms _ _ Hd)) as [_ Hok].
  rewrite (mul_const_terms _ _ _ _ Hok Hx), coef_scale. done.
Qed.
Lemma spec_assoc {A B C} (m : M A) (f : A → M B) (g : B → M C) s R :
  spec (bind (bind m f) g) s R → spec (bind m (λ x, bind (f x) g)) s R.
Proof. intros (r & s' & E & ?). exists r, s'. rewrite <- E. unfold bind. by destruct (m s) as [[]|]. Qed.
Lemma step_axis_spec op σ s acc d x :
  signed_op op σ → wf s → ispoly s acc → opoly s d →
  spec (step_axis op acc (d, x)) s (λ e s', ispoly s' e ∧ ∀ m, pcoef s' e m = pcoef s acc m + σ * (x * ocoef s d m)).
Proof.
  intros Hop Hwf Ha Hd. unfold step_axis; cbn [fst snd]. destruct d as [d|]; cbn in Hd.
  2: { apply spec_ret; [done|]. split; [done|]. intros m. cbn. lia. }
  destruct (Z.eqb_spec x 0) as [->|Hx]; [apply spec_ret; [done|]; split; [done|]; intros m; cbn; lia|].
  apply spec_assoc. eapply spec_bind; [by apply mul_int_coef|]. cbn beta. intros t s1 Hwf1 Hx1 [Ht Htm].
  eapply spec_mono; [apply Hop; [done| |done]; by eapply ispoly_ext|].
  cbn beta. intros e s2 _ _ [He Hem]. split; [done|]. intros m.
  by rewrite Hem, Htm, (pcoef_ext s s1).
Qed.
#[local] Arguments sum : simpl never.
#[local] Arguments ocoef : simpl never.
#[local] Arguments oden : simpl never.
#[local] Arguments pcoef : simpl never.
Lemma along_spec op σ s acc ds x :
  signed_op op σ → wf s → ispoly s acc → Forall (opoly s) ds → length ds = length x →
  spec (along op ds x acc) s (λ e s', ispoly s' e ∧
    ∀ m, pcoef s' e m = pcoef s acc m + σ * sum (length x) (λ a, coord x a * ocoef s (nth a ds None) m)).
Proof.
  intros Hop. unfold along. revert x acc s. induction ds as [|d ds IH]; intros [|k x] acc s Hwf Ha Hds Hl;
    cbn [zip zip_with mfold length] in *; try lia.
  { apply spec_ret; [done|]. split; [done|]. intros m. rewrite sum_zero; lia. }
  apply Forall_cons in Hds as [Hd Hds].
  eapply spec_bind; [by apply step_axis_spec|]. cbn. intros e s1 Hwf1 Hx1 [He Hem].
  eapply spec_mono.
  - apply IH; [done|done| |lia]. eapply Forall_impl; [exact Hds|]. intros d'. by apply opoly_ext.
  - cbn beta. intros e2 s2 _ _ [He2 Hem2]. split; [done|]. intros m. rewrite Hem2, Hem.
    rewrite sum_first. unfold coord; cbn [nth].
    rewrite (sum_ext (length x) (λ a, nth a x 0 * ocoef s1 (nth a ds None) m)
      (λ a, nth a x 0 * ocoef s (nth a ds None) m)); [lia|].
    intros a Hal. f_equal. apply ocoef_ext; [done|].
    rewrite Forall_forall in Hds. apply Hds, list_elem_of_In, nth_In. lia.
Qed.

(** ** The stride along an axis *)
Lemma elem_of_pairs Ss si sj :
  (si, sj) ∈ pairs Ss ↔ ∃ i j, i ≠ j ∧ Ss !! i = Some si ∧ Ss !! j = Some sj.
Proof.
  unfold pairs. rewrite list_elem_of_bind. split.
  - intros ([i x] & ([j y] & Hin & Hj)%list_elem_of_bind & Hi).
    apply list_elem_of_lookup in Hi as (i' & Hi). rewrite list_lookup_imap in Hi.
    apply list_elem_of_lookup in Hj as (j' & Hj). rewrite list_lookup_imap in Hj.
    destruct (Ss !! i') as [a|] eqn:Ei; [|done]. destruct (Ss !! j') as [b|] eqn:Ej; [|done].
    cbn in Hi, Hj. injection Hi as <- <-. injection Hj as <- <-. cbn in Hin.
    destruct (Nat.eqb_spec i' j'); [by apply elem_of_nil in Hin|].
    apply list_elem_of_singleton in Hin as [= <- <-]. eauto.
  - intros (i & j & Hne & Hi & Hj). exists (i, si). split.
    + apply list_elem_of_bind. exists (j, sj). split.
      * cbn. apply Nat.eqb_neq in Hne as ->. by apply list_elem_of_singleton.
      * exact (elem_of_lookup_imap_2 pair _ _ _ Hj).
    + exact (elem_of_lookup_imap_2 pair _ _ _ Hi).
Qed.
Lemma one_axis_spec nx a xi xj k :
  (a < nx)%nat → one_axis nx a xi xj = Some k ↔
  coord xj a - coord xi a = k ∧ ∀ b, (b < nx)%nat → b ≠ a → coord xj b = coord xi b.
Proof.
  intros Ha. unfold one_axis. destruct (forallb _ _) eqn:E.
  - rewrite forallb_forall in E. split; [intros [= <-]|by intros [-> _]]. split; [done|]. intros b Hb Hne.
    specialize (E b (proj2 (in_seq nx 0 b) ltac:(lia))). apply orb_true_iff in E as [E|E].
    + by apply Nat.eqb_eq in E.
    + apply Z.eqb_eq in E. lia.
  - split; [done|]. intros [_ Hb]. exfalso. apply not_true_iff_false in E. apply E.
    apply forallb_forall. intros b [_ Hlt]%in_seq. apply orb_true_iff.
    destruct (Nat.eqb_spec b a); [by left|right]. apply Z.eqb_eq. rewrite Hb; lia.
Qed.
Lemma coef_in ts m c : normal ts → (m, c) ∈ ts → coef ts m = c.
Proof.
  intros Hn Hin. induction ts as [|[n d] ts IH]; [by apply elem_of_nil in Hin|].
  apply elem_of_cons in Hin as [[= <- <-]|Hin]; [by apply coef_head|].
  specialize (IH (normal_tail _ _ Hn) Hin). destruct Hn as [Hs _]. apply StronglySorted_inv in Hs as [_ Hall].
  rewrite Forall_forall in Hall. specialize (Hall _ Hin). unfold coef in *; cbn in *.
  rewrite bool_decide_false; [lia|]. intros ->. unfold term_lt in Hall; cbn in Hall. by rewrite mlt_irrefl in Hall.
Qed.
Lemma div_terms_Some k ts ts' s e :
  k ≠ 0 → poly_ok s e ts → div_terms k ts = Some ts' → poly_ok s e ts' ∧ ∀ m, k * coef ts' m = coef ts m.
Proof.
  intros Hk Hok. revert ts'. induction Hok as [|[m c] ts Hm _ IH]; intros ts' E.
  { injection E as <-. split; [constructor|]. intros m. cbn. lia. }
  cbn in E. destruct (Z.eqb_spec (Z.rem c k) 0) as [Hr|]; [|done].
  apply fmap_Some in E as (out & E & ->). destruct (IH _ E) as [Ho Hc]. split; [by constructor|].
  intros m'. specialize (Hc m'). unfold coef in *; cbn in *. pose proof (Z.quot_rem c k Hk).
  case_bool_decide; lia.
Qed.
Lemma div_terms_None k ts : k ≠ 0 → normal ts → div_terms k ts = None → ∃ m, ¬ (k | coef ts m).
Proof.
  intros Hk Hn E. assert (∃ t, t ∈ ts ∧ Z.rem t.2 k ≠ 0) as ([m c] & Hin & Hr).
  { clear Hn. induction ts as [|[m c] ts IH]; [done|]. cbn in E.
    destruct (Z.eqb_spec (Z.rem c k) 0); [|exists (m, c); split; [left|done]].
    apply fmap_None in E. destruct (IH E) as (t & ? & ?). exists t. split; [by right|done]. }
  exists m. rewrite (coef_in _ _ _ Hn Hin). by rewrite <- Z.rem_divide.
Qed.

Section fit.
Context (nx : nat) (Ss : list Sample).
(** every sample has an entry per axis and its value is an address polynomial *)
Definition samples_ok (s : Arena) : Prop :=
  Forall (λ x, length (pt x) = nx ∧ ispoly s (val x)) Ss.
Lemma samples_ok_ext s s' : ext s s' → samples_ok s → samples_ok s'.
Proof. intros Hx H. eapply Forall_impl; [exact H|]. intros x [? ?]. split; [done|]. by eapply ispoly_ext. Qed.
Lemma sample_ok s x : samples_ok s → x ∈ Ss → length (pt x) = nx ∧ ispoly s (val x).
Proof. unfold samples_ok. rewrite Forall_forall. auto. Qed.

(** [d] is the stride two samples at distance [k] along [a] alone determine *)
Definition stride_from (a : nat) (s : Arena) (d : EP) : Prop :=
  ispoly s d ∧ ∃ si sj k, si ∈ Ss ∧ sj ∈ Ss ∧ one_axis nx a (pt si) (pt sj) = Some k ∧ k ≠ 0 ∧
    ∀ m, pcoef s (val sj) m - pcoef s (val si) m = k * pcoef s d m.
Definition no_stride (a : nat) (s : Arena) : Prop :=
  ∀ si sj k, (si, sj) ∈ pairs Ss → one_axis nx a (pt si) (pt sj) = Some k → k ≠ 0 →
    ∃ m, ¬ (k | pcoef s (val sj) m - pcoef s (val si) m).
Definition stride_ok (a : nat) (d : option EP) (s : Arena) : Prop :=
  samples_ok s ∧ match d with Some d => stride_from a s d | None => no_stride a s end.
Lemma stride_ok_ext a d s s' : ext s s' → stride_ok a d s → stride_ok a d s'.
Proof.
  intros Hx [Hok H]. split; [by eapply samples_ok_ext|].
  assert (∀ x m, x ∈ Ss → pcoef s' (val x) m = pcoef s (val x) m) as Hc.
  { intros x m Hin. apply pcoef_ext; [done|]. by eapply sample_ok. }
  destruct d as [d|].
  - destruct H as [Hd (si & sj & k & Hi & Hj & Hone & Hk & Hm)]. split; [by eapply ispoly_ext|].
    exists si, sj, k. split_and!; [done..|]. intros m. rewrite !Hc, (pcoef_ext s s' d) by done. apply Hm.
  - intros si sj k Hin Hone Hk. destruct (H si sj k Hin Hone Hk) as [m Hm]. exists m.
    apply elem_of_pairs in Hin as (i & j & _ & Hi & Hj).
    rewrite !Hc by (by eapply list_elem_of_lookup_2). done.
Qed.
Lemma pair_stride_spec a s si sj :
  wf s → samples_ok s → si ∈ Ss → sj ∈ Ss →
  spec (pair_stride nx a si sj) s (λ d s', match d with
    | Some d => stride_from a s' d
    | None => ∀ k, one_axis nx a (pt si) (pt sj) = Some k → k ≠ 0 →
        ∃ m, ¬ (k | pcoef s (val sj) m - pcoef s (val si) m)
    end).
Proof.
  intros Hwf Hok Hi Hj. unfold pair_stride.
  destruct (one_axis nx a (pt si) (pt sj)) as [k|] eqn:E; [|by apply spec_ret].
  destruct (Z.eqb_spec k 0) as [->|Hk]; [apply spec_ret; [done|]; by intros ? [= <-]|].
  destruct (sample_ok _ _ Hok Hi) as [_ Hpi]. destruct (sample_ok _ _ Hok Hj) as [_ Hpj].
  eapply spec_bind; [by apply sub_coef|]. cbn. intros diff s1 Hwf1 Hx1 [Hd Hm].
  destruct (Z.eqb_spec k 1) as [->|Hk1].
  { apply spec_ret; [done|]. split; [done|]. exists si, sj, 1. split_and!; [done..|].
    intros m. rewrite Hm, !(pcoef_ext s s1) by done. lia. }
  eapply spec_terms_of; [by apply ispoly_terms|].
  destruct (poly_at _ _ _ _ Hwf1 (ispoly_terms _ _ Hd)) as [Hn Ho].
  destruct (div_terms k (terms s1 diff)) as [ts|] eqn:Ed.
  - destruct (div_terms_Some _ _ _ _ _ Hk Ho Ed) as [Hts Hc].
    eapply spec_bind; [by apply mkPoly_coef|]. cbn. intros d s2 Hwf2 Hx2 [Hpd Hdm].
    apply spec_ret; [done|]. split; [done|]. exists si, sj, k. split_and!; [done..|].
    intros m. rewrite Hdm, Hc. fold (pcoef s1 diff m). rewrite Hm.
    assert (ext s s2) by (by etrans). by rewrite !(pcoef_ext s s2).
  - apply spec_ret; [done|]. intros ? [= <-] _. destruct (div_terms_None _ _ Hk Hn Ed) as [m Hdiv].
    exists m. fold (pcoef s1 diff m) in Hdiv. by rewrite Hm in Hdiv.
Qed.
Lemma find_stride_spec a s :
  wf s → samples_ok s → spec (find_stride nx a (pairs Ss)) s (λ d s', stride_ok a d s').
Proof.
  intros Hwf Hok.
  assert (∀ ps s, wf s → samples_ok s → (∀ p, p ∈ ps → p.1 ∈ Ss ∧ p.2 ∈ Ss) →
    spec (find_stride nx a ps) s (λ d s', samples_ok s' ∧ match d with
      | Some d => stride_from a s' d
      | None => ∀ si sj k, (si, sj) ∈ ps → one_axis nx a (pt si) (pt sj) = Some k → k ≠ 0 →
          ∃ m, ¬ (k | pcoef s (val sj) m - pcoef s (val si) m)
      end)) as H.
  { clear s Hwf Hok. induction ps as [|[si sj] ps IH]; intros s Hwf Hok Hps; cbn [find_stride].
    { apply spec_ret; [done|]. split; [done|]. intros ??? Hin. by apply elem_of_nil in Hin. }
    destruct (Hps (si, sj) ltac:(by left)) as [Hi Hj]. cbn in Hi, Hj.
    eapply spec_bind; [by apply pair_stride_spec|]. cbn. intros d s1 Hwf1 Hx1 Hd.
    assert (samples_ok s1) as Hok1 by (by eapply samples_ok_ext).
    destruct d as [d|]; [by apply spec_ret|].
    eapply spec_mono; [apply IH; [done|done|]; intros p Hp; apply Hps; by right|].
    cbn. intros d s2 _ _ [Hok2 Hd2]. split; [done|]. destruct d as [d|]; [done|].
    intros si' sj' k [[= -> ->]|Hin]%elem_of_cons Hone Hk; [by apply Hd|].
    destruct (Hd2 si' sj' k Hin Hone Hk) as [m Hm]. exists m.
    destruct (Hps (si', sj') ltac:(by right)) as [Hi' Hj']. cbn in Hi', Hj'.
    destruct (sample_ok _ _ Hok Hi'). destruct (sample_ok _ _ Hok Hj'). by rewrite !(pcoef_ext s s1) in Hm. }
  eapply spec_mono; [apply H; [done|done|]|].
  - intros [si sj] (i & j & _ & Hi & Hj)%elem_of_pairs. split; by eapply list_elem_of_lookup_2.
  - cbn. intros d s' _ Hx [Hok' Hd]. split; [done|]. destruct d as [d|]; [done|].
    intros si sj k Hin Hone Hk. destruct (Hd si sj k Hin Hone Hk) as [m Hm]. exists m.
    apply elem_of_pairs in Hin as (i & j & _ & Hi%list_elem_of_lookup_2 & Hj%list_elem_of_lookup_2).
    destruct (sample_ok _ _ Hok Hi). destruct (sample_ok _ _ Hok Hj). by rewrite !(pcoef_ext s s').
Qed.

(** *** What a fit means *)
(** the samples lie on one affine map, as polynomials *)
Definition affine (s : Arena) (B : Monomial → Z) (D : nat → Monomial → Z) : Prop :=
  ∀ x, x ∈ Ss → ∀ m, pcoef s (val x) m = B m + sum nx (λ a, coord (pt x) a * D a m).
(** along every axis either two samples differ, and nowhere else, or none do *)
Definition sampled : Prop := ∀ a, (a < nx)%nat →
  (∃ si sj k, si ∈ Ss ∧ sj ∈ Ss ∧ one_axis nx a (pt si) (pt sj) = Some k ∧ k ≠ 0) ∨
  ∀ x y, x ∈ Ss → y ∈ Ss → coord (pt x) a = coord (pt y) a.
Lemma affine_ext s s' B D : ext s s' → samples_ok s → affine s B D → affine s' B D.
Proof.
  intros Hx Hok H x Hin m. rewrite (pcoef_ext s s') by (done || by eapply sample_ok). by apply H.
Qed.
Lemma sum_diff (f g : nat → Z) (h : nat → Z) :
  sum nx (λ a, f a * h a) - sum nx (λ a, g a * h a) = sum nx (λ a, (f a - g a) * h a).
Proof.
  pose proof (sum_add nx (λ a, f a * h a) (λ a, - (1) * (g a * h a))) as E. rewrite sum_scale in E.
  rewrite (sum_ext nx (λ a, (f a - g a) * h a) (λ a, f a * h a + - (1) * (g a * h a))) by (intros; lia). lia.
Qed.
Lemma affine_one_axis s B D a si sj k m :
  affine s B D → si ∈ Ss → sj ∈ Ss → (a < nx)%nat → one_axis nx a (pt si) (pt sj) = Some k →
  pcoef s (val sj) m - pcoef s (val si) m = k * D a m.
Proof.
  intros Haff Hi Hj Ha Hone. apply one_axis_spec in Hone as [Hk Hb]; [|done].
  rewrite (Haff _ Hi), (Haff _ Hj).
  pose proof (sum_diff (coord (pt sj)) (coord (pt si)) (λ a, D a m)) as E.
  cbn beta in E. rewrite (sum_single nx a (λ b, (coord (pt sj) b - coord (pt si) b) * D b m)) in E; [lia|done|].
  intros b Hlt Hne. rewrite Hb by done. lia.
Qed.
Lemma affine_stride s B D a d :
  affine s B D → (a < nx)%nat → stride_from a s d → ∀ m, pcoef s d m = D a m.
Proof.
  intros Haff Ha [_ (si & sj & k & Hi & Hj & Hone & Hk & Hm)] m. specialize (Hm m).
  rewrite (affine_one_axis _ _ _ _ _ _ _ m Haff Hi Hj Ha Hone) in Hm. nia.
Qed.
Lemma affine_no_stride s B D a :
  affine s B D → (a < nx)%nat → no_stride a s → sampled →
  ∀ x y, x ∈ Ss → y ∈ Ss → coord (pt x) a = coord (pt y) a.
Proof.
  intros Haff Ha Hno Hs. destruct (Hs a Ha) as [(si & sj & k & Hi & Hj & Hone & Hk)|]; [exfalso|done].
  apply list_elem_of_lookup in Hi as [i Hi]. apply list_elem_of_lookup in Hj as [j Hj].
  destruct (Hno si sj k) as [m Hm]; [|done|done|].
  - apply elem_of_pairs. exists i, j. split_and!; [|done|done]. intros ->.
    rewrite Hi in Hj. injection Hj as <-. apply one_axis_spec in Hone as [Hone _]; [lia|done].
  - apply Hm. rewrite (affine_one_axis _ _ _ _ _ _ _ m Haff) by
      (first [exact Hone|by eapply list_elem_of_lookup_2|done]). by exists (D a m); lia.
Qed.
Lemma lowest_in s0 rest : lowest s0 rest ∈ s0 :: rest.
Proof.
  unfold lowest. revert s0. induction rest as [|s rest IH]; intros s0; cbn; [left|].
  specialize (IH (if vlt (pt s) (pt s0) then s else s0)). destruct (vlt _ _); set_solver.
Qed.
Lemma under_sampled_None o strides :
  under_sampled Ss o strides = None → ∀ a x, strides !! a = Some None → x ∈ Ss → coord (pt x) a = coord (pt o) a.
Proof.
  intros E a x Ha Hx. unfold under_sampled in E. pose proof (find_none _ _ E a) as Hn.
  cbn beta in Hn. rewrite Ha in Hn. apply lookup_lt_Some in Ha as Hl. specialize (Hn (proj2 (in_seq (length strides) 0 a) ltac:(lia))).
  destruct (Z.eq_dec (coord (pt x) a) (coord (pt o) a)) as [|Hne]; [done|].
  exfalso. apply not_true_iff_false in Hn. apply Hn, existsb_exists. exists x. split; [by apply list_elem_of_In|].
  by apply Z.eqb_neq in Hne as ->.
Qed.
Lemma under_sampled_Some o strides a :
  under_sampled Ss o strides = Some a →
  strides !! a = Some None ∧ ∃ x, x ∈ Ss ∧ coord (pt x) a ≠ coord (pt o) a.
Proof.
  intros E. apply find_some in E as [_ E]. destruct (strides !! a) as [[?|]|]; try done. split; [done|].
  apply existsb_exists in E as (x & Hx & E). apply negb_true_iff, Z.eqb_neq in E.
  exists x. split; [by apply list_elem_of_In|done].
Qed.
Lemma drop_zero_ocoef s strides a m :
  Forall (opoly s) strides →
  ocoef s (nth a (drop_zero_strides s strides) None) m = ocoef s (nth a strides None) m.
Proof.
  intros Hp. unfold drop_zero_strides. revert a. induction Hp as [|d ds Hd _ IH]; intros [|a]; try done; [|apply IH].
  cbn. destruct d as [e|]; [|done]. unfold constInt. cbn in Hd. apply ispoly_terms in Hd as Hn. unfold is_poly in Hn.
  rewrite Hn. cbn [mbind option_bind]. unfold constInt_node; cbn [node].
  unfold ocoef, pcoef; cbn [from_option].
  destruct (terms s e) as [|[[|] c] [|]] eqn:E; cbn; try rewrite E; try done.
  destruct (Z.eqb_spec c 0) as [->|]; cbn [from_option]; [case_bool_decide; lia|by rewrite E].
Qed.
Lemma drop_zero_opoly s strides : Forall (opoly s) strides → Forall (opoly s) (drop_zero_strides s strides).
Proof.
  intros H. apply Forall_fmap. eapply Forall_impl; [exact H|]. intros [e|] He; cbn; [|done].
  destruct (constInt s e) as [z|]; [|done]. by destruct (z =? 0).
Qed.
Lemma verify_spec base strides l s :
  wf s → ispoly s base → Forall (opoly s) strides → length strides = nx → samples_ok s → (∀ x, x ∈ l → x ∈ Ss) →
  spec (verify base strides l) s (λ r s', match r with
    | None => ∀ x, x ∈ l → ∀ m,
        pcoef s (val x) m = pcoef s base m + sum nx (λ a, coord (pt x) a * ocoef s (nth a strides None) m)
    | Some _ => ∃ x m, x ∈ l ∧
        pcoef s (val x) m ≠ pcoef s base m + sum nx (λ a, coord (pt x) a * ocoef s (nth a strides None) m)
    end).
Proof.
  intros Hwf Hb Hds Hl Hok Hsub.
  assert (∀ l s', wf s' → ext s s' → (∀ x, x ∈ l → x ∈ Ss) →
    spec (verify base strides l) s' (λ r s', match r with
    | None => ∀ x, x ∈ l → ∀ m,
        pcoef s (val x) m = pcoef s base m + sum nx (λ a, coord (pt x) a * ocoef s (nth a strides None) m)
    | Some _ => ∃ x m, x ∈ l ∧
        pcoef s (val x) m ≠ pcoef s base m + sum nx (λ a, coord (pt x) a * ocoef s (nth a strides None) m)
    end)) as H; [|by apply H].
  clear l Hsub. induction l as [|x l IH]; intros s1 Hwf1 Hx1 Hsub; cbn [verify].
  { apply spec_ret; [done|]. intros x Hx. by apply elem_of_nil in Hx. }
  destruct (sample_ok _ _ Hok (Hsub x ltac:(by left))) as [Hlx Hpx].
  assert (∀ a m, ocoef s1 (nth a strides None) m = ocoef s (nth a strides None) m) as Hoc.
  { intros a m. apply ocoef_ext; [done|]. destruct (decide (a < length strides)%nat).
    - rewrite Forall_forall in Hds. by apply Hds, list_elem_of_In, nth_In.
    - by rewrite nth_overflow by lia. }
  eapply spec_bind.
  { apply (along_spec add 1); [apply add_signed|done|by eapply ispoly_ext| |by rewrite Hlx].
    eapply Forall_impl; [exact Hds|]. intros d. by apply opoly_ext. }
  cbn beta. intros pred s2 Hwf2 Hx2 [Hp Hm]. rewrite Hlx in Hm.
  assert (∀ m, pcoef s2 pred m = pcoef s base m + sum nx (λ a, coord (pt x) a * ocoef s (nth a strides None) m)) as Hm'.
  { intros m. rewrite Hm, (pcoef_ext s s1) by done. rewrite Z.mul_1_l. f_equal. apply sum_ext. intros a _. by rewrite Hoc. }
  assert (ext s s2) as Hx12 by (by etrans).
  assert (ispoly s2 (val x)) as Hpx2 by (by eapply ispoly_ext).
  destruct (bool_decide (pred = val x)) eqn:E.
  - apply bool_decide_eq_true in E. subst pred.
    eapply spec_mono; [apply IH; [done|done|]; intros y Hy; apply Hsub; by right|].
    cbn beta. intros r s3 _ _ Hr. destruct r as [w|].
    + destruct Hr as (y & m & Hy & Hne). exists y, m. split; [by right|done].
    + intros y [->|Hy]%elem_of_cons; [|by apply Hr]. intros m. by rewrite <- Hm', (pcoef_ext s s2).
  - apply bool_decide_eq_false in E. apply spec_ret; [done|].
    destruct (decide (Exists (λ t : Term, pcoef s2 pred t.1 ≠ pcoef s2 (val x) t.1) (terms s2 pred ++ terms s2 (val x)))) as [He|He].
    + apply Exists_exists in He as ([m c] & _ & Hne). exists x, m. split; [by left|].
      rewrite <- Hm'. cbn [fst] in Hne. rewrite (pcoef_ext s s2 (val x)) in Hne by done. congruence.
    + exfalso. apply E. apply (pcoef_inj s2); [done..|]. intros m.
      rewrite <- Forall_Exists_neg, Forall_forall in He.
      destruct (decide (m ∈ (fst <$> (terms s2 pred ++ terms s2 (val x))))) as [(t & -> & Ht)%list_elem_of_fmap|Hn].
      * specialize (He t Ht). destruct (decide (pcoef s2 pred t.1 = pcoef s2 (val x) t.1)); [done|]. by destruct He.
      * assert (∀ ts, m ∉ (fst <$> ts : list Monomial) → coef ts m = 0) as Hz.
        { induction ts as [|t ts IHt]; [done|]. cbn. intros Hni. unfold coef in *; cbn.
          rewrite bool_decide_false by (intros <-; apply Hni; left). rewrite IHt; [lia|]. intros ?. apply Hni. by right. }
        rewrite fmap_app, elem_of_app in Hn. unfold pcoef. rewrite !Hz by tauto. done.
Qed.

Lemma fitted_affine s o base strides :
  wf s → samples_ok s → o ∈ Ss → (∀ a, (a < nx)%nat → stride_ok a (nth a strides None) s) →
  (∀ a x, (a < nx)%nat → nth a strides None = None → x ∈ Ss → coord (pt x) a = coord (pt o) a) →
  (∀ m, pcoef s base m = pcoef s (val o) m - sum nx (λ a, coord (pt o) a * ocoef s (nth a strides None) m)) →
  sampled ∧ ∀ B D, affine s B D → affine s (pcoef s base) (λ a, ocoef s (nth a strides None)).
Proof.
  intros Hwf Hok Ho Hst Hconst Hb. split.
  - intros a Ha. specialize (Hst a Ha). destruct (nth a strides None) as [d|] eqn:E.
    + left. destruct Hst as [_ [_ (si & sj & k & ? & ? & ? & ? & _)]]. eauto 10.
    + right. intros x y Hx Hy. by rewrite (Hconst a x), (Hconst a y).
  - intros B D Haff x Hx m. rewrite Hb, (Haff _ Hx), (Haff _ Ho).
    pose proof (sum_diff (coord (pt x)) (coord (pt o)) (λ a, D a m)) as E1.
    pose proof (sum_diff (coord (pt x)) (coord (pt o)) (λ a, ocoef s (nth a strides None) m)) as E2.
    cbn beta in E1, E2.
    rewrite (sum_ext nx (λ a, (coord (pt x) a - coord (pt o) a) * ocoef s (nth a strides None) m)
      (λ a, (coord (pt x) a - coord (pt o) a) * D a m)) in E2; [lia|].
    intros a Ha. specialize (Hst a Ha). destruct (nth a strides None) as [d|] eqn:E.
    + f_equal. unfold ocoef; cbn [from_option]. destruct Hst as [_ Hst].
      by apply (affine_stride s B D a d Haff).
    + rewrite (Hconst a x) by done. lia.
Qed.
(** the result of a fit: an affine map through the samples, or there is none or it cannot be told *)
Definition fit_result (s : Arena) (r : Fit) : Prop :=
  match r with
  | Fitted base ds =>
      Ss ≠ [] ∧ ispoly s base ∧ Forall (opoly s) ds ∧ length ds = nx ∧ sampled ∧
      affine s (pcoef s base) (λ a, ocoef s (nth a ds None))
  | Failed _ => ¬ (Ss ≠ [] ∧ sampled ∧ ∃ B D, affine s B D)
  end.
Lemma fit_spec s : wf s → samples_ok s → spec (fit Ss) s (λ r s', fit_result s' r ∧ samples_ok s').
Proof.
  intros Hwf Hok. unfold fit. destruct Ss as [|s0 rest] eqn:ES.
  { apply spec_ret; [done|]. split; [|done]. intros [? _]. congruence. }
  rewrite <- ES in *. set (o := lowest s0 rest).
  assert (o ∈ Ss) as Ho by (rewrite ES; apply lowest_in).
  assert (length (pt s0) = nx) as Hnx by (apply (sample_ok s); [done|rewrite ES; left]). rewrite Hnx.
  eapply spec_bind.
  { apply (spec_mmap (λ a d s', stride_ok a d s')); [done|intros; by eapply stride_ok_ext|].
    intros a s' _ Hwf' Hx'. apply find_stride_spec; [done|by eapply samples_ok_ext]. }
  intros strides s1 Hwf1 Hx1 Hst. assert (samples_ok s1) as Hok1 by (by eapply samples_ok_ext).
  assert (length strides = nx) as Hl by (apply Forall2_length in Hst; by rewrite length_seq in Hst).
  assert (∀ a, (a < nx)%nat → strides !! a = Some (nth a strides None) ∧ stride_ok a (nth a strides None) s1) as Hst'.
  { intros a Ha. destruct (lookup_lt_is_Some_2 strides a) as [d Hd]; [lia|].
    rewrite (nth_lookup_Some _ _ _ _ Hd). split; [done|].
    apply (Forall2_lookup_lr (λ a d, stride_ok a d s1) _ _ a a _ Hst); [by rewrite lookup_seq_lt|done]. }
  assert (Forall (opoly s1) strides) as Hop.
  { apply Forall_forall. intros d Hd. apply list_elem_of_lookup in Hd as [a Hd].
    apply lookup_lt_Some in Hd as Ha. destruct (Hst' a ltac:(lia)) as [_ Hs]. rewrite (nth_lookup_Some _ _ _ _ Hd) in Hs.
    destruct d as [d|]; [|done]. by destruct Hs as [_ [? _]]. }
  destruct (under_sampled Ss o strides) as [a|] eqn:EU.
  { apply spec_ret; [done|]. split; [|done]. intros (_ & Hs & B & D & Haff).
    apply under_sampled_Some in EU as [Ea (x & Hx & Hne)]. apply lookup_lt_Some in Ea as Ha.
    destruct (Hst' a ltac:(lia)) as [Ea' [_ Hno]]. rewrite Ea' in Ea. injection Ea as Ea. rewrite Ea in Hno.
    apply Hne. by apply (affine_no_stride s1 B D a Haff ltac:(lia) Hno Hs). }
  destruct (sample_ok _ _ Hok1 Ho) as [Hlo Hpo].
  eapply spec_bind; [apply (along_spec sub (-1)); [apply sub_signed|done|done|done|by rewrite Hlo]|].
  cbn beta. intros base s2 Hwf2 Hx2 [Hpb Hb]. rewrite Hlo in Hb. apply gets_spec. unfold id.
  assert (samples_ok s2) as Hok2 by (by eapply samples_ok_ext).
  assert (Forall (opoly s2) strides) as Hop2 by (eapply Forall_impl; [exact Hop|]; intros d; by apply opoly_ext).
  assert (∀ a, (a < nx)%nat → stride_ok a (nth a strides None) s2) as Hst2.
  { intros a Ha. eapply stride_ok_ext; [exact Hx2|]. by apply Hst'. }
  assert (∀ a x, (a < nx)%nat → nth a strides None = None → x ∈ Ss → coord (pt x) a = coord (pt o) a) as Hconst.
  { intros a x Ha E Hx. apply (under_sampled_None o strides); [done| |done]. rewrite <- E. by apply Hst'. }
  assert (∀ m, pcoef s2 base m = pcoef s2 (val o) m - sum nx (λ a, coord (pt o) a * ocoef s2 (nth a strides None) m)) as Hb2.
  { intros m. rewrite Hb, (pcoef_ext s1 s2 (val o)) by done.
    rewrite (sum_ext nx (λ a, coord (pt o) a * ocoef s2 (nth a strides None) m)
      (λ a, coord (pt o) a * ocoef s1 (nth a strides None) m)); [lia|].
    intros a Ha. f_equal. apply ocoef_ext; [done|]. rewrite Forall_forall in Hop. apply Hop, list_elem_of_In, nth_In. lia. }
  destruct (fitted_affine s2 o base strides Hwf2 Hok2 Ho Hst2 Hconst Hb2) as [Hsam Haff].
  set (ds := drop_zero_strides s2 strides).
  assert (∀ a m, ocoef s2 (nth a ds None) m = ocoef s2 (nth a strides None) m) as Hds by (intros; by apply drop_zero_ocoef).
  assert (Forall (opoly s2) ds) as Hpds by (by apply drop_zero_opoly).
  assert (length ds = nx) as Hlds by (subst ds; unfold drop_zero_strides; by rewrite length_fmap).
  eapply spec_bind; [apply (verify_spec base ds Ss); [done|done|done|done|done|by intros]|].
  cbn beta. intros bad s3 Hwf3 Hx3 Hbad. apply spec_ret; [done|].
  split; [|by eapply samples_ok_ext]. destruct bad as [w|].
  - intros (_ & _ & B & D & HBD). destruct Hbad as (x & m & Hx & Hne). apply Hne.
    assert (affine s2 B D) as HBD2.
    { intros y Hy n. rewrite <- (HBD y Hy n). symmetry. apply pcoef_ext; [done|]. by eapply sample_ok. }
    rewrite (Haff B D HBD2 x Hx m). f_equal. apply sum_ext. intros a _. by rewrite Hds.
  - split_and!; [by rewrite ES|by eapply ispoly_ext| |done|done|].
    + eapply Forall_impl; [exact Hpds|]. intros d. by apply opoly_ext.
    + intros x Hx m. destruct (sample_ok _ _ Hok2 Hx) as [_ Hpx].
      rewrite !(pcoef_ext s2 s3), Hbad by done. f_equal. apply sum_ext. intros a Ha. f_equal.
      symmetry. apply ocoef_ext; [done|]. rewrite Forall_forall in Hpds. apply Hpds, list_elem_of_In, nth_In. lia.
Qed.
End fit.

(** [C26] The affine fit is exact: it returns on every set of samples whose values are address
    polynomials; it succeeds exactly when there is a sample, every axis along which the samples
    vary is sampled (two samples differ along it alone) and the polynomials lie on one affine map
    of the coordinates; and when it succeeds every sample's value is, for every meaning of the
    symbols, base + sum over the axes of stride times coordinate. *)
Theorem fit_exact s nx Ss (Hwf : wf s) (Hok : samples_ok nx Ss s) :
  spec (fit Ss) s (λ r s',
    ((∃ base ds, r = Fitted base ds) ↔ Ss ≠ [] ∧ sampled nx Ss ∧ ∃ B D, affine nx Ss s' B D) ∧
    ∀ base ds, r = Fitted base ds → length ds = nx ∧ ∀ x ρ, x ∈ Ss →
      den s ρ (val x) = den s' ρ base + sum nx (λ a, coord (pt x) a * oden s' ρ (nth a ds None))).
Proof.
  eapply spec_mono; [by apply (fit_spec nx)|]. intros r s' Hwf' Hx [Hr Hok']. destruct r as [base ds|w].
  - destruct Hr as (Hne & Hb & Hds & Hl & Hs & Haff). split.
    { split; [intros _; split_and!; eauto|intros _; eauto]. }
    intros ? ? [= <- <-]. split; [done|]. intros x ρ Hin.
    destruct (sample_ok nx Ss s x Hok Hin) as [_ Hpx]. destruct (sample_ok nx Ss s' x Hok' Hin) as [_ Hpx'].
    rewrite <- (den_ext s s') by eauto with mvcc_arena.
    apply (den_linear s' ρ (val x) base (λ a, nth a ds None) (coord (pt x)) nx); [done..| |].
    + intros a Ha. rewrite Forall_forall in Hds. apply Hds, list_elem_of_In, nth_In. lia.
    + intros m. by apply Haff.
  - split; [|done]. split; [by intros (? & ? & ?)|by intros ?%Hr].
Qed.

(** ** Sorting and duplicates *)
Lemma vlt_irrefl a : vlt a a = false.
Proof. induction a as [|x a IH]; [done|]. cbn [vlt]. by rewrite Z.ltb_irrefl, Z.eqb_refl, IH. Qed.
Lemma vlt_trans a b c : vlt a b = true → vlt b c = true → vlt a c = true.
Proof.
  revert b c. induction a as [|x a IH]; intros [|y b] [|z c]; cbn [vlt]; try done.
  rewrite !orb_true_iff, !andb_true_iff, !Z.ltb_lt, !Z.eqb_eq.
  intros [?|[-> ?]] [?|[-> ?]]; [left; lia|by left|by left|right; eauto].
Qed.
Lemma vlt_total a b : vlt a b = true ∨ a = b ∨ vlt b a = true.
Proof.
  revert b. induction a as [|x a IH]; intros [|y b]; cbn [vlt]; auto.
  rewrite !orb_true_iff, !andb_true_iff, !Z.ltb_lt, !Z.eqb_eq.
  destruct (Z.lt_trichotomy x y) as [?|[->|?]]; auto. destruct (IH b) as [?|[->|?]]; auto.
Qed.
Lemma sample_lt_total a b : sample_lt a b = true ∨ a = b ∨ sample_lt b a = true.
Proof.
  unfold sample_lt. destruct a as [xa va], b as [xb vb]; cbn [pt val].
  destruct (decide (xa = xb)) as [->|Hne].
  - rewrite bool_decide_true by done. rewrite !Nat.ltb_lt. destruct (Nat.lt_trichotomy va vb) as [?|[->|?]]; auto.
  - rewrite !bool_decide_false by congruence. destruct (vlt_total xa xb) as [?|[?|?]]; auto; done.
Qed.
Lemma sample_lt_irrefl a : sample_lt a a = false.
Proof. unfold sample_lt. rewrite bool_decide_true by done. apply Nat.ltb_irrefl. Qed.
#[export] Instance sample_lt_trans : Transitive (λ a b, sample_lt a b = true).
Proof.
  intros [xa va] [xb vb] [xc vc]. unfold sample_lt; cbn [pt val].
  destruct (decide (xa = xb)) as [->|H1], (decide (xb = xc)) as [->|H2];
    rewrite ?(bool_decide_true (_ = _)), ?(bool_decide_false (_ = _)) by done.
  - rewrite !Nat.ltb_lt. lia.
  - done.
  - done.
  - intros Hab Hbc. pose proof (vlt_trans _ _ _ Hab Hbc) as Hac.
    rewrite bool_decide_false; [done|]. intros ->. by rewrite vlt_irrefl in Hac.
Qed.
Lemma sample_le_lt a b : sample_le a b ↔ a = b ∨ sample_lt a b = true.
Proof.
  unfold sample_le. split.
  - intros H. destruct (sample_lt_total a b) as [?|[->|?]]; [by right|by left|congruence].
  - intros [->|H]; [apply sample_lt_irrefl|]. destruct (sample_lt b a) eqn:E; [|done].
    pose proof (sample_lt_trans _ _ _ H E) as Hc. cbn in Hc. by rewrite sample_lt_irrefl in Hc.
Qed.
#[export] Instance sample_le_trans : Transitive sample_le.
Proof.
  intros a b c. rewrite !sample_le_lt. intros [->|Hab] [->|Hbc]; auto. right. by apply (sample_lt_trans _ b).
Qed.
#[export] Instance sample_le_total : Total sample_le.
Proof.
  intros a b. rewrite !sample_le_lt. destruct (sample_lt_total a b) as [?|[->|?]]; auto.
Qed.
Lemma unique_elem {A} `{EqDecision A} (l : list A) x : x ∈ unique l ↔ x ∈ l.
Proof.
  induction l as [|y l IH]; [done|]. cbn. rewrite elem_of_cons, <- IH.
  destruct (unique l) as [|z out]; [by rewrite list_elem_of_singleton, elem_of_nil; tauto|].
  case_bool_decide; subst; rewrite !elem_of_cons; tauto.
Qed.
Lemma unique_sorted l : StronglySorted sample_le l → StronglySorted (λ a b, sample_lt a b = true) (unique l).
Proof.
  induction 1 as [|x l Hs IH Hall]; [constructor|]. cbn.
  assert (Forall (sample_le x) (unique l)) as Hall'.
  { rewrite Forall_forall in Hall |- *. intros y Hy. apply Hall. by rewrite unique_elem in Hy. }
  destruct (unique l) as [|y out]; [repeat constructor|]. case_bool_decide as E; [done|].
  apply Forall_cons in Hall' as [Hy _]. apply sample_le_lt in Hy as [?|Hy]; [done|].
  constructor; [done|]. constructor; [done|]. apply StronglySorted_inv in IH as [_ IH].
  eapply Forall_impl; [exact IH|]. intros z Hz. by apply (sample_lt_trans _ y).
Qed.
(** the same samples, strictly increasing *)
Lemma dedupe_spec Ss :
  StronglySorted (λ a b, sample_lt a b = true) (dedupe Ss) ∧ NoDup (dedupe Ss) ∧ ∀ x, x ∈ dedupe Ss ↔ x ∈ Ss.
Proof.
  assert (StronglySorted (λ a b, sample_lt a b = true) (dedupe Ss)) as H.
  { apply unique_sorted, (StronglySorted_merge_sort sample_le); apply _. }
  split_and!; [done| |].
  - induction H as [|x l _ IH Hall]; constructor; [|done]. intros Hin.
    rewrite Forall_forall in Hall. specialize (Hall _ Hin). cbn in Hall. by rewrite sample_lt_irrefl in Hall.
  - intros x. unfold dedupe. rewrite unique_elem. by rewrite (merge_sort_Permutation sample_le Ss).
Qed.

(** ** The families *)
Definition vote_better (a b : EP * nat) : Prop := (b.2 < a.2)%nat ∨ (b.2 = a.2 ∧ (a.1 <= b.1)%nat).
Lemma most_voted_fold votes b0 kv :
  Forall (λ kv, 0 < kv.2)%nat votes → fold_left better_vote votes b0 = Some kv →
  (kv ∈ votes ∨ b0 = Some kv) ∧ (∀ kv', kv' ∈ votes ∨ b0 = Some kv' → vote_better kv kv').
Proof.
  revert b0. induction votes as [|v votes IH]; intros b0 Hpos; cbn [fold_left].
  { intros ->. split; [by right|]. intros kv' [Hin|[= <-]]; [by apply elem_of_nil in Hin|]. right; lia. }
  apply Forall_cons in Hpos as [Hv Hpos]. intros E. destruct (IH _ Hpos E) as [Hin Hb]. clear IH E.
  assert (∃ w, better_vote b0 v = Some w ∧ (w = v ∨ b0 = Some w) ∧
    vote_better w v ∧ ∀ w', b0 = Some w' → vote_better w w') as (w & Ew & Hw & Hwv & Hw0).
  { unfold better_vote. destruct b0 as [[e n]|].
    - destruct (orb _ _) eqn:Eo.
      + exists v. split_and!; [done|by left|right; lia|]. intros ? [= <-]. unfold vote_better; cbn.
        rewrite orb_true_iff, andb_true_iff, !Nat.ltb_lt, Nat.eqb_eq in Eo. lia.
      + exists (e, n). split_and!; [done|by right| |]; [|intros ? [= <-]; right; lia]. unfold vote_better; cbn.
        rewrite orb_false_iff, andb_false_iff, !Nat.ltb_ge, Nat.eqb_neq in Eo. lia.
    - rewrite (proj2 (Nat.ltb_lt _ _) Hv). exists v. split_and!; [done|by left|right; lia|done]. }
  rewrite Ew in *. split.
  - destruct Hin as [?|[= <-]]; [left; by right|]. destruct Hw as [->|?]; [left; left|by right].
  - assert (vote_better kv w) as Hkw by (apply Hb; by right).
    assert (∀ z, vote_better w z → vote_better kv z) as Htr by (unfold vote_better in *; intros z Hz; lia).
    intros kv' [[->|Hin']%elem_of_cons|H0]; [by apply Htr|apply Hb; by left|by apply Htr, Hw0].
Qed.
Lemma most_voted_none votes b0 :
  Forall (λ kv, 0 < kv.2)%nat votes → fold_left better_vote votes b0 = None → votes = [].
Proof.
  intros Hpos. revert b0. induction Hpos as [|v votes Hv _ IH]; intros b0; [done|]. cbn [fold_left]. intros E.
  pose proof (IH _ E) as ->. cbn in E. unfold better_vote in E. rewrite (proj2 (Nat.ltb_lt _ _) Hv) in E.
  destruct b0 as [[??]|]; [destruct (orb _ _)|]; done.
Qed.
(** the order of the map does not matter *)
Lemma most_voted_perm votes votes' :
  Permutation votes votes' → Forall (λ kv, 0 < kv.2)%nat votes → most_voted votes = most_voted votes'.
Proof.
  intros Hp Hpos. assert (Forall (λ kv, 0 < kv.2)%nat votes') as Hpos' by (by rewrite <- Hp). unfold most_voted.
  destruct (fold_left better_vote votes None) as [kv|] eqn:E, (fold_left better_vote votes' None) as [kv'|] eqn:E'; [| | |done].
  - destruct (most_voted_fold _ _ _ Hpos E) as [[Hin|?] Hb]; [|done].
    destruct (most_voted_fold _ _ _ Hpos' E') as [[Hin'|?] Hb']; [|done].
    pose proof (Hb kv' (or_introl (proj2 (elem_of_Permutation_proper _ _ _ Hp) Hin'))) as H1.
    pose proof (Hb' kv (or_introl (proj1 (elem_of_Permutation_proper _ _ _ Hp) Hin))) as H2.
    unfold vote_better in *. cbn. f_equal. lia.
  - apply most_voted_none in E'; [|done]. subst votes'. apply Permutation_nil_r in Hp. by subst votes.
  - apply most_voted_none in E; [|done]. subst votes. apply Permutation_nil_l in Hp. by subst votes'.
Qed.
Lemma vote_pos e votes : Forall (λ kv, 0 < kv.2)%nat votes → Forall (λ kv, 0 < kv.2)%nat (vote e votes).
Proof.
  induction 1 as [|[e' n] votes Hn Hv IH]; cbn; [repeat constructor|].
  destruct (e =? e')%nat; constructor; cbn in *; (done || lia).
Qed.
Lemma vote_in e votes kv : kv ∈ vote e votes → kv.1 = e ∨ kv.1 ∈ fst <$> votes.
Proof.
  induction votes as [|[e' n] votes IH]; cbn.
  - rewrite list_elem_of_singleton. intros ->. by left.
  - destruct (Nat.eqb_spec e e') as [->|]; rewrite !elem_of_cons.
    + intros [->|Hin]; [by left|]. right; right. by apply list_elem_of_fmap_2.
    + intros [->|Hin]; [right; by left|]. destruct (IH Hin); [by left|right; by right].
Qed.
Section families.
Context (nx : nat).
Lemma collect_votes_spec a Ss s :
  wf s → samples_ok nx Ss s →
  spec (collect_votes nx a Ss) s (λ votes s', Forall (λ kv, ispoly s' kv.1 ∧ 0 < kv.2)%nat votes).
Proof.
  intros Hwf Hok. unfold collect_votes.
  apply (spec_mfold (λ _ votes s', Forall (λ kv, ispoly s' kv.1 ∧ 0 < kv.2)%nat votes)); [done|constructor|].
  intros l1 [si sj] l2 votes s1 El Hwf1 Hx1 Hv. destruct (one_step _ _ _ _); [|by apply spec_ret].
  assert ((si, sj) ∈ pairs Ss) as Hin by (rewrite El; apply elem_of_app; right; left).
  apply elem_of_pairs in Hin as (i & j & _ & Hi%list_elem_of_lookup_2 & Hj%list_elem_of_lookup_2).
  apply (samples_ok_ext _ _ _ _ Hx1) in Hok.
  destruct (sample_ok _ _ _ _ Hok Hi) as [_ Hpi]. destruct (sample_ok _ _ _ _ Hok Hj) as [_ Hpj].
  eapply spec_bind; [by apply sub_coef|]. cbn beta. intros d s2 Hwf2 Hx2 [Hd _]. apply spec_ret; [done|].
  rewrite !Forall_forall in Hv |- *. intros kv Hkv. split.
  - destruct (vote_in _ _ _ Hkv) as [->|Hf]; [done|]. apply list_elem_of_fmap in Hf as (kv' & -> & Hkv').
    eapply ispoly_ext; [done|]. by apply Hv.
  - assert (Forall (λ kv, 0 < kv.2)%nat (vote d votes)) as Hp.
    { apply vote_pos, Forall_forall. intros kv' Hkv'. by apply Hv. }
    rewrite Forall_forall in Hp. by apply Hp.
Qed.
Lemma common_stride_spec a Ss s :
  wf s → samples_ok nx Ss s → spec (common_stride Ss nx a) s (λ d s', opoly s' d).
Proof.
  intros Hwf Hok. unfold common_stride. eapply spec_bind; [by apply collect_votes_spec|].
  cbn beta. intros votes s1 Hwf1 Hx1 Hv. apply gets_spec. unfold id. apply spec_ret; [done|].
  assert (opoly s1 (most_voted votes)) as Hm.
  { unfold most_voted. destruct (fold_left better_vote votes None) as [kv|] eqn:E; cbn; [|done].
    destruct (most_voted_fold votes None kv) as [[Hin|?] _]; [|done| |done].
    - eapply Forall_impl; [exact Hv|]. by intros ? [? ?].
    - rewrite Forall_forall in Hv. by apply Hv. }
  destruct (most_voted votes) as [e|]; [|done]. destruct (constInt s1 e) as [z|]; [|done]. by destruct (z =? 0).
Qed.
(** grouping keeps every sample, once, under its residual *)
Lemma add_group_perm r x groups : Permutation (mjoin (snd <$> add_group r x groups)) (mjoin (snd <$> groups) ++ [x]).
Proof.
  induction groups as [|[r' g] groups IH]; cbn; [done|]. destruct (r' =? r)%nat; cbn.
  - rewrite <- !app_assoc. apply Permutation_app_head, Permutation_cons_append.
  - rewrite <- app_assoc. by apply Permutation_app_head.
Qed.
Lemma add_group_in r x groups rg :
  rg ∈ add_group r x groups → rg ∈ groups ∨ rg = (r, [x]) ∨ ∃ g, (r, g) ∈ groups ∧ rg = (r, g ++ [x]).
Proof.
  induction groups as [|[r' g] groups IH]; cbn; [rewrite list_elem_of_singleton; auto|].
  destruct (Nat.eqb_spec r' r) as [->|]; rewrite !elem_of_cons.
  - intros [->|?]; [|by left; right]. right; right. exists g. split; [by left|done].
  - intros [->|Hin]; [by left; left|]. destruct (IH Hin) as [?|[?|(g' & ? & ?)]]; [by left; right|auto|].
    right; right. exists g'. split; [by right|done].
Qed.
Lemma add_group_keys r x groups :
  (fst <$> add_group r x groups) = if bool_decide (r ∈ fst <$> groups) then fst <$> groups else (fst <$> groups) ++ [r].
Proof.
  induction groups as [|[r' g] groups IH]; [done|]. cbn [add_group]. rewrite fmap_cons. cbn [fst].
  destruct (Nat.eqb_spec r' r) as [->|Hne].
  - rewrite fmap_cons. cbn [fst]. rewrite bool_decide_true by left. done.
  - rewrite fmap_cons, IH. cbn [fst]. destruct (decide (r ∈ fst <$> groups)).
    + rewrite !bool_decide_true by (try right; done). done.
    + rewrite !bool_decide_false; [done| |done]. by intros [?|?]%elem_of_cons.
Qed.
Definition family_ok (s : Arena) (st : list (option EP)) (rg : EP * list Sample) : Prop :=
  rg.2 ≠ [] ∧ ispoly s rg.1 ∧ Forall (λ x, length (pt x) = nx ∧ ispoly s (val x) ∧ ∀ m,
    pcoef s (val x) m = pcoef s rg.1 m + sum nx (λ a, coord (pt x) a * ocoef s (nth a st None) m)) rg.2.
Lemma nth_opoly s st a : Forall (opoly s) st → opoly s (nth a st None).
Proof.
  intros H. destruct (decide (a < length st)%nat).
  - rewrite Forall_forall in H. by apply H, list_elem_of_In, nth_In.
  - by rewrite nth_overflow by lia.
Qed.
Lemma family_ok_ext s s' st rg : ext s s' → Forall (opoly s) st → family_ok s st rg → family_ok s' st rg.
Proof.
  intros Hx Hst (Hne & Hp & Hall). split_and!; [done|by eapply ispoly_ext|]. eapply Forall_impl; [exact Hall|].
  intros x (Hl & Hpx & Hm). split_and!; [done|by eapply ispoly_ext|]. intros m.
  rewrite !(pcoef_ext s s'), Hm by done. f_equal. apply sum_ext. intros a _. f_equal.
  symmetry. apply ocoef_ext; [done|]. by apply nth_opoly.
Qed.
Lemma group_spec st Ss s :
  wf s → samples_ok nx Ss s → Forall (opoly s) st → length st = nx →
  spec (group_by_residual st Ss) s (λ groups s', Permutation (mjoin (snd <$> groups)) Ss ∧
    NoDup (fst <$> groups) ∧ Forall (family_ok s' st) groups).
Proof.
  intros Hwf Hok Hst Hl. unfold group_by_residual.
  apply (spec_mfold (λ l groups s', Permutation (mjoin (snd <$> groups)) l ∧
    NoDup (fst <$> groups) ∧ Forall (family_ok s' st) groups)); [done|split_and!; (done || constructor)|].
  intros l1 x l2 groups s1 El Hwf1 Hx1 (Hperm & Hnd & Hall).
  assert (x ∈ Ss) as Hin by (rewrite El; apply elem_of_app; right; left).
  apply (samples_ok_ext _ _ _ _ Hx1) in Hok. destruct (sample_ok _ _ _ _ Hok Hin) as [Hlx Hpx].
  assert (Forall (opoly s1) st) as Hst1 by (eapply Forall_impl; [exact Hst|]; intros ?; by apply opoly_ext).
  eapply spec_bind; [apply (along_spec sub (-1)); [apply sub_signed|done|done|done|by rewrite Hlx]|].
  cbn beta. intros res s2 Hwf2 Hx2 [Hr Hm]. apply spec_ret; [done|]. rewrite Hlx in Hm.
  assert (Forall (family_ok s2 st) groups) as Hall2.
  { eapply Forall_impl; [exact Hall|]. intros rg. by apply family_ok_ext. }
  assert (length (pt x) = nx ∧ ispoly s2 (val x) ∧ ∀ m,
    pcoef s2 (val x) m = pcoef s2 res m + sum nx (λ a, coord (pt x) a * ocoef s2 (nth a st None) m)) as Hxok.
  { split_and!; [done|by eapply ispoly_ext|]. intros m. rewrite Hm, (pcoef_ext s1 s2 (val x)) by done.
    rewrite (sum_ext nx (λ a, coord (pt x) a * ocoef s2 (nth a st None) m)
      (λ a, coord (pt x) a * ocoef s1 (nth a st None) m)); [lia|].
    intros a _. f_equal. apply ocoef_ext; [done|]. by apply nth_opoly. }
  split_and!.
  - rewrite add_group_perm. by apply Permutation_app_tail.
  - rewrite add_group_keys. case_bool_decide as Hk; [done|]. apply NoDup_app. split_and!; [done| |apply NoDup_singleton].
    intros r Hr' ->%list_elem_of_singleton. done.
  - apply Forall_forall. intros rg Hrg. rewrite Forall_forall in Hall2.
    destruct (add_group_in _ _ _ _ Hrg) as [?|[->|(g & Hg & ->)]]; [by apply Hall2| |].
    + split_and!; [done|done|]. cbn. by apply Forall_singleton.
    + destruct (Hall2 _ Hg) as (_ & ? & Hf). cbn in *. split_and!; [by destruct g|done|].
      apply Forall_app. split; [done|]. by apply Forall_singleton.
Qed.
End families.

(** The split into families loses and invents nothing: it returns on every set of samples
    whose values are address polynomials, the families together are exactly the samples, each as
    often as it occurs, and unless there is a single family (at most one sample, or one affine
    map) no family is empty, all have the strides voted for in common, and the samples of one
    differ from those of another in the base: every sample of family [k] has the value base [k]
    + sum of stride times coordinate, the bases being different expressions. *)
Theorem splitFamilies_partition s nx Ss (Hwf : wf s) (Hok : samples_ok nx Ss s) :
  spec (splitFamilies Ss) s (λ fams s', Permutation (mjoin fams) Ss ∧
    (fams = [Ss] ∨ ∃ st bases, length st = nx ∧ NoDup bases ∧
      Forall2 (λ base fam, fam ≠ [] ∧ ∀ x ρ, x ∈ fam →
        den s ρ (val x) = den s' ρ base + sum nx (λ a, coord (pt x) a * oden s' ρ (nth a st None))) bases fams)).
Proof.
  unfold splitFamilies. destruct Ss as [|s0 [|s1 rest]] eqn:ES;
    [apply spec_ret; [done|]; split; [done|by left]..|].
  rewrite <- ES in *. assert (length (pt s0) = nx) as Hnx by (apply (sample_ok nx Ss s); [done|rewrite ES; left]).
  rewrite Hnx. eapply spec_bind; [by apply (fit_spec nx)|]. cbn beta. intros f s2 Hwf2 Hx2 [_ Hok2].
  destruct f as [base ds|w]; [apply spec_ret; [done|]; split; [cbn; by rewrite app_nil_r|by left]|].
  eapply spec_bind.
  { apply (spec_mmap (λ _ d s', opoly s' d)); [done|intros; by eapply opoly_ext|].
    intros a s' _ ? ?. apply common_stride_spec; [done|]. by eapply samples_ok_ext. }
  cbn beta. intros st s3 Hwf3 Hx3 Hst.
  assert (length st = nx) as Hl by (apply Forall2_length in Hst; by rewrite length_seq in Hst).
  assert (Forall (opoly s3) st) as Hop.
  { clear -Hst. induction Hst; constructor; auto. }
  eapply spec_bind; [apply (group_spec nx); [done|by eapply samples_ok_ext|done|done]|].
  cbn beta. intros groups s4 Hwf4 Hx4 (Hperm & Hnd & Hall). apply spec_ret; [done|]. split; [done|right].
  exists st, (fst <$> groups). split_and!; [done|done|]. apply Forall2_fmap, Forall_Forall2_diag.
  assert (Forall (opoly s4) st) as Hop4 by (eapply Forall_impl; [exact Hop|]; intros ?; by apply opoly_ext).
  assert (ext s s4) as Hx04 by (etrans; [exact Hx2|by etrans]).
  rewrite Forall_forall in Hall |- *. intros rg Hrg. destruct (Hall rg Hrg) as (Hne & Hp & Hf). split; [done|].
  intros x ρ Hx. rewrite Forall_forall in Hf. destruct (Hf x Hx) as (_ & Hpx & Hm).
  assert (x ∈ Ss) as Hin.
  { rewrite <- Hperm. apply list_elem_of_join. exists rg.2. split; [done|]. by apply list_elem_of_fmap_2. }
  destruct (sample_ok nx Ss s x Hok Hin) as [_ Hpx0]. rewrite <- (den_ext s s4) by eauto with mvcc_arena.
  apply (den_linear s4 ρ (val x) rg.1 (λ a, nth a st None) (coord (pt x)) nx); [done..| |done].
  intros a _. by apply nth_opoly.
Qed.

(** ** Derived quantities *)
Section derived.
Context (derAtom : list nat).
Lemma split_mono_spec m which others :
  split_mono derAtom m = Some (which, others) →
  others `sublist_of` m ∧ (∀ j, which = Some j → (j < length derAtom)%nat) ∧
  ∀ v, mono v m = match which with
    | Some j => from_option v 0 (derAtom !! j) * mono v others
    | None => mono v others
    end.
Proof.
  revert which others. induction m as [|a m IH]; intros which others; cbn; [by intros [= <- <-]|].
  destruct (split_mono derAtom m) as [[w o]|]; [|done]. destruct (IH _ _ eq_refl) as (Hs & Hw & Hv).
  destruct (find_index (Nat.eqb a) derAtom) as [j|] eqn:E; [destruct w; [done|]|]; intros [= <- <-].
  - apply find_index_Some in E as (b & Hb & ->%Nat.eqb_eq). split_and!; [by apply sublist_cons| |].
    + intros ? [= <-]. by eapply lookup_lt_Some.
    + intros v. by rewrite Hv, Hb.
  - split_and!; [by apply sublist_skip|done|]. intros v. rewrite Hv. destruct w as [j|]; [cbn; lia|done].
Qed.
Lemma StronglySorted_sublist {A} (R : A → A → Prop) l k : l `sublist_of` k → StronglySorted R k → StronglySorted R l.
Proof.
  induction 1 as [|x l k Hl IH|x l k Hl IH]; intros Hs; [done| |]; apply StronglySorted_inv in Hs as [Hs Hall].
  - constructor; [auto|]. by eapply Forall_sublist.
  - auto.
Qed.
Lemma mono_ok_sublist s e m n : n `sublist_of` m → mono_ok s e m → mono_ok s e n.
Proof. intros Hs [? ?]. split; [by eapply Forall_sublist|by eapply StronglySorted_sublist]. Qed.
Lemma peval_alter v (per : list (list Term)) j (c : Z) (m : Monomial) n :
  (j < n)%nat → length per = n →
  sum n (λ q, from_option v 0 (derAtom !! q) * peval v (nth q (alter (cons (m, c)) j per) [])) =
  sum n (λ q, from_option v 0 (derAtom !! q) * peval v (nth q per [])) +
  from_option v 0 (derAtom !! j) * (c * mono v m).
Proof.
  intros Hj Hl.
  rewrite (sum_ext n _ (λ q, from_option v 0 (derAtom !! q) * peval v (nth q per []) +
    (if (q =? j)%nat then from_option v 0 (derAtom !! j) * (c * mono v m) else 0))).
  - rewrite sum_add. f_equal. rewrite (sum_single n j); [by rewrite Nat.eqb_refl|done|].
    intros k _ Hne. by apply Nat.eqb_neq in Hne as ->.
  - intros q Hq. rewrite !nth_lookup. destruct (Nat.eqb_spec q j) as [->|Hne].
    + rewrite list_lookup_alter, decide_True by done. destruct (lookup_lt_is_Some_2 per j) as [ts Hts]; [lia|]. rewrite Hts. cbn. lia.
    + rewrite list_lookup_alter_ne by done. lia.
Qed.
Lemma split_terms_spec s e ts rest per :
  poly_ok s e ts → split_terms derAtom ts = Some (rest, per) →
  poly_ok s e rest ∧ Forall (poly_ok s e) per ∧ length per = length derAtom ∧
  ∀ v, peval v ts = peval v rest +
    sum (length derAtom) (λ q, from_option v 0 (derAtom !! q) * peval v (nth q per [])).
Proof.
  intros Hok. revert rest per. induction Hok as [|[m c] ts Hm _ IH]; intros rest per; cbn.
  { intros [= <- <-]. split_and!; [constructor|apply Forall_replicate; constructor|apply length_replicate|].
    intros v. rewrite sum_zero; [done|]. intros q Hq. rewrite nth_lookup, lookup_replicate_2 by done. cbn. lia. }
  destruct (split_mono derAtom m) as [[which others]|] eqn:E; [|done]. apply split_mono_spec in E as (Hs & Hw & Hv).
  destruct (split_terms derAtom ts) as [[rest0 per0]|]; [|by destruct which].
  destruct (IH _ _ eq_refl) as (Hr & Hp & Hl & Hval). destruct which as [j|]; intros [= <- <-].
  - assert (mono_ok s e others) as Ho by (by eapply mono_ok_sublist).
    split_and!; [done| |by rewrite length_alter|].
    + apply Forall_alter; [done|]. intros ts' _ Hts'. by constructor.
    + intros v. cbn. rewrite Hval, Hv, peval_alter by auto. lia.
  - split_and!; [by constructor|done|done|]. intros v. cbn. rewrite Hval, Hv. lia.
Qed.

(** the value of a placeholder *)
Definition dval (s : Arena) (ρ : Env) (q : nat) : Z := from_option (atom_val s (den s ρ)) 0 (derAtom !! q).
Definition placeholders_ok (s : Arena) : Prop := Forall (λ a, is_Some (atoms s !! a)) derAtom.
Lemma dval_ext s s' ρ q : wf s → wf s' → ext s s' → placeholders_ok s → dval s' ρ q = dval s ρ q.
Proof.
  intros Hwf Hwf' Hx Hd. unfold dval. destruct (derAtom !! q) as [a|] eqn:E; [|done]. cbn.
  unfold placeholders_ok in Hd. rewrite Forall_forall in Hd.
  destruct (Hd a (list_elem_of_lookup_2 _ _ _ E)) as [e He]. unfold atom_val.
  rewrite He, (ext_atom _ _ _ _ Hx He). apply den_ext; [done..|]. by eapply wf_atoms.
Qed.
Lemma placeholders_ok_ext s s' : ext s s' → placeholders_ok s → placeholders_ok s'.
Proof. intros Hx H. eapply Forall_impl; [exact H|]. intros a [e He]. exists e. by eapply ext_atom. Qed.
Lemma coefs_spec per s :
  wf s → Forall (poly_ok s (length (nodes s))) per →
  spec (mmap (λ ts : list Term, match ts with [] => ret None | _ => do c <- mkPoly i64 ts; ret (Some c) end) per) s
    (λ cf s', Forall2 (λ ts d, opoly s' d ∧ ∀ m, ocoef s' d m = coef ts m) per cf).
Proof.
  intros Hwf Hp. eapply spec_mono.
  - apply (spec_mmap (λ ts d s', opoly s' d ∧ ∀ m, ocoef s' d m = coef ts m)); [done| |].
    + intros ts d s1 s2 Hx [Hd Hm]. split; [by eapply opoly_ext|]. intros m. by rewrite (ocoef_ext s1 s2).
    + intros ts s' Hin Hwf' Hx. rewrite Forall_forall in Hp. specialize (Hp ts Hin).
      destruct ts as [|t ts]; [by apply spec_ret|].
      eapply spec_bind; [apply mkPoly_coef; [done|]|].
      { eapply poly_ok_ext; [done| |done]. destruct Hx as [Hn _ _ _]. by apply prefix_length. }
      cbn beta. intros d s2 Hwf2 Hx2 [Hd Hm]. apply spec_ret; [done|]. by split.
  - done.
Qed.
Lemma ocoef_den s ρ d ts :
  wf s → opoly s d → (∀ m, ocoef s d m = coef ts m) → oden s ρ d = peval (atom_val s (den s ρ)) ts.
Proof.
  intros Hwf Hd Hm. destruct d as [e|]; unfold oden; cbn in *.
  - rewrite den_terms by done. by apply peval_coef.
  - symmetry. rewrite (peval_coef _ ts []); [done|]. intros m. by rewrite <- Hm.
Qed.
Lemma splitDerived_spec s p :
  wf s → ispoly s p →
  spec (splitDerived derAtom p) s (λ r s', match r with
    | None => True
    | Some (r, coef) => ispoly s' r ∧ Forall (opoly s') coef ∧ length coef = length derAtom ∧
        ∀ ρ, den s' ρ p = den s' ρ r + sum (length derAtom) (λ q, dval s' ρ q * oden s' ρ (nth q coef None))
    end).
Proof.
  intros Hwf Hp. unfold splitDerived. apply ispoly_terms in Hp as Ht. eapply spec_terms_of; [exact Ht|].
  destruct (split_terms derAtom (terms s p)) as [[rest per]|] eqn:E; [|by apply spec_ret].
  destruct (poly_at _ _ _ _ Hwf Ht) as [_ Hok].
  destruct (split_terms_spec _ _ _ _ _ Hok E) as (Hr & Hper & Hl & Hval).
  eapply spec_bind; [by apply coefs_spec|]. cbn beta. intros coef s1 Hwf1 Hx1 Hc.
  eapply spec_bind; [apply (mkPoly_coef _ rest); [done|]|].
  { eapply poly_ok_ext; [done| |done]. destruct Hx1 as [Hn _ _ _]. by apply prefix_length. }
  cbn beta. intros r s2 Hwf2 Hx2 [Hpr Hrm]. apply spec_ret; [done|].
  assert (length coef = length derAtom) as Hlc by (apply Forall2_length in Hc; congruence).
  assert (∀ q, (q < length derAtom)%nat → opoly s2 (nth q coef None) ∧
    ∀ m, ocoef s2 (nth q coef None) m = Arena.coef (nth q per []) m) as Hq.
  { intros q Hlt. destruct (lookup_lt_is_Some_2 coef q) as [d Hd]; [lia|].
    destruct (lookup_lt_is_Some_2 per q) as [ts Hts]; [lia|].
    rewrite (nth_lookup_Some _ _ _ _ Hd), (nth_lookup_Some _ _ _ _ Hts).
    destruct (Forall2_lookup_lr _ _ _ _ _ _ Hc Hts Hd) as [Ho Hm].
    split; [by eapply opoly_ext|]. intros m. by rewrite (ocoef_ext s1 s2). }
  split_and!; [done| |done|].
  - apply Forall_forall. intros d Hd. apply list_elem_of_lookup in Hd as [q Hd].
    rewrite <- (nth_lookup_Some _ _ None _ Hd). apply Hq. apply lookup_lt_Some in Hd. lia.
  - intros ρ. assert (ext s s2) as Hx by (by etrans).
    assert (ispoly s2 p) as Hp2 by (by eapply ispoly_ext).
    rewrite den_terms by done. rewrite (terms_ext s s2), Hval by done. f_equal.
    + rewrite den_terms by done. apply peval_coef. intros m. symmetry. apply Hrm.
    + apply sum_ext. intros q Hlt. destruct (Hq q Hlt) as [Ho Hm]. f_equal. symmetry. by apply ocoef_den.
Qed.

(** the samples with the derived part taken out, [cf] being the strides along the placeholders *)
Definition split_ok (s : Arena) (s' : Arena) (cf : list (option EP)) (x x' : Sample) : Prop :=
  pt x' = pt x ∧ ispoly s' (val x') ∧ ∀ ρ,
    den s ρ (val x) = den s' ρ (val x') + sum (length derAtom) (λ q, dval s ρ q * oden s' ρ (nth q cf None)).
Lemma oden_ext s s' ρ d : wf s → wf s' → ext s s' → opoly s d → oden s' ρ d = oden s ρ d.
Proof. destruct d as [e|]; [|done]. unfold oden; cbn. intros. apply den_ext; eauto with mvcc_arena. Qed.
Lemma split_samples_spec nx Ss c0 s :
  wf s → samples_ok nx Ss s → placeholders_ok s →
  (∀ c, c0 = Some c → length c = length derAtom ∧ Forall (opoly s) c) →
  spec (split_samples derAtom c0 Ss) s (λ r s', match r with
    | inl _ => True
    | inr (cf, Ss') => length cf = length derAtom ∧ Forall (opoly s') cf ∧ (∀ c, c0 = Some c → cf = c) ∧
        Forall2 (split_ok s s' cf) Ss Ss'
    end).
Proof.
  revert c0 s. induction Ss as [|x Ss IH]; intros c0 s Hwf Hok Hd Hc0; cbn [split_samples].
  { apply spec_ret; [done|]. destruct c0 as [c|]; cbn.
    - destruct (Hc0 _ eq_refl). split_and!; [done|done|by intros ? [= <-]|constructor].
    - split_and!; [apply length_replicate|by apply Forall_replicate|done|constructor]. }
  apply Forall_cons in Hok as [[Hlx Hpx] Hok].
  eapply spec_bind; [by apply splitDerived_spec|]. cbn beta. intros [[r c]|] s1 Hwf1 Hx1 Hr; [|by apply spec_ret].
  destruct Hr as (Hpr & Hpc & Hlc & Hval). destruct (find _ _) as [q|] eqn:Ef; [by apply spec_ret|].
  assert (∀ c', c0 = Some c' → c' = c) as Hsame.
  { intros c' ->. destruct (Hc0 _ eq_refl) as [Hl _]. apply list_eq. intros q.
    destruct (decide (q < length derAtom)%nat) as [Hq|Hq]; [|by rewrite !lookup_ge_None_2 by lia].
    pose proof (find_none _ _ Ef q (proj2 (in_seq (length derAtom) 0 q) ltac:(lia))) as Hn. cbn in Hn.
    by apply negb_false_iff, bool_decide_eq_true in Hn. }
  assert (default c c0 = c) as -> by (destruct c0 as [c'|]; [by apply Hsame|done]).
  eapply spec_bind.
  { apply (IH (Some c)); [done|by eapply samples_ok_ext|by eapply placeholders_ok_ext|]. by intros ? [= <-]. }
  cbn beta. intros out s2 Hwf2 Hx2 Hout. apply spec_ret; [done|]. destruct out as [w|[cf Ss']]; [done|].
  destruct Hout as (Hl & Hp & Hcf & Hall). rewrite (Hcf _ eq_refl) in *.
  split_and!; [done|done|intros c' Hc'; symmetry; by apply Hsame|]. constructor.
  - split_and!; [done|by eapply ispoly_ext|]. intros ρ. cbn [val].
    rewrite <- (den_ext s s1) by eauto with mvcc_arena. rewrite Hval, (den_ext s1 s2) by eauto with mvcc_arena. f_equal.
    apply sum_ext. intros q Hq. rewrite (dval_ext s s1) by done. f_equal. symmetry. apply oden_ext; [done..|].
    rewrite Forall_forall in Hpc. apply Hpc, list_elem_of_In, nth_In. lia.
  - rewrite Forall2_same_length_lookup in Hall |- *. destruct Hall as [Hlen Hall]. split; [done|].
    intros i y y' Hi Hi'. pose proof (list_elem_of_lookup_2 _ _ _ Hi) as Hy.
    destruct (Hall i y y' Hi Hi') as (Hpt & Hpy & Hm). split_and!; [done|done|]. intros ρ.
    destruct (sample_ok nx Ss s y Hok Hy) as [_ Hpy0].
    rewrite <- (den_ext s s1) by eauto with mvcc_arena. rewrite Hm. f_equal.
    apply sum_ext. intros q _. by rewrite (dval_ext s s1).
Qed.
End derived.

(** The map of an access site: with the derived quantities' placeholders taken as further axes,
    the extended fit returns on every set of address polynomials, and when it gives a map every
    sample's value is, for every meaning of the symbols, base + sum over the physical axes of
    stride times coordinate + sum over the placeholders of their value times their stride, the
    strides of the placeholders being the same for all samples. *)
Theorem fitExtended_correct s derAtom nPhys Ss (Hwf : wf s) (Hok : samples_ok nPhys Ss s)
    (Hd : placeholders_ok derAtom s) :
  spec (fitExtended derAtom nPhys Ss) s (λ r s', ∀ base stride, r = inr (base, stride) →
    length stride = (nPhys + length derAtom)%nat ∧ ∀ x ρ, x ∈ Ss →
      den s ρ (val x) = den s' ρ base
        + sum nPhys (λ a, coord (pt x) a * oden s' ρ (nth a stride None))
        + sum (length derAtom) (λ q, dval derAtom s ρ q * oden s' ρ (nth (nPhys + q) stride None))).
Proof.
  eapply spec_bind; [by apply (split_samples_spec derAtom nPhys)|]. cbn beta.
  intros [w|[cf Ss']] s1 Hwf1 Hx1 Hsp; [by apply spec_ret|]. destruct Hsp as (Hl & Hcf & _ & Hall).
  assert (samples_ok nPhys Ss' s1) as Hok1.
  { rewrite Forall2_same_length_lookup in Hall. destruct Hall as [Hlen Hall]. apply Forall_forall.
    intros x' Hx'. apply list_elem_of_lookup in Hx' as [i Hi'].
    destruct (lookup_lt_is_Some_2 Ss i) as [x Hi]; [apply lookup_lt_Some in Hi'; lia|].
    destruct (Hall i x x' Hi Hi') as (-> & Hp & _). split; [|done].
    by apply (sample_ok nPhys Ss s x Hok), list_elem_of_lookup_2 with i. }
  eapply spec_bind; [by apply (fit_spec nPhys)|]. cbn beta. intros f s2 Hwf2 Hx2 [Hf Hok2].
  apply spec_ret; [done|]. intros base stride E. destruct f as [b ds|w]; [|done].
  destruct Hf as (_ & Hb & Hds & Hlds & _ & Haff). injection E as <- <-.
  rewrite <- Hlds, take_app_length, length_app. split; [lia|]. intros x ρ Hx. rewrite Hlds.
  apply list_elem_of_lookup in Hx as [i Hi].
  rewrite Forall2_same_length_lookup in Hall. destruct Hall as [Hlen Hall].
  destruct (lookup_lt_is_Some_2 Ss' i) as [x' Hi']; [apply lookup_lt_Some in Hi; lia|].
  destruct (Hall i x x' Hi Hi') as (Hpt & Hp & Hval). apply list_elem_of_lookup_2 in Hi'.
  rewrite Hval, <- (den_ext s1 s2) by eauto with mvcc_arena. f_equal.
  - rewrite (den_linear s2 ρ (val x') b (λ a, nth a ds None) (coord (pt x')) nPhys).
    + f_equal. apply sum_ext. intros a Ha. by rewrite Hpt, app_nth1 by lia.
    + done.
    + by eapply ispoly_ext.
    + done.
    + intros a _. by apply nth_opoly.
    + intros m. by apply Haff.
  - apply sum_ext. intros q Hq. f_equal. rewrite app_nth2 by lia. replace (nPhys + q - length ds)%nat with q by lia.
    symmetry. apply oden_ext; [done..|]. by apply nth_opoly.
Qed.

(** ** The properties on concrete samples *)
Definition arg64 (n : nat) : Symbol := mkSymbol Arg n "" 0 0 i64.
(** [b + 4 lane + n sg] on a 2 x 2 grid of (simdgroup, lane); and along the lanes
    [b, b + 4, m, m + 4], two families; and [b + 4 lane + n d] for a placeholder [d] *)
Definition demo_samples : M (list Sample * list Sample * list Sample * nat) :=
  do b <- mkSym (arg64 1); do n <- mkSym (arg64 2); do m <- mkSym (arg64 3);
  do d <- mkSym (mkSymbol LoopValue 0 "d0" 0 0 i64);
  do four <- mkInt i64 4;
  do b4 <- add b four; do bn <- add b n; do b4n <- add b4 n; do m4 <- add m four;
  do nd <- mul n d; do bnd <- add b nd; do b4nd <- add b4 nd;
  do dt <- terms_of d;
  ret ([mkSample [0; 0] b; mkSample [0; 1] b4; mkSample [1; 0] bn; mkSample [1; 1] b4n],
       [mkSample [0] b; mkSample [1] b4; mkSample [2] m; mkSample [3] m4],
       [mkSample [0] bnd; mkSample [1] b4nd],
       match dt with [([a], _)] => a | _ => O end).
Definition sample_arena : Arena := state_of demo_samples arena0.
Definition demo_of {B} (f : list Sample * list Sample * list Sample * nat → B) (dflt : B) : B :=
  match demo_samples arena0 with Some (x, _) => f x | None => dflt end.
Definition grid_samples : list Sample := Eval vm_compute in demo_of (λ x, x.1.1.1) [].
Definition lane_samples : list Sample := Eval vm_compute in demo_of (λ x, x.1.1.2) [].
Definition derived_samples : list Sample := Eval vm_compute in demo_of (λ x, x.1.2) [].
Definition placeholder : nat := Eval vm_compute in demo_of (λ x, x.2) O.
Lemma sample_arena_wf : wf sample_arena.
Proof. check_wf. Qed.
Definition ispolyb (s : Arena) (e : EP) : bool :=
  match nodes s !! e with Some (mkExpr t (NPoly _)) => bool_decide (t = i64) | _ => false end.
Lemma samples_checked nx Ss s :
  forallb (λ x, (length (pt x) =? nx)%nat && ispolyb s (val x)) Ss = true → samples_ok nx Ss s.
Proof.
  apply forallb_Forall'. intros x [Hl%Nat.eqb_eq Hp]%andb_true_iff. split; [done|]. unfold ispolyb in Hp.
  unfold ispoly, is_poly. destruct (nodes s !! val x) as [[t []]|]; try done.
  apply bool_decide_eq_true in Hp as ->. eauto.
Qed.
Ltac check_samples := apply samples_checked; vm_compute; reflexivity.

(** base [b] (expression 1), strides [n] (3) and 4 (8) *)
Example fit_grid :
  fst <$> fit grid_samples sample_arena = Some (Fitted 1 [Some 3%nat; Some 8%nat]) ∧
  terms sample_arena 8 = [([], 4)].
Proof. split; vm_compute; reflexivity. Qed.
Example fit_lanes : ∃ x v p s', fit lane_samples sample_arena = Some (Failed (NotAffine x v p), s').
Proof. eexists _, _, _, _. vm_compute. reflexivity. Qed.
Example split_lanes :
  fst <$> splitFamilies lane_samples sample_arena =
  Some (match lane_samples with [a; b; c; d] => [[a; b]; [c; d]] | _ => [] end).
Proof. vm_compute. reflexivity. Qed.

Lemma fit_exact_witness :
  spec (fit grid_samples) sample_arena (λ r s',
    ((∃ base ds, r = Fitted base ds) ↔ grid_samples ≠ [] ∧ sampled 2 grid_samples ∧ ∃ B D, affine 2 grid_samples s' B D) ∧
    ∀ base ds, r = Fitted base ds → length ds = 2%nat ∧ ∀ x ρ, x ∈ grid_samples →
      den sample_arena ρ (val x) = den s' ρ base + sum 2 (λ a, coord (pt x) a * oden s' ρ (nth a ds None))).
Proof. apply fit_exact; [exact sample_arena_wf|check_samples]. Defined.
Lemma splitFamilies_partition_witness :
  spec (splitFamilies lane_samples) sample_arena (λ fams s', Permutation (mjoin fams) lane_samples ∧
    (fams = [lane_samples] ∨ ∃ st bases, length st = 1%nat ∧ NoDup bases ∧
      Forall2 (λ base fam, fam ≠ [] ∧ ∀ x ρ, x ∈ fam →
        den sample_arena ρ (val x) = den s' ρ base + sum 1 (λ a, coord (pt x) a * oden s' ρ (nth a st None))) bases fams)).
Proof. apply splitFamilies_partition; [exact sample_arena_wf|check_samples]. Defined.
Lemma fitExtended_correct_witness :
  (∃ base stride s', fitExtended [placeholder] 1 derived_samples sample_arena = Some (inr (base, stride), s')) ∧
  spec (fitExtended [placeholder] 1 derived_samples) sample_arena (λ r s', ∀ base stride, r = inr (base, stride) →
    length stride = 2%nat ∧ ∀ x ρ, x ∈ derived_samples →
      den sample_arena ρ (val x) = den s' ρ base
        + sum 1 (λ a, coord (pt x) a * oden s' ρ (nth a stride None))
        + sum 1 (λ q, dval [placeholder] sample_arena ρ q * oden s' ρ (nth (1 + q) stride None))).
Proof.
  split; [eexists _, _, _; vm_compute; reflexivity|].
  apply (fitExtended_correct sample_arena [placeholder] 1 derived_samples); [exact sample_arena_wf|check_samples|].
  constructor; [vm_compute; eauto|constructor].
Defined.
