(* ===== verification/Coordinates.v ===== *)
(** The second half of the coordinate discovery (cpp/mvcc-llvm/coords.cpp, the end of [discover]):
    from the fitted sites to the logical coordinates.  The strides of the sites form the stride
    matrix; its Hermite normal form (Hnf.v) gives the dimension and the basis change, every site
    gets its strides along the coordinates, and the code checks that they reproduce the strides
    along the physical axes.  The theorem shows that the check never fails, so no fitted site is
    lost, and that the coordinates carry the same address. *)
From stdpp Require Import sorting.
From S2P Require Import Prelude Expr Arena ArenaSem ArenaCmp Hnf Coords.
Open Scope Z_scope.

(** ** Sites *)
(** [SiteMap::why]: empty when the site is fitted *)
Inductive SiteWhy := NotFitted (w : Why2) | DataDependent | BasisChange (a : nat).
(** [SiteMap] of coords.h *)
Record SiteMap := mkSiteMap {
  sm_site : option Site; sm_isStore : bool; sm_atomic : bool; sm_bytes : Z;
  sm_piece : Z; sm_pieces : Z; sm_samples : Z;
  sm_isPred : bool; sm_pred : Z;
  sm_tensor : string; sm_tensorSym : Z;
  sm_viaIndex : bool;
  sm_isDerivedOperand : bool; sm_derived : Z; sm_operand : Z;
  sm_base : option EP;
  sm_stride : list (option EP);
  sm_coordStride : list (option EP);
  sm_points : list (list Z * EP);
  sm_why : option SiteWhy }.
Definition fitted (m : SiteMap) : bool := match sm_why m with None => true | Some _ => false end.
Definition set_coordStride (m : SiteMap) (cs : list (option EP)) (w : option SiteWhy) : SiteMap :=
  mkSiteMap (sm_site m) (sm_isStore m) (sm_atomic m) (sm_bytes m) (sm_piece m) (sm_pieces m) (sm_samples m)
    (sm_isPred m) (sm_pred m) (sm_tensor m) (sm_tensorSym m) (sm_viaIndex m) (sm_isDerivedOperand m)
    (sm_derived m) (sm_operand m) (sm_base m) (sm_stride m) cs (sm_points m) w.

(** ** The stride matrix *)
(** a column: a site and a monomial of its strides *)
Abbreviation Col := (nat * Monomial)%type.
Definition site_class (m : SiteMap) : nat :=
  if sm_isStore m then 0 else if sm_isPred m || sm_isDerivedOperand m then 1 else 2.
(** the fitted sites: stores, then predicates and operands, then loads *)
Definition siteOrder (sites : list SiteMap) : list nat :=
  pass ← [0; 1; 2]%nat;
  x ← imap pair sites;
  if (site_class x.2 =? pass)%nat && fitted x.2 then [x.1] else [].
Definition stride_at (m : SiteMap) (a : nat) : option EP := nth a (sm_stride m) None.
Definition opt_terms (A : Arena) (d : option EP) : list Term := from_option (terms A) [] d.
Definition site_cols (A : Arena) (nAx : nat) (sites : list SiteMap) (s : nat) : list Col :=
  match sites !! s with
  | Some m =>
      a ← seq 0 (nAx `min` length (sm_stride m));
      t ← opt_terms A (stride_at m a);
      [(s, t.1)]
  | None => []
  end.
Definition add_col (cols : list Col) (c : Col) : list Col :=
  if bool_decide (c ∈ cols) then cols else cols ++ [c].
Definition columns (A : Arena) (nAx : nat) (sites : list SiteMap) : list Col :=
  fold_left add_col (s ← siteOrder sites; site_cols A nAx sites s) [].
(** the monomials of a polynomial are distinct, so the entry written is the coefficient *)
Definition entry (A : Arena) (sites : list SiteMap) (a : nat) (c : Col) : Z :=
  match sites !! c.1 with Some m => coef (opt_terms A (stride_at m a)) c.2 | None => 0 end.
Definition strideMatrix (A : Arena) (nAx : nat) (sites : list SiteMap) (cols : list Col) : Mat :=
  (λ a, entry A sites a <$> cols) <$> seq 0 nAx.
(** the physical axes along which nothing moves *)
Definition replication (nPhys : nat) (S : Mat) : list nat :=
  filter (λ a, forallb (Z.eqb 0) (nth a S []) = true) (seq 0 nPhys).

(** ** The basis change *)
(** the reduced matrix, the number of coordinates and the inverse of the transform *)
Definition reduce (nPhys : nat) (S : Mat) (cols : list Col) : option (Mat * nat * Mat) :=
  let Sphys := take nPhys S in
  if bool_decide (cols = []) || (nPhys =? 0)%nat
  then Some (Sphys, O, (λ _, replicate nPhys 0) <$> seq 0 nPhys)
  else
    match hnf Sphys with
    | Some (H, U, d) => match inverse U with Some V => Some (H, d, V) | None => None end
    | None => None
    end.
(** [D.V]: zero for the derived axes *)
Definition coordinateMatrix (nAx nPhys d : nat) (V : Mat) : Mat :=
  (λ a, (λ j, if (a <? nPhys)%nat then ent V a j else 0) <$> seq 0 d) <$> seq 0 nAx.

(** ** The strides along the coordinates *)
Definition coord_terms (H : Mat) (cols : list Col) (s j : nat) : list Term :=
  c ← imap pair cols;
  if (c.2.1 =? s)%nat && negb (ent H j c.1 =? 0) then [(c.2.2, ent H j c.1)] else [].
Definition coord_stride (H : Mat) (cols : list Col) (s j : nat) : M (option EP) :=
  match coord_terms H cols s j with
  | [] => ret None
  | ts => do e <- mkPoly i64 (merge_sort mle ts); ret (Some e)
  end.
(** the stride along axis [a] that the coordinates give *)
Definition via_step (V : Mat) (cs : list (option EP)) (a : nat) (acc : option EP) (j : nat) : M (option EP) :=
  match nth j cs None with
  | Some e =>
      if ent V a j =? 0 then ret acc
      else
        do k <- mkInt i64 (ent V a j);
        do t <- mul e k;
        match acc with
        | Some x => do y <- add x t; ret (Some y)
        | None => ret (Some t)
        end
  | None => ret acc
  end.
Definition viaCoords (d : nat) (V : Mat) (cs : list (option EP)) (a : nat) : M (option EP) :=
  mfold (via_step V cs a) (seq 0 d) None.
Definition zero_to_null (A : Arena) (e : option EP) : option EP :=
  match e with
  | Some x => match constInt A x with Some z => if z =? 0 then None else e | None => e end
  | None => None
  end.
(** the first axis whose stride the coordinates do not reproduce *)
Fixpoint check_axes (d : nat) (V : Mat) (m : SiteMap) (cs : list (option EP)) (axes : list nat) : M (option nat) :=
  match axes with
  | [] => ret None
  | a :: axes =>
      do via <- viaCoords d V cs a;
      do A <- gets id;
      if bool_decide (zero_to_null A via = zero_to_null A (stride_at m a)) then check_axes d V m cs axes
      else ret (Some a)
  end.

Record Coordinates := mkCoordinates {
  co_d : nat; co_V : Mat; co_isOutput : list bool; co_replication : list nat; co_sites : list SiteMap }.
Definition mark_outputs (m : SiteMap) (cs : list (option EP)) (out : list bool) : list bool :=
  if sm_isStore m then zip_with (λ (o : bool) (c : option EP), o || bool_decide (is_Some c)) out cs else out.
Definition coord_site (nPhys d : nat) (H V : Mat) (cols : list Col) (acc : list SiteMap * list bool)
    (x : nat * SiteMap) : M (list SiteMap * list bool) :=
  let '(s, m) := x in
  if fitted m then
    do cs <- mmap (coord_stride H cols s) (seq 0 d);
    do bad <- check_axes d V m cs (seq 0 nPhys);
    ret (acc.1 ++ [set_coordStride m cs (BasisChange <$> bad)], mark_outputs m cs acc.2)
  else ret (acc.1 ++ [m], acc.2).
Definition coordinates (nAx nPhys : nat) (sites : list SiteMap) : M Coordinates :=
  do A <- gets id;
  let cols := columns A nAx sites in
  let S := strideMatrix A nAx sites cols in
  match reduce nPhys S cols with
  | None => stuck
  | Some (H, d, V) =>
      do r <- mfold (coord_site nPhys d H (coordinateMatrix nAx nPhys d V) cols) (imap pair sites)
                ([], replicate d false);
      ret (mkCoordinates d (coordinateMatrix nAx nPhys d V) (r : list SiteMap * list bool).2
             (replication nPhys S) r.1)
  end.

(** ** Columns *)
Lemma elem_of_add_cols cs cols c : c ∈ fold_left add_col cs cols ↔ c ∈ cols ∨ c ∈ cs.
Proof.
  revert cols. induction cs as [|x cs IH]; intros cols; cbn; [set_solver|]. rewrite IH. unfold add_col.
  case_bool_decide; set_solver.
Qed.
Lemma nodup_add_cols cs cols : NoDup cols → NoDup (fold_left add_col cs cols).
Proof.
  revert cols. induction cs as [|x cs IH]; intros cols Hc; cbn; [done|]. apply IH. unfold add_col.
  case_bool_decide as Hx; [done|]. apply NoDup_app. split_and!; [done| |apply NoDup_singleton]. set_solver.
Qed.
Lemma elem_of_imap_pair {A} (l : list A) i x : (i, x) ∈ imap pair l ↔ l !! i = Some x.
Proof.
  rewrite list_elem_of_lookup. split.
  - intros [k Hk]. rewrite list_lookup_imap in Hk. destruct (l !! k) eqn:E; [|done]. by injection Hk as <- <-.
  - intros H. exists i. by rewrite list_lookup_imap, H.
Qed.
Lemma elem_of_siteOrder sites s : s ∈ siteOrder sites ↔ ∃ m, sites !! s = Some m ∧ fitted m = true.
Proof.
  unfold siteOrder. rewrite list_elem_of_bind. split.
  - intros (pass & ([i m] & Hs & Hin)%list_elem_of_bind & _). cbn in Hs. apply elem_of_imap_pair in Hin.
    destruct ((site_class m =? pass)%nat && fitted m) eqn:E; [|by apply not_elem_of_nil in Hs].
    apply list_elem_of_singleton in Hs as ->. apply andb_true_iff in E as [_ ?]. eauto.
  - intros (m & Hm & Hf). exists (site_class m). split.
    + apply list_elem_of_bind. exists (s, m). split; [|by apply elem_of_imap_pair]. cbn.
      rewrite Nat.eqb_refl, Hf. cbn. set_solver.
    + unfold site_class. repeat case_match; set_solver.
Qed.
Lemma elem_of_columns A nAx sites s mo m : sites !! s = Some m → fitted m = true →
  (s, mo) ∈ columns A nAx sites ↔
  ∃ a, (a < nAx)%nat ∧ (a < length (sm_stride m))%nat ∧ mo ∈ (opt_terms A (stride_at m a)).*1.
Proof.
  intros Hm Hf. unfold columns. rewrite elem_of_add_cols, list_elem_of_bind. split.
  - intros [H|(s' & H & _)]; [by apply not_elem_of_nil in H|]. unfold site_cols in H.
    destruct (sites !! s') as [m'|] eqn:Hm'; [|by apply not_elem_of_nil in H].
    apply list_elem_of_bind in H as (a & (t & H & Ht)%list_elem_of_bind & Ha).
    apply list_elem_of_singleton in H as [= -> ->]. assert (m' = m) as -> by congruence.
    apply elem_of_seq in Ha. exists a. split_and!; [lia|lia|]. by apply list_elem_of_fmap_2.
  - intros (a & Ha & Hl & (t & -> & Ht)%list_elem_of_fmap). right. exists s. split; [|apply elem_of_siteOrder; eauto].
    unfold site_cols. rewrite Hm. apply list_elem_of_bind. exists a. split; [|apply elem_of_seq; lia].
    apply list_elem_of_bind. exists t. split; [set_solver|done].
Qed.

(** ** The matrix and its reduction *)
Lemma ent_strideMatrix A nAx sites cols a c col : (a < nAx)%nat → cols !! c = Some col →
  ent (strideMatrix A nAx sites cols) a c = entry A sites a col.
Proof.
  intros Ha Hc. unfold ent, strideMatrix.
  rewrite (nth_lookup_Some _ a [] (entry A sites a <$> cols)).
  - apply nth_lookup_Some. by rewrite list_lookup_fmap, Hc.
  - rewrite list_lookup_fmap, lookup_seq_lt by done. done.
Qed.
Lemma strideMatrix_dims A nAx sites cols nPhys : (nPhys <= nAx)%nat →
  dims (take nPhys (strideMatrix A nAx sites cols)) nPhys (length cols).
Proof.
  intros Hn. unfold dims, strideMatrix. split; [rewrite length_take, length_fmap, length_seq; lia|].
  apply Forall_take, Forall_fmap, Forall_forall. intros a _. cbn. apply length_fmap.
Qed.
Lemma ent_take n M i j : (i < n)%nat → ent (take n M) i j = ent M i j.
Proof. intros Hi. unfold ent. by rewrite !nth_lookup, lookup_take_lt. Qed.
Lemma reduce_spec S nPhys cols : dims (take nPhys S) nPhys (length cols) →
  ∃ H d V, reduce nPhys S cols = Some (H, d, V) ∧
    ∀ a, (a < nPhys)%nat → ∀ j, (j < length cols)%nat → ent S a j = sum d (λ k, ent V a k * ent H k j).
Proof.
  intros HS. unfold reduce. destruct (bool_decide (cols = []) || (nPhys =? 0)%nat) eqn:E.
  - eexists _, _, _. split; [reflexivity|]. intros a Ha j Hj.
    apply orb_true_iff in E as [->%bool_decide_eq_true|?%Nat.eqb_eq]; cbn in *; lia.
  - apply orb_false_iff in E as [_ Hn%Nat.eqb_neq].
    destruct (basis_sum (take nPhys S) nPhys (length cols) HS) as (H & U & pc & V & EH & _ & EV & _ & _ & Hs); [lia|].
    rewrite EH, EV. eexists _, _, _. split; [reflexivity|]. intros a Ha j Hj.
    rewrite <- (ent_take nPhys) by done. by apply Hs.
Qed.
Lemma ent_coordinateMatrix nAx nPhys d V a j : (a < nPhys)%nat → (nPhys <= nAx)%nat → (j < d)%nat →
  ent (coordinateMatrix nAx nPhys d V) a j = ent V a j.
Proof.
  intros Ha Hn Hj. unfold ent at 1, coordinateMatrix. set (row := λ a, (λ j, _) <$> seq 0 d).
  rewrite (nth_lookup_Some _ a [] (row a)) by (rewrite list_lookup_fmap, lookup_seq_lt by lia; done).
  unfold row. rewrite (nth_lookup_Some _ j 0 (if (a <? nPhys)%nat then ent V a j else 0))
    by (rewrite list_lookup_fmap, lookup_seq_lt by lia; done).
  apply Nat.ltb_lt in Ha. by rewrite Ha.
Qed.

(** ** The strides along the coordinates *)
Section coord_terms.
Context (H : Mat) (s j : nat).
Definition col_term (c : nat * Col) : list Term :=
  if (c.2.1 =? s)%nat && negb (ent H j c.1 =? 0) then [(c.2.2, ent H j c.1)] else [].
Lemma col_terms_coef (l : list (nat * Col)) mo : NoDup l.*2 →
  (∀ c, (c, (s, mo)) ∈ l → coef (l ≫= col_term) mo = ent H j c) ∧
  ((s, mo) ∉ l.*2 → coef (l ≫= col_term) mo = 0).
Proof.
  induction l as [|[i [s' mo']] l IH]; intros Hnd; [split; [intros c Hc; by apply not_elem_of_nil in Hc|done]|].
  rewrite fmap_cons in Hnd. apply NoDup_cons in Hnd as [Hni Hnd]. destruct (IH Hnd) as [IH1 IH2].
  rewrite bind_cons, coef_app.
  assert (coef (col_term (i, (s', mo'))) mo = if bool_decide (s' = s ∧ mo' = mo) then ent H j i else 0) as Hc.
  { unfold col_term; cbn [fst snd]. destruct (Nat.eqb_spec s' s) as [->|Hs]; cbn.
    - destruct (Z.eqb_spec (ent H j i) 0) as [->|]; cbn.
      + by destruct (bool_decide _).
      + unfold coef; cbn. repeat case_bool_decide; try done; try lia; naive_solver lia.
    - by rewrite bool_decide_false by naive_solver. }
  split.
  - intros c [Heq|Hin]%elem_of_cons; rewrite Hc.
    + injection Heq as <- <- <-. rewrite bool_decide_true by done.
      rewrite (IH2 Hni). lia.
    + rewrite bool_decide_false; [rewrite (IH1 c Hin); lia|]. intros [-> ->]. apply Hni.
      apply list_elem_of_fmap. by exists (c, (s, mo)).
  - intros [Hne Hni2]%not_elem_of_cons. rewrite Hc, (IH2 Hni2), bool_decide_false; [done|]. naive_solver.
Qed.
Lemma imap_pair_snd {A} (l : list A) : (imap pair l).*2 = l.
Proof. rewrite fmap_imap. unfold compose; cbn. induction l as [|x l IH] using rev_ind; [done|]. by rewrite imap_app, IH. Qed.
Lemma coord_terms_coef cols mo : NoDup cols →
  (∀ c, cols !! c = Some (s, mo) → coef (coord_terms H cols s j) mo = ent H j c) ∧
  ((s, mo) ∉ cols → coef (coord_terms H cols s j) mo = 0).
Proof.
  intros Hnd. destruct (col_terms_coef (imap pair cols) mo) as [H1 H2]; [by rewrite imap_pair_snd|].
  rewrite imap_pair_snd in H2. split; [|exact H2]. intros c Hc. apply H1. by apply elem_of_imap_pair.
Qed.
Lemma coord_terms_mono cols t : t ∈ coord_terms H cols s j → (s, t.1) ∈ cols.
Proof.
  intros (  [i [s' mo]] & Ht & Hin)%list_elem_of_bind. apply elem_of_imap_pair in Hin. cbn in Ht.
  destruct (Nat.eqb_spec s' s) as [->|]; [|by apply not_elem_of_nil in Ht].
  destruct (ent H j i =? 0); [by apply not_elem_of_nil in Ht|].
  apply list_elem_of_singleton in Ht as ->. by eapply list_elem_of_lookup_2.
Qed.
End coord_terms.
Lemma coord_stride_spec H cols s0 st j :
  wf st → (∀ mo, (s0, mo) ∈ cols → mono_ok st (length (nodes st)) mo) →
  spec (coord_stride H cols s0 j) st (λ d s', opoly s' d ∧
    ∀ mo, ocoef s' d mo = coef (coord_terms H cols s0 j) mo).
Proof.
  intros Hwf Hok. unfold coord_stride. destruct (coord_terms H cols s0 j) as [|t ts] eqn:E.
  { by apply spec_ret. }
  rewrite <- E. eapply spec_bind.
  - apply mkPoly_coef; [done|]. apply Forall_forall. intros x Hx. rewrite merge_sort_Permutation in Hx.
    by apply Hok, (coord_terms_mono H s0 j).
  - cbn beta. intros e s1 Hwf1 _ [He Hc]. apply spec_ret; [done|]. split; [done|]. intros mo. cbn.
    by rewrite Hc, merge_sort_Permutation.
Qed.

(** ** The check *)
Lemma via_step_spec V cs a acc j s :
  wf s → opoly s acc → Forall (opoly s) cs →
  spec (via_step V cs a acc j) s (λ r s', opoly s' r ∧
    ∀ mo, ocoef s' r mo = ocoef s acc mo + ent V a j * ocoef s (nth j cs None) mo).
Proof.
  intros Hwf Hacc Hcs. unfold via_step.
  assert (opoly s (nth j cs None)) as Hj.
  { destruct (nth_in_or_default j cs None) as [Hin| ->]; [|done].
    apply list_elem_of_In in Hin. by eapply Forall_forall in Hcs. }
  destruct (nth j cs None) as [e|] eqn:Ee.
  2: { apply spec_ret; [done|]. split; [done|]. intros mo. cbn. lia. }
  destruct (Z.eqb_spec (ent V a j) 0) as [->|Hk].
  { apply spec_ret; [done|]. split; [done|]. intros mo. cbn. lia. }
  apply spec_assoc. eapply spec_bind; [by apply mul_int_coef|]. cbn beta. intros t s1 Hwf1 Hx1 [Ht Htc].
  destruct acc as [x|].
  - eapply spec_bind; [apply add_coef; [done| |done]; by eapply ispoly_ext|].
    cbn beta. intros y s2 Hwf2 Hx2 [Hy Hyc]. apply spec_ret; [done|]. split; [done|]. intros mo. cbn.
    by rewrite Hyc, Htc, (pcoef_ext s s1).
  - apply spec_ret; [done|]. split; [done|]. intros mo. cbn. by rewrite Htc.
Qed.
Lemma viaCoords_spec d V cs a s : wf s → Forall (opoly s) cs →
  spec (viaCoords d V cs a) s (λ r s', opoly s' r ∧
    ∀ mo, ocoef s' r mo = sum d (λ j, ent V a j * ocoef s (nth j cs None) mo)).
Proof.
  intros Hwf Hcs. unfold viaCoords.
  eapply spec_mono.
  - apply (spec_mfold (λ l acc s', opoly s' acc ∧
      ∀ mo, ocoef s' acc mo = sum (length l) (λ j, ent V a j * ocoef s (nth j cs None) mo))); [done|done|].
    intros l1 x l2 acc s' Hl Hwf' Hx' [Ha Hc].
    assert (x = length l1) as ->.
    { assert (seq 0 d !! length l1 = Some x) as Hx by (rewrite Hl; by apply list_lookup_middle).
      apply lookup_seq in Hx. lia. }
    eapply spec_mono; [apply via_step_spec; [done|done|]|].
    + eapply Forall_impl; [exact Hcs|]. intros c. by apply opoly_ext.
    + cbn beta. intros r s2 _ _ [Hr Hrc]. split; [done|]. intros mo. rewrite Hrc, Hc, length_app. cbn [length].
      rewrite Nat.add_1_r. cbn [sum]. f_equal. f_equal. apply ocoef_ext; [done|].
      destruct (nth_in_or_default (length l1) cs None) as [Hin| ->]; [|done].
      apply list_elem_of_In in Hin. by eapply Forall_forall in Hcs.
  - cbn beta. intros r s' _ _ [Hr Hc]. split; [done|]. intros mo. by rewrite Hc, length_seq.
Qed.
Lemma zero_to_null_cases s d : wf s → opoly s d →
  (zero_to_null s d = None ∧ ∀ mo, ocoef s d mo = 0) ∨
  (zero_to_null s d = d ∧ ∃ e mo, d = Some e ∧ ocoef s d mo ≠ 0).
Proof.
  intros Hwf. destruct d as [e|]; [|by left]. cbn. intros He. pose proof (ispoly_terms _ _ He) as Ht.
  destruct (poly_at _ _ _ _ Hwf Ht) as [Hn _]. unfold pcoef. unfold is_poly in Ht.
  unfold constInt. rewrite Ht. cbn. set (ts := terms s e) in *. clearbody ts.
  destruct ts as [|[[|a m] c] ts]; cbn [constInt_node node].
  - by left.
  - assert (c ≠ 0) as Hc by (destruct Hn as [_ Hz]; by apply Forall_cons in Hz as [? _]).
    right. split; [|exists e, []; split; [done|]; by rewrite (coef_head _ _ _ Hn)].
    destruct ts; [|done]. by destruct (Z.eqb_spec c 0).
  - assert (c ≠ 0) as Hc by (destruct Hn as [_ Hz]; by apply Forall_cons in Hz as [? _]).
    right. split; [done|]. exists e, (a :: m). split; [done|]. by rewrite (coef_head _ _ _ Hn).
Qed.
Lemma zero_to_null_eq s d d' : wf s → opoly s d → opoly s d' → (∀ mo, ocoef s d mo = ocoef s d' mo) →
  zero_to_null s d = zero_to_null s d'.
Proof.
  intros Hwf Hd Hd' Hc.
  destruct (zero_to_null_cases s d Hwf Hd) as [[-> H]|(-> & e & mo & -> & H)],
           (zero_to_null_cases s d' Hwf Hd') as [[-> H']|(-> & e' & mo' & -> & H')]; [done| | |].
  - rewrite <- Hc in H'. by rewrite H in H'.
  - rewrite Hc in H. by rewrite H' in H.
  - f_equal. by apply (pcoef_inj s).
Qed.
Lemma check_axes_none d V m cs axes s :
  wf s → Forall (opoly s) cs → Forall (opoly s) (sm_stride m) →
  (∀ a, a ∈ axes → ∀ mo, ocoef s (stride_at m a) mo = sum d (λ j, ent V a j * ocoef s (nth j cs None) mo)) →
  spec (check_axes d V m cs axes) s (λ r _, r = None).
Proof.
  intros Hwf Hcs Hst. revert s Hwf Hcs Hst. induction axes as [|a axes IH]; intros s Hwf Hcs Hst Hrep; cbn [check_axes].
  { by apply spec_ret. }
  eapply spec_bind; [by apply viaCoords_spec|]. cbn beta. intros via s1 Hwf1 Hx1 [Hv Hvc]. apply gets_spec. unfold id.
  assert (Forall (opoly s1) (sm_stride m)) as Hst1 by (eapply Forall_impl; [exact Hst|]; intros; by eapply opoly_ext).
  assert (Forall (opoly s1) cs) as Hcs1 by (eapply Forall_impl; [exact Hcs|]; intros; by eapply opoly_ext).
  assert (∀ l n, Forall (opoly s) l → opoly s (nth n l None)) as Hnth.
  { intros l n Hl. destruct (nth_in_or_default n l None) as [Hin| ->]; [|done].
    apply list_elem_of_In in Hin. by eapply Forall_forall in Hl. }
  rewrite bool_decide_true.
  - apply IH; [done..|]. intros b Hb mo. unfold stride_at.
    rewrite (ocoef_ext s s1) by auto. rewrite (Hrep b) by (by right). apply sum_ext. intros j _. f_equal.
    symmetry. apply ocoef_ext; auto.
  - apply zero_to_null_eq; [done|done| |].
    + unfold stride_at. eapply opoly_ext; [exact Hx1|auto].
    + intros mo. rewrite Hvc. unfold stride_at. rewrite (ocoef_ext s s1) by auto. rewrite <- Hrep by left. done.
Qed.

(** ** The coordinates carry the addresses *)
Lemma coef_absent ts mo : mo ∉ ts.*1 → coef ts mo = 0.
Proof.
  unfold coef. induction ts as [|[k c] ts IH]; [done|]. intros [Hne Hni]%not_elem_of_cons. cbn.
  rewrite bool_decide_false by naive_solver. by apply IH.
Qed.
Lemma ocoef_opt_terms A d mo : coef (opt_terms A d) mo = ocoef A d mo.
Proof. by destruct d. Qed.
Section reproduce.
Context (A : Arena) (Hwf : wf A) (nAx nPhys : nat) (Hle : (nPhys <= nAx)%nat) (sites : list SiteMap).
(** the strides of a fitted site: address polynomials, one per axis *)
Definition site_in (m : SiteMap) : Prop :=
  fitted m = true → length (sm_stride m) = nAx ∧ Forall (opoly A) (sm_stride m).
Context (Hsites : Forall site_in sites).
Abbreviation cols := (columns A nAx sites).

Lemma columns_nodup : NoDup cols.
Proof. apply nodup_add_cols. constructor. Qed.
Lemma stride_opoly m a : Forall (opoly A) (sm_stride m) → opoly A (stride_at m a).
Proof.
  intros Hl. unfold stride_at. destruct (nth_in_or_default a (sm_stride m) None) as [Hin| ->]; [|done].
  apply list_elem_of_In in Hin. by eapply Forall_forall in Hl.
Qed.
Lemma columns_mono_ok s mo : (s, mo) ∈ cols → mono_ok A (length (nodes A)) mo.
Proof.
  intros Hin. pose proof Hin as H. unfold columns in H. rewrite elem_of_add_cols, list_elem_of_bind in H.
  destruct H as [H|(s' & H & Hs')]; [by apply not_elem_of_nil in H|].
  apply elem_of_siteOrder in Hs' as (m & Hm & Hf).
  assert (s' = s) as ->.
  { unfold site_cols in H. rewrite Hm in H.
    apply list_elem_of_bind in H as (a & (t & H & _)%list_elem_of_bind & _).
    by apply list_elem_of_singleton in H as [= -> _]. }
  apply (elem_of_columns _ _ _ _ _ _ Hm Hf) in Hin as (a & _ & _ & Ht).
  pose proof (proj1 (Forall_lookup _ _) Hsites _ _ Hm Hf) as [_ Hpo].
  apply (stride_opoly _ a) in Hpo. destruct (stride_at m a) as [e|]; [|by apply not_elem_of_nil in Ht].
  cbn in *. apply ispoly_terms in Hpo. destruct (poly_at _ _ _ _ Hwf Hpo) as [_ Hok].
  apply list_elem_of_fmap in Ht as (t & -> & Ht). exact (proj1 (Forall_forall _ _) Hok _ Ht).
Qed.
Lemma stride_reproduced H d V s m a mo :
  (∀ a, (a < nPhys)%nat → ∀ j, (j < length cols)%nat →
     ent (strideMatrix A nAx sites cols) a j = sum d (λ k, ent V a k * ent H k j)) →
  sites !! s = Some m → fitted m = true → (a < nPhys)%nat →
  ocoef A (stride_at m a) mo = sum d (λ j, ent V a j * coef (coord_terms H cols s j) mo).
Proof.
  intros Hb Hm Hf Ha. pose proof (λ j, coord_terms_coef H s j cols mo columns_nodup) as Hc.
  destruct (decide ((s, mo) ∈ cols)) as [[c Hcol]%list_elem_of_lookup|Hni].
  - transitivity (ent (strideMatrix A nAx sites cols) a c).
    + assert (a < nAx)%nat as Ha' by lia. rewrite (ent_strideMatrix _ _ _ _ _ _ _ Ha' Hcol). unfold entry; cbn. rewrite Hm.
      by rewrite ocoef_opt_terms.
    + rewrite Hb by (try done; by eapply lookup_lt_Some). apply sum_ext. intros j _.
      by rewrite (proj1 (Hc j) _ Hcol).
  - rewrite sum_zero by (intros j _; rewrite (proj2 (Hc j) Hni); lia).
    rewrite <- ocoef_opt_terms. apply coef_absent. intros Hin. apply Hni.
    apply (elem_of_columns _ _ _ _ _ _ Hm Hf). exists a.
    destruct (proj1 (Forall_lookup _ _) Hsites _ _ Hm Hf) as [Hl _]. split_and!; [lia|lia|done].
Qed.

(** the value along the coordinates [c = V^T x] *)
Definition site_ok (d : nat) (V : Mat) (s' : Arena) (m m' : SiteMap) : Prop :=
  (if fitted m then m' = set_coordStride m (sm_coordStride m') None else m' = m) ∧
  (fitted m = true → length (sm_coordStride m') = d ∧ Forall (opoly s') (sm_coordStride m') ∧
    ∀ a, (a < nPhys)%nat → ∀ mo,
      ocoef s' (stride_at m a) mo = sum d (λ j, ent V a j * ocoef s' (nth j (sm_coordStride m') None) mo)).
Lemma site_ok_ext d V s1 s2 m m' : site_in m → ext A s1 → ext s1 s2 → site_ok d V s1 m m' → site_ok d V s2 m m'.
Proof.
  intros Hin Hx1 Hx2 [Hm Hf]. split; [done|]. intros Hfm. destruct (Hf Hfm) as (Hl & Hp & Hc). split_and!; [done| |].
  - eapply Forall_impl; [exact Hp|]. intros c. by apply opoly_ext.
  - intros a Ha mo. destruct (Hin Hfm) as [_ Hst].
    rewrite (ocoef_ext s1 s2) by (done || by eapply opoly_ext, stride_opoly). rewrite Hc by done.
    apply sum_ext. intros j _. f_equal. symmetry. apply ocoef_ext; [done|by apply nth_opoly].
Qed.
Lemma mark_outputs_spec m cs out d j : length cs = d → length out = d → (j < d)%nat →
  nth j (mark_outputs m cs out) false =
    nth j out false || (sm_isStore m && bool_decide (is_Some (nth j cs None))).
Proof.
  intros Hc Ho Hj. unfold mark_outputs. destruct (sm_isStore m); cbn [andb]; [|by rewrite orb_false_r].
  destruct (lookup_lt_is_Some_2 out j) as [o Hoj]; [lia|].
  destruct (lookup_lt_is_Some_2 cs j) as [c Hcj]; [lia|].
  rewrite (nth_lookup_Some out j false o Hoj), (nth_lookup_Some cs j None c Hcj).
  apply nth_lookup_Some. by rewrite lookup_zip_with, Hoj; cbn; rewrite Hcj.
Qed.
Lemma coord_site_spec H d V acc out s m s1 :
  (∀ a, (a < nPhys)%nat → ∀ j, (j < length cols)%nat →
     ent (strideMatrix A nAx sites cols) a j = sum d (λ k, ent V a k * ent H k j)) →
  wf s1 → ext A s1 → sites !! s = Some m → length out = d →
  spec (coord_site nPhys d H V cols (acc, out) (s, m)) s1 (λ r s', ∃ m', r.1 = acc ++ [m'] ∧ site_ok d V s' m m' ∧
    length r.2 = d ∧ ∀ j, (j < d)%nat → nth j r.2 false = true ↔
      nth j out false = true ∨ fitted m' = true ∧ sm_isStore m' = true ∧ is_Some (nth j (sm_coordStride m') None)).
Proof.
  intros Hb Hwf1 Hx1 Hm Hout. unfold coord_site. destruct (fitted m) eqn:Hf; cycle 1.
  { apply spec_ret; [done|]. exists m. cbn. split_and!; [done| |done|].
    - split; rewrite Hf; done.
    - intros j _. rewrite Hf. naive_solver. }
  destruct (proj1 (Forall_lookup _ _) Hsites _ _ Hm Hf) as [Hl Hst].
  eapply spec_bind.
  { apply (spec_mmap (λ j c s', opoly s' c ∧ ∀ mo, ocoef s' c mo = coef (coord_terms H cols s j) mo)); [done| |].
    - intros j c s2 s3 Hx [Hc Hco]. split; [by eapply opoly_ext|]. intros mo. by rewrite (ocoef_ext s2).
    - intros j s2 _ Hwf2 Hx2. apply coord_stride_spec; [done|]. intros mo Hmo%columns_mono_ok.
      eapply mono_ok_ext; [etrans; [exact Hx1|exact Hx2]| |exact Hmo].
      assert (ext A s2) as [Hp _ _ _] by (by etrans). by apply prefix_length in Hp. }
  cbn beta. intros cs s2 Hwf2 Hx2 Hcs.
  assert (length cs = d) as Hlc by (apply Forall2_length in Hcs; rewrite length_seq in Hcs; lia).
  assert (ext A s2) as HxA by (by etrans).
  assert (Forall (opoly s2) cs) as Hcp.
  { apply Forall_lookup. intros j c Hj. destruct (Forall2_lookup_r _ _ _ _ _ Hcs Hj) as (? & _ & ? & _). done. }
  assert (∀ a, (a < nPhys)%nat → ∀ mo, ocoef s2 (stride_at m a) mo =
    sum d (λ j, ent V a j * ocoef s2 (nth j cs None) mo)) as Hrep.
  { intros a Ha mo. rewrite (ocoef_ext A s2) by (done || by apply stride_opoly).
    rewrite (stride_reproduced H d V s m a mo Hb Hm Hf Ha). apply sum_ext. intros j Hj. f_equal.
    destruct (lookup_lt_is_Some_2 cs j) as [c Hc]; [lia|]. rewrite (nth_lookup_Some _ _ _ _ Hc).
    destruct (Forall2_lookup_r _ _ _ _ _ Hcs Hc) as (j' & Hj' & _ & Hco).
    apply lookup_seq in Hj' as [-> _]. by rewrite Hco. }
  eapply spec_bind; [apply (check_axes_none d V m cs (seq 0 nPhys)); [done|done| |]|].
  - eapply Forall_impl; [exact Hst|]. intros c. by apply opoly_ext.
  - intros a Ha%elem_of_seq. apply Hrep. lia.
  - cbn beta. intros ? s3 Hwf3 Hx3 ->. apply spec_ret; [done|]. eexists. cbn [fst snd]. split; [reflexivity|].
    assert (sm_why m = None) as Hw by (unfold fitted in Hf; by destruct (sm_why m)).
    split_and!.
    + apply (site_ok_ext d V s2); [intros _; done|done|done|]. split; [by rewrite Hf|]. intros _. done.
    + unfold mark_outputs. destruct (sm_isStore m); [|done]. rewrite length_zip_with. lia.
    + intros j Hj. rewrite (mark_outputs_spec _ _ _ d) by done. cbn.
      rewrite orb_true_iff, andb_true_iff, bool_decide_eq_true. naive_solver.
Qed.
End reproduce.

Lemma oden_linear s ρ d (e : option EP) (v : nat → Z) (cs : nat → option EP) :
  wf s → opoly s e → (∀ j, opoly s (cs j)) →
  (∀ mo, ocoef s e mo = sum d (λ j, v j * ocoef s (cs j) mo)) →
  oden s ρ e = sum d (λ j, v j * oden s ρ (cs j)).
Proof.
  intros Hwf He Hcs Hm. set (w := atom_val s (den s ρ)).
  assert (∀ o, opoly s o → oden s ρ o = peval w (opt_terms s o)) as Ho.
  { intros [x|] Hx; [by apply den_terms|done]. }
  rewrite Ho by done. rewrite (sum_ext d _ (λ j, peval w (scale (v j) (opt_terms s (cs j))))).
  2: { intros j _. by rewrite peval_scale, Ho. }
  rewrite <- (peval_sum w d (λ j, scale (v j) (opt_terms s (cs j)))). apply peval_coef. intros mo.
  rewrite coef_sum, ocoef_opt_terms, Hm. apply sum_ext. intros j _. by rewrite coef_scale, ocoef_opt_terms.
Qed.

(** the displacement of the address from the origin: along the physical axes, and along the
    coordinates [c_j = sum over the axes of V[a][j] * x_a] *)
Definition physical_offset (s : Arena) (ρ : Env) (nPhys : nat) (m : SiteMap) (x : nat → Z) : Z :=
  sum nPhys (λ a, x a * oden s ρ (stride_at m a)).
Definition coordinate (r : Coordinates) (nPhys : nat) (x : nat → Z) (j : nat) : Z :=
  sum nPhys (λ a, ent (co_V r) a j * x a).
Definition coordinate_offset (s : Arena) (ρ : Env) (r : Coordinates) (nPhys : nat) (m : SiteMap) (x : nat → Z) : Z :=
  sum (co_d r) (λ j, coordinate r nPhys x j * oden s ρ (nth j (sm_coordStride m) None)).

(** [C36] The coordinates carry the addresses.  The derivation of the logical coordinates from the
    fitted sites always succeeds: the Hermite normal form exists, and the check that the basis
    change reproduces the strides rejects no site, so every fitted site stays fitted and only
    gains its coordinate strides.  At every physical point, in every environment, the
    displacement of a site's address along the physical axes is its displacement along the
    coordinates.  A coordinate is marked as an output exactly when it moves the address of a
    store. *)
Theorem coordinates_reproduce A nAx nPhys sites (Hwf : wf A) (Hle : (nPhys <= nAx)%nat)
  (Hsites : Forall (site_in A nAx) sites) :
  spec (coordinates nAx nPhys sites) A (λ r s',
    Forall2 (λ m m',
      m' = (if fitted m then set_coordStride m (sm_coordStride m') None else m) ∧
      (fitted m = true → length (sm_coordStride m') = co_d r ∧
        ∀ ρ x, physical_offset s' ρ nPhys m x = coordinate_offset s' ρ r nPhys m' x)) sites (co_sites r) ∧
    ∀ j, (j < co_d r)%nat → nth j (co_isOutput r) false = true ↔
      ∃ m', m' ∈ co_sites r ∧ fitted m' = true ∧ sm_isStore m' = true ∧ is_Some (nth j (sm_coordStride m') None)).
Proof.
  unfold coordinates. apply gets_spec. unfold id. set (cols := columns A nAx sites).
  destruct (reduce_spec (strideMatrix A nAx sites cols) nPhys cols) as (H & d & V & -> & Hb);
    [by apply strideMatrix_dims|].
  set (V' := coordinateMatrix nAx nPhys d V).
  assert (∀ a, (a < nPhys)%nat → ∀ j, (j < length cols)%nat →
    ent (strideMatrix A nAx sites cols) a j = sum d (λ k, ent V' a k * ent H k j)) as Hb'.
  { intros a Ha j Hj. rewrite Hb by done. apply sum_ext. intros k Hk.
    unfold V'. by rewrite ent_coordinateMatrix. }
  clearbody V'. clear Hb.
  eapply spec_bind.
  { apply (spec_mfold (λ l r s', length r.2 = d ∧ Forall2 (λ x m', site_ok nPhys d V' s' (snd x) m') l r.1 ∧
      ∀ j, (j < d)%nat → nth j r.2 false = true ↔
        ∃ m', m' ∈ r.1 ∧ fitted m' = true ∧ sm_isStore m' = true ∧ is_Some (nth j (sm_coordStride m') None))).
    - done.
    - cbn. split_and!; [apply length_replicate|constructor|]. intros j Hj.
      rewrite (nth_lookup_Some _ j false false) by (by apply lookup_replicate_2).
      split; [done|]. intros (m' & Hm' & _); by apply not_elem_of_nil in Hm'.
    - intros l1 [i m] l2 [acc out] s' Hl Hwf' Hx' (Hlo & Hacc & Hout). cbn [fst snd] in *.
      assert (sites !! i = Some m) as Hm.
      { apply elem_of_imap_pair. rewrite Hl. set_solver. }
      eapply spec_mono; [by eapply (coord_site_spec A Hwf nAx nPhys Hle sites Hsites H d V')|].
      cbn beta. intros [acc' out'] s2 Hwf2 Hx2 (m' & Hacc' & Hok & Hlo' & Hj). cbn [fst snd] in *. subst acc'.
      split_and!; [done| |].
      + apply Forall2_app; [|constructor; [exact Hok|constructor]].
        assert (∀ x, x ∈ l1 → site_in A nAx (snd x)) as Hin.
        { intros [k mk] Hk. assert (sites !! k = Some mk) as Hkm by (apply elem_of_imap_pair; rewrite Hl; set_solver).
          cbn. exact (proj1 (Forall_lookup _ _) Hsites _ _ Hkm). }
        clear -Hacc Hin Hx' Hx2. induction Hacc as [|x mx l acc Hx _ IH]; [constructor|].
        constructor; [|apply IH; intros; apply Hin; by right].
        eapply (site_ok_ext A nAx nPhys); [apply Hin; left|exact Hx'|exact Hx2|exact Hx].
      + intros j Hjd. rewrite Hj, Hout by done. split.
        * intros [(x & Hx & HP)|HP]; [exists x|exists m']; (split; [apply elem_of_app|done]); [by left|].
          right. by apply list_elem_of_singleton.
        * intros (x & [Hx|Hx]%elem_of_app & HP); [left; by exists x|right].
          by apply list_elem_of_singleton in Hx as ->. }
  cbn beta. intros [acc out] s' Hwf' Hx' (Hlo & Hacc & Hout). cbn [fst snd] in *. apply spec_ret; [done|].
  cbn [co_d co_sites co_isOutput]. split; [|done].
  rewrite <- (imap_pair_snd sites). apply Forall2_fmap_l.
  assert (∀ x, x ∈ imap pair sites → site_in A nAx (snd x)) as Hin.
  { intros [k mk] Hkm%elem_of_imap_pair. exact (proj1 (Forall_lookup _ _) Hsites _ _ Hkm). }
  clear Hout. induction Hacc as [|x m' l acc [Hm Hf] _ IH]; [constructor|].
  constructor; [|apply IH; intros; apply Hin; by right]. cbn. split; [by destruct (fitted (snd x))|].
  intros Hfx. destruct (Hf Hfx) as (Hl & Hp & Hc). split; [done|]. intros ρ y.
  destruct (Hin x ltac:(left) Hfx) as [_ Hst].
  unfold physical_offset, coordinate_offset, coordinate; cbn [co_d co_V].
  rewrite (sum_ext nPhys _ (λ a, sum d (λ j, ent V' a j * y a * oden s' ρ (nth j (sm_coordStride m') None)))).
  - rewrite sum_swap. apply sum_ext. intros j _. by rewrite sum_scale_r.
  - intros a Ha. rewrite (oden_linear s' ρ d _ (ent V' a) (λ j, nth j (sm_coordStride m') None));
      [|done| |intros j; by apply nth_opoly|by apply Hc].
    + rewrite <- sum_scale. apply sum_ext. intros j _. lia.
    + eapply opoly_ext; [exact Hx'|]. by apply stride_opoly.
Qed.

(** *** A tile: a store at [4 x0 + 128 x1] and a load at [4 x0 + 512 x2], [x2] a loop *)
Definition demo_site (isStore : bool) (base : EP) (stride : list (option EP)) : SiteMap :=
  mkSiteMap None isStore false 4 0 1 8 false 0 "" 0 false false 0 0 (Some base) stride [] [] None.
Definition demo_tile : M (list SiteMap) :=
  do z <- mkPoly i64 [];
  do a <- mkPoly i64 [([], 4)];
  do b <- mkPoly i64 [([], 128)];
  do c <- mkPoly i64 [([], 512)];
  ret [demo_site true z [Some a; Some b; None]; demo_site false z [Some a; None; Some c]].
Definition demo_sites : list SiteMap := match demo_tile arena0 with Some (l, _) => l | None => [] end.
Definition demo_arena : Arena := state_of demo_tile arena0.
Lemma coordinates_reproduce_witness : ∃ r s',
  coordinates 3 3 demo_sites demo_arena = Some (r, s') ∧ co_d r = 2%nat ∧ length (co_sites r) = 2%nat ∧
  (∃ m', m' ∈ co_sites r ∧ sm_isStore m' = true).
Proof.
  destruct (coordinates_reproduce demo_arena 3 3 demo_sites) as (r & s' & E & _ & _ & Hs & Hout).
  - apply wfb_wf. by vm_compute.
  - lia.
  - vm_compute. repeat constructor; try (by eexists); done.
  - assert (co_d r = 2%nat ∧ nth 0 (co_isOutput r) false = true) as [Hd H0].
    { clear Hs Hout. vm_compute in E. injection E as <- _. done. }
    exists r, s'. split; [exact E|]. split; [exact Hd|].
    split; [symmetry; exact (Forall2_length _ _ _ Hs)|].
    rewrite Hd in Hout. destruct (proj1 (Hout 0%nat ltac:(lia)) H0) as (m' & Hm & _ & Hst & _).
    exists m'. split; [exact Hm|exact Hst].
Defined.
