(* ===== verification/Stir.v ===== *)
(** The semantic tile IR: data of cpp/mvcc-llvm/stir.h and the programs built without recovery
    (namespace [direct] of stir.cpp). *)
From S2P Require Import Prelude Cstd SigAlgebra Expr.
Open Scope string_scope.
Open Scope Z_scope.

Record Dim := mkDim {
  mono : list nat;            (* sorted atom ids of the stride's monomial *)
  unitBytes : option EP;
  d_name : string }.
Record Tensor := mkTensor {
  t_name : string;
  t_sym : Z;
  elemBytes : Z;
  elemFromSignature : bool;
  read : bool;
  written : bool;
  dims : list Dim }.
Record IndexMap := mkIndexMap { offset : option EP; coef : list Z }.
Record Access := mkAccess {
  ac_tensor : Z;
  store : bool;
  atomic : bool;
  bytes : Z;
  site : option Site;
  piece : Z;
  npieces : Z;
  viaDerived : bool;
  index : list IndexMap;
  leftoverBytes : option EP;
  samples : Z;
  ac_verified : Z;
  ac_mismatches : Z }.
Record Operand := mkOperand { op_site : option Site; op_words : list EP }.
Record Guard := mkGuard { g_pred : Z; lhsBase : option EP; lhsCoef : list (option EP); families : Z }.
Record LoopStmt := mkLoopStmt {
  header : string;
  depth : Z;
  l_kind : LoopKind;
  trip : Z;
  uniform : bool;
  algebra : list (Algebra * Z);
  permits : Permissions;
  anyData : bool;
  l_why : string }.
Record Program := mkProgram {
  kernel : string;
  tensors : list Tensor;
  coordNames : list string;
  coordOutput : list bool;
  coordPhys : list string;
  derivedDefs : list string;
  derivedOperands : list string;
  accesses : list Access;
  operands : list Operand;
  guards : list Guard;
  loops : list LoopStmt;
  unmapped : Z;
  unfitted : list string;
  verified : Z;
  mismatches : Z;
  numClass : string }.

(** the default member initialisers *)
Definition tensor0 : Tensor := mkTensor "" (2 ^ 32 - 1) 0 false false false [].
Definition access0 : Access := mkAccess 0 false false 0 None 0 1 false [] None 0 0 0.
Definition guard0 : Guard := mkGuard 0 None [] 1.
Definition program0 : Program :=
  mkProgram "" [] [] [] [] [] [] [] [] [] [] 0 [] 0 0 "inherit".
Definition mk_tensor (nm : string) (elem : Z) (rd wr : bool) : Tensor :=
  mkTensor nm (t_sym tensor0) elem false rd wr [].

(** [hasAlgebra] of schedule.cpp and legality.cpp *)
Definition hasAlgebra (P : Program) (a : Algebra) : bool :=
  existsb (λ L, existsb (λ kv, bool_decide (kv.1 = a)) (algebra L)) (loops P).
Definition reduction (P : Program) (c : nat) : bool :=
  match coordOutput P !! c with Some o => negb o | None => false end.

(** the permissions common to the loops that carry data; [None] when no loop does *)
Definition data_permits (P : Program) : option Permissions :=
  fold_left (λ acc L,
    if anyData L then
      match acc with None => Some (permits L) | Some p => Some (permits_and p (permits L)) end
    else acc) (loops P) None.

Lemma hasAlgebra_spec P a :
  hasAlgebra P a = true ↔ ∃ L n, L ∈ loops P ∧ (a, n) ∈ algebra L.
Proof.
  unfold hasAlgebra. rewrite existsb_exists. split.
  - intros (L&HL&([a' n]&Hin&Ha)%existsb_exists). apply bool_decide_eq_true in Ha. simpl in Ha.
    subst. exists L, n. by rewrite !list_elem_of_In.
  - intros (L&n&HL&Hn). exists L. rewrite <- list_elem_of_In. split; [done|].
    apply existsb_exists. exists (a, n). rewrite <- list_elem_of_In. split; [done|].
    by apply bool_decide_eq_true.
Qed.

(** ** Programs without recovery *)
Module direct.
Definition elementwise (nm : string) : Program :=
  mkProgram nm
    [mk_tensor "x" 4 true false; mk_tensor "y" 4 false true]
    ["i"] [true] ["b0+b1+b2+b3+b4+b5+b6+b7"] [] [] [] []
    [mkGuard 2 None [] 1] [] 0 [] 0 0 "inherit".

Definition gemm (nm : string) : Program :=
  mkProgram nm
    [mk_tensor "A" 2 true false; mk_tensor "B" 2 true false; mk_tensor "C" 2 false true]
    ["m"; "n"; "k"] [true; true; false] ["b0+b1+b2+b3+b4"; "b5+b6+i1"; "i0"] [] [] [] [] []
    [mkLoopStmt "%k" 1 Traversal 0 true [(TensorSum, 1)] (mkPermissions true true false true)
       true ""] 0 [] 0 0 "inherit".

Definition attention (nm : string) : Program :=
  mkProgram nm
    [mk_tensor "Q" 4 true false; mk_tensor "K" 4 true false; mk_tensor "V" 4 true false;
     mk_tensor "O" 4 false true]
    ["d"; "n"; "k"] [true; false; false] ["b0+b1+b2+b3+b4"; "i0"; "i1"] [] [] [] [] []
    [mkLoopStmt "%n" 1 Traversal 0 true [(Tuple, 1)] (mkPermissions true true false true) true "";
     mkLoopStmt "%k" 2 Traversal 0 true [(Sum, 1)] (mkPermissions true true false true) true ""]
    0 [] 0 0 "inherit".
End direct.
