(* ===== verification/StirBuild.v ===== *)
(** Building the semantic tile IR (cpp/mvcc-llvm/stir.cpp, [build]): from the sites the coordinate
    discovery fitted (Coordinates.v) to tensors with dimensions, and accesses with one index map
    per dimension.  The code re-evaluates every sample against the index maps it built and counts
    the mismatches; the theorem shows there are none. *)
From stdpp Require Import sorting.
From S2P Require Import Prelude Cstd SigAlgebra Expr Arena ArenaSem ArenaCmp Hnf Coords Coordinates Stir.
Open Scope string_scope.
Open Scope Z_scope.

(** ** Monomials *)
(** multiset inclusion of sorted atom lists: does [d] divide [m]? *)
Fixpoint divides (d m : Monomial) : bool :=
  match m with
  | [] => match d with [] => true | _ => false end
  | a :: m =>
      match d with
      | b :: d' => if (b =? a)%nat then divides d' m else divides d m
      | [] => divides [] m
      end
  end.
Fixpoint quotient (m d : Monomial) : Monomial :=
  match m with
  | [] => []
  | a :: m =>
      match d with
      | b :: d' => if (b =? a)%nat then quotient m d' else a :: quotient m d
      | [] => a :: quotient m []
      end
  end.
(** Euclid's loop; two iterations halve [b] *)
Fixpoint gcd_loop (fuel : nat) (a b : Z) : Z :=
  match fuel with
  | O => a
  | S fuel => if b =? 0 then a else gcd_loop fuel b (Z.rem a b)
  end.
Definition gcd64 (a b : Z) : Z :=
  gcd_loop (2 * S (Z.to_nat (Z.log2 (Z.abs b))) + 1) (Z.abs a) (Z.abs b).

(** ** The element sizes of the pointer parameters *)
Definition wrap32 (z : Z) : Z := z mod 2 ^ 32.
Definition wrap64 (z : Z) : Z := z mod 2 ^ 64.
Definition opens (c : ascii) : bool := Ascii.eqb c "(" || Ascii.eqb c "<" || Ascii.eqb c "[".
Definition closes (c : ascii) : bool := Ascii.eqb c ")" || Ascii.eqb c ">" || Ascii.eqb c "]".
(** the last balanced parenthesis group: the indices of its parentheses; [depth] is a [size_t] *)
Fixpoint last_group (sig : list ascii) (i : nat) (depth : Z) (start fin : option nat) : option nat * option nat :=
  match sig with
  | [] => (start, fin)
  | c :: sig =>
      if opens c then
        last_group sig (S i) (wrap64 (depth + 1)) (if (depth =? 0) && Ascii.eqb c "(" then Some i else start) fin
      else if closes c then
        let depth := wrap64 (depth - 1) in
        last_group sig (S i) depth start (if (depth =? 0) && Ascii.eqb c ")" then Some i else fin)
      else last_group sig (S i) depth start fin
  end.
(** the parameters, split at the commas outside brackets *)
Fixpoint split_params (params : list ascii) (d : Z) (cur : list ascii) : list (list ascii) :=
  match params with
  | [] => match cur with [] => [] | _ => [cur] end
  | c :: params =>
      let d := if Ascii.eqb c "<" || Ascii.eqb c "(" then wrap32 (d + 1) else d in
      let d := if Ascii.eqb c ">" || Ascii.eqb c ")" then wrap32 (d - 1) else d in
      if Ascii.eqb c "," && (d =? 0) then cur :: split_params params d []
      else split_params params d ((cur ++ [c])%list)
  end.
(** [strip]: every occurrence of [w] erased, from the left, the search restarted each time *)
Fixpoint erase_first (w t : list ascii) : option (list ascii) :=
  if bool_decide (take (length w) t = w) then Some (drop (length w) t)
  else match t with [] => None | c :: t => cons c <$> erase_first w t end.
Fixpoint strip_f (fuel : nat) (w t : list ascii) : list ascii :=
  match fuel with
  | O => t
  | S fuel => match erase_first w t with Some t => strip_f fuel w t | None => t end
  end.
Definition strip (w : string) (t : list ascii) : list ascii := strip_f (length t) (list_ascii_of_string w) t.
Definition elem_bytes (t : string) : Z :=
  let among l := existsb (String.eqb t) l in
  if among ["__half"; "__nv_bfloat16"; "half"; "short"; "unsignedshort"; "int16_t"; "uint16_t"] then 2
  else if among ["float"; "int"; "unsignedint"; "int32_t"; "uint32_t"; "unsigned"] then 4
  else if among ["unsignedchar"; "char"; "signedchar"; "bool"; "int8_t"; "uint8_t"] then 1
  else if among ["double"; "long"; "longlong"; "unsignedlong"; "unsignedlonglong"; "int64_t"; "uint64_t"; "size_t"] then 8
  else if among ["half2"; "__half2"; "__nv_bfloat162"; "float2"; "int2"] then 8
  else if among ["float4"; "int4"; "uint4"] then 16
  else 0.
Definition param_bytes (p : list ascii) : Z :=
  match find_index (Ascii.eqb "*") p with
  | None => 0
  | Some star =>
      let t := take star p in
      let t := strip "const" t in
      let t := strip "volatile" t in
      let t := strip "__restrict__" t in
      let t := strip "__restrict" t in
      elem_bytes (string_of_list_ascii (filter (λ c, c ≠ " "%char) t))
  end.
Definition pointerElemBytes (sig : string) : list Z :=
  let l := list_ascii_of_string sig in
  match last_group l 0 0 None None with
  | (Some start, Some fin) =>
      if (fin <=? start)%nat then []
      else param_bytes <$> split_params (take (fin - start - 1) (drop (start + 1) l)) 0 []
  | _ => []
  end.

Example pointerElemBytes_example :
  pointerElemBytes "void k<3>(const __half*, int, float* __restrict__, std::pair<int, int>*)" = [2; 0; 4; 0].
Proof. vm_compute. reflexivity. Qed.

(** ** The input *)
(** [Discovery] of coords.h, without its report *)
Record Discovery := mkDiscovery {
  d_nAxes : nat; d_sites : list SiteMap; d_d : nat; d_V : Mat; d_isOutput : list bool;
  d_axisNames : list string; d_derivedDefs : list string; d_derivedValue : list EP }.

(** ** Dimensions *)
(** [std::map<Mono, int64_t>]: in the order of its keys; an absent key reads as 0 *)
Abbreviation Dims := (list (Monomial * Z)).
Fixpoint update (k : Monomial) (f : Z → Z) (g : Dims) : Dims :=
  match g with
  | [] => [(k, f 0)]
  | (k', v) :: g =>
      if bool_decide (k = k') then (k', f v) :: g
      else if mlt k k' then (k, f 0) :: (k', v) :: g
      else (k', v) :: update k f g
  end.
Definition isTensorAtom (A : Arena) (sym : Z) (m : Monomial) : bool :=
  match m with
  | [a] => match isSymAtom A a with Some s => Z.of_nat s =? sym | None => false end
  | _ => false
  end.
Definition coordStride_at (m : SiteMap) (j : nat) : option EP := nth j (sm_coordStride m) None.
(** the coordinates the code looks at: [j < D.d && j < m.coordStride.size()] *)
Definition coords_of (d : nat) (m : SiteMap) : list nat := seq 0 (d `min` length (sm_coordStride m)).
Definition stride_gcds (A : Arena) (d : nat) (m : SiteMap) (g : Dims) : Dims :=
  fold_left (λ g (t : Term), update t.1 (λ v, gcd64 v t.2) g)
    (coords_of d m ≫= λ j, opt_terms A (coordStride_at m j)) g.
(** the longest dimension that divides a monomial, the first of them *)
Definition better_dim (m : Monomial) (best : option Monomial) (kv : Monomial * Z) : option Monomial :=
  if bool_decide (kv.1 ≠ []) && divides kv.1 m then
    match best with
    | None => Some kv.1
    | Some b => if (length b <? length kv.1)%nat then Some kv.1 else best
    end
  else best.
Definition best_dim (g : Dims) (m : Monomial) : option Monomial := fold_left (better_dim m) g None.
Definition base_gcds (A : Arena) (sym : Z) (m : SiteMap) (g : Dims) : Dims :=
  let g := fold_left (λ g (t : Term),
    if isTensorAtom A sym t.1 then g
    else update (default [] (best_dim g t.1)) (λ v, gcd64 v t.2) g) (opt_terms A (sm_base m)) g in
  update [] (λ v, gcd64 v (sm_bytes m)) g.
Definition dim_gcds (A : Arena) (d : nat) (sym : Z) (ms : list SiteMap) : Dims :=
  let g := fold_left (λ g m, stride_gcds A d m g) ms [([], 0)] in
  fold_left (λ g m, base_gcds A sym m g) ms g.
Definition lookup_dim (g : Dims) (k : Monomial) : Z :=
  match find (λ kv : Monomial * Z, bool_decide (kv.1 = k)) g with Some kv => kv.2 | None => 0 end.
(** outermost first: higher degree first, then by atoms; the contiguous one last *)
Definition dim_before (a b : Monomial * Z) : bool :=
  if xorb (bool_decide (a.1 = [])) (bool_decide (b.1 = [])) then bool_decide (b.1 = [])
  else if negb (length a.1 =? length b.1)%nat then (length b.1 <? length a.1)%nat
  else mlt a.1 b.1.
Definition dim_le (a b : Monomial * Z) : Prop := dim_before b a = false.
#[export] Instance dim_le_dec : RelDecision dim_le.
Proof. intros a b. unfold dim_le. apply _. Defined.

(** the unit of the contiguous dimension and the element size *)
Definition contiguous (elem g0 : Z) : Z * Z :=
  let contig := if negb (elem =? 0) && (Z.rem g0 elem =? 0) then elem else g0 in
  (contig, if elem =? 0 then wrap32 contig else elem).
Definition dim_units (contig : Z) (g : Dims) : Dims :=
  (λ kv : Monomial * Z,
     let u := if bool_decide (kv.1 = []) then contig else kv.2 in
     (kv.1, if u =? 0 then 1 else u)) <$> merge_sort dim_le g.
Definition mk_dim (x : nat * (Monomial * Z)) : M Dim :=
  do e <- mkPoly i64 [x.2]; ret (mkDim x.2.1 (Some e) ("d" ++ to_string (Z.of_nat x.1))).
Definition set_dims (T : Tensor) (elem : Z) (ds : list Dim) : Tensor :=
  mkTensor (t_name T) (t_sym T) elem (elemFromSignature T) (read T) (written T) ds.
Definition tensor_dims (d : nat) (T : Tensor) (ms : list SiteMap) : M Tensor :=
  do A <- gets id;
  let g := dim_gcds A d (t_sym T) ms in
  let '(contig, elem) := contiguous (elemBytes T) (lookup_dim g []) in
  do ds <- mmap mk_dim (imap pair (dim_units contig g));
  ret (set_dims T elem ds).

(** ** Accesses *)
(** the dimension of a monomial: the longest that divides it, else the contiguous one *)
Definition longer_dim (dims : list Dim) (m : Monomial) (best : option nat) (x : nat * Dim) : option nat :=
  if bool_decide (mono x.2 ≠ []) && divides (mono x.2) m then
    match best ≫= λ b, dims !! b with
    | None => Some x.1
    | Some b => if (length (mono b) <? length (mono x.2))%nat then Some x.1 else best
    end
  else best.
Definition dimOf (dims : list Dim) (m : Monomial) : option nat :=
  match fold_left (longer_dim dims m) (imap pair dims) None with
  | Some k => Some k
  | None => fold_left (λ best x, if bool_decide (mono (snd x) = []) then Some (fst x) else best) (imap pair dims) None
  end.
Definition unitOf (dims : list Dim) (k : nat) : M Z :=
  match dims !! k ≫= unitBytes with
  | Some e =>
      do ts <- terms_of e;
      match ts with
      | (_, c) :: _ => do p <- mkPoly i64 [([], c)]; gets (λ A, default 1 (constInt A p))
      | [] => stuck
      end
  | None => stuck
  end.
Definition bump_coef (j : nat) (v : Z) (im : IndexMap) : IndexMap :=
  mkIndexMap (offset im) (alter (Z.add v) j (coef im)).
Definition set_offset (im : IndexMap) (e : EP) : IndexMap := mkIndexMap (Some e) (coef im).
(** a term of a coordinate's stride; a term that matches no dimension is left to the round trip *)
Definition stride_step (dims : list Dim) (ims : list IndexMap) (jt : nat * Term) : M (list IndexMap) :=
  let '(j, (m, c)) := jt in
  match dimOf dims m with
  | None => stuck
  | Some k =>
      do u <- unitOf dims k;
      if negb (Z.rem c u =? 0) || negb (bool_decide (mono <$> dims !! k = Some m)) then ret ims
      else ret (alter (bump_coef j (Z.quot c u)) k ims)
  end.
Definition dim_mono (dims : list Dim) (k : nat) : Monomial := from_option mono [] (dims !! k).
(** a term of the base: an offset in its dimension, or a leftover *)
Definition base_step (dims : list Dim) (sym : Z) (acc : list IndexMap * option EP) (t : Term)
    : M (list IndexMap * option EP) :=
  do A <- gets id;
  if isTensorAtom A sym t.1 then ret acc
  else
    let k := dimOf dims t.1 in
    do u <- match k with Some k => unitOf dims k | None => ret 1 end;
    match k with
    | Some k =>
        if Z.rem t.2 u =? 0 then
          do q <- mkPoly i64 [(quotient t.1 (dim_mono dims k), Z.quot t.2 u)];
          match acc.1 !! k ≫= offset with
          | Some o => do e <- add o q; ret (alter (λ im, set_offset im e) k acc.1, acc.2)
          | None => stuck
          end
        else
          do term <- mkPoly i64 [t];
          do l <- match acc.2 with Some l => add l term | None => ret term end; ret (acc.1, Some l)
    | None =>
        do term <- mkPoly i64 [t];
        do l <- match acc.2 with Some l => add l term | None => ret term end; ret (acc.1, Some l)
    end.

(** ** The round trip *)
Section round_trip.
Context (D : Discovery).
Definition nPhys : nat := d_nAxes D - length (d_derivedValue D).
(** the coordinate [c_j] at a point *)
Definition coord_step (x : list Z) (j : nat) (cj : EP) (a : nat) : M EP :=
  if ent (d_V D) a j =? 0 then ret cj
  else
    do xa <- (if (a <? nPhys)%nat then mkInt i64 (coord x a)
              else match d_derivedValue D !! (a - nPhys)%nat with Some e => ret e | None => stuck end);
    do k <- mkInt i64 (ent (d_V D) a j);
    do t <- mul k xa;
    add cj t.
Definition coord_poly (x : list Z) (j : nat) : M EP :=
  do z <- mkPoly i64 []; mfold (coord_step x j) (seq 0 (d_nAxes D)) z.
Definition index_step (c : list EP) (idx : EP) (jv : nat * Z) : M EP :=
  if jv.2 =? 0 then ret idx
  else
    match c !! jv.1 with
    | Some cj => do k <- mkInt i64 jv.2; do t <- mul k cj; add idx t
    | None => stuck
    end.
Definition dim_step (c : list EP) (addr : EP) (x : Dim * IndexMap) : M EP :=
  match unitBytes x.1, offset x.2 with
  | Some u, Some o =>
      do idx <- mfold (index_step c) (imap pair (coef x.2)) o;
      do t <- mul u idx;
      add addr t
  | _, _ => stuck
  end.
Definition tensor_step (sym : Z) (addr : EP) (t : Term) : M EP :=
  do A <- gets id;
  if isTensorAtom A sym t.1 then do p <- mkPoly i64 [t]; add addr p else ret addr.
Definition derived_step (m : SiteMap) (addr : EP) (qv : nat * EP) : M EP :=
  match stride_at m (nPhys + qv.1) with
  | Some st => do t <- mul st qv.2; add addr t
  | None => ret addr
  end.
Definition address (sym : Z) (m : SiteMap) (dims : list Dim) (ims : list IndexMap) (left : option EP)
    (x : list Z) : M EP :=
  do c <- mmap (coord_poly x) (seq 0 (d_d D));
  do z <- mkPoly i64 [([], 0)];
  do A <- gets id;
  do addr <- mfold (tensor_step sym) (opt_terms A (sm_base m)) z;
  do addr <- mfold (dim_step c) (zip dims ims) addr;
  do addr <- match left with Some l => add addr l | None => ret addr end;
  mfold (derived_step m) (imap pair (d_derivedValue D)) addr.
(** whether the sampled address is the one the index maps give *)
Definition check_point (sym : Z) (m : SiteMap) (dims : list Dim) (ims : list IndexMap) (left : option EP)
    (p : list Z * EP) : M bool :=
  do addr <- address sym m dims ims left p.1;
  do v <- asPoly p.2;
  do v <- retype v i64;
  do diff <- sub v addr;
  gets (λ A, bool_decide (constInt A diff = Some 0)).

Definition count (b : bool) (l : list bool) : Z := Z.of_nat (length (filter (λ x, x = b) l)).
Definition access (ti : nat) (T : Tensor) (m : SiteMap) : M Access :=
  do ims <- mmap (λ _, do z <- mkPoly i64 []; ret (mkIndexMap (Some z) (replicate (d_d D) 0))) (dims T);
  do A <- gets id;
  do ims <- mfold (stride_step (dims T))
              (coords_of (d_d D) m ≫= λ j, pair j <$> opt_terms A (coordStride_at m j)) ims;
  do r <- mfold (base_step (dims T) (t_sym T)) (opt_terms A (sm_base m)) (ims, None);
  do ok <- mmap (check_point (t_sym T) m (dims T) (r : list IndexMap * option EP).1 r.2) (sm_points m);
  ret (mkAccess (Z.of_nat ti) (sm_isStore m) (sm_atomic m) (sm_bytes m) (sm_site m) (sm_piece m) (sm_pieces m)
         (sm_viaIndex m) r.1 r.2 (sm_samples m) (count true ok) (count false ok)).
End round_trip.

(** ** [build] *)
(** [argNo v]: the number of the argument the value [v] is, if it is one; the texts of instructions,
    expressions and reasons are not modelled *)
Section build.
Context (argNo : nat → option nat).
Context (siteName : option Site → string) (polyStr : Arena → option EP → string) (whyText : SiteWhy → string).

Record Mapped := mkMapped {
  mp_tensors : list (Tensor * list SiteMap); mp_unfitted : list string; mp_unmapped : Z }.
Definition new_tensor (elemBySig : list Z) (m : SiteMap) (sy : Symbol) : Tensor :=
  let named nm elem sig := mkTensor nm (sm_tensorSym m) elem sig false false [] in
  match sy_kind sy, argNo (sy_v sy) with
  | Arg, Some n =>
      match elemBySig !! n with
      | Some e => if e =? 0 then named ("arg" ++ to_string (Z.of_nat n)) 0 false
                  else named ("arg" ++ to_string (Z.of_nat n)) e true
      | None => named ("arg" ++ to_string (Z.of_nat n)) 0 false
      end
  | _, _ => named (sm_tensor m) 0 false
  end.
Definition touch (m : SiteMap) (x : Tensor * list SiteMap) : Tensor * list SiteMap :=
  let T := x.1 in
  (mkTensor (t_name T) (t_sym T) (elemBytes T) (elemFromSignature T)
     (if sm_isStore m then read T else true) (if sm_isStore m then true else written T) (dims T),
   (x.2 ++ [m])%list).
Definition site_text (m : SiteMap) (w : SiteWhy) : string :=
  (if sm_atomic m then "atomic " else if sm_isStore m then "store " else "load ")
  ++ to_string (sm_bytes m) ++ "B at " ++ siteName (sm_site m) ++ ": " ++ whyText w.
Definition map_site (elemBySig : list Z) (acc : Mapped) (m : SiteMap) : M Mapped :=
  if sm_isPred m || sm_isDerivedOperand m then ret acc
  else
    match sm_why m with
    | Some w => ret (mkMapped (mp_tensors acc) (mp_unfitted acc ++ [site_text m w])%list (mp_unmapped acc))
    | None =>
        if (sm_tensor m =? "")%string then ret (mkMapped (mp_tensors acc) (mp_unfitted acc) (mp_unmapped acc + 1))
        else
          match find_index (λ x : Tensor * list SiteMap, t_sym x.1 =? sm_tensorSym m) (mp_tensors acc) with
          | Some i => ret (mkMapped (alter (touch m) i (mp_tensors acc)) (mp_unfitted acc) (mp_unmapped acc))
          | None =>
              do sy <- (λ s, (λ y, (y, s)) <$> symbols s !! Z.to_nat (sm_tensorSym m));
              ret (mkMapped (mp_tensors acc ++ [touch m (new_tensor elemBySig m sy, [])])%list
                     (mp_unfitted acc) (mp_unmapped acc))
          end
    end.
(** the accesses of the tensors, in order *)
Definition tensor_accesses (D : Discovery) (x : nat * (Tensor * list SiteMap)) : M (list Access) :=
  mmap (access D x.1 x.2.1) x.2.2.
Definition phys_text (D : Discovery) (j : nat) : string :=
  let part a := let v := ent (d_V D) a j in
    if v =? 0 then []
    else [((if v =? 1 then "" else to_string_s v ++ "*") ++ nth a (d_axisNames D) "")] in
  match seq 0 (d_nAxes D) ≫= part with [] => "0" | l => String.concat " + " l end.
Definition operand_text (A : Arena) (d : nat) (m : SiteMap) : string :=
  "d" ++ to_string (sm_derived m) ++ " operand " ++ to_string (sm_operand m) ++ " = " ++ polyStr A (sm_base m)
  ++ String.concat "" (coords_of d m ≫= λ j,
       match coordStride_at m j with
       | Some e => [" + (" ++ polyStr A (Some e) ++ ")*c" ++ to_string (Z.of_nat j)]
       | None => []
       end)
  ++ (if 1 <? sm_pieces m then " (one of " ++ to_string (sm_pieces m) ++ " families)" else "").
Definition guard_of (m : SiteMap) : Guard := mkGuard (sm_pred m) (sm_base m) (sm_coordStride m) (sm_pieces m).
Definition build (D : Discovery) (loopAlgebra : list LoopStmt) (sig : string) : M Program :=
  do mp <- mfold (map_site (pointerElemBytes sig)) (d_sites D) (mkMapped [] [] 0);
  do Ts <- mmap (λ x, do T <- tensor_dims (d_d D) (fst x) (snd x); ret (T, snd x)) (mp_tensors mp);
  do acs <- mmap (tensor_accesses D) (imap pair Ts);
  do A <- gets id;
  let acs := mjoin acs in
  let total f := foldr (λ ac n, f ac + n) 0 acs in
  ret (mkProgram sig Ts.*1
         ((λ j, "c" ++ to_string (Z.of_nat j)) <$> seq 0 (d_d D)) (d_isOutput D) (phys_text D <$> seq 0 (d_d D))
         (d_derivedDefs D)
         (operand_text A (d_d D) <$> filter (λ m, fitted m && sm_isDerivedOperand m = true) (d_sites D))
         acs [] (guard_of <$> filter (λ m, fitted m && sm_isPred m = true) (d_sites D)) loopAlgebra
         (mp_unmapped mp) (mp_unfitted mp) (total ac_verified) (total ac_mismatches) "inherit").
End build.

#[local] Open Scope list_scope.
#[local] Open Scope Z_scope.

(** ** The greatest common divisor *)
Lemma gcd_loop_gcd n : ∀ a b, 0 <= a → 0 <= b < 2 ^ Z.of_nat n → gcd_loop (2 * n + 1) a b = Z.gcd a b.
Proof.
  induction n as [|n IH]; intros a b Ha Hb.
  - assert (b = 0) as -> by (cbn in Hb; lia). cbn. rewrite Z.gcd_0_r. lia.
  - replace (2 * S n + 1)%nat with (S (S (2 * n + 1))) by lia. cbn [gcd_loop].
    destruct (Z.eqb_spec b 0) as [->|Hb0]; [rewrite Z.gcd_0_r; lia|].
    rewrite Z.rem_mod_nonneg by lia. pose proof (Z.mod_pos_bound a b ltac:(lia)) as Hr.
    assert (Z.gcd a b = Z.gcd (a mod b) b) as -> by (rewrite Z.gcd_mod by lia; apply Z.gcd_comm).
    destruct (Z.eqb_spec (a mod b) 0) as [->|E]; [rewrite Z.gcd_0_l; lia|].
    rewrite Z.rem_mod_nonneg by lia. pose proof (Z.mod_pos_bound b (a mod b) ltac:(lia)) as Hr2.
    rewrite IH.
    + rewrite Z.gcd_comm. rewrite Z.gcd_mod by lia. done.
    + lia.
    + split; [lia|]. rewrite Nat2Z.inj_succ, Z.pow_succ_r in Hb by lia.
      pose proof (Z.div_mod b (a mod b) ltac:(lia)).
      assert (1 <= b / (a mod b)) by (apply Z.div_le_lower_bound; lia). nia.
Qed.
Lemma gcd64_gcd a b : gcd64 a b = Z.gcd a b.
Proof.
  unfold gcd64. rewrite gcd_loop_gcd; [by rewrite Z.gcd_abs_l, Z.gcd_abs_r|lia|]. split; [lia|].
  rewrite Nat2Z.inj_succ, Z2Nat.id by apply Z.log2_nonneg.
  destruct (Z.eq_dec (Z.abs b) 0) as [->|H]; [by vm_compute|]. apply Z.log2_spec. lia.
Qed.

(** ** Monomials *)
Lemma divides_perm d m : divides d m = true → m ≡ₚ d ++ quotient m d.
Proof.
  revert d. induction m as [|a m IH]; intros [|b d] H; cbn in *; try done.
  - f_equiv. exact (IH [] H).
  - destruct (Nat.eqb_spec b a) as [->|Hb]; [f_equiv; by apply IH|].
    etrans; [apply perm_skip, (IH (b :: d) H)|]. apply (Permutation_middle (b :: d) (quotient m (b :: d)) a).
Qed.
Lemma divides_nil m : divides [] m = true.
Proof. by induction m. Qed.
Lemma divides_of_nil d : divides d [] = true → d = [].
Proof. by destruct d. Qed.
Lemma divides_refl m : divides m m = true.
Proof. induction m as [|a m IH]; cbn; [done|]. by rewrite Nat.eqb_refl. Qed.
Lemma divides_length d m : divides d m = true → (length d <= length m)%nat.
Proof. intros H%divides_perm. rewrite H, length_app. lia. Qed.
Lemma divides_eq d m : divides d m = true → length d = length m → d = m.
Proof.
  revert d. induction m as [|a m IH]; intros [|b d] H Hl; cbn in *; try done.
  destruct (Nat.eqb_spec b a) as [->|Hb]; [f_equal; apply IH; [done|lia]|].
  apply divides_length in H. cbn in H. lia.
Qed.
Lemma sort_quotient d m : divides d m = true → StronglySorted Nat.le m → sort_mono (d ++ quotient m d) = m.
Proof.
  intros H%divides_perm Hs. apply (StronglySorted_unique Nat.le); [|done|].
  - apply StronglySorted_merge_sort; [intros ???; lia|intros ??; lia].
  - unfold sort_mono. by rewrite merge_sort_Permutation, <- H.
Qed.

(** ** The map of the dimensions *)
Definition key_lt (a b : Monomial * Z) : Prop := mlt a.1 b.1 = true.
Definition sorted_dims (g : Dims) : Prop := StronglySorted key_lt g.
(** [g'] refines [g]: every dimension is kept, with a divisor of its unit *)
Definition refines (g g' : Dims) : Prop := ∀ k v, (k, v) ∈ g → ∃ v', (k, v') ∈ g' ∧ (v' | v).
#[export] Instance refines_preorder : PreOrder refines.
Proof.
  split; [intros g k v H; exists v; split; [done|apply Z.divide_refl]|].
  intros g1 g2 g3 H1 H2 k v H. destruct (H1 _ _ H) as (v' & H' & Hd). destruct (H2 _ _ H') as (v'' & ? & ?).
  exists v''. split; [done|by etrans].
Qed.
Lemma update_keys k f g x : x ∈ update k f g → x.1 = k ∨ x ∈ g.
Proof.
  induction g as [|[k' v] g IH]; cbn.
  - intros ->%list_elem_of_singleton. by left.
  - case_bool_decide as E; [|destruct (mlt k k')].
    + intros [-> |H]%elem_of_cons; [by left|right; by right].
    + intros [-> |H]%elem_of_cons; [by left|by right].
    + intros [-> |H]%elem_of_cons; [right; by left|]. destruct (IH H); [by left|right; by right].
Qed.
Lemma update_sorted k f g : sorted_dims g → sorted_dims (update k f g).
Proof.
  unfold sorted_dims. induction 1 as [|[k' v] g Hs IH Hall]; cbn; [repeat constructor|].
  case_bool_decide as E; [subst; by constructor|]. destruct (mlt k k') eqn:Hlt.
  - constructor; [by constructor|]. constructor; [done|].
    eapply Forall_impl; [exact Hall|]. intros x. unfold key_lt; cbn. by apply mlt_trans.
  - constructor; [done|]. apply Forall_forall. intros x [Hx|Hx]%update_keys.
    + unfold key_lt; cbn. rewrite Hx. destruct (mlt_total k k') as [?|[?|?]]; congruence.
    + by eapply Forall_forall in Hall.
Qed.
Lemma update_gcd k c g : let g' := update k (λ v, gcd64 v c) g in
  refines g g' ∧ ∃ v, (k, v) ∈ g' ∧ (v | c).
Proof.
  cbn zeta. induction g as [|[k' v] g [IHr IHk]]; cbn.
  { split; [intros ? ? H; by apply not_elem_of_nil in H|]. exists (gcd64 0 c). split; [left|].
    rewrite gcd64_gcd. apply Z.gcd_divide_r. }
  case_bool_decide as E; [subst k'|destruct (mlt k k')].
  - split.
    + intros k1 v1 [[= -> ->]|H]%elem_of_cons.
      * exists (gcd64 v c). split; [left|]. rewrite gcd64_gcd. apply Z.gcd_divide_l.
      * exists v1. split; [by right|apply Z.divide_refl].
    + exists (gcd64 v c). split; [left|]. rewrite gcd64_gcd. apply Z.gcd_divide_r.
  - split.
    + intros k1 v1 H. exists v1. split; [by right|apply Z.divide_refl].
    + exists (gcd64 0 c). split; [left|]. rewrite gcd64_gcd. apply Z.gcd_divide_r.
  - split.
    + intros k1 v1 [[= -> ->]|H]%elem_of_cons; [exists v; split; [left|apply Z.divide_refl]|].
      destruct (IHr _ _ H) as (v' & ? & ?). exists v'. split; [by right|done].
    + destruct IHk as (v1 & ? & ?). exists v1. split; [by right|done].
Qed.
(** what the loops over the sites keep: the order, the units' divisors and where keys come from *)
Definition keys_from (P : Monomial → Prop) (g : Dims) : Prop := Forall (λ kv, P kv.1) g.
Lemma update_keys_from P k f g : P k → keys_from P g → keys_from P (update k f g).
Proof.
  intros Hk Hg. apply Forall_forall. intros x [-> |Hx]%update_keys; [done|]. by eapply Forall_forall in Hg.
Qed.

Section gcds.
Context (A : Arena) (d : nat) (sym : Z) (P : Monomial → Prop).
Context (HP0 : P []).
(** the monomials of a site's coordinate strides *)
Definition stride_term (m : SiteMap) (t : Term) : Prop := ∃ j, j ∈ coords_of d m ∧ t ∈ opt_terms A (coordStride_at m j).
Lemma fold_gcds ts g : sorted_dims g → keys_from P g → (∀ t, t ∈ ts → P t.1) →
  let g' := fold_left (λ g (t : Term), update t.1 (λ v, gcd64 v t.2) g) ts g in
  sorted_dims g' ∧ keys_from P g' ∧ refines g g' ∧ ∀ t, t ∈ ts → ∃ v, (t.1, v) ∈ g' ∧ (v | t.2).
Proof.
  cbn zeta. revert g. induction ts as [|t ts IH]; intros g Hs Hk Ht; cbn.
  { split_and!; [done|done|done|]. intros t H. by apply not_elem_of_nil in H. }
  destruct (update_gcd t.1 t.2 g) as [Hr (v & Hv & Hd)].
  destruct (IH (update t.1 (λ v, gcd64 v t.2) g)) as (Hs' & Hk' & Hr' & Ht').
  - by apply update_sorted.
  - apply update_keys_from; [apply Ht; left|done].
  - intros x Hx. apply Ht. by right.
  - split_and!; [done|done|by etrans|]. intros x [-> |Hx]%elem_of_cons; [|by apply Ht'].
    destruct (Hr' _ _ Hv) as (v' & ? & ?). exists v'. split; [done|by etrans].
Qed.
Lemma best_dim_key g m k : best_dim g m = Some k → k ∈ g.*1.
Proof.
  unfold best_dim. assert (∀ b, fold_left (better_dim m) g b = Some k → k ∈ g.*1 ∨ b = Some k) as H.
  { induction g as [|kv g IH]; intros b; cbn; [by right|]. intros [Hk|Hk]%IH; [left; by right|].
    unfold better_dim in Hk. destruct (_ && _); [|by right].
    destruct b as [b|]; [destruct (_ <? _)%nat|]; try (injection Hk as <-; left; left); by right. }
  intros [?|?]%H; done.
Qed.
Lemma base_gcds_spec m g : sorted_dims g → keys_from P g →
  let g' := base_gcds A sym m g in sorted_dims g' ∧ keys_from P g' ∧ refines g g'.
Proof.
  cbn zeta. unfold base_gcds. set (ts := opt_terms A (sm_base m)). clearbody ts. revert g.
  induction ts as [|t ts IH]; intros g Hs Hk; cbn.
  - split_and!; [by apply update_sorted|by apply update_keys_from|]. apply update_gcd.
  - destruct (isTensorAtom A sym t.1); [by apply IH|].
    set (k := default [] (best_dim g t.1)).
    destruct (IH (update k (λ v, gcd64 v t.2) g)) as (? & ? & ?).
    + by apply update_sorted.
    + apply update_keys_from; [|done]. unfold k. destruct (best_dim g t.1) as [k'|] eqn:E; [|done].
      apply best_dim_key, list_elem_of_fmap in E as (kv & -> & Hkv).
      exact (proj1 (Forall_forall _ _) Hk _ Hkv).
    + split_and!; [done|done|]. etrans; [apply (update_gcd k t.2)|done].
Qed.
Lemma dim_gcds_spec ms : (∀ m t, m ∈ ms → stride_term m t → P t.1) →
  let g := dim_gcds A d sym ms in
  sorted_dims g ∧ keys_from P g ∧ [] ∈ g.*1 ∧ ∀ m t, m ∈ ms → stride_term m t → ∃ v, (t.1, v) ∈ g ∧ (v | t.2).
Proof.
  intros HP. cbn zeta. unfold dim_gcds.
  assert (∀ l g, (∀ m, m ∈ l → m ∈ ms) → sorted_dims g → keys_from P g →
    let g' := fold_left (λ g m, stride_gcds A d m g) l g in
    sorted_dims g' ∧ keys_from P g' ∧ refines g g' ∧
    ∀ m t, m ∈ l → stride_term m t → ∃ v, (t.1, v) ∈ g' ∧ (v | t.2)) as Hst.
  { cbn zeta. induction l as [|m l IH]; intros g Hl Hs Hk; cbn.
    { split_and!; [done|done|done|]. intros m t H. by apply not_elem_of_nil in H. }
    destruct (fold_gcds (coords_of d m ≫= λ j, opt_terms A (coordStride_at m j)) g Hs Hk) as (Hs1 & Hk1 & Hr1 & Ht1).
    { intros t (j & Ht & Hj)%list_elem_of_bind. apply (HP m); [apply Hl; left|by exists j]. }
    destruct (IH (stride_gcds A d m g)) as (Hs2 & Hk2 & Hr2 & Ht2); [intros; apply Hl; by right|done|done|].
    split_and!; [done|done|by etrans|]. intros m' t [-> |Hm']%elem_of_cons Ht; [|by eapply Ht2].
    destruct Ht as (j & Hj & Ht). destruct (Ht1 t) as (v & Hv & Hd); [apply list_elem_of_bind; eauto|].
    destruct (Hr2 _ _ Hv) as (v' & ? & ?). exists v'. split; [done|by etrans]. }
  assert (∀ l g, sorted_dims g → keys_from P g →
    let g' := fold_left (λ g m, base_gcds A sym m g) l g in sorted_dims g' ∧ keys_from P g' ∧ refines g g') as Hba.
  { cbn zeta. induction l as [|m l IH]; intros g Hs Hk; cbn; [done|].
    destruct (base_gcds_spec m g Hs Hk) as (Hs1 & Hk1 & Hr1).
    destruct (IH (base_gcds A sym m g) Hs1 Hk1) as (? & ? & ?). split_and!; [done|done|by etrans]. }
  destruct (Hst ms [([], 0)]) as (Hs1 & Hk1 & Hr1 & Ht1); [done|repeat constructor|by constructor|].
  destruct (Hba ms _ Hs1 Hk1) as (Hs2 & Hk2 & Hr2). split_and!; [done|done| |].
  - destruct (Hr1 [] 0) as (v & Hv & _); [left|]. destruct (Hr2 _ _ Hv) as (v' & Hv' & _).
    apply list_elem_of_fmap. by exists ([], v').
  - intros m t Hm Ht. destruct (Ht1 m t Hm Ht) as (v & Hv & Hd). destruct (Hr2 _ _ Hv) as (v' & ? & ?).
    exists v'. split; [done|by etrans].
Qed.
End gcds.

(** ** The dimensions of a tensor *)
Lemma sorted_dims_nodup g : sorted_dims g → NoDup g.*1.
Proof.
  induction 1 as [|x g Hs IH Hall]; cbn; constructor; [|done].
  intros (y & Hy & Hin)%list_elem_of_fmap. pose proof (proj1 (Forall_forall _ _) Hall _ Hin) as H.
  unfold key_lt in H. rewrite Hy, mlt_irrefl in H. done.
Qed.
Lemma nodup_key (g : Dims) k v v' : NoDup g.*1 → (k, v) ∈ g → (k, v') ∈ g → v = v'.
Proof.
  induction g as [|x g IH]; cbn; [intros _ H; by apply not_elem_of_nil in H|].
  intros [Hni Hnd]%NoDup_cons [H1|H1]%elem_of_cons [H2|H2]%elem_of_cons.
  - congruence.
  - destruct Hni. apply list_elem_of_fmap. exists (k, v'). by subst.
  - destruct Hni. apply list_elem_of_fmap. exists (k, v). by subst.
  - by apply IH.
Qed.
Lemma lookup_dim_spec g k v : NoDup g.*1 → (k, v) ∈ g → lookup_dim g k = v.
Proof.
  intros Hnd Hin. unfold lookup_dim. destruct (find _ g) as [[k' v']|] eqn:E.
  - apply find_some in E as [Hin' Hk%bool_decide_eq_true]. cbn in *. subst. apply list_elem_of_In in Hin'.
    by eapply nodup_key.
  - apply list_elem_of_In in Hin. pose proof (find_none _ _ E _ Hin) as H. cbn in H. by rewrite bool_decide_true in H.
Qed.
Lemma contiguous_divides elem g0 : ((contiguous elem g0).1 | g0).
Proof.
  unfold contiguous; cbn. destruct (Z.eqb_spec elem 0); cbn; [apply Z.divide_refl|].
  destruct (Z.eqb_spec (Z.rem g0 elem) 0); cbn; [by apply Z.rem_divide|apply Z.divide_refl].
Qed.

(** the dimensions as pairs of a key and a nonzero unit *)
Record units_ok (ds : Dims) : Prop := {
  uo_nodup : NoDup ds.*1;
  uo_contiguous : [] ∈ ds.*1;
  uo_nonzero : Forall (λ kv, kv.2 ≠ 0) ds }.
Lemma dim_units_spec contig g P : sorted_dims g → keys_from P g → [] ∈ g.*1 → (contig | lookup_dim g []) →
  let ds := dim_units contig g in
  units_ok ds ∧ keys_from P ds ∧ ∀ k v c, (k, v) ∈ g → (v | c) → ∃ u, (k, u) ∈ ds ∧ (u | c).
Proof.
  intros Hs Hk H0 Hc. cbn zeta. unfold dim_units. set (F := λ kv : Monomial * Z, _).
  assert (merge_sort dim_le g ≡ₚ g) as Hp by apply merge_sort_Permutation.
  assert (∀ l, (F <$> l).*1 = l.*1) as Hfst by (intros l; induction l as [|[] l IH]; cbn; congruence).
  split_and!; [split| |].
  - rewrite Hfst, Hp. by apply sorted_dims_nodup.
  - rewrite Hfst, Hp. done.
  - apply Forall_fmap, Forall_forall. intros [k v] _. cbn. destruct (Z.eqb_spec (if bool_decide (k = []) then contig else v) 0); cbn; lia.
  - apply Forall_fmap. unfold keys_from in Hk. rewrite <- Hp in Hk. eapply Forall_impl; [exact Hk|]. done.
  - intros k v c Hkv Hd. exists (F (k, v)).2. split.
    + rewrite Hp. change (k, (F (k, v)).2) with (F (k, v)). by apply list_elem_of_fmap_2.
    + unfold F; cbn. case_bool_decide as E.
      * subst. rewrite (lookup_dim_spec _ _ _ (sorted_dims_nodup _ Hs) Hkv) in Hc.
        destruct (contig =? 0); [apply Z.divide_1_l|by etrans].
      * destruct (v =? 0); [apply Z.divide_1_l|done].
Qed.

Definition dim_ok (s : Arena) (dm : Dim) (kv : Monomial * Z) : Prop :=
  mono dm = kv.1 ∧ ∃ e, unitBytes dm = Some e ∧ is_poly s e i64 [kv].
Definition dims_ok (s : Arena) (dims : list Dim) (ds : Dims) : Prop := Forall2 (dim_ok s) dims ds.
Lemma dim_ok_ext s s' dm kv : ext s s' → dim_ok s dm kv → dim_ok s' dm kv.
Proof. intros Hx (? & e & ? & He). split; [done|]. exists e. split; [done|]. by eapply ext_node. Qed.
Lemma dims_ok_ext s s' dims ds : ext s s' → dims_ok s dims ds → dims_ok s' dims ds.
Proof. intros Hx H. eapply Forall2_impl; [exact H|]. intros ??. by apply dim_ok_ext. Qed.

Lemma normal_single m c : c ≠ 0 → normal [(m, c)].
Proof. intros H. split; [repeat constructor|]. by repeat constructor. Qed.
Lemma mk_dim_spec s x : wf s → mono_ok s (length (nodes s)) x.2.1 → x.2.2 ≠ 0 →
  spec (mk_dim x) s (λ dm s', dim_ok s' dm x.2).
Proof.
  intros Hwf Hm Hu. destruct x as [i [m u]]; cbn [fst snd] in *. unfold mk_dim; cbn [fst snd].
  eapply spec_bind; [apply mkPoly_spec; [done|]; constructor; [exact Hm|constructor]|].
  cbn beta. intros e s1 Hwf1 _ [He _]. apply spec_ret; [done|]. split; [done|]. exists e. split; [done|].
  by rewrite normalise_id in He by by apply normal_single.
Qed.
(** what the dimensions guarantee of a site's strides *)
Definition strides_covered (A : Arena) (d : nat) (ms : list SiteMap) (ds : Dims) : Prop :=
  ∀ m t, m ∈ ms → stride_term A d m t → ∃ u, (t.1, u) ∈ ds ∧ (u | t.2).
Lemma tensor_dims_spec d T ms s : wf s →
  (∀ m t, m ∈ ms → stride_term s d m t → mono_ok s (length (nodes s)) t.1) →
  spec (tensor_dims d T ms) s (λ T' s', t_sym T' = t_sym T ∧ ∃ ds, dims_ok s' (dims T') ds ∧ units_ok ds ∧
    strides_covered s d ms ds).
Proof.
  intros Hwf Hms. unfold tensor_dims. apply gets_spec. unfold id.
  destruct (dim_gcds_spec s d (t_sym T) (mono_ok s (length (nodes s)))) with (ms := ms) as (Hs & Hk & H0 & Hc);
    [by split; constructor|done|].
  set (g := dim_gcds s d (t_sym T) ms) in *.
  destruct (contiguous (elemBytes T) (lookup_dim g [])) as [contig elem] eqn:Ec.
  assert (contig | lookup_dim g []) as Hd by (replace contig with (contiguous (elemBytes T) (lookup_dim g [])).1 by (by rewrite Ec); apply contiguous_divides).
  destruct (dim_units_spec contig g _ Hs Hk H0 Hd) as (Huo & Hku & Hcov). set (ds := dim_units contig g) in *.
  eapply spec_bind.
  { apply (spec_mmap (λ x dm s', dim_ok s' dm x.2)); [done|intros x dm s1 s2; apply dim_ok_ext|].
    intros x s' Hx Hwf' Hx'. destruct x as [i kv]. apply elem_of_imap_pair, list_elem_of_lookup_2 in Hx.
    apply mk_dim_spec; [done| |].
    - eapply mono_ok_ext; [exact Hx'| |exact (proj1 (Forall_forall _ _) Hku _ Hx)].
      destruct Hx' as [Hp _ _ _]. by apply prefix_length in Hp.
    - exact (proj1 (Forall_forall _ _) (uo_nonzero _ Huo) _ Hx). }
  cbn beta. intros dms s1 Hwf1 Hx1 Hdm. apply spec_ret; [done|]. split; [done|]. exists ds. split_and!; [|done|].
  - cbn. unfold dims_ok. rewrite <- (imap_pair_snd ds). apply Forall2_fmap_r.
    apply Forall2_flip. eapply Forall2_impl; [exact Hdm|]. done.
  - intros m t Hm Ht. destruct (Hc m t Hm Ht) as (v & Hv & Hvd). by apply (Hcov _ v).
Qed.

(** ** The dimension of a monomial *)
Section dimOf.
Context (s : Arena) (dims : list Dim) (ds : Dims) (Hok : dims_ok s dims ds) (Hu : units_ok ds).
Lemma dims_lookup k kv : ds !! k = Some kv → ∃ dm, dims !! k = Some dm ∧ dim_ok s dm kv.
Proof. intros H. destruct (Forall2_lookup_r _ _ _ _ _ Hok H) as (dm & ? & ?). eauto. Qed.
(** the best so far divides, and no earlier divisor is longer *)
Definition best_ok (m : Monomial) (l : list (nat * Dim)) (best : option nat) : Prop :=
  match best with
  | Some b => ∃ dm, dims !! b = Some dm ∧ mono dm ≠ [] ∧ divides (mono dm) m = true ∧
      ∀ x, x ∈ l → mono x.2 ≠ [] → divides (mono x.2) m = true → (length (mono x.2) <= length (mono dm))%nat
  | None => ∀ x, x ∈ l → mono x.2 ≠ [] → divides (mono x.2) m = false
  end.
Lemma longer_dim_ok m l best x : dims !! x.1 = Some x.2 → best_ok m l best → best_ok m (l ++ [x]) (longer_dim dims m best x).
Proof.
  intros Hx Hb. unfold longer_dim. destruct (bool_decide (mono x.2 ≠ []) && divides (mono x.2) m) eqn:E.
  - apply andb_true_iff in E as [Hne%bool_decide_eq_true Hd].
    assert ((∀ y, y ∈ l → mono y.2 ≠ [] → divides (mono y.2) m = true → (length (mono y.2) <= length (mono x.2))%nat) →
      best_ok m (l ++ [x]) (Some x.1)) as Hnew.
    { intros Hmax. exists x.2. split_and!; [done..|]. intros y [Hy|Hy]%elem_of_app Hyne Hyd; [by apply Hmax|].
      by apply list_elem_of_singleton in Hy as ->. }
    destruct best as [b|].
    + destruct Hb as (dm & Hdm & Hbne & Hbd & Hmax). cbn [mbind option_bind]. rewrite Hdm.
      destruct (Nat.ltb_spec (length (mono dm)) (length (mono x.2))) as [Hl|Hl].
      * apply Hnew. intros y Hy Hyne Hyd. pose proof (Hmax y Hy Hyne Hyd). lia.
      * exists dm. split_and!; [done..|]. intros y [Hy|Hy]%elem_of_app Hyne Hyd; [by apply Hmax|].
        by apply list_elem_of_singleton in Hy as ->.
    + apply Hnew. intros y Hy Hyne Hyd. by rewrite (Hb y Hy Hyne) in Hyd.
  - assert (mono x.2 ≠ [] → divides (mono x.2) m = false) as Hx'.
    { intros Hne. by rewrite bool_decide_true in E. }
    destruct best as [b|].
    + destruct Hb as (dm & Hdm & Hbne & Hbd & Hmax). exists dm. split_and!; [done..|].
      intros y [Hy|Hy]%elem_of_app Hyne Hyd; [by apply Hmax|].
      apply list_elem_of_singleton in Hy as ->. by rewrite Hx' in Hyd.
    + intros y [Hy|Hy]%elem_of_app Hyne; [by apply Hb|]. apply list_elem_of_singleton in Hy as ->. by apply Hx'.
Qed.
Lemma best_ok_all m : best_ok m (imap pair dims) (fold_left (longer_dim dims m) (imap pair dims) None).
Proof.
  assert (∀ (l2 l1 : list (nat * Dim)) b, imap pair dims = l1 ++ l2 → best_ok m l1 b → best_ok m (l1 ++ l2) (fold_left (longer_dim dims m) l2 b)) as H.
  { induction l2 as [|x l2 IH]; intros l1 b E Hb; cbn; [by rewrite app_nil_r|].
    rewrite cons_middle, (assoc app). apply IH; [by rewrite <- (assoc app)|]. apply longer_dim_ok; [|done].
    destruct x as [i dm]. apply elem_of_imap_pair. rewrite E. apply elem_of_app. right. left. }
  apply (H _ [] None); [done|]. intros x Hx. by apply not_elem_of_nil in Hx.
Qed.
Lemma dimOf_spec m : ∃ k kv, dimOf dims m = Some k ∧ ds !! k = Some kv ∧ divides kv.1 m = true ∧
  (m ∈ ds.*1 → kv.1 = m).
Proof.
  pose proof (best_ok_all m) as Hb. unfold dimOf. destruct (fold_left (longer_dim dims m) _ None) as [b|].
  - destruct Hb as (dm & Hdm & Hne & Hd & Hmax). destruct (Forall2_lookup_l _ _ _ _ _ Hok Hdm) as (kv & Hkv & Hm & _).
    rewrite Hm in *. exists b, kv. split_and!; [done..|]. intros (kv' & -> & [k' Hk']%list_elem_of_lookup)%list_elem_of_fmap.
    destruct (dims_lookup _ _ Hk') as (dm' & Hdm' & Hm' & _).
    apply divides_eq; [done|]. apply divides_length in Hd as Hl.
    assert (kv'.1 ≠ []) as Hne' by (intros E; rewrite E in Hd; by apply divides_of_nil in Hd).
    pose proof (Hmax (k', dm')) as H'. cbn in H'. rewrite Hm' in H'.
    specialize (H' ltac:(by apply elem_of_imap_pair) Hne' (divides_refl _)). lia.
  - assert (∀ l2 b, (∀ x, x ∈ l2 → dims !! (fst x) = Some (snd x)) →
      (match b with Some k => mono <$> dims !! k = Some [] | None => ∃ x, x ∈ l2 ∧ mono (snd x) = [] end) →
      ∃ k, fold_left (λ best x, if bool_decide (mono (snd x) = []) then Some (fst x) else best) l2 b = Some k ∧
        mono <$> dims !! k = Some []) as Hlast.
    { induction l2 as [|x l2 IH]; intros b Hl2 Hb2; cbn.
      - destruct b as [k|]; [eauto|]. destruct Hb2 as (x & Hx & _). by apply not_elem_of_nil in Hx.
      - apply IH; [intros; apply Hl2; by right|]. case_bool_decide as E.
        + rewrite (Hl2 x) by left. cbn. by rewrite E.
        + destruct b as [k|]; [done|]. destruct Hb2 as (y & [->|Hy]%elem_of_cons & Hm); [done|]. eauto. }
    destruct (proj1 (list_elem_of_fmap _ _ _) (uo_contiguous _ Hu)) as (kv & Hkv0 & [k0 Hk0]%list_elem_of_lookup).
    destruct (dims_lookup _ _ Hk0) as (dm0 & Hdm0 & Hm0 & _).
    destruct (Hlast (imap pair dims) None) as (k & Hk & Hmk).
    + intros [i x] Hx. by apply elem_of_imap_pair.
    + exists (k0, dm0). split; [by apply elem_of_imap_pair|]. cbn. by rewrite Hm0.
    + apply fmap_Some in Hmk as (dm & Hdm & Hmd).
      destruct (Forall2_lookup_l _ _ _ _ _ Hok Hdm) as (kv' & Hkv' & Hm & _).
      exists k, kv'. split_and!; [done..| |].
      * rewrite <- Hm, <- Hmd. apply divides_nil.
      * intros Hin. rewrite <- Hm, <- Hmd. destruct (decide (m = [])) as [->|Hne]; [done|].
        apply list_elem_of_fmap in Hin as (kv1 & -> & [k1 Hk1]%list_elem_of_lookup).
        destruct (dims_lookup _ _ Hk1) as (dm1 & Hdm1 & Hm1 & _).
        specialize (Hb (k1, dm1) ltac:(by apply elem_of_imap_pair)). cbn in Hb. rewrite Hm1 in Hb.
        specialize (Hb Hne). by rewrite divides_refl in Hb.
Qed.
End dimOf.
Lemma unitOf_spec s dims ds k kv : wf s → dims_ok s dims ds → units_ok ds → ds !! k = Some kv →
  spec (unitOf dims k) s (λ u _, u = kv.2).
Proof.
  intros Hwf Hok Hu Hk. destruct (dims_lookup _ _ _ Hok _ _ Hk) as (dm & Hdm & Hm & e & He & Hp).
  unfold unitOf. rewrite Hdm. cbn. rewrite He. eapply spec_terms_of; [exact Hp|]. destruct kv as [m u]. cbn.
  eapply spec_bind; [apply polyConst_spec; done|]. cbn beta. intros p s1 Hwf1 _ [Hpp _].
  assert (u ≠ 0) as Hu0 by (pose proof (proj1 (Forall_lookup _ _) (uo_nonzero _ Hu) _ _ Hk); done).
  rewrite normalise_id in Hpp by by apply normal_single.
  exists u, s1. split_and!; [|done|done|done]. unfold gets, constInt. unfold is_poly in Hpp. by rewrite Hpp.
Qed.

(** ** Sums over lists *)
Definition fsum {A} (f : A → Z) (l : list A) : Z := foldr (λ x n, f x + n) 0 l.
Lemma fsum_cons {A} (f : A → Z) x l : fsum f (x :: l) = f x + fsum f l.
Proof. done. Qed.
Lemma fsum_app {A} (f : A → Z) l l' : fsum f (l ++ l') = fsum f l + fsum f l'.
Proof. unfold fsum. induction l as [|x l IH]; cbn in *; lia. Qed.
Lemma fsum_ext {A} (f g : A → Z) l : (∀ x, x ∈ l → f x = g x) → fsum f l = fsum g l.
Proof.
  unfold fsum. induction l as [|x l IH]; intros H; cbn; [done|]. rewrite IH, (H x); [done|left|].
  intros y Hy. apply H. by right.
Qed.
Lemma fsum_add {A} (f g : A → Z) l : fsum (λ x, f x + g x) l = fsum f l + fsum g l.
Proof. unfold fsum. induction l as [|x l IH]; cbn in *; lia. Qed.
Lemma fsum_scale {A} (f : A → Z) c l : fsum (λ x, c * f x) l = c * fsum f l.
Proof. unfold fsum. induction l as [|x l IH]; cbn in *; lia. Qed.
Lemma fsum_alter {A} (f : A → Z) g k l x : l !! k = Some x → fsum f (alter g k l) = fsum f l + (f (g x) - f x).
Proof.
  unfold fsum. revert k. induction l as [|y l IH]; intros [|k]; cbn; try done.
  - intros [= ->]. lia.
  - intros H. rewrite (IH _ H). lia.
Qed.
Lemma fsum_bind {A B} (f : B → Z) (g : A → list B) l : fsum f (l ≫= g) = fsum (λ x, fsum f (g x)) l.
Proof. induction l as [|x l IH]; [done|]. by rewrite bind_cons, fsum_app, IH. Qed.
Lemma fsum_fmap {A B} (f : B → Z) (g : A → B) l : fsum f (g <$> l) = fsum (λ x, f (g x)) l.
Proof. induction l as [|x l IH]; [done|]. by rewrite fmap_cons, !fsum_cons, IH. Qed.
Lemma fsum_zero {A} (f : A → Z) l : (∀ x, x ∈ l → f x = 0) → fsum f l = 0.
Proof.
  induction l as [|x l IH]; intros H; [done|]. rewrite fsum_cons, (H x), IH; [done| |left].
  intros y Hy. apply H. by right.
Qed.
Lemma zip_alter {A B} (l : list A) (l' : list B) g k :
  zip l (alter g k l') = alter (λ p, (p.1, g p.2)) k (zip l l').
Proof.
  revert l' k. induction l as [|x l IH]; intros [|y l'] [|k]; cbn; try done. f_equal. apply IH.
Qed.
Lemma sum_fsum d (f : nat → Z) {A} (g : nat → A → Z) l :
  sum d (λ j, f j * fsum (g j) l) = fsum (λ x, sum d (λ j, f j * g j x)) l.
Proof.
  unfold fsum. induction l as [|x l IH]; cbn.
  - apply sum_zero. lia.
  - rewrite <- IH, <- sum_add. apply sum_ext. intros. lia.
Qed.

(** ** Products with a monomial *)
(** a sum over the terms that only depends on the monomials *)
Definition lin (F : Monomial → Z) (ts : list Term) : Z := fsum (λ t, t.2 * F t.1) ts.
Lemma lin_merge F ts : lin F (merge_terms ts) = lin F ts.
Proof.
  unfold lin, fsum. induction ts as [|[m c] ts IH]; [done|]. cbn in *. rewrite <- IH. 
  destruct (merge_terms ts) as [|[m' c'] out]; [done|]. case_bool_decide as E; subst; cbn; lia.
Qed.
Lemma lin_normalise F ts : lin F (normalise ts) = lin F ts.
Proof.
  unfold normalise. destruct (canonical ts); [done|]. transitivity (lin F (merge_terms (merge_sort mle ts))).
  - unfold drop_zeros, lin, fsum. induction (merge_terms _) as [|[m c] l IH]; [done|]. rewrite filter_cons. cbn in *.
    case_decide; cbn; lia.
  - rewrite lin_merge. pose proof (merge_sort_Permutation mle ts) as Hp. unfold lin, fsum. 
    induction Hp; cbn in *; lia.
Qed.
Lemma lin_coef F xs ys : (∀ m, Arena.coef xs m = Arena.coef ys m) → lin F xs = lin F ys.
Proof.
  intros H. rewrite <- (lin_normalise F xs), <- (lin_normalise F ys). f_equal.
  apply normal_ext; [apply normalise_normal..|]. intros m. by rewrite !coef_normalise.
Qed.
Lemma coef_mul_single k u ys mo :
  Arena.coef (mul_terms [(k, u)] ys) mo = lin (λ n, if bool_decide (sort_mono (k ++ n) = mo) then u else 0) ys.
Proof.
  unfold mul_terms, lin, fsum, Arena.coef. rewrite bind_cons. cbn [fst snd mbind list_bind]. rewrite app_nil_r.
  induction ys as [|[n c] ys IH]; [done|]. cbn in *. rewrite IH. case_bool_decide; lia.
Qed.
(** the coefficients of a dimension's unit times an expression *)
Definition ucoef (s : Arena) (kv : Monomial * Z) (o : EP) (mo : Monomial) : Z := Arena.coef (mul_terms [kv] (terms s o)) mo.
Lemma ucoef_lin s kv o mo :
  ucoef s kv o mo = lin (λ n, if bool_decide (sort_mono (kv.1 ++ n) = mo) then kv.2 else 0) (terms s o).
Proof. destruct kv. apply coef_mul_single. Qed.
Lemma ucoef_add s s' kv o o' ts mo : (∀ m, pcoef s' o' m = pcoef s o m + Arena.coef ts m) →
  ucoef s' kv o' mo = ucoef s kv o mo + lin (λ n, if bool_decide (sort_mono (kv.1 ++ n) = mo) then kv.2 else 0) ts.
Proof.
  intros H. rewrite !ucoef_lin. rewrite (lin_coef _ (terms s' o') (terms s o ++ ts)).
  - unfold lin. apply fsum_app.
  - intros m. rewrite coef_app. apply H.
Qed.
Lemma ucoef_ext s s' kv o mo : ext s s' → ispoly s o → ucoef s' kv o mo = ucoef s kv o mo.
Proof. intros Hx Ho. unfold ucoef. by rewrite (terms_ext _ _ _ Hx Ho). Qed.

(** ** The index maps *)
Section index_maps.
Context (d : nat) (dims : list Dim) (ds : Dims) (Hu : units_ok ds).
Definition im_ok (s : Arena) (im : IndexMap) : Prop :=
  length (coef im) = d ∧ ∃ o, offset im = Some o ∧ ispoly s o.
Definition ims_ok (s : Arena) (ims : list IndexMap) : Prop := length ims = length ds ∧ Forall (im_ok s) ims.
Lemma ims_ok_ext s s' ims : ext s s' → ims_ok s ims → ims_ok s' ims.
Proof.
  intros Hx [Hl Hi]. split; [done|]. eapply Forall_impl; [exact Hi|]. intros im (? & o & ? & ?).
  split; [done|]. exists o. split; [done|by eapply ispoly_ext].
Qed.
(** the strides and the offsets the index maps give *)
Definition stride_total (ims : list IndexMap) (j : nat) (mo : Monomial) : Z :=
  fsum (λ x : (Monomial * Z) * IndexMap, if bool_decide (x.1.1 = mo) then x.1.2 * nth j (coef x.2) 0 else 0) (zip ds ims).
Definition offset_total (s : Arena) (ims : list IndexMap) (mo : Monomial) : Z :=
  fsum (λ x : (Monomial * Z) * IndexMap, from_option (λ o, ucoef s x.1 o mo) 0 (offset x.2)) (zip ds ims).
Lemma offset_total_ext s s' ims mo : ext s s' → ims_ok s ims → offset_total s' ims mo = offset_total s ims mo.
Proof.
  intros Hx [_ Hi]. apply fsum_ext. intros [kv im] Hin. cbn.
  apply elem_of_zip_r in Hin. destruct (proj1 (Forall_forall _ _) Hi _ Hin) as (_ & o & -> & Ho). cbn.
  by apply ucoef_ext.
Qed.
Lemma zip_lookup (ims : list IndexMap) k kv im : ds !! k = Some kv → ims !! k = Some im → zip ds ims !! k = Some (kv, im).
Proof. intros H1 H2. apply lookup_zip_with_Some. by exists kv, im. Qed.
Lemma ims_lookup s ims k kv : ims_ok s ims → ds !! k = Some kv → ∃ im, ims !! k = Some im ∧ im_ok s im.
Proof.
  intros [Hl Hi] Hk. apply lookup_lt_Some in Hk. destruct (lookup_lt_is_Some_2 ims k) as [im Him]; [lia|].
  exists im. split; [done|]. exact (proj1 (Forall_lookup _ _) Hi _ _ Him).
Qed.
Lemma nth_alter_add v j (l : list Z) j' : (j < length l)%nat →
  nth j' (alter (Z.add v) j l) 0 = nth j' l 0 + (if bool_decide (j' = j) then v else 0).
Proof.
  intros Hj. rewrite !nth_lookup. case_bool_decide as E; [subst|].
  - rewrite list_lookup_alter_eq. destruct (lookup_lt_is_Some_2 l j Hj) as [x ->]. cbn. lia.
  - rewrite list_lookup_alter_ne by done. lia.
Qed.
Lemma stride_step_spec s ims j m c : wf s → dims_ok s dims ds → ims_ok s ims → (j < d)%nat →
  (∃ u, (m, u) ∈ ds ∧ (u | c)) →
  spec (stride_step dims ims (j, (m, c))) s (λ ims' s', ims_ok s' ims' ∧ offset <$> ims' = offset <$> ims ∧
    ∀ j' mo, stride_total ims' j' mo = stride_total ims j' mo + (if bool_decide (j' = j ∧ mo = m) then c else 0)).
Proof.
  intros Hwf Hok Hi Hj (u & Hin & Hd). unfold stride_step.
  destruct (dimOf_spec s dims ds Hok Hu m) as (k & kv & -> & Hk & _ & Hkey).
  assert (kv.1 = m) as Hkm by (apply Hkey; apply list_elem_of_fmap; by exists (m, u)).
  destruct kv as [m' u']; cbn in Hkm; subst m'.
  assert (u' = u) as -> by (eapply nodup_key; [apply (uo_nodup _ Hu)|by eapply list_elem_of_lookup_2|done]).
  eapply spec_bind; [by eapply unitOf_spec|]. cbn. intros ? s1 Hwf1 Hx1 ->.
  destruct (dims_lookup _ _ _ Hok _ _ Hk) as (dm & Hdm & Hmd & _). cbn in Hmd.
  assert (u ≠ 0) as Hu0 by (exact (proj1 (Forall_lookup _ _) (uo_nonzero _ Hu) _ _ Hk)).
  assert (Z.rem c u = 0) as -> by (by apply Z.rem_divide). rewrite Hdm. cbn. rewrite Hmd, bool_decide_true by done. cbn.
  pose proof (ims_ok_ext _ _ _ Hx1 Hi) as Hi1.
  destruct (ims_lookup _ _ _ _ Hi1 Hk) as (im & Him & Hcl & o & Ho & Hpo).
  apply spec_ret; [done|]. destruct Hi1 as [Hl Hf]. split_and!; [split| |].
  - by rewrite length_alter.
  - apply Forall_alter; [done|]. intros im' Him' (? & ?). split; [cbn; by rewrite length_alter|done].
  - apply list_eq. intros i. rewrite !list_lookup_fmap. destruct (decide (i = k)) as [->|Hne].
    + rewrite list_lookup_alter_eq, Him. done.
    + by rewrite list_lookup_alter_ne.
  - intros j' mo. unfold stride_total. rewrite zip_alter, (fsum_alter _ _ _ _ _ (zip_lookup _ _ _ _ Hk Him)).
    f_equal. cbn [fst snd]. rewrite (bool_decide_ext (m = mo) (mo = m)) by done. cbn [coef bump_coef].
    rewrite nth_alter_add by lia. destruct (decide (mo = m)) as [->|Hne].
    + rewrite !bool_decide_true by done. rewrite (bool_decide_ext (j' = j ∧ m = m) (j' = j)) by tauto.
      case_bool_decide; [|lia]. pose proof (Z.quot_rem' c u). apply Z.rem_divide in Hd; [|done]. lia.
    + rewrite !bool_decide_false by tauto. lia.
Qed.

Lemma stride_fold_spec l ims s : wf s → dims_ok s dims ds → ims_ok s ims →
  (∀ j t, (j, t) ∈ l → (j < d)%nat ∧ ∃ u, (t.1, u) ∈ ds ∧ (u | t.2)) →
  spec (mfold (stride_step dims) l ims) s (λ ims' s', ims_ok s' ims' ∧ offset <$> ims' = offset <$> ims ∧
    ∀ j mo, stride_total ims' j mo = stride_total ims j mo +
      fsum (λ x : nat * Term, if bool_decide (j = x.1 ∧ mo = x.2.1) then x.2.2 else 0) l).
Proof.
  revert ims s. induction l as [|[j [m c]] l IH]; intros ims s Hwf Hok Hi Hl; cbn [mfold].
  { apply spec_ret; [done|]. split_and!; [done|done|]. intros. cbn. lia. }
  destruct (Hl j (m, c)) as [Hj Hc]; [left|].
  eapply spec_bind; [by apply stride_step_spec|]. cbn beta. intros ims1 s1 Hwf1 Hx1 (Hi1 & Ho1 & Ht1).
  eapply spec_mono; [apply IH; [done|by eapply dims_ok_ext|done|intros; apply Hl; by right]|].
  cbn beta. intros ims2 s2 _ _ (Hi2 & Ho2 & Ht2). split_and!; [done|congruence|].
  intros j' mo. rewrite Ht2, Ht1, fsum_cons. cbn [fst snd]. lia.
Qed.

End index_maps.
Lemma quotient_sublist m k : quotient m k `sublist_of` m.
Proof.
  revert k. induction m as [|a m IH]; intros [|b k]; cbn; [constructor|constructor|constructor; apply (IH [])|].
  destruct (b =? a)%nat; constructor; apply IH.
Qed.
Lemma sorted_sublist (l l' : Monomial) : l `sublist_of` l' → StronglySorted Nat.le l' → StronglySorted Nat.le l.
Proof.
  induction 1 as [|x l l' Hl IH|x l l' Hl IH]; intros Hs; [done| |].
  - apply StronglySorted_inv in Hs as [Hs Hall]. constructor; [by apply IH|].
    apply Forall_forall. intros y Hy. apply (proj1 (Forall_forall _ _) Hall). by eapply elem_of_sublist.
  - apply StronglySorted_inv in Hs as [Hs _]. by apply IH.
Qed.
Lemma mono_ok_quotient s e m k : mono_ok s e m → mono_ok s e (quotient m k).
Proof.
  intros [Ha Hs]. split; [|by eapply sorted_sublist, Hs; apply quotient_sublist].
  apply Forall_forall. intros a Hin. apply (proj1 (Forall_forall _ _) Ha). eauto using elem_of_sublist, quotient_sublist.
Qed.
Lemma mono_ok_grow s s' m : ext s s' → mono_ok s (length (nodes s)) m → mono_ok s' (length (nodes s')) m.
Proof. intros Hx. apply mono_ok_ext; [done|]. destruct Hx as [Hp _ _ _]. by apply prefix_length in Hp. Qed.

Section base.
Context (d : nat) (dims : list Dim) (ds : Dims) (Hu : units_ok ds).
(** a term that no dimension divides evenly goes to the leftover *)
Lemma leftover_spec s (l : option EP) t : wf s → opoly s l → mono_ok s (length (nodes s)) t.1 →
  spec (do term <- mkPoly i64 [t]; match l with Some l => add l term | None => ret term end) s (λ e s',
    ispoly s' e ∧ ∀ mo, pcoef s' e mo = ocoef s l mo + (if bool_decide (t.1 = mo) then t.2 else 0)).
Proof.
  intros Hwf Hl Hm. eapply spec_bind; [apply mkPoly_coef; [done|]; constructor; [exact Hm|constructor]|].
  cbn beta. intros e s1 Hwf1 Hx1 [He Hc].
  assert (∀ mo, pcoef s1 e mo = (if bool_decide (t.1 = mo) then t.2 else 0)) as Hc'.
  { intros mo. rewrite Hc. unfold Arena.coef; cbn. lia. }
  destruct l as [l|].
  - eapply spec_mono; [apply add_coef; [done| |done]; by eapply ispoly_ext|].
    cbn beta. intros r s2 _ _ [Hr Hrc]. split; [done|]. intros mo. cbn.
    by rewrite Hrc, Hc', (pcoef_ext s s1).
  - apply spec_ret; [done|]. split; [done|]. intros mo. by rewrite Hc'.
Qed.
Lemma base_step_spec sym s ims l t : wf s → dims_ok s dims ds → ims_ok d ds s ims → opoly s l →
  mono_ok s (length (nodes s)) t.1 →
  spec (base_step dims sym (ims, l) t) s (λ r s', ims_ok d ds s' r.1 ∧ opoly s' r.2 ∧ coef <$> r.1 = coef <$> ims ∧
    ∀ mo, offset_total ds s' r.1 mo + ocoef s' r.2 mo = offset_total ds s ims mo + ocoef s l mo +
      (if isTensorAtom s sym t.1 then 0 else if bool_decide (t.1 = mo) then t.2 else 0)).
Proof.
  intros Hwf Hok Hi Hl Hm. unfold base_step. apply gets_spec. unfold id. destruct (isTensorAtom s sym t.1).
  { apply spec_ret; [done|]. split_and!; [done|done|done|]. intros. cbn [fst snd]. lia. }
  destruct (dimOf_spec s dims ds Hok Hu t.1) as (k & [m u] & -> & Hk & Hdiv & _). cbn [fst] in Hdiv. cbn zeta.
  eapply spec_bind; [by eapply unitOf_spec|]. cbn [fst snd]. intros ? s1 Hwf1 Hx1 ->.
  destruct (dims_lookup _ _ _ Hok _ _ Hk) as (dm & Hdm & Hmd & _). cbn in Hmd.
  assert (u ≠ 0) as Hu0 by (exact (proj1 (Forall_lookup _ _) (uo_nonzero _ Hu) _ _ Hk)).
  pose proof (ims_ok_ext _ _ _ _ _ Hx1 Hi) as Hi1. pose proof (opoly_ext _ _ _ Hx1 Hl) as Hl1.
  pose proof (mono_ok_grow _ _ _ Hx1 Hm) as Hm1.
  destruct (Z.eqb_spec (Z.rem t.2 u) 0) as [Hr|Hr].
  - assert (dim_mono dims k = m) as -> by (unfold dim_mono; by rewrite Hdm).
    eapply spec_bind; [apply mkPoly_coef; [done|]; constructor; [by apply mono_ok_quotient|constructor]|].
    cbn beta. intros q s2 Hwf2 Hx2 [Hq Hqc].
    pose proof (ims_ok_ext _ _ _ _ _ Hx2 Hi1) as Hi2.
    destruct (ims_lookup _ _ _ _ _ _ Hi2 Hk) as (im & Him & Hcl & o & Ho & Hpo). rewrite Him. cbn [mbind option_bind]. rewrite Ho.
    eapply spec_bind; [by apply add_coef|]. cbn beta. intros e s3 Hwf3 Hx3 [He Hec].
    apply spec_ret; [done|]. cbn [fst snd]. pose proof (ims_ok_ext _ _ _ _ _ Hx3 Hi2) as [Hl3 Hf3].
    split_and!; [split| | |].
    + by rewrite length_alter.
    + apply Forall_alter; [done|]. intros im' _ (? & ?). split; [done|]. by exists e.
    + eapply opoly_ext; [exact Hx3|]. by eapply opoly_ext.
    + apply list_eq. intros i. rewrite !list_lookup_fmap. destruct (decide (i = k)) as [->|Hne].
      * rewrite list_lookup_alter_eq, Him. done.
      * by rewrite list_lookup_alter_ne.
    + intros mo. unfold offset_total at 1. rewrite zip_alter, (fsum_alter _ _ _ _ _ (zip_lookup _ _ _ _ _ Hk Him)).
      cbn [fst snd offset set_offset from_option]. rewrite Ho. cbn [from_option].
      fold (offset_total ds s3 ims mo).
      assert (ext s s3) as Hx03 by (etrans; [exact Hx1|]; by etrans). rewrite (offset_total_ext d ds s s3) by done.
      rewrite (ocoef_ext s s3) by done.
      rewrite (ucoef_add s2 s3 (m, u) o e [(quotient t.1 m, Z.quot t.2 u)]).
      * rewrite (ucoef_ext s2 s3) by done. unfold lin, fsum; cbn [foldr fst snd].
        destruct Hm as [_ Hsm]. rewrite (sort_quotient _ _ Hdiv Hsm).
        pose proof (Z.quot_rem' t.2 u). case_bool_decide; lia.
      * intros m'. by rewrite Hec, Hqc.
  - apply spec_assoc. eapply spec_bind; [by apply leftover_spec|]. cbn beta. intros e s2 Hwf2 Hx2 [He Hec].
    apply spec_ret; [done|]. cbn [fst snd]. split_and!; [by eapply ims_ok_ext|done|done|].
    intros mo. assert (ext s s2) as Hx02 by (by etrans). rewrite (offset_total_ext d ds s s2) by done.
    cbn [ocoef from_option]. rewrite Hec, (ocoef_ext s s1) by done. lia.
Qed.
End base.

(** ** Accumulating a polynomial over a list *)
Lemma mfold_coef {X} (f : EP → X → M EP) (g : X → Monomial → Z) l s acc :
  wf s → ispoly s acc →
  (∀ x s' acc, x ∈ l → wf s' → ext s s' → ispoly s' acc →
     spec (f acc x) s' (λ e s'', ispoly s'' e ∧ ∀ mo, pcoef s'' e mo = pcoef s' acc mo + g x mo)) →
  spec (mfold f l acc) s (λ e s', ispoly s' e ∧ ∀ mo, pcoef s' e mo = pcoef s acc mo + fsum (λ x, g x mo) l).
Proof.
  revert s acc. induction l as [|x l IH]; intros s acc Hwf Ha Hf; cbn [mfold].
  { apply spec_ret; [done|]. split; [done|]. intros mo. cbn. lia. }
  eapply spec_bind; [apply Hf; [left|done|done|done]|]. cbn beta. intros e s1 Hwf1 Hx1 [He Hec].
  eapply spec_mono.
  - apply (IH s1 e); [done|done|]. intros y s' acc' Hy Hwf' Hx' Ha'. apply Hf; [by right|done|by etrans|done].
  - cbn beta. intros r s2 _ _ [Hr Hrc]. split; [done|]. intros mo. rewrite Hrc, Hec, fsum_cons. lia.
Qed.
(** constant polynomials *)
Definition const_poly (s : Arena) (e : EP) (v : Z) : Prop :=
  ispoly s e ∧ ∀ mo, pcoef s e mo = if bool_decide (mo = []) then v else 0.
Lemma const_poly_ext s s' e v : ext s s' → const_poly s e v → const_poly s' e v.
Proof. intros Hx [Hp Hc]. split; [by eapply ispoly_ext|]. intros mo. by rewrite (pcoef_ext s s'). Qed.
Lemma mkPoly_const s v : wf s → spec (mkPoly i64 [([], v)]) s (λ e s', const_poly s' e v).
Proof.
  intros Hwf. eapply spec_mono; [apply mkPoly_coef; [done|]; repeat constructor|].
  cbn beta. intros e s' _ _ [He Hc]. split; [done|]. intros mo. rewrite Hc. unfold Arena.coef; cbn.
  rewrite (bool_decide_ext ([] = mo) (mo = [])) by done. lia.
Qed.
Lemma mkPoly_zero s : wf s → spec (mkPoly i64 []) s (λ e s', const_poly s' e 0).
Proof.
  intros Hwf. eapply spec_mono; [apply mkPoly_coef; [done|constructor]|].
  cbn beta. intros e s' _ _ [He Hc]. split; [done|]. intros mo. rewrite Hc. by case_bool_decide.
Qed.
Lemma mkInt_const s v : wf s → spec (mkInt i64 v) s (λ e s', const_poly s' e v).
Proof.
  intros Hwf. eapply spec_mono; [by apply (mkInt_spec _ i64 64)|]. cbn beta. intros e s' _ _ [He _].
  split; [by eexists|]. intros mo. unfold pcoef. rewrite (terms_is_poly _ _ _ _ He), coef_normalise.
  change (wrapw 64 v) with v. unfold Arena.coef; cbn. rewrite (bool_decide_ext ([] = mo) (mo = [])) by done. lia.
Qed.
Lemma const_terms s e v : wf s → const_poly s e v → terms s e = if v =? 0 then [] else [([], v)].
Proof.
  intros Hwf [Hp Hc]. destruct (poly_at _ _ _ _ Hwf (ispoly_terms _ _ Hp)) as [Hn _].
  apply normal_ext; [done| |].
  - destruct (Z.eqb_spec v 0); [split; constructor|by apply normal_single].
  - intros mo. change (Arena.coef (terms s e) mo) with (pcoef s e mo). rewrite Hc.
    destruct (Z.eqb_spec v 0) as [->|]; [by case_bool_decide|].
    unfold Arena.coef; cbn. rewrite (bool_decide_ext ([] = mo) (mo = [])) by done. lia.
Qed.
Lemma mul_const_l s e ts v : poly_ok s e ts → mul_terms [([], v)] ts = scale v ts.
Proof.
  intros Hp. unfold mul_terms, scale. rewrite bind_cons. cbn [mbind list_bind]. rewrite app_nil_r.
  induction Hp as [|[m k] ts [_ Hm] _ IH]; [done|]. cbn in *. rewrite IH. do 2 f_equal.
  rewrite <- (app_nil_r m) at 1. by apply sort_mono_nil.
Qed.
(** [mul] with a constant, and with a monomial *)
Lemma mul_const_coef s k v x : wf s → const_poly s k v → ispoly s x →
  spec (mul k x) s (λ t s', ispoly s' t ∧ ∀ mo, pcoef s' t mo = v * pcoef s x mo).
Proof.
  intros Hwf Hk Hx. eapply spec_mono; [apply (poly2_coef mul_terms); [apply poly_ok_mul|done|by destruct Hk|done]|].
  cbn beta. intros t s' _ _ [Ht Htc]. split; [done|]. intros mo. rewrite Htc, (const_terms _ _ _ Hwf Hk).
  destruct (poly_at _ _ _ _ Hwf (ispoly_terms _ _ Hx)) as [_ Hok].
  destruct (Z.eqb_spec v 0) as [->|]; [done|]. by rewrite (mul_const_l _ _ _ _ Hok), coef_scale.
Qed.
Lemma mul_unit_coef s u kv x : wf s → is_poly s u i64 [kv] → ispoly s x →
  spec (mul u x) s (λ t s', ispoly s' t ∧ ∀ mo, pcoef s' t mo = ucoef s kv x mo).
Proof.
  intros Hwf Hk Hx. eapply spec_mono; [apply (poly2_coef mul_terms); [apply poly_ok_mul|done|by eexists|done]|].
  cbn beta. intros t s' _ _ [Ht Htc]. split; [done|]. intros mo. by rewrite Htc, (terms_is_poly _ _ _ _ Hk).
Qed.
Lemma isTensorAtom_ext s s' sym m : wf s → ext s s' → mono_ok s (length (nodes s)) m →
  isTensorAtom s' sym m = isTensorAtom s sym m.
Proof.
  intros Hwf Hx [Ha _]. destruct m as [|a [|]]; try done. cbn. apply Forall_cons in Ha as [(k & Hk & Hlt) _].
  unfold isSymAtom. rewrite Hk, (ext_atom _ _ _ _ Hx Hk). cbn.
  apply lookup_lt_is_Some_2 in Hlt as [x Hn]. by rewrite Hn, (ext_node _ _ _ _ Hx Hn).
Qed.

Section base_fold.
Context (d : nat) (dims : list Dim) (ds : Dims) (Hu : units_ok ds) (sym : Z).
Lemma base_fold_spec ts s ims l : wf s → dims_ok s dims ds → ims_ok d ds s ims → opoly s l →
  poly_ok s (length (nodes s)) ts →
  spec (mfold (base_step dims sym) ts (ims, l)) s (λ r s', ims_ok d ds s' r.1 ∧ opoly s' r.2 ∧
    coef <$> r.1 = coef <$> ims ∧
    ∀ mo, offset_total ds s' r.1 mo + ocoef s' r.2 mo = offset_total ds s ims mo + ocoef s l mo +
      fsum (λ t : Term, if isTensorAtom s sym t.1 then 0 else if bool_decide (t.1 = mo) then t.2 else 0) ts).
Proof.
  revert s ims l. induction ts as [|t ts IH]; intros s ims l Hwf Hok Hi Hl Hp; cbn [mfold].
  { apply spec_ret; [done|]. split_and!; [done|done|done|]. intros mo. cbn [fst snd fsum foldr]. lia. }
  apply Forall_cons in Hp as [Hm Hp].
  eapply spec_bind; [by apply (base_step_spec d dims ds Hu)|].
  cbn beta. intros [ims1 l1] s1 Hwf1 Hx1 (Hi1 & Hl1 & Hc1 & Ht1). cbn [fst snd] in *.
  assert (poly_ok s1 (length (nodes s1)) ts) as Hp1.
  { eapply Forall_impl; [exact Hp|]. intros t'. by apply mono_ok_grow. }
  eapply spec_mono; [apply IH; [done|by eapply dims_ok_ext|done..]|].
  cbn beta. intros [ims2 l2] s2 _ _ (Hi2 & Hl2 & Hc2 & Ht2). cbn [fst snd] in *. split_and!; [done|done|congruence|].
  intros mo. rewrite Ht2, Ht1, fsum_cons.
  rewrite (fsum_ext _ (λ t : Term, if isTensorAtom s sym t.1 then 0 else if bool_decide (t.1 = mo) then t.2 else 0)); [lia|].
  intros t' Ht'. rewrite (isTensorAtom_ext s s1); [done|done|done|]. exact (proj1 (Forall_forall _ _) Hp _ Ht').
Qed.
End base_fold.

(** ** The address the index maps give *)
Lemma fsum_seq n (f : nat → Z) : fsum f (seq 0 n) = sum n f.
Proof. induction n as [|n IH]; [done|]. rewrite seq_S, fsum_app, IH. cbn. lia. Qed.
Lemma fsum_imap (f : nat → Z → Z) l : fsum (λ x, f x.1 x.2) (imap pair l) = sum (length l) (λ j, f j (nth j l 0)).
Proof.
  induction l as [|x l IH] using rev_ind; [done|]. rewrite imap_app, fsum_app, IH, length_app. cbn [length].
  rewrite Nat.add_1_r. cbn [sum]. f_equal.
  - apply sum_ext. intros j Hj. by rewrite app_nth1.
  - cbn. rewrite app_nth2, Nat.add_0_r by lia. replace (length l - length l)%nat with O by lia. cbn. lia.
Qed.

Section given.
Context (D : Discovery) (A : Arena) (HwfA : wf A).
(** the coordinates do not involve the derived axes, whose placeholders are address polynomials *)
Record discovery_ok : Prop := {
  do_axes : (length (d_derivedValue D) <= d_nAxes D)%nat;
  do_phys a j : (nPhys D <= a < d_nAxes D)%nat → (j < d_d D)%nat → ent (d_V D) a j = 0;
  do_derived : Forall (ispoly A) (d_derivedValue D) }.
Definition coord_value (x : list Z) (j : nat) : Z := sum (nPhys D) (λ a, ent (d_V D) a j * coord x a).
(** the part of an address along the derived axes *)
Definition derived_part (m : SiteMap) (mo : Monomial) : Z :=
  fsum (λ qv : nat * EP, Arena.coef (mul_terms (opt_terms A (stride_at m (nPhys D + qv.1))) (terms A qv.2)) mo)
    (imap pair (d_derivedValue D)).
(** a fitted site: what the fit and the basis change established (Coords.v, Coordinates.v) *)
Record site_given (m : SiteMap) : Prop := {
  sg_base : ∃ b, sm_base m = Some b ∧ ispoly A b;
  sg_strides : Forall (opoly A) (sm_stride m);
  sg_coord : length (sm_coordStride m) = d_d D ∧ Forall (opoly A) (sm_coordStride m);
  sg_repro a mo : (a < nPhys D)%nat → ocoef A (stride_at m a) mo =
    sum (d_d D) (λ j, ent (d_V D) a j * ocoef A (coordStride_at m j) mo);
  sg_points p : p ∈ sm_points m → ispoly A p.2 ∧ ∀ mo, pcoef A p.2 mo =
    ocoef A (sm_base m) mo + sum (nPhys D) (λ a, coord p.1 a * ocoef A (stride_at m a) mo) + derived_part m mo }.
Context (HD : discovery_ok).

Lemma coord_poly_spec x j s : wf s → (j < d_d D)%nat →
  spec (coord_poly D x j) s (λ e s', const_poly s' e (coord_value x j)).
Proof.
  intros Hwf Hj. unfold coord_poly. eapply spec_bind; [by apply mkPoly_zero|].
  cbn beta. intros z s1 Hwf1 Hx1 Hz. eapply spec_mono.
  - apply (mfold_coef (coord_step D x j) (λ a mo, if bool_decide (mo = []) then ent (d_V D) a j * coord x a else 0));
      [done|apply Hz|].
    intros a s' acc Ha%elem_of_seq Hwf' Hx' Hacc. unfold coord_step. destruct (Z.eqb_spec (ent (d_V D) a j) 0) as [E|E].
    { apply spec_ret; [done|]. split; [done|]. intros mo. rewrite E. case_bool_decide; lia. }
    assert (a < nPhys D)%nat as Hap.
    { destruct (decide (a < nPhys D)%nat); [done|]. destruct E. apply (do_phys HD); [lia|done]. }
    apply Nat.ltb_lt in Hap as ->. eapply spec_bind; [by apply mkInt_const|]. cbn beta. intros xa s2 Hwf2 Hx2 Hxa.
    eapply spec_bind; [by apply mkInt_const|]. cbn beta. intros k s3 Hwf3 Hx3 Hk.
    pose proof (const_poly_ext _ _ _ _ Hx3 Hxa) as [Hxp Hxc].
    eapply spec_bind; [by eapply mul_const_coef|]. cbn beta. intros t s4 Hwf4 Hx4 [Ht Htc].
    assert (ext s' s4) as Hx by (etrans; [exact Hx2|]; by etrans).
    eapply spec_mono; [apply add_coef; [done|by eapply ispoly_ext|done]|].
    cbn beta. intros e s5 _ _ [He Hec]. split; [done|]. intros mo. rewrite Hec, Htc, Hxc, (pcoef_ext s' s4) by done.
    case_bool_decide; lia.
  - cbn beta. intros e s' _ _ [He Hec]. split; [done|]. intros mo. rewrite Hec, (proj2 Hz), fsum_seq.
    case_bool_decide.
    + unfold coord_value. rewrite (sum_prefix (nPhys D) (d_nAxes D)); [done|unfold nPhys; lia|].
      intros a Ha. rewrite (do_phys HD) by done. lia.
    + rewrite sum_zero; [done|]. done.
Qed.
Definition coords_given (s : Arena) (x : list Z) (c : list EP) : Prop :=
  length c = d_d D ∧ ∀ j e, c !! j = Some e → const_poly s e (coord_value x j).
Lemma coords_given_ext s s' x c : ext s s' → coords_given s x c → coords_given s' x c.
Proof. intros Hx [Hl Hc]. split; [done|]. intros j e He. eapply const_poly_ext; [exact Hx|by apply Hc]. Qed.
Lemma coord_polys_spec x s : wf s → spec (mmap (coord_poly D x) (seq 0 (d_d D))) s (λ c s', coords_given s' x c).
Proof.
  intros Hwf. eapply spec_mono.
  - apply (spec_mmap (λ j e s', const_poly s' e (coord_value x j))); [done|intros; by eapply const_poly_ext|].
    intros j s' Hj%elem_of_seq Hwf' _. apply coord_poly_spec; [done|lia].
  - cbn beta. intros c s' _ _ Hc. split; [apply Forall2_length in Hc; by rewrite length_seq in Hc|].
    intros j e He. destruct (Forall2_lookup_r _ _ _ _ _ Hc He) as (j' & Hj' & ?).
    by apply lookup_seq in Hj' as [-> _].
Qed.
(** the index along one dimension: the offset plus a constant *)
Lemma index_spec x c im s : wf s → coords_given s x c → length (coef im) = d_d D →
  ∀ o, ispoly s o →
  spec (mfold (index_step c) (imap pair (coef im)) o) s (λ e s', ispoly s' e ∧ ∀ mo, pcoef s' e mo =
    pcoef s o mo + Arena.coef [([], sum (d_d D) (λ j, nth j (coef im) 0 * coord_value x j))] mo).
Proof.
  intros Hwf Hc Hl o Ho. eapply spec_mono.
  - apply (mfold_coef (index_step c) (λ jv mo, if bool_decide (mo = []) then jv.2 * coord_value x jv.1 else 0)); [done..|].
    intros [j v] s' acc Hin Hwf' Hx' Hacc. unfold index_step; cbn [fst snd].
    destruct (Z.eqb_spec v 0) as [->|Hv].
    { apply spec_ret; [done|]. split; [done|]. intros mo. case_bool_decide; lia. }
    apply elem_of_imap_pair, lookup_lt_Some in Hin. destruct Hc as [Hlc Hc].
    destruct (lookup_lt_is_Some_2 c j) as [cj Hcj]; [lia|]. rewrite Hcj.
    pose proof (const_poly_ext _ _ _ _ Hx' (Hc _ _ Hcj)) as Hcc.
    eapply spec_bind; [by apply mkInt_const|]. cbn beta. intros k s2 Hwf2 Hx2 Hk.
    pose proof (const_poly_ext _ _ _ _ Hx2 Hcc) as [Hcp Hcv].
    eapply spec_bind; [by eapply mul_const_coef|]. cbn beta. intros t s3 Hwf3 Hx3 [Ht Htc].
    assert (ext s' s3) as Hx by (by etrans).
    eapply spec_mono; [apply add_coef; [done|by eapply ispoly_ext|done]|].
    cbn beta. intros e s4 _ _ [He Hec]. split; [done|]. intros mo. rewrite Hec, Htc, Hcv, (pcoef_ext s' s3) by done.
    case_bool_decide; lia.
  - cbn beta. intros e s' _ _ [He Hec]. split; [done|]. intros mo. rewrite Hec. f_equal.
    rewrite (fsum_imap (λ j v, if bool_decide (mo = []) then v * coord_value x j else 0)), Hl.
    unfold Arena.coef; cbn [foldr fst snd]. rewrite (bool_decide_ext ([] = mo) (mo = [])) by done.
    case_bool_decide; [lia|]. rewrite sum_zero; [done|]. done.
Qed.
Definition index_const (x : list Z) (im : IndexMap) : Z := sum (d_d D) (λ j, nth j (coef im) 0 * coord_value x j).
Definition dim_term (s : Arena) (x : list Z) (mo : Monomial) (p : (Monomial * Z) * IndexMap) : Z :=
  from_option (λ o, ucoef s p.1 o mo) 0 (offset p.2)
  + (if bool_decide (p.1.1 = mo) then p.1.2 * index_const x p.2 else 0).
Lemma dim_step_spec x c s addr dm kv im : wf s → coords_given s x c → ispoly s addr →
  dim_ok s dm kv → im_ok (d_d D) s im →
  spec (dim_step c addr (dm, im)) s (λ e s', ispoly s' e ∧ ∀ mo, pcoef s' e mo = pcoef s addr mo + dim_term s x mo (kv, im)).
Proof.
  intros Hwf Hc Ha (Hm & u & Hue & Hup) (Hl & o & Hoe & Hop). unfold dim_step; cbn [fst snd]. rewrite Hue, Hoe.
  eapply spec_bind; [by apply index_spec|]. cbn beta. intros idx s1 Hwf1 Hx1 [Hi Hic].
  assert (is_poly s1 u i64 [kv]) as Hup1 by (by eapply ext_node).
  eapply spec_bind; [by apply mul_unit_coef|]. cbn beta. intros t s2 Hwf2 Hx2 [Ht Htc].
  assert (ext s s2) as Hx by (by etrans).
  eapply spec_mono; [apply add_coef; [done|by eapply ispoly_ext|done]|].
  cbn beta. intros e s3 _ _ [He Hec]. split; [done|]. intros mo. rewrite Hec, Htc, (pcoef_ext s s2) by done.
  rewrite (ucoef_add s s1 kv o idx _ mo Hic). unfold dim_term, lin, fsum; cbn [fst snd foldr]. rewrite Hoe. cbn [from_option].
  destruct (poly_at _ _ _ _ Hwf Hup) as [_ Hok]. apply Forall_cons in Hok as [[_ Hs] _].
  rewrite (sort_mono_nil _ Hs). fold (index_const x im). case_bool_decide; lia.
Qed.
Lemma dim_term_ext s s' x mo kv im : ext s s' → im_ok (d_d D) s im → dim_term s' x mo (kv, im) = dim_term s x mo (kv, im).
Proof.
  intros Hx (_ & o & Ho & Hp). unfold dim_term; cbn [fst snd]. rewrite Ho. cbn [from_option]. by rewrite (ucoef_ext s s').
Qed.
Lemma im_ok_ext s s' im : ext s s' → im_ok (d_d D) s im → im_ok (d_d D) s' im.
Proof. intros Hx (? & o & ? & ?). split; [done|]. exists o. split; [done|by eapply ispoly_ext]. Qed.
Lemma dims_fold_spec x c dims ds ims s addr : wf s → coords_given s x c → ispoly s addr →
  dims_ok s dims ds → Forall (im_ok (d_d D) s) ims →
  spec (mfold (dim_step c) (zip dims ims) addr) s (λ e s', ispoly s' e ∧
    ∀ mo, pcoef s' e mo = pcoef s addr mo + fsum (dim_term s x mo) (zip ds ims)).
Proof.
  intros Hwf Hc Ha Hok Hi. revert ds ims s addr Hwf Hc Ha Hok Hi.
  induction dims as [|dm dims IH]; intros ds ims s addr Hwf Hc Ha Hok Hi.
  { apply Forall2_nil_inv_l in Hok as ->. apply spec_ret; [done|]. split; [done|]. intros mo. cbn. lia. }
  apply Forall2_cons_inv_l in Hok as (kv & ds' & Hdm & Hok & ->).
  destruct ims as [|im ims].
  { apply spec_ret; [done|]. split; [done|]. intros mo. cbn. lia. }
  apply Forall_cons in Hi as [Him Hi]. cbn [zip zip_with mfold].
  eapply spec_bind; [by eapply (dim_step_spec x c s addr dm kv im)|]. cbn beta. intros e s1 Hwf1 Hx1 [He Hec].
  eapply spec_mono.
  - apply (IH ds' ims s1 e); [done|by eapply coords_given_ext|done|by eapply dims_ok_ext|].
    eapply Forall_impl; [exact Hi|]. intros y. by apply im_ok_ext.
  - cbn beta. intros r s2 _ _ [Hr Hrc]. split; [done|]. intros mo. rewrite Hrc, Hec, fsum_cons.
    rewrite (fsum_ext (dim_term s1 x mo) (dim_term s x mo)); [lia|].
    intros [kv' im'] Hin. apply dim_term_ext; [done|]. apply elem_of_zip_r in Hin.
    exact (proj1 (Forall_forall _ _) Hi _ Hin).
Qed.
Lemma dim_terms_total ds ims s x mo :
  fsum (dim_term s x mo) (zip ds ims) =
    offset_total ds s ims mo + sum (d_d D) (λ j, coord_value x j * stride_total ds ims j mo).
Proof.
  unfold dim_term. rewrite fsum_add. f_equal. unfold stride_total. rewrite sum_fsum. apply fsum_ext.
  intros [[k u] im] _. cbn [fst snd]. case_bool_decide.
  - unfold index_const. rewrite <- sum_scale. apply sum_ext. intros j _. lia.
  - rewrite sum_zero; lia.
Qed.
Lemma tensor_fold_spec sym ts s addr : wf s → ispoly s addr → poly_ok s (length (nodes s)) ts →
  spec (mfold (tensor_step sym) ts addr) s (λ e s', ispoly s' e ∧ ∀ mo, pcoef s' e mo = pcoef s addr mo +
    fsum (λ t : Term, if isTensorAtom s sym t.1 then (if bool_decide (t.1 = mo) then t.2 else 0) else 0) ts).
Proof.
  intros Hwf Ha Hp.
  apply (mfold_coef (tensor_step sym)
    (λ t mo, if isTensorAtom s sym t.1 then (if bool_decide (t.1 = mo) then t.2 else 0) else 0)); [done..|].
  intros t s' acc Ht Hwf' Hx' Hacc. unfold tensor_step. apply gets_spec. unfold id.
  pose proof (proj1 (Forall_forall _ _) Hp _ Ht) as Hm. cbn in Hm.
  rewrite (isTensorAtom_ext s s') by done. destruct (isTensorAtom s sym t.1).
  - eapply spec_bind; [apply mkPoly_coef; [done|]; constructor; [by eapply mono_ok_grow|constructor]|].
    cbn beta. intros q s2 Hwf2 Hx2 [Hq Hqc].
    eapply spec_mono; [apply add_coef; [done|by eapply ispoly_ext|done]|].
    cbn beta. intros e s3 _ _ [He Hec]. split; [done|]. intros mo. rewrite Hec, Hqc, (pcoef_ext s' s2) by done.
    unfold Arena.coef; cbn. lia.
  - apply spec_ret; [done|]. split; [done|]. intros mo. lia.
Qed.
Lemma derived_fold_spec m s addr : wf s → ext A s → Forall (opoly A) (sm_stride m) → ispoly s addr →
  spec (mfold (derived_step D m) (imap pair (d_derivedValue D)) addr) s (λ e s', ispoly s' e ∧
    ∀ mo, pcoef s' e mo = pcoef s addr mo + derived_part m mo).
Proof.
  intros Hwf Hx Hst Ha. unfold derived_part.
  apply (mfold_coef (derived_step D m)
    (λ qv mo, Arena.coef (mul_terms (opt_terms A (stride_at m (nPhys D + qv.1))) (terms A qv.2)) mo)); [done..|].
  intros [q v] s' acc Hin Hwf' Hx' Hacc. unfold derived_step; cbn [fst snd].
  apply elem_of_imap_pair, list_elem_of_lookup_2 in Hin. pose proof (proj1 (Forall_forall _ _) (do_derived HD) _ Hin) as Hv.
  pose proof (stride_opoly A m (nPhys D + q) Hst) as Hs. destruct (stride_at m (nPhys D + q)) as [st|]; cbn in Hs |- *.
  - assert (ext A s') as HxA by (by etrans).
    eapply spec_bind; [apply (poly2_coef mul_terms); [apply poly_ok_mul|done|by eapply ispoly_ext|by eapply ispoly_ext]|].
    cbn beta. intros t s2 Hwf2 Hx2 [Ht Htc]. eapply spec_mono; [apply add_coef; [done|by eapply ispoly_ext|done]|].
    cbn beta. intros e s3 _ _ [He Hec]. split; [done|]. intros mo. rewrite Hec, Htc, (pcoef_ext s' s2) by done.
    by rewrite !(terms_ext A s').
  - apply spec_ret; [done|]. split; [done|]. intros mo. unfold Arena.coef; cbn. lia.
Qed.

(** ** The round trip *)
(** what the index maps and the leftover have to give for the addresses to come out *)
Record maps_ok (sym : Z) (m : SiteMap) (ds : Dims) (ims : list IndexMap) (l : option EP) (s : Arena) : Prop := {
  mo_ims : ims_ok (d_d D) ds s ims;
  mo_left : opoly s l;
  mo_strides j mo : (j < d_d D)%nat → stride_total ds ims j mo = ocoef A (coordStride_at m j) mo;
  mo_base mo : offset_total ds s ims mo + ocoef s l mo =
    fsum (λ t : Term, if isTensorAtom A sym t.1 then 0 else if bool_decide (t.1 = mo) then t.2 else 0)
      (opt_terms A (sm_base m)) }.
Lemma address_spec sym m dims ds ims l x s : wf s → ext A s → site_given m → dims_ok s dims ds →
  maps_ok sym m ds ims l s →
  spec (address D sym m dims ims l x) s (λ e s', ispoly s' e ∧ ∀ mo, pcoef s' e mo =
    ocoef A (sm_base m) mo + sum (d_d D) (λ j, coord_value x j * ocoef A (coordStride_at m j) mo) + derived_part m mo).
Proof.
  intros Hwf Hx Hg Hok [Hi Hl Hst Hba]. unfold address.
  destruct (sg_base _ Hg) as (b & Hb & Hbp).
  eapply spec_bind; [by apply coord_polys_spec|]. cbn beta. intros c s1 Hwf1 Hx1 Hc.
  eapply spec_bind; [by apply mkPoly_const|]. cbn beta. intros z s2 Hwf2 Hx2 [Hz Hzc]. apply gets_spec. unfold id.
  assert (ext s s2) as Hx02 by (by etrans). assert (ext A s2) as HxA2 by (by etrans).
  assert (opt_terms s2 (sm_base m) = opt_terms A (sm_base m)) as Ht by (rewrite Hb; cbn; by apply terms_ext).
  rewrite Ht. assert (poly_ok A (length (nodes A)) (opt_terms A (sm_base m))) as HpA.
  { rewrite Hb. cbn. exact (proj2 (poly_at _ _ _ _ HwfA (ispoly_terms _ _ Hbp))). }
  eapply spec_bind; [apply (tensor_fold_spec sym); [done|done|]|].
  { eapply Forall_impl; [exact HpA|]. intros t. by apply mono_ok_grow. }
  cbn beta. intros a3 s3 Hwf3 Hx3 [Ha3 Hc3]. assert (ext s s3) as Hx03 by (by etrans).
  eapply spec_bind; [apply (dims_fold_spec x c dims ds ims); [done| |done|by eapply dims_ok_ext|]|].
  { eapply coords_given_ext, Hc. by etrans. }
  { apply (ims_ok_ext _ _ _ _ _ Hx03) in Hi as [_ Hi]. exact Hi. }
  cbn beta. intros a4 s4 Hwf4 Hx4 [Ha4 Hc4]. assert (ext s s4) as Hx04 by (by etrans).
  eapply (spec_bind _ _ _ (λ a s', ispoly s' a ∧ ∀ mo, pcoef s' a mo = pcoef s4 a4 mo + ocoef s l mo)).
  { destruct l as [l|]; cbn in Hl |- *.
    - eapply spec_mono; [apply add_coef; [done|done|by eapply ispoly_ext]|].
      cbn beta. intros e s' _ _ [He Hec]. split; [done|]. intros mo. by rewrite Hec, (pcoef_ext s s4 l).
    - apply spec_ret; [done|]. split; [done|]. intros mo. unfold ocoef; cbn. lia. }
  cbn beta. intros a5 s5 Hwf5 Hx5 [Ha5 Hc5].
  eapply spec_mono; [apply derived_fold_spec; [done|by etrans; [exact Hx|]; etrans|apply (sg_strides _ Hg)|done]|].
  cbn beta. intros e s6 _ _ [He Hec]. split; [done|]. intros mo.
  rewrite Hec, Hc5, Hc4, Hc3, Hzc, dim_terms_total, (offset_total_ext (d_d D) ds s s3) by done.
  rewrite (sum_ext _ _ (λ j, coord_value x j * ocoef A (coordStride_at m j) mo)) by (intros j Hj; by rewrite Hst).
  assert (ocoef A (sm_base m) mo =
    fsum (λ t : Term, if isTensorAtom s2 sym t.1 then (if bool_decide (t.1 = mo) then t.2 else 0) else 0) (opt_terms A (sm_base m))
    + (offset_total ds s ims mo + ocoef s l mo)) as Hbase; [|case_bool_decide; lia].
  rewrite Hba, <- fsum_add, <- ocoef_opt_terms. unfold Arena.coef. fold (fsum (λ t : Term, if bool_decide (t.1 = mo) then t.2 else 0) (opt_terms A (sm_base m))).
  apply fsum_ext. intros t Htin. rewrite (isTensorAtom_ext A s2); [|done|done|].
  - destruct (isTensorAtom A sym t.1); lia.
  - exact (proj1 (Forall_forall _ _) HpA _ Htin).
Qed.
Lemma check_point_spec sym m dims ds ims l p s : wf s → ext A s → site_given m → dims_ok s dims ds →
  maps_ok sym m ds ims l s → p ∈ sm_points m →
  spec (check_point D sym m dims ims l p) s (λ b _, b = true).
Proof.
  intros Hwf Hx Hg Hok Hm Hp. destruct (sg_points _ Hg p Hp) as [Hpp Hpc]. unfold check_point.
  eapply spec_bind; [by apply (address_spec sym m dims ds)|]. cbn beta. intros a s1 Hwf1 Hx1 [Ha Hac].
  assert (ext A s1) as HxA by (by etrans). pose proof (ispoly_ext _ _ _ HxA Hpp) as Hp1.
  eapply (spec_bind _ _ _ (λ v s', v = p.2 ∧ s' = s1)).
  { exists p.2, s1. split_and!; try done. by eapply asPoly_id, ispoly_terms. }
  cbn beta. intros ? ? _ _ [-> ->]. eapply (spec_bind _ _ _ (λ v s', v = p.2 ∧ s' = s1)).
  { exists p.2, s1. split_and!; try done. unfold retype. unfold bind at 1.
    pose proof (ispoly_terms _ _ Hp1) as Hpt. rewrite (asPoly_id _ _ _ _ Hpt).
    unfold bind, ty_of, bind, deref, ret. unfold is_poly in Hpt. rewrite Hpt. cbn. done. }
  cbn beta. intros ? ? _ _ [-> ->].
  eapply spec_bind; [by apply sub_coef|]. cbn beta. intros e s2 Hwf2 Hx2 [He Hec].
  exists true, s2. split_and!; [|done|done|done]. unfold gets. do 2 f_equal.
  assert (terms s2 e = []) as Hte.
  { apply normal_ext; [exact (proj1 (poly_at _ _ _ _ Hwf2 (ispoly_terms _ _ He)))|split; constructor|].
    intros mo. change (Arena.coef (terms s2 e) mo) with (pcoef s2 e mo). rewrite Hec, Hac, (pcoef_ext A s1), Hpc by done.
    assert (sum (nPhys D) (λ a, coord p.1 a * ocoef A (stride_at m a) mo) =
            sum (d_d D) (λ j, coord_value p.1 j * ocoef A (coordStride_at m j) mo)) as ->; [|cbn; lia].
    unfold coord_value. rewrite (sum_ext (nPhys D) _ (λ a, sum (d_d D) (λ j, ent (d_V D) a j * coord p.1 a * ocoef A (coordStride_at m j) mo))).
    - rewrite sum_swap. apply sum_ext. intros j _. by rewrite sum_scale_r.
    - intros a0 Ha0. rewrite (sg_repro _ Hg a0 mo Ha0), <- sum_scale. apply sum_ext. intros j _. lia. }
  pose proof (ispoly_terms _ _ He) as Het. rewrite Hte in Het. unfold constInt. unfold is_poly in Het. by rewrite Het.
Qed.
Lemma maps_ok_ext sym m ds ims l s s' : ext s s' → maps_ok sym m ds ims l s → maps_ok sym m ds ims l s'.
Proof.
  intros Hx [Hi Hl Hs Hb]. split; [by eapply ims_ok_ext|by eapply opoly_ext|done|].
  intros mo. by rewrite (offset_total_ext (d_d D) ds s s'), (ocoef_ext s s').
Qed.
Lemma count_all_true {X} (l : list X) ok : Forall2 (λ _ b, b = true) l ok →
  count true ok = Z.of_nat (length l) ∧ count false ok = 0.
Proof.
  unfold count. induction 1 as [|x b l ok -> _ [IH1 IH2]]; [done|]. rewrite !filter_cons_True, filter_cons_False by done.
  cbn [length]. split; [lia|done].
Qed.
(** ** The accesses of a site *)
(** the strides of a site come out of its dimensions *)
Definition site_covered (m : SiteMap) (ds : Dims) : Prop := ∀ t, stride_term A (d_d D) m t → ∃ u, (t.1, u) ∈ ds ∧ (u | t.2).
Definition stride_list (m : SiteMap) : list (nat * Term) :=
  coords_of (d_d D) m ≫= λ j, pair j <$> opt_terms A (coordStride_at m j).
Lemma coordStride_opoly m j : site_given m → opoly A (coordStride_at m j).
Proof.
  intros Hg. destruct (sg_coord _ Hg) as [_ Hl]. unfold coordStride_at.
  destruct (nth_in_or_default j (sm_coordStride m) None) as [Hin| ->]; [|done].
  apply list_elem_of_In in Hin. exact (proj1 (Forall_forall _ _) Hl _ Hin).
Qed.
Lemma opt_terms_ext s o : ext A s → opoly A o → opt_terms s o = opt_terms A o.
Proof. intros Hx. destruct o; [|done]. cbn. by apply terms_ext. Qed.
Lemma stride_list_ext s m : ext A s → site_given m →
  (coords_of (d_d D) m ≫= λ j, pair j <$> opt_terms s (coordStride_at m j)) = stride_list m.
Proof.
  intros Hx Hg. unfold stride_list. induction (coords_of (d_d D) m) as [|j l IH]; [done|].
  rewrite !bind_cons, IH. do 2 f_equal. apply opt_terms_ext; [done|by apply coordStride_opoly].
Qed.
Lemma stride_list_sum m j mo : site_given m → (j < d_d D)%nat →
  fsum (λ x : nat * Term, if bool_decide (j = x.1 ∧ mo = x.2.1) then x.2.2 else 0) (stride_list m) =
    ocoef A (coordStride_at m j) mo.
Proof.
  intros Hg Hj. destruct (sg_coord _ Hg) as [Hl _]. unfold stride_list, coords_of.
  rewrite fsum_bind, Hl, Nat.min_id, fsum_seq, (sum_single _ j) by
    (try done; intros k _ Hk; rewrite fsum_fmap; apply fsum_zero; intros t _; cbn; by rewrite bool_decide_false by naive_solver).
  rewrite fsum_fmap, <- ocoef_opt_terms. unfold Arena.coef, fsum. cbn [fst snd].
  induction (opt_terms A _) as [|t ts IH]; [done|]. cbn. rewrite IH.
  f_equal. rewrite (bool_decide_ext (j = j ∧ mo = t.1) (t.1 = mo)) by naive_solver. done.
Qed.
Lemma stride_total_coef ds ims ims' j mo : coef <$> ims' = coef <$> ims → stride_total ds ims' j mo = stride_total ds ims j mo.
Proof.
  intros H. unfold stride_total. revert ims ims' H. induction ds as [|kv ds IH]; intros [|im ims] [|im' ims'] H; try done.
  injection H as Hc H. cbn [zip zip_with]. rewrite !fsum_cons, (IH ims ims' H). cbn [fst snd]. by rewrite Hc.
Qed.
Lemma offset_total_offset ds s ims ims' mo : offset <$> ims' = offset <$> ims → offset_total ds s ims' mo = offset_total ds s ims mo.
Proof.
  intros H. unfold offset_total. revert ims ims' H. induction ds as [|kv ds IH]; intros [|im ims] [|im' ims'] H; try done.
  injection H as Hc H. cbn [zip zip_with]. rewrite !fsum_cons, (IH ims ims' H). cbn [fst snd]. by rewrite Hc.
Qed.
(** the index maps start at zero *)
Definition im_zero (s : Arena) (im : IndexMap) : Prop :=
  coef im = replicate (d_d D) 0 ∧ ∃ o, offset im = Some o ∧ const_poly s o 0.
Lemma im_zero_spec s : wf s →
  spec (do z <- mkPoly i64 []; ret (mkIndexMap (Some z) (replicate (d_d D) 0))) s (λ im s', im_zero s' im).
Proof.
  intros Hwf. eapply spec_bind; [by apply mkPoly_zero|]. cbn beta. intros z s1 Hwf1 _ Hz.
  apply spec_ret; [done|]. split; [done|]. by exists z.
Qed.
Lemma ims_zero s ds ims : wf s → length ims = length ds → Forall (im_zero s) ims →
  ims_ok (d_d D) ds s ims ∧ (∀ j mo, stride_total ds ims j mo = 0) ∧ ∀ mo, offset_total ds s ims mo = 0.
Proof.
  intros Hwf Hl Hz. rewrite Forall_forall in Hz. split_and!; [split; [done|]| |].
  - apply Forall_forall. intros im Him. destruct (Hz im Him) as (Hc & o & Ho & Hp & _).
    split; [by rewrite Hc, length_replicate|by exists o].
  - intros j mo. apply fsum_zero. intros [kv im] Hin%elem_of_zip_r. destruct (Hz im Hin) as (Hc & _).
    cbn [fst snd]. rewrite Hc, nth_lookup. destruct (replicate _ _ !! j) as [y|] eqn:E; cbn; [apply lookup_replicate in E as [-> _]|]; case_bool_decide; lia.
  - intros mo. apply fsum_zero. intros [kv im] Hin%elem_of_zip_r. destruct (Hz im Hin) as (_ & o & Ho & Hp).
    cbn [fst snd]. rewrite Ho. cbn. unfold ucoef. rewrite (const_terms _ _ _ Hwf Hp). cbn. destruct kv. done.
Qed.
Lemma access_spec ti T m ds s : wf s → ext A s → site_given m → dims_ok s (dims T) ds → units_ok ds → site_covered m ds →
  spec (access D ti T m) s (λ ac s', maps_ok (t_sym T) m ds (index ac) (leftoverBytes ac) s' ∧
    ac_verified ac = Z.of_nat (length (sm_points m)) ∧ ac_mismatches ac = 0).
Proof.
  intros Hwf Hx Hg Hok Hu Hcov. unfold access.
  eapply spec_bind.
  { apply (spec_mmap (λ _ im s', im_zero s' im)); [done| |].
    - intros _ im s1 s2 Hx12 (? & o & ? & ?). split; [done|]. exists o. split; [done|by eapply const_poly_ext].
    - intros _ s' _ Hwf' _. by apply im_zero_spec. }
  cbn beta. intros ims0 s1 Hwf1 Hx1 Hz. apply gets_spec. unfold id.
  assert (ext A s1) as HxA1 by (by etrans). pose proof (dims_ok_ext _ _ _ _ Hx1 Hok) as Hok1.
  destruct (ims_zero s1 ds ims0) as (Hi0 & Hs0 & Ho0); [done| |by eapply Forall2_Forall_r; [exact Hz|]; apply Forall_true|].
  { apply Forall2_length in Hz, Hok. congruence. }
  rewrite (stride_list_ext s1 m) by done.
  eapply spec_bind.
  { apply (stride_fold_spec (d_d D) (dims T) ds Hu (stride_list m) ims0 s1); [done..|].
    intros j t (j' & Hj' & Ht)%list_elem_of_bind. apply list_elem_of_fmap in Hj' as (t' & [= -> ->] & Ht').
    split; [|apply Hcov; by exists j']. unfold coords_of in Ht. apply elem_of_seq in Ht. lia. }
  cbn beta. intros ims1 s2 Hwf2 Hx2 (Hi1 & Hof1 & Hst1). assert (ext A s2) as HxA2 by (by etrans).
  pose proof (dims_ok_ext _ _ _ _ Hx2 Hok1) as Hok2.
  destruct (sg_base _ Hg) as (b & Hb & Hbp).
  assert (poly_ok A (length (nodes A)) (opt_terms A (sm_base m))) as HpA.
  { rewrite Hb. cbn. exact (proj2 (poly_at _ _ _ _ HwfA (ispoly_terms _ _ Hbp))). }
  assert (opoly A (sm_base m)) as Hbo by (by rewrite Hb).
  rewrite (opt_terms_ext s1 (sm_base m)) by done.
  eapply spec_bind.
  { apply (base_fold_spec (d_d D) (dims T) ds Hu (t_sym T)); [done..|].
    eapply Forall_impl; [exact HpA|]. intros t. by apply mono_ok_grow. }
  cbn beta. intros [ims2 l] s3 Hwf3 Hx3 (Hi2 & Hl & Hco2 & Hba2). cbn [fst snd] in *.
  assert (ext A s3) as HxA3 by (by etrans).
  assert (maps_ok (t_sym T) m ds ims2 l s3) as Hm.
  { split; [done|done| |].
    - intros j mo Hj. rewrite (stride_total_coef _ ims1) by done. rewrite Hst1, Hs0, stride_list_sum by done. lia.
    - intros mo. rewrite Hba2, (offset_total_offset ds s2 ims0), (offset_total_ext (d_d D) ds s1 s2), Ho0 by done.
      unfold ocoef at 1. cbn [from_option]. rewrite Z.add_0_l. apply fsum_ext. intros t Ht.
      rewrite (isTensorAtom_ext A s2); [done|done|done|]. exact (proj1 (Forall_forall _ _) HpA _ Ht). }
  eapply spec_bind.
  { apply (spec_mmap (λ _ b _, b = true)); [done|done|]. intros p s' Hp Hwf' Hx'.
    apply (check_point_spec (t_sym T) m (dims T) ds); [done|by etrans|done| | |done].
    - eapply dims_ok_ext, Hok2. by etrans.
    - by eapply maps_ok_ext. }
  cbn beta. intros ok s4 Hwf4 Hx4 Hok4. apply spec_ret; [done|]. cbn [index leftoverBytes ac_verified ac_mismatches].
  split; [by eapply maps_ok_ext|]. apply count_all_true. done.
Qed.
End given.

(** ** [build] *)
Section build_spec.
Context (argNo : nat → option nat).
Context (siteName : option Site → string) (polyStr : Arena → option EP → string) (whyText : SiteWhy → string).
Context (D : Discovery) (A : Arena) (HwfA : wf A).
(** the sites that become accesses *)
Definition mapped_site (m : SiteMap) : bool :=
  negb (sm_isPred m || sm_isDerivedOperand m) && fitted m && negb (sm_tensor m =? "")%string.
Definition npoints (m : SiteMap) : Z := Z.of_nat (length (sm_points m)).
Definition points_total (ms : list SiteMap) : Z := fsum (λ m, if mapped_site m then npoints m else 0) ms.
Definition sites_total (ms : list SiteMap) : nat := length (filter (λ m, mapped_site m = true) ms).
(** what the fit and the basis change hand over *)
Record discovery_given : Prop := {
  dg_ok : discovery_ok D A;
  dg_site m : m ∈ d_sites D → mapped_site m = true →
    site_given D A m ∧ is_Some (symbols A !! Z.to_nat (sm_tensorSym m)) }.
Context (HD : discovery_given).

(** the sites grouped so far *)
Record grouped (l : list SiteMap) (acc : Mapped) : Prop := {
  gr_in x m : x ∈ mp_tensors acc → m ∈ x.2 → m ∈ l ∧ mapped_site m = true;
  gr_points : fsum (λ x, fsum npoints x.2) (mp_tensors acc) = points_total l;
  gr_sites : fsum (λ x, Z.of_nat (length x.2)) (mp_tensors acc) = Z.of_nat (sites_total l) }.
Lemma points_total_snoc l m : points_total (l ++ [m]) = points_total l + (if mapped_site m then npoints m else 0).
Proof. unfold points_total. rewrite fsum_app. unfold fsum at 2. cbn [foldr]. lia. Qed.
Lemma sites_total_snoc l m : sites_total (l ++ [m]) = (sites_total l + (if mapped_site m then 1 else 0))%nat.
Proof.
  unfold sites_total. rewrite filter_app, length_app. f_equal. rewrite filter_cons, filter_nil.
  destruct (mapped_site m); case_decide; done.
Qed.
Lemma grouped_skip l acc m un n : mapped_site m = false → grouped l acc →
  grouped (l ++ [m]) (mkMapped (mp_tensors acc) un n).
Proof.
  intros Hm [Hi Hp Hs]. split; cbn [mp_tensors].
  - intros x m' Hx Hm'. destruct (Hi x m' Hx Hm'). split; [apply elem_of_app; by left|done].
  - rewrite points_total_snoc, Hm, Hp. lia.
  - rewrite sites_total_snoc, Hm, Hs. lia.
Qed.
Lemma map_site_spec elems l acc m s : wf s → ext A s → m ∈ d_sites D → grouped l acc →
  spec (map_site argNo siteName whyText elems acc m) s (λ acc' _, grouped (l ++ [m]) acc').
Proof.
  intros Hwf Hx Hm Hg. unfold map_site.
  assert (mapped_site m = false → ∀ un n, grouped (l ++ [m]) (mkMapped (mp_tensors acc) un n)) as Hskip
    by (intros; by apply grouped_skip).
  destruct (sm_isPred m || sm_isDerivedOperand m) eqn:E1.
  { apply spec_ret; [done|]. destruct acc. apply Hskip. unfold mapped_site. by rewrite E1. }
  destruct (sm_why m) as [w|] eqn:E2.
  { apply spec_ret; [done|]. apply Hskip. unfold mapped_site, fitted. by rewrite E1, E2. }
  destruct (sm_tensor m =? "")%string eqn:E3.
  { apply spec_ret; [done|]. apply Hskip. unfold mapped_site, fitted. by rewrite E1, E2, E3. }
  assert (mapped_site m = true) as Hmap by (unfold mapped_site, fitted; by rewrite E1, E2, E3).
  destruct Hg as [Hi Hp Hs]. destruct (find_index _ (mp_tensors acc)) as [i|] eqn:Ef.
  - apply spec_ret; [done|]. destruct (find_index_Some _ _ _ Ef) as (x & Hix & _).
    split; cbn [mp_tensors].
    + intros y m' [j Hj]%list_elem_of_lookup Hm'. rewrite list_lookup_alter in Hj.
      assert (y ∈ mp_tensors acc ∧ m' ∈ y.2 ∨ m' = m ∨ m' ∈ x.2) as [[Hy Hy']|[-> |Hx']].
      { case_decide; [|left; split; [by eapply list_elem_of_lookup_2|done]]. subst j.
        rewrite Hix in Hj. injection Hj as <-. cbn in Hm'. apply elem_of_app in Hm' as [?|?%list_elem_of_singleton]; auto. }
      * destruct (Hi y m' Hy Hy'). split; [apply elem_of_app; by left|done].
      * split; [apply elem_of_app; right; left|done].
      * destruct (Hi x m'); [by eapply list_elem_of_lookup_2|done|]. split; [apply elem_of_app; by left|done].
    + rewrite (fsum_alter _ _ _ _ _ Hix), points_total_snoc, Hmap, Hp. cbn [touch snd]. rewrite fsum_app.
      unfold fsum at 2. cbn [foldr]. lia.
    + rewrite (fsum_alter _ _ _ _ _ Hix), sites_total_snoc, Hmap, Hs. cbn [touch snd]. rewrite length_app. cbn. lia.
  - destruct (dg_site HD m Hm Hmap) as [_ [sy Hsy]].
    assert (symbols s !! Z.to_nat (sm_tensorSym m) = Some sy) as Hsy' by (eapply prefix_lookup_Some; [exact Hsy|apply Hx]).
    eexists _, s. unfold bind. rewrite Hsy'. split; [reflexivity|]. split_and!; [done|done|]. split; cbn [mp_tensors].
    + intros y m' [Hy|Hy%list_elem_of_singleton]%elem_of_app Hm'.
      * destruct (Hi y m' Hy Hm'). split; [apply elem_of_app; by left|done].
      * subst y. cbn in Hm'. apply list_elem_of_singleton in Hm' as ->. split; [apply elem_of_app; right; left|done].
    + rewrite fsum_app, points_total_snoc, Hmap, Hp. cbn. lia.
    + rewrite fsum_app, sites_total_snoc, Hmap, Hs. cbn. lia.
Qed.
Lemma map_sites_spec elems :
  spec (mfold (map_site argNo siteName whyText elems) (d_sites D) (mkMapped [] [] 0)) A (λ acc _, grouped (d_sites D) acc).
Proof.
  apply (spec_mfold (λ l acc _, grouped l acc)); [done|split; [|done|done]|].
  - intros x m Hx. by apply not_elem_of_nil in Hx.
  - intros l1 m l2 acc s' E Hwf' Hx' Hg. apply map_site_spec; [done..| |done].
    rewrite E. apply elem_of_app. right. left.
Qed.
(** a tensor and its sites, with the dimensions to cover them *)
Definition sites_given (ms : list SiteMap) : Prop := ∀ m, m ∈ ms → site_given D A m.
Definition tensor_given (s : Arena) (y : Tensor * list SiteMap) : Prop :=
  sites_given y.2 ∧ ∃ ds, dims_ok s (dims y.1) ds ∧ units_ok ds ∧ ∀ m, m ∈ y.2 → site_covered D A m ds.
Lemma tensor_given_ext s s' y : ext s s' → tensor_given s y → tensor_given s' y.
Proof. intros Hx (? & ds & ? & ? & ?). split; [done|]. exists ds. split_and!; [by eapply dims_ok_ext|done|done]. Qed.
Lemma stride_term_ext s m t : ext A s → site_given D A m → stride_term s (d_d D) m t ↔ stride_term A (d_d D) m t.
Proof.
  intros Hx Hg. unfold stride_term. split; intros (j & Hj & Ht); exists j; (split; [done|]).
  - rewrite (opt_terms_ext A s) in Ht; [done|done|]. by eapply coordStride_opoly.
  - rewrite (opt_terms_ext A s); [done|done|]. by eapply coordStride_opoly.
Qed.
Lemma tensor_dims_given T ms s : wf s → ext A s → sites_given ms →
  spec (do T' <- tensor_dims (d_d D) T ms; ret (T', ms)) s (λ y s', y.2 = ms ∧ tensor_given s' y).
Proof.
  intros Hwf Hx Hms. eapply spec_bind; [apply tensor_dims_spec; [done|]|].
  - intros m t Hm (j & _ & Ht). pose proof (coordStride_opoly D A m j (Hms m Hm)) as Ho.
    destruct (coordStride_at m j) as [e|]; [|by apply not_elem_of_nil in Ht]. cbn in Ho, Ht.
    pose proof (ispoly_ext _ _ _ Hx Ho) as He. destruct (poly_at _ _ _ _ Hwf (ispoly_terms _ _ He)) as [_ Hok].
    exact (proj1 (Forall_forall _ _) Hok _ Ht).
  - cbn beta. intros T' s' Hwf' Hx' (_ & ds & Hd & Hu & Hc). apply spec_ret; [done|]. cbn [fst snd].
    split; [done|]. split; [done|]. exists ds. split_and!; [done|done|]. intros m Hm t Ht.
    apply (Hc m); [done|]. exact (proj2 (stride_term_ext s m t Hx (Hms m Hm)) Ht).
Qed.
(** every access of a tensor comes out of the round trip *)
Definition round_trips (ms : list SiteMap) (acs : list Access) : Prop :=
  Forall2 (λ m ac, ac_verified ac = npoints m ∧ ac_mismatches ac = 0) ms acs.
Lemma tensor_accesses_spec x s : wf s → ext A s → tensor_given s x.2 →
  spec (tensor_accesses D x) s (λ acs _, round_trips x.2.2 acs).
Proof.
  intros Hwf Hx (Hms & ds & Hd & Hu & Hc). unfold tensor_accesses.
  apply (spec_mmap (λ m ac _, ac_verified ac = npoints m ∧ ac_mismatches ac = 0)); [done|done|].
  intros m s' Hm Hwf' Hx'. eapply spec_mono.
  - apply (access_spec D A HwfA (dg_ok HD) x.1 x.2.1 m ds); [done|by etrans|by apply Hms|by eapply dims_ok_ext|done|by apply Hc].
  - cbn beta. intros ac s'' _ _ (_ & H). exact H.
Qed.
Lemma round_trips_total ms acs : round_trips ms acs →
  fsum ac_verified acs = fsum npoints ms ∧ fsum ac_mismatches acs = 0 ∧ length acs = length ms.
Proof.
  induction 1 as [|m ac ms acs [Hv Hm] _ (IH1 & IH2 & IH3)]; [done|]. rewrite !fsum_cons. cbn [length].
  split_and!; [lia|lia|by rewrite IH3].
Qed.
Lemma round_trips_join (xs : list (nat * (Tensor * list SiteMap))) acss :
  Forall2 (λ x acs, round_trips x.2.2 acs) xs acss →
  fsum ac_verified (mjoin acss) = fsum (λ x, fsum npoints x.2.2) xs ∧ fsum ac_mismatches (mjoin acss) = 0 ∧
  Z.of_nat (length (mjoin acss)) = fsum (λ x, Z.of_nat (length x.2.2)) xs.
Proof.
  induction 1 as [|x acs xs acss Hr _ (IH1 & IH2 & IH3)]; [done|].
  change (mjoin (acs :: acss)) with (acs ++ mjoin acss). rewrite !fsum_app, !fsum_cons, length_app.
  destruct (round_trips_total _ _ Hr) as (? & ? & ?). split_and!; lia.
Qed.
Lemma fsum_imap_snd {X} (f : X → Z) (l : list X) : fsum (λ x : nat * X, f x.2) (imap pair l) = fsum f l.
Proof. rewrite <- (fsum_fmap f snd), imap_pair_snd. done. Qed.
End build_spec.

(** [C35] Building the tile IR loses nothing.  Given sites whose samples lie on the fitted base and strides,
    and a basis change that reproduces those strides (what the fit and the coordinate discovery
    establish), [build] terminates and every sampled address is the one its index maps, tensor, leftover
    and derived axes give: the code's own count of mismatches is zero and every sample of every mapped
    site is counted as verified, one access for each of these sites. *)
Theorem build_round_trip argNo siteName polyStr whyText D A loopAlgebra sig (Hwf : wf A) (HD : discovery_given D A) :
  spec (build argNo siteName polyStr whyText D loopAlgebra sig) A (λ P _,
    mismatches P = 0 ∧ verified P = points_total (d_sites D) ∧ length (accesses P) = sites_total (d_sites D)).
Proof.
  unfold build. eapply spec_bind; [by apply (map_sites_spec argNo siteName whyText D A)|]. cbn beta. intros mp s1 Hwf1 Hx1 [Hi Hp Hs].
  eapply spec_bind.
  { apply (spec_mmap (λ x y s', y.2 = x.2 ∧ tensor_given D A s' y)); [done| |].
    - intros x y s s' Hx [? ?]. split; [done|by eapply tensor_given_ext].
    - intros [T ms] s' Hx Hwf' Hx'. apply (tensor_dims_given D A); [done|by etrans|].
      intros m Hm. destruct (Hi _ m Hx Hm). by apply (dg_site D A HD). }
  cbn beta. intros Ts s2 Hwf2 Hx2 HTs. assert (ext A s2) as HxA2 by (by etrans).
  eapply spec_bind.
  { apply (spec_mmap (λ x acs _, round_trips x.2.2 acs)); [done|done|].
    intros [k y] s' Hky%elem_of_imap_pair%list_elem_of_lookup_2 Hwf' Hx'. apply (tensor_accesses_spec D A Hwf HD); [done|by etrans|].
    apply list_elem_of_lookup in Hky as [i Hy]. destruct (Forall2_lookup_r _ _ _ _ _ HTs Hy) as (x & _ & _ & Ht).
    by eapply tensor_given_ext. }
  cbn beta. intros acss s3 Hwf3 Hx3 Hac. apply gets_spec. apply spec_ret; [done|].
  destruct (round_trips_join _ _ Hac) as (Hv & Hm & Hl).
  rewrite (fsum_imap_snd (λ y : Tensor * list SiteMap, fsum npoints y.2)) in Hv.
  rewrite (fsum_imap_snd (λ y : Tensor * list SiteMap, Z.of_nat (length y.2))) in Hl.
  assert (∀ f : list SiteMap → Z, fsum (λ y : Tensor * list SiteMap, f y.2) Ts = fsum (λ x : Tensor * list SiteMap, f x.2) (mp_tensors mp)) as Hf.
  { intros f. clear -HTs. induction HTs as [|x y xs ys [E _] _ IH]; [done|]. by rewrite !fsum_cons, IH, E. }
  rewrite (Hf (fsum npoints)) in Hv. rewrite (Hf (λ ms, Z.of_nat (length ms))) in Hl.
  cbn [mismatches verified accesses]. split_and!.
  - exact Hm.
  - etrans; [exact Hv|exact Hp].
  - apply Nat2Z.inj. congruence.
Qed.

(** *** A tile: two rows of a matrix of pitch [N] read, one element of another tensor stored *)
(** the conditions on the sites, decided on the coefficients *)
Definition same_coefs (xs ys : list Term) : bool := bool_decide (normalise xs = normalise ys).
Lemma same_coefs_spec xs ys mo : same_coefs xs ys = true → Arena.coef xs mo = Arena.coef ys mo.
Proof. intros H%bool_decide_eq_true. by rewrite <- (coef_normalise xs), H, coef_normalise. Qed.
Definition sum_terms (n : nat) (c : nat → Z) (ts : nat → list Term) : list Term := seq 0 n ≫= λ j, scale (c j) (ts j).
Lemma coef_sum_terms n c ts mo : Arena.coef (sum_terms n c ts) mo = sum n (λ j, c j * Arena.coef (ts j) mo).
Proof.
  unfold sum_terms. induction n as [|n IH]; [done|].
  rewrite seq_S, bind_app, coef_app, IH. cbn [mbind list_bind sum]. rewrite app_nil_r. by rewrite coef_scale.
Qed.
Definition derived_terms (D : Discovery) (A : Arena) (m : SiteMap) : list Term :=
  imap pair (d_derivedValue D) ≫= λ qv, mul_terms (opt_terms A (stride_at m (nPhys D + qv.1))) (terms A qv.2).
Lemma coef_derived_terms D A m mo : Arena.coef (derived_terms D A m) mo = derived_part D A m mo.
Proof.
  unfold derived_terms, derived_part. induction (imap pair (d_derivedValue D)) as [|q l IH]; [done|].
  rewrite bind_cons, coef_app, IH, fsum_cons. done.
Qed.
Definition opolyb (A : Arena) (o : option EP) : bool := match o with Some e => ispolyb A e | None => true end.
Definition site_givenb (D : Discovery) (A : Arena) (m : SiteMap) : bool :=
  match sm_base m with Some _ => true | None => false end && opolyb A (sm_base m) && forallb (opolyb A) (sm_stride m) &&
  (length (sm_coordStride m) =? d_d D)%nat && forallb (opolyb A) (sm_coordStride m) &&
  forallb (λ a, same_coefs (opt_terms A (stride_at m a))
    (sum_terms (d_d D) (λ j, ent (d_V D) a j) (λ j, opt_terms A (coordStride_at m j)))) (seq 0 (nPhys D)) &&
  forallb (λ p, ispolyb A p.2 && same_coefs (terms A p.2)
    (opt_terms A (sm_base m) ++ sum_terms (nPhys D) (coord p.1) (λ a, opt_terms A (stride_at m a)) ++ derived_terms D A m))
    (sm_points m).
Lemma ispolyb_spec A e : ispolyb A e = true → ispoly A e.
Proof.
  unfold ispolyb, ispoly, is_poly. destruct (nodes A !! e) as [[t []]|]; try done. intros ->%bool_decide_eq_true. eauto.
Qed.
Lemma opolyb_spec A o : opolyb A o = true → opoly A o.
Proof. destruct o; [apply ispolyb_spec|done]. Qed.
Lemma forallb_Forall {X} (p : X → bool) (P : X → Prop) l : (∀ x, p x = true → P x) → forallb p l = true → Forall P l.
Proof. intros HP H. rewrite forallb_forall in H. apply Forall_forall. intros x Hx%list_elem_of_In. auto. Qed.
Lemma site_givenb_spec D A m : site_givenb D A m = true → site_given D A m.
Proof.
  unfold site_givenb. rewrite !andb_true_iff. intros [[[[[[Hs Hb] Hst] Hl] Hc] Hr] Hp].
  apply (forallb_Forall _ _ _ (opolyb_spec A)) in Hst, Hc. apply Nat.eqb_eq in Hl.
  rewrite forallb_forall in Hr, Hp. split.
  - destruct (sm_base m) as [b|]; [|done]. exists b. split; [done|by apply ispolyb_spec].
  - done.
  - done.
  - intros a mo Ha. specialize (Hr a ltac:(apply in_seq; lia)). apply (same_coefs_spec _ _ mo) in Hr.
    rewrite coef_sum_terms, ocoef_opt_terms in Hr. rewrite Hr. apply sum_ext. intros j _. by rewrite ocoef_opt_terms.
  - intros p Hin%list_elem_of_In. specialize (Hp p Hin). apply andb_true_iff in Hp as [Hpp Hpc].
    split; [by apply ispolyb_spec|]. intros mo. apply (same_coefs_spec _ _ mo) in Hpc.
    rewrite !coef_app, coef_sum_terms, coef_derived_terms, ocoef_opt_terms in Hpc.
    unfold pcoef. rewrite Hpc, Z.add_assoc. do 2 f_equal. apply sum_ext. intros j _. by rewrite ocoef_opt_terms.
Qed.

(** a load at [p + 6N + 8 + 2 x0 + 8 x1 + 2N x2 + 512 q] for a derived axis [q], a store at [r + 4 x2] *)
Definition demo_point (x : list Z) (ts : list Term) : M (list Z * EP) := do e <- mkPoly i64 ts; ret (x, e).
Definition build_site (isStore : bool) (tensor : string) (sym : Z) (base : EP) (stride coords : list (option EP))
    (points : list (list Z * EP)) : SiteMap :=
  mkSiteMap None isStore false 2 0 1 2 false 0 tensor sym false false 0 0 (Some base) stride coords points None.
Definition build_demo : M Discovery :=
  let arg v nm := mkSym (mkSymbol Arg v nm 0 0 i64) in
  do p <- arg 1%nat "p"; do n <- arg 2%nat "N"; do r <- arg 3%nat "r"; do q <- arg 4%nat "q";
  do base <- mkPoly i64 [([], 8); ([0%nat], 1); ([1%nat], 6)];
  do s0 <- mkPoly i64 [([], 2)]; do s1 <- mkPoly i64 [([], 8)];
  do s2 <- mkPoly i64 [([1%nat], 2)]; do s3 <- mkPoly i64 [([], 512)];
  do base' <- mkPoly i64 [([2%nat], 1)]; do s2' <- mkPoly i64 [([], 4)];
  do p1 <- demo_point [0; 0; 0] [([], 8); ([0%nat], 1); ([1%nat], 6); ([3%nat], 512)];
  do p2 <- demo_point [1; 3; 2] [([], 34); ([0%nat], 1); ([1%nat], 10); ([3%nat], 512)];
  do p3 <- demo_point [1; 3; 2] [([], 8); ([2%nat], 1)];
  ret (mkDiscovery 4
    [build_site false "p" 0 base [Some s0; Some s1; Some s2; Some s3] [Some s0; Some s2] [p1; p2];
     build_site true "r" 2 base' [None; None; Some s2'; None] [None; Some s2'] [p3]]
    2 [[1; 0]; [4; 0]; [0; 1]; [0; 0]] [false; true] ["x0"; "x1"; "x2"; "q"] ["q = ?"] [q]).
Definition build_demo_D : Discovery := match build_demo arena0 with Some (D, _) => D | None => mkDiscovery 0 [] 0 [] [] [] [] [] end.
Definition build_demo_arena : Arena := state_of build_demo arena0.
Lemma build_round_trip_witness : ∃ P s',
  build (λ v, Some (v - 1)%nat) (λ _, "site") (λ _ _, "") (λ _, "") build_demo_D [] "k(const __half*, int, float*)"
    build_demo_arena = Some (P, s') ∧
  verified P = 3 ∧ mismatches P = 0 ∧ length (accesses P) = 2%nat ∧ ((elemBytes <$> tensors P) = [2; 4]).
Proof.
  destruct (build_round_trip (λ v, Some (v - 1)%nat) (λ _, "site") (λ _ _, "") (λ _, "") build_demo_D build_demo_arena []
    "k(const __half*, int, float*)") as (P & s' & E & _ & _ & Hm & Hv & Hl).
  - apply wfb_wf. by vm_compute.
  - split.
    + split; [vm_compute; lia| |].
      * intros a j Ha Hj. change (nPhys build_demo_D) with 3%nat in Ha. change (d_nAxes build_demo_D) with 4%nat in Ha.
        change (d_d build_demo_D) with 2%nat in Hj. assert (a = 3)%nat as -> by lia.
        by destruct j as [|[|j]]; [| |lia].
      * apply (forallb_Forall _ _ _ (ispolyb_spec _)). by vm_compute.
    + assert (∀ m, m ∈ d_sites build_demo_D → site_givenb build_demo_D build_demo_arena m = true ∧
        is_Some (symbols build_demo_arena !! Z.to_nat (sm_tensorSym m))) as H; [|by intros m Hm _; destruct (H m Hm);
          split; [apply site_givenb_spec|]].
      apply Forall_forall. vm_compute. repeat constructor; by eexists.
  - exists P, s'. split; [exact E|]. split; [exact Hv|]. split; [exact Hm|]. split; [exact Hl|].
    clear Hm Hv Hl. vm_compute in E. injection E as <- _. reflexivity.
Defined.
