(* ===== verification/Schedule.v ===== *)
(** The schedule language: cpp/mvcc-llvm/schedule.h and schedule.cpp.  Data, names,
    well-formedness, the source schedule, the edits. *)
From S2P Require Import Prelude Cstd SigAlgebra Stir.
Open Scope string_scope.
Open Scope Z_scope.

(** ** Data *)
Inductive Bind := Lane | Simdgroup | BlockX | BlockY | BlockZ | Unroll | Time | Replicate | Launch | Device.
Inductive Storage := SDevice | Threadgroup | Register | CoopTensor | Recompute.
Inductive Engine := TensorOp | ScalarFma | SimdVector.
Inductive Exchange := XNone | ShuffleTree | ThreadgroupBuffer | Atomic | Collective.
Inductive Prefetch := AtUse | IterationStart | Rotate.
Inductive Predicate := Branch | SelectClamp | ZeroPage | PNone.
#[export] Instance Bind_eq_dec : EqDecision Bind. Proof. solve_decision. Defined.
#[export] Instance Storage_eq_dec : EqDecision Storage. Proof. solve_decision. Defined.
#[export] Instance Engine_eq_dec : EqDecision Engine. Proof. solve_decision. Defined.
#[export] Instance Exchange_eq_dec : EqDecision Exchange. Proof. solve_decision. Defined.
#[export] Instance Prefetch_eq_dec : EqDecision Prefetch. Proof. solve_decision. Defined.
#[export] Instance Predicate_eq_dec : EqDecision Predicate. Proof. solve_decision. Defined.

Record Factor := mkFactor { f_name : string; coord : nat; f_size : Z; bind : Bind }.
Record AccessStorage := mkStorage { a_tensor : Z; a_kind : Storage; ringStages : Z; ringBytes : Z }.
Record StageSchedule := mkStage {
  factors : list Factor;
  order : list string;
  storage : list AccessStorage;
  exchange : Exchange;
  engine : Engine;
  tensorM : Z; tensorN : Z; tensorK : Z;
  prefetch : Prefetch;
  predicate : Predicate;
  fusedWith : list nat;
  threadScale : Z;
  smemBytes : Z }.
Record Schedule := mkSchedule { s_kernel : string; s_why : string; stages : list StageSchedule }.
#[export] Instance Factor_eq_dec : EqDecision Factor. Proof. solve_decision. Defined.
#[export] Instance AccessStorage_eq_dec : EqDecision AccessStorage. Proof. solve_decision. Defined.
#[export] Instance StageSchedule_eq_dec : EqDecision StageSchedule. Proof. solve_decision. Defined.
#[export] Instance Schedule_eq_dec : EqDecision Schedule. Proof. solve_decision. Defined.

(** the default member initialisers *)
Definition factor0 : Factor := mkFactor "" 0 0 Time.
Definition storage0 : AccessStorage := mkStorage 0 SDevice 0 0.
Definition stage0 : StageSchedule :=
  mkStage [] [] [] XNone ScalarFma 32 32 32 AtUse Branch [] 1 0.
Definition schedule0 : Schedule := mkSchedule "" "" [].

(** ** Assignments to the members of a stage *)
Definition set_factors fs st := mkStage fs (order st) (storage st) (exchange st) (engine st)
  (tensorM st) (tensorN st) (tensorK st) (prefetch st) (predicate st) (fusedWith st) (threadScale st) (smemBytes st).
Definition set_order o st := mkStage (factors st) o (storage st) (exchange st) (engine st)
  (tensorM st) (tensorN st) (tensorK st) (prefetch st) (predicate st) (fusedWith st) (threadScale st) (smemBytes st).
Definition set_storage a st := mkStage (factors st) (order st) a (exchange st) (engine st)
  (tensorM st) (tensorN st) (tensorK st) (prefetch st) (predicate st) (fusedWith st) (threadScale st) (smemBytes st).
Definition set_exchange x st := mkStage (factors st) (order st) (storage st) x (engine st)
  (tensorM st) (tensorN st) (tensorK st) (prefetch st) (predicate st) (fusedWith st) (threadScale st) (smemBytes st).
Definition set_engine e st := mkStage (factors st) (order st) (storage st) (exchange st) e
  (tensorM st) (tensorN st) (tensorK st) (prefetch st) (predicate st) (fusedWith st) (threadScale st) (smemBytes st).
Definition set_tensorMNK m n k st := mkStage (factors st) (order st) (storage st) (exchange st) (engine st)
  m n k (prefetch st) (predicate st) (fusedWith st) (threadScale st) (smemBytes st).
Definition set_prefetch p st := mkStage (factors st) (order st) (storage st) (exchange st) (engine st)
  (tensorM st) (tensorN st) (tensorK st) p (predicate st) (fusedWith st) (threadScale st) (smemBytes st).
Definition set_predicate p st := mkStage (factors st) (order st) (storage st) (exchange st) (engine st)
  (tensorM st) (tensorN st) (tensorK st) (prefetch st) p (fusedWith st) (threadScale st) (smemBytes st).
Definition set_threadScale n st := mkStage (factors st) (order st) (storage st) (exchange st) (engine st)
  (tensorM st) (tensorN st) (tensorK st) (prefetch st) (predicate st) (fusedWith st) n (smemBytes st).
Definition set_smemBytes n st := mkStage (factors st) (order st) (storage st) (exchange st) (engine st)
  (tensorM st) (tensorN st) (tensorK st) (prefetch st) (predicate st) (fusedWith st) (threadScale st) n.
Definition set_bind b f := mkFactor (f_name f) (coord f) (f_size f) b.
Definition set_kind k a := mkStorage (a_tensor a) k (ringStages a) (ringBytes a).
Definition set_ringStages n a := mkStorage (a_tensor a) (a_kind a) n (ringBytes a).

(** ** Names *)
Definition bindName (b : Bind) : string :=
  match b with
  | Lane => "lane" | Simdgroup => "simdgroup" | BlockX => "block.x" | BlockY => "block.y"
  | BlockZ => "block.z" | Unroll => "unroll" | Time => "time" | Replicate => "replicate"
  | Launch => "launch" | Device => "device"
  end.
Definition storageName (s : Storage) : string :=
  match s with
  | SDevice => "device" | Threadgroup => "threadgroup" | Register => "register"
  | CoopTensor => "coop-tensor" | Recompute => "recompute"
  end.
Definition engineName (e : Engine) : string :=
  match e with TensorOp => "tensor-op" | ScalarFma => "scalar-fma" | SimdVector => "simd-vector" end.
Definition exchangeName (x : Exchange) : string :=
  match x with
  | XNone => "none" | ShuffleTree => "shuffle-tree" | ThreadgroupBuffer => "threadgroup-buffer"
  | Atomic => "atomic" | Collective => "collective"
  end.
Definition prefetchName (p : Prefetch) : string :=
  match p with AtUse => "at-use" | IterationStart => "iteration-start" | Rotate => "rotate" end.
Definition predicateName (p : Predicate) : string :=
  match p with
  | Branch => "branch" | SelectClamp => "select+clamp" | ZeroPage => "zero-page" | PNone => "none"
  end.

(** the parsers: [None] when the source returns false and leaves its output unchanged *)
Definition parseBind (s : string) : option Bind :=
  if String.eqb s "lane" then Some Lane
  else if String.eqb s "simdgroup" then Some Simdgroup
  else if String.eqb s "block.x" then Some BlockX
  else if String.eqb s "block.y" then Some BlockY
  else if String.eqb s "block.z" then Some BlockZ
  else if String.eqb s "unroll" then Some Unroll
  else if String.eqb s "time" then Some Time
  else if String.eqb s "replicate" then Some Replicate
  else if String.eqb s "launch" then Some Launch
  else if String.eqb s "device" then Some Device
  else None.
Definition parseStorage (s : string) : option Storage :=
  if String.eqb s "device" then Some SDevice
  else if String.eqb s "threadgroup" then Some Threadgroup
  else if String.eqb s "register" then Some Register
  else if String.eqb s "coop-tensor" then Some CoopTensor
  else if String.eqb s "recompute" then Some Recompute
  else None.
Definition parseEngine (s : string) : option Engine :=
  if String.eqb s "tensor-op" then Some TensorOp
  else if String.eqb s "scalar-fma" then Some ScalarFma
  else if String.eqb s "simd-vector" then Some SimdVector
  else None.
Definition parseExchange (s : string) : option Exchange :=
  if String.eqb s "none" then Some XNone
  else if String.eqb s "shuffle-tree" then Some ShuffleTree
  else if String.eqb s "threadgroup-buffer" then Some ThreadgroupBuffer
  else if String.eqb s "atomic" then Some Atomic
  else if String.eqb s "collective" then Some Collective
  else None.
Definition parsePrefetch (s : string) : option Prefetch :=
  if String.eqb s "at-use" then Some AtUse
  else if String.eqb s "iteration-start" then Some IterationStart
  else if String.eqb s "rotate" then Some Rotate
  else None.
Definition parsePredicate (s : string) : option Predicate :=
  if String.eqb s "branch" then Some Branch
  else if String.eqb s "select+clamp" then Some SelectClamp
  else if String.eqb s "zero-page" then Some ZeroPage
  else if String.eqb s "none" then Some PNone
  else None.

Lemma parseBind_name b : parseBind (bindName b) = Some b. Proof. by destruct b. Qed.
Lemma parseStorage_name s : parseStorage (storageName s) = Some s. Proof. by destruct s. Qed.
Lemma parseEngine_name e : parseEngine (engineName e) = Some e. Proof. by destruct e. Qed.
Lemma parseExchange_name x : parseExchange (exchangeName x) = Some x. Proof. by destruct x. Qed.
Lemma parsePrefetch_name p : parsePrefetch (prefetchName p) = Some p. Proof. by destruct p. Qed.
Lemma parsePredicate_name p : parsePredicate (predicateName p) = Some p. Proof. by destruct p. Qed.
Create Rewrite HintDb sched.
#[export] Hint Rewrite parseBind_name parseStorage_name parseEngine_name parseExchange_name
  parsePrefetch_name parsePredicate_name : sched.

(** ** Well-formedness: [Err] carries the reason *)
Definition check_that (b : bool) (why : string) : result string unit :=
  if b then Ok tt else Err why.
(** a size the emitter can strength-reduce: 0 is '*', 3 is allowed, else a power of two *)
Definition size_ok (n : Z) : bool :=
  negb (negb (n =? 0) && negb (Z.land n (u32 (n - 1)) =? 0) && negb (n =? 3)).

Fixpoint wf_factors (P : Program) (si : nat) (fs : list Factor) (covered : gset nat)
    (names : gset string) : result string (gset nat * gset string) :=
  match fs with
  | [] => Ok (covered, names)
  | f :: fs =>
      let* _ := check_that (negb ((length (coordNames P) <=? coord f)%nat
                                   && negb (bool_decide (coordNames P = []))))
                  ("stage " +++ to_string (Z.of_nat si) +++ " factor " +++ f_name f
                   +++ " coord out of range") in
      let* _ := check_that (bool_decide (f_name f ∉ names)) ("duplicate factor " +++ f_name f) in
      let* _ := check_that (size_ok (f_size f))
                  ("factor " +++ f_name f +++ " size " +++ to_string (f_size f)
                   +++ " is not a split the emitter can strength-reduce") in
      wf_factors P si fs ({[coord f]} ∪ covered) ({[f_name f]} ∪ names)
  end.
Fixpoint wf_coords (cs : list string) (j : nat) (covered : gset nat) : result string unit :=
  match cs with
  | [] => Ok tt
  | c :: cs =>
      let* _ := check_that (bool_decide (j ∈ covered)) ("coordinate " +++ c +++ " is not bound") in
      wf_coords cs (S j) covered
  end.
Fixpoint wf_order (ns : list string) (names : gset string) : result string unit :=
  match ns with
  | [] => Ok tt
  | n :: ns =>
      let* _ := check_that (bool_decide (n ∈ names)) ("order names unknown factor " +++ n) in
      wf_order ns names
  end.
Definition wf_stage (P : Program) (si : nat) (st : StageSchedule) : result string unit :=
  let* (covered, names) := wf_factors P si (factors st) ∅ ∅ in
  let* _ := wf_coords (coordNames P) 0 covered in
  let* _ := wf_order (order st) names in
  let* _ := check_that (negb ((threadScale st =? 0) || (32 <? threadScale st)))
              "thread_scale out of range" in
  let* _ := check_that (negb (232448 <? smemBytes st)) "smem above the spill ceiling" in
  check_that (negb (bool_decide (engine st = TensorOp)
                    && ((tensorM st <? 16) || (tensorN st <? 8) || (tensorK st <? 8))))
    "tensor-op shape is below the smallest matmul2d".
Fixpoint wf_stages (P : Program) (si : nat) (sts : list StageSchedule) : result string unit :=
  match sts with
  | [] => Ok tt
  | st :: sts => let* _ := wf_stage P si st in wf_stages P (S si) sts
  end.
Definition wellFormed (P : Program) (S : Schedule) : result string unit :=
  let* _ := check_that (negb (bool_decide (stages S = []))) "no stages" in
  wf_stages P 0 (stages S).

(** ** The source schedule *)

(** an axis of a physical map: its kind ('b' thread bit, 'i' iteration, 'd' derived) and index *)
Definition axis : Type := ascii * Z.
Definition addAxis (axes : list axis) (k : ascii) (i : Z) : list axis :=
  if existsb (λ a, Ascii.eqb a.1 k && (a.2 =? i)) axes then axes else (axes ++ [(k, i)])%list.
Definition axis_kind (c : ascii) : bool := is_char "b" c || is_char "i" c || is_char "d" c.
(** the value of a run of digits, wrapping at 32 bits as the source's [unsigned] does *)
Fixpoint digits_u32 (v : Z) (s : string) : Z :=
  match s with
  | EmptyString => v
  | String c r => digits_u32 (u32 (v * 10 + (code c - 48))) r
  end.
(** the characters of the map from left to right; the fuel is the length of the text *)
Fixpoint parsePhys_go (fuel : nat) (s : string) (axes : list axis) : list axis :=
  match fuel, s with
  | S fuel, String k r =>
      if axis_kind k && match head_char r with Some d => isdigit d | None => false end
      then let '(ds, r) := span isdigit r in
           parsePhys_go fuel r (addAxis axes k (digits_u32 0 ds))
      else parsePhys_go fuel r axes
  | _, _ => axes
  end.
Definition parsePhys (s : string) : list axis := parsePhys_go (String.length s) s [].

Definition programPermits (P : Program) : Permissions :=
  default (mkPermissions true true true true) (data_permits P).

Definition count_axes (p : axis → bool) (axes : list axis) : Z := Z.of_nat (length (List.filter p axes)).
Definition tid_axis (a : axis) : bool := is_char "b" a.1.
(** the output coordinate case of the fallback factor *)
Definition coord_is_output (P : Program) (j : nat) : bool :=
  bool_decide (coordOutput P = []) || default false (coordOutput P !! j).

(** the factors coordinate [j] contributes, and the names it appends to the time order *)
Definition source_factors (P : Program) (j : nat) (cname : string) : list Factor * list string :=
  let axes := match coordPhys P !! j with Some s => parsePhys s | None => [] end in
  let tidLo := count_axes (λ a, tid_axis a && (a.2 <? 5)) axes in
  let tidHi := count_axes (λ a, tid_axis a && negb (a.2 <? 5)) axes in
  let hasTid := existsb tid_axis axes in
  let hasIter := existsb (λ a, is_char "i" a.1) axes in
  let hasDer := existsb (λ a, is_char "d" a.1) axes in
  let lane := if hasTid && negb (tidLo =? 0)
              then [mkFactor (cname +++ "_lane") j (Z.shiftl 1 (Z.min tidLo 5)) Lane] else [] in
  let sg := if hasTid && negb (tidHi =? 0)
            then [mkFactor (cname +++ "_sg") j (Z.shiftl 1 (Z.min tidHi 5)) Simdgroup] else [] in
  let k := if hasIter then [mkFactor (cname +++ "_k") j 0 Time] else [] in
  let u := if hasDer then [mkFactor (cname +++ "_u") j 0 Unroll] else [] in
  match (lane ++ sg ++ k ++ u)%list with
  | [] =>
      let out := coord_is_output P j in
      let f := mkFactor (cname +++ (if out then "_blk" else "_r")) j 1 (if out then BlockX else Time) in
      ([f], if bool_decide (bind f = Time) then [f_name f] else [])
  | fs => (fs, f_name <$> k)
  end.

Fixpoint source_coords (P : Program) (j : nat) (cs : list string) : list Factor * list string :=
  match cs with
  | [] => ([], [])
  | c :: cs =>
      let '(fs, os) := source_factors P j c in
      let '(fs', os') := source_coords P (S j) cs in ((fs ++ fs')%list, (os ++ os')%list)
  end.

Definition sourceSchedule (P : Program) : Schedule :=
  let anyR := existsb negb (coordOutput P) in
  let '(fs, os) := source_coords P 0 (coordNames P) in
  let fs := if bool_decide (coordNames P = [])
            then (fs ++ [mkFactor "c0_lane" 0 32 Lane])%list else fs in
  let st := mkStage fs os (imap (λ t _, mkStorage (Z.of_nat t) SDevice 0 0) (tensors P))
              (if anyR && partition (programPermits P) then ShuffleTree else XNone)
              (if hasAlgebra P TensorSum then TensorOp else ScalarFma) 32 32 32
              IterationStart (if bool_decide (guards P = []) then PNone else Branch) [] 1 0 in
  mkSchedule (kernel P) "source" [st].

(** ** Edits *)
Definition edit_stages (why : string) (f : StageSchedule → StageSchedule) (S : Schedule) : Schedule :=
  mkSchedule (s_kernel S) why (f <$> stages S).

Definition editEngineTensorOp : Schedule → Schedule :=
  edit_stages "engine:tensor-op" (λ st,
    set_storage ((λ a, if bool_decide (a_kind a = Register) then set_kind CoopTensor a else a)
                   <$> storage st)
      (set_tensorMNK 32 32 32 (set_engine TensorOp st))).
Definition editRestage2 : Schedule → Schedule :=
  edit_stages "restage:2" (λ st,
    set_smemBytes (if negb (smemBytes st =? 0) then Z.min (smemBytes st) 32768 else 16384)
      (set_storage ((λ a, if bool_decide (a_kind a = Threadgroup) then set_ringStages 2 a else a)
                      <$> storage st) st)).
(** rebinding the first factor that satisfies [p] *)
Fixpoint rebind_first (p : Factor → bool) (b : Bind) (fs : list Factor) : list Factor :=
  match fs with
  | [] => []
  | f :: fs => if p f then set_bind b f :: fs else f :: rebind_first p b fs
  end.
Definition bound_to (b : Bind) (f : Factor) : bool := bool_decide (bind f = b).
Definition editSimdSplit (S : Schedule) (F : Z) : Schedule :=
  edit_stages ("split:simdgroup*" +++ to_string F) (λ st,
    let rebound := existsb (bound_to Unroll) (factors st) in
    set_factors
      (if rebound
       then (λ f, if bound_to Unroll f then set_bind Simdgroup f else f) <$> factors st
       else rebind_first (λ f, bound_to Time f && negb (f_size f =? 1)) Simdgroup (factors st))
      (set_threadScale F st)) S.
Definition editDeviceStream : Schedule → Schedule :=
  edit_stages "storage:device-stream" (λ st,
    set_smemBytes 0 (set_prefetch IterationStart
      (set_storage ((λ a, if bool_decide (a_kind a = Threadgroup) then set_kind SDevice a else a)
                      <$> storage st) st))).
Definition editGuardedZeroPage : Schedule → Schedule :=
  edit_stages "predicate:zero-page" (set_predicate ZeroPage).
Definition editReplicate : Schedule → Schedule :=
  edit_stages "bind:replicate" (λ st,
    set_factors (rebind_first (bound_to Lane) Replicate (factors st)) st).
Definition editBindDevice : Schedule → Schedule :=
  edit_stages "bind:device" (λ st,
    set_exchange Collective
      (set_factors (rebind_first (bound_to BlockX) Device (factors st)) st)).

Definition stageShape (S : Schedule) : string :=
  match stages S with
  | [] => "stage-shape none"
  | st :: _ =>
      "stage-shape contraction stages=" +++ to_string (Z.of_nat (length (stages S)))
      +++ " engine=" +++ engineName (engine st)
      +++ (if existsb (bound_to Time) (factors st) then " k=time" else "")
  end.

Example source_gemm :
  f_name <$> (stages (sourceSchedule (direct.gemm "g")) ≫= factors) =
  ["m_lane"; "n_sg"; "n_k"; "k_k"].
Proof. vm_compute. reflexivity. Qed.

(** ** What well-formedness means *)

(** the unsigned members the checker reads are 32-bit *)
Definition stage_typed (st : StageSchedule) : Prop :=
  Forall (λ f, is_u32 (f_size f)) (factors st) ∧ is_u32 (threadScale st) ∧ is_u32 (smemBytes st).

Record WF_stage (P : Program) (st : StageSchedule) : Prop := {
  WF_range : coordNames P ≠ [] → Forall (λ f, (coord f < length (coordNames P))%nat) (factors st);
  WF_names : NoDup (f_name <$> factors st);
  WF_sizes : Forall (λ f, f_size f = 0 ∨ f_size f = 3 ∨ ∃ k, 0 <= k ∧ f_size f = 2 ^ k) (factors st);
  WF_cover : ∀ j, (j < length (coordNames P))%nat → j ∈ coord <$> factors st;
  WF_order : ∀ n, n ∈ order st → n ∈ f_name <$> factors st;
  WF_scale : 1 <= threadScale st <= 32;
  WF_smem : smemBytes st <= 232448;
  WF_tensor : engine st = TensorOp → 16 <= tensorM st ∧ 8 <= tensorN st ∧ 8 <= tensorK st }.

Lemma check_that_bind {A} b w (k : unit → result string A) r :
  rbind (check_that b w) k = Ok r ↔ b = true ∧ k tt = Ok r.
Proof. destruct b; cbn; naive_solver. Qed.
Lemma check_that_ok b w : check_that b w = Ok tt ↔ b = true.
Proof. destruct b; cbn; naive_solver. Qed.
Lemma rbind_ok {E A B} (m : result E A) (k : A → result E B) r :
  rbind m k = Ok r ↔ ∃ a, m = Ok a ∧ k a = Ok r.
Proof. destruct m; cbn; naive_solver. Qed.

Lemma land_pred_zero n : 0 < n → (Z.land n (n - 1) = 0 ↔ ∃ k, 0 <= k ∧ n = 2 ^ k).
Proof.
  intros Hn. split.
  - intros Hl. exists (Z.log2 n). split; [apply Z.log2_nonneg|].
    destruct (Z.log2_spec n Hn) as [Hlo Hhi].
    destruct (decide (n = 2 ^ Z.log2 n)) as [|Hne]; [done|exfalso].
    assert (Hb : Z.testbit (Z.land n (n - 1)) (Z.log2 n) = true).
    { rewrite Z.land_spec, Z.bit_log2 by done.
      replace (Z.log2 n) with (Z.log2 (n - 1)); [apply Z.bit_log2|].
      - pose proof (Z.pow_pos_nonneg 2 (Z.log2 n) ltac:(lia) (Z.log2_nonneg n)). lia.
      - apply Z.log2_unique; [apply Z.log2_nonneg|]. lia. }
    by rewrite Hl, Z.bits_0 in Hb.
  - intros (k&Hk&->). replace (2 ^ k - 1) with (Z.ones k) by (rewrite Z.ones_equiv; lia).
    rewrite Z.land_ones by done. apply Z.mod_same. lia.
Qed.
Lemma size_ok_spec n :
  is_u32 n → (size_ok n = true ↔ n = 0 ∨ n = 3 ∨ ∃ k, 0 <= k ∧ n = 2 ^ k).
Proof.
  intros Hn. unfold size_ok.
  destruct (Z.eqb_spec n 0) as [->|H0]; [cbn; split; [by left|done]|].
  rewrite u32_small by (unfold is_u32 in *; lia). pose proof (land_pred_zero n ltac:(unfold is_u32 in Hn; lia)).
  destruct (Z.eqb_spec (Z.land n (n - 1)) 0) as [|Hl], (Z.eqb_spec n 3) as [|H3]; cbn;
    split; intros; try done; naive_solver.
Qed.

Section wf_spec.
Context (P : Program).

Lemma wf_factors_spec si fs cov nm r :
  wf_factors P si fs cov nm = Ok r ↔
  (coordNames P ≠ [] → Forall (λ f, (coord f < length (coordNames P))%nat) fs) ∧
  NoDup (f_name <$> fs) ∧ (∀ f, f ∈ fs → f_name f ∉ nm) ∧
  Forall (λ f, size_ok (f_size f) = true) fs ∧
  r = (list_to_set (coord <$> fs) ∪ cov, list_to_set (f_name <$> fs) ∪ nm).
Proof.
  revert cov nm. induction fs as [|f fs IH]; intros cov nm; cbn [wf_factors].
  - split; [intros [= <-]|intros (_&_&_&_&->)].
    + split_and!; try constructor; [by intros ? ?%not_elem_of_nil|cbn; f_equal; set_solver].
    + cbn. f_equal; f_equal; set_solver.
  - rewrite !check_that_bind, IH, !Forall_cons, fmap_cons, NoDup_cons, !bool_decide_eq_true.
    rewrite negb_true_iff, andb_false_iff, Nat.leb_gt, negb_false_iff, bool_decide_eq_true.
    cbn [list_to_set fmap list_fmap].
    split.
    + intros (H1&H2&H3&H4&H5&H6&H7&->). split_and!.
      * intros Hc. split; [by destruct H1|auto].
      * intros (g&Eg&Hg)%list_elem_of_fmap. specialize (H6 g Hg). set_solver.
      * done.
      * intros g [->|Hg]%elem_of_cons; [done|]. specialize (H6 g Hg). set_solver.
      * done.
      * done.
      * f_equal; set_solver.
    + intros (Hr&[Hx Hnd]&Hn&[Hs1 Hs]&->). split_and!.
      * destruct (decide (coordNames P = [])) as [|Hc]; [by right|left]. by apply Hr.
      * apply Hn. by left.
      * done.
      * intros Hc. by apply Hr.
      * done.
      * intros g Hg [Eg%elem_of_singleton|Hg']%elem_of_union.
        -- apply Hx. rewrite <- Eg. by apply list_elem_of_fmap_2.
        -- eapply (Hn g); [by right|done].
      * done.
      * f_equal; set_solver.
Qed.
Lemma wf_coords_spec cs j cov :
  wf_coords cs j cov = Ok tt ↔ ∀ i, (i < length cs)%nat → (j + i)%nat ∈ cov.
Proof.
  revert j. induction cs as [|c cs IH]; intros j; cbn [wf_coords length].
  - split; [lia|done].
  - rewrite check_that_bind, IH, bool_decide_eq_true. split.
    + intros [Hj Hr] [|i] Hi; [by rewrite Nat.add_0_r|].
      replace (j + S i)%nat with (S j + i)%nat by lia. apply Hr. lia.
    + intros Hr. split; [rewrite <- (Nat.add_0_r j); apply Hr; lia|]. intros i Hi.
      replace (S j + i)%nat with (j + S i)%nat by lia. apply Hr. lia.
Qed.
Lemma wf_order_spec ns nm : wf_order ns nm = Ok tt ↔ ∀ n, n ∈ ns → n ∈ nm.
Proof.
  induction ns as [|n ns IH]; cbn [wf_order].
  - split; [by intros _ ? ?%not_elem_of_nil|done].
  - rewrite check_that_bind, IH, bool_decide_eq_true. set_solver.
Qed.

Lemma wf_stage_spec si st : stage_typed st → (wf_stage P si st = Ok tt ↔ WF_stage P st).
Proof.
  intros (Hsz&Hts&Hsm). unfold wf_stage. rewrite rbind_ok.
  assert (Hsizes : Forall (λ f, size_ok (f_size f) = true) (factors st) ↔
    Forall (λ f, f_size f = 0 ∨ f_size f = 3 ∨ ∃ k, 0 <= k ∧ f_size f = 2 ^ k) (factors st)).
  { clear -Hsz. induction Hsz; rewrite ?Forall_nil, ?Forall_cons; [done|].
    by rewrite size_ok_spec, IHHsz. }
  unfold is_u32 in Hts.
  split.
  - intros ([cov nm]&(Hr&Hn&_&Hs&[= -> ->])%wf_factors_spec&H).
    apply rbind_ok in H as ([]&Hc&H). apply rbind_ok in H as ([]&Ho&H).
    rewrite wf_coords_spec in Hc. rewrite wf_order_spec in Ho.
    rewrite !check_that_bind, check_that_ok, !negb_true_iff, orb_false_iff in H.
    destruct H as ([H1 H2]&H3&H4). constructor; try done; try lia.
    + by apply Hsizes.
    + intros j Hj. specialize (Hc j Hj). set_solver.
    + intros n Hin. specialize (Ho n Hin). set_solver.
    + intros E. rewrite bool_decide_true in H4 by done. cbn in H4. lia.
  - intros [Hr Hn Hs Hc Ho Hsc Hm Ht]. eexists (_, _). split.
    { apply wf_factors_spec. split_and!; try done; by apply Hsizes. }
    rewrite rbind_ok. exists tt. split.
    { apply wf_coords_spec. intros i Hi. specialize (Hc i Hi). set_solver. }
    rewrite rbind_ok. exists tt. split.
    { apply wf_order_spec. intros n Hin. specialize (Ho n Hin). set_solver. }
    rewrite !check_that_bind, check_that_ok, !negb_true_iff, orb_false_iff.
    split_and!; try lia. destruct (decide (engine st = TensorOp)) as [E|E].
    + rewrite bool_decide_true by done. specialize (Ht E). cbn. lia.
    + by rewrite bool_decide_false.
Qed.
Lemma wf_stages_spec si sts :
  Forall stage_typed sts → (wf_stages P si sts = Ok tt ↔ Forall (WF_stage P) sts).
Proof.
  intros Ht. revert si. induction Ht as [|st sts Hst _ IH]; intros si; cbn [wf_stages].
  - split; [constructor|done].
  - rewrite rbind_ok, Forall_cons, <- (wf_stage_spec si), <- (IH (S si)) by done.
    split; [intros ([]&?&?); done|intros []; by exists tt].
Qed.
Lemma wellFormed_iff S :
  Forall stage_typed (stages S) →
  (wellFormed P S = Ok tt ↔ stages S ≠ [] ∧ Forall (WF_stage P) (stages S)).
Proof.
  intros Ht. unfold wellFormed. rewrite check_that_bind, wf_stages_spec by done.
  by rewrite negb_true_iff, bool_decide_eq_false.
Qed.
End wf_spec.

(** ** The source schedule and the edits are well-formed *)
Definition suffix_ok (s : string) : Prop := ∃ r, s = String "_" r ∧ has_char "_" r = false.
Lemma suffix_inj a b s t : suffix_ok s → suffix_ok t → a +++ s = b +++ t → a = b ∧ s = t.
Proof.
  intros (r&->&Hr) (q&->&Hq) E. pose proof (split_last_app "_" a r Hr) as H1.
  pose proof (split_last_app "_" b q Hq) as H2. rewrite E, H2 in H1. by injection H1 as -> ->.
Qed.

(** what the coordinate [c] at index [j] contributes to the source stage *)
Record contributes (j : nat) (c : string) (fs : list Factor) (os : list string) : Prop := {
  con_coord : Forall (λ f, coord f = j) fs;
  con_some : fs ≠ [];
  con_name : Forall (λ f, ∃ s, suffix_ok s ∧ f_name f = c +++ s) fs;
  con_nodup : NoDup (f_name <$> fs);
  con_size : Forall (λ f, f_size f = 0 ∨ f_size f = 3 ∨ ∃ k, 0 <= k ∧ f_size f = 2 ^ k) fs;
  con_u32 : Forall (λ f, is_u32 (f_size f)) fs;
  con_order : ∀ n, n ∈ os → n ∈ f_name <$> fs }.

Lemma shiftl_size n : 0 <= n → Z.shiftl 1 n = 2 ^ n.
Proof. intros. by rewrite Z.shiftl_mul_pow2, Z.mul_1_l. Qed.

Definition optional {A} (b : bool) (x : A) : list A := if b then [x] else [].
Lemma optional_sublist {A} b (x : A) : optional b x `sublist_of` [x].
Proof. destruct b; cbn; [done|apply sublist_nil_l]. Qed.

Definition suffixes : list string := ["_lane"; "_sg"; "_k"; "_u"; "_blk"; "_r"].
Lemma suffixes_ok s : s ∈ suffixes → suffix_ok s.
Proof.
  unfold suffixes. rewrite !elem_of_cons, elem_of_nil. intros Hs.
  destruct_or! Hs; subst; try done; by eexists.
Qed.
Lemma suffixes_names (c : string) : NoDup ((λ s, c +++ s) <$> suffixes).
Proof.
  apply (NoDup_fmap_2_strong); [|by apply (bool_decide_unpack _); vm_compute].
  intros s t Hs%suffixes_ok Ht%suffixes_ok E. by apply suffix_inj in E as [_ ?].
Qed.

(** any selection of the four physical factors contributes; so does the fallback *)
Lemma contributes_sel j c sizeL sizeS (bl bs bk bu : bool) bindL bindS bindK bindU :
  (∃ k, 0 <= k <= 5 ∧ sizeL = 2 ^ k) → (∃ k, 0 <= k <= 5 ∧ sizeS = 2 ^ k) →
  let K := optional bk (mkFactor (c +++ "_k") j 0 bindK) in
  let fs := (optional bl (mkFactor (c +++ "_lane") j sizeL bindL) ++
             optional bs (mkFactor (c +++ "_sg") j sizeS bindS) ++
             K ++ optional bu (mkFactor (c +++ "_u") j 0 bindU))%list in
  fs ≠ [] → contributes j c fs (f_name <$> K).
Proof.
  intros HL HS K fs Hne.
  assert (Hu : ∀ n, (∃ k, 0 <= k <= 5 ∧ n = 2 ^ k) → is_u32 n ∧ ∃ k, 0 <= k ∧ n = 2 ^ k).
  { intros n (k&Hk&->). pose proof (Z.pow_le_mono_r 2 k 5 ltac:(lia) ltac:(lia)).
    pose proof (Z.pow_pos_nonneg 2 k ltac:(lia) ltac:(lia)). split; [unfold is_u32; lia|].
    exists k. split; [lia|done]. }
  apply Hu in HL as [HuL HL]. apply Hu in HS as [HuS HS].
  assert (Hsub : fs `sublist_of` [mkFactor (c +++ "_lane") j sizeL bindL;
      mkFactor (c +++ "_sg") j sizeS bindS; mkFactor (c +++ "_k") j 0 bindK;
      mkFactor (c +++ "_u") j 0 bindU]).
  { apply (sublist_app _ [_] _ [_; _; _]); [apply optional_sublist|].
    apply (sublist_app _ [_] _ [_; _]); [apply optional_sublist|].
    apply (sublist_app _ [_] _ [_]); apply optional_sublist. }
  constructor; [| done | | | | |].
  - eapply Forall_sublist; [exact Hsub|]. by repeat constructor.
  - eapply Forall_sublist; [exact Hsub|].
    repeat constructor; (eexists; split; [|reflexivity]); apply suffixes_ok; set_solver.
  - eapply NoDup_sublist; [apply (fmap_sublist f_name); exact Hsub|]. cbn.
    eapply NoDup_sublist; [|apply (suffixes_names c)]. cbn. do 4 constructor. apply sublist_nil_l.
  - eapply Forall_sublist; [exact Hsub|].
    rewrite !Forall_cons, Forall_nil. cbn. split_and!; auto.
  - eapply Forall_sublist; [exact Hsub|]. rewrite !Forall_cons, Forall_nil. cbn. by split_and!.
  - intros n Hn. subst fs. rewrite !fmap_app. set_solver.
Qed.
Lemma contributes_fallback j c (out : bool) :
  let f := mkFactor (c +++ (if out then "_blk" else "_r")) j 1 (if out then BlockX else Time) in
  contributes j c [f] (if bool_decide (bind f = Time) then [f_name f] else []).
Proof.
  constructor; cbn.
  - by repeat constructor.
  - done.
  - constructor; [|done]. exists (if out then "_blk" else "_r").
    split; [|done]. apply suffixes_ok. unfold suffixes. destruct out; repeat constructor.
  - apply NoDup_singleton.
  - constructor; [|done]. right. right. by exists 0.
  - by repeat constructor.
  - intros n. destruct out; cbn; set_solver.
Qed.
Lemma contributes_of P j c : let '(fs, os) := source_factors P j c in contributes j c fs os.
Proof.
  unfold source_factors. set (axes := match coordPhys P !! j with Some s => _ | None => _ end).
  set (lo := count_axes _ axes). set (hi := count_axes (λ a, tid_axis a && negb _) axes).
  assert (Hpow : ∀ n, 0 <= n → ∃ k, 0 <= k <= 5 ∧ Z.shiftl 1 (Z.min n 5) = 2 ^ k).
  { intros n Hn. exists (Z.min n 5). split; [lia|]. apply shiftl_size. lia. }
  pose proof (contributes_sel j c (Z.shiftl 1 (Z.min lo 5)) (Z.shiftl 1 (Z.min hi 5))
    (existsb tid_axis axes && negb (lo =? 0)) (existsb tid_axis axes && negb (hi =? 0))
    (existsb (λ a, is_char "i" a.1) axes) (existsb (λ a, is_char "d" a.1) axes)
    Lane Simdgroup Time Unroll
    (Hpow lo ltac:(unfold lo, count_axes; lia)) (Hpow hi ltac:(unfold hi, count_axes; lia))) as H.
  unfold optional in H. cbv zeta in H. cbv zeta.
  match type of H with ?l ≠ [] → _ => destruct l as [|f fs] end.
  - apply contributes_fallback.
  - by apply H.
Qed.

(** the factors of the coordinates [cs] from index [j] on *)
Lemma source_coords_spec P j cs :
  NoDup cs →
  let '(fs, os) := source_coords P j cs in
  Forall (λ f, (j <= coord f < j + length cs)%nat ∧ ∃ c s, c ∈ cs ∧ suffix_ok s ∧ f_name f = c +++ s) fs ∧
  NoDup (f_name <$> fs) ∧
  Forall (λ f, f_size f = 0 ∨ f_size f = 3 ∨ ∃ k, 0 <= k ∧ f_size f = 2 ^ k) fs ∧
  Forall (λ f, is_u32 (f_size f)) fs ∧
  (∀ i, (j <= i < j + length cs)%nat → i ∈ coord <$> fs) ∧
  (∀ n, n ∈ os → n ∈ f_name <$> fs).
Proof.
  intros Hnd. revert j. induction Hnd as [|c cs Hc Hcs IH]; intros j; cbn [source_coords].
  { split_and!; try constructor; try set_solver. cbn. lia. }
  pose proof (contributes_of P j c) as Hj. destruct (source_factors P j c) as [fs os].
  specialize (IH (S j)). destruct (source_coords P (S j) cs) as [fs' os'].
  destruct Hj as [Hco Hne Hnm Hndf Hsz Hu Hor]. destruct IH as (IHf&IHn&IHs&IHu&IHc&IHo).
  rewrite !fmap_app. split_and!.
  - apply Forall_app. split.
    + rewrite Forall_forall in *. intros f Hf. specialize (Hco f Hf). specialize (Hnm f Hf) as (s&?&?).
      cbn [length]. split; [lia|]. exists c, s. split; [by left|done].
    + eapply Forall_impl; [exact IHf|]. cbn. intros f [? (c'&s&?&?&?)]. split; [lia|].
      exists c', s. split; [by right|done].
  - apply NoDup_app. split_and!; [done| |done]. intros n Hn Hn'.
    apply list_elem_of_fmap in Hn as (f&->&Hf). apply list_elem_of_fmap in Hn' as (f'&E&Hf').
    rewrite Forall_forall in *. destruct (Hnm f Hf) as (s&Hs&E1).
    destruct (IHf f' Hf') as [_ (c'&s'&Hc'&Hs'&E2)]. rewrite E1, E2 in E.
    apply suffix_inj in E as [-> _]; done.
  - by apply Forall_app.
  - by apply Forall_app.
  - cbn [length]. intros i Hi. destruct (decide (i = j)) as [->|].
    + destruct fs as [|f fs]; [done|]. apply Forall_inv in Hco. cbn in Hco. subst j.
      apply elem_of_app. left. by left.
    + apply elem_of_app. right. apply IHc. lia.
  - intros n [Hn|Hn]%elem_of_app; apply elem_of_app; [left|right]; auto.
Qed.

(** *** Edits keep the splits *)
Definition split_of (f : Factor) : string * nat * Z := (f_name f, coord f, f_size f).
Definition same_splits (st st' : StageSchedule) : Prop :=
  split_of <$> factors st = split_of <$> factors st' ∧ order st = order st'.

Lemma Forall_splits (Q : string * nat * Z → Prop) st st' :
  same_splits st st' →
  Forall (λ f, Q (split_of f)) (factors st) → Forall (λ f, Q (split_of f)) (factors st').
Proof.
  intros [E _] H. assert (HQ : Forall Q (split_of <$> factors st)) by (by apply Forall_fmap).
  rewrite E in HQ.
  by apply (Forall_fmap split_of) in HQ.
Qed.
Lemma fmap_splits {A} (g : string * nat * Z → A) st st' :
  same_splits st st' → (λ f, g (split_of f)) <$> factors st = (λ f, g (split_of f)) <$> factors st'.
Proof.
  intros [E _]. change (λ f, g (split_of f)) with (g ∘ split_of).
  by rewrite !list_fmap_compose, E.
Qed.

Lemma WF_same_splits P st st' :
  same_splits st st' → WF_stage P st →
  1 <= threadScale st' <= 32 → smemBytes st' <= 232448 →
  (engine st' = TensorOp → 16 <= tensorM st' ∧ 8 <= tensorN st' ∧ 8 <= tensorK st') →
  WF_stage P st'.
Proof.
  intros Hs [Hr Hn Hz Hc Ho _ _ _] ???. pose proof (fmap_splits (λ t, t.1.1) _ _ Hs) as En.
  pose proof (fmap_splits (λ t, t.1.2) _ _ Hs) as Ec. cbn in En, Ec.
  change (λ f, f_name f) with f_name in En. change (λ f, coord f) with coord in Ec.
  constructor; try done.
  - intros HP. apply (Forall_splits (λ t, (t.1.2 < length (coordNames P))%nat) _ _ Hs), Hr, HP.
  - by rewrite <- En.
  - by apply (Forall_splits (λ t, t.2 = 0 ∨ t.2 = 3 ∨ ∃ k, 0 <= k ∧ t.2 = 2 ^ k) _ _ Hs).
  - by rewrite <- Ec.
  - rewrite <- En. destruct Hs as [_ <-]. done.
Qed.

Lemma rebind_first_splits p b fs : split_of <$> rebind_first p b fs = split_of <$> fs.
Proof.
  induction fs as [|f fs IH]; [done|]. cbn [rebind_first]. destruct (p f); [done|].
  rewrite !fmap_cons. by rewrite IH.
Qed.
Lemma rebind_all_splits (p : Factor → bool) b (fs : list Factor) :
  split_of <$> ((λ f, if p f then set_bind b f else f) <$> fs) = split_of <$> fs.
Proof.
  rewrite <- list_fmap_compose. apply list_fmap_ext. intros ? f _. cbn. by destruct (p f).
Qed.

Lemma edit_stages_WF P why f S :
  (∀ st, WF_stage P st → WF_stage P (f st)) →
  stages S ≠ [] ∧ Forall (WF_stage P) (stages S) →
  stages (edit_stages why f S) ≠ [] ∧ Forall (WF_stage P) (stages (edit_stages why f S)).
Proof.
  intros Hf [Hne HS]. cbn. split; [by destruct (stages S)|].
  apply Forall_fmap. eapply Forall_impl; [exact HS|]. done.
Qed.

(** a schedule all of whose stages satisfy the specification, and its unsigned members *)
Definition schedule_ok (P : Program) (S : Schedule) : Prop :=
  stages S ≠ [] ∧ Forall (WF_stage P) (stages S).

(** the edits the search applies, and the two others *)
Definition search_edits (S : Schedule) : list Schedule :=
  [editEngineTensorOp S; editRestage2 S; editSimdSplit S 2; editSimdSplit S 4;
   editDeviceStream S; editGuardedZeroPage S].
Definition other_edits (S : Schedule) : list Schedule := [editReplicate S; editBindDevice S].

Lemma edits_ok P S E : schedule_ok P S → E ∈ (search_edits S ++ other_edits S)%list → schedule_ok P E.
Proof.
  intros HS HE. cbn [search_edits other_edits app] in HE.
  repeat (apply elem_of_cons in HE as [->|HE]); [..|by apply elem_of_nil in HE];
    (apply edit_stages_WF; [|exact HS]);
    intros st Hst; pose proof Hst as [_ _ _ _ _ Hsc Hsm Ht];
    (eapply WF_same_splits; [|exact Hst|..]); try (by split); cbn; try lia; try done.
  - by case_match; lia.
  - split; [|done]. cbn [factors set_factors]. case_match; [by rewrite rebind_all_splits|].
    by rewrite rebind_first_splits.
  - split; [|done]. cbn [factors set_factors]. case_match; [by rewrite rebind_all_splits|].
    by rewrite rebind_first_splits.
  - split; [|done]. cbn. by rewrite rebind_first_splits.
  - split; [|done]. cbn. by rewrite rebind_first_splits.
Qed.

Lemma source_ok P : NoDup (coordNames P) → schedule_ok P (sourceSchedule P).
Proof.
  intros Hnd. pose proof (source_coords_spec P 0 _ Hnd) as H. unfold sourceSchedule.
  destruct (source_coords P 0 (coordNames P)) as [fs os] eqn:E. destruct H as (Hf&Hn&Hz&_&Hc&Ho).
  split; [done|]. cbn [stages]. constructor; [|done].
  destruct (decide (coordNames P = [])) as [He|He].
  - rewrite He in E. cbn in E. simplify_eq. rewrite bool_decide_true by done.
    constructor; cbn; try lia; try set_solver.
    + apply NoDup_singleton.
    + constructor; [|done]. right. right. by exists 5.
    + rewrite He. cbn. lia.
  - rewrite bool_decide_false by done. constructor; cbn; try lia; try done.
    + intros _. eapply Forall_impl; [exact Hf|]. cbn. intros f [? _]. lia.
    + intros j Hj. apply Hc. lia.
Qed.

Lemma source_typed P : NoDup (coordNames P) → Forall stage_typed (stages (sourceSchedule P)).
Proof.
  intros Hnd. pose proof (source_coords_spec P 0 _ Hnd) as H. unfold sourceSchedule.
  destruct (source_coords P 0 (coordNames P)) as [fs os]. destruct H as (_&_&_&Hu&_).
  cbn. constructor; [|done]. split_and!; cbn; try (unfold is_u32; lia).
  case_bool_decide; [|done]. apply Forall_app. split; [done|]. by repeat constructor.
Qed.
Lemma source_wellFormed P : NoDup (coordNames P) → wellFormed P (sourceSchedule P) = Ok tt.
Proof. intros. apply wellFormed_iff; [by apply source_typed|by apply source_ok]. Qed.

(** The checker accepts exactly the well-formed schedules: at least one stage, and in each
    stage distinct factor names, coordinates in range and all bound, sizes the emitter can
    strength-reduce, time orders over known factors, thread scale, memory and tensor shapes in
    range. *)
Theorem wellFormed_spec P S :
  Forall stage_typed (stages S) → (wellFormed P S = Ok tt ↔ schedule_ok P S).
Proof. apply wellFormed_iff. Qed.

(** The schedule recovered from any program whose coordinates have distinct names is
    well-formed, and so is every edit of it the search can build. *)
Theorem source_and_edits_wellFormed P :
  NoDup (coordNames P) →
  schedule_ok P (sourceSchedule P) ∧
  (∀ S E, schedule_ok P S → E ∈ (search_edits S ++ other_edits S)%list → schedule_ok P E).
Proof. intros. split; [by apply source_ok|]. intros. by eapply edits_ok. Qed.
Lemma source_and_edits_wellFormed_witness : schedule_ok (direct.gemm "g") (sourceSchedule (direct.gemm "g")).
Proof.
  apply source_and_edits_wellFormed. apply (bool_decide_unpack _). vm_compute. exact I.
Defined.
Lemma wellFormed_spec_witness : schedule_ok (direct.gemm "g") (mkSchedule "g" "w"
  [set_factors [mkFactor "m" 0 32 Lane; mkFactor "n" 1 0 Time; mkFactor "k" 2 3 Time] stage0]).
Proof.
  apply wellFormed_spec.
  - constructor; [|done]. split_and!; cbn; try (unfold is_u32; lia).
    repeat constructor; cbn; unfold is_u32; lia.
  - vm_compute. reflexivity.
Defined.
