(* ===== verification/ScheduleText.v ===== *)
(** The text form of schedules: [dump], [parse] and [parseText] of cpp/mvcc-llvm/schedule.cpp. *)
From S2P Require Import Prelude Cstd SigAlgebra Stir Schedule.
Open Scope string_scope.
Open Scope Z_scope.

(** ** Printing *)
Definition dump_header (S : Schedule) : string :=
  "schedule " +++ (if is_empty (s_kernel S) then "_" else s_kernel S) +++ " why=" +++ s_why S
  +++ " stages=" +++ to_string (Z.of_nat (length (stages S))).
Definition dump_stage_line (i : nat) (st : StageSchedule) : string :=
  "  stage " +++ to_string (Z.of_nat i) +++ " engine=" +++ engineName (engine st)
  +++ " exchange=" +++ exchangeName (exchange st) +++ " prefetch=" +++ prefetchName (prefetch st)
  +++ " predicate=" +++ predicateName (predicate st)
  +++ " thread_scale=" +++ to_string (threadScale st) +++ " smem=" +++ to_string (smemBytes st).
Definition dump_factor (f : Factor) : string :=
  "    split " +++ f_name f +++ " coord=" +++ to_string (Z.of_nat (coord f))
  +++ " size=" +++ (if f_size f =? 0 then "*" else to_string (f_size f))
  +++ " bind=" +++ bindName (bind f).
Definition dump_order (ns : list string) : list string :=
  match ns with
  | [] => []
  | _ => ["    order" +++ fold_right (λ n s, " " +++ n +++ s) "" ns]
  end.
Definition dump_storage (a : AccessStorage) : string :=
  "    storage t" +++ to_string (a_tensor a) +++ " " +++ storageName (a_kind a)
  +++ (if ringStages a =? 0 then "" else " ring=" +++ to_string (ringStages a)).
Definition dump_stage (i : nat) (st : StageSchedule) : list string :=
  (dump_stage_line i st :: (dump_factor <$> factors st) ++ dump_order (order st)
    ++ (dump_storage <$> storage st))%list.
Fixpoint dump_stages (i : nat) (sts : list StageSchedule) : list string :=
  match sts with [] => [] | st :: sts => (dump_stage i st ++ dump_stages (S i) sts)%list end.
Definition dump (S : Schedule) : list string := dump_header S :: dump_stages 0 (stages S).

(** the lines joined with newlines, as the search's [canon] and the callers write them *)
Fixpoint text_of (ls : list string) : string :=
  match ls with [] => "" | l :: ls => l +++ String (chr 10) (text_of ls) end.

(** ** Parsing *)
Definition blank (c : ascii) : bool := is_char " " c || is_char (chr 9) c.
Definition blank_end (c : ascii) : bool := blank c || is_char (chr 13) c.
Fixpoint rtrim (s : string) : string :=
  match s with
  | EmptyString => ""
  | String c r => let r := rtrim r in if is_empty r && blank_end c then "" else String c r
  end.
Definition trim (s : string) : string := rtrim (drop_while blank s).
Definition after (s p : string) : string := trim (drop_chars (String.length p) s).

(** the message the source returns, or the exception [std::stoul] throws through it *)
Inductive serror := SErr (msg : string) | SThrow.

Record pstate := mkPstate {
  p_kernel : string;
  p_why : string;
  p_done : list StageSchedule;
  p_cur : option StageSchedule }.
Definition pstate0 : pstate := mkPstate "" "" [] None.

(** [(unsigned)std::stoul(s)] *)
Definition stoul_u32 (s : string) : result serror Z :=
  match stoul s with Some v => Ok (u32 v) | None => Err SThrow end.
Definition opt_set {A} (o : option A) (f : A → StageSchedule → StageSchedule) (st : StageSchedule) :
    StageSchedule :=
  match o with Some a => f a st | None => st end.

Definition stage_token (st : StageSchedule) (tok : string) : result serror StageSchedule :=
  if starts tok "engine=" then Ok (opt_set (parseEngine (drop_chars 7 tok)) set_engine st)
  else if starts tok "exchange=" then Ok (opt_set (parseExchange (drop_chars 9 tok)) set_exchange st)
  else if starts tok "prefetch=" then Ok (opt_set (parsePrefetch (drop_chars 9 tok)) set_prefetch st)
  else if starts tok "predicate=" then Ok (opt_set (parsePredicate (drop_chars 10 tok)) set_predicate st)
  else if starts tok "thread_scale=" then
    let* v := stoul_u32 (drop_chars 13 tok) in Ok (set_threadScale v st)
  else if starts tok "smem=" then
    let* v := stoul_u32 (drop_chars 5 tok) in Ok (set_smemBytes v st)
  else Ok st.
Definition split_token (f : Factor) (tok : string) : result serror Factor :=
  if starts tok "coord=" then
    let* v := stoul_u32 (drop_chars 6 tok) in Ok (mkFactor (f_name f) (Z.to_nat v) (f_size f) (bind f))
  else if starts tok "size=" then
    let v := drop_chars 5 tok in
    let* n := (if String.eqb v "*" then Ok 0 else stoul_u32 v) in
    Ok (mkFactor (f_name f) (coord f) n (bind f))
  else if starts tok "bind=" then
    match parseBind (drop_chars 5 tok) with
    | Some b => Ok (set_bind b f)
    | None => Err (SErr ("bad bind " +++ tok))
    end
  else Ok f.
Definition ring_token (a : AccessStorage) (tok : string) : result serror AccessStorage :=
  if starts tok "ring=" then
    let* v := stoul_u32 (drop_chars 5 tok) in Ok (set_ringStages v a)
  else if starts tok "ring_bytes=" then
    let* v := stoul_u32 (drop_chars 11 tok) in
    Ok (mkStorage (a_tensor a) (a_kind a) (ringStages a) v)
  else Ok a.

Fixpoint foldM {E A B} (f : B → A → result E B) (b : B) (l : list A) : result E B :=
  match l with [] => Ok b | a :: l => let* b := f b a in foldM f b l end.

Definition parse_schedule_line (ps : pstate) (l : string) : pstate :=
  let k := after l "schedule " in
  match split_first " " k with
  | None => mkPstate k (p_why ps) (p_done ps) (p_cur ps)
  | Some (k, rest) =>
      let why :=
        if starts rest "why=" then
          let r := drop_chars 4 rest in
          match split_first " " r with None => r | Some (w, _) => w end
        else p_why ps in
      mkPstate k why (p_done ps) (p_cur ps)
  end.
Definition parse_split_line (st : StageSchedule) (l : string) : result serror StageSchedule :=
  let toks := words (after l "split ") in
  let* f := foldM split_token
              (mkFactor (default "" (head toks)) (coord factor0) (f_size factor0) (bind factor0))
              (List.tl toks) in
  Ok (set_factors (factors st ++ [f])%list st).
Definition parse_order_line (st : StageSchedule) (l : string) : StageSchedule :=
  set_order (order st ++ words (after l "order"))%list st.
Definition parse_storage_line (st : StageSchedule) (l : string) : result serror StageSchedule :=
  let toks := words (after l "storage ") in
  let t := default "" (toks !! 0%nat) in
  let k := default "" (toks !! 1%nat) in
  let* tensor := (match t with
                  | String c r => if is_char "t" c then stoul_u32 r else Ok (a_tensor storage0)
                  | EmptyString => Ok (a_tensor storage0)
                  end) in
  match parseStorage k with
  | None => Err (SErr ("bad storage " +++ k))
  | Some kd =>
      let* a := foldM ring_token (mkStorage tensor kd 0 0) (drop 2 toks) in
      Ok (set_storage (storage st ++ [a])%list st)
  end.

Definition parse_line (ps : pstate) (raw : string) : result serror pstate :=
  let l := trim raw in
  if is_empty l || match head_char l with Some c => is_char "#" c | None => false end then Ok ps
  else if starts l "schedule " then Ok (parse_schedule_line ps l)
  else if starts l "stage " then
    let* st := foldM stage_token stage0 (words (after l "stage ")) in
    Ok (mkPstate (p_kernel ps) (p_why ps)
          (p_done ps ++ match p_cur ps with Some s => [s] | None => [] end)%list (Some st))
  else
    match p_cur ps with
    | None => Err (SErr "factor before stage")
    | Some st =>
        let* st :=
          (if starts l "split " then parse_split_line st l
           else if starts l "order" then Ok (parse_order_line st l)
           else if starts l "storage " then parse_storage_line st l
           else Err (SErr ("unrecognized schedule line: " +++ l))) in
        Ok (mkPstate (p_kernel ps) (p_why ps) (p_done ps) (Some st))
    end.

Definition parse (lines : list string) : result serror Schedule :=
  let* ps := foldM parse_line pstate0 lines in
  match p_cur ps with
  | None => Err (SErr "empty schedule")
  | Some st => Ok (mkSchedule (p_kernel ps) (p_why ps) (p_done ps ++ [st])%list)
  end.
Definition parseText (text : string) : result serror Schedule := parse (getlines text).

Example parse_dump_gemm :
  parseText (text_of (dump (sourceSchedule (direct.gemm "g")))) =
  Ok (sourceSchedule (direct.gemm "g")).
Proof. vm_compute. reflexivity. Qed.

(** ** The round trip *)

(** *** Trimming a line of tokens *)
Lemma token_not_blank c : nonspace c = true → blank c = false.
Proof. unfold nonspace. rewrite <- (negb_true_iff (blank c)). apply implb_elim. by_ascii c. Qed.
Lemma token_not_blank_end c : nonspace c = true → blank_end c = false.
Proof. unfold nonspace. rewrite <- (negb_true_iff (blank_end c)). apply implb_elim. by_ascii c. Qed.
Lemma rtrim_token t : token_ok t → rtrim t = t ∧ is_empty (rtrim t) = false.
Proof.
  intros [He Ht]. induction t as [|c t IH]; [done|]. cbn [all_chars] in Ht.
  apply andb_true_iff in Ht as [Hc Ht]. cbn [rtrim].
  assert (Hb : blank_end c = false) by (by apply token_not_blank_end).
  destruct t as [|d t]; [cbn; by rewrite Hb|].
  destruct (IH eq_refl Ht) as [E1 E2]. rewrite E2, E1. done.
Qed.
Lemma rtrim_app a b : is_empty (rtrim b) = false → rtrim (a +++ b) = a +++ rtrim b.
Proof.
  intros Hb. induction a as [|c a IH]; [done|]. cbn [String.append rtrim]. rewrite IH.
  destruct a as [|d a]; cbn [String.append is_empty andb]; [by rewrite Hb|done].
Qed.
Lemma rtrim_join ts : Forall token_ok ts → ts ≠ [] →
  rtrim (join ts) = join ts ∧ is_empty (rtrim (join ts)) = false.
Proof.
  induction 1 as [|t ts Ht Hts IH]; [done|]. intros _. destruct ts as [|u ts].
  - by apply rtrim_token.
  - rewrite join_cons. destruct IH as [E1 E2]; [done|].
    change (t +++ String " " (join (u :: ts))) with (t +++ " " +++ join (u :: ts)).
    rewrite <- append_assoc, rtrim_app, E1 by done. split; [done|].
    destruct Ht as [Ht _]. by destruct t.
Qed.
Lemma join_head ts : Forall token_ok ts → ts ≠ [] →
  ∃ c r, join ts = String c r ∧ nonspace c = true.
Proof.
  intros Hts Hne. destruct ts as [|t ts]; [done|].
  apply Forall_cons in Hts as [[He Ht] _]. destruct t as [|c t]; [done|].
  cbn [all_chars] in Ht. apply andb_true_iff in Ht as [Hc _].
  destruct ts; cbn; eauto.
Qed.
(** a line: blanks and tokens *)
Lemma trim_line b ts :
  all_chars blank b = true → Forall token_ok ts → ts ≠ [] → trim (b +++ join ts) = join ts.
Proof.
  intros Hb Hts Hne. unfold trim. destruct (join_head ts Hts Hne) as (c&r&E&Hc).
  assert (Hd : drop_while blank (b +++ join ts) = join ts).
  { rewrite E. unfold drop_while. rewrite span_app_stop; [done..|by apply token_not_blank]. }
  rewrite Hd. by apply rtrim_join.
Qed.
Lemma after_line p ts :
  Forall token_ok ts → ts ≠ [] → after (join (p :: ts)) (p +++ " ") = join ts.
Proof.
  intros Hts Hne. unfold after. destruct ts as [|t ts]; [done|]. rewrite join_cons.
  change (p +++ String " " (join (t :: ts))) with (p +++ " " +++ join (t :: ts)).
  rewrite <- append_assoc, drop_chars_app. by apply (trim_line "" (t :: ts)).
Qed.
Lemma starts_line p ts : ts ≠ [] → starts (join (p :: ts)) (p +++ " ") = true.
Proof.
  intros Hne. destruct ts as [|t ts]; [done|]. rewrite join_cons.
  change (p +++ String " " (join (t :: ts))) with (p +++ " " +++ join (t :: ts)).
  rewrite <- append_assoc. apply starts_app.
Qed.
Lemma token_lit p t : all_chars nonspace p = true → is_empty p = false →
  all_chars nonspace t = true → token_ok (p +++ t).
Proof. intros Hp He Ht. split; [by destruct p|]. by rewrite all_chars_app, Hp, Ht. Qed.

(** *** The lines of the dump as tokens *)
Definition size_str (n : Z) : string := if n =? 0 then "*" else to_string n.
Definition header_toks (S : Schedule) : list string :=
  ["schedule"; s_kernel S; "why=" +++ s_why S; "stages=" +++ to_string (Z.of_nat (length (stages S)))].
Definition stage_toks (i : nat) (st : StageSchedule) : list string :=
  [to_string (Z.of_nat i); "engine=" +++ engineName (engine st);
   "exchange=" +++ exchangeName (exchange st); "prefetch=" +++ prefetchName (prefetch st);
   "predicate=" +++ predicateName (predicate st); "thread_scale=" +++ to_string (threadScale st);
   "smem=" +++ to_string (smemBytes st)].
Definition factor_toks (f : Factor) : list string :=
  [f_name f; "coord=" +++ to_string (Z.of_nat (coord f)); "size=" +++ size_str (f_size f);
   "bind=" +++ bindName (bind f)].
Definition storage_toks (a : AccessStorage) : list string :=
  ("t" +++ to_string (a_tensor a)) :: storageName (a_kind a) ::
  (if ringStages a =? 0 then [] else ["ring=" +++ to_string (ringStages a)]).

Ltac by_join := cbn [join String.append]; rewrite ?append_nil_r, ?append_assoc; cbn [String.append];
                rewrite ?append_assoc; reflexivity.
Lemma dump_header_join S : is_empty (s_kernel S) = false → dump_header S = join (header_toks S).
Proof. intros H. unfold dump_header, header_toks. rewrite H. by_join. Qed.
Lemma dump_stage_join i st : dump_stage_line i st = "  " +++ join ("stage" :: stage_toks i st).
Proof. unfold dump_stage_line, stage_toks. by_join. Qed.
Lemma dump_factor_join f : dump_factor f = "    " +++ join ("split" :: factor_toks f).
Proof. unfold dump_factor, factor_toks, size_str. by_join. Qed.
Lemma dump_storage_join a : dump_storage a = "    " +++ join ("storage" :: storage_toks a).
Proof. unfold dump_storage, storage_toks. destruct (ringStages a =? 0); by_join. Qed.
Lemma dump_order_join n ns : dump_order (n :: ns) = ["    " +++ join ("order" :: n :: ns)].
Proof.
  cbn [dump_order]. f_equal. cbn [String.append]. do 4 f_equal.
  revert n. induction ns as [|m ns IH]; intros n; [cbn; by rewrite append_nil_r|].
  specialize (IH m). cbn in IH |- *. injection IH as IH. by rewrite IH.
Qed.

(** *** What the text keeps: the members [dump] prints, over names that are single tokens *)
Definition text_stage_ok (st : StageSchedule) : Prop :=
  stage_typed st ∧
  Forall (λ a, is_u32 (a_tensor a) ∧ is_u32 (ringStages a) ∧ is_u32 (ringBytes a)) (storage st) ∧
  Forall (λ f, token_ok (f_name f) ∧ is_u32 (Z.of_nat (coord f))) (factors st) ∧
  Forall token_ok (order st) ∧ Forall (λ a, ringBytes a = 0) (storage st) ∧
  (tensorM st = 32 ∧ tensorN st = 32 ∧ tensorK st = 32) ∧ fusedWith st = [].
Definition text_ok (S : Schedule) : Prop :=
  token_ok (s_kernel S) ∧ all_chars nonspace (s_why S) = true ∧ stages S ≠ [] ∧
  Forall text_stage_ok (stages S).

Lemma stoul_u32_to_string n : is_u32 n → stoul_u32 (to_string n) = Ok n.
Proof.
  intros Hn. unfold stoul_u32. rewrite stoul_to_string; [by rewrite u32_small|].
  unfold is_u32, is_u64 in *. lia.
Qed.

Lemma foldM_app {E A B} (f : B → A → result E B) b l k :
  foldM f b (l ++ k) = (let* b := foldM f b l in foldM f b k).
Proof. revert b. induction l as [|a l IH]; intros b; [done|]. cbn. destruct (f b a); cbn; auto. Qed.

Lemma stage_token_digits st n : stage_token st (to_string n) = Ok st.
Proof.
  destruct (to_string_head n) as (c&r&->&Hc&_). unfold stage_token.
  assert (Hd : ∀ d p, isdigit d = false → starts (String c r) (String d p) = false).
  { intros d p Hd. apply starts_head. intros ->. by rewrite Hc in Hd. }
  by rewrite !Hd by done.
Qed.
(** a token that starts with its keyword takes the keyword's branch *)
Ltac by_lit f := intros; unfold f; rewrite starts_app; reflexivity.
Lemma stage_tokens i st :
  is_u32 (threadScale st) → is_u32 (smemBytes st) →
  foldM stage_token stage0 (stage_toks i st) =
  Ok (mkStage [] [] [] (exchange st) (engine st) 32 32 32 (prefetch st) (predicate st) []
        (threadScale st) (smemBytes st)).
Proof.
  intros Ht Hs. unfold stage_toks. cbn [foldM rbind]. rewrite stage_token_digits. cbn [rbind].
  assert (E1 : ∀ s e, stage_token s ("engine=" +++ engineName e) = Ok (set_engine e s)) by (intros s []; reflexivity).
  assert (E2 : ∀ s e, stage_token s ("exchange=" +++ exchangeName e) = Ok (set_exchange e s)) by (intros s []; reflexivity).
  assert (E3 : ∀ s e, stage_token s ("prefetch=" +++ prefetchName e) = Ok (set_prefetch e s)) by (intros s []; reflexivity).
  assert (E4 : ∀ s e, stage_token s ("predicate=" +++ predicateName e) = Ok (set_predicate e s)) by (intros s []; reflexivity).
  assert (E5 : ∀ s x, stage_token s ("thread_scale=" +++ x) =
                      let* v := stoul_u32 x in Ok (set_threadScale v s)) by by_lit stage_token.
  assert (E6 : ∀ s x, stage_token s ("smem=" +++ x) =
                      let* v := stoul_u32 x in Ok (set_smemBytes v s)) by by_lit stage_token.
  rewrite E1. cbn [rbind]. rewrite E2. cbn [rbind]. rewrite E3. cbn [rbind]. rewrite E4. cbn [rbind].
  rewrite E5, stoul_u32_to_string by done. cbn [rbind].
  rewrite E6, stoul_u32_to_string by done. done.
Qed.

Lemma split_tokens f :
  is_u32 (Z.of_nat (coord f)) → is_u32 (f_size f) →
  foldM split_token (mkFactor (f_name f) (coord factor0) (f_size factor0) (bind factor0))
    (List.tl (factor_toks f)) = Ok f.
Proof.
  intros Hc Hs. unfold factor_toks. cbn [List.tl foldM].
  assert (E1 : ∀ g x, split_token g ("coord=" +++ x) =
    let* v := stoul_u32 x in Ok (mkFactor (f_name g) (Z.to_nat v) (f_size g) (bind g))) by by_lit split_token.
  assert (E2 : ∀ g x, split_token g ("size=" +++ x) =
    let* n := (if String.eqb x "*" then Ok 0 else stoul_u32 x) in
    Ok (mkFactor (f_name g) (coord g) n (bind g))) by by_lit split_token.
  assert (E3 : ∀ g b, split_token g ("bind=" +++ bindName b) = Ok (set_bind b g)) by (intros g []; reflexivity).
  assert (E4 : (if String.eqb (size_str (f_size f)) "*" then Ok 0 else stoul_u32 (size_str (f_size f)))
               = Ok (f_size f) :> result serror Z).
  { unfold size_str. destruct (Z.eqb_spec (f_size f) 0) as [->|]; [done|].
    destruct (to_string_head (f_size f)) as (c&r&E&Hd&_).
    destruct (String.eqb_spec (to_string (f_size f)) "*") as [E'|]; [|by apply stoul_u32_to_string].
    rewrite E in E'. injection E' as -> _. done. }
  rewrite E1, stoul_u32_to_string by done. cbn [rbind].
  rewrite E2, E4. cbn [rbind f_name coord bind].
  rewrite E3. cbn. rewrite Nat2Z.id. by destruct f.
Qed.

Lemma ring_tokens a :
  is_u32 (ringStages a) → ringBytes a = 0 →
  foldM ring_token (mkStorage (a_tensor a) (a_kind a) 0 0) (drop 2 (storage_toks a)) = Ok a.
Proof.
  intros Hr Hb. unfold storage_toks. cbn [drop]. destruct (Z.eqb_spec (ringStages a) 0) as [E|E]; cbn [foldM].
  - f_equal. destruct a; cbn in *. by subst.
  - assert (E1 : ∀ g x, ring_token g ("ring=" +++ x) = let* v := stoul_u32 x in Ok (set_ringStages v g)) by by_lit ring_token.
    rewrite drop_0. cbn [foldM]. rewrite E1, stoul_u32_to_string by done. cbn.
    destruct a; cbn in *. by subst.
Qed.

(** *** The tokens are tokens *)
Lemma name_tokens :
  (∀ e, token_ok (engineName e)) ∧ (∀ x, token_ok (exchangeName x)) ∧
  (∀ p, token_ok (prefetchName p)) ∧ (∀ p, token_ok (predicateName p)) ∧
  (∀ b, token_ok (bindName b)) ∧ (∀ k, token_ok (storageName k)) ∧ (∀ n, token_ok (size_str n)).
Proof.
  split_and!; try (by intros []). intros n. unfold size_str. case_match; [done|].
  apply to_string_token.
Qed.
Ltac toks :=
  destruct name_tokens as (?&?&?&?&?&?&?);
  repeat (apply Forall_cons; split); try apply Forall_nil_2;
  try (apply token_lit; [done|done|]); auto with cstd; try done;
  match goal with H : ∀ x, token_ok (?f x) |- all_chars nonspace (?f _) = true => apply H end.
Lemma stage_toks_ok i st : Forall token_ok ("stage" :: stage_toks i st).
Proof. unfold stage_toks. toks. Qed.
Lemma factor_toks_ok f : token_ok (f_name f) → Forall token_ok ("split" :: factor_toks f).
Proof. unfold factor_toks. intros. toks. Qed.
Lemma storage_toks_ok a : Forall token_ok ("storage" :: storage_toks a).
Proof. unfold storage_toks. destruct (ringStages a =? 0); toks. Qed.

(** *** Lines parse to what they print *)
Definition st_state (ps : pstate) (st : StageSchedule) : pstate :=
  mkPstate (p_kernel ps) (p_why ps) (p_done ps) (Some st).

(** the branch of [parse_line] a line takes: [l] is the trimmed line *)
Lemma parse_line_body ps b k ts st0 :
  all_chars blank b = true → Forall token_ok (k :: ts) → p_cur ps = Some st0 →
  is_char "#" (default Ascii.zero (head_char k)) = false →
  starts (join (k :: ts)) "schedule " = false → starts (join (k :: ts)) "stage " = false →
  parse_line ps (b +++ join (k :: ts)) =
  let l := join (k :: ts) in
  let* st :=
    (if starts l "split " then parse_split_line st0 l
     else if starts l "order" then Ok (parse_order_line st0 l)
     else if starts l "storage " then parse_storage_line st0 l
     else Err (SErr ("unrecognized schedule line: " +++ l))) in
  Ok (st_state ps st).
Proof.
  intros Hb Hts Hcur Hh H1 H2. unfold parse_line. rewrite trim_line by done. cbv zeta.
  assert (Hk : ∃ c r r', k = String c r ∧ join (k :: ts) = String c r').
  { apply Forall_inv in Hts as [He _]. destruct k as [|c r]; [done|].
    destruct ts; cbn; eauto. }
  destruct Hk as (c&r&r'&->&Ej). rewrite H1, H2, Hcur.
  assert (Hc : is_empty (join (String c r :: ts)) || match head_char (join (String c r :: ts)) with
    Some d => is_char "#" d | None => false end = false) by (by rewrite Ej).
  by rewrite Hc.
Qed.

Lemma parse_factor_line ps f st :
  token_ok (f_name f) → is_u32 (Z.of_nat (coord f)) → is_u32 (f_size f) → p_cur ps = Some st →
  parse_line ps (dump_factor f) = Ok (st_state ps (set_factors (factors st ++ [f]) st)).
Proof.
  intros Hn Hc Hs Hcur. rewrite dump_factor_join. pose proof (factor_toks_ok f Hn) as Ht.
  erewrite parse_line_body; [|done|exact Ht|exact Hcur|done|done|done]. cbv zeta.
  rewrite (starts_line "split") by done. unfold parse_split_line.
  apply Forall_inv_tail in Ht.
  rewrite (after_line "split"), words_join by done. cbv zeta.
  change (mkFactor (default "" (head (factor_toks f))) _ _ _) with
    (mkFactor (f_name f) (coord factor0) (f_size factor0) (bind factor0)).
  rewrite split_tokens by done. done.
Qed.
Lemma parse_storage_dump ps a st :
  is_u32 (a_tensor a) → is_u32 (ringStages a) → ringBytes a = 0 → p_cur ps = Some st →
  parse_line ps (dump_storage a) = Ok (st_state ps (set_storage (storage st ++ [a]) st)).
Proof.
  intros Ht Hr Hb Hcur. rewrite dump_storage_join. pose proof (storage_toks_ok a) as Hok.
  erewrite parse_line_body; [|done|exact Hok|exact Hcur|done|done|done]. cbv zeta.
  assert (Hs1 : starts (join ("storage" :: storage_toks a)) "split " = false) by done.
  assert (Hs2 : starts (join ("storage" :: storage_toks a)) "order" = false) by done.
  rewrite Hs1, Hs2, (starts_line "storage") by done. unfold parse_storage_line.
  apply Forall_inv_tail in Hok. rewrite (after_line "storage"), words_join by done. cbv zeta.
  change (default "" (storage_toks a !! 0%nat)) with ("t" +++ to_string (a_tensor a)).
  change (default "" (storage_toks a !! 1%nat)) with (storageName (a_kind a)).
  cbn [String.append]. change (is_char "t" "t") with true. cbv iota.
  rewrite stoul_u32_to_string, parseStorage_name by done. cbn [rbind].
  rewrite ring_tokens by done. done.
Qed.
Lemma parse_order_dump ps n ns st :
  Forall token_ok (n :: ns) → p_cur ps = Some st →
  parse_line ps ("    " +++ join ("order" :: n :: ns)) =
  Ok (st_state ps (set_order (order st ++ n :: ns) st)).
Proof.
  intros Hok Hcur. erewrite parse_line_body; [|done|by constructor|exact Hcur|done|done|done].
  cbv zeta. assert (Hs1 : starts (join ("order" :: n :: ns)) "split " = false) by done.
  assert (Hs2 : starts (join ("order" :: n :: ns)) "order" = true).
  { rewrite join_cons. apply (starts_app "order"). }
  rewrite Hs1, Hs2. cbn [rbind]. unfold parse_order_line, after. do 3 f_equal.
  rewrite join_cons, drop_chars_app. change (String " " (join (n :: ns))) with (" " +++ join (n :: ns)).
  by rewrite trim_line, words_join.
Qed.

(** *** Groups of lines *)
Lemma parse_lines_fold {A} (line : A → string) (upd : list A → StageSchedule → StageSchedule)
    (Q : A → Prop) ps l :
  (∀ st, upd [] st = st) → (∀ a l st, upd l (upd [a] st) = upd (a :: l) st) →
  (∀ ps st a, Q a → p_cur ps = Some st → parse_line ps (line a) = Ok (st_state ps (upd [a] st))) →
  Forall Q l → ∀ st, p_cur ps = Some st →
  foldM parse_line ps (line <$> l) = Ok (st_state ps (upd l st)).
Proof.
  intros Hnil Hcons Hline Hl. revert ps. induction Hl as [|a l Ha Hl IH]; intros ps st Hcur.
  - cbn. rewrite Hnil. destruct ps; cbn in *. by rewrite Hcur.
  - rewrite fmap_cons. cbn [foldM]. rewrite (Hline _ st) by done. cbn [rbind].
    rewrite (IH _ (upd [a] st)) by done. by rewrite Hcons.
Qed.

Lemma parse_stage_line ps i st :
  text_stage_ok st →
  parse_line ps (dump_stage_line i st) =
  Ok (mkPstate (p_kernel ps) (p_why ps)
        (p_done ps ++ match p_cur ps with Some s => [s] | None => [] end)
        (Some (mkStage [] [] [] (exchange st) (engine st) 32 32 32 (prefetch st) (predicate st) []
                 (threadScale st) (smemBytes st)))).
Proof.
  intros ((_&Ht&Hs)&_). rewrite dump_stage_join. unfold parse_line.
  pose proof (stage_toks_ok i st) as Hok. rewrite trim_line by done. cbv zeta.
  assert (Hc : is_empty (join ("stage" :: stage_toks i st)) ||
    match head_char (join ("stage" :: stage_toks i st)) with
    | Some d => is_char "#" d | None => false end = false) by done.
  assert (Hs1 : starts (join ("stage" :: stage_toks i st)) "schedule " = false) by done.
  rewrite Hc, Hs1, (starts_line "stage") by done. apply Forall_inv_tail in Hok.
  rewrite (after_line "stage"), words_join, stage_tokens by done. done.
Qed.

Lemma parse_dump_stage ps i st :
  text_stage_ok st →
  foldM parse_line ps (dump_stage i st) =
  Ok (mkPstate (p_kernel ps) (p_why ps)
        (p_done ps ++ match p_cur ps with Some s => [s] | None => [] end) (Some st)).
Proof.
  intros Hst. pose proof Hst as ((Hsz&Ht&Hs)&Hsto&Hf&Ho&Hrb&(HM&HN&HK)&Hfu).
  unfold dump_stage. cbn [foldM]. rewrite parse_stage_line by done. cbn [rbind].
  rewrite foldM_app.
  set (ps1 := mkPstate _ _ _ _). set (st1 := mkStage _ _ _ _ _ _ _ _ _ _ _ _ _) in ps1.
  rewrite (parse_lines_fold dump_factor (λ fs st, set_factors (factors st ++ fs) st)
    (λ f, (token_ok (f_name f) ∧ is_u32 (Z.of_nat (coord f))) ∧ is_u32 (f_size f)) ps1 _) with (st := st1);
    [|intros []; cbn; by rewrite app_nil_r|intros a l []; cbn; by rewrite <- app_assoc
     |intros ??? [[??]?] ?; by apply parse_factor_line|by apply Forall_and|done].
  cbn [rbind]. rewrite foldM_app.
  set (st2 := set_factors _ st1).
  assert (Hord : foldM parse_line (st_state ps1 st2) (dump_order (order st)) =
                 Ok (st_state ps1 (set_order (order st) st2))).
  { destruct (order st) as [|n ns]; [done|]. rewrite dump_order_join. cbn [foldM].
    rewrite (parse_order_dump _ n ns st2) by done. done. }
  rewrite Hord. cbn [rbind].
  rewrite (parse_lines_fold dump_storage (λ a st, set_storage (storage st ++ a) st)
    (λ a, (is_u32 (a_tensor a) ∧ is_u32 (ringStages a) ∧ is_u32 (ringBytes a)) ∧ ringBytes a = 0)
    (st_state ps1 (set_order (order st) st2)) _) with (st := set_order (order st) st2);
    [|intros []; cbn; by rewrite app_nil_r|intros a l []; cbn; by rewrite <- app_assoc
     |intros ??? [(?&?&?) ?] ?; by apply parse_storage_dump|by apply Forall_and|done].
  unfold st_state, ps1, st2, st1. cbn. repeat f_equal. destruct st; cbn in *. by subst.
Qed.

Lemma parse_dump_stages ps i sts :
  Forall text_stage_ok sts → sts ≠ [] →
  ∃ d s, foldM parse_line ps (dump_stages i sts) = Ok (mkPstate (p_kernel ps) (p_why ps) d (Some s)) ∧
    (d ++ [s] = p_done ps ++ match p_cur ps with Some s => [s] | None => [] end ++ sts)%list.
Proof.
  intros Hok. revert ps i. induction Hok as [|st sts Hst Hsts IH]; [done|]. intros ps i _.
  cbn [dump_stages]. rewrite foldM_app, parse_dump_stage by done. cbn [rbind].
  destruct sts as [|st2 sts].
  - cbn. do 2 eexists. split; [done|]. by rewrite <- app_assoc.
  - edestruct (IH (mkPstate (p_kernel ps) (p_why ps)
      (p_done ps ++ match p_cur ps with Some s => [s] | None => [] end) (Some st)) (S i))
      as (d&s&E1&E2); [done|]. exists d, s. rewrite E1. split; [done|]. rewrite E2. cbn.
    by rewrite <- app_assoc.
Qed.

Lemma parse_header_dump S :
  token_ok (s_kernel S) → all_chars nonspace (s_why S) = true →
  parse_line pstate0 (dump_header S) = Ok (mkPstate (s_kernel S) (s_why S) [] None).
Proof.
  intros Hk Hw. assert (Hok : Forall token_ok (header_toks S)).
  { unfold header_toks. repeat (apply Forall_cons; split); try apply Forall_nil_2; try done;
      (apply token_lit; [done|done|]); auto with cstd. }
  rewrite dump_header_join by apply Hk. unfold parse_line.
  pose proof (trim_line "" (header_toks S) eq_refl Hok ltac:(done)) as Ht.
  cbn [String.append] in Ht. rewrite Ht. cbv zeta.
  assert (Hc : is_empty (join (header_toks S)) ||
    match head_char (join (header_toks S)) with Some d => is_char "#" d | None => false end = false) by done.
  unfold header_toks in *. rewrite Hc, (starts_line "schedule") by done.
  apply Forall_inv_tail in Hok. unfold parse_schedule_line.
  rewrite (after_line "schedule"), join_cons by done. cbv zeta.
  rewrite split_first_app by (by apply nonspace_no_char; [|apply Hk]).
  rewrite join_cons.
  assert (E : ("why=" +++ s_why S) +++ String " " (join ["stages=" +++ to_string (Z.of_nat (length (stages S)))]) =
    "why=" +++ s_why S +++ String " " (join ["stages=" +++ to_string (Z.of_nat (length (stages S)))]))
    by by rewrite append_assoc.
  rewrite E, starts_app. change (drop_chars 4) with (drop_chars (String.length "why=")).
  rewrite drop_chars_app, split_first_app by by apply nonspace_no_char. done.
Qed.

Lemma parse_dump S : text_ok S → parse (dump S) = Ok S.
Proof.
  intros (Hk&Hw&Hne&Hst). unfold parse, dump. cbn [foldM].
  rewrite parse_header_dump by done. cbn [rbind].
  destruct (parse_dump_stages (mkPstate (s_kernel S) (s_why S) [] None) 0 (stages S)) as (d&s&E1&E2);
    [done..|]. rewrite E1. cbn. cbn in E2. rewrite E2. by destruct S.
Qed.

(** *** The text splits back into the lines *)
Definition nl : ascii := chr 10.
Lemma has_char_app c a b : has_char c (a +++ b) = has_char c a || has_char c b.
Proof. induction a as [|d a IH]; [done|]. cbn. by rewrite IH, orb_assoc. Qed.
Lemma join_no_nl ts : Forall token_ok ts → has_char nl (join ts) = false.
Proof.
  induction 1 as [|t ts [_ Ht] Hts IH]; [done|].
  assert (Hn : has_char nl t = false) by (by apply nonspace_no_char).
  destruct ts; [done|]. rewrite join_cons, has_char_app, Hn. exact IH.
Qed.
Lemma line_no_nl b ts :
  has_char nl b = false → Forall token_ok ts → has_char nl (b +++ join ts) = false.
Proof. intros Hb Hts. by rewrite has_char_app, Hb, join_no_nl. Qed.

Lemma getlines_text ls : Forall (λ l, has_char nl l = false) ls → getlines (text_of ls) = ls.
Proof.
  intros Hls. assert (Hp : pieces nl (text_of ls) = (ls ++ [""])%list).
  { induction Hls as [|l ls Hl Hls IH]; [done|]. cbn [text_of]. change (chr 10) with nl.
    by rewrite pieces_line, IH by done. }
  unfold getlines. change (chr 10) with nl. rewrite Hp, reverse_app. cbn [reverse].
  change (reverse [""]) with [""]. cbn [app]. apply reverse_involutive.
Qed.

Lemma dump_no_nl S : text_ok S → Forall (λ l, has_char nl l = false) (dump S).
Proof.
  intros (Hk&Hw&_&Hst). unfold dump. constructor.
  { rewrite dump_header_join by apply Hk. apply join_no_nl. unfold header_toks.
    repeat (apply Forall_cons; split); try apply Forall_nil_2; try done;
      (apply token_lit; [done|done|]); auto with cstd. }
  generalize 0%nat. induction Hst as [|st sts Hs Hsts IH]; intros i; [constructor|].
  cbn [dump_stages]. apply Forall_app. split; [|apply IH].
  destruct Hs as (_&_&Hf&Ho&_). unfold dump_stage. constructor.
  { rewrite dump_stage_join. apply line_no_nl; [done|]. apply stage_toks_ok. }
  rewrite !Forall_app. split_and!.
  - apply Forall_fmap. eapply Forall_impl; [exact Hf|]. intros f [Hn _].
    change (has_char nl (dump_factor f) = false). rewrite dump_factor_join. apply line_no_nl; [done|]. by apply factor_toks_ok.
  - destruct (order st) as [|n ns]; [constructor|]. rewrite dump_order_join.
    constructor; [|done]. apply line_no_nl; [done|]. by constructor.
  - apply Forall_fmap. apply Forall_true. intros a.
    change (has_char nl (dump_storage a) = false). rewrite dump_storage_join. apply line_no_nl; [done|]. apply storage_toks_ok.
Qed.

(** what the text holds of a schedule: the tensor sizes, the bytes of the rings and the fused stages are not
    printed, and come back as a new stage has them; the kernel without a name is printed as [_] *)
Definition printed_storage (a : AccessStorage) : AccessStorage := mkStorage (a_tensor a) (a_kind a) (ringStages a) 0.
Definition printed_stage (st : StageSchedule) : StageSchedule :=
  mkStage (factors st) (order st) (printed_storage <$> storage st) (exchange st) (engine st) 32 32 32
    (prefetch st) (predicate st) [] (threadScale st) (smemBytes st).
Definition printed (S : Schedule) : Schedule :=
  mkSchedule (if is_empty (s_kernel S) then "_" else s_kernel S) (s_why S) (printed_stage <$> stages S).
(** names that are single tokens, and numbers of 32 bits *)
Definition names_ok (S : Schedule) : Prop :=
  all_chars nonspace (s_kernel S) = true ∧ all_chars nonspace (s_why S) = true ∧ stages S ≠ [] ∧
  Forall (λ st, stage_typed st ∧ Forall token_ok (order st) ∧
    Forall (λ f, token_ok (f_name f) ∧ is_u32 (Z.of_nat (coord f))) (factors st) ∧
    Forall (λ a, is_u32 (a_tensor a) ∧ is_u32 (ringStages a)) (storage st)) (stages S).
Lemma dump_printed S : dump (printed S) = dump S.
Proof.
  unfold dump. f_equal.
  - unfold dump_header. cbn [printed s_kernel s_why stages]. rewrite length_fmap. by destruct (is_empty (s_kernel S)) eqn:E; rewrite ?E.
  - cbn [printed stages]. generalize 0%nat. induction (stages S) as [|st sts IH]; intros i; [done|].
    cbn [fmap list_fmap dump_stages]. rewrite IH. f_equal. unfold dump_stage. cbn [printed_stage factors order storage].
    rewrite <- list_fmap_compose. reflexivity.
Qed.
Lemma printed_ok S : names_ok S → text_ok (printed S).
Proof.
  intros (Hk&Hw&Hne&Hst). split_and!; [|done|cbn; by destruct (stages S)|].
  - cbn. destruct (is_empty (s_kernel S)) eqn:E; by split.
  - cbn. apply Forall_fmap. eapply Forall_impl; [exact Hst|]. intros st (Ht&Ho&Hf&Ha).
    split_and!; try done; apply Forall_fmap; [|by apply Forall_true]. eapply Forall_impl; [exact Ha|]. intros a [??]. by split_and!.
Qed.
(** [C37] The text form is lossless on the members it prints: parsing the dump of any schedule whose names are single
    tokens and whose numbers have 32 bits gives the schedule back, but for the members the dump leaves out - the
    tensor sizes, the bytes of the rings and the fused stages -, which have their defaults; so a schedule with
    these defaults is given back as it was. *)
Theorem schedule_roundtrip S :
  names_ok S → parseText (text_of (dump S)) = Ok (printed S) ∧ (text_ok S → printed S = S).
Proof.
  intros HS. split.
  - rewrite <- dump_printed. pose proof (printed_ok S HS) as Ht. unfold parseText. rewrite getlines_text by by apply dump_no_nl. by apply parse_dump.
  - intros ([He _]&_&_&Hst). destruct S as [k w sts]. unfold printed. cbn [s_kernel s_why stages] in *. rewrite He. f_equal. clear HS.
    induction Hst as [|st sts (_&_&_&_&Ha&(Hm&Hn&Hk)&Hfu) _ IH]; [done|]. cbn. f_equal; [|exact IH].
    destruct st. cbn in *. subst. unfold printed_stage. cbn. f_equal. clear -Ha. induction Ha as [|[] l Hb _ IH]; [done|]. cbn in *. subst. by rewrite IH.
Qed.
Definition demo_schedule : Schedule :=
  mkSchedule "gemm" "search"
    [mkStage [mkFactor "m_lane" 0 32 Lane; mkFactor "k" 1 0 Time] ["k"]
       [mkStorage 0 Threadgroup 2 4096; mkStorage 1 SDevice 0 0] ShuffleTree TensorOp 16 8 32
       Rotate SelectClamp [0%nat] 4 16384].
Lemma schedule_roundtrip_witness : parseText (text_of (dump demo_schedule)) = Ok (printed demo_schedule).
Proof.
  apply schedule_roundtrip. split_and!; [done|done|done|]. constructor; [|done].
  split_and!; cbn; try done; repeat constructor; unfold is_u32; cbn; lia.
Defined.

(** A malformed number in a schedule file is not reported through the parser's error string:
    the exception of [std::stoul] leaves [parse]. *)
Theorem bad_number_throws ps i v :
  stoul v = None → token_ok v →
  parse_line ps ("  " +++ join ["stage"; to_string i; "thread_scale=" +++ v]) = Err SThrow.
Proof.
  intros Hv Ht. unfold parse_line.
  assert (Hok : Forall token_ok ["stage"; to_string i; "thread_scale=" +++ v]).
  { apply Forall_cons; split; [done|]. apply Forall_cons; split; [apply to_string_token|].
    apply Forall_cons; split; [|done]. apply token_lit; [done|done|apply Ht]. }
  rewrite trim_line by done. cbv zeta.
  set (l := join ["stage"; to_string i; "thread_scale=" +++ v]).
  assert (Hc : is_empty l || match head_char l with Some d => is_char "#" d | None => false end = false) by done.
  assert (Hs1 : starts l "schedule " = false) by done.
  rewrite Hc, Hs1. unfold l. rewrite (starts_line "stage") by done.
  rewrite (after_line "stage"), words_join by (by apply Forall_inv_tail in Hok).
  cbn [foldM]. rewrite stage_token_digits. cbn [rbind].
  unfold stage_token at 1. rewrite starts_app.
  assert (E : stage_token stage0 ("thread_scale=" +++ v) =
    let* x := stoul_u32 v in Ok (set_threadScale x stage0)) by by_lit stage_token.
  unfold stage_token in E. rewrite starts_app in E. rewrite E. unfold stoul_u32. by rewrite Hv.
Qed.
Lemma bad_number_throws_witness :
  parse_line pstate0 "  stage 0 thread_scale=abc" = Err SThrow.
Proof. exact (bad_number_throws pstate0 0 "abc" eq_refl (conj eq_refl eq_refl)). Defined.

Example kernel_name_truncated :
  match parseText (text_of (dump (mkSchedule "void k(int*, int)" "source" [stage0]))) with
  | Ok R => s_kernel R = "void" ∧ s_why R = ""
  | Err _ => False
  end.
Proof. vm_compute. done. Qed.
