(* ===== verification/Fp64.v ===== *)
(** The [double] arithmetic the sources use: IEEE binary64 with the Standard Library's executable
    [SpecFloat], decimal literals, comparison as a strict weak order, and the text conversions
    [ostream << double], [std::to_string] and [atof]. *)
From Stdlib Require Import SpecFloat.
From S2P Require Import Prelude Cstd.
Open Scope string_scope.
Open Scope Z_scope.

Definition f64 : Type := spec_float.
Definition prec64 : Z := 53.
Definition emax64 : Z := 1024.
Definition fadd : f64 → f64 → f64 := SFadd prec64 emax64.
Definition fsub : f64 → f64 → f64 := SFsub prec64 emax64.
Definition fmul : f64 → f64 → f64 := SFmul prec64 emax64.
Definition fdiv : f64 → f64 → f64 := SFdiv prec64 emax64.
Definition flt (x y : f64) : bool := SFltb x y.
Definition fle (x y : f64) : bool := SFleb x y.
Definition feq (x y : f64) : bool := SFeqb x y.
(** [std::max] and [std::min] *)
Definition fmax (x y : f64) : f64 := if flt x y then y else x.
Definition fmin (x y : f64) : f64 := if flt y x then y else x.
(** the conversion of an integer, and of a quotient of two, rounded to nearest even *)
Definition of_Z (n : Z) : f64 := binary_normalize prec64 emax64 n 0 false.
Definition of_ratio (neg : bool) (n d : positive) : f64 :=
  let '(m, e, l) := SFdiv_core_binary prec64 emax64 (Zpos n) 0 (Zpos d) 0 in
  binary_round_aux prec64 emax64 neg m e l.
(** the value of a decimal numeral [(-1)^neg * m * 10^e] *)
Definition of_decimal (neg : bool) (m e : Z) : f64 :=
  match m with
  | Zpos p =>
      if 0 <=? e then binary_normalize prec64 emax64 ((if neg then -1 else 1) * (m * 10 ^ e)) 0 neg
      else of_ratio neg p (Z.to_pos (10 ^ (- e)))
  | _ => S754_zero neg
  end.
Definition dec (m e : Z) : f64 := of_decimal false m e.
Definition f0 : f64 := S754_zero false.

Example dec_tenth : dec 1 (-1) = S754_finite false 7205759403792794 (-56).
Proof. reflexivity. Qed.

(** ** The order of [<] *)
Lemma cmp_lt_trans m1 m2 m3 :
  Pos.compare_cont Eq m1 m2 = Lt → Pos.compare_cont Eq m2 m3 = Lt → Pos.compare_cont Eq m1 m3 = Lt.
Proof. change (Pos.compare_cont Eq) with Pos.compare. rewrite !Pos.compare_lt_iff. lia. Qed.
Lemma flt_irrefl x : flt x x = false.
Proof.
  unfold flt, SFltb, SFcompare. destruct x as [s|[]| |s m e]; try done.
  rewrite Z.compare_refl. change (Pos.compare_cont Eq m m) with (Pos.compare m m).
  rewrite Pos.compare_refl. by destruct s.
Qed.
(** the sign and magnitude of the non-NaN values, ordered as the comparison orders them *)
Definition key (x : f64) : option (Z * Z * Z) :=
  match x with
  | S754_nan => None
  | S754_infinity s => Some (if s then -2 else 2, 0, 0)
  | S754_zero _ => Some (0, 0, 0)
  | S754_finite s m e => Some (if s then (-1, - e, - Zpos m) else (1, e, Zpos m))
  end.
Definition key_lt (a b : Z * Z * Z) : Prop :=
  a.1.1 < b.1.1 ∨ (a.1.1 = b.1.1 ∧ (a.1.2 < b.1.2 ∨ (a.1.2 = b.1.2 ∧ a.2 < b.2))).
Lemma flt_key x y : flt x y = true ↔ ∃ a b, key x = Some a ∧ key y = Some b ∧ key_lt a b.
Proof.
  unfold flt, SFltb, SFcompare, key_lt. split.
  - destruct x as [sx|sx| |sx mx ex], y as [sy|sy| |sy my ey]; cbn; try done;
      try (destruct sx); try (destruct sy); cbn; try done; intros H; do 2 eexists;
      (split; [done|]); (split; [done|]); cbn; try lia;
      revert H; destruct (Z.compare_spec ex ey); try done; try lia;
      change (Pos.compare_cont Eq mx my) with (Pos.compare mx my);
      destruct (Pos.compare_spec mx my); cbn; try done; lia.
  - intros (a&b&Ha&Hb&H). revert Ha Hb.
    destruct x as [sx|sx| |sx mx ex], y as [sy|sy| |sy my ey]; cbn; try done;
      try (destruct sx); try (destruct sy); cbn; intros; simplify_eq; cbn in H; try done; try lia;
      change (Pos.compare_cont Eq mx my) with (Pos.compare mx my);
      destruct (Z.compare_spec ex ey); try done; try lia;
      destruct (Pos.compare_spec mx my); cbn; try done; lia.
Qed.
Lemma flt_trans x y z : flt x y = true → flt y z = true → flt x z = true.
Proof.
  rewrite !flt_key. intros (a&b&Ha&Hb&H1) (b'&c&Hb'&Hc&H2). exists a, c.
  assert (b' = b) as -> by congruence. split_and!; try done. unfold key_lt in *. lia.
Qed.
(** [<] on values that are not NaN is total up to equivalence *)
Lemma flt_cotrans x y z : flt x z = true → y ≠ S754_nan → flt x y = true ∨ flt y z = true.
Proof.
  rewrite !flt_key. intros (a&c&Ha&Hc&H) Hy.
  assert (∃ b, key y = Some b) as [b Hb] by (destruct y; cbn; eauto; done).
  assert (key_lt a b ∨ key_lt b c) as [?|?] by (unfold key_lt in *; lia); [left|right]; eauto.
Qed.

(** ** Text *)

(** the quotient [n / d] rounded to the nearest integer, ties to even *)
Definition round_half_even (n d : Z) : Z :=
  let q := n / d in let r := n mod d in
  if 2 * r <? d then q else if d <? 2 * r then q + 1 else if Z.even q then q else q + 1.
(** the magnitude of a finite value as a fraction *)
Definition fraction (m : positive) (e : Z) : Z * Z :=
  if 0 <=? e then (Zpos m * 2 ^ e, 1) else (Zpos m, 2 ^ (- e)).
Definition scale10 (n d e : Z) : Z * Z := if 0 <=? e then (n * 10 ^ e, d) else (n, d * 10 ^ (- e)).
(** [floor (log10 (n / d))] for [0 < n] *)
Definition log10_floor (n d : Z) : Z :=
  if d <=? n then Z.of_nat (String.length (to_string (n / d))) - 1
  else let k := Z.of_nat (String.length (to_string (d / n))) - 1 in
       if d <=? n * 10 ^ k then - k else - k - 1.
Fixpoint zeros (k : nat) : string := match k with O => "" | S k => String "0" (zeros k) end.
Definition pad_left (w : nat) (s : string) : string := zeros (w - String.length s) +++ s.
Fixpoint strip_zeros (s : string) : string :=
  match s with
  | EmptyString => ""
  | String c r => let r := strip_zeros r in if is_empty r && is_char "0" c then "" else String c r
  end.
Fixpoint take_chars (n : nat) (s : string) : string :=
  match n, s with S n, String c r => String c (take_chars n r) | _, _ => "" end.
Definition sign_str (s : bool) : string := if s then "-" else "".
Definition point (ds : string) : string := if is_empty ds then "" else String "." ds.

(** six significant digits and the decimal exponent of a positive fraction *)
Definition digits6 (n d : Z) : Z * Z :=
  let x := log10_floor n d in
  let '(n', d') := scale10 n d (5 - x) in
  let q := round_half_even n' d' in
  if q =? 1000000 then (100000, x + 1) else (q, x).
(** [ostream << double] with the default format ("%g", precision 6) *)
Definition show_g (v : f64) : string :=
  match v with
  | S754_nan => "nan"
  | S754_infinity s => sign_str s +++ "inf"
  | S754_zero s => sign_str s +++ "0"
  | S754_finite s m e =>
      let '(n, d) := fraction m e in
      let '(q, x) := digits6 n d in
      let ds := to_string q in
      sign_str s +++
      (if (x <? -4) || (6 <=? x)
       then take_chars 1 ds +++ point (strip_zeros (drop_chars 1 ds)) +++ "e" +++
            (if x <? 0 then "-" else "+") +++ pad_left 2 (to_string (Z.abs x))
       else if x <? 0
       then "0" +++ point (strip_zeros (zeros (Z.to_nat (- x - 1)) +++ ds))
       else take_chars (Z.to_nat (x + 1)) ds +++ point (strip_zeros (drop_chars (Z.to_nat (x + 1)) ds)))
  end.
(** [std::to_string(double)] ("%f") *)
Definition show_f (v : f64) : string :=
  match v with
  | S754_nan => "nan"
  | S754_infinity s => sign_str s +++ "inf"
  | S754_zero s => sign_str s +++ "0.000000"
  | S754_finite s m e =>
      let '(n, d) := fraction m e in
      let q := round_half_even (n * 1000000) d in
      sign_str s +++ to_string (q / 1000000) +++ "." +++ pad_left 6 (to_string (q mod 1000000))
  end.
(** [(unsigned)x] and [(int)x] for a value in range: truncation toward zero *)
Definition trunc (v : f64) : Z :=
  match v with
  | S754_finite s m e => let '(n, d) := fraction m e in (if s then -1 else 1) * (n / d)
  | _ => 0
  end.

Example show_g_1 : show_g (dec 185 (-1)) = "18.5". Proof. vm_compute. reflexivity. Qed.
Example show_g_2 : show_g (dec 2048 (-9)) = "2.048e-06". Proof. vm_compute. reflexivity. Qed.
Example show_g_3 : show_g (of_Z 123456789) = "1.23457e+08". Proof. vm_compute. reflexivity. Qed.
Example show_g_4 : show_g (dec 125 (-3)) = "0.125". Proof. vm_compute. reflexivity. Qed.
Example show_f_1 : show_f (dec 185 (-1)) = "18.500000". Proof. vm_compute. reflexivity. Qed.

(** *** [atof] *)
Definition lower (c : ascii) : ascii := if in_range 65 90 c then chr (N_of_ascii c + 32) else c.
Fixpoint lowercase (s : string) : string :=
  match s with EmptyString => "" | String c r => String (lower c) (lowercase r) end.
(** digits of the base, an optional point and more digits: the digits, the number of them after
    the point, and the rest *)
Definition take_mantissa (base : Z) (s : string) : string * Z * string :=
  let '(a, r) := span (is_digit_of base) s in
  match r with
  | String c r' =>
      if is_char "." c
      then let '(b, r'') := span (is_digit_of base) r' in
           (a +++ b, Z.of_nat (String.length b), r'')
      else (a, 0, r)
  | EmptyString => (a, 0, r)
  end.
(** an exponent introduced by [mark]: 0 when there is none *)
Definition take_exponent (mark : ascii) (s : string) : Z :=
  match s with
  | String c r =>
      if is_char mark c
      then let '(sg, r) := sign_of r in sg * digits_value 10 0 (fst (span isdigit r))
      else 0
  | EmptyString => 0
  end.
Definition atof (s : string) : f64 :=
  let '(sg, r) := sign_of (drop_while isspace s) in
  let neg := sg <? 0 in
  let r := lowercase r in
  if starts r "inf" then S754_infinity neg
  else if starts r "nan" then S754_nan
  else
    let hex := drop_chars 2 r in
    let '(hm, hk, hr) := take_mantissa 16 hex in
    if starts r "0x" && negb (is_empty hm) then
      binary_normalize prec64 emax64 (sg * digits_value 16 0 hm) (take_exponent "p" hr - 4 * hk) neg
    else
      let '(m, k, r) := take_mantissa 10 r in
      if is_empty m then f0
      else of_decimal neg (digits_value 10 0 m) (take_exponent "e" r - k).

Example atof_1 : atof " -12.5e1xyz" = of_Z (-125). Proof. vm_compute. reflexivity. Qed.
Example atof_2 : atof "2.048e-06" = dec 2048 (-9). Proof. vm_compute. reflexivity. Qed.
Example atof_3 : atof "cost 0" = f0. Proof. vm_compute. reflexivity. Qed.
Example atof_4 : atof "0x1.8p1" = of_Z 3. Proof. vm_compute. reflexivity. Qed.

(** *** Equality, and adding zero *)
Lemma feq_key x y : feq x y = true ↔ ∃ a, key x = Some a ∧ key y = Some a.
Proof.
  unfold feq, SFeqb, SFcompare. split.
  - destruct x as [sx|sx| |sx mx ex], y as [sy|sy| |sy my ey]; cbn; try done;
      try (destruct sx); try (destruct sy); cbn; try done; intros H; try (by eexists);
      revert H; destruct (Z.compare_spec ex ey) as [->| |]; try done;
      change (Pos.compare_cont Eq mx my) with (Pos.compare mx my);
      destruct (Pos.compare_spec mx my) as [->| |]; cbn; try done; intros _; by eexists.
  - intros (a&Ha&Hb). revert Ha Hb.
    destruct x as [sx|sx| |sx mx ex], y as [sy|sy| |sy my ey]; cbn; try done;
      try (destruct sx); try (destruct sy); cbn; intros; simplify_eq; try done;
      repeat match goal with H : (- _ = - _)%Z |- _ => apply Z.opp_inj in H; subst end;
      rewrite Z.compare_refl; change (Pos.compare_cont Eq my my) with (Pos.compare my my);
      by rewrite Pos.compare_refl.
Qed.
Lemma key_fadd_0 x : key (fadd x f0) = key x.
Proof. by destruct x as [[]|[]| |[] m e]. Qed.
Lemma flt_fadd_0 x y : flt (fadd x f0) (fadd y f0) = flt x y.
Proof. apply eq_true_iff_eq. by rewrite !flt_key, !key_fadd_0. Qed.
Lemma feq_fadd_0 x y : feq (fadd x f0) (fadd y f0) = feq x y.
Proof. apply eq_true_iff_eq. by rewrite !feq_key, !key_fadd_0. Qed.
Lemma flt_total x y :
  x ≠ S754_nan → y ≠ S754_nan → flt x y = false → feq x y = false → flt y x = true.
Proof.
  intros Hx Hy Hl He.
  assert (∃ a, key x = Some a) as [a Ha] by (destruct x; cbn; eauto; done).
  assert (∃ b, key y = Some b) as [b Hb] by (destruct y; cbn; eauto; done).
  apply flt_key. exists b, a. split_and!; try done.
  assert (¬ key_lt a b). { intros H. enough (flt x y = true) by congruence. apply flt_key. eauto. }
  assert (a ≠ b).
  { intros ->. enough (feq x y = true) by congruence. apply feq_key. eauto. }
  destruct a as [[a1 a2] a3], b as [[b1 b2] b3]. unfold key_lt in *. cbn in *.
  assert (¬ (a1 = b1 ∧ a2 = b2 ∧ a3 = b3)) by naive_solver. lia.
Qed.
