(* ===== verification/Fp8.v ===== *)
(** The FP8 conversions of include/cuda_fp8.h: float to E4M3 or E5M2 with rounding to nearest even
    and saturation ([f2fp8]), the branch-free E4M3 conversion ([f2e4m3_sat]), the conversion back
    ([fp82f]) and the public conversions built on them.

    A [float] is its 32 bits, as after the source's [memcpy]. The float operations the source
    applies ([fabsf], [>], [*], [rintf], conversion of a small integer) are those of binary32,
    rounding to nearest even. *)
From S2P Require Import Prelude Fp64.
Open Scope Z_scope.

(** ** binary32 on bits *)
Definition sign32 (u : Z) : Z := u / 2 ^ 31.
Definition mag32 (u : Z) : Z := u mod 2 ^ 31.
Definition exp32 (u : Z) : Z := u / 2 ^ 23 mod 2 ^ 8.
Definition man32 (u : Z) : Z := u mod 2 ^ 23.
Definition inf32 : Z := 0x7f800000.
Definition nan32 : Z := 0x7fc00000.
Definition is_nan32 (u : Z) : bool := inf32 <? mag32 u.
(** the magnitude of a finite value is [sig32 * 2 ^ ex32] *)
Definition sig32 (u : Z) : Z := if exp32 u =? 0 then man32 u else man32 u + 2 ^ 23.
Definition ex32 (u : Z) : Z := Z.max (exp32 u) 1 - 150.
(** the magnitude bits of [m * 2 ^ e] rounded to nearest even; overflow is infinity *)
Definition encode32 (m e : Z) : Z :=
  if m =? 0 then 0
  else
    let E := Z.max (Z.log2 m + e) (-126) in
    let d := e - (E - 23) in
    let q := if 0 <=? d then m * 2 ^ d else round_half_even m (2 ^ (- d)) in
    Z.min ((E + 126) * 2 ^ 23 + q) inf32.
Definition fabsf (u : Z) : Z := mag32 u.
(** [a > b] *)
Definition gt32 (a b : Z) : bool :=
  let key u := if sign32 u =? 0 then mag32 u else - mag32 u in
  negb (is_nan32 a) && negb (is_nan32 b) && (key b <? key a).
Definition mul32 (a b : Z) : Z :=
  let s := Z.lxor (sign32 a) (sign32 b) * 2 ^ 31 in
  if is_nan32 a || is_nan32 b then nan32
  else if (mag32 a =? inf32) || (mag32 b =? inf32) then
    if (mag32 a =? 0) || (mag32 b =? 0) then nan32 else s + inf32
  else s + encode32 (sig32 a * sig32 b) (ex32 a + ex32 b).
(** [(unsigned int)rintf(x)] for a value that is not negative nor NaN; the source also evaluates it
    on NaN, where the conversion is undefined and the result is not used (here it is that of the
    significand) *)
Definition rintf_u (u : Z) : Z :=
  u32 (if 0 <=? ex32 u then sig32 u * 2 ^ ex32 u else round_half_even (sig32 u) (2 ^ (- ex32 u))).
(** [(float)n] *)
Definition of_uint (n : Z) : Z := encode32 n 0.

(** ** The conversions *)
(** the arguments of [f2fp8] that are not the float *)
Record Format := mkFormat { mbits : Z; bias : Z; e5m2 : bool }.
Definition E4M3 : Format := mkFormat 3 7 false.
Definition E5M2 : Format := mkFormat 2 15 true.
Definition shl1 (k : Z) : Z := u32 (Z.shiftl 1 k).
(** [mant] after the right shift, rounded up when the bits shifted out say so *)
Definition round_up (m shift mant : Z) : bool :=
  let rem := Z.land m (u32 (shl1 shift - 1)) in
  let half := shl1 (shift - 1) in
  (half <? rem) || ((rem =? half) && (Z.land mant 1 =? 1)).
Definition f2fp8 (u : Z) (F : Format) (sat : bool) : Z :=
  let sign := u8 (Z.shiftl (Z.shiftr u 31) 7) in
  let exp := Z.land (Z.shiftr u 23) 0xff in
  let man := Z.land u 0x7fffff in
  if exp =? 0xff then
    if negb (man =? 0) then Z.lor sign 0x7f
    else if e5m2 F then (if sat then Z.lor sign 0x7b else Z.lor sign 0x7c)
    else (if sat then Z.lor sign 0x7e else Z.lor sign 0x7f)
  else if (exp =? 0) && (man =? 0) then sign
  else
    let e := exp - 127 in
    let m := Z.lor man 0x800000 in
    if exp =? 0 then sign
    else
      let fe := e + bias F in
      let shift := 23 - mbits F in
      if fe <=? 0 then
        let extra := 1 - fe in
        let shift := shift + extra in
        if 31 <? shift then sign
        else
          let mant := Z.shiftr m shift in
          let mant := if round_up m shift mant then u32 (mant + 1) else mant in
          let carry := negb (Z.shiftr mant (mbits F) =? 0) in
          let fe := if carry then 1 else 0 in
          let mant := if carry then Z.land mant (shl1 (mbits F) - 1) else mant in
          u8 (Z.lor (Z.lor sign (Z.shiftl fe (mbits F))) mant)
      else
        let mant := Z.land (Z.shiftr m shift) (shl1 (mbits F) - 1) in
        let up := round_up m shift mant in
        let mant' := if up then u32 (mant + 1) else mant in
        let carry := up && negb (Z.shiftr mant' (mbits F) =? 0) in
        let mant := if carry then 0 else mant' in
        let fe := if carry then fe + 1 else fe in
        if e5m2 F then
          if 31 <=? fe then (if sat then Z.lor sign 0x7b else Z.lor sign 0x7c)
          else u8 (Z.lor (Z.lor sign (Z.shiftl fe 2)) mant)
        else if (15 <? fe) || ((fe =? 15) && (mant =? 7)) then
          (if sat then Z.lor sign 0x7e else Z.lor sign 0x7f)
        else u8 (Z.lor (Z.lor sign (Z.shiftl fe 3)) mant).

(** [fp82f] *)
Definition fp82f (v : Z) (e5m2 : bool) : Z :=
  let sign := Z.shiftl (Z.land v 0x80) 24 in
  let e := if e5m2 then Z.land (Z.shiftr v 2) 0x1f else Z.land (Z.shiftr v 3) 0xf in
  let m := if e5m2 then Z.land v 3 else Z.land v 7 in
  let mbits := if e5m2 then 2 else 3 in
  let bias := if e5m2 then 15 else 7 in
  if e5m2 && (e =? 0x1f) then Z.lor (Z.lor sign 0x7f800000) (if negb (m =? 0) then Z.shiftl m 21 else 0)
  else if negb e5m2 && (e =? 0xf) && (m =? 7) then Z.lor sign 0x7fc00000
  else if e =? 0 then
    if m =? 0 then sign
    else
      let sc := 1 - bias - mbits in
      let p := u32 (Z.shiftl (127 + sc) 23) in
      Z.lor (mul32 (of_uint m) p) sign
  else Z.lor (Z.lor sign (u32 (Z.shiftl (u32 (e - bias + 127)) 23))) (Z.shiftl m (23 - mbits)).

(** [f2e4m3_sat]: [448.f] and [512.f] are 0x43e00000 and 0x44000000 *)
Definition f2e4m3_sat (u : Z) : Z :=
  let sign := u8 (Z.shiftl (Z.shiftr u 31) 7) in
  let nan := 0x7f800000 <? Z.land u 0x7fffffff in
  let ax := fabsf u in
  let ax := if gt32 ax 0x43e00000 then 0x43e00000 else ax in
  let a := ax in
  let rn := u32 (u32 (a + 0x7ffff) + Z.land (Z.shiftr a 20) 1) in
  let normal := Z.land (u32 (Z.shiftr rn 20 - Z.shiftl 120 3)) 0x7f in
  let sub := rintf_u (mul32 ax 0x44000000) in
  let code := if 0x3c800000 <=? a then normal else sub in
  u8 (Z.lor sign (if nan then 0x7f else code)).

(** the public conversions *)
Inductive Saturation := NOSAT | SATFINITE.
Inductive Interpretation := NV_E4M3 | NV_E5M2.
Definition is_sat (s : Saturation) : bool := match s with SATFINITE => true | NOSAT => false end.
Definition cvt_float_to_fp8 (x : Z) (sat : Saturation) (interp : Interpretation) : Z :=
  match interp, sat with
  | NV_E4M3, SATFINITE => f2e4m3_sat x
  | NV_E4M3, _ => f2fp8 x E4M3 (is_sat sat)
  | NV_E5M2, _ => f2fp8 x E5M2 (is_sat sat)
  end.
Definition cvt_float2_to_fp8x2 (x y : Z) (sat : Saturation) (interp : Interpretation) : Z :=
  Z.lor (cvt_float_to_fp8 x sat interp) (Z.shiftl (cvt_float_to_fp8 y sat interp) 8).
Definition fp8_to_float (x : Z) (interp : Interpretation) : Z :=
  fp82f x (match interp with NV_E5M2 => true | NV_E4M3 => false end).

Example f2fp8_1 : f2fp8 0x3f800000 E4M3 true = 0x38. Proof. reflexivity. Qed.
Example f2fp8_448 : f2fp8 0x43e00000 E4M3 true = 0x7e. Proof. reflexivity. Qed.
Example f2fp8_464 : f2fp8 0x43e80000 E4M3 false = 0x7e. Proof. reflexivity. Qed.
Example f2fp8_465 : f2fp8 0x43e88000 E4M3 false = 0x7f. Proof. reflexivity. Qed.
Example f2e4m3_tiny : f2e4m3_sat 0x3a800001 = 1. Proof. vm_compute. reflexivity. Qed.
Example fp82f_min : fp82f 0x81 false = 0xbb000000. Proof. vm_compute. reflexivity. Qed.

(** ** Arithmetic of the fields *)
(** a check on the first [n] integers *)
Definition upto (n : nat) (p : Z → bool) : bool := forallb (λ k, p (Z.of_nat k)) (seq 0 n).
Lemma upto_spec n p x : upto n p = true → 0 <= x < Z.of_nat n → p x = true.
Proof.
  unfold upto. rewrite forallb_forall. intros H Hx. specialize (H (Z.to_nat x)). rewrite Z2Nat.id in H by lia.
  apply H, in_seq. lia.
Qed.
Definition pack (s E M : Z) : Z := s * 2 ^ 31 + E * 2 ^ 23 + M.
Definition fields (s E M : Z) : Prop := 0 <= s <= 1 ∧ 0 <= E < 256 ∧ 0 <= M < 2 ^ 23.
Lemma unpack u : is_u32 u → ∃ s E M, fields s E M ∧ u = pack s E M.
Proof.
  intros Hu. exists (u / 2 ^ 31), (u / 2 ^ 23 mod 2 ^ 8), (u mod 2 ^ 23). unfold fields, pack, is_u32 in *.
  norm_pow. Z.div_mod_to_equations. lia.
Qed.
Section fields.
Context (s E M : Z) (Hf : fields s E M).
Lemma pack_sign : Z.shiftr (pack s E M) 31 = s.
Proof. rewrite Z.shiftr_div_pow2 by lia. unfold fields, pack in *. norm_pow. Z.div_mod_to_equations. lia. Qed.
Lemma pack_exp : Z.land (Z.shiftr (pack s E M) 23) 0xff = E.
Proof.
  change 0xff with (Z.ones 8). rewrite Z.land_ones, Z.shiftr_div_pow2 by lia. unfold fields, pack in *.
  norm_pow. Z.div_mod_to_equations. lia.
Qed.
Lemma pack_man : Z.land (pack s E M) 0x7fffff = M.
Proof.
  change 0x7fffff with (Z.ones 23). rewrite Z.land_ones by lia. unfold fields, pack in *.
  norm_pow. Z.div_mod_to_equations. lia.
Qed.
Lemma pack_mag : Z.land (pack s E M) 0x7fffffff = E * 2 ^ 23 + M ∧ mag32 (pack s E M) = E * 2 ^ 23 + M.
Proof.
  change 0x7fffffff with (Z.ones 31). rewrite Z.land_ones by lia. unfold mag32.
  assert (pack s E M mod 2 ^ 31 = E * 2 ^ 23 + M); [|done]. unfold fields, pack in *.
  norm_pow. Z.div_mod_to_equations. lia.
Qed.
Lemma sign_byte : u8 (Z.shiftl s 7) = 128 * s.
Proof. unfold fields in Hf. assert (s = 0 ∨ s = 1) as [-> | ->] by lia; done. Qed.
Lemma hidden_bit : Z.lor M 0x800000 = M + 2 ^ 23.
Proof.
  change 0x800000 with (Z.shiftl 1 23). rewrite lor_shiftl; [lia|lia|]. by destruct Hf as (_ & _ & ?).
Qed.
End fields.
Lemma shl1_pow k : 0 <= k <= 31 → shl1 k = 2 ^ k.
Proof.
  intros Hk. unfold shl1. rewrite Z.shiftl_mul_pow2, Z.mul_1_l by lia. apply u32_small. split; [lia|].
  apply Z.pow_lt_mono_r; lia.
Qed.
Lemma mask_pow m k : 0 <= k <= 31 → Z.land m (u32 (shl1 k - 1)) = m mod 2 ^ k.
Proof.
  intros Hk. rewrite shl1_pow by done. rewrite u32_small.
  - replace (2 ^ k - 1) with (Z.ones k) by (rewrite Z.ones_equiv; lia).
    by rewrite Z.land_ones by lia.
  - split; [pose proof (Z.pow_pos_nonneg 2 k); lia|]. pose proof (Z.pow_le_mono_r 2 k 31). norm_pow. lia.
Qed.
Lemma mask_pow' m k : 0 <= k <= 31 → Z.land m (shl1 k - 1) = m mod 2 ^ k.
Proof.
  intros Hk. rewrite shl1_pow by done. replace (2 ^ k - 1) with (Z.ones k) by (rewrite Z.ones_equiv; lia).
  by rewrite Z.land_ones by lia.
Qed.

(** ** Rounding *)
Definition RNE (n d : Z) : Z := round_half_even n d.
Lemma round_up_spec m k mant :
  1 <= k <= 31 → Z.even mant = Z.even (m / 2 ^ k) →
  RNE m (2 ^ k) = m / 2 ^ k + (if round_up m k mant then 1 else 0).
Proof.
  intros Hk He. unfold RNE, round_half_even, round_up. rewrite mask_pow, shl1_pow by lia.
  assert ((Z.land mant 1 =? 1) = negb (Z.even (m / 2 ^ k))) as ->.
  { rewrite <- He. change 1 with (Z.ones 1) at 1. rewrite Z.land_ones by lia. change (2 ^ 1) with 2.
    rewrite Zmod_even. by destruct (Z.even mant). }
  assert (2 ^ k = 2 * 2 ^ (k - 1)) as Hp by (rewrite <- Z.pow_succ_r by lia; f_equal; lia).
  pose proof (Z.pow_pos_nonneg 2 (k - 1) ltac:(lia) ltac:(lia)).
  destruct (Z.ltb_spec (2 * (m mod 2 ^ k)) (2 ^ k)), (Z.ltb_spec (2 ^ (k - 1)) (m mod 2 ^ k)),
    (Z.eqb_spec (m mod 2 ^ k) (2 ^ (k - 1))), (Z.ltb_spec (2 ^ k) (2 * (m mod 2 ^ k))); cbn [orb andb]; try lia.
  destruct (Z.even (m / 2 ^ k)); cbn; lia.
Qed.
Lemma RNE_bounds n d : 0 < d → n / d <= RNE n d <= n / d + 1.
Proof. intros Hd. unfold RNE, round_half_even. destruct (_ <? _); [lia|]. destruct (_ <? _); [lia|]. destruct (Z.even _); lia. Qed.
Lemma RNE_scale m D K : 0 < D → 0 < K → RNE (m * K) (D * K) = RNE m D.
Proof.
  intros HD HK. unfold RNE, round_half_even. rewrite Z.div_mul_cancel_r, Z.mul_mod_distr_r by lia.
  rewrite (Z.mul_assoc 2).
  assert (∀ a b, (a * K <? b * K) = (a <? b)) as Hltb.
  { intros a b. apply eq_true_iff_eq. rewrite !Z.ltb_lt. nia. }
  by rewrite !Hltb.
Qed.
Lemma RNE_exact n d : 0 < d → RNE (n * d) d = n.
Proof.
  intros Hd. unfold RNE, round_half_even. rewrite Z.div_mul, Z.mod_mul by lia. destruct (Z.ltb_spec (2 * 0) d); lia.
Qed.
Lemma RNE_small n d : 0 <= n → 2 * n < d → RNE n d = 0.
Proof.
  intros Hn Hd. unfold RNE, round_half_even. rewrite Z.mod_small, Z.div_small by lia.
  destruct (Z.ltb_spec (2 * n) d); lia.
Qed.
(** the nearest multiple, ties to even *)
Lemma RNE_nearest n d q :
  0 < d → Z.abs (n - RNE n d * d) <= Z.abs (n - q * d) ∧
  (Z.abs (n - RNE n d * d) = Z.abs (n - q * d) → q = RNE n d ∨ Z.even (RNE n d) = true).
Proof.
  intros Hd. pose proof (Z.div_mod n d ltac:(lia)) as Hn. pose proof (Z.mod_pos_bound n d Hd) as Hr.
  assert (∀ c, c < n / d ∨ c = n / d ∨ c = n / d + 1 ∨ n / d + 1 < c) as Hc by (intros; lia).
  unfold RNE, round_half_even. destruct (Z.ltb_spec (2 * (n mod d)) d); [|destruct (Z.ltb_spec d (2 * (n mod d)))].
  - destruct (Hc q) as [?|[->|[->|?]]]; split; try nia; intros; try (left; done); exfalso; nia.
  - destruct (Hc q) as [?|[->|[->|?]]]; split; try nia; intros; try (left; done); exfalso; nia.
  - destruct (Z.even (n / d)) eqn:Ee.
    + split; [|by right]. destruct (Hc q) as [?|[->|[->|?]]]; nia.
    + assert (Z.even (n / d + 1) = true) by (by rewrite Z.even_add, Ee). split; [|by right].
      destruct (Hc q) as [?|[->|[->|?]]]; nia.
Qed.

(** ** The conversion as rounding *)
(** the code of the magnitude [m * 2 ^ (E - 150)], before the overflow check *)
Definition code (F : Format) (E m : Z) : Z :=
  let fe := E - 127 + bias F in
  let Fe := Z.max fe 1 in
  (Fe - 1) * 2 ^ mbits F + RNE m (2 ^ (23 - mbits F + (Fe - fe))).
(** the code of the largest finite value *)
Definition maxcode (F : Format) : Z := if e5m2 F then 0x7b else 0x7e.
Definition clamp_code (F : Format) (sat : bool) (c : Z) : Z :=
  if maxcode F <? c then (if sat then maxcode F else maxcode F + 1) else c.
Definition valid_format (F : Format) : Prop := F = E4M3 ∨ F = E5M2.

Lemma pack_fields_ok (mb fe s mant : Z) :
  (mb = 3 ∧ 0 <= fe < 16 ∨ mb = 2 ∧ 0 <= fe < 32) → 0 <= s <= 1 → 0 <= mant < 2 ^ mb →
  u8 (Z.lor (Z.lor (128 * s) (Z.shiftl fe mb)) mant) = 128 * s + fe * 2 ^ mb + mant.
Proof.
  intros Hmb Hs Hm.
  set (P mb s fe mant := u8 (Z.lor (Z.lor (128 * s) (Z.shiftl fe mb)) mant) =? 128 * s + fe * 2 ^ mb + mant).
  assert (∀ mb n, upto 2 (λ s, upto n (λ fe, upto (Z.to_nat (2 ^ mb)) (P mb s fe))) = true →
    0 <= fe < Z.of_nat n → 0 <= mant < 2 ^ mb →
    u8 (Z.lor (Z.lor (128 * s) (Z.shiftl fe mb)) mant) = 128 * s + fe * 2 ^ mb + mant) as H.
  { intros mb' n Hu Hfe Hma. apply Z.eqb_eq.
    apply (upto_spec (Z.to_nat (2 ^ mb')) (P mb' s fe)); [|lia].
    apply (upto_spec n (λ fe, upto (Z.to_nat (2 ^ mb')) (P mb' s fe))); [|lia].
    apply (upto_spec 2 (λ s, upto n (λ fe, upto (Z.to_nat (2 ^ mb')) (P mb' s fe)))); [exact Hu|lia]. }
  destruct Hmb as [[-> Hfe]|[-> Hfe]]; [apply (H 3 16%nat)|apply (H 2 32%nat)]; (done || vm_compute; reflexivity).
Qed.
Lemma lor_sign s c : 0 <= s <= 1 → 0 <= c < 128 → Z.lor (128 * s) c = 128 * s + c.
Proof.
  intros Hs Hc. apply Z.eqb_eq.
  apply (upto_spec 128 (λ c, Z.lor (128 * s) c =? 128 * s + c)); [|lia].
  assert (s = 0 ∨ s = 1) as [-> | ->] by lia; vm_compute; reflexivity.
Qed.
Lemma f2fp8_code F s E M sat :
  valid_format F → fields s E M → 1 <= E <= 254 →
  f2fp8 (pack s E M) F sat = 128 * s + clamp_code F sat (code F E (M + 2 ^ 23)).
Proof.
  intros HF Hf HE. unfold f2fp8.
  rewrite !(pack_sign s E M Hf), !(pack_exp s E M Hf), !(pack_man s E M Hf), (sign_byte s E M Hf), (hidden_bit s E M Hf).
  destruct (Z.eqb_spec E 0xff); [lia|]. destruct (Z.eqb_spec E 0); [lia|]. cbn [andb].
  set (m := M + 2 ^ 23). destruct Hf as (Hs & _ & HM).
  assert (2 ^ 23 <= m < 2 ^ 24) as Hm by (unfold m; change (2 ^ 24) with (2 ^ 23 + 2 ^ 23); lia).
  assert (0 < mbits F <= 3 ∧ (mbits F = 3 ∧ bias F = 7 ∧ e5m2 F = false ∨ mbits F = 2 ∧ bias F = 15 ∧ e5m2 F = true)) as [Hmb Hfmt]
    by (destruct HF as [-> | ->]; cbn; lia).
  set (mb := mbits F) in *. set (fe := E - 127 + bias F).
  assert (maxcode F = (if e5m2 F then 123 else 126)) as Hmax by done.
  destruct (Z.leb_spec fe 0) as [Hfe|Hfe].
  - (* subnormal *)
    set (sh := 23 - mb + (1 - fe)).
    assert (code F E m = RNE m (2 ^ sh)) as Hc.
    { unfold code. fold mb fe. replace (Z.max fe 1) with 1 by lia. fold sh. lia. }
    rewrite Hc. pose proof (RNE_bounds m (2 ^ sh) ltac:(lia)) as Hb.
    destruct (Z.ltb_spec 31 sh) as [Hsh|Hsh].
    + assert (RNE m (2 ^ sh) = 0) as ->.
      { assert (2 ^ 32 <= 2 ^ sh) by (apply Z.pow_le_mono_r; lia).
        unfold RNE, round_half_even. rewrite Z.mod_small, Z.div_small by lia.
        destruct (Z.ltb_spec (2 * m) (2 ^ sh)); [done|]. norm_pow. lia. }
      unfold clamp_code. rewrite Hmax. destruct (e5m2 F); cbn; lia.
    + assert (2 ^ (24 - mb) <= 2 ^ sh) as Hge by (apply Z.pow_le_mono_r; lia).
      assert (m / 2 ^ sh < 2 ^ mb) as Hq.
      { apply Z.div_lt_upper_bound; [lia|]. apply Z.lt_le_trans with (2 ^ 24); [lia|].
        replace 24 with (24 - mb + mb) by lia. rewrite Z.pow_add_r by lia. nia. }
      assert (0 <= m / 2 ^ sh) as Hq0 by (apply Z.div_pos; lia).
      rewrite !(Z.shiftr_div_pow2 m sh) by lia. rewrite (round_up_spec m sh (m / 2 ^ sh)) by (done || lia).
      rewrite (round_up_spec m sh (m / 2 ^ sh)) in Hb by (done || lia).
      set (up := round_up m sh (m / 2 ^ sh)) in *. set (q := m / 2 ^ sh) in *.
      assert ((if up then u32 (q + 1) else q) = q + (if up then 1 else 0)) as ->.
      { destruct up; [|lia]. apply u32_small. split; [lia|].
        assert (2 ^ mb <= 2 ^ 3) by (apply Z.pow_le_mono_r; lia). norm_pow. lia. }
      set (k := q + (if up then 1 else 0)) in *. assert (0 <= k <= 2 ^ mb) as Hk by (subst k; destruct up; lia).
      rewrite mask_pow', !(Z.shiftr_div_pow2 k mb) by lia.
      assert (clamp_code F sat k = k) as ->.
      { unfold clamp_code. rewrite Hmax. destruct Hfmt as [(E1 & _ & E2)|(E1 & _ & E2)]; rewrite E1 in *; rewrite E2;
          destruct (Z.ltb_spec 126 k), (Z.ltb_spec 123 k); (done || norm_pow; lia). }
      destruct (Z.eqb_spec (k / 2 ^ mb) 0) as [Hz|Hz]; cbn [negb].
      * assert (k < 2 ^ mb).
        { apply Z.div_small_iff in Hz; [|lia]. destruct Hz; lia. }
        rewrite (pack_fields_ok mb 0 s k) by lia. lia.
      * assert (k = 2 ^ mb) as ->.
        { destruct (Z.eq_dec k (2 ^ mb)); [done|]. rewrite Z.div_small in Hz by lia. done. }
        rewrite Z.mod_same by lia. rewrite (pack_fields_ok mb 1 s 0) by lia. lia.
  - (* normal *)
    set (sh := 23 - mb).
    assert (code F E m = (fe - 1) * 2 ^ mb + RNE m (2 ^ sh)) as Hc.
    { unfold code. fold mb fe. replace (Z.max fe 1) with fe by lia. rewrite Z.sub_diag, Z.add_0_r. done. }
    rewrite Hc. clear Hc.
    assert (2 ^ 23 = 2 ^ mb * 2 ^ sh) as Hp by (rewrite <- Z.pow_add_r by lia; f_equal; lia).
    assert (0 < 2 ^ sh) as Hsp by lia. assert (0 < 2 ^ mb) as Hmp by lia.
    assert (2 ^ mb <= m / 2 ^ sh < 2 * 2 ^ mb) as Hq.
    { split; [apply Z.div_le_lower_bound; lia|apply Z.div_lt_upper_bound; [lia|]].
      change (2 ^ 24) with (2 * 2 ^ 23) in Hm. lia. }
    rewrite !(Z.shiftr_div_pow2 m sh), !mask_pow' by lia.
    assert ((m / 2 ^ sh) mod 2 ^ mb = m / 2 ^ sh - 2 ^ mb) as Hmod.
    { symmetry. apply Z.mod_unique with 1; [left|]; lia. }
    rewrite Hmod. set (q := m / 2 ^ sh) in *.
    assert (Z.even (q - 2 ^ mb) = Z.even q) as Hev.
    { rewrite Z.even_sub. replace mb with (Z.succ (mb - 1)) by lia. rewrite Z.pow_succ_r, Z.even_mul by lia.
      cbn. by destruct (Z.even q). }
    rewrite (round_up_spec m sh (q - 2 ^ mb)) by (done || lia). fold q.
    set (up := round_up m sh (q - 2 ^ mb)).
    assert (2 ^ mb <= 8) as H8 by (apply (Z.pow_le_mono_r 2 mb 3); lia).
    assert ((if up then u32 (q - 2 ^ mb + 1) else q - 2 ^ mb) = q - 2 ^ mb + (if up then 1 else 0)) as ->.
    { destruct up; [|lia]. apply u32_small. split; norm_pow; lia. }
    rewrite !(Z.shiftr_div_pow2 _ mb) by lia. set (k := q - 2 ^ mb + (if up then 1 else 0)).
    assert (0 <= k <= 2 ^ mb) as Hk by (subst k; destruct up; lia).
    replace (q + (if up then 1 else 0)) with (k + 2 ^ mb) by (subst k; lia).
    assert ((fe - 1) * 2 ^ mb + (k + 2 ^ mb) = fe * 2 ^ mb + k) as -> by lia.
    assert (up && negb (k / 2 ^ mb =? 0) = (k =? 2 ^ mb)) as ->.
    { destruct (Z.eqb_spec k (2 ^ mb)) as [Ek|Ek].
      - rewrite Ek, Z.div_same by lia. destruct up; [done|]. subst k. lia.
      - rewrite Z.div_small by lia. by rewrite andb_false_r. }
    set (fe' := if k =? 2 ^ mb then fe + 1 else fe). set (mant := if k =? 2 ^ mb then 0 else k).
    assert (fe * 2 ^ mb + k = fe' * 2 ^ mb + mant) as ->.
    { subst fe' mant. destruct (Z.eqb_spec k (2 ^ mb)); lia. }
    assert (0 <= mant < 2 ^ mb ∧ 0 < fe') as [Hmant Hfe'].
    { subst fe' mant. destruct (Z.eqb_spec k (2 ^ mb)); lia. }
    clearbody fe' mant. clear Hev up k Hk Hmod q Hq. clear Hp. unfold clamp_code. rewrite Hmax.
    destruct Hfmt as [(E1 & _ & E2)|(E1 & _ & E2)]; rewrite E1 in *; rewrite E2; change (2 ^ 3) with 8 in *; change (2 ^ 2) with 4 in *.
    + destruct (Z.ltb_spec 126 (fe' * 8 + mant)).
      * assert ((15 <? fe') || ((fe' =? 15) && (mant =? 7)) = true) as ->.
        { rewrite orb_true_iff, andb_true_iff, Z.ltb_lt, !Z.eqb_eq. lia. }
        destruct sat; rewrite lor_sign; lia.
      * assert ((15 <? fe') || ((fe' =? 15) && (mant =? 7)) = false) as ->.
        { rewrite orb_false_iff, andb_false_iff, Z.ltb_ge, !Z.eqb_neq. lia. }
        rewrite (pack_fields_ok 3 fe' s mant) by lia. lia.
    + destruct (Z.ltb_spec 123 (fe' * 4 + mant)); destruct (Z.leb_spec 31 fe'); try lia.
      * destruct sat; rewrite lor_sign; lia.
      * rewrite (pack_fields_ok 2 fe' s mant) by lia. lia.
Qed.

(** ** The values of the codes *)
(** in units of 2^-149, the smallest positive float: the code's, continued past the largest one *)
Definition code_value (F : Format) (c : Z) : Z :=
  let e := c / 2 ^ mbits F in
  let j := c mod 2 ^ mbits F in
  (if e =? 0 then j else (2 ^ mbits F + j) * 2 ^ (e - 1)) * 2 ^ (150 - bias F - mbits F).
(** the magnitude of a finite float *)
Definition float_value (u : Z) : Z := sig32 u * 2 ^ (ex32 u + 149).
Definition nearest_even (F : Format) (X r : Z) : Prop :=
  0 <= r ∧ ∀ c, 0 <= c →
    Z.abs (X - code_value F r) <= Z.abs (X - code_value F c) ∧
    (Z.abs (X - code_value F r) = Z.abs (X - code_value F c) → c = r ∨ Z.even r = true).
Lemma code_value_grid F Fe q :
  valid_format F → 1 <= Fe → (if Fe =? 1 then 0 else 2 ^ mbits F) <= q <= 2 * 2 ^ mbits F →
  code_value F ((Fe - 1) * 2 ^ mbits F + q) = q * (2 ^ (Fe - 1) * 2 ^ (150 - bias F - mbits F)).
Proof.
  intros HF HFe Hq. unfold code_value. set (mb := mbits F) in *.
  assert (0 < mb) as Hmb by (subst mb; destruct HF as [-> | ->]; cbn; lia). assert (0 < 2 ^ mb) as Hp by lia.
  rewrite Z.mul_assoc. f_equal.
  destruct (Z.eqb_spec Fe 1) as [->|HF1]; [destruct (Z.ltb_spec q (2 ^ mb))|].
  - rewrite Z.add_0_l, Z.div_small, Z.mod_small by lia. cbn. lia.
  - assert (q = 2 * 2 ^ mb ∨ q < 2 * 2 ^ mb) as [->|Hlt] by lia.
    + replace ((1 - 1) * 2 ^ mb + 2 * 2 ^ mb) with (0 + 2 * 2 ^ mb) by lia.
      rewrite Z.div_add, Z.mod_add, Z.div_0_l, Z.mod_0_l by lia. change (0 + 2 =? 0) with false. cbv iota. change (0 + 2 - 1) with 1. change (1 - 1) with 0. lia.
    + assert (((1 - 1) * 2 ^ mb + q) / 2 ^ mb = 1) as -> by (symmetry; apply Z.div_unique with (q - 2 ^ mb); lia).
      assert (((1 - 1) * 2 ^ mb + q) mod 2 ^ mb = q - 2 ^ mb) as -> by (symmetry; apply Z.mod_unique with 1; lia).
      cbn. lia.
  - assert (q = 2 * 2 ^ mb ∨ q < 2 * 2 ^ mb) as [->|Hlt] by lia.
    + replace ((Fe - 1) * 2 ^ mb + 2 * 2 ^ mb) with (0 + (Fe + 1) * 2 ^ mb) by lia.
      rewrite Z.div_add, Z.mod_add, Z.div_0_l, Z.mod_0_l by lia.
      destruct (Z.eqb_spec (0 + (Fe + 1)) 0); [lia|].
      replace (0 + (Fe + 1) - 1) with (Z.succ (Fe - 1)) by lia. rewrite Z.pow_succ_r by lia. lia.
    + assert (((Fe - 1) * 2 ^ mb + q) / 2 ^ mb = Fe) as -> by (symmetry; apply Z.div_unique with (q - 2 ^ mb); lia).
      assert (((Fe - 1) * 2 ^ mb + q) mod 2 ^ mb = q - 2 ^ mb) as -> by (symmetry; apply Z.mod_unique with Fe; lia).
      destruct (Z.eqb_spec Fe 0); [lia|]. lia.
Qed.
Lemma code_value_succ F c : valid_format F → 0 <= c → code_value F c < code_value F (c + 1).
Proof.
  intros HF Hc. assert (0 < mbits F) as Hmb by (destruct HF as [-> | ->]; cbn; lia).
  assert (0 < 2 ^ (150 - bias F - mbits F)) as HU by (destruct HF as [-> | ->]; cbn; lia).
  assert (0 < 2 ^ mbits F) as Hp by lia.
  pose proof (Z.div_mod c (2 ^ mbits F) ltac:(lia)) as Hdm. pose proof (Z.mod_pos_bound c (2 ^ mbits F) Hp).
  assert (0 <= c / 2 ^ mbits F) as Hd by (apply Z.div_pos; lia).
  set (e := c / 2 ^ mbits F) in *. set (j := c mod 2 ^ mbits F) in *.
  assert (∃ Fe q, 1 <= Fe ∧ c = (Fe - 1) * 2 ^ mbits F + q ∧ (if Fe =? 1 then 0 else 2 ^ mbits F) <= q < 2 * 2 ^ mbits F)
    as (Fe & q & HFe & -> & Hq).
  { destruct (Z.eq_dec e 0) as [E|E].
    - exists 1, j. cbn. rewrite E in Hdm. lia.
    - exists e, (2 ^ mbits F + j). destruct (Z.eqb_spec e 1); lia. }
  rewrite <- Z.add_assoc, !code_value_grid by (done || lia).
  assert (0 < 2 ^ (Fe - 1)) by lia. nia.
Qed.
Lemma code_value_lt F c d : valid_format F → 0 <= c < d → code_value F c < code_value F d.
Proof.
  intros HF Hcd. assert (∀ n, code_value F c < code_value F (c + 1 + Z.of_nat n)) as H.
  { induction n as [|n IH]; [rewrite Z.add_0_r; apply code_value_succ; lia || done|].
    rewrite Nat2Z.inj_succ. replace (c + 1 + Z.succ (Z.of_nat n)) with (c + 1 + Z.of_nat n + 1) by lia.
    pose proof (code_value_succ F (c + 1 + Z.of_nat n) HF ltac:(lia)). lia. }
  specialize (H (Z.to_nat (d - c - 1))). rewrite Z2Nat.id in H by lia. by replace (c + 1 + (d - c - 1)) with d in H by lia.
Qed.
(** on a grid of step [G] from [lo] to [hi], with the codes outside it on the same side as the ends *)
Lemma code_nearest F E m :
  valid_format F → 1 <= E <= 254 → 2 ^ 23 <= m < 2 ^ 24 → nearest_even F (m * 2 ^ (E - 1)) (code F E m).
Proof.
  intros HF HE Hm. unfold code. set (mb := mbits F). set (fe := E - 127 + bias F). set (Fe := Z.max fe 1).
  assert (0 < mb <= 3 ∧ 7 <= bias F <= 15) as [Hmb Hbias] by (subst mb; destruct HF as [-> | ->]; cbn; lia).
  set (sh := 23 - mb + (Fe - fe)). set (q := RNE m (2 ^ sh)).
  set (U := 2 ^ (150 - bias F - mb)). set (G := 2 ^ (Fe - 1) * U).
  assert (0 < 2 ^ sh) as Hsp by (apply Z.pow_pos_nonneg; lia).
  assert (0 < 2 ^ (E - 1)) as HEp by (apply Z.pow_pos_nonneg; lia).
  assert (0 < 2 ^ mb) as Hmp by (apply Z.pow_pos_nonneg; lia).
  assert (2 ^ sh * 2 ^ (E - 1) = G) as HG.
  { subst G U. rewrite <- !Z.pow_add_r by lia. f_equal. lia. }
  set (lo := if Fe =? 1 then 0 else 2 ^ mb).
  assert (lo * 2 ^ sh <= m < 2 * 2 ^ mb * 2 ^ sh) as Hrange.
  { split.
    - subst lo. destruct (Z.eqb_spec Fe 1); [lia|]. replace sh with (23 - mb) by lia. rewrite <- Z.pow_add_r by lia.
      replace (mb + (23 - mb)) with 23 by lia. lia.
    - rewrite <- Z.pow_succ_r, <- Z.pow_add_r by lia. apply Z.lt_le_trans with (2 ^ 24); [lia|].
      apply Z.pow_le_mono_r; lia. }
  assert (lo <= q <= 2 * 2 ^ mb) as Hq.
  { pose proof (RNE_bounds m (2 ^ sh) Hsp) as Hb. fold q in Hb.
    assert (lo <= m / 2 ^ sh) by (apply Z.div_le_lower_bound; lia).
    assert (m / 2 ^ sh < 2 * 2 ^ mb) by (apply Z.div_lt_upper_bound; lia). lia. }
  assert (∀ k, lo <= k <= 2 * 2 ^ mb → code_value F ((Fe - 1) * 2 ^ mb + k) = k * G) as HV.
  { intros k Hk. apply code_value_grid; [done|lia|exact Hk]. }
  assert (0 <= lo) as Hlo by (subst lo; destruct (Fe =? 1); lia).
  assert (0 <= (Fe - 1) * 2 ^ mb) as Hbase by nia.
  assert (∀ k, Z.abs (m * 2 ^ (E - 1) - k * G) = Z.abs (m - k * 2 ^ sh) * 2 ^ (E - 1)) as Habs.
  { intros k. rewrite <- HG. rewrite <- (Z.abs_eq (2 ^ (E - 1))) at 3 by lia. rewrite <- Z.abs_mul. f_equal. ring. }
  split; [lia|]. intros c Hc. rewrite (HV q Hq), Habs.
  assert (∀ k, lo <= k <= 2 * 2 ^ mb → Z.abs (m - q * 2 ^ sh) * 2 ^ (E - 1) <= Z.abs (m * 2 ^ (E - 1) - code_value F ((Fe - 1) * 2 ^ mb + k))) as Hle.
  { intros k Hk. rewrite HV, Habs by done. destruct (RNE_nearest m (2 ^ sh) k Hsp) as [Hn _]. fold q in Hn.
    apply Z.mul_le_mono_nonneg_r; lia. }
  destruct (Z.lt_ge_cases c ((Fe - 1) * 2 ^ mb + lo)) as [Hbelow|Hin].
  { pose proof (code_value_lt F c ((Fe - 1) * 2 ^ mb + lo) HF ltac:(lia)) as Hlt.
    specialize (Hle lo ltac:(lia)). rewrite HV in Hlt, Hle by lia.
    assert (lo * G <= m * 2 ^ (E - 1)) by (rewrite <- HG, Z.mul_assoc; apply Z.mul_le_mono_nonneg_r; lia). split; [lia|]. intros. lia. }
  destruct (Z.lt_ge_cases ((Fe - 1) * 2 ^ mb + 2 * 2 ^ mb) c) as [Habove|Hin2].
  { pose proof (code_value_lt F ((Fe - 1) * 2 ^ mb + 2 * 2 ^ mb) c HF ltac:(lia)) as Hlt.
    specialize (Hle (2 * 2 ^ mb) ltac:(lia)). rewrite HV in Hlt, Hle by lia.
    assert (m * 2 ^ (E - 1) < 2 * 2 ^ mb * G) by (rewrite <- HG, Z.mul_assoc; apply Z.mul_lt_mono_pos_r; lia). split; [lia|]. intros. lia. }
  set (k := c - (Fe - 1) * 2 ^ mb) in *. replace c with ((Fe - 1) * 2 ^ mb + k) by lia.
  assert (lo <= k <= 2 * 2 ^ mb) as Hk by lia. split; [by apply Hle|].
  rewrite HV, Habs by done. intros Heq. destruct (RNE_nearest m (2 ^ sh) k Hsp) as [_ Ht]. fold q in Ht.
  destruct Ht as [->|Hev]; [apply (Z.mul_reg_r _ _ (2 ^ (E - 1))); lia|by left|right].
  rewrite Z.even_add, Z.even_mul, Hev. replace mb with (Z.succ (mb - 1)) by lia. rewrite Z.pow_succ_r, Z.even_mul by lia.
  cbn. by rewrite orb_true_r.
Qed.

(** ** binary32 *)
Section pack_values.
Context (s E M : Z) (Hf : fields s E M).
Lemma exp32_pack : exp32 (pack s E M) = E.
Proof. unfold exp32, fields, pack in *. norm_pow. Z.div_mod_to_equations. lia. Qed.
Lemma man32_pack : man32 (pack s E M) = M.
Proof. unfold man32, fields, pack in *. norm_pow. Z.div_mod_to_equations. lia. Qed.
Lemma sign32_pack : sign32 (pack s E M) = s.
Proof. unfold sign32, fields, pack in *. norm_pow. Z.div_mod_to_equations. lia. Qed.
Lemma float_value_pack :
  float_value (pack s E M) = if E =? 0 then M else (M + 2 ^ 23) * 2 ^ (E - 1).
Proof.
  unfold float_value, sig32, ex32. rewrite exp32_pack, man32_pack. destruct Hf as (_ & HE & _).
  destruct (Z.eqb_spec E 0) as [->|]; [change (Z.max 0 1 - 150 + 149) with 0; lia|].
  replace (Z.max E 1 - 150 + 149) with (E - 1) by lia. done.
Qed.
End pack_values.
(** products that are representable are exact *)
Lemma encode32_exact m e :
  0 < m < 2 ^ 24 → -149 <= e → Z.log2 m + e <= 127 →
  let u := encode32 m e in is_u32 u ∧ u < inf32 ∧ float_value u = m * 2 ^ (e + 149).
Proof.
  intros Hm He Hl u. pose proof (Z.log2_spec m ltac:(lia)) as [Hlo Hhi]. set (L := Z.log2 m) in *.
  assert (0 <= L < 24) as HL.
  { split; [apply Z.log2_nonneg|]. apply Z.log2_lt_pow2; lia. }
  set (E := Z.max (L + e) (-126)). set (d := e - (E - 23)). set (q := m * 2 ^ d).
  assert (0 <= d) as Hd by lia.
  assert (u = Z.min ((E + 126) * 2 ^ 23 + q) inf32) as Hu.
  { subst u. unfold encode32. destruct (Z.eqb_spec m 0); [lia|]. fold L E d.
    destruct (Z.leb_spec 0 d); [done|lia]. }
  assert (0 < q < 2 ^ 24) as Hq.
  { subst q. split; [apply Z.mul_pos_pos; lia|]. apply Z.lt_le_trans with (2 ^ (L + 1) * 2 ^ d).
    - apply Z.mul_lt_mono_pos_r; [lia|]. exact Hhi.
    - rewrite <- Z.pow_add_r by lia. apply Z.pow_le_mono_r; lia. }
  assert (-126 < E → 2 ^ 23 <= q) as Hnorm.
  { intros HE. subst q. replace 23 with (L + d) by lia. rewrite Z.pow_add_r by lia.
    apply Z.mul_le_mono_nonneg_r; lia. }
  assert (m * 2 ^ (e + 149) = q * 2 ^ (E + 126)) as ->.
  { subst q. rewrite <- Z.mul_assoc, <- Z.pow_add_r by lia. do 2 f_equal. lia. }
  assert (E <= 127) as HE by lia. assert (-126 <= E) as HE' by lia. clearbody E q u. clear d Hd Hlo Hhi HL L Hl Hm He m e.
  assert ((E + 126) * 2 ^ 23 + q < inf32) as Hlt by (change inf32 with (255 * 2 ^ 23); norm_pow; lia).
  rewrite Z.min_l in Hu by lia. split; [unfold is_u32, inf32 in *; norm_pow; lia|]. split; [lia|].
  destruct (Z.lt_ge_cases q (2 ^ 23)) as [Hsub|Hn].
  - assert (E = -126) as -> by (destruct (Z.eq_dec E (-126)); [done|specialize (Hnorm ltac:(lia)); lia]).
    assert (u = pack 0 0 q) as -> by (unfold pack; lia). rewrite float_value_pack by (unfold fields; lia).
    cbn. change (2 ^ (-126 + 126)) with 1. lia.
  - assert (u = pack 0 (E + 127) (q - 2 ^ 23)) as -> by (unfold pack; lia).
    rewrite float_value_pack by (unfold fields; lia). destruct (Z.eqb_spec (E + 127) 0); [lia|].
    replace (E + 127 - 1) with (E + 126) by lia. f_equal. lia.
Qed.
(** rounding to an integer is rounding the value *)
Lemma rintf_value u :
  is_u32 u → float_value u < 2 ^ 149 * 2 ^ 31 → rintf_u u = RNE (float_value u) (2 ^ 149).
Proof.
  intros Hu Hlt. unfold rintf_u, float_value in *. set (m := sig32 u) in *. set (e := ex32 u) in *.
  assert (0 <= m) as Hm.
  { subst m. unfold sig32, man32. pose proof (Z.mod_pos_bound u (2 ^ 23) ltac:(lia)). destruct (_ =? 0); lia. }
  assert (-149 <= e) as He by (subst e; unfold ex32; lia). clearbody m e.
  destruct (Z.leb_spec 0 e) as [Hpos|Hneg].
  - rewrite Z.pow_add_r, Z.mul_assoc in Hlt |- * by lia. set (n := m * 2 ^ e) in *.
    assert (0 <= n < 2 ^ 31) as Hn by (split; [apply Z.mul_nonneg_nonneg; lia|nia]).
    rewrite u32_small by (unfold is_u32; norm_pow; lia). unfold RNE, round_half_even.
    rewrite Z.div_mul, Z.mod_mul by lia. destruct (Z.ltb_spec (2 * 0) (2 ^ 149)); [done|lia].
  - assert (2 ^ 149 = 2 ^ (- e) * 2 ^ (e + 149)) as Hp by (rewrite <- Z.pow_add_r by lia; f_equal; lia).
    set (K := 2 ^ (e + 149)) in *. set (D := 2 ^ (- e)) in *.
    assert (0 < K) by (apply Z.pow_pos_nonneg; lia). assert (0 < D) by (apply Z.pow_pos_nonneg; lia).
    rewrite Hp in Hlt |- *.
    rewrite RNE_scale by done.
    apply u32_small. pose proof (RNE_bounds m D ltac:(lia)) as Hb.
    assert (0 <= m / D) by (apply Z.div_pos; lia).
    assert (m / D < 2 ^ 31) by (apply Z.div_lt_upper_bound; [lia|]; nia).
    unfold is_u32. norm_pow. unfold RNE in *. lia.
Qed.
Lemma encode32_shift m k e :
  0 < m < 2 ^ 24 → 0 <= k → -149 <= e + k → encode32 (m * 2 ^ k) e = encode32 m (e + k).
Proof.
  intros Hm Hk He. pose proof (Z.pow_pos_nonneg 2 k ltac:(lia) Hk) as Hp. unfold encode32.
  destruct (Z.eqb_spec (m * 2 ^ k) 0); [nia|]. destruct (Z.eqb_spec m 0); [lia|].
  rewrite Z.log2_mul_pow2 by lia.
  assert (0 <= Z.log2 m < 24) as HL by (split; [apply Z.log2_nonneg|apply Z.log2_lt_pow2; lia]).
  replace (k + Z.log2 m + e) with (Z.log2 m + (e + k)) by lia. set (E := Z.max (Z.log2 m + (e + k)) (-126)).
  do 2 f_equal. destruct (Z.leb_spec 0 (e + k - (E - 23))) as [Hd|]; [|lia].
  destruct (Z.leb_spec 0 (e - (E - 23))).
  - rewrite <- Z.mul_assoc, <- Z.pow_add_r by lia. do 2 f_equal. lia.
  - replace k with (k + (e - (E - 23)) + - (e - (E - 23))) at 1 by lia.
    rewrite Z.pow_add_r, Z.mul_assoc by lia. rewrite (RNE_exact (m * 2 ^ (k + (e - (E - 23))))) by lia.
    do 2 f_equal. lia.
Qed.
(** [ax * 512.f] is exact *)
Lemma times_512 a :
  0 <= a < 0x3c800000 → let p := mul32 a 0x44000000 in is_u32 p ∧ float_value p = float_value a * 2 ^ 9.
Proof.
  intros Ha p. destruct (unpack a) as (s & E & M & Hf & ->); [unfold is_u32; norm_pow; lia|].
  assert (s = 0 ∧ E <= 120) as [-> HE] by (unfold fields, pack in *; norm_pow; lia).
  subst p. unfold mul32, is_nan32. rewrite (proj2 (pack_mag 0 E M Hf)), (sign32_pack 0 E M Hf).
  change (mag32 0x44000000) with 0x44000000. change (sign32 0x44000000) with 0.
  change (sig32 0x44000000) with (2 ^ 23). change (ex32 0x44000000) with (-14).
  destruct (Z.ltb_spec inf32 (E * 2 ^ 23 + M)); [unfold fields, pack, inf32 in *; norm_pow; lia|].
  destruct (Z.eqb_spec (E * 2 ^ 23 + M) inf32); [unfold fields, pack, inf32 in *; norm_pow; lia|].
  change (inf32 <? 0x44000000) with false. change (0x44000000 =? inf32) with false. cbn [orb].
  change (Z.lxor 0 0 * 2 ^ 31) with 0. rewrite Z.add_0_l.
  rewrite float_value_pack by done. unfold sig32, ex32. rewrite exp32_pack, man32_pack by done.
  destruct (Z.eq_dec E 0) as [->|HE0]; [destruct (Z.eq_dec M 0) as [->|HM0]; [by vm_compute|]|].
  - destruct Hf as (_ & _ & HM). change (0 =? 0) with true. cbv iota. change (Z.max 0 1 - 150 + -14) with (-163).
    rewrite encode32_shift by (norm_pow; lia). destruct (encode32_exact M (-163 + 23)) as (? & _ & ->); [norm_pow; lia|lia| |done].
    assert (Z.log2 M < 23) by (apply Z.log2_lt_pow2; lia). lia.
  - destruct Hf as (_ & HE1 & HM). destruct (Z.eqb_spec E 0); [lia|]. replace (Z.max E 1 - 150 + -14) with (E - 164) by lia.
    rewrite encode32_shift by (norm_pow; lia).
    destruct (encode32_exact (M + 2 ^ 23) (E - 164 + 23)) as (? & _ & ->); [norm_pow; lia|lia| |].
    { assert (Z.log2 (M + 2 ^ 23) < 24) by (apply Z.log2_lt_pow2; norm_pow; lia). lia. }
    split; [done|]. replace (E - 164 + 23 + 149) with (E - 1 + 9) by lia. rewrite (Z.pow_add_r 2 (E - 1) 9) by lia. lia.
Qed.
Lemma sub_code E M :
  fields 0 E M → E <= 120 →
  rintf_u (mul32 (pack 0 E M) 0x44000000) = if E =? 0 then 0 else code E4M3 E (M + 2 ^ 23).
Proof.
  intros Hf HE. destruct (times_512 (pack 0 E M)) as [Hu Hv]; [unfold fields, pack in *; norm_pow; lia|].
  rewrite (float_value_pack 0 E M Hf) in Hv. destruct Hf as (_ & HE0 & HM).
  destruct (Z.eqb_spec E 0) as [->|Hne].
  - rewrite rintf_value; [|done|rewrite Hv; norm_pow; lia]. rewrite Hv. apply RNE_small; norm_pow; lia.
  - assert (2 ^ (E - 1) <= 2 ^ 119) by (apply Z.pow_le_mono_r; lia).
    assert (0 < 2 ^ (E - 1)) by (apply Z.pow_pos_nonneg; lia).
    rewrite rintf_value; [|done|].
    2: { rewrite Hv. apply Z.le_lt_trans with (2 ^ 24 * 2 ^ 119 * 2 ^ 9); [|norm_pow; lia].
         apply Z.mul_le_mono_nonneg_r; [lia|]. apply Z.mul_le_mono_nonneg; norm_pow; lia. }
    rewrite Hv. unfold code. cbn [mbits bias E4M3]. replace (Z.max (E - 127 + 7) 1) with 1 by lia.
    rewrite <- Z.mul_assoc, <- Z.pow_add_r by lia.
    replace (2 ^ 149) with (2 ^ (23 - 3 + (1 - (E - 127 + 7))) * 2 ^ (E - 1 + 9)).
    2: { rewrite <- Z.pow_add_r by lia. f_equal. lia. }
    rewrite RNE_scale by (apply Z.pow_pos_nonneg; lia). lia.
Qed.
Lemma u8_sign s c : 0 <= s <= 1 → 0 <= c < 128 → u8 (Z.lor (128 * s) c) = 128 * s + c.
Proof. intros Hs Hc. rewrite lor_sign by done. unfold u8. apply Z.mod_small. norm_pow. lia. Qed.
Lemma land_1 x : Z.land x 1 = x mod 2.
Proof. change 1 with (Z.ones 1). by rewrite Z.land_ones. Qed.
(** rounding the bit pattern of a normal *)
Lemma normal_code E M :
  fields 0 E M → 121 <= E → E * 2 ^ 23 + M <= 0x43e00000 →
  Z.land (u32 (Z.shiftr (u32 (u32 (E * 2 ^ 23 + M + 0x7ffff) + Z.land (Z.shiftr (E * 2 ^ 23 + M) 20) 1)) 20
               - Z.shiftl 120 3)) 0x7f = code E4M3 E (M + 2 ^ 23).
Proof.
  intros (_ & _ & HM) HE Ha. unfold code. cbn [mbits bias E4M3]. replace (Z.max (E - 127 + 7) 1) with (E - 120) by lia.
  replace (23 - 3 + (E - 120 - (E - 127 + 7))) with 20 by lia.
  rewrite (round_up_spec (M + 2 ^ 23) 20 ((M + 2 ^ 23) / 2 ^ 20)) by (done || lia).
  unfold round_up. rewrite mask_pow, shl1_pow by lia.
  change 0x7f with (Z.ones 7). rewrite !land_1, Z.land_ones, !Z.shiftr_div_pow2 by lia.
  assert (E <= 135) as HE2 by (norm_pow; lia).
  set (j := M / 2 ^ 20). set (r := M mod 2 ^ 20).
  assert (0 <= j < 8 ∧ 0 <= r < 2 ^ 20 ∧ M = j * 2 ^ 20 + r) as (Hj & Hr & HMj).
  { subst j r. norm_pow. Z.div_mod_to_equations. lia. }
  assert ((M + 2 ^ 23) / 2 ^ 20 = j + 8) as -> by (norm_pow; Z.div_mod_to_equations; lia).
  assert ((M + 2 ^ 23) mod 2 ^ 20 = r) as -> by (norm_pow; Z.div_mod_to_equations; lia).
  assert ((E * 2 ^ 23 + M) / 2 ^ 20 = 8 * E + j) as -> by (norm_pow; Z.div_mod_to_equations; lia).
  assert ((8 * E + j) mod 2 = j mod 2) as -> by (norm_pow; Z.div_mod_to_equations; lia).
  assert ((j + 8) mod 2 = j mod 2) as -> by (norm_pow; Z.div_mod_to_equations; lia).
  clearbody j r. change (Z.shiftl 120 3) with 960. change (2 ^ (20 - 1)) with 524288.
  assert (j mod 2 = 0 ∨ j mod 2 = 1) as Hj2 by (Z.div_mod_to_equations; lia).
  rewrite (u32_small (_ + 0x7ffff)) by (unfold is_u32; norm_pow; lia).
  rewrite (u32_small (_ + 0x7ffff + _)) by (unfold is_u32; norm_pow; lia).
  set (up := (524288 <? r) || ((r =? 524288) && (j mod 2 =? 1))).
  assert ((E * 2 ^ 23 + M + 0x7ffff + j mod 2) / 2 ^ 20 = 8 * E + j + (if up then 1 else 0)) as ->.
  { symmetry. apply Z.div_unique with (r + 0x7ffff + j mod 2 - (if up then 2 ^ 20 else 0)); [left|]; subst up;
      destruct (Z.ltb_spec 524288 r), (Z.eqb_spec r 524288), (Z.eqb_spec (j mod 2) 1); cbn [orb andb]; norm_pow; lia. }
  rewrite u32_small by (unfold is_u32; norm_pow; destruct up; lia).
  rewrite Z.mod_small; [norm_pow; destruct up; lia|]. split; [destruct up; lia|].
  change (2 ^ 7) with 128. assert (E = 135 → j <= 6 ∧ (j = 6 → r = 0)) as Htop by (norm_pow; lia).
  subst up. destruct (Z.ltb_spec 524288 r), (Z.eqb_spec r 524288), (Z.eqb_spec (j mod 2) 1); cbn [orb andb]; lia.
Qed.
Lemma code_range F E m :
  valid_format F → 1 <= E <= 254 → 2 ^ 23 <= m < 2 ^ 24 → 0 <= code F E m.
Proof. intros. by apply code_nearest. Qed.

(** [C31] The branch-free conversion is the general one, as the source's comment claims: for every one
    of the 2^32 bit patterns [f2e4m3_sat] gives the byte [f2fp8(f, 3, 7, false, true)] gives. *)
Theorem f2e4m3_sat_equiv u : is_u32 u → f2e4m3_sat u = f2fp8 u E4M3 true.
Proof.
  intros Hu. destruct (unpack u Hu) as (s & E & M & Hf & ->). pose proof Hf as (Hs & HE & HM).
  assert (fields 0 E M) as Hf0 by (unfold fields in *; lia).
  set (a0 := E * 2 ^ 23 + M).
  assert (pack 0 E M = a0) as Hp0 by (unfold pack; lia).
  unfold f2e4m3_sat. rewrite (pack_sign s E M Hf), (sign_byte s E M Hf). unfold fabsf.
  destruct (pack_mag s E M Hf) as [-> ->]. fold a0.
  assert (is_nan32 a0 = (inf32 <? a0) ∧ gt32 a0 0x43e00000 = negb (inf32 <? a0) && (0x43e00000 <? a0)) as [Hnan ->].
  { assert (mag32 a0 = a0 ∧ sign32 a0 = 0) as [Hma Hsa].
    { rewrite <- Hp0. rewrite (sign32_pack 0 E M Hf0), (proj2 (pack_mag 0 E M Hf0)). by rewrite Hp0. }
    unfold gt32, is_nan32. rewrite Hma, Hsa. change (mag32 0x43e00000) with 0x43e00000.
    change (inf32 <? 0x43e00000) with false. cbn [negb andb]. by rewrite andb_true_r. }
  change 0x7f800000 with inf32. destruct (Z.ltb_spec inf32 a0) as [Hn|Hn]; cbn [negb andb].
  { (* NaN *)
    rewrite u8_sign by lia. unfold f2fp8.
    rewrite (pack_sign s E M Hf), (sign_byte s E M Hf), (pack_exp s E M Hf), (pack_man s E M Hf).
    assert (E = 255 ∧ M ≠ 0) as [-> HM0] by (unfold a0, inf32 in Hn; norm_pow; lia).
    cbn. apply Z.eqb_neq in HM0 as ->. cbn. by rewrite lor_sign by lia. }
  destruct (Z.eq_dec E 255) as [->|HE255].
  { (* infinity *)
    assert (M = 0) as -> by (unfold a0, inf32 in Hn; norm_pow; lia).
    assert (s = 0 ∨ s = 1) as [-> | ->] by lia; vm_compute; reflexivity. }
  destruct (Z.eq_dec E 0) as [->|HE0].
  { (* zero and the subnormals *)
    destruct (Z.ltb_spec 0x43e00000 a0); [unfold a0 in *; norm_pow; lia|].
    destruct (Z.leb_spec 0x3c800000 a0); [unfold a0 in *; norm_pow; lia|].
    rewrite <- Hp0, sub_code by (done || lia). cbn [Z.eqb]. rewrite u8_sign by lia. unfold f2fp8.
    rewrite (pack_sign s 0 M Hf), (sign_byte s 0 M Hf), (pack_exp s 0 M Hf), (pack_man s 0 M Hf). cbn.
    destruct (M =? 0); lia. }
  rewrite (f2fp8_code E4M3 s E M true) by (try done; try (by left); lia).
  assert (2 ^ 23 <= M + 2 ^ 23 < 2 ^ 24) as Hm by (norm_pow; lia).
  pose proof (code_range E4M3 E (M + 2 ^ 23) ltac:(by left) ltac:(lia) Hm) as Hc0.
  destruct (Z.ltb_spec 0x43e00000 a0) as [Hbig|Hsmall].
  { (* above 448 *)
    assert (126 <= code E4M3 E (M + 2 ^ 23)) as Hc.
    { unfold code. cbn [mbits bias E4M3]. assert (135 <= E) by (unfold a0 in *; norm_pow; lia).
      replace (Z.max (E - 127 + 7) 1) with (E - 120) by lia. replace (23 - 3 + (E - 120 - (E - 127 + 7))) with 20 by lia.
      pose proof (RNE_bounds (M + 2 ^ 23) (2 ^ 20) ltac:(lia)) as Hb.
      assert (8 <= (M + 2 ^ 23) / 2 ^ 20) by (apply Z.div_le_lower_bound; norm_pow; lia).
      destruct (Z.eq_dec E 135) as [->|]; [|norm_pow; lia].
      assert (14 <= (M + 2 ^ 23) / 2 ^ 20) by (apply Z.div_le_lower_bound; unfold a0 in *; norm_pow; lia). norm_pow; lia. }
    assert (clamp_code E4M3 true (code E4M3 E (M + 2 ^ 23)) = 126) as ->.
    { unfold clamp_code. cbn [maxcode e5m2 E4M3]. change 0x7e with 126. destruct (Z.ltb_spec 126 (code E4M3 E (M + 2 ^ 23))); lia. }
    assert (s = 0 ∨ s = 1) as [-> | ->] by lia; vm_compute; reflexivity. }
  assert ((if 0x3c800000 <=? a0
           then Z.land (u32 (Z.shiftr (u32 (u32 (a0 + 0x7ffff) + Z.land (Z.shiftr a0 20) 1)) 20 - Z.shiftl 120 3)) 0x7f
           else rintf_u (mul32 a0 0x44000000)) = code E4M3 E (M + 2 ^ 23)) as ->.
  { destruct (Z.leb_spec 0x3c800000 a0).
    - apply normal_code; [done|unfold a0 in *; norm_pow; lia|done].
    - rewrite <- Hp0, sub_code by (try done; unfold a0 in *; norm_pow; lia). by apply Z.eqb_neq in HE0 as ->. }
  assert (code E4M3 E (M + 2 ^ 23) <= 126) as Hle.
  { apply Z.le_ngt. intros Hgt. unfold code in Hgt. cbn [mbits bias E4M3] in Hgt.
    destruct (Z.lt_ge_cases E 121) as [Hl|Hg].
    - replace (Z.max (E - 127 + 7) 1) with 1 in Hgt by lia.
      pose proof (RNE_bounds (M + 2 ^ 23) (2 ^ (23 - 3 + (1 - (E - 127 + 7)))) ltac:(lia)) as Hb.
      assert ((M + 2 ^ 23) / 2 ^ (23 - 3 + (1 - (E - 127 + 7))) < 8); [|lia].
      assert (2 ^ 21 <= 2 ^ (23 - 3 + (1 - (E - 127 + 7)))) by (apply Z.pow_le_mono_r; lia).
      apply Z.div_lt_upper_bound; [lia|]. norm_pow. lia.
    - replace (Z.max (E - 127 + 7) 1) with (E - 120) in Hgt by lia.
      replace (23 - 3 + (E - 120 - (E - 127 + 7))) with 20 in Hgt by lia.
      destruct (Z.eq_dec E 135) as [->|].
      + destruct (Z.eq_dec M (6 * 2 ^ 20)) as [->|]; [by vm_compute in Hgt|].
        pose proof (RNE_bounds (M + 2 ^ 23) (2 ^ 20) ltac:(lia)) as Hb.
        assert ((M + 2 ^ 23) / 2 ^ 20 < 14) by (apply Z.div_lt_upper_bound; unfold a0 in *; norm_pow; lia). norm_pow. lia.
      + pose proof (RNE_bounds (M + 2 ^ 23) (2 ^ 20) ltac:(lia)) as Hb.
        assert ((M + 2 ^ 23) / 2 ^ 20 < 16) by (apply Z.div_lt_upper_bound; norm_pow; lia).
        assert (E <= 134) by (unfold a0 in *; norm_pow; lia). norm_pow. lia. }
  unfold clamp_code. cbn [maxcode e5m2 E4M3]. change 0x7e with 126.
  destruct (Z.ltb_spec 126 (code E4M3 E (M + 2 ^ 23))); [lia|]. apply u8_sign; lia.
Qed.
Lemma f2e4m3_sat_equiv_witness : is_u32 0x3e2a0000 ∧ f2e4m3_sat 0x3e2a0000 = f2fp8 0x3e2a0000 E4M3 true.
Proof.
  assert (is_u32 0x3e2a0000) as H by (split; [discriminate|reflexivity]).
  split; [exact H|exact (f2e4m3_sat_equiv 0x3e2a0000 H)].
Defined.

Lemma code_value_0 F : valid_format F → code_value F 0 = 0.
Proof. intros [-> | ->]; vm_compute; reflexivity. Qed.
Lemma code_value_1 F : valid_format F → 2 ^ 133 <= code_value F 1.
Proof. intros [-> | ->]; vm_compute; discriminate. Qed.
(** what is below half the smallest code is nearest to 0 *)
Lemma nearest_zero F X : valid_format F → 0 <= X < 2 ^ 23 → nearest_even F X 0.
Proof.
  intros HF HX. split; [lia|]. intros c Hc. rewrite (code_value_0 F HF), Z.sub_0_r.
  destruct (Z.eq_dec c 0) as [->|]; [rewrite (code_value_0 F HF), Z.sub_0_r; split; [lia|by left]|].
  pose proof (code_value_1 F HF). assert (code_value F 1 <= code_value F c).
  { destruct (Z.eq_dec c 1) as [->|]; [lia|]. pose proof (code_value_lt F 1 c HF ltac:(lia)). lia. }
  norm_pow. lia.
Qed.

(** [C32] The general conversion rounds to nearest, ties to even: in both formats a finite float is
    converted to its sign and the code whose value is nearest to its magnitude among all codes of
    the format extended without bound, the even code on a tie; a code beyond the largest finite
    one saturates to it, or without saturation is the next one (infinity in E5M2, NaN in E4M3).
    An infinity overflows in the same way, and a NaN is the code 0x7f. *)
Theorem f2fp8_nearest F u sat : valid_format F → is_u32 u →
  (mag32 u < inf32 → ∃ c, nearest_even F (float_value u) c ∧
    f2fp8 u F sat = 128 * sign32 u + clamp_code F sat c) ∧
  (mag32 u = inf32 → f2fp8 u F sat = 128 * sign32 u + (if sat then maxcode F else maxcode F + 1)) ∧
  (inf32 < mag32 u → f2fp8 u F sat = 128 * sign32 u + 127).
Proof.
  intros HF Hu. destruct (unpack u Hu) as (s & E & M & Hf & ->). pose proof Hf as (Hs & HE & HM).
  rewrite (proj2 (pack_mag s E M Hf)), (sign32_pack s E M Hf), (float_value_pack s E M Hf). split_and!.
  - intros Hfin. assert (E < 255) as HE2 by (unfold inf32 in *; norm_pow; lia).
    destruct (Z.eqb_spec E 0) as [->|HE0].
    + exists 0. split; [by apply nearest_zero|]. unfold f2fp8.
      rewrite (pack_sign s 0 M Hf), (sign_byte s 0 M Hf), (pack_exp s 0 M Hf), (pack_man s 0 M Hf). cbn.
      assert (clamp_code F sat 0 = 0) as -> by (destruct HF as [-> | ->]; done). destruct (M =? 0); lia.
    + exists (code F E (M + 2 ^ 23)). split; [apply code_nearest; [done|lia|norm_pow; lia]|].
      apply f2fp8_code; [done|done|lia].
  - intros Hinf. assert (E = 255 ∧ M = 0) as [-> ->] by (unfold inf32 in *; norm_pow; lia).
    assert (s = 0 ∨ s = 1) as [-> | ->] by lia; destruct HF as [-> | ->]; destruct sat; vm_compute; reflexivity.
  - intros Hnan. assert (E = 255 ∧ M ≠ 0) as [-> HM0] by (unfold inf32 in *; norm_pow; lia). unfold f2fp8.
    rewrite (pack_sign s 255 M Hf), (sign_byte s 255 M Hf), (pack_exp s 255 M Hf), (pack_man s 255 M Hf).
    cbn. apply Z.eqb_neq in HM0 as ->. cbn. by rewrite lor_sign by lia.
Qed.
(** 0.3: between the codes 0x2a (0.3125) and 0x29 (0.28125) *)
Lemma f2fp8_nearest_witness :
  ∃ c, nearest_even E4M3 (float_value 0x3e99999a) c ∧ f2fp8 0x3e99999a E4M3 true = 128 * 0 + clamp_code E4M3 true c.
Proof.
  destruct (f2fp8_nearest E4M3 0x3e99999a true (or_introl eq_refl)) as [H _]; [split; [discriminate|reflexivity]|].
  exact (H eq_refl).
Defined.

(** Converting a code to float and back gives the code: for every byte of both formats whose
    magnitude is a finite value, with and without saturation (and for an infinity of E5M2 without);
    the float in between has exactly the value of the code and its sign; and a code that is not
    finite comes back as a NaN or an infinity. *)
Theorem fp8_roundtrip F v sat : valid_format F → 0 <= v < 256 →
  (v mod 128 <= maxcode F →
    f2fp8 (fp82f v (e5m2 F)) F sat = v ∧ is_u32 (fp82f v (e5m2 F)) ∧
    float_value (fp82f v (e5m2 F)) = code_value F (v mod 128) ∧ sign32 (fp82f v (e5m2 F)) = v / 128) ∧
  (maxcode F < v mod 128 → inf32 <= mag32 (fp82f v (e5m2 F)) ∧
    (mag32 (fp82f v (e5m2 F)) = inf32 ↔ F = E5M2 ∧ v mod 128 = 0x7c)).
Proof.
  intros HF Hv.
  set (p F sat v := if v mod 128 <=? maxcode F
    then (f2fp8 (fp82f v (e5m2 F)) F sat =? v) && ((0 <=? fp82f v (e5m2 F)) && (fp82f v (e5m2 F) <? 2 ^ 32)) &&
         (float_value (fp82f v (e5m2 F)) =? code_value F (v mod 128)) && (sign32 (fp82f v (e5m2 F)) =? v / 128)
    else (inf32 <=? mag32 (fp82f v (e5m2 F))) &&
         Bool.eqb (mag32 (fp82f v (e5m2 F)) =? inf32) (e5m2 F && (v mod 128 =? 0x7c))).
  assert (p F sat v = true) as H.
  { apply (upto_spec 256 (p F sat)); [|lia]. destruct HF as [-> | ->], sat; vm_compute; reflexivity. }
  unfold p in H. destruct (Z.leb_spec (v mod 128) (maxcode F)); split; intros Hle; try lia.
  - rewrite !andb_true_iff, !Z.eqb_eq, Z.leb_le, Z.ltb_lt in H. destruct H as [[[? ?] ?] ?]. by split_and!.
  - apply andb_true_iff in H as [Hi He]. apply Z.leb_le in Hi. apply Bool.eqb_prop in He. split; [done|].
    rewrite <- Z.eqb_eq, He, andb_true_iff, Z.eqb_eq. clear -HF. destruct HF as [-> | ->]; split; intros [? ?]; done.
Qed.
Lemma fp8_roundtrip_witness :
  f2fp8 (fp82f 0x81 true) E5M2 false = 0x81 ∧ float_value (fp82f 0x81 true) = code_value E5M2 1.
Proof.
  destruct (fp8_roundtrip E5M2 0x81 false (or_intror eq_refl)) as [H _]; [split; [discriminate|reflexivity]|].
  destruct H as (H1 & _ & H2 & _); [discriminate|]. split; [exact H1|exact H2].
Defined.

(** ** The public conversions *)
Definition format_of (i : Interpretation) : Format := match i with NV_E4M3 => E4M3 | NV_E5M2 => E5M2 end.
Lemma cvt_float_to_fp8_eq x sat i : is_u32 x → cvt_float_to_fp8 x sat i = f2fp8 x (format_of i) (is_sat sat).
Proof. intros Hx. destruct i, sat; try done. by apply f2e4m3_sat_equiv. Qed.
Lemma f2fp8_byte F u sat : valid_format F → is_u32 u → 0 <= f2fp8 u F sat < 256.
Proof.
  intros HF Hu. destruct (unpack u Hu) as (s & E & M & Hf & ->). pose proof Hf as (Hs & HE & HM).
  destruct (f2fp8_nearest F (pack s E M) sat HF Hu) as (H1 & H2 & H3).
  rewrite (proj2 (pack_mag s E M Hf)), (sign32_pack s E M Hf) in *.
  assert (123 <= maxcode F <= 126) by (destruct HF as [-> | ->]; vm_compute; split; discriminate).
  destruct (Z.lt_trichotomy (E * 2 ^ 23 + M) inf32) as [Hlt|[He|Hgt]].
  - destruct (H1 Hlt) as (c & [Hc _] & ->). unfold clamp_code. destruct (Z.ltb_spec (maxcode F) c); destruct sat; lia.
  - rewrite (H2 He). destruct sat; lia.
  - rewrite (H3 Hgt). lia.
Qed.
(** the two halves of a pair are the two conversions *)
Lemma cvt_float2_halves x y sat i :
  is_u32 x → is_u32 y →
  let r := cvt_float2_to_fp8x2 x y sat i in
  r mod 256 = cvt_float_to_fp8 x sat i ∧ r / 256 = cvt_float_to_fp8 y sat i.
Proof.
  intros Hx Hy r. subst r. unfold cvt_float2_to_fp8x2. rewrite !cvt_float_to_fp8_eq by done.
  assert (valid_format (format_of i)) as HF by (destruct i; [by left|by right]).
  pose proof (f2fp8_byte (format_of i) x (is_sat sat) HF Hx). pose proof (f2fp8_byte (format_of i) y (is_sat sat) HF Hy).
  rewrite lor_shiftl by (done || lia). change (2 ^ 8) with 256. split; Z.div_mod_to_equations; lia.
Qed.
