(* ===== verification/SoftDouble.v ===== *)
(** IEEE binary64 in integer arithmetic (msl/mvcc_prelude.metal, namespace [mvcc_f64d]): the [double] of the
    compiled program, on a GPU that has none.  A value is its 64 bits; [ulong] is a [Z] below 2^64 and [int] a [Z]. *)
From S2P Require Import Prelude.
Open Scope Z_scope.

Definition SIGN : Z := 0x8000000000000000.
Definition QNAN : Z := 0x7ff8000000000000.
Definition INF : Z := 0x7ff0000000000000.
(** [sign ? SIGN : 0ul] *)
Definition signed (sign : bool) : Z := if sign then SIGN else 0.
Definition shl64 (x n : Z) : Z := u64 (Z.shiftl x n).
Definition clz (x : Z) : Z := if x =? 0 then 64 else 63 - Z.log2 x.
Definition exp_of (b : Z) : Z := Z.land (Z.shiftr b 52) 0x7ff.
Definition frac_of (b : Z) : Z := Z.land b 0xfffffffffffff.
Definition sign_of (b : Z) : bool := negb (Z.land b SIGN =? 0).
Definition is_nan (b : Z) : bool := (exp_of b =? 0x7ff) && negb (frac_of b =? 0).
Definition is_inf (b : Z) : bool := (exp_of b =? 0x7ff) && (frac_of b =? 0).
Definition shr_jam (x n : Z) : Z :=
  if n =? 0 then x
  else if n <? 64 then Z.lor (Z.shiftr x n) (if shl64 x (64 - n) =? 0 then 0 else 1)
  else if x =? 0 then 0 else 1.
Definition round_pack (sign : bool) (e sig : Z) : Z :=
  let '(e, sig) := if e <=? 0 then (0, shr_jam sig (1 - e)) else (e, sig) in
  let round_bits := Z.land sig 0x3ff in
  let r := Z.shiftr sig 10 in
  let r := if (0x200 <? round_bits) || ((round_bits =? 0x200) && (Z.land r 1 =? 1)) then u64 (r + 1) else r in
  if r =? 0 then signed sign
  else if e =? 0 then Z.lor (signed sign) r
  else
    let '(e, r) := if 2 ^ 53 <=? r then (e + 1, Z.shiftr r 1) else (e, r) in
    if 0x7ff <=? e then Z.lor (signed sign) INF
    else Z.lor (Z.lor (signed sign) (shl64 e 52)) (Z.land r 0xfffffffffffff).
Definition norm_pack (sign : bool) (e sig : Z) : Z :=
  let s := clz sig - 1 in
  if 0 <? s then round_pack sign (e - s) (shl64 sig s)
  else if s <? 0 then round_pack sign (e - s) (shr_jam sig (- s))
  else round_pack sign e sig.
Definition add_mag (sign : bool) (ea sa eb sb : Z) : Z :=
  if ea =? 0x7ff then Z.lor (signed sign) INF
  else
    let sb := shr_jam sb (ea - eb) in
    let sum := u64 (sa + sb) in
    if negb (Z.land sum SIGN =? 0) then round_pack sign (ea + 1) (shr_jam sum 1)
    else round_pack sign ea sum.
Definition sub_mag (sign : bool) (ea sa eb sb : Z) : Z :=
  if ea - eb <=? 1 then
    let a2 := shl64 sa 1 in
    let b2 := if ea =? eb then shl64 sb 1 else sb in
    let diff := u64 (a2 - b2) in
    if diff =? 0 then 0 else norm_pack sign (ea - 1) diff
  else norm_pack sign ea (u64 (sa - shr_jam sb (ea - eb))).
(** the exponent and the significand *)
Definition unpack (b : Z) : Z * Z :=
  let e := exp_of b in
  let f := frac_of b in
  if e =? 0 then
    if f =? 0 then (e, 0)
    else let s := clz f - 1 in (11 - s, shl64 f s)
  else (e, shl64 (Z.lor f 0x10000000000000) 10).
Definition add (a b : Z) (negate_b : bool) : Z :=
  let b := if negate_b then Z.lxor b SIGN else b in
  let sa := sign_of a in
  let sb := sign_of b in
  let ea := exp_of a in
  let eb := exp_of b in
  if (ea =? 0x7ff) || (eb =? 0x7ff) then
    if is_nan a || is_nan b then QNAN
    else if (ea =? 0x7ff) && (eb =? 0x7ff) then if Bool.eqb sa sb then a else QNAN
    else if ea =? 0x7ff then a else b
  else
    let '(xa, ma) := unpack a in
    let '(xb, mb) := unpack b in
    if ma =? 0 then if mb =? 0 then if sa && sb then SIGN else 0 else b
    else if mb =? 0 then a
    else
      let swap := (xa <? xb) || ((xa =? xb) && (ma <? mb)) in
      let '(xa, ma, sa, xb, mb, sb) := if swap then (xb, mb, sb, xa, ma, sa) else (xa, ma, sa, xb, mb, sb) in
      if Bool.eqb sa sb then add_mag sa xa ma xb mb else sub_mag sa xa ma xb mb.
(** the high half of the product *)
Definition mulhi (a b : Z) : Z := a * b / 2 ^ 64.
Definition mul (a b : Z) : Z :=
  let sign := sign_of (Z.lxor a b) in
  let ea := exp_of a in
  let eb := exp_of b in
  if (ea =? 0x7ff) || (eb =? 0x7ff) then
    if is_nan a || is_nan b then QNAN
    else if ((ea =? 0) && (frac_of a =? 0)) || ((eb =? 0) && (frac_of b =? 0)) then QNAN
    else Z.lor (signed sign) INF
  else
    let '(xa, ma) := unpack a in
    let '(xb, mb) := unpack b in
    if (ma =? 0) || (mb =? 0) then signed sign
    else
      let pa := Z.shiftr ma 10 in
      let pb := Z.shiftr mb 10 in
      let hi := mulhi pa pb in
      let lo := u64 (pa * pb) in
      let sig := Z.lor (shl64 hi 21) (Z.shiftr lo 43) in
      let sig := if shl64 lo 21 =? 0 then sig else Z.lor sig 1 in
      let e := xa + xb - 1022 in
      if Z.land sig 0x4000000000000000 =? 0 then round_pack sign (e - 1) (shl64 sig 1) else round_pack sign e sig.
(** one step of the long division: quotient and remainder *)
Definition div_step (d : Z) (qr : Z * Z) : Z * Z :=
  let (q, r) := qr in
  let q := shl64 q 1 in
  let '(q, r) := if d <=? r then (Z.lor q 1, r - d) else (q, r) in
  (q, shl64 r 1).
Definition div (a b : Z) : Z :=
  let sign := sign_of (Z.lxor a b) in
  let ea := exp_of a in
  let eb := exp_of b in
  if is_nan a || is_nan b then QNAN
  else
    let ia := ea =? 0x7ff in
    let ib := eb =? 0x7ff in
    let '(xa, ma) := unpack a in
    let '(xb, mb) := unpack b in
    if ia && ib then QNAN
    else if ia then Z.lor (signed sign) INF
    else if ib then signed sign
    else if mb =? 0 then if ma =? 0 then QNAN else Z.lor (signed sign) INF
    else if ma =? 0 then signed sign
    else
      let n := Z.shiftr ma 10 in
      let d := Z.shiftr mb 10 in
      let e := xa - xb + 0x3ff in
      let '(e, n) := if n <? d then (e - 1, shl64 n 1) else (e, n) in
      let '(q, r) := Nat.iter 55 (div_step d) (0, n) in
      round_pack sign e (Z.lor (shl64 q 8) (if r =? 0 then 0 else 1)).
(** one digit of the square root: two limbs of the radicand, the root, two limbs of the remainder *)
Record Sqrt := mkSqrt { nhi : Z; nlo : Z; root : Z; remhi : Z; remlo : Z }.
Definition sqrt_step (st : Sqrt) : Sqrt :=
  let remhi' := Z.lor (shl64 (remhi st) 2) (Z.shiftr (remlo st) 62) in
  let remlo' := Z.lor (shl64 (remlo st) 2) (Z.shiftr (nhi st) 62) in
  let nhi' := Z.lor (shl64 (nhi st) 2) (Z.shiftr (nlo st) 62) in
  let nlo' := shl64 (nlo st) 2 in
  let thi := Z.shiftr (root st) 62 in
  let tlo := Z.lor (shl64 (root st) 2) 1 in
  let root' := shl64 (root st) 1 in
  if (thi <? remhi') || ((remhi' =? thi) && (tlo <=? remlo')) then
    let borrow := if remlo' <? tlo then 1 else 0 in
    mkSqrt nhi' nlo' (Z.lor root' 1) (u64 (remhi' - u64 (thi + borrow))) (u64 (remlo' - tlo))
  else mkSqrt nhi' nlo' root' remhi' remlo'.
Definition sqrt_ (a : Z) : Z :=
  if is_nan a then QNAN
  else
    let sa := sign_of a in
    let '(xa, ma) := unpack a in
    if ma =? 0 then a
    else if sa then QNAN
    else if xa =? 0x7ff then a
    else
      let e := xa - 0x3ff in
      let m := Z.shiftr ma 10 in
      let '(e, m) := if Z.land e 1 =? 0 then (e, m) else (e - 1, shl64 m 1) in
      let st := Nat.iter 54 sqrt_step (mkSqrt (shl64 m 10) 0 0 0 0) in
      let sig := Z.lor (shl64 (root st) 9) (if Z.lor (remhi st) (remlo st) =? 0 then 0 else 1) in
      round_pack false (Z.shiftr e 1 + 0x3ff) sig.
(** ** Comparisons *)
Definition lt (a b : Z) : bool :=
  if is_nan a || is_nan b then false
  else
    let sa := sign_of a in
    if negb (Bool.eqb sa (sign_of b)) then sa && negb (Z.ldiff (Z.lor a b) SIGN =? 0)
    else if sa then b <? a else a <? b.
Definition le (a b : Z) : bool :=
  if is_nan a || is_nan b then false
  else
    let sa := sign_of a in
    if negb (Bool.eqb sa (sign_of b)) then sa || (Z.ldiff (Z.lor a b) SIGN =? 0)
    else if sa then b <=? a else a <=? b.
Definition eq (a b : Z) : bool :=
  if is_nan a || is_nan b then false else (a =? b) || (Z.ldiff (Z.lor a b) SIGN =? 0).
Definition unord (a b : Z) : bool := is_nan a || is_nan b.
(** ** Conversions *)
Definition from_u64 (v : Z) : Z :=
  if v =? 0 then 0
  else
    let s := clz v - 1 in
    round_pack false (0x3ff + 62 - s) (if 0 <=? s then shl64 v s else shr_jam v (- s)).
(** [v]: signed *)
Definition from_i64 (v : Z) : Z :=
  let r := from_u64 (u64 (if v <? 0 then - v else v)) in
  if v <? 0 then Z.lor r SIGN else r.
Definition to_u64 (a : Z) : Z :=
  if is_nan a || sign_of a then 0
  else
    let e := exp_of a in
    if e <? 0x3ff then 0
    else
      let sh := e - 0x3ff in
      if 64 <=? sh then 0xffffffffffffffff
      else
        let m := Z.lor (frac_of a) 0x10000000000000 in
        if 52 <=? sh then shl64 m (sh - 52) else Z.shiftr m (52 - sh).
Definition to_i64 (a : Z) : Z :=
  if is_nan a then 0
  else
    let sign := sign_of a in
    let e := exp_of a in
    if e <? 0x3ff then 0
    else
      let sh := e - 0x3ff in
      if 63 <=? sh then if sign then - 2 ^ 63 else 2 ^ 63 - 1
      else
        let m := Z.lor (frac_of a) 0x10000000000000 in
        let v := if 52 <=? sh then shl64 m (sh - 52) else Z.shiftr m (52 - sh) in
        if sign then - sext 64 v else sext 64 v.
Definition to_i32 (a : Z) : Z :=
  let v := to_i64 a in
  if 2147483647 <? v then 2147483647 else if v <? -2147483648 then -2147483648 else v.
Definition to_u32 (a : Z) : Z := let v := to_u64 a in if 0xffffffff <? v then 0xffffffff else v.
