(* ===== verification/SoftRound.v ===== *)
(** Rounding to nearest even, for the integer arithmetic of SoftDouble.v and for the Standard Library's [SpecFloat]:
    both round the same rational to the same [double].

    A rational is [n / d * 2 ^ e].  Its result is determined by its unit: the exponent [E] of the last place of the
    format at its magnitude. *)
From Stdlib Require Import SpecFloat.
From S2P Require Import Prelude Cstd Fp64 Fp8 SoftDouble.
Open Scope Z_scope.

(** ** Sticky significands *)
(** [x] is [n / d] with everything below bit [j] folded into those bits *)
Definition sticky (j x n d : Z) : Prop :=
  0 <= n ∧ 0 < d ∧ 0 <= j ∧ x / 2 ^ j = n / (d * 2 ^ j) ∧ (x mod 2 ^ j = 0 ↔ n mod (d * 2 ^ j) = 0).
Lemma pow2_pos k : 0 <= k → 0 < 2 ^ k.
Proof. intros. by apply Z.pow_pos_nonneg. Qed.
#[local] Hint Resolve pow2_pos : core.
Lemma pow2_split a b : 0 <= a → 0 <= b → 2 ^ (a + b) = 2 ^ a * 2 ^ b.
Proof. apply Z.pow_add_r. Qed.
Lemma RNE_sticky j k x n d : sticky j x n d → j < k → RNE x (2 ^ k) = RNE n (d * 2 ^ k).
Proof.
  intros (Hn & Hd & Hj & Hq & Hr) Hk. replace k with (j + 1 + (k - j - 1)) by lia. set (i := k - j - 1).
  assert (0 <= i) as Hi by lia. rewrite !pow2_split by lia. change (2 ^ 1) with 2.
  set (J := 2 ^ j) in *. set (I := 2 ^ i). pose proof (pow2_pos j Hj : 0 < J) as HJ. pose proof (pow2_pos i Hi : 0 < I) as HI.
  pose proof (Z.div_mod x J ltac:(lia)) as Hx. pose proof (Z.mod_pos_bound x J HJ) as Hu.
  pose proof (Z.div_mod n (d * J) ltac:(lia)) as Hy. pose proof (Z.mod_pos_bound n (d * J) ltac:(lia)) as Hv.
  rewrite Hq in Hx. set (a := n / (d * J)) in *. set (u := x mod J) in *. set (v := n mod (d * J)) in *.
  pose proof (Z.div_mod a (2 * I) ltac:(lia)) as Ha. pose proof (Z.mod_pos_bound a (2 * I) ltac:(lia)) as Hc.
  set (b := a / (2 * I)) in *. set (c := a mod (2 * I)) in *.
  assert (x / (J * 2 * I) = b ∧ x mod (J * 2 * I) = c * J + u) as [Hx1 Hx2].
  { split; [symmetry; apply Z.div_unique with (c * J + u)|symmetry; apply Z.mod_unique with b]; nia. }
  assert (n / (d * (J * 2 * I)) = b ∧ n mod (d * (J * 2 * I)) = c * (d * J) + v) as [Hn1 Hn2].
  { split; [symmetry; apply Z.div_unique with (c * (d * J) + v)|symmetry; apply Z.mod_unique with b]; nia. }
  unfold RNE, round_half_even. rewrite Hx1, Hx2, Hn1, Hn2.
  assert (c < I ∨ c = I ∨ I < c) as [Hlt|[->|Hgt]] by lia.
  - rewrite (proj2 (Z.ltb_lt (2 * (c * J + u)) _)) by nia. by rewrite (proj2 (Z.ltb_lt (2 * (c * (d * J) + v)) _)) by nia.
  - rewrite (proj2 (Z.ltb_ge (2 * (I * J + u)) _)) by nia. rewrite (proj2 (Z.ltb_ge (2 * (I * (d * J) + v)) _)) by nia.
    destruct (Z.eq_dec u 0) as [E|E].
    + assert (v = 0) as E' by (by apply Hr). rewrite (proj2 (Z.ltb_ge _ (2 * (I * J + u)))) by nia. by rewrite (proj2 (Z.ltb_ge _ (2 * (I * (d * J) + v)))) by nia.
    + assert (v ≠ 0) as E' by (intros E'; by apply E, Hr). rewrite (proj2 (Z.ltb_lt _ (2 * (I * J + u)))) by nia. by rewrite (proj2 (Z.ltb_lt _ (2 * (I * (d * J) + v)))) by nia.
  - rewrite (proj2 (Z.ltb_ge (2 * (c * J + u)) _)) by nia. rewrite (proj2 (Z.ltb_ge (2 * (c * (d * J) + v)) _)) by nia.
    rewrite (proj2 (Z.ltb_lt _ (2 * (c * J + u)))) by nia. by rewrite (proj2 (Z.ltb_lt _ (2 * (c * (d * J) + v)))) by nia.
Qed.
Lemma sticky_exact x : 0 <= x → sticky 0 x x 1.
Proof. intros. split_and!; try lia; by rewrite Z.mul_1_l. Qed.
(** the quotient with its remainder folded into the last bit *)
Definition jam (n d : Z) : Z := Z.lor (n / d) (if n mod d =? 0 then 0 else 1).
Lemma lor_1 x : 0 <= x → Z.lor x 1 = 2 * (x / 2) + 1.
Proof.
  intros. rewrite <- (Z.div2_div x). pose proof (Z.div2_odd x) as Hx. apply Z.bits_inj'. intros k Hk. rewrite Z.lor_spec.
  destruct (Z.eq_dec k 0) as [->|].
  - rewrite Z.testbit_odd_0. change (Z.testbit 1 0) with true. by rewrite orb_true_r.
  - replace k with (Z.succ (k - 1)) by lia. rewrite Z.testbit_odd_succ by lia. rewrite Z.div2_spec, Z.shiftr_spec by lia.
    assert (Z.testbit 1 (Z.succ (k - 1)) = false) as -> by (apply Z.bits_above_log2; change (Z.log2 1) with 0; lia).
    by rewrite orb_false_r.
Qed.
Lemma jam_value n d : 0 <= n → 0 < d → jam n d = if n mod d =? 0 then n / d else 2 * (n / d / 2) + 1.
Proof. intros Hn Hd. unfold jam. destruct (_ =? _); [apply Z.lor_0_r|]. apply lor_1, Z.div_pos; lia. Qed.
Lemma jam_sticky n d : 0 <= n → 0 < d → sticky 1 (jam n d) n d.
Proof.
  intros Hn Hd. split_and!; try lia.
  - change (2 ^ 1) with 2. rewrite <- Z.div_div by lia. rewrite jam_value by done. destruct (_ =? _); [done|].
    rewrite (Z.add_comm _ 1), Z.mul_comm, Z.div_add by lia. change (1 / 2) with 0. lia.
  - change (2 ^ 1) with 2. rewrite jam_value by done. pose proof (Z.div_mod n d ltac:(lia)). pose proof (Z.mod_pos_bound n d Hd).
    pose proof (Z.div_mod (n / d) 2 ltac:(lia)). pose proof (Z.mod_pos_bound (n / d) 2 ltac:(lia)).
    assert (n mod (d * 2) = d * ((n / d) mod 2) + n mod d) as Hm.
    { symmetry. apply Z.mod_unique with (n / d / 2); nia. }
    rewrite Hm. destruct (Z.eqb_spec (n mod d) 0) as [E|E]; [rewrite E; nia|].
    assert ((2 * (n / d / 2) + 1) mod 2 = 1) as -> by (rewrite Z.add_comm, Z.mul_comm, Z.mod_add by lia; done). nia.
Qed.
(** a further shift by one *)
Lemma jam_again x n d : sticky 1 x n d → sticky 1 (jam x 2) n (d * 2).
Proof.
  intros (Hn & Hd & _ & Hq & Hr). change (2 ^ 1) with 2 in *. assert (0 <= x) as Hx.
  { assert (0 <= x / 2) by (rewrite Hq; apply Z.div_pos; lia). pose proof (Z.div_mod x 2 ltac:(lia)). pose proof (Z.mod_pos_bound x 2). lia. }
  destruct (jam_sticky x 2 Hx ltac:(lia)) as (_ & _ & _ & Hq' & Hr'). unfold sticky. change (2 ^ 1) with 2 in *. split_and!; try lia.
  - rewrite Hq', <- !Z.div_div by lia. rewrite Hq, <- Z.div_div by lia. done.
  - rewrite Hr'. pose proof (Z.div_mod x 2 ltac:(lia)). pose proof (Z.mod_pos_bound x 2 ltac:(lia)).
    assert (x mod (2 * 2) = 2 * ((x / 2) mod 2) + x mod 2) as ->.
    { symmetry. apply Z.mod_unique with (x / 2 / 2); [pose proof (Z.mod_pos_bound (x / 2) 2); lia|]. pose proof (Z.div_mod (x / 2) 2). lia. }
    assert (n mod (d * 2 * 2) = d * 2 * ((n / (d * 2)) mod 2) + n mod (d * 2)) as ->.
    { symmetry. pose proof (Z.mod_pos_bound (n / (d * 2)) 2 ltac:(lia)). pose proof (Z.mod_pos_bound n (d * 2) ltac:(lia)).
      pose proof (Z.div_mod (n / (d * 2)) 2 ltac:(lia)). pose proof (Z.div_mod n (d * 2) ltac:(lia)).
      apply Z.mod_unique with (n / (d * 2) / 2); nia. }
    rewrite Hq. pose proof (Z.mod_pos_bound (n / (d * 2)) 2 ltac:(lia)). pose proof (Z.mod_pos_bound n (d * 2) ltac:(lia)). nia.
Qed.
Lemma sticky_shl j i x n d : sticky j x n (d * 2 ^ i) → 0 <= i → 0 < d → sticky (j + i) (x * 2 ^ i) n d.
Proof.
  intros (Hn & Hd & Hj & Hq & Hr) Hi Hd'. split_and!; try lia; rewrite pow2_split by lia; pose proof (pow2_pos i Hi); pose proof (pow2_pos j Hj).
  - rewrite Z.div_mul_cancel_r by lia. rewrite Hq. f_equal. lia.
  - rewrite Z.mul_mod_distr_r by lia. replace (d * (2 ^ j * 2 ^ i)) with (d * 2 ^ i * 2 ^ j) by lia. rewrite <- Hr. nia.
Qed.
Lemma sticky_scale j x n d K : sticky j x n d → 0 < K → sticky j x (n * K) (d * K).
Proof.
  intros (Hn & Hd & Hj & Hq & Hr) HK. pose proof (pow2_pos j Hj). split_and!; try nia.
  - replace (d * K * 2 ^ j) with (d * 2 ^ j * K) by lia. by rewrite Z.div_mul_cancel_r by nia.
  - replace (d * K * 2 ^ j) with (d * 2 ^ j * K) by lia. rewrite Z.mul_mod_distr_r by nia. rewrite Hr. nia.
Qed.

(** ** The unit of a rational, and its [double] *)
Definition unit_of (n d e E : Z) : Prop :=
  e <= E ∧ -1074 <= E ∧ 0 <= n ∧ 0 < d ∧ n < d * 2 ^ (53 + E - e) ∧ (E = -1074 ∨ d * 2 ^ (52 + E - e) <= n).
(** [q] units of [2 ^ E] *)
Definition finish (s : bool) (q E : Z) : spec_float :=
  if q =? 0 then S754_zero s
  else
    let '(q, E) := if q =? 2 ^ 53 then (2 ^ 52, E + 1) else (q, E) in
    if E <=? 971 then S754_finite s (Z.to_pos q) E else S754_infinity s.
Definition rounds (s : bool) (n d e : Z) (v : spec_float) : Prop :=
  ∃ E, unit_of n d e E ∧ v = finish s (RNE n (d * 2 ^ (E - e))) E.
Lemma unit_base n d e E b : unit_of n d e E → b <= e →
  n * 2 ^ (e - b) < d * 2 ^ (53 + E - b) ∧ (E = -1074 ∨ d * 2 ^ (52 + E - b) <= n * 2 ^ (e - b)).
Proof.
  intros (He & HE & Hn & Hd & Hlt & Hge) Hb. pose proof (pow2_pos (e - b) ltac:(lia)).
  replace (53 + E - b) with (53 + E - e + (e - b)) by lia. replace (52 + E - b) with (52 + E - e + (e - b)) by lia. rewrite !pow2_split by lia.
  split; [nia|]. destruct Hge as [?|?]; [by left|right; nia].
Qed.
(** equal rationals have one result *)
Lemma rounds_unique s n1 d1 e1 v1 n2 d2 e2 v2 b : rounds s n1 d1 e1 v1 → rounds s n2 d2 e2 v2 → b <= e1 → b <= e2 →
  n1 * 2 ^ (e1 - b) * d2 = n2 * 2 ^ (e2 - b) * d1 → v1 = v2.
Proof.
  intros (E1 & U1 & ->) (E2 & U2 & ->) Hb1 Hb2 Heq.
  destruct (unit_base _ _ _ _ b U1 Hb1) as [L1 G1]. destruct (unit_base _ _ _ _ b U2 Hb2) as [L2 G2].
  destruct U1 as (He1 & HE1 & Hn1 & Hd1 & _). destruct U2 as (He2 & HE2 & Hn2 & Hd2 & _).
  set (N1 := n1 * 2 ^ (e1 - b)) in *. set (N2 := n2 * 2 ^ (e2 - b)) in *.
  assert (∀ E E' N N' d d', 0 < d → 0 < d' → b <= E → b <= E' → N < d * 2 ^ (53 + E - b) → d' * 2 ^ (52 + E' - b) <= N' → N * d' = N' * d → ¬ E < E') as Hno.
  { intros E E' N N' d d' Hd Hd' HE HE' Hlt Hge He HEE. pose proof (Z.pow_le_mono_r 2 (53 + E - b) (52 + E' - b) ltac:(lia) ltac:(lia)).
    pose proof (pow2_pos (53 + E - b) ltac:(lia)).
    assert (N * d' < d * 2 ^ (53 + E - b) * d') by nia. assert (d' * 2 ^ (52 + E' - b) * d <= N' * d) by nia. nia. }
  assert (E1 = E2) as ->.
  { assert (¬ E1 < E2) by (destruct G2; [lia|eapply (Hno E1 E2 N1 N2 d1 d2); done || lia]).
    assert (¬ E2 < E1) by (destruct G1; [lia|eapply (Hno E2 E1 N2 N1 d2 d1); done || lia]). lia. }
  f_equal. pose proof (pow2_pos (e1 - b) ltac:(lia)). pose proof (pow2_pos (e2 - b) ltac:(lia)).
  pose proof (pow2_pos (E2 - e1) ltac:(lia)). pose proof (pow2_pos (E2 - e2) ltac:(lia)).
  rewrite <- (RNE_scale n1 _ (2 ^ (e1 - b) * d2)), <- (RNE_scale n2 _ (2 ^ (e2 - b) * d1)) by nia. f_equal; [subst N1 N2; lia|].
  transitivity (d1 * d2 * 2 ^ (E2 - b)); [replace (E2 - b) with (E2 - e1 + (e1 - b)) by lia|replace (E2 - b) with (E2 - e2 + (e2 - b)) by lia];
    rewrite pow2_split by lia; ring.
Qed.

(** ** [SpecFloat] *)
Definition rec (n d : Z) : shr_record :=
  {| shr_m := n / d; shr_r := d <=? 2 * (n mod d); shr_s := negb (2 * (n mod d) =? 0) && negb (2 * (n mod d) =? d) |}.
Lemma shr_1_rec n d : 0 <= n → 0 < d → shr_1 (rec n d) = rec n (d * 2).
Proof.
  intros Hn Hd. assert (0 <= n / d) as Hm by (apply Z.div_pos; lia).
  pose proof (Z.div_mod (n / d) 2 ltac:(lia)) as Ha. pose proof (Z.mod_pos_bound (n / d) 2 ltac:(lia)) as Hc.
  pose proof (Z.div_mod n d ltac:(lia)) as Hnd. pose proof (Z.mod_pos_bound n d Hd) as Hr.
  assert (n mod (d * 2) = d * ((n / d) mod 2) + n mod d) as Hmod by (symmetry; apply Z.mod_unique with (n / d / 2); nia).
  assert (shr_1 (rec n d) = {| shr_m := n / d / 2; shr_r := (n / d) mod 2 =? 1; shr_s := negb (n mod d =? 0) |}) as ->.
  { unfold rec, shr_1. assert ((d <=? 2 * (n mod d)) || (negb (2 * (n mod d) =? 0) && negb (2 * (n mod d) =? d)) = negb (n mod d =? 0)) as ->.
    { destruct (Z.leb_spec d (2 * (n mod d))), (Z.eqb_spec (2 * (n mod d)) 0), (Z.eqb_spec (2 * (n mod d)) d), (Z.eqb_spec (n mod d) 0); cbn; lia. }
    destruct (n / d) as [|p|p]; [done| |lia]. destruct p as [p|p|].
    - rewrite (Pos2Z.inj_xI p). rewrite Z.add_comm, Z.mul_comm, Z.div_add, Z.mod_add by lia. done.
    - rewrite (Pos2Z.inj_xO p). rewrite Z.mul_comm, Z.div_mul, Z.mod_mul by lia. done.
    - done. }
  unfold rec. rewrite <- Z.div_div by lia. rewrite Hmod.
  assert ((n / d) mod 2 = 0 ∨ (n / d) mod 2 = 1) as [E|E] by lia; rewrite E; f_equal.
  - change (0 =? 1) with false. symmetry. apply Z.leb_gt. lia.
  - destruct (Z.eqb_spec (n mod d) 0), (Z.eqb_spec (2 * (d * 0 + n mod d)) 0), (Z.eqb_spec (2 * (d * 0 + n mod d)) (d * 2)); cbn; lia.
  - change (1 =? 1) with true. symmetry. apply Z.leb_le. lia.
  - destruct (Z.eqb_spec (n mod d) 0), (Z.eqb_spec (2 * (d * 1 + n mod d)) 0), (Z.eqb_spec (2 * (d * 1 + n mod d)) (d * 2)); cbn; lia.
Qed.
Lemma shr_iter p : ∀ n d, 0 <= n → 0 < d → SpecFloat.iter_pos shr_1 p (rec n d) = rec n (d * 2 ^ Zpos p).
Proof.
  induction p as [p IH|p IH|]; intros n d Hn Hd; cbn [SpecFloat.iter_pos].
  - rewrite shr_1_rec by done. pose proof (pow2_pos (Zpos p) ltac:(lia)). rewrite !IH by nia. f_equal.
    rewrite (Pos2Z.inj_xI p). replace (2 * Zpos p + 1) with (Zpos p + Zpos p + 1) by lia. rewrite !pow2_split by lia. lia.
  - pose proof (pow2_pos (Zpos p) ltac:(lia)). rewrite !IH by nia. f_equal.
    rewrite (Pos2Z.inj_xO p). replace (2 * Zpos p) with (Zpos p + Zpos p) by lia. rewrite !pow2_split by lia. lia.
  - rewrite shr_1_rec by done. done.
Qed.
Lemma shr_rec n d e k : 0 <= n → 0 < d → 0 <= k → shr (rec n d) e k = (rec n (d * 2 ^ k), e + k).
Proof.
  intros Hn Hd Hk. destruct k as [|p|p]; [|by cbn [shr]; rewrite shr_iter|lia]. cbn [shr]. by rewrite Z.mul_1_r, Z.add_0_r.
Qed.
Lemma rne_rec n d : 0 <= n → 0 < d → round_nearest_even (shr_m (rec n d)) (loc_of_shr_record (rec n d)) = RNE n d.
Proof.
  intros Hn Hd. pose proof (Z.mod_pos_bound n d Hd). unfold rec, RNE, round_half_even. cbn [shr_m].
  destruct (Z.leb_spec d (2 * (n mod d))), (Z.eqb_spec (2 * (n mod d)) 0), (Z.eqb_spec (2 * (n mod d)) d),
    (Z.ltb_spec (2 * (n mod d)) d), (Z.ltb_spec d (2 * (n mod d))); cbn; done || lia.
Qed.
Lemma digits_log2 m : 0 < m → Zdigits2 m = Z.log2 m + 1.
Proof.
  destruct m as [|p|p]; [lia| |lia]. intros _. cbn [Zdigits2]. induction p as [p IH|p IH|]; [| |done]; cbn [digits2_pos]; rewrite Pos2Z.inj_succ, IH.
  - rewrite (Pos2Z.inj_xI p), Z.log2_succ_double by lia. lia.
  - rewrite (Pos2Z.inj_xO p), Z.log2_double by lia. lia.
Qed.
Lemma fexp_64 x : fexp prec64 emax64 x = Z.max (x - 53) (-1074).
Proof. reflexivity. Qed.
Lemma digits_bounds m : 0 <= m → 0 <= Zdigits2 m ∧ m < 2 ^ Zdigits2 m ∧ (0 < m → 2 ^ (Zdigits2 m - 1) <= m).
Proof.
  intros Hm. destruct (Z.eq_dec m 0) as [->|]; [cbn; lia|]. rewrite digits_log2 by lia. pose proof (Z.log2_spec m ltac:(lia)). pose proof (Z.log2_nonneg m).
  replace (Z.log2 m + 1 - 1) with (Z.log2 m) by lia. lia.
Qed.
Lemma digits_le m k : 0 <= k → 0 <= m < 2 ^ k → Zdigits2 m <= k.
Proof.
  intros Hk Hm. destruct (digits_bounds m) as (H0 & _ & Hlo); [lia|]. destruct (Z.le_gt_cases (Zdigits2 m) k); [done|].
  destruct (Z.eq_dec m 0) as [->|]; [cbn; lia|]. pose proof (Z.pow_le_mono_r 2 k (Zdigits2 m - 1) ltac:(lia) ltac:(lia)). lia.
Qed.
(** the end of [binary_round_aux] *)
Lemma aux_finish s q E : -1074 <= E → 0 <= q <= 2 ^ 53 → E = -1074 ∨ 2 ^ 52 <= q →
  (let '(mrs, e) := shr_fexp prec64 emax64 q E loc_Exact in
   match shr_m mrs with
   | Z0 => S754_zero s
   | Zpos m => if e <=? emax64 - prec64 then S754_finite s m e else S754_infinity s
   | Zneg _ => S754_nan end) = finish s q E.
Proof.
  intros HE Hq Hlo. unfold shr_fexp. rewrite fexp_64. change (emax64 - prec64) with 971. unfold finish.
  assert (shr_record_of_loc q loc_Exact = rec q 1) as -> by (unfold rec; rewrite Z.div_1_r, Z.mod_1_r; reflexivity).
  destruct (Z.eq_dec q (2 ^ 53)) as [->|Hne].
  - change (Zdigits2 (2 ^ 53)) with 54. replace (Z.max (54 + E - 53) (-1074) - E) with 1 by lia. rewrite shr_rec by lia.
    change (2 ^ 53 =? 0) with false. change (2 ^ 53 =? 2 ^ 53) with true. cbv iota beta. unfold rec. cbn [shr_m].
    change (2 ^ 53 / (1 * 2 ^ 1)) with (Zpos (Z.to_pos (2 ^ 52))). reflexivity.
  - rewrite (proj2 (Z.eqb_neq q (2 ^ 53))) by done. pose proof (digits_le q 53 ltac:(lia) ltac:(lia)).
    assert (shr (rec q 1) E (Z.max (Zdigits2 q + E - 53) (-1074) - E) = (rec q 1, E)) as ->.
    { assert (Z.max (Zdigits2 q + E - 53) (-1074) - E <= 0) by lia. by destruct (_ - E) as [|p|p]; [|lia|]. }
    unfold rec. cbn [shr_m]. rewrite Z.div_1_r. destruct q as [|p|p]; [done| |lia]. done.
Qed.
Lemma RNE_le n d k : 0 < d → n <= k * d → RNE n d <= k.
Proof.
  intros Hd Hn. unfold RNE, round_half_even. pose proof (Z.div_mod n d ltac:(lia)). pose proof (Z.mod_pos_bound n d Hd).
  assert (n / d < k ∨ (n / d = k ∧ n mod d = 0)) as [Hlt|[-> ->]] by nia; repeat case_match; rewrite ?Z.ltb_lt, ?Z.ltb_ge in *; lia.
Qed.
Lemma RNE_ge n d k : 0 < d → k * d <= n → k <= RNE n d.
Proof. intros Hd Hn. pose proof (RNE_bounds n d Hd). assert (k <= n / d) by (apply Z.div_le_lower_bound; lia). lia. Qed.
Lemma unit_units n d e E : unit_of n d e E → 0 <= RNE n (d * 2 ^ (E - e)) <= 2 ^ 53 ∧ (E = -1074 ∨ 2 ^ 52 <= RNE n (d * 2 ^ (E - e))).
Proof.
  intros (He & HE & Hn & Hd & Hlt & Hge). pose proof (pow2_pos (E - e) ltac:(lia)).
  replace (53 + E - e) with (53 + (E - e)) in Hlt by lia. replace (52 + E - e) with (52 + (E - e)) in Hge by lia. rewrite pow2_split in Hlt, Hge by lia.
  split_and!.
  - apply RNE_ge; nia.
  - apply RNE_le; nia.
  - destruct Hge as [?|?]; [by left|right]. apply RNE_ge; nia.
Qed.
(** what [SpecFloat] rounds: the quotient with the place of the remainder *)
Lemma aux_rounds s n d e l : 0 <= n → 0 < d → shr_record_of_loc (n / d) l = rec n d →
  e <= fexp prec64 emax64 (Zdigits2 (n / d) + e) → rounds s n d e (binary_round_aux prec64 emax64 s (n / d) e l).
Proof.
  intros Hn Hd Hl He. set (E := fexp prec64 emax64 (Zdigits2 (n / d) + e)) in *. exists E.
  assert (unit_of n d e E) as Hu.
  { assert (E = Z.max (Zdigits2 (n / d) + e - 53) (-1074)) as HE0 by reflexivity. clearbody E. pose proof (Z.div_pos n d Hn Hd). destruct (digits_bounds (n / d)) as (H0 & Hup & Hlo); [done|]. split_and!; try lia.
    - pose proof (Z.pow_le_mono_r 2 (Zdigits2 (n / d)) (53 + E - e) ltac:(lia) ltac:(lia)).
      pose proof (Z.div_mod n d ltac:(lia)). pose proof (Z.mod_pos_bound n d Hd). nia.
    - destruct (Z.eq_dec E (-1074)) as [|HE]; [by left|right]. assert (E = Zdigits2 (n / d) + e - 53) as HEd by lia.
      assert (0 < n / d) as Hpos. { destruct (Z.eq_dec (n / d) 0) as [Hz|]; [|lia]. rewrite Hz in HEd. cbn in HEd. lia. }
      specialize (Hlo Hpos). replace (52 + E - e) with (Zdigits2 (n / d) - 1) by lia. pose proof (Z.div_mod n d ltac:(lia)). pose proof (Z.mod_pos_bound n d Hd). nia. }
  split; [exact Hu|]. destruct (unit_units _ _ _ _ Hu) as [Hq Hlo]. unfold binary_round_aux. unfold shr_fexp at 1. fold E. rewrite Hl, shr_rec by lia.
  pose proof (pow2_pos (E - e) ltac:(lia)). rewrite rne_rec by nia. replace (e + (E - e)) with E by lia. apply aux_finish; try done. apply Hu.
Qed.
