(* ===== verification/SoftDoubleThm.v ===== *)
(** The integer arithmetic of SoftDouble.v is IEEE binary64: every operation, on the 64 bits of its arguments, gives
    the bits of the result of the Standard Library's [SpecFloat]. *)
From Stdlib Require Import SpecFloat.
From S2P Require Import Prelude Cstd Fp64 Fp8 SoftDouble SoftRound.
Open Scope Z_scope.

(** ** The fields *)
Definition is_bits (b : Z) : Prop := 0 <= b < 2 ^ 64.
Lemma land_ones' x k m : 0 <= k → m = Z.ones k → Z.land x m = x mod 2 ^ k.
Proof. intros Hk ->. by apply Z.land_ones. Qed.
Lemma land_pow2 x k : 0 <= k → Z.land x (2 ^ k) = if Z.testbit x k then 2 ^ k else 0.
Proof.
  intros Hk. apply Z.bits_inj'. intros i Hi. rewrite Z.land_spec. destruct (Z.eq_dec i k) as [->|Hne].
  - rewrite Z.pow2_bits_true by lia. destruct (Z.testbit x k) eqn:E; [by rewrite Z.pow2_bits_true|by rewrite Z.bits_0].
  - rewrite Z.pow2_bits_false by lia. rewrite andb_false_r. destruct (Z.testbit x k); [by rewrite Z.pow2_bits_false by lia|by rewrite Z.bits_0].
Qed.
Lemma testbit_top x k : 0 <= k → 0 <= x < 2 ^ (k + 1) → Z.testbit x k = (2 ^ k <=? x).
Proof.
  intros Hk Hx. rewrite Z.testbit_eqb by done. rewrite Z.pow_add_r in Hx by lia. change (2 ^ 1) with 2 in Hx. pose proof (Z.pow_pos_nonneg 2 k ltac:(lia) Hk).
  destruct (Z.leb_spec (2 ^ k) x) as [Hle|Hgt].
  - by rewrite <- (Z.div_unique x (2 ^ k) 1 (x - 2 ^ k)) by lia.
  - by rewrite Z.div_small by lia.
Qed.
Lemma exp_of_div b : exp_of b = b / 2 ^ 52 mod 2 ^ 11.
Proof. unfold exp_of. rewrite (land_ones' _ 11) by (done || lia). by rewrite Z.shiftr_div_pow2. Qed.
Lemma frac_of_mod b : frac_of b = b mod 2 ^ 52.
Proof. apply (land_ones' _ 52); (done || lia). Qed.
Lemma sign_of_le b : is_bits b → sign_of b = (2 ^ 63 <=? b).
Proof.
  intros Hb. unfold sign_of, SIGN. change 0x8000000000000000 with (2 ^ 63). rewrite land_pow2, testbit_top by (done || lia).
  by destruct (2 ^ 63 <=? b).
Qed.
Lemma signed_cases s : signed s = if s then 2 ^ 63 else 0.
Proof. by destruct s. Qed.
Lemma lor_signed s c : 0 <= c < 2 ^ 63 → Z.lor (signed s) c = signed s + c.
Proof.
  intros Hc. destruct s; [|done]. unfold signed, SIGN. rewrite Z.lor_comm. change 0x8000000000000000 with (Z.shiftl 1 63). rewrite lor_shiftl by lia.
  change (Z.shiftl 1 63) with (1 * 2 ^ 63). lia.
Qed.
Section fields.
Context (s : bool) (c : Z) (Hc : 0 <= c < 2 ^ 63).
Lemma packed_bits : is_bits (signed s + c).
Proof. unfold is_bits. rewrite signed_cases. destruct s; lia. Qed.
Lemma packed_sign : sign_of (signed s + c) = s.
Proof. rewrite sign_of_le by apply packed_bits. rewrite signed_cases. destruct s; [apply Z.leb_le|apply Z.leb_gt]; lia. Qed.
Lemma packed_exp : exp_of (signed s + c) = c / 2 ^ 52.
Proof.
  rewrite exp_of_div, signed_cases. pose proof (Z.div_pos c (2 ^ 52) ltac:(lia) ltac:(lia)). pose proof (Z.div_lt_upper_bound c (2 ^ 52) (2 ^ 11) ltac:(lia) ltac:(lia)).
  destruct s; [|by rewrite Z.add_0_l, Z.mod_small by lia].
  rewrite Z.add_comm. change (2 ^ 63) with (2 ^ 11 * 2 ^ 52). rewrite Z.div_add by lia. rewrite <- (Z.mul_1_l (2 ^ 11)) at 1. by rewrite Z.mod_add, Z.mod_small by lia.
Qed.
Lemma packed_frac : frac_of (signed s + c) = c mod 2 ^ 52.
Proof.
  rewrite frac_of_mod, signed_cases. destruct s; [|done]. rewrite Z.add_comm. change (2 ^ 63) with (2 ^ 11 * 2 ^ 52). by rewrite Z.mod_add by lia.
Qed.
End fields.
Lemma unpacked b : is_bits b → b = signed (sign_of b) + (exp_of b * 2 ^ 52 + frac_of b) ∧ 0 <= exp_of b <= 0x7ff ∧ 0 <= frac_of b < 2 ^ 52.
Proof.
  intros Hb. rewrite sign_of_le, exp_of_div, frac_of_mod, signed_cases by done. unfold is_bits in Hb.
  pose proof (Z.div_mod b (2 ^ 52) ltac:(lia)). pose proof (Z.mod_pos_bound b (2 ^ 52) ltac:(lia)). pose proof (Z.mod_pos_bound (b / 2 ^ 52) (2 ^ 11) ltac:(lia)).
  pose proof (Z.div_mod (b / 2 ^ 52) (2 ^ 11) ltac:(lia)). split_and!; try lia. destruct (Z.leb_spec (2 ^ 63) b).
  - assert (b / 2 ^ 52 / 2 ^ 11 = 1); [|lia]. rewrite Z.div_div by lia. symmetry. apply Z.div_unique with (b - 2 ^ 63); lia.
  - assert (b / 2 ^ 52 / 2 ^ 11 = 0); [|lia]. rewrite Z.div_div by lia. apply Z.div_small. lia.
Qed.

(** ** The value of the bits *)
Definition decode (b : Z) : spec_float :=
  let s := sign_of b in
  let e := exp_of b in
  let f := frac_of b in
  if e =? 0x7ff then if f =? 0 then S754_infinity s else S754_nan
  else if e =? 0 then if f =? 0 then S754_zero s else S754_finite s (Z.to_pos f) (-1074)
  else S754_finite s (Z.to_pos (f + 2 ^ 52)) (e - 1075).
Lemma decode_code s e f : 0 <= e <= 0x7ff → 0 <= f < 2 ^ 52 → decode (signed s + (e * 2 ^ 52 + f)) =
  if e =? 0x7ff then if f =? 0 then S754_infinity s else S754_nan
  else if e =? 0 then if f =? 0 then S754_zero s else S754_finite s (Z.to_pos f) (-1074)
  else S754_finite s (Z.to_pos (f + 2 ^ 52)) (e - 1075).
Proof.
  intros He Hf. unfold decode. rewrite packed_sign, packed_exp, packed_frac by lia.
  rewrite Z.div_add_l, (Z.div_small f), Z.add_0_r by lia. rewrite (Z.add_comm (e * _)), Z.mod_add, (Z.mod_small f) by lia. done.
Qed.
Definition code_of (q E : Z) : Z := Z.min (q + (E + 1074) * 2 ^ 52) INF.
Lemma decode_finish s q E : -1074 <= E → 0 <= q <= 2 ^ 53 → E = -1074 ∨ 2 ^ 52 <= q → decode (signed s + code_of q E) = finish s q E.
Proof.
  intros HE Hq Hlo. unfold finish, code_of, INF. change 0x7ff0000000000000 with (0x7ff * 2 ^ 52 + 0).
  destruct (Z.eq_dec q (2 ^ 53)) as [->|Hne].
  - change (2 ^ 53 =? 0) with false. rewrite Z.eqb_refl. cbv iota beta. destruct (Z.leb_spec (E + 1) 971).
    + rewrite Z.min_l by lia. replace (2 ^ 53 + (E + 1074) * 2 ^ 52) with ((E + 1076) * 2 ^ 52 + 0) by lia. rewrite decode_code by lia.
      rewrite !(proj2 (Z.eqb_neq (E + 1076) _)) by lia. f_equal. lia.
    + rewrite Z.min_r by lia. by rewrite decode_code by lia.
  - rewrite (proj2 (Z.eqb_neq q (2 ^ 53))) by done. destruct (Z.lt_ge_cases q (2 ^ 52)) as [Hsub|Hnorm].
    + destruct Hlo as [->|?]; [|lia]. rewrite Z.min_l by lia. replace (q + (-1074 + 1074) * 2 ^ 52) with (0 * 2 ^ 52 + q) by lia. rewrite decode_code by lia. done.
    + rewrite (proj2 (Z.eqb_neq q 0)) by lia. destruct (Z.leb_spec E 971).
      * rewrite Z.min_l by lia. replace (q + (E + 1074) * 2 ^ 52) with ((E + 1075) * 2 ^ 52 + (q - 2 ^ 52)) by lia. rewrite decode_code by lia.
        rewrite !(proj2 (Z.eqb_neq (E + 1075) _)) by lia. f_equal; [f_equal; lia|lia].
      * rewrite Z.min_r by lia. by rewrite decode_code by lia.
Qed.

(** ** [round_pack] *)
Lemma shl64_small x k : 0 <= x → 0 <= k → x * 2 ^ k < 2 ^ 64 → shl64 x k = x * 2 ^ k.
Proof. intros Hx Hk Hb. unfold shl64. rewrite Z.shiftl_mul_pow2 by done. apply u64_small. pose proof (pow2_pos k Hk). split; nia. Qed.
Lemma shr_jam_is_jam x k : is_bits x → 0 <= k → shr_jam x k = jam x (2 ^ k).
Proof.
  intros Hx Hk. unfold shr_jam, jam. destruct (Z.eqb_spec k 0) as [->|Hk0].
  { rewrite Z.div_1_r, Z.mod_1_r. cbn. by rewrite Z.lor_0_r. }
  unfold is_bits in Hx. destruct (Z.ltb_spec k 64) as [Hlt|Hge].
  - rewrite Z.shiftr_div_pow2 by done. f_equal. unfold shl64, u64. rewrite Z.shiftl_mul_pow2 by lia.
    replace (2 ^ 64) with (2 ^ k * 2 ^ (64 - k)) by (rewrite <- Z.pow_add_r by lia; f_equal; lia).
    pose proof (pow2_pos (64 - k) ltac:(lia)). pose proof (pow2_pos k Hk). rewrite Z.mul_mod_distr_r by lia.
    pose proof (Z.mod_pos_bound x (2 ^ k) ltac:(lia)). destruct (Z.eqb_spec (x mod 2 ^ k) 0), (Z.eqb_spec (x mod 2 ^ k * 2 ^ (64 - k)) 0); done || nia.
  - pose proof (Z.pow_le_mono_r 2 64 k ltac:(lia) ltac:(lia)). by rewrite Z.div_small, Z.mod_small by lia.
Qed.
(** the rounding of the low ten bits *)
Lemma round_bits x : is_bits x →
  (if (0x200 <? Z.land x 0x3ff) || ((Z.land x 0x3ff =? 0x200) && (Z.land (Z.shiftr x 10) 1 =? 1)) then u64 (Z.shiftr x 10 + 1) else Z.shiftr x 10) = RNE x (2 ^ 10).
Proof.
  intros Hx. unfold is_bits in Hx. rewrite (land_ones' x 10), (land_ones' _ 1), Z.shiftr_div_pow2 by (done || lia).
  pose proof (Z.mod_pos_bound x (2 ^ 10) ltac:(lia)). pose proof (Z.div_pos x (2 ^ 10) ltac:(lia) ltac:(lia)). pose proof (Z.div_lt_upper_bound x (2 ^ 10) (2 ^ 54) ltac:(lia) ltac:(lia)).
  rewrite u64_small by (split; lia). unfold RNE, round_half_even. set (r := x mod 2 ^ 10) in *. set (q := x / 2 ^ 10) in *.
  change (q mod 2 ^ 1) with (q mod 2). rewrite Zmod_even.
  destruct (Z.ltb_spec 512 r), (Z.ltb_spec (2 * r) (2 ^ 10)), (Z.ltb_spec (2 ^ 10) (2 * r)), (Z.eqb_spec r 512), (Z.even q); cbn; done || lia.
Qed.
Lemma round_pack_code sign e sig : 0 <= sig < 2 ^ 63 → (0 < e → 2 ^ 62 <= sig) →
  round_pack sign e sig = signed sign + code_of (RNE sig (2 ^ (10 + Z.max 0 (1 - e)))) (Z.max e 1 - 1075).
Proof.
  intros Hsig Hnorm. unfold round_pack, code_of, INF. destruct (Z.leb_spec e 0) as [He|He].
  - rewrite shr_jam_is_jam by (unfold is_bits; lia). rewrite !Z.max_r by lia.
    pose proof (pow2_pos (1 - e) ltac:(lia)) as Hp. pose proof (jam_sticky sig (2 ^ (1 - e)) ltac:(lia) Hp) as Hs.
    rewrite Z.eqb_refl. set (x := jam sig (2 ^ (1 - e))) in *.
    assert (is_bits x) as Hx.
    { unfold is_bits, x. rewrite jam_value by lia. pose proof (Z.div_pos sig (2 ^ (1 - e)) ltac:(lia) Hp).
      assert (sig / 2 ^ (1 - e) <= sig) by (apply Z.div_le_upper_bound; nia). pose proof (Z.mul_div_le (sig / 2 ^ (1 - e)) 2 ltac:(lia)).
      pose proof (Z.div_pos (sig / 2 ^ (1 - e)) 2 ltac:(lia) ltac:(lia)). destruct (_ =? _); lia. }
    rewrite round_bits by done. rewrite (RNE_sticky 1 10 x sig _ Hs) by lia. rewrite <- Z.pow_add_r by lia.
    replace (1 - e + 10) with (10 + (1 - e)) by lia. set (q := RNE sig (2 ^ (10 + (1 - e)))).
    assert (0 <= q <= 2 ^ 52) as Hq.
    { assert (2 ^ 11 <= 2 ^ (10 + (1 - e))) by (apply Z.pow_le_mono_r; lia). split; [apply RNE_ge|apply RNE_le]; lia. }
    change (1 - 1075 + 1074) with 0. rewrite Z.mul_0_l, Z.add_0_r, Z.min_l by lia. destruct (Z.eqb_spec q 0) as [->|]; [lia|]. apply lor_signed. lia.
  - specialize (Hnorm He). rewrite round_bits by (unfold is_bits; lia). rewrite !Z.max_l by lia. rewrite Z.add_0_r. set (q := RNE sig (2 ^ 10)).
    assert (2 ^ 52 <= q <= 2 ^ 53) as Hq by (split; [apply RNE_ge|apply RNE_le]; lia).
    rewrite (proj2 (Z.eqb_neq q 0)), (proj2 (Z.eqb_neq e 0)) by lia.
    assert (∀ e' r, 2 ^ 52 <= r < 2 ^ 53 → 0 < e' → q + (e - 1075 + 1074) * 2 ^ 52 = r + (e' - 1) * 2 ^ 52 →
      (if 0x7ff <=? e' then Z.lor (signed sign) 0x7ff0000000000000 else Z.lor (Z.lor (signed sign) (shl64 e' 52)) (Z.land r 0xfffffffffffff)) =
      signed sign + Z.min (q + (e - 1075 + 1074) * 2 ^ 52) 0x7ff0000000000000) as Hcode.
    { intros e' r Hr He' ->. destruct (Z.leb_spec 0x7ff e').
      - rewrite lor_signed by lia. rewrite Z.min_r by lia. done.
      - rewrite shl64_small by lia. rewrite (land_ones' r 52) by (done || lia). rewrite <- (Z.mod_unique r (2 ^ 52) 1 (r - 2 ^ 52)) by lia.
        rewrite <- Z.lor_assoc, (Z.lor_comm (e' * _)), <- (Z.shiftl_mul_pow2 e' 52), (lor_shiftl 52) by lia. rewrite lor_signed by lia. rewrite Z.min_l by lia. f_equal. lia. }
    destruct (Z.leb_spec (2 ^ 53) q).
    + rewrite Z.shiftr_div_pow2 by lia. assert (q = 2 ^ 53) as -> by lia. change (2 ^ 53 / 2 ^ 1) with (2 ^ 52). apply Hcode; lia.
    + apply Hcode; lia.
Qed.
(** [round_pack] on a sticky significand rounds the rational *)
Lemma round_pack_rounds sign e sig j n d : sticky j sig n d → j < 10 → 2 ^ 62 <= sig < 2 ^ 63 →
  rounds sign n d (e - 1085) (decode (round_pack sign e sig)).
Proof.
  intros Hs Hj Hsig. exists (Z.max e 1 - 1075). rewrite round_pack_code by lia.
  rewrite (RNE_sticky j _ sig n d Hs) by lia. replace (10 + Z.max 0 (1 - e)) with (Z.max e 1 - 1075 - (e - 1085)) by lia.
  assert (unit_of n d (e - 1085) (Z.max e 1 - 1075)) as Hu.
  { destruct Hs as (Hn & Hd & Hj0 & Hq & _). pose proof (pow2_pos j Hj0) as HJ.
    pose proof (Z.div_mod n (d * 2 ^ j) ltac:(nia)). pose proof (Z.mod_pos_bound n (d * 2 ^ j) ltac:(nia)).
    assert (2 ^ (62 - j) <= n / (d * 2 ^ j) < 2 ^ (63 - j)) as Hb.
    { rewrite <- Hq. split; [apply Z.div_le_lower_bound|apply Z.div_lt_upper_bound]; try lia; rewrite <- Z.pow_add_r by lia;
        [replace (j + (62 - j)) with 62 by lia|replace (j + (63 - j)) with 63 by lia]; lia. }
    assert (2 ^ 62 = 2 ^ (62 - j) * 2 ^ j ∧ 2 ^ 63 = 2 ^ (63 - j) * 2 ^ j) as [H62 H63] by (rewrite <- !Z.pow_add_r by lia; split; f_equal; lia).
    assert (d * 2 ^ 62 <= n < d * 2 ^ 63) as Hn' by (rewrite H62, H63; nia).
    split_and!; try lia.
    - pose proof (Z.pow_le_mono_r 2 63 (53 + (Z.max e 1 - 1075) - (e - 1085)) ltac:(lia) ltac:(lia)). nia.
    - destruct (Z.le_gt_cases e 1); [left; lia|right]. replace (52 + (Z.max e 1 - 1075) - (e - 1085)) with 62 by lia. lia. }
  split; [exact Hu|]. apply decode_finish; [lia|..]; apply (unit_units _ _ _ _ Hu).
Qed.

(** ** Arguments *)
Lemma clz_log2 x : 0 < x → clz x = 63 - Z.log2 x.
Proof. intros Hx. unfold clz. by rewrite (proj2 (Z.eqb_neq x 0)) by lia. Qed.
Definition unpacks (b : Z) (m : positive) (e i : Z) : Prop :=
  decode b = S754_finite (sign_of b) m e ∧ unpack b = (e + 1075 - i, Zpos m * 2 ^ (10 + i)) ∧
  0 <= i <= 52 ∧ 2 ^ 62 <= Zpos m * 2 ^ (10 + i) < 2 ^ 63 ∧ -1074 <= e <= 971 ∧ Zpos m < 2 ^ 53 ∧ (e = -1074 ∨ 2 ^ 52 <= Zpos m).
Lemma unpack_spec b : is_bits b → exp_of b ≠ 0x7ff →
  (exp_of b = 0 ∧ frac_of b = 0 ∧ unpack b = (0, 0) ∧ decode b = S754_zero (sign_of b)) ∨
  (∃ m e i, ¬ (exp_of b = 0 ∧ frac_of b = 0) ∧ unpacks b m e i).
Proof.
  intros Hb He. destruct (unpacked b Hb) as (_ & Hexp & Hf). unfold unpacks, unpack, decode. set (f := frac_of b) in *. set (e := exp_of b) in *.
  rewrite (proj2 (Z.eqb_neq e 0x7ff)) by done. destruct (Z.eqb_spec e 0) as [E|E].
  - destruct (Z.eqb_spec f 0) as [F|F]; [left; by rewrite E|right].
    rewrite clz_log2 by lia. pose proof (Z.log2_spec f ltac:(lia)) as Hl. assert (0 <= Z.log2 f < 52) as Hl' by (split; [apply Z.log2_nonneg|apply Z.log2_lt_pow2; lia]).
    exists (Z.to_pos f), (-1074), (52 - Z.log2 f). rewrite Z2Pos.id by lia.
    assert (2 ^ 62 <= f * 2 ^ (62 - Z.log2 f) < 2 ^ 63) as Hr.
    { pose proof (pow2_pos (62 - Z.log2 f) ltac:(lia)).
      assert (2 ^ Z.log2 f * 2 ^ (62 - Z.log2 f) = 2 ^ 62) as H62 by (rewrite <- Z.pow_add_r by lia; f_equal; lia).
      assert (2 ^ Z.succ (Z.log2 f) * 2 ^ (62 - Z.log2 f) = 2 ^ 63) as H63 by (rewrite <- Z.pow_add_r by lia; f_equal; lia). nia. }
    replace (10 + (52 - Z.log2 f)) with (62 - Z.log2 f) by lia. split; [lia|]. split_and!; try done; try lia.
    replace (63 - Z.log2 f - 1) with (62 - Z.log2 f) by lia. rewrite shl64_small by lia. f_equal; lia.
  - right. exists (Z.to_pos (f + 2 ^ 52)), (e - 1075), 0. rewrite Z2Pos.id by lia. change (2 ^ (10 + 0)) with (2 ^ 10). split; [lia|]. split_and!; try done; try lia.
    change 0x10000000000000 with (Z.shiftl 1 52). rewrite lor_shiftl by lia. rewrite shl64_small by lia. f_equal; lia.
Qed.
Lemma sign_testbit b : sign_of b = Z.testbit b 63.
Proof. unfold sign_of, SIGN. change 0x8000000000000000 with (2 ^ 63). rewrite land_pow2 by lia. by destruct (Z.testbit b 63). Qed.
Lemma sign_lxor a b : sign_of (Z.lxor a b) = xorb (sign_of a) (sign_of b).
Proof. rewrite !sign_testbit. apply Z.lxor_spec. Qed.
Lemma decode_signed_zero s : decode (signed s) = S754_zero s.
Proof. by destruct s. Qed.
Lemma decode_signed_inf s : decode (Z.lor (signed s) INF) = S754_infinity s.
Proof. by destruct s. Qed.
Lemma decode_special b : is_bits b → exp_of b = 0x7ff → decode b = if frac_of b =? 0 then S754_infinity (sign_of b) else S754_nan.
Proof. intros Hb He. unfold decode. by rewrite He. Qed.
Lemma is_nan_exp b : exp_of b ≠ 0x7ff → is_nan b = false.
Proof. intros He. unfold is_nan. by rewrite (proj2 (Z.eqb_neq _ _)). Qed.
Lemma is_nan_special b : exp_of b = 0x7ff → is_nan b = negb (frac_of b =? 0).
Proof. intros He. unfold is_nan. by rewrite He. Qed.

(** ** Multiplication *)
Lemma exact_rec m : shr_record_of_loc (m / 1) loc_Exact = rec m 1.
Proof. unfold rec. by rewrite Z.mod_1_r. Qed.
Lemma mul_pieces P : 0 <= P < 2 ^ 106 →
  let sig := Z.lor (shl64 (P / 2 ^ 64) 21) (Z.shiftr (u64 P) 43) in
  (if shl64 (u64 P) 21 =? 0 then sig else Z.lor sig 1) = jam P (2 ^ 43).
Proof.
  intros HP. cbv zeta. unfold jam, u64. pose proof (Z.div_mod P (2 ^ 64) ltac:(lia)). pose proof (Z.mod_pos_bound P (2 ^ 64) ltac:(lia)).
  pose proof (Z.div_pos P (2 ^ 64) ltac:(lia) ltac:(lia)). pose proof (Z.div_lt_upper_bound P (2 ^ 64) (2 ^ 42) ltac:(lia) ltac:(lia)).
  rewrite (shl64_small (P / 2 ^ 64)) by lia. rewrite Z.shiftr_div_pow2 by lia. set (lo := P mod 2 ^ 64) in *. set (hi := P / 2 ^ 64) in *.
  pose proof (Z.div_mod lo (2 ^ 43) ltac:(lia)). pose proof (Z.mod_pos_bound lo (2 ^ 43) ltac:(lia)).
  pose proof (Z.div_pos lo (2 ^ 43) ltac:(lia) ltac:(lia)). pose proof (Z.div_lt_upper_bound lo (2 ^ 43) (2 ^ 21) ltac:(lia) ltac:(lia)).
  rewrite Z.lor_comm, <- (Z.shiftl_mul_pow2 hi 21), (lor_shiftl 21) by lia.
  assert (P / 2 ^ 43 = lo / 2 ^ 43 + hi * 2 ^ 21) as -> by (symmetry; apply Z.div_unique with (lo mod 2 ^ 43); lia).
  assert (P mod 2 ^ 43 = lo mod 2 ^ 43) as -> by (symmetry; apply Z.mod_unique with (lo / 2 ^ 43 + hi * 2 ^ 21); lia).
  assert (shl64 lo 21 = lo mod 2 ^ 43 * 2 ^ 21) as ->.
  { unfold shl64, u64. rewrite Z.shiftl_mul_pow2 by lia. change (2 ^ 64) with (2 ^ 43 * 2 ^ 21). by rewrite Z.mul_mod_distr_r by lia. }
  destruct (Z.eqb_spec (lo mod 2 ^ 43) 0) as [E|E].
  - rewrite E, Z.mul_0_l, Z.eqb_refl. by rewrite Z.lor_0_r.
  - by rewrite (proj2 (Z.eqb_neq (_ * 2 ^ 21) 0)) by lia.
Qed.
Lemma jam_range n d k : 1 <= k → 0 < d → d * 2 ^ k <= n < d * 2 ^ (k + 1) → 2 ^ k <= jam n d < 2 ^ (k + 1).
Proof.
  intros Hk Hd Hn. pose proof (pow2_pos k ltac:(lia)). rewrite jam_value by nia. pose proof (Z.div_le_lower_bound n d (2 ^ k) Hd ltac:(lia)).
  pose proof (Z.div_lt_upper_bound n d (2 ^ (k + 1)) Hd ltac:(lia)).
  assert (2 ^ k = 2 * 2 ^ (k - 1)) as Hk2 by (rewrite <- Z.pow_succ_r by lia; f_equal; lia). assert (2 ^ (k + 1) = 2 * 2 ^ k) as Hk3 by (rewrite <- Z.pow_succ_r by lia; f_equal; lia).
  pose proof (Z.div_mod (n / d) 2 ltac:(lia)). pose proof (Z.mod_pos_bound (n / d) 2 ltac:(lia)). destruct (_ =? _); lia.
Qed.
Definition mul_finite (sign : bool) (xa ma xb mb : Z) : Z :=
  let pa := Z.shiftr ma 10 in
  let pb := Z.shiftr mb 10 in
  let hi := mulhi pa pb in
  let lo := u64 (pa * pb) in
  let sig := Z.lor (shl64 hi 21) (Z.shiftr lo 43) in
  let sig := if shl64 lo 21 =? 0 then sig else Z.lor sig 1 in
  let e := xa + xb - 1022 in
  if Z.land sig 0x4000000000000000 =? 0 then round_pack sign (e - 1) (shl64 sig 1) else round_pack sign e sig.
Lemma mul_finite_rounds sign xa xb pa pb : 2 ^ 52 <= pa < 2 ^ 53 → 2 ^ 52 <= pb < 2 ^ 53 →
  ∃ k, 42 <= k <= 43 ∧ rounds sign (pa * pb) (2 ^ k) (xa + xb - 2150 + k) (decode (mul_finite sign xa (pa * 2 ^ 10) xb (pb * 2 ^ 10))).
Proof.
  intros Ha Hb. unfold mul_finite. rewrite (Z.shiftr_div_pow2 (pa * _)), (Z.shiftr_div_pow2 (pb * _)), !Z.div_mul by lia. unfold mulhi. cbv zeta. assert (2 ^ 104 <= pa * pb < 2 ^ 106) as HP by nia.
  pose proof (mul_pieces (pa * pb) ltac:(lia)) as Hp. cbv zeta in Hp. rewrite Hp. set (P := pa * pb) in *. pose proof (jam_sticky P (2 ^ 43) ltac:(lia) ltac:(lia)) as Hs.
  assert (2 ^ 61 <= jam P (2 ^ 43) < 2 ^ 63) as Hj.
  { destruct (Z.lt_ge_cases P (2 ^ 105)); [pose proof (jam_range P (2 ^ 43) 61 ltac:(lia) ltac:(lia))|pose proof (jam_range P (2 ^ 43) 62 ltac:(lia) ltac:(lia))]; lia. }
  set (sig := jam P (2 ^ 43)) in *. change 0x4000000000000000 with (2 ^ 62). rewrite land_pow2, testbit_top by lia.
  destruct (Z.leb_spec (2 ^ 62) sig).
  - change (2 ^ 62 =? 0) with false. cbv iota. exists 43. split; [lia|]. replace (xa + xb - 2150 + 43) with (xa + xb - 1022 - 1085) by lia. eapply round_pack_rounds; [exact Hs|lia|lia].
  - change (0 =? 0) with true. cbv iota. rewrite shl64_small by lia. exists 42. split; [lia|]. replace (xa + xb - 2150 + 42) with (xa + xb - 1022 - 1 - 1085) by lia.
    apply (round_pack_rounds _ _ _ 2); [|lia|lia]. by apply (sticky_shl 1 1).
Qed.
(** [SpecFloat]'s product *)
Lemma canonical_place m e : (e = -1074 ∨ 2 ^ 52 <= m) → 0 < m → -1074 <= e → 52 <= Zdigits2 m - 1 ∨ e = -1074.
Proof.
  intros Hc Hm He. destruct Hc as [?|Hc]; [by right|left]. pose proof (digits_bounds m ltac:(lia)) as (H0 & Hup & _).
  destruct (Z.le_gt_cases (Zdigits2 m) 52); [|lia]. pose proof (Z.pow_le_mono_r 2 (Zdigits2 m) 52 ltac:(lia) ltac:(lia)). lia.
Qed.
Lemma spec_mul_rounds s (ma mb : positive) ea eb : (ea = -1074 ∨ 2 ^ 52 <= Zpos ma) → (eb = -1074 ∨ 2 ^ 52 <= Zpos mb) → -1074 <= ea → -1074 <= eb →
  rounds s (Zpos ma * Zpos mb) 1 (ea + eb) (binary_round_aux prec64 emax64 s (Zpos (ma * mb)) (ea + eb) loc_Exact).
Proof.
  intros Ha Hb Hea Heb. rewrite Pos2Z.inj_mul. rewrite <- (Z.div_1_r (Zpos ma * Zpos mb)) at 2. apply aux_rounds; [lia|lia|apply exact_rec|].
  rewrite Z.div_1_r, fexp_64. destruct (Z.le_gt_cases (ea + eb) (-1074)); [lia|].
  assert (2 ^ 52 <= Zpos ma * Zpos mb) by (destruct Ha, Hb; nia). destruct (canonical_place (Zpos ma * Zpos mb) (ea + eb)); [by right|lia..].
Qed.
(** Multiplication is that of binary64. *)
Lemma mul_ieee a b (Ha : is_bits a) (Hb : is_bits b) : decode (mul a b) = fmul (decode a) (decode b).
Proof.
  unfold mul, fmul. rewrite sign_lxor.
  destruct (Z.eqb_spec (exp_of a) 0x7ff) as [Ea|Ea], (Z.eqb_spec (exp_of b) 0x7ff) as [Eb|Eb]; cbn [orb].
  - rewrite !is_nan_special, (decode_special a), (decode_special b), Ea, Eb by done. destruct (frac_of a =? 0), (frac_of b =? 0); first [reflexivity|exact (decode_signed_inf _)].
  - rewrite (is_nan_special a), (is_nan_exp b), (decode_special a), Ea by done. destruct (unpack_spec b Hb Eb) as [(-> & -> & _ & ->)|(m & e & i & Hnz & -> & _)].
    + by destruct (frac_of a =? 0).
    + assert ((exp_of b =? 0) && (frac_of b =? 0) = false) as -> by (destruct (Z.eqb_spec (exp_of b) 0), (Z.eqb_spec (frac_of b) 0); tauto).
      destruct (frac_of a =? 0); [apply decode_signed_inf|done].
  - rewrite (is_nan_special b), (is_nan_exp a), (decode_special b), Eb by done. destruct (unpack_spec a Ha Ea) as [(-> & -> & _ & ->)|(m & e & i & Hnz & -> & _)].
    + by destruct (frac_of b =? 0).
    + assert ((exp_of a =? 0) && (frac_of a =? 0) = false) as -> by (destruct (Z.eqb_spec (exp_of a) 0), (Z.eqb_spec (frac_of a) 0); tauto).
      destruct (frac_of b =? 0); [apply decode_signed_inf|done].
  - destruct (unpack_spec a Ha Ea) as [(_ & _ & -> & ->)|(ma & ea & ia & _ & -> & -> & Hia & Hra & Hea & Hma & Hca)];
      destruct (unpack_spec b Hb Eb) as [(_ & _ & -> & ->)|(mb & eb & ib & _ & -> & -> & Hib & Hrb & Heb & Hmb & Hcb)];
      [exact (decode_signed_zero _)|exact (decode_signed_zero _)|rewrite orb_true_r; exact (decode_signed_zero _)|].
    rewrite (proj2 (Z.eqb_neq (Zpos ma * _) 0)), (proj2 (Z.eqb_neq (Zpos mb * _) 0)) by lia. cbn [orb].
    pose proof (pow2_pos ia ltac:(lia)). pose proof (pow2_pos ib ltac:(lia)). rewrite (Z.add_comm 10 ia), (Z.add_comm 10 ib), !pow2_split, !Z.mul_assoc in * by lia.
    destruct (mul_finite_rounds (xorb (sign_of a) (sign_of b)) (ea + 1075 - ia) (eb + 1075 - ib) (Zpos ma * 2 ^ ia) (Zpos mb * 2 ^ ib)) as (k & Hk & Hr); [lia|lia|].
    eapply (rounds_unique _ _ _ _ _ _ _ _ _ (-10000)); [exact Hr|apply spec_mul_rounds; done || lia|lia|lia|].
    set (x := ea + eb - ia - ib + 10000). replace (ea + eb - -10000) with (x + (ia + ib)) by lia.
    replace (ea + 1075 - ia + (eb + 1075 - ib) - 2150 + k - -10000) with (x + k) by lia. rewrite !pow2_split by lia. ring.
Qed.

(** ** Addition *)
(** [jam] of a sum and of a difference with an even number *)
Lemma jam_add a n d : 0 <= n → 0 < d → 0 <= a → Z.even a = true → a + jam n d = jam (a * d + n) d.
Proof.
  intros Hn Hd Ha He. rewrite !jam_value by nia. rewrite Z.div_add_l by lia. rewrite (Z.add_comm (a * d)), Z.mod_add by lia.
  destruct (_ =? _); [done|]. apply Z.even_spec in He as [h ->].
  assert ((2 * h + n / d) / 2 = n / d / 2 + h) as -> by (rewrite (Z.add_comm (2 * h)), (Z.mul_comm 2 h); by apply Z.div_add); lia.
Qed.
Lemma jam_sub a n d : 0 <= n → 0 < d → n <= a * d → Z.even a = true → a - jam n d = jam (a * d - n) d.
Proof.
  intros Hn Hd Ha He. rewrite !jam_value by nia. pose proof (Z.div_mod n d ltac:(lia)) as Hdm. pose proof (Z.mod_pos_bound n d Hd) as Hr.
  apply Z.even_spec in He as [h ->]. destruct (Z.eqb_spec (n mod d) 0) as [E|E].
  - assert ((2 * h * d - n) mod d = 0 ∧ (2 * h * d - n) / d = 2 * h - n / d) as [-> ->]; [|done].
    split; [symmetry; apply Z.mod_unique with (2 * h - n / d)|symmetry; apply Z.div_unique with 0]; lia.
  - assert ((2 * h * d - n) mod d = d - n mod d ∧ (2 * h * d - n) / d = 2 * h - n / d - 1) as [-> ->].
    { split; [symmetry; apply Z.mod_unique with (2 * h - n / d - 1)|symmetry; apply Z.div_unique with (d - n mod d)]; lia. }
    rewrite (proj2 (Z.eqb_neq (d - _) 0)) by lia. pose proof (Z.div_mod (n / d) 2 ltac:(lia)). pose proof (Z.mod_pos_bound (n / d) 2 ltac:(lia)).
    assert ((2 * h - n / d - 1) / 2 = h - n / d / 2 - 1) as ->; [|lia].
    symmetry. apply Z.div_unique with (1 - (n / d) mod 2); lia.
Qed.
Lemma jam_le n d : 0 <= n → 0 < d → 0 <= jam n d <= n / d + 1.
Proof.
  intros Hn Hd. rewrite jam_value by done. pose proof (Z.div_pos n d Hn Hd). pose proof (Z.div_mod (n / d) 2 ltac:(lia)). pose proof (Z.mod_pos_bound (n / d) 2 ltac:(lia)).
  destruct (_ =? _); lia.
Qed.
Definition normed (m : Z) : Prop := 2 ^ 62 <= m < 2 ^ 63 ∧ m mod 2 ^ 10 = 0.
Lemma normed_even m : normed m → Z.even m = true.
Proof. intros [_ Hm]. pose proof (Z.div_mod m (2 ^ 10) ltac:(lia)) as H. rewrite H, Hm, Z.add_0_r, Z.even_mul. done. Qed.
Lemma add_mag_rounds sign ea sa eb sb : normed sa → normed sb → eb <= ea → ea ≠ 0x7ff →
  ∃ k, 0 <= k <= 1 ∧ rounds sign (sa * 2 ^ (ea - eb) + sb) (2 ^ (ea - eb + k)) (ea + k - 1085) (decode (add_mag sign ea sa eb sb)).
Proof.
  intros Ha Hb He Hea. unfold add_mag. rewrite (proj2 (Z.eqb_neq ea _)) by done. destruct Ha as [Hsa Hma], Hb as [Hsb Hmb].
  rewrite shr_jam_is_jam by (unfold is_bits; lia). set (D := 2 ^ (ea - eb)). assert (0 < D) as HD by (apply pow2_pos; lia).
  rewrite jam_add by (lia || by apply normed_even). set (N := sa * D + sb).
  assert (sb < 2 ^ 63 * D) by nia. assert (2 ^ 62 * D <= N < 2 ^ 64 * D) as HN by (subst N; nia).
  pose proof (jam_sticky N D ltac:(lia) HD) as Hs. set (x := jam N D) in *.
  assert (2 ^ 62 <= x < 2 ^ 64) as Hx.
  { destruct (Z.lt_ge_cases N (D * 2 ^ 63)); [pose proof (jam_range N D 62 ltac:(lia) HD ltac:(lia))|pose proof (jam_range N D 63 ltac:(lia) HD ltac:(lia))]; lia. }
  cbv zeta. rewrite u64_small by (split; lia). unfold SIGN. change 0x8000000000000000 with (2 ^ 63). rewrite land_pow2, testbit_top by lia.
  destruct (Z.leb_spec (2 ^ 63) x).
  - change (negb (2 ^ 63 =? 0)) with true. cbv iota. exists 1. split; [lia|]. rewrite pow2_split by lia. fold D. replace (ea + 1 - 1085) with ((ea + 1) - 1085) by lia.
    rewrite shr_jam_is_jam by (unfold is_bits; lia). change (2 ^ 1) with 2. eapply round_pack_rounds; [by apply jam_again|lia|].
    pose proof (jam_range x 2 62 ltac:(lia) ltac:(lia) ltac:(lia)). lia.
  - change (negb (0 =? 0)) with false. cbv iota. exists 0. split; [lia|]. rewrite !Z.add_0_r. fold D. eapply round_pack_rounds; [exact Hs|lia|lia].
Qed.
(** normalization of an exact significand, and by at most one place of a sticky one *)
Lemma sticky_twice x : 0 <= x → sticky 0 x (x * 2) 2.
Proof. intros Hx. exact (sticky_scale 0 x x 1 2 (sticky_exact x Hx) ltac:(lia)). Qed.
Lemma norm_pack_exact sign e x : 0 < x < 2 ^ 64 →
  ∃ k, 0 <= k <= 64 ∧ rounds sign (x * 2 ^ k) 2 (e - k - 1084) (decode (norm_pack sign e x)).
Proof.
  intros Hx. unfold norm_pack. rewrite clz_log2 by lia. pose proof (Z.log2_spec x ltac:(lia)) as Hl.
  assert (0 <= Z.log2 x < 64) as Hl' by (split; [apply Z.log2_nonneg|apply Z.log2_lt_pow2; lia]).
  assert (∀ k, Z.log2 x + k = 62 → 0 <= k → 2 ^ 62 <= x * 2 ^ k < 2 ^ 63) as Hr.
  { intros k Hk H0. pose proof (pow2_pos k H0). rewrite Z.pow_succ_r in Hl by lia.
    assert (2 ^ 62 = 2 ^ Z.log2 x * 2 ^ k) as -> by (rewrite <- Z.pow_add_r by lia; f_equal; lia).
    assert (2 ^ 63 = 2 * 2 ^ Z.log2 x * 2 ^ k) as -> by (rewrite <- Z.mul_assoc, <- Z.pow_add_r, <- Z.pow_succ_r by lia; f_equal; lia). nia. }
  destruct (Z.ltb_spec 0 (63 - Z.log2 x - 1)) as [Hs|Hs]; [|destruct (Z.ltb_spec (63 - Z.log2 x - 1) 0) as [Hs'|Hs']].
  - specialize (Hr (62 - Z.log2 x) ltac:(lia) ltac:(lia)). replace (63 - Z.log2 x - 1) with (62 - Z.log2 x) by lia. exists (62 - Z.log2 x + 1). split; [lia|].
    rewrite shl64_small by lia. replace (e - (62 - Z.log2 x + 1) - 1084) with (e - (62 - Z.log2 x) - 1085) by lia.
    eapply (round_pack_rounds _ _ _ 0); [|lia|lia]. rewrite pow2_split, Z.mul_assoc by lia. change (2 ^ 1) with 2. apply sticky_twice. lia.
  - exists 0. split; [lia|]. rewrite Z.mul_1_r. replace (63 - Z.log2 x - 1) with (-1) by lia. rewrite shr_jam_is_jam by (unfold is_bits; lia).
    replace (e - 0 - 1084) with (e - -1 - 1085) by lia. eapply (round_pack_rounds _ _ _ 1); [by apply (jam_sticky x 2); lia|lia|].
    assert (Z.log2 x = 63) as Hlog by lia. rewrite Hlog in Hl. change (Z.succ 63) with 64 in Hl. apply (jam_range x 2 62); lia.
  - specialize (Hr 0 ltac:(lia) ltac:(lia)). exists 1. split; [lia|]. change (2 ^ 1) with 2. replace (e - 1 - 1084) with (e - 1085) by lia.
    eapply (round_pack_rounds _ _ _ 0); [|lia|lia]. apply sticky_twice. lia.
Qed.
Lemma norm_pack_sticky sign e x n d : sticky 1 x n (d * 2) → 0 < d → 2 ^ 61 <= x < 2 ^ 63 →
  ∃ k, 0 <= k <= 1 ∧ rounds sign n (d * 2 ^ k) (e - 1 + k - 1085) (decode (norm_pack sign e x)).
Proof.
  intros Hs Hd Hx. unfold norm_pack. rewrite clz_log2 by lia.
  assert (Z.log2 x = if 2 ^ 62 <=? x then 62 else 61) as Hl.
  { destruct (Z.leb_spec (2 ^ 62) x); [apply Z.log2_unique; lia|apply Z.log2_unique; lia]. }
  rewrite Hl. destruct (Z.leb_spec (2 ^ 62) x).
  - change (0 <? 63 - 62 - 1) with false. change (63 - 62 - 1 <? 0) with false. cbv iota. exists 1. split; [lia|]. replace (e - 1 + 1 - 1085) with (e - 1085) by lia.
    eapply round_pack_rounds; [exact Hs|lia|lia].
  - change (0 <? 63 - 61 - 1) with true. cbv iota. change (63 - 61 - 1) with 1. exists 0. split; [lia|]. rewrite Z.mul_1_r, Z.add_0_r.
    rewrite shl64_small by lia. eapply (round_pack_rounds _ _ _ 2); [|lia|lia]. by apply (sticky_shl 1 1).
Qed.
(** [v] is the result for the value [V * 2 ^ -10000] *)
Definition gives (s : bool) (V : Z) (v : spec_float) : Prop :=
  ∃ n d e, rounds s n d e v ∧ -10000 <= e ∧ n * 2 ^ (e + 10000) = V * d.
Lemma gives_unique s V v1 v2 : gives s V v1 → gives s V v2 → v1 = v2.
Proof.
  intros (n1 & d1 & e1 & R1 & H1 & V1) (n2 & d2 & e2 & R2 & H2 & V2). eapply (rounds_unique s n1 d1 e1 v1 n2 d2 e2 v2 (-10000)); try done.
  replace (e1 - -10000) with (e1 + 10000) by lia. replace (e2 - -10000) with (e2 + 10000) by lia. rewrite V1, V2. ring.
Qed.
(** the value of a significand *)
Definition place (m x : Z) : Z := m * 2 ^ (x + 8915).
Lemma place_sum ea sa eb sb : -2000 <= eb <= ea → place sa ea + place sb eb = (sa * 2 ^ (ea - eb) + sb) * 2 ^ (eb + 8915).
Proof. intros H. unfold place. replace (ea + 8915) with (ea - eb + (eb + 8915)) by lia. rewrite pow2_split by lia. ring. Qed.
Lemma add_mag_gives sign ea sa eb sb : normed sa → normed sb → -2000 <= eb <= ea → ea ≠ 0x7ff →
  gives sign (place sa ea + place sb eb) (decode (add_mag sign ea sa eb sb)).
Proof.
  intros Ha Hb He Hea. destruct (add_mag_rounds sign ea sa eb sb Ha Hb) as (k & Hk & Hr); [lia|done|].
  do 3 eexists. split; [exact Hr|]. split; [lia|]. rewrite place_sum by lia.
  replace (ea + k - 1085 + 10000) with (ea - eb + k + (eb + 8915)) by lia. rewrite (pow2_split (ea - eb + k)) by lia. ring.
Qed.
Lemma sub_mag_gives sign ea sa eb sb : normed sa → normed sb → -2000 <= eb <= ea → place sb eb < place sa ea →
  gives sign (place sa ea - place sb eb) (decode (sub_mag sign ea sa eb sb)).
Proof.
  intros Ha Hb He Hlt. assert (place sa ea - place sb eb = (sa * 2 ^ (ea - eb) - sb) * 2 ^ (eb + 8915)) as HV.
  { unfold place. replace (ea + 8915) with (ea - eb + (eb + 8915)) by lia. rewrite pow2_split by lia. ring. }
  pose proof (pow2_pos (eb + 8915) ltac:(lia)) as HB. assert (0 < sa * 2 ^ (ea - eb) - sb) as Hpos by nia. rewrite HV.
  unfold sub_mag. destruct Ha as [Hsa Hma], Hb as [Hsb Hmb]. destruct (Z.leb_spec (ea - eb) 1).
  - cbv zeta. assert (∃ x, (u64 (shl64 sa 1 - (if ea =? eb then shl64 sb 1 else sb)) = x) ∧ 0 < x < 2 ^ 64 ∧ x = (sa * 2 ^ (ea - eb) - sb) * 2 ^ (1 - (ea - eb))) as (x & -> & Hx & HX).
    { rewrite (shl64_small sa) by lia. destruct (Z.eqb_spec ea eb) as [->|].
      - rewrite shl64_small by lia. rewrite Z.sub_diag in *. change (2 ^ 0) with 1 in *. change (2 ^ (1 - 0)) with 2. change (2 ^ 1) with 2.
        exists (sa * 2 - sb * 2). rewrite u64_small by (split; lia). lia.
      - assert (ea - eb = 1) as E1 by lia. rewrite E1 in *. change (2 ^ (1 - 1)) with 1. change (2 ^ 1) with 2 in *. exists (sa * 2 - sb). rewrite u64_small by (split; lia). lia. }
    rewrite (proj2 (Z.eqb_neq x 0)) by lia. destruct (norm_pack_exact sign (ea - 1) x Hx) as (k & Hk & Hr).
    do 3 eexists. split; [exact Hr|]. split; [lia|]. rewrite HX. set (W := sa * 2 ^ (ea - eb) - sb).
    replace (W * 2 ^ (1 - (ea - eb)) * 2 ^ k * 2 ^ (ea - 1 - k - 1084 + 10000)) with (W * (2 ^ (1 - (ea - eb)) * (2 ^ k * 2 ^ (ea - 1 - k - 1084 + 10000)))) by ring.
    rewrite <- !pow2_split by lia. replace (1 - (ea - eb) + (k + (ea - 1 - k - 1084 + 10000))) with (eb + 8915 + 1) by lia. rewrite pow2_split by lia. change (2 ^ 1) with 2. ring.
  - rewrite shr_jam_is_jam by (unfold is_bits; lia). set (D := 2 ^ (ea - eb)) in *.
    assert (D = 2 ^ (ea - eb - 1) * 2) as HD2 by (subst D; rewrite <- (pow2_split _ 1) by lia; f_equal; lia).
    assert (2 <= 2 ^ (ea - eb - 1)) as HD1 by (apply (Z.pow_le_mono_r 2 1); lia).
    rewrite jam_sub by (lia || by apply normed_even). set (N := sa * D - sb) in *.
    assert (D * 2 ^ 61 <= N < D * 2 ^ 63) as HN by (subst N; nia).
    pose proof (jam_sticky N D ltac:(lia) ltac:(lia)) as Hs.
    assert (2 ^ 61 <= jam N D < 2 ^ 63) as Hx.
    { destruct (Z.lt_ge_cases N (D * 2 ^ 62)); [pose proof (jam_range N D 61 ltac:(lia) ltac:(lia))|pose proof (jam_range N D 62 ltac:(lia) ltac:(lia))]; lia. }
    rewrite u64_small by (split; lia). rewrite HD2 in Hs at 2. destruct (norm_pack_sticky sign ea (jam N D) N (2 ^ (ea - eb - 1)) Hs ltac:(lia) Hx) as (k & Hk & Hr).
    do 3 eexists. split; [exact Hr|]. split; [lia|]. rewrite <- Z.mul_assoc, <- !pow2_split by lia. f_equal. f_equal. lia.
Qed.
(** *** [SpecFloat]'s sum *)
Lemma iter_xO d : ∀ m, Zpos (Pos.iter xO m d) = Zpos m * 2 ^ Zpos d.
Proof.
  intros m. induction d as [|d IH] using Pos.peano_ind; [cbn; lia|]. rewrite Pos.iter_succ, Pos2Z.inj_xO, IH, Pos2Z.inj_succ, Z.pow_succ_r by lia. ring.
Qed.
Lemma shl_align_value m e e' : e' <= e → Zpos (fst (shl_align m e e')) = Zpos m * 2 ^ (e - e') ∧ snd (shl_align m e e') = e'.
Proof.
  intros He. unfold shl_align. destruct (e' - e) as [|p|p] eqn:E; [|lia|]; cbn [fst snd].
  - replace (e - e') with 0 by lia. lia.
  - replace (e - e') with (Zpos p) by lia. by rewrite iter_xO.
Qed.
Lemma digits_shift m k : 0 < m → 0 <= k → Zdigits2 (m * 2 ^ k) = Zdigits2 m + k.
Proof. intros Hm Hk. pose proof (pow2_pos k Hk). rewrite !digits_log2 by nia. rewrite Z.log2_mul_pow2 by lia. lia. Qed.
Lemma binary_round_gives s m e : -1074 <= e → gives s (Zpos m * 2 ^ (e + 10000)) (binary_round prec64 emax64 s m e).
Proof.
  intros He. unfold binary_round. set (E := fexp prec64 emax64 (Zpos (digits2_pos m) + e)).
  assert (∃ m' e', shl_align m e E = (m', e') ∧ Zpos m' = Zpos m * 2 ^ (e - e') ∧ -1074 <= e' <= e ∧ e' <= E) as (m' & e' & -> & Hm & He' & HE).
  { destruct (Z.le_gt_cases E e) as [Hle|Hgt].
    - destruct (shl_align_value m e E Hle) as [H1 H2]. exists (fst (shl_align m e E)), E. split_and!; try done; [by rewrite <- H2 at 3; destruct (shl_align m e E)|].
      subst E. rewrite fexp_64. lia.
    - exists m, e. split_and!; try lia; [|by rewrite Z.sub_diag, Z.mul_1_r]. unfold shl_align. destruct (E - e) eqn:Ex; [done|done|lia]. }
  exists (Zpos m'), 1, e'. split_and!; [|lia|].
  - rewrite <- (Z.div_1_r (Zpos m')) at 2. apply aux_rounds; [lia|lia|apply exact_rec|]. rewrite Z.div_1_r, Hm, digits_shift by lia.
    replace (Zdigits2 (Zpos m) + (e - e') + e') with (Zpos (digits2_pos m) + e) by (cbn [Zdigits2]; lia). exact HE.
  - rewrite Hm, Z.mul_1_r, <- Z.mul_assoc, <- pow2_split by lia. do 2 f_equal. lia.
Qed.
Lemma normalize_gives s V e z : 0 < V → -1074 <= e → gives s (V * 2 ^ (e + 10000)) (binary_normalize prec64 emax64 (cond_Zopp s V) e z).
Proof. intros HV He. destruct V as [|p|p]; [lia| |lia]. destruct s; by apply binary_round_gives. Qed.
(** both sums, of nonzero finite arguments *)
Definition add_finite (xa ma : Z) (sa : bool) (xb mb : Z) (sb : bool) : Z :=
  let swap := (xa <? xb) || ((xa =? xb) && (ma <? mb)) in
  let '(xa, ma, sa, xb, mb, sb) := if swap then (xb, mb, sb, xa, ma, sa) else (xa, ma, sa, xb, mb, sb) in
  if Bool.eqb sa sb then add_mag sa xa ma xb mb else sub_mag sa xa ma xb mb.
Lemma place_lt_exp xa ma xb mb : normed ma → normed mb → -2000 <= xa < xb → place ma xa < place mb xb.
Proof.
  intros [Ha _] [Hb _] Hx. unfold place. pose proof (pow2_pos (xa + 8915) ltac:(lia)).
  assert (2 * 2 ^ (xa + 8915) <= 2 ^ (xb + 8915)) by (rewrite <- Z.pow_succ_r by lia; apply Z.pow_le_mono_r; lia). nia.
Qed.
Definition opp_sum (sa sb : bool) (A B : Z) : bool * Z := if Bool.eqb sa sb then (sa, A + B) else if B <? A then (sa, A - B) else (sb, B - A).
Lemma sum_signed sa sb A B : 0 < A → 0 < B → let (s, V) := opp_sum sa sb A B in cond_Zopp sa A + cond_Zopp sb B = cond_Zopp s V ∧ 0 <= V.
Proof. intros HA HB. unfold opp_sum. destruct sa, sb; cbn; try (split; lia); destruct (Z.ltb_spec B A); cbn; lia. Qed.
Lemma sub_mag_equal sign e m : normed m → sub_mag sign e m e m = 0.
Proof.
  intros [Hm _]. unfold sub_mag. rewrite Z.sub_diag. change (0 <=? 1) with true. cbv iota zeta. rewrite Z.eqb_refl, Z.sub_diag. done.
Qed.
Lemma add_finite_gives sa sb xa ma xb mb : normed ma → normed mb → -2000 <= xa < 0x7ff → -2000 <= xb < 0x7ff →
  let (s, V) := opp_sum sa sb (place ma xa) (place mb xb) in
  if V =? 0 then add_finite xa ma sa xb mb sb = 0 else gives s V (decode (add_finite xa ma sa xb mb sb)).
Proof.
  intros Ha Hb Hxa Hxb. unfold add_finite. pose proof (pow2_pos (xa + 8915) ltac:(lia)). pose proof (pow2_pos (xb + 8915) ltac:(lia)).
  assert (0 < place ma xa ∧ 0 < place mb xb) as [HA HB] by (destruct Ha as [? _], Hb as [? _]; unfold place; nia).
  assert (∀ m m' x, m < m' → -2000 <= x → place m x < place m' x) as Hmono.
  { intros m m' x Hm Hx. unfold place. pose proof (pow2_pos (x + 8915) ltac:(lia)). nia. }
  unfold opp_sum. destruct ((xa <? xb) || ((xa =? xb) && (ma <? mb))) eqn:Esw.
  - assert (xa <= xb ∧ place ma xa < place mb xb) as [Hx Hlt].
    { apply orb_true_iff in Esw as [Hx%Z.ltb_lt|[Hx%Z.eqb_eq Hm%Z.ltb_lt]%andb_true_iff]; [split; [lia|apply place_lt_exp; done || lia]|subst xb; split; [lia|apply Hmono; lia]]. }
    destruct (Bool.eqb sa sb) eqn:Es.
    + apply eqb_prop in Es as ->. rewrite eqb_reflx. rewrite (proj2 (Z.eqb_neq _ 0)) by lia. rewrite (Z.add_comm (place ma xa)). apply add_mag_gives; done || lia.
    + assert (Bool.eqb sb sa = false) as -> by (by destruct sa, sb). rewrite (proj2 (Z.ltb_ge _ _)) by lia. rewrite (proj2 (Z.eqb_neq _ 0)) by lia. apply sub_mag_gives; done || lia.
  - apply orb_false_iff in Esw as [Hx%Z.ltb_ge Hm].
    destruct (Bool.eqb sa sb) eqn:Es.
    + rewrite (proj2 (Z.eqb_neq _ 0)) by lia. apply add_mag_gives; done || lia.
    + destruct (Z.eq_dec xa xb) as [->|Hne].
      * rewrite Z.eqb_refl in Hm. cbn [andb] in Hm. apply Z.ltb_ge in Hm. destruct (Z.eq_dec ma mb) as [->|Hmm].
        { rewrite Z.ltb_irrefl, Z.sub_diag. change (0 =? 0) with true. cbv iota. by apply sub_mag_equal. }
        pose proof (Hmono mb ma xb ltac:(lia) ltac:(lia)). rewrite (proj2 (Z.ltb_lt _ _)) by lia. rewrite (proj2 (Z.eqb_neq _ 0)) by lia. apply sub_mag_gives; done || lia.
      * pose proof (place_lt_exp xb mb xa ma Hb Ha ltac:(lia)). rewrite (proj2 (Z.ltb_lt _ _)) by lia. rewrite (proj2 (Z.eqb_neq _ 0)) by lia. apply sub_mag_gives; done || lia.
Qed.
Lemma opp_sum_scale sa sb A B K : 0 < K → opp_sum sa sb (A * K) (B * K) = ((opp_sum sa sb A B).1, (opp_sum sa sb A B).2 * K).
Proof.
  intros HK. unfold opp_sum. destruct (Bool.eqb sa sb); cbn; [f_equal; ring|].
  destruct (Z.ltb_spec B A), (Z.ltb_spec (B * K) (A * K)); cbn; try nia; f_equal; ring.
Qed.
Lemma unpacks_normed b m e i : unpacks b m e i → normed (Zpos m * 2 ^ (10 + i)) ∧ place (Zpos m * 2 ^ (10 + i)) (e + 1075 - i) = Zpos m * 2 ^ (e + 10000) ∧
  -2000 <= e + 1075 - i < 0x7ff.
Proof.
  intros (_ & _ & Hi & Hr & He & _). split_and!; try lia.
  - split; [exact Hr|]. rewrite (Z.add_comm 10), pow2_split by lia. by rewrite Z.mul_assoc, Z.mod_mul by lia.
  - unfold place. rewrite <- Z.mul_assoc, <- pow2_split by lia. do 2 f_equal. lia.
Qed.
Lemma spec_add_finite sa ma ea sb mb eb M N xa xb : normed M → normed N → -2000 <= xa < 0x7ff → -2000 <= xb < 0x7ff → -1074 <= ea → -1074 <= eb →
  place M xa = Zpos ma * 2 ^ (ea + 10000) → place N xb = Zpos mb * 2 ^ (eb + 10000) →
  decode (add_finite xa M sa xb N sb) = fadd (S754_finite sa ma ea) (S754_finite sb mb eb).
Proof.
  intros HM HN Hxa Hxb Hea Heb HpM HpN. unfold fadd, SFadd. cbv zeta. set (ez := Z.min ea eb).
  destruct (shl_align_value ma ea ez ltac:(lia)) as [HA _]. destruct (shl_align_value mb eb ez ltac:(lia)) as [HB _].
  set (A := Zpos (fst (shl_align ma ea ez))) in *. set (B := Zpos (fst (shl_align mb eb ez))) in *. pose proof (pow2_pos (ez + 10000) ltac:(lia)) as HK.
  pose proof (add_finite_gives sa sb xa M xb N HM HN Hxa Hxb) as Hg.
  assert (place M xa = A * 2 ^ (ez + 10000)) as HVA by (rewrite HpM, HA, <- Z.mul_assoc, <- pow2_split by lia; do 2 f_equal; lia).
  assert (place N xb = B * 2 ^ (ez + 10000)) as HVB by (rewrite HpN, HB, <- Z.mul_assoc, <- pow2_split by lia; do 2 f_equal; lia).
  rewrite HVA, HVB, opp_sum_scale in Hg by done. pose proof (sum_signed sa sb A B ltac:(done) ltac:(done)) as Hs.
  destruct (opp_sum sa sb A B) as [s V]. cbn [fst snd] in Hg. destruct Hs as [-> HV].
  destruct (Z.eqb_spec (V * 2 ^ (ez + 10000)) 0) as [Hz|Hnz].
  - rewrite Hg. assert (V = 0) as -> by nia. by destruct s.
  - eapply gives_unique; [exact Hg|]. apply normalize_gives; [nia|lia].
Qed.
Lemma add_false a b : is_bits a → is_bits b → decode (add a b false) = fadd (decode a) (decode b).
Proof.
  intros Ha Hb. unfold add. cbv zeta iota.
  destruct (Z.eqb_spec (exp_of a) 0x7ff) as [Ea|Ea], (Z.eqb_spec (exp_of b) 0x7ff) as [Eb|Eb]; cbn [orb andb].
  - rewrite !is_nan_special, (decode_special a), (decode_special b) by done. destruct (frac_of a =? 0) eqn:Fa, (frac_of b =? 0) eqn:Fb; try reflexivity. cbn [negb orb].
    assert (decode a = S754_infinity (sign_of a)) as Hda by (by rewrite decode_special, Fa).
    destruct (sign_of a), (sign_of b); try reflexivity; exact Hda.
  - rewrite (is_nan_special a), (is_nan_exp b) by done. destruct (frac_of a =? 0) eqn:Fa; cbn [negb orb];
      (assert (decode a = if frac_of a =? 0 then S754_infinity (sign_of a) else S754_nan) as Hda by (by apply decode_special)); rewrite Fa in Hda.
    + destruct (unpack_spec b Hb Eb) as [(_ & _ & _ & ->)|(m & e & i & _ & -> & _)]; by rewrite Hda.
    + rewrite Hda. by destruct (decode b).
  - rewrite (is_nan_special b), (is_nan_exp a) by done. destruct (frac_of b =? 0) eqn:Fb; cbn [negb orb];
      (assert (decode b = if frac_of b =? 0 then S754_infinity (sign_of b) else S754_nan) as Hdb by (by apply decode_special)); rewrite Fb in Hdb.
    + destruct (unpack_spec a Ha Ea) as [(_ & _ & _ & ->)|(m & e & i & _ & -> & _)]; by rewrite Hdb.
    + rewrite Hdb. by destruct (decode a).
  - destruct (unpack_spec a Ha Ea) as [(_ & _ & Hua & Hda)|(ma & ea & ia & _ & Ua)];
      destruct (unpack_spec b Hb Eb) as [(_ & _ & Hub & Hdb)|(mb & eb & ib & _ & Ub)].
    + rewrite Hua, Hub, Hda, Hdb. by destruct (sign_of a), (sign_of b).
    + destruct Ub as (Hdb & Hub & _ & ? & _). rewrite Hua, Hub. cbv iota beta. rewrite Z.eqb_refl, (proj2 (Z.eqb_neq _ 0)) by lia. by rewrite Hda, Hdb.
    + destruct Ua as (Hda & Hua & _ & ? & _). rewrite Hua, Hub. cbv iota beta. rewrite Z.eqb_refl, (proj2 (Z.eqb_neq _ 0)) by lia. by rewrite Hda, Hdb.
    + destruct (unpacks_normed _ _ _ _ Ua) as (HNa & HPa & HXa), (unpacks_normed _ _ _ _ Ub) as (HNb & HPb & HXb).
      destruct Ua as (Hda & Hua & _ & ? & ? & _), Ub as (Hdb & Hub & _ & ? & ? & _). rewrite Hua, Hub, Hda, Hdb. cbv iota beta. rewrite !(proj2 (Z.eqb_neq (_ * _) 0)) by lia.
      change (decode (add_finite (ea + 1075 - ia) (Zpos ma * 2 ^ (10 + ia)) (sign_of a) (eb + 1075 - ib) (Zpos mb * 2 ^ (10 + ib)) (sign_of b)) =
        fadd (S754_finite (sign_of a) ma ea) (S754_finite (sign_of b) mb eb)).
      apply spec_add_finite; done || lia.
Qed.
Lemma flip_bits b : is_bits b → is_bits (Z.lxor b SIGN).
Proof. intros Hb. apply lxor_bound; [lia|exact Hb|done]. Qed.
Lemma decode_flip b : is_bits b → decode (Z.lxor b SIGN) = SFopp (decode b).
Proof.
  intros Hb. assert (Z.lxor b SIGN = signed (negb (sign_of b)) + (exp_of b * 2 ^ 52 + frac_of b)) as ->.
  { destruct (unpacked b Hb) as (Hu & He & Hf). set (c := exp_of b * 2 ^ 52 + frac_of b) in *. assert (0 <= c < 2 ^ 63) as Hc by lia.
    rewrite Hu at 1. rewrite <- !lor_signed by done. clear Hu. apply Z.bits_inj'. intros k Hk. rewrite Z.lxor_spec, !Z.lor_spec.
    assert (∀ s, Z.testbit (signed s) k = (k =? 63) && s) as Hsg.
    { intros []; unfold signed; [|by rewrite Z.bits_0, andb_false_r]. unfold SIGN. change 0x8000000000000000 with (2 ^ 63). rewrite Z.pow2_bits_eqb by lia. rewrite Z.eqb_sym. by rewrite andb_true_r. }
    change SIGN with (signed true). rewrite !Hsg. destruct (Z.eqb_spec k 63) as [->|]; [|by rewrite !andb_false_l, xorb_false_r].
    rewrite (testbit_top c 63) by lia. rewrite (proj2 (Z.leb_gt _ _)) by lia. by destruct (sign_of b). }
  destruct (unpacked b Hb) as (_ & He & Hf). rewrite decode_code by lia. unfold decode. by repeat case_match.
Qed.
Lemma sub_opp x y : fsub x y = fadd x (SFopp y).
Proof.
  destruct x as [[]|[]| |sx mx ex], y as [[]|[]| |sy my ey]; try reflexivity; try (by destruct sx).
  unfold fsub, fadd, SFsub, SFadd, SFopp. f_equal. by destruct sy.
Qed.
(** Addition and subtraction are those of binary64. *)
Lemma add_ieee a b neg (Ha : is_bits a) (Hb : is_bits b) : decode (add a b neg) = (if neg then fsub else fadd) (decode a) (decode b).
Proof.
  destruct neg; [|by apply add_false]. rewrite sub_opp, <- decode_flip by done.
  change (add a b true) with (add a (Z.lxor b SIGN) false). apply add_false; [done|by apply flip_bits].
Qed.

(** ** Division *)
Lemma new_location_cases d r : new_location d r =
  if r =? 0 then loc_Exact
  else loc_Inexact (if Z.even d then 2 * r ?= d else match 2 * r + 1 ?= d with Lt | Eq => Lt | Gt => Gt end).
Proof. unfold new_location. by destruct (Z.even d). Qed.
Lemma new_location_rec n d : 0 <= n → 0 < d → shr_record_of_loc (n / d) (new_location d (n mod d)) = rec n d.
Proof.
  intros Hn Hd. pose proof (Z.mod_pos_bound n d Hd). rewrite new_location_cases. unfold rec. set (r := n mod d) in *.
  destruct (Z.eqb_spec r 0) as [->|Hr]; [cbn; f_equal; symmetry; apply Z.leb_gt; lia|].
  destruct (Z.even d) eqn:Ed; cbn [shr_record_of_loc].
  - destruct (Z.compare_spec (2 * r) d); cbn; f_equal;
      destruct (Z.leb_spec d (2 * r)), (Z.eqb_spec (2 * r) 0), (Z.eqb_spec (2 * r) d); cbn; done || lia.
  - assert (2 * r ≠ d) as Hne by (intros E; rewrite <- E, Z.even_mul in Ed; done).
    destruct (Z.compare_spec (2 * r + 1) d); cbn; f_equal;
      destruct (Z.leb_spec d (2 * r)), (Z.eqb_spec (2 * r) 0), (Z.eqb_spec (2 * r) d); cbn; done || lia.
Qed.
Lemma spec_div_rounds s (ma mb : positive) ea eb : ∃ e', e' <= ea - eb ∧ Z.min (ea - eb) (-1074) <= e' ∧
  rounds s (Zpos ma * 2 ^ (ea - eb - e')) (Zpos mb) e' (let '(mz, ez, lz) := SFdiv_core_binary prec64 emax64 (Zpos ma) ea (Zpos mb) eb in binary_round_aux prec64 emax64 s mz ez lz).
Proof.
  unfold SFdiv_core_binary. rewrite fexp_64. set (da := Zdigits2 (Zpos ma)). set (db := Zdigits2 (Zpos mb)).
  set (e' := Z.min (Z.max (da + ea - (db + eb) - 53) (-1074)) (ea - eb)). set (k := ea - eb - e').
  assert (match k with Zpos _ => Z.shiftl (Zpos ma) k | Z0 => Zpos ma | Zneg _ => 0 end = Zpos ma * 2 ^ k) as ->.
  { assert (0 <= k) by lia. destruct k as [|p|p] eqn:Ek; [lia|by rewrite Z.shiftl_mul_pow2 by lia|lia]. }
  exists e'. split; [lia|]. split; [lia|]. fold k.
  change (IntDef.Z.div_eucl (Zpos ma * 2 ^ k) (Zpos mb)) with (Z.div_eucl (Zpos ma * 2 ^ k) (Zpos mb)).
  assert (Z.div_eucl (Zpos ma * 2 ^ k) (Zpos mb) = (Zpos ma * 2 ^ k / Zpos mb, (Zpos ma * 2 ^ k) mod Zpos mb)) as ->.
  { unfold Z.div, Z.modulo. by destruct (Z.div_eucl _ _). }
  assert (0 <= k) as Hk by lia. pose proof (pow2_pos k Hk) as HK. set (n := Zpos ma * 2 ^ k) in *.
  apply aux_rounds; [lia|lia|apply new_location_rec; lia|]. rewrite fexp_64.
  assert (da + k - db <= Zdigits2 (n / Zpos mb)); [|lia].
  destruct (digits_bounds (Zpos ma) ltac:(lia)) as (_ & _ & Hla). specialize (Hla ltac:(lia)). destruct (digits_bounds (Zpos mb) ltac:(lia)) as (H0b & Hub & _).
  fold da in Hla. fold db in H0b, Hub. destruct (Z.le_gt_cases (da + k - db) 0).
  { destruct (digits_bounds (n / Zpos mb)); [apply Z.div_pos; lia|lia]. }
  assert (2 ^ (da + k - db - 1) <= n / Zpos mb) as Hq.
  { apply Z.div_le_lower_bound; [lia|]. subst n. assert (2 ^ (da + k - db - 1) * 2 ^ db = 2 ^ (da - 1) * 2 ^ k) as Hp.
    { pose proof (digits_log2 (Zpos ma) ltac:(lia)). pose proof (Z.log2_nonneg (Zpos ma)). rewrite <- !Z.pow_add_r by lia. f_equal. lia. }
    pose proof (pow2_pos (da + k - db - 1) ltac:(lia)). nia. }
  destruct (digits_bounds (n / Zpos mb)) as (_ & Hup & _); [apply Z.div_pos; lia|].
  destruct (Z.le_gt_cases (da + k - db) (Zdigits2 (n / Zpos mb))); [done|].
  pose proof (Z.pow_le_mono_r 2 (Zdigits2 (n / Zpos mb)) (da + k - db - 1) ltac:(lia) ltac:(lia)). lia.
Qed.
Lemma div_iter n d k : 0 <= n < 2 * d → 0 < d < 2 ^ 53 → (k <= 55)%nat → ∃ q r, Nat.iter k (div_step d) (0, n) = (q, r) ∧
  n * 2 ^ Z.of_nat k = q * (2 * d) + r ∧ 0 <= r < 2 * d ∧ 0 <= q ∧ (k = 0%nat ∨ Z.even r = true).
Proof.
  intros Hn Hd. induction k as [|k IH]; intros Hk.
  - exists 0, n. rewrite Z.mul_1_r. split_and!; try done; try lia.
  - destruct IH as (q & r & Hi & He & Hr & Hq & _); [lia|]. change (Nat.iter (S k) (div_step d) (0, n)) with (div_step d (Nat.iter k (div_step d) (0, n))). rewrite Hi. unfold div_step.
    assert (q < 2 ^ 55) as Hqb.
    { assert (2 ^ Z.of_nat k <= 2 ^ 54) by (apply Z.pow_le_mono_r; lia). nia. }
    rewrite (shl64_small q) by lia. rewrite Nat2Z.inj_succ, Z.pow_succ_r by lia. change (2 ^ 1) with 2.
    destruct (Z.leb_spec d r).
    + rewrite (shl64_small (r - d)) by lia. rewrite lor_1 by lia. rewrite Z.div_mul by lia. exists (2 * q + 1), ((r - d) * 2). split_and!; try done; try lia.
      right. rewrite Z.even_mul. by rewrite orb_true_r.
    + rewrite shl64_small by lia. exists (q * 2), (r * 2). split_and!; try done; try lia. right. rewrite Z.even_mul. by rewrite orb_true_r.
Qed.
(** the quotient bits of the long division, with the remainder *)
Lemma div_sticky n d : d <= n < 2 * d → 2 ^ 52 <= d < 2 ^ 53 → let '(q, r) := Nat.iter 55 (div_step d) (0, n) in
  sticky 8 (Z.lor (shl64 q 8) (if r =? 0 then 0 else 1)) (n * 2 ^ 62) d ∧ 2 ^ 62 <= Z.lor (shl64 q 8) (if r =? 0 then 0 else 1) < 2 ^ 63.
Proof.
  intros Hn Hd. destruct (div_iter n d 55 ltac:(lia) ltac:(lia) ltac:(lia)) as (q & r & -> & He & Hr & Hq & [?|Hev]); [done|]. change (Z.of_nat 55) with 55 in He.
  assert (2 ^ 54 <= q < 2 ^ 55) as Hqb by nia. rewrite shl64_small by lia.
  assert (Z.lor (q * 2 ^ 8) (if r =? 0 then 0 else 1) = q * 2 ^ 8 + (if r =? 0 then 0 else 1)) as ->.
  { rewrite Z.lor_comm, <- (Z.shiftl_mul_pow2 q 8) by lia. rewrite (lor_shiftl 8); [rewrite Z.shiftl_mul_pow2 by lia; lia|lia|destruct (r =? 0); lia]. }
  set (st := if r =? 0 then 0 else 1). assert (0 <= st <= 1 ∧ (st = 0 ↔ r = 0)) as [Hst Hstr] by (subst st; destruct (Z.eqb_spec r 0); lia).
  apply Z.even_spec in Hev as [h ->]. split; [|lia]. split_and!; try lia.
  - rewrite <- (Z.div_unique (q * 2 ^ 8 + st) (2 ^ 8) q st) by lia. apply Z.div_unique with (h * 2 ^ 8); lia.
  - rewrite <- (Z.mod_unique (q * 2 ^ 8 + st) (2 ^ 8) q st) by lia. rewrite <- (Z.mod_unique (n * 2 ^ 62) (d * 2 ^ 8) q (h * 2 ^ 8)) by lia. lia.
Qed.
(** Division is that of binary64. *)
Lemma div_ieee a b (Ha : is_bits a) (Hb : is_bits b) : decode (div a b) = fdiv (decode a) (decode b).
Proof.
  unfold div, fdiv. rewrite sign_lxor. cbv zeta.
  destruct (is_nan a) eqn:Na.
  { assert (decode a = S754_nan) as ->; [|done]. unfold is_nan in Na. apply andb_true_iff in Na as [Ea Fa]. unfold decode. by rewrite Ea, (proj1 (negb_true_iff _) Fa). }
  destruct (is_nan b) eqn:Nb.
  { assert (decode b = S754_nan) as ->; [|by destruct (decode a)]. unfold is_nan in Nb. apply andb_true_iff in Nb as [Eb Fb]. unfold decode. by rewrite Eb, (proj1 (negb_true_iff _) Fb). }
  cbn [orb].
  assert (∀ x, is_bits x → is_nan x = false → exp_of x = 0x7ff → decode x = S754_infinity (sign_of x)) as Hinf.
  { intros x Hx Nx Ex. rewrite is_nan_special in Nx by done. apply negb_false_iff in Nx. by rewrite decode_special, Nx. }
  destruct (Z.eqb_spec (exp_of a) 0x7ff) as [Ea|Ea], (Z.eqb_spec (exp_of b) 0x7ff) as [Eb|Eb].
  - rewrite (Hinf a), (Hinf b) by done. by destruct (unpack a), (unpack b).
  - rewrite (Hinf a) by done. destruct (unpack a) as [xa Ma]. destruct (unpack_spec b Hb Eb) as [(_ & _ & -> & ->)|(m & e & i & _ & -> & -> & _)]; exact (decode_signed_inf _).
  - rewrite (Hinf b) by done. destruct (unpack b) as [xb Mb]. destruct (unpack_spec a Ha Ea) as [(_ & _ & -> & ->)|(m & e & i & _ & -> & -> & _)]; exact (decode_signed_zero _).
  - destruct (unpack_spec a Ha Ea) as [(_ & _ & -> & ->)|(ma & ea & ia & _ & -> & -> & Hia & Hra & Hea & Hma & Hca)];
      destruct (unpack_spec b Hb Eb) as [(_ & _ & -> & ->)|(mb & eb & ib & _ & -> & -> & Hib & Hrb & Heb & Hmb & Hcb)]; cbn [andb]; cbv iota beta;
      rewrite ?Z.eqb_refl, ?(proj2 (Z.eqb_neq (_ * _) 0)) by lia; cbv iota; [done|exact (decode_signed_zero _)|exact (decode_signed_inf _)|].
    pose proof (pow2_pos ia ltac:(lia)) as HIa. pose proof (pow2_pos ib ltac:(lia)) as HIb.
    rewrite (Z.add_comm 10 ia), (Z.add_comm 10 ib), !pow2_split, !Z.mul_assoc in * by lia. rewrite !Z.shiftr_div_pow2, !Z.div_mul by lia.
    set (n := Zpos ma * 2 ^ ia) in *. set (d := Zpos mb * 2 ^ ib) in *. set (s := xorb (sign_of a) (sign_of b)).
    assert (∃ j n', 0 <= j <= 1 ∧ n' = n * 2 ^ j ∧ d <= n' < 2 * d ∧
      (if n <? d then (ea + 1075 - ia - (eb + 1075 - ib) + 0x3ff - 1, shl64 n 1) else (ea + 1075 - ia - (eb + 1075 - ib) + 0x3ff, n)) = (ea + 1075 - ia - (eb + 1075 - ib) + 0x3ff - j, n'))
      as (j & n' & Hj & Hn' & Hnd & ->).
    { destruct (Z.ltb_spec n d); [exists 1, (n * 2)|exists 0, n]; change (2 ^ 1) with 2; change (2 ^ 0) with 1; split_and!; try lia; f_equal; try lia. apply shl64_small; lia. }
    pose proof (div_sticky n' d Hnd ltac:(lia)) as Hs. destruct (Nat.iter 55 (div_step d) (0, n')) as [q r]. destruct Hs as [Hs Hsig].
    destruct (spec_div_rounds s ma mb ea eb) as (e' & He' & Hlow & Hr).
    eapply (rounds_unique _ _ _ _ _ _ _ _ _ (-10000)); [eapply round_pack_rounds; [exact Hs|lia|exact Hsig]|exact Hr|lia|lia|].
    rewrite Hn'. subst n d. set (y := ea - eb - ia - 62 - j + 10000).
    replace (ea + 1075 - ia - (eb + 1075 - ib) + 1023 - j - 1085 - -10000) with (y + ib) by lia.
    assert (2 ^ (ea - eb - e') * 2 ^ (e' - -10000) = 2 ^ y * 2 ^ ia * 2 ^ 62 * 2 ^ j) as HE by (rewrite <- !pow2_split by lia; f_equal; lia).
    transitivity (Zpos ma * (2 ^ (ea - eb - e') * 2 ^ (e' - -10000)) * (Zpos mb * 2 ^ ib)); [|ring]. rewrite HE, pow2_split by lia. ring.
Qed.
