(* ===== verification/SoftSqrt.v ===== *)
(** The square root of SoftDouble.v is that of binary64. *)
From Stdlib Require Import SpecFloat.
From S2P Require Import Prelude Cstd Fp64 Fp8 SoftDouble SoftRound SoftDoubleThm.
Open Scope Z_scope.

Definition fsqrt : f64 → f64 := SFsqrt prec64 emax64.

(** ** Digit by digit *)
(** after [k] digits of the root of [m * 2 ^ 10 * 2 ^ 64], whose bits enter two at a time *)
Definition top (m k : Z) : Z := m * 2 ^ 10 * 2 ^ (2 * k) / 2 ^ 64.
Definition rest (m k : Z) : Z := (m * 2 ^ 10 * 2 ^ (2 * k)) mod 2 ^ 64.
Lemma top_next m k : 0 <= k → 0 <= m → top m (k + 1) = 4 * top m k + rest m k / 2 ^ 62 ∧ rest m (k + 1) = (rest m k * 4) mod 2 ^ 64.
Proof.
  intros Hk Hm. unfold top, rest. replace (2 * (k + 1)) with (2 * k + 2) by lia. rewrite pow2_split, Z.mul_assoc by lia. change (2 ^ 2) with 4.
  set (X := m * 2 ^ 10 * 2 ^ (2 * k)). assert (0 <= X) by (pose proof (pow2_pos (2 * k) ltac:(lia)); subst X; nia).
  split; [|by rewrite Z.mul_mod_idemp_l by lia]. Z.div_mod_to_equations. lia.
Qed.
Definition digits_inv (m k : Z) (st : Sqrt) : Prop :=
  nhi st = rest m k ∧ nlo st = 0 ∧ remhi st = 0 ∧ remlo st = top m k - root st * root st ∧ 0 <= root st < 2 ^ k ∧ 0 <= remlo st <= 2 * root st.
Lemma sqrt_step_inv m k st : 0 <= m < 2 ^ 54 → 0 <= k < 54 → digits_inv m k st → digits_inv m (k + 1) (sqrt_step st).
Proof.
  intros Hm Hk (Hn & Hl & Hh & Hr & Hroot & Hrem). destruct (top_next m k ltac:(lia) ltac:(lia)) as [Ht Hrest].
  assert (0 <= rest m k < 2 ^ 64) as Hrb by (apply Z.mod_pos_bound; lia).
  pose proof (Z.div_pos (rest m k) (2 ^ 62) ltac:(lia) ltac:(lia)). pose proof (Z.div_lt_upper_bound (rest m k) (2 ^ 62) 4 ltac:(lia) ltac:(lia)).
  assert (2 ^ k <= 2 ^ 53) as Hk53 by (apply Z.pow_le_mono_r; lia). assert (2 ^ (k + 1) = 2 * 2 ^ k) as Hkp by (rewrite pow2_split by lia; change (2 ^ 1) with 2; lia).
  unfold sqrt_step. rewrite Hn, Hl, Hh. set (q := rest m k / 2 ^ 62) in *. set (rt := root st) in *. set (rm := remlo st) in *.
  assert (Z.lor (shl64 0 2) (Z.shiftr rm 62) = 0) as -> by (rewrite Z.shiftr_div_pow2, Z.div_small by lia; done).
  assert (Z.lor (shl64 rm 2) (Z.shiftr (rest m k) 62) = 4 * rm + q) as ->.
  { rewrite (shl64_small rm) by lia. rewrite Z.shiftr_div_pow2 by lia. fold q. rewrite Z.lor_comm, <- (Z.shiftl_mul_pow2 rm 2), (lor_shiftl 2) by lia. lia. }
  assert (Z.lor (shl64 (rest m k) 2) (Z.shiftr 0 62) = rest m (k + 1)) as ->.
  { change (Z.shiftr 0 62) with 0. rewrite Z.lor_0_r, Hrest. unfold shl64, u64. by rewrite Z.shiftl_mul_pow2 by lia. }
  assert (Z.shiftr rt 62 = 0) as -> by (rewrite Z.shiftr_div_pow2 by lia; apply Z.div_small; lia).
  assert (Z.lor (shl64 rt 2) 1 = 4 * rt + 1) as ->.
  { rewrite (shl64_small rt) by lia. rewrite Z.lor_comm, <- (Z.shiftl_mul_pow2 rt 2), (lor_shiftl 2) by lia. lia. }
  rewrite (shl64_small rt) by lia. change (2 ^ 1) with 2. change (shl64 0 2) with 0. rewrite Z.eqb_refl, Z.ltb_irrefl. cbn [orb andb].
  destruct (Z.leb_spec (4 * rt + 1) (4 * rm + q)).
  - rewrite (proj2 (Z.ltb_ge (4 * rm + q) _)) by lia. rewrite lor_1, Z.div_mul by lia. rewrite (u64_small (4 * rm + q - _)) by (split; lia).
    unfold digits_inv. cbn [nhi nlo root remhi remlo]. split_and!; try done; try lia.
  - unfold digits_inv. cbn [nhi nlo root remhi remlo]. split_and!; try done; try lia.
Qed.
Lemma sqrt_digits m k : 0 <= m < 2 ^ 54 → (k <= 54)%nat → digits_inv m (Z.of_nat k) (Nat.iter k sqrt_step (mkSqrt (shl64 m 10) 0 0 0 0)).
Proof.
  intros Hm. induction k as [|k IH]; intros Hk.
  - unfold digits_inv, top, rest. cbn [Nat.iter nat_rect nhi nlo root remhi remlo]. change (2 ^ (2 * Z.of_nat 0)) with 1. rewrite shl64_small, Z.mul_1_r by lia.
    rewrite Z.div_small, Z.mod_small by lia. cbn. split_and!; lia.
  - rewrite Nat2Z.inj_succ. apply sqrt_step_inv; [done|lia|]. apply IH. lia.
Qed.
(** the bits that are rounded *)
Lemma sqrt_sig m : 2 ^ 52 <= m < 2 ^ 54 → let st := Nat.iter 54 sqrt_step (mkSqrt (shl64 m 10) 0 0 0 0) in
  let r := Z.sqrt (m * 2 ^ 54) in
  Z.lor (shl64 (root st) 9) (if Z.lor (remhi st) (remlo st) =? 0 then 0 else 1) = r * 2 ^ 9 + (if m * 2 ^ 54 =? r * r then 0 else 1) ∧ 2 ^ 53 <= r < 2 ^ 54.
Proof.
  intros Hm. cbv zeta. destruct (sqrt_digits m 54 ltac:(lia) ltac:(lia)) as (_ & _ & Hh & Hr & Hroot & Hrem). set (st := Nat.iter 54 _ _) in *. clearbody st.
  assert (top m (Z.of_nat 54) = m * 2 ^ 54) as Ht.
  { unfold top. change (2 ^ (2 * Z.of_nat 54)) with (2 ^ 108). replace (m * 2 ^ 10 * 2 ^ 108) with (m * 2 ^ 54 * 2 ^ 64) by lia. apply Z.div_mul. lia. }
  rewrite Ht in Hr. assert (Z.sqrt (m * 2 ^ 54) = root st) as -> by (apply Z.sqrt_unique; lia). rewrite Hh, Z.lor_0_l.
  assert (2 ^ 53 <= root st < 2 ^ 54) as Hb by nia. split; [|done]. rewrite shl64_small by lia.
  assert ((remlo st =? 0) = (m * 2 ^ 54 =? root st * root st)) as ->.
  { destruct (Z.eqb_spec (remlo st) 0), (Z.eqb_spec (m * 2 ^ 54) (root st * root st)); done || lia. }
  rewrite Z.lor_comm, <- (Z.shiftl_mul_pow2 (root st) 9) by lia. rewrite (lor_shiftl 9); [rewrite Z.shiftl_mul_pow2 by lia; lia|lia|destruct (_ =? _); lia].
Qed.

(** ** The root as a rational: a quarter stands for what is below the bits *)
Definition quarters (M : Z) : Z :=
  let q := Z.sqrt M in 4 * q + (if M =? q * q then 0 else if M - q * q <=? q then 1 else 3).
Definition root_loc (M : Z) : location :=
  let q := Z.sqrt M in if M - q * q =? 0 then loc_Exact else loc_Inexact (if M - q * q <=? q then Lt else Gt).
Lemma quarters_div M : 0 <= M → quarters M / 4 = Z.sqrt M.
Proof.
  intros HM. unfold quarters. cbv zeta. symmetry. apply Z.div_unique with (if M =? Z.sqrt M * Z.sqrt M then 0 else if M - Z.sqrt M * Z.sqrt M <=? Z.sqrt M then 1 else 3); [|done].
  repeat case_match; lia.
Qed.
Lemma quarters_loc M : 0 <= M → shr_record_of_loc (quarters M / 4) (root_loc M) = rec (quarters M) 4.
Proof.
  intros HM. unfold rec. rewrite quarters_div by done. unfold quarters, root_loc. cbv zeta. set (q := Z.sqrt M).
  assert (∀ c, 0 <= c < 4 → (4 * q + c) mod 4 = c) as Hm by (intros c Hc; symmetry; apply Z.mod_unique with q; lia).
  destruct (Z.eqb_spec M (q * q)), (Z.eqb_spec (M - q * q) 0); try lia; [by rewrite Hm|].
  destruct (M - q * q <=? q); by rewrite Hm.
Qed.
(** the 54 bits with the remainder, against the root of a quarter of the radicand *)
Lemma quarters_sticky M : 0 <= M → let r := Z.sqrt (4 * M) in
  sticky 9 (r * 2 ^ 9 + (if 4 * M =? r * r then 0 else 1)) (quarters M * 2 ^ 10) 4.
Proof.
  intros HM. cbv zeta. pose proof (Z.sqrt_spec M HM) as Hq. cbv zeta in Hq. set (q := Z.sqrt M) in *. pose proof (Z.sqrt_nonneg M : 0 <= q) as Hq0.
  assert (∃ b c, 0 <= b <= 1 ∧ Z.sqrt (4 * M) = 2 * q + b ∧ quarters M = 4 * q + c ∧ c / 2 = b ∧ 0 <= c < 4 ∧ (c mod 2 = 0 ↔ 4 * M = (2 * q + b) * (2 * q + b))) as (b & c & Hb & -> & -> & Hcb & Hc & Hex).
  { unfold quarters. cbv zeta. fold q. destruct (Z.eqb_spec M (q * q)) as [E|E]; [|destruct (Z.leb_spec (M - q * q) q)].
    - exists 0, 0. split_and!; try lia; try done; [apply Z.sqrt_unique; lia|split; [lia|done]].
    - exists 0, 1. split_and!; try lia; try done; [apply Z.sqrt_unique; lia|split; [done|lia]].
    - exists 1, 3. split_and!; try lia; try done; [apply Z.sqrt_unique; lia|split; [done|lia]]. }
  set (st := if _ =? _ then 0 else 1). assert (0 <= st <= 1 ∧ (st = 0 ↔ c mod 2 = 0)) as [Hst Hs].
  { subst st. destruct (Z.eqb_spec (4 * M) ((2 * q + b) * (2 * q + b))); lia. }
  pose proof (Z.div_mod c 2 ltac:(lia)) as Hc2. rewrite Hcb in Hc2. pose proof (Z.mod_pos_bound c 2 ltac:(lia)).
  split_and!; try lia.
  - rewrite <- (Z.div_unique _ (2 ^ 9) (2 * q + b) st) by lia. apply Z.div_unique with (c mod 2 * 2 ^ 10); lia.
  - rewrite <- (Z.mod_unique _ (2 ^ 9) (2 * q + b) st) by lia. rewrite <- (Z.mod_unique _ (4 * 2 ^ 9) (2 * q + b) (c mod 2 * 2 ^ 10)) by lia. lia.
Qed.

(** ** [SpecFloat]'s root *)
Lemma spec_sqrt_rounds (m : positive) e i : 2 ^ 52 <= Zpos m * 2 ^ i < 2 ^ 53 → 0 <= i <= 52 → -1074 <= e <= 971 →
  let h := Z.div2 (e - i) in
  let M := Zpos m * 2 ^ i * 2 ^ (e - i - 2 * h) * 2 ^ 52 in
  rounds false (quarters M) 4 (h - 26) (let '(mz, ez, lz) := SFsqrt_core_binary prec64 emax64 (Zpos m) e in binary_round_aux prec64 emax64 false mz ez lz).
Proof.
  intros Hm Hi He. cbv zeta. unfold SFsqrt_core_binary. rewrite fexp_64.
  assert (Zdigits2 (Zpos m) = 53 - i) as ->.
  { pose proof (digits_shift (Zpos m) i ltac:(lia) ltac:(lia)) as Hd. assert (Zdigits2 (Zpos m * 2 ^ i) = 53); [|lia].
    rewrite digits_log2 by lia. rewrite (Z.log2_unique _ 52) by lia. done. }
  set (h := Z.div2 (e - i)). set (p := e - i - 2 * h). 
  assert (0 <= p <= 1) as Hp by (unfold p, h; rewrite Z.div2_div; Z.div_mod_to_equations; lia).
  change IntDef.Z.div2 with Z.div2. change IntDef.Z.sqrtrem with Z.sqrtrem.
  assert (Z.min (Z.max (Z.div2 (53 - i + e + 1) - 53) (-1074)) (Z.div2 e) = h - 26) as ->.
  { unfold p, h in *. rewrite !Z.div2_div in *. Z.div_mod_to_equations. lia. }
  replace (e - 2 * (h - 26)) with (i + p + 52) by lia. destruct (i + p + 52) as [|k|k] eqn:Ek; [lia| |lia].
  rewrite Z.shiftl_mul_pow2 by lia. rewrite <- Ek, !pow2_split, !Z.mul_assoc by lia. set (M := Zpos m * 2 ^ i * 2 ^ p * 2 ^ 52).
  pose proof (pow2_pos p ltac:(lia)). assert (2 ^ p <= 2 ^ 1) as Hp1 by (apply Z.pow_le_mono_r; lia). change (2 ^ 1) with 2 in Hp1.
  assert (2 ^ 104 <= M < 2 ^ 106) as HM by (subst M; nia).
  destruct (Z.sqrtrem M) as [q r] eqn:Esq. pose proof (Z.sqrtrem_spec M ltac:(lia)) as Hspec. rewrite Esq in Hspec. destruct Hspec as [Hqr Hr].
  assert (Z.sqrt M = q) as Hq by (apply Z.sqrt_unique; lia). pose proof (Z.sqrt_nonneg M) as Hq0. rewrite Hq in Hq0.
  assert (2 ^ 52 <= q < 2 ^ 53) as Hqb by nia.
  assert ((if r =? 0 then loc_Exact else loc_Inexact (if r <=? q then Lt else Gt)) = root_loc M) as Hloc.
  { unfold root_loc. cbv zeta. rewrite Hq. by replace (M - q * q) with r by lia. }
  pose proof (aux_rounds false (quarters M) 4 (h - 26) (root_loc M)) as Haux. rewrite (quarters_div M), Hq, <- Hloc in Haux by lia.
  apply Haux; [unfold quarters; cbv zeta; rewrite Hq; repeat case_match; lia|lia| |].
  - rewrite Hloc, <- Hq, <- (quarters_div M) by lia. apply quarters_loc. lia.
  - rewrite fexp_64, digits_log2, (Z.log2_unique q 52) by lia. lia.
Qed.
(** The square root is that of binary64. *)
Lemma sqrt_ieee a (Ha : is_bits a) : decode (sqrt_ a) = fsqrt (decode a).
Proof.
  unfold sqrt_, fsqrt. destruct (Z.eqb_spec (exp_of a) 0x7ff) as [Ea|Ea].
  - rewrite is_nan_special by done. destruct (frac_of a =? 0) eqn:Fa; cbn [negb].
    + pose proof (decode_special a Ha Ea) as Hd. rewrite Fa in Hd. apply Z.eqb_eq in Fa. unfold unpack. rewrite Ea, Fa.
      change (0x7ff =? 0) with false. cbv iota beta zeta. change (shl64 (Z.lor 0 0x10000000000000) 10 =? 0) with false. change (0x7ff =? 0x7ff) with true. cbv iota.
      rewrite Hd. destruct (sign_of a); [done|exact Hd].
    + rewrite (decode_special a), Fa by done. done.
  - rewrite is_nan_exp by done. destruct (unpack_spec a Ha Ea) as [(_ & _ & -> & Hd)|(m & e & i & _ & Hd & -> & Hi & Hr & He & Hm & _)].
    { cbv iota beta. rewrite Z.eqb_refl, Hd. by destruct (sign_of a). }
    cbv iota beta zeta. pose proof (pow2_pos i ltac:(lia)). rewrite (Z.add_comm 10 i), pow2_split, Z.mul_assoc in * by lia. rewrite (proj2 (Z.eqb_neq (_ * 2 ^ 10) 0)) by lia. rewrite Hd.
    destruct (sign_of a); [done|]. rewrite (proj2 (Z.eqb_neq (e + 1075 - i) _)) by lia. rewrite Z.shiftr_div_pow2, Z.div_mul by lia.
    set (x := e + 1075 - i - 1023). set (h := Z.div2 (e - i)). set (p := e - i - 2 * h).
    assert (0 <= p <= 1) as Hp by (unfold p, h; rewrite Z.div2_div; Z.div_mod_to_equations; lia).
    assert ((if Z.land x 1 =? 0 then (x, Zpos m * 2 ^ i) else (x - 1, shl64 (Zpos m * 2 ^ i) 1)) = (2 * (h + 26), Zpos m * 2 ^ i * 2 ^ p)) as ->.
    { rewrite (land_ones' x 1) by (done || lia). change (2 ^ 1) with 2. assert (x = 2 * (h + 26) + p) as -> by (unfold x, p; lia).
      assert ((2 * (h + 26) + p) mod 2 = p) as -> by (symmetry; apply Z.mod_unique with (h + 26); lia).
      destruct (Z.eqb_spec p 0) as [->|]; [f_equal; lia|]. assert (p = 1) as -> by lia. rewrite shl64_small by lia. f_equal; lia. }
    cbv iota beta. set (mm := Zpos m * 2 ^ i * 2 ^ p). assert (2 ^ 52 <= mm < 2 ^ 54) as Hmm.
    { assert (p = 0 ∨ p = 1) as [E|E] by lia; subst mm; rewrite E; [change (2 ^ 0) with 1|change (2 ^ 1) with 2]; lia. }
    destruct (sqrt_sig mm Hmm) as [-> Hroot]. rewrite Z.shiftr_div_pow2 by lia. change (2 ^ 1) with 2. rewrite (Z.mul_comm 2), Z.div_mul by lia.
    pose proof (spec_sqrt_rounds m e i ltac:(lia) Hi He) as Hspec. cbv zeta in Hspec. fold h p in Hspec. fold mm in Hspec. set (M := mm * 2 ^ 52) in *.
    replace (mm * 2 ^ 54) with (4 * M) in * by lia. pose proof (quarters_sticky M ltac:(lia)) as Hst. cbv zeta in Hst.
    eapply (rounds_unique _ _ _ _ _ _ _ _ _ (-10000)); [eapply round_pack_rounds; [exact Hst|lia|]|exact Hspec|lia|lia|].
    + destruct (4 * M =? _); lia.
    + replace (h + 26 + 1023 - 1085 - -10000) with (h + 9964) by lia. replace (h - 26 - -10000) with (h + 9964 + 10) by lia.
      rewrite (pow2_split (h + 9964)) by lia. ring.
Qed.
