(* ===== verification/SoftConv.v ===== *)
(** The comparisons and the integer conversions of SoftDouble.v are those of binary64. *)
From Stdlib Require Import SpecFloat.
From S2P Require Import Prelude Cstd Fp64 Fp8 SoftDouble SoftRound SoftDoubleThm.
Open Scope Z_scope.

(** ** The order *)
(** the magnitude bits with the sign: the order of the values that are not NaN *)
Definition ranked (b : Z) : Z := let c := exp_of b * 2 ^ 52 + frac_of b in if sign_of b then - c else c.
Definition mag_compare (x y : spec_float) : comparison := default Eq (SFcompare x y).
(** a finite value with its code *)
Definition coded (m e c : Z) : Prop := c = (e + 1074) * 2 ^ 52 + m ∧ 0 < m < 2 ^ 53 ∧ -1074 <= e <= 971 ∧ (e = -1074 ∨ 2 ^ 52 <= m).
Lemma decode_cases b : is_bits b → is_nan b = false → let c := exp_of b * 2 ^ 52 + frac_of b in
  (decode b = S754_infinity (sign_of b) ∧ c = INF) ∨ (decode b = S754_zero (sign_of b) ∧ c = 0) ∨
  (∃ m e, decode b = S754_finite (sign_of b) m e ∧ coded (Zpos m) e c).
Proof.
  intros Hb Hn. cbv zeta. destruct (unpacked b Hb) as (_ & He & Hf). unfold decode, is_nan in *.
  set (f := frac_of b) in *. set (e := exp_of b) in *. clearbody e f.
  destruct (Z.eqb_spec e 0x7ff) as [Ee|Ee].
  - cbn [andb] in Hn. apply negb_false_iff in Hn. rewrite Hn. apply Z.eqb_eq in Hn. left. split; [done|]. rewrite Ee, Hn. done.
  - destruct (Z.eqb_spec e 0) as [E0|E0]; [destruct (Z.eqb_spec f 0) as [F0|F0]|].
    + right. left. split; [done|]. lia.
    + right. right. exists (Z.to_pos f), (-1074). split; [done|]. unfold coded. rewrite Z2Pos.id by lia. lia.
    + right. right. exists (Z.to_pos (f + 2 ^ 52)), (e - 1075). split; [done|]. unfold coded. rewrite Z2Pos.id by lia. lia.
Qed.
Lemma coded_compare m1 e1 c1 m2 e2 c2 : coded m1 e1 c1 → coded m2 e2 c2 → (c1 ?= c2) = match e1 ?= e2 with Lt => Lt | Gt => Gt | Eq => m1 ?= m2 end.
Proof.
  intros (-> & Hm1 & He1 & H1) (-> & Hm2 & He2 & H2). destruct (Z.compare_spec e1 e2) as [->|Hlt|Hgt].
  - destruct (Z.compare_spec m1 m2) as [->|?|?]; [apply Z.compare_refl|apply Z.compare_lt_iff; lia|apply Z.compare_gt_iff; lia].
  - apply Z.compare_lt_iff. lia.
  - apply Z.compare_gt_iff. lia.
Qed.
Lemma compare_ranked a b : is_bits a → is_bits b → is_nan a = false → is_nan b = false →
  SFcompare (decode a) (decode b) = Some (ranked a ?= ranked b).
Proof.
  intros Ha Hb Na Nb. unfold ranked. cbv zeta. pose proof (decode_cases a Ha Na) as Da. pose proof (decode_cases b Hb Nb) as Db. cbv zeta in Da, Db.
  set (ca := exp_of a * 2 ^ 52 + frac_of a) in *. set (cb := exp_of b * 2 ^ 52 + frac_of b) in *. clearbody ca cb.
  assert (∀ m e c, coded m e c → 0 < c < INF) as Hrange by (intros m e c (-> & ? & ? & ?); unfold INF; lia).
  assert (∀ x y, (- x ?= - y) = (y ?= x)) as Hopp by (intros; apply Z.compare_opp).
  assert (∀ x y, x < y → (x ?= y) = Lt) as Hlt by (intros; by apply Z.compare_lt_iff).
  assert (∀ x y, y < x → (x ?= y) = Gt) as Hgt by (intros; by apply Z.compare_gt_iff).
  destruct Da as [[-> Ea]|[[-> Ea]|(ma & ea & -> & Ca)]], Db as [[-> Eb]|[[-> Eb]|(mb & eb & -> & Cb)]];
    try (specialize (Hrange _ _ _ Ca) as Ra); try (specialize (Hrange _ _ _ Cb) as Rb); rewrite ?Ea, ?Eb; unfold INF in *;
    try (destruct (sign_of a), (sign_of b); cbn [SFcompare]; f_equal; symmetry; first [reflexivity|apply Hlt; lia|apply Hgt; lia]).
  pose proof (coded_compare _ _ _ _ _ _ Ca Cb) as Hc.
  destruct (sign_of a), (sign_of b); cbn [SFcompare]; f_equal; symmetry; first [apply Hlt; lia|apply Hgt; lia|idtac].
  - rewrite Hopp, Z.compare_antisym, Hc. by destruct (ea ?= eb).
  - exact Hc.
Qed.
Lemma decode_nan b : is_nan b = true → decode b = S754_nan.
Proof. intros Hn. unfold is_nan in Hn. apply andb_true_iff in Hn as [He Hf]. unfold decode. by rewrite He, (proj1 (negb_true_iff _) Hf). Qed.
Lemma zero_bits a b : is_bits a → is_bits b → (Z.ldiff (Z.lor a b) SIGN =? 0) = (exp_of a * 2 ^ 52 + frac_of a =? 0) && (exp_of b * 2 ^ 52 + frac_of b =? 0).
Proof.
  assert (∀ x, is_bits x → Z.ldiff x SIGN = exp_of x * 2 ^ 52 + frac_of x) as Hx.
  { intros x Hx. destruct (unpacked x Hx) as (Hu & He & Hf). set (c := exp_of x * 2 ^ 52 + frac_of x) in *. assert (0 <= c < 2 ^ 63) as Hc by lia.
    rewrite Hu, <- lor_signed by done. apply Z.bits_inj'. intros k Hk. rewrite Z.ldiff_spec, Z.lor_spec.
    assert (Z.testbit SIGN k = (k =? 63)) as ->. { unfold SIGN. change 0x8000000000000000 with (2 ^ 63). rewrite Z.pow2_bits_eqb by lia. apply Z.eqb_sym. }
    destruct (Z.eqb_spec k 63) as [->|Hne].
    - rewrite andb_false_r. symmetry. rewrite testbit_top by lia. apply Z.leb_gt. lia.
    - rewrite andb_true_r. assert (Z.testbit (signed (sign_of x)) k = false) as ->; [|done].
      destruct (sign_of x); [|apply Z.bits_0]. unfold signed, SIGN. change 0x8000000000000000 with (2 ^ 63). by apply Z.pow2_bits_false; lia. }
  intros Ha Hb. rewrite <- (Hx a Ha), <- (Hx b Hb). assert (Z.ldiff (Z.lor a b) SIGN = Z.lor (Z.ldiff a SIGN) (Z.ldiff b SIGN)) as ->.
  { apply Z.bits_inj'. intros k Hk. rewrite Z.lor_spec, !Z.ldiff_spec, Z.lor_spec. by destruct (Z.testbit a k), (Z.testbit b k), (Z.testbit SIGN k). }
  destruct (Z.eqb_spec (Z.ldiff a SIGN) 0) as [->|], (Z.eqb_spec (Z.ldiff b SIGN) 0) as [->|]; cbn [andb]; rewrite ?Z.lor_0_l, ?Z.lor_0_r;
    [done|by apply Z.eqb_neq|by apply Z.eqb_neq|apply Z.eqb_neq; rewrite Z.lor_eq_0_iff; tauto].
Qed.
(** The three comparisons are those of binary64. *)
Lemma comparisons_ieee a b (Ha : is_bits a) (Hb : is_bits b) :
  lt a b = flt (decode a) (decode b) ∧ le a b = fle (decode a) (decode b) ∧ eq a b = feq (decode a) (decode b).
Proof.
  unfold lt, le, eq, flt, fle, feq, SFltb, SFleb, SFeqb.
  destruct (is_nan a) eqn:Na; [rewrite (decode_nan a Na); done|].
  destruct (is_nan b) eqn:Nb; [rewrite (decode_nan b Nb); by destruct (decode a)|].
  cbn [orb]. rewrite compare_ranked by done. rewrite zero_bits by done. cbv zeta. unfold ranked. cbv zeta.
  destruct (unpacked a Ha) as (Hua & Hea & Hfa), (unpacked b Hb) as (Hub & Heb & Hfb). set (ca := exp_of a * 2 ^ 52 + frac_of a) in *. set (cb := exp_of b * 2 ^ 52 + frac_of b) in *.
  assert (0 <= ca < 2 ^ 63 ∧ 0 <= cb < 2 ^ 63) as [Hca Hcb] by lia. clearbody ca cb.
  destruct (sign_of a), (sign_of b); cbn [Bool.eqb negb andb orb]; rewrite Hua, Hub; unfold signed, SIGN;
    match goal with |- context [?x ?= ?y] => destruct (Z.compare_spec x y) end;
    split_and!; repeat match goal with |- context [?x =? ?y] => destruct (Z.eqb_spec x y) | |- context [?x <? ?y] => destruct (Z.ltb_spec x y) | |- context [?x <=? ?y] => destruct (Z.leb_spec x y) end; cbn; done || lia.
Qed.

(** ** From integers *)
Lemma from_u64_norm v : 0 < v < 2 ^ 64 → from_u64 v = norm_pack false 1085 v.
Proof.
  intros Hv. unfold from_u64, norm_pack. rewrite (proj2 (Z.eqb_neq v 0)) by lia. cbv zeta. set (s := clz v - 1). change (0x3ff + 62) with 1085.
  destruct (Z.ltb_spec 0 s), (Z.leb_spec 0 s), (Z.ltb_spec s 0); try lia; try done.
  assert (s = 0) as E by lia. rewrite E, Z.sub_0_r, shl64_small by lia. by rewrite Z.mul_1_r.
Qed.
Lemma norm_pack_gives s x : 0 < x < 2 ^ 64 → gives s (x * 2 ^ 10000) (decode (norm_pack s 1085 x)).
Proof.
  intros Hx. destruct (norm_pack_exact s 1085 x Hx) as (k & Hk & Hr). do 3 eexists. split; [exact Hr|]. split; [lia|].
  rewrite <- !Z.mul_assoc, <- pow2_split by lia. f_equal. replace (k + (1085 - k - 1084 + 10000)) with (10000 + 1) by lia. rewrite pow2_split by lia. reflexivity.
Qed.
Lemma round_pack_sign e sig : Z.lor (round_pack false e sig) SIGN = round_pack true e sig.
Proof.
  unfold round_pack, signed. destruct (e <=? 0).
  all: match goal with |- context [if ?b then u64 ?r else ?r'] => set (q := if b then u64 r else r') end; cbv zeta; destruct (q =? 0); [done|].
  - rewrite Z.eqb_refl, Z.lor_0_l. apply Z.lor_comm.
  - destruct (e =? 0); [rewrite Z.lor_0_l; apply Z.lor_comm|]. destruct (2 ^ 53 <=? q); (destruct (0x7ff <=? _); [done|]); rewrite Z.lor_0_l, (Z.lor_comm _ SIGN), Z.lor_assoc; done.
Qed.
Lemma norm_pack_sign e sig : Z.lor (norm_pack false e sig) SIGN = norm_pack true e sig.
Proof. unfold norm_pack. cbv zeta. destruct (0 <? _); [|destruct (_ <? 0)]; apply round_pack_sign. Qed.
Lemma from_u64_ieee v : 0 <= v < 2 ^ 64 → decode (from_u64 v) = of_Z v.
Proof.
  intros Hv. destruct (Z.eq_dec v 0) as [->|Hne]; [done|]. rewrite from_u64_norm by lia. eapply gives_unique; [apply norm_pack_gives; lia|].
  apply (normalize_gives false v 0 false); lia.
Qed.
Lemma from_i64_ieee v : - 2 ^ 63 <= v < 2 ^ 63 → decode (from_i64 v) = of_Z v.
Proof.
  intros Hv. unfold from_i64. destruct (Z.ltb_spec v 0).
  - rewrite u64_small by (split; lia). rewrite from_u64_norm, norm_pack_sign by lia. eapply gives_unique; [apply norm_pack_gives; lia|].
    pose proof (normalize_gives true (- v) 0 false ltac:(lia) ltac:(lia)) as Hg. cbn [cond_Zopp] in Hg. by rewrite Z.opp_involutive in Hg.
  - rewrite u64_small by (split; lia). apply from_u64_ieee. lia.
Qed.

(** ** To integers *)
Definition clamp (lo hi x : Z) : Z := Z.max lo (Z.min hi x).
(** toward zero, to the nearest end outside the range, NaN to 0 *)
Definition int_of (lo hi : Z) (x : spec_float) : Z :=
  match x with
  | S754_nan | S754_zero _ => 0
  | S754_infinity s => if s then lo else hi
  | S754_finite s m e => let v := if 0 <=? e then Zpos m * 2 ^ e else Zpos m / 2 ^ (- e) in clamp lo hi (if s then - v else v)
  end.
(** the magnitude *)
Lemma whole_part b : is_bits b → exp_of b ≠ 0x7ff → ∃ v, 0 <= v ∧
  (∀ lo hi, lo <= 0 <= hi → int_of lo hi (decode b) = clamp lo hi (if sign_of b then - v else v)) ∧
  (exp_of b < 0x3ff → v = 0) ∧ (0x3ff <= exp_of b → 2 ^ (exp_of b - 0x3ff) <= v) ∧
  (0x3ff <= exp_of b < 0x3ff + 64 → let m := Z.lor (frac_of b) 0x10000000000000 in let sh := exp_of b - 0x3ff in
     v = (if 52 <=? sh then shl64 m (sh - 52) else Z.shiftr m (52 - sh)) ∧ v < 2 ^ (sh + 1)).
Proof.
  intros Hb He. destruct (unpacked b Hb) as (_ & Hexp & Hf). unfold decode. cbv zeta. rewrite (proj2 (Z.eqb_neq (exp_of b) 0x7ff)) by done.
  set (f := frac_of b) in *. set (e := exp_of b) in *. set (s := sign_of b). clearbody e f s.
  assert (∀ lo hi, lo <= 0 <= hi → 0 = clamp lo hi (if s then - 0 else 0)) as Hz by (intros; unfold clamp; destruct s; lia).
  destruct (Z.eqb_spec e 0) as [E0|E0].
  - exists 0. split_and!; try lia. intros lo hi Hlh. destruct (Z.eqb_spec f 0); cbn [int_of]; [by apply Hz|]. change (0 <=? -1074) with false. cbv iota zeta.
    rewrite Z2Pos.id, Z.div_small by (try (assert (2 ^ 52 <= 2 ^ (- -1074)) by (apply Z.pow_le_mono_r; lia)); lia). done.
  - assert (Z.lor f 0x10000000000000 = f + 2 ^ 52) as Hm by (change 0x10000000000000 with (Z.shiftl 1 52); rewrite lor_shiftl by lia; lia). rewrite Hm.
    exists (if 0 <=? e - 1075 then (f + 2 ^ 52) * 2 ^ (e - 1075) else (f + 2 ^ 52) / 2 ^ (- (e - 1075))).
    destruct (Z.leb_spec 0 (e - 1075)) as [Hpos|Hneg].
    + pose proof (pow2_pos (e - 1075) Hpos). split_and!.
      * nia.
      * intros lo hi Hlh. cbn [int_of]. rewrite Z2Pos.id by lia. by rewrite (proj2 (Z.leb_le 0 _)) by lia.
      * intros; lia.
      * intros _. replace (e - 0x3ff) with (52 + (e - 1075)) by lia. rewrite pow2_split by lia. nia.
      * intros Hsh. rewrite (proj2 (Z.leb_le 52 _)) by lia. replace (e - 0x3ff - 52) with (e - 1075) by lia. replace (e - 0x3ff + 1) with (53 + (e - 1075)) by lia.
        assert (2 ^ (e - 1075) <= 2 ^ 11) by (apply Z.pow_le_mono_r; lia). rewrite (pow2_split 53) by lia. split; [rewrite shl64_small by nia; done|nia].
    + pose proof (pow2_pos (- (e - 1075)) ltac:(lia)) as HP. split_and!.
      * apply Z.div_pos; lia.
      * intros lo hi Hlh. cbn [int_of]. rewrite Z2Pos.id by lia. by rewrite (proj2 (Z.leb_gt 0 _)) by lia.
      * intros Hlt. apply Z.div_small. assert (2 ^ 53 <= 2 ^ (- (e - 1075))) by (apply Z.pow_le_mono_r; lia). lia.
      * intros Hge. apply Z.div_le_lower_bound; [done|]. rewrite <- pow2_split by lia. replace (- (e - 1075) + (e - 0x3ff)) with 52 by lia. lia.
      * intros Hsh. rewrite (proj2 (Z.leb_gt 52 _)) by lia. rewrite Z.shiftr_div_pow2 by lia. replace (52 - (e - 0x3ff)) with (- (e - 1075)) by lia. split; [done|].
        apply Z.div_lt_upper_bound; [done|]. rewrite <- pow2_split by lia. replace (- (e - 1075) + (e - 0x3ff + 1)) with 53 by lia. lia.
Qed.
Lemma to_u64_ieee a : is_bits a → to_u64 a = int_of 0 (2 ^ 64 - 1) (decode a).
Proof.
  intros Ha. unfold to_u64. destruct (is_nan a) eqn:Na; [by rewrite decode_nan|]. cbn [orb]. destruct (Z.eq_dec (exp_of a) 0x7ff) as [Ea|Ea].
  { rewrite decode_special by done. rewrite is_nan_special in Na by done. apply negb_false_iff in Na. rewrite Na, Ea. by destruct (sign_of a). }
  destruct (whole_part a Ha Ea) as (v & Hv & -> & Hz & Hlo & Hsh); [|lia]. destruct (sign_of a); [unfold clamp; lia|]. cbv zeta in *.
  destruct (Z.ltb_spec (exp_of a) 0x3ff); [rewrite Hz by done; done|]. specialize (Hlo ltac:(lia)).
  destruct (Z.leb_spec 64 (exp_of a - 0x3ff)).
  - pose proof (Z.pow_le_mono_r 2 64 (exp_of a - 0x3ff) ltac:(lia) ltac:(lia)). unfold clamp. lia.
  - destruct (Hsh ltac:(lia)) as [<- Hup]. assert (2 ^ (exp_of a - 0x3ff + 1) <= 2 ^ 64) by (apply Z.pow_le_mono_r; lia). unfold clamp. lia.
Qed.
Lemma to_i64_ieee a : is_bits a → to_i64 a = int_of (- 2 ^ 63) (2 ^ 63 - 1) (decode a).
Proof.
  intros Ha. unfold to_i64. destruct (is_nan a) eqn:Na; [by rewrite decode_nan|]. destruct (Z.eq_dec (exp_of a) 0x7ff) as [Ea|Ea].
  { rewrite decode_special by done. rewrite is_nan_special in Na by done. apply negb_false_iff in Na. rewrite Na, Ea. by destruct (sign_of a). }
  destruct (whole_part a Ha Ea) as (v & Hv & -> & Hz & Hlo & Hsh); [|lia]. cbv zeta in *.
  destruct (Z.ltb_spec (exp_of a) 0x3ff); [rewrite Hz by done; by destruct (sign_of a)|]. specialize (Hlo ltac:(lia)).
  destruct (Z.leb_spec 63 (exp_of a - 0x3ff)).
  - pose proof (Z.pow_le_mono_r 2 63 (exp_of a - 0x3ff) ltac:(lia) ltac:(lia)). unfold clamp. destruct (sign_of a); lia.
  - destruct (Hsh ltac:(lia)) as [<- Hup]. assert (2 ^ (exp_of a - 0x3ff + 1) <= 2 ^ 63) by (apply Z.pow_le_mono_r; lia).
    assert (sext 64 v = v) as ->.
    { unfold sext. rewrite Z.mod_small by lia. cbv zeta. change (2 ^ (64 - 1)) with (2 ^ 63). by rewrite (proj2 (Z.ltb_lt _ _)) by lia. }
    unfold clamp. destruct (sign_of a); lia.
Qed.
Lemma clamp_again lo hi lo' hi' x : lo <= lo' <= 0 → 0 <= hi' <= hi → clamp lo' hi' (int_of lo hi x) = int_of lo' hi' x.
Proof. intros Hl Hh. unfold clamp, int_of. destruct x as [|[]| |s m e]; try lia. cbv zeta. unfold clamp. lia. Qed.
(** The conversions of integers are those of binary64; the conversions to integers cut toward zero, take the
    nearest end of the range outside it, and NaN to 0. *)
Lemma conversions_ieee :
  (∀ v, 0 <= v < 2 ^ 64 → decode (from_u64 v) = of_Z v) ∧
  (∀ v, - 2 ^ 63 <= v < 2 ^ 63 → decode (from_i64 v) = of_Z v) ∧
  (∀ a, is_bits a → to_u64 a = int_of 0 (2 ^ 64 - 1) (decode a) ∧ to_i64 a = int_of (- 2 ^ 63) (2 ^ 63 - 1) (decode a) ∧
     to_u32 a = int_of 0 (2 ^ 32 - 1) (decode a) ∧ to_i32 a = int_of (- 2 ^ 31) (2 ^ 31 - 1) (decode a)).
Proof.
  split_and!; [apply from_u64_ieee|apply from_i64_ieee|]. intros a Ha. split_and!; [by apply to_u64_ieee|by apply to_i64_ieee|..].
  - rewrite <- (clamp_again 0 (2 ^ 64 - 1)), <- to_u64_ieee by (done || lia). unfold to_u32, clamp. cbv zeta.
    assert (0 <= to_u64 a). { rewrite to_u64_ieee by done. unfold int_of, clamp. destruct (decode a) as [|[]| |]; cbv zeta; lia. }
    destruct (Z.ltb_spec 0xffffffff (to_u64 a)); lia.
  - rewrite <- (clamp_again (- 2 ^ 63) (2 ^ 63 - 1)), <- to_i64_ieee by (done || lia). unfold to_i32, clamp. cbv zeta.
    destruct (Z.ltb_spec 2147483647 (to_i64 a)); [lia|]. destruct (Z.ltb_spec (to_i64 a) (-2147483648)); lia.
Qed.
