(* ===== verification/SoftIeee.v ===== *)
(** The [double] of device code (SoftDouble.v) is IEEE binary64: arithmetic, comparisons and integer conversions. *)
From Stdlib Require Import SpecFloat.
From S2P Require Import Prelude Cstd Fp64 Fp8 SoftDouble SoftRound SoftDoubleThm SoftSqrt SoftConv.
Open Scope Z_scope.

(** ** The results are words *)
Lemma word_u64 x : is_bits (u64 x).
Proof. apply Z.mod_pos_bound. lia. Qed.
Lemma word_shl x n : is_bits (shl64 x n).
Proof. apply word_u64. Qed.
Lemma word_shr x n : 0 <= n → is_bits x → is_bits (Z.shiftr x n).
Proof.
  intros Hn [H1 H2]. rewrite Z.shiftr_div_pow2 by done. pose proof (pow2_pos n Hn). split; [by apply Z.div_pos|].
  apply Z.div_lt_upper_bound; [done|nia].
Qed.
Lemma word_lor a b : is_bits a → is_bits b → is_bits (Z.lor a b).
Proof.
  intros [Ha Ha'] [Hb Hb']. split; [by apply Z.lor_nonneg|]. destruct (Z.eq_dec (Z.lor a b) 0) as [->|Hne]; [lia|].
  assert (0 <= Z.lor a b) by (by apply Z.lor_nonneg). apply Z.log2_lt_pow2; [lia|]. rewrite Z.log2_lor by done.
  destruct (Z.eq_dec a 0) as [->|], (Z.eq_dec b 0) as [->|]; cbn; try (apply Z.max_lub_lt); try lia; try (apply Z.log2_lt_pow2; lia).
Qed.
Lemma word_lxor_sign b : is_bits b → is_bits (Z.lxor b SIGN).
Proof. apply flip_bits. Qed.
Lemma word_const (b : bool) : is_bits (if b then 0 else 1).
Proof. by destruct b. Qed.
Lemma word_signed s : is_bits (signed s).
Proof. by destruct s. Qed.
Lemma word_land x y : is_bits y → is_bits (Z.land x y).
Proof.
  intros Hy. rewrite <- (Z.mod_small y (2 ^ 64)), <- (Z.land_ones y 64), Z.land_assoc, Z.land_ones by (done || lia). apply word_u64.
Qed.
Create HintDb words.
#[local] Hint Resolve word_u64 word_shl word_shr word_lor word_lxor_sign word_const word_signed word_land : words.
Lemma word_jam x n : is_bits x → 0 <= n → is_bits (shr_jam x n).
Proof. intros Hx Hn. unfold shr_jam. destruct (n =? 0); [done|]. destruct (n <? 64); auto with words. Qed.
#[local] Hint Resolve word_jam : words.
Lemma word_pack s e sig : is_bits sig → is_bits (round_pack s e sig).
Proof.
  intros Hs. unfold round_pack. assert (is_bits (if e <=? 0 then shr_jam sig (1 - e) else sig)) as Hsig.
  { destruct (Z.leb_spec e 0); [apply word_jam; [done|lia]|done]. }
  replace (if e <=? 0 then (0, shr_jam sig (1 - e)) else (e, sig)) with (if e <=? 0 then 0 else e, if e <=? 0 then shr_jam sig (1 - e) else sig) by (by destruct (e <=? 0)).
  set (x := if e <=? 0 then shr_jam sig (1 - e) else sig) in *. cbv zeta. match goal with |- context [if ?c then u64 ?q else ?q'] => set (r := if c then u64 q else q') end.
  assert (is_bits r) as Hr by (subst r; destruct (_ || _); [auto with words|apply word_shr; done]).
  destruct (r =? 0); [auto with words|]. destruct (_ =? 0); [auto with words|].
  destruct (2 ^ 53 <=? r); (destruct (0x7ff <=? _); [by apply word_lor; [apply word_signed|]|]); (apply word_lor; [auto with words|]); by apply word_land.
Qed.
#[local] Hint Resolve word_pack : words.
Lemma word_norm s e sig : is_bits sig → is_bits (norm_pack s e sig).
Proof.
  intros Hs. unfold norm_pack. destruct (Z.ltb_spec 0 (clz sig - 1)); [auto with words|].
  destruct (Z.ltb_spec (clz sig - 1) 0); [apply word_pack, word_jam; [done|lia]|auto with words].
Qed.
#[local] Hint Resolve word_norm : words.
Lemma word_unpack b e m : unpack b = (e, m) → is_bits m.
Proof. unfold unpack. destruct (exp_of b =? 0); [destruct (frac_of b =? 0)|]; intros [= <- <-]; auto with words. done. Qed.
Lemma word_add a b neg : is_bits a → is_bits b → is_bits (add a b neg).
Proof.
  intros Ha Hb'. unfold add. set (b' := if neg then Z.lxor b SIGN else b). assert (is_bits b') as Hb by (subst b'; destruct neg; auto with words). clearbody b'. clear Hb' b neg.
  destruct (_ || _); [repeat case_match; done|].
  destruct (unpack a) as [xa ma] eqn:Ea, (unpack b') as [xb mb] eqn:Eb. apply word_unpack in Ea, Eb. cbv zeta.
  destruct (ma =? 0); [destruct (mb =? 0); [by destruct (_ && _)|done]|]. destruct (mb =? 0); [done|].
  assert (∀ s ea sa eb sb, is_bits sa → is_bits sb → eb <= ea → is_bits (add_mag s ea sa eb sb) ∧ is_bits (sub_mag s ea sa eb sb)) as Hmag.
  { intros s ea sa eb sb Hsa Hsb Hle. assert (is_bits (shr_jam sb (ea - eb))) by (apply word_jam; [done|lia]). split.
    - unfold add_mag. destruct (ea =? _); [by apply word_lor; [apply word_signed|]|]. cbv zeta. destruct (negb _); auto with words.
      apply word_pack, word_jam; [auto with words|done].
    - unfold sub_mag. destruct (ea - eb <=? 1); [|auto with words]. cbv zeta. destruct (u64 _ =? 0); [done|auto with words]. }
  destruct (_ || _) eqn:Esw.
  - destruct (Hmag (sign_of b') xb mb xa ma) as [? ?]; [done|done| |by destruct (Bool.eqb _ _)].
    apply orb_true_iff in Esw as [?%Z.ltb_lt|[?%Z.eqb_eq _]%andb_true_iff]; lia.
  - destruct (Hmag (sign_of a) xa ma xb mb) as [? ?]; [done|done| |by destruct (Bool.eqb _ _)].
    apply orb_false_iff in Esw as [?%Z.ltb_ge _]. lia.
Qed.
Lemma word_mul a b : is_bits (mul a b).
Proof.
  unfold mul. destruct (_ || _); [destruct (is_nan a || is_nan b); [done|]; destruct (_ || _); [done|by apply word_lor; [apply word_signed|]]|].
  destruct (unpack a) as [xa ma] eqn:Ea, (unpack b) as [xb mb] eqn:Eb. apply word_unpack in Ea, Eb.
  destruct (_ || _); [apply word_signed|]. cbv zeta.
  set (sig := Z.lor (shl64 _ 21) (Z.shiftr _ 43)).
  assert (is_bits sig) as Hs by (apply word_lor; [apply word_shl|apply word_shr; [lia|apply word_u64]]). clearbody sig.
  assert (is_bits (Z.lor sig 1)) by (by apply word_lor).
  destruct (shl64 _ 21 =? 0); (destruct (Z.land _ _ =? 0); auto with words).
Qed.
Lemma word_div a b : is_bits (div a b).
Proof.
  unfold div. destruct (_ || _); [done|]. destruct (unpack a) as [xa ma], (unpack b) as [xb mb].
  assert (is_bits (Z.lor (signed (sign_of (Z.lxor a b))) INF)) by (by apply word_lor; [apply word_signed|]).
  destruct (_ && _); [done|]. destruct (exp_of a =? _); [done|]. destruct (exp_of b =? _); [apply word_signed|].
  destruct (mb =? 0); [by destruct (ma =? 0)|]. destruct (ma =? 0); [apply word_signed|]. cbv zeta.
  destruct (if _ <? _ then _ else _) as [e n]. destruct (Nat.iter 55 _ _) as [q r]. auto with words.
Qed.
Lemma word_sqrt a : is_bits a → is_bits (sqrt_ a).
Proof.
  intros Ha. unfold sqrt_. destruct (is_nan a); [done|]. destruct (unpack a) as [xa ma]. destruct (ma =? 0); [done|].
  destruct (sign_of a); [done|]. destruct (xa =? _); [done|]. cbv zeta. destruct (if _ =? 0 then _ else _) as [e m].
  apply word_pack, word_lor; auto with words.
Qed.
Lemma unord_ieee a b : is_bits a → is_bits b → unord a b = match SFcompare (decode a) (decode b) with None => true | Some _ => false end.
Proof.
  intros Ha Hb. unfold unord. destruct (is_nan a) eqn:Na; [by rewrite (decode_nan a)|].
  destruct (is_nan b) eqn:Nb; [rewrite (decode_nan b) by done; by destruct (decode a)|]. by rewrite compare_ranked.
Qed.

