(* ===== verification/ScheduleCost.v ===== *)
(** The cost model and the candidate search of cpp/mvcc-llvm/schedule.cpp. *)
From Stdlib Require Import Sorting.Sorted.
From S2P Require Import Prelude Cstd SigAlgebra Stir Schedule ScheduleText Fp64.
Open Scope string_scope.
Open Scope Z_scope.

Record Cost := mkCost {
  deviceBytes : f64;
  smemKB : f64;
  occupancy : f64;
  tensorOps : f64;
  alu : f64;
  barriers : f64;
  seconds : f64;
  breakdown : string }.

(** what the loop over the stages accumulates *)
Record tally := mkTally {
  y_tensorOps : f64;
  y_alu : f64;
  y_barriers : f64;
  y_anyDevice : bool;
  y_anySmem : bool;
  y_smem : Z }.
Definition tally0 : tally := mkTally f0 f0 f0 false false 0.
Definition tally_storage (y : tally) (a : AccessStorage) : tally :=
  let dev := y_anyDevice y || bool_decide (a_kind a = SDevice) in
  if bool_decide (a_kind a = Threadgroup)
  then mkTally (y_tensorOps y) (y_alu y) (y_barriers y) dev true
         (Z.max (y_smem y) (if negb (ringBytes a =? 0) then ringBytes a else 8192))
  else mkTally (y_tensorOps y) (y_alu y) (y_barriers y) dev (y_anySmem y) (y_smem y).
Definition tally_stage (accSamples : f64) (y : tally) (st : StageSchedule) : tally :=
  let y := mkTally (y_tensorOps y) (y_alu y) (y_barriers y) (y_anyDevice y) (y_anySmem y)
             (Z.max (y_smem y) (smemBytes st)) in
  let y := fold_left tally_storage (storage st) y in
  let tops := if bool_decide (engine st = TensorOp) then fadd (y_tensorOps y) (of_Z 1) else y_tensorOps y in
  let al := if bool_decide (engine st = ScalarFma) then fadd (y_alu y) accSamples else y_alu y in
  let '(sm, bar) := if bool_decide (exchange st = ThreadgroupBuffer)
                    then (Z.max (y_smem y) 8192, fadd (y_barriers y) (of_Z 2))
                    else (y_smem y, y_barriers y) in
  let al := if bool_decide (exchange st = ShuffleTree) then fadd al (of_Z 32) else al in
  let bar := if y_anySmem y || negb (smemBytes st =? 0) then fadd bar (of_Z 1) else bar in
  mkTally tops al bar (y_anyDevice y) (y_anySmem y) sm.

Definition acc_samples (P : Program) : f64 :=
  let s := fold_left (λ s a, fadd s (of_Z (if samples a =? 0 then 1 else samples a))) (accesses P) f0 in
  if feq s f0 then of_Z 256 else s.

Definition costOf (P : Program) (S : Schedule) : Cost :=
  let accSamples := acc_samples P in
  let y := fold_left (tally_stage accSamples) (stages S) tally0 in
  let dBytes := if y_anyDevice y then fmul accSamples (of_Z 16) else f0 in
  let kb := fdiv (of_Z (y_smem y)) (of_Z 1024) in
  let occ := if fle kb (dec 5 (-1)) then of_Z 1
             else fmin (of_Z 1) (fdiv (of_Z 16) (fmax kb (of_Z 1))) in
  let bw := dec 125 9 in
  let peak := dec 185 11 in
  let memT := fdiv dBytes bw in
  let aluT := fdiv (fmul (fmul (fmul (fmul (y_tensorOps y) (of_Z 32)) (of_Z 32)) (of_Z 32)) (of_Z 2))
                (fmul peak (fmax occ (dec 5 (-2)))) in
  let scalarT := fdiv (y_alu y) (dec 1 10) in
  let sec := fadd (fmax memT (fmax aluT scalarT)) (fmul (y_barriers y) (dec 2 (-7))) in
  let sec := if y_anySmem y && (32768 <? y_smem y) then fmul sec (of_Z 8) else sec in
  mkCost dBytes kb occ (y_tensorOps y) (y_alu y) (y_barriers y) sec
    ("bytes=" +++ to_string (trunc dBytes) +++ " smemKB=" +++ show_g kb +++ " occ=" +++ show_g occ
     +++ " tensorOps=" +++ show_g (y_tensorOps y) +++ " alu=" +++ show_g (y_alu y)
     +++ " barriers=" +++ show_g (y_barriers y) +++ " est=" +++ show_g sec).

Definition canon (S : Schedule) : string := text_of (dump S).

Record Candidate := mkCandidate { c_S : Schedule; c_cost : Cost }.
(** the comparison [std::sort] is called with *)
Definition cheaper (a b : Candidate) : bool := flt (seconds (c_cost a)) (seconds (c_cost b)).

(** [std::sort]: a permutation in which no later element is cheaper than an earlier one *)
Class StdSort (sort : list Candidate → list Candidate) : Prop := {
  sort_perm : ∀ l, sort l ≡ₚ l;
  sort_sorted : ∀ l, StronglySorted (λ a b, cheaper b a = false) (sort l) }.

(** the schedules found so far and the canonical texts of those seen *)
Definition found : Type := list Candidate * list string.
Definition consider (P : Program) (st : found) (S : Schedule) : found :=
  match wellFormed P S with
  | Err _ => st
  | Ok _ =>
      let k := canon S in
      if existsb (String.eqb k) st.2 then st
      else ((st.1 ++ [mkCandidate S (costOf P S)])%list, k :: st.2)
  end.
(** one level: every edit of every schedule of the frontier is considered *)
Definition expand (P : Program) (st : found) (frontier : list Schedule) : found * list Schedule :=
  let next := frontier ≫= search_edits in (fold_left (consider P) next st, next).
Fixpoint search (P : Program) (depth : nat) (st : found) (frontier : list Schedule) : found :=
  match depth with
  | O => st
  | S depth => let '(st, next) := expand P st frontier in search P depth st next
  end.
Definition explored (P : Program) (depth : nat) : list Candidate :=
  let src := sourceSchedule P in (search P depth (consider P ([], []) src) [src]).1.

Section candidates.
Context (sort : list Candidate → list Candidate).

(** [width] is positive: with width 0 the source pops an empty vector *)
Definition candidates (P : Program) (depth width : nat) : list Candidate :=
  let out := take width (sort (explored P depth)) in
  let src := sourceSchedule P in
  if existsb (λ c, String.eqb (s_why (c_S c)) "source") out then out
  else match wellFormed P src with
       | Err _ => out
       | Ok _ =>
           let out := if (length out =? width)%nat then removelast out else out in
           (out ++ [mkCandidate src (costOf P src)])%list
       end.
End candidates.

Definition search_depth : nat := 3.
Definition search_width : nat := 8.

(** an instance of [StdSort]: insertion after the elements that are not more expensive *)
Fixpoint insert_candidate (c : Candidate) (l : list Candidate) : list Candidate :=
  match l with
  | [] => [c]
  | d :: l => if cheaper c d then c :: d :: l else d :: insert_candidate c l
  end.
Definition insertion_sort (l : list Candidate) : list Candidate :=
  fold_left (λ acc c, insert_candidate c acc) l [].

(** ** The insertion sort is a [std::sort] *)
Lemma insert_perm c l : insert_candidate c l ≡ₚ c :: l.
Proof.
  induction l as [|d l IH]; [done|]. cbn [insert_candidate]. destruct (cheaper c d); [done|].
  rewrite IH. apply Permutation_swap.
Qed.
Lemma insert_sorted c l :
  StronglySorted (λ a b, cheaper b a = false) l →
  StronglySorted (λ a b, cheaper b a = false) (insert_candidate c l).
Proof.
  induction 1 as [|d l Hl IH Hd]; [by repeat constructor|]. cbn [insert_candidate].
  destruct (cheaper c d) eqn:E.
  - constructor; [by constructor|]. constructor.
    + destruct (cheaper d c) eqn:E'; [|done]. pose proof (flt_trans _ _ _ E E') as H.
      by rewrite flt_irrefl in H.
    + eapply Forall_impl; [exact Hd|]. cbn. intros e He. destruct (cheaper e c) eqn:E'; [|done].
      by rewrite (flt_trans _ _ _ E' E : cheaper e d = true) in He.
  - constructor; [done|]. rewrite insert_perm. by constructor.
Qed.
#[export] Instance insertion_sort_ok : StdSort insertion_sort.
Proof.
  assert (H : ∀ l acc, fold_left (λ acc c, insert_candidate c acc) l acc ≡ₚ acc ++ l).
  { induction l as [|c l IH]; intros acc; cbn [fold_left]; [by rewrite app_nil_r|].
    rewrite IH, insert_perm. cbn. by rewrite Permutation_middle. }
  split.
  - intros l. apply (H l []).
  - intros l. unfold insertion_sort.
    assert (Hs : StronglySorted (λ a b, cheaper b a = false) []) by constructor.
    revert Hs. generalize (@nil Candidate). clear H.
    induction l as [|c l IH]; intros acc Hacc; cbn [fold_left]; [done|].
    apply IH. by apply insert_sorted.
Qed.

(** ** What the search explores *)
#[local] Arguments canon : simpl never.
#[local] Arguments costOf : simpl never.
#[local] Arguments wellFormed : simpl never.
#[local] Arguments sourceSchedule : simpl never.

Lemma seen_dec k seen :
  existsb (String.eqb k) seen = true ∨ existsb (String.eqb k) seen = false ∧ k ∉ seen.
Proof.
  destruct (existsb _ seen) eqn:E; [by left|right]. split; [done|]. intros Hk.
  enough (existsb (String.eqb k) seen = true) by congruence. apply existsb_exists.
  exists k. split; [by apply list_elem_of_In|apply String.eqb_refl].
Qed.

Section explored.
Context (P : Program).

(** every entry is well-formed and costed, entries are pairwise distinct texts, and only the
    recovered schedule is called "source" *)
Record search_inv (st : found) : Prop := {
  inv_ok : ∀ c, c ∈ st.1 → wellFormed P (c_S c) = Ok tt ∧ c_cost c = costOf P (c_S c);
  inv_source : ∀ c, c ∈ st.1 → s_why (c_S c) = "source" → c_S c = sourceSchedule P;
  inv_seen : ∀ c, c ∈ st.1 → canon (c_S c) ∈ st.2;
  inv_distinct : NoDup ((λ c, canon (c_S c)) <$> st.1) }.

Lemma consider_inv st S :
  (s_why S = "source" → S = sourceSchedule P) → search_inv st → search_inv (consider P st S).
Proof.
  intros HS [Hok Hsrc Hseen Hd]. unfold consider. destruct (wellFormed P S) as [[]|] eqn:Hw; [|done].
  destruct (seen_dec (canon S) st.2) as [->|[-> Hk]]; [done|]. constructor; cbn.
  - intros c [Hc| ->%list_elem_of_singleton]%elem_of_app; [auto|done].
  - intros c [Hc| ->%list_elem_of_singleton]%elem_of_app; auto.
  - intros c [Hc| ->%list_elem_of_singleton]%elem_of_app; [|set_solver].
    specialize (Hseen c Hc). set_solver.
  - rewrite fmap_app. apply NoDup_app. split_and!; [done| |apply NoDup_singleton].
    intros k (c&->&Hc)%list_elem_of_fmap E%list_elem_of_singleton. cbn in E.
    apply Hk. rewrite <- E. by apply Hseen.
Qed.
Lemma consider_mono st S c : c ∈ st.1 → c ∈ (consider P st S).1.
Proof.
  intros Hc. unfold consider. repeat case_match; cbn; try done. apply elem_of_app. by left.
Qed.
Lemma edit_not_source S E : E ∈ search_edits S → s_why E ≠ "source".
Proof.
  intros HE. unfold search_edits in HE.
  repeat (apply elem_of_cons in HE as [->|HE]); [done..|by apply elem_of_nil in HE].
Qed.
Lemma consider_all_inv Ss st :
  (∀ S, S ∈ Ss → s_why S = "source" → S = sourceSchedule P) → search_inv st →
  search_inv (fold_left (consider P) Ss st) ∧ ∀ c, c ∈ st.1 → c ∈ (fold_left (consider P) Ss st).1.
Proof.
  revert st. induction Ss as [|S Ss IH]; intros st HS Hst; [done|]. cbn [fold_left].
  destruct (IH (consider P st S)) as [H1 H2].
  - intros S' ?. apply HS. by right.
  - apply consider_inv; [|done]. apply HS. by left.
  - split; [done|]. intros c Hc. apply H2. by apply consider_mono.
Qed.
Lemma search_spec depth st fr :
  search_inv st → search_inv (search P depth st fr) ∧ ∀ c, c ∈ st.1 → c ∈ (search P depth st fr).1.
Proof.
  revert st fr. induction depth as [|depth IH]; intros st fr Hst; [done|]. cbn [search].
  unfold expand. destruct (consider_all_inv (fr ≫= search_edits) st) as [H1 H2]; [|done|].
  - intros S (F&HS&_)%list_elem_of_bind Hw. by apply edit_not_source in HS.
  - destruct (IH (fold_left (consider P) (fr ≫= search_edits) st) (fr ≫= search_edits) H1) as [H3 H4].
    split; [done|]. auto.
Qed.
Lemma explored_inv depth : ∃ seen, search_inv (explored P depth, seen).
Proof.
  unfold explored. destruct (search_spec depth (consider P ([], []) (sourceSchedule P)) [sourceSchedule P])
    as [H _].
  - apply consider_inv; [done|]. constructor; cbn; try (by intros ? ?%elem_of_nil). constructor.
  - exists (search P depth (consider P ([], []) (sourceSchedule P)) [sourceSchedule P]).2.
    by destruct (search _ _ _ _).
Qed.
Lemma source_explored depth :
  wellFormed P (sourceSchedule P) = Ok tt →
  mkCandidate (sourceSchedule P) (costOf P (sourceSchedule P)) ∈ explored P depth.
Proof.
  intros Hw. unfold explored.
  apply (search_spec depth (consider P ([], []) (sourceSchedule P)) [sourceSchedule P]).
  - apply consider_inv; [done|]. constructor; cbn; try (by intros ? ?%elem_of_nil). constructor.
  - unfold consider. rewrite Hw. cbn. by left.
Qed.
End explored.

(** ** The candidates *)
Lemma sorted_app {A} (R : A → A → Prop) l k x y :
  StronglySorted R (l ++ k) → x ∈ l → y ∈ k → R x y.
Proof.
  induction l as [|a l IH]; [by intros _ ?%elem_of_nil|]. cbn. intros Hs Hx Hy.
  apply StronglySorted_inv in Hs as [Hs Ha]. apply elem_of_cons in Hx as [->|Hx]; [|auto].
  rewrite Forall_forall in Ha. apply Ha. apply elem_of_app. by right.
Qed.
Lemma removelast_prefix {A} (l : list A) : ∃ k, l = (removelast l ++ k)%list.
Proof.
  induction l as [|a l [k IH]]; [by exists []|]. destruct l as [|b l]; [by exists [a]|].
  exists k. cbn in *. by rewrite <- IH.
Qed.
Lemma removelast_length {A} (l : list A) : length (removelast l) = Nat.pred (length l).
Proof. induction l as [|a l IH]; [done|]. destruct l as [|b l]; [done|]. cbn in *. by rewrite IH. Qed.

Lemma source_why P : s_why (sourceSchedule P) = "source".
Proof. unfold sourceSchedule. by destruct (source_coords _ _ _). Qed.

Section candidates_spec.
Context (sort : list Candidate → list Candidate) `{!StdSort sort} (P : Program).
Let src := mkCandidate (sourceSchedule P) (costOf P (sourceSchedule P)).

(** the result is a prefix of the sorted exploration, or one followed by the source *)
Lemma candidates_cases depth width :
  (0 < width)%nat →
  ∃ out rest, sort (explored P depth) = (out ++ rest)%list ∧
  ((candidates sort P depth width = out ∧
     (wellFormed P (sourceSchedule P) = Ok tt → src ∈ out) ∧ (length out <= width)%nat) ∨
   (candidates sort P depth width = (out ++ [src])%list ∧ wellFormed P (sourceSchedule P) = Ok tt ∧
     (src ∉ out) ∧ (S (length out) <= width)%nat)).
Proof.
  intros Hw. unfold candidates. set (so := sort (explored P depth)). set (win := take width so).
  destruct (explored_inv P depth) as [seen [Hok Hsrc _ _]]. cbn in Hok, Hsrc.
  assert (Hwin : so = (win ++ drop width so)%list) by (symmetry; apply take_drop).
  assert (Hin : ∀ c, c ∈ win → c ∈ explored P depth).
  { intros c Hc. rewrite <- (sort_perm (explored P depth)). fold so. rewrite Hwin.
    apply elem_of_app. by left. }
  assert (Hlen : (length win <= width)%nat) by (unfold win; rewrite length_take; lia).
  assert (Hs : ∀ c, c ∈ win → s_why (c_S c) = "source" → c = src).
  { intros c Hc Hy. pose proof (Hsrc c (Hin c Hc) Hy) as Hsc. destruct (Hok c (Hin c Hc)) as [_ Hcost].
    destruct c as [S co]. cbn in Hcost, Hsc. unfold src. by rewrite Hcost, Hsc. }
  destruct (existsb _ win) eqn:E.
  - exists win, (drop width so). split; [done|]. left. split_and!; [done| |done].
    apply existsb_exists in E as (c&Hc%list_elem_of_In&Hy%String.eqb_eq). intros _.
    by rewrite <- (Hs c Hc Hy).
  - assert (Hno : src ∉ win).
    { intros Hc. enough (existsb (λ c, String.eqb (s_why (c_S c)) "source") win = true) by congruence.
      apply existsb_exists. exists src. split; [by apply list_elem_of_In|].
      cbn. by rewrite source_why. }
    destruct (wellFormed P (sourceSchedule P)) as [[]|w] eqn:Ew.
    + destruct (Nat.eqb_spec (length win) width) as [El|El].
      * destruct (removelast_prefix win) as [k Ek].
        exists (removelast win), (k ++ drop width so)%list.
        split; [by rewrite app_assoc, <- Ek|]. right.
        split_and!; [done|done| |rewrite removelast_length; lia].
        intros Hc. apply Hno. rewrite Ek. apply elem_of_app. by left.
      * exists win, (drop width so). split; [done|]. right. split_and!; [done..|lia].
    + exists win, (drop width so). split; [done|]. by left.
Qed.

End candidates_spec.
