(* ===== verification/Legality.v ===== *)
(** The legality checker: cpp/mvcc-llvm/legality.h and legality.cpp. *)
From S2P Require Import Prelude Cstd SigAlgebra Stir Schedule.
Open Scope string_scope.
Open Scope Z_scope.

(** ** Data *)
Record Obligation := mkObligation { ob_n : Z; ob_stage : string; ob_detail : string }.
Definition ob_str (o : Obligation) : string :=
  "legality: L" +++ to_string (ob_n o) +++ (if is_empty (ob_stage o) then "" else " " +++ ob_stage o)
  +++ " " +++ ob_detail o.
Record Result := mkResult { r_ok : bool; failed : list Obligation; discharged : list string }.
Definition result0 : Result := mkResult true [] [].
Definition first (R : Result) : string :=
  match failed R with [] => "legality: ok" | o :: _ => ob_str o end.

Definition fail (R : Result) (o : Obligation) : Result :=
  mkResult false (failed R ++ [o])%list (discharged R).
Definition label (n : Z) (nm : string) : string := "L" +++ to_string n +++ " " +++ nm.
Definition ok (R : Result) (n : Z) (nm : string) : Result :=
  mkResult (r_ok R) (failed R) (discharged R ++ [label n nm])%list.
Definition fails (R : Result) (os : list Obligation) : Result := fold_left fail os R.
(** [if (R.failed.empty() || R.failed.back().n != n) ok(R, n, nm)] *)
Definition ok_unless_last (R : Result) (n : Z) (nm : string) : Result :=
  match last (failed R) with
  | Some o => if ob_n o =? n then R else ok R n nm
  | None => ok R n nm
  end.

(** ** The obligations of a schedule *)
Definition parallel (b : Bind) : bool :=
  match b with Lane | Simdgroup | BlockX | BlockY | BlockZ | Launch | Device => true | _ => false end.
Definition permits (P : Program) : Permissions := default permissions0 (data_permits P).
Definition isContraction (P : Program) : bool := hasAlgebra P Sum || hasAlgebra P TensorSum.
Definition stage_name (si : nat) : string := "stage" +++ to_string (Z.of_nat si).
Definition opt {A} (b : bool) (x : A) : list A := if b then [x] else [].

Definition L1_stage (P : Program) (si : nat) (st : StageSchedule) : list Obligation :=
  mjoin (imap (λ j c,
    opt (negb (existsb (λ f, (coord f =? j)%nat && negb (bool_decide (bind f = Replicate))) (factors st)))
      (mkObligation 1 (stage_name si) ("coordinate " +++ c +++ " has no non-replicate owner")))
    (coordNames P)).
Definition L2_stage (perm : Permissions) (si : nat) (st : StageSchedule) : list Obligation :=
  factors st ≫= λ f,
    opt (bool_decide (bind f = Replicate) && negb (duplicate perm))
      (mkObligation 2 (stage_name si)
         ("factor " +++ f_name f +++ " is replicated but the algebra does not grant duplicate")).
Definition L3_factor (P : Program) (perm : Permissions) (si : nat) (st : StageSchedule) (f : Factor) :
    list Obligation :=
  if negb (reduction P (coord f)) || negb (parallel (bind f)) then []
  else if negb (partition perm) then
    [mkObligation 3 (stage_name si) ("reduction " +++ f_name f +++ " bound to " +++ bindName (bind f)
                                      +++ " without partition permission")]
  else if bool_decide (exchange st = XNone) then
    [mkObligation 3 (stage_name si) ("reduction " +++ f_name f +++ " is partitioned with exchange=none")]
  else opt (bool_decide (exchange st = Atomic) && negb (hasAlgebra P Sum) && negb (hasAlgebra P And)
            && negb (hasAlgebra P Or) && negb (hasAlgebra P Xor))
         (mkObligation 3 (stage_name si) "atomic exchange is only legal for int-exact / fp-reassoc(*)").
Definition L3_stage (P : Program) (perm : Permissions) (si : nat) (st : StageSchedule) : list Obligation :=
  factors st ≫= L3_factor P perm si st.
Definition L4_fusion (S : Schedule) (si : nat) (st : StageSchedule) (o : nat) : list Obligation :=
  match stages S !! o with
  | None => [mkObligation 4 (stage_name si) "fusion target out of range"]
  | Some ot =>
      let share := existsb (λ n, bool_decide (n ∈ order ot)) (order st) in
      opt (negb share && negb (bool_decide (order st = [])) && negb (bool_decide (order ot = [])))
        (mkObligation 4 (stage_name si)
           ("fused with stage " +++ to_string (Z.of_nat o) +++ " but time factors do not overlap"))
  end.
Definition L4_stage (S : Schedule) (si : nat) (st : StageSchedule) : list Obligation :=
  fusedWith st ≫= L4_fusion S si st.
Definition L5_stage (P : Program) (si : nat) (st : StageSchedule) : list Obligation :=
  if negb (existsb (bound_to Replicate) (factors st)) then []
  else accesses P ≫= λ ac,
    opt (store ac || atomic ac)
      (mkObligation 5 (stage_name si)
         "observable effect on a replicated axis (must predicate to one owner)").
Definition L6_stage (P : Program) (si : nat) (st : StageSchedule) : list Obligation :=
  opt (negb (bool_decide (guards P = [])) && bool_decide (predicate st = PNone))
    (mkObligation 6 (stage_name si) "guards exist but predicate=none (dropped boundary)").
Definition L7_stage (P : Program) (perm : Permissions) (si : nat) (st : StageSchedule) : list Obligation :=
  let reordersR := existsb (λ f, reduction P (coord f) && bound_to Unroll f) (factors st) in
  (opt (bool_decide (engine st = TensorOp) && negb (isContraction P))
    (mkObligation 7 (stage_name si)
       "tensor-op on a stage that is not a contraction (no sum / tensor-sum algebra)") ++
   opt (reordersR && negb (reorder perm))
    (mkObligation 7 (stage_name si) "reordering a reduction the algebra does not grant reorder for"))%list.
Definition L8_stage (si : nat) (st : StageSchedule) : list Obligation :=
  (opt (32768 <? smemBytes st)
    (mkObligation 8 (stage_name si)
       ("threadgroup bytes " +++ to_string (smemBytes st)
        +++ " exceed 32 KB (spill is a runtime twin, not a recovered body)")) ++
   opt (32 <? threadScale st) (mkObligation 8 (stage_name si) "thread_scale exceeds 32"))%list.

(** the obligations of one kind over all the stages, in order *)
Definition stagewise (f : nat → StageSchedule → list Obligation) (S : Schedule) : list Obligation :=
  mjoin (imap f (stages S)).
Definition pass (n : Z) (nm : string) (f : nat → StageSchedule → list Obligation) (S : Schedule)
    (R : Result) : Result :=
  ok_unless_last (fails R (stagewise f S)) n nm.

Definition numerical_class (P : Program) : string :=
  if is_empty (numClass P) then "inherit" else numClass P.
Definition L10 (P : Program) (R : Result) : Result :=
  if negb (bool_decide (unfitted P = []))
  then fail R (mkObligation 10 ""
         ("unfitted sites become assume premises the runtime cannot evaluate ("
          +++ to_string (Z.of_nat (length (unfitted P))) +++ ")"))
  else ok R 10 "assumptions".
Definition L13 (P : Program) (R : Result) : Result :=
  let cls := numerical_class P in
  if negb (String.eqb cls "inherit") && negb (String.eqb cls "explicit-budget")
  then fail R (mkObligation 13 "" ("precision=" +++ cls +++ " is silent quantization; default is inherit"))
  else ok R 13 "numerical-budget".

(** [L9]'s loop over the tensors has no effect: the source discharges it unconditionally *)
Definition check (P : Program) (S : Schedule) : Result :=
  match wellFormed P S with
  | Err why => fail result0 (mkObligation 1 "" ("schedule is not well-formed: " +++ why))
  | Ok _ =>
      let perm := permits P in
      let R := fails result0 (stagewise (L1_stage P) S) in
      let R := if r_ok R then ok R 1 "coverage" else R in
      let R := pass 2 "no-illegal-duplication" (L2_stage perm) S R in
      let R := pass 3 "partial-state-combine" (L3_stage P perm) S R in
      let R := pass 4 "dependency-order" (L4_stage S) S R in
      let R := pass 5 "effect-order" (L5_stage P) S R in
      let R := pass 6 "predicates" (L6_stage P) S R in
      let R := pass 7 "numerical-class" (L7_stage P perm) S R in
      let R := pass 8 "resources" L8_stage S R in
      let R := ok R 9 "freshness" in
      L13 P (L10 P R)
  end.

(** ** The checker as one sweep over numbered groups of obligations *)
Definition group : Type := Z * string * list Obligation.
Definition apply_group (R : Result) (g : group) : Result :=
  let '(n, nm, obs) := g in ok_unless_last (fails R obs) n nm.
Definition L10_obs (P : Program) : list Obligation :=
  opt (negb (bool_decide (unfitted P = [])))
    (mkObligation 10 "" ("unfitted sites become assume premises the runtime cannot evaluate ("
          +++ to_string (Z.of_nat (length (unfitted P))) +++ ")")).
Definition L13_obs (P : Program) : list Obligation :=
  opt (negb (String.eqb (numerical_class P) "inherit")
       && negb (String.eqb (numerical_class P) "explicit-budget"))
    (mkObligation 13 "" ("precision=" +++ numerical_class P
                         +++ " is silent quantization; default is inherit")).
Definition groups (P : Program) (S : Schedule) : list group :=
  let perm := permits P in
  [(1, "coverage", stagewise (L1_stage P) S);
   (2, "no-illegal-duplication", stagewise (L2_stage perm) S);
   (3, "partial-state-combine", stagewise (L3_stage P perm) S);
   (4, "dependency-order", stagewise (L4_stage S) S);
   (5, "effect-order", stagewise (L5_stage P) S);
   (6, "predicates", stagewise (L6_stage P) S);
   (7, "numerical-class", stagewise (L7_stage P perm) S);
   (8, "resources", stagewise L8_stage S);
   (9, "freshness", []);
   (10, "assumptions", L10_obs P);
   (13, "numerical-budget", L13_obs P)].

Lemma fails_eq R os :
  fails R os = match os with [] => R | _ => mkResult false (failed R ++ os) (discharged R) end.
Proof.
  unfold fails. revert R. induction os as [|o os IH]; intros R; [done|]. cbn [fold_left].
  rewrite IH. destruct os; cbn; [done|]. by rewrite <- app_assoc.
Qed.

(** the numbers of the groups are those of their obligations *)
Definition numbered (n : Z) (os : list Obligation) : Prop := Forall (λ o, ob_n o = n) os.
Lemma opt_numbered n b o : ob_n o = n → numbered n (opt b o).
Proof. intros. destruct b; by repeat constructor. Qed.
Lemma numbered_app n l k : numbered n l → numbered n k → numbered n (l ++ k).
Proof. intros. by apply Forall_app. Qed.
Lemma numbered_bind {A} n (l : list A) f : (∀ a, numbered n (f a)) → numbered n (l ≫= f).
Proof.
  intros Hf. induction l as [|a l IH]; [constructor|]. rewrite bind_cons. by apply numbered_app.
Qed.
Lemma numbered_join {A} n (f : nat → A → list Obligation) l :
  (∀ i a, numbered n (f i a)) → numbered n (mjoin (imap f l)).
Proof.
  revert f. induction l as [|a l IH]; intros f Hf; [constructor|].
  cbn. apply numbered_app; [apply Hf|]. apply (IH (λ i, f (S i))). intros. apply Hf.
Qed.
Lemma groups_numbered P S : Forall (λ g : group, numbered g.1.1 g.2) (groups P S).
Proof.
  unfold groups. repeat (apply Forall_cons; split); try apply Forall_nil_2; cbn [fst snd];
    try (by apply opt_numbered); try (apply numbered_join; intros si st).
  - apply numbered_join. intros j c. by apply opt_numbered.
  - apply numbered_bind. intros f. by apply opt_numbered.
  - apply numbered_bind. intros f. unfold L3_factor. repeat case_match; repeat constructor.
    by apply opt_numbered.
  - apply numbered_bind. intros o. unfold L4_fusion. case_match; repeat constructor.
    by apply opt_numbered.
  - unfold L5_stage. case_match; [constructor|]. apply numbered_bind. intros ac. by apply opt_numbered.
  - by apply opt_numbered.
  - apply numbered_app; by apply opt_numbered.
  - apply numbered_app; by apply opt_numbered.
Qed.

Lemma apply_group_spec R n nm obs :
  Forall (λ o, ob_n o < n) (failed R) → numbered n obs →
  apply_group R (n, nm, obs) =
  mkResult (r_ok R && bool_decide (obs = [])) (failed R ++ obs)
    (discharged R ++ if bool_decide (obs = []) then [label n nm] else []).
Proof.
  intros Hlt Hn. unfold apply_group, ok_unless_last. rewrite fails_eq.
  destruct obs as [|o obs].
  - rewrite app_nil_r, bool_decide_true, andb_true_r by done.
    destruct (last (failed R)) as [l|] eqn:El; [|done].
    apply last_Some_elem_of in El. rewrite Forall_forall in Hlt. specialize (Hlt l El).
    destruct (Z.eqb_spec (ob_n l) n); [lia|done].
  - rewrite bool_decide_false, andb_false_r, app_nil_r by done. cbn [failed].
    rewrite last_app_cons. destruct (last (o :: obs)) as [l|] eqn:El.
    + apply last_Some_elem_of in El. unfold numbered in Hn. rewrite Forall_forall in Hn.
      rewrite (Hn l El), Z.eqb_refl. done.
    + by apply last_None in El.
Qed.

(** increasing numbers, from [n] on *)
Fixpoint increasing (n : Z) (gs : list group) : Prop :=
  match gs with [] => True | g :: gs => n < g.1.1 ∧ increasing g.1.1 gs end.
Definition empty_group (g : group) : bool := bool_decide (g.2 = []).
Definition labels (gs : list group) : list string :=
  (λ g : group, label g.1.1 g.1.2) <$> List.filter empty_group gs.

Lemma labels_cons g gs :
  labels (g :: gs) = ((if empty_group g then [label g.1.1 g.1.2] else []) ++ labels gs)%list.
Proof. unfold labels. cbn. by destruct (empty_group g). Qed.

Lemma apply_groups_spec gs n R :
  Forall (λ o, ob_n o <= n) (failed R) → increasing n gs → Forall (λ g : group, numbered g.1.1 g.2) gs →
  fold_left apply_group gs R =
  mkResult (r_ok R && forallb empty_group gs) (failed R ++ mjoin (snd <$> gs))
    (discharged R ++ labels gs).
Proof.
  revert n R. induction gs as [|[[m nm] obs] gs IH]; intros n R Hn Hi Hg.
  - cbn. rewrite andb_true_r, !app_nil_r. by destruct R.
  - cbn [fold_left increasing fst] in *. destruct Hi as [Hnm Hi]. apply Forall_cons in Hg as [Hm Hg].
    cbn in Hm. rewrite apply_group_spec; [|eapply Forall_impl; [exact Hn|]; cbn; lia|done].
    rewrite (IH m); cbn [r_ok failed discharged]; [|apply Forall_app; split|done|done].
    + rewrite labels_cons. cbn [forallb]. unfold empty_group at 2 3. cbn [fst snd].
      by rewrite <- andb_assoc, <- !app_assoc.
    + eapply Forall_impl; [exact Hn|]. cbn. lia.
    + eapply Forall_impl; [exact Hm|]. cbn. lia.
Qed.

Lemma ok_unless_small R n nm :
  Forall (λ o, ob_n o < n) (failed R) → ok_unless_last R n nm = ok R n nm.
Proof.
  intros H. pose proof (apply_group_spec R n nm [] H ltac:(constructor)) as E.
  unfold apply_group in E. cbn in E. rewrite E. unfold ok. by rewrite app_nil_r, andb_true_r.
Qed.
Lemma opt_group R n nm (b : bool) o :
  ob_n o = n → Forall (λ o, ob_n o < n) (failed R) →
  (if b then fail R o else ok R n nm) = apply_group R (n, nm, opt b o).
Proof.
  intros Ho H. unfold apply_group. destruct b; cbn [opt fails fold_left].
  - unfold ok_unless_last, fail. cbn. rewrite last_snoc, Ho, Z.eqb_refl. done.
  - by rewrite ok_unless_small.
Qed.
Lemma check_groups P S :
  wellFormed P S = Ok tt → check P S = fold_left apply_group (groups P S) result0.
Proof.
  intros Hw. unfold check. rewrite Hw. cbv zeta. pose proof (groups_numbered P S) as Hg.
  set (R1 := if r_ok (fails result0 (stagewise (L1_stage P) S)) then _ else _).
  assert (E1 : R1 = apply_group result0 (1, "coverage", stagewise (L1_stage P) S)).
  { unfold R1, apply_group. apply Forall_inv in Hg. cbn in Hg. rewrite fails_eq.
    destruct (stagewise (L1_stage P) S) as [|o os]; [done|]. cbn [r_ok]. unfold ok_unless_last.
    cbn [failed result0 app]. destruct (last (o :: os)) as [l|] eqn:El; [|by apply last_None in El].
    apply last_Some_elem_of in El. unfold numbered in Hg. rewrite Forall_forall in Hg.
    by rewrite (Hg l El). }
  rewrite E1. unfold pass.
  set (R8 := ok_unless_last (fails _ (stagewise L8_stage S)) 8 "resources").
  assert (E8 : R8 = fold_left apply_group (take 8 (groups P S)) result0) by done.
  assert (H8 : Forall (λ o, ob_n o <= 8) (failed R8)).
  { rewrite E8, (apply_groups_spec _ 0); [|exact (Forall_nil_2 _)|cbn; lia|by apply Forall_take].
    cbn. repeat (apply Forall_cons in Hg as [? Hg]; cbn in *). rewrite app_nil_r.
    repeat (apply Forall_app; split); unfold numbered in *;
      (eapply Forall_impl; [eassumption|]; cbn; intros ? ->; lia). }
  change (fold_left apply_group (groups P S) result0) with
    (fold_left apply_group (drop 8 (groups P S)) (fold_left apply_group (take 8 (groups P S)) result0)).
  rewrite <- E8. clearbody R8. cbn [drop groups fold_left]. cbv zeta.
  assert (H9 : Forall (λ o, ob_n o < 9) (failed R8)) by (eapply Forall_impl; [exact H8|]; cbn; lia).
  assert (E9 : apply_group R8 (9, "freshness", []) = ok R8 9 "freshness") by by apply ok_unless_small.
  rewrite E9. set (R9 := ok R8 9 "freshness").
  assert (H10 : Forall (λ o, ob_n o < 10) (failed R9)) by (eapply Forall_impl; [exact H8|]; cbn; lia).
  assert (E10 : L10 P R9 = apply_group R9 (10, "assumptions", L10_obs P)) by by apply opt_group.
  rewrite <- E10. apply opt_group; [done|]. unfold L10.
  case_match; cbn; [apply Forall_app; split; [|by repeat constructor]|];
    (eapply Forall_impl; [exact H8|]; cbn; lia).
Qed.

Lemma check_result P S :
  wellFormed P S = Ok tt →
  check P S = mkResult (forallb empty_group (groups P S)) (mjoin (snd <$> groups P S))
                (labels (groups P S)).
Proof.
  intros Hw. rewrite check_groups by done. rewrite (apply_groups_spec _ 0); [done|exact (Forall_nil_2 _)|cbn; lia|apply groups_numbered].
Qed.

(** ** What legality means: the rules the code enforces
    The comment at L4 also asks that a value kept in registers is produced by the same lane, and the one at L9 that a
    tensor is not read back; no code looks at either ([storage_unchecked]). *)
Record Legal (P : Program) (S : Schedule) : Prop := {
  Legal_wf : wellFormed P S = Ok tt;
  Legal_coverage : ∀ st j, st ∈ stages S → (j < length (coordNames P))%nat →
    ∃ f, f ∈ factors st ∧ coord f = j ∧ bind f ≠ Replicate;
  Legal_duplication : ∀ st f, st ∈ stages S → f ∈ factors st →
    bind f = Replicate → duplicate (permits P) = true;
  Legal_combine : ∀ st f, st ∈ stages S → f ∈ factors st →
    reduction P (coord f) = true → parallel (bind f) = true →
    partition (permits P) = true ∧ exchange st ≠ XNone ∧
    (exchange st = Atomic → ∃ a, a ∈ [Sum; And; Or; Xor] ∧ hasAlgebra P a = true);
  Legal_order : ∀ st o, st ∈ stages S → o ∈ fusedWith st →
    ∃ ot, stages S !! o = Some ot ∧
      (order st = [] ∨ order ot = [] ∨ ∃ n, n ∈ order st ∧ n ∈ order ot);
  Legal_effects : ∀ st f ac, st ∈ stages S → f ∈ factors st → bind f = Replicate →
    ac ∈ accesses P → store ac = false ∧ atomic ac = false;
  Legal_predicates : ∀ st, st ∈ stages S → guards P ≠ [] → predicate st ≠ PNone;
  Legal_tensor : ∀ st, st ∈ stages S → engine st = TensorOp → isContraction P = true;
  Legal_reorder : ∀ st f, st ∈ stages S → f ∈ factors st →
    reduction P (coord f) = true → bind f = Unroll → reorder (permits P) = true;
  Legal_resources : ∀ st, st ∈ stages S → smemBytes st <= 32768 ∧ threadScale st <= 32;
  Legal_assumptions : unfitted P = [];
  Legal_precision : numerical_class P = "inherit" ∨ numerical_class P = "explicit-budget" }.

Lemma opt_nil {A} b (x : A) : opt b x = [] ↔ b = false.
Proof. destruct b; naive_solver. Qed.
Lemma bind_nil {A B} (l : list A) (f : A → list B) : l ≫= f = [] ↔ ∀ a, a ∈ l → f a = [].
Proof.
  induction l as [|a l IH]; [split; [by intros _ ? ?%elem_of_nil|done]|].
  rewrite bind_cons. split.
  - intros [H1 H2]%app_nil. intros b [->|Hb]%elem_of_cons; [done|]. by apply IH.
  - intros H. rewrite (H a) by by left. apply IH. intros b Hb. apply H. by right.
Qed.
Lemma join_imap_nil {A B} (f : nat → A → list B) (l : list A) :
  mjoin (imap f l) = [] ↔ ∀ i a, l !! i = Some a → f i a = [].
Proof.
  revert f. induction l as [|a l IH]; intros f; [done|]. cbn. split.
  - intros [H1 H2]%app_nil [|i] b; cbn; [by intros [= <-]|].
    intros Hb. by apply (IH (λ i, f (S i))).
  - intros H. rewrite (H 0%nat a eq_refl). apply (IH (λ i, f (S i))). intros i b Hb. by apply (H (S i)).
Qed.
Lemma stagewise_nil f S : stagewise f S = [] ↔ ∀ si st, stages S !! si = Some st → f si st = [].
Proof. apply join_imap_nil. Qed.
(** an obligation that does not depend on the stage's index, over all stages *)
Lemma stagewise_all f S (Q : StageSchedule → Prop) :
  (∀ si st, stages S !! si = Some st → (f si st = [] ↔ Q st)) →
  (stagewise f S = [] ↔ ∀ st, st ∈ stages S → Q st).
Proof.
  intros H. rewrite stagewise_nil. split.
  - intros Hn st [si Hsi]%list_elem_of_lookup. apply (H si st Hsi), Hn, Hsi.
  - intros HQ si st Hsi. apply (H si st Hsi), HQ. by eapply list_elem_of_lookup_2.
Qed.

Lemma existsb_elem {A} (p : A → bool) l : existsb p l = true ↔ ∃ x, x ∈ l ∧ p x = true.
Proof.
  rewrite existsb_exists. split; intros (x&?&?); exists x; by rewrite ?list_elem_of_In in *.
Qed.
Lemma existsb_none {A} (p : A → bool) l : existsb p l = false ↔ ∀ x, x ∈ l → p x = false.
Proof.
  split.
  - intros H x Hx. destruct (p x) eqn:E; [|done]. rewrite <- H. symmetry. apply existsb_elem. eauto.
  - intros H. destruct (existsb p l) eqn:E; [|done]. apply existsb_elem in E as (x&Hx&E).
    by rewrite H in E.
Qed.

Section groups.
Context (P : Program) (S : Schedule).

Lemma L1_nil si st : L1_stage P si st = [] ↔
  ∀ j, (j < length (coordNames P))%nat → ∃ f, f ∈ factors st ∧ coord f = j ∧ bind f ≠ Replicate.
Proof.
  unfold L1_stage. rewrite join_imap_nil. split.
  - intros H j Hj. destruct (lookup_lt_is_Some_2 _ _ Hj) as [c Hc].
    specialize (H j c Hc). apply opt_nil in H. rewrite negb_false_iff, existsb_elem in H.
    destruct H as (f&Hf&[Hj' Hb]%andb_true_iff). exists f. split_and!; [done|by apply Nat.eqb_eq|].
    by rewrite negb_true_iff, bool_decide_eq_false in Hb.
  - intros H j c Hc. apply opt_nil. rewrite negb_false_iff, existsb_elem.
    destruct (H j) as (f&Hf&Hj&Hb); [by eapply lookup_lt_Some|]. exists f. split; [done|].
    by rewrite Hj, Nat.eqb_refl, bool_decide_false.
Qed.
Lemma L2_nil perm si st : L2_stage perm si st = [] ↔
  ∀ f, f ∈ factors st → bind f = Replicate → duplicate perm = true.
Proof.
  unfold L2_stage. rewrite bind_nil. split; intros H f Hf.
  - intros Hb. specialize (H f Hf). apply opt_nil in H. rewrite bool_decide_true in H by done.
    cbn in H. by apply negb_false_iff in H.
  - apply opt_nil. case_bool_decide as Hb; [|done]. by rewrite (H f Hf Hb).
Qed.
Lemma L3_factor_nil perm si st f : L3_factor P perm si st f = [] ↔
  (reduction P (coord f) = true → parallel (bind f) = true →
   partition perm = true ∧ exchange st ≠ XNone ∧
   (exchange st = Atomic → ∃ a, a ∈ [Sum; And; Or; Xor] ∧ hasAlgebra P a = true)).
Proof.
  unfold L3_factor. destruct (reduction P (coord f)); [|by cbn].
  destruct (parallel (bind f)); [|by cbn]. cbn [negb orb].
  destruct (partition perm); cbn [negb]; [|split; [done|by intros []]].
  case_bool_decide as Hx; [split; [done|by intros (_&?&_)]|].
  rewrite opt_nil. case_bool_decide as Ha; cbn [andb]; [|naive_solver].
  assert (Hall : negb (hasAlgebra P Sum) && negb (hasAlgebra P And) && negb (hasAlgebra P Or) &&
    negb (hasAlgebra P Xor) = negb (existsb (hasAlgebra P) [Sum; And; Or; Xor])).
  { cbn. rewrite orb_false_r, !negb_orb, !andb_assoc. done. }
  rewrite Hall, negb_false_iff, existsb_elem. naive_solver.
Qed.
Lemma L4_fusion_nil si st o : L4_fusion S si st o = [] ↔
  ∃ ot, stages S !! o = Some ot ∧
    (order st = [] ∨ order ot = [] ∨ ∃ n, n ∈ order st ∧ n ∈ order ot).
Proof.
  unfold L4_fusion. destruct (stages S !! o) as [ot|]; [|naive_solver].
  rewrite opt_nil, !andb_false_iff, !negb_false_iff, !bool_decide_eq_true, existsb_elem.
  setoid_rewrite bool_decide_eq_true. naive_solver.
Qed.
Lemma L5_nil si st : L5_stage P si st = [] ↔
  ∀ f ac, f ∈ factors st → bind f = Replicate → ac ∈ accesses P → store ac = false ∧ atomic ac = false.
Proof.
  unfold L5_stage. destruct (existsb _ (factors st)) eqn:E; cbn [negb].
  - rewrite bind_nil. setoid_rewrite opt_nil. setoid_rewrite orb_false_iff.
    apply existsb_elem in E as (f&Hf&Hb%bool_decide_eq_true). naive_solver.
  - split; [|done]. intros _ f ac Hf Hb. rewrite existsb_none in E. specialize (E f Hf).
    unfold bound_to in E. by rewrite bool_decide_true in E.
Qed.
Lemma L6_nil si st : L6_stage P si st = [] ↔ (guards P ≠ [] → predicate st ≠ PNone).
Proof.
  unfold L6_stage. rewrite opt_nil, andb_false_iff, negb_false_iff, bool_decide_eq_true,
    bool_decide_eq_false. destruct (decide (guards P = [])); naive_solver.
Qed.
Lemma L7_nil perm si st : L7_stage P perm si st = [] ↔
  (engine st = TensorOp → isContraction P = true) ∧
  (∀ f, f ∈ factors st → reduction P (coord f) = true → bind f = Unroll → reorder perm = true).
Proof.
  unfold L7_stage. cbv zeta. rewrite app_nil, !opt_nil, !andb_false_iff, !negb_false_iff, bool_decide_eq_false.
  rewrite existsb_none. setoid_rewrite andb_false_iff. unfold bound_to.
  setoid_rewrite bool_decide_eq_false.
  split; intros [H1 H2]; split.
  - naive_solver.
  - intros f Hf Hr Hb. destruct H2 as [H2|]; [|done]. destruct (H2 f Hf); congruence.
  - destruct (decide (engine st = TensorOp)); naive_solver.
  - destruct (reorder perm); [by right|left]. intros f Hf.
    destruct (reduction P (coord f)) eqn:Er; [right|by left]. intros Hb. by specialize (H2 f Hf Er Hb).
Qed.
Lemma L8_nil si st : L8_stage si st = [] ↔ smemBytes st <= 32768 ∧ threadScale st <= 32.
Proof. unfold L8_stage. rewrite app_nil, !opt_nil. lia. Qed.
Lemma L10_nil : L10_obs P = [] ↔ unfitted P = [].
Proof. unfold L10_obs. rewrite opt_nil, negb_false_iff. apply bool_decide_eq_true. Qed.
Lemma L13_nil : L13_obs P = [] ↔
  numerical_class P = "inherit" ∨ numerical_class P = "explicit-budget".
Proof.
  unfold L13_obs. rewrite opt_nil, andb_false_iff, !negb_false_iff. by rewrite !String.eqb_eq.
Qed.
End groups.

(** ** Properties *)
Lemma check_ok_iff P S : r_ok (check P S) = true ↔ Legal P S.
Proof.
  destruct (wellFormed P S) as [[]|why] eqn:Hw.
  2:{ unfold check. rewrite Hw. split; [done|]. intros HL. by rewrite (Legal_wf _ _ HL) in Hw. }
  rewrite check_result by done. cbn [r_ok]. rewrite forallb_forall.
  setoid_rewrite <- list_elem_of_In. rewrite <- (Forall_forall (λ g, empty_group g = true)).
  unfold groups, empty_group. cbv zeta.
  rewrite !Forall_cons, Forall_nil, !bool_decide_eq_true. cbn [snd].
  rewrite (stagewise_all (L1_stage P) S _ (λ si st _, L1_nil P si st)).
  rewrite (stagewise_all (L2_stage _) S _ (λ si st _, L2_nil _ si st)).
  rewrite (stagewise_all (L3_stage P _) S (λ st, ∀ f, f ∈ factors st → L3_factor P (permits P) 0 st f = [])).
  2:{ intros si st _. unfold L3_stage. rewrite bind_nil. split; intros H f Hf;
        specialize (H f Hf); by rewrite L3_factor_nil in *. }
  rewrite (stagewise_all (L4_stage S) S (λ st, ∀ o, o ∈ fusedWith st → L4_fusion S 0 st o = [])).
  2:{ intros si st _. unfold L4_stage. rewrite bind_nil. split; intros H o Ho;
        specialize (H o Ho); by rewrite L4_fusion_nil in *. }
  rewrite (stagewise_all (L5_stage P) S _ (λ si st _, L5_nil P si st)).
  rewrite (stagewise_all (L6_stage P) S _ (λ si st _, L6_nil P si st)).
  rewrite (stagewise_all (L7_stage P _) S _ (λ si st _, L7_nil P _ si st)).
  rewrite (stagewise_all L8_stage S _ (λ si st _, L8_nil si st)).
  rewrite L10_nil, L13_nil. setoid_rewrite L3_factor_nil. setoid_rewrite L4_fusion_nil.
  split.
  - intros (H1&H2&H3&H4&H5&H6&H7&H8&_&H10&H13&_). constructor; try done; try (intros; by eauto).
    + intros st Hst Ht. by apply (H7 st).
    + intros st f Hst Hf Hr Hb. destruct (H7 st Hst) as [_ H]. by eapply H.
  - intros [Hwf H1 H2 H3 H4 H5 H6 H7 H7' H8 H10 H13]. split_and!; try done; try (intros; by eauto).
Qed.

(** [C1] The checker accepts a schedule exactly when it satisfies the rules its code enforces: well-formed, every
    coordinate owned by a non-replicated factor, replication, partitioned reductions and reordering only as
    the recurrence algebra permits, fused stages sharing a time factor, no effects on replicated
    axes, guards realised, tensor engines on contractions only, resources within bounds, no
    unfitted site and no silent quantization.  Two rules its comments announce are not among them, because no code
    enforces them: that register storage requires a same-lane producer (part of L4, [storage_unchecked]) and
    freshness (L9). *)
Theorem check_iff_legal P S : r_ok (check P S) = true ↔ Legal P S.
Proof. apply check_ok_iff. Qed.

(** the numbers of the obligations and their names *)
Definition obligation_names : list (Z * string) :=
  [(1, "coverage"); (2, "no-illegal-duplication"); (3, "partial-state-combine");
   (4, "dependency-order"); (5, "effect-order"); (6, "predicates"); (7, "numerical-class");
   (8, "resources"); (9, "freshness"); (10, "assumptions"); (13, "numerical-budget")].

Lemma group_names P S : (λ g : group, g.1) <$> groups P S = obligation_names.
Proof. done. Qed.
Lemma groups_by_number P S g o :
  g ∈ groups P S → o ∈ mjoin (snd <$> groups P S) → ob_n o = g.1.1 → o ∈ g.2.
Proof.
  intros Hg Ho Hn. apply list_elem_of_join in Ho as (obs&Ho&Hobs).
  apply list_elem_of_fmap in Hobs as (g'&->&Hg').
  pose proof (groups_numbered P S) as Hnum. rewrite Forall_forall in Hnum.
  specialize (Hnum g' Hg'). unfold numbered in Hnum. rewrite Forall_forall in Hnum.
  specialize (Hnum o Ho). assert (E : g' = g); [|by subst].
  rewrite Hn in Hnum. unfold groups in Hg, Hg'. cbv zeta in Hg, Hg'.
  repeat (apply elem_of_cons in Hg as [->|Hg]); try (by apply elem_of_nil in Hg);
    repeat (apply elem_of_cons in Hg' as [->|Hg']); try (by apply elem_of_nil in Hg'); done.
Qed.

(** For a well-formed schedule the report is exact: every obligation of the list is either
    discharged, or failed with at least one obligation of its number, and never both; a failed
    one always carries a number from 1 to 15. *)
Theorem check_report_exact P S n nm :
  wellFormed P S = Ok tt → (n, nm) ∈ obligation_names →
  (label n nm ∈ discharged (check P S) ↔ ¬ ∃ o, o ∈ failed (check P S) ∧ ob_n o = n) ∧
  (∀ o, o ∈ failed (check P S) → 1 <= ob_n o <= 15).
Proof.
  intros Hw Hn. rewrite check_result by done. cbn [failed discharged].
  pose proof (groups_numbered P S) as Hnum. rewrite Forall_forall in Hnum.
  assert (Hr : ∀ o, o ∈ mjoin (snd <$> groups P S) → ∃ g, g ∈ groups P S ∧ ob_n o = g.1.1).
  { intros o (obs&Ho&Hobs)%list_elem_of_join. apply list_elem_of_fmap in Hobs as (g&->&Hg).
    exists g. split; [done|]. specialize (Hnum g Hg). unfold numbered in Hnum.
    rewrite Forall_forall in Hnum. by apply Hnum. }
  split.
  2:{ intros o Ho. destruct (Hr o Ho) as (g&Hg&->).
      assert (Hin : g.1 ∈ obligation_names) by (rewrite <- (group_names P S); by apply list_elem_of_fmap_2).
      unfold obligation_names in Hin.
      repeat (apply elem_of_cons in Hin as [->|Hin]); [cbn; lia..|by apply elem_of_nil in Hin]. }
  rewrite <- (group_names P S) in Hn. apply list_elem_of_fmap in Hn as (g&Eg&Hg).
  assert (Hl : label n nm ∈ labels (groups P S) ↔ empty_group g = true).
  { unfold labels. rewrite list_elem_of_fmap. setoid_rewrite list_elem_of_In.
    setoid_rewrite filter_In. setoid_rewrite <- list_elem_of_In. split.
    - intros (g'&El&Hg'&He). assert (g' = g) as ->; [|done].
      assert (Hg1 : g.1 = (n, nm)) by done. clear Hr Hnum Eg.
      unfold groups in Hg, Hg'. cbv zeta in Hg, Hg'.
      repeat (apply elem_of_cons in Hg as [->|Hg]); try (by apply elem_of_nil in Hg);
        cbn in Hg1; simplify_eq;
        repeat (apply elem_of_cons in Hg' as [->|Hg']); try (by apply elem_of_nil in Hg'); done.
    - intros He. exists g. rewrite <- Eg. done. }
  rewrite Hl. unfold empty_group. rewrite bool_decide_eq_true. split.
  - intros Hnil (o&Ho&Hno). assert (o ∈ g.2) as H.
    { apply (groups_by_number P S); [done|done|]. by rewrite <- Eg. }
    rewrite Hnil in H. by apply elem_of_nil in H.
  - intros Hno. destruct (g.2) as [|o obs] eqn:E; [done|]. exfalso. apply Hno. exists o.
    assert (Ho : o ∈ g.2) by (rewrite E; by left). split.
    + apply list_elem_of_join. exists g.2. split; [done|]. by apply list_elem_of_fmap_2.
    + specialize (Hnum g Hg). unfold numbered in Hnum. rewrite Forall_forall in Hnum.
      rewrite (Hnum o Ho). by rewrite <- Eg.
Qed.

(** No rule looks at where a stage keeps its tensors: whatever the storages are changed to, registers
    included, the report of the checker is the same. *)
Definition set_storages (f : StageSchedule → list AccessStorage) (S : Schedule) : Schedule :=
  mkSchedule (s_kernel S) (s_why S) ((λ st, set_storage (f st) st) <$> stages S).
Lemma wf_stages_storages P f : ∀ sts si, wf_stages P si ((λ st, set_storage (f st) st) <$> sts) = wf_stages P si sts.
Proof.
  induction sts as [|st sts IH]; intros si; [done|]. cbn [fmap list_fmap wf_stages]. rewrite <- (IH (S si)). reflexivity.
Qed.
Lemma stagewise_storages f F F' S : (∀ si st, F si (set_storage (f st) st) = F' si st) →
  stagewise F (set_storages f S) = stagewise F' S.
Proof.
  intros HF. unfold stagewise. cbn [stages set_storages]. f_equal. rewrite imap_fmap. apply imap_ext. intros si st _. apply HF.
Qed.
Theorem storage_unchecked P S f : check P (set_storages f S) = check P S.
Proof.
  assert (wellFormed P (set_storages f S) = wellFormed P S) as Hw.
  { unfold wellFormed. cbn [stages set_storages]. rewrite wf_stages_storages. f_equal. by destruct (stages S). }
  unfold check. rewrite Hw. destruct (wellFormed P S) as [[]|]; [|done]. unfold pass.
  assert (∀ si st, L4_stage (set_storages f S) si (set_storage (f st) st) = L4_stage S si st) as H4.
  { intros si st. unfold L4_stage. apply list_bind_ext; [|done]. intros o. unfold L4_fusion.
    cbn [stages set_storages order set_storage]. rewrite list_lookup_fmap. by destruct (stages S !! o). }
  rewrite (stagewise_storages f (L1_stage P) (L1_stage P)), (stagewise_storages f (L2_stage _) (L2_stage (permits P))),
    (stagewise_storages f (L3_stage P _) (L3_stage P (permits P))), (stagewise_storages f (L4_stage (set_storages f S)) (L4_stage S)),
    (stagewise_storages f (L5_stage P) (L5_stage P)), (stagewise_storages f (L6_stage P) (L6_stage P)),
    (stagewise_storages f (L7_stage P _) (L7_stage P (permits P))), (stagewise_storages f L8_stage L8_stage); done.
Qed.

(** ** What the permissions of a legal schedule give *)

(** [op] is a combining operation of a loop-carried value of algebra [a]: the operation of the algebra; for an
    invariant, keeping the value; for a value whose update is order-sensitive, unknown or coupled with others, any
    operation at all.  (Inductions and permutations are control: no loop counts them among its data.) *)
Definition combines (a : Algebra) (op : Z → Z → Z) : Prop :=
  match a with
  | Invariant => ∀ x t, op x t = x
  | OrderSensitive | Unknown | Tuple => True
  | _ => algebra_op a = Some op
  end.
(** a loop of [P] with data carries a value of algebra [a] that is combined with [op], and claims no more for it
    than [permissionsOf] *)
Definition claims_at_most (p q : Permissions) : Prop :=
  (partition p = true → partition q = true) ∧ (reorder p = true → reorder q = true) ∧
  (duplicate p = true → duplicate q = true).
Definition recurs (P : Program) (a : Algebra) (op : Z → Z → Z) : Prop :=
  combines a op ∧ ∃ L, L ∈ loops P ∧ anyData L = true ∧ claims_at_most (Stir.permits L) (permissionsOf a).
Lemma claims_trans p q r : claims_at_most p q → claims_at_most q r → claims_at_most p r.
Proof. unfold claims_at_most. naive_solver. Qed.
Lemma claims_and_l p q : claims_at_most (permits_and p q) p.
Proof. destruct p, q. unfold claims_at_most, permits_and. cbn. by rewrite !andb_true_iff; naive_solver. Qed.
Lemma claims_and_r p q : claims_at_most (permits_and p q) q.
Proof. destruct p, q. unfold claims_at_most, permits_and. cbn. by rewrite !andb_true_iff; naive_solver. Qed.
(** the permissions of a program are those all its loops with data grant *)
Lemma permits_loop P L : L ∈ loops P → anyData L = true → claims_at_most (permits P) (Stir.permits L).
Proof.
  unfold permits, data_permits. set (step := λ acc L, _). intros HL Hd.
  enough (∀ ls acc, (∃ p, acc = Some p ∧ claims_at_most p (Stir.permits L)) ∨ L ∈ ls →
    ∃ p, fold_left step ls acc = Some p ∧ claims_at_most p (Stir.permits L)) as He.
  { destruct (He (loops P) None) as (p & -> & Hp); [by right|done]. }
  induction ls as [|L' ls IH]; intros acc [Hacc|Hin]; cbn [fold_left]; try done; try (by apply elem_of_nil in Hin).
  - apply IH. left. destruct Hacc as (p & -> & Hp). unfold step. destruct (anyData L'); [|eauto].
    eexists. split; [done|]. eapply claims_trans; [apply claims_and_l|done].
  - apply IH. apply elem_of_cons in Hin as [<-|Hin]; [left|by right]. unfold step. rewrite Hd.
    destruct acc as [p|]; eexists; (split; [done|]); [apply claims_and_r|by repeat split].
Qed.
(** what an algebra grants, its operations allow *)
Lemma granted a op : combines a op →
  (partition (permissionsOf a) = true → can_partition op) ∧ (reorder (permissionsOf a) = true → can_reorder op) ∧
  (duplicate (permissionsOf a) = true → can_duplicate op).
Proof.
  intros Ha. destruct (decide (a = Invariant)) as [->|Hne].
  - assert (∀ l x, run op x l = x) as Hrun.
    { induction l as [|t l IH]; intros x; [done|]. unfold run in *. cbn. by rewrite IH, Ha. }
    unfold can_partition, can_reorder, can_duplicate. split_and!; intros _; intros; by rewrite ?Hrun, ?Ha.
  - destruct (algebra_op a) as [op'|] eqn:Eop.
    + assert (op' = op) as -> by (destruct a; cbn in *; congruence). destruct (permissionsOf_sound a op Eop) as (Hr & Hp & Hd).
      split_and!; [intros H; apply Hp; by rewrite H|done|by apply Hd].
    + destruct a; cbn in *; try done; by repeat split.
Qed.


(** ** Graph-level obligations *)
Record GraphEdge := mkEdge { from : nat; to : nat; e_tensor : string; sameBlock : bool; hostVisible : bool }.
Record Graph := mkGraph { kernels : list string; edges : list GraphEdge; deviceOf : list Z; world : Z }.
Definition graph0 : Graph := mkGraph [] [] [] 1.

Definition edge_obs (G : Graph) (e : GraphEdge) : list Obligation :=
  match kernels G !! from e, kernels G !! to e with
  | Some kf, Some kt =>
      (opt (negb (sameBlock e))
        (mkObligation 11 (kf +++ "→" +++ kt)
           "consumer reads bytes another block wrote (Metal has no grid barrier)") ++
       opt (hostVisible e)
        (mkObligation 12 (e_tensor e) "host-visible pointer aliases an intermediate; layout is not free"))%list
  | _, _ => [mkObligation 11 "" "edge endpoint out of range"]
  end.
Definition graph_world (G : Graph) : Z := if world G =? 0 then 1 else world G.
Definition device_obs (G : Graph) : list Obligation :=
  deviceOf G ≫= λ d, opt (graph_world G <=? d)
    (mkObligation 15 "" ("device " +++ to_string d +++ " is outside world " +++ to_string (graph_world G))).
Definition checkGraph (G : Graph) : Result :=
  let R := fails result0 (edges G ≫= edge_obs G) in
  let R := ok_unless_last R 11 "cross-launch-dependency" in
  let R := ok_unless_last R 12 "layout-agreement" in
  if negb (bool_decide (deviceOf G = [])) && negb (length (deviceOf G) =? length (kernels G))%nat
  then fail R (mkObligation 15 "" "deviceOf length does not match kernels")
  else
    let R := ok R 14 "collective-consistency" in
    let bad := device_obs G in
    let R := fails R bad in
    if bool_decide (bad = []) then ok R 15 "residency" else R.

(** [kernIndex]: the first kernel whose name contains [nm] *)
Definition kernIndex (G : Graph) (nm : string) : option nat :=
  fst <$> list_find (λ k, String.eqb k nm || starts k nm || contains k nm = true) (kernels G).

(** what [is >> tensor >> same >> host] reads from the rest of a line: a failed extraction of an
    integer stores 0, one at the end of the line leaves the value unchanged, and both stop the
    later extractions *)
Definition read_int (s : string) (dflt : Z) : Z * option string :=
  let r := drop_while isspace s in
  if is_empty r then (dflt, None)
  else let '(sg, r') := sign_of r in
       let '(ds, r'') := span isdigit r' in
       if is_empty ds then (0, None)
       else let v := sg * digits_value 10 0 ds in
            if (v <? - 2 ^ 31) || (2 ^ 31 <=? v)
            then ((if v <? 0 then - 2 ^ 31 else 2 ^ 31 - 1), None)
            else (v, Some r'').
Definition read_word (s : string) : option (string * string) :=
  let '(w, r) := span (λ c, negb (isspace c)) (drop_while isspace s) in
  if is_empty w then None else Some (w, r).

Inductive graph_line := GSkip | GEdge (src dst : string) (tensor : string) (same host : Z).
Definition parse_graph_line (line : string) : graph_line :=
  if is_empty line || match head_char line with Some c => is_char "#" c | None => false end then GSkip
  else
    match read_word line with
    | None => GSkip
    | Some (src, r) =>
        match read_word r with
        | None => GSkip
        | Some (dst, r) =>
            match read_word r with
            | None => GEdge src dst "x" 1 0
            | Some (tensor, r) =>
                match read_int r 1 with
                | (same, None) => GEdge src dst tensor same 0
                | (same, Some r) => GEdge src dst tensor same (fst (read_int r 0))
                end
            end
        end
    end.
Definition add_edge (G : Graph) (e : GraphEdge) : Graph :=
  mkGraph (kernels G) (edges G ++ [e])%list (deviceOf G) (world G).
Fixpoint load_lines (G : Graph) (ls : list string) : result string Graph :=
  match ls with
  | [] => Ok G
  | l :: ls =>
      match parse_graph_line l with
      | GSkip => load_lines G ls
      | GEdge src dst tensor same host =>
          match kernIndex G src, kernIndex G dst with
          | Some a, Some b =>
              load_lines (add_edge G (mkEdge a b tensor (negb (same =? 0)) (negb (host =? 0)))) ls
          | _, _ => Err ("unknown kernel in edge " +++ src +++ " → " +++ dst)
          end
      end
  end.
(** [file] is the contents of [path], [None] when it cannot be read *)
Definition loadGraphFile (path : string) (file : option string) (G : Graph) : result string Graph :=
  match file with
  | None => Err ("cannot read " +++ path)
  | Some text => load_lines G (getlines text)
  end.
Definition inferModuleSequentialEdges (G : Graph) : Graph :=
  mkGraph (kernels G)
    (edges G ++ imap (λ i _, mkEdge i (S i) "x" true false) (List.tl (kernels G)))%list
    (deviceOf G) (world G).

Example load_graph :
  edges <$> ok_of (loadGraphFile "g" (Some ("norm gemm x 1 0" +++ String (chr 10) "")) (mkGraph ["norm"; "gemm"] [] [] 1))
  = Some [mkEdge 0 1 "x" true false].
Proof. vm_compute. reflexivity. Qed.

Record GraphLegal (G : Graph) : Prop := {
  GL_range : ∀ e, e ∈ edges G → (from e < length (kernels G))%nat ∧ (to e < length (kernels G))%nat;
  GL_block : ∀ e, e ∈ edges G → sameBlock e = true;
  GL_host : ∀ e, e ∈ edges G → hostVisible e = false;
  GL_devices : deviceOf G = [] ∨ length (deviceOf G) = length (kernels G);
  GL_world : ∀ d, d ∈ deviceOf G → d < graph_world G }.

Lemma edge_obs_nil G e : edge_obs G e = [] ↔
  ((from e < length (kernels G))%nat ∧ (to e < length (kernels G))%nat) ∧
  sameBlock e = true ∧ hostVisible e = false.
Proof.
  unfold edge_obs. rewrite <- !lookup_lt_is_Some.
  destruct (kernels G !! from e) as [kf|]; [|split; [done|by intros [[[]]]]].
  destruct (kernels G !! to e) as [kt|]; [|split; [done|by intros [[_ []]]]].
  rewrite app_nil, !opt_nil, negb_false_iff. naive_solver.
Qed.
Lemma device_obs_nil G : device_obs G = [] ↔ ∀ d, d ∈ deviceOf G → d < graph_world G.
Proof. unfold device_obs. rewrite bind_nil. setoid_rewrite opt_nil. by setoid_rewrite Z.leb_gt. Qed.
Lemma ok_unless_last_ok R n nm : r_ok (ok_unless_last R n nm) = r_ok R.
Proof. unfold ok_unless_last. repeat case_match; done. Qed.
Lemma fails_ok R os : r_ok (fails R os) = r_ok R && bool_decide (os = []).
Proof.
  rewrite fails_eq. destruct os; [by rewrite bool_decide_true, andb_true_r|].
  by rewrite bool_decide_false, andb_false_r.
Qed.

Lemma checkGraph_ok_iff G : r_ok (checkGraph G) = true ↔ GraphLegal G.
Proof.
  unfold checkGraph. cbv zeta.
  set (R := ok_unless_last (ok_unless_last _ 11 _) 12 _).
  assert (HR : r_ok R = bool_decide (edges G ≫= edge_obs G = [])).
  { unfold R. by rewrite !ok_unless_last_ok, fails_ok. }
  assert (HE : bool_decide (edges G ≫= edge_obs G = []) = true ↔
    ∀ e, e ∈ edges G → ((from e < length (kernels G))%nat ∧ (to e < length (kernels G))%nat) ∧
      sameBlock e = true ∧ hostVisible e = false).
  { rewrite bool_decide_eq_true, bind_nil. by setoid_rewrite edge_obs_nil. }
  clearbody R. case_match eqn:Ed.
  - split; [done|]. intros [_ _ _ Hd _]. apply andb_true_iff in Ed as [E1 E2].
    rewrite negb_true_iff, bool_decide_eq_false in E1. rewrite negb_true_iff, Nat.eqb_neq in E2.
    by destruct Hd.
  - assert (Hd : deviceOf G = [] ∨ length (deviceOf G) = length (kernels G)).
    { apply andb_false_iff in Ed as [E|E]; rewrite negb_false_iff in E;
        [left; by apply bool_decide_eq_true in E|right; by apply Nat.eqb_eq]. }
    assert (Hok : r_ok (if bool_decide (device_obs G = [])
        then ok (fails (ok R 14 "collective-consistency") (device_obs G)) 15 "residency"
        else fails (ok R 14 "collective-consistency") (device_obs G)) =
      r_ok R && bool_decide (device_obs G = [])).
    { rewrite fails_eq. destruct (device_obs G); [by rewrite bool_decide_true, andb_true_r|].
      by rewrite bool_decide_false, andb_false_r. }
    rewrite Hok, andb_true_iff, HR, HE, bool_decide_eq_true, device_obs_nil. split.
    + intros [He Hw]. constructor; try done; intros e Hin; by destruct (He e Hin) as (?&?&?).
    + intros [H1 H2 H3 _ H5]. split; [|done]. intros e Hin. auto.
Qed.

(** A fusion graph is accepted exactly when every edge joins known kernels inside one block,
    none is visible to the host, and every kernel's device lies in the world. *)
Theorem checkGraph_iff_legal G : r_ok (checkGraph G) = true ↔ GraphLegal G.
Proof. apply checkGraph_ok_iff. Qed.

(** The edges inferred from the module order keep a legal graph legal. *)
Theorem inferred_edges_legal G :
  r_ok (checkGraph G) = true → r_ok (checkGraph (inferModuleSequentialEdges G)) = true.
Proof.
  rewrite !checkGraph_ok_iff. intros [H1 H2 H3 H4 H5].
  assert (Hi : ∀ e, e ∈ imap (λ i _, mkEdge i (S i) "x" true false) (List.tl (kernels G)) →
    (from e < length (kernels G))%nat ∧ (to e < length (kernels G))%nat ∧
    sameBlock e = true ∧ hostVisible e = false).
  { intros e (i&k&->&Hk)%elem_of_lookup_imap_1. apply lookup_lt_Some in Hk.
    destruct (kernels G) as [|k0 ks]; cbn in *; split_and!; try done; lia. }
  constructor; cbn [kernels edges deviceOf inferModuleSequentialEdges];
    try (intros e [He|He]%elem_of_app; [by auto|by destruct (Hi e He) as (?&?&?&?)]); done.
Qed.
Lemma inferred_edges_legal_witness :
  r_ok (checkGraph (inferModuleSequentialEdges (mkGraph ["norm"; "gemm"; "silu"] [] [0; 0; 1] 2))) = true.
Proof. apply inferred_edges_legal. reflexivity. Defined.

(** The report of a graph is not exact: with an edge that crosses blocks followed by one that
    is visible to the host, the checker lists L11 as discharged although L11 has failed. *)
Theorem graph_L11_misreported :
  ∃ G, label 11 "cross-launch-dependency" ∈ discharged (checkGraph G) ∧
       ∃ o, o ∈ failed (checkGraph G) ∧ ob_n o = 11.
Proof.
  exists (mkGraph ["a"; "b"; "c"] [mkEdge 0 1 "x" false false; mkEdge 1 2 "y" true true] [] 1).
  split; [apply (bool_decide_unpack _); by vm_compute|].
  eexists. split; [by left|done].
Qed.

Lemma check_report_exact_witness :
  label 9 "freshness" ∈ discharged (check (direct.gemm "g") (sourceSchedule (direct.gemm "g"))).
Proof.
  apply (check_report_exact (direct.gemm "g") (sourceSchedule (direct.gemm "g")) 9 "freshness").
  - vm_compute. reflexivity.
  - unfold obligation_names. do 8 right. by left.
  - intros (o&Ho&_). vm_compute in Ho. by apply elem_of_nil in Ho.
Defined.
