(* ===== verification/Engine.v ===== *)
(** The schedule engine: cpp/mvcc-llvm/engine.h and engine.cpp without its self-test.  Targets,
    emission plans, the choice among the candidates with its database of measured winners, the
    explanation and the two command-line entry points.  The environment variables and files are
    arguments ([None] when unset or unreadable); LLVM's printing of a double is a parameter. *)
From S2P Require Import Prelude Cstd SigAlgebra Stir Schedule ScheduleText Fp64 ScheduleCost Legality.
Open Scope string_scope.
Open Scope Z_scope.

(** ** Targets *)
Record Target := mkTarget {
  tg_name : string; engines : list string; tg_smemBytes : Z; bwGBps : f64; tflops : f64 }.
Definition metal4 : Target :=
  mkTarget "metal4-tensorops" ["tensor-op"; "scalar-fma"; "simd-vector"] 32768 (of_Z 125) (dec 185 (-1)).
Definition simdgroupMatrix : Target :=
  mkTarget "simdgroup-matrix" ["tensor-op"; "scalar-fma"] 32768 (of_Z 125) (dec 74 (-1)).
Definition scalarMSL : Target :=
  mkTarget "scalar-msl" ["scalar-fma"; "simd-vector"] 32768 (of_Z 125) (of_Z 1).
Definition nvptxOracle : Target :=
  mkTarget "nvptx-oracle" ["mma.sync"; "scalar-fma"] 232448 (of_Z 2000) (of_Z 150).

Inductive Precision := Inherit | FpReassoc32 | FpReassocStar | ExplicitBudget.
Definition precisionName (p : Precision) : string :=
  match p with
  | Inherit => "inherit" | FpReassoc32 => "fp-reassoc(32)" | FpReassocStar => "fp-reassoc(*)"
  | ExplicitBudget => "explicit-budget"
  end.

(** ** Emission plans *)
Record EmitPlan := mkPlan { canEmit : bool; e_why : string; steps : list string }.
Definition planEmit (P : Program) (S : Schedule) (L : Result) : EmitPlan :=
  if negb (r_ok L) then mkPlan false (first L) []
  else
    mkPlan true
      (if String.eqb (s_why S) "source" then "identity: exact twin is a legal emission of the source schedule"
       else "check+emit: " +++ s_why S)
      (["loop nest from order ("
        +++ to_string (match stages S with [] => 0 | st :: _ => Z.of_nat (length (order st)) end)
        +++ " time factors)";
        "coordinates from bind (inverse of coordPhys for the new schedule, strength-reduced)";
        "accesses by storage; point function instantiated; combine by algebra and engine";
        "effects predicated to their owner; ABI from the schedule"] ++
       (if bool_decide (accesses P = []) then []
        else ["shared-fill dedup over " +++ to_string (Z.of_nat (length (accesses P))) +++ " accesses"]))%list.

(** ** The database of measured winners: lines of tab-separated fields *)
Definition tab : ascii := chr 9.
(** the kernel name up to its parameter list *)
Definition shortName (kernel : string) : string :=
  match split_first "(" kernel with Some (s, _) => s | None => kernel end.
(** the first two fields of a line and the rest, as two [std::getline] calls and a third read
    them; [None] when one of the two fails *)
Definition db_fields (line : string) : option (string * string * string) :=
  match split_first tab line with
  | None => None
  | Some (key, r) =>
      match split_first tab r with
      | Some (w, rest) => Some (key, w, rest)
      | None => if is_empty r then None else Some (key, r, "")
      end
  end.
(** one line of [dbResidual]'s loop *)
Definition residual_line (kernel why : string) (prior : f64) (acc : option f64) (line : string) :
    option f64 :=
  match db_fields line with
  | None => acc
  | Some (key, w, rest) =>
      if negb (String.eqb key kernel) && negb (String.eqb key (shortName kernel)) then acc
      else if negb (String.eqb w why) then acc
      else
        let meas := match split_last tab rest with Some (_, m) => atof m | None => atof rest end in
        if fle meas f0 then acc else Some (fsub meas prior)
  end.
Definition dbResidual (db : option string) (kernel why : string) (prior : f64) : option f64 :=
  match db with
  | None => None
  | Some text => if is_empty kernel then None
                 else fold_left (residual_line kernel why prior) (getlines text) None
  end.
Definition preferred_line (kernel : string) (acc : string) (line : string) : string :=
  match split_first tab line with
  | None => acc
  | Some (key, rest) =>
      if negb (String.eqb key kernel) && negb (String.eqb key (shortName kernel)) then acc
      else match split_first tab rest with Some (w, _) => w | None => rest end
  end.
Definition dbPreferredWhy (db : option string) (kernel : string) : string :=
  match db with
  | None => ""
  | Some text => if is_empty kernel then ""
                 else fold_left (preferred_line kernel) (getlines text) ""
  end.

(** ** The choice *)
Record Chosen := mkChosen {
  ch_S : Schedule; ch_cost : Cost; legality : Result; emit : EmitPlan; dbWhy : string }.

(** the best candidate so far, its legality, and whether it is the database's winner *)
Definition best : Type := Candidate * Result * bool.

Definition better (db : option string) (kernel : string) (c b : Candidate) : bool :=
  let '(rC, rB) :=
    match dbResidual db kernel (s_why (c_S c)) (seconds (c_cost c)) with
    | None => (f0, f0)
    | Some rC => match dbResidual db kernel (s_why (c_S b)) (seconds (c_cost b)) with
                 | None => (f0, f0)
                 | Some rB => (rC, rB)
                 end
    end in
  let sC := fadd (seconds (c_cost c)) rC in
  let sB := fadd (seconds (c_cost b)) rB in
  flt sC sB || (feq sC sB && String.eqb (s_why (c_S c)) "source").

Definition choose_step (P : Program) (db : option string) (acc : option best) (c : Candidate) :
    option best :=
  let L := check P (c_S c) in
  if negb (r_ok L) then acc
  else
    let prefer := dbPreferredWhy db (kernel P) in
    let thisDb := negb (is_empty prefer) && String.eqb (s_why (c_S c)) prefer in
    match acc with
    | None => Some (c, L, thisDb)
    | Some (b, _, dbHit) =>
        let take :=
          if thisDb && negb dbHit then true
          else if Bool.eqb thisDb dbHit then better db (kernel P) c b else false in
        if take then Some (c, L, thisDb) else acc
    end.

Section engine.
Context (sort : list Candidate → list Candidate).

Definition choose (P : Program) (db : option string) : Chosen :=
  match fold_left (choose_step P db) (candidates sort P search_depth search_width) None with
  | Some (c, L, dbHit) =>
      mkChosen (c_S c) (c_cost c) L (planEmit P (c_S c) L)
        (if dbHit then dbPreferredWhy db (kernel P) else "")
  | None =>
      let S := sourceSchedule P in
      let L := check P S in
      mkChosen S (costOf P S) L (planEmit P S L) ""
  end.
End engine.

(** ** The explanation *)
Fixpoint join_with (sep : string) (l : list string) : string :=
  match l with [] => "" | [x] => x | x :: l => x +++ sep +++ join_with sep l end.
Definition output_names (P : Program) : list string :=
  mjoin (imap (λ j c, if default true (coordOutput P !! j) then [c] else []) (coordNames P)).
Definition reduced_names (P : Program) : list string :=
  mjoin (imap (λ j c, if default true (coordOutput P !! j) then [] else [c]) (coordNames P)).
Definition equation (P : Program) : string :=
  "  Y[" +++ join_with "," (output_names P) +++ "] = ⊕_["
  +++ match reduced_names P with [] => "∅" | r => join_with "," r end +++ "] F("
  +++ join_with ", " (t_name <$> List.filter read (tensors P)) +++ ")".
Definition explain (P : Program) (C : Chosen) : list string :=
  (["explain " +++ kernel P; equation P;
    "  source schedule recovered; chosen why=" +++ s_why (ch_S C);
    "  cost " +++ breakdown (ch_cost C);
    "  " +++ first (legality C)] ++
   ((λ d, "    discharged " +++ d) <$> discharged (legality C)) ++
   ((λ f, "    " +++ ob_str f) <$> failed (legality C)) ++
   ["  emit " +++ e_why (emit C)] ++
   ((λ s, "    " +++ s) <$> steps (emit C)) ++
   ["  precision " +++ precisionName Inherit +++ " (silent quantization is refused)";
    "  target " +++ tg_name metal4 +++ " smem=" +++ to_string (tg_smemBytes metal4)
    +++ " bw=" +++ to_string_s (trunc (bwGBps metal4)) +++ "GB/s peak=" +++ show_f (tflops metal4)
    +++ " TFLOP/s"])%list.

Section entry_points.
Context (sort : list Candidate → list Candidate).

(** [getenv] yields a C string: its first character, if any *)
Definition env_starts (v : option string) (c : ascii) : bool :=
  match v with Some (String d _) => Ascii.eqb d c | _ => false end.
(** the lines [analyze] appends; [sched] and [expl] are MVCC_SCHED and MVCC_EXPLAIN *)
Definition analyze (P : Program) (db sched expl : option string) : list string :=
  match sched with
  | None => []
  | Some _ =>
      if env_starts sched "0" then []
      else
        let C := choose sort P db in
        (dump (ch_S C) ++ ["  cost " +++ breakdown (ch_cost C); "  " +++ first (legality C)] ++
         (if env_starts expl "1" then explain P C else []) ++
         (if r_ok (legality C)
          then ["  check+emit: " +++ first (legality C) +++ " why=" +++ s_why (ch_S C)] else []))%list
  end.

(** the kind a .stir file names; [k] is the kind so far.  A token that starts with '#' drops the
    rest of its line; every token consumes text, so the text's length is enough fuel *)
Definition known_kind (tok : string) : bool :=
  existsb (String.eqb tok) ["elementwise"; "silu"; "gemm"; "attention"; "attn"].
Fixpoint stir_kind (fuel : nat) (s k : string) : string :=
  match fuel with
  | O => k
  | S fuel =>
      match read_word s with
      | None => k
      | Some (tok, r) =>
          if starts tok "#" then
            stir_kind fuel (match split_first (chr 10) r with Some (_, r) => r | None => "" end) k
          else if String.eqb tok "kind" then
            match read_word r with Some (k, _) => k | None => k end
          else if known_kind tok then tok
          else stir_kind fuel r k
      end
  end.
Definition stir_program (k : string) : option Program :=
  if String.eqb k "elementwise" || String.eqb k "silu" then Some (direct.elementwise ("direct_" +++ k))
  else if String.eqb k "gemm" then Some (direct.gemm "direct_gemm")
  else if String.eqb k "attention" || String.eqb k "attn" then Some (direct.attention "direct_attn")
  else None.

(** the output of [stirIn] and its exit code.  [files] reads a file; [schedPath] is empty when no
    schedule is given.  A [std::stoul] exception out of the schedule's parser is not caught: [None] *)
Definition stirIn (files : string → option string) (db : option string) (kind schedPath : string) :
    option (list string * Z) :=
  let k := match files kind with
           | Some text => stir_kind (S (String.length text)) text kind
           | None => kind
           end in
  match stir_program k with
  | None => Some (["mvcc stir-in: unknown kind '" +++ k +++ "' (elementwise|gemm|attention or a .stir file)"], 2)
  | Some P =>
      let finish C hdr :=
        Some ((hdr :: explain P C ++ dump (ch_S C) ++
               ["  " +++ (if r_ok (legality C) && canEmit (emit C) then "check+emit client: ok"
                          else first (legality C))])%list,
              if r_ok (legality C) then 0 else 1) in
      if is_empty schedPath then
        finish (choose sort P db) ("stir-in " +++ k +++ " kernel=" +++ kernel P +++ " (no CUDA recovery)")
      else
        match files schedPath with
        | None => Some (["mvcc stir-in: cannot read schedule " +++ schedPath], 2)
        | Some text =>
            match parseText text with
            | Err SThrow => None
            | Err (SErr e) => Some (["mvcc stir-in: " +++ e], 2)
            | Ok Sc =>
                let L := check P Sc in
                finish (mkChosen Sc (costOf P Sc) L (planEmit P Sc L) "")
                  ("stir-in " +++ k +++ " kernel=" +++ kernel P +++ " sched-in=" +++ schedPath
                   +++ " (no CUDA recovery)")
            end
        end
  end.
End entry_points.

(** ** Synthetic programs *)
Definition synthGEMM : Program :=
  mkProgram "synthetic_gemm"
    [mk_tensor "arg0" 2 true false; mk_tensor "arg1" 2 true false; mk_tensor "arg2" 2 false true]
    ["c0"; "c1"; "c2"] [true; true; false]
    ["b0 + 2*b1 + 4*b2 + 8*b3 + 16*b4"; "b5 + 2*b6 + 4*i1"; "i0"] [] []
    [mkAccess 0 false false 16 None 0 1 false [mkIndexMap None []] None 128 0 0] [] []
    [mkLoopStmt "%k" 1 Traversal 0 true [(Sum, 32)] (mkPermissions true true false true) true ""]
    0 [] 0 0 "inherit".
Definition synthElem : Program :=
  mkProgram "synthetic_silu"
    [mk_tensor "arg0" 4 true false; mk_tensor "arg1" 4 true false; mk_tensor "arg2" 4 false true]
    ["c0"] [true] ["b0 + 2*b1 + 4*b2 + 8*b3 + 16*b4 + 32*b5 + 64*b6 + 128*b7"] [] [] [] []
    [mkGuard 40 None [] 1] [] 0 [] 0 0 "inherit".

(** [schedDiff]; [show] is LLVM's text of a double *)
Definition load_schedule (files : string → option string) (path : string) : result serror Schedule :=
  match files path with
  | None => Err (SErr ("cannot read " +++ path))
  | Some text => parseText text
  end.
Definition schedDiff (show : f64 → string) (files : string → option string) (pathA pathB : string) :
    option (list string * Z) :=
  match load_schedule files pathA with
  | Err SThrow => None
  | Err (SErr e) => Some (["mvcc diff: " +++ e], 2)
  | Ok A =>
      match load_schedule files pathB with
      | Err SThrow => None
      | Err (SErr e) => Some (["mvcc diff: " +++ e], 2)
      | Ok B =>
          let P := synthGEMM in
          let La := check P A in let Lb := check P B in
          let Ca := costOf P A in let Cb := costOf P B in
          Some ((["mvcc diff (synthetic_gemm)";
                  "  a why=" +++ s_why A +++ " cost " +++ breakdown Ca +++ " " +++ first La;
                  "  b why=" +++ s_why B +++ " cost " +++ breakdown Cb +++ " " +++ first Lb] ++
                 (if String.eqb (s_why A) (s_why B) then []
                  else ["  changed: why " +++ s_why A +++ " -> " +++ s_why B]) ++
                 (if feq (seconds Ca) (seconds Cb) then []
                  else ["  changed: predicted seconds " +++ show (seconds Ca) +++ " -> " +++ show (seconds Cb)]) ++
                 ["  " +++ (if r_ok La && r_ok Lb then "both legal" else "at least one illegal")])%list, 0)
      end
  end.

(** ** Properties *)
#[local] Open Scope list_scope.
Section choose.
Context (sort : list Candidate → list Candidate) (P : Program) (db : option string).
#[local] Arguments check : simpl never.

Definition legal (c : Candidate) : bool := r_ok (check P (c_S c)).
Definition preferred (c : Candidate) : bool :=
  negb (is_empty (dbPreferredWhy db (kernel P))) &&
  String.eqb (s_why (c_S c)) (dbPreferredWhy db (kernel P)).

(** what the loop over the candidates maintains *)
Definition best_inv (seen : list Candidate) (acc : option best) : Prop :=
  match acc with
  | None => ∀ d, d ∈ seen → legal d = false
  | Some (c, L, hit) =>
      c ∈ seen ∧ L = check P (c_S c) ∧ r_ok L = true ∧ hit = preferred c ∧
      (∀ d, d ∈ seen → legal d = true → preferred d = true → hit = true)
  end.
Lemma choose_step_inv seen acc c :
  best_inv seen acc → best_inv (seen ++ [c]) (choose_step P db acc c).
Proof.
  intros Hinv. unfold choose_step. cbv zeta. fold (legal c). fold (preferred c).
  destruct (legal c) eqn:Hl; cbn [negb].
  2:{ destruct acc as [[[b L] hit]|]; cbn in *.
      - destruct Hinv as (Hin&HL&Hok&Hh&Hp). split_and!; try done; [set_solver|].
        intros d [Hd| ->%list_elem_of_singleton]%elem_of_app; [eauto|congruence].
      - intros d [Hd| ->%list_elem_of_singleton]%elem_of_app; auto. }
  assert (Hnew : ∀ b0 : bool, (b0 = true → preferred c = true) →
    (∀ d, d ∈ seen → legal d = true → preferred d = true → b0 = true) →
    best_inv (seen ++ [c]) (Some (c, check P (c_S c), preferred c))).
  { intros b0 Hb Hs. cbn. split_and!; try done; [set_solver|].
    intros d [Hd| ->%list_elem_of_singleton]%elem_of_app Hld Hpd; [|done]. apply Hb. eauto. }
  destruct acc as [[[b L] hit]|]; cbn in Hinv.
  - destruct Hinv as (Hin&HL&Hok&Hh&Hp).
    assert (Hkeep : (preferred c = true → hit = true) →
      best_inv (seen ++ [c]) (Some (b, L, hit))).
    { intros Hc. cbn. split_and!; try done; [set_solver|].
      intros d [Hd| ->%list_elem_of_singleton]%elem_of_app Hld Hpd; eauto. }
    destruct (preferred c) eqn:Ec, hit eqn:Eh; cbn [negb andb Bool.eqb].
    + destruct (better _ _ _ _); [by apply (Hnew true)|by apply Hkeep].
    + by apply (Hnew false).
    + by apply Hkeep.
    + destruct (better _ _ _ _); [by apply (Hnew false)|by apply Hkeep].
  - apply (Hnew false); [done|]. intros d Hd Hld. by rewrite Hinv in Hld.
Qed.
Lemma choose_fold_inv cs seen acc :
  best_inv seen acc → best_inv (seen ++ cs) (fold_left (choose_step P db) cs acc).
Proof.
  revert seen acc. induction cs as [|c cs IH]; intros seen acc H; [by rewrite app_nil_r|].
  cbn [fold_left]. replace (seen ++ c :: cs)%list with ((seen ++ [c]) ++ cs)%list
    by by rewrite <- app_assoc.
  apply IH. by apply choose_step_inv.
Qed.
Lemma choose_inv :
  best_inv (candidates sort P search_depth search_width)
    (fold_left (choose_step P db) (candidates sort P search_depth search_width) None).
Proof. apply (choose_fold_inv _ []). cbn. by intros ? ?%elem_of_nil. Qed.
End choose.

Lemma planEmit_ok P Sc L : canEmit (planEmit P Sc L) = r_ok L.
Proof. unfold planEmit. by destruct (r_ok L). Qed.
Lemma planEmit_refused P Sc L : r_ok L = false → e_why (planEmit P Sc L) = first L.
Proof. unfold planEmit. by intros ->. Qed.

Section choose_spec.
Context (sort : list Candidate → list Candidate) `{!StdSort sort} (P : Program).

(** [C3] The choice is sound: its legality report and cost are those of the schedule it returns,
    it emits exactly when that schedule is legal, it is legal whenever any candidate is, and when
    it is not the refusal names the first failed obligation of the source schedule. *)
Theorem choose_sound db :
  let C := choose sort P db in
  legality C = check P (ch_S C) ∧ ch_cost C = costOf P (ch_S C) ∧
  canEmit (emit C) = r_ok (check P (ch_S C)) ∧
  ((∃ c, c ∈ candidates sort P search_depth search_width ∧ r_ok (check P (c_S c)) = true) →
   canEmit (emit C) = true) ∧
  (canEmit (emit C) = false →
   ch_S C = sourceSchedule P ∧ e_why (emit C) = first (check P (sourceSchedule P))).
Proof.
  cbv zeta. unfold choose. pose proof (choose_inv sort P db) as Hinv.
  destruct (fold_left _ _ _) as [[[c L] hit]|] eqn:E; cbn [ch_S ch_cost legality emit].
  - destruct Hinv as (Hin&->&Hok&_). rewrite planEmit_ok, Hok.
    destruct (candidates_cases sort P search_depth search_width ltac:(unfold search_width; lia))
      as (out&rest&Hso&Hcases).
    assert (Hcost : c_cost c = costOf P (c_S c)).
    { destruct (explored_inv P search_depth) as [seen [Hexp _ _ _]].
      assert (Hout : ∀ d, d ∈ out → c_cost d = costOf P (c_S d)).
      { intros d Hd. apply Hexp. cbn. rewrite <- (sort_perm (explored P search_depth)), Hso.
        apply elem_of_app. by left. }
      destruct Hcases as [[Hc _]|[Hc _]]; rewrite Hc in Hin; [by apply Hout|].
      apply elem_of_app in Hin as [Hin|Hin]; [by apply Hout|].
      by apply list_elem_of_singleton in Hin as ->. }
    split_and!; done.
  - rewrite planEmit_ok. split_and!; try done.
    + intros (c&Hc&Hl). cbn in Hinv. specialize (Hinv c Hc). unfold legal in Hinv. congruence.
    + intros Hn. split; [done|]. by apply planEmit_refused.
Qed.

(** The database of measured winners outranks the cost model: when its last entry for this
    kernel names a legal candidate, a schedule of that name is chosen and reported as such. *)
Theorem choose_prefers_db db w :
  dbPreferredWhy db (kernel P) = w → w ≠ "" →
  (∃ c, c ∈ candidates sort P search_depth search_width ∧ s_why (c_S c) = w ∧
        r_ok (check P (c_S c)) = true) →
  s_why (ch_S (choose sort P db)) = w ∧ dbWhy (choose sort P db) = w.
Proof.
  intros Hw Hne (c&Hc&Hy&Hl). unfold choose. pose proof (choose_inv sort P db) as Hinv.
  destruct (fold_left _ _ _) as [[[b L] hit]|] eqn:E; cbn [ch_S dbWhy].
  - destruct Hinv as (Hin&_&_&Hh&Hp).
    assert (Hpc : ∀ d, preferred P db d = true ↔ s_why (c_S d) = w).
    { intros d. unfold preferred. rewrite Hw. destruct w; [done|]. cbn [is_empty negb andb].
      apply String.eqb_eq. }
    assert (hit = true) as ->.
    { apply (Hp c); [done|done|]. by apply Hpc. }
    split; [|done]. by apply Hpc.
  - cbn in Hinv. specialize (Hinv c Hc). unfold legal in Hinv. congruence.
Qed.
End choose_spec.

(** ** Without a database the choice is by cost *)
Section choose_cost.
Context (sort : list Candidate → list Candidate) (P : Program).

Lemma better_none k c b :
  better None k c b = cheaper c b ||
    (feq (seconds (c_cost c)) (seconds (c_cost b)) && String.eqb (s_why (c_S c)) "source").
Proof. unfold better, cheaper. cbn. by rewrite flt_fadd_0, feq_fadd_0. Qed.

Definition is_source (c : Candidate) : bool := String.eqb (s_why (c_S c)) "source".
(** no legal candidate seen is cheaper than the best, and a legal source is beaten strictly *)
Definition cost_inv (seen : list Candidate) (acc : option best) : Prop :=
  match acc with
  | None => ∀ d, d ∈ seen → legal P d = false
  | Some (b, _, hit) =>
      hit = false ∧ b ∈ seen ∧ legal P b = true ∧
      ∀ d, d ∈ seen → legal P d = true →
        cheaper d b = false ∧ (is_source d = true → is_source b = true ∨ cheaper b d = true)
  end.
Lemma cost_step seen acc c :
  (∀ d, d ∈ seen ++ [c] → seconds (c_cost d) ≠ SpecFloat.S754_nan) →
  cost_inv seen acc → cost_inv (seen ++ [c]) (choose_step P None acc c).
Proof.
  intros Hnan Hinv. unfold choose_step. cbv zeta. fold (legal P c).
  destruct (legal P c) eqn:Hl; cbn [negb].
  2:{ destruct acc as [[[b L] hit]|]; cbn in *.
      - destruct Hinv as (Hh&Hin&Hb&Hmin). split_and!; try done; [set_solver|].
        intros d [Hd| ->%list_elem_of_singleton]%elem_of_app; [eauto|congruence].
      - intros d [Hd| ->%list_elem_of_singleton]%elem_of_app; auto. }
  assert (Hself : cheaper c c = false) by apply flt_irrefl.
  destruct acc as [[[b L] hit]|]; cbn in Hinv.
  2:{ cbn. split_and!; [done|set_solver|done|].
      intros d [Hd| ->%list_elem_of_singleton]%elem_of_app Hld; [by rewrite Hinv in Hld|by auto]. }
  destruct Hinv as (->&Hin&Hb&Hmin). cbn [dbPreferredWhy is_empty negb andb Bool.eqb].
  rewrite better_none. destruct (cheaper c b) eqn:Ecb; cbn [orb].
  { cbn. split_and!; [done|set_solver|done|].
    intros d [Hd| ->%list_elem_of_singleton]%elem_of_app Hld; [|by auto].
    destruct (Hmin d Hd Hld) as [Hdb Hs]. split.
    - destruct (cheaper d c) eqn:Edc; [|done].
      by rewrite (flt_trans _ _ _ Edc Ecb : cheaper d b = true) in Hdb.
    - intros Hsd. right. destruct (flt_cotrans _ (seconds (c_cost d)) _ Ecb) as [?|Hdb'];
        [apply Hnan; set_solver|done|]. by rewrite (Hdb' : cheaper d b = true) in Hdb. }
  destruct (feq (seconds (c_cost c)) (seconds (c_cost b))) eqn:Efe; cbn [andb];
    [destruct (String.eqb (s_why (c_S c)) "source") eqn:Es|].
  - cbn. split_and!; [done|set_solver|done|].
    intros d [Hd| ->%list_elem_of_singleton]%elem_of_app Hld; [|by auto].
    destruct (Hmin d Hd Hld) as [Hdb Hs]. split; [|by left].
    destruct (cheaper d c) eqn:Edc; [|done]. exfalso. apply feq_key in Efe as (a&Ka&Kb).
    apply flt_key in Edc as (x&y&Kx&Ky&Hlt). assert (y = a) as -> by congruence.
    enough (cheaper d b = true) by congruence. apply flt_key. eauto.
  - cbn. split_and!; [done|set_solver|done|].
    intros d [Hd| ->%list_elem_of_singleton]%elem_of_app Hld; [by auto|].
    split; [done|]. unfold is_source. congruence.
  - cbn. split_and!; [done|set_solver|done|].
    intros d [Hd| ->%list_elem_of_singleton]%elem_of_app Hld; [by auto|].
    split; [done|]. intros _. right. apply flt_total; [apply Hnan; set_solver..|done|done].
Qed.

Lemma cost_fold cs seen acc :
  (∀ d, d ∈ seen ++ cs → seconds (c_cost d) ≠ SpecFloat.S754_nan) →
  cost_inv seen acc → cost_inv (seen ++ cs) (fold_left (choose_step P None) cs acc).
Proof.
  revert seen acc. induction cs as [|c cs IH]; intros seen acc Hnan H; [by rewrite app_nil_r|].
  cbn [fold_left].
  assert (E : (seen ++ c :: cs = (seen ++ [c]) ++ cs)%list) by by rewrite <- app_assoc.
  rewrite E in Hnan |- *. apply IH; [done|]. apply cost_step; [|done].
  intros d Hd. apply Hnan. set_solver.
Qed.

(** Without a database the cheapest legal candidate is chosen: no legal candidate costs less
    than the choice, and a legal source schedule loses only to a strictly cheaper one. *)
Theorem choose_cheapest :
  (∀ d, d ∈ candidates sort P search_depth search_width → seconds (c_cost d) ≠ SpecFloat.S754_nan) →
  let C := choose sort P None in
  ∀ d, d ∈ candidates sort P search_depth search_width → r_ok (check P (c_S d)) = true →
    flt (seconds (c_cost d)) (seconds (ch_cost C)) = false ∧
    (s_why (c_S d) = "source" →
     s_why (ch_S C) = "source" ∨ flt (seconds (ch_cost C)) (seconds (c_cost d)) = true).
Proof.
  intros Hnan C d Hd Hl. unfold C, choose.
  pose proof (cost_fold (candidates sort P search_depth search_width) [] None) as H.
  cbn [app] in H. specialize (H Hnan (λ d Hd, match not_elem_of_nil d Hd with end)).
  destruct (fold_left _ _ _) as [[[b L] hit]|] eqn:E; cbn [ch_S ch_cost].
  - destruct H as (_&_&_&Hmin). destruct (Hmin d Hd Hl) as [H1 H2]. split; [done|].
    intros Hs. destruct H2 as [H2|H2]; [by apply String.eqb_eq|left|by right].
    by apply String.eqb_eq.
  - specialize (H d Hd). unfold legal in H. congruence.
Qed.
End choose_cost.

(** the costs of the candidates of the synthetic contraction are numbers *)
Definition nan_free (cs : list Candidate) : bool :=
  forallb (λ c, match seconds (c_cost c) with SpecFloat.S754_nan => false | _ => true end) cs.
Lemma nan_free_ok cs : nan_free cs = true → ∀ d, d ∈ cs → seconds (c_cost d) ≠ SpecFloat.S754_nan.
Proof.
  unfold nan_free. rewrite forallb_forall. intros H d Hd E. apply list_elem_of_In in Hd.
  specialize (H d Hd). by rewrite E in H.
Qed.
Definition demo_candidate : Candidate :=
  mkCandidate (sourceSchedule synthGEMM) (costOf synthGEMM (sourceSchedule synthGEMM)).
Lemma demo_candidate_in : demo_candidate ∈ candidates insertion_sort synthGEMM search_depth search_width.
Proof.
  assert (H : head (candidates insertion_sort synthGEMM search_depth search_width) = Some demo_candidate)
    by (vm_compute; reflexivity).
  destruct (candidates _ _ _ _) as [|c cs]; [done|]. injection H as ->. by left.
Qed.
Lemma choose_cheapest_witness :
  flt (seconds (c_cost demo_candidate)) (seconds (ch_cost (choose insertion_sort synthGEMM None))) = false.
Proof.
  apply (choose_cheapest insertion_sort synthGEMM).
  - apply nan_free_ok. vm_compute. reflexivity.
  - apply demo_candidate_in.
  - vm_compute. reflexivity.
Defined.
Lemma choose_prefers_db_witness :
  let db := Some ("synthetic_gemm" +++ String tab ("source" +++ String tab ("ok" +++ String tab "1"))) in
  dbWhy (choose insertion_sort synthGEMM db) = "source".
Proof.
  apply (choose_prefers_db insertion_sort synthGEMM); [done|done|].
  exists demo_candidate. split; [apply demo_candidate_in|]. vm_compute. done.
Defined.
Lemma choose_sound_witness : canEmit (emit (choose insertion_sort synthGEMM None)) = true.
Proof.
  apply (choose_sound insertion_sort synthGEMM None). exists demo_candidate.
  split; [apply demo_candidate_in|]. vm_compute. reflexivity.
Defined.
