(* ===== verification/SelfTest.v ===== *)
(** The engine's self-test (selfTest of cpp/mvcc-llvm/engine.cpp) as a list of expectations: each is
    its condition and its message.  The environment is in the arguments: whether a temporary file
    could be created, LLVM's text of a double, the files of tests/stir/illegal, the database the
    environment names, and [std::sort]. *)
From S2P Require Import Prelude Cstd SigAlgebra Stir Schedule ScheduleText Fp64 ScheduleCost Legality Engine.
Open Scope string_scope.
Open Scope Z_scope.
Open Scope list_scope.

Definition expectation : Type := bool * string.
Definition is_ok (r : result string unit) : bool := match r with Ok _ => true | Err _ => false end.
Definition wf_why (r : result string unit) : string := match r with Ok _ => "" | Err w => w end.
(** [!L.ok] and some failed obligation has number [n] *)
Definition has_failed (L : Result) (n : Z) : bool := existsb (λ f, ob_n f =? n) (failed L).
Definition refused (L : Result) (n : Z) : bool := negb (r_ok L) && has_failed L n.
Definition on_stages (f : StageSchedule → StageSchedule) (Sc : Schedule) : Schedule :=
  mkSchedule (s_kernel Sc) (s_why Sc) (f <$> stages Sc).
Definition on_first (f : StageSchedule → StageSchedule) (Sc : Schedule) : Schedule :=
  mkSchedule (s_kernel Sc) (s_why Sc) (match stages Sc with [] => [] | st :: sts => f st :: sts end).
Definition rebind_coord (c : nat) (b : Bind) (st : StageSchedule) : StageSchedule :=
  set_factors ((λ f, if (coord f =? c)%nat then set_bind b f else f) <$> factors st) st.
Definition set_fusedWith o st := mkStage (factors st) (order st) (storage st) (exchange st) (engine st)
  (tensorM st) (tensorN st) (tensorK st) (prefetch st) (predicate st) o (threadScale st) (smemBytes st).

Definition Sg : Schedule := sourceSchedule synthGEMM.
Definition reparsed (Sc : Schedule) : result serror Schedule := parseText (text_of (dump Sc)).
Definition reparse_ok (P : Program) (Sc : Schedule) : bool :=
  match reparsed Sc with Ok R => is_ok (wellFormed P R) | Err _ => false end.
Definition reparse_err (Sc : Schedule) : string :=
  match reparsed Sc with Err (SErr e) => e | _ => "" end.

Definition test_source : list expectation :=
  [((tg_smemBytes metal4 =? 32768) && String.eqb (tg_name nvptxOracle) "nvptx-oracle", "targets");
   (is_ok (wellFormed synthGEMM Sg), "source well-formed: " +++ wf_why (wellFormed synthGEMM Sg));
   (r_ok (check synthGEMM Sg), "source legal: " +++ first (check synthGEMM Sg));
   (reparse_ok synthGEMM Sg, "parse round-trip: " +++ reparse_err Sg)].

Section selftest.
Context (sort : list Candidate → list Candidate).
Definition cands (P : Program) : list Candidate := candidates sort P search_depth search_width.

Definition test_roundtrips : list expectation :=
  let cs := cands synthGEMM in
  [((6 <=? length cs)%nat && forallb (λ c, reparse_ok synthGEMM (c_S c)) cs,
    "L1–5 schedule edits dump/parse/well-formed round-trip");
   (contains (stageShape Sg) "contraction", "source schedule prints a contraction stage-shape")].

(** one schedule per obligation that must be refused *)
Definition bad_L3 : Schedule := on_stages (λ st, rebind_coord 2 Simdgroup (set_exchange XNone st)) Sg.
Definition bad_L6 : Schedule := on_stages (set_predicate PNone) (sourceSchedule synthElem).
Definition bad_L8 : Schedule := on_first (set_smemBytes 40000) Sg.
Definition bad_L1 : Schedule := on_first (λ st, set_factors (removelast (factors st)) st) Sg.
Definition bad_L4 : Schedule :=
  let sts := match stages Sg with [st] => [st; st] | sts => sts end in
  mkSchedule (s_kernel Sg) (s_why Sg)
    (imap (λ i st,
       if (i =? 0)%nat then set_order ["c2_k"] (set_fusedWith [1%nat] st)
       else if (i =? 1)%nat then
         set_order ["unrelated"] (set_factors (factors st ++ [mkFactor "unrelated" 2 0 Time]) st)
       else st) sts).
Definition with_store : Program :=
  mkProgram (kernel synthGEMM) (tensors synthGEMM) (coordNames synthGEMM) (coordOutput synthGEMM)
    (coordPhys synthGEMM) [] [] (accesses synthGEMM ++ [mkAccess 2 true false 2 None 0 1 false [] None 0 0 0])
    [] [] (loops synthGEMM) 0 [] 0 0 "inherit".
Definition with_scatter : Program :=
  mkProgram (kernel synthGEMM) (tensors synthGEMM) (coordNames synthGEMM) (coordOutput synthGEMM)
    (coordPhys synthGEMM) [] [] (accesses synthGEMM) [] [] (loops synthGEMM) 0
    ["scatter at %x: data-dependent"] 0 0 "inherit".
Definition test_illegal : list expectation :=
  [(refused (check synthGEMM bad_L3) 3, "L3 rejects partitioned reduction with exchange=none");
   (refused (check synthGEMM (editReplicate Sg)) 2, "L2 rejects replicate without duplicate permission");
   (refused (check synthElem bad_L6) 6, "L6 rejects dropped predicates");
   (refused (check synthElem (editEngineTensorOp (sourceSchedule synthElem))) 7,
    "L7 rejects tensor-op on elementwise");
   (refused (check synthGEMM bad_L8) 8, "L8 rejects smem > 32 KB");
   (refused (check synthGEMM bad_L1) 1, "L1 rejects an unbound coordinate");
   (refused (check synthGEMM bad_L4) 4, "L4 rejects fusion without a shared time nest");
   (refused (check with_store (editReplicate (sourceSchedule with_store))) 5,
    "L5 rejects effects on a replicated axis");
   (refused (check with_scatter (sourceSchedule with_scatter)) 10,
    "L10 rejects unevaluable assume premises")].

(** every legal candidate costs at most 1.1 times the cheapest legal one *)
Definition legal_seconds (P : Program) : list f64 :=
  (λ c, seconds (costOf P (c_S c))) <$> List.filter (λ c, r_ok (check P (c_S c))) (cands P).
Definition within (P : Program) : bool :=
  let inf := dec 1 300 in
  let b := fold_left (λ b s, if flt s b then s else b) (legal_seconds P) inf in
  if fle inf b then false
  else forallb (λ s, negb (flt (fadd (fmul b (dec 11 (-1))) (dec 1 (-12))) s)) (legal_seconds P).
Definition test_search (db : option string) : list expectation :=
  let C := choose sort synthGEMM db in
  [(existsb (λ c, String.eqb (s_why (c_S c)) "source") (cands synthGEMM)
    && negb (bool_decide (length (cands synthGEMM) = 0%nat)), "search retains the source schedule");
   (r_ok (legality C) && canEmit (emit C), "choose emits a legal body");
   (within (direct.elementwise "silu_mul") && within (direct.gemm "hgemm16")
    && within (direct.attention "attn"),
    "search finds hand-written schedules within 1.1× of the cheapest legal")].

Definition test_cost : list expectation :=
  let ring := on_first (λ st, set_storage (set_kind Threadgroup <$> storage st) (set_smemBytes 49152 st)) Sg in
  [(flt (seconds (costOf synthGEMM (editDeviceStream Sg))) (seconds (costOf synthGEMM ring)),
    "cost model prefers device-stream over a spilled ring")].

Definition graph_of (e : GraphEdge) : Graph := mkGraph ["norm"; "gemm"] [e] [0; 0] 1.
Definition test_graph : list expectation :=
  [(r_ok (checkGraph (graph_of (mkEdge 0 1 "x" true false))), "same-block fusion is legal");
   (refused (checkGraph (graph_of (mkEdge 0 1 "x" false false))) 11, "L11 rejects a cross-block fusion");
   (refused (checkGraph (graph_of (mkEdge 0 1 "x" true true))) 12, "L12 rejects a host-visible relayout")].

Definition fp8_elem : Program :=
  mkProgram (kernel synthElem) (tensors synthElem) (coordNames synthElem) (coordOutput synthElem)
    (coordPhys synthElem) [] [] [] [] (guards synthElem) [] 0 [] 0 0 "fp8".
Definition test_explain (db : option string) : list expectation :=
  let Sd := editBindDevice Sg in
  [(existsb (λ l, contains l "Y[") (explain synthGEMM (choose sort synthGEMM db)),
    "explain prints the recovered equation");
   (String.eqb (precisionName Inherit) "inherit", "precision defaults to inherit");
   (refused (check fp8_elem (sourceSchedule fp8_elem)) 13,
    "L13 refuses silent quantization (fp8 without a budget)");
   (String.eqb (s_why Sd) "bind:device" && match stages Sd with
      | [] => false | st :: _ => bool_decide (exchange st = Collective) end && r_ok (check synthGEMM Sd),
    "bind:device is a legal tensor-parallel owner (exchange=collective → ncclAllGather)")].

Definition nl : string := String (chr 10) "".
Definition test_graph_file (tmp : bool) : list expectation :=
  if negb tmp then [(false, "MVCC_GRAPH same-block edge is legal (L11/L12)")]
  else
    match loadGraphFile "mvcc-graph" (Some ("norm gemm x 1 0" +++ nl)) (mkGraph ["norm"; "gemm"] [] [] 1) with
    | Err _ => [(false, "MVCC_GRAPH same-block edge is legal (L11/L12)")]
    | Ok gg =>
        [((length (edges gg) =? 1)%nat && r_ok (checkGraph gg),
          "MVCC_GRAPH same-block edge is legal (L11/L12)");
         (refused (checkGraph (mkGraph (kernels gg) (edges gg) [0; 3] 2)) 15,
          "L15 rejects a device id outside world")]
    end.

Definition test_direct (files : string → option string) (db : option string) : list expectation :=
  [(r_ok (legality (choose sort (direct.elementwise "direct_silu") db))
    && r_ok (legality (choose sort (direct.gemm "direct_gemm") db))
    && r_ok (legality (choose sort (direct.attention "direct_attn") db)),
    "direct Program front-end is a legal check+emit client");
   (match stirIn sort files db "gemm" "" with
    | Some (out, 0) => existsb (λ l, contains l "check+emit client: ok") out
    | _ => false
    end, "stir-in gemm is a legal check+emit client")].

Definition fuzz : list Schedule :=
  [editReplicate Sg; editEngineTensorOp (sourceSchedule synthElem); editGuardedZeroPage Sg; bad_L8;
   on_first (λ st, rebind_coord 2 Lane (set_exchange XNone st)) Sg].
Definition named (L : Result) : bool := existsb (λ f, (1 <=? ob_n f) && (ob_n f <=? 15)) (failed L).
Definition test_fuzz : list expectation :=
  let rejected := List.filter (λ Sc, let L := check synthGEMM Sc in negb (r_ok L) && named L) fuzz in
  [((2 <=? length rejected)%nat, "fuzz: illegal schedules name an L<n>");
   (refused (check synthGEMM bad_L8) 8,
    "fuzz caught L8 smem overflow (checker gap: resource bound was missing)")].

Definition test_diff (tmp : bool) (show : f64 → string) : list expectation :=
  let msg := "sched-diff reports a why change" in
  if negb tmp then [(false, msg)]
  else
    let files := λ p, if String.eqb p "a" then Some (text_of (dump Sg))
                      else if String.eqb p "b" then Some (text_of (dump (editEngineTensorOp Sg)))
                      else None in
    [(match schedDiff show files "a" "b" with
      | Some (out, 0) => existsb (λ l, contains l "changed: why") out
      | _ => false
      end, msg)].

Definition db_line (fields : list string) : string := join_with (String tab "") fields +++ nl.
Definition test_db (tmp : bool) (show : f64 → string) : list expectation :=
  let m1 := "sched-db residual is applied or thrown away (held-out order)" in
  let m2 := "sched-db prefers a previously-winning why" in
  if negb tmp then [(false, m1); (false, m2)]
  else
    let top := editEngineTensorOp Sg in
    let cr := seconds (costOf synthGEMM Sg) in
    let ct := seconds (costOf synthGEMM top) in
    let db1 := db_line ["synthetic_gemm"; s_why Sg; "ok"; show cr; show (fmul cr (dec 1 (-1)))] +++
               db_line ["synthetic_gemm"; s_why top; "ok"; show ct; show (fmul ct (of_Z 10))] in
    let C := choose sort synthGEMM (Some db1) in
    let C2 := choose sort synthGEMM (Some (db_line ["synthetic_gemm"; "source"; "legality: ok"; "cost 0"])) in
    [(String.eqb (s_why (ch_S C)) (s_why Sg) || String.eqb (s_why (ch_S C)) (s_why top), m1);
     (String.eqb (s_why (ch_S C2)) "source" && String.eqb (dbWhy C2) "source", m2)].

(** the illegal schedules on disk: the file's text, the kind of program, the obligation *)
Definition illegal_case : Type := option string * string * Z.
Definition illegal_hit (c : illegal_case) : bool :=
  let '(text, kd, n) := c in
  match text with
  | None => false
  | Some t =>
      let P := if String.eqb kd "gemm" then direct.gemm ("illegal_" +++ kd)
               else direct.elementwise ("illegal_" +++ kd) in
      match parseText t with
      | Err _ => false
      | Ok Sc => refused (check P Sc) n
      end
  end.
Definition test_disk (l2 l3 l6 l7 : option string) : list expectation :=
  let cases := [(l2, "gemm", 2); (l3, "gemm", 3); (l6, "elementwise", 6); (l7, "elementwise", 7)] in
  [((length (List.filter illegal_hit cases) =? 4)%nat,
    "tests/stir/illegal/*.sched refused with the expected L<n>");
   (String.eqb (tg_name nvptxOracle) "nvptx-oracle" && (2 <=? length (engines metal4))%nat
    && String.eqb (tg_name simdgroupMatrix) "simdgroup-matrix",
    "target description is a table (metal4 / simdgroup-matrix=M3 / nvptx-oracle)")].

Definition expectations (tmp : bool) (show : f64 → string) (files : string → option string)
    (db l2 l3 l6 l7 : option string) : list expectation :=
  test_source ++ test_roundtrips ++ test_illegal ++ test_search db ++ test_cost ++ test_graph ++
  test_explain db ++ test_graph_file tmp ++ test_direct files db ++ test_fuzz ++
  test_diff tmp show ++ test_db tmp show ++ test_disk l2 l3 l6 l7.

(** [expect]'s line *)
Definition report (e : expectation) : string := (if e.1 then "  ok  " else "  FAIL ") +++ e.2.
(** the output and the exit code *)
Definition selfTest (es : list expectation) : list string * Z :=
  let fails := Z.of_nat (length (List.filter (λ e : expectation, negb e.1) es)) in
  ("engine self-test" :: (report <$> es) ++
   [if fails =? 0 then "engine self-test: ok" else "engine self-test: FAILED " +++ to_string_s fails],
   if fails =? 0 then 0 else 1).
End selftest.

(** ** The self-test passes *)

(** the files of tests/stir/illegal *)
Definition l2_replicate : string :=
  text_of
    ["# L2: replicate a contribution the algebra does not grant duplicate for.";
     "schedule synthetic_gemm why=illegal-L2";
     "  stage 0 engine=scalar-fma exchange=shuffle-tree prefetch=at-use predicate=branch thread_scale=1 smem=0";
     "    split c0_lane coord=0 size=32 bind=replicate";
     "    split c1_lane coord=1 size=8 bind=lane";
     "    split c2_k coord=2 size=* bind=time";
     "    order c2_k";
     "    storage t0 device";
     "    storage t1 device";
     "    storage t2 device"].
Definition l3_exchange_none : string :=
  text_of
    ["# L3: a reduction coordinate bound to a parallel axis with no exchange.";
     "schedule synthetic_gemm why=illegal-L3";
     "  stage 0 engine=scalar-fma exchange=none prefetch=at-use predicate=branch thread_scale=1 smem=0";
     "    split c0_lane coord=0 size=32 bind=lane";
     "    split c1_lane coord=1 size=8 bind=lane";
     "    split c2_k coord=2 size=* bind=simdgroup";
     "    order c2_k";
     "    storage t0 device";
     "    storage t1 device";
     "    storage t2 device"].
Definition l6_drop_pred : string :=
  text_of
    ["# L6: guards exist but the schedule realizes none of them.";
     "schedule synthetic_silu why=illegal-L6";
     "  stage 0 engine=scalar-fma exchange=none prefetch=at-use predicate=none thread_scale=1 smem=0";
     "    split c0_lane coord=0 size=256 bind=lane";
     "    storage t0 device";
     "    storage t1 device";
     "    storage t2 device"].
Definition l7_tensor_elem : string :=
  text_of
    ["# L7: tensor-op engine on a stage that is not a contraction.";
     "schedule synthetic_silu why=illegal-L7";
     "  stage 0 engine=tensor-op exchange=none prefetch=at-use predicate=branch thread_scale=1 smem=0";
     "    split c0_lane coord=0 size=256 bind=lane";
     "    storage t0 device";
     "    storage t1 device";
     "    storage t2 device"].

(** With the repository's illegal schedules on disk, no database in the environment and
    temporary files available, every expectation of the self-test holds and it exits with 0. *)
Theorem selfTest_passes :
  (selfTest (expectations insertion_sort true show_g (λ _, None) None (Some l2_replicate)
               (Some l3_exchange_none) (Some l6_drop_pred) (Some l7_tensor_elem))).2 = 0.
Proof. vm_compute. reflexivity. Qed.
