(* ===== verification/MslFlow.v ===== *)
(** Control flow of a kernel body in Metal (cpp/mvcc-llvm/msl_emitter.cpp, class Emitter): the control-flow
    graph the emitter reads, the statements it writes with their text, phi copies, the join of a branch, the
    structured emission and the state machine.  What an instruction is and does, LLVM's analyses (dominators,
    post-dominators, loops) and the text of operands and instructions are parameters.  MslFlowSem.v says
    what graph and text mean, MslFlowSim.v that they mean the same. *)
From S2P Require Import Prelude Cstd.
Open Scope Z_scope.

(** ** The control-flow graph *)
(** an operand: the result of an instruction, or a constant *)
Inductive Value := VReg (x : nat) | VConst (c : Z).
#[global] Instance Value_eq_dec : EqDecision Value.
Proof. solve_decision. Defined.
Record PhiNode := mkPhi { phi_reg : nat; incoming : list (nat * Value) }.
Inductive Terminator :=
| Br (s : nat)
| CondBr (c : Value) (t f : nat)
| Ret
| Unreachable
| OtherTerm (text : string).
Record BasicBlock (inst : Type) := mkBB { phis : list PhiNode; insts : list inst; term : Terminator }.
Arguments mkBB {inst} _ _ _.
Arguments phis {inst} _.
Arguments insts {inst} _.
Arguments term {inst} _.
(** blocks are their indices, which are also the numbers [bbIds] gives them; the entry is 0 *)
Abbreviation Function inst := (list (BasicBlock inst)).
Definition successors_of (t : Terminator) : list nat :=
  match t with Br s => [s] | CondBr _ t f => [t; f] | _ => [] end.

(** what LLVM's LoopInfo says of a loop *)
Record Loop := mkLoop {
  loop_id : nat;
  getHeader : nat;
  loop_contains : nat → bool;
  getExitBlock : option nat;
  getExitBlocks : list nat }.
(** the analyses: the immediate post-dominator of a block (none at the virtual root), (post-)dominance,
    reachability from the entry, the innermost loop of a block; and the order in which a [DenseMap]
    enumerates its keys *)
Record Analyses := mkAnalyses {
  ipdom : nat → option nat;
  pdominates : nat → nat → bool;
  dominates : nat → nat → bool;
  isReachableFromEntry : nat → bool;
  getLoopFor : nat → option Loop;
  dense_order : list nat → list nat }.

(** ** The statements *)
#[warnings="-register-all"]
Inductive Stmt (inst : Type) :=
| SInst (i : inst)
| SAssign (P : PhiNode) (v : Value)            (* x = v; *)
| STemp (i : nat) (P : PhiNode) (v : Value)    (* T __ti = v; *)
| SFromTemp (P : PhiNode) (i : nat)            (* x = __ti; *)
| SBlock (l : list (Stmt inst))                (* { ... } *)
| SIf (neg : bool) (c : Value) (a : list (Stmt inst)) (b : option (list (Stmt inst)))
| SFor (l : list (Stmt inst))                  (* for (;;) { ... } *)
| SBreak
| SContinue
| SReturn                                      (* __MVCC_RETURN *)
| SDeclState (n : nat)                         (* uint __bb = n; *)
| SState (n : nat) (brk : bool)                (* __bb = n; with or without break; on the line *)
| SSwitch (cases : list (nat * list (Stmt inst)))
| SDropped (s : nat).                          (* no text: a jump to [s] that is not emitted *)
Arguments SInst {inst} i.
Arguments SAssign {inst} P v.
Arguments STemp {inst} i P v.
Arguments SFromTemp {inst} P i.
Arguments SBlock {inst} l.
Arguments SIf {inst} neg c a b.
Arguments SFor {inst} l.
Arguments SBreak {inst}.
Arguments SContinue {inst}.
Arguments SReturn {inst}.
Arguments SDeclState {inst} n.
Arguments SState {inst} n brk.
Arguments SSwitch {inst} cases.
Arguments SDropped {inst} s.

(** ** The text of statements: lines with their indentation *)
Section text.
Context {inst : Type} (inst_lines : inst → list string) (val : Value → string).
(** the operand as the phi spells it, and the type of the temporary *)
Context (src : PhiNode → Value → string) (tmp_ty : PhiNode → Value → string).
Definition name (x : nat) : string := "v" +++ to_string (Z.of_nat x).
Fixpoint lines (k : nat) (s : Stmt inst) : list (nat * string) :=
  match s with
  | SInst i => (λ l, (k, l)) <$> inst_lines i
  | SAssign P v => [(k, name (phi_reg P) +++ " = " +++ src P v +++ ";")]
  | STemp i P v => [(k, tmp_ty P v +++ " __t" +++ to_string (Z.of_nat i) +++ " = " +++ src P v +++ ";")]
  | SFromTemp P i => [(k, name (phi_reg P) +++ " = __t" +++ to_string (Z.of_nat i) +++ ";")]
  | SBlock l => (k, "{") :: flat_map (lines (S k)) l ++ [(k, "}")]
  | SIf neg c a b =>
      (k, if neg then "if (!(" +++ val c +++ ")) {" else "if (" +++ val c +++ ") {")
        :: flat_map (lines (S k)) a
        ++ match b with Some b => (k, "} else {") :: flat_map (lines (S k)) b | None => [] end
        ++ [(k, "}")]
  | SFor l => (k, "for (;;) {") :: flat_map (lines (S k)) l ++ [(k, "}")]
  | SBreak => [(k, "break;")]
  | SContinue => [(k, "continue;")]
  | SReturn => [(k, "__MVCC_RETURN")]
  | SDeclState n => [(k, "uint __bb = " +++ to_string (Z.of_nat n) +++ "u;")]
  | SState n brk => [(k, "__bb = " +++ to_string (Z.of_nat n) +++ (if brk then "u; break;" else "u;"))]
  | SSwitch cases =>
      (k, "switch (__bb) {")
        :: flat_map (λ c, (k, "case " +++ to_string (Z.of_nat (fst c)) +++ "u: {")
                            :: flat_map (lines (S k)) (snd c) ++ [(k, "}")]) cases
        ++ [(k, "default: __MVCC_RETURN"); (k, "}")]
  | SDropped _ => []
  end%string.
End text.

(** ** Emission *)
(** a thrown [EmitError], undefined behaviour (a null or missing block or operand), or fuel used up *)
Inductive EmitErr := Thrown (msg : string) | Undefined | NoFuel.
Section emit.
Context {inst : Type} (F : Function inst) (A : Analyses).
Abbreviation Stmts := (list (Stmt inst)).
(** the set [emitted] is the state *)
Definition Em (X : Type) : Type := gset nat → result EmitErr (X * gset nat).
Definition eret {X} (x : X) : Em X := λ e, Ok (x, e).
Definition ebind {X Y} (m : Em X) (f : X → Em Y) : Em Y := λ e,
  match m e with Ok (x, e) => f x e | Err r => Err r end.
Definition fail {X} (msg : string) : Em X := λ _, Err (Thrown msg).
Definition undefined {X} : Em X := λ _, Err Undefined.
Notation "'let%' x := m 'in' f" := (ebind m (λ x, f)) (at level 10, x name, m at level 100, f at level 200).
Definition block (b : nat) : Em (BasicBlock inst) :=
  match F !! b with Some B => eret B | None => undefined end.
Definition num (b : nat) : string := to_string (Z.of_nat b).

Definition phis_of (b : nat) : list PhiNode := match F !! b with Some B => phis B | None => [] end.
Definition successors (b : nat) : list nat := match F !! b with Some B => successors_of (term B) | None => [] end.
(** [getIncomingValueForBlock]; asking for a block that is none of the phi's is undefined *)
Definition incoming_for (P : PhiNode) (From : nat) : option Value :=
  (λ q : nat * (nat * Value), q.2.2) <$> list_find (λ p, p.1 = From) (incoming P).
Definition copies (From To : nat) : option (list (PhiNode * Value)) :=
  mapM (λ P, v ← incoming_for P From; Some (P, v)) (phis_of To).
Definition is_phi_of (To : nat) (v : Value) : bool := existsb (λ P, bool_decide (v = VReg (phi_reg P))) (phis_of To).
Definition phi_copies (From To : nat) : option Stmts :=
  cs ← copies From To;
  Some (if existsb (λ c, is_phi_of To c.2) cs
        then [SBlock (imap (λ i c, STemp i c.1 c.2) cs ++ imap (λ i c, SFromTemp c.1 i) cs)]
        else (λ c, SAssign c.1 c.2) <$> cs).
Definition emitPhiCopies (From To : nat) : Em Stmts :=
  match phi_copies From To with Some l => eret l | None => undefined end.
(** the else arm of an [if] whose other arm is the edge itself *)
Definition emitDirectEdgeElse (From Merge : nat) : Em (option Stmts) :=
  if existsb (λ P, bool_decide (is_Some (incoming_for P From))) (phis_of Merge)
  then let% l := emitPhiCopies From Merge in eret (Some l)
  else eret None.
Definition emitBlockInstrs (b : nat) : Em Stmts := λ e,
  if bool_decide (b ∈ e) then fail ("block emitted twice: " +++ num b) e
  else match F !! b with Some B => Ok (SInst <$> insts B, {[b]} ∪ e) | None => Err Undefined end.

(** *** Reachability that ignores back edges *)
(** a worklist: a block is queued the first time it is seen *)
Definition push (qs : list nat * gset nat) (n : nat) : list nat * gset nat :=
  let '(q, seen) := qs in if bool_decide (n ∈ seen) then (q, seen) else (q ++ [n], {[n]} ∪ seen).
Fixpoint forward_bfs (fuel : nat) (To : nat) (q : list nat) (seen : gset nat) : option bool :=
  match q with
  | [] => Some false
  | b :: q =>
      match fuel with
      | O => None
      | S fuel =>
          let ns := filter (λ n, dominates A n b = false) (successors b) in
          if existsb (Nat.eqb To) ns then Some true
          else
            let '(q, seen) := fold_left push ns (q, seen) in
            forward_bfs fuel To q seen
      end
  end.
Definition forwardReachable (From To : nat) : option bool :=
  if (From =? To)%nat then Some true else forward_bfs (S (S (length F))) To [From] {[From]}.

(** *** The join of the arms of a branch *)
(** [reach]: the distance from [S] of the blocks reached without passing [BB] *)
Definition push_dist (BB d : nat) (qd : list nat * gmap nat nat) (n : nat) : list nat * gmap nat nat :=
  let '(q, dist) := qd in
  if (n =? BB)%nat then (q, dist) else if bool_decide (is_Some (dist !! n)) then (q, dist) else (q ++ [n], <[n := S d]> dist).
Fixpoint reach_bfs (fuel : nat) (BB : nat) (q : list nat) (dist : gmap nat nat) : option (gmap nat nat) :=
  match q with
  | [] => Some dist
  | b :: q =>
      match fuel with
      | O => None
      | S fuel =>
          let d := default O (dist !! b) in
          let '(q, dist) := fold_left (push_dist BB d) (successors b) (q, dist) in
          reach_bfs fuel BB q dist
      end
  end.
Definition reach (BB S0 : nat) : option (gmap nat nat) :=
  reach_bfs (S (S (length F))) BB [S0] {[S0 := O]}.
Definition isRet (b : nat) : bool := match F !! b with Some B => match term B with Ret => true | _ => false end | None => false end.
(** the first block that returns *)
Definition uniqueRet : option nat := snd <$> list_find (λ b, isRet b = true) (seq 0 (length F)).
Definition best_join (keys : list nat) (dT dE : gmap nat nat) (onlyRet : bool) : option (nat * nat) :=
  fold_left (λ best k,
    match dT !! k, dE !! k with
    | Some a, Some b =>
        if negb onlyRet && bool_decide (Some k = uniqueRet) then best
        else match best with
             | Some (_, bd) => if (a + b <? bd)%nat then Some (k, a + b)%nat else best
             | None => Some (k, a + b)%nat
             end
    | _, _ => best
    end) keys None.
Definition nearestJoin (BB : nat) (T E : option nat) : option (option nat) :=
  match T, E with
  | Some T, Some E =>
      if (T =? E)%nat then Some (Some T)
      else
        dT ← reach BB T; dE ← reach BB E;
        let keys := dense_order A (fst <$> map_to_list dT) in
        let onlyRet := forallb (λ k, negb (bool_decide (is_Some (dE !! k))) || bool_decide (Some k = uniqueRet)) keys in
        Some (match best_join keys dT dE onlyRet with Some (k, _) => Some k | None => uniqueRet end)
  | _, _ => Some uniqueRet
  end.
Definition branchMerge (BB : nat) (clamp : option Loop) (loopExit : option nat) : option (option nat) :=
  mb ← match ipdom A BB with
       | Some m => Some (Some m)
       | None => nearestJoin BB (successors BB !! O) (successors BB !! 1%nat)
       end;
  Some (match clamp, mb with
        | Some L, Some m =>
            if negb (loop_contains L m) && negb (bool_decide (Some m = loopExit)) then loopExit else Some m
        | _, _ => mb
        end).
Definition lift_fuel {X} (o : option X) : Em X := match o with Some x => eret x | None => λ _, Err NoFuel end.

(** *** Structured emission *)
(** the loop a chain is in, and its exit *)
Record LoopCtx := mkCtx { ctx_L : Loop; ctx_exit : option nat }.
Abbreviation Chain := (nat → option nat → option LoopCtx → Em Stmts).

Definition gotoTarget (chain : Chain) (From S0 : nat) (stopAt : option nat) (ctx : option LoopCtx) : Em Stmts :=
  if bool_decide (Some S0 = stopAt) then emitPhiCopies From S0
  else
    let% past := match stopAt with Some b => lift_fuel (forwardReachable b S0) | None => eret false end in
    if past : bool then eret [SDropped S0]
    else
      let% cs := emitPhiCopies From S0 in
      match ctx with
      | Some c =>
          if (S0 =? getHeader (ctx_L c))%nat then eret (cs ++ [SContinue])
          else if bool_decide (Some S0 = ctx_exit c) then eret (cs ++ [SBreak])
          else if negb (loop_contains (ctx_L c) S0) then fail ("branch leaves loop to non-exit block " +++ num S0)
          else let% r := chain S0 stopAt ctx in eret (cs ++ r)
      | None => let% r := chain S0 stopAt ctx in eret (cs ++ r)
      end.
(** the arms of a branch that join at [Mb] *)
Definition emitArms (chain : Chain) (BB : nat) (c : Value) (Tb Fb : nat) (Mb : option nat) (ctx : option LoopCtx) : Em Stmts :=
  if bool_decide (Some Tb = Mb) then
    let% a := gotoTarget chain BB Fb Mb ctx in
    let% e := emitDirectEdgeElse BB Tb in
    eret [SIf true c a e]
  else if bool_decide (Some Fb = Mb) then
    let% a := gotoTarget chain BB Tb Mb ctx in
    let% e := emitDirectEdgeElse BB Fb in
    eret [SIf false c a e]
  else
    let% a := gotoTarget chain BB Tb Mb ctx in
    let% e := gotoTarget chain BB Fb Mb ctx in
    eret [SIf false c a (Some e)].
(** the body of the loop headed by [BB] *)
Definition emitLoopBody (chain : Chain) (BB : nat) (L : Loop) (exit : option nat) : Em Stmts :=
  let inner := Some (mkCtx L exit) in
  let% ins := emitBlockInstrs BB in
  let% B := block BB in
  let% r :=
    match term B with
    | Br s => gotoTarget chain BB s None inner
    | CondBr c Tb Fb =>
        let% Mb := lift_fuel (branchMerge BB (Some L) exit) in
        let% a := emitArms chain BB c Tb Fb Mb inner in
        match Mb with
        | Some m =>
            if negb (bool_decide (Some m = exit)) then
              if (m =? BB)%nat then eret (a ++ [SContinue])
              else let% r := chain m None inner in eret (a ++ r)
            else eret (a ++ [SBreak])
        | None => eret a
        end
    | Ret | Unreachable => eret [SReturn]
    | OtherTerm _ => fail "unsupported terminator in loop header"
    end in
  eret (ins ++ r).
Definition emitLoop (chain : Chain) (BB : nat) (L : Loop) (stopAt : option nat) (ctx : option LoopCtx) : Em Stmts :=
  let exit := getExitBlock L in
  match exit, getExitBlocks L with
  | None, _ :: _ => fail "loop with multiple exit blocks"
  | _, _ =>
      let% body := emitLoopBody chain BB L exit in
      match exit with
      | Some e =>
          if bool_decide (exit = stopAt) then eret [SFor body]
          else
            match ctx with
            | Some c =>
                if (e =? getHeader (ctx_L c))%nat then
                  let% cs := emitPhiCopies BB e in eret (SFor body :: cs ++ [SContinue])
                else if bool_decide (exit = ctx_exit c) then eret [SFor body; SBreak]
                else let% r := chain e stopAt ctx in eret (SFor body :: r)
            | None => let% r := chain e stopAt ctx in eret (SFor body :: r)
            end
      | None => eret [SFor body]
      end
  end.
(** a block that is not the header of a loop to be opened *)
Definition emitStraight (chain : Chain) (BB : nat) (stopAt : option nat) (ctx : option LoopCtx) : Em Stmts :=
  let% ins := emitBlockInstrs BB in
  let% B := block BB in
  let% r :=
    match term B with
    | Br s => gotoTarget chain BB s stopAt ctx
    | CondBr c Tb Fb =>
        let% Mb := lift_fuel (branchMerge BB (ctx_L <$> ctx) (ctx ≫= ctx_exit)) in
        match Mb with
        | None => fail ("conditional branch without post-dominator in block " +++ num BB)
        | Some m =>
            let m := match stopAt with Some s => if negb (m =? s)%nat && pdominates A m s then s else m | None => m end in
            let m := match stopAt with Some s => if bool_decide (Some m = uniqueRet) && negb (m =? s)%nat then s else m | None => m end in
            let% a := emitArms chain BB c Tb Fb (Some m) ctx in
            if bool_decide (Some m = stopAt) then eret a
            else
              match ctx with
              | Some c =>
                  if (m =? getHeader (ctx_L c))%nat then eret (a ++ [SContinue])
                  else if bool_decide (Some m = ctx_exit c) then eret (a ++ [SBreak])
                  else let% r := chain m stopAt ctx in eret (a ++ r)
              | None => let% r := chain m stopAt ctx in eret (a ++ r)
              end
        end
    | Ret | Unreachable => eret [SReturn]
    | OtherTerm t => fail ("unsupported terminator: " +++ t)
    end in
  eret (ins ++ r).
(** the header of a loop other than the one the chain is in *)
Definition opens (BB : nat) (ctx : option LoopCtx) : option Loop :=
  match getLoopFor A BB with
  | Some L =>
      if (getHeader L =? BB)%nat && match ctx with Some c => negb (loop_id (ctx_L c) =? loop_id L)%nat | None => true end
      then Some L else None
  | None => None
  end.
Fixpoint emitChain (fuel : nat) (BB : nat) (stopAt : option nat) (ctx : option LoopCtx) {struct fuel} : Em Stmts :=
  match fuel with
  | O => λ _, Err NoFuel
  | S fuel =>
      let% past := match stopAt with
                   | Some s => if (BB =? s)%nat then eret false else lift_fuel (forwardReachable s BB)
                   | None => eret false
                   end in
      if past : bool then eret [SDropped BB]
      else
        match opens BB ctx with
        | Some L => emitLoop (emitChain fuel) BB L stopAt ctx
        | None => emitStraight (emitChain fuel) BB stopAt ctx
        end
  end.
(** a chain emits a block that is new, or nothing; one more level than there are blocks is enough *)
Definition emitBodyStructured : result EmitErr Stmts :=
  match emitChain (S (S (length F))) O None None ∅ with
  | Ok (body, emitted) =>
      match list_find (λ b, (b ∉ emitted) ∧ (isReachableFromEntry A b = true)) (seq 0 (length F)) with
      | Some (_, b) => Err (Thrown ("reachable block not emitted: " +++ num b))
      | None => Ok body
      end
  | Err e => Err e
  end.

(** *** The state machine *)
Definition emitCase (b : nat) (B : BasicBlock inst) : result EmitErr (nat * Stmts) :=
  let edge s := match phi_copies b s with Some l => Ok l | None => Err Undefined end in
  let* r := match term B with
            | Br s => let* l := edge s in Ok (l ++ [SState s true])
            | CondBr c t f =>
                let* lt := edge t in let* lf := edge f in
                Ok [SIf false c (lt ++ [SState t false]) (Some (lf ++ [SState f false])); SBreak]
            | Ret | Unreachable => Ok [SReturn]
            | OtherTerm t => Err (Thrown ("unsupported terminator: " +++ t))
            end in
  Ok (b, (SInst <$> insts B) ++ r).
Fixpoint emitCases (b : nat) (Bs : list (BasicBlock inst)) : result EmitErr (list (nat * Stmts)) :=
  match Bs with
  | [] => Ok []
  | B :: Bs =>
      if isReachableFromEntry A b then
        let* c := emitCase b B in let* cs := emitCases (S b) Bs in Ok (c :: cs)
      else emitCases (S b) Bs
  end.
Definition emitBodyStateMachine : result EmitErr Stmts :=
  match F with
  | [] => Err Undefined
  | _ => let* cases := emitCases O F in Ok [SDeclState O; SFor [SSwitch cases]]
  end.
(** the body of a kernel: structured when asked for and possible *)
Definition emitBody (structured : bool) : result EmitErr Stmts :=
  if structured then
    match emitBodyStructured with
    | Err (Thrown _) => emitBodyStateMachine
    | r => r
    end
  else emitBodyStateMachine.
End emit.
