(* ===== verification/MslFlowSem.v ===== *)
(** What a control-flow graph and the statements of MslFlow.v mean: execution of blocks with phis assigned at
    once along an edge; execution of statements with their jumps; and [code], the correspondence the proofs
    of MslFlowSim.v compose. *)
From S2P Require Import Prelude Cstd MslFlow.
Open Scope Z_scope.

(** registers and memory *)
Record St (M : Type) := mkSt { regs : gmap nat Z; mem : M }.
Arguments mkSt {M} _ _.
Arguments regs {M} _.
Arguments mem {M} _.
(** with the temporaries and the state variable of the emitted text *)
Record MS (M : Type) := mkMS { ms_st : St M; ms_tmp : gmap nat Z; ms_bb : nat }.
Arguments mkMS {M} _ _ _.
Arguments ms_st {M} _.
Arguments ms_tmp {M} _.
Arguments ms_bb {M} _.
Definition set_reg {M} (x : nat) (v : Z) (s : St M) : St M := mkSt (<[x := v]> (regs s)) (mem s).
Definition eval {M} (s : St M) (v : Value) : Z :=
  match v with VReg x => default 0 (regs s !! x) | VConst c => c end.
Definition truth (v : Z) : bool := negb (v =? 0).

Section semantics.
(** an instruction changes the state, and may end the thread ([trap]) *)
Context {inst M : Type} (run_inst : inst → St M → St M * bool).
Fixpoint run_insts (l : list inst) (s : St M) : St M * bool :=
  match l with
  | [] => (s, false)
  | i :: l => let '(s, ended) := run_inst i s in if ended : bool then (s, true) else run_insts l s
  end.

(** ** The graph *)
Section graph.
Context (F : Function inst).
Inductive Conf := At (b : nat) (s : St M) | Done (s : St M).
(** all phis of [To] at once *)
Definition set_all (l : list (nat * Z)) (s : St M) : St M := foldl (λ s p, set_reg p.1 p.2 s) s l.
Definition edge (From To : nat) (s : St M) : option Conf :=
  cs ← copies F From To;
  Some (At To (set_all ((λ c : PhiNode * Value, (phi_reg c.1, eval s c.2)) <$> cs) s)).
Definition leave (b : nat) (t : Terminator) (s : St M) : option Conf :=
  match t with
  | Br n => edge b n s
  | CondBr c t f => if truth (eval s c) then edge b t s else edge b f s
  | Ret | Unreachable => Some (Done s)
  | OtherTerm _ => None
  end.
Definition cfg_step (c : Conf) : option Conf :=
  match c with
  | At b s =>
      B ← F !! b;
      let '(s, ended) := run_insts (insts B) s in
      if ended : bool then Some (Done s) else leave b (term B) s
  | Done _ => None
  end.
Fixpoint steps (n : nat) (c : Conf) : option Conf :=
  match n with O => Some c | S n => c ← cfg_step c; steps n c end.
(** the graph ends in [s'] from [s] *)
Definition cfg_returns (s s' : St M) : Prop := ∃ n, steps n (At O s) = Some (Done s').
End graph.

(** ** The statements *)
Inductive Out := ONormal | OBreak | OContinue | OReturn.
Definition upd_st (m : MS M) (s : St M) : MS M := mkMS s (ms_tmp m) (ms_bb m).
(** the statements a [switch] runs: those of the case and of all after it, [default] last *)
Fixpoint case_body (cases : list (nat * list (Stmt inst))) (k : nat) : list (Stmt inst) :=
  match cases with
  | [] => [SReturn]
  | (n, l) :: cs => if (n =? k)%nat then concat (snd <$> cases) ++ [SReturn] else case_body cs k
  end.
Fixpoint exec (n : nat) (ss : list (Stmt inst)) (m : MS M) {struct n} : option (Out * MS M) :=
  match ss with
  | [] => Some (ONormal, m)
  | s :: ss' =>
      match n with
      | O => None
      | S n =>
          match s with
          | SInst i =>
              let '(st, ended) := run_inst i (ms_st m) in
              if ended : bool then Some (OReturn, upd_st m st) else exec n ss' (upd_st m st)
          | SAssign P v => exec n ss' (upd_st m (set_reg (phi_reg P) (eval (ms_st m) v) (ms_st m)))
          | STemp i P v => exec n ss' (mkMS (ms_st m) (<[i := eval (ms_st m) v]> (ms_tmp m)) (ms_bb m))
          | SFromTemp P i => exec n ss' (upd_st m (set_reg (phi_reg P) (default 0 (ms_tmp m !! i)) (ms_st m)))
          | SBlock l =>
              match exec n l m with Some (ONormal, m) => exec n ss' m | r => r end
          | SIf neg c a b =>
              match exec n (if xorb neg (truth (eval (ms_st m) c)) then a else default [] b) m with
              | Some (ONormal, m) => exec n ss' m
              | r => r
              end
          | SFor l =>
              match exec n l m with
              | Some (ONormal, m) | Some (OContinue, m) => exec n ss m
              | Some (OBreak, m) => exec n ss' m
              | r => r
              end
          | SBreak => Some (OBreak, m)
          | SContinue => Some (OContinue, m)
          | SReturn => Some (OReturn, m)
          | SDeclState k => exec n ss' (mkMS (ms_st m) (ms_tmp m) k)
          | SState k brk =>
              let m := mkMS (ms_st m) (ms_tmp m) k in
              if brk then Some (OBreak, m) else exec n ss' m
          | SSwitch cases =>
              match exec n (case_body cases (ms_bb m)) m with
              | Some (ONormal, m) | Some (OBreak, m) => exec n ss' m
              | r => r
              end
          | SDropped _ => exec n ss' m
          end
      end
  end.
Definition start (s : St M) : MS M := mkMS s ∅ O.
(** the body of a kernel ends in [s'] from [s] *)
Definition body_returns (ss : list (Stmt inst)) (s s' : St M) : Prop :=
  ∃ n m, exec n ss (start s) = Some (OReturn, m) ∧ ms_st m = s'.

(** ** Facts about execution *)
Lemma exec_mono n n' ss m r : (n <= n')%nat → exec n ss m = Some r → exec n' ss m = Some r.
Proof.
  revert n' ss m r. induction n as [|n IH]; intros n' ss m r Hn.
  - destruct ss; [by destruct n'|done].
  - destruct n' as [|n']; [lia|]. destruct ss as [|s ss]; [done|].
    assert (∀ l m r, exec n l m = Some r → exec n' l m = Some r) as IH' by (intros; apply (IH n'); [lia|done]). clear IH Hn.
    cbn [exec]. destruct s; try (by auto).
    + destruct (run_inst i (ms_st m)) as [st [|]]; auto.
    + destruct (exec n l m) as [[o m1]|] eqn:E; [|done]. rewrite (IH' _ _ _ E). destruct o; auto.
    + destruct (exec n _ m) as [[o m1]|] eqn:E; [|done]. rewrite (IH' _ _ _ E). destruct o; auto.
    + destruct (exec n l m) as [[o m1]|] eqn:E; [|done]. rewrite (IH' _ _ _ E). destruct o; auto.
    + destruct brk; auto.
    + destruct (exec n _ m) as [[o m1]|] eqn:E; [|done]. rewrite (IH' _ _ _ E). destruct o; auto.
Qed.
Lemma exec_det n n' ss m r r' : exec n ss m = Some r → exec n' ss m = Some r' → r = r'.
Proof.
  intros H H'. apply (exec_mono n (n + n')) in H; [|lia]. apply (exec_mono n' (n + n')) in H'; [|lia]. congruence.
Qed.
Definition andthen (r : option (Out * MS M)) (f : MS M → option (Out * MS M)) : option (Out * MS M) :=
  match r with Some (ONormal, m) => f m | r => r end.
Lemma exec_app n a b m r : exec n (a ++ b) m = Some r → andthen (exec n a m) (exec n b) = Some r.
Proof.
  revert a m r. induction n as [|n IH]; intros a m r; destruct a as [|s a]; cbn [app]; try done.
  assert (∀ m r, exec n (a ++ b) m = Some r → andthen (exec n a m) (exec (S n) b) = Some r) as IH'.
  { intros m1 r1 H1. apply IH in H1. destruct (exec n a m1) as [[o m2]|]; [|done]. destruct o; cbn [andthen] in *; [|done..].
    exact (exec_mono n (S n) _ _ _ ltac:(lia) H1). }
  cbn [exec]. destruct s; try (by auto).
  - destruct (run_inst i (ms_st m)) as [st [|]]; auto.
  - destruct (exec n l m) as [[o m1]|] eqn:E; [|done]. destruct o; auto.
  - destruct (exec n _ m) as [[o m1]|] eqn:E; [|done]. destruct o; auto.
  - destruct (exec n l m) as [[o m1]|] eqn:E; [|done].
    assert (exec n (SFor l :: a ++ b) m1 = Some r → andthen (exec n (SFor l :: a) m1) (exec (S n) b) = Some r) as Hf.
    { intros H. apply (IH (SFor l :: a)) in H. destruct (exec n (SFor l :: a) m1) as [[o1 m2]|]; [|done].
      destruct o1; cbn [andthen] in *; [|done..]. exact (exec_mono n (S n) _ _ _ ltac:(lia) H). }
    destruct o; auto.
  - destruct brk; auto.
  - destruct (exec n _ m) as [[o m1]|] eqn:E; [|done]. destruct o; auto.
Qed.
Lemma app_exec n n' a b m r : andthen (exec n a m) (exec n' b) = Some r → exec (n + n') (a ++ b) m = Some r.
Proof.
  revert a m. induction n as [|n IH]; intros a m; destruct a as [|s a]; cbn [app]; try done.
  - intros H. exact (exec_mono n' (S n + n') _ _ _ ltac:(lia) H).
  - cbn [exec]. rewrite Nat.add_succ_l. cbn [exec].
    assert (∀ l m r, exec n l m = Some r → exec (n + n') l m = Some r) as Hm by (intros; apply (exec_mono n); [lia|done]).
    destruct s; try (by auto).
    + destruct (run_inst i (ms_st m)) as [st [|]]; cbn [andthen]; auto.
    + destruct (exec n l m) as [[o m1]|] eqn:E; [|done]. rewrite (Hm _ _ _ E). destruct o; cbn [andthen]; auto.
    + destruct (exec n _ m) as [[o m1]|] eqn:E; [|done]. rewrite (Hm _ _ _ E). destruct o; cbn [andthen]; auto.
    + destruct (exec n l m) as [[o m1]|] eqn:E; [|done]. rewrite (Hm _ _ _ E).
      destruct o; cbn [andthen]; auto; apply (IH (SFor l :: a)).
    + destruct brk; cbn [andthen]; auto.
    + destruct (exec n _ m) as [[o m1]|] eqn:E; [|done]. rewrite (Hm _ _ _ E). destruct o; cbn [andthen]; auto.
Qed.

Lemma exec_insts l m : exec (length l) (SInst <$> l) m =
  let '(s, ended) := run_insts l (ms_st m) in Some (if ended : bool then OReturn else ONormal, upd_st m s).
Proof.
  revert m. induction l as [|i l IH]; intros m; [by destruct m|]. cbn.
  destruct (run_inst i (ms_st m)) as [s [|]]; [done|]. rewrite IH. cbn. by destruct (run_insts l s).
Qed.

(** ** Facts about the graph *)
Section steps.
Context (F : Function inst).
Lemma steps_add n n' c : steps F (n + n') c = c ← steps F n c; steps F n' c.
Proof. revert c. induction n as [|n IH]; intros c; [done|]. cbn. destruct (cfg_step F c); [apply IH|done]. Qed.
Lemma steps_done n s c : steps F n (Done s) = Some c → n = O ∧ c = Done s.
Proof. destruct n; cbn; [by intros [= <-]|done]. Qed.
Lemma steps_before n n' c c' s : steps F n c = Some (Done s) → steps F n' c = Some c' →
  (n' <= n)%nat ∧ steps F (n - n') c' = Some (Done s).
Proof.
  intros H H'. destruct (decide (n' <= n)%nat) as [Hn|Hn].
  - split; [done|]. replace n with (n' + (n - n'))%nat in H by lia. rewrite steps_add, H' in H. exact H.
  - replace n' with (n + S (n' - n - 1))%nat in H' by lia. rewrite steps_add, H in H'. done.
Qed.

(** ** Code and where it goes *)
(** the blocks reached by running past the code, by [continue] and by [break] *)
Record Exits := mkExits { kn : option nat; kc : option nat; kb : option nat }.
Definition target (K : Exits) (o : Out) (s : St M) : option (Conf) :=
  match o with
  | ONormal => (λ b, At b s) <$> kn K
  | OContinue => (λ b, At b s) <$> kc K
  | OBreak => (λ b, At b s) <$> kb K
  | OReturn => Some (Done s)
  end.
(** started where the graph is at [c0], the code runs to an exit exactly when the graph gets there, after at
    least [d] blocks; and it ends when the graph does *)
Definition code (d : nat) (ss : list (Stmt inst)) (c0 : St M → option Conf) (K : Exits) : Prop := ∀ m c,
  c0 (ms_st m) = Some c →
  (∀ n o m', exec n ss m = Some (o, m') →
     ∃ j c', (d <= j)%nat ∧ steps F j c = Some c' ∧ target K o (ms_st m') = Some c') ∧
  (∀ k s', steps F k c = Some (Done s') → ∃ n r, exec n ss m = Some r).
Lemma code_weaken d d' ss c0 K K' :
  code d ss c0 K → (d' <= d)%nat →
  (∀ b, kn K = Some b → kn K' = Some b) → (∀ b, kc K = Some b → kc K' = Some b) → (∀ b, kb K = Some b → kb K' = Some b) →
  code d' ss c0 K'.
Proof.
  intros H Hd Hn Hc Hb m c E. destruct (H m c E) as [H1 H2]. split; [|done].
  intros n o m' E'. destruct (H1 n o m' E') as (j & c' & Hj & Hs & Ht). exists j, c'. split_and!; [lia|done|].
  destruct o; cbn in *; try done.
  - destruct (kn K) eqn:Ek; [|done]. by rewrite (Hn _ eq_refl).
  - destruct (kb K) eqn:Ek; [|done]. by rewrite (Hb _ eq_refl).
  - destruct (kc K) eqn:Ek; [|done]. by rewrite (Hc _ eq_refl).
Qed.
Lemma code_seq d a b c0 x K :
  code d a c0 (mkExits (Some x) (kc K) (kb K)) → code 0 b (λ s, Some (At x s)) K → code d (a ++ b) c0 K.
Proof.
  intros Ha Hb m c E. destruct (Ha m c E) as [Ha1 Ha2]. split.
  - intros n o m' H. apply exec_app in H. destruct (exec n a m) as [[o1 m1]|] eqn:E1; [|done].
    destruct (Ha1 _ _ _ E1) as (j & c' & Hj & Hs & Ht).
    destruct o1; cbn in H, Ht; [|injection H as <- <-; by exists j, c'..].
    injection Ht as <-. destruct (Hb m1 _ eq_refl) as [Hb1 _]. destruct (Hb1 _ _ _ H) as (j' & c' & _ & Hs' & Ht').
    exists (j + j')%nat, c'. split_and!; [lia| |done]. by rewrite steps_add, Hs.
  - intros k s' Hk. destruct (Ha2 k s' Hk) as (n & [o1 m1] & E1). destruct (Ha1 _ _ _ E1) as (j & c' & Hj & Hs & Ht).
    destruct o1; cbn in Ht; [|eexists (n + 0)%nat, _; apply app_exec; rewrite E1; reflexivity..].
    injection Ht as <-. destruct (steps_before _ _ _ _ _ Hk Hs) as [_ Hk'].
    destruct (Hb m1 _ eq_refl) as [_ Hb2]. destruct (Hb2 _ _ Hk') as (n' & r & E2).
    exists (n + n')%nat, r. apply app_exec. by rewrite E1.
Qed.
(** one statement that jumps *)
Lemma code_jump s o b K :
  (∀ n m, exec (S n) [s] m = Some (o, m)) → (∀ s, target K o s = Some (At b s)) → code 0 [s] (λ s, Some (At b s)) K.
Proof.
  intros He Ht m c [= <-]. split.
  - intros n o' m' H. destruct n; [done|]. rewrite He in H. injection H as <- <-. exists O. eexists. by split_and!.
  - intros k s' _. by exists 1%nat, (o, m).
Qed.
Lemma code_nil b K : kn K = Some b → code 0 [] (λ s, Some (At b s)) K.
Proof.
  intros Hk m c [= <-]. split; [|intros; by exists 1%nat, (ONormal, m)].
  intros n o m' H. destruct n; injection H as <- <-; exists O; eexists; split_and!; [done|done|by cbn; rewrite Hk|done|done|by cbn; rewrite Hk].
Qed.
Lemma code_return K : code 0 [SReturn] (λ s, Some (Done s)) K.
Proof.
  intros m c [= <-]. split; [|intros; by exists 1%nat, (OReturn, m)].
  intros n o m' H. destruct n; [done|]. injection H as <- <-. exists O. eexists. by split_and!.
Qed.
Lemma code_if neg v a b ca cb K :
  code 0 a ca K → code 0 (default [] b) cb K →
  code 0 [SIf neg v a b] (λ s, if xorb neg (truth (eval s v)) then ca s else cb s) K.
Proof.
  intros Ha Hb m c E. cbn beta in E.
  assert (∃ l, l = (if xorb neg (truth (eval (ms_st m) v)) then a else default [] b) ∧
    (∀ n o m', exec n l m = Some (o, m') → ∃ j c', (0 <= j)%nat ∧ steps F j c = Some c' ∧ target K o (ms_st m') = Some c') ∧
    (∀ k s', steps F k c = Some (Done s') → ∃ n r, exec n l m = Some r)) as (l & El & H1 & H2).
  { destruct (xorb neg _); eexists; (split; [reflexivity|]); [exact (Ha m c E)|exact (Hb m c E)]. }
  split.
  - intros n o m' H. destruct n as [|n]; [done|]. cbn [exec] in H. rewrite <- El in H.
    destruct (exec n l m) as [[o1 m1]|] eqn:E1; [|done].
    destruct o1; [destruct n; injection H as <- <-|injection H as <- <-..]; by apply (H1 _ _ _ E1).
  - intros k s' Hk. destruct (H2 _ _ Hk) as (n & [o1 m1] & E1). exists (S n).
    cbn [exec]. rewrite <- El, E1. destruct o1; [|by eexists..]. destruct n; by eexists.
Qed.
(** a loop whose body goes round or breaks *)
Lemma code_for body h e K :
  code 1 body (λ s, Some (At h s)) (mkExits (Some h) (Some h) e) → (∀ b, e = Some b → kn K = Some b) →
  code 1 [SFor body] (λ s, Some (At h s)) K.
Proof.
  intros Hb He m c [= <-]. split.
  - intros n. revert m. induction n as [|n IH]; intros m o m' H; [done|]. cbn [exec] in H.
    destruct (exec n body m) as [[o1 m1]|] eqn:E1; [|done].
    destruct (Hb m _ eq_refl) as [Hb1 _]. destruct (Hb1 _ _ _ E1) as (j & c' & Hj & Hs & Ht).
    assert (exec n [SFor body] m1 = Some (o, m') → c' = At h (ms_st m1) →
      ∃ j c', (1 <= j)%nat ∧ steps F j (At h (ms_st m)) = Some c' ∧ target K o (ms_st m') = Some c') as Hround.
    { intros H' ->. destruct (IH _ _ _ H') as (j' & c' & Hj' & Hs' & Ht'). exists (j + j')%nat, c'.
      split_and!; [lia| |done]. by rewrite steps_add, Hs. }
    destruct o1; cbn in Ht.
    + apply Hround; [done|congruence].
    + assert (o = ONormal ∧ m' = m1) as [-> ->] by (destruct n; injection H as <- <-; done).
      exists j, c'. split_and!; [done..|]. destruct e as [b|]; [|done]. cbn in *. by rewrite (He b eq_refl).
    + apply Hround; [done|congruence].
    + injection H as <- <-. by exists j, c'.
  - intros k. revert m. induction k as [k IH] using lt_wf_ind. intros m s' Hk.
    destruct (Hb m _ eq_refl) as [Hb1 Hb2]. destruct (Hb2 _ _ Hk) as (n & [o1 m1] & E1).
    destruct (Hb1 _ _ _ E1) as (j & c' & Hj & Hs & Ht). destruct (steps_before _ _ _ _ _ Hk Hs) as [Hle Hk'].
    assert (c' = At h (ms_st m1) → ∃ n r, exec n [SFor body] m1 = Some r) as Hround.
    { intros ->. apply (IH (k - j)%nat) with (s' := s'); [lia|done]. }
    destruct o1; cbn in Ht.
    1, 3: destruct Hround as (n' & r & E2); [congruence|]; exists (S (n + n')), r; cbn [exec];
      rewrite (exec_mono n (n + n') _ _ _ ltac:(lia) E1); by apply (exec_mono n'); [lia|].
    + exists (S n), (ONormal, m1). cbn [exec]. rewrite E1. by destruct n.
    + exists (S n), (OReturn, m1). cbn [exec]. by rewrite E1.
Qed.
(** the instructions of a block, then its terminator *)
Lemma code_block b B ts K :
  F !! b = Some B → (∀ s, is_Some (leave F b (term B) s)) → code 0 ts (leave F b (term B)) K →
  code 1 ((SInst <$> insts B) ++ ts) (λ s, Some (At b s)) K.
Proof.
  intros HB Hl Hts m c [= <-].
  assert (cfg_step F (At b (ms_st m)) = let '(s, ended) := run_insts (insts B) (ms_st m) in
            if ended : bool then Some (Done s) else leave F b (term B) s) as Estep by (cbn; by rewrite HB).
  pose proof exec_insts as Erun.
  specialize (Erun (insts B) m).
  destruct (run_insts (insts B) (ms_st m)) as [s ended] eqn:Er. split.
  - intros n o m' H. apply exec_app in H. destruct (exec n _ m) as [[o1 m1]|] eqn:E1; [|done].
    pose proof (exec_det _ _ _ _ _ _ E1 Erun) as [= -> ->].
    destruct ended.
    + cbn in H. injection H as <- <-. exists 1%nat. eexists. split_and!; [done| |done]. cbn [steps]. by rewrite Estep.
    + cbn in H. destruct (Hl s) as [c' Ec]. destruct (Hts (upd_st m s) c' Ec) as [H1 _].
      destruct (H1 _ _ _ H) as (j & c2 & _ & Hs & Ht). exists (S j), c2. split_and!; [lia| |done].
      cbn [steps]. rewrite Estep, Ec. exact Hs.
  - intros k s' Hk. destruct k as [|k]; [done|]. cbn [steps] in Hk. rewrite Estep in Hk.
    destruct ended.
    + eexists (_ + 0)%nat, _. apply app_exec. rewrite Erun. reflexivity.
    + destruct (Hl s) as [c' Ec]. rewrite Ec in Hk. destruct (Hts (upd_st m s) c' Ec) as [_ H2].
      destruct (H2 _ _ Hk) as (n & r & E2). eexists (_ + n)%nat, r. apply app_exec. rewrite Erun. exact E2.
Qed.
End steps.
End semantics.
