(* ===== verification/MslFlowSim.v ===== *)
(** The emitted control flow means what the graph means: phi copies assign all phis at once; a structured
    body and a state machine run and return exactly as the graph does; emission always comes to an end. *)
From S2P Require Import Prelude Cstd MslFlow MslFlowSem.
Open Scope Z_scope.

Section sim.
Context {inst M : Type} (run_inst : inst → St M → St M * bool).
Context (F : Function inst) (A : Analyses).
Abbreviation Stmts := (list (Stmt inst)).
Abbreviation exec := (exec run_inst).
Abbreviation code := (code run_inst F).
Abbreviation edge := (edge F).
Abbreviation steps := (steps run_inst F).

(** ** Phi copies *)
Lemma exec_SAssign n P v ss m :
  exec (S n) (SAssign P v :: ss) m = exec n ss (upd_st m (set_reg (phi_reg P) (eval (ms_st m) v) (ms_st m))).
Proof. done. Qed.
Lemma exec_STemp n i P v ss m :
  exec (S n) (STemp i P v :: ss) m = exec n ss (mkMS (ms_st m) (<[i := eval (ms_st m) v]> (ms_tmp m)) (ms_bb m)).
Proof. done. Qed.
Lemma exec_SFromTemp n i P ss m :
  exec (S n) (SFromTemp P i :: ss) m = exec n ss (upd_st m (set_reg (phi_reg P) (default 0 (ms_tmp m !! i)) (ms_st m))).
Proof. done. Qed.
Lemma exec_SBlock n l ss m : exec (S n) (SBlock l :: ss) m = andthen (exec n l m) (exec n ss).
Proof. cbn [MslFlowSem.exec]. by destruct (exec n l m) as [[[] ?]|]. Qed.
Lemma exec_SIf n neg c a b ss m : exec (S n) (SIf neg c a b :: ss) m
  = andthen (exec n (if xorb neg (truth (eval (ms_st m) c)) then a else default [] b) m) (exec n ss).
Proof. cbn [MslFlowSem.exec]. by destruct (exec n _ m) as [[[] ?]|]. Qed.
Lemma eval_set x v (s : St M) w : w ≠ VReg x → eval (set_reg x v s) w = eval s w.
Proof. destruct w as [y|]; [|done]. intros H. cbn. rewrite lookup_insert_ne; [done|congruence]. Qed.
Lemma run_assigns (cs : list (PhiNode * Value)) (m : MS M) :
  (∀ c c', c ∈ cs → c' ∈ cs → c.2 ≠ VReg (phi_reg c'.1)) →
  exec (S (length cs)) ((λ c, SAssign c.1 c.2) <$> cs) m
    = Some (ONormal, upd_st m (set_all ((λ c : PhiNode * Value, (phi_reg c.1, eval (ms_st m) c.2)) <$> cs) (ms_st m))).
Proof.
  revert m. induction cs as [|c cs IH]; intros m Hne; [by destruct m|].
  cbn [fmap list_fmap length]. rewrite exec_SAssign, IH.
  - cbn [upd_st ms_st ms_tmp ms_bb]. do 3 f_equal. unfold set_all. cbn [foldl]. f_equal.
    apply list_fmap_ext. intros i c' Hc'. f_equal. apply eval_set.
    apply Hne; [by right; eapply list_elem_of_lookup_2|by left].
  - intros c1 c2 H1 H2. apply Hne; by right.
Qed.
Lemma run_temps (cs : list (PhiNode * Value)) k (m : MS M) :
  exec (S (length cs)) (imap (λ i c, STemp (k + i) c.1 c.2) cs) m
    = Some (ONormal, mkMS (ms_st m) (foldl (λ t p, <[p.1 := p.2]> t) (ms_tmp m) (imap (λ i c, ((k + i)%nat, eval (ms_st m) c.2)) cs)) (ms_bb m)).
Proof.
  revert k m. induction cs as [|c cs IH]; intros k m; [by destruct m|].
  cbn [imap length]. rewrite exec_STemp, Nat.add_0_r.
  rewrite (imap_ext _ (λ i c, STemp (S k + i) c.1 c.2)) by (intros; unfold compose; f_equal; lia).
  rewrite IH. cbn [ms_st ms_tmp ms_bb foldl fst snd]. do 4 f_equal.
  apply imap_ext. intros; unfold compose; f_equal; lia.
Qed.
Lemma run_from_temps (cs : list (PhiNode * Value)) (vs : list Z) k (m : MS M) :
  length vs = length cs → (∀ i v, vs !! i = Some v → ms_tmp m !! (k + i)%nat = Some v) →
  exec (S (length cs)) (imap (λ i c, SFromTemp c.1 (k + i)) cs) m
    = Some (ONormal, upd_st m (set_all (zip (phi_reg ∘ fst <$> cs) vs) (ms_st m))).
Proof.
  revert vs k m. induction cs as [|c cs IH]; intros [|v vs] k m Hl Hv; try done; [by destruct m|].
  cbn [imap length]. rewrite exec_SFromTemp, Nat.add_0_r.
  rewrite (imap_ext _ (λ i c, SFromTemp c.1 (S k + i))) by (intros; unfold compose; f_equal; lia).
  rewrite <- (Nat.add_0_r k) at 1. rewrite (Hv O v eq_refl). injection Hl as Hl.
  rewrite (IH vs); [done|done|]. cbn [upd_st ms_tmp]. intros i w Hi. replace (S k + i)%nat with (k + S i)%nat by lia. by apply Hv.
Qed.
Lemma temps_lookup (l : list (nat * Z)) (t : gmap nat Z) : NoDup l.*1 →
  ∀ p, p ∈ l → foldl (λ t p, <[p.1 := p.2]> t) t l !! p.1 = Some p.2.
Proof.
  intros Hnd p Hp. assert (∀ t : gmap nat Z, p ∈ l ∨ ((p.1 ∉ l.*1) ∧ (t !! p.1 = Some p.2)) →
    foldl (λ t p, <[p.1 := p.2]> t) t l !! p.1 = Some p.2) as H; [|by apply H; left]. clear Hp.
  induction l as [|q l IH]; intros t' Hp; [by destruct Hp as [Hp%elem_of_nil|[_ ?]]|].
  cbn [fmap list_fmap] in Hnd. apply NoDup_cons in Hnd as [Hq Hnd]. cbn [foldl]. apply IH; [done|].
  destruct Hp as [[->|Hp]%elem_of_cons|[Hp Ht]]; [right|by left|right].
  - split; [done|]. by rewrite lookup_insert_eq.
  - cbn in Hp. rewrite not_elem_of_cons in Hp. destruct Hp as [H1 H2]. split; [done|]. rewrite lookup_insert_ne; [done|congruence].
Qed.
(** the copies for an edge assign all phis at once, whatever they read *)
Lemma phi_copies_run From To l (m : MS M) : phi_copies F From To = Some l →
  ∃ n t s, exec n l m = Some (ONormal, mkMS s t (ms_bb m)) ∧ edge From To (ms_st m) = Some (At To s).
Proof.
  unfold phi_copies, MslFlowSem.edge. destruct (copies F From To) as [cs|] eqn:Ec; [|done]. cbn [mbind option_bind].
  intros [= <-]. destruct (existsb _ cs) eqn:Ed.
  - set (vs := (λ c : PhiNode * Value, eval (ms_st m) c.2) <$> cs).
    set (t := foldl (λ t p, <[p.1 := p.2]> t) (ms_tmp m) (imap (λ i c, ((0 + i)%nat, eval (ms_st m) c.2)) cs)).
    assert (zip (phi_reg ∘ fst <$> cs) vs = (λ c : PhiNode * Value, (phi_reg c.1, eval (ms_st m) c.2)) <$> cs) as Ez.
    { unfold vs. clear. induction cs as [|c cs IH]; [done|]. cbn. by rewrite IH. }
    eexists (S (S (length cs) + S (length cs))), t, _. split; [|reflexivity].
    rewrite exec_SBlock.
    rewrite (app_exec run_inst (S (length cs)) (S (length cs)) _ _ _
      (ONormal, upd_st (mkMS (ms_st m) t (ms_bb m)) (set_all (zip (phi_reg ∘ fst <$> cs) vs) (ms_st m)))).
    + rewrite Ez. reflexivity.
    + rewrite (run_temps cs 0 m : exec _ (imap (λ i c, STemp i c.1 c.2) cs) m = _). cbn [andthen].
      rewrite (run_from_temps cs vs 0) ; [done|by unfold vs; rewrite length_fmap|].
      intros i v Hi. cbn [ms_tmp]. apply (temps_lookup (imap (λ i c, ((0 + i)%nat, eval (ms_st m) c.2)) cs) _) with (p := (i, v)).
      * rewrite fmap_imap. rewrite (imap_ext _ (λ i _, i)) by done.
        clear. assert (∀ k, NoDup (imap (λ i (_ : PhiNode * Value), (k + i)%nat) cs) ∧ ∀ x, x ∈ imap (λ i (_ : PhiNode * Value), (k + i)%nat) cs → (k <= x)%nat) as H; [|apply (H O)].
        induction cs as [|c cs IH]; intros k; [split; [constructor|intros x Hx%elem_of_nil; done]|].
        cbn [imap]. rewrite (imap_ext _ (λ i _, (S k + i)%nat)) by (intros; unfold compose; lia).
        destruct (IH (S k)) as [H1 H2]. split; [constructor; [intros Hx%H2; lia|done]|].
        intros x [->|Hx%H2]%elem_of_cons; lia.
      * apply list_elem_of_lookup. exists i. rewrite list_lookup_imap. unfold vs in Hi. rewrite list_lookup_fmap in Hi.
        destruct (cs !! i); [|done]. injection Hi as <-. done.
  - eexists (S (length cs)), (ms_tmp m), _. split; [|reflexivity]. rewrite run_assigns; [done|].
    intros c c' Hc Hc' Heq. rewrite <- not_true_iff_false, existsb_exists in Ed. apply Ed. exists c. split; [by apply list_elem_of_In|].
    unfold is_phi_of. apply existsb_exists. exists c'.1. split; [|by apply bool_decide_eq_true].
    apply list_elem_of_In. unfold copies in Ec. apply mapM_Some in Ec. apply list_elem_of_lookup in Hc' as [i Hi].
    destruct (Forall2_lookup_r _ _ _ _ _ Ec Hi) as (P & HP & HPi). destruct (incoming_for P From); [|done].
    injection HPi as <-. by eapply list_elem_of_lookup_2.
Qed.
Lemma code_copies From To l K : phi_copies F From To = Some l → kn K = Some To → code 0 l (edge From To) K.
Proof.
  intros Hl HK m c Hc. destruct (phi_copies_run _ _ _ m Hl) as (n & t & s & E & Ee).
  rewrite Ee in Hc. injection Hc as <-. split; [|by eauto].
  intros n' o m' E'. pose proof (exec_det _ _ _ _ _ _ _ E E') as [= <- <-].
  exists O. eexists. split_and!; [done|done|]. cbn. by rewrite HK.
Qed.

(** ** Structured code *)
(** no jump was left out *)
Fixpoint drops (s : Stmt inst) : bool :=
  match s with
  | SDropped _ => true
  | SBlock l | SFor l => existsb drops l
  | SIf _ _ a b => existsb drops a || match b with Some b => existsb drops b | None => false end
  | SSwitch cases => existsb (λ c, existsb drops c.2) cases
  | _ => false
  end.
Definition complete (ss : Stmts) : Prop := existsb drops ss = false.
Lemma complete_app a b : complete (a ++ b) ↔ complete a ∧ complete b.
Proof. unfold complete. rewrite existsb_app. apply orb_false_iff. Qed.
Lemma complete_cons s a : complete (s :: a) ↔ drops s = false ∧ complete a.
Proof. unfold complete. cbn. apply orb_false_iff. Qed.

Lemma ebind_ok {X Y} (m : Em X) (f : X → Em Y) e y e' :
  ebind m f e = Ok (y, e') → ∃ x e1, m e = Ok (x, e1) ∧ f x e1 = Ok (y, e').
Proof. unfold ebind. destruct (m e) as [[x e1]|]; [|done]. eauto. Qed.
Lemma lift_fuel_ok {X} (o : option X) e x e' : lift_fuel o e = Ok (x, e') → o = Some x ∧ e' = e.
Proof. destruct o; [|done]. by intros [= -> ->]. Qed.

(** every edge has its phi operands, and no loop leaves to the header of a loop *)
Context (Hedges : ∀ b s, s ∈ successors F b → is_Some (copies F b s)).
Context (Hexits : ∀ b b' L L', getLoopFor A b = Some L → getLoopFor A b' = Some L' → getExitBlock L ≠ Some (getHeader L')).

Lemma edge_some b s (st : St M) : s ∈ successors F b → ∃ st', edge b s st = Some (At s st').
Proof. intros H. destruct (Hedges b s H) as [cs E]. unfold MslFlowSem.edge. rewrite E. by eexists. Qed.
Lemma leave_some b B (st : St M) : F !! b = Some B → (∀ t, term B ≠ OtherTerm t) → is_Some (leave F b (term B) st).
Proof.
  intros HB Ht. assert (∀ s, s ∈ successors_of (term B) → is_Some (edge b s st)) as He.
  { intros s Hs. destruct (edge_some b s st) as [st' E]; [unfold successors; by rewrite HB|]. rewrite E. by eexists. }
  destruct (term B); cbn in *; try (by eexists); [apply He; by left| |by edestruct Ht].
  destruct (truth _); apply He; set_solver.
Qed.
Lemma code_ext d ss c0 c1 K : (∀ s, c0 s = c1 s) → code d ss c0 K → code d ss c1 K.
Proof. intros E H m c Hc. apply H. by rewrite E. Qed.
Definition exits (stopAt : option nat) (ctx : option LoopCtx) : Exits :=
  mkExits stopAt ((λ c, getHeader (ctx_L c)) <$> ctx) (ctx ≫= ctx_exit).
Definition ctx_ok (ctx : option LoopCtx) : Prop := ∀ c, ctx = Some c → ∃ b, getLoopFor A b = Some (ctx_L c).
Abbreviation Chain := (nat → option nat → option LoopCtx → Em (list (Stmt inst))).
Definition chain_ok (chain : Chain) : Prop := ∀ BB stopAt ctx e ss e', ctx_ok ctx →
  chain BB stopAt ctx e = Ok (ss, e') → complete ss → code 1 ss (λ s, Some (At BB s)) (exits stopAt ctx).

Section chain.
Context (chain : Chain) (IH : chain_ok chain).
Lemma copies_emitted From To e l e' : emitPhiCopies F From To e = Ok (l, e') → phi_copies F From To = Some l.
Proof. unfold emitPhiCopies. destruct (phi_copies F From To); [|done]. by intros [= -> _]. Qed.
Lemma goto_code From S0 stopAt ctx e ss e' : ctx_ok ctx →
  gotoTarget F A chain From S0 stopAt ctx e = Ok (ss, e') → complete ss → code 0 ss (edge From S0) (exits stopAt ctx).
Proof.
  intros Hctx. unfold gotoTarget. case_bool_decide as Hs.
  - intros Hl%copies_emitted _. subst stopAt. by eapply code_copies.
  - intros (past & e1 & _ & H)%ebind_ok Hc. destruct past; [injection H as <- _; done|].
    apply ebind_ok in H as (cs & e2 & Hl%copies_emitted & H).
    assert (∀ b K, phi_copies F From S0 = Some cs → code 0 b (λ s, Some (At S0 s)) K → code 0 (cs ++ b) (edge From S0) K) as Hseq.
    { intros b K Hp Hb. eapply code_seq; [|exact Hb]. by apply code_copies. }
    assert (∀ r e1 e2, chain S0 stopAt ctx e1 = Ok (r, e2) → complete (cs ++ r) → code 0 (cs ++ r) (edge From S0) (exits stopAt ctx)) as Hchain.
    { intros r e3 e4 Hr [_ Hcr]%complete_app. apply Hseq; [done|].
      apply (code_weaken _ _ 1 0 _ _ (exits stopAt ctx)); [by eapply IH|lia|done..]. }
    destruct ctx as [c|].
    + destruct (Nat.eqb_spec S0 (getHeader (ctx_L c))) as [->|_].
      { injection H as <- _. apply Hseq; [done|]. by apply (code_jump _ _ _ OContinue). }
      case_bool_decide as He.
      { injection H as <- _. apply Hseq; [done|]. apply (code_jump _ _ _ OBreak); [done|]. intros s. cbn. by rewrite <- He. }
      destruct (negb _); [done|]. apply ebind_ok in H as (r & e3 & Hr & H). injection H as <- _. by eapply Hchain.
    + apply ebind_ok in H as (r & e3 & Hr & H). injection H as <- _. by eapply Hchain.
Qed.
Lemma direct_code From To e l e' ctx : To ∈ successors F From →
  emitDirectEdgeElse F From To e = Ok (l, e') → code 0 (default [] l) (edge From To) (exits (Some To) ctx).
Proof.
  intros Hin. unfold emitDirectEdgeElse. destruct (existsb _ _) eqn:Ex.
  - intros (cs & e1 & Hl%copies_emitted & [= <- <-])%ebind_ok. by apply code_copies.
  - intros [= <- _]. cbn [default]. apply (code_ext _ _ (λ s, Some (At To s))); [|by apply code_nil].
    intros s. destruct (Hedges From To Hin) as [cs Ec]. unfold MslFlowSem.edge. rewrite Ec. cbn.
    unfold copies in Ec. apply mapM_Some in Ec. destruct (phis_of F To) as [|P Ps]; [by apply Forall2_nil_inv_l in Ec as ->|].
    cbn in Ex. apply orb_false_iff in Ex as [Ex _]. inversion Ec as [|? c ? ? H1 H2]; subst.
    destruct (incoming_for P From); [|done]. by apply bool_decide_eq_false in Ex as [].
Qed.
Lemma arms_code BB c Tb Fb Mb ctx e ss e' : ctx_ok ctx → Tb ∈ successors F BB → Fb ∈ successors F BB →
  emitArms F A chain BB c Tb Fb Mb ctx e = Ok (ss, e') → complete ss →
  code 0 ss (leave F BB (CondBr c Tb Fb)) (exits Mb ctx).
Proof.
  intros Hctx HT HF. unfold emitArms.
  case_bool_decide as H1; [|case_bool_decide as H2]; intros (a & e1 & Ha & H)%ebind_ok Hc;
    apply ebind_ok in H as (b & e2 & Hb & [= <- <-]); apply complete_cons in Hc as [Hc _]; cbn [drops] in Hc;
    apply orb_false_iff in Hc as [Hca Hcb].
  - subst Mb. eapply code_ext; [|eapply (code_if _ _ true c); [by eapply goto_code|by eapply direct_code]].
    intros s. cbn. by destruct (truth _).
  - subst Mb. eapply code_ext; [|eapply (code_if _ _ false c); [by eapply goto_code|by eapply direct_code]].
    intros s. cbn. by destruct (truth _).
  - eapply code_ext; [|eapply (code_if _ _ false c _ (Some b)); [by eapply goto_code|by eapply goto_code]].
    intros s. cbn. by destruct (truth _).
Qed.
Lemma block_emitted BB e l e' : emitBlockInstrs F BB e = Ok (l, e') → ∃ B, F !! BB = Some B ∧ l = SInst <$> insts B.
Proof.
  unfold emitBlockInstrs. case_bool_decide; [done|]. destruct (F !! BB) as [B|]; [|done]. intros [= <- _]. by eexists.
Qed.
Lemma block_found BB e B e' : block F BB e = Ok (B, e') → F !! BB = Some B.
Proof. unfold block. destruct (F !! BB); [|done]. by intros [= -> _]. Qed.
Lemma loop_body_code BB L exit e ss e' : (∃ b, getLoopFor A b = Some L) → getHeader L = BB →
  emitLoopBody F A chain BB L exit e = Ok (ss, e') → complete ss →
  code 1 ss (λ s, Some (At BB s)) (mkExits (Some BB) (Some BB) exit).
Proof.
  intros HL HBB. unfold emitLoopBody. set (inner := Some (mkCtx L exit)).
  assert (ctx_ok inner) as Hctx by (intros c [= <-]; exact HL).
  assert (∀ d ss c0, code d ss c0 (exits None inner) → code d ss c0 (mkExits (Some BB) (Some BB) exit)) as Hw.
  { intros d l c0 H. apply (code_weaken _ _ _ _ _ _ _ _ H); [lia|done|cbn; congruence|done]. }
  intros (ins & e1 & Hi & H)%ebind_ok Hc. apply block_emitted in Hi as (B & HB & ->).
  apply ebind_ok in H as (B' & e2 & HB'%block_found & H). rewrite HB in HB'. injection HB' as <-.
  apply ebind_ok in H as (r & e3 & Hr & H). injection H as <- _. apply complete_app in Hc as [_ Hc].
  assert (∀ n, n ∈ successors_of (term B) → n ∈ successors F BB) as Hsucc by (intros n Hn; unfold successors; by rewrite HB).
  apply code_block; [done| |].
  { intros s. apply leave_some; [done|]. intros t Et. by rewrite Et in Hr. }
  destruct (term B) as [n|c Tb Fb| | |] eqn:Et; try done.
  - apply Hw. eapply goto_code; [exact Hctx|exact Hr|exact Hc].
  - apply ebind_ok in Hr as (Mb & e4 & [_ ->]%lift_fuel_ok & Hr).
    apply ebind_ok in Hr as (a & e5 & Ha & Hr).
    assert (complete a → code 0 a (leave F BB (CondBr c Tb Fb)) (exits Mb inner)) as Harms.
    { intros Hca. eapply arms_code; [exact Hctx|apply Hsucc; by left|apply Hsucc; by right; left|exact Ha|exact Hca]. }
    assert (∀ m r, Mb = Some m → complete a → code 0 r (λ s, Some (At m s)) (mkExits (Some BB) (Some BB) exit) →
      code 0 (a ++ r) (leave F BB (CondBr c Tb Fb)) (mkExits (Some BB) (Some BB) exit)) as Hseq.
    { intros m r' -> Hca Hr'. apply (code_seq _ _ _ _ _ _ m); [|done].
      apply (code_weaken _ _ _ _ _ _ _ _ (Harms Hca)); [lia|done|cbn; congruence|done]. }
    destruct Mb as [m|].
    + case_bool_decide as Hm; cbn [negb] in Hr.
      * injection Hr as <- _. apply complete_app in Hc as [Hc _]. eapply Hseq; [done|done|].
        apply (code_jump _ _ _ OBreak); [done|]. intros s. cbn. by rewrite <- Hm.
      * destruct (Nat.eqb_spec m BB) as [->|_].
        -- injection Hr as <- _. apply complete_app in Hc as [Hc _]. eapply Hseq; [done|done|].
           by apply (code_jump _ _ _ OContinue).
        -- apply ebind_ok in Hr as (r' & e6 & Hr' & [= <- _]). apply complete_app in Hc as [Hca Hcr].
           eapply Hseq; [done|done|]. apply Hw.
           apply (code_weaken _ _ 1 0 _ _ (exits None inner)); [by eapply IH|lia|done..].
    + injection Hr as <- _. apply Hw, Harms, Hc.
  - injection Hr as <- _. apply code_return.
  - injection Hr as <- _. apply code_return.
Qed.
Lemma loop_code BB L stopAt ctx e ss e' : getLoopFor A BB = Some L → getHeader L = BB → ctx_ok ctx →
  emitLoop F A chain BB L stopAt ctx e = Ok (ss, e') → complete ss → code 1 ss (λ s, Some (At BB s)) (exits stopAt ctx).
Proof.
  intros HL HBB Hctx. unfold emitLoop. destruct (getExitBlock L) as [x|] eqn:Ex.
  - intros (body & e1 & Hb & H)%ebind_ok Hc.
    assert (∀ r, complete (SFor body :: r) → code 0 r (λ s, Some (At x s)) (exits stopAt ctx) →
      code 1 (SFor body :: r) (λ s, Some (At BB s)) (exits stopAt ctx)) as Hseq.
    { intros r Hcr Hr. apply complete_cons in Hcr as [Hcb _]. apply (code_seq _ _ _ [SFor body] _ _ x); [|done].
      eapply code_for; [eapply loop_body_code; [by eexists|done|exact Hb|exact Hcb]|done]. }
    case_bool_decide as Hst.
    { injection H as <- _. apply Hseq; [done|]. apply code_nil. by rewrite <- Hst. }
    assert (∀ r e1 e2, chain x stopAt ctx e1 = Ok (r, e2) → complete (SFor body :: r) →
      code 1 (SFor body :: r) (λ s, Some (At BB s)) (exits stopAt ctx)) as Hchain.
    { intros r e2 e3 Hr Hcr. apply Hseq; [done|]. apply complete_cons in Hcr as [_ Hcr].
      apply (code_weaken _ _ 1 0 _ _ (exits stopAt ctx)); [by eapply IH|lia|done..]. }
    destruct ctx as [c|].
    + destruct (Nat.eqb_spec x (getHeader (ctx_L c))) as [->|_].
      { destruct (Hctx c eq_refl) as [b Hb']. by edestruct (Hexits _ _ _ _ HL Hb'). }
      case_bool_decide as He.
      * injection H as <- _. apply Hseq; [done|]. apply (code_jump _ _ _ OBreak); [done|]. intros s. cbn. by rewrite <- He.
      * apply ebind_ok in H as (r & e3 & Hr & [= <- _]). by eapply Hchain.
    + apply ebind_ok in H as (r & e3 & Hr & [= <- _]). by eapply Hchain.
  - destruct (getExitBlocks L); [|done]. intros (body & e1 & Hb & [= <- _])%ebind_ok [Hcb _]%complete_cons.
    eapply code_for; [eapply loop_body_code; [by eexists|done|exact Hb|exact Hcb]|done].
Qed.
Lemma straight_code BB stopAt ctx e ss e' : ctx_ok ctx →
  emitStraight F A chain BB stopAt ctx e = Ok (ss, e') → complete ss → code 1 ss (λ s, Some (At BB s)) (exits stopAt ctx).
Proof.
  intros Hctx. unfold emitStraight.
  intros (ins & e1 & Hi & H)%ebind_ok Hc. apply block_emitted in Hi as (B & HB & ->).
  apply ebind_ok in H as (B' & e2 & HB'%block_found & H). rewrite HB in HB'. injection HB' as <-.
  apply ebind_ok in H as (r & e3 & Hr & H). injection H as <- _. apply complete_app in Hc as [_ Hc].
  assert (∀ n, n ∈ successors_of (term B) → n ∈ successors F BB) as Hsucc by (intros n Hn; unfold successors; by rewrite HB).
  apply code_block; [done| |].
  { intros s. apply leave_some; [done|]. intros t Et. by rewrite Et in Hr. }
  destruct (term B) as [n|c Tb Fb| | |] eqn:Et; try done.
  - eapply goto_code; [exact Hctx|exact Hr|exact Hc].
  - apply ebind_ok in Hr as (Mb & e4 & [_ ->]%lift_fuel_ok & Hr). destruct Mb as [m0|]; [|done].
    revert Hr. generalize (match stopAt with
                 | Some s => if negb (m0 =? s)%nat && pdominates A m0 s then s else m0
                 | None => m0 end). intros m1.
    cbv zeta. generalize (match stopAt with
                 | Some s => if bool_decide (Some m1 = uniqueRet F) && negb (m1 =? s)%nat then s else m1
                 | None => m1 end). intros m Hr.
    apply ebind_ok in Hr as (a & e5 & Ha & Hr).
    assert (complete a → code 0 a (leave F BB (CondBr c Tb Fb)) (exits (Some m) ctx)) as Harms.
    { intros Hca. eapply arms_code; [exact Hctx|apply Hsucc; by left|apply Hsucc; by right; left|exact Ha|exact Hca]. }
    assert (∀ r, complete a → code 0 r (λ s, Some (At m s)) (exits stopAt ctx) →
      code 0 (a ++ r) (leave F BB (CondBr c Tb Fb)) (exits stopAt ctx)) as Hseq.
    { intros r' Hca Hr'. apply (code_seq _ _ _ _ _ _ m); [|done]. by apply Harms. }
    case_bool_decide as Hst; [injection Hr as <- _; rewrite <- Hst; by apply Harms|].
    assert (∀ r' e1 e2, chain m stopAt ctx e1 = Ok (r', e2) → complete (a ++ r') →
      code 0 (a ++ r') (leave F BB (CondBr c Tb Fb)) (exits stopAt ctx)) as Hchain.
    { intros r' e6 e7 Hr' [Hca Hcr]%complete_app. apply Hseq; [done|].
      apply (code_weaken _ _ 1 0 _ _ (exits stopAt ctx)); [by eapply IH|lia|done..]. }
    destruct ctx as [cx|].
    + destruct (Nat.eqb_spec m (getHeader (ctx_L cx))) as [Em|_].
      { injection Hr as <- _. apply complete_app in Hc as [Hc _]. apply Hseq; [done|]. apply (code_jump _ _ _ OContinue); [done|].
        intros s. cbn. by rewrite Em. }
      case_bool_decide as He.
      { injection Hr as <- _. apply complete_app in Hc as [Hc _]. apply Hseq; [done|].
        apply (code_jump _ _ _ OBreak); [done|]. intros s. cbn. by rewrite <- He. }
      apply ebind_ok in Hr as (r' & e6 & Hr' & [= <- _]). by eapply Hchain.
    + apply ebind_ok in Hr as (r' & e6 & Hr' & [= <- _]). by eapply Hchain.
  - injection Hr as <- _. apply code_return.
  - injection Hr as <- _. apply code_return.
Qed.
End chain.
Lemma chain_code fuel : chain_ok (emitChain F A fuel).
Proof.
  induction fuel as [|fuel IH]; [done|]. intros BB stopAt ctx e ss e' Hctx. cbn [emitChain].
  intros (past & e1 & _ & H)%ebind_ok Hc. destruct past; [injection H as <- _; done|].
  destruct (opens A BB ctx) as [L|] eqn:Eo; [|by eapply straight_code].
  unfold opens in Eo. destruct (getLoopFor A BB) as [L'|] eqn:EL; [|done].
  destruct (_ && _) eqn:Eb; [|done]. injection Eo as ->. apply andb_true_iff in Eb as [Eb%Nat.eqb_eq _].
  by eapply loop_code.
Qed.
Lemma structured_code body : emitBodyStructured F A = Ok body → complete body →
  code 1 body (λ s, Some (At O s)) (mkExits None None None).
Proof.
  unfold emitBodyStructured. destruct (emitChain _ _ _ _ _ _ _) as [[ss e]|] eqn:E; [|done].
  destruct (list_find _ _) as [[??]|]; [done|]. intros [= <-] Hc. by eapply (chain_code _ _ None None).
Qed.
(** code that can only return, returns as the graph does *)
Lemma code_returns body s s' : code 1 body (λ s, Some (At O s)) (mkExits None None None) →
  body_returns run_inst body s s' ↔ cfg_returns run_inst F s s'.
Proof.
  intros H. destruct (H (start s) _ eq_refl) as [H1 H2]. split.
  - intros (n & m & E & <-). destruct (H1 _ _ _ E) as (j & c' & _ & Hs & [= <-]). by exists j.
  - intros [k Hk]. destruct (H2 _ _ Hk) as (n & [o m] & E). exists n, m.
    destruct (H1 _ _ _ E) as (j & c' & _ & Hs & Ht). destruct o; try done. split; [done|]. injection Ht as <-.
    destruct (steps_before _ _ _ _ _ _ _ Hk Hs) as [_ Hd]. apply steps_done in Hd as [_ [= ->]]. done.
Qed.
End sim.
