(* ===== verification/MslFlowBfs.v ===== *)
(** The searches of the control-flow emission: reachability that ignores back edges is decided, distances from a
    branch's arms are distances of paths that avoid the branch, and the emission of a body comes to an end. *)
From S2P Require Import Prelude Cstd MslFlow.
Open Scope Z_scope.

Section searches.
Context {inst : Type} (F : Function inst) (A : Analyses).
Context (Hrange : ∀ b s, s ∈ successors F b → (s < length F)%nat).

(** ** A worklist: new elements are queued once *)
Lemma push_all ns q seen q' seen' : fold_left push ns (q, seen) = (q', seen') →
  seen' = list_to_set ns ∪ seen ∧ (∃ new, q' = q ++ new ∧ (∀ n, n ∈ new → n ∈ ns)
    ∧ (∀ n, n ∈ ns → n ∈ new ∨ n ∈ seen)) ∧
  ∀ D : gset nat, (∀ n, n ∈ ns → n ∈ D) → (length q' + size (D ∖ seen') <= length q + size (D ∖ seen))%nat.
Proof.
  revert q seen. induction ns as [|n ns IH]; intros q seen; cbn [fold_left push].
  - intros [= <- <-]. split_and!; [set_solver| |done]. exists []. rewrite app_nil_r. split_and!; [done|set_solver..].
  - case_bool_decide as Hn; intros E; apply IH in E as (-> & (new & -> & H1 & H2) & Hd).
    + split_and!; [set_solver| |].
      * exists new. split_and!; [done|set_solver|]. intros m [->|Hm]%elem_of_cons; auto.
      * intros D HD. apply Hd. set_solver.
    + split_and!; [set_solver| |].
      * exists (n :: new). split_and!; [by rewrite <- app_assoc|set_solver|].
        intros m [->|Hm]%elem_of_cons; [left; by left|]. destruct (H2 m Hm) as [?|[?|?]%elem_of_union]; set_solver.
      * intros D HD. etransitivity; [apply Hd; set_solver|]. rewrite length_app. cbn [length].
        assert (n ∈ D ∖ seen) as HnD by set_solver.
        replace (D ∖ ({[n]} ∪ seen)) with ((D ∖ seen) ∖ {[n]}) by set_solver.
        rewrite (size_difference _ {[n]}) by set_solver. rewrite size_singleton.
        assert (size (D ∖ seen) ≠ O) by (intros E%size_empty_inv; set_solver). lia.
Qed.
Definition blocks_of (From : nat) : gset nat := {[From]} ∪ list_to_set (seq 0 (length F)).
Lemma blocks_size From : (size (blocks_of From ∖ {[From]}) <= length F)%nat.
Proof.
  etransitivity; [apply (subseteq_size _ (list_to_set (seq 0 (length F)))); unfold blocks_of; set_solver|].
  rewrite size_list_to_set by apply NoDup_seq. by rewrite length_seq.
Qed.

(** ** Reachability along forward edges *)
Definition forward (b n : nat) : Prop := n ∈ successors F b ∧ dominates A n b = false.
Lemma forward_bfs_spec From To q seen fuel (D := blocks_of From) :
  (length q + size (D ∖ seen) < fuel)%nat → (∀ b, b ∈ q → b ∈ seen) → From ∈ seen → To ∉ seen →
  (∀ b, b ∈ seen → rtc forward From b) → (∀ b n, b ∈ seen → b ∉ q → forward b n → n ∈ seen) →
  ∃ r, forward_bfs F A fuel To q seen = Some r ∧ (r = true ↔ rtc forward From To).
Proof.
  revert q seen. induction fuel as [|fuel IH]; intros q seen Hf Hq HF HT Hs Hc; [lia|].
  destruct q as [|b q].
  - exists false. split; [done|]. split; [done|]. intros Hr. destruct HT.
    assert (∀ x y, rtc forward x y → x ∈ seen → y ∈ seen) as Hcl.
    { induction 1 as [|x y z Hxy _ IHr]; [done|]. intros Hx. apply IHr. apply (Hc x); [done|by intros ?%elem_of_nil|done]. }
    by apply (Hcl From).
  - cbn [forward_bfs]. set (ns := filter _ (successors F b)).
    assert (∀ n, n ∈ ns ↔ forward b n) as Hns by (intros n; unfold ns; rewrite list_elem_of_filter; unfold forward; tauto).
    assert (rtc forward From b) as Hb by (apply Hs, Hq; by left).
    destruct (existsb (Nat.eqb To) ns) eqn:Ex.
    + exists true. split; [done|]. split; [|done]. intros _. apply existsb_exists in Ex as (n & Hn & ->%Nat.eqb_eq).
      apply list_elem_of_In, Hns in Hn. by eapply rtc_r.
    + destruct (fold_left push ns (q, seen)) as [q' seen'] eqn:Ep.
      apply push_all in Ep as (-> & (new & -> & H1 & H2) & Hd).
      assert (∀ n, n ∈ ns → n ∈ D) as HD.
      { intros n [Hn _]%Hns. apply Hrange in Hn. unfold D, blocks_of. rewrite elem_of_union, elem_of_list_to_set, elem_of_seq. right; lia. }
      specialize (Hd D HD). apply IH.
      * cbn [length] in Hf. lia.
      * intros x [Hx|Hx]%elem_of_app; [set_solver|]. apply H1 in Hx. set_solver.
      * set_solver.
      * intros [Hx%elem_of_list_to_set|Hx]%elem_of_union; [|done].
        rewrite <- not_true_iff_false, existsb_exists in Ex. apply Ex. exists To. split; [by apply list_elem_of_In|apply Nat.eqb_refl].
      * intros x [Hx%elem_of_list_to_set|Hx]%elem_of_union; [|by apply Hs]. apply Hns in Hx. by eapply rtc_r.
      * intros x n Hx Hxq Hn. rewrite elem_of_app in Hxq. apply elem_of_union.
        destruct (decide (x = b)) as [->|Hxb]; [left; by apply elem_of_list_to_set, Hns|]. right.
        apply (Hc x); [|set_solver|done]. apply elem_of_union in Hx as [Hx%elem_of_list_to_set|Hx]; [|done].
        destruct (H2 x Hx) as [?|?]; [tauto|done].
Qed.
Lemma forwardReachable_decides From To : ∃ r, forwardReachable F A From To = Some r ∧ (r = true ↔ rtc forward From To).
Proof.
  unfold forwardReachable. destruct (Nat.eqb_spec From To) as [<-|Hne].
  - exists true. split; [done|]. split; [|done]. intros _. apply rtc_refl.
  - apply (forward_bfs_spec From); try set_solver.
    cbn [length]. pose proof (blocks_size From). lia.
Qed.

(** ** Distances from the arms of a branch *)
(** a path of [n] edges that does not enter [BB] *)
Inductive path_avoiding (BB : nat) : nat → nat → nat → Prop :=
| path_refl b : path_avoiding BB O b b
| path_step n a b c : path_avoiding BB n a b → c ∈ successors F b → c ≠ BB → path_avoiding BB (S n) a c.
Lemma push_dist_all BB d ns q dist q' dist' : fold_left (push_dist BB d) ns (q, dist) = (q', dist') →
  (∃ new, q' = q ++ new ∧ (∀ n, n ∈ new → is_Some (dist' !! n)) ∧ (∀ n, is_Some (dist' !! n) → is_Some (dist !! n) ∨ n ∈ new)) ∧
  (∀ n, n ∈ ns → n ≠ BB → is_Some (dist' !! n)) ∧
  (∀ n e, dist' !! n = Some e → dist !! n = Some e ∨ (n ∈ ns ∧ n ≠ BB ∧ e = S d)) ∧
  (∀ n e, dist !! n = Some e → dist' !! n = Some e) ∧
  ∀ D : gset nat, (∀ n, n ∈ ns → n ∈ D) → (length q' + size (D ∖ dom dist') <= length q + size (D ∖ dom dist))%nat.
Proof.
  revert q dist. induction ns as [|n ns IH]; intros q dist; cbn [fold_left push_dist].
  - intros [= <- <-]. split_and!; [|set_solver|auto|auto|done]. exists []. rewrite app_nil_r. split_and!; [done|set_solver|auto].
  - destruct (Nat.eqb_spec n BB) as [->|Hn]; [|case_bool_decide as Hd]; intros E;
      apply IH in E as ((new & -> & H1 & H2) & Hns & Hs & Hk & Hm).
    + split_and!; [by exists new| |intros m e He; destruct (Hs m e He) as [?|(?&?&?)]; set_solver|done|intros; apply Hm; set_solver].
      intros m [->|Hin]%elem_of_cons; [done|by apply Hns].
    + split_and!; [by exists new| |intros m e He; destruct (Hs m e He) as [?|(?&?&?)]; set_solver|done|intros; apply Hm; set_solver].
      intros m [->|Hin]%elem_of_cons; [|by apply Hns]. intros _. destruct Hd as [e He]. by exists e; apply Hk.
    + assert (dist !! n = None) as Hnone by (destruct (dist !! n) eqn:En; [destruct Hd; by eexists|done]).
      assert (∀ m e, dist !! m = Some e → <[n:=S d]> dist !! m = Some e) as Hins.
      { intros m e He. rewrite lookup_insert_ne; [done|congruence]. }
      split_and!.
      * exists (n :: new). split_and!; [by rewrite <- app_assoc| |].
        -- intros m [->|Hin]%elem_of_cons; [|by apply H1]. exists (S d). apply Hk, lookup_insert_eq.
        -- intros m Hin. apply H2 in Hin as [[e He]|Hin]; [|right; by right].
           apply lookup_insert_Some in He as [[<- _]|[_ He]]; [right; by left|left; by eexists].
      * intros m [->|Hin]%elem_of_cons; [|by apply Hns]. intros _. exists (S d). apply Hk, lookup_insert_eq.
      * intros m e He. apply Hs in He as [He|(?&?&?)]; [|set_solver].
        apply lookup_insert_Some in He as [[<- <-]|[_ He]]; [right; set_solver|by left].
      * intros m e He. by apply Hk, Hins.
      * intros D HD. etransitivity; [apply Hm; set_solver|]. rewrite length_app. cbn [length]. rewrite dom_insert_L.
        assert (n ∈ D ∖ dom dist) as HnD by (apply elem_of_difference; split; [set_solver|by apply not_elem_of_dom]).
        replace (D ∖ ({[n]} ∪ dom dist)) with ((D ∖ dom dist) ∖ {[n]}) by set_solver.
        rewrite (size_difference _ {[n]}) by set_solver. rewrite size_singleton.
        assert (size (D ∖ dom dist) ≠ O) by (intros E%size_empty_inv; set_solver). lia.
Qed.
Lemma reach_bfs_spec BB S0 q dist fuel (D := blocks_of S0) :
  (length q + size (D ∖ dom dist) < fuel)%nat → (∀ b, b ∈ q → is_Some (dist !! b)) → is_Some (dist !! S0) →
  (∀ b d, dist !! b = Some d → path_avoiding BB d S0 b) →
  (∀ b n, is_Some (dist !! b) → b ∉ q → n ∈ successors F b → n ≠ BB → is_Some (dist !! n)) →
  ∃ dist', reach_bfs F fuel BB q dist = Some dist' ∧ (∀ b d, dist' !! b = Some d → path_avoiding BB d S0 b) ∧
    (∀ b d, path_avoiding BB d S0 b → is_Some (dist' !! b)).
Proof.
  revert q dist. induction fuel as [|fuel IH]; intros q dist Hf Hq HS Hs Hc; [lia|]. destruct q as [|b q].
  - exists dist. split_and!; [done|done|]. intros b d. induction 1 as [|n a b c Hp IHp Hc' Hne]; [done|].
    apply (Hc b); [by apply IHp|by intros ?%elem_of_nil|done|done].
  - cbn [reach_bfs]. destruct (Hq b) as [d Hd]; [by left|]. rewrite Hd. cbn [default].
    destruct (fold_left _ _ _) as [q' dist'] eqn:Ep.
    apply push_dist_all in Ep as ((new & -> & H1 & H2) & Hns & Hs' & Hk & Hm).
    assert (∀ n, n ∈ successors F b → n ∈ D) as HD.
    { intros n Hn%Hrange. unfold D, blocks_of. rewrite elem_of_union, elem_of_list_to_set, elem_of_seq. right; lia. }
    specialize (Hm D HD). apply IH.
    + cbn [length] in Hf. lia.
    + intros x [Hx|Hx]%elem_of_app; [|by apply H1]. destruct (Hq x) as [e He]; [by right|]. by exists e; apply Hk.
    + destruct HS as [e He]. by exists e; apply Hk.
    + intros x e He. apply Hs' in He as [He|(Hx & Hne & ->)]; [by apply Hs|]. eapply path_step; [by apply Hs|done|done].
    + intros x n Hx Hxq Hn Hne. rewrite elem_of_app in Hxq. destruct (decide (x = b)) as [->|Hxb]; [by apply Hns|].
      destruct (H2 x Hx) as [Hx'|?]; [|tauto]. destruct (Hc x n) as [e He]; [done|set_solver|done|done|]. by exists e; apply Hk.
Qed.
Lemma reach_spec BB S0 : ∃ dist, reach F BB S0 = Some dist ∧
  (∀ b d, dist !! b = Some d → path_avoiding BB d S0 b) ∧ (∀ b d, path_avoiding BB d S0 b → is_Some (dist !! b)).
Proof.
  unfold reach. apply reach_bfs_spec.
  - cbn [length]. rewrite dom_singleton_L. pose proof (blocks_size S0). lia.
  - intros b ->%list_elem_of_singleton. rewrite lookup_singleton_eq. by eexists.
  - rewrite lookup_singleton_eq. by eexists.
  - intros b d [<- <-]%lookup_singleton_Some. constructor.
  - intros b n [d [<- <-]%lookup_singleton_Some] Hb. set_solver.
Qed.
Lemma nearestJoin_some BB T E : ∃ r, nearestJoin F A BB T E = Some r.
Proof.
  unfold nearestJoin. destruct T as [T|], E as [E|]; try by eexists.
  destruct (T =? E)%nat; [by eexists|].
  destruct (reach_spec BB T) as (dT & -> & _), (reach_spec BB E) as (dE & -> & _). cbn. by eexists.
Qed.
Lemma branchMerge_some BB clamp x : ∃ r, branchMerge F A BB clamp x = Some r.
Proof.
  unfold branchMerge. destruct (ipdom A BB); [by eexists|].
  destruct (nearestJoin_some BB (successors F BB !! O) (successors F BB !! 1%nat)) as [r ->]. cbn. by eexists.
Qed.
(** the join: a block both arms reach without passing the branch, unless it is the return *)
Lemma best_join_in keys dT dE o k d : best_join F keys dT dE o = Some (k, d) → is_Some (dT !! k) ∧ is_Some (dE !! k).
Proof.
  unfold best_join. revert k d.
  assert (∀ best, (∀ k d, best = Some (k, d) → is_Some (dT !! k) ∧ is_Some (dE !! k)) → ∀ k d,
    fold_left (λ best k, match dT !! k, dE !! k with
    | Some a, Some b =>
        if negb o && bool_decide (Some k = uniqueRet F) then best
        else match best with
             | Some (_, bd) => if (a + b <? bd)%nat then Some (k, a + b)%nat else best
             | None => Some (k, a + b)%nat
             end
    | _, _ => best
    end) keys best = Some (k, d) → is_Some (dT !! k) ∧ is_Some (dE !! k)) as H; [|by apply H].
  induction keys as [|x keys IH]; intros best Hb k d; cbn [fold_left]; [apply Hb|]. apply IH.
  intros k' d'. destruct (dT !! x) eqn:ET; [|apply Hb]. destruct (dE !! x) eqn:EE; [|apply Hb].
  assert (∀ z : nat, Some (x, z) = Some (k', d') → is_Some (dT !! k') ∧ is_Some (dE !! k')) as Hx by (intros z [= <- _]; rewrite ET, EE; eauto).
  destruct (_ && _); [apply Hb|]. destruct best as [[? bd]|]; [|apply Hx]. destruct (_ <? bd)%nat; [apply Hx|apply Hb].
Qed.
Lemma nearestJoin_joins BB T E m : nearestJoin F A BB (Some T) (Some E) = Some (Some m) →
  Some m = uniqueRet F ∨ ∃ d d', path_avoiding BB d T m ∧ path_avoiding BB d' E m.
Proof.
  unfold nearestJoin. destruct (Nat.eqb_spec T E) as [<-|_].
  - intros [= <-]. right. exists O, O. split; constructor.
  - destruct (reach_spec BB T) as (dT & -> & HT & _), (reach_spec BB E) as (dE & -> & HE & _). cbn [mbind option_bind].
    destruct (best_join _ _ _ _ _) as [[k d]|] eqn:Eb; intros H; injection H as H; [|by left].
    subst k. apply best_join_in in Eb as [[a Ha] [b Hb]]. right. exists a, b. auto.
Qed.
End searches.
