(* ===== verification/MslFlowThm.v ===== *)
(** The theorems about control flow: the body of a kernel is always emitted and means what the graph means,
    phi copies are parallel, the searches decide what they ask; with a kernel on which they are run. *)
From S2P Require Import Prelude Cstd MslFlow MslFlowSem MslFlowSim MslFlowBfs.
Open Scope Z_scope.

Section flow.
Context {inst : Type} (F : Function inst) (A : Analyses).
(** a function LLVM's verifier accepts, with analyses that are its own, in the form the normalisation leaves:
    every edge has its phi operands and a target; the entry and what it leads to are reachable; joins and
    exits are blocks; and (dedicated exits, LoopSimplify) no loop leaves to the header of a loop *)
Record flow_wf : Prop := {
  wf_entry : F ≠ [];
  wf_edges : ∀ b s, s ∈ successors F b → is_Some (copies F b s);
  wf_range : ∀ b s, s ∈ successors F b → (s < length F)%nat;
  wf_reach_entry : isReachableFromEntry A O = true;
  wf_reach_edge : ∀ b s, isReachableFromEntry A b = true → s ∈ successors F b → isReachableFromEntry A s = true;
  wf_ipdom : ∀ b m, ipdom A b = Some m → (m < length F)%nat;
  wf_exit : ∀ b L x, getLoopFor A b = Some L → getExitBlock L = Some x → (x < length F)%nat;
  wf_dedicated : ∀ b b' L L', getLoopFor A b = Some L → getLoopFor A b' = Some L' → getExitBlock L ≠ Some (getHeader L') }.
(** terminators the emitter knows *)
Definition supported : Prop := ∀ b B t, F !! b = Some B → term B ≠ OtherTerm t.
Context (Hwf : flow_wf).

(** ** Emission ends *)
Definition left (e : gset nat) : nat := size (list_to_set (C := gset nat) (seq 0 (length F)) ∖ e).
Lemma left_mono e e' : e ⊆ e' → (left e' <= left e)%nat.
Proof. intros H. unfold left. apply subseteq_size. intros x. rewrite !elem_of_difference. set_solver. Qed.
Lemma left_insert b e : (b < length F)%nat → b ∉ e → (left ({[b]} ∪ e) < left e)%nat.
Proof.
  intros Hb He. unfold left. apply subset_size. split; [set_solver|].
  intros H. assert (b ∈ list_to_set (C := gset nat) (seq 0 (length F)) ∖ e) as Hin.
  { rewrite elem_of_difference, elem_of_list_to_set, elem_of_seq. split; [lia|done]. }
  apply H in Hin. set_solver.
Qed.
(** with fewer than [n] blocks left, the emission throws or gives a result and leaves fewer than [n'] *)
Definition ends {X} (n n' : nat) (m : Em X) : Prop := ∀ e, (left e < n)%nat →
  match m e with Ok (_, e') => e ⊆ e' ∧ (left e' < n')%nat | Err (Thrown _) => True | Err _ => False end.
Abbreviation good n := (ends n n).
Lemma good_ret {X} n (x : X) : good n (eret x).
Proof. done. Qed.
Lemma ends_bind {X Y} a b c (m : Em X) (f : X → Em Y) : ends a b m → (∀ x, ends b c (f x)) → ends a c (ebind m f).
Proof.
  intros Hm Hf e He. specialize (Hm e He). unfold ebind. destruct (m e) as [[x e1]|[]]; try done.
  destruct Hm as [Hs Hl]. specialize (Hf x e1 Hl). destruct (f x e1) as [[y e2]|[]]; try done.
  destruct Hf as [Hs' Hl']. split; [by etransitivity|done].
Qed.
Lemma good_bind {X Y} n (m : Em X) (f : X → Em Y) : good n m → (∀ x, good n (f x)) → good n (ebind m f).
Proof. apply ends_bind. Qed.
Lemma good_lift {X} n (o : option X) : is_Some o → good n (lift_fuel o).
Proof. by intros [x ->]. Qed.
Lemma good_copies n b s : s ∈ successors F b → good n (emitPhiCopies F b s).
Proof.
  intros H. destruct (wf_edges Hwf b s H) as [cs E]. unfold emitPhiCopies, phi_copies. rewrite E. done.
Qed.
Lemma good_past n o s : good n (match o with Some b => lift_fuel (forwardReachable F A b s) | None => eret false end).
Proof.
  destruct o as [b|]; [|done]. apply good_lift. destruct (forwardReachable_decides F A (wf_range Hwf) b s) as (r & -> & _). by eexists.
Qed.
Lemma ends_emit n b : (b < length F)%nat → ends (S n) n (emitBlockInstrs F b).
Proof.
  intros Hb e He. unfold emitBlockInstrs. case_bool_decide as Hin; [done|].
  destruct (lookup_lt_is_Some_2 F b Hb) as [B ->]. pose proof (left_insert b e Hb Hin) as Hl.
  split; [set_solver|lia].
Qed.
Definition in_range (o : option nat) : Prop := ∀ b, o = Some b → (b < length F)%nat.
Definition ctx_good (ctx : option LoopCtx) : Prop := ∀ c, ctx = Some c →
  (∃ b, getLoopFor A b = Some (ctx_L c)) ∧ in_range (ctx_exit c).
Lemma uniqueRet_range : in_range (uniqueRet F).
Proof.
  intros b. unfold uniqueRet. destruct (list_find _ _) as [[i x]|] eqn:E; [|done]. intros [= ->].
  apply list_find_Some in E as (E & _ & _). apply list_elem_of_lookup_2, elem_of_seq in E. lia.
Qed.
Lemma path_range BB n a b : path_avoiding F BB n a b → (a < length F)%nat → (b < length F)%nat.
Proof. induction 1 as [|n a b c _ IH Hc _]; [done|]. intros _. by apply (wf_range Hwf b). Qed.
Lemma branchMerge_range BB clamp x m : in_range x → branchMerge F A BB clamp x = Some m → in_range m.
Proof.
  intros Hx. unfold branchMerge.
  assert (∀ mb, match ipdom A BB with Some m => Some (Some m) | None => nearestJoin F A BB (successors F BB !! O) (successors F BB !! 1%nat) end
    = Some mb → in_range mb) as H.
  { intros mb. destruct (ipdom A BB) as [m'|] eqn:Ei; [intros [= <-] b [= <-]; by apply (wf_ipdom Hwf BB)|].
    intros Hn b ->. destruct (successors F BB !! O) as [T|] eqn:ET; [|injection Hn as Hn; by apply uniqueRet_range].
    destruct (successors F BB !! 1%nat) as [E|] eqn:EE; [|injection Hn as Hn; by apply uniqueRet_range].
    apply (nearestJoin_joins F A (wf_range Hwf)) in Hn as [Hn|(d & _ & Hp & _)]; [by apply uniqueRet_range|].
    eapply path_range; [exact Hp|]. eapply (wf_range Hwf), list_elem_of_lookup_2, ET. }
  destruct (match ipdom A BB with Some _ => _ | None => _ end) as [mb|]; [|done]. specialize (H mb eq_refl).
  cbn [mbind option_bind]. intros [= <-]. destruct clamp as [L|]; [|done]. destruct mb as [m'|]; [|done].
  by destruct (_ && _).
Qed.

Section chain.
Abbreviation Chain := (nat → option nat → option LoopCtx → Em (list (Stmt inst))).
Context (n : nat) (chain : Chain).
Context (IH : ∀ BB stopAt ctx, (BB < length F)%nat → in_range stopAt → ctx_good ctx → good n (chain BB stopAt ctx)).
Lemma good_goto From S0 stopAt ctx : S0 ∈ successors F From → in_range stopAt → ctx_good ctx →
  good n (gotoTarget F A chain From S0 stopAt ctx).
Proof.
  intros Hs Hst Hctx. unfold gotoTarget. case_bool_decide; [by apply good_copies|].
  apply good_bind; [apply good_past|]. intros [|]; [done|]. apply good_bind; [by apply good_copies|]. intros cs.
  assert (good n (chain S0 stopAt ctx)) as Hc by (apply IH; [by eapply (wf_range Hwf)|done..]).
  destruct ctx as [c|]; [|by apply good_bind].
  destruct (S0 =? _)%nat; [done|]. case_bool_decide; [done|]. destruct (negb _); [done|]. by apply good_bind.
Qed.
Lemma good_direct From To : To ∈ successors F From → good n (emitDirectEdgeElse F From To).
Proof. intros H. unfold emitDirectEdgeElse. destruct (existsb _ _); [|done]. apply good_bind; [by apply good_copies|done]. Qed.
Lemma good_arms BB c Tb Fb Mb ctx : Tb ∈ successors F BB → Fb ∈ successors F BB → in_range Mb → ctx_good ctx →
  good n (emitArms F A chain BB c Tb Fb Mb ctx).
Proof.
  intros HT HF HM Hctx. unfold emitArms.
  case_bool_decide; [|case_bool_decide]; (apply good_bind; [by apply good_goto|]; intros a; apply good_bind; [|done]);
    [by apply good_direct|by apply good_direct|by apply good_goto].
Qed.
Lemma ends_block {X} b B a c (f : BasicBlock inst → Em X) : F !! b = Some B → ends a c (f B) → ends a c (ebind (block F b) f).
Proof. intros HB Hf. unfold block, ebind. rewrite HB. exact Hf. Qed.
Lemma good_merge_bind {X} BB clamp x (f : option nat → Em X) : in_range x → (∀ m, in_range m → good n (f m)) →
  good n (ebind (lift_fuel (branchMerge F A BB clamp x)) f).
Proof.
  intros Hx Hf. destruct (branchMerge_some F A (wf_range Hwf) BB clamp x) as [r Er].
  pose proof (branchMerge_range _ _ _ _ Hx Er) as Hr. rewrite Er. unfold ebind, lift_fuel. intros e He. by apply Hf.
Qed.
Lemma good_loop_body BB L : (BB < length F)%nat → (∃ b, getLoopFor A b = Some L) → ends (S n) n (emitLoopBody F A chain BB L (getExitBlock L)).
Proof.
  intros HBB HL. unfold emitLoopBody. set (inner := Some (mkCtx L (getExitBlock L))).
  assert (in_range (getExitBlock L)) as Hx by (destruct HL as [b Hb]; intros x; by eapply (wf_exit Hwf)).
  assert (ctx_good inner) as Hctx by (intros c [= <-]; done).
  apply (ends_bind _ n); [by apply ends_emit|]. intros ins. destruct (lookup_lt_is_Some_2 F BB HBB) as [B HB].
  apply (ends_block BB B); [done|].
  assert (∀ s, s ∈ successors_of (term B) → s ∈ successors F BB) as Hsucc by (intros s Hs; unfold successors; by rewrite HB).
  apply good_bind; [|done]. destruct (term B) as [s|c Tb Fb| | |]; try done.
  - apply good_goto; [apply Hsucc; by left|done|done].
  - apply good_merge_bind; [done|]. intros m Hm.
    apply good_bind; [apply good_arms; [apply Hsucc; by left|apply Hsucc; by right; left|done|done]|]. intros a.
    destruct m as [m|]; [|done]. destruct (negb _); [|done]. destruct (m =? BB)%nat; [done|].
    apply good_bind; [|done]. apply IH; [by apply Hm|done|done].
Qed.
Lemma good_straight BB stopAt ctx : (BB < length F)%nat → in_range stopAt → ctx_good ctx →
  ends (S n) n (emitStraight F A chain BB stopAt ctx).
Proof.
  intros HBB Hst Hctx. unfold emitStraight. apply (ends_bind _ n); [by apply ends_emit|]. intros ins.
  destruct (lookup_lt_is_Some_2 F BB HBB) as [B HB]. apply (ends_block BB B); [done|].
  assert (∀ s, s ∈ successors_of (term B) → s ∈ successors F BB) as Hsucc by (intros s Hs; unfold successors; by rewrite HB).
  apply good_bind; [|done]. destruct (term B) as [s|c Tb Fb| | |]; try done.
  - apply good_goto; [apply Hsucc; by left|done|done].
  - apply good_merge_bind; [destruct ctx as [cx|]; [by apply (Hctx cx)|done]|]. intros [m0|] Hm0; [|done].
    assert (∀ P : bool, ∀ m s, (m < length F)%nat → stopAt = Some s → ((if P then s else m) < length F)%nat) as Hsel.
    { intros [|] m s Hm Es; [by apply Hst|done]. }
    match goal with |- context [emitArms _ _ _ _ _ _ _ (Some ?m) _] => assert (m < length F)%nat as Hm end.
    { specialize (Hm0 m0 eq_refl). destruct stopAt as [s|]; [|done]. apply Hsel; [|done]. by apply Hsel. }
    revert Hm. match goal with |- context [emitArms _ _ _ _ _ _ _ (Some ?m) _] => generalize m end. intros m Hm.
    apply good_bind; [apply good_arms; [apply Hsucc; by left|apply Hsucc; by right; left|by intros ? [= <-]|done]|]. intros a.
    case_bool_decide; [done|]. assert (good n (chain m stopAt ctx)) as Hc by by apply IH.
    destruct ctx as [cx|]; [|by apply good_bind]. destruct (m =? _)%nat; [done|]. case_bool_decide; [done|]. by apply good_bind.
Qed.
Lemma good_loop BB L stopAt ctx : (BB < length F)%nat → getLoopFor A BB = Some L → in_range stopAt → ctx_good ctx →
  ends (S n) n (emitLoop F A chain BB L stopAt ctx).
Proof.
  intros HBB HL Hst Hctx. unfold emitLoop. pose proof (wf_exit Hwf BB L) as Hx.
  assert (ends (S n) n (emitLoopBody F A chain BB L (getExitBlock L))) as Hb by (apply good_loop_body; [done|by eexists]).
  destruct (getExitBlock L) as [x|] eqn:Ex.
  - apply (ends_bind _ n); [done|]. intros body. case_bool_decide; [done|].
    assert (good n (chain x stopAt ctx)) as Hc by (apply IH; [by apply Hx|done..]).
    destruct ctx as [c|]; [|by apply good_bind]. destruct (Nat.eqb_spec x (getHeader (ctx_L c))) as [->|_].
    { destruct (Hctx c eq_refl) as [[b Hb'] _]. by edestruct (wf_dedicated Hwf _ _ _ _ HL Hb'). }
    case_bool_decide; [done|]. by apply good_bind.
  - destruct (getExitBlocks L); [|done]. by apply (ends_bind _ n).
Qed.
End chain.
Lemma ends_chain n BB stopAt ctx : (BB < length F)%nat → in_range stopAt → ctx_good ctx →
  good n (emitChain F A n BB stopAt ctx).
Proof.
  revert BB stopAt ctx. induction n as [|n IH]; intros BB stopAt ctx HBB Hst Hctx; [intros e He; lia|].
  cbn [emitChain]. apply good_bind.
  - destruct stopAt as [s|]; [|done]. destruct (BB =? s)%nat; [done|]. apply (good_past _ (Some s)).
  - intros [|]; [done|]. assert (∀ m : Em (list (Stmt inst)), ends (S n) n m → good (S n) m) as Hw.
    { intros m Hm e He. specialize (Hm e He). destruct (m e) as [[x e']|[]]; try done. destruct Hm. split; [done|lia]. }
    apply Hw. destruct (opens A BB ctx) as [L|] eqn:Eo; [|by apply good_straight].
    apply good_loop; try done. unfold opens in Eo. destruct (getLoopFor A BB); [|done]. destruct (_ && _); [|done]. congruence.
Qed.
Lemma structured_ends : match emitBodyStructured F A with Err NoFuel | Err Undefined => False | _ => True end.
Proof.
  unfold emitBodyStructured. assert (O < length F)%nat as H0 by (pose proof (wf_entry Hwf); destruct F; [done|cbn; lia]).
  assert (left ∅ < S (S (length F)))%nat as Hl.
  { unfold left. rewrite difference_empty_L, size_list_to_set by apply NoDup_seq. rewrite length_seq. lia. }
  pose proof (ends_chain (S (S (length F))) O None None H0 ltac:(done) ltac:(done) ∅ Hl) as H.
  destruct (emitChain _ _ _ _ _ _ _) as [[ss e]|[]]; try done. by destruct (list_find _ _) as [[? ?]|].
Qed.

(** ** The state machine *)
Section machine.
Context {M : Type} (run_inst : inst → St M → St M * bool).
Lemma case_emitted b B : supported → F !! b = Some B → ∃ r, emitCase F b B = Ok (b, r).
Proof.
  intros Hs HB. assert (∀ s, s ∈ successors_of (term B) → ∃ l, phi_copies F b s = Some l) as He.
  { intros s Hs'. destruct (wf_edges Hwf b s) as [cs E]; [unfold successors; by rewrite HB|]. unfold phi_copies. rewrite E. by eexists. }
  unfold emitCase. destruct (term B) as [s|c t f| | |t] eqn:Et; cbn in He; try by eexists.
  - destruct (He s) as [l ->]; [by left|]. by eexists.
  - destruct (He t) as [l ->]; [by left|]. destruct (He f) as [l' ->]; [by right; left|]. by eexists.
  - by destruct (Hs b B t HB).
Qed.
Lemma cases_emitted (pre Bs : Function inst) : supported → F = pre ++ Bs → ∃ cs, emitCases F A (length pre) Bs = Ok cs.
Proof.
  intros Hs. revert pre. induction Bs as [|B Bs IH]; intros pre E; [by eexists|]. cbn [emitCases].
  destruct (IH (pre ++ [B])) as [cs Ecs]; [by rewrite <- app_assoc|]. rewrite length_app, Nat.add_1_r in Ecs. rewrite Ecs.
  destruct (isReachableFromEntry A (length pre)); [|by eexists].
  destruct (case_emitted (length pre) B Hs) as [r ->]; [by rewrite E, list_lookup_middle|]. by eexists.
Qed.
Lemma cases_find (pre Bs : Function inst) cs b B : emitCases F A (length pre) Bs = Ok cs → Bs !! (b - length pre)%nat = Some B → (length pre <= b)%nat →
  isReachableFromEntry A b = true → ∃ r post, emitCase F b B = Ok (b, r) ∧ case_body cs b = r ++ post.
Proof.
  revert pre cs. induction Bs as [|B' Bs IH]; intros pre cs; [done|]. cbn [emitCases]. intros E HB Hle Hr.
  destruct (decide (b = length pre)) as [->|Hne].
  - rewrite Nat.sub_diag in HB. injection HB as ->. rewrite Hr in E. destruct (emitCase F (length pre) B) as [[k r]|] eqn:Ec; [|done].
    assert (k = length pre) as ->.
    { unfold emitCase in Ec. destruct (match term B with Br _ => _ | _ => _ end); [|done]. by injection Ec. }
    cbn [rbind] in E. destruct (emitCases F A _ Bs) as [cs'|]; [|done]. injection E as <-.
    eexists r, _. split; [done|]. cbn [case_body]. rewrite Nat.eqb_refl. cbn [fmap list_fmap concat snd]. by rewrite <- app_assoc.
  - replace (b - length pre)%nat with (S (b - S (length pre)))%nat in HB by lia. cbn in HB.
    assert (∃ cs', emitCases F A (S (length pre)) Bs = Ok cs' ∧ case_body cs b = case_body cs' b) as (cs' & E' & ->).
    { destruct (isReachableFromEntry A (length pre)) eqn:Er; [|by exists cs].
      destruct (emitCase F (length pre) B') as [[k r]|] eqn:Ec; [|done]. cbn [rbind] in E.
      assert (k = length pre) as ->.
      { unfold emitCase in Ec. destruct (match term B' with Br _ => _ | _ => _ end); [|done]. by injection Ec. }
      destruct (emitCases F A (S (length pre)) Bs) as [cs'|]; [|done]. injection E as <-. exists cs'. split; [done|].
      cbn [case_body]. destruct (Nat.eqb_spec (length pre) b); [by subst|done]. }
    assert (length (pre ++ [B']) = S (length pre)) as El by (rewrite length_app; cbn; lia).
    apply (IH (pre ++ [B'])); rewrite ?El; [done|done|lia|done].
Qed.
Abbreviation exec := (exec run_inst).
Abbreviation cfg_step := (cfg_step run_inst F).
Abbreviation steps := (steps run_inst F).
Lemma case_run b B r post (m : MS M) : F !! b = Some B → emitCase F b B = Ok (b, r) → ∃ n o m',
  exec n (r ++ post) m = Some (o, m') ∧
  ((o = OReturn ∧ cfg_step (At b (ms_st m)) = Some (Done (ms_st m'))) ∨
   (o = OBreak ∧ ms_bb m' ∈ successors F b ∧ cfg_step (At b (ms_st m)) = Some (At (ms_bb m') (ms_st m')))).
Proof.
  intros HB Hc. unfold emitCase in Hc.
  assert (cfg_step (At b (ms_st m)) = let '(s, ended) := run_insts run_inst (insts B) (ms_st m) in
            if ended : bool then Some (Done s) else leave F b (term B) s) as Estep by (cbn; by rewrite HB).
  assert (∀ s, s ∈ successors_of (term B) → s ∈ successors F b) as Hsucc by (intros s Hs; unfold successors; by rewrite HB).
  destruct (match term B with Br _ => _ | _ => _ end) as [tl|] eqn:Et; [|done]. injection Hc as <-.
  pose proof (exec_insts run_inst (insts B) m) as Ei. rewrite Estep. rewrite <- app_assoc.
  destruct (run_insts run_inst (insts B) (ms_st m)) as [s [|]].
  { exists (length (insts B) + 0)%nat, OReturn. eexists. split; [apply app_exec; rewrite Ei; reflexivity|by left]. }
  set (m1 := upd_st m s) in *.
  assert (∃ n o m', exec n (tl ++ post) m1 = Some (o, m') ∧
    ((o = OReturn ∧ leave F b (term B) s = Some (Done (ms_st m'))) ∨
     (o = OBreak ∧ ms_bb m' ∈ successors F b ∧ leave F b (term B) s = Some (At (ms_bb m') (ms_st m'))))) as (n & o & m' & E & Hr).
  { destruct (term B) as [x|c x y| | |] eqn:ET; cbn [leave successors_of] in *.
    - destruct (phi_copies F b x) as [l|] eqn:El; [|done]. injection Et as <-.
      destruct (phi_copies_run run_inst F b x l m1 El) as (n & t & s' & E & Ee).
      exists (n + 1)%nat, OBreak. eexists. split; [rewrite <- app_assoc; apply app_exec; rewrite E; reflexivity|].
      right. split; [done|]. split; [apply Hsucc; by left|done].
    - destruct (phi_copies F b x) as [l|] eqn:El; [|done]. cbn [rbind] in Et.
      destruct (phi_copies F b y) as [l'|] eqn:El'; [|done]. injection Et as <-.
      assert (∀ z k, phi_copies F b z = Some k → ∃ n t s', exec n (k ++ [SState z false]) m1 = Some (ONormal, mkMS s' t z) ∧ edge F b z s = Some (At z s')) as Harm.
      { intros z k Ek. destruct (phi_copies_run run_inst F b z k m1 Ek) as (n & t & s' & E & Ee).
        exists (n + 1)%nat, t, s'. split; [apply app_exec; rewrite E; reflexivity|done]. }
      destruct (truth (eval s c)) eqn:Ec.
      + destruct (Harm x l El) as (n & t & s' & E & Ee). exists (S (S n)), OBreak, (mkMS s' t x).
        split; [|right; split; [done|split; [apply Hsucc; by left|done]]].
        cbn [app]. rewrite exec_SIf. cbn [m1 ms_st upd_st]. rewrite Ec. cbn [xorb].
        by rewrite (exec_mono run_inst n (S n) _ _ _ ltac:(lia) E).
      + destruct (Harm y l' El') as (n & t & s' & E & Ee). exists (S (S n)), OBreak, (mkMS s' t y).
        split; [|right; split; [done|split; [apply Hsucc; by right; left|done]]].
        cbn [app]. rewrite exec_SIf. cbn [m1 ms_st upd_st]. rewrite Ec. cbn [xorb from_option id].
        by rewrite (exec_mono run_inst n (S n) _ _ _ ltac:(lia) E).
    - injection Et as <-. exists 1%nat, OReturn, m1. split; [done|by left].
    - injection Et as <-. exists 1%nat, OReturn, m1. split; [done|by left].
    - done. }
  exists (length (insts B) + n)%nat, o, m'. split; [apply app_exec; rewrite Ei; exact E|done].
Qed.
Lemma machine_returns body (s s' : St M) : emitBodyStateMachine F A = Ok body →
  body_returns run_inst body s s' ↔ cfg_returns run_inst F s s'.
Proof.
  unfold emitBodyStateMachine. pose proof (wf_entry Hwf) as H0. destruct F as [|B0 Bs] eqn:EF; [done|]. rewrite <- EF in *. clear H0.
  destruct (emitCases F A 0 F) as [cases|] eqn:Ec; [|done]. cbn [rbind]. intros [= <-].
  assert (∀ b, (b < length F)%nat → isReachableFromEntry A b = true → ∀ m : MS M, ms_bb m = b → ∃ n o m',
    exec n [SSwitch cases] m = Some (o, m') ∧
    ((o = OReturn ∧ cfg_step (At b (ms_st m)) = Some (Done (ms_st m'))) ∨
     (o = ONormal ∧ (ms_bb m' < length F)%nat ∧ isReachableFromEntry A (ms_bb m') = true ∧
      cfg_step (At b (ms_st m)) = Some (At (ms_bb m') (ms_st m'))))) as Hround.
  { intros b Hb Hr m <-. destruct (lookup_lt_is_Some_2 F _ Hb) as [B HB].
    destruct (cases_find [] F cases (ms_bb m) B Ec) as (r & post & Er & Ecb); [by rewrite Nat.sub_0_r|cbn; lia|done|].
    destruct (case_run _ B r post m HB Er) as (n & o & m' & E & Hcase).
    exists (S n). cbn [MslFlowSem.exec]. rewrite Ecb, E.
    destruct Hcase as [[-> Hd]|(-> & Hin & Hs)]; eexists _, m'; (split; [destruct n; reflexivity|]); [by left|right].
    split_and!; [done|by eapply (wf_range Hwf)|by eapply (wf_reach_edge Hwf)|done]. }
  assert (O < length F)%nat as H0 by (rewrite EF; cbn; lia). pose proof (wf_reach_entry Hwf) as Hr0.
  assert (∀ n b m o m', (b < length F)%nat → isReachableFromEntry A b = true → ms_bb m = b →
    exec n [SFor [SSwitch cases]] m = Some (o, m') → o = OReturn ∧ ∃ j, steps j (At b (ms_st m)) = Some (Done (ms_st m'))) as Hf.
  { induction n as [|n IH]; intros b m o m' Hb Hr Hm E; [done|]. cbn [MslFlowSem.exec] in E.
    destruct (exec n [SSwitch cases] m) as [[o1 m1]|] eqn:E1; [|done].
    destruct (Hround b Hb Hr m Hm) as (n' & o2 & m2 & E2 & Hcase).
    pose proof (exec_det run_inst _ _ _ _ _ _ E1 E2) as [= -> ->].
    destruct Hcase as [[-> Hd]|(-> & Hb' & Hr' & Hs)].
    - injection E as <- <-. split; [done|]. exists 1%nat. cbn [MslFlowSem.steps]. by rewrite Hd.
    - destruct (IH _ _ _ _ Hb' Hr' eq_refl E) as (-> & j & Hj). split; [done|]. exists (S j). cbn [MslFlowSem.steps]. by rewrite Hs. }
  assert (∀ k b m, (b < length F)%nat → isReachableFromEntry A b = true → ms_bb m = b →
    steps k (At b (ms_st m)) = Some (Done s') → ∃ n m', exec n [SFor [SSwitch cases]] m = Some (OReturn, m') ∧ ms_st m' = s') as Hb.
  { induction k as [|k IH]; intros b m Hb Hr Hm E; [done|]. cbn [MslFlowSem.steps] in E.
    destruct (Hround b Hb Hr m Hm) as (n & o & m1 & E1 & Hcase). destruct Hcase as [[-> Hd]|(-> & Hb' & Hr' & Hs)].
    - rewrite Hd in E. apply steps_done in E as [_ [= ->]]. exists (S n), m1. split; [|done]. cbn [MslFlowSem.exec]. by rewrite E1.
    - rewrite Hs in E. destruct (IH _ m1 Hb' Hr' eq_refl E) as (n' & m' & E' & Hm').
      exists (S (n + n')), m'. split; [|done]. cbn [MslFlowSem.exec].
      rewrite (exec_mono run_inst n (n + n') _ _ _ ltac:(lia) E1). by apply (exec_mono run_inst n'); [lia|]. }
  split.
  - intros (n & m & E & <-). destruct n as [|n]; [done|]. cbn [MslFlowSem.exec] in E.
    destruct (Hf n O (mkMS s ∅ O) _ _ H0 Hr0 eq_refl E) as (_ & j & Hj). by exists j.
  - intros [k Hk]. destruct (Hb k O (start s) H0 Hr0 eq_refl Hk) as (n & m' & E & Hm'). by exists (S n), m'.
Qed.
End machine.
End flow.

(** ** The theorems *)
Section theorems.
Context {inst : Type} (F : Function inst) (A : Analyses).

(** [C6] The body of a kernel is always emitted: for a well-formed function whose terminators are supported, the
    search for joins, the structured emission and the state machine come to an end within the fuel they are
    given, nothing undefined is asked, and when the structured emission throws, the state machine is emitted. *)
Theorem emission_ends (structured : bool) (Hwf : flow_wf F A) (Hs : supported F) :
  ∃ body, emitBody F A structured = Ok body ∧
    ((structured = true ∧ emitBodyStructured F A = Ok body) ∨ emitBodyStateMachine F A = Ok body).
Proof.
  assert (∃ body, emitBodyStateMachine F A = Ok body) as [m Hm].
  { unfold emitBodyStateMachine. destruct (cases_emitted F A Hwf [] F Hs eq_refl) as [cs Ecs]. cbn [length] in Ecs. rewrite Ecs.
    pose proof (wf_entry F A Hwf). destruct F; [done|]. by eexists. }
  pose proof (structured_ends F A Hwf) as He. unfold emitBody. destruct structured; [|exists m; auto].
  destruct (emitBodyStructured F A) as [body|[]] eqn:E; try done; [exists body; auto|exists m; auto].
Qed.

(** [C4] The structured body means what the control-flow graph means: whenever it is emitted with no jump left
    out, it returns with a state exactly when the graph does, from every state and whatever the instructions
    do; no matter which post-dominators and joins the analyses name. *)
Theorem structured_preserves {M} (run_inst : inst → St M → St M * bool) body (Hwf : flow_wf F A)
    (Hb : emitBodyStructured F A = Ok body) (Hc : complete body) s s' :
  body_returns run_inst body s s' ↔ cfg_returns run_inst F s s'.
Proof. apply code_returns. exact (structured_code run_inst F A (wf_edges _ _ Hwf) (wf_dedicated _ _ Hwf) body Hb Hc). Qed.

(** [C5] The state machine means what the graph means, for every function. *)
Theorem state_machine_preserves {M} (run_inst : inst → St M → St M * bool) body (Hwf : flow_wf F A)
    (Hb : emitBodyStateMachine F A = Ok body) s s' :
  body_returns run_inst body s s' ↔ cfg_returns run_inst F s s'.
Proof. by apply (machine_returns F A Hwf). Qed.

(** The copies emitted for an edge assign all phis at once, also when a phi reads another phi of the block:
    the copies run through and leave the state the edge leads to, whatever the temporaries held. *)
Theorem phi_copies_parallel {M} (run_inst : inst → St M → St M * bool) From To l (m : MS M)
    (Hl : phi_copies F From To = Some l) :
  ∃ n m', exec run_inst n l m = Some (ONormal, m') ∧ ms_bb m' = ms_bb m ∧ edge F From To (ms_st m) = Some (At To (ms_st m')).
Proof. destruct (phi_copies_run run_inst F From To l m Hl) as (n & t & s & E & Ee). exists n, (mkMS s t (ms_bb m)). done. Qed.

(** The searches decide what they ask: [forwardReachable] whether there is a path that takes no back edge, and
    [nearestJoin] names a block both arms reach without passing the branch, or the return. *)
Theorem searches_decide (Hwf : flow_wf F A) From To BB T E :
  (∃ r, forwardReachable F A From To = Some r ∧ (r = true ↔ rtc (forward F A) From To)) ∧
  (∃ o, nearestJoin F A BB (Some T) (Some E) = Some o ∧
     ∀ m, o = Some m → Some m = uniqueRet F ∨ ∃ d d', path_avoiding F BB d T m ∧ path_avoiding F BB d' E m).
Proof.
  split; [apply forwardReachable_decides, (wf_range _ _ Hwf)|].
  destruct (nearestJoin_some F A (wf_range _ _ Hwf) BB (Some T) (Some E)) as [o Eo]. exists o. split; [done|].
  intros m ->. by apply (nearestJoin_joins F A (wf_range _ _ Hwf)) in Eo.
Qed.
End theorems.

(** ** On concrete kernels *)
Inductive Ins := IAdd (d : nat) (a b : Value) | ILt (d : nat) (a b : Value) | ITrap.
Definition run_ins (i : Ins) (s : St unit) : St unit * bool :=
  match i with
  | IAdd d a b => (set_reg d (eval s a + eval s b) s, false)
  | ILt d a b => (set_reg d (if eval s a <? eval s b then 1 else 0) s, false)
  | ITrap => (s, true)
  end.
(** analyses given by tables; every block is reachable *)
Definition tables (ip : list (option nat)) (pd dm : list (list nat)) (loops : list (option Loop)) : Analyses :=
  mkAnalyses (λ b, mjoin (ip !! b)) (λ a b, existsb (Nat.eqb a) (default [] (pd !! b)))
    (λ a b, existsb (Nat.eqb a) (default [] (dm !! b))) (λ _, true) (λ b, mjoin (loops !! b)) id.
Definition flow_check {inst} (F : Function inst) (ip : list (option nat)) (loops : list (option Loop)) : bool :=
  negb (match F with [] => true | _ => false end) &&
  forallb (λ b, forallb (λ s, (s <? length F)%nat && bool_decide (is_Some (copies F b s))) (successors F b)) (seq 0 (length F)) &&
  forallb (λ o : option nat, match o with Some m => (m <? length F)%nat | None => true end) ip &&
  forallb (λ o : option Loop, match o with
    | Some L => match getExitBlock L with
                | Some x => (x <? length F)%nat && forallb (λ o' : option Loop, match o' with Some L' => negb (x =? getHeader L')%nat | None => true end) loops
                | None => true end
    | None => true end) loops.
Lemma flow_check_wf {inst} (F : Function inst) ip pd dm loops : flow_check F ip loops = true → flow_wf F (tables ip pd dm loops).
Proof.
  unfold flow_check. rewrite !andb_true_iff, !forallb_forall. intros [[[Hn He] Hi] Hl].
  assert (∀ b s, s ∈ successors F b → (s < length F)%nat ∧ is_Some (copies F b s)) as Hes.
  { intros b s Hs. assert (b < length F)%nat as Hb.
    { unfold successors in Hs. destruct (F !! b) eqn:E; [by eapply lookup_lt_Some|by apply elem_of_nil in Hs]. }
    specialize (He b). rewrite forallb_forall in He. specialize (He ltac:(apply list_elem_of_In, elem_of_seq; lia) s ltac:(by apply list_elem_of_In)).
    apply andb_true_iff in He as [H1%Nat.ltb_lt H2%bool_decide_eq_true]. done. }
  assert (∀ b L, mjoin (loops !! b) = Some L → In (Some L) loops) as HL.
  { intros b L. destruct (loops !! b) as [[L'|]|] eqn:E; try done. intros [= ->]. by eapply list_elem_of_In, list_elem_of_lookup_2. }
  split; try done.
  - by destruct F.
  - intros b s Hs. by apply Hes.
  - intros b s Hs. by apply (Hes b).
  - intros b m. cbn. destruct (ip !! b) as [[m'|]|] eqn:E; try done. intros [= ->].
    specialize (Hi (Some m) ltac:(by eapply list_elem_of_In, list_elem_of_lookup_2)). by apply Nat.ltb_lt.
  - intros b L x Hb Hx. specialize (Hl _ (HL b L Hb)). cbn in Hl. rewrite Hx in Hl. apply andb_true_iff in Hl as [Hl _]. by apply Nat.ltb_lt.
  - intros b b' L L' Hb Hb' Hx. specialize (Hl _ (HL b L Hb)). cbn in Hl. rewrite Hx in Hl. apply andb_true_iff in Hl as [_ Hl].
    rewrite forallb_forall in Hl. specialize (Hl _ (HL b' L' Hb')). cbn in Hl. by rewrite Nat.eqb_refl in Hl.
Qed.

(** a loop that swaps two values while it counts to 3 *)
Definition swap_loop : Function Ins :=
  [ mkBB [] [] (Br 1);
    mkBB [mkPhi 1 [(0%nat, VConst 7); (2%nat, VReg 2)]; mkPhi 2 [(0%nat, VConst 9); (2%nat, VReg 1)]; mkPhi 3 [(0%nat, VConst 0); (2%nat, VReg 5)]]
         [ILt 4 (VReg 3) (VConst 3)] (CondBr (VReg 4) 2 3);
    mkBB [] [IAdd 5 (VReg 3) (VConst 1)] (Br 1);
    mkBB [] [] Ret ].
Definition swap_L : Loop := mkLoop 0 1 (λ b, (b =? 1)%nat || (b =? 2)%nat) (Some 3%nat) [3%nat].
Definition swap_ip : list (option nat) := [Some 1; Some 3; Some 1; None]%nat.
Definition swap_loops : list (option Loop) := [None; Some swap_L; Some swap_L; None].
Definition swap_A : Analyses := tables swap_ip [[0; 1; 3]; [1; 3]; [2; 1; 3]; [3]]%nat [[0]; [0; 1]; [0; 1; 2]; [0; 1; 3]]%nat swap_loops.
Definition swap_body : list (Stmt Ins) := match emitBodyStructured swap_loop swap_A with Ok b => b | Err _ => [] end.
Definition swap_machine : list (Stmt Ins) := match emitBodyStateMachine swap_loop swap_A with Ok b => b | Err _ => [] end.
Definition st0 : St unit := mkSt ∅ tt.
(** the state the graph returns with *)
Definition result_of (F : Function Ins) (n : nat) (s : St unit) : St unit :=
  match steps run_ins F n (At O s) with Some (Done s) => s | _ => s end.
Definition swap_end : St unit := result_of swap_loop 9 st0.
Lemma swap_wf : flow_wf swap_loop swap_A.
Proof. apply flow_check_wf. vm_compute. reflexivity. Qed.
Lemma swap_supported : supported swap_loop.
Proof. intros b B t. do 4 (destruct b as [|b]; [by intros [= <-]|]). done. Qed.

Lemma emission_ends_witness : ∃ body, emitBody swap_loop swap_A true = Ok body ∧
  ((true = true ∧ emitBodyStructured swap_loop swap_A = Ok body) ∨ emitBodyStateMachine swap_loop swap_A = Ok body).
Proof. exact (emission_ends swap_loop swap_A true swap_wf swap_supported). Defined.
(** after three swaps the first value is 9 *)
Lemma structured_preserves_witness :
  emitBodyStructured swap_loop swap_A = Ok swap_body ∧ complete swap_body ∧ eval swap_end (VReg 1) = 9 ∧
  body_returns run_ins swap_body st0 swap_end.
Proof.
  assert (emitBodyStructured swap_loop swap_A = Ok swap_body) as Hb by (vm_compute; reflexivity).
  assert (complete swap_body) as Hc by (vm_compute; reflexivity).
  split; [exact Hb|]. split; [exact Hc|]. split; [vm_compute; reflexivity|].
  apply (structured_preserves swap_loop swap_A run_ins swap_body swap_wf Hb Hc st0 swap_end).
  exists 9%nat. vm_compute. reflexivity.
Defined.
Lemma state_machine_preserves_witness :
  emitBodyStateMachine swap_loop swap_A = Ok swap_machine ∧ eval swap_end (VReg 1) = 9 ∧
  body_returns run_ins swap_machine st0 swap_end.
Proof.
  assert (emitBodyStateMachine swap_loop swap_A = Ok swap_machine) as Hb by (vm_compute; reflexivity).
  split; [exact Hb|]. split; [vm_compute; reflexivity|].
  apply (state_machine_preserves swap_loop swap_A run_ins swap_machine swap_wf Hb st0 swap_end).
  exists 9%nat. vm_compute. reflexivity.
Defined.
(** on the back edge the phis 1 and 2 are exchanged *)
Lemma phi_copies_parallel_witness :
  let m : MS unit := start (mkSt {[1%nat := 7; 2%nat := 9]} tt) in
  let l : list (Stmt Ins) := default [] (phi_copies swap_loop 2 1) in
  length l = 1%nat ∧ ∃ n m', exec run_ins n l m = Some (ONormal, m') ∧ ms_bb m' = ms_bb m ∧
    edge swap_loop 2 1 (ms_st m) = Some (At 1%nat (ms_st m')).
Proof.
  cbn zeta. split; [vm_compute; reflexivity|].
  apply (phi_copies_parallel swap_loop run_ins 2 1). vm_compute. reflexivity.
Defined.
Lemma searches_decide_witness : forwardReachable swap_loop swap_A 2 1 = Some false ∧
  nearestJoin swap_loop swap_A 1 (Some 2%nat) (Some 3%nat) = Some (Some 3%nat) ∧
  ∃ r, forwardReachable swap_loop swap_A 2 1 = Some r ∧ (r = true ↔ rtc (forward swap_loop swap_A) 2%nat 1%nat).
Proof.
  split; [vm_compute; reflexivity|]. split; [vm_compute; reflexivity|].
  exact (proj1 (searches_decide swap_loop swap_A swap_wf 2 1 1 2 3)).
Defined.

(** a loop whose body continues early: 1 goes to 2 or straight to the latch 3, and 2 to the latch or out *)
Definition early_continue : Function Ins :=
  [ mkBB [] [] (Br 1);
    mkBB [] [] (CondBr (VReg 1) 2 3);
    mkBB [] [IAdd 2 (VReg 2) (VConst 1)] (CondBr (VConst 0) 3 4);
    mkBB [] [IAdd 1 (VReg 1) (VConst 1)] (Br 1);
    mkBB [] [] Ret ].
Definition early_L : Loop := mkLoop 0 1 (λ b, (1 <=? b)%nat && (b <=? 3)%nat) (Some 4%nat) [4%nat].
Definition early_ip : list (option nat) := [Some 1; Some 2; Some 4; Some 1; None]%nat.
Definition early_loops : list (option Loop) := [None; Some early_L; Some early_L; Some early_L; None].
Definition early_A : Analyses :=
  tables early_ip [[0; 1; 2; 4]; [1; 2; 4]; [2; 4]; [3; 1; 2; 4]; [4]]%nat [[0]; [0; 1]; [0; 1; 2]; [0; 1; 3]; [0; 1; 2; 4]]%nat early_loops.
Definition early_body : list (Stmt Ins) := match emitBodyStructured early_continue early_A with Ok b => b | Err _ => [] end.
(** The check of the structured emission - every reachable block was emitted, and once - does not catch a jump
    that was left out: for a loop with an early [continue] in simplified form it accepts a body that runs the
    block after the [continue], and returns with another state than the graph. *)
Theorem dropped_jump_accepted : flow_wf early_continue early_A ∧
  emitBodyStructured early_continue early_A = Ok early_body ∧
  ∃ s1 s2, cfg_returns run_ins early_continue st0 s1 ∧ body_returns run_ins early_body st0 s2 ∧
    eval s1 (VReg 1) = 1 ∧ eval s2 (VReg 1) = 0.
Proof.
  split; [apply flow_check_wf; vm_compute; reflexivity|]. split; [vm_compute; reflexivity|].
  exists (mkSt {[1%nat := 1; 2%nat := 1]} tt), (mkSt {[2%nat := 1]} tt). split_and!.
  - exists 6%nat. vm_compute. reflexivity.
  - exists 20%nat. eexists. split; vm_compute; reflexivity.
  - vm_compute. reflexivity.
  - vm_compute. reflexivity.
Qed.
