(* ===== verification/MslExpr.v ===== *)
(** Expressions the Metal emitter writes for scalar instructions (cpp/mvcc-llvm/msl_emitter.cpp, [emitInst],
    [fcmpExpr], [constant], [ty], [sty]): the text as an expression tree, what C++ (which Metal follows) says
    the tree evaluates to - integer promotion, conversions, undefined overflow - and the theorems that this is
    the value LLVM gives the instruction. *)
From S2P Require Import Prelude Cstd Expr Arena LlvmInt ArenaSem.
Open Scope Z_scope.

(** ** Types and operands *)
(** the scalar types of an operand, and what Metal spells them with *)
Inductive STy := TyInt (w : Z) | TyFloat | TyDouble.
#[global] Instance STy_eq_dec : EqDecision STy.
Proof. solve_decision. Defined.
Inductive MTy := MBool | MInt (signed : bool) (w : Z) | MFloat | MDouble.
#[global] Instance MTy_eq_dec : EqDecision MTy.
Proof. solve_decision. Defined.
Definition widths : list Z := [1; 8; 16; 32; 64].
Definition ty (t : STy) : option MTy :=
  match t with
  | TyInt w => if w =? 1 then Some MBool else if bool_decide (w ∈ [8; 16; 32; 64]) then Some (MInt false w) else None
  | TyFloat => Some MFloat
  | TyDouble => Some MDouble
  end.
Definition sty (t : STy) : option MTy :=
  match t with
  | TyInt w => if w =? 1 then Some MBool else if bool_decide (w ∈ [8; 16; 32; 64]) then Some (MInt true w) else ty t
  | _ => ty t
  end.
Definition ty_text (t : MTy) : string :=
  match t with
  | MBool => "bool"
  | MInt false w => if w =? 8 then "uchar" else if w =? 16 then "ushort" else if w =? 32 then "uint" else "ulong"
  | MInt true w => if w =? 8 then "char" else if w =? 16 then "short" else if w =? 32 then "int" else "long"
  | MFloat => "float"
  | MDouble => "mvcc_f64"
  end.

(** ** Expressions *)
Inductive BOp := BAdd | BSub | BMul | BDiv | BRem | BShl | BShr | BAnd | BOr | BXor | BLAnd | BLOr
               | BEq | BNe | BGt | BGe | BLt | BLe.
(** calls of the prelude's binary64 comparisons and of [isnan] *)
Inductive Fn := FnLt | FnLe | FnEq | FnUnord | FnIsnan.
#[warnings="-register-all"]
Inductive E :=
| EReg (x : nat) (t : STy)            (* a named value *)
| EConst (w : Z) (z : Z)              (* an integer constant *)
| ELit (z : Z)                        (* a literal int *)
| EBool (b : bool)
| EParen (e : E)
| ECast (t : MTy) (e : E)
| EBin (op : BOp) (a b : E)
| ENot (e : E)
| ECond (c a b : E)
| ECall (f : Fn) (args : list E).

(** *** Their text *)
Definition bop_text (op : BOp) : string :=
  match op with
  | BAdd => "+" | BSub => "-" | BMul => "*" | BDiv => "/" | BRem => "%" | BShl => "<<" | BShr => ">>"
  | BAnd => "&" | BOr => "|" | BXor => "^" | BLAnd => "&&" | BLOr => "||"
  | BEq => "==" | BNe => "!=" | BGt => ">" | BGe => ">=" | BLt => "<" | BLe => "<="
  end.
Definition fn_text (f : Fn) : string :=
  match f with
  | FnLt => "mvcc_f64_lt" | FnLe => "mvcc_f64_le" | FnEq => "mvcc_f64_eq" | FnUnord => "mvcc_f64_unord" | FnIsnan => "isnan"
  end.
(** lower-case hexadecimal, as [%llx] prints it *)
Fixpoint to_hex (fuel : nat) (n : Z) (acc : string) : string :=
  match fuel with
  | O => acc
  | S fuel =>
      let d := n mod 16 in
      let acc := String (if d <? 10 then digit_char d else chr (Z.to_N (87 + d))) acc in
      if n / 16 =? 0 then acc else to_hex fuel (n / 16) acc
  end.
(** [constant] of a [ConstantInt] with zero-extended value [z] *)
Definition constant_text (w z : Z) : string :=
  if w =? 1 then (if z =? 1 then "true" else "false")
  else if w =? 64 then "0x" +++ to_hex 17 z "" +++ "ul"
  else if w =? 32 then to_string z +++ "u"
  else "(" +++ ty_text (MInt false w) +++ ")" +++ to_string z +++ "u".
Fixpoint text (e : E) : string :=
  match e with
  | EReg x _ => "v" +++ to_string (Z.of_nat x)
  | EConst w z => constant_text w z
  | ELit z => to_string_s z
  | EBool b => if b then "true" else "false"
  | EParen e => "(" +++ text e +++ ")"
  | ECast t e => "(" +++ ty_text t +++ ")" +++ text e
  | EBin op a b => text a +++ " " +++ bop_text op +++ " " +++ text b
  | ENot e => "!" +++ text e
  | ECond c a b => text c +++ " ? " +++ text a +++ " : " +++ text b
  | ECall f args => fn_text f +++ "(" +++ String.concat ", " (text <$> args) +++ ")"
  end%string.

(** ** What the emitter writes *)
Section emit.
Abbreviation cast_of t e := (match t with Some m => Some (ECast m e) | None => None end).
(** the right side of [nm = ...;] for an integer [BinaryOperator] on [i w]; [None] is [fail] *)
Definition emitBinary (w : Z) (op : Opcode) (a b : E) : option E :=
  let isBool := w =? 1 in
  let T := ty (TyInt w) in let S := sty (TyInt w) in
  match op with
  | Add => Some (if isBool then EParen (EBin BXor a b) else EBin BAdd a b)
  | Sub => Some (if isBool then EParen (EBin BXor a b) else EBin BSub a b)
  | Mul => Some (if isBool then EParen (EBin BLAnd a b) else EBin BMul a b)
  | UDiv => Some (EBin BDiv a b)
  | URem => Some (EBin BRem a b)
  | SDiv => t ← T; s ← S; Some (ECast t (EParen (EBin BDiv (ECast s a) (ECast s b))))
  | SRem => t ← T; s ← S; Some (ECast t (EParen (EBin BRem (ECast s a) (ECast s b))))
  | Shl => t ← T; Some (ECast t (EParen (EBin BShl a b)))
  | LShr => Some (EBin BShr a b)
  | AShr => t ← T; s ← S; Some (ECast t (EParen (EBin BShr (ECast s a) b)))
  | And => Some (EBin BAnd a b)
  | Or => Some (EBin BOr a b)
  | Xor => Some (EBin BXor a b)
  | _ => None
  end.
Definition isSigned (p : Pred) : bool := match p with ICMP_SGT | ICMP_SGE | ICMP_SLT | ICMP_SLE => true | _ => false end.
Definition icmp_op (p : Pred) : option BOp :=
  match p with
  | ICMP_EQ => Some BEq | ICMP_NE => Some BNe
  | ICMP_UGT | ICMP_SGT => Some BGt
  | ICMP_UGE | ICMP_SGE => Some BGe
  | ICMP_ULT | ICMP_SLT => Some BLt
  | ICMP_ULE | ICMP_SLE => Some BLe
  | _ => None
  end.
Definition emitICmp (w : Z) (p : Pred) (a b : E) : option E :=
  op ← icmp_op p;
  if isSigned p then s ← sty (TyInt w); Some (EBin op (ECast s a) (ECast s b)) else Some (EBin op a b).
(** comparison of floats *)
Definition fcmpExpr (p : Pred) (a b : E) : option E :=
  let lt_or_gt := EParen (EBin BLOr (EParen (EBin BLt a b)) (EParen (EBin BGt a b))) in
  match p with
  | FCMP_OEQ => Some (EBin BEq a b)
  | FCMP_OGT => Some (EBin BGt a b)
  | FCMP_OGE => Some (EBin BGe a b)
  | FCMP_OLT => Some (EBin BLt a b)
  | FCMP_OLE => Some (EBin BLe a b)
  | FCMP_ONE => Some lt_or_gt
  | FCMP_ORD => Some (EParen (EBin BLAnd (ENot (ECall FnIsnan [a])) (ENot (ECall FnIsnan [b]))))
  | FCMP_UNO => Some (EParen (EBin BLOr (ECall FnIsnan [a]) (ECall FnIsnan [b])))
  | FCMP_UEQ => Some (ENot lt_or_gt)
  | FCMP_UGT => Some (ENot (EParen (EBin BLe a b)))
  | FCMP_UGE => Some (ENot (EParen (EBin BLt a b)))
  | FCMP_ULT => Some (ENot (EParen (EBin BGe a b)))
  | FCMP_ULE => Some (ENot (EParen (EBin BGt a b)))
  | FCMP_UNE => Some (ENot (EParen (EBin BEq a b)))
  | FCMP_TRUE => Some (EBool true)
  | FCMP_FALSE => Some (EBool false)
  | _ => None
  end.
(** comparison of doubles, which are software *)
Definition fcmpDouble (p : Pred) (a b : E) : option E :=
  let lt x y := ECall FnLt [x; y] in let le x y := ECall FnLe [x; y] in
  let eq := ECall FnEq [a; b] in let un := ECall FnUnord [a; b] in
  match p with
  | FCMP_OEQ => Some eq
  | FCMP_OGT => Some (lt b a)
  | FCMP_OGE => Some (le b a)
  | FCMP_OLT => Some (lt a b)
  | FCMP_OLE => Some (le a b)
  | FCMP_ONE => Some (EParen (EBin BLAnd (ENot un) (ENot eq)))
  | FCMP_ORD => Some (ENot un)
  | FCMP_UNO => Some un
  | FCMP_UEQ => Some (EParen (EBin BLOr un eq))
  | FCMP_UGT => Some (ENot (le a b))
  | FCMP_UGE => Some (ENot (lt a b))
  | FCMP_ULT => Some (ENot (le b a))
  | FCMP_ULE => Some (ENot (lt b a))
  | FCMP_UNE => Some (ENot eq)
  | FCMP_TRUE => Some (EBool true)
  | FCMP_FALSE => Some (EBool false)
  | _ => None
  end.
Definition emitFCmp (double : bool) : Pred → E → E → option E := if double then fcmpDouble else fcmpExpr.
Definition emitSelect (c a b : E) : E := ECond (EParen c) (EParen a) (EParen b).
(** [CastInst] between integers, and from integers to float *)
Inductive CastOp := CTrunc | CZExt | CSExt | CUIToFP | CSIToFP.
Definition emitCast (op : CastOp) (ST DT : STy) (a : E) : option E :=
  t ← ty DT;
  match op with
  | CTrunc => if bool_decide (DT = TyInt 1) then Some (ECast t (EParen (EBin BAnd a (ELit 1)))) else Some (ECast t (EParen a))
  | CZExt => Some (ECast t (EParen a))
  | CSExt =>
      if bool_decide (ST = TyInt 1) then Some (ECond (EParen a) (ECast t (EParen (ELit (-1)))) (ECast t (ELit 0)))
      else s ← sty DT; s' ← sty ST; Some (ECast t (ECast s (ECast s' (EParen a))))
  | CUIToFP => Some (ECast t (EParen a))
  | CSIToFP => s ← sty ST; Some (ECast t (EParen (ECast s a)))
  end.
End emit.

(** ** What expressions evaluate to *)
Section eval.
(** floats, their order ([None]: unordered), and the conversion of an integer *)
Context {Fl : Type} (fcmp : Fl → Fl → option comparison) (of_Z : Z → Fl).
Inductive V := VI (t : MTy) (z : Z) | VF (f : Fl).
(** a conversion to an integer type *)
Definition convert (t : MTy) (z : Z) : Z :=
  match t with MBool => if z =? 0 then 0 else 1 | MInt false w => z mod 2 ^ w | MInt true w => sext w z | _ => z end.
Definition promote (t : MTy) : MTy :=
  match t with MBool => MInt true 32 | MInt _ w => if w <? 32 then MInt true 32 else t | _ => t end.
Definition common (a b : MTy) : MTy :=
  match promote a, promote b with
  | MInt s w, MInt s' w' => if w =? w' then MInt (s && s') w else if w' <? w then MInt s w else MInt s' w'
  | t, _ => t
  end.
(** the result of an operation of a type: unsigned wraps, signed overflow is undefined *)
Definition in_type (t : MTy) (z : Z) : option V :=
  match t with
  | MInt false w => Some (VI t (z mod 2 ^ w))
  | MInt true w => if (- 2 ^ (w - 1) <=? z) && (z <? 2 ^ (w - 1)) then Some (VI t z) else None
  | _ => None
  end.
Definition bit_width (t : MTy) : Z := match t with MInt _ w => w | _ => 1 end.
Definition is_signed (t : MTy) : bool := match t with MInt s _ => s | _ => false end.
Definition vbool (b : bool) : option V := Some (VI MBool (if b then 1 else 0)).
(** the operands converted to the common type *)
Definition arith (op : BOp) (t : MTy) (x y : Z) : option V :=
  match op with
  | BAdd => in_type t (x + y)
  | BSub => in_type t (x - y)
  | BMul => in_type t (x * y)
  | BDiv => if y =? 0 then None else in_type t (Z.quot x y)
  | BRem => if y =? 0 then None else if is_signed t && (y =? -1) && (x =? - 2 ^ (bit_width t - 1)) then None else in_type t (Z.rem x y)
  | BAnd => Some (VI t (Z.land x y))
  | BOr => Some (VI t (Z.lor x y))
  | BXor => Some (VI t (Z.lxor x y))
  | BEq => vbool (x =? y)
  | BNe => vbool (negb (x =? y))
  | BGt => vbool (y <? x)
  | BGe => vbool (y <=? x)
  | BLt => vbool (x <? y)
  | BLe => vbool (x <=? y)
  | _ => None
  end.
Definition shift (op : BOp) (t : MTy) (x y : Z) : option V :=
  if (0 <=? y) && (y <? bit_width t) then
    match op with
    | BShl =>
        if is_signed t then
          if (0 <=? x) && (x * 2 ^ y <? 2 ^ bit_width t) then Some (VI t (convert t (x * 2 ^ y))) else None
        else Some (VI t (convert t (x * 2 ^ y)))
    | BShr => Some (VI t (Z.shiftr x y))
    | _ => None
    end
  else None.
Definition float_op (op : BOp) (c : option comparison) : option V :=
  match op with
  | BEq => vbool (bool_decide (c = Some Eq))
  | BNe => vbool (negb (bool_decide (c = Some Eq)))
  | BGt => vbool (bool_decide (c = Some Gt))
  | BGe => vbool (bool_decide (c = Some Gt) || bool_decide (c = Some Eq))
  | BLt => vbool (bool_decide (c = Some Lt))
  | BLe => vbool (bool_decide (c = Some Lt) || bool_decide (c = Some Eq))
  | _ => None
  end.
Definition as_bool (v : V) : option bool := match v with VI _ z => Some (negb (z =? 0)) | VF _ => None end.
Definition bin (op : BOp) (v v' : V) : option V :=
  match v, v' with
  | VI t x, VI t' y =>
      match op with
      | BShl | BShr => shift op (promote t) (convert (promote t) x) y
      | BLAnd => vbool (negb (x =? 0) && negb (y =? 0))
      | BLOr => vbool (negb (x =? 0) || negb (y =? 0))
      | _ => arith op (common t t') (convert (common t t') x) (convert (common t t') y)
      end
  | VF f, VF g => float_op op (fcmp f g)
  | _, _ => None
  end.
Definition call (f : Fn) (vs : list V) : option V :=
  match f, vs with
  | FnIsnan, [VF x] => vbool (bool_decide (fcmp x x = None))
  | FnLt, [VF x; VF y] => vbool (bool_decide (fcmp x y = Some Lt))
  | FnLe, [VF x; VF y] => vbool (bool_decide (fcmp x y = Some Lt) || bool_decide (fcmp x y = Some Eq))
  | FnEq, [VF x; VF y] => vbool (bool_decide (fcmp x y = Some Eq))
  | FnUnord, [VF x; VF y] => vbool (bool_decide (fcmp x y = None))
  | _, _ => None
  end.
Definition to_type (t : MTy) (v : V) : option V :=
  match v, t with
  | VI _ z, (MFloat | MDouble) => Some (VF (of_Z z))
  | VI _ z, _ => Some (VI t (convert t z))
  | VF f, (MFloat | MDouble) => Some (VF f)
  | VF _, _ => None
  end.
(** [? :] on integers of one type keeps it; otherwise the common type *)
Definition merge_types (v v' : V) : option (V * V) :=
  match v, v' with
  | VI t x, VI t' y =>
      if bool_decide (t = t') then Some (v, v') else Some (VI (common t t') (convert (common t t') x), VI (common t t') (convert (common t t') y))
  | VF f, VF g => Some (v, v')
  | _, _ => None
  end.
(** the values of the named operands *)
Context (env : nat → option V).
Fixpoint eval (e : E) : option V :=
  match e with
  | EReg x _ => env x
  | EConst w z => t ← ty (TyInt w); Some (VI t z)
  | ELit z => Some (VI (MInt true 32) z)
  | EBool b => vbool b
  | EParen e => eval e
  | ECast t e => v ← eval e; to_type t v
  | EBin op a b => v ← eval a; v' ← eval b; bin op v v'
  | ENot e => v ← eval e; b ← as_bool v; vbool (negb b)
  | ECond c a b =>
      v ← eval c; b0 ← as_bool v; va ← eval a; vb ← eval b; p ← merge_types va vb;
      Some (if b0 : bool then p.1 else p.2)
  | ECall f args => vs ← mapM eval args; call f vs
  end.
(** [nm = e;] for a name of type [t] *)
Definition assign (t : STy) (e : option E) : option V := e ← e; v ← eval e; m ← ty t; to_type m v.
End eval.
Arguments VI {Fl} t z.
Arguments VF {Fl} f.

(** ** What LLVM says *)
(** [fcmp] by the order of the operands *)
Definition llvm_fcmp (p : Pred) (c : option comparison) : option bool :=
  let eq := bool_decide (c = Some Eq) in let lt := bool_decide (c = Some Lt) in let gt := bool_decide (c = Some Gt) in
  let un := bool_decide (c = None) in
  match p with
  | FCMP_FALSE => Some false | FCMP_TRUE => Some true
  | FCMP_OEQ => Some eq | FCMP_OGT => Some gt | FCMP_OGE => Some (gt || eq) | FCMP_OLT => Some lt | FCMP_OLE => Some (lt || eq)
  | FCMP_ONE => Some (lt || gt) | FCMP_ORD => Some (negb un) | FCMP_UNO => Some un
  | FCMP_UEQ => Some (un || eq) | FCMP_UGT => Some (un || gt) | FCMP_UGE => Some (un || gt || eq)
  | FCMP_ULT => Some (un || lt) | FCMP_ULE => Some (un || lt || eq) | FCMP_UNE => Some (negb eq)
  | _ => None
  end.
