(* ===== verification/MslExprThm.v ===== *)
(** The expressions of MslExpr.v have the values LLVM gives the instructions: integer arithmetic, comparisons,
    casts and selects at every width Metal has, and comparisons of floats; where Metal's rules differ, the
    inputs on which they do. *)
From S2P Require Import Prelude Cstd Expr Arena LlvmInt ArenaSem MslExpr.
Open Scope Z_scope.

(** ** Integers *)
Lemma pow_double w : 0 < w → 2 ^ w = 2 * 2 ^ (w - 1).
Proof. intros Hw. rewrite <- Z.pow_succ_r by lia. f_equal. lia. Qed.
Lemma mod_mod_le w w' z : 0 < w' <= w → (z mod 2 ^ w) mod 2 ^ w' = z mod 2 ^ w'.
Proof.
  intros Hw. replace (2 ^ w) with (2 ^ w' * 2 ^ (w - w')) by (rewrite <- Z.pow_add_r by lia; f_equal; lia).
  rewrite Z.rem_mul_r by lia. rewrite (Z.mul_comm (2 ^ w') (_ mod _)), Z.mod_add by lia. apply Z.mod_mod. lia.
Qed.
Lemma sext_mod_le w w' z : 0 < w' <= w → sext w z mod 2 ^ w' = z mod 2 ^ w'.
Proof. intros Hw. rewrite <- (mod_mod_le w w' (sext w z)), sext_mod by lia. by apply mod_mod_le. Qed.
Lemma quot_range M x y : - M <= x < M → y ≠ 0 → ¬ (x = - M ∧ y = -1) → - M <= Z.quot x y < M.
Proof.
  intros Hx Hy Hn. pose proof (Z.quot_rem' x y) as He. pose proof (Z.rem_bound_abs x y Hy) as Hr.
  pose proof (Z.rem_sign_nz x y Hy) as Hs.
  destruct (decide (y = -1)) as [->|H1].
  - replace (-1) with (- (1)) by lia. rewrite Z.quot_opp_r, Z.quot_1_r by lia. lia.
  - destruct (decide (y = 1)) as [->|H2]; [rewrite Z.quot_1_r; lia|].
    assert (2 * Z.abs (Z.quot x y) <= Z.abs x); [|lia].
    rewrite <- Z.quot_abs by done.
    assert (Z.quot (Z.abs x) (Z.abs y) * Z.abs y <= Z.abs x).
    { rewrite Z.mul_comm. apply Z.mul_quot_le; lia. }
    pose proof (Z.quot_pos (Z.abs x) (Z.abs y) ltac:(lia) ltac:(lia)). nia.
Qed.
Lemma rem_range M x y : - M <= x < M → y ≠ 0 → - M <= Z.rem x y < M.
Proof.
  intros Hx Hy. destruct (decide (0 <= x)).
  - pose proof (Z.rem_nonneg x y Hy ltac:(lia)) as H0. pose proof (Z.rem_le x (Z.abs y) ltac:(lia) ltac:(lia)) as Hle.
    rewrite Z.rem_abs_r in Hle by done. lia.
  - pose proof (Z.rem_nonpos x y Hy ltac:(lia)) as H0. pose proof (Z.rem_le (- x) (Z.abs y) ltac:(lia) ltac:(lia)) as Hle.
    rewrite Z.rem_abs_r, Z.rem_opp_l in Hle by done. lia.
Qed.
Lemma bits_range w (f : Z → Z → Z) a b : 0 <= w → f = Z.land ∨ f = Z.lor ∨ f = Z.lxor → 0 <= a < 2 ^ w → 0 <= b < 2 ^ w → 0 <= f a b < 2 ^ w.
Proof.
  intros Hw Hf Ha Hb. assert (0 <= f a b) as H0 by (destruct Hf as [->|[->| ->]]; [apply Z.land_nonneg|apply Z.lor_nonneg|apply Z.lxor_nonneg]; lia).
  split; [done|]. destruct (decide (f a b = 0)) as [->|Hn]; [lia|].
  assert (f a b = f a b mod 2 ^ w) as ->; [|by apply Z.mod_pos_bound; lia].
  symmetry. apply Z.bits_inj'. intros n Hn'. destruct (decide (n < w)).
  - by apply Z.mod_pow2_bits_low.
  - rewrite Z.mod_pow2_bits_high by lia. symmetry.
    assert (∀ x, 0 <= x < 2 ^ w → Z.testbit x n = false) as Hx.
    { intros x Hx. destruct (decide (x = 0)) as [->|]; [apply Z.bits_0|]. apply Z.bits_above_log2; [lia|].
      assert (Z.log2 x < w) by (apply Z.log2_lt_pow2; lia). lia. }
    destruct Hf as [->|[->| ->]]; rewrite ?Z.land_spec, ?Z.lor_spec, ?Z.lxor_spec, !Hx by done; done.
Qed.

Section sound.
Context {Fl : Type} (fcmp : Fl → Fl → option comparison) (of_Z : Z → Fl) (env : nat → option (V (Fl := Fl))).
Abbreviation V := (V (Fl := Fl)).
Abbreviation eval := (eval fcmp of_Z env).
Abbreviation assign := (assign fcmp of_Z env).
Abbreviation bin := (bin fcmp).

(** integer types Metal has, other than bool *)
Definition wide (w : Z) : Prop := w = 8 ∨ w = 16 ∨ w = 32 ∨ w = 64.
Lemma ty_wide w : wide w → ty (TyInt w) = Some (MInt false w) ∧ sty (TyInt w) = Some (MInt true w).
Proof. by intros [->|[->|[->| ->]]]. Qed.
(** the type operands of width [w] are computed in *)
Definition work (s : bool) (w : Z) : MTy := if w <? 32 then MInt true 32 else MInt s w.
Lemma bin_same (s : bool) w op x y : wide w → match op with BShl | BShr | BLAnd | BLOr => False | _ => True end →
  - 2 ^ (w - 1) <= x < 2 ^ w → - 2 ^ (w - 1) <= y < 2 ^ w → (if s then x < 2 ^ (w - 1) ∧ y < 2 ^ (w - 1) else 0 <= x ∧ 0 <= y) →
  bin op (VI (MInt s w) x) (VI (MInt s w) y) = arith op (work s w) x y.
Proof.
  intros Hw Hop Hx Hy Hs.
  assert (common (MInt s w) (MInt s w) = work s w) as Ec by (destruct Hw as [->|[->|[->| ->]]], s; done).
  assert (∀ z, - 2 ^ (w - 1) <= z < 2 ^ w → (if s then z < 2 ^ (w - 1) else 0 <= z) → convert (work s w) z = z) as Hc.
  { intros z Hz Hsz. unfold work. pose proof (pow_double w). destruct (Z.ltb_spec w 32).
    - cbn [convert]. apply sext_id; [lia|]. assert (2 ^ w <= 2 ^ (32 - 1)) by (apply Z.pow_le_mono_r; lia).
      assert (0 < 2 ^ (w - 1)) by (apply Z.pow_pos_nonneg; destruct Hw; lia). destruct Hw; lia.
    - destruct s; cbn [convert]; [apply sext_id; lia|apply Z.mod_small; lia]. }
  unfold MslExpr.bin. rewrite Ec. rewrite !Hc by (done || (destruct s; tauto)). by destruct op.
Qed.
Definition wrap_to (w z : Z) : V := VI (MInt false w) (z mod 2 ^ w).
(** the assigned value of an arithmetic result *)
Lemma assign_in_type w (s : bool) z v : wide w → in_type (work s w) z = Some v → to_type of_Z (MInt false w) v = Some (wrap_to w z).
Proof.
  intros Hw. unfold work, wrap_to. destruct (Z.ltb_spec w 32).
  - cbn [in_type]. destruct (_ && _); [|done]. by intros [= <-].
  - destruct s; cbn [in_type].
    + destruct (_ && _); [|done]. by intros [= <-].
    + intros [= <-]. cbn [to_type convert]. by rewrite Z.mod_mod by (pose proof (pow_double w); destruct Hw; lia).
Qed.
Lemma in_work (s : bool) w z : wide w →
  (if s || (w <? 32) then - 2 ^ (Z.max w 32 - 1) <= z < 2 ^ (Z.max w 32 - 1) else True) → ∃ v : V, in_type (work s w) z = Some v.
Proof.
  intros Hw. unfold work. destruct (Z.ltb_spec w 32).
  - rewrite orb_true_r, Z.max_r by lia. intros Hz. cbn [in_type]. destruct (Z.leb_spec (- 2 ^ (32 - 1)) z), (Z.ltb_spec z (2 ^ (32 - 1))); try lia. by eexists.
  - rewrite orb_false_r, Z.max_l by lia. destruct s; cbn [in_type]; [|by eexists].
    intros Hz. destruct (Z.leb_spec (- 2 ^ (w - 1)) z), (Z.ltb_spec z (2 ^ (w - 1))); try lia. by eexists.
Qed.

(** an operand of type [i w] with value [a] *)
Definition reads (w : Z) (e : E) (a : Z) : Prop :=
  ∃ t, ty (TyInt w) = Some t ∧ eval e = Some (VI t a) ∧ 0 <= a < 2 ^ w.
Lemma assign_bin w s op ea eb x y z : wide w → ty (TyInt w) = Some (MInt false w) →
  eval ea = Some (VI (MInt s w) x) → eval eb = Some (VI (MInt s w) y) →
  bin op (VI (MInt s w) x) (VI (MInt s w) y) = in_type (work s w) z →
  (if s || (w <? 32) then - 2 ^ (Z.max w 32 - 1) <= z < 2 ^ (Z.max w 32 - 1) else True) →
  ∃ v, eval (EBin op ea eb) = Some v ∧ to_type of_Z (MInt false w) v = Some (wrap_to w z).
Proof.
  intros Hw Ht Ea Eb Hb Hz. destruct (in_work s w z Hw Hz) as [v Hv]. exists v. split; [|by apply (assign_in_type w s)].
  cbn [MslExpr.eval]. rewrite Ea, Eb. cbn [mbind option_bind]. by rewrite Hb.
Qed.
Lemma assign_plain w e v r : wide w → eval e = Some v → to_type of_Z (MInt false w) v = Some (wrap_to w r) →
  assign (TyInt w) (Some e) = Some (VI (MInt false w) (r mod 2 ^ w)).
Proof.
  intros Hw E Hv. unfold MslExpr.assign. cbn [mbind option_bind]. rewrite E. cbn [mbind option_bind].
  rewrite (proj1 (ty_wide w Hw)). cbn [mbind option_bind]. exact Hv.
Qed.
Lemma assign_cast w e v r : wide w → eval e = Some v → to_type of_Z (MInt false w) v = Some (wrap_to w r) →
  assign (TyInt w) (Some (ECast (MInt false w) (EParen e))) = Some (VI (MInt false w) (r mod 2 ^ w)).
Proof.
  intros Hw E Hv. apply (assign_plain w _ (wrap_to w r)); [done| |].
  - cbn [MslExpr.eval]. by rewrite E.
  - unfold wrap_to. cbn. rewrite Z.mod_mod; [done|]. destruct Hw as [->|[->|[->| ->]]]; done.
Qed.
(** the signed reading of an operand *)
Lemma eval_signed w e a : wide w → eval e = Some (VI (MInt false w) a) → eval (ECast (MInt true w) e) = Some (VI (MInt true w) (sext w a)).
Proof. intros Hw E. cbn [MslExpr.eval]. rewrite E. done. Qed.
Lemma wide_bounds w : wide w → 8 <= w <= 64 ∧ 2 ^ w = 2 * 2 ^ (w - 1) ∧ 0 < 2 ^ (w - 1) ∧ (w < 32 → 2 ^ w <= 2 ^ 16) ∧ (w <> 16 → w < 32 → 2 ^ w = 2 ^ 8).
Proof. intros [->|[->|[->| ->]]]; cbn; lia. Qed.
Lemma small_mod w z : 0 <= z < 2 ^ w → z mod 2 ^ w = z.
Proof. apply Z.mod_small. Qed.

(** *** One instruction on operands of width [w] *)
Section wide_operands.
Context (w : Z) (ea eb : E) (a b : Z) (Hw : wide w).
Context (Ea : eval ea = Some (VI (MInt false w) a)) (Ha : 0 <= a < 2 ^ w).
Context (Eb : eval eb = Some (VI (MInt false w) b)) (Hb : 0 <= b < 2 ^ w).
Abbreviation result e z := (assign (TyInt w) (Some e) = Some (VI (MInt false w) z)).
Abbreviation signed e := (ECast (MInt true w) e).
Definition plain_op (op : BOp) : Prop := match op with BShl | BShr | BLAnd | BLOr => False | _ => True end.
Lemma unsigned_bin op : plain_op op → bin op (VI (MInt false w) a) (VI (MInt false w) b) = arith op (work false w) a b.
Proof. intros Hop. pose proof (wide_bounds w Hw). apply bin_same; (done || cbv iota; lia). Qed.
Lemma signed_bin op : plain_op op →
  bin op (VI (MInt true w) (sext w a)) (VI (MInt true w) (sext w b)) = arith op (work true w) (sext w a) (sext w b).
Proof.
  intros Hop. pose proof (wide_bounds w Hw). pose proof (sext_range w a ltac:(lia)). pose proof (sext_range w b ltac:(lia)).
  apply bin_same; (done || cbv iota; lia).
Qed.
Lemma unsigned_op op z : plain_op op → arith op (work false w) a b = in_type (work false w) z :> option V → (w < 32 → - 2 ^ 31 <= z < 2 ^ 31) →
  result (EBin op ea eb) (z mod 2 ^ w).
Proof.
  intros Hop Hz Hzr. destruct (assign_bin w false op ea eb a b z Hw (proj1 (ty_wide w Hw)) Ea Eb) as (v & Ev & Hv).
  - by rewrite unsigned_bin.
  - cbn [orb]. destruct (Z.ltb_spec w 32); [|done]. rewrite Z.max_r by lia. by apply Hzr.
  - by eapply assign_plain.
Qed.
Lemma signed_op op z : plain_op op → arith op (work true w) (sext w a) (sext w b) = in_type (work true w) z :> option V → - 2 ^ (w - 1) <= z < 2 ^ (w - 1) →
  result (ECast (MInt false w) (EParen (EBin op (signed ea) (signed eb)))) (z mod 2 ^ w).
Proof.
  intros Hop Hz Hzr. pose proof (wide_bounds w Hw).
  destruct (assign_bin w true op _ _ _ _ z Hw (proj1 (ty_wide w Hw)) (eval_signed w ea a Hw Ea) (eval_signed w eb b Hw Eb)) as (v & Ev & Hv).
  - by rewrite signed_bin.
  - cbn [orb]. assert (2 ^ (w - 1) <= 2 ^ (Z.max w 32 - 1)) by (apply Z.pow_le_mono_r; lia). lia.
  - by eapply assign_cast.
Qed.
Lemma bits_op op f : plain_op op → arith op (work false w) a b = Some (VI (work false w) (f a b)) :> option V →
  f = Z.land ∨ f = Z.lor ∨ f = Z.lxor → result (EBin op ea eb) (f a b).
Proof.
  intros Hop Hf Hff. pose proof (wide_bounds w Hw). pose proof (bits_range w f a b ltac:(lia) Hff Ha Hb) as Hfr.
  rewrite <- (small_mod w (f a b)) by done. apply (assign_plain w _ (VI (work false w) (f a b))); [done| |].
  - cbn [MslExpr.eval]. rewrite Ea, Eb. cbn [mbind option_bind]. by rewrite unsigned_bin.
  - unfold wrap_to, work. by destruct (w <? 32).
Qed.
Lemma sext_zero : sext w b = 0 → b = 0.
Proof.
  pose proof (wide_bounds w Hw). intros H0. pose proof (sext_mod w b ltac:(lia)) as Hm.
  rewrite H0, Z.mod_0_l in Hm by lia. rewrite Z.mod_small in Hm by lia. done.
Qed.
(** the left operand of a shift, promoted *)
Lemma promoted (s : bool) : promote (MInt s w) = work s w ∧ w <= bit_width (work s w) ∧
  convert (work s w) (if s then sext w a else a) = if s then sext w a else a.
Proof.
  pose proof (wide_bounds w Hw) as (Hw1 & Hp & Hp0 & Hp1 & _). pose proof (sext_range w a ltac:(lia)).
  unfold work, promote. destruct (Z.ltb_spec w 32) as [Hlt|]; cbn [bit_width convert]; (split; [done|split; [lia|]]).
  - specialize (Hp1 Hlt). apply sext_id; [lia|]. change (2 ^ (32 - 1)) with (2 ^ 31). destruct s; lia.
  - destruct s; cbn [convert]; [apply sext_id; lia|apply Z.mod_small; lia].
Qed.
Lemma shl_op : b < w → result (ECast (MInt false w) (EParen (EBin BShl ea eb))) (Z.shiftl a b mod 2 ^ w).
Proof.
  intros Hbw. pose proof (wide_bounds w Hw) as (Hw1 & Hp & Hp0 & Hp1 & _). destruct (promoted false) as (Hpf & Hwid & Eca). cbv iota in Eca.
  rewrite Z.shiftl_mul_pow2 by lia. set (v := VI (work false w) (convert (work false w) (a * 2 ^ b)) : V).
  apply (assign_cast w _ v); [done| |].
  - cbn [MslExpr.eval]. rewrite Ea, Eb. cbn [mbind option_bind]. unfold MslExpr.bin, shift. rewrite Hpf, Eca.
    destruct (Z.leb_spec 0 b); [|lia]. destruct (Z.ltb_spec b (bit_width (work false w))); [|lia]. cbn [andb].
    unfold v, work. destruct (Z.ltb_spec w 32) as [Hlt|]; cbn [is_signed]; [|done].
    destruct (Z.leb_spec 0 a); [|lia]. destruct (Z.ltb_spec (a * 2 ^ b) (2 ^ bit_width (MInt true 32))) as [|Hge]; [done|].
    exfalso. cbn [bit_width] in Hge. assert (2 ^ b * 2 ^ w <= 2 ^ 32); [|nia].
    rewrite <- Z.pow_add_r by lia. apply Z.pow_le_mono_r; [lia|]. destruct Hw; lia.
  - unfold v, wrap_to, work. destruct (Z.ltb_spec w 32); cbn [to_type convert]; do 2 f_equal; [apply sext_mod_le; lia|].
    apply Z.mod_mod. lia.
Qed.
Lemma lshr_op : b < w → result (EBin BShr ea eb) (Z.shiftr a b).
Proof.
  intros Hbw. pose proof (wide_bounds w Hw). destruct (promoted false) as (Hpf & Hwid & Eca). cbv iota in Eca.
  assert (0 <= Z.shiftr a b < 2 ^ w).
  { rewrite Z.shiftr_div_pow2 by lia. split; [apply Z.div_pos; lia|]. apply Z.div_lt_upper_bound; [lia|]. nia. }
  rewrite <- (small_mod w (Z.shiftr a b)) by done.
  apply (assign_plain w _ (VI (work false w) (Z.shiftr a b))); [done| |unfold wrap_to, work; by destruct (w <? 32)].
  cbn [MslExpr.eval]. rewrite Ea, Eb. cbn [mbind option_bind]. unfold MslExpr.bin, shift. rewrite Hpf, Eca.
  destruct (Z.leb_spec 0 b); [|lia]. destruct (Z.ltb_spec b (bit_width (work false w))); [done|lia].
Qed.
Lemma ashr_op : b < w → result (ECast (MInt false w) (EParen (EBin BShr (signed ea) eb))) (Z.shiftr (sext w a) b mod 2 ^ w).
Proof.
  intros Hbw. pose proof (wide_bounds w Hw). destruct (promoted true) as (Hpt & Hwid & Eca). cbv iota in Eca.
  apply (assign_cast w _ (VI (work true w) (Z.shiftr (sext w a) b))); [done| |unfold wrap_to, work; by destruct (w <? 32)].
  cbn [MslExpr.eval]. rewrite Ea, Eb. cbn [mbind option_bind to_type convert]. unfold MslExpr.bin, shift. rewrite Hpt, Eca.
  destruct (Z.leb_spec 0 b); [|lia]. destruct (Z.ltb_spec b (bit_width (work true w))); [done|lia].
Qed.
Lemma udiv_op : b ≠ 0 → result (EBin BDiv ea eb) (a / b).
Proof.
  intros Hb0. pose proof (wide_bounds w Hw) as (_ & _ & _ & Hp1 & _).
  assert (0 <= a / b <= a) as Hd by (split; [apply Z.div_pos; lia|apply Z.div_le_upper_bound; nia]).
  rewrite <- (small_mod w (a / b)) by lia. rewrite <- Z.quot_div_nonneg by lia. apply unsigned_op; [done| |].
  - cbn [arith]. by destruct (Z.eqb_spec b 0).
  - intros Hlt. specialize (Hp1 Hlt). rewrite Z.quot_div_nonneg by lia. lia.
Qed.
Lemma urem_op : b ≠ 0 → result (EBin BRem ea eb) (a mod b).
Proof.
  intros Hb0. pose proof (wide_bounds w Hw) as (_ & _ & _ & Hp1 & _). pose proof (Z.mod_pos_bound a b ltac:(lia)) as Hm.
  rewrite <- (small_mod w (a mod b)) by lia. rewrite <- (Z.rem_mod_nonneg a b) by lia. apply unsigned_op; [done| |].
  - cbn [arith]. destruct (Z.eqb_spec b 0); [done|]. destruct (Z.eqb_spec b (-1)); [lia|]. by rewrite andb_false_r.
  - intros Hlt. specialize (Hp1 Hlt). rewrite Z.rem_mod_nonneg by lia. lia.
Qed.
(** signed division overflows only at the least number by -1 *)
Lemma sdiv_op : b ≠ 0 → ¬ (sext w a = - 2 ^ (w - 1) ∧ sext w b = -1) →
  result (ECast (MInt false w) (EParen (EBin BDiv (signed ea) (signed eb)))) (Z.quot (sext w a) (sext w b) mod 2 ^ w).
Proof.
  intros Hb0 Hn. pose proof (wide_bounds w Hw). pose proof (sext_range w a ltac:(lia)). apply signed_op; [done| |].
  - cbn [arith]. destruct (Z.eqb_spec (sext w b) 0) as [E|]; [by apply sext_zero in E|done].
  - apply quot_range; [done|by intros E%sext_zero|done].
Qed.
Lemma srem_op : b ≠ 0 → ¬ (sext w a = - 2 ^ (w - 1) ∧ sext w b = -1) →
  result (ECast (MInt false w) (EParen (EBin BRem (signed ea) (signed eb)))) (Z.rem (sext w a) (sext w b) mod 2 ^ w).
Proof.
  intros Hb0 Hn. pose proof (wide_bounds w Hw) as (Hw1 & Hp & Hp0 & Hp1 & _). pose proof (sext_range w a ltac:(lia)). apply signed_op; [done| |].
  - cbn [arith]. destruct (Z.eqb_spec (sext w b) 0) as [E|]; [by apply sext_zero in E|].
    destruct (_ && _ && _) eqn:Eb'; [|done]. exfalso. apply andb_true_iff in Eb' as [[_ E2%Z.eqb_eq]%andb_true_iff E1%Z.eqb_eq].
    unfold work in E1. destruct (Z.ltb_spec w 32) as [Hlt|]; cbn [bit_width] in E1; [|tauto]. specialize (Hp1 Hlt). lia.
  - apply rem_range; [done|by intros E%sext_zero].
Qed.
End wide_operands.

Lemma div_guard (w a b r z : Z) : (if (b =? 0) || ((sext w a =? - 2 ^ (w - 1)) && (sext w b =? -1)) then None else Some z) = Some r :> option Z →
  b ≠ 0 ∧ ¬ (sext w a = - 2 ^ (w - 1) ∧ sext w b = -1) ∧ z = r.
Proof.
  destruct (Z.eqb_spec b 0), (Z.eqb_spec (sext w a) (- 2 ^ (w - 1))), (Z.eqb_spec (sext w b) (-1)); cbn [orb andb]; intros [= <-]; tauto.
Qed.
Lemma binary_wide w op ea eb a b r : wide w → reads w ea a → reads w eb b → llvm_binary op w a b = Some r →
  ¬ (op = Mul ∧ w = 16 ∧ 2 ^ 31 <= a * b) →
  assign (TyInt w) (emitBinary w op ea eb) = Some (VI (MInt false w) r).
Proof.
  intros Hw (t & Et & Ea & Ha) (t' & Et' & Eb & Hb) Hr Hmul.
  destruct (ty_wide w Hw) as [HT HS]. rewrite HT in Et, Et'. injection Et as <-. injection Et' as <-.
  destruct (wide_bounds w Hw) as (Hw1 & Hp & Hp0 & Hp1 & Hp2).
  assert ((w =? 1) = false) as Hw0 by (destruct (Z.eqb_spec w 1); [lia|done]).
  destruct op; try done; cbn [emitBinary]; rewrite ?Hw0, ?HT, ?HS; cbn [mbind option_bind]; cbn [llvm_binary] in Hr;
    try (injection Hr as <-; eapply bits_op; by eauto).
  - injection Hr as <-. eapply unsigned_op; eauto; [done|]. intros Hlt. specialize (Hp1 Hlt). lia.
  - injection Hr as <-. eapply unsigned_op; eauto; [done|]. intros Hlt. specialize (Hp1 Hlt). lia.
  - injection Hr as <-. eapply unsigned_op; eauto; [done|]. intros Hlt. split; [nia|].
    destruct (decide (w = 16)) as [->|Hn]; [|rewrite (Hp2 Hn Hlt) in *; nia].
    destruct (decide (2 ^ 31 <= a * b)); [|lia]. by destruct Hmul.
  - destruct (Z.ltb_spec b w); [|done]. injection Hr as <-. by apply shl_op.
  - destruct (Z.ltb_spec b w); [|done]. injection Hr as <-. by apply lshr_op.
  - destruct (Z.ltb_spec b w); [|done]. injection Hr as <-. by apply ashr_op.
  - destruct (Z.eqb_spec b 0); [done|]. injection Hr as <-. by apply udiv_op.
  - apply div_guard in Hr as (Hb0 & Hn & <-). by apply sdiv_op.
  - destruct (Z.eqb_spec b 0); [done|]. injection Hr as <-. by apply urem_op.
  - apply div_guard in Hr as (Hb0 & Hn & <-). by apply srem_op.
Qed.
Lemma reads_bool e a : reads 1 e a → eval e = Some (VI MBool a) ∧ (a = 0 ∨ a = 1).
Proof. intros (t & [= <-] & E & Ha). split; [done|]. change (2 ^ 1) with 2 in Ha. lia. Qed.
Lemma reads_wide w e a : wide w → reads w e a → eval e = Some (VI (MInt false w) a) ∧ 0 <= a < 2 ^ w.
Proof. intros Hw (t & Et & E & Ha). rewrite (proj1 (ty_wide w Hw)) in Et. by injection Et as <-. Qed.
Lemma binary_bool op ea eb a b r : reads 1 ea a → reads 1 eb b → llvm_binary op 1 a b = Some r →
  assign (TyInt 1) (emitBinary 1 op ea eb) = Some (VI MBool r).
Proof.
  intros [Ea Ha]%reads_bool [Eb Hb]%reads_bool Hr. unfold MslExpr.assign.
  destruct op; try done; cbn; rewrite Ea, Eb; destruct Ha as [->| ->], Hb as [->| ->]; vm_compute in Hr |- *; congruence.
Qed.

(** *** Comparisons *)
Lemma assign_bool e (b : bool) : eval e = Some (VI MBool (if b then 1 else 0)) → assign (TyInt 1) (Some e) = Some (VI MBool (if b then 1 else 0)).
Proof. intros E. unfold MslExpr.assign. cbn [mbind option_bind]. rewrite E. by destruct b. Qed.
Lemma sext_inj w a b : 0 < w → 0 <= a < 2 ^ w → 0 <= b < 2 ^ w → sext w a = sext w b → a = b.
Proof.
  intros Hw Ha Hb E. pose proof (sext_mod w a Hw) as H1. pose proof (sext_mod w b Hw) as H2. rewrite E in H1.
  rewrite (Z.mod_small a) in H1 by done. rewrite (Z.mod_small b) in H2 by done. congruence.
Qed.
Lemma icmp_wide w p ea eb a b r : wide w → reads w ea a → reads w eb b → icmp p w (sext w a) (sext w b) = Some r →
  assign (TyInt 1) (emitICmp w p ea eb) = Some (VI MBool (if r then 1 else 0)).
Proof.
  intros Hw [Ea Ha]%(reads_wide _ _ _ Hw) [Eb Hb]%(reads_wide _ _ _ Hw) Hr.
  destruct (ty_wide w Hw) as [HT HS]. destruct (wide_bounds w Hw) as (Hw1 & Hp & Hp0 & _).
  pose proof (sext_range w a ltac:(lia)) as Hsa. pose proof (sext_range w b ltac:(lia)) as Hsb.
  pose proof (λ op Hop, bin_same false w op a b Hw Hop ltac:(lia) ltac:(lia) ltac:(cbv iota; lia)) as Hbin.
  pose proof (λ op Hop, bin_same true w op (sext w a) (sext w b) Hw Hop ltac:(lia) ltac:(lia) ltac:(cbv iota; lia)) as Hsbin.
  pose proof (eval_signed w ea a Hw Ea) as Esa. pose proof (eval_signed w eb b Hw Eb) as Esb.
  unfold icmp in Hr. rewrite !sext_mod, !Z.mod_small in Hr by lia.
  assert ((sext w a =? sext w b) = (a =? b)) as Heq.
  { destruct (Z.eqb_spec a b) as [->|Hn]; [apply Z.eqb_refl|]. apply Z.eqb_neq. intros E. apply Hn. apply (sext_inj w); (done || lia). }
  rewrite Heq in Hr.
  assert (∀ op, match op with BShl | BShr | BLAnd | BLOr => False | _ => True end → arith op (work false w) a b = vbool r :> option V →
    assign (TyInt 1) (Some (EBin op ea eb)) = Some (VI MBool (if r then 1 else 0))) as Hu.
  { intros op Hop Hv. apply assign_bool. cbn [MslExpr.eval]. rewrite Ea, Eb. cbn [mbind option_bind]. by rewrite Hbin. }
  assert (∀ op, match op with BShl | BShr | BLAnd | BLOr => False | _ => True end → arith op (work true w) (sext w a) (sext w b) = vbool r :> option V →
    assign (TyInt 1) (Some (EBin op (ECast (MInt true w) ea) (ECast (MInt true w) eb))) = Some (VI MBool (if r then 1 else 0))) as Hs.
  { intros op Hop Hv. apply assign_bool. cbn [MslExpr.eval] in *. rewrite Ea, Eb in *. cbn [mbind option_bind to_type convert] in *. by rewrite Hsbin. }
  destruct p; try done; injection Hr as <-; cbn [emitICmp icmp_op isSigned mbind option_bind]; rewrite ?HS; cbn [mbind option_bind];
    (apply Hu || apply Hs); done.
Qed.
Lemma icmp_bool p ea eb a b r : isSigned p = false → reads 1 ea a → reads 1 eb b → icmp p 1 (sext 1 a) (sext 1 b) = Some r →
  assign (TyInt 1) (emitICmp 1 p ea eb) = Some (VI MBool (if r then 1 else 0)).
Proof.
  intros Hs [Ea Ha]%reads_bool [Eb Hb]%reads_bool Hr. unfold MslExpr.assign.
  destruct p; try done; cbn; rewrite Ea, Eb; destruct Ha as [->| ->], Hb as [->| ->]; vm_compute in Hr |- *; by injection Hr as <-.
Qed.
(** the order of floats: a NaN is unordered with everything, itself included; otherwise the order is total *)
Definition float_order : Prop :=
  (∀ x y, fcmp x y = None ↔ fcmp x x = None ∨ fcmp y y = None) ∧ (∀ x y, fcmp y x = CompOpp <$> fcmp x y).
Lemma fcmp_any (double : bool) p ea eb x y r : float_order → eval ea = Some (VF x) → eval eb = Some (VF y) →
  llvm_fcmp p (fcmp x y) = Some r →
  assign (TyInt 1) (emitFCmp double p ea eb) = Some (VI MBool (if r then 1 else 0)).
Proof.
  intros [Hn Hs] Ea Eb Hr. pose proof (Hn x y) as Hnxy. pose proof (Hs x y) as Hyx. clear Hn Hs.
  destruct double; unfold MslExpr.assign, emitFCmp; destruct p; try done; injection Hr as <-;
    cbn; rewrite ?Ea, ?Eb; cbn; rewrite ?Hyx; destruct (fcmp x y) as [[]|] eqn:Exy; cbn; try done;
    destruct (fcmp x x) as [?|] eqn:Exx, (fcmp y y) as [?|] eqn:Eyy; cbn; try done; exfalso; intuition congruence.
Qed.

(** *** Casts and selects *)
Definition llvm_cast (op : CastOp) (w w' a : Z) : Z :=
  match op with CTrunc => a mod 2 ^ w' | CZExt | CUIToFP => a | CSExt => sext w a mod 2 ^ w' | CSIToFP => sext w a end.
Lemma reads_cases w e a : w ∈ widths → reads w e a →
  (w = 1 ∧ eval e = Some (VI MBool a) ∧ (a = 0 ∨ a = 1)) ∨ (wide w ∧ eval e = Some (VI (MInt false w) a) ∧ 0 <= a < 2 ^ w).
Proof.
  intros Hw Hr. repeat (apply elem_of_cons in Hw as [->|Hw]; [try (by left; apply reads_bool in Hr)|]); [..|by apply elem_of_nil in Hw];
    right; (split; [unfold wide; tauto|apply reads_wide; [unfold wide; tauto|done]]).
Qed.
(** [nm = (T)(e);] *)
Lemma assign_convert w e t z : wide w → eval e = Some (VI t z) →
  assign (TyInt w) (Some (ECast (MInt false w) (EParen e))) = Some (VI (MInt false w) (z mod 2 ^ w)).
Proof.
  intros Hw E. unfold MslExpr.assign. cbn [mbind option_bind MslExpr.eval]. rewrite E, (proj1 (ty_wide w Hw)). cbn [mbind option_bind to_type convert].
  rewrite Z.mod_mod; [done|]. destruct (wide_bounds w Hw); lia.
Qed.
Lemma trunc_bool w ea a : wide w → eval ea = Some (VI (MInt false w) a) → 0 <= a < 2 ^ w →
  assign (TyInt 1) (emitCast CTrunc (TyInt w) (TyInt 1) ea) = Some (VI MBool (a mod 2)).
Proof.
  intros Hw Ea Ha. assert (Z.land a 1 = a mod 2) as E1 by (apply (Z.land_ones a 1); lia).
  assert (∃ t1, bin BAnd (VI (MInt false w) a) (VI (MInt true 32) 1) = Some (VI t1 (a mod 2))) as [t1 E].
  { rewrite <- E1. destruct Hw as [->|[->|[->| ->]]]; cbn -[Z.land sext Z.modulo] in *; eexists; do 2 f_equal; f_equal;
      try (apply sext_id; lia); try (apply Z.mod_small; lia); reflexivity. }
  unfold MslExpr.assign. cbn [emitCast ty Z.eqb Pos.eqb mbind option_bind]. rewrite bool_decide_eq_true_2 by done.
  cbn [mbind option_bind MslExpr.eval]. rewrite Ea. cbn [mbind option_bind]. rewrite E. cbn [mbind option_bind to_type convert ty Z.eqb Pos.eqb].
  pose proof (Z.mod_pos_bound a 2 ltac:(lia)). assert (a mod 2 = 0 ∨ a mod 2 = 1) as [-> | ->] by lia; done.
Qed.
Lemma sext_bool w ea a : wide w → eval ea = Some (VI MBool a) → a = 0 ∨ a = 1 →
  assign (TyInt w) (emitCast CSExt (TyInt 1) (TyInt w) ea) = Some (VI (MInt false w) (sext 1 a mod 2 ^ w)).
Proof.
  intros Hw Ea Ha. unfold MslExpr.assign.
  assert (emitCast CSExt (TyInt 1) (TyInt w) ea = Some (ECond (EParen ea) (ECast (MInt false w) (EParen (ELit (-1)))) (ECast (MInt false w) (ELit 0)))) as ->
    by (unfold emitCast; by rewrite (proj1 (ty_wide w Hw))).
  cbn [mbind option_bind MslExpr.eval]. rewrite Ea, (proj1 (ty_wide w Hw)). cbn [mbind option_bind as_bool to_type merge_types].
  rewrite bool_decide_eq_true_2 by done. destruct Hw as [->|[->|[->| ->]]], Ha as [->| ->]; done.
Qed.
Lemma cast_int op w w' ea a t : w ∈ widths → w' ∈ widths → match op with CTrunc => w' < w | CZExt | CSExt => w < w' | _ => False end →
  reads w ea a → ty (TyInt w') = Some t →
  assign (TyInt w') (emitCast op (TyInt w) (TyInt w') ea) = Some (VI t (llvm_cast op w w' a)).
Proof.
  intros Hw Hw' Hop Hra Et. assert (w' = 1 ∧ t = MBool ∨ wide w' ∧ t = MInt false w') as Ht.
  { clear -Hw' Et. repeat (apply elem_of_cons in Hw' as [->|Hw']; [injection Et as <-; unfold wide; tauto|]). by apply elem_of_nil in Hw'. }
  pose proof (reads_cases w ea a Hw Hra) as Hra'.
  destruct Ht as [[-> ->]|[Hw'' ->]].
  - destruct Hra' as [(-> & _)|(Hww & Ea & Ha)]; [by destruct op; lia|]. pose proof (wide_bounds w Hww).
    destruct op; try (by destruct Hop); try lia. by apply trunc_bool.
  - assert (0 < w <= 64 ∧ 0 <= a < 2 ^ w ∧ ∃ t0, eval ea = Some (VI t0 a)) as (Hw0 & Ha & t0 & Ea).
    { destruct Hra' as [(-> & ? & ?)|(Hww%wide_bounds & ? & ?)]; (split; [lia|split; [|by eexists]]); [change (2 ^ 1) with 2|]; lia. }
    destruct (ty_wide w' Hw'') as [HT HS]. destruct op; try (by destruct Hop); unfold emitCast; rewrite HT; cbn [mbind option_bind llvm_cast].
    + rewrite bool_decide_eq_false_2 by (intros [= ->]; by destruct Hw'' as [|[|[|]]]). by apply (assign_convert w' ea t0).
    + rewrite <- (Z.mod_small a (2 ^ w')); [by apply (assign_convert w' ea t0)|].
      split; [lia|]. apply (Z.lt_le_trans _ (2 ^ w)); [lia|]. apply Z.pow_le_mono_r; lia.
    + destruct Hra' as [(-> & Eb & Hb)|(Hww & Eb & _)].
      * by pose proof (sext_bool w' ea a Hw'' Eb Hb) as Hs; unfold emitCast in Hs; rewrite HT in Hs; cbn [mbind option_bind] in Hs.
      * rewrite bool_decide_eq_false_2 by (intros [= ->]; by destruct Hww as [|[|[|]]]). destruct (ty_wide w Hww) as [_ HSw].
        rewrite HS, HSw. cbn [mbind option_bind]. unfold MslExpr.assign. cbn [mbind option_bind MslExpr.eval]. rewrite Eb, HT.
        cbn [mbind option_bind to_type convert]. destruct (wide_bounds w' Hw''). rewrite Z.mod_mod, sext_mod by lia. done.
Qed.
(** conversions of integers to float *)
Lemma cast_float op w ea a : w ∈ widths → match op with CUIToFP => True | CSIToFP => w ≠ 1 | _ => False end → reads w ea a →
  assign TyFloat (emitCast op (TyInt w) TyFloat ea) = Some (VF (of_Z (llvm_cast op w w a))).
Proof.
  intros Hw Hop Hr. unfold MslExpr.assign.
  destruct (reads_cases w ea a Hw Hr) as [(-> & Ea & _)|(Hww & Ea & _)]; destruct op; try done; unfold emitCast; cbn [ty mbind option_bind].
  - cbn [MslExpr.eval]. by rewrite Ea.
  - cbn [MslExpr.eval]. by rewrite Ea.
  - rewrite (proj2 (ty_wide w Hww)). cbn [mbind option_bind MslExpr.eval]. by rewrite Ea.
Qed.
(** both arms have the type of the result, so the conditional converts neither *)
Lemma select_int w c ea eb (b : bool) x y t : w ∈ widths → reads 1 c (if b then 1 else 0) → reads w ea x → reads w eb y → ty (TyInt w) = Some t →
  assign (TyInt w) (Some (emitSelect c ea eb)) = Some (VI t (if b then x else y)).
Proof.
  intros Hw [Ec _]%reads_bool (ta & Ea1 & Ea & Ha) (tb & Eb1 & Eb & Hb) Ht. rewrite Ht in Ea1, Eb1. injection Ea1 as <-. injection Eb1 as <-.
  unfold MslExpr.assign, emitSelect. cbn [mbind option_bind MslExpr.eval]. rewrite Ec, Ea, Eb. cbn [mbind option_bind as_bool merge_types].
  rewrite bool_decide_eq_true_2 by done. cbn [mbind option_bind]. rewrite Ht. cbn [mbind option_bind].
  assert (∀ z, 0 <= z < 2 ^ w → to_type of_Z t (VI t z) = Some (VI t z)) as Hid.
  { intros z Hz. clear -Hw Ht Hz. repeat (apply elem_of_cons in Hw as [->|Hw]; [injection Ht as <-; cbn -[Z.pow Z.modulo]; do 2 f_equal;
      try (by apply Z.mod_small); change (2 ^ 1) with 2 in Hz; destruct (Z.eqb_spec z 0); lia|]). by apply elem_of_nil in Hw. }
  destruct b; cbn; by apply Hid.
Qed.
End sound.

(** ** The theorems *)
(** the operands of the witnesses: every name reads the same value *)
Definition env_at (w a b : Z) (i : nat) : option (V (Fl := Z)) := t ← ty (TyInt w); Some (VI t (if decide (i = 0%nat) then a else b)).
Definition zcmp (x y : Z) : option comparison := Some (x ?= y).
Definition reg (i : nat) (w : Z) : E := EReg i (TyInt w).

(** [C7] For every integer width and every integer binary instruction, the right side the Metal emitter writes, evaluated by
    C++'s rules - operands promoted to int, unsigned arithmetic wrapping, signed overflow, division by zero and too long
    shifts undefined, the result converted back - is defined whenever LLVM defines the instruction and is LLVM's result.
    The one exception is a product of two 16-bit operands that reaches 2 ^ 31, which is excluded. *)
Theorem binary_sound (Fl : Type) (fcmp : Fl → Fl → option comparison) (of_Z : Z → Fl) (env : nat → option V)
    (w : Z) (op : Opcode) (ea eb : E) (a b r : Z) (t : MTy)
    (Hw : w ∈ widths) (Ha : reads fcmp of_Z env w ea a) (Hb : reads fcmp of_Z env w eb b)
    (Hr : llvm_binary op w a b = Some r) (Hmul : ¬ (op = Mul ∧ w = 16 ∧ 2 ^ 31 <= a * b))
    (Ht : ty (TyInt w) = Some t) :
  assign fcmp of_Z env (TyInt w) (emitBinary w op ea eb) = Some (VI t r).
Proof.
  destruct (decide (w = 1)) as [->|H1].
  - injection Ht as <-. by apply (binary_bool fcmp of_Z env op ea eb a b).
  - assert (wide w) as Hww by (unfold wide, widths in *; set_solver). rewrite (proj1 (ty_wide w Hww)) in Ht. injection Ht as <-.
    by apply (binary_wide fcmp of_Z env w op ea eb a b).
Qed.
Lemma binary_sound_witness :
  assign zcmp id (env_at 8 200 100) (TyInt 8) (emitBinary 8 Add (reg 0 8) (reg 1 8)) = Some (VI (MInt false 8) 44) ∧
  assign zcmp id (env_at 32 4294967289 2) (TyInt 32) (emitBinary 32 SDiv (reg 0 32) (reg 1 32)) = Some (VI (MInt false 32) 4294967293).
Proof.
  split.
  - apply (binary_sound Z zcmp id (env_at 8 200 100) 8 Add (reg 0 8) (reg 1 8) 200 100 44 (MInt false 8));
      [by vm_compute; right; left|by eexists|by eexists|done|by intros [? _]|done].
  - apply (binary_sound Z zcmp id (env_at 32 4294967289 2) 32 SDiv (reg 0 32) (reg 1 32) 4294967289 2 4294967293 (MInt false 32));
      [by vm_compute; right; right; right; left|by eexists|by eexists|done|by intros [? _]|done].
Defined.

(** floats of the witness: numbers and one NaN *)
Definition ncmp (x y : option Z) : option comparison := match x, y with Some x, Some y => Some (x ?= y) | _, _ => None end.
Definition env_cmp (i : nat) : option (V (Fl := option Z)) :=
  match i with 0%nat => Some (VI (MInt false 32) 4294967295) | 1%nat => Some (VI (MInt false 32) 1) | 2%nat => Some (VF (Some 3)) | _ => Some (VF None) end.
(** [C27] The comparisons, casts and selects the Metal emitter writes are LLVM's, but for signed comparisons of 1-bit
    integers and their signed conversion to float ([emitted_differs]): equalities and unsigned comparisons of integers
    at every width, signed ones from 8 bits on, through a cast to the signed type; float comparisons through the
    operators of C++ and double comparisons through the helpers of the prelude - all sixteen predicates, ordered and
    unordered, with a NaN on either side; truncation (to bool by masking), zero and sign extension between all
    integer widths (from bool by a conditional), unsigned integers of every width to float, signed ones from 8 bits
    on, and the conditional of a [select], which does not convert its arms. *)
Theorem comparisons_and_casts_sound (Fl : Type) (fcmp : Fl → Fl → option comparison) (of_Z : Z → Fl) (env : nat → option V)
    (Hord : float_order fcmp) :
  (∀ w p ea eb a b r, w ∈ widths → reads fcmp of_Z env w ea a → reads fcmp of_Z env w eb b →
     (w = 1 → isSigned p = false) → icmp p w (sext w a) (sext w b) = Some r →
     assign fcmp of_Z env (TyInt 1) (emitICmp w p ea eb) = Some (VI MBool (if r then 1 else 0))) ∧
  (∀ (double : bool) q fa fb x y r, eval fcmp of_Z env fa = Some (VF x) → eval fcmp of_Z env fb = Some (VF y) →
     llvm_fcmp q (fcmp x y) = Some r →
     assign fcmp of_Z env (TyInt 1) (emitFCmp double q fa fb) = Some (VI MBool (if r then 1 else 0))) ∧
  (∀ op w w' ea a t, w ∈ widths → w' ∈ widths → match op with CTrunc => w' < w | CZExt | CSExt => w < w' | _ => False end →
     reads fcmp of_Z env w ea a → ty (TyInt w') = Some t →
     assign fcmp of_Z env (TyInt w') (emitCast op (TyInt w) (TyInt w') ea) = Some (VI t (llvm_cast op w w' a))) ∧
  (∀ op w ea a, w ∈ widths → match op with CUIToFP => True | CSIToFP => w ≠ 1 | _ => False end → reads fcmp of_Z env w ea a →
     assign fcmp of_Z env TyFloat (emitCast op (TyInt w) TyFloat ea) = Some (VF (of_Z (llvm_cast op w w a)))) ∧
  (∀ w c ea eb (k : bool) a b t, w ∈ widths → reads fcmp of_Z env 1 c (if k then 1 else 0) → reads fcmp of_Z env w ea a →
     reads fcmp of_Z env w eb b → ty (TyInt w) = Some t →
     assign fcmp of_Z env (TyInt w) (Some (emitSelect c ea eb)) = Some (VI t (if k then a else b))).
Proof.
  split_and!.
  - intros w p ea eb a b r Hw Ha Hb Hsig Hr. destruct (decide (w = 1)) as [->|H1].
    + apply (icmp_bool fcmp of_Z env p ea eb a b); auto.
    + apply (icmp_wide fcmp of_Z env w p ea eb a b); [unfold wide, widths in *; set_solver|done..].
  - intros. by eapply (fcmp_any fcmp of_Z env).
  - intros. by apply (cast_int fcmp of_Z env).
  - intros. by apply (cast_float fcmp of_Z env).
  - intros. by apply (select_int fcmp of_Z env).
Qed.
Lemma comparisons_and_casts_sound_witness :
  assign ncmp Some env_cmp (TyInt 1) (emitICmp 32 ICMP_SLT (reg 0 32) (reg 1 32)) = Some (VI MBool 1) ∧
  assign ncmp Some env_cmp (TyInt 1) (emitFCmp false FCMP_ULT (EReg 2 TyFloat) (EReg 3 TyFloat)) = Some (VI MBool 1) ∧
  assign ncmp Some env_cmp (TyInt 64) (emitCast CSExt (TyInt 32) (TyInt 64) (reg 0 32)) = Some (VI (MInt false 64) 18446744073709551615) ∧
  assign ncmp Some env_cmp TyFloat (emitCast CSIToFP (TyInt 32) TyFloat (reg 0 32)) = Some (VF (Some (-1))) ∧
  assign ncmp Some env_cmp (TyInt 32) (Some (emitSelect (EBool true) (reg 0 32) (reg 1 32))) = Some (VI (MInt false 32) 4294967295).
Proof.
  assert (float_order ncmp) as Hord.
  { split; [intros [x|] [y|]; cbn; intuition congruence|]. intros [x|] [y|]; cbn; try done. by rewrite (Z.compare_antisym x y). }
  destruct (comparisons_and_casts_sound (option Z) ncmp Some env_cmp Hord) as (Hi & Hf & Hc & Hx & Hs).
  assert (32 ∈ widths) as H32 by (by vm_compute; right; right; right; left). assert (64 ∈ widths) as H64 by (vm_compute; set_solver).
  assert (reads ncmp Some env_cmp 32 (reg 0 32) 4294967295) as Ha by (by eexists). assert (reads ncmp Some env_cmp 32 (reg 1 32) 1) as Hb by (by eexists).
  split_and!.
  - by apply (Hi 32 ICMP_SLT _ _ 4294967295 1 true).
  - by apply (Hf false FCMP_ULT _ _ (Some 3) None true).
  - by apply (Hc CSExt 32 64 _ 4294967295).
  - by apply (Hx CSIToFP 32 _ 4294967295).
  - apply (Hs 32 (EBool true) _ _ true 4294967295 1); [done|by eexists|done..].
Defined.

(** Where the text is not LLVM's instruction. A product of 16-bit operands is computed in int after promotion: 65535 * 65535
    overflows, which C++ leaves undefined, while LLVM's product is 1. The signed type of a 1-bit integer is bool: a signed
    comparison finds true greater than false, where LLVM has -1 < 0, and a signed conversion to float gives 1, where
    LLVM's gives -1. *)
Theorem emitted_differs :
  (llvm_binary Mul 16 65535 65535 = Some 1 ∧
   assign zcmp id (env_at 16 65535 65535) (TyInt 16) (emitBinary 16 Mul (reg 0 16) (reg 1 16)) = None) ∧
  (icmp ICMP_SLT 1 (sext 1 1) (sext 1 0) = Some true ∧
   assign zcmp id (env_at 1 1 0) (TyInt 1) (emitICmp 1 ICMP_SLT (reg 0 1) (reg 1 1)) = Some (VI MBool 0)) ∧
  (llvm_cast CSIToFP 1 1 1 = -1 ∧
   assign zcmp id (env_at 1 1 0) TyFloat (emitCast CSIToFP (TyInt 1) TyFloat (reg 0 1)) = Some (VF 1)).
Proof. by vm_compute. Qed.
