(* ===== verification/MslLayout.v ===== *)
(** Memory layout of the Metal emitter (cpp/mvcc-llvm/msl_emitter.cpp): the shared objects of a kernel
    ([layoutSharedMemory]), its parameter block ([emitKernel]), the buffer of module-scope variables
    ([layoutGlobals], [serializeInit]) and what the runtime makes of that buffer when it loads it. *)
From stdpp Require Import sorting.
From S2P Require Import Prelude Cstd.
Open Scope Z_scope.

(** ** LLVM types and their layout *)
Inductive FP := Half | BFloat | Float | Double.
Definition fp_bits (k : FP) : Z := match k with Half | BFloat => 16 | Float => 32 | Double => 64 end.
#[warnings="-register-all"]
Inductive Ty := TInt (w : Z) | TFP (k : FP) | TPtr | TArray (n : Z) (T : Ty) | TVector (n : Z) (T : Ty) | TStruct (Ts : list Ty).
(** LLVM's [DataLayout]; the element offset of a structure is its [StructLayout]'s *)
Class DataLayout := {
  getTypeAllocSize : Ty → Z;
  getTypeStoreSize : Ty → Z;
  getABITypeAlign : Ty → Z;
  getElementOffset : list Ty → nat → Z;
}.

(** ** Constants *)
Inductive CastOp := AddrSpaceCast | BitCast | PtrToInt | IntToPtr.
#[warnings="-register-all"]
Inductive Constant :=
| CZero (T : Ty)                               (* ConstantAggregateZero, UndefValue, ConstantPointerNull *)
| CInt (w : Z) (z : Z)                         (* its zero-extended value *)
| CFP (k : FP) (z : Z)                         (* its bits *)
| CData (vec : bool) (T : Ty) (elems : list Z) (* ConstantDataSequential: array or vector *)
| CArray (T : Ty) (ops : list Constant)
| CVector (T : Ty) (ops : list Constant)
| CStruct (Ts : list Ty) (ops : list Constant)
| CGlobal (g : nat)
| CGEP (base : option nat) (ap : option Z)     (* the stripped base, if a global, and the constant offset, if one *)
| CCast (op : CastOp) (T : Ty) (c : Constant)
| CFunction
| COther.
Definition type_of (c : Constant) : Ty :=
  match c with
  | CZero T | CCast _ T _ => T
  | CInt w _ => TInt w
  | CFP k _ => TFP k
  | CData vec T es => (if vec then TVector else TArray) (Z.of_nat (length es)) T
  | CArray T ops => TArray (Z.of_nat (length ops)) T
  | CVector T ops => TVector (Z.of_nat (length ops)) T
  | CStruct Ts _ => TStruct Ts
  | CGlobal _ | CGEP _ _ | CFunction | COther => TPtr
  end.
(** the globals a constant's operands reach; a global is a leaf *)
Fixpoint globals_in (c : Constant) : list nat :=
  match c with
  | CGlobal g => [g]
  | CGEP (Some g) _ => [g]
  | CArray _ ops | CVector _ ops | CStruct _ ops => concat (globals_in <$> ops)
  | CCast _ _ c => globals_in c
  | _ => []
  end.

Record GlobalVariable := mkGV {
  gv_name : string;
  gv_AS : Z;                    (* getAddressSpace *)
  gv_constant : bool;
  gv_align : option Z;          (* MaybeAlign *)
  gv_type : Ty;
  gv_init : option Constant;    (* None: a declaration *)
}.
Definition AS_of (M : list GlobalVariable) (g : nat) : Z := match M !! g with Some GV => gv_AS GV | None => 0 end.
Definition found (M : list GlobalVariable) (gs : gset nat) : list (nat * GlobalVariable) := omap (λ g, GV ← M !! g; Some (g, GV)) (elements gs).
Definition round_up (n a : Z) : Z := (n + a - 1) / a * a.
(** the same on [unsigned] *)
Definition round_up32 (n a : Z) : Z := u32 (u32 (n + a - 1) / a * a).

Section layout.
Context `{DataLayout}.

(** ** Shared memory *)
Record SharedLayout := mkShared {
  smemOffsets : list (nat * Z);
  smemStatic : Z;
  smemDynamic : bool;
  tpScratchOff : Z;
  tpScratchPerSg : Z;
  tpScratchSgs : Z;
}.
(** a call: the name of its callee, whether its first two arguments are constant integers *)
Record Call := mkCall { callee : string; arg0_const : bool; arg1_const : bool }.
Definition kTpDefaultMaxThreads : Z := 256.
Definition name_le (a b : string) : Prop := Is_true (String.leb a b).
#[global] Instance name_le_dec a b : Decision (name_le a b).
Proof. unfold name_le. apply _. Defined.
(** the shared globals the operands of the instructions reach, by name *)
Definition shared_used (M : list GlobalVariable) (operands : list Constant) : list (nat * GlobalVariable) :=
  let used : gset nat := list_to_set (filter (λ g, AS_of M g = 3) (concat (globals_in <$> operands))) in
  merge_sort (λ a b, name_le (gv_name a.2) (gv_name b.2)) (found M used).
Definition isDyn (GV : GlobalVariable) : bool :=
  match gv_init GV with None => true | _ => match gv_type GV with TArray n _ => n =? 0 | _ => false end end.
Definition shared_align (GV : GlobalVariable) : Z := Z.max 16 (match gv_align GV with Some a => u32 a | None => 16 end).
Fixpoint place_shared (vec : list (nat * GlobalVariable)) (offs : list (nat * Z)) (top : Z) (dyn : option nat) :
    result string (list (nat * Z) * Z * option nat) :=
  match vec with
  | [] => Ok (offs, top, dyn)
  | (g, GV) :: vec =>
      if isDyn GV then
        match dyn with Some _ => Err "more than one extern __shared__ array"%string | None => place_shared vec offs top (Some g) end
      else
        let at_ := round_up32 top (shared_align GV) in
        place_shared vec (offs ++ [(g, at_)]) (u32 (at_ + u32 (getTypeAllocSize (gv_type GV)))) dyn
  end.
Definition converts (c : Call) : bool :=
  (starts (callee c) "__mvcc_tp_acc2ptx_" || starts (callee c) "__mvcc_tp_ptx2acc_") && arg0_const c && arg1_const c.
(** [maxThreads] is the launch bound (0: none), [onDynamic] the attribute that puts the scratch on the dynamic object *)
Definition layoutSharedMemory (M : list GlobalVariable) (operands : list Constant) (calls : list Call) (maxThreads : Z) (onDynamic : bool) :
    result string SharedLayout :=
  let* r := place_shared (shared_used M operands) [] 0 None in
  let '(offs, top, dyn) := r in
  let top := round_up32 top 16 in
  let perSg := if existsb converts calls then 8 * 16 * 4 else 0 in
  let sgs := if negb (perSg =? 0) then (if maxThreads =? 0 then kTpDefaultMaxThreads else maxThreads) / 32 else 0 in
  let '(off, top) :=
    if negb (perSg =? 0) then
      let top := Z.land (u32 (top + 15)) (u32 (Z.lnot 15)) in
      (top, if negb (bool_decide (is_Some dyn) && onDynamic) then u32 (top + u32 (perSg * sgs)) else top)
    else (0, top) in
  Ok (mkShared (offs ++ match dyn with Some g => [(g, top)] | None => [] end) top (bool_decide (is_Some dyn)) off perSg sgs).
(** the bound on the block size the kernel's record carries *)
Definition recoveredMaxThreads (L : SharedLayout) : Z := if negb (tpScratchPerSg L =? 0) then u32 (tpScratchSgs L * 32) else 0.

(** ** The parameter block *)
(** a parameter: passed by value in memory, or as a value *)
Inductive Argument := ByVal (T : Ty) (align : option Z) | Plain (T : Ty).
Record ParamABI := mkParam { p_kind : string; p_size : Z; p_align : Z; p_offset : Z }.
(** a field of the Metal structure: padding bytes, or a parameter *)
Inductive Field := FPad (idx n : Z) | FParam (idx : Z) (A : Argument).
Definition param_kind (A : Argument) : string :=
  match A with
  | ByVal _ _ => "struct"
  | Plain TPtr => "ptr"
  | Plain (TInt w) => if w =? 1 then "i8" else "i" +++ to_string w
  | Plain (TFP Half) => "f16"
  | Plain (TFP BFloat) => "bf16"
  | Plain (TFP Float) => "f32"
  | Plain _ => "struct"
  end.
Definition param_size (A : Argument) : Z :=
  match A with
  | ByVal T _ => u32 (getTypeAllocSize T)
  | Plain TPtr => 8
  | Plain (TInt w as T) => if w =? 1 then 1 else u32 (getTypeAllocSize T)
  | Plain T => u32 (getTypeAllocSize T)
  end.
Definition param_align (A : Argument) : Z :=
  match A with
  | ByVal T a => u32 (match a with Some a => a | None => getABITypeAlign T end)
  | Plain TPtr => 8
  | Plain (TInt w as T) => if w =? 1 then 1 else u32 (getABITypeAlign T)
  | Plain T => u32 (getABITypeAlign T)
  end.
Fixpoint place_params (args : list Argument) (off idx : Z) : list ParamABI * list Field * Z :=
  match args with
  | [] => ([], [], off)
  | A :: args =>
      let aligned := round_up32 off (param_align A) in
      let pad := if off <? aligned then [FPad idx (aligned - off)] else [] in
      let '(ps, fs, off') := place_params args (u32 (aligned + param_size A)) (idx + 1) in
      (mkParam (param_kind A) (param_size A) (param_align A) aligned :: ps, pad ++ FParam idx A :: fs, off')
  end.
(** the parameters, the fields and the size of the block; an empty block has one word *)
Definition paramBlock (args : list Argument) : list ParamABI * list Field * Z :=
  let '(ps, fs, off) := place_params args 0 0 in
  let size := round_up32 off 8 in (ps, fs, if size =? 0 then 8 else size).

(** ** Module-scope variables *)
Record GlobalsABI := mkGlobals {
  g_size : Z;
  init : list Z;                      (* bytes *)
  relocs : list (Z * Z);              (* slot, target *)
  symbols : list (string * (Z * Z));  (* name, offset, size *)
}.
(** which globals are in the buffer *)
Definition named_llvm (GV : GlobalVariable) : bool := starts (gv_name GV) "llvm.".
Definition refs (M : list GlobalVariable) (c : Constant) : list nat :=
  filter (λ g, AS_of M g = 4 ∨ AS_of M g = 1) (globals_in c).
Definition buffers (M : list GlobalVariable) (g : nat) (GV : GlobalVariable) : list nat :=
  if named_llvm GV then []
  else
    match gv_init GV with
    | None => []
    | Some c =>
        (if (gv_AS GV =? 1) || ((gv_AS GV =? 4) && negb (gv_constant GV)) then [g] else []) ++
        (if negb (bool_decide (globals_in c = [])) then g :: refs M c else [])
    end.
Definition buffered (M : list GlobalVariable) : gset nat := list_to_set (concat (imap (buffers M) M)).
(** larger alignment first, then by name *)
Definition global_align (GV : GlobalVariable) : Z :=
  Z.max (u32 (match gv_align GV with Some a => a | None => 1 end)) (u32 (getABITypeAlign (gv_type GV))).
Definition before (a b : nat * GlobalVariable) : Prop :=
  global_align b.2 < global_align a.2 ∨ global_align a.2 = global_align b.2 ∧ name_le (gv_name a.2) (gv_name b.2).
#[global] Instance before_dec a b : Decision (before a b).
Proof. unfold before. apply _. Defined.
Definition order (M : list GlobalVariable) : list (nat * GlobalVariable) :=
  merge_sort before (found M (buffered M)).
Fixpoint place_globals (vs : list (nat * GlobalVariable)) (off : Z) : list (nat * (Z * GlobalVariable)) * Z :=
  match vs with
  | [] => ([], off)
  | (g, GV) :: vs =>
      let at_ := round_up off (global_align GV) in
      let '(r, top) := place_globals vs (at_ + getTypeAllocSize (gv_type GV)) in
      ((g, (u32 at_, GV)) :: r, top)
  end.

(** *** Initializers *)
Inductive LayoutErr := Thrown (msg : string) | Undefined.
Definition State : Type := list Z * list (Z * Z).
(** [put]: little-endian; a write outside the vector is undefined *)
Fixpoint put (at_ v : Z) (bytes : nat) (out : list Z) : result LayoutErr (list Z) :=
  match bytes with
  | O => Ok out
  | S bytes =>
      if (0 <=? at_) && (at_ <? Z.of_nat (length out))
      then put (at_ + 1) (Z.shiftr v 8) bytes (<[Z.to_nat at_ := v mod 256]> out)
      else Err Undefined
  end.
Definition put_at (at_ v bytes : Z) (s : State) : result LayoutErr State :=
  let* out := put at_ v (Z.to_nat bytes) s.1 in Ok (out, s.2).
Definition not_buffered (M : list GlobalVariable) (g : nat) : result LayoutErr State :=
  Err (Thrown ("initializer points at global '" +++ (match M !! g with Some GV => gv_name GV | None => "" end) +++ "' which is not in the globals buffer")).

Section serialize.
Context (M : list GlobalVariable) (globalOffsets : gmap nat Z).
Fixpoint serializeInit (c : Constant) (off : Z) (s : State) {struct c} : result LayoutErr State :=
  let each (at_ : nat → Z) := fix each (i : nat) (ops : list Constant) (s : State) : result LayoutErr State :=
    match ops with
    | [] => Ok s
    | c :: ops => let* s := serializeInit c (off + at_ i) s in each (S i) ops s
    end in
  match c with
  | CZero _ => Ok s
  | CInt w z =>
      if 64 <? w then Err (Thrown "global initializer with an integer wider than 64 bits")
      else put_at off z (u32 (getTypeStoreSize (TInt w))) s
  | CFP k z => put_at off z (u32 (getTypeStoreSize (TFP k))) s
  | CData _ T es =>
      let esz := u32 (getTypeAllocSize T) in let essz := u32 (getTypeStoreSize T) in
      (fix data (i : nat) (es : list Z) (s : State) : result LayoutErr State :=
         match es with
         | [] => Ok s
         | e :: es => let* s := put_at (off + Z.of_nat i * esz) e essz s in data (S i) es s
         end) O es s
  | CArray T ops | CVector T ops => let esz := u32 (getTypeAllocSize T) in each (λ i, Z.of_nat i * esz) O ops s
  | CStruct Ts ops => each (getElementOffset Ts) O ops s
  | CGlobal g =>
      match globalOffsets !! g with None => not_buffered M g | Some o => Ok (s.1, s.2 ++ [(u32 off, o)]) end
  | CGEP base ap =>
      match ap with
      | None => Err (Thrown "initializer with a non-constant address computation")
      | Some ap =>
          match base with
          | None => Err (Thrown "initializer address not based on a global")
          | Some g => match globalOffsets !! g with None => not_buffered M g | Some o => Ok (s.1, s.2 ++ [(u32 off, u32 (o + u32 ap))]) end
          end
      end
  | CCast _ _ c => serializeInit c off s
  | CFunction => Err (Thrown "global initializer holds a function pointer (device function pointers are not supported)")
  | COther => Err (Thrown "unsupported global initializer")
  end.
Fixpoint initialise (vs : list (nat * (Z * GlobalVariable))) (s : State) : result LayoutErr State :=
  match vs with
  | [] => Ok s
  | (g, (off, GV)) :: vs =>
      match gv_init GV with
      | Some c => let* s := serializeInit c off s in initialise vs s
      | None => Err (Thrown ("module-scope variable '" +++ gv_name GV +++ "' has no initializer (external __device__ variables are not supported)"))
      end
  end.
End serialize.
Definition layoutGlobals (M : list GlobalVariable) : result LayoutErr (gmap nat Z * GlobalsABI) :=
  let vs := order M in
  if bool_decide (vs = []) then Ok (∅, mkGlobals 0 [] [] [])
  else
    let '(placed, top) := place_globals vs 0 in
    let globalOffsets := list_to_map ((λ p, (p.1, p.2.1)) <$> placed) in
    let size := u32 (round_up top 16) in
    let* s := initialise M globalOffsets placed (replicate (Z.to_nat size) 0, []) in
    Ok (globalOffsets, mkGlobals size s.1 s.2 ((λ p, (gv_name p.2.2, (p.2.1, u32 (getTypeAllocSize (gv_type p.2.2))))) <$> placed)).
End layout.

(** ** What the runtime loads *)
(** [crates/mvcc-cudart/src/runtime.rs]: every slot gets the address of the buffer plus the target, eight bytes *)
Definition byte_of (v k : Z) : Z := Z.shiftr v (8 * k) mod 256.
Definition patch (base : Z) (r : Z * Z) (j v : Z) : Z :=
  if (r.1 <=? j) && (j <? r.1 + 8) then byte_of (u64 (base + r.2)) (j - r.1) else v.
Definition patched (base : Z) (rs : list (Z * Z)) (j v : Z) : Z := fold_left (λ v r, patch base r j v) rs v.
Definition loaded (base : Z) (G : GlobalsABI) (j : Z) : Z := patched base (relocs G) j (init G !!! Z.to_nat j).
