(* ===== verification/MslDataLayout.v ===== *)
(** A concrete layout of LLVM types for MslLayout.v, that of the 64-bit targets: natural alignment, structures padded.
    It satisfies the laws the layout theorems ask of LLVM's [DataLayout] and lets their witnesses compute. *)
From S2P Require Import Prelude MslLayout.
Open Scope Z_scope.

(** the bits a scalar stands for *)
Definition bits (T : Ty) : Z := match T with TInt w => w | TFP k => fp_bits k | TPtr => 64 | _ => -1 end.
(** what LLVM documents of its layouts; vectors only where the elements fill their bytes *)
Class LayoutLaws `{DataLayout} := {
  store_alloc T : 0 <= getTypeStoreSize T <= getTypeAllocSize T;
  store_int w : 0 < w → getTypeStoreSize (TInt w) = (w + 7) / 8;
  store_fp k : getTypeStoreSize (TFP k) = fp_bits k / 8;
  alloc_ptr : getTypeAllocSize TPtr = 8;
  alloc_array n T : 0 <= n → getTypeAllocSize (TArray n T) = n * getTypeAllocSize T;
  alloc_vector n T : 0 <= n → bits T = 8 * getTypeAllocSize T → n * getTypeAllocSize T <= getTypeAllocSize (TVector n T);
  element_offset Ts i T : Ts !! i = Some T → 0 <= getElementOffset Ts i ∧
    getElementOffset Ts i + getTypeAllocSize T <= (if bool_decide (S i < length Ts)%nat then getElementOffset Ts (S i) else getTypeAllocSize (TStruct Ts));
  abi_align T : 0 < getABITypeAlign T < 2 ^ 32;
}.
Lemma round_up_multiple n a : 0 < a → n <= round_up n a < n + a ∧ (a | round_up n a).
Proof.
  intros Ha. unfold round_up. pose proof (Z.mod_pos_bound (n + a - 1) a Ha). pose proof (Z.div_mod (n + a - 1) a ltac:(lia)).
  split; [nia|]. apply Z.divide_factor_r.
Qed.

(** ** Sizes *)
Record Layout := mkLayout { l_store : Z; l_alloc : Z; l_align : Z }.
Definition pow2_up (n : Z) : Z := Z.min (2 ^ 16) (2 ^ Z.log2_up n).
Definition natural (b : Z) : Layout := mkLayout b (round_up b (pow2_up b)) (pow2_up b).
(** the offsets of the fields from [off] on, and their end *)
Fixpoint fields (ls : list Layout) (off : Z) : list Z * Z :=
  match ls with
  | [] => ([], off)
  | l :: ls => let o := round_up off (l_align l) in let r := fields ls (o + l_alloc l) in (o :: r.1, r.2)
  end.
Definition struct_layout (ls : list Layout) : Layout :=
  let a := foldr (λ l a, Z.max (l_align l) a) 1 ls in
  let size := round_up (fields ls 0).2 a in mkLayout size size a.
Fixpoint layout (T : Ty) : Layout :=
  match T with
  | TInt w => natural (Z.max 1 ((w + 7) / 8))
  | TFP k => natural (fp_bits k / 8)
  | TPtr => mkLayout 8 8 8
  | TArray n T => let l := layout T in mkLayout (Z.max 0 n * l_alloc l) (Z.max 0 n * l_alloc l) (l_align l)
  | TVector n T => natural (Z.max 0 n * l_alloc (layout T))
  | TStruct Ts => struct_layout (layout <$> Ts)
  end.
#[local] Instance natural_layout : DataLayout := {|
  getTypeAllocSize T := l_alloc (layout T);
  getTypeStoreSize T := l_store (layout T);
  getABITypeAlign T := l_align (layout T);
  getElementOffset Ts i := default 0 ((fields (layout <$> Ts) 0).1 !! i);
|}.

(** ** The laws *)
Definition good_layout (l : Layout) : Prop := 0 <= l_store l <= l_alloc l ∧ 0 < l_align l < 2 ^ 32.
Lemma pow2_up_pos n : 0 < pow2_up n < 2 ^ 32.
Proof. unfold pow2_up. assert (0 < 2 ^ Z.log2_up n) by (apply Z.pow_pos_nonneg; [lia|apply Z.log2_up_nonneg]). lia. Qed.
Lemma natural_good b : 0 <= b → good_layout (natural b).
Proof. intros Hb. pose proof (pow2_up_pos b). destruct (round_up_multiple b (pow2_up b)); [lia|]. unfold good_layout. cbn. lia. Qed.
Lemma fields_le ls : ∀ off, Forall good_layout ls → off <= (fields ls off).2.
Proof.
  induction ls as [|l ls IH]; intros off Hl; [done|]. apply Forall_cons in Hl as [[H1 H2] Hl]. cbn.
  destruct (round_up_multiple off (l_align l)); [lia|]. specialize (IH (round_up off (l_align l) + l_alloc l) Hl). lia.
Qed.
Lemma max_align ls : Forall good_layout ls → 0 < foldr (λ l a, Z.max (l_align l) a) 1 ls < 2 ^ 32.
Proof. induction 1 as [|l ls [_ Hl] _ IH]; cbn; lia. Qed.
Lemma struct_good ls : Forall good_layout ls → good_layout (struct_layout ls).
Proof.
  intros Hl. unfold struct_layout, good_layout. cbn. pose proof (max_align ls Hl) as Ha. pose proof (fields_le ls 0 Hl).
  destruct (round_up_multiple (fields ls 0).2 (foldr (λ l a, Z.max (l_align l) a) 1 ls)); lia.
Qed.
Lemma layout_good T : good_layout (layout T).
Proof.
  revert T. fix IH 1. intros [w|k| |n T|n T|Ts]; cbn [layout].
  - apply natural_good. lia.
  - apply natural_good. by destruct k.
  - unfold good_layout. cbn. lia.
  - destruct (IH T) as [H1 H2]. unfold good_layout. cbn. nia.
  - destruct (IH T) as [H1 H2]. apply natural_good. nia.
  - apply struct_good. induction Ts as [|T Ts IHT]; cbn; constructor; [apply IH|apply IHT].
Qed.
Lemma fields_at ls : ∀ off i l, Forall good_layout ls → ls !! i = Some l → ∃ o, (fields ls off).1 !! i = Some o ∧ off <= o ∧
  (if bool_decide (S i < length ls)%nat then ∃ o', (fields ls off).1 !! S i = Some o' ∧ o + l_alloc l <= o' else o + l_alloc l <= (fields ls off).2).
Proof.
  induction ls as [|l0 ls IH]; intros off i l Hl Hi; [done|]. apply Forall_cons in Hl as [[H1 H2] Hl].
  destruct (round_up_multiple off (l_align l0)) as [Hr _]; [lia|]. set (off' := round_up off (l_align l0) + l_alloc l0). cbn [fields fst snd length]. fold off'.
  destruct i as [|i]; cbn in Hi.
  - injection Hi as <-. exists (round_up off (l_align l0)). cbn. split; [done|]. split; [lia|]. destruct ls as [|l1 ls].
    + rewrite bool_decide_eq_false_2 by (cbn; lia). cbn. unfold off'. lia.
    + rewrite bool_decide_eq_true_2 by (cbn; lia). destruct (IH off' O l1 Hl eq_refl) as (o' & E & Ho & _). exists o'. split; [done|]. unfold off' in Ho. lia.
  - destruct (IH off' i l Hl Hi) as (o & E & Ho & Hn). exists o. cbn. split; [done|]. split; [unfold off' in Ho; lia|].
    case_bool_decide as Hb; case_bool_decide as Hb'; try lia; done.
Qed.
#[local] Instance natural_laws : LayoutLaws.
Proof.
  split.
  - intros T. apply (layout_good T).
  - intros w Hw. cbn. pose proof (Z.div_le_lower_bound (w + 7) 8 1). lia.
  - by intros [].
  - done.
  - intros n T Hn. cbn. f_equal. lia.
  - intros n T Hn _. cbn. destruct (layout_good T) as [H1 _]. destruct (round_up_multiple (Z.max 0 n * l_alloc (layout T)) (pow2_up (Z.max 0 n * l_alloc (layout T)))) as [Hr _];
      [apply pow2_up_pos|]. nia.
  - intros Ts i T Hi. assert (Forall good_layout (layout <$> Ts)) as Hg by (apply Forall_fmap, Forall_true; intros; apply layout_good).
    destruct (fields_at (layout <$> Ts) 0 i (layout T) Hg) as (o & E & Ho & Hn); [by rewrite list_lookup_fmap, Hi|].
    rewrite length_fmap in Hn. cbn [getElementOffset natural_layout]. rewrite E. cbn [default from_option id]. split; [done|]. case_bool_decide.
    + destruct Hn as (o' & -> & Hn). done.
    + cbn. unfold struct_layout. cbn. pose proof (max_align _ Hg).
      destruct (round_up_multiple (fields (layout <$> Ts) 0).2 (foldr (λ l a, Z.max (l_align l) a) 1 (layout <$> Ts))) as [Hr _]; [lia|]. lia.
  - intros T. apply (layout_good T).
Qed.
