(* ===== verification/MslLayoutThm.v ===== *)
(** What the layouts of MslLayout.v give: every object of a kernel and every module-scope variable has a place of its
    own, aligned and inside the buffer, and the bytes the runtime loads are the variable's initial value. *)
From stdpp Require Import sorting.
From S2P Require Import Prelude Cstd MslLayout MslDataLayout.
Open Scope Z_scope.

(** ** Bytes *)
Abbreviation byte_at out j := ((out : list Z) !!! Z.to_nat j).
Lemma byte_of_next v k : 0 <= k → byte_of (Z.shiftr v 8) k = byte_of v (k + 1).
Proof. intros Hk. unfold byte_of. rewrite Z.shiftr_shiftr by lia. do 2 f_equal. lia. Qed.
Lemma byte_of_small v k n : 0 <= v < 2 ^ (8 * n) → n <= k → byte_of v k = 0.
Proof.
  intros Hv Hk. unfold byte_of. destruct (decide (0 <= n)).
  - rewrite Z.shiftr_div_pow2 by lia. rewrite Z.div_small; [done|]. split; [lia|]. eapply Z.lt_le_trans; [apply Hv|].
    apply Z.pow_le_mono_r; lia.
  - rewrite Z.pow_neg_r in Hv by lia. lia.
Qed.
Lemma put_ok n : ∀ at_ v out, 0 <= at_ → at_ + Z.of_nat n <= Z.of_nat (length out) →
  ∃ out', put at_ v n out = Ok out' ∧ length out' = length out ∧
    ∀ j, 0 <= j → byte_at out' j = if (at_ <=? j) && (j <? at_ + Z.of_nat n) then byte_of v (j - at_) else byte_at out j.
Proof.
  induction n as [|n IH]; intros at_ v out Ha Hl.
  - exists out. split_and!; [done..|]. intros j Hj. destruct (Z.leb_spec at_ j), (Z.ltb_spec j (at_ + Z.of_nat 0)); cbn [andb]; lia || done.
  - cbn [put]. destruct (Z.leb_spec 0 at_); [|lia]. destruct (Z.ltb_spec at_ (Z.of_nat (length out))); [|lia]. cbn [andb].
    destruct (IH (at_ + 1) (Z.shiftr v 8) (<[Z.to_nat at_ := v mod 256]> out)) as (out' & E & El & Ej); [lia|rewrite length_insert; lia|].
    exists out'. split; [done|]. rewrite length_insert in El. split; [done|]. intros j Hj. rewrite Ej by done.
    destruct (decide (j = at_)) as [->|Hne].
    + destruct (Z.leb_spec (at_ + 1) at_); [lia|]. cbn [andb]. rewrite list_lookup_total_insert_eq by lia.
      destruct (Z.leb_spec at_ at_), (Z.ltb_spec at_ (at_ + Z.of_nat (S n))); cbn [andb]; try lia.
      unfold byte_of. rewrite Z.sub_diag. cbn. by rewrite Z.shiftr_0_r.
    + rewrite list_lookup_total_insert_ne by lia.
      destruct (Z.leb_spec (at_ + 1) j), (Z.leb_spec at_ j), (Z.ltb_spec j (at_ + 1 + Z.of_nat n)), (Z.ltb_spec j (at_ + Z.of_nat (S n))); cbn [andb];
        try lia; try done. rewrite byte_of_next by lia. f_equal. lia.
Qed.
Lemma put_at_ok at_ v n (s : State) : 0 <= at_ → 0 <= n → at_ + n <= Z.of_nat (length s.1) →
  ∃ out', put_at at_ v n s = Ok (out', s.2) ∧ length out' = length s.1 ∧
    ∀ j, 0 <= j → byte_at out' j = if (at_ <=? j) && (j <? at_ + n) then byte_of v (j - at_) else byte_at s.1 j.
Proof.
  intros Ha Hn Hl. destruct (put_ok (Z.to_nat n) at_ v s.1) as (out' & E & El & Ej); [done|lia|].
  exists out'. unfold put_at. rewrite E. split_and!; [done..|]. intros j Hj. rewrite Ej by done. by rewrite Z2Nat.id.
Qed.

(** *** Relocations *)
Definition slots_in (rs : list (Z * Z)) (lo hi : Z) : Prop := ∀ r, r ∈ rs → lo <= r.1 ∧ r.1 + 8 <= hi.
Lemma patched_app base rs rs' j v : patched base (rs ++ rs') j v = patched base rs' j (patched base rs j v).
Proof. apply fold_left_app. Qed.
Lemma patched_outside base rs lo hi j v : slots_in rs lo hi → ¬ (lo <= j < hi) → patched base rs j v = v.
Proof.
  revert v. induction rs as [|r rs IH]; intros v Hs Hj; [done|].
  destruct (Hs r) as [H1 H2]; [left|]. change (patched base rs j (patch base r j v) = v).
  rewrite IH; [|intros r' Hr'; apply Hs; by right|done]. unfold patch.
  destruct (Z.leb_spec r.1 j), (Z.ltb_spec j (r.1 + 8)); cbn [andb]; lia || done.
Qed.
Lemma slots_in_mono rs lo hi lo' hi' : slots_in rs lo hi → lo' <= lo → hi <= hi' → slots_in rs lo' hi'.
Proof. intros Hs H1 H2 r Hr. destruct (Hs r Hr). lia. Qed.
Lemma slots_in_app rs rs' lo hi : slots_in rs lo hi → slots_in rs' lo hi → slots_in (rs ++ rs') lo hi.
Proof. intros H1 H2 r [Hr|Hr]%elem_of_app; auto. Qed.

(** ** The image of a constant *)
Section image.
Context `{LayoutLaws}.
Abbreviation alloc := getTypeAllocSize.
Abbreviation store := getTypeStoreSize.
Abbreviation extent c := (alloc (type_of c)).
(** LLVM's bytes of a constant in memory, little-endian, zero where a type has padding, when global [g] is at [addr g] *)
Fixpoint image (addr : nat → Z) (c : Constant) (k : Z) : Z :=
  let part (at_ : nat → Z) := fix part (i : nat) (ops : list Constant) : Z :=
    match ops with
    | [] => 0
    | c :: ops => if (at_ i <=? k) && (k <? at_ i + extent c) then image addr c (k - at_ i) else part (S i) ops
    end in
  match c with
  | CInt _ z | CFP _ z => byte_of z k
  | CData _ T es => match es !! Z.to_nat (k / alloc T) with Some e => byte_of e (k mod alloc T) | None => 0 end
  | CArray T ops | CVector T ops => part (λ i, Z.of_nat i * alloc T) O ops
  | CStruct Ts ops => part (getElementOffset Ts) O ops
  | CGlobal g => byte_of (u64 (addr g)) k
  | CGEP (Some g) (Some ap) => byte_of (u64 (addr g + ap)) k
  | CCast _ _ c => image addr c k
  | _ => 0
  end.
Definition part (addr : nat → Z) (k : Z) (at_ : nat → Z) := fix part (i : nat) (ops : list Constant) : Z :=
  match ops with
  | [] => 0
  | c :: ops => if (at_ i <=? k) && (k <? at_ i + extent c) then image addr c (k - at_ i) else part (S i) ops
  end.

(** constants LLVM accepts, of the forms the buffer can hold; pointers point where [target] allows *)
Definition exact (T : Ty) : Prop := bits T = 8 * alloc T.
Fixpoint wf_constant (target : nat → Z → Prop) (c : Constant) : Prop :=
  let all := fix all (T : nat → option Ty) (i : nat) (ops : list Constant) : Prop :=
    match ops with [] => True | c :: ops => (T i = Some (type_of c) ∧ wf_constant target c) ∧ all T (S i) ops end in
  match c with
  | CZero _ => True
  | CInt w z => 0 < w <= 64 ∧ 0 <= z < 2 ^ w
  | CFP k z => 0 <= z < 2 ^ fp_bits k
  | CData vec T es => 0 < alloc T < 2 ^ 32 ∧ exact T ∧ store T = alloc T ∧ ∀ e, e ∈ es → 0 <= e < 2 ^ (8 * alloc T)
  | CArray T ops => alloc T < 2 ^ 32 ∧ all (λ _, Some T) O ops
  | CVector T ops => alloc T < 2 ^ 32 ∧ exact T ∧ all (λ _, Some T) O ops
  | CStruct Ts ops => length ops = length Ts ∧ all (λ i, Ts !! i) O ops
  | CGlobal g => target g 0
  | CGEP (Some g) (Some ap) => target g ap
  | CCast _ T c => extent c <= alloc T ∧ wf_constant target c
  | _ => False
  end.
Definition wf_each (target : nat → Z → Prop) := fix all (T : nat → option Ty) (i : nat) (ops : list Constant) : Prop :=
  match ops with [] => True | c :: ops => (T i = Some (type_of c) ∧ wf_constant target c) ∧ all T (S i) ops end.
(** induction on constants, with the hypothesis for every operand *)
Lemma constant_ind (P : Constant → Prop) :
  (∀ T, P (CZero T)) → (∀ w z, P (CInt w z)) → (∀ k z, P (CFP k z)) → (∀ v T es, P (CData v T es)) →
  (∀ T ops, Forall P ops → P (CArray T ops)) → (∀ T ops, Forall P ops → P (CVector T ops)) → (∀ Ts ops, Forall P ops → P (CStruct Ts ops)) →
  (∀ g, P (CGlobal g)) → (∀ b ap, P (CGEP b ap)) → (∀ op T c, P c → P (CCast op T c)) → P CFunction → P COther → ∀ c, P c.
Proof.
  intros H1 H2 H3 H4 H5 H6 H7 H8 H9 H10 H11 H12. fix IH 1.
  assert (∀ ops, Forall P ops) as Hall by (fix all 1; intros [|c ops]; constructor; [apply IH|apply all]).
  intros []; [apply H1|apply H2|apply H3|apply H4|apply H5, Hall|apply H6, Hall|apply H7, Hall|apply H8|apply H9|apply H10, IH|apply H11|apply H12].
Qed.
Lemma wf_each_mono (p q : nat → Z → Prop) ops : Forall (λ c, (∀ g ap, g ∈ globals_in c → p g ap → q g ap) → wf_constant p c → wf_constant q c) ops →
  (∀ g ap, g ∈ concat (globals_in <$> ops) → p g ap → q g ap) → ∀ T i, wf_each p T i ops → wf_each q T i ops.
Proof.
  induction 1 as [|c ops Hc _ IH]; intros Hpq T i Hw; [done|]. destruct Hw as [[Ht Hw] Hws]. cbn in Hpq.
  split; [split; [done|]|].
  - apply Hc; [|done]. intros g ap Hg. apply Hpq, elem_of_app. by left.
  - apply IH; [|done]. intros g ap Hg. apply Hpq, elem_of_app. by right.
Qed.
Lemma wf_constant_mono (p q : nat → Z → Prop) c : (∀ g ap, g ∈ globals_in c → p g ap → q g ap) → wf_constant p c → wf_constant q c.
Proof.
  induction c using constant_ind; intros Hpq Hw; try done.
  - destruct Hw as [Ha Hw]. split; [done|]. eapply wf_each_mono; eauto.
  - destruct Hw as (Ha & He & Hw). split_and!; [done..|]. eapply wf_each_mono; eauto.
  - destruct Hw as [Ha Hw]. split; [done|]. eapply wf_each_mono; eauto.
  - apply Hpq; [left|done].
  - destruct b, ap; try done. apply Hpq; [left|done].
  - destruct Hw as [Hc Hw]. split; [done|]. by apply IHc.
Qed.

Context (M : list GlobalVariable) (offs : gmap nat Z).
(** where a pointer of the buffer points: the relocation's target is 32 bits wide *)
Definition target_ok (g : nat) (ap : Z) : Prop := ∃ o, offs !! g = Some o ∧ 0 <= o + sext 64 ap < 2 ^ 32.
Abbreviation wf_const := (wf_constant target_ok).
Abbreviation wf_all := (wf_each target_ok).

(** ** Filling a region *)
Context (base : Z).
Definition addr (g : nat) : Z := base + default 0 (offs !! g).
Definition zero (s : State) (lo hi : Z) : Prop := ∀ j, lo <= j < hi → byte_at s.1 j = 0.
(** [s'] is [s] with the bytes of [lo, hi) written, which load as [img] *)
Definition filled (lo hi : Z) (img : Z → Z) (s s' : State) : Prop :=
  ∃ rs, s'.2 = s.2 ++ rs ∧ slots_in rs lo hi ∧ length s'.1 = length s.1 ∧
    (∀ j, 0 <= j → ¬ (lo <= j < hi) → byte_at s'.1 j = byte_at s.1 j) ∧
    ∀ j, lo <= j < hi → patched base rs j (byte_at s'.1 j) = img j.
Lemma filled_length lo hi img s s' : filled lo hi img s s' → length s'.1 = length s.1.
Proof. by intros (rs & _ & _ & ? & _). Qed.
Lemma filled_nothing lo hi img s : 0 <= lo → zero s lo hi → (∀ j, lo <= j < hi → img j = 0) → filled lo hi img s s.
Proof.
  intros Hlo Hz Hi. exists []. rewrite app_nil_r. split_and!; [done|by intros r Hr%elem_of_nil|done..|].
  intros j Hj. cbn. rewrite Hz, Hi by done. done.
Qed.
Lemma filled_zero lo hi img s s' lo' hi' : filled lo hi img s s' → 0 <= lo' → hi <= lo' → zero s lo' hi' → zero s' lo' hi'.
Proof. intros (rs & _ & _ & _ & Ho & _) Hlo' Hd Hz j Hj. rewrite Ho by lia. by apply Hz. Qed.
Lemma filled_ext lo hi f g s s' : filled lo hi f s s' → (∀ j, lo <= j < hi → f j = g j) → filled lo hi g s s'.
Proof. intros (rs & H1 & H2 & H3 & H4 & H5) Hfg. exists rs. split_and!; [done..|]. intros j Hj. rewrite H5 by done. by apply Hfg. Qed.
Lemma filled_seq lo hi lo1 hi1 lo2 hi2 f g h s s1 s2 :
  0 <= lo <= lo1 → lo1 <= hi1 <= lo2 → lo2 <= hi2 <= hi → zero s lo hi → filled lo1 hi1 f s s1 → filled lo2 hi2 g s1 s2 →
  (∀ j, lo1 <= j < hi1 → h j = f j) → (∀ j, lo2 <= j < hi2 → h j = g j) →
  (∀ j, lo <= j < hi → ¬ (lo1 <= j < hi1) → ¬ (lo2 <= j < hi2) → h j = 0) → filled lo hi h s s2.
Proof.
  intros H1 H2 H3 Hz (rs1 & E1 & S1 & L1 & O1 & I1) (rs2 & E2 & S2 & L2 & O2 & I2) Hf Hg Hrest.
  exists (rs1 ++ rs2). rewrite E2, E1, app_assoc. split_and!; [done| |congruence| |].
  - apply slots_in_app; eapply slots_in_mono; eauto; lia.
  - intros j Hj Hn. rewrite O2, O1 by lia. done.
  - intros j Hj. rewrite patched_app. destruct (decide (lo1 <= j < hi1)).
    + rewrite O2 by lia. rewrite I1, Hf by done. eapply patched_outside; [done|lia].
    + rewrite (patched_outside base rs1 lo1 hi1) by done. destruct (decide (lo2 <= j < hi2)); [rewrite I2, Hg by done; done|].
      rewrite (patched_outside base rs2 lo2 hi2) by done. rewrite O2, O1 by lia. rewrite Hz, Hrest by done. done.
Qed.
Lemma put_filled off v n m img s : 0 <= off → 0 <= n <= m → off + m <= Z.of_nat (length s.1) → zero s off (off + m) →
  (∀ j, off <= j < off + m → img j = byte_of v (j - off)) → (∀ k, n <= k → byte_of v k = 0) →
  ∃ s', put_at off v n s = Ok s' ∧ filled off (off + m) img s s'.
Proof.
  intros Hoff Hn Hl Hz Hi Hv. destruct (put_at_ok off v n s Hoff) as (out' & E & El & Ej); [lia..|].
  exists (out', s.2). split; [done|]. exists []. rewrite app_nil_r. split_and!; [done|by intros r Hr%elem_of_nil|done| |]; cbn [fst].
  - intros j Hj Hn'. rewrite Ej by done. destruct (Z.leb_spec off j), (Z.ltb_spec j (off + n)); cbn [andb]; lia || done.
  - intros j Hj. cbn. rewrite Ej, Hi by lia. destruct (Z.leb_spec off j), (Z.ltb_spec j (off + n)); cbn [andb]; try lia.
    rewrite Hv by lia. by apply Hz.
Qed.
Lemma reloc_filled off t s : 0 <= off → off < 2 ^ 32 → zero s off (off + 8) →
  filled off (off + 8) (λ j, byte_of (u64 (base + t)) (j - off)) s (s.1, s.2 ++ [(u32 off, t)]).
Proof.
  intros Hoff Hl Hz. exists [(u32 off, t)]. unfold u32. rewrite Z.mod_small by lia. split_and!; [done| |done..|].
  - intros r Hr%list_elem_of_singleton. subst r. cbn. lia.
  - intros j Hj. cbn. unfold patch. cbn [fst snd]. destruct (Z.leb_spec off j), (Z.ltb_spec j (off + 8)); cbn [andb]; lia || done.
Qed.

(** ** Parts of an aggregate *)
(** the parts [ops] from number [i] on lie in order between [lo] and [hi] *)
Fixpoint spaced (at_ : nat → Z) (i : nat) (lo : Z) (ops : list Constant) (hi : Z) : Prop :=
  match ops with [] => lo <= hi | c :: ops => lo <= at_ i ∧ spaced at_ (S i) (at_ i + extent c) ops hi end.
Lemma extent_nonneg T : 0 <= alloc T.
Proof. pose proof (store_alloc T). lia. Qed.
Lemma spaced_le at_ ops : ∀ i lo hi, spaced at_ i lo ops hi → lo <= hi.
Proof.
  induction ops as [|c ops IH]; intros i lo hi Hs; [done|]. destruct Hs as [H1 H2]. apply IH in H2. pose proof (extent_nonneg (type_of c)). lia.
Qed.
Lemma part_before a k at_ ops : ∀ i lo hi, spaced at_ i lo ops hi → k < lo → part a k at_ i ops = 0.
Proof.
  induction ops as [|c ops IH]; intros i lo hi Hs Hk; [done|]. destruct Hs as [H1 H2]. cbn [part].
  destruct (Z.leb_spec (at_ i) k), (Z.ltb_spec k (at_ i + extent c)); cbn [andb]; try lia.
  all: eapply IH; [done|]; pose proof (extent_nonneg (type_of c)); lia.
Qed.
Lemma spaced_array T ops : ∀ i lo hi, wf_all (λ _, Some T) i ops → lo <= Z.of_nat i * alloc T → (Z.of_nat i + Z.of_nat (length ops)) * alloc T <= hi →
  spaced (λ i, Z.of_nat i * alloc T) i lo ops hi.
Proof.
  induction ops as [|c ops IH]; intros i lo hi Hw Hlo Hhi; [cbn in *; nia|]. destruct Hw as [[[= Ht] _] Hw]. split; [done|].
  apply IH; [done|rewrite <- Ht; lia|]. cbn [length] in Hhi. nia.
Qed.
Lemma spaced_struct Ts ops : ∀ i lo, wf_all (λ i, Ts !! i) i ops → (i + length ops)%nat = length Ts →
  lo <= (if bool_decide (i < length Ts)%nat then getElementOffset Ts i else alloc (TStruct Ts)) →
  spaced (getElementOffset Ts) i lo ops (alloc (TStruct Ts)).
Proof.
  induction ops as [|c ops IH]; intros i lo Hw Hl Hlo; cbn [length] in Hl.
  - cbn. by rewrite bool_decide_eq_false_2 in Hlo by lia.
  - destruct Hw as [[Ht _] Hw]. rewrite bool_decide_eq_true_2 in Hlo by lia. split; [done|]. apply IH; [done|lia|].
    by destruct (element_offset Ts i _ Ht).
Qed.

(** ** One initializer *)
Definition each (at_ : nat → Z) (off : Z) := fix each (i : nat) (ops : list Constant) (s : State) : result LayoutErr State :=
  match ops with
  | [] => Ok s
  | c :: ops => let* s := serializeInit M offs c (off + at_ i) s in each (S i) ops s
  end.
(** what serializing [c] at [off] has to do *)
Definition serialized (c : Constant) : Prop := ∀ off s, wf_const c → 0 <= off → off + extent c <= Z.of_nat (length s.1) → Z.of_nat (length s.1) <= 2 ^ 32 →
  zero s off (off + extent c) →
  ∃ s', serializeInit M offs c off s = Ok s' ∧ filled off (off + extent c) (λ j, image addr c (j - off)) s s'.
Lemma each_filled T at_ ops : ∀ i lo hi off s, Forall serialized ops → wf_all T i ops → spaced at_ i lo ops hi →
  0 <= off → 0 <= lo → off + hi <= Z.of_nat (length s.1) → Z.of_nat (length s.1) <= 2 ^ 32 → zero s (off + lo) (off + hi) →
  ∃ s', each at_ off i ops s = Ok s' ∧ filled (off + lo) (off + hi) (λ j, part addr (j - off) at_ i ops) s s'.
Proof.
  induction ops as [|c ops IH]; intros i lo hi off s HP Hw Hs Hoff Hlo Hl Hl32 Hz.
  - exists s. split; [done|]. apply filled_nothing; [lia|done|done].
  - apply Forall_cons in HP as [HPc HP]. destruct Hw as [[_ Hwc] Hw], Hs as [Hs1 Hs]. pose proof (spaced_le _ _ _ _ _ Hs) as Hle.
    pose proof (extent_nonneg (type_of c)) as He.
    destruct (HPc (off + at_ i) s Hwc) as (s1 & E1 & F1); [lia..| |]. { intros j Hj. apply Hz. lia. }
    pose proof (filled_length _ _ _ _ _ F1) as L1.
    destruct (IH (S i) (at_ i + extent c) hi off s1 HP Hw Hs) as (s2 & E2 & F2); [lia..| |].
    { apply (filled_zero _ _ _ _ _ _ _ F1); [lia..|]. intros j Hj. apply Hz. lia. }
    exists s2. cbn [each]. rewrite E1. cbn [rbind]. split; [done|].
    eapply (filled_seq (off + lo) (off + hi) (off + at_ i) (off + at_ i + extent c) (off + (at_ i + extent c)) (off + hi)); try done; try lia.
    + intros j Hj. cbn [part]. destruct (Z.leb_spec (at_ i) (j - off)), (Z.ltb_spec (j - off) (at_ i + extent c)); cbn [andb]; try lia.
      f_equal. lia.
    + intros j Hj. cbn [part]. destruct (Z.leb_spec (at_ i) (j - off)), (Z.ltb_spec (j - off) (at_ i + extent c)); cbn [andb]; lia || done.
    + intros j Hj H1 H2. cbn [part]. destruct (Z.leb_spec (at_ i) (j - off)), (Z.ltb_spec (j - off) (at_ i + extent c)); cbn [andb]; try lia.
      eapply part_before; [done|lia].
Qed.
Definition data (off esz essz : Z) := fix data (i : nat) (es : list Z) (s : State) : result LayoutErr State :=
  match es with
  | [] => Ok s
  | e :: es => let* s := put_at (off + Z.of_nat i * esz) e essz s in data (S i) es s
  end.
Lemma data_filled off a es : ∀ i s, 0 < a → (∀ e, e ∈ es → 0 <= e < 2 ^ (8 * a)) → 0 <= off → off + (Z.of_nat i + Z.of_nat (length es)) * a <= Z.of_nat (length s.1) →
  zero s (off + Z.of_nat i * a) (off + (Z.of_nat i + Z.of_nat (length es)) * a) →
  ∃ s', data off a a i es s = Ok s' ∧ filled (off + Z.of_nat i * a) (off + (Z.of_nat i + Z.of_nat (length es)) * a)
    (λ j, match es !! Z.to_nat ((j - off) / a - Z.of_nat i) with Some e => byte_of e ((j - off) mod a) | None => 0 end) s s'.
Proof.
  induction es as [|e es IH]; intros i s Ha He Hoff Hl Hz.
  - exists s. split; [done|]. apply filled_nothing; [nia|done|]. intros j Hj. cbn in Hj. lia.
  - cbn [length] in *. set (p := off + Z.of_nat i * a). assert (p + a <= off + (Z.of_nat i + Z.of_nat (S (length es))) * a) as Hp by (unfold p; nia).
    destruct (put_filled p e a a (λ j, byte_of e (j - p)) s) as (s1 & E1 & F1); [unfold p; nia|lia|unfold p in *; lia| |done| |].
    { intros j Hj. apply Hz. fold p. lia. } { intros k Hk. apply (byte_of_small e k a); [apply He; left|done]. }
    pose proof (filled_length _ _ _ _ _ F1) as L1.
    destruct (IH (S i) s1 Ha) as (s2 & E2 & F2); [intros x Hx; apply He; by right|done|rewrite L1; lia| |].
    { apply (filled_zero _ _ _ _ _ _ _ F1); [nia|unfold p; lia|]. intros j Hj. apply Hz. nia. }
    exists s2. cbn [data]. fold p. rewrite E1. cbn [rbind]. split; [done|].
    replace (off + (Z.of_nat (S i) + Z.of_nat (length es)) * a) with (off + (Z.of_nat i + Z.of_nat (S (length es))) * a) in F2 by lia.
    eapply (filled_seq p _ p (p + a) (off + Z.of_nat (S i) * a) (off + (Z.of_nat i + Z.of_nat (S (length es))) * a));
      [unfold p; nia|unfold p; lia|unfold p in *; nia|done|done|done| | |].
    + intros j Hj. assert ((j - off) / a = Z.of_nat i) as -> by (symmetry; apply (Z.div_unique_pos _ _ _ (j - p)); unfold p in *; lia).
      rewrite Z.sub_diag. cbn. f_equal. symmetry. apply (Z.mod_unique_pos _ _ (Z.of_nat i)); unfold p in *; lia.
    + intros j Hj. assert (Z.of_nat (S i) <= (j - off) / a) by (apply Z.div_le_lower_bound; lia).
      replace (Z.to_nat ((j - off) / a - Z.of_nat i)) with (S (Z.to_nat ((j - off) / a - Z.of_nat (S i)))) by lia. done.
    + intros j Hj H1 H2. unfold p in *. lia.
Qed.
Lemma filled_widen lo mid hi img s s' : 0 <= lo <= mid → mid <= hi → zero s lo hi → filled lo mid img s s' →
  (∀ j, mid <= j < hi → img j = 0) → filled lo hi img s s'.
Proof.
  intros H1 H2 Hz Hf Hi. eapply (filled_seq lo hi lo mid hi hi img img img s s' s'); try done; try lia.
  - apply filled_nothing; [lia| |intros; lia]. intros j Hj. lia.
  - intros j Hj Hn _. apply Hi. lia.
Qed.
Lemma int_store w z : 0 < w <= 64 → 0 <= z < 2 ^ w → u32 (store (TInt w)) = store (TInt w) ∧ 0 <= z < 2 ^ (8 * store (TInt w)).
Proof.
  intros Hw Hz. rewrite store_int by lia. pose proof (Z.mod_pos_bound (w + 7) 8 ltac:(lia)). pose proof (Z.div_mod (w + 7) 8 ltac:(lia)).
  split; [unfold u32; apply Z.mod_small; lia|]. split; [lia|]. apply (Z.lt_le_trans _ (2 ^ w)); [apply Hz|]. apply Z.pow_le_mono_r; lia.
Qed.
Lemma fp_store k z : 0 <= z < 2 ^ fp_bits k → u32 (store (TFP k)) = store (TFP k) ∧ 0 <= z < 2 ^ (8 * store (TFP k)).
Proof. intros Hz. rewrite store_fp. by destruct k. Qed.
Lemma data_extent vec T es : 0 < alloc T → exact T → Z.of_nat (length es) * alloc T <= extent (CData vec T es).
Proof. intros Ha He. destruct vec; cbn; [apply alloc_vector; [lia|done]|rewrite alloc_array; lia]. Qed.
Lemma parts_spaced c T at_ ops : wf_const c → (c = CArray T ops ∨ c = CVector T ops) ∧ at_ = (λ i, Z.of_nat i * alloc T) →
  spaced at_ 0 0 ops (extent c) ∧ wf_all (λ _, Some T) 0 ops ∧ alloc T < 2 ^ 32.
Proof.
  intros Hw [[-> | ->] ->]; cbn in Hw.
  - destruct Hw as [H1 H2]. split_and!; [|done..]. apply spaced_array; [done|lia|]. cbn [type_of]. rewrite alloc_array; lia.
  - destruct Hw as (H1 & He & H2). split_and!; [|done..]. apply spaced_array; [done|lia|]. cbn [type_of].
    pose proof (alloc_vector (Z.of_nat (length ops)) T ltac:(lia) He). lia.
Qed.
Lemma struct_spaced Ts ops : wf_const (CStruct Ts ops) → spaced (getElementOffset Ts) 0 0 ops (alloc (TStruct Ts)) ∧ wf_all (λ i, Ts !! i) 0 ops.
Proof.
  intros [Hl Hw]. split; [|done]. apply spaced_struct; [done|lia|]. case_bool_decide as Hb; [|apply extent_nonneg].
  destruct (Ts !! O) eqn:E; [by destruct (element_offset Ts 0 _ E)|]. apply lookup_ge_None in E. lia.
Qed.
(** nothing is written past the type of a constant *)
Lemma part_after a k at_ ops : ∀ i lo hi, spaced at_ i lo ops hi → hi <= k → part a k at_ i ops = 0.
Proof.
  induction ops as [|c ops IH]; intros i lo hi Hs Hk; [done|]. destruct Hs as [H1 H2]. pose proof (spaced_le _ _ _ _ _ H2). cbn [part].
  destruct (Z.leb_spec (at_ i) k), (Z.ltb_spec k (at_ i + extent c)); cbn [andb]; try lia; by eapply IH.
Qed.
Lemma image_after a c : ∀ k, wf_const c → extent c <= k → image a c k = 0.
Proof.
  induction c using constant_ind; intros j Hw Hk; pose proof (extent_nonneg (type_of c)) as Hn || idtac; cbn [type_of] in Hk; try done.
  - destruct Hw as [Hw Hz]. destruct (int_store w z Hw Hz) as [_ Hb]. pose proof (store_alloc (TInt w)). apply (byte_of_small _ _ _ Hb). lia.
  - destruct (fp_store k z Hw) as [_ Hb]. pose proof (store_alloc (TFP k)). apply (byte_of_small _ _ _ Hb). lia.
  - destruct Hw as (Ha & He & _). pose proof (data_extent v T es ltac:(lia) He) as Hd. cbn [type_of] in Hd. cbn [image].
    assert (Z.of_nat (length es) <= j / alloc T) by (apply Z.div_le_lower_bound; lia).
    by rewrite lookup_ge_None_2 by lia.
  - destruct (parts_spaced (CArray T ops) T _ ops Hw (conj (or_introl eq_refl) eq_refl)) as [Hs _]. by eapply part_after.
  - destruct (parts_spaced (CVector T ops) T _ ops Hw (conj (or_intror eq_refl) eq_refl)) as [Hs _]. by eapply part_after.
  - destruct (struct_spaced Ts ops Hw) as [Hs _]. by eapply part_after.
  - rewrite alloc_ptr in Hk. apply (byte_of_small _ _ 8); [apply Z.mod_pos_bound|]; lia.
  - destruct b, ap; try done. rewrite alloc_ptr in Hk. apply (byte_of_small _ _ 8); [apply Z.mod_pos_bound|]; lia.
  - destruct Hw as [Hc Hw]. apply IHc; [done|lia].
Qed.
Lemma data_serialized vec T es : serialized (CData vec T es).
Proof.
  intros off s (Ha & He & Hst & Hes) Hoff Hl Hl32 Hz. pose proof (data_extent vec T es ltac:(lia) He) as Hd.
  assert (u32 (alloc T) = alloc T ∧ u32 (store T) = alloc T) as [E1 E2] by (rewrite Hst; unfold u32; rewrite Z.mod_small by lia; done).
  cbn [serializeInit]. rewrite E1, E2. fold (data off (alloc T) (alloc T)).
  destruct (data_filled off (alloc T) es 0 s) as (s' & E & F); [lia|done|lia|lia|intros j Hj; apply Hz; lia|].
  exists s'. split; [done|]. replace (off + Z.of_nat 0 * alloc T) with off in F by lia. replace (Z.of_nat 0 + Z.of_nat (length es)) with (Z.of_nat (length es)) in F by lia.
  apply (filled_widen _ (off + Z.of_nat (length es) * alloc T)); [lia|lia|done| |].
  - eapply filled_ext; [exact F|]. intros j Hj. cbn [image]. by rewrite Z.sub_0_r.
  - intros j Hj. cbn [image]. assert (Z.of_nat (length es) <= (j - off) / alloc T) by (apply Z.div_le_lower_bound; lia).
    by rewrite lookup_ge_None_2 by lia.
Qed.
Lemma parts_serialized c T ops : (c = CArray T ops ∨ c = CVector T ops) → Forall serialized ops → serialized c.
Proof.
  intros Hc HP off s Hw Hoff Hl Hl32 Hz. destruct (parts_spaced c T _ ops Hw (conj Hc eq_refl)) as (Hs & Hwa & Ha).
  pose proof (extent_nonneg T). assert (u32 (alloc T) = alloc T) as E1 by (unfold u32; apply Z.mod_small; lia).
  destruct (each_filled _ _ ops 0 0 (extent c) off s HP Hwa Hs) as (s' & E & F); [lia..| |]; [by rewrite Z.add_0_r|].
  rewrite Z.add_0_r in F. exists s'. destruct Hc as [-> | ->]; cbn [serializeInit]; rewrite E1; done.
Qed.
Lemma struct_serialized Ts ops : Forall serialized ops → serialized (CStruct Ts ops).
Proof.
  intros HP off s Hw Hoff Hl Hl32 Hz. destruct (struct_spaced Ts ops Hw) as [Hs Hwa].
  destruct (each_filled _ _ ops 0 0 (extent (CStruct Ts ops)) off s HP Hwa Hs) as (s' & E & F); [lia..| |]; [by rewrite Z.add_0_r|].
  rewrite Z.add_0_r in F. by exists s'.
Qed.
(** a pointer to [ap] past global [g] *)
Lemma pointer_filled g o ap off s : offs !! g = Some o → 0 <= o + sext 64 ap < 2 ^ 32 → 0 <= off → off + 8 <= Z.of_nat (length s.1) → Z.of_nat (length s.1) <= 2 ^ 32 →
  zero s off (off + 8) →
  filled off (off + 8) (λ j, byte_of (u64 (addr g + ap)) (j - off)) s (s.1, s.2 ++ [(u32 off, u32 (o + u32 ap))]).
Proof.
  intros Eo Hr Hoff Hl Hl32 Hz. eapply filled_ext; [apply reloc_filled; [done|lia|done]|]. intros j Hj. cbn. f_equal.
  pose proof (Z.div_mod ap (2 ^ 64) ltac:(lia)) as Hdm. assert (∃ q, ap = sext 64 ap + 2 ^ 64 * q) as [q Eq].
  { unfold sext. destruct (_ <? _); eexists; [instantiate (1 := ap / 2 ^ 64)|instantiate (1 := ap / 2 ^ 64 + 1)]; lia. }
  assert (u32 (o + u32 ap) = o + sext 64 ap) as ->.
  { unfold u32. rewrite Zplus_mod_idemp_r. rewrite Eq at 1.
    replace (o + (sext 64 ap + 2 ^ 64 * q)) with (o + sext 64 ap + (2 ^ 32 * q) * 2 ^ 32) by lia.
    rewrite Z.mod_add by lia. by apply Z.mod_small. }
  unfold addr, u64. rewrite Eo. cbn [default from_option id]. rewrite Eq at 2.
  replace (base + o + (sext 64 ap + 2 ^ 64 * q)) with (base + (o + sext 64 ap) + q * 2 ^ 64) by lia. by rewrite Z.mod_add by lia.
Qed.
Lemma serialize_ok c : serialized c.
Proof.
  induction c using constant_ind; try (by intros off s []).
  - intros off s _ Hoff Hl _ Hz. exists s. split; [done|]. by apply filled_nothing.
  - intros off s [Hw Hr] Hoff Hl Hl32 Hz. destruct (int_store w z Hw Hr) as [E1 Hb]. pose proof (store_alloc (TInt w)) as Hsa.
    cbn [serializeInit]. destruct (Z.ltb_spec 64 w); [lia|]. rewrite E1.
    apply put_filled; [done|done|done|done|done|]. intros j Hj. by apply (byte_of_small _ _ _ Hb).
  - intros off s Hr Hoff Hl Hl32 Hz. destruct (fp_store k z Hr) as [E1 Hb]. pose proof (store_alloc (TFP k)) as Hsa.
    cbn [serializeInit]. rewrite E1.
    apply put_filled; [done|done|done|done|done|]. intros j Hj. by apply (byte_of_small _ _ _ Hb).
  - apply data_serialized.
  - eapply parts_serialized; eauto.
  - eapply parts_serialized; eauto.
  - by apply struct_serialized.
  - intros off s (o & Eo & Hr) Hoff Hl Hl32 Hz. cbn [type_of] in *. rewrite alloc_ptr in *. cbn [serializeInit]. rewrite Eo. eexists. split; [done|].
    change (sext 64 0) with 0 in Hr.
    pose proof (pointer_filled g o 0 off s Eo Hr Hoff Hl Hl32 Hz) as F. change (u32 0) with 0 in F. rewrite !Z.add_0_r in F.
    unfold u32 in F at 2. rewrite Z.mod_small in F by lia. done.
  - intros off s Hw Hoff Hl Hl32 Hz. destruct b as [g|], ap as [ap|]; try done. destruct Hw as (o & Eo & Hr). cbn [type_of] in *. rewrite alloc_ptr in *.
    cbn [serializeInit]. rewrite Eo. eexists. split; [done|]. by apply pointer_filled.
  - intros off s [Hc Hw] Hoff Hl Hl32 Hz. cbn [type_of] in Hl, Hz |- *. pose proof (extent_nonneg (type_of c)).
    destruct (IHc off s Hw) as (s' & E & F); [lia..|intros j Hj; apply Hz; lia|]. exists s'. split; [done|].
    apply (filled_widen _ (off + extent c)); [lia|lia|done|done|]. intros j Hj. apply (image_after addr c); [done|lia].
Qed.

(** ** All initializers *)
Abbreviation Placed := (list (nat * (Z * GlobalVariable))).
(** placed variables follow each other between [lo] and [hi], each aligned *)
Fixpoint placed_in (lo : Z) (vs : Placed) (hi : Z) : Prop :=
  match vs with
  | [] => lo <= hi
  | (_, (o, GV)) :: vs => lo <= o ∧ (global_align GV | o) ∧ placed_in (o + alloc (gv_type GV)) vs hi
  end.
Fixpoint placed_image (vs : Placed) (j : Z) : Z :=
  match vs with
  | [] => 0
  | (_, (o, GV)) :: vs =>
      if (o <=? j) && (j <? o + alloc (gv_type GV)) then match gv_init GV with Some c => image addr c (j - o) | None => 0 end else placed_image vs j
  end.
Lemma placed_le vs : ∀ lo hi, placed_in lo vs hi → lo <= hi.
Proof.
  induction vs as [|[g [o GV]] vs IH]; intros lo hi Hp; [done|]. destruct Hp as (H1 & _ & H2). apply IH in H2. pose proof (extent_nonneg (gv_type GV)). lia.
Qed.
Lemma placed_at vs g o GV : ∀ lo hi, placed_in lo vs hi → (g, (o, GV)) ∈ vs → lo <= o ∧ o + alloc (gv_type GV) <= hi ∧ (global_align GV | o).
Proof.
  induction vs as [|[g' [o' GV']] vs IH]; intros lo hi Hp Hin; [by apply elem_of_nil in Hin|]. destruct Hp as (H1 & H2 & H3).
  pose proof (placed_le _ _ _ H3). pose proof (extent_nonneg (gv_type GV')). apply elem_of_cons in Hin as [[= -> -> ->]|Hin]; [split_and!; [lia..|done]|].
  destruct (IH _ _ H3 Hin) as (K1 & K2 & K3). split_and!; [lia..|done].
Qed.
(** two of them do not overlap *)
Lemma placed_disjoint vs g o GV g' o' GV' : ∀ lo hi, placed_in lo vs hi → NoDup (fst <$> vs) → (g, (o, GV)) ∈ vs → (g', (o', GV')) ∈ vs → g ≠ g' →
  o + alloc (gv_type GV) <= o' ∨ o' + alloc (gv_type GV') <= o.
Proof.
  induction vs as [|[g0 [o0 GV0]] vs IH]; intros lo hi Hp Hnd H1 H2 Hne; [by apply elem_of_nil in H1|]. destruct Hp as (_ & _ & Hp).
  apply NoDup_cons in Hnd as [_ Hnd]. apply elem_of_cons in H1 as [[= -> -> ->]|H1]; apply elem_of_cons in H2 as [E2|H2]; try injection E2 as -> -> ->.
  - done.
  - destruct (placed_at _ _ _ _ _ _ Hp H2) as (? & _). left. lia.
  - destruct (placed_at _ _ _ _ _ _ Hp H1) as (? & _). right. lia.
  - by eapply IH.
Qed.
Lemma placed_image_before vs j : ∀ lo hi, placed_in lo vs hi → j < lo → placed_image vs j = 0.
Proof.
  induction vs as [|[g [o GV]] vs IH]; intros lo hi Hp Hj; [done|]. destruct Hp as (H1 & _ & H2). cbn [placed_image]. pose proof (extent_nonneg (gv_type GV)).
  destruct (Z.leb_spec o j), (Z.ltb_spec j (o + alloc (gv_type GV))); cbn [andb]; try lia; eapply IH; eauto; lia.
Qed.
Lemma placed_image_at vs g o GV c k : ∀ lo hi, placed_in lo vs hi → (g, (o, GV)) ∈ vs → gv_init GV = Some c → 0 <= k < alloc (gv_type GV) →
  placed_image vs (o + k) = image addr c k.
Proof.
  induction vs as [|[g' [o' GV']] vs IH]; intros lo hi Hp Hin Hc Hk; [by apply elem_of_nil in Hin|]. destruct Hp as (H1 & _ & H3). cbn [placed_image].
  apply elem_of_cons in Hin as [[= -> -> ->]|Hin].
  - destruct (Z.leb_spec o' (o' + k)), (Z.ltb_spec (o' + k) (o' + alloc (gv_type GV'))); cbn [andb]; try lia. rewrite Hc. f_equal. lia.
  - destruct (placed_at _ _ _ _ _ _ H3 Hin) as (K1 & _ & _).
    destruct (Z.leb_spec o' (o + k)), (Z.ltb_spec (o + k) (o' + alloc (gv_type GV'))); cbn [andb]; try lia; by eapply IH.
Qed.
Lemma initialise_filled vs : ∀ lo hi s, placed_in lo vs hi →
  (∀ g o GV, (g, (o, GV)) ∈ vs → ∃ c, gv_init GV = Some c ∧ type_of c = gv_type GV ∧ wf_const c) →
  0 <= lo → hi <= Z.of_nat (length s.1) → Z.of_nat (length s.1) <= 2 ^ 32 → zero s lo hi →
  ∃ s', initialise M offs vs s = Ok s' ∧ filled lo hi (placed_image vs) s s'.
Proof.
  induction vs as [|[g [o GV]] vs IH]; intros lo hi s Hp Hi Hlo Hl Hl32 Hz.
  - exists s. split; [done|]. by apply filled_nothing.
  - destruct Hp as (H1 & _ & Hp). pose proof (placed_le _ _ _ Hp) as Hle. pose proof (extent_nonneg (gv_type GV)) as He.
    destruct (Hi g o GV) as (c & Ec & Et & Hw); [left|].
    destruct (serialize_ok c o s Hw) as (s1 & E1 & F1); [lia|rewrite Et; lia|done|rewrite Et; intros j Hj; apply Hz; lia|]. rewrite Et in F1.
    pose proof (filled_length _ _ _ _ _ F1) as L1.
    destruct (IH (o + alloc (gv_type GV)) hi s1 Hp) as (s2 & E2 & F2); [intros; eapply Hi; by right|lia..| |].
    { apply (filled_zero _ _ _ _ _ _ _ F1); [lia..|]. intros j Hj. apply Hz. lia. }
    exists s2. cbn [initialise]. rewrite Ec, E1. cbn [rbind]. split; [done|].
    eapply (filled_seq lo hi o (o + alloc (gv_type GV)) (o + alloc (gv_type GV)) hi); try done; try lia; intros j Hj; cbn [placed_image].
    + destruct (Z.leb_spec o j), (Z.ltb_spec j (o + alloc (gv_type GV))); cbn [andb]; try lia. by rewrite Ec.
    + destruct (Z.leb_spec o j), (Z.ltb_spec j (o + alloc (gv_type GV))); cbn [andb]; lia || done.
    + intros Hn1 Hn2. destruct (Z.leb_spec o j), (Z.ltb_spec j (o + alloc (gv_type GV))); cbn [andb]; try lia. eapply placed_image_before; [done|lia].
Qed.
Lemma place_globals_spec vs : ∀ off placed top, 0 <= off → (∀ g GV, (g, GV) ∈ vs → 0 < global_align GV) → place_globals vs off = (placed, top) → top < 2 ^ 32 →
  placed_in off placed top ∧ (λ p : nat * (Z * GlobalVariable), (p.1, p.2.2)) <$> placed = vs.
Proof.
  induction vs as [|[g GV] vs IH]; intros off placed top Hoff Ha E Ht; cbn [place_globals] in E.
  - injection E as <- <-. split; [cbn; lia|done].
  - destruct (round_up_multiple off (global_align GV)) as [Hr Hd]; [eapply Ha; left|]. pose proof (extent_nonneg (gv_type GV)) as He.
    destruct (place_globals vs _) as [r t] eqn:Ev. injection E as <- <-.
    destruct (IH (round_up off (global_align GV) + alloc (gv_type GV)) r t) as [Hp Hm]; [lia|intros; eapply Ha; by right|done..|]. pose proof (placed_le _ _ _ Hp).
    unfold u32. rewrite Z.mod_small by lia. split; [cbn; split_and!; [lia|done|done]|]. cbn. by rewrite Hm.
Qed.
End image.

(** ** The buffer of a module *)
Section module.
Context `{LayoutLaws} (M : list GlobalVariable).
(** a pointer into a variable that lives in a buffer, or one past its end *)
Definition target_in (g : nat) (ap : Z) : Prop := ∃ GV, M !! g = Some GV ∧ (gv_AS GV = 4 ∨ gv_AS GV = 1) ∧ 0 <= sext 64 ap <= getTypeAllocSize (gv_type GV).
Definition variable_ok (GV : GlobalVariable) : Prop :=
  named_llvm GV = false ∧ match gv_align GV with Some a => 0 < a < 2 ^ 32 | None => True end ∧
  ∃ c, gv_init GV = Some c ∧ type_of c = gv_type GV ∧ wf_constant target_in c.
Definition module_ok : Prop := ∀ g GV, g ∈ buffered M → M !! g = Some GV → variable_ok GV.
Lemma elem_of_concat {A} (x : A) ls : x ∈ concat ls ↔ ∃ l, x ∈ l ∧ l ∈ ls.
Proof. rewrite list_elem_of_In, in_concat. split; intros (l & H1 & H2); exists l; by rewrite !list_elem_of_In in *. Qed.
Lemma found_elem gs g GV : (g, GV) ∈ found M gs ↔ g ∈ gs ∧ M !! g = Some GV.
Proof.
  unfold found. rewrite list_elem_of_omap. split.
  - intros (x & Hx & E). apply bind_Some in E as (GV' & Hg & [= -> ->]). by apply elem_of_elements in Hx.
  - intros [Hg E]. exists g. split; [by apply elem_of_elements|]. by rewrite E.
Qed.
Lemma found_NoDup gs : NoDup (fst <$> found M gs).
Proof.
  unfold found. generalize (NoDup_elements gs). induction (elements gs) as [|g l IH]; intros Hn; [apply NoDup_nil_2|].
  apply NoDup_cons in Hn as [Hg Hn]. cbn. destruct (M !! g) as [GV|]; cbn; [|by apply IH]. apply NoDup_cons. split; [|by apply IH].
  intros Hin. apply Hg. apply list_elem_of_fmap in Hin as ([g' GV'] & -> & Hin). apply list_elem_of_omap in Hin as (x & Hx & E).
  by apply bind_Some in E as (? & _ & [= -> ->]).
Qed.
Lemma order_elem g GV : (g, GV) ∈ order M ↔ g ∈ buffered M ∧ M !! g = Some GV.
Proof. unfold order. rewrite merge_sort_Permutation. apply found_elem. Qed.
Lemma order_NoDup : NoDup (fst <$> order M).
Proof. unfold order. rewrite merge_sort_Permutation. apply found_NoDup. Qed.
Lemma AS_of_Some g a : a ≠ 0 → AS_of M g = a → ∃ GV, M !! g = Some GV ∧ gv_AS GV = a.
Proof. unfold AS_of. destruct (M !! g) as [GV|]; [by eexists|congruence]. Qed.
Lemma buffered_elem h : h ∈ buffered M ↔ ∃ g GV, M !! g = Some GV ∧ h ∈ buffers M g GV.
Proof.
  unfold buffered. rewrite elem_of_list_to_set, elem_of_concat. split.
  - intros (l & Hh & Hl). apply elem_of_lookup_imap in Hl as (g & GV & -> & E). by exists g, GV.
  - intros (g & GV & E & Hh). exists (buffers M g GV). split; [done|]. apply elem_of_lookup_imap. by exists g, GV.
Qed.
(** what an initializer in the buffer points at is in the buffer *)
Lemma buffered_closed g GV c h ap : g ∈ buffered M → M !! g = Some GV → named_llvm GV = false → gv_init GV = Some c → h ∈ globals_in c → target_in h ap → h ∈ buffered M.
Proof.
  intros Hg E Hn Hc Hh (GV' & E' & HAS & _). apply buffered_elem. exists g, GV. split; [done|]. unfold buffers. rewrite Hn, Hc.
  apply elem_of_app. right. rewrite bool_decide_eq_false_2 by (intros E0; rewrite E0 in Hh; by apply elem_of_nil in Hh). cbn [negb].
  right. unfold refs. apply list_elem_of_filter. split; [|done]. unfold AS_of. by rewrite E'.
Qed.
Lemma global_align_pos GV : variable_ok GV → 0 < global_align GV.
Proof.
  intros (_ & Ha & _). unfold global_align. pose proof (abi_align (gv_type GV)) as Hb. unfold u32. rewrite (Z.mod_small (getABITypeAlign _)) by lia. lia.
Qed.
Lemma placed_of_order placed : (λ p : nat * (Z * GlobalVariable), (p.1, p.2.2)) <$> placed = order M → NoDup (fst <$> placed) ∧
  ∀ g GV, g ∈ buffered M → M !! g = Some GV → ∃ o, (g, (o, GV)) ∈ placed.
Proof.
  intros Hm. split.
  - pose proof order_NoDup as Hn. rewrite <- Hm, <- list_fmap_compose in Hn. done.
  - intros g GV Hg E. assert ((g, GV) ∈ order M) as Hin by by apply order_elem.
    rewrite <- Hm in Hin. apply list_elem_of_fmap in Hin as ([g' [o GV']] & [= -> ->] & Hin). by exists o.
Qed.
Lemma placed_is_order placed g o GV : (λ p : nat * (Z * GlobalVariable), (p.1, p.2.2)) <$> placed = order M → (g, (o, GV)) ∈ placed →
  g ∈ buffered M ∧ M !! g = Some GV.
Proof. intros Hm Hin. apply order_elem. rewrite <- Hm. apply list_elem_of_fmap. by exists (g, (o, GV)). Qed.
Lemma offsets_lookup (placed : list (nat * (Z * GlobalVariable))) g o GV : NoDup (fst <$> placed) → (g, (o, GV)) ∈ placed →
  (list_to_map ((λ p, (p.1, p.2.1)) <$> placed) : gmap nat Z) !! g = Some o.
Proof.
  intros Hn Hin. apply elem_of_list_to_map_1.
  - by rewrite <- list_fmap_compose.
  - apply list_elem_of_fmap. by exists (g, (o, GV)).
Qed.
Lemma replicate_zero n j : 0 <= j < Z.of_nat n → byte_at (replicate n 0) j = 0.
Proof. intros Hj. rewrite list_lookup_total_alt, lookup_replicate_2 by lia. done. Qed.
(** the place of a variable in the buffer [G] *)
Record in_buffer (offs : gmap nat Z) (G : GlobalsABI) (g : nat) (GV : GlobalVariable) (o : Z) : Prop := {
  ib_offset : offs !! g = Some o;
  ib_aligned : (global_align GV | o);
  ib_inside : 0 <= o ∧ o + getTypeAllocSize (gv_type GV) <= g_size G;
  ib_symbol : (gv_name GV, (o, u32 (getTypeAllocSize (gv_type GV)))) ∈ symbols G;
  ib_loaded : ∀ base c k, gv_init GV = Some c → 0 <= k < getTypeAllocSize (gv_type GV) →
    loaded base G (o + k) = image (λ h, base + default 0 (offs !! h)) c k;
}.
Lemma layout_ok : module_ok → (place_globals (order M) 0).2 <= 2 ^ 32 - 16 →
  ∃ offs G, layoutGlobals M = Ok (offs, G) ∧
    (∀ g GV, g ∈ buffered M → M !! g = Some GV → ∃ o, in_buffer offs G g GV o) ∧
    (∀ g GV o g' GV' o', g ∈ buffered M → M !! g = Some GV → g' ∈ buffered M → M !! g' = Some GV' → offs !! g = Some o → offs !! g' = Some o' →
       g ≠ g' → o + getTypeAllocSize (gv_type GV) <= o' ∨ o' + getTypeAllocSize (gv_type GV') <= o).
Proof.
  intros Hm Htop. unfold layoutGlobals. case_bool_decide as He.
  { exists ∅, (mkGlobals 0 [] [] []). split; [done|]. assert (∀ g GV, g ∈ buffered M → M !! g = Some GV → False) as Hno.
    { intros g GV Hg E. assert ((g, GV) ∈ order M) as Hin by by apply order_elem. rewrite He in Hin. by apply elem_of_nil in Hin. }
    split; intros; exfalso; by eapply Hno. }
  destruct (place_globals (order M) 0) as [placed top] eqn:Ep. cbn [snd] in Htop.
  destruct (place_globals_spec (order M) 0 placed top) as [Hpl Hmap]; [done| |done|lia|].
  { intros g GV [Hg E]%order_elem. by eapply global_align_pos, Hm. }
  destruct (placed_of_order placed Hmap) as [Hnd Hat]. set (offs := list_to_map _ : gmap nat Z).
  destruct (round_up_multiple top 16) as [Hr _]; [lia|]. pose proof (placed_le _ _ _ Hpl) as Hle.
  assert (u32 (round_up top 16) = round_up top 16) as Eu by (apply Z.mod_small; pose proof (Z.div_mod (top + 16 - 1) 16 ltac:(lia)); unfold round_up in *; lia).
  rewrite Eu. set (s0 := (replicate (Z.to_nat (round_up top 16)) 0, []) : State).
  assert (Z.of_nat (length s0.1) = round_up top 16) as El by (cbn; rewrite length_replicate; lia).
  assert (∀ base, ∃ s', initialise M offs placed s0 = Ok s' ∧ filled base 0 top (placed_image offs base placed) s0 s') as Hinit.
  { intros base. apply initialise_filled; [done| |done|lia|rewrite El; unfold u32 in Eu; rewrite <- Eu; pose proof (Z.mod_pos_bound (round_up top 16) (2 ^ 32) ltac:(lia)); lia|intros j Hj; apply replicate_zero; rewrite Z2Nat.id; lia].
    intros g o GV Hin. destruct (placed_is_order placed g o GV Hmap Hin) as [Hg E]. destruct (Hm g GV Hg E) as (Hn & _ & c & Ec & Et & Hw).
    exists c. split_and!; [done..|]. eapply wf_constant_mono; [|exact Hw]. intros h ap Hh Ht.
    pose proof (buffered_closed g GV c h ap Hg E Hn Ec Hh Ht) as Hhb. destruct Ht as (GV' & E' & _ & Hap).
    destruct (Hat h GV' Hhb E') as [o' Ho']. exists o'. split; [by eapply offsets_lookup|].
    destruct (placed_at _ _ _ _ _ _ Hpl Ho') as (? & ? & _). lia. }
  destruct (Hinit 0) as (s' & Es & _). rewrite Es. cbn [rbind]. eexists _, _. split; [done|]. split.
  - intros g GV Hg E. destruct (Hat g GV Hg E) as [o Ho]. exists o. destruct (placed_at _ _ _ _ _ _ Hpl Ho) as (H1 & H2 & H3).
    split; [by eapply offsets_lookup|done|cbn; lia|apply list_elem_of_fmap; by exists (g, (o, GV))|].
    intros base c k Ec Hk. unfold loaded. cbn [relocs init]. destruct (Hinit base) as (s1 & Es1 & rs & Ers & _ & _ & _ & Him).
    rewrite Es in Es1. injection Es1 as <-. rewrite Ers. cbn [app snd s0]. rewrite Him by lia. by eapply placed_image_at.
  - intros g GV o g' GV' o' Hg E Hg' E' Eo Eo' Hne. destruct (Hat g GV Hg E) as [o1 Ho1], (Hat g' GV' Hg' E') as [o1' Ho1'].
    pose proof (offsets_lookup placed g o1 GV Hnd Ho1) as L1. pose proof (offsets_lookup placed g' o1' GV' Hnd Ho1') as L2.
    fold offs in L1, L2. rewrite L1 in Eo. rewrite L2 in Eo'. injection Eo as <-. injection Eo' as <-. by eapply placed_disjoint.
Qed.
End module.

(** [C9] A module's variables are loaded as their initial values. When the buffered variables have initializers of the forms the
    buffer holds, whose pointers stay within buffered variables, and the buffer is smaller than 4 GB, the layout succeeds;
    every buffered variable then has a place in the buffer that is aligned, inside, listed under its name and disjoint from
    the others; and the bytes the runtime loads there, relocations patched with any buffer address, are LLVM's memory
    image of its initializer with every variable at the buffer address plus its offset. *)
Theorem globals_loaded `{LayoutLaws} (M : list GlobalVariable) (Hm : module_ok M) (Htop : (place_globals (order M) 0).2 <= 2 ^ 32 - 16) :
  ∃ offs G, layoutGlobals M = Ok (offs, G) ∧
    (∀ g GV, g ∈ buffered M → M !! g = Some GV → ∃ o, in_buffer offs G g GV o) ∧
    (∀ g GV o g' GV' o', g ∈ buffered M → M !! g = Some GV → g' ∈ buffered M → M !! g' = Some GV' → offs !! g = Some o → offs !! g' = Some o' →
       g ≠ g' → o + getTypeAllocSize (gv_type GV) <= o' ∨ o' + getTypeAllocSize (gv_type GV') <= o).
Proof. by apply layout_ok. Qed.
(** a constant table and a variable that points at its second element *)
Definition demo_table : GlobalVariable := mkGV "table" 4 true None (TArray 2 (TInt 32)) (Some (CData false (TInt 32) [7; 9])).
Definition demo_cursor : GlobalVariable :=
  mkGV "cursor" 1 false (Some 8) (TStruct [TInt 8; TPtr]) (Some (CStruct [TInt 8; TPtr] [CInt 8 1; CGEP (Some 0%nat) (Some 4)])).
Definition demo_module : list GlobalVariable := [demo_table; demo_cursor].
Section witness.
#[local] Existing Instance natural_layout.
#[local] Existing Instance natural_laws.
Lemma demo_module_ok : module_ok demo_module.
Proof.
  intros [|[|g]] GV Hg E; [injection E as <-|injection E as <-|done].
  - split; [done|]. split; [done|]. eexists. split; [done|]. split; [done|]. cbn. split_and!; [done..|].
    intros e [->|[->|He%elem_of_nil]%elem_of_cons]%elem_of_cons; [by vm_compute..|done].
  - split; [done|]. split; [done|]. eexists. split; [done|]. split; [done|]. cbn. split_and!; try done.
    exists demo_table. split; [done|]. split; [by left|]. by vm_compute.
Qed.
Lemma globals_loaded_witness :
  ∃ offs G, layoutGlobals demo_module = Ok (offs, G) ∧
    (∀ g GV, g ∈ buffered demo_module → demo_module !! g = Some GV → ∃ o, in_buffer offs G g GV o) ∧
    (∀ g GV o g' GV' o', g ∈ buffered demo_module → demo_module !! g = Some GV → g' ∈ buffered demo_module → demo_module !! g' = Some GV' →
       offs !! g = Some o → offs !! g' = Some o' → g ≠ g' → o + getTypeAllocSize (gv_type GV) <= o' ∨ o' + getTypeAllocSize (gv_type GV') <= o).
Proof. apply (globals_loaded demo_module); [apply demo_module_ok|by vm_compute]. Defined.
(** the buffer of the demonstration: the variable first, its pointer relocated to the table's second element *)
Example demo_layout : layoutGlobals demo_module =
  Ok (<[1%nat := 0]> {[0%nat := 16]}, mkGlobals 32 ([1] ++ replicate 15 0 ++ [7; 0; 0; 0; 9; 0; 0; 0] ++ replicate 8 0) [(8, 20)]
    [("cursor", (0, 16)); ("table", (16, 8))]%string).
Proof. by vm_compute. Qed.
(** an address narrowed to 32 bits is still patched with eight bytes: the next field, 5, is overwritten *)
Definition narrow_module : list GlobalVariable :=
  [demo_table; mkGV "pair" 1 false None (TStruct [TInt 32; TInt 32]) (Some (CStruct [TInt 32; TInt 32] [CCast PtrToInt (TInt 32) (CGlobal 0); CInt 32 5]))].
Theorem narrow_pointer_overwrites : ∃ offs G o c, layoutGlobals narrow_module = Ok (offs, G) ∧ offs !! 1%nat = Some o ∧
  (GV ← narrow_module !! 1%nat; gv_init GV) = Some c ∧ loaded 0 G (o + 4) = 0 ∧ image (λ h, default 0 (offs !! h)) c 4 = 5.
Proof.
  exists (<[1%nat := 0]> {[0%nat := 8]}), (mkGlobals 16 [0; 0; 0; 0; 5; 0; 0; 0; 7; 0; 0; 0; 9; 0; 0; 0] [(0, 8)] [("pair", (0, 8)); ("table", (8, 8))]%string).
  exists 0. eexists. split; [by vm_compute|]. split; [by vm_compute|]. split; [reflexivity|]. split; by vm_compute.
Qed.
End witness.
