(* ===== verification/MslBlocks.v ===== *)
(** The shared memory of a kernel and its parameter block (MslLayout.v): the objects of each are aligned and apart, the
    scratch of the tensor conversions has a place, and Metal places the parameters where the kernel's record says. *)
From stdpp Require Import sorting.
From S2P Require Import Prelude Cstd MslLayout MslDataLayout MslLayoutThm.
Open Scope Z_scope.

Lemma round_up32_spec n a : 0 <= n → 0 < a → n + a <= 2 ^ 32 → n <= round_up32 n a < n + a ∧ (a | round_up32 n a).
Proof.
  intros Hn Ha Hb. destruct (round_up_multiple n a Ha) as [Hr Hd]. assert (round_up32 n a = round_up n a) as ->; [|done].
  unfold round_up32, round_up in *. unfold u32. rewrite (Z.mod_small (n + a - 1)) by lia. apply Z.mod_small. lia.
Qed.
Lemma round_up_aligned n a : 0 < a → (a | n) → round_up n a = n.
Proof.
  intros Ha [q ->]. unfold round_up. f_equal. symmetry. apply (Z.div_unique_pos _ _ _ (a - 1)); lia.
Qed.
(** [& ~15u] rounds down to sixteen *)
Lemma land_not15 x : is_u32 x → Z.land x (u32 (Z.lnot 15)) = x / 16 * 16.
Proof.
  intros Hx. rewrite <- (Z.shiftl_mul_pow2 _ 4), <- (Z.shiftr_div_pow2 _ 4) by lia. apply Z.bits_inj'. intros n Hn. rewrite Z.land_spec.
  destruct (Z.lt_ge_cases n 4) as [H4|H4].
  - rewrite Z.shiftl_spec_low by lia. unfold u32. rewrite Z.mod_pow2_bits_low by lia. rewrite Z.lnot_spec by lia.
    change 15 with (Z.ones 4). rewrite Z.ones_spec_low by lia. apply andb_false_r.
  - rewrite Z.shiftl_spec_high, Z.shiftr_spec by lia. replace (n - 4 + 4) with n by lia. destruct (Z.lt_ge_cases n 32).
    + unfold u32. rewrite Z.mod_pow2_bits_low by lia. rewrite Z.lnot_spec by lia. change 15 with (Z.ones 4). rewrite Z.ones_spec_high by lia. apply andb_true_r.
    + destruct (decide (x = 0)) as [->|]; [by rewrite Z.bits_0|]. rewrite Z.bits_above_log2; [done|unfold is_u32 in Hx; lia|].
      apply (Z.lt_le_trans _ 32); [|done]. apply Z.log2_lt_pow2; unfold is_u32 in Hx; lia.
Qed.

(** ** Shared memory *)
Section shared.
Context `{LayoutLaws}.
Abbreviation alloc := getTypeAllocSize.
(** room for every object with its padding *)
Definition demand (vec : list (nat * GlobalVariable)) : Z := foldr (λ p s, alloc (gv_type p.2) + shared_align p.2 + s) 0 vec.
Definition static (vec : list (nat * GlobalVariable)) : list (nat * GlobalVariable) := filter (λ p, isDyn p.2 = false) vec.
Definition dynamics (vec : list (nat * GlobalVariable)) : list nat := fst <$> filter (λ p, isDyn p.2 = true) vec.
(** [offs] places the static objects of [vec] one after the other between [lo] and [hi] *)
Fixpoint stacked (lo : Z) (vec : list (nat * GlobalVariable)) (offs : list (nat * Z)) (hi : Z) : Prop :=
  match vec, offs with
  | [], [] => lo <= hi
  | (g, GV) :: vec, (g', o) :: offs => g = g' ∧ lo <= o ∧ (shared_align GV | o) ∧ stacked (o + alloc (gv_type GV)) vec offs hi
  | _, _ => False
  end.
Lemma alloc_nonneg T : 0 <= alloc T.
Proof. pose proof (store_alloc T). lia. Qed.
Lemma shared_align_pos GV : 16 <= shared_align GV.
Proof. unfold shared_align. lia. Qed.
Lemma demand_nonneg vec : 0 <= demand vec.
Proof.
  induction vec as [|[g GV] vec IH]; [done|]. cbn [demand foldr snd]. fold (demand vec). pose proof (alloc_nonneg (gv_type GV)). pose proof (shared_align_pos GV). lia.
Qed.
Lemma place_shared_spec vec : ∀ offs top dyn, 0 <= top → top + demand vec <= 2 ^ 32 - 1 →
  match place_shared vec offs top dyn with
  | Ok (offs', top', dyn') => ∃ new, offs' = offs ++ new ∧ stacked top (static vec) new top' ∧ top' <= top + demand vec ∧
      option_list dyn' = option_list dyn ++ dynamics vec
  | Err e => e = "more than one extern __shared__ array"%string ∧ (1 < length (option_list dyn ++ dynamics vec))%nat
  end.
Proof.
  induction vec as [|[g GV] vec IH]; intros offs top dyn Ht Hd.
  - exists []. rewrite !app_nil_r. cbn. split_and!; (done || lia).
  - cbn [place_shared]. cbn [demand foldr snd] in Hd. fold (demand vec) in Hd. pose proof (alloc_nonneg (gv_type GV)) as Ha.
    pose proof (shared_align_pos GV) as Hal. pose proof (demand_nonneg vec) as Hdn.
    unfold static, dynamics in *. rewrite !filter_cons. cbn [snd]. destruct (isDyn GV) eqn:Ed.
    + rewrite decide_False by done. rewrite decide_True by done. destruct dyn as [d|].
      * split; [done|]. cbn. lia.
      * specialize (IH offs top (Some g) Ht ltac:(lia)). destruct (place_shared vec offs top (Some g)) as [[[offs' top'] dyn']|e].
        -- destruct IH as (new & -> & Hs & Hb & ->). exists new. cbn [demand foldr snd]. fold (demand vec). split_and!; [done|done|lia|done].
        -- exact IH.
    + rewrite decide_True by done. rewrite decide_False by done.
      destruct (round_up32_spec top (shared_align GV)) as [Hr Hdv]; [lia..|]. set (at_ := round_up32 top (shared_align GV)) in *.
      assert (u32 (at_ + u32 (alloc (gv_type GV))) = at_ + alloc (gv_type GV)) as -> by (unfold u32; rewrite (Z.mod_small (alloc _)) by lia; apply Z.mod_small; lia).
      specialize (IH (offs ++ [(g, at_)]) (at_ + alloc (gv_type GV)) dyn). specialize (IH ltac:(clear IH; lia)). specialize (IH ltac:(clear IH; lia)).
      destruct (place_shared vec _ _ dyn) as [[[offs' top'] dyn']|e]; [|exact IH].
      destruct IH as (new & -> & Hs & Hb & Hdy). exists ((g, at_) :: new). rewrite <- app_assoc. cbn [demand foldr snd]. fold (demand vec).
      split_and!; [done|cbn; split_and!; (done || lia)|lia|done].
Qed.
Lemma stacked_le vec : ∀ lo offs hi, stacked lo vec offs hi → lo <= hi.
Proof.
  induction vec as [|[g GV] vec IH]; intros lo [|[g' o] offs] hi Hs; cbn in Hs; try done. destruct Hs as (_ & ? & _ & Hs). apply IH in Hs.
  pose proof (alloc_nonneg (gv_type GV)). lia.
Qed.
Lemma stacked_at vec g GV : ∀ lo offs hi, stacked lo vec offs hi → (g, GV) ∈ vec →
  ∃ o, (g, o) ∈ offs ∧ lo <= o ∧ o + alloc (gv_type GV) <= hi ∧ (shared_align GV | o).
Proof.
  induction vec as [|[g0 GV0] vec IH]; intros lo [|[g' o] offs] hi Hs Hin; cbn in Hs; try done; [by apply elem_of_nil in Hin..|].
  destruct Hs as (-> & H1 & H2 & Hs). pose proof (stacked_le _ _ _ _ Hs). pose proof (alloc_nonneg (gv_type GV0)).
  apply elem_of_cons in Hin as [[= -> ->]|Hin].
  - exists o. split_and!; [left|lia..|done].
  - destruct (IH _ _ _ Hs Hin) as (o' & Ho' & ? & ? & ?). exists o'. split_and!; [by right|lia..|done].
Qed.
Lemma stacked_from vec : ∀ lo offs hi j p, stacked lo vec offs hi → offs !! j = Some p → lo <= p.2.
Proof.
  induction vec as [|[g GV] vec IH]; intros lo [|[g' o] offs] hi j p Hs Hj; cbn in Hs; try done. destruct Hs as (_ & H1 & _ & Hs).
  pose proof (alloc_nonneg (gv_type GV)). destruct j as [|j]; cbn in Hj; [by injection Hj as <-|]. specialize (IH _ _ _ _ _ Hs Hj). lia.
Qed.
Lemma stacked_apart vec : ∀ i j p q r lo offs hi, stacked lo vec offs hi → (i < j)%nat → vec !! i = Some p → offs !! i = Some q → offs !! j = Some r →
  q.1 = p.1 ∧ q.2 + alloc (gv_type p.2) <= r.2.
Proof.
  induction vec as [|[g GV] vec IH]; intros i j p q r lo [|[g' o] offs] hi Hs Hij Hp Hq Hr; cbn in Hs; try done.
  destruct Hs as (-> & H1 & H2 & Hs). destruct j as [|j]; [lia|]. cbn in Hr. destruct i as [|i]; cbn in Hp, Hq.
  - injection Hp as <-. injection Hq as <-. cbn. split; [done|]. by eapply stacked_from.
  - eapply (IH i j); eauto. lia.
Qed.
Lemma stacked_keys vec : ∀ lo offs hi, stacked lo vec offs hi → fst <$> offs = fst <$> vec.
Proof.
  induction vec as [|[g GV] vec IH]; intros lo [|[g' o] offs] hi Hs; cbn in Hs; try done. destruct Hs as (-> & _ & _ & Hs). cbn. f_equal. by eapply IH.
Qed.
(** two static objects do not overlap *)
Lemma stacked_disjoint vec g GV o g' GV' o' lo offs hi : stacked lo vec offs hi → NoDup (fst <$> vec) → (g, GV) ∈ vec → (g', GV') ∈ vec →
  (g, o) ∈ offs → (g', o') ∈ offs → g ≠ g' → o + alloc (gv_type GV) <= o' ∨ o' + alloc (gv_type GV') <= o.
Proof.
  intros Hs Hn (i & Hi)%list_elem_of_lookup (j & Hj)%list_elem_of_lookup (i' & Hi')%list_elem_of_lookup (j' & Hj')%list_elem_of_lookup Hne.
  pose proof (stacked_keys _ _ _ _ Hs) as Hk.
  assert (∀ k k' x y, vec !! k = Some x → offs !! k' = Some y → x.1 = y.1 → k' = k) as Hsame.
  { intros k k' x y Hx Hy Exy. eapply (NoDup_lookup (fst <$> vec)); [done| |].
    - rewrite <- Hk, list_lookup_fmap, Hy. cbn. by rewrite <- Exy.
    - by rewrite list_lookup_fmap, Hx. }
  rewrite (Hsame i i' _ _ Hi Hi' eq_refl) in Hi'. rewrite (Hsame j j' _ _ Hj Hj' eq_refl) in Hj'.
  destruct (Nat.lt_trichotomy i j) as [Hij|[->|Hij]].
  - left. by destruct (stacked_apart _ _ _ _ _ _ _ _ _ Hs Hij Hi Hi' Hj').
  - rewrite Hi in Hj. by injection Hj as -> ->.
  - right. by destruct (stacked_apart _ _ _ _ _ _ _ _ _ Hs Hij Hj Hj' Hi').
Qed.

(** *** The whole layout *)
Section kernel.
Context (M : list GlobalVariable) (operands : list Constant) (calls : list Call) (maxThreads : Z) (onDynamic : bool).
Abbreviation vec := (shared_used M operands).
(** a shared object the kernel uses *)
Definition uses (g : nat) (GV : GlobalVariable) : Prop := M !! g = Some GV ∧ gv_AS GV = 3 ∧ ∃ c, c ∈ operands ∧ g ∈ globals_in c.
Lemma shared_used_elem g GV : (g, GV) ∈ vec ↔ uses g GV.
Proof.
  unfold shared_used. rewrite merge_sort_Permutation, found_elem, elem_of_list_to_set, list_elem_of_filter, elem_of_concat. unfold uses, AS_of. split.
  - intros ((HA & l & Hl & Hin) & E). rewrite E in HA. apply list_elem_of_fmap in Hin as (c & -> & Hc). split_and!; [done..|]. by exists c.
  - intros (E & HA & c & Hc & Hg). rewrite E. split_and!; [done| |done]. exists (globals_in c). split; [done|]. apply list_elem_of_fmap. by exists c.
Qed.
Lemma shared_used_NoDup : NoDup (fst <$> vec).
Proof. unfold shared_used. rewrite merge_sort_Permutation. apply found_NoDup. Qed.
Lemma static_elem g GV : (g, GV) ∈ static vec ↔ uses g GV ∧ isDyn GV = false.
Proof. unfold static. rewrite list_elem_of_filter, shared_used_elem. cbn. tauto. Qed.
Lemma static_NoDup : NoDup (fst <$> static vec).
Proof. eapply NoDup_sublist; [|apply shared_used_NoDup]. apply fmap_sublist, sublist_filter. Qed.
Definition sgs_of : Z := (if maxThreads =? 0 then kTpDefaultMaxThreads else maxThreads) / 32.
Definition needs_scratch : bool := existsb converts calls.
Definition room : Prop := 0 <= maxThreads ∧ demand vec + 512 * sgs_of + 64 <= 2 ^ 32.
Definition static_end (L : SharedLayout) : Z := if needs_scratch then tpScratchOff L else smemStatic L.
(** what a layout promises *)
Record shared_spec (L : SharedLayout) : Prop := {
  sh_static : ∀ g GV, uses g GV → isDyn GV = false →
    ∃ o, (g, o) ∈ smemOffsets L ∧ 0 <= o ∧ o + alloc (gv_type GV) <= static_end L ∧ (shared_align GV | o);
  sh_disjoint : ∀ g GV o g' GV' o', uses g GV → isDyn GV = false → uses g' GV' → isDyn GV' = false →
    (g, o) ∈ smemOffsets L → (g', o') ∈ smemOffsets L → g ≠ g' → o + alloc (gv_type GV) <= o' ∨ o' + alloc (gv_type GV') <= o;
  sh_dynamic : ∀ g GV, uses g GV → isDyn GV = true → smemDynamic L = true ∧ (g, smemStatic L) ∈ smemOffsets L;
  sh_aligned : (16 | smemStatic L) ∧ static_end L <= smemStatic L;
  sh_scratch : needs_scratch = true → (16 | tpScratchOff L) ∧ tpScratchPerSg L = 512 ∧ tpScratchSgs L = sgs_of ∧
    (if smemDynamic L && onDynamic then tpScratchOff L = smemStatic L else tpScratchOff L + 512 * sgs_of = smemStatic L);
}.
Lemma dynamic_elem d : d ∈ dynamics vec → ∃ GV, uses d GV ∧ isDyn GV = true.
Proof.
  unfold dynamics. intros ([g GV] & -> & [Hd Hin]%list_elem_of_filter)%list_elem_of_fmap. exists GV. by apply shared_used_elem in Hin.
Qed.
Lemma aligned_top top : 0 <= top → top + 31 < 2 ^ 32 → (16 | top) → Z.land (u32 (top + 15)) (u32 (Z.lnot 15)) = top.
Proof.
  intros H1 H2 Hd. unfold u32 at 1. rewrite (Z.mod_small (top + 15)) by lia. rewrite land_not15 by (unfold is_u32; lia).
  pose proof (round_up_aligned top 16 ltac:(lia) Hd) as Hr. unfold round_up in Hr. replace (top + 16 - 1) with (top + 15) in Hr by lia. done.
Qed.
Definition finish (offs : list (nat * Z)) (top : Z) (dyn : option nat) : SharedLayout :=
  let sgs := if needs_scratch then sgs_of else 0 in
  let end_ := if needs_scratch && negb (bool_decide (is_Some dyn) && onDynamic) then top + 512 * sgs else top in
  mkShared (offs ++ match dyn with Some g => [(g, end_)] | None => [] end) end_ (bool_decide (is_Some dyn))
    (if needs_scratch then top else 0) (if needs_scratch then 512 else 0) sgs.
Lemma layout_finish offs top dyn : room → place_shared vec [] 0 None = Ok (offs, top, dyn) → 0 <= top <= demand vec →
  ∃ top', layoutSharedMemory M operands calls maxThreads onDynamic = Ok (finish offs top' dyn) ∧ top <= top' ∧ (16 | top') ∧ top' + 512 * sgs_of + 32 <= 2 ^ 32 ∧ 0 <= sgs_of.
Proof.
  intros [Hmt Hroom] E Ht. assert (0 <= sgs_of) as Hsgs by (unfold sgs_of, kTpDefaultMaxThreads; destruct (maxThreads =? 0); apply Z.div_pos; lia).
  unfold layoutSharedMemory. rewrite E. cbn [rbind]. destruct (round_up32_spec top 16) as [Hr Hd]; [lia..|]. set (top' := round_up32 top 16) in *.
  exists top'. split; [|split_and!; [lia|done|lia|done]]. unfold finish. change (existsb converts calls) with needs_scratch.
  destruct needs_scratch; cbn [Z.eqb Pos.eqb negb andb]; [|done]. change ((if maxThreads =? 0 then kTpDefaultMaxThreads else maxThreads) / 32) with sgs_of.
  change (8 * 16 * 4) with 512. change (512 =? 0) with false. cbn [negb]. fold sgs_of. rewrite (aligned_top top') by (done || lia).
  destruct (bool_decide (is_Some dyn) && onDynamic); cbn [negb]; [done|].
  assert (u32 (top' + u32 (512 * sgs_of)) = top' + 512 * sgs_of) as -> by (unfold u32; rewrite (Z.mod_small (512 * sgs_of)) by lia; apply Z.mod_small; lia).
  done.
Qed.
Lemma finish_spec offs top dyn : 0 <= sgs_of → stacked 0 (static vec) offs top → ∀ top', top <= top' → (16 | top') → option_list dyn = dynamics vec →
  shared_spec (finish offs top' dyn).
Proof.
  intros Hsgs Hs top' Htop Hd Hdyn. set (L := finish offs top' dyn).
  assert (∀ g GV o, uses g GV → isDyn GV = false → (g, o) ∈ smemOffsets L → (g, o) ∈ offs) as Hin.
  { intros g GV o Hu Hst Hin. cbn in Hin. apply elem_of_app in Hin as [?|Hin]; [done|]. destruct dyn as [d|]; [|by apply elem_of_nil in Hin].
    apply list_elem_of_singleton in Hin as [= -> _]. exfalso. destruct (dynamic_elem d) as (GV' & (E' & _) & Hdy); [rewrite <- Hdyn; left|].
    destruct Hu as (E & _). rewrite E in E'. injection E' as <-. congruence. }
  assert (top' <= static_end L ∧ static_end L <= smemStatic L ∧ (16 | smemStatic L)) as (H1 & H2 & H3).
  { unfold static_end, L, finish. destruct needs_scratch; cbn [andb tpScratchOff smemStatic]; [|split_and!; [lia..|done]].
    destruct (negb _); split_and!; try lia; [|done]. apply Z.divide_add_r; [done|]. apply Z.divide_mul_l. by exists 32. }
  split.
  - intros g GV Hu Hst. destruct (stacked_at (static vec) g GV _ _ _ Hs) as (o & Ho & ? & ? & ?); [by apply static_elem|].
    exists o. split_and!; [apply elem_of_app; by left|lia..|done].
  - intros g GV o g' GV' o' Hu Hst Hu' Hst' Ho Ho' Hne. eapply (stacked_disjoint (static vec) g GV o g' GV' o'); eauto;
      [apply static_NoDup|by apply static_elem..].
  - intros g GV Hu Hdy. assert (g ∈ dynamics vec) as Hg.
    { unfold dynamics. apply list_elem_of_fmap. exists (g, GV). split; [done|]. apply list_elem_of_filter. split; [done|]. by apply shared_used_elem. }
    rewrite <- Hdyn in Hg. destruct dyn as [d|]; [|by apply elem_of_nil in Hg]. apply list_elem_of_singleton in Hg as ->. split; [done|].
    apply elem_of_app. right. left.
  - done.
  - intros Hn. unfold L, finish. rewrite Hn. cbn [tpScratchOff tpScratchPerSg tpScratchSgs smemDynamic smemStatic andb].
    split_and!; [done..|]. by destruct (_ && onDynamic).
Qed.
Lemma shared_layout_ok : room →
  match layoutSharedMemory M operands calls maxThreads onDynamic with
  | Ok L => shared_spec L ∧ (length (dynamics vec) <= 1)%nat
  | Err e => e = "more than one extern __shared__ array"%string ∧ (1 < length (dynamics vec))%nat
  end.
Proof.
  intros Hroom. assert (0 <= sgs_of) as Hsgs by (unfold sgs_of, kTpDefaultMaxThreads; destruct Hroom; destruct (maxThreads =? 0); apply Z.div_pos; lia).
  pose proof (place_shared_spec vec [] 0 None ltac:(lia) ltac:(destruct Hroom; lia)) as Hp.
  destruct (place_shared vec [] 0 None) as [[[offs top] dyn]|e] eqn:E.
  - destruct Hp as (new & -> & Hs & Hb & Hdyn). pose proof (stacked_le _ _ _ _ Hs).
    destruct (layout_finish _ _ _ Hroom E) as (top' & -> & K1 & K2 & _); [lia|]. split.
    + eapply finish_spec; eauto.
    + assert (dynamics vec = option_list dyn) as -> by done. destruct dyn; cbn; lia.
  - destruct Hp as [-> Hd]. unfold layoutSharedMemory. rewrite E. done.
Qed.
End kernel.
End shared.

(** ** The parameter block *)
Section params.
Context `{LayoutLaws}.
(** how C places the fields of a structure: padding bytes have alignment one *)
Fixpoint metal_offsets (malign : Argument → Z) (fs : list Field) (off : Z) : list Z * Z :=
  match fs with
  | [] => ([], off)
  | FPad _ n :: fs => metal_offsets malign fs (off + n)
  | FParam _ A :: fs => let o := round_up off (malign A) in let r := metal_offsets malign fs (o + param_size A) in (o :: r.1, r.2)
  end.
Definition param_demand (args : list Argument) : Z := foldr (λ A s, param_size A + param_align A + s) 0 args.
Definition arg_ok (A : Argument) : Prop := 0 <= param_size A ∧ 0 < param_align A.
Fixpoint laid_out (lo : Z) (args : list Argument) (ps : list ParamABI) (hi : Z) : Prop :=
  match args, ps with
  | [], [] => lo = hi
  | A :: args, p :: ps =>
      p_kind p = param_kind A ∧ p_size p = param_size A ∧ (param_align A | p_offset p) ∧ lo <= p_offset p ∧ laid_out (p_offset p + param_size A) args ps hi
  | _, _ => False
  end.
Lemma param_demand_nonneg args : Forall arg_ok args → 0 <= param_demand args.
Proof. induction 1 as [|A args [? ?] _ IH]; cbn [param_demand foldr]; [done|]. fold (param_demand args). lia. Qed.
Lemma place_params_spec malign args : ∀ off idx, Forall arg_ok args → (∀ A, A ∈ args → 0 < malign A ∧ (malign A | param_align A)) →
  0 <= off → off + param_demand args < 2 ^ 32 →
  let '(ps, fs, top) := place_params args off idx in
  laid_out off args ps top ∧ off <= top <= off + param_demand args ∧ metal_offsets malign fs off = (p_offset <$> ps, top).
Proof.
  induction args as [|A args IH]; intros off idx Hok Hm Hoff Hd; cbn [place_params].
  { cbn. split_and!; (done || lia). }
  pose proof Hok as Hok'. apply Forall_cons in Hok as [[Hs Ha] Hok]. cbn [param_demand foldr] in Hd |- *. fold (param_demand args) in Hd |- *.
  pose proof (param_demand_nonneg args Hok) as Hn. destruct (round_up32_spec off (param_align A)) as [Hr Hdv]; [lia..|].
  set (at_ := round_up32 off (param_align A)) in *.
  assert (u32 (at_ + param_size A) = at_ + param_size A) as -> by (apply Z.mod_small; lia).
  specialize (IH (at_ + param_size A) (idx + 1) Hok ltac:(intros; apply Hm; by right) ltac:(clear IH; lia) ltac:(clear IH; lia)).
  destruct (place_params args (at_ + param_size A) (idx + 1)) as [[ps fs] top]. destruct IH as (K1 & K2 & K3).
  destruct (Hm A) as [Hm1 Hm2]; [left|]. split_and!; [cbn; split_and!; (done || lia)|lia..|].
  assert (metal_offsets malign (FParam idx A :: fs) at_ = (at_ :: (p_offset <$> ps), top)) as Hat.
  { cbn [metal_offsets]. rewrite (round_up_aligned at_) by (done || by etrans). by rewrite K3. }
  destruct (Z.ltb_spec off at_).
  - cbn [app metal_offsets]. replace (off + (at_ - off)) with at_ by lia. exact Hat.
  - replace off with at_ by lia. exact Hat.
Qed.
End params.

(** ** The theorems *)
(** [C29] The shared memory of a kernel: when it fits 32 bits, the layout succeeds unless the kernel uses two dynamic objects. Every
    shared object the kernel's operands reach has an offset; static objects are aligned (to 16 at least), disjoint, and end
    before the scratch of the tensor conversions, if there is one; the scratch is 16-aligned and as large as the threads
    it is sized for; and the dynamic object starts at the end, 16-aligned, behind all of them - unless the kernel asks for
    the scratch on the dynamic object, where both start. *)
Theorem shared_objects `{LayoutLaws} (M : list GlobalVariable) (operands : list Constant) (calls : list Call) (maxThreads : Z) (onDynamic : bool)
    (Hroom : room M operands maxThreads) :
  match layoutSharedMemory M operands calls maxThreads onDynamic with
  | Ok L => shared_spec M operands calls maxThreads onDynamic L ∧ (length (dynamics (shared_used M operands)) <= 1)%nat
  | Err e => e = "more than one extern __shared__ array"%string ∧ (1 < length (dynamics (shared_used M operands)))%nat
  end.
Proof. by apply shared_layout_ok. Qed.
(** [C30] The parameter block: parameters are placed in order, each at a multiple of its alignment and behind the one before, the
    block's size is a positive multiple of eight that holds them all, and a Metal structure with the emitted fields, padding
    included, has every parameter at the offset the kernel's record gives, for every choice of Metal's alignments that
    divide the parameters' (a field that Metal aligns more strictly than the kernel's ABI would move). *)
Theorem parameter_block `{LayoutLaws} (malign : Argument → Z) (args : list Argument)
    (Hok : Forall arg_ok args) (Hm : ∀ A, A ∈ args → 0 < malign A ∧ (malign A | param_align A)) (Hd : param_demand args + 8 <= 2 ^ 32) :
  let '(ps, fs, size) := paramBlock args in
  ∃ top, laid_out 0 args ps top ∧ metal_offsets malign fs 0 = (p_offset <$> ps, top) ∧ top <= size ∧ 0 < size ∧ (8 | size).
Proof.
  unfold paramBlock. pose proof (place_params_spec malign args 0 0 Hok Hm ltac:(lia) ltac:(lia)) as Hp.
  destruct (place_params args 0 0) as [[ps fs] top]. destruct Hp as (K1 & K2 & K3).
  destruct (round_up32_spec top 8) as [Hr Hdv]; [lia..|]. exists top. split_and!; [done..| | |]; destruct (Z.eqb_spec (round_up32 top 8) 0); lia || done || by exists 1.
Qed.

Section witness.
#[local] Existing Instance natural_layout.
#[local] Existing Instance natural_laws.
Open Scope string_scope.
Definition tile : GlobalVariable := mkGV "tile" 3 false (Some 128) (TArray 24 (TFP Float)) (Some (CZero (TArray 24 (TFP Float)))).
Definition flags : GlobalVariable := mkGV "flags" 3 false None (TArray 3 (TInt 8)) (Some (CZero (TArray 3 (TInt 8)))).
Definition ring : GlobalVariable := mkGV "ring" 3 false (Some 64) (TArray 0 (TInt 8)) None.
Definition conversion : Call := mkCall "__mvcc_tp_acc2ptx_f32" true true.
Lemma shared_objects_witness :
  room [tile; flags; ring] [CGlobal 0; CGlobal 1; CGlobal 2] 64 ∧
  match layoutSharedMemory [tile; flags; ring] [CGlobal 0; CGlobal 1; CGlobal 2] [conversion] 64 false with
  | Ok L => shared_spec [tile; flags; ring] [CGlobal 0; CGlobal 1; CGlobal 2] [conversion] 64 false L ∧
            (length (dynamics (shared_used [tile; flags; ring] [CGlobal 0; CGlobal 1; CGlobal 2])) <= 1)%nat
  | Err e => e = "more than one extern __shared__ array" ∧ (1 < length (dynamics (shared_used [tile; flags; ring] [CGlobal 0; CGlobal 1; CGlobal 2])))%nat
  end.
Proof.
  assert (room [tile; flags; ring] [CGlobal 0; CGlobal 1; CGlobal 2] 64) as Hr by (split; by vm_compute). split; [exact Hr|].
  exact (shared_objects [tile; flags; ring] [CGlobal 0; CGlobal 1; CGlobal 2] [conversion] 64 false Hr).
Defined.
Lemma parameter_block_witness :
  let '(ps, fs, size) := paramBlock [Plain (TInt 32); Plain TPtr; ByVal (TStruct [TInt 8; TInt 16]) None] in
  ∃ top, laid_out 0 [Plain (TInt 32); Plain TPtr; ByVal (TStruct [TInt 8; TInt 16]) None] ps top ∧
    metal_offsets (λ _, 1) fs 0 = (p_offset <$> ps, top) ∧ top <= size ∧ 0 < size ∧ (8 | size).
Proof.
  apply (parameter_block (λ _, 1) [Plain (TInt 32); Plain TPtr; ByVal (TStruct [TInt 8; TInt 16]) None]).
  - repeat constructor; by vm_compute.
  - intros A _. split; [done|]. apply Z.divide_1_l.
  - by vm_compute.
Defined.
(** the layout of the demonstration: the dynamic object asks for 64 bytes of alignment and gets 16 *)
Theorem dynamic_alignment_ignored : ∃ L,
  layoutSharedMemory [tile; flags; ring] [CGlobal 0; CGlobal 1; CGlobal 2] [] 0 false = Ok L ∧
  smemOffsets L = [(1%nat, 0); (0%nat, 128); (2%nat, 224)] ∧ ¬ (shared_align ring | 224).
Proof. eexists. split; [by vm_compute|]. split; [done|]. intros [q Hq]. change (224 = q * 64) in Hq. lia. Qed.
(** a launch bound below a simdgroup reserves no scratch, and the record then carries no bound *)
Theorem small_bound_no_scratch : ∃ L,
  layoutSharedMemory [ring] [CGlobal 0] [conversion] 16 false = Ok L ∧
  tpScratchPerSg L = 512 ∧ tpScratchSgs L = 0 ∧ recoveredMaxThreads L = 0 ∧ smemStatic L = tpScratchOff L.
Proof. eexists. split; [by vm_compute|]. done. Qed.
End witness.
